(* ===== verification/_CoqProject ===== *)
-Q . S2P
Prelude.v
Errors.v
Float64.v
Json.v
Accounting.v
Text.v
Decimal.v
StateKey.v
StateFile.v
TypedKey.v
StateEnvelope.v
Idempotency.v
Dlq.v
Drift.v
StateTransfer.v
Shard.v
Schema.v
Adaptive.v
Quality.v
Contract.v
WriteMode.v
Replication.v
Window.v
Join.v
Rollback.v
Batching.v
Lease.v
Transform.v
Resolve.v
ServePolicy.v
Rbac.v
Changes.v
Select.v
Fanout.v
Executor.v
Stage.v
ContentDiff.v
Cursor.v
Verify.v
Budget.v
Engine.v
Wrapping.v
Memory.v
Cleanup.v
Reshape.v
Tree.v
Masking.v
Policy.v
Layers.v
Topology.v
Merge.v
Network.v
Liveness.v
FileStore.v
Durability.v
Governance.v
StateVersion.v
Resilience.v
Hoare.v
RunStream.v
RunRules.v
Checkpoint.v
DlqRows.v
Coverage.v
CleanupRun.v
Endings.v
Pipeline.v
Resume.v
Delivery.v
ExactlyOnce.v
Overwrite.v
