(* ===== verification/Prelude.v ===== *)
(** Verification of the faucet-stream engine.

    faucet-stream moves records from a source to a sink. A run takes pages of
    JSON rows from the source, passes each page through governance (masking,
    quality checks, a data contract, schema drift), writes what is left to the
    sink, routes rejected rows to an optional dead-letter sink, flushes, and
    stores the page's bookmark in a state store so that a later run can resume.
    This library models that engine (src/crates/core/src) and proves what the
    design promises: rows are neither lost nor duplicated, a bookmark is stored
    only when it is safe to resume from, and a failure, a cancellation or the
    death of the process at any point keeps it so.

    * How the code is modelled

    Pure code is a Rocq function of the same name. Code with effects runs in the
    monad [M] of Engine.v: state passing over the environment, the clock, the
    counters and a trace of calls, with three endings (a value, an error, a dead
    process). The source, the sinks and the state store are records of
    operations on an arbitrary environment type, so a theorem about a run holds
    for every behaviour of the backends, replies lost after the effect included.
    A crash counter lets the process die before a call or after its effect.
    Integers keep their width: a [usize] or [u64] is a [Z] with the wrap,
    saturation or check of the source written out; [f64] is the binary64 format
    of the Standard Library's SpecFloat. JSON numbers keep serde_json's three
    forms. What third-party crates compute (JSON text, regular expressions, JSON
    Schema validators, error texts) is a parameter of the definitions that use
    it. The envelopes of one page carry one clock reading.

    * The files

    Foundations.
    - Prelude: results, machine integers, lists, tactics, hint databases.
    - Errors: error.rs, resilience/classify.rs.
    - Float64: binary64 operations with their exactness lemmas.
    - Json: serde_json values. Text: decimal rendering and parsing, trimming,
      splitting, replacing.
    - Accounting: accounting.rs, the row accounts of a page and a run.

    State.
    - StateKey: [validate_state_key] of state.rs; StateFile: its file names;
      TypedKey: state_key.rs, the building, rendering and parsing of keys.
    - StateEnvelope, StateVersion: state_version.rs, the versioned envelope, its
      compatibility check, migration, codec and store decorator.
    - Idempotency: idempotency.rs, commit tokens, the exactly-once wrapper,
      overwrite run tokens.
    - StateTransfer: the trait's default methods, the in-memory store, export and
      import of state.rs. The class [LawfulStore] is what they ask of a store.
    - FileStore: the file store of state.rs over a file system with a journal of
      unsynced directory changes, in which every call may be refused, lose its
      reply, or be the machine's last. Durability: its theorems.

    Reading.
    - Decimal, Replication: replication.rs, decimals, the comparison of keys,
      filters, bookmarks, binds. Cursor: replication/cursor.rs. Window: window.rs,
      and the passes a windowed REST source makes of it.
    - Shard: shard.rs. Transform: transform.rs. Stage: stage.rs. Reshape:
      cross_join.rs and zip_columns.rs. Tree: tree.rs.

    Page checks and writes.
    - Dlq: dlq.rs, envelopes, reasons, outcome counters.
    - Schema: schema.rs, page-schema inference; Drift: drift.rs, the diff of a page's
      schema with the destination's and the fitting of values.
    - Adaptive: adaptive.rs, the AIMD batch-size controller.
    - Quality: quality/*.rs; Contract: contract/*.rs.
    - Masking: masking/*.rs, detectors, digests, compilation and the walk that
      rewrites a record. Policy: policy/*.rs, labels, rules, their evaluation and the
      sink decorator that screens every write.
    - WriteMode: write_mode.rs, the planning of keyed writes.
    - Cleanup: cleanup.rs, the keys a run wrote, held bookmarks, and the scoped
      delete [Pipeline::run] makes after the stream.
    - Budget: budget.rs and the byte estimates of usage.rs.
    - Rollback: rollback.rs and the PostgreSQL sink's rollback.rs, the journal of
      before-images and the undo of a run of keyed writes. Batching: batching.rs and
      object_rollover.rs.
    - ContentDiff: diff.rs; Verify: the verification and repair session of
      cli/src/verify.

    The engine.
    - Engine: the effects, the traits as records of operations, the
      weakest-precondition rules.
    - Wrapping: transforming_source.rs, a source with stages attached. Layers:
      governance.rs, metadata.rs and profiling/sink.rs, the decorators stacked on a
      sink and on the dead-letter sink.
    - Memory: an in-memory sink, dead-letter sink and state store under a script
      of faults, for concrete runs.
    - Governance: governance/apply.rs, page.rs and write.rs. The classes
      [QualityPass] and [ContractPass] state what the page loop relies on, and
      the passes of Quality and Contract are their instances.
    - Resilience: resilience/*.rs and retry.rs, the retry loop and the breaker.
    - Hoare: a Hoare logic over what is observed of a run (a monitor of the
      trace, or the environment), and a reading of which calls code may make.
    - RunStream: [run_stream_with] of pipeline.rs, one definition per step.
    - Checkpoint, DlqRows, Endings: theorems about a streaming run.
    - Pipeline: [Pipeline::run] of pipeline.rs (resume, overwrite lifecycle) and
      [migrate_state_key] of state_key.rs.
    - Delivery: the contract [AtomicWorld] an effectively-once run asks of its
      collaborators, and the in-memory world that meets it.
    - ExactlyOnce, Overwrite: theorems about whole runs.

    Beside the engine.
    - Lease: cli/src/pipeline_state/lease.rs, the lease that keeps two runs of one row
      apart, as steps of concurrent runs over one store.
    - Resolve: resolve.rs, the external resources a config names (paths, URLs, programs)
      and the allow-list they are held to. ServePolicy: cli/src/serve/references.rs, the
      server's lists by who wrote the config.
    - Rbac: cli/src/serve/rbac.rs and auth.rs, who may call the server, with the count of
      failed attempts. Changes: cli/src/serve/changes, change requests and their approvals
      as steps of several servers over one store.
    - Select: cli/src/select.rs, which rows of a matrix a run takes and in which order.
    - Fanout: cli/src/discovery_matrix.rs, the values a row lists and the tuples another row
      fans out over. Executor: the levels of [run_expanded] in cli/src/executor.rs, over
      everything that can happen to the tasks of a level.

    Graphs of several sources and sinks (topology.rs).
    - Join: join.rs, the hash join. Topology: nodes, edges, [validate], and what a
      run derives from the graph. Merge: the bookmark gate of a merge.
    - Network: the node loops as processes over bounded channels; an action is one
      turn of a node, a failure, a cancellation or a stop. Liveness: that every run
      ends.
    - Resume: the resume plan, the pages a sink skips, the end of the overwriting
      sinks and the report.

    * What is proved

    Delivery. Under [AtomicWorld] the destination always holds a prefix of the
    governed log, each row once, after any number of runs that fail or die
    anywhere, and the whole log after a run that returns
    ([exactly_once_prefix], [exactly_once_complete]). This is a refinement: the
    abstract state is the number of committed pages, and every call of the
    engine preserves it or moves it by one page.

    Checkpoints. No state write happens before the writes it covers are flushed
    and acknowledged ([checkpoint_after_durable]); with overwrite, none before
    the swap ([overwrite_swaps_then_checkpoints], [failed_overwrite_discarded]);
    a complete read's bookmarks wait for its cleanup ([held_bookmarks_are_deferred]);
    a run that returns has flushed ([completed_run_is_flushed]) and one that
    fails flushes and keeps its error ([failed_run_flushes_and_keeps_error]); a
    sink that cannot take a replay is never offered a row twice
    ([unsafe_sink_never_resubmitted]).

    Rows. Governance and the dead-letter path conserve the rows of a page
    ([governance_conserves_rows], [dlq_page_accounts_every_row], with
    [quality_splits_page], [contract_splits_page]); accounts settle exactly when
    every row is named ([settle_sound]); envelopes can be read back
    ([envelope_roundtrip]); quarantining drifted rows leaves a page that fits
    ([quarantine_clears_drift], over [inferred_schema_describes_rows]); a budget is
    never exceeded ([budget_never_exceeded], [merge_is_conjunction]); a scoped delete
    removes the rows of its scope the run did not write and no others
    ([cleanup_removes_exactly_the_missing]).

    Runs of one row. Of all the runs that take, renew, lose and give up a row's lease at
    most one is active ([one_active_run]); a take that nothing disturbs is refused
    exactly when a live holder stands in its way ([undisturbed_take]), and a run whose
    lease was replaced is told at its next renewal ([displaced_run_is_told]).

    References. A path the allow-list lets through opens below an allowed directory, links
    resolved ([admitted_paths_are_confined]); a URL it lets through names only allowed
    schemes, hosts and files ([admitted_urls_reach_allowed_hosts]), every numeric spelling of
    a metadata address is recognised ([metadata_spellings_are_recognised]) and a resolved
    name keeps no such address ([screened_addresses_are_usable]); every annotated string of a
    config is found ([annotated_strings_are_reported]), so that a tenant's config is confined
    to its directory and runs no program ([tenant_references_are_confined]). A wildcard in
    the host list lets the literal metadata address through ([wildcard_admits_metadata]).

    The server. A request that reaches a handler is a configured principal's, within its role
    and its tenant ([passed_requests_are_permitted], [tokens_name_principals],
    [viewers_only_read]); an address that failed too often stays locked for its window
    ([lockout_holds], [tracked_addresses_bounded]), although a valid token passes the lock
    ([locked_address_passes_with_a_valid_token]). A change request is carried out only with
    the approvals its rules ask for ([only_approved_changes_run]) and with the plan that was
    reviewed ([performed_as_reviewed]); a rejected or lapsed one never is
    ([closed_changes_stay_closed]); an executed one can end recorded as failed
    ([executed_change_ends_as_failed]). A row selection that is accepted runs exactly the
    rows it picks, with their ancestors and less the skipped ones ([selection_is_exact]), in an
    order that puts every row after those it depends on ([rows_run_after_their_ancestors]);
    a pattern on row ids matches what it means
    ([row_id_patterns_exact]); a mandatory row can be narrowed out
    ([mandatory_row_is_narrowed_out]).

    Executor. No row starts before every invocation of what it waits for has ended well
    ([rows_wait_for_their_prerequisites]); an overwritten destination is swapped once, and only
    after every invocation of its group ([destinations_swap_whole]), those with one
    destination being one group ([shared_destination_is_one_group]); a run over acyclic rows
    returns a summary in which no row is missing ([run_returns_its_summary]). A refused
    sibling does not stop a swap ([refused_sibling_is_swapped_without]), and two parents whose
    keys read alike can empty a destination ([emptied_by_a_sibling_key]). A listed dimension does not depend on how its
    source pages ([dimension_ignores_paging]), tuples are the choices of one value each
    ([cartesian_exact], [dims_product_size_exact]) and find the lists collected for them
    ([collected_list_injected]).

    Layers. Whatever a run configures, a page meets policy, metadata columns and budget
    in that order before the destination is given the stamped rows, and only what it
    accepted is counted ([governed_write_lands], [stamped_rows_are_numbered]); dead
    letters are masked, screened and counted the same way ([dead_letters_are_governed],
    [envelopes_are_masked]); a pass is turned off with its reason and alone
    ([without_turns_off]). Attaching stages to a source keeps its positions
    ([wrapped_positions_hold], [failed_page_ends_stream]).

    Sensitive data. A column the masking pass attests to the policy layer was
    rewritten with the attested action ([attested_columns_are_masked]) and a leaf no
    rule classifies is kept ([unclassified_leaves_are_kept]); a partial reveal shows
    no more than its tail ([partial_reveals_a_tail]); evaluation is silent exactly
    when every rule is satisfied ([evaluate_exact]); behind the policy sink only clean
    rows are written and every row of a partial write is answered
    ([only_clean_rows_reach_the_sink], [partial_write_answers_each_row]); and a label
    that may land only masked does, through both layers ([labelled_values_land_masked]).
    Keys that hold a dot are outside these theorems and defeat them
    ([dotted_key_passes_the_policy]).

    Graphs. [validate] accepts exactly the well-formed graphs ([validate_exact]). A run
    of one completes, whatever fails, when its joins do not wait for each other in a
    circle ([topology_run_completes]); the condition is needed, and [validate] does not
    check it ([crossed_joins_jam]). A gated merge lets a position pass only when every
    open input has delivered it ([gated_merge_safe]); the hash join is the nested loop
    ([hash_join_is_nested_loop]); a resumed graph gives each sink the rows after its own
    position, once ([resumed_sinks_get_the_rest]); and overwriting sinks are committed
    or discarded together ([sinks_finish_together]).

    State and tokens. Codecs, migrations and refusals ([resolve_encode_roundtrip],
    [migration_keeps_sequence], [foreign_state_refused]), tokens
    ([token_roundtrip], [token_order]), keys: what a store accepts is no path
    ([accepted_key_is_no_path]), rendering and parsing are inverse
    ([rendered_key_parses_back], [parsed_key_renders_back]), a child's key is
    valid and tells JSON types apart ([child_key_always_valid],
    [typed_parents_stay_apart]), keys have files of their own
    ([key_files_are_distinct]). A put on the file store is atomic and durable
    across the machine's death ([file_put_atomic]), and a namespace moves whole
    between stores ([state_moves_whole], [export_document_roundtrip]).

    Reading. Decimal strings are ordered as the rationals they write
    ([decimal_order_exact]); on an ordered column a run's bookmark covers the rows
    read and no others ([bookmark_covers_run]); a resumed cursor read neither loses
    nor repeats a row ([cursor_resume_exact], [cursor_bookmark_roundtrip]); windows
    tile the time swept and successive runs reach the present ([windows_tile],
    [sweeps_reach_now]); shards read every key once ([pk_shards_partition]); key
    rewriting and flattening keep every value ([key_rewrite_exact],
    [flatten_keeps_leaves]), a page runs as its records do ([page_is_records]),
    crossed arrays make their product ([cross_join_is_product]), zipped rows stay
    aligned ([zip_columns_aligned]), a flattened tree is its preorder
    ([tree_flatten_is_preorder]), and unwrapped change events leave the table the changes leave
    ([cdc_unwrap_mirrors]).

    Parts. The retry loop and breaker ([retry_attempts_bounded],
    [retry_returns_first_settled], [breaker_opens_iff]), the controller
    ([aimd_size_in_bounds], [aimd_cooldown_holds]), the drift diff
    ([diff_schema_complete]), indexed membership and exact numeric bounds
    ([index_contains_is_scan], [integer_bound_exact]). A plan of keyed writes
    leaves the table its rows leave ([plan_writes_is_sequential]), its ordered
    form also where the destination identifies more keys
    ([ordered_runs_keep_presence]); the bounds of an overwrite window stay inside
    their SQL literals ([window_literals_do_not_escape]). Undoing a journaled run leaves
    the table as it was before the run ([rollback_undoes_run]) or, when a later run
    stands in the way, as it is ([blocked_rollback_changes_nothing]); a run that spells
    one key in two ways escapes the first ([respelled_key_survives_rollback]). Chunks
    cut a page into its rows ([chunks_cut_the_page]) and rolled-over objects hold
    every record ([rollover_keeps_every_record]). Verification by ranges
    finds exactly the differing rows and repair removes them
    ([diff_rows_exact], [verify_ranges_complete], [repair_heals]).

    * Fuel

    Loops over a page's chunks take the page's length as fuel: a chunk holds at
    least one row, so it is never exhausted before the page is. The retry loop's
    fuel is the policy's attempt count. The bisection of Verify.v takes fuel, and
    [verify_ranges_complete] shows that the weight of the planned ranges is enough. The windows of a
    run recurse on [max_windows]. Text replacement takes the text's length, since
    each step consumes at least one byte; a path of Tree.v takes its length
    ([tree_steps_fuel]) and the walk of a tree what is left of [max_depth], which is the
    code's own bound. The searches of Topology.v take the number of their edges and
    nodes ([search_spec], [dfs_spec] show it suffices), [bookmark_origins] the number of
    nodes, the length of the longest path. The prefixes of a column in Masking.v take its
    length ([name_action_segments]), the chunks of Batching.v and the
    pages of Wrapping.v the number of items, the hosts of a nested connection string its
    length ([url_hosts_settled]), the schema walks of Resolve.v what is left of the code's own
    depth bound. The matcher of Select.v takes the product of the lengths ([glob_match_exact])
    and its closure the rows and edges ([closure_settled]). A run of Executor.v recurses on what
    its levels meet, as many as it has rows being enough ([run_returns_its_summary]). Everything else is structural
    recursion.

    * What is not modelled

    The native-byte and Arrow transfer paths, lag polling, column statistics
    and usage meters; the page loop takes masking as a function on rows, and
    [apply_masking_rows] shows the pass of Masking.v is one; of a graph's run the
    flush grace after which node tasks are aborted and the options handed to its sinks'
    streams; broker leases; the undo of append
    and overwrite runs; waiting for an OS
    lock that is held; the recognition of strict comparisons in a query text and
    the writing of binds into request bodies; the connectors (but for the window
    passes of the REST source), the command line (but for verification, the run lease, the row selection and
    the executor's levels) and the
    server (but for its reference policies, access
    control and change requests). Metrics, spans and log lines have no effect on a run and are left out
    everywhere. *)
From stdpp Require Export base tactics numbers option list strings gmap.
From Stdlib Require Export ZArith Lia.

Local Open Scope Z_scope.

(** ** Results

    Rust's [Result<A, E>]. *)
Inductive result (A E : Type) : Type :=
| Ok (a : A)
| Err (e : E).
Arguments Ok {A E} a.
Arguments Err {A E} e.

(** The [?] operator on a pure [Result]. *)
Definition result_bind {A B E} (r : result A E) (k : A -> result B E) : result B E :=
  match r with Ok a => k a | Err e => Err e end.

Definition is_ok {A E} (r : result A E) : bool :=
  match r with Ok _ => true | Err _ => false end.

(** [Result::ok]. *)
Definition result_ok {A E} (r : result A E) : option A :=
  match r with Ok a => Some a | Err _ => None end.

Declare Scope result_scope.
Delimit Scope result_scope with result.
Notation "'let?' x ':=' c 'in' k" := (result_bind c (fun x => k))
  (at level 10, x pattern, c at level 100, k at level 200)
  : result_scope.

(** ** Machine integers

    A [u64], [u32], [usize] (64-bit targets) or [u16] is a [Z]; every operation
    writes out what the source's operation does at the edge of the range. *)
Definition U16_MAX : Z := 65535.
Definition U32_MAX : Z := 4294967295.
Definition U64_MAX : Z := 18446744073709551615.

Definition I64_MIN : Z := -9223372036854775808.
Definition I64_MAX : Z := 9223372036854775807.

Definition is_i64 (z : Z) : Prop := I64_MIN <= z <= I64_MAX.
Definition is_u64 (z : Z) : Prop := 0 <= z <= U64_MAX.
Definition is_u32 (z : Z) : Prop := 0 <= z <= U32_MAX.

(** [wrapping_add], [AtomicU64::fetch_add], and a plain [+] in a release build. *)
Definition wadd64 (a b : Z) : Z := (a + b) mod (U64_MAX + 1).
(** [wrapping_mul]. *)
Definition wmul64 (a b : Z) : Z := (a * b) mod (U64_MAX + 1).
(** [z as i64] and [z as u64]. *)
Definition cast_i64 (z : Z) : Z := (z - I64_MIN) mod (U64_MAX + 1) + I64_MIN.
Definition cast_u64 (z : Z) : Z := z mod (U64_MAX + 1).
(** [saturating_add] on 64 and 32 bits, [saturating_sub]. *)
Definition sadd64 (a b : Z) : Z := Z.min (a + b) U64_MAX.
Definition sadd32 (a b : Z) : Z := Z.min (a + b) U32_MAX.
Definition ssub (a b : Z) : Z := Z.max 0 (a - b).
(** [2u32.saturating_pow(n)]. *)
Definition spow2_32 (n : Z) : Z := if n <? 32 then 2 ^ n else U32_MAX.

(** A [std::time::Duration] as its count of nanoseconds. *)
Definition DURATION_MAX : Z := U64_MAX * 1000000000 + 999999999.
(** [Duration::saturating_mul(u32)]. *)
Definition dur_smul (d k : Z) : Z := Z.min (d * k) DURATION_MAX.
(** [d.as_nanos() as u64] and [d.as_millis() as u64] (the cast truncates). *)
Definition dur_nanos64 (d : Z) : Z := d mod (U64_MAX + 1).
Definition dur_millis64 (d : Z) : Z := (d / 1000000) mod (U64_MAX + 1).

(** [Vec::len] as a [usize]. *)
Definition zlen {A} (l : list A) : Z := Z.of_nat (length l).

(** ** Strings *)

(** [Vec::is_empty]. *)
Definition is_nil {A} (l : list A) : bool := match l with [] => true | _ => false end.

(** [slice::join]. *)
Fixpoint join (sep : string) (l : list string) : string :=
  match l with
  | [] => EmptyString
  | [x] => x
  | x :: l => x +:+ sep +:+ join sep l
  end.

(** [char::to_ascii_lowercase] on one byte. *)
Definition ascii_lower (c : Ascii.ascii) : Ascii.ascii :=
  let n := Ascii.nat_of_ascii c in
  if decide (65 <= n <= 90)%nat then Ascii.ascii_of_nat (n + 32) else c.

Fixpoint string_lower (s : string) : string :=
  match s with
  | EmptyString => EmptyString
  | String c s => String (ascii_lower c) (string_lower s)
  end.

Definition string_eqb (a b : string) : bool := bool_decide (a = b).

(** [slice::contains] on strings; [Option::is_none], [Option::or]. *)
Definition mem (k : string) (l : list string) : bool := bool_decide (k ∈ l).
Definition is_none {A} (o : option A) : bool := match o with None => true | Some _ => false end.
Definition option_or {A} (a b : option A) : option A := match a with Some _ => a | None => b end.

(** ** Lists *)

(** The sum of a list of counters. *)
Definition zsum (l : list Z) : Z := fold_right Z.add 0 l.

(** [l[a..a + n]]. *)
Definition slice {A} (a n : nat) (l : list A) : list A := take n (drop a l).

(** Elements of [l] whose position satisfies [p], counting from [i]. *)
Fixpoint keep_at {A} (p : nat -> bool) (i : nat) (l : list A) : list A :=
  match l with
  | [] => []
  | x :: l => if p i then x :: keep_at p (S i) l else keep_at p (S i) l
  end.

(** The rows of a page with their positions, counting from [i]. *)
Definition indexed {A} (i : nat) (l : list A) : list (A * nat) := zip l (seq i (length l)).

(** The rows of a page left when the positions [q] are taken out. *)
Definition rows_without {A} (q : list nat) (l : list A) : list (A * nat) :=
  filter (fun p => p.2 ∉ q) (indexed 0 l).

(** ** Tactics and hint bases *)
Create HintDb faucet.
Create Rewrite HintDb zlen.

(** Case analysis on every [match] scrutinee of the goal and the hypotheses. *)
Ltac case_all :=
  repeat (case_match; simplify_eq/=; try done).

(** Reflects boolean tests on [Z] and [nat] into propositions. *)
Ltac reflect_bools :=
  repeat match goal with
  | H : (_ <? _)%Z = true |- _ => apply Z.ltb_lt in H
  | H : (_ <? _)%Z = false |- _ => apply Z.ltb_ge in H
  | H : (_ <=? _)%Z = true |- _ => apply Z.leb_le in H
  | H : (_ <=? _)%Z = false |- _ => apply Z.leb_gt in H
  | H : (_ =? _)%Z = true |- _ => apply Z.eqb_eq in H
  | H : (_ =? _)%Z = false |- _ => apply Z.eqb_neq in H
  | H : _ && _ = true |- _ => apply andb_true_iff in H as [? ?]
  | H : _ || _ = false |- _ => apply orb_false_iff in H as [? ?]
  | H : negb _ = true |- _ => apply negb_true_iff in H
  | H : negb _ = false |- _ => apply negb_false_iff in H
  | H : bool_decide _ = true |- _ => apply bool_decide_eq_true in H
  | H : bool_decide _ = false |- _ => apply bool_decide_eq_false in H
  end.

(** Arithmetic on lengths. *)
Ltac zlen_lia :=
  unfold zlen in *; rewrite ?length_app, ?length_rev, ?length_fmap in *; cbn [length] in *; lia.

(** ** Shared lemmas *)

Lemma zlen_nonneg {A} (l : list A) : 0 <= zlen l.
Proof. unfold zlen. lia. Qed.

Lemma zlen_app {A} (k l : list A) : zlen (k ++ l) = zlen k + zlen l.
Proof. unfold zlen. rewrite length_app. lia. Qed.

Lemma zlen_nil {A} : zlen (@nil A) = 0.
Proof. done. Qed.

Lemma zlen_cons {A} (x : A) l : zlen (x :: l) = 1 + zlen l.
Proof. unfold zlen. simpl. lia. Qed.

Lemma zlen_fmap {A B} (f : A -> B) l : zlen (f <$> l) = zlen l.
Proof. unfold zlen. by rewrite length_fmap. Qed.

Lemma zlen_zero {A} (l : list A) : zlen l = 0 -> l = [].
Proof. destruct l; [done|]. rewrite zlen_cons. pose proof (zlen_nonneg l). lia. Qed.

Lemma zsum_app k l : zsum (k ++ l) = zsum k + zsum l.
Proof. unfold zsum. induction k; simpl; lia. Qed.

Lemma wadd64_small a b : 0 <= a + b <= U64_MAX -> wadd64 a b = a + b.
Proof. intros. unfold wadd64. apply Z.mod_small. lia. Qed.

Lemma wadd64_range a b : is_u64 (wadd64 a b).
Proof.
  unfold wadd64, is_u64. pose proof (Z.mod_pos_bound (a + b) (U64_MAX + 1)).
  unfold U64_MAX in *. lia.
Qed.

(** Replaces [wadd64] by [+], innermost first, where [lia] bounds the sum. *)
Ltac unwrap64 :=
  repeat match goal with
  | |- context [wadd64 ?a ?b] =>
      lazymatch a with context [wadd64 _ _] => fail | _ => idtac end;
      lazymatch b with context [wadd64 _ _] => fail | _ => idtac end;
      rewrite (wadd64_small a b) by lia
  | H : context [wadd64 ?a ?b] |- _ =>
      lazymatch a with context [wadd64 _ _] => fail | _ => idtac end;
      lazymatch b with context [wadd64 _ _] => fail | _ => idtac end;
      rewrite (wadd64_small a b) in H by lia
  end.

Lemma slice_app_drop {A} (a n : nat) (l : list A) :
  slice a n l ++ drop (a + n) l = drop a l.
Proof. unfold slice. rewrite <- drop_drop. by rewrite take_drop. Qed.

Lemma length_slice {A} (a n : nat) (l : list A) :
  (a + n <= length l)%nat -> length (slice a n l) = n.
Proof. intros. unfold slice. rewrite length_take, length_drop. lia. Qed.

Lemma slice_all {A} (l : list A) : slice 0 (length l) l = l.
Proof. unfold slice. by rewrite drop_0, firstn_all. Qed.

Lemma keep_at_length {A} p i (l : list A) : (length (keep_at p i l) <= length l)%nat.
Proof. revert i. induction l as [|x l IH]; intros i; simpl; [done|]. specialize (IH (S i)). case_match; simpl; lia. Qed.

Lemma keep_at_true {A} i (l : list A) : keep_at (fun _ => true) i l = l.
Proof. revert i. induction l as [|x l IH]; intros i; simpl; [done|]. by rewrite IH. Qed.

Lemma indexed_app {A} i (k l : list A) : indexed i (k ++ l) = indexed i k ++ indexed (i + length k) l.
Proof.
  unfold indexed. rewrite length_app, seq_app.
  rewrite zip_with_app by by rewrite length_seq. done.
Qed.

Lemma elem_of_indexed {A} i (l : list A) x n :
  (x, n) ∈ indexed i l <-> (i <= n)%nat /\ l !! (n - i)%nat = Some x.
Proof.
  revert i. induction l as [|y l IH]; intros i; unfold indexed in *; simpl.
  - split; [intros H; inversion H|intros [_ H]; by rewrite lookup_nil in H].
  - rewrite elem_of_cons, IH. split.
    + intros [?|[? Hl]]; simplify_eq; [split; [lia|by rewrite Nat.sub_diag]|].
      replace (n - i)%nat with (S (n - S i)) by lia. split; [lia|done].
    + intros [Hn Hl]. destruct (decide (n = i)) as [->|Hne].
      * rewrite Nat.sub_diag in Hl. simplify_eq/=. by left.
      * right. replace (n - i)%nat with (S (n - S i)) in Hl by lia. split; [lia|done].
Qed.

Lemma indexed_snd {A} i (l : list A) : (indexed i l).*2 = seq i (length l).
Proof. unfold indexed. rewrite snd_zip; [done|]. by rewrite length_seq. Qed.

Lemma indexed_fst {A} i (l : list A) : (indexed i l).*1 = l.
Proof. unfold indexed. rewrite fst_zip; [done|]. by rewrite length_seq. Qed.

Lemma filter_ext_in {A} (P Q : A -> Prop) `{!forall x, Decision (P x), !forall x, Decision (Q x)}
  (l : list A) : (forall x, x ∈ l -> P x <-> Q x) -> filter P l = filter Q l.
Proof.
  induction l as [|x l IH]; intros Hl; [done|].
  assert (P x <-> Q x) as Hx by (apply Hl; left).
  rewrite !filter_cons, IH by (intros; apply Hl; by right).
  repeat case_decide; tauto.
Qed.

Lemma filter_all {A} (P : A -> Prop) `{!forall x, Decision (P x)} (l : list A) :
  (forall x, x ∈ l -> P x) -> filter P l = l.
Proof.
  induction l as [|x l IH]; intros Hl; [done|].
  rewrite filter_cons_True by (apply Hl; left). f_equal. apply IH. intros. apply Hl. by right.
Qed.

(** One more row at the end of the page, kept or taken out. *)
Lemma rows_without_keep {A} q (l : list A) x :
  (forall i, i ∈ q -> (i < length l)%nat) ->
  rows_without q (l ++ [x]) = rows_without q l ++ [(x, length l)].
Proof.
  intros Hq. unfold rows_without. rewrite indexed_app, filter_app. f_equal.
  change (indexed (0 + length l) [x]) with [(x, length l)].
  rewrite filter_cons_True; [done|]. simpl. intros Hi%Hq. lia.
Qed.

Lemma rows_without_drop {A} q (l : list A) x :
  rows_without (q ++ [length l]) (l ++ [x]) = rows_without q l.
Proof.
  unfold rows_without. rewrite indexed_app, filter_app.
  change (indexed (0 + length l) [x]) with [(x, length l)].
  rewrite (filter_cons_False _ _ []) by (simpl; set_solver). rewrite filter_nil, app_nil_r.
  apply filter_ext_in. intros [y n] Hx%elem_of_indexed. simpl.
  destruct Hx as [_ Hx%lookup_lt_Some]. rewrite elem_of_app, list_elem_of_singleton. intuition lia.
Qed.

Lemma rows_without_nil {A} (l : list A) : (rows_without [] l).*1 = l.
Proof. unfold rows_without. rewrite filter_all by set_solver. apply indexed_fst. Qed.

Lemma rows_without_snd {A} q (l : list A) :
  (rows_without q l).*2 = filter (fun i => i ∉ q) (seq 0 (length l)).
Proof.
  unfold rows_without. rewrite <- (indexed_snd 0 l).
  induction (indexed 0 l) as [|p rows IH]; [done|].
  rewrite fmap_cons, !filter_cons. repeat case_decide; [|done..]. by rewrite fmap_cons, IH.
Qed.

Lemma existsb_false_forall {A} (p : A -> bool) l x : existsb p l = false -> x ∈ l -> p x = false.
Proof.
  intros H Hin. apply not_true_iff_false. intros Hp. rewrite <- not_true_iff_false in H. apply H.
  apply existsb_exists. exists x. split; [by apply list_elem_of_In|done].
Qed.

Lemma cast_i64_range z : is_i64 (cast_i64 z).
Proof.
  unfold is_i64, cast_i64, I64_MIN, I64_MAX, U64_MAX. match goal with |- context [?a mod ?b] =>
    pose proof (Z.mod_pos_bound a b ltac:(lia)) end. lia.
Qed.
Lemma cast_i64_id z : is_i64 z -> cast_i64 z = z.
Proof. unfold is_i64, cast_i64, I64_MIN, I64_MAX, U64_MAX. intros. rewrite Z.mod_small; lia. Qed.
Lemma cast_u64_id z : is_u64 z -> cast_u64 z = z.
Proof. unfold is_u64, cast_u64, U64_MAX. intros. apply Z.mod_small. lia. Qed.

Lemma string_length_app a b : String.length (a +:+ b) = (String.length a + String.length b)%nat.
Proof. induction a as [|c a IH]; [done|]. exact (f_equal S IH). Qed.

Lemma string_app_nil_r (s : string) : s +:+ EmptyString = s.
Proof. induction s as [|c s IH]; [done|]. change (String c (s +:+ EmptyString) = String c s). by rewrite IH. Qed.

Lemma string_app_assoc (a b c : string) : (a +:+ b) +:+ c = a +:+ (b +:+ c).
Proof. induction a as [|x a IH]; [done|]. exact (f_equal (String x) IH). Qed.

Lemma result_ok_Some {A E} (r : result A E) a : result_ok r = Some a <-> r = Ok a.
Proof. destruct r; naive_solver. Qed.

#[export] Hint Rewrite @zlen_app @zlen_nil @zlen_cons @zlen_fmap : zlen.
#[export] Hint Resolve zlen_nonneg wadd64_range : faucet.
