(* ===== verification/Errors.v ===== *)
(** Error values of the engine and their retry classification:
    crates/core/src/error.rs and crates/core/src/resilience/classify.rs. *)
From S2P Require Import Prelude.

Local Open Scope Z_scope.

(** What the engine observes of a [reqwest::Error] (a third-party type): whether
    it is a timeout or a connect failure, and the status attached to it. *)
Record reqwest_error := ReqwestError {
  rq_is_timeout : bool;
  rq_status : option Z;
  rq_is_connect : bool;
}.

(** [enum FaucetError]. The boxed third-party errors ([serde_json::Error], a
    connector's own error) are represented by their text. Durations are counts
    of nanoseconds. *)
Inductive FaucetError : Type :=
| Http (e : reqwest_error)
| HttpStatus (status : Z) (url body : string)
| Json (e : string)
| JsonPath (m : string)
| Auth (m : string)
| RateLimited (wait : Z)
| Url (m : string)
| Transform (m : string)
| Config (m : string)
| Source (m : string)
| Sink (m : string)
| QualityFailure (check message : string)
| SchemaDrift (columns : list string) (message : string)
| PolicyViolation (rule column message : string)
| BudgetExceeded (budget : string) (limit actual : Z)
| RowsUnaccounted (offered accepted : Z)
| ProfileDrift (columns : list string) (message : string)
| ContractViolation (version message : string)
| State (m : string)
| StateIncompatible (key found expected : string)
| CircuitOpen (failures cooldown : Z)
| Timeout (operation : string) (after : Z)
| Cancelled (operation : string)
| Custom (e : string).

(** [StatusCode::is_server_error] of the [http] crate: 500..=599. *)
Definition is_server_error (status : Z) : bool := (500 <=? status) && (status <? 600).

(** [FaucetError::sink_status]. *)
Definition sink_status (status : option Z) (url message : string) : FaucetError :=
  match status with
  | Some s => if (s =? 429) || (500 <=? s) then HttpStatus s url message else Sink message
  | None => Sink message
  end.

(** [FaucetError::is_retriable]. *)
Definition is_retriable (e : FaucetError) : bool :=
  match e with
  | Http r => match rq_status r with
              | Some status => is_server_error status
              | None => true
              end
  | HttpStatus status _ _ => (500 <=? status) || (status =? 429)
  | RateLimited _ => true
  | Timeout _ _ => true
  | _ => false
  end.

(** ** resilience/classify.rs *)
Inductive RetryClass : Type := Http5xx | RateLimitedClass | Connection | TimeoutClass.

#[export] Instance RetryClass_eq_dec : EqDecision RetryClass.
Proof. solve_decision. Defined.

(** [RetryClassSet([bool; 4])]. *)
Record RetryClassSet := MkRetryClassSet {
  rcs_http5xx : bool;
  rcs_rate_limited : bool;
  rcs_connection : bool;
  rcs_timeout : bool;
}.

(** [RetryClassSet::contains]: the array cell [idx(c)] selects. *)
Definition contains (s : RetryClassSet) (c : RetryClass) : bool :=
  match c with
  | Http5xx => rcs_http5xx s
  | RateLimitedClass => rcs_rate_limited s
  | Connection => rcs_connection s
  | TimeoutClass => rcs_timeout s
  end.

(** [RetryClassSet::default]: every class. *)
Definition RetryClassSet_default : RetryClassSet := MkRetryClassSet true true true true.

(** [set.0[idx(c)] = true]. *)
Definition set_class (s : RetryClassSet) (c : RetryClass) : RetryClassSet :=
  match c with
  | Http5xx => MkRetryClassSet true (rcs_rate_limited s) (rcs_connection s) (rcs_timeout s)
  | RateLimitedClass => MkRetryClassSet (rcs_http5xx s) true (rcs_connection s) (rcs_timeout s)
  | Connection => MkRetryClassSet (rcs_http5xx s) (rcs_rate_limited s) true (rcs_timeout s)
  | TimeoutClass => MkRetryClassSet (rcs_http5xx s) (rcs_rate_limited s) (rcs_connection s) true
  end.

(** [RetryClassSet::from_iter]. *)
Definition from_iter (cs : list RetryClass) : RetryClassSet :=
  fold_left set_class cs (MkRetryClassSet false false false false).

(** [classify_transport]. *)
Definition classify_transport (is_timeout : bool) (status : option Z) (is_connect : bool)
  : option RetryClass :=
  if is_timeout then Some TimeoutClass
  else match status with
       | Some status =>
           if 500 <=? status then Some Http5xx
           else if status =? 429 then Some RateLimitedClass
           else None
       | None => Some Connection
       end.

(** [classify]. *)
Definition classify (e : FaucetError) : option RetryClass :=
  match e with
  | HttpStatus status _ _ =>
      if status =? 429 then Some RateLimitedClass
      else if 500 <=? status then Some Http5xx
      else None
  | RateLimited _ => Some RateLimitedClass
  | Timeout _ _ => Some TimeoutClass
  | Http r => classify_transport (rq_is_timeout r) (rq_status r) (rq_is_connect r)
  | _ => None
  end.

(** The three refusals that are never a sink failure of the rows
    ([dlq_write_error] in governance/apply.rs and the write arm of
    [run_stream_with] match on exactly these). *)
Definition is_refusal (e : FaucetError) : bool :=
  match e with
  | PolicyViolation _ _ _ | BudgetExceeded _ _ _ | RowsUnaccounted _ _ => true
  | _ => false
  end.

(** ** Facts *)

Lemma contains_set_class s c d :
  contains (set_class s c) d = bool_decide (c = d) || contains s d.
Proof. by destruct c, d. Qed.

Lemma contains_fold cs s d :
  contains (fold_left set_class cs s) d = bool_decide (d ∈ cs) || contains s d.
Proof.
  revert s. induction cs as [|c cs IH]; intros s; cbn [fold_left].
  - by rewrite bool_decide_eq_false_2 by apply not_elem_of_nil.
  - rewrite IH, contains_set_class. destruct (contains s d); [by rewrite !orb_true_r|].
    rewrite !orb_false_r. destruct (decide (c = d)) as [->|Hne].
    + rewrite (bool_decide_eq_true_2 (d = d)) by done.
      rewrite orb_true_r. symmetry. apply bool_decide_eq_true_2. left.
    + rewrite (bool_decide_eq_false_2 (c = d)) by done. rewrite orb_false_r.
      apply bool_decide_ext. rewrite elem_of_cons. naive_solver.
Qed.

(** The set built from a [retry_on] list contains exactly the listed classes. *)
Lemma from_iter_spec cs c : contains (from_iter cs) c = true <-> c ∈ cs.
Proof.
  unfold from_iter. rewrite contains_fold.
  replace (contains (MkRetryClassSet false false false false) c) with false by (by destruct c).
  rewrite orb_false_r. apply bool_decide_eq_true.
Qed.

(** Every error the legacy predicate retries has a retry class. *)
Lemma is_retriable_classified e : is_retriable e = true -> is_Some (classify e).
Proof.
  destruct e as [[[] [s|] ?]| | | | | | | | | | | | | | | | | | | | | | |];
    simpl; unfold is_server_error, classify_transport; try done;
    intros H; repeat case_match; try done; reflect_bools; try lia; eauto.
Qed.

(** An HTTP client error that carries status 429 is retried by the policy engine
    but not by the legacy predicate. *)
Example throttled_transport_error_disagrees :
  classify (Http (ReqwestError false (Some 429) false)) = Some RateLimitedClass /\
  is_retriable (Http (ReqwestError false (Some 429) false)) = false.
Proof. done. Qed.

(** The two retry predicates agree in one direction: whatever
    [FaucetError::is_retriable] retries has a retry class, so a policy that
    lists every class retries it too; and no refusal (policy violation, budget,
    rows unaccounted for) is retried by either. *)
Theorem retriable_has_class e :
  (is_retriable e = true -> exists c, classify e = Some c /\ contains RetryClassSet_default c = true) /\
  (is_refusal e = true -> classify e = None /\ is_retriable e = false).
Proof.
  split.
  - intros [c Hc]%is_retriable_classified. exists c. split; [done|]. by destruct c.
  - by destruct e.
Qed.
