(* ===== verification/Float64.v ===== *)
(** IEEE-754 binary64, as Rust's [f64]: the operations the engine uses, computed
    by the Standard Library's specification of floating point, and the bounds
    its users need. *)
From S2P Require Import Prelude.
From Stdlib Require Import Floats.SpecFloat.

Local Open Scope Z_scope.

Notation f64 := spec_float.

Definition PREC : Z := 53.
Definition EMAX : Z := 1024.

(** [n as f64] for a non-negative integer: round to nearest, ties to even. *)
Definition f64_of_Z (n : Z) : f64 := binary_normalize PREC EMAX n 0 false.
Definition f64_mul (a b : f64) : f64 := SFmul PREC EMAX a b.
Definition f64_add (a b : f64) : f64 := SFadd PREC EMAX a b.
Definition f64_div (a b : f64) : f64 := SFdiv PREC EMAX a b.
Definition f64_lt (a b : f64) : bool := SFltb a b.
Definition f64_le (a b : f64) : bool := SFleb a b.

(** The value of [m * 2^e] after truncation to an integer. *)
Definition int_part (m e : Z) : Z := if 0 <=? e then m * 2 ^ e else m / 2 ^ (- e).

(** [x as u64] (and [x.floor() as usize], the same on non-negative values):
    truncate, saturate, NaN to zero. *)
Definition f64_to_u64 (x : f64) : Z :=
  match x with
  | S754_finite false m e =>
      Z.min (int_part (Zpos m) e) U64_MAX
  | S754_infinity false => U64_MAX
  | _ => 0
  end.

(** Decimal literals: a correctly rounded quotient of exact integers. *)
Definition f64_ratio (a b : Z) : f64 := f64_div (f64_of_Z a) (f64_of_Z b).
Definition f64_zero : f64 := S754_zero false.
Definition f64_one : f64 := f64_of_Z 1.
Definition f64_half : f64 := f64_ratio 1 2.

(** [f64::is_finite], [f64::abs], [-]. *)
Definition f64_is_finite (f : f64) : bool :=
  match f with S754_zero _ | S754_finite _ _ _ => true | _ => false end.
Definition f64_abs (f : f64) : f64 := SFabs f.
Definition f64_sub (a b : f64) : f64 := SFsub PREC EMAX a b.

(** [f as i64] of a finite double in range. *)
Definition f64_to_i64 (f : f64) : Z :=
  match f with
  | S754_finite s m e =>
      let q := int_part (Zpos m) e in
      if s then Z.max (- q) I64_MIN else Z.min q I64_MAX
  | S754_infinity s => if s then I64_MIN else I64_MAX
  | _ => 0
  end.

Definition f64_valid (x : f64) : bool := valid_binary PREC EMAX x.

(** ** Facts *)

Lemma digits2_bounds p :
  2 ^ (Zpos (digits2_pos p) - 1) <= Zpos p < 2 ^ Zpos (digits2_pos p).
Proof.
  induction p as [p IH|p IH|]; simpl digits2_pos; [| |lia];
    rewrite Pos2Z.inj_succ;
    replace (Z.succ (Zpos (digits2_pos p)) - 1) with (Z.succ (Zpos (digits2_pos p) - 1)) by lia;
    rewrite !Z.pow_succ_r by lia; lia.
Qed.

Lemma shr_1_spec m r s :
  0 <= m ->
  shr_m (shr_1 (Build_shr_record m r s)) = m / 2 /\
  (shr_r (shr_1 (Build_shr_record m r s)) = Z.odd m) /\
  (shr_s (shr_1 (Build_shr_record m r s)) = r || s).
Proof.
  intros Hm. rewrite <- Z.div2_div. by destruct m as [|[p|p|]|p].
Qed.

Lemma iter_pos_Pos {A} (f : A -> A) p x : iter_pos f p x = Pos.iter f x p.
Proof. revert x. induction p as [p IH|p IH|]; intros x; simpl; rewrite ?IH; [|done..]. by rewrite !Pos.iter_swap. Qed.

(** Shifting right by [k] divides by [2 ^ k]; the round and sticky bits are
    clear only if nothing was lost. *)
Lemma shr_iter m k :
  0 <= m ->
  let r := Nat.iter k shr_1 (Build_shr_record m false false) in
  shr_m r = m / 2 ^ Z.of_nat k /\
  (shr_r r || shr_s r = true -> m mod 2 ^ Z.of_nat k <> 0).
Proof.
  intros Hm. induction k as [|k [IHm IHr]]; simpl.
  - split; [by rewrite Z.div_1_r|done].
  - set (r := Nat.iter k shr_1 (Build_shr_record m false false)) in *.
    destruct r as [m' r' s'] eqn:Er. simpl in IHm, IHr.
    assert (0 <= m') as Hm' by (subst m'; apply Z.div_pos; [lia|apply Z.pow_pos_nonneg; lia]).
    destruct (shr_1_spec m' r' s' Hm') as (H1 & H2 & H3).
    assert (2 ^ Z.of_nat (S k) = 2 ^ Z.of_nat k * 2) as Hp
      by (rewrite Nat2Z.inj_succ, Z.pow_succ_r; lia).
    assert (0 < 2 ^ Z.of_nat k) by (apply Z.pow_pos_nonneg; lia).
    rewrite Hp. split.
    + rewrite H1, IHm, Z.div_div by lia. done.
    + rewrite H2, H3. rewrite Z.rem_mul_r by lia. intros Hb.
      pose proof (Z.mod_pos_bound m (2 ^ Z.of_nat k)).
      pose proof (Z.mod_pos_bound (m / 2 ^ Z.of_nat k) 2).
      apply orb_true_iff in Hb as [Hb|Hb].
      * pose proof (Zmod_odd (m / 2 ^ Z.of_nat k)) as Ho. rewrite IHm in Hb. rewrite Hb in Ho. nia.
      * specialize (IHr Hb). nia.
Qed.

Lemma shr_spec m e k :
  0 <= m ->
  let '(r, e') := shr (Build_shr_record m false false) e k in
  e' = e + Z.max 0 k /\ shr_m r = m / 2 ^ Z.max 0 k /\
  (shr_r r || shr_s r = true -> 0 < k /\ m mod 2 ^ Z.max 0 k <> 0).
Proof.
  intros Hm. unfold shr. destruct k as [|p|p]; simpl.
  - rewrite Z.div_1_r. split; [lia|]. split; [done|]. done.
  - rewrite iter_pos_Pos, Pos2Nat.inj_iter.
    destruct (shr_iter m (Pos.to_nat p) Hm) as [H1 H2]. rewrite positive_nat_Z in H1, H2.
    split; [done|]. split; [done|]. intros Hb. split; [lia|auto].
  - rewrite Z.div_1_r. split; [lia|]. split; [done|]. done.
Qed.

(** Rounding adds at most one unit, and only when something was shifted out. *)
Lemma round_spec r :
  shr_m r <= round_nearest_even (shr_m r) (loc_of_shr_record r) <= shr_m r + 1 /\
  (round_nearest_even (shr_m r) (loc_of_shr_record r) <> shr_m r -> shr_r r || shr_s r = true).
Proof. destruct r as [m [] []]; simpl; repeat case_match; lia || (split; [lia|done]). Qed.

Lemma int_part_le m e n :
  0 <= m -> 0 <= n -> (e <= 0 -> m <= n * 2 ^ (- e)) -> (0 < e -> m * 2 ^ e <= n) ->
  int_part m e <= n.
Proof.
  intros. unfold int_part. destruct (Z.leb_spec 0 e).
  - destruct (Z.eq_dec e 0) as [->|]; [rewrite Z.pow_0_r; specialize (H1 ltac:(lia)); simpl in H1; lia|auto with lia].
  - apply Z.div_le_upper_bound; [apply Z.pow_pos_nonneg; lia|]. rewrite Z.mul_comm. auto with lia.
Qed.

Lemma shr_fexp_exact m e :
  0 <= m ->
  exists r k, shr_fexp PREC EMAX m e loc_Exact = (r, e + k) /\ 0 <= k /\
    k = Z.max 0 (fexp PREC EMAX (Zdigits2 m + e) - e) /\
    shr_m r = m / 2 ^ k /\ (shr_r r || shr_s r = true -> 0 < k /\ m mod 2 ^ k <> 0).
Proof.
  intros Hm. unfold shr_fexp, shr_record_of_loc.
  pose proof (shr_spec m e (fexp PREC EMAX (Zdigits2 m + e) - e) ltac:(lia)) as Hs.
  destruct (shr _ _ _) as [r e']. destruct Hs as (-> & H1 & H2).
  eexists r, _. split; [done|]. split; [lia|]. split; [done|]. split; [done|].
  intros Hb. destruct (H2 Hb). lia.
Qed.

(** Rounding an amount at most [n < 2^53] never leaves a positive exponent. *)
Lemma shift_nonpos m e n :
  0 <= m -> e <= 0 -> 0 <= n < 2 ^ PREC -> m <= n * 2 ^ (- e) ->
  e + Z.max 0 (fexp PREC EMAX (Zdigits2 m + e) - e) <= 0.
Proof.
  intros Hm He Hn Hle. unfold fexp, emin.
  destruct m as [|p|p]; [unfold PREC, EMAX; simpl Zdigits2; lia| |lia]. unfold Zdigits2.
  pose proof (digits2_bounds p) as [Hd _].
  destruct (Z.le_gt_cases (Zpos (digits2_pos p) + e) PREC) as [|Hgt]; [unfold PREC, EMAX in *; lia|].
  exfalso. assert (2 ^ (PREC + - e) <= 2 ^ (Zpos (digits2_pos p) - 1)) as Hc
    by (apply Z.pow_le_mono_r; unfold PREC in *; lia).
  rewrite Z.pow_add_r in Hc by (unfold PREC; lia).
  assert (0 < 2 ^ (- e)) by (apply Z.pow_pos_nonneg; lia). nia.
Qed.

(** A shift by [k] and a rounding keep a bound by an integer [n]. *)
Lemma round_shift_bound m e k r n :
  0 <= m -> 0 <= k -> e + k <= 0 -> m <= n * 2 ^ (- e) ->
  shr_m r = m / 2 ^ k -> (shr_r r || shr_s r = true -> 0 < k /\ m mod 2 ^ k <> 0) ->
  0 <= round_nearest_even (shr_m r) (loc_of_shr_record r) <= n * 2 ^ (- (e + k)) /\
  shr_m r <= n * 2 ^ (- (e + k)).
Proof.
  intros Hm Hk Hek Hle Hrm Hr.
  assert (0 < 2 ^ k) as H2k by (apply Z.pow_pos_nonneg; lia).
  destruct (round_spec r) as [Hb1 Hb2]. rewrite Hrm in *.
  assert (0 <= m / 2 ^ k) by (apply Z.div_pos; lia).
  assert (2 ^ (- e) = 2 ^ (- (e + k)) * 2 ^ k) as Hp by (rewrite <- Z.pow_add_r by lia; f_equal; lia).
  rewrite Hp in Hle. pose proof (Z.div_mod m (2 ^ k) ltac:(lia)) as Hdm.
  pose proof (Z.mod_pos_bound m (2 ^ k) H2k).
  assert (m / 2 ^ k <= n * 2 ^ (- (e + k))) by (apply Z.div_le_upper_bound; lia).
  split; [|done]. split; [lia|].
  destruct (Z.eq_dec (round_nearest_even (m / 2 ^ k) (loc_of_shr_record r)) (m / 2 ^ k)) as [->|Hne];
    [done|]. destruct (Hr (Hb2 Hne)) as [_ Hnz]. nia.
Qed.

(** Rounding a product known to be at most the integer [n < 2^53] gives a value
    whose integer part is at most [n]. *)
Lemma round_int_bound m e n :
  0 <= m -> e <= 0 -> 0 <= n < 2 ^ PREC -> m <= n * 2 ^ (- e) ->
  f64_to_u64 (binary_round_aux PREC EMAX false m e loc_Exact) <= n.
Proof.
  intros Hm He Hn Hle. unfold binary_round_aux.
  destruct (shr_fexp_exact m e Hm) as (r & k & -> & Hk & Hkeq & Hrm & Hr).
  pose proof (shift_nonpos m e n Hm He Hn Hle) as Hek. rewrite <- Hkeq in Hek.
  destruct (round_shift_bound m e k r n Hm Hk Hek Hle Hrm Hr) as [[H0 Hm2] _].
  set (m2 := round_nearest_even _ _) in *.
  destruct (shr_fexp_exact m2 (e + k) ltac:(lia)) as (r2 & k2 & -> & Hk2 & Hk2eq & Hrm2 & Hr2).
  pose proof (shift_nonpos m2 (e + k) n ltac:(lia) Hek Hn Hm2) as Hek2. rewrite <- Hk2eq in Hek2.
  destruct (round_shift_bound m2 (e + k) k2 r2 n ltac:(lia) Hk2 Hek2 Hm2 Hrm2 Hr2) as [_ Hb].
  destruct (shr_m r2) as [|p|p] eqn:Ep; [simpl; lia| |simpl; lia].
  rewrite (proj2 (Z.leb_le _ _)) by (unfold EMAX, PREC; lia). simpl.
  assert (int_part (Zpos p) (e + k + k2) <= n); [|lia].
  apply int_part_le; [lia|lia|done|lia].
Qed.

Lemma digits2_shift p d :
  Zpos (digits2_pos (Pos.iter xO p d)) = Zpos (digits2_pos p) + Zpos d.
Proof.
  induction d as [|d IH] using Pos.peano_ind; [simpl; lia|].
  rewrite Pos.iter_succ. simpl digits2_pos. lia.
Qed.

Lemma iter_xO_mul p d : Zpos (Pos.iter xO p d) = Zpos p * 2 ^ Zpos d.
Proof.
  induction d as [|d IH] using Pos.peano_ind; [simpl; lia|].
  rewrite Pos.iter_succ, Pos2Z.inj_succ, Z.pow_succ_r by lia.
  rewrite Pos2Z.inj_xO, IH. lia.
Qed.

(** A canonical mantissa and exponent round to themselves. *)
Lemma round_aux_canonical p e :
  canonical_mantissa PREC EMAX p e = true -> e <= EMAX - PREC ->
  binary_round_aux PREC EMAX false (Zpos p) e loc_Exact = S754_finite false p e.
Proof.
  intros Hc He. unfold canonical_mantissa in Hc. apply Zbool.Zeq_bool_eq in Hc.
  unfold binary_round_aux, shr_fexp. cbn [Zdigits2]. rewrite Hc, Z.sub_diag.
  cbn [shr shr_record_of_loc shr_m loc_of_shr_record round_nearest_even Zdigits2].
  rewrite Hc, Z.sub_diag. cbn [shr shr_m].
  by rewrite (proj2 (Z.leb_le _ _) He).
Qed.

(** Every integer below [2^53] is a double. *)
Lemma f64_of_Z_exact n :
  0 < n < 2 ^ PREC ->
  exists p e, f64_of_Z n = S754_finite false p e /\ e <= 0 /\ Zpos p = n * 2 ^ (- e).
Proof.
  intros Hn. destruct n as [|q|q]; try lia. unfold f64_of_Z, binary_normalize, binary_round.
  pose proof (digits2_bounds q) as [Hd1 Hd2]. set (d := digits2_pos q) in *.
  assert (Zpos d <= PREC) as Hd.
  { apply Znot_gt_le. intros Hgt.
    assert (2 ^ PREC <= 2 ^ (Zpos d - 1)) by (apply Z.pow_le_mono_r; unfold PREC in *; lia). lia. }
  assert (fexp PREC EMAX (Zpos d + 0) = Zpos d - PREC) as Hf
    by (unfold fexp, emin, PREC, EMAX in *; lia).
  unfold shl_align. rewrite Hf, Z.sub_0_r.
  destruct (Zpos d - PREC) as [|k|k] eqn:Ek; [|lia|].
  - exists q, 0. split; [|split; [lia|lia]]. apply round_aux_canonical; [|unfold EMAX, PREC; lia].
    unfold canonical_mantissa. fold d. rewrite Hf. done.
  - exists (Pos.iter xO q k), (Zneg k). split; [|split; [lia|apply iter_xO_mul]].
    apply round_aux_canonical; [|unfold EMAX, PREC; lia].
    unfold canonical_mantissa. rewrite digits2_shift. fold d.
    replace (Zpos d + Zpos k + Zneg k) with (Zpos d + 0) by lia.
    rewrite Hf. apply Zbool.Zeq_is_eq_bool. done.
Qed.

Lemma f64_below_one f :
  f64_valid f = true -> f64_lt f64_zero f = true -> f64_lt f f64_one = true ->
  exists p e, f = S754_finite false p e /\ e <= 0 /\ Zpos p <= 2 ^ (- e).
Proof.
  intros Hv H0 H1. destruct f as [|[]| |[] p e]; try discriminate.
  exists p, e. split; [done|].
  change f64_one with (S754_finite false 4503599627370496 (-52)) in H1.
  unfold f64_lt, SFltb, SFcompare in H1.
  assert (e < -52 \/ e = -52 /\ Zpos p < 2 ^ 52) as [He|[-> Hp]].
  { destruct (Z.compare_spec e (-52)) as [->|?|?]; [right; split; [done|]|by left|done].
    pose proof (Pos.compare_spec p 4503599627370496) as Hs. unfold Pos.compare in Hs.
    destruct Hs; [discriminate H1| |discriminate H1].
    clear Hv H0 H1. change (2 ^ 52) with 4503599627370496. by apply Pos2Z.pos_lt_pos. }
  - split; [lia|]. cbn in Hv. unfold bounded, canonical_mantissa in Hv.
    apply andb_true_iff in Hv as [Hv _]. apply Zbool.Zeq_bool_eq in Hv. unfold fexp in Hv.
    pose proof (digits2_bounds p) as [_ Hd].
    assert (2 ^ Zpos (digits2_pos p) <= 2 ^ (- e)) by (apply Z.pow_le_mono_r; unfold PREC in *; lia).
    lia.
  - split; [lia|]. simpl. lia.
Qed.

(** Scaling a batch size below [2^53] by a factor in (0, 1) never grows it. *)
Lemma f64_scale_le n f :
  0 <= n < 2 ^ PREC -> f64_valid f = true ->
  f64_lt f64_zero f = true -> f64_lt f f64_one = true ->
  f64_to_u64 (f64_mul (f64_of_Z n) f) <= n.
Proof.
  intros Hn Hv H0 H1. destruct (f64_below_one f Hv H0 H1) as (q & eq & -> & Heq & Hq).
  destruct (Z.eq_dec n 0) as [->|Hnz]; [done|].
  destruct (f64_of_Z_exact n ltac:(lia)) as (p & e & -> & He & Hp).
  unfold f64_mul. cbn [SFmul xorb]. apply round_int_bound; [lia|lia|done|].
  rewrite Z.opp_add_distr, Z.pow_add_r, Pos2Z.inj_mul, Hp by lia.
  assert (0 < 2 ^ (- e)) by (apply Z.pow_pos_nonneg; lia).
  rewrite Z.mul_assoc. apply Z.mul_le_mono_nonneg_l; nia.
Qed.

Lemma f64_to_u64_range x : 0 <= f64_to_u64 x <= U64_MAX.
Proof.
  destruct x as [|[]| |[] m e]; simpl; unfold U64_MAX; try lia.
  assert (0 <= int_part (Zpos m) e); [|lia]. unfold int_part.
  case_match; reflect_bools; [apply Z.mul_nonneg_nonneg; [lia|apply Z.pow_nonneg; lia]|].
  apply Z.div_pos; [lia|apply Z.pow_pos_nonneg; lia].
Qed.
