(* ===== verification/Json.v ===== *)
(** JSON values as the engine handles them: [serde_json::Value] and the few
    accessors the modelled code uses.

    An object is the list of its entries in iteration order. The shipped binary
    builds serde_json with [preserve_order] (cli/Cargo.toml), so the order is
    insertion order: [Map::insert] replaces in place or appends, and
    [Map::remove] is the index map's [swap_remove]. Numbers keep serde_json's
    three cases. The printer and the parser of JSON text are serde_json's own
    and are parameters wherever the engine calls them. *)
From S2P Require Import Prelude.
From Stdlib Require Import Floats.SpecFloat.

Local Open Scope Z_scope.

(** [serde_json::Number]: a [u64], a negative [i64], or a finite [f64] (given by
    its IEEE-754 binary64 datum). *)
Inductive Number : Type :=
| PosInt (n : Z)
| NegInt (n : Z)
| Float (f : spec_float).

Inductive Value : Type :=
| Null
| VBool (b : bool)
| VNumber (n : Number)
| VString (s : string)
| VArray (l : list Value)
| VObject (m : list (string * Value)).

(** [Map::get]. *)
Fixpoint assoc (k : string) (m : list (string * Value)) : option Value :=
  match m with
  | [] => None
  | (k', v) :: m => if decide (k = k') then Some v else assoc k m
  end.

(** [Map::insert]. *)
Fixpoint assoc_insert (k : string) (v : Value) (m : list (string * Value))
  : list (string * Value) :=
  match m with
  | [] => [(k, v)]
  | (k', v') :: m => if decide (k = k') then (k', v) :: m else (k', v') :: assoc_insert k v m
  end.

(** [Map::remove] under [preserve_order]: the last entry takes the hole. *)
Definition assoc_remove (k : string) (m : list (string * Value)) : list (string * Value) :=
  match list_find (fun e => e.1 = k) m with
  | None => m
  | Some (i, _) =>
      if decide (S i = length m) then take i m
      else match last m with
           | Some e => <[i := e]> (take (length m - 1) m)
           | None => m
           end
  end.

(** [Value::get(&str)]. *)
Definition get (v : Value) (k : string) : option Value :=
  match v with VObject m => assoc k m | _ => None end.

Definition as_object (v : Value) : option (list (string * Value)) :=
  match v with VObject m => Some m | _ => None end.

Definition as_str (v : Value) : option string :=
  match v with VString s => Some s | _ => None end.

(** [Value::as_u64]. *)
Definition as_u64 (v : Value) : option Z :=
  match v with VNumber (PosInt n) => Some n | _ => None end.

(** [Value::as_i64]: a [u64] above [i64::MAX] is not an [i64]. *)
Definition as_i64 (v : Value) : option Z :=
  match v with
  | VNumber (PosInt n) => if n <=? 9223372036854775807 then Some n else None
  | VNumber (NegInt n) => Some n
  | _ => None
  end.

Definition is_null (v : Value) : bool := match v with Null => true | _ => false end.

(** [Value::from(u64)], [Value::from(i64)], [Value::from(&str)]. *)
Definition of_u64 (n : Z) : Value := VNumber (PosInt n).
Definition of_i64 (n : Z) : Value := VNumber (if n <? 0 then NegInt n else PosInt n).

#[export] Instance spec_float_eq_dec : EqDecision spec_float.
Proof. solve_decision. Defined.

#[export] Instance Number_eq_dec : EqDecision Number.
Proof. solve_decision. Defined.

(** Structural equality of values, executable (nested recursion): finer than that of
    [serde_json], which does not look at the order of an object's fields ([json_eq] of
    Quality.v). It decides equality where the values compared were written by the same code
    and so with the same order. *)
Fixpoint value_eqb (a b : Value) {struct a} : bool :=
  match a, b with
  | Null, Null => true
  | VBool x, VBool y => Bool.eqb x y
  | VNumber x, VNumber y => bool_decide (x = y)
  | VString x, VString y => bool_decide (x = y)
  | VArray xs, VArray ys =>
      (fix go xs ys := match xs, ys with
                       | [], [] => true
                       | x :: xs, y :: ys => value_eqb x y && go xs ys
                       | _, _ => false
                       end) xs ys
  | VObject xs, VObject ys =>
      (fix go xs ys := match xs, ys with
                       | [], [] => true
                       | (k, x) :: xs, (k', y) :: ys =>
                           bool_decide (k = k') && (value_eqb x y && go xs ys)
                       | _, _ => false
                       end) xs ys
  | _, _ => false
  end.

(** Induction over values that reaches inside arrays and objects. *)
Fixpoint Value_nested_ind (P : Value -> Prop)
  (HN : P Null) (HB : forall b, P (VBool b)) (Hn : forall n, P (VNumber n))
  (HS : forall s, P (VString s)) (HA : forall l, Forall P l -> P (VArray l))
  (HO : forall m, Forall (fun e => P e.2) m -> P (VObject m)) (v : Value) : P v :=
  match v with
  | Null => HN
  | VBool b => HB b
  | VNumber n => Hn n
  | VString s => HS s
  | VArray l => HA l ((fix go l : Forall P l :=
      match l with
      | [] => Forall_nil_2 P
      | x :: l => Forall_cons_2 P x l (Value_nested_ind P HN HB Hn HS HA HO x) (go l)
      end) l)
  | VObject m => HO m ((fix go m : Forall (fun e => P e.2) m :=
      match m with
      | [] => Forall_nil_2 _
      | e :: m => Forall_cons_2 _ e m (Value_nested_ind P HN HB Hn HS HA HO e.2) (go m)
      end) m)
  end.

(** ** Facts *)

Lemma value_eqb_eq a b : value_eqb a b = true <-> a = b.
Proof.
  revert b. induction a as [|x|n|s|l IH|m IH] using Value_nested_ind;
    intros []; simpl; try (split; congruence).
  - rewrite eqb_true_iff. naive_solver.
  - rewrite bool_decide_eq_true. naive_solver.
  - rewrite bool_decide_eq_true. naive_solver.
  - enough (forall ys, (fix go xs ys := match xs, ys with
                       | [], [] => true
                       | x :: xs, y :: ys => value_eqb x y && go xs ys
                       | _, _ => false
                       end) l ys = true <-> l = ys) as -> by naive_solver.
    induction IH as [|x l Hx _ IH]; intros [|y ys]; try (split; congruence).
    rewrite andb_true_iff, Hx, IH. naive_solver.
  - match goal with |- _ <-> VObject m = VObject ?z => revert z end.
    enough (forall ys, (fix go xs ys := match xs, ys with
                       | [], [] => true
                       | (k, x) :: xs, (k', y) :: ys =>
                           bool_decide (k = k') && (value_eqb x y && go xs ys)
                       | _, _ => false
                       end) m ys = true <-> m = ys) as H by (intros z; rewrite H; naive_solver).
    induction IH as [|[k x] m Hx _ IH]; intros [|[k' y] ys]; try (split; congruence).
    rewrite !andb_true_iff, bool_decide_eq_true, Hx, IH. naive_solver.
Qed.

#[export] Instance Value_eq_dec : EqDecision Value.
Proof.
  intros a b. destruct (value_eqb a b) eqn:E.
  - left. by apply value_eqb_eq.
  - right. intros ->. destruct (value_eqb b b) eqn:F; [done|].
    assert (value_eqb b b = true) by by apply value_eqb_eq. congruence.
Defined.

Lemma assoc_insert_eq k v m : assoc k (assoc_insert k v m) = Some v.
Proof. induction m as [|[k' v'] m IH]; simpl; repeat (case_decide; simplify_eq/=); done. Qed.

Lemma assoc_insert_ne k k' v m : k <> k' -> assoc k (assoc_insert k' v m) = assoc k m.
Proof.
  intros Hne. induction m as [|[k'' v''] m IH]; simpl; repeat (case_decide; simplify_eq/=); done.
Qed.

(** ** Objects as maps: serde_json keeps keys unique *)

Lemma assoc_elem k v m : NoDup m.*1 -> assoc k m = Some v <-> (k, v) ∈ m.
Proof.
  induction m as [|[k' v'] m IH]; simpl; intros Hnd.
  - split; [done|]. intros H. by apply not_elem_of_nil in H.
  - apply NoDup_cons in Hnd as [Hni Hnd]. rewrite elem_of_cons. case_decide as Hk; subst.
    + split; [intros [= ->]; by left|]. intros [[= ->]|Hin]; [done|].
      exfalso. apply Hni. by apply (list_elem_of_fmap_2 fst m (k', v)).
    + rewrite IH by done. split; [by right|]. intros [[= -> ->]|]; done.
Qed.

Lemma assoc_perm m m' k : NoDup m.*1 -> m ≡ₚ m' -> assoc k m = assoc k m'.
Proof.
  intros Hnd Hp. assert (NoDup m'.*1) as Hnd' by (by rewrite <- Hp).
  apply option_eq. intros v. by rewrite !assoc_elem, Hp.
Qed.

Lemma assoc_remove_perm k m e i :
  list_find (fun e => e.1 = k) m = Some (i, e) -> m ≡ₚ e :: assoc_remove k m.
Proof.
  intros Hf. unfold assoc_remove. rewrite Hf. apply list_find_Some in Hf as (Hi & _ & _).
  pose proof (lookup_lt_Some _ _ _ Hi) as Hlt.
  rewrite <- (take_drop_middle m i e Hi) at 1.
  case_decide as Hend.
  - rewrite (drop_ge m (S i)) by lia. by rewrite Permutation_app_comm.
  - destruct (last m) as [z|] eqn:Hz; [|by apply last_None in Hz; subst].
    apply last_Some in Hz as [m' ->]. rewrite length_app in *. simpl in *.
    replace (length m' + 1 - 1)%nat with (length m') by lia.
    rewrite take_app_length, drop_app_le, take_app_le by lia.
    rewrite lookup_app_l in Hi by lia.
    rewrite (insert_take_drop m' i z) by lia.
    rewrite <- !Permutation_middle. apply perm_skip.
    by rewrite app_nil_r.
Qed.

Lemma assoc_remove_ne k k' m : NoDup m.*1 -> k <> k' -> assoc k (assoc_remove k' m) = assoc k m.
Proof.
  intros Hnd Hne. destruct (list_find (fun e => e.1 = k') m) as [[i e]|] eqn:Hf.
  - pose proof (assoc_remove_perm _ _ _ _ Hf) as Hp.
    rewrite (assoc_perm m _ k Hnd Hp). apply list_find_Some in Hf as (_ & He & _).
    destruct e as [ke ve]. simpl in *. subst. by rewrite decide_False.
  - unfold assoc_remove. by rewrite Hf.
Qed.

Lemma assoc_insert_fresh k v m : assoc k m = None -> assoc_insert k v m = m ++ [(k, v)].
Proof.
  induction m as [|[k' v'] m IH]; [done|]. cbn. case_decide; [done|]. intros Hn. by rewrite IH.
Qed.

Lemma assoc_none k (m : list (string * Value)) : assoc k m = None <-> k ∉ m.*1.
Proof.
  induction m as [|[k' v'] m IH]; cbn; [by split; [intros _; apply not_elem_of_nil|]|].
  rewrite not_elem_of_cons. case_decide; naive_solver.
Qed.

Lemma assoc_remove_keys k m :
  NoDup m.*1 -> NoDup (assoc_remove k m).*1 /\ k ∉ (assoc_remove k m).*1.
Proof.
  intros Hnd. destruct (list_find (fun e => e.1 = k) m) as [[i e]|] eqn:Hf.
  - pose proof (fmap_Permutation fst _ _ (assoc_remove_perm _ _ _ _ Hf)) as Hp. rewrite fmap_cons in Hp.
    apply list_find_Some in Hf as (_ & He & _). rewrite Hp in Hnd. apply NoDup_cons in Hnd as [Hn Hnd]. by subst k.
  - unfold assoc_remove. rewrite Hf. split; [done|]. apply list_find_None in Hf. intros (e & -> & He)%list_elem_of_fmap.
    rewrite Forall_forall in Hf. by apply (Hf e).
Qed.

Lemma assoc_remove_nodup k m : NoDup m.*1 -> NoDup (assoc_remove k m).*1.
Proof. apply assoc_remove_keys. Qed.

Lemma assoc_remove_eq k m : NoDup m.*1 -> assoc k (assoc_remove k m) = None.
Proof. intros. by apply assoc_none, assoc_remove_keys. Qed.
