(* ===== verification/Accounting.v ===== *)
(** Per-page row accounting: crates/core/src/accounting.rs. *)
From S2P Require Import Prelude Errors.

Local Open Scope Z_scope.

(** [struct WriteReport]. *)
Record WriteReport := MkWriteReport {
  wr_accepted : Z;
  wr_coalesced : Z;
  wr_skipped : Z;
}.

(** [WriteReport::accepted], [with_coalesced], [with_skipped], [keyed]. *)
Definition report_accepted (accepted : Z) : WriteReport := MkWriteReport accepted 0 0.
Definition with_coalesced (r : WriteReport) (coalesced : Z) : WriteReport :=
  MkWriteReport (wr_accepted r) coalesced (wr_skipped r).
Definition with_skipped (r : WriteReport) (skipped : Z) : WriteReport :=
  MkWriteReport (wr_accepted r) (wr_coalesced r) skipped.
Definition report_keyed (offered planned : Z) : WriteReport :=
  with_coalesced (report_accepted planned) (ssub offered planned).

(** [WriteReport::accounted] saturates. *)
Definition report_accounted (r : WriteReport) : Z :=
  sadd64 (sadd64 (wr_accepted r) (wr_coalesced r)) (wr_skipped r).

(** [WriteReport::check]. *)
Definition report_check (r : WriteReport) (offered : Z) : result unit FaucetError :=
  if offered <=? report_accounted r then Ok tt
  else Err (RowsUnaccounted offered (wr_accepted r)).

(** [struct RowAccounts]: the run's atomic counters (and, copied,
    [RowAccountsSnapshot]). *)
Record RowAccounts := MkRowAccounts {
  ra_transform_in : Z;
  ra_transform_out : Z;
  ra_offered : Z;
  ra_accepted : Z;
  ra_coalesced : Z;
  ra_skipped : Z;
  ra_failed : Z;
  ra_quarantined : Z;
  ra_dropped : Z;
  ra_unaccounted : Z;
  ra_non_finite : Z;
}.

Definition RowAccounts_new : RowAccounts := MkRowAccounts 0 0 0 0 0 0 0 0 0 0 0.

(** [RowAccountsSnapshot::filtered]. *)
Definition filtered (a : RowAccounts) : Z := ssub (ra_transform_in a) (ra_transform_out a).

(** [RowAccountsSnapshot::balanced]: the sum is a plain [u64] addition. *)
Definition balanced (a : RowAccounts) : bool :=
  (ra_offered a <=?
     wadd64 (wadd64 (wadd64 (wadd64 (wadd64 (ra_accepted a) (ra_coalesced a)) (ra_skipped a))
       (ra_failed a)) (ra_quarantined a)) (ra_dropped a))
  && (ra_unaccounted a =? 0).

(** [RowAccounts::add_non_finite], [RowAccounts::add_transform]. *)
Definition add_non_finite (a : RowAccounts) (n : Z) : RowAccounts :=
  MkRowAccounts (ra_transform_in a) (ra_transform_out a) (ra_offered a) (ra_accepted a)
    (ra_coalesced a) (ra_skipped a) (ra_failed a) (ra_quarantined a) (ra_dropped a)
    (ra_unaccounted a) (wadd64 (ra_non_finite a) n).
Definition add_transform (a : RowAccounts) (input output : Z) : RowAccounts :=
  MkRowAccounts (wadd64 (ra_transform_in a) input) (wadd64 (ra_transform_out a) output)
    (ra_offered a) (ra_accepted a) (ra_coalesced a) (ra_skipped a) (ra_failed a)
    (ra_quarantined a) (ra_dropped a) (ra_unaccounted a) (ra_non_finite a).

(** [struct PageAccount]. *)
Record PageAccount := MkPageAccount {
  pa_offered : Z;
  pa_accepted : Z;
  pa_coalesced : Z;
  pa_skipped : Z;
  pa_failed : Z;
  pa_quarantined : Z;
  pa_dropped : Z;
}.

(** [PageAccount::new]. *)
Definition PageAccount_new (offered : Z) : PageAccount := MkPageAccount offered 0 0 0 0 0 0.

(** The field updates the page loop makes on its account. *)
Definition set_quarantined (a : PageAccount) (n : Z) : PageAccount :=
  MkPageAccount (pa_offered a) (pa_accepted a) (pa_coalesced a) (pa_skipped a) (pa_failed a)
    n (pa_dropped a).
Definition add_accepted (a : PageAccount) (n : Z) : PageAccount :=
  MkPageAccount (pa_offered a) (wadd64 (pa_accepted a) n) (pa_coalesced a) (pa_skipped a)
    (pa_failed a) (pa_quarantined a) (pa_dropped a).
Definition add_failed (a : PageAccount) (n : Z) : PageAccount :=
  MkPageAccount (pa_offered a) (pa_accepted a) (pa_coalesced a) (pa_skipped a)
    (wadd64 (pa_failed a) n) (pa_quarantined a) (pa_dropped a).
Definition add_dropped (a : PageAccount) (n : Z) : PageAccount :=
  MkPageAccount (pa_offered a) (pa_accepted a) (pa_coalesced a) (pa_skipped a) (pa_failed a)
    (pa_quarantined a) (wadd64 (pa_dropped a) n).

(** [PageAccount::add_report]. *)
Definition add_report (a : PageAccount) (r : WriteReport) : PageAccount :=
  MkPageAccount (pa_offered a) (wadd64 (pa_accepted a) (wr_accepted r))
    (wadd64 (pa_coalesced a) (wr_coalesced r)) (wadd64 (pa_skipped a) (wr_skipped r))
    (pa_failed a) (pa_quarantined a) (pa_dropped a).

(** [PageAccount::accounted]. *)
Definition accounted (a : PageAccount) : Z :=
  wadd64 (wadd64 (wadd64 (wadd64 (wadd64 (pa_accepted a) (pa_coalesced a)) (pa_skipped a))
    (pa_failed a)) (pa_quarantined a)) (pa_dropped a).

(** [missing] of [PageAccount::settle]. *)
Definition missing (a : PageAccount) : Z := ssub (pa_offered a) (accounted a).

(** The counters [settle] folds the page into. *)
Definition fold_page (a : PageAccount) (c : RowAccounts) : RowAccounts :=
  MkRowAccounts (ra_transform_in c) (ra_transform_out c)
    (wadd64 (ra_offered c) (pa_offered a)) (wadd64 (ra_accepted c) (pa_accepted a))
    (wadd64 (ra_coalesced c) (pa_coalesced a)) (wadd64 (ra_skipped c) (pa_skipped a))
    (wadd64 (ra_failed c) (pa_failed a)) (wadd64 (ra_quarantined c) (pa_quarantined a))
    (wadd64 (ra_dropped c) (pa_dropped a)) (wadd64 (ra_unaccounted c) (missing a))
    (ra_non_finite c).

(** [PageAccount::settle]: the page is folded into the counters (when attached)
    whether or not it then fails. *)
Definition settle (a : PageAccount) (accounts : option RowAccounts)
  : option RowAccounts * result unit FaucetError :=
  (fold_page a <$> accounts,
   if missing a =? 0 then Ok tt else Err (RowsUnaccounted (pa_offered a) (pa_accepted a))).

(** The exact sum the page's counters name, without the 64-bit wrap. *)
Definition named (a : PageAccount) : Z :=
  pa_accepted a + pa_coalesced a + pa_skipped a + pa_failed a + pa_quarantined a + pa_dropped a.

(** Well-formed page accounts: machine counters whose sum does not overflow. *)
Definition account_wf (a : PageAccount) : Prop :=
  0 <= pa_offered a /\ 0 <= pa_accepted a /\ 0 <= pa_coalesced a /\ 0 <= pa_skipped a /\
  0 <= pa_failed a /\ 0 <= pa_quarantined a /\ 0 <= pa_dropped a /\ named a <= U64_MAX.

(** Well-formed run counters with room for [n] more rows in every counter. *)
Definition accounts_room (c : RowAccounts) (n : Z) : Prop :=
  0 <= ra_offered c /\ 0 <= ra_accepted c /\ 0 <= ra_coalesced c /\ 0 <= ra_skipped c /\
  0 <= ra_failed c /\ 0 <= ra_quarantined c /\ 0 <= ra_dropped c /\ 0 <= ra_unaccounted c /\
  ra_accepted c + ra_coalesced c + ra_skipped c + ra_failed c + ra_quarantined c + ra_dropped c
    + n <= U64_MAX /\
  ra_offered c + n <= U64_MAX /\ ra_unaccounted c + n <= U64_MAX.

(** ** Facts *)

Lemma accounted_exact a : account_wf a -> accounted a = named a.
Proof.
  unfold account_wf, named, accounted. intros. unwrap64. lia.
Qed.

(** [settle] accepts a page exactly when every offered row is named. *)
Lemma settle_ok_iff a c :
  account_wf a -> (settle a c).2 = Ok tt <-> pa_offered a <= named a.
Proof.
  intros Hwf. unfold settle, missing, ssub. simpl. rewrite accounted_exact by done.
  destruct (Z.eqb_spec (Z.max 0 (pa_offered a - named a)) 0); split; try done; intros; lia.
Qed.

(** C-independent form of the page check: the error names the page's counts. *)
Lemma settle_err a c e :
  (settle a c).2 = Err e -> e = RowsUnaccounted (pa_offered a) (pa_accepted a).
Proof. unfold settle. simpl. case_match; naive_solver. Qed.

(** Folding a page that settles keeps the run's counters balanced. *)
Lemma fold_page_balanced a c :
  account_wf a -> accounts_room c (Z.max (named a) (pa_offered a)) ->
  (settle a (Some c)).2 = Ok tt ->
  balanced c = true -> balanced (fold_page a c) = true.
Proof.
  intros Hwf Hroom Hset Hbal.
  pose proof (settle_ok_iff a (Some c) Hwf) as [Hof _]. specialize (Hof Hset).
  assert (missing a = 0) as Hm by (unfold missing, ssub; rewrite accounted_exact by done; lia).
  unfold account_wf, named in *. unfold accounts_room in Hroom. unfold balanced in *. simpl.
  reflect_bools. rewrite Hm. unwrap64.
  apply andb_true_iff. split; [apply Z.leb_le|apply Z.eqb_eq]; lia.
Qed.

(** A report that passes [check] names every row, up to saturation at [u64]. *)
Lemma report_check_ok r offered :
  report_check r offered = Ok tt <-> offered <= report_accounted r.
Proof. unfold report_check. destruct (Z.leb_spec offered (report_accounted r)); split; done || lia. Qed.

(** A keyed report always accounts for the page it was offered. *)
Lemma report_keyed_accounted offered planned :
  0 <= planned -> 0 <= offered <= U64_MAX -> report_check (report_keyed offered planned) offered = Ok tt.
Proof.
  intros. apply report_check_ok. unfold report_accounted, report_keyed, sadd64, ssub. simpl. lia.
Qed.

(** A page settles exactly when every row it was offered is named by a
    counter, the error otherwise says how many were offered and accepted, and
    settling keeps the run's totals balanced: rows accepted, coalesced, skipped,
    failed, quarantined and dropped still cover the rows offered, with none
    unaccounted for. *)
Theorem settle_sound a c :
  account_wf a -> accounts_room c (Z.max (named a) (pa_offered a)) -> balanced c = true ->
  (pa_offered a <= named a ->
     (settle a (Some c)).2 = Ok tt /\ balanced (fold_page a c) = true) /\
  (named a < pa_offered a ->
     (settle a (Some c)).2 = Err (RowsUnaccounted (pa_offered a) (pa_accepted a))).
Proof.
  intros Hwf Hroom Hbal. pose proof (settle_ok_iff a (Some c) Hwf) as Hiff. split; intros H.
  - apply Hiff in H. split; [done|]. by apply fold_page_balanced.
  - destruct (settle a (Some c)).2 as [[]|e] eqn:Hs; [destruct Hiff as [Hle _]; specialize (Hle eq_refl); lia|].
    by rewrite (settle_err a (Some c) e Hs).
Qed.

Lemma settle_sound_witness :
  (settle (MkPageAccount 3 2 0 0 1 0 0) (Some RowAccounts_new)).2 = Ok tt /\
  balanced (fold_page (MkPageAccount 3 2 0 0 1 0 0) RowAccounts_new) = true.
Proof.
  apply (settle_sound (MkPageAccount 3 2 0 0 1 0 0) RowAccounts_new);
    [unfold account_wf, named, U64_MAX; simpl; lia
    |unfold accounts_room, named, U64_MAX; simpl; lia|reflexivity|unfold named; simpl; lia].
Defined.
