(* ===== verification/Text.v ===== *)
(** The pieces of Rust's text formatting and parsing the engine relies on:
    zero-padded decimals, [str::parse::<u64>], [str::trim], [str::split_once].

    A [string] is the UTF-8 byte sequence of a Rust [&str]. *)
From S2P Require Import Prelude.
From Stdlib Require Import Ascii.

Local Open Scope Z_scope.

Definition byte_of (c : ascii) : Z := Z.of_nat (nat_of_ascii c).

(** ** Decimal digits *)
Definition digit (d : Z) : ascii := ascii_of_nat (Z.to_nat (48 + d)).

(** The decimal digits of [n], most significant first ([{n}]). Sixty-four steps
    cover every 64-bit value. *)
Fixpoint dec_digits (fuel : nat) (n : Z) (acc : string) : string :=
  let acc := String (digit (n mod 10)) acc in
  if n <? 10 then acc
  else match fuel with
       | O => acc
       | S fuel => dec_digits fuel (n / 10) acc
       end.
Definition dec (n : Z) : string := dec_digits 64 n EmptyString.

Fixpoint zeros (k : nat) : string :=
  match k with O => EmptyString | S k => String "0" (zeros k) end.

(** [format!("{n:0W$}")]: pad on the left with zeros up to width [w]. *)
Definition pad0 (w : nat) (s : string) : string :=
  zeros (w - String.length s) +:+ s.

(** The [w] low decimal digits of [n]. *)
Fixpoint digits_pad (w : nat) (n : Z) (acc : string) : string :=
  match w with
  | O => acc
  | S w => digits_pad w (n / 10) (String (digit (n mod 10)) acc)
  end.

(** The [w] low hexadecimal digits of [n] ([{n:0Wx}] where they hold it). *)
Definition hex_char (d : Z) : ascii :=
  ascii_of_nat (Z.to_nat (if d <? 10 then 48 + d else 87 + d)).
Fixpoint hex_pad (w : nat) (n : Z) (acc : string) : string :=
  match w with
  | O => acc
  | S w => hex_pad w (n / 16) (String (hex_char (n mod 16)) acc)
  end.

(** [{n}] of an [i64] and of a [bool]. *)
Definition i64_str (n : Z) : string := if n <? 0 then "-" +:+ dec (- n) else dec n.
Definition bool_str (b : bool) : string := if b then "true" else "false".

(** The FNV-1a hash of the bytes, on 64 bits. *)
Fixpoint fnv1a (hash : Z) (s : string) : Z :=
  match s with
  | EmptyString => hash
  | String c s => fnv1a ((Z.lxor hash (byte_of c) * 1099511628211) mod 2 ^ 64) s
  end.

(** ** [str::parse::<u64>] *)
Definition digit_value (c : ascii) : option Z :=
  let b := byte_of c in if (48 <=? b) && (b <=? 57) then Some (b - 48) else None.

Fixpoint parse_digits (s : string) (acc : Z) : option Z :=
  match s with
  | EmptyString => Some acc
  | String c s => match digit_value c with
                  | Some d => parse_digits s (acc * 10 + d)
                  | None => None
                  end
  end.

(** An optional [+], at least one digit, digits only, no overflow. The standard
    library checks the overflow digit by digit; the value only grows, so the
    check on the final value refuses the same texts. *)
Definition parse_u64 (s : string) : option Z :=
  let body := match s with
              | String "+" (String _ _ as r) => r
              | _ => s
              end in
  match body with
  | EmptyString => None
  | _ => match parse_digits body 0 with
         | Some n => if n <=? U64_MAX then Some n else None
         | None => None
         end
  end.

(** ** [str::trim] (Unicode White_Space, in UTF-8) *)
Definition ws1 (a : ascii) : bool :=
  let a := byte_of a in (a =? 32) || ((9 <=? a) && (a <=? 13)).
Definition ws2 (a b : ascii) : bool :=
  let a := byte_of a in let b := byte_of b in (a =? 194) && ((b =? 133) || (b =? 160)).
Definition ws3 (a b c : ascii) : bool :=
  let a := byte_of a in let b := byte_of b in let c := byte_of c in
  ((a =? 225) && (b =? 154) && (c =? 128))
  || ((a =? 226) && (b =? 128)
      && (((128 <=? c) && (c <=? 138)) || (c =? 168) || (c =? 169) || (c =? 175)))
  || ((a =? 226) && (b =? 129) && (c =? 159))
  || ((a =? 227) && (b =? 128) && (c =? 128)).

Fixpoint strip_ws (w2 : ascii -> ascii -> bool) (w3 : ascii -> ascii -> ascii -> bool)
  (l : list ascii) : list ascii :=
  match l with
  | [] => []
  | a :: l1 =>
      if ws1 a then strip_ws w2 w3 l1
      else match l1 with
           | [] => l
           | b :: l2 =>
               if w2 a b then strip_ws w2 w3 l2
               else match l2 with
                    | [] => l
                    | c :: l3 => if w3 a b c then strip_ws w2 w3 l3 else l
                    end
           end
  end.

Definition trim (s : string) : string :=
  let l := strip_ws ws2 ws3 (String.list_ascii_of_string s) in
  String.string_of_list_ascii
    (rev (strip_ws (fun a b => ws2 b a) (fun a b c => ws3 c b a) (rev l))).

(** ** [str::split_once(char)] *)
Fixpoint split_once (sep : ascii) (s : string) : option (string * string) :=
  match s with
  | EmptyString => None
  | String c s =>
      if Ascii.eqb c sep then Some (EmptyString, s)
      else match split_once sep s with
           | Some (p, q) => Some (String c p, q)
           | None => None
           end
  end.

(** [str::parse::<i64>]: an optional sign, digits, no overflow. *)
Definition parse_i64 (s : string) : option Z :=
  let '(neg, body) :=
    match s with
    | String "-" r => (true, r)
    | String "+" r => (false, r)
    | _ => (false, s)
    end in
  match body with
  | EmptyString => None
  | _ => match parse_digits body 0 with
         | Some n => let n := if neg then - n else n in
                     if (I64_MIN <=? n) && (n <=? I64_MAX) then Some n else None
         | None => None
         end
  end.

(** [str::strip_prefix]. *)
Fixpoint strip_prefix (p s : string) : option string :=
  match p, s with
  | EmptyString, _ => Some s
  | String a p, String b s => if Ascii.eqb a b then strip_prefix p s else None
  | String _ _, EmptyString => None
  end.
(** [str::starts_with(&str)]. *)
Definition starts_with (p s : string) : bool := match strip_prefix p s with Some _ => true | None => false end.

(** [str::contains(&str)]. *)
Fixpoint contains_str (p s : string) : bool :=
  starts_with p s || match s with EmptyString => false | String _ s => contains_str p s end.
(** [str::replace] of a non-empty pattern, left to right. *)
Fixpoint replace_fuel (fuel : nat) (p by_ s : string) : string :=
  match fuel with
  | O => s
  | S fuel =>
      match strip_prefix p s with
      | Some rest => by_ +:+ replace_fuel fuel p by_ rest
      | None => match s with EmptyString => EmptyString | String c s => String c (replace_fuel fuel p by_ s) end
      end
  end.
Definition replace_str (p by_ s : string) : string := replace_fuel (S (String.length s)) p by_ s.

(** [concat] of strings. *)
Definition concat_all (l : list string) : string := foldr String.append EmptyString l.

Fixpoint all_digits (s : string) : bool :=
  match s with
  | EmptyString => true
  | String c s => match digit_value c with Some _ => all_digits s | None => false end
  end.

(** ** Facts *)

Lemma byte_of_digit d : 0 <= d < 10 -> byte_of (digit d) = 48 + d.
Proof. intros. unfold byte_of, digit. rewrite nat_ascii_embedding by lia. lia. Qed.

Lemma digit_value_digit d : 0 <= d < 10 -> digit_value (digit d) = Some d.
Proof.
  intros H. unfold digit_value. rewrite byte_of_digit by done. cbv zeta.
  assert ((48 <=? 48 + d) && (48 + d <=? 57) = true) as -> by lia. f_equal. lia.
Qed.

Lemma length_digits_pad w n acc :
  String.length (digits_pad w n acc) = (w + String.length acc)%nat.
Proof. revert n acc. induction w as [|w IH]; intros; simpl; [done|]. rewrite IH. simpl. lia. Qed.

Lemma digits_pad_app w n acc : digits_pad w n acc = digits_pad w n EmptyString +:+ acc.
Proof.
  revert n acc. induction w as [|w IH]; intros n acc; simpl; [done|].
  rewrite IH, (IH _ (String _ EmptyString)). by rewrite string_app_assoc.
Qed.

Lemma parse_digits_app s t acc :
  parse_digits (s +:+ t) acc = match parse_digits s acc with
                               | Some a => parse_digits t a
                               | None => None
                               end.
Proof. revert acc. induction s as [|c s IH]; intros; simpl; [done|]. by case_match. Qed.

Lemma parse_digits_pad w n acc :
  0 <= n < 10 ^ Z.of_nat w ->
  parse_digits (digits_pad w n EmptyString) acc = Some (acc * 10 ^ Z.of_nat w + n).
Proof.
  revert n acc. induction w as [|w IH]; intros n acc Hn.
  - simpl in *. f_equal. lia.
  - rewrite Nat2Z.inj_succ, Z.pow_succ_r in Hn by lia.
    assert (0 <= n / 10 < 10 ^ Z.of_nat w) as Hd.
    { split; [apply Z.div_pos; lia|apply Z.div_lt_upper_bound; lia]. }
    simpl. rewrite digits_pad_app, parse_digits_app, IH by done.
    simpl. rewrite digit_value_digit by (apply Z.mod_pos_bound; lia).
    f_equal. rewrite Nat2Z.inj_succ, Z.pow_succ_r by lia.
    pose proof (Z.div_mod n 10). nia.
Qed.

Lemma all_digits_app s t : all_digits (s +:+ t) = all_digits s && all_digits t.
Proof. induction s as [|c s IH]; simpl; [done|]. by case_match. Qed.

Lemma all_digits_pad w n : all_digits (digits_pad w n EmptyString) = true.
Proof.
  revert n. induction w as [|w IH]; intros; simpl; [done|].
  rewrite digits_pad_app, all_digits_app, IH. simpl.
  by rewrite digit_value_digit by (apply Z.mod_pos_bound; lia).
Qed.

Lemma digit_not_ws c : digit_value c <> None -> ws1 c = false.
Proof.
  unfold digit_value, ws1. cbv zeta. case_match; [|done]. reflect_bools. lia.
Qed.

Lemma digit_range c : digit_value c <> None -> 48 <= byte_of c <= 57.
Proof. unfold digit_value. case_match; [|done]. reflect_bools. lia. Qed.

Lemma strip_ws_digits f g (l : list ascii) :
  (forall a b, 48 <= byte_of a <= 57 -> 48 <= byte_of b <= 57 -> f a b = false) ->
  (forall a b c, 48 <= byte_of a <= 57 -> g a b c = false) ->
  Forall (fun c => digit_value c <> None) l -> strip_ws f g l = l.
Proof.
  intros Hf Hg Hl. destruct Hl as [|a l1 Ha Hl]; [done|]. simpl.
  rewrite digit_not_ws by done. destruct Hl as [|b l2 Hb Hl]; [done|].
  rewrite Hf by auto using digit_range. destruct l2; [done|].
  by rewrite Hg by auto using digit_range.
Qed.

Lemma all_digits_Forall s :
  all_digits s = true -> Forall (fun c => digit_value c <> None) (String.list_ascii_of_string s).
Proof. induction s as [|c s IH]; simpl; [done|]. case_match eqn:E; [|done]. intros. constructor; auto. congruence. Qed.

(** A text of digits has nothing to trim. *)
Lemma trim_digits s : all_digits s = true -> trim s = s.
Proof.
  intros H%all_digits_Forall. unfold trim.
  rewrite !strip_ws_digits.
  - by rewrite rev_involutive, String.string_of_list_ascii_of_string.
  - intros; unfold ws2; cbv zeta; lia.
  - intros; unfold ws3; cbv zeta; lia.
  - done.
  - intros; unfold ws2; cbv zeta; lia.
  - intros; unfold ws3; cbv zeta; lia.
  - rewrite strip_ws_digits; [by apply Forall_rev| | |done];
      intros; unfold ws2, ws3; cbv zeta; lia.
Qed.

Lemma split_once_digits s t sep :
  all_digits s = true -> digit_value sep = None ->
  split_once sep (s +:+ String sep t) = Some (s, t).
Proof.
  intros Hs Hsep. induction s as [|c s IH]; simpl in *.
  - by rewrite Ascii.eqb_refl.
  - case_match eqn:E; [|done]. rewrite IH by done.
    destruct (Ascii.eqb_spec c sep); [congruence|done].
Qed.

Lemma split_once_digits_none s sep :
  all_digits s = true -> digit_value sep = None -> split_once sep s = None.
Proof.
  intros Hs Hsep. induction s as [|c s IH]; simpl in *; [done|].
  case_match eqn:E; [|done]. rewrite IH by done.
  destruct (Ascii.eqb_spec c sep); [congruence|done].
Qed.

(** Parsing a fixed-width rendering gives the number back. *)
Lemma parse_u64_digits_pad w n :
  (0 < w)%nat -> 0 <= n < 10 ^ Z.of_nat w -> n <= U64_MAX ->
  parse_u64 (digits_pad w n EmptyString) = Some n.
Proof.
  intros Hw Hn Hmax. pose proof (parse_digits_pad w n 0 Hn) as Hp.
  pose proof (all_digits_pad w n) as Had. pose proof (length_digits_pad w n EmptyString) as Hl.
  unfold parse_u64. destruct (digits_pad w n EmptyString) as [|c s]; simpl in Hl; [lia|].
  assert (c <> "+"%char) as Hc by (intros ->; done).
  assert (match String c s with String "+" (String _ _ as r) => r | _ => String c s end
          = String c s) as ->.
  { destruct c as [[] [] [] [] [] [] [] []]; try done; destruct s; done. }
  rewrite Hp, Z.mul_0_l, Z.add_0_l. destruct (Z.leb_spec n U64_MAX); [done|lia].
Qed.

Lemma zeros_snoc w s : zeros w +:+ String "0" s = zeros (S w) +:+ s.
Proof. induction w as [|w IH]; [done|]. exact (f_equal (String "0") IH). Qed.

Lemma dec_digits_pad fuel n acc w :
  0 <= n < 10 ^ Z.of_nat w -> (w <= S fuel)%nat -> (0 < w)%nat ->
  exists k, (k <= w)%nat /\ (0 < k)%nat /\ dec_digits fuel n acc = digits_pad k n acc /\
    digits_pad w n acc = zeros (w - k) +:+ digits_pad k n acc.
Proof.
  revert n acc w. induction fuel as [|fuel IH]; intros n acc w Hn Hw H0.
  - assert (w = 1%nat) as -> by lia. exists 1%nat. simpl. repeat split; try lia.
    change (10 ^ Z.of_nat 1) with 10 in Hn.
    destruct (Z.ltb_spec n 10); [done|]. lia.
  - destruct (Z.ltb_spec n 10) as [Hlt|Hge].
    + exists 1%nat. simpl. destruct (Z.ltb_spec n 10); [|lia]. repeat split; try lia.
      destruct w as [|w]; [lia|]. simpl. rewrite Nat.sub_0_r.
      rewrite Z.div_small by lia. clear. generalize (String (digit (n mod 10)) acc).
      induction w as [|w IH]; intros s; [done|].
      change (digits_pad (S w) 0 s) with (digits_pad w 0 (String "0" s)).
      rewrite IH. apply zeros_snoc.
    + destruct w as [|w]; [lia|]. rewrite Nat2Z.inj_succ, Z.pow_succ_r in Hn by lia.
      destruct w as [|w]; [change (10 ^ Z.of_nat 0) with 1 in Hn; lia|].
      destruct (IH (n / 10) (String (digit (n mod 10)) acc) (S w)) as (k & Hk & Hk0 & Hd & Hp).
      { split; [apply Z.div_pos; lia|apply Z.div_lt_upper_bound; lia]. }
      { lia. } { lia. }
      exists (S k). split; [lia|]. split; [lia|]. split.
      * simpl. destruct (Z.ltb_spec n 10); [lia|]. done.
      * change (digits_pad (S (S w)) n acc)
          with (digits_pad (S w) (n / 10) (String (digit (n mod 10)) acc)).
        rewrite Hp. done.
Qed.

(** Zero-padding the decimal rendering gives the fixed-width one. *)
Lemma pad0_dec w n :
  (0 < w <= 65)%nat -> 0 <= n < 10 ^ Z.of_nat w -> pad0 w (dec n) = digits_pad w n EmptyString.
Proof.
  intros Hw Hn. unfold pad0, dec.
  destruct (dec_digits_pad 64 n EmptyString w) as (k & Hk & _ & -> & ->); [done|lia|lia|].
  by rewrite length_digits_pad, Nat.add_0_r.
Qed.
