(* ===== verification/Decimal.v ===== *)
(** Exact decimals (crates/core/src/replication.rs, [Decimal]): decimal text of any
    length, ordered without going through floating point. *)
From S2P Require Import Prelude Text.
From Stdlib Require Import Ascii QArith Qpower Lqa.

Local Open Scope Z_scope.

(** [0.d1d2... x 10^exp], without leading or trailing zero digits. *)
Record Decimal := MkDecimal { negative : bool; digits : list Z; dexp : Z }.

(** [s.find(['e', 'E'])] with the text on both sides. *)
Fixpoint split_exponent (s : string) : option (string * string) :=
  match s with
  | EmptyString => None
  | String c s =>
      if Ascii.eqb c "e" || Ascii.eqb c "E" then Some (EmptyString, s)
      else match split_exponent s with Some (m, e) => Some (String c m, e) | None => None end
  end.
Fixpoint byte_digits (s : string) : list Z :=
  match s with EmptyString => [] | String c s => (byte_of c - 48) :: byte_digits s end.
Fixpoint strip_zeros (l : list Z) : list Z :=
  match l with 0 :: l => strip_zeros l | _ => l end.
Definition pop_zeros (l : list Z) : list Z := rev (strip_zeros (rev l)).
Definition checked_add_i64 (a b : Z) : option Z :=
  if (I64_MIN <=? a + b) && (a + b <=? I64_MAX) then Some (a + b) else None.

(** The sign, the exponent, and the digits before and after the point. *)
Definition strip_sign (s : string) : bool * string :=
  match s with
  | String c rest => if Ascii.eqb c "-" then (true, rest) else if Ascii.eqb c "+" then (false, rest) else (false, s)
  | EmptyString => (false, s)
  end.
Definition mantissa_exponent (s : string) : option (string * Z) :=
  match split_exponent s with
  | Some (m, e) => match parse_i64 e with Some e => Some (m, e) | None => None end
  | None => Some (s, 0)
  end.
Definition is_blank (s : string) : bool := match s with EmptyString => true | _ => false end.
Definition decimal_parts (text : string) : option (bool * list Z * list Z * Z) :=
  let s := trim text in
  if is_blank s then None
  else
    let '(neg, s) := strip_sign s in
    match mantissa_exponent s with
    | None => None
    | Some (mantissa, exponent) =>
        let '(int, frac) := default (mantissa, EmptyString) (split_once "." mantissa) in
        if (is_blank int && is_blank frac) || negb (all_digits int && all_digits frac) then None
        else Some (neg, byte_digits int, byte_digits frac, exponent)
    end.
Definition Decimal_parse (text : string) : option Decimal :=
  match decimal_parts text with
  | None => None
  | Some (neg, int, frac, exponent) =>
      let all := int ++ frac in
      let kept := strip_zeros all in
      let leading := zlen all - zlen kept in
      let ds := pop_zeros kept in
      match ds with
      | [] => Some (MkDecimal false [] 0)
      | _ => match checked_add_i64 (zlen int - leading) exponent with
             | Some e => Some (MkDecimal neg ds e)
             | None => None
             end
      end
  end.

Definition signum (d : Decimal) : Z :=
  match digits d with [] => 0 | _ => if negative d then -1 else 1 end.
(** [Vec<u8>]'s order. *)
Fixpoint cmp_digits (a b : list Z) : comparison :=
  match a, b with
  | [], [] => Eq
  | [], _ :: _ => Lt
  | _ :: _, [] => Gt
  | x :: a, y :: b => match x ?= y with Eq => cmp_digits a b | c => c end
  end.
Definition cmp_magnitude (a b : Decimal) : comparison :=
  match dexp a ?= dexp b with Eq => cmp_digits (digits a) (digits b) | c => c end.
Definition decimal_cmp (a b : Decimal) : comparison :=
  match signum a ?= signum b with
  | Eq => if signum a =? 1 then cmp_magnitude a b else if signum a =? -1 then cmp_magnitude b a else Eq
  | c => c
  end.

(** ** What decimals mean *)

Definition num (l : list Z) : Z := fold_left (fun a d => 10 * a + d) l 0.
(** [m x 10^e]. *)
Definition qval (m e : Z) : Q := inject_Z m * Qpower 10 e.
Definition signed (neg : bool) (m : Z) : Z := if neg then - m else m.
(** The number a text names, read off its parts. *)
Definition text_value (text : string) : option Q :=
  match decimal_parts text with
  | Some (neg, int, frac, exponent) => Some (qval (signed neg (num (int ++ frac))) (exponent - zlen frac))
  | None => None
  end.
Definition decimal_value (d : Decimal) : Q := qval (signed (negative d) (num (digits d))) (dexp d - zlen (digits d)).

Lemma num_fold l a : fold_left (fun a d => 10 * a + d) l a = a * 10 ^ zlen l + num l.
Proof.
  unfold num. revert a. induction l as [|d l IH]; intros a; cbn [fold_left]; [rewrite zlen_nil; lia|].
  rewrite IH, (IH (10 * 0 + d)), zlen_cons, Z.pow_add_r by (pose proof (zlen_nonneg l); lia). lia.
Qed.
Lemma num_cons d l : num (d :: l) = d * 10 ^ zlen l + num l.
Proof. change (num (d :: l)) with (fold_left (fun a d => 10 * a + d) l (10 * 0 + d)). rewrite num_fold. lia. Qed.
Lemma num_app a b : num (a ++ b) = num a * 10 ^ zlen b + num b.
Proof. unfold num at 1. rewrite fold_left_app. fold (num a). apply num_fold. Qed.

Definition digits_ok (l : list Z) : Prop := Forall (fun d => 0 <= d <= 9) l.
Lemma num_bounds l : digits_ok l -> 0 <= num l < 10 ^ zlen l.
Proof.
  induction 1 as [|d l Hd _ IH]; [done|]. rewrite num_cons, zlen_cons, Z.pow_add_r by (pose proof (zlen_nonneg l); lia). nia.
Qed.

Lemma ten_pos e : (0 < Qpower 10 e)%Q.
Proof. apply Qpower_0_lt. reflexivity. Qed.

Lemma qval_scale m e k : k <= e -> (qval m e == inject_Z (m * 10 ^ (e - k)) * Qpower 10 k)%Q.
Proof.
  intros Hk. unfold qval. replace e with ((e - k) + k) at 1 by lia. rewrite Qpower_plus by discriminate.
  rewrite inject_Z_mult, Qmult_assoc. apply Qmult_comp; [|reflexivity]. apply Qmult_comp; [reflexivity|].
  change 10%Q with (inject_Z 10). rewrite <- Zpower_Qpower by lia. reflexivity.
Qed.

Lemma qval_compare m1 e1 m2 e2 k :
  k <= e1 -> k <= e2 -> (qval m1 e1 ?= qval m2 e2)%Q = (m1 * 10 ^ (e1 - k) ?= m2 * 10 ^ (e2 - k)).
Proof.
  intros H1 H2. rewrite (qval_scale m1 e1 k H1), (qval_scale m2 e2 k H2).
  set (a := m1 * _). set (b := m2 * _). pose proof (ten_pos k) as Ht.
  destruct (Z.compare_spec a b) as [->|Hlt|Hlt].
  - by apply Qeq_alt.
  - apply Qlt_alt. apply Qmult_lt_compat_r; [done|]. by rewrite <- Zlt_Qlt.
  - apply Qgt_alt. apply Qmult_lt_compat_r; [done|]. by rewrite <- Zlt_Qlt.
Qed.

(** ** Normal forms *)

(** Digits that end in a non-zero one. *)
Fixpoint ends_nonzero (l : list Z) : Prop :=
  match l with [] => True | [d] => d <> 0 | _ :: l => ends_nonzero l end.
Definition normal (l : list Z) : Prop := digits_ok l /\ ends_nonzero l /\ match l with d :: _ => d <> 0 | [] => True end.

Lemma ends_nonzero_tail d l : ends_nonzero (d :: l) -> ends_nonzero l.
Proof. by destruct l. Qed.

Lemma num_pos l : digits_ok l -> ends_nonzero l -> l <> [] -> 0 < num l.
Proof.
  induction 1 as [|d l Hd Hl IH]; [done|]. intros He _. rewrite num_cons. pose proof (num_bounds l Hl).
  destruct l as [|d' l']; [cbn [ends_nonzero] in He; change (num []) with 0; change (10 ^ zlen []) with 1; lia|].
  specialize (IH (ends_nonzero_tail _ _ He) ltac:(done)). pose proof (Z.pow_nonneg 10 (zlen (d' :: l'))). nia.
Qed.

Lemma strip_zeros_spec l : exists n, l = replicate n 0 ++ strip_zeros l.
Proof.
  induction l as [|d l [n IH]]; [by exists 0%nat|]. destruct (decide (d = 0)) as [->|Hd].
  - exists (S n). exact (f_equal (cons 0) IH).
  - exists 0%nat. destruct d; done.
Qed.
Lemma strip_zeros_head l : match strip_zeros l with d :: _ => d <> 0 | [] => True end.
Proof. induction l as [|d l IH]; [done|]. destruct d; done. Qed.

Lemma num_zeros n l : num (replicate n 0 ++ l) = num l.
Proof.
  induction n as [|n IH]; [done|]. cbn [replicate app]. rewrite num_cons, IH. lia.
Qed.
Lemma num_trailing l n : num (l ++ replicate n 0) = num l * 10 ^ Z.of_nat n.
Proof.
  rewrite num_app. unfold zlen. rewrite length_replicate. replace (num (replicate n 0)) with 0; [lia|].
  rewrite <- (app_nil_r (replicate n 0)), num_zeros. done.
Qed.

Lemma rev_replicate n (x : Z) : rev (replicate n x) = replicate n x.
Proof. induction n as [|n IH]; [done|]. cbn [replicate rev]. rewrite IH. symmetry. apply replicate_cons_app. Qed.

Lemma pop_zeros_spec l : exists n, l = pop_zeros l ++ replicate n 0.
Proof.
  unfold pop_zeros. destruct (strip_zeros_spec (rev l)) as [n E]. exists n.
  transitivity (rev (rev l)); [by rewrite rev_involutive|]. rewrite E at 1. by rewrite rev_app_distr, rev_replicate.
Qed.

Lemma ends_nonzero_rev l d : d <> 0 -> ends_nonzero (rev l ++ [d]).
Proof.
  intros Hd. induction (rev l) as [|x r IH]; [done|]. cbn. by destruct (r ++ [d]) eqn:E; [destruct r|].
Qed.

Lemma pop_zeros_normal l : digits_ok l -> match l with d :: _ => d <> 0 | [] => True end -> normal (pop_zeros l).
Proof.
  intros Hok Hh. destruct (pop_zeros_spec l) as [n E]. split_and!.
  - unfold digits_ok in *. rewrite E in Hok. by apply Forall_app in Hok as [? _].
  - unfold pop_zeros. pose proof (strip_zeros_head (rev l)) as Hd. destruct (strip_zeros (rev l)) as [|d r]; [done|]. cbn [rev].
    by apply ends_nonzero_rev.
  - destruct (pop_zeros l) as [|d r]; [done|]. rewrite E in Hh. done.
Qed.

(** ** Order *)

Lemma cmp_digits_spec a b N :
  digits_ok a -> digits_ok b -> ends_nonzero a -> ends_nonzero b -> zlen a <= N -> zlen b <= N ->
  cmp_digits a b = (num a * 10 ^ (N - zlen a) ?= num b * 10 ^ (N - zlen b)).
Proof.
  revert b N. induction a as [|x a IH]; intros b N Ha Hb Ea Eb La Lb.
  - destruct b as [|y b]; [done|]. symmetry. apply Z.compare_lt_iff. change (num []) with 0.
    pose proof (num_pos _ Hb Eb ltac:(done)). pose proof (Z.pow_pos_nonneg 10 (N - zlen (y :: b))). lia.
  - destruct b as [|y b].
    { symmetry. apply Z.compare_gt_iff. change (num []) with 0. pose proof (num_pos _ Ha Ea ltac:(done)).
      pose proof (Z.pow_pos_nonneg 10 (N - zlen (x :: a))). lia. }
    apply Forall_cons in Ha as [Hx Ha], Hb as [Hy Hb]. rewrite !zlen_cons, !num_cons in *.
    pose proof (zlen_nonneg a). pose proof (zlen_nonneg b). cbn [cmp_digits].
    specialize (IH b (N - 1) Ha Hb (ends_nonzero_tail _ _ Ea) (ends_nonzero_tail _ _ Eb) ltac:(lia) ltac:(lia)).
    replace (N - (1 + zlen a)) with (N - 1 - zlen a) by lia. replace (N - (1 + zlen b)) with (N - 1 - zlen b) by lia.
    rewrite !Z.mul_add_distr_r, <- !Z.mul_assoc, <- !Z.pow_add_r by lia.
    replace (zlen a + (N - 1 - zlen a)) with (N - 1) by lia. replace (zlen b + (N - 1 - zlen b)) with (N - 1) by lia.
    assert (forall l, digits_ok l -> zlen l <= N - 1 -> 0 <= num l * 10 ^ (N - 1 - zlen l) < 10 ^ (N - 1)) as Hbd.
    { intros l Hl Hn. pose proof (num_bounds l Hl). pose proof (zlen_nonneg l).
      pose proof (Z.pow_pos_nonneg 10 (N - 1 - zlen l) ltac:(lia) ltac:(lia)).
      assert (10 ^ (N - 1) = 10 ^ zlen l * 10 ^ (N - 1 - zlen l)) as -> by (rewrite <- Z.pow_add_r by lia; f_equal; lia). nia. }
    pose proof (Hbd a Ha ltac:(lia)). pose proof (Hbd b Hb ltac:(lia)).
    destruct (Z.compare_spec x y) as [->|Hlt|Hlt].
    + rewrite IH. by rewrite Z.add_compare_mono_l.
    + symmetry. apply Z.compare_lt_iff. nia.
    + symmetry. apply Z.compare_gt_iff. nia.
Qed.

(** Magnitudes: the leading digit is not zero, so the exponent decides first. *)
Lemma cmp_magnitude_spec a b :
  normal (digits a) -> normal (digits b) -> digits a <> [] -> digits b <> [] ->
  cmp_magnitude a b = (qval (num (digits a)) (dexp a - zlen (digits a)) ?= qval (num (digits b)) (dexp b - zlen (digits b)))%Q.
Proof.
  destruct a as [na la ea], b as [nb lb eb]. cbn [digits dexp]. intros (Oa & Ea & Fa) (Ob & Eb & Fb) Na Nb.
  set (k := Z.min (ea - zlen la) (eb - zlen lb)). rewrite (qval_compare _ _ _ _ k) by lia.
  assert (forall l e, digits_ok l -> match l with d :: _ => d <> 0 | [] => True end -> l <> [] -> k <= e - zlen l ->
    10 ^ (e - 1 - k) <= num l * 10 ^ (e - zlen l - k) < 10 ^ (e - k)) as Hbd.
  { intros [|d l] e Hl Hd Hne Hk; [done|]. apply Forall_cons in Hl as [Hd9 Hl]. pose proof (num_bounds l Hl). rewrite num_cons, zlen_cons in *.
    pose proof (zlen_nonneg l). pose proof (Z.pow_pos_nonneg 10 (e - (1 + zlen l) - k) ltac:(lia) ltac:(lia)).
    assert (10 ^ (e - 1 - k) = 10 ^ zlen l * 10 ^ (e - (1 + zlen l) - k)) as -> by (rewrite <- Z.pow_add_r by lia; f_equal; lia).
    assert (10 ^ (e - k) = 10 * (10 ^ zlen l * 10 ^ (e - (1 + zlen l) - k))) as ->
      by (rewrite <- Z.pow_add_r, <- Z.pow_succ_r by lia; f_equal; lia). nia. }
  pose proof (Hbd la ea Oa Fa Na ltac:(lia)) as Ba. pose proof (Hbd lb eb Ob Fb Nb ltac:(lia)) as Bb.
  assert (forall l : list Z, l <> [] -> 1 <= zlen l) as Hlen by (intros [|? l'] ?; [done|rewrite zlen_cons; pose proof (zlen_nonneg l'); lia]).
  pose proof (Hlen la Na). pose proof (Hlen lb Nb). unfold cmp_magnitude. cbn [digits dexp].
  destruct (Z.compare_spec ea eb) as [->|Hlt|Hlt].
  - rewrite (cmp_digits_spec la lb (eb - k)) by (done || lia). f_equal; do 2 f_equal; lia.
  - symmetry. apply Z.compare_lt_iff. assert (10 ^ (ea - k) <= 10 ^ (eb - 1 - k)) by (apply Z.pow_le_mono_r; lia). lia.
  - symmetry. apply Z.compare_gt_iff. assert (10 ^ (eb - k) <= 10 ^ (ea - 1 - k)) by (apply Z.pow_le_mono_r; lia). lia.
Qed.

Lemma qval_neg m e : (qval (- m) e == - qval m e)%Q.
Proof. unfold qval. rewrite inject_Z_opp. ring. Qed.
Lemma qval_pos m e : 0 < m -> (0 < qval m e)%Q.
Proof. intros Hm. unfold qval. apply Qmult_lt_0_compat; [by rewrite <- (Zlt_Qlt 0)|apply ten_pos]. Qed.
Lemma qval_zero e : (qval 0 e == 0)%Q.
Proof. unfold qval. ring. Qed.

Lemma Qcompare_opp x y : ((- x) ?= (- y))%Q = (y ?= x)%Q.
Proof. unfold Qcompare. cbn. rewrite !Z.mul_opp_l, Z.compare_opp. done. Qed.

(** Normal decimals: zero is written one way. *)
Definition normal_decimal (d : Decimal) : Prop := normal (digits d) /\ (digits d = [] -> negative d = false).

Lemma decimal_sign d : normal_decimal d ->
  match digits d with
  | [] => (decimal_value d == 0)%Q
  | _ => if negative d then (decimal_value d < 0)%Q else (0 < decimal_value d)%Q
  end.
Proof.
  intros [(Ho & He & _) Hz]. unfold decimal_value. destruct d as [neg l e]. cbn [digits negative dexp] in *.
  destruct l as [|x l]; [rewrite (Hz eq_refl); apply qval_zero|].
  pose proof (qval_pos _ (e - zlen (x :: l)) (num_pos _ Ho He ltac:(done))) as Hp.
  destruct neg; cbn [signed]; [rewrite qval_neg; lra|done].
Qed.

Lemma decimal_cmp_value a b :
  normal_decimal a -> normal_decimal b -> decimal_cmp a b = (decimal_value a ?= decimal_value b)%Q.
Proof.
  intros Na Nb. pose proof (decimal_sign a Na) as Sa. pose proof (decimal_sign b Nb) as Sb.
  assert (forall neg, negative a = neg -> negative b = neg -> digits a <> [] -> digits b <> [] ->
    (if neg then cmp_magnitude b a else cmp_magnitude a b) = (decimal_value a ?= decimal_value b)%Q) as Hmag.
  { intros neg Ea Eb Da Db. unfold decimal_value. rewrite Ea, Eb. rewrite !cmp_magnitude_spec by (done || apply Na || apply Nb).
    destruct neg; cbn [signed]; [by rewrite !qval_neg, Qcompare_opp|done]. }
  revert Sa Sb Hmag. generalize (decimal_value a) as va, (decimal_value b) as vb. intros va vb Sa Sb Hmag.
  assert ((va < vb)%Q -> Lt = (va ?= vb)%Q) as Hlt by (intros ?%Qlt_alt; done).
  assert ((vb < va)%Q -> Gt = (va ?= vb)%Q) as Hgt by (intros ?%Qgt_alt; done).
  unfold decimal_cmp, signum. destruct (digits a) as [|x la], (digits b) as [|y lb]; cbv iota in Sa, Sb.
  - symmetry. apply Qeq_alt. by rewrite Sa, Sb.
  - destruct (negative b); [apply Hgt|apply Hlt]; lra.
  - destruct (negative a); [apply Hlt|apply Hgt]; lra.
  - destruct (negative a), (negative b); [by apply (Hmag true)|apply Hlt; lra|apply Hgt; lra|by apply (Hmag false)].
Qed.

(** ** Parsing *)

Lemma byte_digits_ok s : all_digits s = true -> digits_ok (byte_digits s).
Proof.
  induction s as [|c s IH]; [constructor|]. cbn [all_digits byte_digits]. destruct (digit_value c) eqn:E; [|done].
  intros Hs. constructor; [|by apply IH]. pose proof (digit_range c ltac:(congruence)). lia.
Qed.

Lemma decimal_parts_ok text neg int frac e : decimal_parts text = Some (neg, int, frac, e) -> digits_ok (int ++ frac).
Proof.
  unfold decimal_parts. destruct (is_blank _); [done|]. destruct (strip_sign _) as [n s].
  destruct (mantissa_exponent s) as [[m x]|]; [|done]. destruct (default _ _) as [i f].
  destruct (_ || _) eqn:Ed; [done|]. intros [= <- <- <- <-]. apply orb_false_iff in Ed as [_ [H1 H2]%negb_false_iff%andb_true_iff].
  apply Forall_app. split; by apply byte_digits_ok.
Qed.

(** A parsed decimal is normal and names the number its text names. *)
Lemma Decimal_parse_value text d :
  Decimal_parse text = Some d -> normal_decimal d /\ exists q, text_value text = Some q /\ (decimal_value d == q)%Q.
Proof.
  unfold Decimal_parse, text_value. destruct (decimal_parts text) as [[[[neg int] frac] e]|] eqn:Ep; [|done].
  pose proof (decimal_parts_ok _ _ _ _ _ Ep) as Hok. set (all := int ++ frac) in *.
  destruct (strip_zeros_spec all) as [n En]. destruct (pop_zeros_spec (strip_zeros all)) as [t Et].
  assert (normal (pop_zeros (strip_zeros all))) as Hn.
  { apply pop_zeros_normal; [|apply strip_zeros_head]. unfold digits_ok in *. rewrite En in Hok. by apply Forall_app in Hok as [_ ?]. }
  set (ds := pop_zeros (strip_zeros all)) in *.
  assert (num all = num ds * 10 ^ Z.of_nat t) as Hnum by (rewrite En, num_zeros, Et; apply num_trailing).
  assert (zlen all = zlen int + zlen frac) as Hall by apply zlen_app.
  assert (zlen all = Z.of_nat n + zlen (strip_zeros all)) as Hl1 by (rewrite En at 1; rewrite zlen_app; unfold zlen at 1; by rewrite length_replicate).
  assert (zlen (strip_zeros all) = zlen ds + Z.of_nat t) as Hl2 by (rewrite Et at 1; rewrite zlen_app; unfold zlen at 2; by rewrite length_replicate).
  destruct ds as [|x ds'] eqn:Eds.
  - intros [= <-]. split; [done|]. eexists. split; [done|]. rewrite Hnum. change (num []) with 0.
    rewrite Z.mul_0_l. unfold signed. destruct neg; cbn -[qval]; unfold decimal_value; cbn -[qval]; by rewrite !qval_zero.
  - destruct (checked_add_i64 _ e) as [x'|] eqn:Ec; [|done]. intros [= <-]. split; [done|]. eexists. split; [done|].
    assert (x' = zlen int - (zlen all - zlen (strip_zeros all)) + e) as ->
      by (unfold checked_add_i64 in Ec; destruct (_ && _) in Ec; congruence).
    unfold decimal_value. cbn [digits dexp negative]. rewrite <- Eds in *. rewrite Hnum.
    assert (forall m, signed neg (m * 10 ^ Z.of_nat t) = signed neg m * 10 ^ Z.of_nat t) as -> by (intros m; destruct neg; cbn; lia).
    set (k := e - zlen frac). set (k' := zlen int - _ + e - zlen ds). assert (k' - k = Z.of_nat t) as Hk by (unfold k, k'; lia).
    rewrite (qval_scale _ k' k) by lia. rewrite Hk. reflexivity.
Qed.

(** C32: Decimal text is ordered by the numbers it names, exactly, whatever its
    length, sign, leading and trailing zeros and exponent. *)
Theorem decimal_order_exact x y a b :
  Decimal_parse x = Some a -> Decimal_parse y = Some b ->
  exists p q, text_value x = Some p /\ text_value y = Some q /\ decimal_cmp a b = (p ?= q)%Q.
Proof.
  intros (Na & p & Ep & Vp)%Decimal_parse_value (Nb & q & Eq & Vq)%Decimal_parse_value.
  exists p, q. split_and!; [done..|]. by rewrite decimal_cmp_value, Vp, Vq.
Qed.

Lemma decimal_order_exact_witness :
  exists a b, Decimal_parse "-0012.50" = Some a /\ Decimal_parse "+0.125e2" = Some b /\ decimal_cmp a b = Lt.
Proof.
  eexists _, _. split; [vm_compute; reflexivity|]. split; [vm_compute; reflexivity|].
  destruct (decimal_order_exact "-0012.50" "+0.125e2" (MkDecimal true [1; 2; 5] 2) (MkDecimal false [1; 2; 5] 2)) as (p & q & Hp & Hq & ->);
    [vm_compute; reflexivity|vm_compute; reflexivity|]. vm_compute in Hp, Hq. injection Hp as <-. injection Hq as <-. vm_compute. reflexivity.
Defined.
