(* ===== verification/StateKey.v ===== *)
(** State keys (crates/core/src/state.rs, [validate_state_key]): which keys a
    state store accepts. *)
From S2P Require Import Prelude Errors Json Text.
From Stdlib Require Import Ascii.

Local Open Scope Z_scope.

(** [is_ascii_alphanumeric() || matches!(c, '_' | '-' | ':' | '.' | '/')]. *)
Definition key_byte_ok (c : ascii) : bool :=
  let b := byte_of c in
  ((48 <=? b) && (b <=? 57)) || ((65 <=? b) && (b <=? 90)) || ((97 <=? b) && (b <=? 122))
  || (b =? 95) || (b =? 45) || (b =? 58) || (b =? 46) || (b =? 47).

(** Position of the first byte that is not allowed. *)
Fixpoint first_illegal (i : Z) (s : string) : option Z :=
  match s with
  | EmptyString => None
  | String c s => if key_byte_ok c then first_illegal (i + 1) s else Some i
  end.

Definition DOT : ascii := "."%char.
Definition SLASH : ascii := "/"%char.

(** [str::starts_with(char)]. *)
Definition starts_with_char (c : ascii) (s : string) : bool :=
  match s with String x _ => bool_decide (x = c) | EmptyString => false end.

(** [str::split(char)]: the pieces between separators, one more than there are
    separators. *)
Fixpoint split_on (c : ascii) (s : string) : list string :=
  match s with
  | EmptyString => [EmptyString]
  | String x s =>
      if bool_decide (x = c) then EmptyString :: split_on c s
      else match split_on c s with
           | p :: ps => String x p :: ps
           | [] => [String x EmptyString]
           end
  end.

Fixpoint contains_char (c : ascii) (s : string) : bool :=
  match s with
  | EmptyString => false
  | String x s => bool_decide (x = c) || contains_char c s
  end.

(** A segment that could read as a path component. *)
Definition bad_segment (seg : string) : bool :=
  string_eqb seg EmptyString || string_eqb seg "." || string_eqb seg ".."
  || starts_with_char DOT seg.

(** [validate_state_key]; [debug_char] prints the character at a byte offset. *)
Definition validate_state_key (debug_char : string -> Z -> string) (key : string) :
    result unit FaucetError :=
  if string_eqb key EmptyString then Err (State "state key must not be empty")
  else if 256 <? Z.of_nat (String.length key) then
    Err (State ("state key '" +:+ key +:+ "' exceeds 256 characters"))
  else match first_illegal 0 key with
  | Some i => Err (State ("state key '" +:+ key +:+ "' contains illegal character "
                +:+ debug_char key i +:+ " at byte " +:+ dec i))
  | None =>
      if string_eqb key "." || string_eqb key ".." || starts_with_char DOT key then
        Err (State ("state key '" +:+ key +:+ "' must not begin with a dot"))
      else if contains_char SLASH key && existsb bad_segment (split_on SLASH key) then
        Err (State ("state key '" +:+ key
          +:+ "' has a path-like segment — `/` may only separate non-empty, non-dot segments"))
      else Ok tt
  end.

(** Every byte of a string. *)
Fixpoint all_bytes (p : ascii -> bool) (s : string) : bool :=
  match s with EmptyString => true | String c s => p c && all_bytes p s end.

(** ** Facts *)

Lemma contains_char_app c a b : contains_char c (a +:+ b) = contains_char c a || contains_char c b.
Proof.
  induction a as [|x a IH]; [done|]. change (bool_decide (x = c) || contains_char c (a +:+ b) =
    (bool_decide (x = c) || contains_char c a) || contains_char c b). rewrite IH. apply orb_assoc.
Qed.

Lemma first_illegal_none i s : first_illegal i s = None <-> all_bytes key_byte_ok s = true.
Proof.
  revert i. induction s as [|c s IH]; intros i; simpl; [done|].
  destruct (key_byte_ok c); simpl; [apply IH|done].
Qed.

Lemma split_on_single c s : contains_char c s = false -> split_on c s = [s].
Proof.
  induction s as [|x s IH]; simpl; [done|]. intros [Hx Hs]%orb_false_iff. rewrite Hx, IH by done. done.
Qed.

(** A key [validate_state_key] accepts cannot escape the store's namespace:
    it has 1 to 256 bytes, every byte is an ASCII letter, digit or one of
    ["_-:./"], and no piece of it between slashes is empty, ["."], [".."] or
    starts with a dot. *)
Theorem accepted_key_is_no_path debug_char key :
  validate_state_key debug_char key = Ok tt ->
  1 <= Z.of_nat (String.length key) <= 256 /\
  all_bytes key_byte_ok key = true /\
  Forall (fun seg => seg <> EmptyString /\ seg <> "." /\ seg <> ".." /\ starts_with_char DOT seg = false)
    (split_on SLASH key).
Proof.
  unfold validate_state_key. intros H.
  destruct (string_eqb key EmptyString) eqn:He; [done|].
  destruct (256 <? _) eqn:Hl; [done|]. destruct (first_illegal 0 key) eqn:Hf; [done|].
  destruct (string_eqb key "." || _ || _) eqn:Hd; [done|].
  destruct (contains_char SLASH key && _) eqn:Hs; [done|].
  reflect_bools. split; [|split; [by eapply first_illegal_none|]].
  - unfold string_eqb in He. apply bool_decide_eq_false in He. destruct key; [done|]. simpl in *. lia.
  - apply Forall_forall. intros seg Hin.
    assert (bad_segment seg = false) as Hb.
    { destruct (contains_char SLASH key) eqn:Hc; simpl in Hs.
      - by eapply existsb_false_forall.
      - rewrite split_on_single in Hin by done. apply list_elem_of_singleton in Hin as ->.
        unfold bad_segment. rewrite He, H0, H1, H2. done. }
    unfold bad_segment, string_eqb in Hb. reflect_bools. done.
Qed.

Lemma accepted_key_is_no_path_witness :
  validate_state_key (fun _ _ => EmptyString) "acme/erp::orders" = Ok tt /\
  all_bytes key_byte_ok "acme/erp::orders" = true.
Proof.
  assert (validate_state_key (fun _ _ => EmptyString) "acme/erp::orders" = Ok tt) as H by (vm_compute; reflexivity).
  split; [exact H|]. exact (proj1 (proj2 (accepted_key_is_no_path _ _ H))).
Defined.
