(* ===== verification/StateFile.v ===== *)
(** The names of the file state store (crates/core/src/state.rs, [safe_filename] and
    [key_from_filename]): every key has a file of its own, also on a file system
    that ignores case.

    The SHA-256 digest of a long key, in hexadecimal, is a parameter. *)
From S2P Require Import Prelude Errors Json Text StateKey.
From Stdlib Require Import Ascii.

Local Open Scope Z_scope.

Definition PERCENT : ascii := "%".
Definition TILDE : ascii := "~".

(** The match of [safe_filename], [format!("%{:02X}")] included. *)
Definition hex_upper (d : Z) : ascii := ascii_of_nat (Z.to_nat (if d <? 10 then 48 + d else 55 + d)).
Definition is_upper (c : ascii) : bool := (65 <=? byte_of c) && (byte_of c <=? 90).
Definition escape_byte (c : ascii) : string :=
  if Ascii.eqb c ":" then "%3A"
  else if Ascii.eqb c "/" then "%2F"
  else if is_upper c then
    String PERCENT (String (hex_upper (byte_of c / 16)) (String (hex_upper (byte_of c mod 16)) EmptyString))
  else String c EmptyString.
Fixpoint escape_key (key : string) : string :=
  match key with EmptyString => EmptyString | String c key => escape_byte c +:+ escape_key key end.

(** [safe_filename]: a stem that is too long ends in the key's digest. *)
Definition MAX_STEM : nat := 160.
Definition is_percent_at (s : string) (i : nat) : bool :=
  match String.get i s with Some c => Ascii.eqb c PERCENT | None => false end.
Fixpoint cut_stem (out : string) (cut : nat) : nat :=
  match cut with
  | O => O
  | S n => if is_percent_at out n || match n with O => false | S m => is_percent_at out m end
           then cut_stem out n else cut
  end.
Definition safe_filename (digest : string -> string) (key : string) : string :=
  let out := escape_key key in
  if (String.length out <=? MAX_STEM)%nat then out
  else
    let hex := digest key in
    String.substring 0 (cut_stem out (MAX_STEM - String.length hex - 1)) out +:+ String TILDE hex.

(** [u8::from_str_radix(hex, 16)] of two characters, a leading [+] allowed. *)
Definition hex_digit (c : ascii) : option Z :=
  let b := byte_of c in
  if (48 <=? b) && (b <=? 57) then Some (b - 48)
  else if (97 <=? b) && (b <=? 102) then Some (b - 87)
  else if (65 <=? b) && (b <=? 70) then Some (b - 55)
  else None.
Definition from_hex (a b : ascii) : option Z :=
  if Ascii.eqb a "+" then hex_digit b
  else match hex_digit a, hex_digit b with Some x, Some y => Some (16 * x + y) | _, _ => None end.

(** The loop of [key_from_filename]. *)
Fixpoint decode_stem (s : string) : option string :=
  match s with
  | EmptyString => Some EmptyString
  | String c rest =>
      if Ascii.eqb c PERCENT then
        match rest with
        | String a (String b rest) =>
            match from_hex a b with
            | Some code => String (ascii_of_nat (Z.to_nat code)) <$> decode_stem rest
            | None => None
            end
        | _ => None
        end
      else String c <$> decode_stem rest
  end.
Definition key_from_filename (debug_char : string -> Z -> string) (stem : string) : option string :=
  if contains_char TILDE stem then None
  else match decode_stem stem with
       | Some key => match validate_state_key debug_char key with Ok _ => Some key | Err _ => None end
       | None => None
       end.

(** ** Facts *)

Lemma string_lower_app a b : string_lower (a +:+ b) = string_lower a +:+ string_lower b.
Proof. induction a as [|c a IH]; [done|]. exact (f_equal (String _) IH). Qed.

Lemma string_app_inj (a b c d : string) :
  String.length b = String.length d -> a +:+ b = c +:+ d -> a = c /\ b = d.
Proof.
  intros Hl. revert c. induction a as [|x a IH]; intros [|y c] H; [done| | |].
  - change (b = String y (c +:+ d)) in H. subst b. cbn in Hl. rewrite string_length_app in Hl. lia.
  - change (String x (a +:+ b) = d) in H. subst d. cbn in Hl. rewrite string_length_app in Hl. lia.
  - change (String x (a +:+ b) = String y (c +:+ d)) in H. injection H as -> H.
    destruct (IH _ H) as [-> ->]. done.
Qed.

(** What a byte of a key becomes, also under a file system that folds case. *)
Lemma decode_escaped_byte c rest :
  key_byte_ok c = true ->
  decode_stem (escape_byte c +:+ rest) = String c <$> decode_stem rest /\
  decode_stem (string_lower (escape_byte c) +:+ rest) = String c <$> decode_stem rest.
Proof. destruct c as [[] [] [] [] [] [] [] []]; vm_compute key_byte_ok; intros H; (done || split; reflexivity). Qed.

Lemma escaped_byte_clean c :
  key_byte_ok c = true -> contains_char TILDE (string_lower (escape_byte c)) = false /\ contains_char TILDE (escape_byte c) = false /\
  contains_char SLASH (escape_byte c) = false.
Proof. destruct c as [[] [] [] [] [] [] [] []]; vm_compute; done. Qed.

Lemma decode_escaped key :
  all_bytes key_byte_ok key = true ->
  decode_stem (escape_key key) = Some key /\ decode_stem (string_lower (escape_key key)) = Some key.
Proof.
  induction key as [|c key IH]; [done|]. cbn [all_bytes escape_key]. intros [Hc Hk]%andb_true_iff.
  destruct (IH Hk) as [E1 E2]. rewrite string_lower_app.
  rewrite (proj1 (decode_escaped_byte c _ Hc)), (proj2 (decode_escaped_byte c _ Hc)), E1, E2. done.
Qed.

Lemma escaped_clean key :
  all_bytes key_byte_ok key = true ->
  contains_char TILDE (string_lower (escape_key key)) = false /\ contains_char TILDE (escape_key key) = false /\
  contains_char SLASH (escape_key key) = false.
Proof.
  induction key as [|c key IH]; [done|]. cbn [all_bytes escape_key]. intros [Hc Hk]%andb_true_iff.
  destruct (escaped_byte_clean c Hc) as (H1 & H2 & H3), (IH Hk) as (H4 & H5 & H6).
  rewrite string_lower_app, !contains_char_app, H1, H2, H3, H4, H5, H6. done.
Qed.

Lemma substring_length n s : (String.length (String.substring 0 n s) <= n)%nat.
Proof. revert s. induction n as [|n IH]; intros [|c s]; cbn; try lia. specialize (IH s). lia. Qed.

Lemma contains_substring c n s : contains_char c s = false -> contains_char c (String.substring 0 n s) = false.
Proof.
  revert s. induction n as [|n IH]; intros [|x s]; cbn; try done.
  intros [Hx Hs]%orb_false_iff. by rewrite Hx, IH.
Qed.

Lemma cut_stem_le out n : (cut_stem out n <= n)%nat.
Proof. induction n as [|n IH]; cbn [cut_stem]; [lia|]. destruct (_ || _); lia. Qed.

Lemma string_lower_length s : String.length (string_lower s) = String.length s.
Proof. induction s; cbn; auto. Qed.

(** What SHA-256 in lowercase hexadecimal is known to give. *)
Record hex_digest (digest : string -> string) : Prop := {
  digest_length : forall k, String.length (digest k) = 64%nat;
  digest_lower : forall k, string_lower (digest k) = digest k;
  digest_clean : forall k, contains_char TILDE (digest k) = false /\ contains_char SLASH (digest k) = false;
}.

Section Names.
Context (digest : string -> string) (Hdigest : hex_digest digest).

Lemma stem_length key : (String.length (safe_filename digest key) <= MAX_STEM)%nat.
Proof.
  unfold safe_filename. destruct (_ <=? _)%nat eqn:E; [by apply Nat.leb_le|].
  rewrite string_length_app. cbn [String.length]. rewrite (digest_length _ Hdigest).
  pose proof (substring_length (cut_stem (escape_key key) (MAX_STEM - 64 - 1)) (escape_key key)).
  pose proof (cut_stem_le (escape_key key) (MAX_STEM - 64 - 1)). unfold MAX_STEM in *. lia.
Qed.

Lemma stem_hashed key : all_bytes key_byte_ok key = true ->
  contains_char TILDE (string_lower (safe_filename digest key)) = negb (String.length (escape_key key) <=? MAX_STEM)%nat.
Proof.
  intros Hk. unfold safe_filename. destruct (_ <=? _)%nat; [by apply escaped_clean|].
  rewrite string_lower_app, contains_char_app. cbn. by rewrite orb_true_r.
Qed.

Lemma stem_no_slash key : all_bytes key_byte_ok key = true -> contains_char SLASH (safe_filename digest key) = false.
Proof.
  intros Hk. destruct (escaped_clean key Hk) as (_ & _ & Hs). unfold safe_filename. destruct (_ <=? _)%nat; [done|].
  rewrite contains_char_app, contains_substring by done. apply (digest_clean _ Hdigest).
Qed.

(** Two keys whose stems agree up to case are one key, unless their digests collide. *)
Lemma stem_inj k1 k2 :
  all_bytes key_byte_ok k1 = true -> all_bytes key_byte_ok k2 = true ->
  (digest k1 = digest k2 -> k1 = k2) ->
  string_lower (safe_filename digest k1) = string_lower (safe_filename digest k2) -> k1 = k2.
Proof.
  intros H1 H2 Hd E. pose proof (stem_hashed k1 H1) as S1. rewrite E, stem_hashed in S1 by done.
  unfold safe_filename in E. destruct (String.length (escape_key k1) <=? MAX_STEM)%nat, (String.length (escape_key k2) <=? MAX_STEM)%nat; try done.
  - apply (f_equal decode_stem) in E. destruct (decode_escaped k1 H1) as [_ E1], (decode_escaped k2 H2) as [_ E2]. congruence.
  - rewrite !string_lower_app in E. apply string_app_inj in E as [_ E].
    + cbn in E. injection E as E. rewrite !(digest_lower _ Hdigest) in E. auto.
    + cbn. by rewrite !string_lower_length, !(digest_length _ Hdigest).
Qed.
End Names.

Lemma valid_key_bytes debug_char key : validate_state_key debug_char key = Ok tt -> all_bytes key_byte_ok key = true.
Proof. intros H. by destruct (accepted_key_is_no_path _ _ H) as (_ & ? & _). Qed.

Lemma stem_decodes digest debug_char key :
  validate_state_key debug_char key = Ok tt -> contains_char TILDE (safe_filename digest key) = false ->
  key_from_filename debug_char (safe_filename digest key) = Some key.
Proof.
  intros V Ht. unfold key_from_filename. rewrite Ht. unfold safe_filename in *. destruct (_ <=? _)%nat.
  - by rewrite (proj1 (decode_escaped key (valid_key_bytes _ _ V))), V.
  - rewrite contains_char_app in Ht. cbn in Ht. by rewrite orb_true_r in Ht.
Qed.

(** Every key has a file of its own. The name of a valid key's file has at most
    160 bytes and no slash; keys whose digests do not collide have names that
    differ even where the file system folds case; and a name that is not hashed
    gives its key back. *)
Theorem key_files_are_distinct digest debug_char k1 k2 :
  hex_digest digest -> validate_state_key debug_char k1 = Ok tt -> validate_state_key debug_char k2 = Ok tt ->
  (digest k1 = digest k2 -> k1 = k2) ->
  (String.length (safe_filename digest k1) <= MAX_STEM)%nat /\
  contains_char SLASH (safe_filename digest k1) = false /\
  (string_lower (safe_filename digest k1) = string_lower (safe_filename digest k2) -> k1 = k2) /\
  (contains_char TILDE (safe_filename digest k1) = false ->
     key_from_filename debug_char (safe_filename digest k1) = Some k1).
Proof.
  intros Hdg V1 V2 Hd. pose proof (valid_key_bytes _ _ V1) as B1. pose proof (valid_key_bytes _ _ V2) as B2.
  split_and!; [by apply stem_length|by apply stem_no_slash|by apply stem_inj|by apply stem_decodes].
Qed.

(** A digest for examples: 64 hexadecimal digits of a checksum. *)
Definition toy_digest (k : string) : string := hex_pad 64 (fnv1a 14695981039346656037 k) EmptyString.

Lemma hex_char_clean d : 0 <= d < 16 ->
  ascii_lower (hex_char d) = hex_char d /\ hex_char d <> TILDE /\ hex_char d <> SLASH.
Proof.
  intros H. assert (d ∈ [0; 1; 2; 3; 4; 5; 6; 7; 8; 9; 10; 11; 12; 13; 14; 15]) as Hd by (rewrite !elem_of_cons; lia).
  repeat (apply elem_of_cons in Hd as [->|Hd]; [vm_compute; done|]). by apply elem_of_nil in Hd.
Qed.

Lemma hex_pad_clean w n acc :
  String.length (hex_pad w n acc) = (w + String.length acc)%nat /\
  (string_lower acc = acc -> string_lower (hex_pad w n acc) = hex_pad w n acc) /\
  (forall c, c = TILDE \/ c = SLASH -> contains_char c acc = false -> contains_char c (hex_pad w n acc) = false).
Proof.
  revert n acc. induction w as [|w IH]; intros n acc; [done|]. cbn [hex_pad].
  destruct (IH (n / 16) (String (hex_char (n mod 16)) acc)) as (H1 & H2 & H3).
  destruct (hex_char_clean (n mod 16)) as (C1 & C2 & C3); [apply Z.mod_pos_bound; lia|]. split_and!.
  - rewrite H1. cbn. lia.
  - intros E. apply H2. cbn. by rewrite C1, E.
  - intros c Hc E. apply H3; [done|]. cbn. rewrite E, orb_false_r. apply bool_decide_eq_false. naive_solver.
Qed.

Lemma toy_digest_hex : hex_digest toy_digest.
Proof.
  split; intros k; unfold toy_digest; destruct (hex_pad_clean 64 (fnv1a 14695981039346656037 k) EmptyString) as (H1 & H2 & H3); auto.
Qed.

(** Two keys that differ in the case of letters. *)
Lemma key_files_are_distinct_witness :
  let k1 := "acme/erp::orders" in let k2 := "acme/ERP::orders" in
  string_lower (safe_filename toy_digest k1) <> string_lower (safe_filename toy_digest k2).
Proof.
  intros k1 k2 E. assert (k1 = k2); [|discriminate].
  refine (proj1 (proj2 (proj2 (key_files_are_distinct toy_digest (fun _ _ => EmptyString) k1 k2 toy_digest_hex _ _ _))) E);
    [vm_compute; reflexivity|vm_compute; reflexivity|]. intros D. vm_compute in D. discriminate D.
Defined.
