(* ===== verification/TypedKey.v ===== *)
(** Typed state keys: crates/core/src/state_key.rs (the migration of stored
    values is in Pipeline.v).

    A key is built from its components and rendered in one of four schemes.
    serde_json's text of a value is a parameter. *)
From S2P Require Import Prelude Errors Json Text StateKey.
From Stdlib Require Import Ascii.

Local Open Scope Z_scope.

Definition KEY_SCHEME_VERSION : Z := 4.
Definition KEY_SEPARATOR : string := "::".
Definition COMPONENT_MAX : Z := 64.

(** [enum KeySuffix]. *)
Inductive KeySuffix :=
  | Sla | Profiling | RollbackIndex | RollbackRun (run : string) | Status | Lease
  | Replication | Backfill (range : string) | ServeBackfill (range : string).

(** [KeySuffix::is_pipeline_level]. *)
Definition is_pipeline_level (s : KeySuffix) : bool :=
  match s with Replication | Backfill _ | ServeBackfill _ => true | _ => false end.

(** [push]. *)
Definition push (out seg : string) : string :=
  (if string_eqb out EmptyString then out else out +:+ KEY_SEPARATOR) +:+ seg.

(** [KeySuffix::render_into], [render], [tail]. *)
Definition suffix_parts (s : KeySuffix) : string * option string :=
  match s with
  | Sla => ("__sla__", None)
  | Profiling => ("__profiling__", None)
  | RollbackIndex => ("__rollback__", None)
  | RollbackRun run => ("__rollback__", Some run)
  | Status => ("__status__", None)
  | Lease => ("__lease__", None)
  | Replication => ("__replication__", None)
  | Backfill h => ("__backfill__", Some h)
  | ServeBackfill h => ("__serve_backfill__", Some h)
  end.
Definition render_into (s : KeySuffix) (out : string) : string :=
  let '(marker, tail) := suffix_parts s in
  let out := push out marker in
  match tail with Some tail => push out tail | None => out end.
Definition suffix_render (s : KeySuffix) : string := render_into s EmptyString.
Definition suffix_tail (s : KeySuffix) : string := KEY_SEPARATOR +:+ suffix_render s.

(** [enum Sub], [enum Head], [struct StateKey]. *)
Inductive Sub :=
  | Parent (raw : string)
  | Encoded (s : string)
  | Typed (typed text : string) (is_string : bool).
Inductive Head :=
  | Parts (tenant : option string) (pipeline : string) (row : option string) (sub : option Sub)
  | Rendered (base : string).
Record StateKey := MkStateKey { key_head : Head; key_shard : option string; key_suffix : option KeySuffix }.

(** ** Components *)

(** [str::contains("::")], [str::ends_with(':')]. *)
Fixpoint contains_sep (s : string) : bool :=
  match s with
  | String a (String b _ as s') => (Ascii.eqb a ":" && Ascii.eqb b ":") || contains_sep s'
  | _ => false
  end.
Fixpoint ends_with_colon (s : string) : bool :=
  match s with
  | EmptyString => false
  | String c EmptyString => Ascii.eqb c ":"
  | String _ s => ends_with_colon s
  end.

(** The closures [plain] and [legal] of [encode_component]. *)
Definition plain (c : ascii) : bool :=
  let b := byte_of c in
  ((48 <=? b) && (b <=? 57)) || ((65 <=? b) && (b <=? 90)) || ((97 <=? b) && (b <=? 122))
  || (b =? 95) || (b =? 45) || (b =? 46).
Definition legal (allow_separators : bool) (c : ascii) : bool :=
  plain c || (allow_separators && (Ascii.eqb c ":" || Ascii.eqb c "/")).

(** [chars().filter(plain).take(n)]. *)
Fixpoint take_plain (n : nat) (s : string) : string :=
  match n, s with
  | S n', String c s => if plain c then String c (take_plain n' s) else take_plain n s
  | _, _ => EmptyString
  end.

(** The test under which [encode_component] keeps a value as it is. *)
Definition keeps_verbatim (raw : string) (allow_separators : bool) : bool :=
  negb (string_eqb raw EmptyString) && (Z.of_nat (String.length raw) <=? COMPONENT_MAX)
  && all_bytes (legal allow_separators) raw && negb (contains_sep raw)
  && negb (starts_with_char ":" raw) && negb (ends_with_colon raw)
  && (negb (contains_char SLASH raw)
      || forallb (fun seg => negb (string_eqb seg EmptyString) && negb (starts_with_char DOT seg))
           (split_on SLASH raw)).

(** [encode_component]. *)
Definition encode_component (raw : string) (allow_separators : bool) : string :=
  if keeps_verbatim raw allow_separators then raw
  else take_plain 32 raw +:+ ".h" +:+ hex_pad 16 (fnv1a 14695981039346656037 raw) EmptyString.

(** [MARKER_NAMES], [is_marker_name]. *)
Definition MARKER_NAMES : list string :=
  ["__sla__"; "__profiling__"; "__status__"; "__lease__"; "__rollback__"; "__replication__";
   "__backfill__"; "__serve_backfill__"].
Definition is_marker_name (raw : string) : bool := existsb (string_eqb raw) MARKER_NAMES.

(** [TYPE_TAGS], [typed_string]. *)
Definition TYPE_TAGS : list ascii := ["s"; "n"; "b"; "z"; "a"; "o"]%char.
Definition tag_like (raw : string) : bool :=
  match raw with
  | String a (String b (String c _)) =>
      Ascii.eqb a "_" && existsb (Ascii.eqb b) TYPE_TAGS && Ascii.eqb c "."
  | _ => false
  end.
Definition typed_string (raw : string) : string :=
  if tag_like raw then encode_component ("_s." +:+ raw) true else encode_component raw true.

(** [render_sub]. *)
Definition render_sub (sub : Sub) (version : Z) : string :=
  match sub with
  | Parent raw =>
      if (4 <=? version) && is_marker_name raw then encode_component ("_s." +:+ raw) true
      else if 3 <=? version then typed_string raw
      else if 2 <=? version then encode_component raw true
      else raw
  | Typed typed text is_string =>
      if is_string && (4 <=? version) && is_marker_name text then encode_component ("_s." +:+ text) true
      else if 3 <=? version then typed
      else if 2 <=? version then encode_component text true
      else text
  | Encoded s => s
  end.

(** ** Keys *)

(** [StateKey::pipeline], [from_rendered] and the builders. *)
Definition pipeline_key (pipeline : string) : StateKey := MkStateKey (Parts None pipeline None None) None None.
Definition from_rendered (base : string) : StateKey := MkStateKey (Rendered base) None None.
Definition with_tenant (tenant : option string) (k : StateKey) : StateKey :=
  match key_head k with
  | Parts _ p r s => MkStateKey (Parts tenant p r s) (key_shard k) (key_suffix k)
  | Rendered _ => k
  end.
Definition with_row (id : string) (k : StateKey) : StateKey :=
  match key_head k with
  | Parts t p _ s => MkStateKey (Parts t p (Some id) s) (key_shard k) (key_suffix k)
  | Rendered _ => k
  end.
Definition set_sub (sub : Sub) (k : StateKey) : StateKey :=
  match key_head k with
  | Parts t p r _ => MkStateKey (Parts t p r (Some sub)) (key_shard k) (key_suffix k)
  | Rendered _ => k
  end.
Definition invocation (pipeline row : string) : StateKey := with_row row (pipeline_key pipeline).
Definition with_parent_key (raw : string) (k : StateKey) : StateKey := set_sub (Parent raw) k.
Definition with_sub (encoded : string) (k : StateKey) : StateKey := set_sub (Encoded encoded) k.
Definition with_shard (shard : string) (k : StateKey) : StateKey :=
  MkStateKey (key_head k) (Some shard) (key_suffix k).
Definition with_suffix (suffix : KeySuffix) (k : StateKey) : StateKey :=
  MkStateKey (key_head k) (key_shard k) (Some suffix).

Section ParentValue.
(** serde_json's text of a value. *)
Context (to_string : Value -> string).

(** The tag of a value that is not a string. *)
Definition type_tag (v : Value) : ascii :=
  match v with
  | VNumber _ => "n" | VBool _ => "b" | Null => "z" | VArray _ => "a" | _ => "o"
  end%char.

(** [with_parent_value]. *)
Definition value_sub (v : Value) : Sub :=
  match v with
  | VString s => Typed (typed_string s) s true
  | other =>
      let text := to_string other in
      Typed (encode_component (String "_" (String (type_tag other) (String "." text))) true) text false
  end.
Definition with_parent_value (v : Value) (k : StateKey) : StateKey := set_sub (value_sub v) k.
End ParentValue.

(** [namespace], [render_scheme], [render], [children_prefix]. *)
Definition namespace (k : StateKey) : string :=
  match key_head k with
  | Parts tenant pipeline _ _ =>
      push (match tenant with Some t => push EmptyString t | None => EmptyString end) pipeline
  | Rendered base => base
  end.
Definition render_scheme (k : StateKey) (version : Z) : string :=
  let s :=
    match key_head k with
    | Parts _ _ row sub =>
        let s := namespace k in
        let s := match row with Some row => push s row | None => s end in
        match sub with Some sub => push s (render_sub sub version) | None => s end
    | Rendered base => base
    end in
  let s := match key_shard k with Some shard => push s shard | None => s end in
  match key_suffix k with Some suffix => render_into suffix s | None => s end.
Definition render (k : StateKey) : string := render_scheme k KEY_SCHEME_VERSION.
Definition children_prefix (k : StateKey) : string := render k +:+ KEY_SEPARATOR.

(** [sub_is_marker_name]. *)
Definition sub_is_marker_name (k : StateKey) : bool :=
  match key_head k with
  | Parts _ _ _ (Some (Parent raw)) => is_marker_name raw
  | Parts _ _ _ (Some (Typed _ text true)) => is_marker_name text
  | _ => false
  end.

(** [legacy_renderings]: versions 3, 2, 1. *)
Definition legacy_step (debug_char : string -> Z -> string) (k : StateKey) (out : list string) (version : Z) :
    list string :=
  if (version <? 4) && sub_is_marker_name k then out
  else
    let old := render_scheme k version in
    if negb (string_eqb old (render k)) && negb (existsb (string_eqb old) out)
       && is_ok (validate_state_key debug_char old)
    then out ++ [old] else out.
Definition legacy_renderings (debug_char : string -> Z -> string) (k : StateKey) : list string :=
  foldl (legacy_step debug_char k) [] [3; 2; 1].

(** ** Parsing *)



(** [str::split("::")]. *)
Fixpoint split_sep (s : string) : list string :=
  match s with
  | EmptyString => [EmptyString]
  | String a s1 =>
      match s1 with
      | EmptyString => [String a EmptyString]
      | String b s2 =>
          if Ascii.eqb a ":" && Ascii.eqb b ":" then EmptyString :: split_sep s2
          else match split_sep s1 with
               | p :: ps => String a p :: ps
               | [] => [String a EmptyString]
               end
      end
  end.
(** [join("::")]. *)
Notation join_sep := (join KEY_SEPARATOR).

(** The suffix a segment starts, given the segments after it. *)
Definition marker_of (seg : string) (after : list string) : option KeySuffix :=
  let last := is_nil after in
  if string_eqb seg "__sla__" && last then Some Sla
  else if string_eqb seg "__profiling__" && last then Some Profiling
  else if string_eqb seg "__status__" && last then Some Status
  else if string_eqb seg "__lease__" && last then Some Lease
  else if string_eqb seg "__rollback__" then
    (if last then Some RollbackIndex else Some (RollbackRun (join_sep after)))
  else None.
(** The [find_map] over the segments from [i] on. *)
Fixpoint find_marker (i : nat) (segs : list string) : option (nat * KeySuffix) :=
  match segs with
  | [] => None
  | seg :: after =>
      match marker_of seg after with Some s => Some (i, s) | None => find_marker (S i) after end
  end.

(** [StateKey::parse]. *)
Definition parse_segments (base : StateKey) (segs : list string) : StateKey :=
  match segs with
  | [] => base
  | first :: after =>
      if string_eqb first "__replication__" && is_nil after then with_suffix Replication base
      else if string_eqb first "__backfill__" && negb (is_nil after) then
        with_suffix (Backfill (join_sep after)) base
      else if string_eqb first "__serve_backfill__" && negb (is_nil after) then
        with_suffix (ServeBackfill (join_sep after)) base
      else
        let marker := find_marker 1 after in
        let end_ := match marker with Some (i, _) => i | None => length segs end in
        let row_end := if string_eqb first "backfill" && (1 <? end_)%nat then end_ else 1%nat in
        let parsed := with_row (join_sep (take row_end segs)) base in
        let parsed := if (row_end <? end_)%nat
                      then with_sub (join_sep (slice row_end (end_ - row_end) segs)) parsed else parsed in
        match marker with Some (_, suffix) => with_suffix suffix parsed | None => parsed end
  end.
Definition parse (tenant : option string) (pipeline key : string) : option StateKey :=
  let base := with_tenant tenant (pipeline_key pipeline) in
  match strip_prefix (namespace base) key ≫= strip_prefix KEY_SEPARATOR with
  | None => None
  | Some rest =>
      if string_eqb rest EmptyString then None else Some (parse_segments base (split_sep rest))
  end.

(** [backfill_unit_row]. *)
Definition backfill_unit_row (range_hash unit : string) : string := join_sep ["backfill"; range_hash; unit].

(** ** Facts *)

Lemma strip_prefix_Some p s r : strip_prefix p s = Some r <-> s = p +:+ r.
Proof.
  revert s. induction p as [|a p IH]; intros s; [split; [by intros [= ->]|by intros ->]|].
  destruct s as [|b s]; [done|]. cbn [strip_prefix].
  change (String a p +:+ r) with (String a (p +:+ r)). destruct (Ascii.eqb_spec a b) as [->|Hne].
  - rewrite IH. split; [by intros ->|by intros [= ->]].
  - split; [done|]. intros [= -> _]. done.
Qed.

Lemma split_sep_cons2 a b s :
  split_sep (String a (String b s)) =
  if Ascii.eqb a ":" && Ascii.eqb b ":" then EmptyString :: split_sep s
  else match split_sep (String b s) with p :: ps => String a p :: ps | [] => [String a EmptyString] end.
Proof. reflexivity. Qed.

Lemma split_sep_nonempty s : split_sep s <> [].
Proof.
  destruct s as [|a [|b s]]; [done|done|]. rewrite split_sep_cons2.
  destruct (Ascii.eqb a ":" && Ascii.eqb b ":"); [done|]. by case_match.
Qed.

Lemma join_cons sep x l : l <> [] -> join sep (x :: l) = x +:+ sep +:+ join sep l.
Proof. by destruct l. Qed.

Lemma join_app sep l l' : l <> [] -> l' <> [] -> join sep (l ++ l') = join sep l +:+ sep +:+ join sep l'.
Proof.
  intros Hl Hl'. induction l as [|x l IH]; [done|]. destruct l as [|y l]; [by apply join_cons|].
  change ((x :: y :: l) ++ l') with (x :: ((y :: l) ++ l')).
  rewrite join_cons, IH, (join_cons sep x (y :: l)), !string_app_assoc by done. done.
Qed.

Lemma join_nonempty sep x l : x <> EmptyString -> join sep (x :: l) <> EmptyString.
Proof. intros Hx. destruct l; [done|]. by destruct x. Qed.

Lemma join_split s : join_sep (split_sep s) = s.
Proof.
  remember (String.length s) as n eqn:Hn. assert (String.length s <= n)%nat as Hle by lia. clear Hn.
  revert s Hle. induction n as [|n IH]; intros s Hle; [destruct s; [done|simpl in Hle; lia]|].
  destruct s as [|a [|b s]]; [done|done|]. rewrite split_sep_cons2. cbn [String.length] in Hle.
  destruct (Ascii.eqb a ":" && Ascii.eqb b ":") eqn:Hab.
  - apply andb_true_iff in Hab as [->%Ascii.eqb_eq ->%Ascii.eqb_eq].
    rewrite join_cons, IH by (apply split_sep_nonempty || lia). done.
  - assert (join_sep (split_sep (String b s)) = String b s) as Hj by (apply IH; cbn [String.length]; lia).
    destruct (split_sep (String b s)) as [|p ps]; [done|].
    transitivity (String a (join_sep (p :: ps))); [by destruct ps|by rewrite Hj].
Qed.

Lemma push_ne out seg : out <> EmptyString -> push out seg = out +:+ KEY_SEPARATOR +:+ seg.
Proof.
  intros Ho. unfold push, string_eqb. rewrite bool_decide_eq_false_2 by done. by rewrite string_app_assoc.
Qed.
Lemma push_nonempty out seg : out <> EmptyString -> push out seg <> EmptyString.
Proof. intros Ho. rewrite push_ne by done. by destruct out. Qed.

Lemma render_into_ne s out :
  out <> EmptyString -> render_into s out = out +:+ KEY_SEPARATOR +:+ suffix_render s.
Proof.
  intros Ho. unfold suffix_render, render_into.
  assert (fst (suffix_parts s) <> EmptyString) as Hm by (by destruct s).
  destruct (suffix_parts s) as [m [t|]]; [|by apply push_ne].
  change (push EmptyString m) with m. rewrite !push_ne by (done || by apply push_nonempty).
  by rewrite !string_app_assoc.
Qed.

(** A suffix is its marker segment and what follows it. *)
Lemma marker_of_render seg after s :
  marker_of seg after = Some s -> suffix_render s = join_sep (seg :: after).
Proof.
  unfold marker_of, string_eqb. intros H.
  repeat (case_match; reflect_bools; simplify_eq; [destruct after; done|]).
  case_match; reflect_bools; [|done]. subst. destruct after as [|y after]; simpl in H; simplify_eq; done.
Qed.

Lemma find_marker_spec i segs j s :
  find_marker i segs = Some (j, s) ->
  (i <= j)%nat /\ (j - i < length segs)%nat /\ suffix_render s = join_sep (drop (j - i) segs).
Proof.
  revert i. induction segs as [|seg segs IH]; intros i H; [done|]. cbn [find_marker] in H.
  destruct (marker_of seg segs) as [s'|] eqn:Hm.
  - injection H as <- <-. rewrite Nat.sub_diag. split_and!; [lia|simpl; lia|]. by apply marker_of_render.
  - apply IH in H as (Hi & Hlt & Hr). split_and!; [lia|simpl; lia|].
    replace (j - i)%nat with (S (j - S i)) by lia. done.
Qed.

Lemma string_app_tail (a b c : string) : a +:+ b = a +:+ c -> b = c.
Proof. apply (inj (String.app a)). Qed.

Lemma strip_prefix_app p r : strip_prefix p (p +:+ r) = Some r.
Proof. by apply strip_prefix_Some. Qed.

(** A key of the namespace [tenant], [pipeline], as [parse] builds it. *)
Lemma render_parts tenant pipeline row sub suffix :
  let base := with_tenant tenant (pipeline_key pipeline) in
  namespace base <> EmptyString ->
  render (MkStateKey (Parts tenant pipeline (Some row) (Encoded <$> sub)) None suffix) =
  namespace base +:+ KEY_SEPARATOR +:+
    join_sep (row :: option_list sub ++ option_list (suffix_render <$> suffix)).
Proof.
  intros base Hns.
  change (namespace base) with (namespace (MkStateKey (Parts tenant pipeline (Some row) (Encoded <$> sub)) None suffix))
    in *.
  unfold render, render_scheme. cbn [key_head key_shard key_suffix]. set (ns := namespace _) in *.
  assert (push ns row <> EmptyString) as Hr by (by apply push_nonempty).
  destruct sub as [sub|], suffix as [suffix|]; simpl.
  - rewrite render_into_ne, !push_ne by (done || by apply push_nonempty). by rewrite !string_app_assoc.
  - by rewrite !push_ne, !string_app_assoc by (done || by apply push_nonempty).
  - rewrite render_into_ne, !push_ne by (done || by apply push_nonempty). by rewrite !string_app_assoc.
  - by rewrite push_ne.
Qed.

Lemma render_suffix_only tenant pipeline suffix :
  let base := with_tenant tenant (pipeline_key pipeline) in
  namespace base <> EmptyString ->
  render (with_suffix suffix base) = namespace base +:+ KEY_SEPARATOR +:+ suffix_render suffix.
Proof. intros base Hns. exact (render_into_ne suffix (namespace base) Hns). Qed.

(** Three consecutive parts of a list, joined. *)
Lemma join_three (segs : list string) a b :
  (0 < a <= b)%nat -> (b <= length segs)%nat ->
  join_sep segs =
  join_sep (join_sep (take a segs) ::
    option_list (if (a <? b)%nat then Some (join_sep (slice a (b - a) segs)) else None) ++
    option_list (if (b <? length segs)%nat then Some (join_sep (drop b segs)) else None)).
Proof.
  intros Hab Hb. assert (forall l : list string, l = [] <-> length l = 0%nat) as Hnil by (intros []; simpl; split; done || lia).
  rewrite <- (take_drop a segs) at 1. rewrite <- (take_drop (b - a) (drop a segs)) at 1.
  rewrite drop_drop. replace (a + (b - a))%nat with b by lia. fold (slice a (b - a) segs).
  assert (take a segs <> []) as Ht by (rewrite Hnil, length_take; lia).
  assert (length (slice a (b - a) segs) = b - a)%nat as Hs by (unfold slice; rewrite length_take, length_drop; lia).
  assert (length (drop b segs) = length segs - b)%nat as Hd by apply length_drop.
  destruct (a <? b)%nat eqn:Hlt, (b <? length segs)%nat eqn:Hlt2; simpl;
    (apply Nat.ltb_lt in Hlt || apply Nat.ltb_ge in Hlt); (apply Nat.ltb_lt in Hlt2 || apply Nat.ltb_ge in Hlt2).
  - assert (slice a (b - a) segs <> []) by (rewrite Hnil; lia). assert (drop b segs <> []) by (rewrite Hnil; lia).
    rewrite join_app by (done || (intros [? ?]%app_eq_nil; done)). by rewrite join_app.
  - assert (drop b segs = []) as -> by (apply Hnil; lia). rewrite app_nil_r. apply join_app; [done|]. rewrite Hnil. lia.
  - assert (slice a (b - a) segs = []) as -> by (apply Hnil; lia). apply join_app; [done|]. rewrite Hnil. lia.
  - assert (drop b segs = []) as -> by (apply Hnil; lia). assert (slice a (b - a) segs = []) as -> by (apply Hnil; lia).
    by rewrite app_nil_r.
Qed.

Lemma render_parse_segments tenant pipeline segs :
  let base := with_tenant tenant (pipeline_key pipeline) in
  namespace base <> EmptyString -> segs <> [] ->
  render (parse_segments base segs) = namespace base +:+ KEY_SEPARATOR +:+ join_sep segs.
Proof.
  intros base Hns Hne. destruct segs as [|first after]; [done|]. cbn [parse_segments].
  destruct (string_eqb first "__replication__" && is_nil after) eqn:H1.
  { unfold string_eqb in H1. reflect_bools. subst. destruct after; [|done]. by apply render_suffix_only. }
  destruct (string_eqb first "__backfill__" && negb (is_nil after)) eqn:H2.
  { unfold string_eqb in H2. reflect_bools. subst. destruct after; [done|]. by apply render_suffix_only. }
  destruct (string_eqb first "__serve_backfill__" && negb (is_nil after)) eqn:H3.
  { unfold string_eqb in H3. reflect_bools. subst. destruct after; [done|]. by apply render_suffix_only. }
  set (segs := first :: after). set (marker := find_marker 1 after).
  set (end_ := match marker with Some (i, _) => i | None => length segs end).
  set (row_end := if string_eqb first "backfill" && (1 <? end_)%nat then end_ else 1%nat).
  assert ((1 <= end_ <= length segs)%nat /\
    (match marker with Some (_, s) => Some (suffix_render s) | None => None end) =
    (if (end_ <? length segs)%nat then Some (join_sep (drop end_ segs)) else None)) as [He Hsuf].
  { unfold end_, segs. destruct marker as [[j s]|] eqn:Hmk.
    - apply find_marker_spec in Hmk as (Hj & Hlt & Hr). cbn [length].
      destruct (Nat.ltb_spec j (S (length after))); [|lia]. split; [lia|].
      rewrite Hr. destruct j as [|j]; [lia|]. by replace (S j - 1)%nat with j by lia.
    - rewrite Nat.ltb_irrefl. split; [simpl; lia|done]. }
  assert (0 < row_end <= end_)%nat as Hrow.
  { unfold row_end. destruct (string_eqb first "backfill"), (Nat.ltb_spec 1 end_); simpl; lia. }
  rewrite (join_three segs row_end end_) by lia. rewrite <- Hsuf.
  pose proof (render_parts tenant pipeline (join_sep (take row_end segs))
    (if (row_end <? end_)%nat then Some (join_sep (slice row_end (end_ - row_end) segs)) else None)
    (snd <$> marker) Hns) as Hr.
  unfold base in *. destruct (row_end <? end_)%nat, marker as [[j s]|]; exact Hr.
Qed.

(** *** Encoded components *)

Lemma all_bytes_app p a b : all_bytes p (a +:+ b) = all_bytes p a && all_bytes p b.
Proof.
  induction a as [|c a IH]; [done|]. change (String c a +:+ b) with (String c (a +:+ b)). simpl.
  by rewrite IH, andb_assoc.
Qed.
Lemma all_bytes_impl p q s : (forall c, p c = true -> q c = true) -> all_bytes p s = true -> all_bytes q s = true.
Proof.
  intros Hpq. induction s as [|c s IH]; [done|]. simpl. intros [Hc Hs]%andb_true_iff. by rewrite (Hpq c), IH.
Qed.
Lemma all_bytes_contains p c s : p c = false -> all_bytes p s = true -> contains_char c s = false.
Proof.
  intros Hc. induction s as [|x s IH]; [done|]. simpl. intros [Hx Hs]%andb_true_iff. rewrite IH by done.
  rewrite bool_decide_eq_false_2; [done|]. intros ->. congruence.
Qed.
Lemma take_plain_plain n s : all_bytes plain (take_plain n s) = true.
Proof.
  revert n. induction s as [|c s IH]; intros [|n]; try done. cbn [take_plain].
  destruct (plain c) eqn:Hc; [|apply IH]. cbn [all_bytes]. by rewrite Hc, IH.
Qed.
Lemma plain_hex d : 0 <= d < 16 -> plain (hex_char d) = true.
Proof.
  intros Hd. assert (forallb (fun d => plain (hex_char d)) (seqZ 0 16) = true) as H by (vm_compute; reflexivity).
  rewrite forallb_forall in H. apply H, list_elem_of_In, elem_of_seqZ. lia.
Qed.
Lemma hex_pad_plain w n acc : all_bytes plain acc = true -> all_bytes plain (hex_pad w n acc) = true.
Proof.
  revert n acc. induction w as [|w IH]; intros n acc Ha; [done|]. apply IH. cbn [all_bytes].
  rewrite plain_hex by (apply Z.mod_pos_bound; lia). done.
Qed.
Lemma length_hex_pad w n acc : String.length (hex_pad w n acc) = (w + String.length acc)%nat.
Proof. revert n acc. induction w as [|w IH]; intros n acc; [done|]. simpl. rewrite IH. simpl. lia. Qed.
Lemma length_take_plain n s : (String.length (take_plain n s) <= n)%nat.
Proof.
  revert n. induction s as [|c s IH]; intros [|n]; try (simpl; lia). cbn [take_plain].
  destruct (plain c); [cbn [String.length]; pose proof (IH n); lia|apply IH].
Qed.

(** A component stays one segment of the key. *)
Definition one_segment (s : string) : Prop :=
  s <> EmptyString /\ contains_sep s = false /\ ends_with_colon s = false.

Lemma no_colon_one_segment s : s <> EmptyString -> contains_char ":" s = false -> one_segment s.
Proof.
  intros Hne Hs. split; [done|]. clear Hne. induction s as [|a [|b s] IH]; [done| |].
  - simpl in Hs |- *. apply orb_false_iff in Hs as [Ha _]. split; [done|]. apply Ascii.eqb_neq.
    by apply bool_decide_eq_false in Ha.
  - cbn [contains_char] in Hs. apply orb_false_iff in Hs as [Ha Hs]. apply bool_decide_eq_false in Ha.
    destruct IH as [IH1 IH2]; [exact Hs|]. apply Ascii.eqb_neq in Ha. cbn [contains_sep]. rewrite Ha. by split.
Qed.

(** The hashed form, when the value is not kept. *)
Definition hashed (raw : string) : string :=
  take_plain 32 raw +:+ ".h" +:+ hex_pad 16 (fnv1a 14695981039346656037 raw) EmptyString.

Lemma hashed_plain raw : all_bytes plain (hashed raw) = true.
Proof. unfold hashed. rewrite !all_bytes_app, take_plain_plain, hex_pad_plain by done. done. Qed.
Lemma hashed_dot raw : contains_char DOT (hashed raw) = true.
Proof. unfold hashed. rewrite contains_char_app. simpl. by rewrite orb_true_r. Qed.

Lemma encode_one_segment raw b : one_segment (encode_component raw b).
Proof.
  unfold encode_component. destruct (keeps_verbatim raw b) eqn:Hk.
  - unfold keeps_verbatim, string_eqb in Hk. reflect_bools. done.
  - fold (hashed raw). apply no_colon_one_segment.
    + pose proof (hashed_dot raw). by destruct (hashed raw).
    + by apply (all_bytes_contains plain); [|apply hashed_plain].
Qed.

(** *** Markers and tags *)

Lemma marker_no_dot s : is_marker_name s = true -> contains_char DOT s = false.
Proof.
  unfold is_marker_name. rewrite existsb_exists. intros (m & Hin & Hm). unfold string_eqb in Hm.
  apply bool_decide_eq_true in Hm as ->. simpl in Hin. naive_solver.
Qed.
Lemma dot_not_marker s : contains_char DOT s = true -> is_marker_name s = false.
Proof. intros Hd. apply not_true_iff_false. intros Hm%marker_no_dot. congruence. Qed.

(** The text encoded for a string, and for any parent value. *)
Definition string_raw (s : string) : string :=
  if is_marker_name s || tag_like s then "_s." +:+ s else s.
Definition value_raw (to_string : Value -> string) (v : Value) : string :=
  match v with
  | VString s => string_raw s
  | other => String "_" (String (type_tag other) (String "." (to_string other)))
  end.

Lemma render_string raw : render_sub (Parent raw) 4 = encode_component (string_raw raw) true.
Proof.
  simpl. unfold string_raw, typed_string. destruct (is_marker_name raw), (tag_like raw); done.
Qed.
Lemma render_value to_string v :
  render_sub (value_sub to_string v) 4 = encode_component (value_raw to_string v) true.
Proof. destruct v; try done. exact (render_string s). Qed.

Lemma value_raw_not_marker to_string v : is_marker_name (value_raw to_string v) = false.
Proof.
  destruct v; try (apply dot_not_marker; reflexivity). simpl. unfold string_raw.
  destruct (is_marker_name s) eqn:Hm; [apply dot_not_marker; reflexivity|].
  destruct (tag_like s); [apply dot_not_marker; reflexivity|done].
Qed.
Lemma encode_not_marker raw : is_marker_name raw = false -> is_marker_name (encode_component raw true) = false.
Proof.
  unfold encode_component. intros Hm. destruct (keeps_verbatim raw true); [done|].
  apply dot_not_marker, (hashed_dot raw).
Qed.

Lemma string_raw_not_tagged s t text :
  string_raw s = String "_" (String t (String "." text)) -> existsb (Ascii.eqb t) (tail TYPE_TAGS) = false.
Proof.
  unfold string_raw. destruct (is_marker_name s || tag_like s) eqn:Hs; [by intros [= <- _]|].
  intros ->. apply orb_false_iff in Hs as [_ Hs]. simpl in Hs.
  destruct (Ascii.eqb t "s"); [done|]. by rewrite andb_true_r in Hs.
Qed.
Lemma string_raw_inj s s' : string_raw s = string_raw s' -> s = s'.
Proof.
  assert (forall x, tag_like ("_s." +:+ x) = true) as Htag by done. unfold string_raw.
  destruct (is_marker_name s || tag_like s) eqn:H, (is_marker_name s' || tag_like s') eqn:H'; intros Heq.
  - exact (string_app_tail "_s." _ _ Heq).
  - subst s'. by rewrite Htag, orb_true_r in H'.
  - subst s. by rewrite Htag, orb_true_r in H.
  - done.
Qed.

(** *** Splitting a rendered key *)

Lemma split_one_segment a b :
  contains_sep a = false -> ends_with_colon a = false -> split_sep (a +:+ KEY_SEPARATOR +:+ b) = a :: split_sep b.
Proof.
  induction a as [|c a IH]; intros Hs He; [done|].
  change (String c a +:+ KEY_SEPARATOR +:+ b) with (String c (a +:+ KEY_SEPARATOR +:+ b)).
  destruct a as [|d a].
  - change (EmptyString +:+ KEY_SEPARATOR +:+ b) with (String ":" (String ":" b)). rewrite split_sep_cons2.
    cbn [ends_with_colon] in He. by rewrite He.
  - change (String d a +:+ KEY_SEPARATOR +:+ b) with (String d (a +:+ KEY_SEPARATOR +:+ b)) in IH |- *.
    cbn [contains_sep] in Hs. apply orb_false_iff in Hs as [Hcd Hs]. rewrite split_sep_cons2, Hcd, IH by done. done.
Qed.
Lemma split_single a : contains_sep a = false -> split_sep a = [a].
Proof.
  induction a as [|c a IH]; intros Hs; [done|]. destruct a as [|d a]; [done|].
  cbn [contains_sep] in Hs. apply orb_false_iff in Hs as [Hcd Hs]. rewrite split_sep_cons2, Hcd, IH by done. done.
Qed.

(** The segments a suffix renders to. *)
Definition suffix_segs (s : KeySuffix) : list string :=
  let '(marker, tail) := suffix_parts s in
  marker :: match tail with Some t => split_sep t | None => [] end.

Lemma split_suffix s : split_sep (suffix_render s) = suffix_segs s.
Proof. destruct s; try reflexivity; exact (split_one_segment _ _ eq_refl eq_refl). Qed.

Lemma marker_of_suffix s :
  is_pipeline_level s = false -> forall seg after, suffix_segs s = seg :: after -> marker_of seg after = Some s.
Proof.
  intros Hp seg after Hs. destruct s as [| | |run| | | | |]; try discriminate Hp; injection Hs as <- <-; try reflexivity.
  change (marker_of "__rollback__" (split_sep run)) with
    (if is_nil (split_sep run) then Some RollbackIndex else Some (RollbackRun (join_sep (split_sep run)))).
  rewrite join_split. pose proof (split_sep_nonempty run). by destruct (split_sep run).
Qed.

Lemma split_key row sub suffix :
  one_segment row -> (forall s, sub = Some s -> one_segment s) ->
  split_sep (join_sep (row :: option_list sub ++ option_list (suffix_render <$> suffix))) =
  row :: option_list sub ++ match suffix with Some s => suffix_segs s | None => [] end.
Proof.
  intros (Hr0 & Hr1 & Hr2) Hsub. destruct sub as [sub|], suffix as [suffix|]; cbn [option_list fmap option_fmap option_map Datatypes.app].
  - destruct (Hsub sub eq_refl) as (_ & ? & ?).
    transitivity (split_sep (row +:+ KEY_SEPARATOR +:+ (sub +:+ KEY_SEPARATOR +:+ suffix_render suffix))); [done|].
    by rewrite !split_one_segment, split_suffix.
  - destruct (Hsub sub eq_refl) as (_ & ? & ?).
    transitivity (split_sep (row +:+ KEY_SEPARATOR +:+ sub)); [done|]. by rewrite split_one_segment, split_single.
  - transitivity (split_sep (row +:+ KEY_SEPARATOR +:+ suffix_render suffix)); [done|].
    by rewrite split_one_segment, split_suffix.
  - by apply split_single.
Qed.

Lemma marker_name_ne s m : is_marker_name s = false -> m ∈ MARKER_NAMES -> string_eqb s m = false.
Proof. intros Hs Hm. exact (existsb_false_forall _ _ _ Hs Hm). Qed.

Lemma marker_of_not s after : is_marker_name s = false -> marker_of s after = None.
Proof.
  intros Hs. unfold marker_of. rewrite !(marker_name_ne s _ Hs) by (unfold MARKER_NAMES; set_solver). done.
Qed.

Lemma find_marker_key i sub suffix :
  (forall s, sub = Some s -> is_marker_name s = false) ->
  (forall s, suffix = Some s -> is_pipeline_level s = false) ->
  find_marker i (option_list sub ++ match suffix with Some s => suffix_segs s | None => [] end) =
  (fun s => (i + length (option_list sub), s)%nat) <$> suffix.
Proof.
  intros Hsub Hsuf.
  assert (forall j, find_marker j (match suffix with Some s => suffix_segs s | None => [] end) =
    (fun s => (j, s)) <$> suffix) as Hm.
  { intros j. destruct suffix as [s|]; [|done]. specialize (Hsuf s eq_refl).
    destruct (suffix_segs s) as [|seg after] eqn:Hs; [by destruct s|].
    cbn [find_marker]. by rewrite (marker_of_suffix s Hsuf seg after Hs). }
  destruct sub as [sub|]; [|by rewrite Nat.add_0_r, <- Hm].
  set (segs := match suffix with Some s => suffix_segs s | None => [] end) in *.
  change (match marker_of sub segs with Some s => Some (i, s) | None => find_marker (S i) segs end =
    (fun s => ((i + 1)%nat, s)) <$> suffix).
  by rewrite marker_of_not, Hm, Nat.add_1_r by auto.
Qed.

Lemma parse_key_segments base row sub suffix :
  is_marker_name row = false -> row <> "backfill" ->
  (forall s, sub = Some s -> is_marker_name s = false) ->
  (forall s, suffix = Some s -> is_pipeline_level s = false) ->
  parse_segments base (row :: option_list sub ++ match suffix with Some s => suffix_segs s | None => [] end) =
  let k := with_row row base in
  let k := match sub with Some s => with_sub s k | None => k end in
  match suffix with Some s => with_suffix s k | None => k end.
Proof.
  intros Hrow Hbf Hsub Hsuf. unfold parse_segments.
  rewrite !(marker_name_ne row _ Hrow) by (unfold MARKER_NAMES; set_solver). cbn [andb].
  assert (string_eqb row "backfill" = false) as -> by (by apply bool_decide_eq_false).
  rewrite find_marker_key by done. by destruct sub as [sub|], suffix as [suffix|].
Qed.

Section Child.
Context (to_string : Value -> string).

(** The key of a row, of its child for a parent value, or of a marker of either. *)
Definition child_key (tenant : option string) (pipeline row : string) (parent : option Value)
    (suffix : option KeySuffix) : StateKey :=
  let k := with_tenant tenant (invocation pipeline row) in
  let k := match parent with Some v => with_parent_value to_string v k | None => k end in
  match suffix with Some s => with_suffix s k | None => k end.

Lemma render_child tenant pipeline row parent suffix :
  let ns := namespace (with_tenant tenant (pipeline_key pipeline)) in
  ns <> EmptyString ->
  render (child_key tenant pipeline row parent suffix) =
  ns +:+ KEY_SEPARATOR +:+ join_sep (row ::
    option_list ((fun v => encode_component (value_raw to_string v) true) <$> parent) ++
    option_list (suffix_render <$> suffix)).
Proof.
  intros ns Hns.
  rewrite <- (render_parts tenant pipeline row ((fun v => encode_component (value_raw to_string v) true) <$> parent)
    suffix Hns).
  destruct parent as [v|], suffix as [s|]; try reflexivity; cbn [fmap option_fmap option_map];
    rewrite <- render_value; reflexivity.
Qed.
End Child.

(** *** Validity of a rendered key *)

(** The segments between slashes, read from the left; [start] holds at the start
    of one. *)
Fixpoint path_ok (start : bool) (s : string) : bool :=
  match s with
  | EmptyString => negb start
  | String c s =>
      if bool_decide (c = SLASH) then negb start && path_ok true s
      else negb (start && bool_decide (c = DOT)) && path_ok false s
  end.

Lemma bad_segment_dot x : bad_segment x = string_eqb x EmptyString || starts_with_char DOT x.
Proof.
  unfold bad_segment. destruct (string_eqb x EmptyString); [done|].
  destruct (string_eqb x ".") eqn:H; [by apply bool_decide_eq_true in H as ->|].
  destruct (string_eqb x "..") eqn:H'; [by apply bool_decide_eq_true in H' as ->|done].
Qed.

Lemma split_on_path s start :
  exists p ps, split_on SLASH s = p :: ps /\ starts_with_char DOT p = starts_with_char DOT s /\
    path_ok start s = negb (start && bad_segment p) && negb (existsb bad_segment ps).
Proof.
  revert start. induction s as [|c s IH]; intros start.
  { exists EmptyString, []. split_and!; [done|done|]. by destruct start. }
  cbn [split_on path_ok]. destruct (bool_decide (c = SLASH)) eqn:Hc.
  - destruct (IH true) as (p & ps & Hs & _ & Hp). exists EmptyString, (split_on SLASH s).
    apply bool_decide_eq_true in Hc as ->. split_and!; [done|done|]. rewrite Hp, Hs.
    destruct start; [done|]. cbn [existsb andb negb]. by rewrite negb_orb.
  - destruct (IH false) as (p & ps & Hs & _ & Hp). exists (String c p), ps. rewrite Hs, Hp. split_and!; [done|done|].
    rewrite (bad_segment_dot (String c p)).
    assert (string_eqb (String c p) EmptyString = false) as -> by (by apply bool_decide_eq_false). done.
Qed.

Lemma path_ok_split s : path_ok true s = negb (existsb bad_segment (split_on SLASH s)).
Proof. destruct (split_on_path s true) as (p & ps & -> & _ & ->). cbn [existsb andb]. by rewrite negb_orb. Qed.

Lemma path_ok_weaken s : path_ok true s = true -> path_ok false s = true.
Proof. destruct s as [|c s]; [done|]. simpl. destruct (bool_decide (c = SLASH)); [done|]. by intros [_ ?]%andb_true_iff. Qed.
Lemma path_ok_app a b start :
  path_ok start a = true -> path_ok false b = true -> path_ok start (a +:+ b) = true.
Proof.
  revert start. induction a as [|c a IH]; intros start Ha Hb; [by destruct start|].
  change (String c a +:+ b) with (String c (a +:+ b)). cbn [path_ok] in *.
  destruct (bool_decide (c = SLASH)); apply andb_true_iff in Ha as [-> Ha]; by rewrite IH.
Qed.
Lemma path_ok_no_slash s : contains_char SLASH s = false -> path_ok false s = true.
Proof.
  induction s as [|c s IH]; [done|]. cbn [contains_char path_ok]. intros [-> Hs]%orb_false_iff. by apply IH.
Qed.
(** What [validate_state_key] accepts, in one condition. *)
Lemma validate_accepts debug_char key :
  validate_state_key debug_char key = Ok tt <->
  Z.of_nat (String.length key) <= 256 /\ all_bytes key_byte_ok key = true /\ path_ok true key = true.
Proof.
  assert (path_ok true key = true ->
    string_eqb key EmptyString = false /\ starts_with_char DOT key = false) as Hstart.
  { destruct (split_on_path key true) as (p & ps & Hs & Hp & ->). intros [Hb _]%andb_true_iff.
    apply negb_true_iff in Hb. cbn [andb] in Hb. rewrite bad_segment_dot, Hp in Hb.
    apply orb_false_iff in Hb as [Hb1 Hb2]. split; [|done]. apply bool_decide_eq_false. intros ->.
    injection Hs as <- _. done. }
  unfold validate_state_key. pose proof (first_illegal_none 0 key) as Hfi.
  assert (forall b, (string_eqb key "." || string_eqb key ".." || b) = b \/ starts_with_char DOT key = true) as Hdots.
  { intros b. destruct (string_eqb key ".") eqn:H; [apply bool_decide_eq_true in H as ->; by right|].
    destruct (string_eqb key "..") eqn:H'; [apply bool_decide_eq_true in H' as ->; by right|by left]. }
  specialize (Hdots (starts_with_char DOT key)). split.
  - intros H. destruct (string_eqb key EmptyString) eqn:He; [done|].
    destruct (Z.ltb_spec 256 (Z.of_nat (String.length key))); [done|].
    destruct (first_illegal 0 key); [done|]. destruct (_ || starts_with_char DOT key) eqn:Hd; [done|].
    apply orb_false_iff in Hd as [_ Hd]. split_and!; [lia|by apply Hfi|].
    rewrite path_ok_split. destruct (contains_char SLASH key) eqn:Hc.
    + by destruct (existsb bad_segment (split_on SLASH key)).
    + rewrite split_on_single by done. cbn [existsb]. by rewrite bad_segment_dot, He, Hd.
  - intros (Hl & Hb & Hp). destruct (Hstart Hp) as [-> Hd].
    destruct (Z.ltb_spec 256 (Z.of_nat (String.length key))); [lia|]. rewrite (proj2 Hfi Hb).
    destruct Hdots as [->|Hdd]; [|congruence]. rewrite Hd. rewrite path_ok_split in Hp.
    apply negb_true_iff in Hp. by rewrite Hp, andb_false_r.
Qed.

Lemma plain_key_byte c : plain c = true -> key_byte_ok c = true.
Proof. unfold plain, key_byte_ok. intros H. repeat (apply orb_true_iff in H as [H|H]; [|rewrite H, ?orb_true_r; done]).
  rewrite H. done. Qed.
Lemma legal_key_byte c : legal true c = true -> key_byte_ok c = true.
Proof.
  unfold legal. intros [H|H]%orb_true_iff; [by apply plain_key_byte|].
  apply orb_true_iff in H as [->%Ascii.eqb_eq | ->%Ascii.eqb_eq]; done.
Qed.

(** What an encoded component adds to a key keeps it valid. *)
Lemma encode_valid_tail raw :
  let e := encode_component raw true in
  Z.of_nat (String.length e) <= 64 /\ all_bytes key_byte_ok e = true /\ path_ok false e = true.
Proof.
  unfold encode_component. destruct (keeps_verbatim raw true) eqn:Hk.
  - unfold keeps_verbatim, COMPONENT_MAX in Hk. reflect_bools.
    split_and!; [done|by eapply all_bytes_impl; [apply legal_key_byte|]|].
    destruct (contains_char SLASH raw) eqn:Hc; [|by apply path_ok_no_slash].
    apply path_ok_weaken. rewrite path_ok_split. apply negb_true_iff, not_true_iff_false.
    rewrite existsb_exists. intros (seg & Hin & Hb).
    match goal with H : _ || forallb _ _ = true |- _ => cbn [negb orb] in H; rewrite forallb_forall in H; specialize (H seg Hin) end.
    rewrite bad_segment_dot in Hb. reflect_bools. apply orb_true_iff in Hb as [?|?]; congruence.
  - fold (hashed raw). split_and!.
    + unfold hashed. rewrite !string_length_app, length_hex_pad. pose proof (length_take_plain 32 raw). simpl. lia.
    + eapply all_bytes_impl; [apply plain_key_byte|apply hashed_plain].
    + apply path_ok_no_slash. by apply (all_bytes_contains plain); [|apply hashed_plain].
Qed.

(** Parsing loses nothing of a key: a key of the namespace of a tenant and a
    pipeline, whatever follows the namespace, parses, and the parsed components
    render back to that very key; a key outside the namespace does not parse. *)
Theorem parsed_key_renders_back tenant pipeline key :
  let ns := namespace (with_tenant tenant (pipeline_key pipeline)) in
  ns <> EmptyString ->
  match parse tenant pipeline key with
  | Some k => render k = key
  | None => forall rest, rest <> EmptyString -> key <> ns +:+ KEY_SEPARATOR +:+ rest
  end.
Proof.
  intros ns Hns. unfold parse. fold ns. destruct (strip_prefix ns key) as [r|] eqn:Hs; cbn [mbind option_bind].
  2: { intros rest _ ->. by rewrite strip_prefix_app in Hs. }
  apply strip_prefix_Some in Hs as ->. destruct (strip_prefix KEY_SEPARATOR r) as [rest|] eqn:Hs.
  2: { intros rest _ Heq%string_app_tail. rewrite Heq in Hs. by rewrite strip_prefix_app in Hs. }
  apply strip_prefix_Some in Hs as ->. destruct (string_eqb rest EmptyString) eqn:He.
  - unfold string_eqb in He. apply bool_decide_eq_true in He as ->. intros rest Hr Heq%string_app_tail.
    apply Hr. symmetry. exact (string_app_tail KEY_SEPARATOR _ _ Heq).
  - rewrite render_parse_segments by (done || apply split_sep_nonempty). by rewrite join_split.
Qed.

Lemma parsed_key_renders_back_witness :
  parse (Some "acme") "erp" "acme::erp::orders::_n.42::__rollback__::r1" <> None /\
  match parse (Some "acme") "erp" "acme::erp::orders::_n.42::__rollback__::r1" with
  | Some k => render k = "acme::erp::orders::_n.42::__rollback__::r1"
  | None => True
  end.
Proof.
  split; [by vm_compute|].
  pose proof (parsed_key_renders_back (Some "acme") "erp" "acme::erp::orders::_n.42::__rollback__::r1"
    ltac:(by vm_compute)) as H.
  destruct (parse (Some "acme") "erp" "acme::erp::orders::_n.42::__rollback__::r1"); [exact H|exact I].
Defined.

(** C40: a rendered key parses back to its components: the row, the child's
    component and the marker, for any parent value (one that reads like a marker,
    a type tag, a path or several segments included). So the keys of a row, of its
    children and of their markers never coincide: no parent value of a child makes
    its key a lease, a status or a rollback key. The row id is one segment and
    neither a marker name nor the [backfill] prefix. *)
Theorem rendered_key_parses_back to_string tenant pipeline row parent suffix :
  namespace (with_tenant tenant (pipeline_key pipeline)) <> EmptyString ->
  one_segment row -> is_marker_name row = false -> row <> "backfill" ->
  (forall s, suffix = Some s -> is_pipeline_level s = false) ->
  parse tenant pipeline (render (child_key to_string tenant pipeline row parent suffix)) =
  Some (MkStateKey (Parts tenant pipeline (Some row)
          ((fun v => Encoded (encode_component (value_raw to_string v) true)) <$> parent)) None suffix).
Proof.
  intros Hns Hrow Hm Hbf Hsuf. rewrite render_child by done. unfold parse.
  rewrite strip_prefix_app. cbn [mbind option_bind]. rewrite strip_prefix_app.
  assert (forall sub, sub = ((fun v => encode_component (value_raw to_string v) true) <$> parent) ->
    forall s, sub = Some s -> one_segment s /\ is_marker_name s = false) as Hsub.
  { intros sub -> s Hs. apply fmap_Some in Hs as (v & _ & ->).
    split; [apply encode_one_segment|apply encode_not_marker, value_raw_not_marker]. }
  specialize (Hsub _ eq_refl).
  assert (forall l, string_eqb (join_sep (row :: l)) EmptyString = false) as Hj.
  { intros l. apply bool_decide_eq_false, join_nonempty, Hrow. }
  rewrite Hj.
  rewrite split_key by (done || (intros; by apply Hsub)).
  rewrite parse_key_segments by (done || (intros; by apply Hsub)). by destruct parent, suffix.
Qed.

Lemma rendered_key_parses_back_witness :
  parse (Some "acme") "erp" (render (child_key (fun _ => EmptyString) (Some "acme") "erp" "orders"
    (Some (VString "__lease__")) (Some Lease))) =
  Some (MkStateKey (Parts (Some "acme") "erp" (Some "orders") (Some (Encoded "_s.__lease__"))) None (Some Lease)).
Proof.
  exact (rendered_key_parses_back (fun _ => EmptyString) (Some "acme") "erp" "orders"
    (Some (VString "__lease__")) (Some Lease) ltac:(by vm_compute) ltac:(by vm_compute)
    ltac:(by vm_compute) ltac:(done) ltac:(by intros ? [= <-])).
Defined.

(** The JSON type of a parent value is part of its key: where two parent
    values are short and plain enough to be kept as they are, equal components
    mean both are the same string, or both are of the same other JSON type with the
    same text. So the number 1 and the string 1 do not share a key, and neither
    does a string spelled like a type tag with the tagged value. *)
Theorem typed_parents_stay_apart to_string v v' :
  keeps_verbatim (value_raw to_string v) true = true ->
  keeps_verbatim (value_raw to_string v') true = true ->
  render_sub (value_sub to_string v) KEY_SCHEME_VERSION = render_sub (value_sub to_string v') KEY_SCHEME_VERSION ->
  match v, v' with
  | VString s, VString s' => s = s'
  | VString _, _ | _, VString _ => False
  | _, _ => type_tag v = type_tag v' /\ to_string v = to_string v'
  end.
Proof.
  intros Hv Hv' Heq. unfold KEY_SCHEME_VERSION in Heq. rewrite !render_value in Heq.
  unfold encode_component in Heq. rewrite Hv, Hv' in Heq. clear Hv Hv'.
  destruct v, v'; cbn [value_raw] in Heq;
    first [ by apply string_raw_inj | by apply string_raw_not_tagged in Heq
          | by symmetry in Heq; apply string_raw_not_tagged in Heq | split; congruence ].
Qed.

Lemma typed_parents_stay_apart_witness :
  keeps_verbatim (value_raw (fun _ => "1") (VNumber (PosInt 1))) true = true /\
  keeps_verbatim (value_raw (fun _ => "1") (VString "1")) true = true /\
  render_sub (value_sub (fun _ => "1") (VNumber (PosInt 1))) KEY_SCHEME_VERSION <>
    render_sub (value_sub (fun _ => "1") (VString "1")) KEY_SCHEME_VERSION.
Proof.
  split; [by vm_compute|]. split; [by vm_compute|]. intros H.
  exact (typed_parents_stay_apart (fun _ => "1") (VNumber (PosInt 1)) (VString "1")
    ltac:(by vm_compute) ltac:(by vm_compute) H).
Defined.

(** A child's key is always a key the stores accept: whatever the parent
    value (an address, a path with dots, other alphabets, any length), where the
    row's key is valid and leaves room for a component (at most 190 bytes), the
    child's key passes [validate_state_key]. *)
Theorem child_key_always_valid to_string debug_char tenant pipeline row v :
  let k := with_tenant tenant (invocation pipeline row) in
  validate_state_key debug_char (render k) = Ok tt -> Z.of_nat (String.length (render k)) <= 190 ->
  validate_state_key debug_char (render (with_parent_value to_string v k)) = Ok tt.
Proof.
  intros k Hk Hlen.
  change (render (with_parent_value to_string v k)) with (push (render k) (render_sub (value_sub to_string v) 4)).
  rewrite render_value. apply validate_accepts in Hk as (_ & Hb & Hp).
  destruct (encode_valid_tail (value_raw to_string v)) as (Hel & Heb & Hep).
  apply validate_accepts. rewrite push_ne by (intros He; rewrite He in Hp; discriminate).
  rewrite !string_length_app, !all_bytes_app, Hb, Heb. split_and!; [simpl; lia|done|].
  apply path_ok_app; [done|]. by apply path_ok_app.
Qed.

Lemma child_key_always_valid_witness :
  validate_state_key (fun _ _ => EmptyString) (render (with_parent_value (fun _ => EmptyString)
    (VString "../etc/passwd::x y") (with_tenant None (invocation "erp" "orders")))) = Ok tt.
Proof.
  exact (child_key_always_valid (fun _ => EmptyString) (fun _ _ => EmptyString) None "erp" "orders"
    (VString "../etc/passwd::x y") ltac:(by vm_compute) ltac:(by vm_compute)).
Defined.

(** Scheme 1 rendered a parent value verbatim, so a value of several segments can
    name a marker of its row: it is listed as a legacy rendering of the child. *)
Example legacy_rendering_is_rollback_marker :
  legacy_renderings (fun _ _ => EmptyString) (with_parent_key "__rollback__::r1" (invocation "p" "row")) =
    ["p::row::__rollback__::r1"] /\
  render (with_suffix (RollbackRun "r1") (invocation "p" "row")) = "p::row::__rollback__::r1".
Proof. split; vm_compute; reflexivity. Qed.
