(* ===== verification/StateEnvelope.v ===== *)
(** The versioned state envelope: the parsing half of
    crates/core/src/state_version.rs. *)
From S2P Require Import Prelude Errors Json Text.

Local Open Scope Z_scope.

Definition STATE_FORMAT : Z := 1.
Definition FORMAT_KEY : string := "faucet_state".
Definition OWNER_KEY : string := "owner".
Definition SCHEMA_KEY : string := "schema".
Definition DATA_KEY : string := "data".

(** [struct StoredState]. *)
Record StoredState := MkStoredState {
  ss_format : Z;
  ss_owner : option string;
  ss_schema : Z;
  ss_data : Value;
}.

(** [u32::try_from(n).unwrap_or(u32::MAX)] for a [u64]. *)
Definition clamp_u32 (n : Z) : Z := if n <=? U32_MAX then n else U32_MAX.

(** [StoredState::parse]. *)
Definition parse_stored (stored : Value) : StoredState :=
  match as_object stored with
  | Some map =>
      match assoc FORMAT_KEY map ≫= as_u64, assoc DATA_KEY map with
      | Some format, Some data =>
          {| ss_format := clamp_u32 format;
             ss_owner := assoc OWNER_KEY map ≫= as_str;
             ss_schema := match assoc SCHEMA_KEY map ≫= as_u64 with
                          | Some s => clamp_u32 s
                          | None => 0
                          end;
             ss_data := data |}
      | _, _ => {| ss_format := 0; ss_owner := None; ss_schema := 0; ss_data := stored |}
      end
  | None => {| ss_format := 0; ss_owner := None; ss_schema := 0; ss_data := stored |}
  end.

(** [StoredState::is_legacy]. *)
Definition is_legacy (s : StoredState) : bool := ss_format s =? 0.

(** [wrap_versioned]. *)
Definition wrap_versioned (owner : string) (schema : Z) (data : Value) : Value :=
  VObject (assoc_insert DATA_KEY data
    (assoc_insert SCHEMA_KEY (of_u64 schema)
      (assoc_insert OWNER_KEY (VString owner)
        (assoc_insert FORMAT_KEY (of_u64 STATE_FORMAT) [])))).

(** [peel_versioned], [is_versioned]. *)
Definition peel_versioned (stored : Value) : Value := ss_data (parse_stored stored).
Definition is_versioned (stored : Value) : bool := negb (is_legacy (parse_stored stored)).

(** [enum StateCompat]. *)
Inductive StateCompat : Type :=
| Current
| Migrate (from to : Z)
| Incompatible (found expected : string).

(** [check_compat]. *)
Definition check_compat (state : StoredState) (owner : string) (expected : Z) : StateCompat :=
  if STATE_FORMAT <? ss_format state then
    Incompatible ("state format " +:+ dec (ss_format state))
                 ("state format " +:+ dec STATE_FORMAT +:+ " or older")
  else if match ss_owner state with Some found => negb (string_eqb found owner) | None => false end
  then Incompatible ("state owned by '" +:+ default EmptyString (ss_owner state) +:+ "'")
                    ("state owned by '" +:+ owner +:+ "'")
  else if expected <? ss_schema state then
    Incompatible ("'" +:+ owner +:+ "' state schema " +:+ dec (ss_schema state))
                 ("'" +:+ owner +:+ "' state schema " +:+ dec expected +:+ " or older")
  else if ss_schema state <? expected then Migrate (ss_schema state) expected
  else Current.

(** [incompatible]. *)
Definition incompatible (key found expected : string) : FaucetError :=
  StateIncompatible key found expected.

(** ** Facts *)

Lemma clamp_u32_id n : is_u32 n -> clamp_u32 n = n.
Proof. unfold clamp_u32, is_u32. intros. destruct (Z.leb_spec n U32_MAX); [done|lia]. Qed.

(** An envelope this release writes is read back field by field. *)
Lemma parse_wrap_versioned owner schema data :
  is_u32 schema ->
  parse_stored (wrap_versioned owner schema data)
  = MkStoredState STATE_FORMAT (Some owner) schema data.
Proof.
  intros Hs. change (MkStoredState (clamp_u32 1) (Some owner) (clamp_u32 schema) data
    = MkStoredState STATE_FORMAT (Some owner) schema data).
  by rewrite (clamp_u32_id schema).
Qed.

Lemma peel_wrap_versioned owner schema data :
  peel_versioned (wrap_versioned owner schema data) = data.
Proof. done. Qed.

(** A value the parser takes for legacy is returned untouched. *)
Lemma parse_legacy v : as_object v = None -> parse_stored v = MkStoredState 0 None 0 v.
Proof. intros H. unfold parse_stored. by rewrite H. Qed.
