(* ===== verification/Idempotency.v ===== *)
(** Exactly-once delivery primitives: crates/core/src/idempotency.rs. *)
From S2P Require Import Prelude Errors Json Text StateEnvelope.
From Stdlib Require Import Ascii.

Local Open Scope Z_scope.

Inductive DeliveryMode := AtLeastOnce | ExactlyOnce.
Inductive ReplayGuarantee := NonDeterministic | Deterministic.
Inductive EffectivelyOnceMechanism := AtomicWatermark | KeyedUpsert.
Inductive DeliveryGuarantee :=
| GuaranteeAtLeastOnce
| GuaranteeEffectivelyOnce (m : EffectivelyOnceMechanism).

#[export] Instance DeliveryMode_eq_dec : EqDecision DeliveryMode.
Proof. solve_decision. Defined.
#[export] Instance ReplayGuarantee_eq_dec : EqDecision ReplayGuarantee.
Proof. solve_decision. Defined.
#[export] Instance EffectivelyOnceMechanism_eq_dec : EqDecision EffectivelyOnceMechanism.
Proof. solve_decision. Defined.

(** [struct GuaranteeInputs]. *)
Record GuaranteeInputs := MkGuaranteeInputs {
  gi_replay : ReplayGuarantee;
  gi_sink_atomic : bool;
  gi_keyed_upsert_configured : bool;
  gi_durable_state : bool;
  gi_dlq : bool;
}.

(** [derive_delivery_guarantee]. *)
Definition derive_delivery_guarantee (i : GuaranteeInputs) : DeliveryGuarantee :=
  if gi_sink_atomic i && bool_decide (gi_replay i = Deterministic)
     && gi_durable_state i && negb (gi_dlq i)
  then GuaranteeEffectivelyOnce AtomicWatermark
  else if gi_keyed_upsert_configured i then GuaranteeEffectivelyOnce KeyedUpsert
  else GuaranteeAtLeastOnce.

Definition EO_MARKER : string := "__faucet_eo".
Definition EO_BOOKMARK : string := "bookmark".
Definition EO_SEQ : string := "seq".
Definition TOKEN_WIDTH : nat := 20.
Definition TOKEN_BOOKMARK_SEP : ascii := "#".

(** [format_token]. *)
Definition format_token (seq : Z) : string := pad0 TOKEN_WIDTH (dec seq).

(** [parse_token]. *)
Definition parse_token (s : string) : option Z :=
  let seq := match split_once TOKEN_BOOKMARK_SEP s with
             | Some (prefix, _) => prefix
             | None => s
             end in
  parse_u64 (trim seq).

(** [wrap_state]. *)
Definition wrap_state (bookmark : option Value) (seq : Z) : Value :=
  VObject [(EO_MARKER, of_u64 1); (EO_BOOKMARK, default Null bookmark); (EO_SEQ, of_u64 seq)].

(** [is_eo_envelope]. *)
Definition is_eo_envelope (v : Value) : bool :=
  bool_decide (get v EO_MARKER ≫= as_u64 = Some 1).

(** [unwrap_state]. *)
Definition unwrap_state (value : Value) : option Value * Z :=
  let value := peel_versioned value in
  match value with
  | VObject map =>
      if bool_decide (assoc EO_MARKER map ≫= as_u64 = Some 1) then
        (match assoc EO_BOOKMARK map with
         | None | Some Null => None
         | Some v => Some v
         end,
         default 0 (assoc EO_SEQ map ≫= as_u64))
      else (Some value, 0)
  | Null => (None, 0)
  | _ => (Some value, 0)
  end.

(** ** Overwrite run tokens *)
Definition OVERWRITE_STAGING_SUFFIX : string := "__faucet_ovw".
Definition OVERWRITE_RUN_TOKEN_LEN : nat := 14.
Definition ABANDONED_OVERWRITE_STAGING_SECS : Z := 7 * 24 * 60 * 60.

Definition hex_digit (c : ascii) : option Z :=
  let b := byte_of c in
  if (48 <=? b) && (b <=? 57) then Some (b - 48)
  else if (97 <=? b) && (b <=? 102) then Some (b - 87)
  else None.

Fixpoint all_hex (s : string) : bool :=
  match s with
  | EmptyString => true
  | String c s => match hex_digit c with Some _ => all_hex s | None => false end
  end.

Fixpoint hex_value (s : string) (acc : Z) : Z :=
  match s with
  | EmptyString => acc
  | String c s => hex_value s (acc * 16 + default 0 (hex_digit c))
  end.

(** [overwrite_run_token_at]: [{:08x}] of the low 32 bits of the start, then the
    random part. *)
Definition overwrite_run_token_at (secs : Z) (random : string) : string :=
  hex_pad 8 (Z.land secs 4294967295) EmptyString +:+ random.

(** [is_overwrite_run_token]. *)
Definition is_overwrite_run_token (token : string) : bool :=
  bool_decide (String.length token = OVERWRITE_RUN_TOKEN_LEN) && all_hex token.

(** [overwrite_run_started]: the first eight hex digits. *)
Definition overwrite_run_started (token : string) : option Z :=
  if is_overwrite_run_token token then Some (hex_value (String.substring 0 8 token) 0) else None.

(** [overwrite_staging_prefix], [overwrite_staging_suffix]. *)
Definition overwrite_staging_prefix (table : string) : string :=
  table +:+ OVERWRITE_STAGING_SUFFIX +:+ "_".
Definition overwrite_staging_suffix (run : option string) : string :=
  match run with
  | Some token => OVERWRITE_STAGING_SUFFIX +:+ "_" +:+ token
  | None => OVERWRITE_STAGING_SUFFIX
  end.

(** [overwrite_staging_token]. The [is_char_boundary] test only guards the slice:
    when the name does not split there, its prefix cannot equal the (complete)
    prefix text either. *)
Definition overwrite_staging_token (table name : string) : option string :=
  let prefix := overwrite_staging_prefix table in
  let k := String.length prefix in
  if bool_decide (String.length name = (k + OVERWRITE_RUN_TOKEN_LEN)%nat)
     && string_eqb (string_lower (String.substring 0 k name)) (string_lower prefix)
  then let token := string_lower (String.substring k OVERWRITE_RUN_TOKEN_LEN name) in
       if is_overwrite_run_token token then Some token else None
  else None.

(** [overwrite_run_abandoned]. *)
Definition overwrite_run_abandoned (token : string) (own : option string) (now_secs : Z) : bool :=
  if bool_decide (own = Some token) then false
  else match overwrite_run_started token with
       | None => false
       | Some started =>
           let now := Z.land now_secs 4294967295 in
           if started <=? now then ABANDONED_OVERWRITE_STAGING_SECS <? now - started
           else if started - now <? 2 ^ 31 then false
           else ABANDONED_OVERWRITE_STAGING_SECS <? now + 2 ^ 32 - started
       end.

(** [abandoned_overwrite_staging]. *)
Definition abandoned_overwrite_staging (table name : string) (own : option string) (now_secs : Z)
  : bool :=
  match overwrite_staging_token table name with
  | None => false
  | Some token => overwrite_run_abandoned token own now_secs
  end.

(** [like_literal], over an ASCII escape character: [%], [_] and the escape are
    single bytes, so escaping byte by byte is escaping character by character. *)
Fixpoint like_literal (text : string) (escape : ascii) : string :=
  match text with
  | EmptyString => EmptyString
  | String c rest =>
      if Ascii.eqb c "%" || Ascii.eqb c "_" || Ascii.eqb c escape
      then String escape (String c (like_literal rest escape))
      else String c (like_literal rest escape)
  end.

(** ** Tokens that carry a bookmark

    [Display for Value] and [serde_json::from_str] belong to serde_json. *)
Section Tokens.
Context (to_json : Value -> string) (from_json : string -> option Value).

(** [format_token_with_bookmark]. *)
Definition format_token_with_bookmark (seq : Z) (bookmark : option Value) : string :=
  match bookmark with
  | Some bm => pad0 TOKEN_WIDTH (dec seq) +:+ String TOKEN_BOOKMARK_SEP (to_json bm)
  | None => format_token seq
  end.

(** [parse_token_parts]. *)
Definition parse_token_parts (s : string) : option (Z * option Value) :=
  match split_once TOKEN_BOOKMARK_SEP s with
  | Some (prefix, suffix) =>
      match parse_u64 (trim prefix) with
      | Some seq => Some (seq, from_json suffix)
      | None => None
      end
  | None => match parse_u64 (trim s) with Some seq => Some (seq, None) | None => None end
  end.

End Tokens.

(** ** Facts *)

Lemma u64_lt_10_20 n : is_u64 n -> 0 <= n < 10 ^ Z.of_nat TOKEN_WIDTH.
Proof. unfold is_u64, U64_MAX, TOKEN_WIDTH. change (10 ^ Z.of_nat 20) with 100000000000000000000. lia. Qed.

Lemma token_digits n : is_u64 n -> pad0 TOKEN_WIDTH (dec n) = digits_pad TOKEN_WIDTH n EmptyString.
Proof. intros H. apply pad0_dec; [unfold TOKEN_WIDTH; lia|by apply u64_lt_10_20]. Qed.

Lemma parse_trim_token n :
  is_u64 n -> parse_u64 (trim (digits_pad TOKEN_WIDTH n EmptyString)) = Some n.
Proof.
  intros H. rewrite trim_digits by apply all_digits_pad.
  apply parse_u64_digits_pad; [unfold TOKEN_WIDTH; lia|by apply u64_lt_10_20|apply H].
Qed.

Lemma parse_format_token n : is_u64 n -> parse_token (format_token n) = Some n.
Proof.
  intros H. unfold parse_token, format_token. rewrite token_digits by done.
  rewrite split_once_digits_none by (done || apply all_digits_pad). by apply parse_trim_token.
Qed.

Lemma length_token n : is_u64 n -> String.length (format_token n) = TOKEN_WIDTH.
Proof. intros H. unfold format_token. rewrite token_digits by done. rewrite length_digits_pad. done. Qed.

Lemma compare_app s1 s2 t1 t2 :
  String.length s1 = String.length s2 ->
  String.compare (s1 +:+ t1) (s2 +:+ t2)
  = match String.compare s1 s2 with Eq => String.compare t1 t2 | c => c end.
Proof.
  revert s2. induction s1 as [|c1 s1 IH]; intros [|c2 s2] Hl; simpl in *; try done.
  rewrite IH by lia. by destruct (Ascii.compare c1 c2).
Qed.

Lemma compare_digit a b :
  0 <= a < 10 -> 0 <= b < 10 -> Ascii.compare (digit a) (digit b) = (a ?= b).
Proof.
  intros Ha Hb. unfold Ascii.compare.
  pose proof (byte_of_digit a Ha) as Ea. pose proof (byte_of_digit b Hb) as Eb.
  unfold byte_of in Ea, Eb. unfold nat_of_ascii in Ea, Eb. rewrite N_nat_Z in Ea, Eb.
  rewrite <- N2Z.inj_compare, Ea, Eb. apply Z.add_compare_mono_l.
Qed.

(** Byte order of fixed-width digits is numeric order. *)
Lemma digits_pad_compare w a b :
  0 <= a < 10 ^ Z.of_nat w -> 0 <= b < 10 ^ Z.of_nat w ->
  String.compare (digits_pad w a EmptyString) (digits_pad w b EmptyString) = (a ?= b).
Proof.
  revert a b. induction w as [|w IH]; intros a b Ha Hb.
  - change (10 ^ Z.of_nat 0) with 1 in *. assert (a = 0 /\ b = 0) as [-> ->] by lia. done.
  - rewrite Nat2Z.inj_succ, Z.pow_succ_r in Ha, Hb by lia.
    assert (forall n, 0 <= n < 10 * 10 ^ Z.of_nat w -> 0 <= n / 10 < 10 ^ Z.of_nat w) as Hd.
    { intros n Hn. split; [apply Z.div_pos; lia|apply Z.div_lt_upper_bound; lia]. }
    simpl. rewrite (digits_pad_app w (a / 10)), (digits_pad_app w (b / 10)).
    rewrite compare_app by by rewrite !length_digits_pad.
    rewrite IH by auto. simpl.
    rewrite compare_digit by (apply Z.mod_pos_bound; lia).
    pose proof (Z.div_mod a 10). pose proof (Z.div_mod b 10).
    pose proof (Z.mod_pos_bound a 10). pose proof (Z.mod_pos_bound b 10).
    destruct (Z.compare_spec (a / 10) (b / 10)) as [E|E|E].
    + destruct (Z.compare_spec (a mod 10) (b mod 10)); symmetry;
        [apply Z.compare_eq_iff|apply Z.compare_lt_iff|apply Z.compare_gt_iff]; lia.
    + symmetry. apply Z.compare_lt_iff. lia.
    + symmetry. apply Z.compare_gt_iff. lia.
Qed.

Lemma unwrap_wrap_state bm seq : bm <> Some Null -> unwrap_state (wrap_state bm seq) = (bm, seq).
Proof. intros H. unfold unwrap_state. cbn. destruct bm as [[]|]; try done. Qed.

Lemma is_eo_wrap_state bm seq : is_eo_envelope (wrap_state bm seq) = true.
Proof. done. Qed.

Section TokenFacts.
Context (to_json : Value -> string) (from_json : string -> option Value).

Lemma parse_token_bookmarked n bm :
  is_u64 n -> parse_token (format_token_with_bookmark to_json n bm) = Some n.
Proof.
  intros H. destruct bm as [b|]; [|by apply parse_format_token].
  unfold parse_token, format_token_with_bookmark. rewrite token_digits by done.
  rewrite split_once_digits by (done || apply all_digits_pad). by apply parse_trim_token.
Qed.

Lemma parse_parts_bookmarked n bm :
  is_u64 n ->
  parse_token_parts from_json (format_token_with_bookmark to_json n bm)
  = Some (n, bm ≫= fun b => from_json (to_json b)).
Proof.
  intros H. unfold parse_token_parts, format_token_with_bookmark. destruct bm as [b|]; simpl.
  - rewrite token_digits by done. rewrite split_once_digits by (done || apply all_digits_pad).
    by rewrite parse_trim_token.
  - unfold format_token. rewrite token_digits by done.
    rewrite split_once_digits_none by (done || apply all_digits_pad). by rewrite parse_trim_token.
Qed.

End TokenFacts.

(** A commit token round-trips. For every 64-bit sequence number, with or
    without an embedded bookmark, [parse_token] recovers the sequence, and
    [parse_token_parts] recovers the sequence together with the bookmark,
    wherever the JSON reader inverts the JSON writer on that bookmark; a bare
    token yields no bookmark. *)
Theorem token_roundtrip to_json from_json n bm :
  is_u64 n -> (forall b, bm = Some b -> from_json (to_json b) = Some b) ->
  parse_token (format_token_with_bookmark to_json n bm) = Some n /\
  parse_token_parts from_json (format_token_with_bookmark to_json n bm) = Some (n, bm).
Proof.
  intros Hn Hj. rewrite parse_token_bookmarked, parse_parts_bookmarked by done.
  split; [done|]. destruct bm as [b|]; simpl; [by rewrite Hj|done].
Qed.

Lemma token_roundtrip_witness :
  parse_token "00000000000000000042#lsn" = Some 42 /\
  parse_token_parts (fun s => Some (VString s)) "00000000000000000042#lsn"
  = Some (42, Some (VString "lsn")).
Proof.
  apply (token_roundtrip (fun v => match v with VString s => s | _ => EmptyString end)
           (fun s => Some (VString s)) 42 (Some (VString "lsn"))).
  - unfold is_u64, U64_MAX. lia.
  - intros b [= <-]. reflexivity.
Defined.

(** Tokens sort as their sequence numbers. The byte order of two bare tokens
    is the numeric order of the sequences they encode, so a sink may keep the
    highest token with a string comparison. *)
Theorem token_order a b :
  is_u64 a -> is_u64 b -> String.compare (format_token a) (format_token b) = (a ?= b).
Proof.
  intros Ha Hb. unfold format_token. rewrite !token_digits by done.
  apply digits_pad_compare; by apply u64_lt_10_20.
Qed.

Lemma token_order_witness : String.compare (format_token 9) (format_token 10) = Lt.
Proof. apply (token_order 9 10); unfold is_u64, U64_MAX; lia. Defined.
