(* ===== verification/Dlq.v ===== *)
(** Dead-letter queue wiring: crates/core/src/dlq.rs (and the error labels of
    crates/core/src/observability/decorator.rs it uses). *)
From S2P Require Import Prelude Errors Json Text.

Local Open Scope Z_scope.

Inductive OnBatchError := Propagate | DlqAllRows.

(** [struct DlqStats]. *)
Record DlqStats := MkDlqStats {
  records_dlq : Z;
  pages_with_failures : Z;
}.
Definition DlqStats_default : DlqStats := MkDlqStats 0 0.

Inductive DlqReason := Partial | DlqAll | Quality | SchemaDriftReason | Contract.

#[export] Instance DlqReason_eq_dec : EqDecision DlqReason.
Proof. solve_decision. Defined.

(** [DlqReason::as_str], [DlqReason::ALL], [DlqReason::from_serde_str]. *)
Definition reason_str (r : DlqReason) : string :=
  match r with
  | Partial => "partial"
  | DlqAll => "dlq_all"
  | Quality => "quality"
  | SchemaDriftReason => "schema_drift"
  | Contract => "contract"
  end.
Definition ALL_REASONS : list DlqReason := [Partial; DlqAll; Quality; SchemaDriftReason; Contract].
Definition from_serde_str (s : string) : option DlqReason :=
  snd <$> list_find (fun r => reason_str r = s) ALL_REASONS.

(** [error_kind] (observability/decorator.rs). *)
Definition error_kind (e : FaucetError) : string :=
  match e with
  | Http _ => "Http"
  | HttpStatus _ _ _ => "HttpStatus"
  | Json _ => "Json"
  | JsonPath _ => "JsonPath"
  | Auth _ => "Auth"
  | RateLimited _ => "RateLimited"
  | Url _ => "Url"
  | Transform _ => "Transform"
  | Config _ => "Config"
  | Source _ => "Source"
  | Sink _ => "Sink"
  | QualityFailure _ _ => "QualityFailure"
  | SchemaDrift _ _ => "SchemaDrift"
  | ProfileDrift _ _ => "ProfileDrift"
  | PolicyViolation _ _ _ => "PolicyViolation"
  | BudgetExceeded _ _ _ => "BudgetExceeded"
  | RowsUnaccounted _ _ => "RowsUnaccounted"
  | ContractViolation _ _ => "ContractViolation"
  | State _ => "State"
  | StateIncompatible _ _ _ => "StateIncompatible"
  | CircuitOpen _ _ => "CircuitOpen"
  | Timeout _ _ => "Timeout"
  | Cancelled _ => "Cancelled"
  | Custom _ => "Custom"
  end.

(** The envelope's timestamp from a clock in nanoseconds since the epoch. *)
Definition now_ms (clock : Z) : Z :=
  if clock <? 0 then 0 else Z.min (clock / 1000000) 9223372036854775807.

(** [build_envelope]. The error text ([Display], derived by thiserror), the
    installed redactor and the clock (milliseconds since the epoch, clamped to
    [i64]) are supplied by the caller. *)
Definition build_envelope (to_string : FaucetError -> string) (redact : string -> string)
  (ts_ms : Z) (payload : Value) (error : FaucetError) (reason : DlqReason)
  (sink_name pipeline_name row : string) (record_index : Z) : Value :=
  VObject
    [("error", VObject [("kind", VString (error_kind error));
                        ("message", VString (redact (to_string error)))]);
     ("reason", VString (reason_str reason));
     ("payload", payload);
     ("ts_ms", of_i64 ts_ms);
     ("sink", VString sink_name);
     ("pipeline", VString pipeline_name);
     ("row", VString row);
     ("record_index", of_u64 record_index)].

(** [struct UnwrappedEnvelope], [enum EnvelopeError], [unwrap_envelope]. *)
Record UnwrappedEnvelope := MkUnwrapped {
  ue_payload : Value;
  ue_reason : option string;
  ue_error_kind : option string;
  ue_error_message : option string;
  ue_record_index : option Z;
  ue_pipeline : option string;
  ue_row : option string;
  ue_sink : option string;
  ue_ts_ms : option Z;
}.

Inductive EnvelopeError := NotObject | MissingPayload.

Definition unwrap_envelope (value : Value) : result UnwrappedEnvelope EnvelopeError :=
  match as_object value with
  | None => Err NotObject
  | Some obj =>
      match assoc "payload" obj with
      | None => Err MissingPayload
      | Some payload =>
          let error := assoc "error" obj ≫= as_object in
          let str_field := fun k => assoc k obj ≫= as_str in
          Ok {| ue_payload := payload;
                ue_reason := str_field "reason";
                ue_error_kind := (error ≫= assoc "kind") ≫= as_str;
                ue_error_message := (error ≫= assoc "message") ≫= as_str;
                ue_record_index := assoc "record_index" obj ≫= as_u64;
                ue_pipeline := str_field "pipeline";
                ue_row := str_field "row";
                ue_sink := str_field "sink";
                ue_ts_ms := assoc "ts_ms" obj ≫= as_i64 |}
      end
  end.

(** [enum BatchAtomicity], [dlq_all_is_safe], [check_dlq_all_policy]. *)
Inductive BatchAtomicity := Atomic | PerRow | BestEffort.

Definition atomicity_str (a : BatchAtomicity) : string :=
  match a with Atomic => "atomic" | PerRow => "per_row" | BestEffort => "best_effort" end.

Definition dlq_all_is_safe (atomicity : BatchAtomicity) (dedups_by_key : bool) : bool :=
  dedups_by_key || match atomicity with BestEffort => false | _ => true end.

Definition dlq_all_refusal (sink : string) (atomicity : BatchAtomicity) : FaucetError :=
  Config ("dlq: on_batch_error 'dlq_all' is unsafe with sink '" +:+ sink
    +:+ "' (batch atomicity '" +:+ atomicity_str atomicity
    +:+ "'): a failed batch may already have written some rows, and replaying the DLQ would write them again. Use on_batch_error 'propagate', configure the sink with write_mode 'upsert' and a key so a replay overwrites instead of duplicating, or set allow_duplicates_on_dlq_all: true to accept the duplicates").

Definition check_dlq_all_policy (connector_name : string) (atomicity : BatchAtomicity)
  (dedups_by_key : bool) (on_batch_error : OnBatchError) (allow_duplicates : bool)
  : result unit FaucetError :=
  if match on_batch_error with DlqAllRows => false | Propagate => true end || allow_duplicates
  then Ok tt
  else if dlq_all_is_safe atomicity dedups_by_key then Ok tt
  else Err (dlq_all_refusal connector_name atomicity).

(** [enum BatchOutcome] and the counters a run fills in ([BatchOutcomeCounters];
    [BatchOutcomes] is their snapshot). *)
Inductive BatchOutcome := Committed | OutcomeDlqPartial | OutcomeDlqAll | Failed.

Record BatchOutcomeCounters := MkBatchOutcomeCounters {
  bo_committed : Z;
  bo_dlq_partial : Z;
  bo_dlq_all : Z;
  bo_failed : Z;
}.
Definition BatchOutcomeCounters_new : BatchOutcomeCounters := MkBatchOutcomeCounters 0 0 0 0.

(** [BatchOutcomeCounters::record]. *)
Definition record_outcome (c : BatchOutcomeCounters) (o : BatchOutcome) : BatchOutcomeCounters :=
  match o with
  | Committed => MkBatchOutcomeCounters (wadd64 (bo_committed c) 1) (bo_dlq_partial c)
                   (bo_dlq_all c) (bo_failed c)
  | OutcomeDlqPartial => MkBatchOutcomeCounters (bo_committed c) (wadd64 (bo_dlq_partial c) 1)
                           (bo_dlq_all c) (bo_failed c)
  | OutcomeDlqAll => MkBatchOutcomeCounters (bo_committed c) (bo_dlq_partial c)
                       (wadd64 (bo_dlq_all c) 1) (bo_failed c)
  | Failed => MkBatchOutcomeCounters (bo_committed c) (bo_dlq_partial c) (bo_dlq_all c)
                (wadd64 (bo_failed c) 1)
  end.

(** [BatchOutcomes::attempted] and [BatchOutcomes::unclean] of a snapshot. *)
Definition attempted (c : BatchOutcomeCounters) : Z :=
  wadd64 (wadd64 (wadd64 (bo_committed c) (bo_dlq_partial c)) (bo_dlq_all c)) (bo_failed c).
Definition unclean (c : BatchOutcomeCounters) : Z :=
  wadd64 (wadd64 (bo_dlq_partial c) (bo_dlq_all c)) (bo_failed c).

(** [outcome_count_mismatch]. *)
Definition outcome_count_mismatch (connector : string) (got want : Z) : FaucetError :=
  Sink ("sink `" +:+ connector +:+ "` returned " +:+ dec got +:+ " per-row outcomes for "
    +:+ dec want +:+ " rows; `write_batch_partial` must return exactly one outcome per input row").

(** ** Facts *)

Lemma from_serde_str_reason r : from_serde_str (reason_str r) = Some r.
Proof. by destruct r. Qed.

Lemma from_serde_str_inv s r : from_serde_str s = Some r -> reason_str r = s.
Proof.
  unfold from_serde_str. intros ([i ?] & Hf & ->)%fmap_Some.
  by apply list_find_Some in Hf as (_ & ? & _).
Qed.

(** Reading an envelope back gives the payload and every annotation. *)
Lemma now_ms_range clock : - 2 ^ 63 <= now_ms clock < 2 ^ 63.
Proof.
  unfold now_ms. change (2 ^ 63) with 9223372036854775808.
  case_match; reflect_bools; [lia|]. pose proof (Z.div_pos clock 1000000). lia.
Qed.

Lemma unwrap_build_envelope to_string redact ts payload e reason sink pipeline row idx :
  - 2 ^ 63 <= ts < 2 ^ 63 ->
  unwrap_envelope (build_envelope to_string redact ts payload e reason sink pipeline row idx)
  = Ok (MkUnwrapped payload (Some (reason_str reason)) (Some (error_kind e))
          (Some (redact (to_string e))) (Some idx) (Some pipeline) (Some row) (Some sink) (Some ts)).
Proof.
  intros Hts.
  change (Ok (A := UnwrappedEnvelope) (E := EnvelopeError)
    (MkUnwrapped payload (Some (reason_str reason)) (Some (error_kind e))
      (Some (redact (to_string e))) (Some idx) (Some pipeline) (Some row) (Some sink)
      (as_i64 (of_i64 ts)))
    = Ok (MkUnwrapped payload (Some (reason_str reason)) (Some (error_kind e))
      (Some (redact (to_string e))) (Some idx) (Some pipeline) (Some row) (Some sink) (Some ts))).
  do 2 f_equal. unfold as_i64, of_i64. destruct (Z.ltb_spec ts 0); [done|].
  destruct (Z.leb_spec ts 9223372036854775807); [done|lia].
Qed.

(** A batch refused under [dlq_all] is exactly one whose sink may have committed
    part of it, does not write by key, and whose caller did not accept
    duplicates. *)
Lemma check_dlq_all_policy_err n a k o allow :
  is_ok (check_dlq_all_policy n a k o allow) = false
  <-> o = DlqAllRows /\ allow = false /\ k = false /\ a = BestEffort.
Proof. unfold check_dlq_all_policy, dlq_all_is_safe. destruct o, a, k, allow; naive_solver. Qed.

(** A dead-letter envelope can be replayed: unwrapping an envelope the engine
    built returns the original row unchanged, with the reason, the error's kind
    and (redacted) text, the sink, pipeline and row names, the row's position
    and the timestamp it was built with. *)
Theorem envelope_roundtrip to_string redact clock payload e reason sink pipeline row idx :
  unwrap_envelope (build_envelope to_string redact (now_ms clock) payload e reason sink pipeline row idx)
  = Ok (MkUnwrapped payload (Some (reason_str reason)) (Some (error_kind e))
          (Some (redact (to_string e))) (Some idx) (Some pipeline) (Some row) (Some sink)
          (Some (now_ms clock))) /\
  from_serde_str (reason_str reason) = Some reason.
Proof. split; [apply unwrap_build_envelope, now_ms_range|apply from_serde_str_reason]. Qed.
