(* ===== verification/Drift.v ===== *)
(** Schema drift: crates/core/src/drift.rs.

    The comparison of a page schema with the destination's; the inference of
    the page schema, which builds on crates/core/src/schema.rs, is in
    Schema.v. *)
From S2P Require Import Prelude Errors Json.
From Stdlib Require Import Sorting.Sorted.
From Stdlib Require Import Ascii.

Local Open Scope Z_scope.

Record ColumnChange := MkColumnChange {
  cc_name : string;
  cc_from : option Value;
  cc_to : Value;
}.

Record SchemaDiff := MkSchemaDiff {
  additions : list ColumnChange;
  widenings : list ColumnChange;
  incompatible_changes : list ColumnChange;
  droppable_required : list string;
}.
Definition SchemaDiff_default : SchemaDiff := MkSchemaDiff [] [] [] [].

(** [SchemaDiff::is_empty], [SchemaDiff::changed_columns]. *)
Definition diff_is_empty (d : SchemaDiff) : bool :=
  is_nil (additions d) && is_nil (widenings d) && is_nil (incompatible_changes d)
  && is_nil (droppable_required d).
Definition changed_columns (d : SchemaDiff) : list string :=
  (cc_name <$> (additions d ++ widenings d ++ incompatible_changes d)) ++ droppable_required d.

Record SchemaEvolution := MkSchemaEvolution {
  ev_additions : list ColumnChange;
  ev_widenings : list ColumnChange;
  relax_nullability : list string;
}.
Definition evolution_is_empty (e : SchemaEvolution) : bool :=
  is_nil (ev_additions e) && is_nil (ev_widenings e) && is_nil (relax_nullability e).

(** Byte-wise string order, and the stable insertion sort it induces (what
    [sort] and [sort_by(|a, b| a.name.cmp(&b.name))] compute). *)
Definition string_leb (a b : string) : bool :=
  match String.compare a b with Gt => false | _ => true end.
Fixpoint insert_by {A} (key : A -> string) (x : A) (l : list A) : list A :=
  match l with
  | [] => [x]
  | y :: l => if string_leb (key x) (key y) then x :: y :: l else y :: insert_by key x l
  end.
Definition sort_by {A} (key : A -> string) (l : list A) : list A :=
  fold_right (insert_by key) [] l.

(** [Vec::dedup] on strings. *)
Fixpoint dedup (l : list string) : list string :=
  match l with
  | x :: ((y :: _) as r) => if decide (x = y) then dedup r else x :: dedup r
  | _ => l
  end.

(** [type_set]: the sorted non-null type names of a fragment, and whether it
    carries [null]. *)
Definition type_names (fragment : Value) : list string :=
  match get fragment "type" with
  | Some (VString t) => [t]
  | Some (VArray arr) => omap as_str arr
  | _ => []
  end.
Definition type_set (fragment : Value) : list string * bool :=
  let ts := type_names fragment in
  (sort_by id (filter (fun t => t <> "null"%string) ts), bool_decide ("null"%string ∈ ts)).

Definition DRIFT_ALSO_ACCEPTS : string := "x-faucet-also-accepts".

(** [also_accepts]. *)
Definition also_accepts (dest : Value) : list string :=
  match get dest DRIFT_ALSO_ACCEPTS with
  | Some (VArray a) => omap as_str a
  | _ => []
  end.

(** [fits]. *)
Definition fits (dest page : Value) : bool :=
  let '(dn, dnull) := type_set dest in
  let '(pn, pnull) := type_set page in
  if pnull && negb dnull then false
  else forallb (fun t => bool_decide (t ∈ dn) || bool_decide (t ∈ also_accepts dest)
                         || (string_eqb t "integer" && bool_decide ("number"%string ∈ dn))) pn.

(** [without_also_accepted]. *)
Definition without_also_accepted (dest page : Value) : Value :=
  let also := also_accepts dest in
  if is_nil also then page
  else
    let '(dn, _) := type_set dest in
    let '(pn, pnull) := type_set page in
    let kept := (VString <$> filter (fun t => t ∈ dn \/ t ∉ also) pn)
                ++ (if pnull then [VString "null"] else []) in
    match page with
    | VObject m =>
        VObject (assoc_insert "type" (match kept with [v] => v | _ => VArray kept end) m)
    | _ => page
    end.

(** The collapse of a base-type family: sorted, deduplicated, [integer] dropped
    when [number] is present. *)
Definition collapse (names : list string) : list string :=
  let m := dedup (sort_by id names) in
  if bool_decide ("number"%string ∈ m) then filter (fun t => t <> "integer"%string) m else m.

(** [evolvable], [base_widened], [adds_null]. *)
Definition evolvable (dest page : Value) : bool :=
  bool_decide (length (collapse ((type_set dest).1 ++ (type_set page).1)) = 1%nat).
Definition base_widened (from to : Value) : bool :=
  let dn := (type_set from).1 in
  let pn := (type_set to).1 in
  negb (bool_decide (collapse (dn ++ pn) = collapse dn)).
Definition adds_null (from to : Value) : bool := (type_set to).2 && negb (type_set from).2.

(** [diff_schema]. *)
Definition props_of (schema : Value) : list (string * Value) :=
  default [] (get schema "properties" ≫= as_object).

Inductive column_class := Fits | Added (c : ColumnChange) | Widened (c : ColumnChange)
  | NotFitting (c : ColumnChange).

Definition classify_column (dest_props : list (string * Value)) (allow_widening : bool)
  (col : string * Value) : column_class :=
  let '(name, page_ty) := col in
  match assoc name dest_props with
  | None => Added (MkColumnChange name None page_ty)
  | Some dest_ty =>
      if fits dest_ty page_ty then Fits
      else
        let page_ty := without_also_accepted dest_ty page_ty in
        let change := MkColumnChange name (Some dest_ty) page_ty in
        if allow_widening && evolvable dest_ty page_ty then Widened change
        else NotFitting change
  end.

Definition diff_schema (destination page : Value) (allow_widening : bool) : SchemaDiff :=
  let dest_props := props_of destination in
  let page_props := props_of page in
  let cls := classify_column dest_props allow_widening <$> page_props in
  {| additions := sort_by cc_name (omap (fun c => match c with Added x => Some x | _ => None end) cls);
     widenings := sort_by cc_name (omap (fun c => match c with Widened x => Some x | _ => None end) cls);
     incompatible_changes :=
       sort_by cc_name (omap (fun c => match c with NotFitting x => Some x | _ => None end) cls);
     droppable_required :=
       sort_by id (omap (fun e => match assoc e.1 page_props with
                                  | Some _ => None
                                  | None => if (type_set e.2).2 then None else Some e.1
                                  end) dest_props) |}.

Inductive OnDrift := Warn | Evolve | Ignore | Quarantine | Fail.
Inductive OnIncompatible := IncompatibleFail | IncompatibleQuarantine.

(** [struct SchemaDriftPolicy]. *)
Record SchemaDriftPolicy := MkSchemaDriftPolicy {
  on_drift : OnDrift;
  allow_widening : bool;
  on_incompatible : OnIncompatible;
  relax_nullability_on_missing : bool;
}.

(** [SchemaDriftPolicy::requires_dlq]. *)
Definition drift_requires_dlq (p : SchemaDriftPolicy) : bool :=
  match on_drift p, on_incompatible p with
  | Quarantine, _ => true
  | Evolve, IncompatibleQuarantine => true
  | _, _ => false
  end.

(** ** Facts *)

Lemma insert_by_perm {A} (key : A -> string) x l : insert_by key x l ≡ₚ x :: l.
Proof. induction l as [|y l IH]; simpl; [done|]. case_match; [done|]. rewrite IH. apply Permutation_swap. Qed.

Lemma sort_by_perm {A} (key : A -> string) l : sort_by key l ≡ₚ l.
Proof. induction l as [|x l IH]; simpl; [done|]. by rewrite insert_by_perm, IH. Qed.

Lemma elem_of_sort_by {A} (key : A -> string) l x : x ∈ sort_by key l <-> x ∈ l.
Proof. by rewrite sort_by_perm. Qed.

Lemma string_leb_le a b : string_leb a b = true <-> String.le a b.
Proof. unfold String.le, String.leb, string_leb. by destruct (String.compare a b). Qed.

Lemma insert_by_sorted {A} (key : A -> string) x l :
  StronglySorted (fun a b => String.le (key a) (key b)) l ->
  StronglySorted (fun a b => String.le (key a) (key b)) (insert_by key x l).
Proof.
  induction 1 as [|y l Hl IH Hy]; cbn; [repeat constructor|].
  destruct (string_leb (key x) (key y)) eqn:E.
  - apply string_leb_le in E. constructor; [by constructor|]. constructor; [done|].
    apply (Forall_impl _ _ _ Hy). intros z. by trans (key y).
  - assert (String.le (key y) (key x)) as Hyx.
    { destruct (total String.le (key x) (key y)) as [H'|]; [|done]. apply string_leb_le in H'. congruence. }
    constructor; [done|]. rewrite insert_by_perm. by constructor.
Qed.

Lemma sort_by_sorted {A} (key : A -> string) l :
  StronglySorted (fun a b => String.le (key a) (key b)) (sort_by key l).
Proof. induction l; [constructor|]. by apply insert_by_sorted. Qed.

Lemma is_nil_true {A} (l : list A) : is_nil l = true <-> l = [].
Proof. destruct l; naive_solver. Qed.

Lemma sort_by_nil {A} (key : A -> string) l : sort_by key l = [] <-> l = [].
Proof.
  split; [|by intros ->]. intros H. pose proof (sort_by_perm key l) as P. rewrite H in P.
  by apply Permutation_nil_l in P.
Qed.

Lemma omap_nil {A B} (f : A -> option B) l : omap f l = [] <-> forall x, x ∈ l -> f x = None.
Proof.
  induction l as [|x l IH]; simpl.
  - split; [|done]. intros _ x Hx. by apply not_elem_of_nil in Hx.
  - destruct (f x) eqn:Hx; split; try done.
    + intros H. specialize (H x (list_elem_of_here _ _)). congruence.
    + intros H y [->|Hy]%elem_of_cons; [done|]. by apply IH.
    + intros H. apply IH. intros y Hy. apply H. by right.
Qed.

Lemma diff_empty_iff dest page allow :
  diff_is_empty (diff_schema dest page allow) = true <->
    (forall col, col ∈ props_of page -> classify_column (props_of dest) allow col = Fits) /\
    (forall col, col ∈ props_of dest -> assoc col.1 (props_of page) = None -> (type_set col.2).2 = true).
Proof.
  unfold diff_is_empty, diff_schema. simpl. rewrite !andb_true_iff, !is_nil_true, !sort_by_nil, !omap_nil.
  split.
  - intros [[[Ha Hw] Hi] Hd]. split.
    + intros col Hc.
      assert (classify_column (props_of dest) allow col ∈ classify_column (props_of dest) allow <$> props_of page)
        as Hin by (by apply list_elem_of_fmap_2).
      specialize (Ha _ Hin). specialize (Hw _ Hin). specialize (Hi _ Hin).
      by destruct (classify_column _ _ col).
    + intros col Hc Hn. specialize (Hd col Hc). simpl in Hd. rewrite Hn in Hd. by case_match.
  - intros [Hf Hd]. split_and!; [intros c Hc..|];
      try (apply list_elem_of_fmap in Hc as (col & -> & Hc); by rewrite Hf).
    intros col Hc. specialize (Hd col Hc). destruct (assoc col.1 _); [done|]. by rewrite Hd.
Qed.

Lemma classify_fits_iff dest allow name ty :
  classify_column dest allow (name, ty) = Fits <-> exists d, assoc name dest = Some d /\ fits d ty = true.
Proof.
  simpl. destruct (assoc name dest) as [d|]; [|naive_solver].
  destruct (fits d ty) eqn:Hf; [naive_solver|]. split; [by case_match|]. intros (d' & [= <-] & ?). congruence.
Qed.

Lemma classified_is_named dest page allow col c :
  col ∈ props_of page ->
  classify_column (props_of dest) allow col = c ->
  match c with Fits => True | Added x | Widened x | NotFitting x =>
    cc_name x ∈ changed_columns (diff_schema dest page allow) end.
Proof.
  intros Hc Hcls.
  assert (c ∈ classify_column (props_of dest) allow <$> props_of page) as Hin
    by (rewrite <- Hcls; by apply list_elem_of_fmap_2).
  unfold changed_columns.
  destruct c as [|x|x|x]; [done|..]; rewrite elem_of_app, !fmap_app, !elem_of_app; left;
    [left|right; left|right; right];
    apply list_elem_of_fmap_2, elem_of_sort_by, list_elem_of_omap; (eexists; split; [exact Hin|done]).
Qed.

(** The schema diff misses nothing. It is empty exactly when every column the
    page carries exists in the destination and fits its type, and every
    destination column the page lacks is nullable; a page column that does not
    fit is named by the diff. *)
Theorem diff_schema_complete dest page allow :
  (diff_is_empty (diff_schema dest page allow) = true <->
     (forall name ty, (name, ty) ∈ props_of page ->
        exists d, assoc name (props_of dest) = Some d /\ fits d ty = true) /\
     (forall name ty, (name, ty) ∈ props_of dest -> assoc name (props_of page) = None ->
        (type_set ty).2 = true)) /\
  (forall name ty, (name, ty) ∈ props_of page ->
     ~ (exists d, assoc name (props_of dest) = Some d /\ fits d ty = true) ->
     name ∈ changed_columns (diff_schema dest page allow)).
Proof.
  split.
  - rewrite diff_empty_iff. split; intros [H1 H2]; (split; [|]).
    + intros name ty H. by apply (classify_fits_iff _ allow), H1.
    + intros name ty H. exact (H2 (name, ty) H).
    + intros [name ty] H. by apply classify_fits_iff, H1.
    + intros [name ty] H. by apply (H2 name).
  - intros name ty Hin Hn. rewrite <- (classify_fits_iff _ allow) in Hn.
    pose proof (classified_is_named dest page allow (name, ty) _ Hin eq_refl) as H.
    unfold classify_column in *. destruct (assoc name _) as [d|]; [|done].
    destruct (fits d ty); [done|]. by destruct (allow && _).
Qed.
