(* ===== verification/StateTransfer.v ===== *)
(** Moving a pipeline's state between stores (crates/core/src/state.rs): the default
    bodies of [trait StateStore], [MemoryStateStore], [StateExport],
    [export_namespace] and [import_namespace].

    A store is a record of operations on its own state; the class [LawfulStore]
    says what export and import rely on. *)
From S2P Require Import Prelude Errors Json Text Drift StateKey TypedKey.

Local Open Scope Z_scope.

(** ** The interface *)

Record Kv (S : Type) := MkKv {
  kv_get : string -> S -> result (option Value) FaucetError * S;
  kv_put : string -> Value -> S -> result unit FaucetError * S;
  kv_delete : string -> S -> result unit FaucetError * S;
  kv_list : string -> S -> result (list string) FaucetError * S;
  kv_atomic_batch : bool;
  kv_put_batch : list (string * Value) -> S -> result unit FaucetError * S;
}.
Arguments MkKv {S}.
Arguments kv_get {S}.
Arguments kv_put {S}.
Arguments kv_delete {S}.
Arguments kv_list {S}.
Arguments kv_atomic_batch {S}.
Arguments kv_put_batch {S}.

(** The default [put_batch] and [compare_and_put]. *)
Section DefaultBodies.
Context {S : Type} (get : string -> S -> result (option Value) FaucetError * S)
  (put : string -> Value -> S -> result unit FaucetError * S).
Fixpoint default_put_batch (entries : list (string * Value)) (s : S) : result unit FaucetError * S :=
  match entries with
  | [] => (Ok tt, s)
  | (key, value) :: entries =>
      match put key value s with
      | (Ok _, s) => default_put_batch entries s
      | (Err e, s) => (Err e, s)
      end
  end.
Definition default_compare_and_put (key : string) (expected : option Value) (value : Value) (s : S)
  : result bool FaucetError * S :=
  match get key s with
  | (Err e, s) => (Err e, s)
  | (Ok current, s) =>
      if bool_decide (current = expected) then
        match put key value s with (Ok _, s) => (Ok true, s) | (Err e, s) => (Err e, s) end
      else (Ok false, s)
  end.
End DefaultBodies.

(** ** The in-memory store *)

Section Memory.
Context (debug_char : string -> Z -> string).
Notation state := (gmap string Value).

Definition valid_then {A} (key : string) (s : state) (k : result A FaucetError * state) : result A FaucetError * state :=
  match validate_state_key debug_char key with Ok _ => k | Err e => (Err e, s) end.
Definition memory_get (key : string) (s : state) : result (option Value) FaucetError * state :=
  valid_then key s (Ok (s !! key), s).
Definition memory_put (key : string) (value : Value) (s : state) : result unit FaucetError * state :=
  valid_then key s (Ok tt, <[key := value]> s).
Definition memory_delete (key : string) (s : state) : result unit FaucetError * state :=
  valid_then key s (Ok tt, delete key s).
Definition memory_list (prefix : string) (s : state) : result (list string) FaucetError * state :=
  (Ok (sort_by id (List.filter (starts_with prefix) (map_to_list s).*1)), s).
Definition memory_compare_and_put (key : string) (expected : option Value) (value : Value) (s : state)
  : result bool FaucetError * state :=
  valid_then key s (if bool_decide (s !! key = expected) then (Ok true, <[key := value]> s) else (Ok false, s)).
Fixpoint validate_all (keys : list string) : result unit FaucetError :=
  match keys with
  | [] => Ok tt
  | key :: keys => match validate_state_key debug_char key with Ok _ => validate_all keys | Err e => Err e end
  end.
Definition put_all (entries : list (string * Value)) (s : state) : state :=
  foldl (fun s e => <[e.1 := e.2]> s) s entries.
Definition memory_put_batch (entries : list (string * Value)) (s : state) : result unit FaucetError * state :=
  match validate_all entries.*1 with Ok _ => (Ok tt, put_all entries s) | Err e => (Err e, s) end.
Definition memory_store : Kv state :=
  MkKv memory_get memory_put memory_delete memory_list true memory_put_batch.
End Memory.

(** ** Snapshots *)

Definition STATE_EXPORT_VERSION : Z := 1.
Definition namespace_prefix (pipeline : string) : string := children_prefix (pipeline_key pipeline).

(** [keys] is a [BTreeMap]: the entries in the order of their keys. *)
Record StateExport := MkStateExport {
  ex_version : Z;
  ex_pipeline : string;
  ex_exported_at : option string;
  ex_keys : gmap string Value;
}.
Definition StateExport_new (pipeline : string) : StateExport := MkStateExport STATE_EXPORT_VERSION pipeline None ∅.
Definition ex_entries (ex : StateExport) : list (string * Value) := sort_by fst (map_to_list (ex_keys ex)).

(** Serialization, [skip_serializing_if] included. *)
Definition export_value (ex : StateExport) : Value :=
  VObject ([("version", of_u64 (ex_version ex)); ("pipeline", VString (ex_pipeline ex))]
    ++ match ex_exported_at ex with Some t => [("exported_at", VString t)] | None => [] end
    ++ [("keys", VObject (ex_entries ex))]).

Section Transfer.
Context (debug_char : string -> Z -> string) (display : FaucetError -> string) (to_string : Value -> string).

(** [validate]. *)
Fixpoint keys_in (ns pipeline : string) (keys : list string) : result unit FaucetError :=
  match keys with
  | [] => Ok tt
  | key :: keys =>
      match validate_state_key debug_char key with
      | Err e => Err e
      | Ok _ =>
          if starts_with ns key then keys_in ns pipeline keys
          else Err (State ("state export key '" +:+ key +:+ "' is outside the namespace '" +:+ ns +:+ "' of pipeline '" +:+ pipeline +:+ "'"))
      end
  end.
Definition export_validate (ex : StateExport) : result unit FaucetError :=
  match validate_state_key debug_char (ex_pipeline ex) with
  | Err e => Err (State ("state export pipeline name: " +:+ display e))
  | Ok _ => keys_in (namespace_prefix (ex_pipeline ex)) (ex_pipeline ex) (ex_entries ex).*1
  end.

(** The derived [Deserialize]: unknown fields are ignored, [exported_at] and [keys]
    may be absent. [None]: malformed. *)
Definition export_from_json (v : Value) : option StateExport :=
  let at_ := match get v "exported_at" with
             | None | Some Null => Some None
             | Some (VString t) => Some (Some t)
             | Some _ => None
             end in
  let keys := match get v "keys" with
              | None => Some ∅
              | Some (VObject m) => Some (list_to_map (reverse m) : gmap string Value)
              | Some _ => None
              end in
  match get v "version" ≫= as_u64, get v "pipeline" ≫= as_str, at_, keys with
  | Some version, Some pipeline, Some at_, Some keys => Some (MkStateExport version pipeline at_ keys)
  | _, _, _, _ => None
  end.

(** [from_value]; [serde_error] is serde's message. *)
Definition export_from_value (serde_error : Value -> string) (v : Value) : result StateExport FaucetError :=
  match get v "version" with
  | None => Err (State "state export has no `version` field")
  | Some n =>
      match as_u64 n with
      | None => Err (State ("state export `version` must be an integer, got " +:+ to_string n))
      | Some version =>
          if (version =? 0) || (STATE_EXPORT_VERSION <? version) then
            Err (State ("state export version " +:+ dec version +:+ " is not supported by this build (supported: "
              +:+ dec STATE_EXPORT_VERSION +:+ ") — import it with the faucet release that wrote it or newer"))
          else match export_from_json v with
               | None => Err (State ("malformed state export: " +:+ serde_error v))
               | Some ex => match export_validate ex with Ok _ => Ok ex | Err e => Err e end
               end
      end
  end.

(** ** Export and import *)

Section Ops.
Context {S : Type} (store : Kv S).

Fixpoint export_keys (keys : list string) (ex : gmap string Value) (s : S) : result (gmap string Value) FaucetError * S :=
  match keys with
  | [] => (Ok ex, s)
  | key :: keys =>
      match kv_get store key s with
      | (Err e, s) => (Err e, s)
      | (Ok (Some value), s) => export_keys keys (<[key := value]> ex) s
      | (Ok None, s) => export_keys keys ex s
      end
  end.
Definition export_namespace (pipeline : string) (s : S) : result StateExport FaucetError * S :=
  match kv_list store (namespace_prefix pipeline) s with
  | (Err e, s) => (Err e, s)
  | (Ok keys, s) =>
      match export_keys keys ∅ s with
      | (Err e, s) => (Err e, s)
      | (Ok m, s) => (Ok (MkStateExport STATE_EXPORT_VERSION pipeline None m), s)
      end
  end.

Record ImportReport := MkImportReport {
  ir_written : list string;
  ir_deleted : list string;
  ir_atomic : bool;
  ir_error : option string;
}.

(** The writes, one by one. *)
Fixpoint write_entries (entries : list (string * Value)) (r : ImportReport) (s : S) : ImportReport * S :=
  match entries with
  | [] => (r, s)
  | (key, value) :: entries =>
      match kv_put store key value s with
      | (Err e, s) => (MkImportReport (ir_written r) (ir_deleted r) (ir_atomic r)
                         (Some ("writing '" +:+ key +:+ "': " +:+ display e)), s)
      | (Ok _, s) => write_entries entries
                       (MkImportReport (ir_written r ++ [key]) (ir_deleted r) (ir_atomic r) (ir_error r)) s
      end
  end.
Fixpoint delete_stale (stale : list string) (r : ImportReport) (s : S) : ImportReport * S :=
  match stale with
  | [] => (r, s)
  | key :: stale =>
      match kv_delete store key s with
      | (Err e, s) => (MkImportReport (ir_written r) (ir_deleted r) (ir_atomic r)
                         (Some ("deleting stale '" +:+ key +:+ "': " +:+ display e)), s)
      | (Ok _, s) => delete_stale stale
                       (MkImportReport (ir_written r) (ir_deleted r ++ [key]) (ir_atomic r) (ir_error r)) s
      end
  end.
Definition write_all (entries : list (string * Value)) (s : S) : ImportReport * S :=
  if kv_atomic_batch store then
    match kv_put_batch store entries s with
    | (Err e, s) => (MkImportReport [] [] true (Some (display e)), s)
    | (Ok _, s) => (MkImportReport entries.*1 [] true None, s)
    end
  else write_entries entries (MkImportReport [] [] false None) s.
Definition stale_keys (ex : StateExport) (replace : bool) (s : S) : result (list string) FaucetError * S :=
  if replace then
    match kv_list store (namespace_prefix (ex_pipeline ex)) s with
    | (Err e, s) => (Err e, s)
    | (Ok keys, s) => (Ok (filter (fun k => ex_keys ex !! k = None) keys), s)
    end
  else (Ok [], s).
Definition import_namespace (ex : StateExport) (replace : bool) (s : S) : result ImportReport FaucetError * S :=
  match export_validate ex with
  | Err e => (Err e, s)
  | Ok _ =>
      match stale_keys ex replace s with
      | (Err e, s) => (Err e, s)
      | (Ok stale, s) =>
          match write_all (ex_entries ex) s with
          | (MkImportReport w d a (Some e), s) => (Ok (MkImportReport w d a (Some e)), s)
          | (r, s) => let '(r, s) := delete_stale stale r s in (Ok r, s)
          end
      end
  end.
End Ops.
End Transfer.

(** ** What a store promises

    [abs] reads the stored map. A call that fails may have taken effect; of an atomic batch
    all entries land or none do. *)
Class LawfulStore {S : Type} (store : Kv S) (abs : S -> gmap string Value) : Prop := {
  get_law key s r s' : kv_get store key s = (r, s') -> abs s' = abs s /\ forall x, r = Ok x -> x = abs s !! key;
  put_law key value s r s' : kv_put store key value s = (r, s') ->
    (abs s' = abs s \/ abs s' = <[key := value]> (abs s)) /\ (r = Ok tt -> abs s' = <[key := value]> (abs s));
  delete_law key s r s' : kv_delete store key s = (r, s') ->
    (abs s' = abs s \/ abs s' = delete key (abs s)) /\ (r = Ok tt -> abs s' = delete key (abs s));
  list_law prefix s r s' : kv_list store prefix s = (r, s') -> abs s' = abs s /\
    forall l, r = Ok l -> forall key, key ∈ l <-> is_Some (abs s !! key) /\ starts_with prefix key = true;
  batch_law entries s r s' : kv_atomic_batch store = true -> kv_put_batch store entries s = (r, s') ->
    (abs s' = abs s \/ abs s' = put_all entries (abs s)) /\ (r = Ok tt -> abs s' = put_all entries (abs s));
}.

#[export] Instance memory_lawful debug_char : LawfulStore (memory_store debug_char) id.
Proof.
  split; cbn; unfold memory_get, memory_put, memory_delete, memory_list, memory_put_batch, valid_then.
  - intros key s r s'. destruct (validate_state_key _ _); intros E; simplify_eq; split; [done| |done|done]. by intros x [= <-].
  - intros key value s r s'. destruct (validate_state_key _ _); intros E; simplify_eq; split; try done; [by right|by left].
  - intros key s r s'. destruct (validate_state_key _ _); intros E; simplify_eq; split; try done; [by right|by left].
  - intros prefix s r s' E. simplify_eq. split; [done|]. intros l [= <-] key.
    rewrite elem_of_sort_by, list_elem_of_In, filter_In, <- list_elem_of_In.
    rewrite list_elem_of_fmap. split.
    + intros [([k v] & -> & Hkv%elem_of_map_to_list) Hp]. split; [by eexists|done].
    + intros [[v Hv] Hp]. split; [|done]. exists (key, v). split; [done|]. by apply elem_of_map_to_list.
  - intros entries s r s' _. destruct (validate_all _ _); intros E; simplify_eq; split; try done; [by right|by left].
Qed.

(** ** Facts *)

Lemma put_all_lookup entries m key :
  NoDup entries.*1 ->
  put_all entries m !! key = match (list_to_map entries : gmap string Value) !! key with Some v => Some v | None => m !! key end.
Proof.
  unfold put_all. revert m. induction entries as [|[k v] entries IH]; intros m; cbn [foldl]; [done|].
  rewrite fmap_cons. intros [Hk Hn]%NoDup_cons. rewrite IH by done. cbn [fst snd list_to_map foldr].
  destruct (decide (k = key)) as [->|Hne].
  - rewrite lookup_insert_eq. rewrite (not_elem_of_list_to_map_1 entries key) by done. by rewrite lookup_insert_eq.
  - by rewrite !lookup_insert_ne.
Qed.

Lemma entries_nodup ex : NoDup (ex_entries ex).*1.
Proof.
  unfold ex_entries. assert ((sort_by fst (map_to_list (ex_keys ex))).*1 ≡ₚ (map_to_list (ex_keys ex)).*1) as ->
    by (apply fmap_Permutation, sort_by_perm). apply NoDup_fst_map_to_list.
Qed.

Lemma entries_map ex : (list_to_map (ex_entries ex) : gmap string Value) = ex_keys ex.
Proof.
  rewrite (list_to_map_proper _ (map_to_list (ex_keys ex))); [apply list_to_map_to_list|apply entries_nodup|apply sort_by_perm].
Qed.

Section StoreFacts.
Context {S : Type} (store : Kv S) (abs : S -> gmap string Value) {L : LawfulStore store abs} (display : FaucetError -> string).

Lemma write_entries_ok entries r s r' s' :
  write_entries display store entries r s = (r', s') -> ir_error r = None -> ir_error r' = None ->
  abs s' = put_all entries (abs s) /\ ir_written r' = ir_written r ++ entries.*1 /\ ir_deleted r' = ir_deleted r.
Proof.
  revert r s. induction entries as [|[k v] entries IH]; intros r s; cbn [write_entries].
  - intros [= <- <-] _ _. rewrite app_nil_r. done.
  - destruct (kv_put store k v s) as [[[]|e] s1] eqn:Ep; [|by intros [= <- <-]].
    intros Hw Hr He. destruct (IH _ _ Hw) as (Ha & Hx & Hd); [done|done|]. rewrite Ha.
    rewrite (proj2 (put_law _ _ _ _ _ Ep) eq_refl). split_and!; [done| |done]. rewrite Hx. cbn [ir_written]. by rewrite <- app_assoc.
Qed.

Lemma delete_stale_ok stale r s r' s' :
  delete_stale display store stale r s = (r', s') -> ir_error r' = None ->
  forall key, abs s' !! key = if bool_decide (key ∈ stale) then None else abs s !! key.
Proof.
  revert r s. induction stale as [|k stale IH]; intros r s; cbn [delete_stale].
  - intros [= <- <-] _ key. by rewrite bool_decide_false by apply not_elem_of_nil.
  - destruct (kv_delete store k s) as [[[]|e] s1] eqn:Ed; [|by intros [= <- <-]].
    intros Hd He key. rewrite (IH _ _ Hd He key), (proj2 (delete_law _ _ _ _ Ed) eq_refl).
    destruct (decide (key = k)) as [->|Hne].
    + rewrite lookup_delete_eq. rewrite (bool_decide_true (k ∈ k :: stale)) by apply elem_of_cons, or_introl, eq_refl. by case_bool_decide.
    + rewrite lookup_delete_ne by done. do 2 case_bool_decide; try done; exfalso; set_solver.
Qed.

(** Whether or not it fails, writing entries changes only their keys and deleting only removes. *)
Lemma write_entries_touch entries r s r' s' key :
  write_entries display store entries r s = (r', s') -> ~ key ∈ entries.*1 -> abs s' !! key = abs s !! key.
Proof.
  revert r s. induction entries as [|[k v] entries IH]; intros r s; cbn [write_entries]; [by intros [= <- <-]|].
  rewrite fmap_cons, not_elem_of_cons. intros Hw [Hk Hn]. destruct (kv_put store k v s) as [[[]|e] s1] eqn:Ep.
  - rewrite (IH _ _ Hw Hn), (proj2 (put_law _ _ _ _ _ Ep) eq_refl). by rewrite lookup_insert_ne.
  - injection Hw as <- <-. destruct (proj1 (put_law _ _ _ _ _ Ep)) as [-> | ->]; [done|]. by rewrite lookup_insert_ne.
Qed.
Lemma delete_stale_touch stale r s r' s' key :
  delete_stale display store stale r s = (r', s') -> abs s' !! key = abs s !! key \/ (key ∈ stale /\ abs s' !! key = None).
Proof.
  revert r s. induction stale as [|k stale IH]; intros r s; cbn [delete_stale]; [intros [= <- <-]; by left|].
  assert (forall s1, abs s1 = abs s \/ abs s1 = delete k (abs s) -> abs s1 !! key = abs s !! key \/ (key ∈ k :: stale /\ abs s1 !! key = None)) as Hone.
  { intros s1 [-> | ->]; [by left|]. destruct (decide (k = key)) as [->|]; [right; split; [left|apply lookup_delete_eq]|left; by rewrite lookup_delete_ne]. }
  destruct (kv_delete store k s) as [[[]|e] s1] eqn:Ed; pose proof (Hone s1 (proj1 (delete_law _ _ _ _ Ed))) as H1.
  - intros [->|[? ?]]%IH; [done|right; split; [by right|done]].
  - by intros [= <- <-].
Qed.

Lemma export_keys_ok keys m s m' s' :
  export_keys store keys m s = (Ok m', s') ->
  abs s' = abs s /\ forall key, m' !! key = if bool_decide (key ∈ keys) then (match abs s !! key with Some v => Some v | None => m !! key end) else m !! key.
Proof.
  revert m s. induction keys as [|k keys IH]; intros m s; cbn [export_keys].
  - intros [= <- <-]. split; [done|]. intros key. by rewrite bool_decide_false by apply not_elem_of_nil.
  - destruct (kv_get store k s) as [[[v|]|e] s1] eqn:Eg; [| |done];
      intros Hx; destruct (get_law _ _ _ _ Eg) as [Ea Ev]; specialize (Ev _ eq_refl);
      destruct (IH _ _ Hx) as [E1 E2]; rewrite Ea in *; (split; [done|]); intros key; rewrite E2;
      destruct (decide (key = k)) as [->|Hne].
    + rewrite lookup_insert_eq, (bool_decide_true (k ∈ k :: keys)), <- Ev by set_solver. by case_bool_decide.
    + rewrite lookup_insert_ne by done. do 2 case_bool_decide; try done; exfalso; set_solver.
    + rewrite (bool_decide_true (k ∈ k :: keys)), <- Ev by set_solver. by case_bool_decide.
    + do 2 case_bool_decide; try done; exfalso; set_solver.
Qed.
End StoreFacts.

Section ImportFacts.
Context {S : Type} (store : Kv S) (abs : S -> gmap string Value) {L : LawfulStore store abs}
  (debug_char : string -> Z -> string) (display : FaucetError -> string).

Lemma keys_in_ok ns p keys : keys_in debug_char ns p keys = Ok tt -> Forall (fun k => starts_with ns k = true) keys.
Proof.
  induction keys as [|k keys IH]; cbn [keys_in]; [constructor|]. destruct (validate_state_key _ _); [|done].
  destruct (starts_with ns k) eqn:E; [|done]. intros Hk. constructor; [done|]. auto.
Qed.

Lemma write_all_ok entries s r s' :
  write_all display store entries s = (r, s') ->
  (ir_error r = None -> abs s' = put_all entries (abs s)) /\
  (kv_atomic_batch store = true -> abs s' = abs s \/ abs s' = put_all entries (abs s)) /\
  forall key, NoDup entries.*1 -> ~ key ∈ entries.*1 -> abs s' !! key = abs s !! key.
Proof.
  unfold write_all. destruct (kv_atomic_batch store) eqn:Ea.
  - destruct (kv_put_batch store entries s) as [res s1] eqn:Eb. destruct (batch_law _ _ _ _ Ea Eb) as [H1 H2]. intros Hw.
    assert (s' = s1 /\ (ir_error r = None -> res = Ok tt)) as [-> Hr] by (destruct res as [[]|]; by simplify_eq). split_and!; auto.
    intros key Hnd Hn. destruct H1 as [-> | ->]; [done|]. rewrite put_all_lookup by done. by rewrite not_elem_of_list_to_map_1.
  - intros Hw. split_and!; [|done|intros key _; by eapply (write_entries_touch store abs display)].
    intros He. by apply (write_entries_ok store abs display entries _ s r s' Hw).
Qed.
Lemma stale_keys_ok ex replace s r s1 : stale_keys store ex replace s = (r, s1) -> abs s1 = abs s /\
  forall stale, r = Ok stale -> forall k, k ∈ stale <-> replace = true /\ ex_keys ex !! k = None /\ is_Some (abs s !! k) /\
    starts_with (namespace_prefix (ex_pipeline ex)) k = true.
Proof.
  unfold stale_keys. destruct replace.
  - destruct (kv_list _ _ _) as [[l|e] s2] eqn:El; intros E; simplify_eq; destruct (list_law _ _ _ _ El) as [Ea Hl]; (split; [done|]); [|done].
    intros stale [= <-] k. rewrite list_elem_of_filter, (Hl _ eq_refl). tauto.
  - intros E. simplify_eq. split; [done|]. intros stale [= <-] k. rewrite elem_of_nil. naive_solver.
Qed.

(** What an import without error leaves: the exported keys, in place of the
    namespace when it replaces. *)
Lemma import_ok ex replace s r s' :
  import_namespace debug_char display store ex replace s = (Ok r, s') -> ir_error r = None ->
  forall key, abs s' !! key =
    match ex_keys ex !! key with
    | Some v => Some v
    | None => if replace && starts_with (namespace_prefix (ex_pipeline ex)) key then None else abs s !! key
    end.
Proof.
  unfold import_namespace. destruct (export_validate debug_char display ex); [|done].
  destruct (stale_keys store ex replace s) as [[stale|e] s1] eqn:Es; [|done].
  destruct (stale_keys_ok _ _ _ _ _ Es) as [Ea Hst']. specialize (Hst' _ eq_refl) as Hst.
  destruct (write_all display store (ex_entries ex) s1) as [[w dl at_ err] s2] eqn:Ew. destruct err as [e|]; [by intros [= <- <-]|].
  destruct (delete_stale display store stale _ s2) as [r' s3] eqn:Ed. intros [= <- <-] He key.
  rewrite (delete_stale_ok store abs display _ _ _ _ _ Ed He key), (proj1 (write_all_ok _ _ _ _ Ew) eq_refl), Ea.
  rewrite put_all_lookup, entries_map by apply entries_nodup. case_bool_decide as Hin.
  - apply Hst in Hin as (-> & -> & _ & ->). done.
  - destruct (ex_keys ex !! key) eqn:Ek; [done|]. destruct replace; [cbn|done].
    destruct (starts_with _ key) eqn:Ep; [|done]. destruct (abs s !! key) eqn:Ev; [|done]. exfalso. apply Hin, Hst.
    split_and!; [done..|by eexists|done].
Qed.

Lemma elem_of_entries ex key : key ∈ (ex_entries ex).*1 <-> is_Some (ex_keys ex !! key).
Proof.
  rewrite <- (entries_map ex). destruct (decide (key ∈ (ex_entries ex).*1)) as [Hin|Hn].
  - split; [intros _|done]. apply list_elem_of_fmap in Hin as ([k v] & -> & Hin). exists v. by apply elem_of_list_to_map_1; [apply entries_nodup|].
  - split; [done|]. rewrite (not_elem_of_list_to_map_1 _ _ Hn). by intros [].
Qed.
(** However an import ends, what is not of the snapshot is as before, or stale and removed. *)
Lemma import_touches ex replace s res s' :
  import_namespace debug_char display store ex replace s = (res, s') ->
  forall key, ex_keys ex !! key = None -> abs s' !! key = abs s !! key
    \/ (replace = true /\ starts_with (namespace_prefix (ex_pipeline ex)) key = true /\ abs s' !! key = None).
Proof.
  unfold import_namespace. destruct (export_validate debug_char display ex); [|intros [= <- <-]; by left].
  destruct (stale_keys store ex replace s) as [[stale|e] s1] eqn:Es; destruct (stale_keys_ok _ _ _ _ _ Es) as [Ea Hst].
  2: { intros [= <- <-] key _. left. by rewrite Ea. }
  destruct (write_all display store (ex_entries ex) s1) as [r1 s2] eqn:Ew. destruct (write_all_ok _ _ _ _ Ew) as (_ & _ & Hw).
  intros Hi key Hk. assert (abs s2 !! key = abs s !! key) as H2.
  { rewrite Hw, Ea; [done|apply entries_nodup|]. rewrite elem_of_entries, Hk. by intros []. }
  destruct r1 as [w dl at_ [e|]]; [injection Hi as <- <-; by left|].
  destruct (delete_stale display store stale _ s2) as [r' s3] eqn:Ed. injection Hi as <- <-.
  destruct (delete_stale_touch store abs display _ _ _ _ _ key Ed) as [->|[Hin Hn]]; [by left|right].
  apply (Hst _ eq_refl) in Hin as (? & _ & _ & ?). done.
Qed.
(** Into a store with atomic batches the snapshot lands whole or not at all. *)
Lemma import_all_or_nothing ex replace s res s' :
  import_namespace debug_char display store ex replace s = (res, s') -> kv_atomic_batch store = true ->
  abs s' = abs s \/ exists r, res = Ok r /\ forall key v, ex_keys ex !! key = Some v -> abs s' !! key = Some v.
Proof.
  unfold import_namespace. destruct (export_validate debug_char display ex); [|intros [= <- <-]; by left].
  destruct (stale_keys store ex replace s) as [[stale|e] s1] eqn:Es; destruct (stale_keys_ok _ _ _ _ _ Es) as [Ea Hst]; [|intros [= <- <-]; by left].
  destruct (write_all display store (ex_entries ex) s1) as [r1 s2] eqn:Ew. destruct (write_all_ok _ _ _ _ Ew) as (Hok & Hat & _). intros Hi Hb.
  assert (abs s2 = put_all (ex_entries ex) (abs s1) -> forall key v, ex_keys ex !! key = Some v -> abs s2 !! key = Some v) as Hall.
  { intros -> key v Hk. rewrite put_all_lookup, entries_map by apply entries_nodup. by rewrite Hk. }
  destruct r1 as [w dl at_ [e|]].
  - injection Hi as <- <-. destruct (Hat Hb) as [H2|H2]; [left; congruence|right]. eauto.
  - destruct (delete_stale display store stale _ s2) as [r' s3] eqn:Ed. injection Hi as <- <-. right. eexists. split; [done|]. intros key v Hk.
    destruct (delete_stale_touch store abs display _ _ _ _ _ key Ed) as [->|[Hin _]]; [by apply Hall; [apply Hok|]|].
    apply (Hst _ eq_refl) in Hin as (_ & Hx & _). congruence.
Qed.
Lemma export_in_namespace ex key : export_validate debug_char display ex = Ok tt -> is_Some (ex_keys ex !! key) ->
  starts_with (namespace_prefix (ex_pipeline ex)) key = true.
Proof.
  unfold export_validate. destruct (validate_state_key _ _); [|done]. intros Hf%keys_in_ok Hk%elem_of_entries. rewrite Forall_forall in Hf. by apply Hf.
Qed.
(** An import stays in the namespace of its pipeline. *)
Lemma import_stays ex replace s res s' key : import_namespace debug_char display store ex replace s = (res, s') ->
  starts_with (namespace_prefix (ex_pipeline ex)) key = false -> abs s' !! key = abs s !! key.
Proof.
  intros Hi Hn. destruct (ex_keys ex !! key) eqn:Ek; [|destruct (import_touches _ _ _ _ _ Hi key Ek) as [?|(_ & ? & _)]; [done|congruence]].
  unfold import_namespace in Hi. destruct (export_validate debug_char display ex) as [[]|] eqn:Ev; [|by simplify_eq].
  rewrite (export_in_namespace _ _ Ev) in Hn; [done|by eexists].
Qed.
End ImportFacts.

(** C29: Moving a pipeline's state keeps it whole. What one store exports, imported with
    [replace] into any other without error, leaves under the pipeline's namespace exactly the
    keys and values of the first store. However an import ends, with or without [replace],
    every key outside the namespace is as it was, and a key of the namespace that was not
    exported is as it was or, only with [replace], gone. Into a store with atomic batches,
    an import that answers or fails leaves all exported values in place or the store as it
    was. *)
Theorem state_moves_whole {S T : Type} (from : Kv S) (into : Kv T) abs_from abs_into
    (LF : LawfulStore from abs_from) (LI : LawfulStore into abs_into) debug_char display pipeline s s' ex t t' replace res :
  export_namespace from pipeline s = (Ok ex, s') -> import_namespace debug_char display into ex replace t = (res, t') ->
  (forall r, res = Ok r -> ir_error r = None -> replace = true ->
     forall key, starts_with (namespace_prefix pipeline) key = true -> abs_into t' !! key = abs_from s !! key) /\
  (forall key, starts_with (namespace_prefix pipeline) key = false -> abs_into t' !! key = abs_into t !! key) /\
  (forall key, abs_from s !! key = None -> abs_into t' !! key = abs_into t !! key \/ (replace = true /\ abs_into t' !! key = None)) /\
  (kv_atomic_batch into = true -> abs_into t' = abs_into t \/
     forall key v, starts_with (namespace_prefix pipeline) key = true -> abs_from s !! key = Some v -> abs_into t' !! key = Some v).
Proof.
  unfold export_namespace. destruct (kv_list from (namespace_prefix pipeline) s) as [[keys|e] s1] eqn:El; [|done].
  destruct (export_keys from keys ∅ s1) as [[m|e] s2] eqn:Ek; [|done]. intros [= <- <-] Hi.
  destruct (list_law _ _ _ _ El) as [Ea Hl]. specialize (Hl _ eq_refl). destruct (export_keys_ok from abs_from _ _ _ _ _ Ek) as [_ Hm].
  assert (forall key, m !! key = if starts_with (namespace_prefix pipeline) key then abs_from s !! key else None) as Hkeys.
  { intros key. rewrite Hm, Ea, lookup_empty. specialize (Hl key). case_bool_decide as Hin.
    - apply Hl in Hin as [[v Hv] ->]. by rewrite Hv.
    - destruct (starts_with _ key); [|done]. destruct (abs_from s !! key) eqn:Ev; [|done]. exfalso. apply Hin, Hl. split; [by eexists|done]. }
  split_and!.
  - intros r -> He -> key Hp. rewrite (import_ok into abs_into debug_char display _ _ _ _ _ Hi He key). cbn [ex_keys ex_pipeline andb].
    rewrite Hkeys, Hp. by destruct (abs_from s !! key).
  - intros key Hp. by apply (import_stays into abs_into debug_char display _ _ _ _ _ key Hi).
  - intros key Hn. destruct (import_touches into abs_into debug_char display _ _ _ _ _ Hi key) as [?|(? & _ & ?)]; [|by left|by right].
    cbn [ex_keys]. rewrite Hkeys, Hn. by destruct (starts_with _ _).
  - intros Hb. destruct (import_all_or_nothing into abs_into debug_char display _ _ _ _ _ Hi Hb) as [?|(r & _ & H)]; [by left|right].
    intros key v Hp Hv. apply H. cbn [ex_keys]. by rewrite Hkeys, Hp.
Qed.

(** A pipeline's two keys replace what another store holds of it. *)
Lemma state_moves_whole_witness :
  let from : gmap string Value := {["p::a" := Null; "q::z" := VBool true]} in
  let into : gmap string Value := {["p::old" := Null; "q::b" := Null]} in
  let after : gmap string Value := {["p::a" := Null; "q::b" := Null]} in
  let store := memory_store (fun _ _ => EmptyString) in
  let ex := MkStateExport 1 "p" None {["p::a" := Null]} in
  export_namespace store "p" from = (Ok ex, from) /\
  import_namespace (fun _ _ => EmptyString) (fun _ => EmptyString) store ex true into =
    (Ok (MkImportReport ["p::a"] ["p::old"] true None), after) /\
  forall key, starts_with (namespace_prefix "p") key = true -> after !! key = from !! key.
Proof.
  intros from into after store ex.
  assert (export_namespace store "p" from = (Ok ex, from)) as Hex by (vm_compute; reflexivity).
  assert (import_namespace (fun _ _ => EmptyString) (fun _ => EmptyString) store ex true into =
    (Ok (MkImportReport ["p::a"] ["p::old"] true None), after)) as Him by (vm_compute; reflexivity).
  split; [exact Hex|]. split; [exact Him|].
  exact (proj1 (state_moves_whole store store id id (memory_lawful _) (memory_lawful _) (fun _ _ => EmptyString) (fun _ => EmptyString)
    "p" from from ex into after true _ Hex Him) _ eq_refl eq_refl eq_refl).
Defined.

(** The snapshot document reads back: a valid export, written as JSON and parsed
    again, is the same export. *)
Theorem export_document_roundtrip debug_char display to_string serde_error ex :
  ex_version ex = STATE_EXPORT_VERSION -> export_validate debug_char display ex = Ok tt ->
  export_from_value debug_char display to_string serde_error (export_value ex) = Ok ex.
Proof.
  intros Hv Hok. destruct ex as [v p at_ keys]. cbn [ex_version] in Hv. subst v. set (ex := MkStateExport _ _ _ _) in *.
  assert ((list_to_map (reverse (ex_entries ex)) : gmap string Value) = keys) as Ek.
  { change keys with (ex_keys ex). rewrite <- (entries_map ex). apply list_to_map_proper; [|apply reverse_Permutation].
    rewrite fmap_reverse, reverse_Permutation. apply entries_nodup. }
  assert (get (export_value ex) "version" = Some (of_u64 1) /\ get (export_value ex) "pipeline" = Some (VString p) /\
    get (export_value ex) "exported_at" = (VString <$> at_) /\ get (export_value ex) "keys" = Some (VObject (ex_entries ex))) as (G1 & G2 & G3 & G4)
    by (unfold export_value, ex; destruct at_; split_and!; reflexivity).
  assert (export_from_json (export_value ex) = Some ex) as Ej
    by (unfold export_from_json; rewrite G1, G2, G3, G4, Ek; by destruct at_).
  unfold export_from_value. rewrite G1, Ej, Hok. done.
Qed.

Lemma export_document_roundtrip_witness :
  let ex := MkStateExport 1 "p" (Some "2024-01-01T00:00:00Z") {["p::a" := Null]} in
  export_from_value (fun _ _ => EmptyString) (fun _ => EmptyString) (fun _ => EmptyString) (fun _ => EmptyString) (export_value ex) = Ok ex.
Proof. apply export_document_roundtrip; vm_compute; reflexivity. Defined.
