(* ===== verification/Shard.v ===== *)
(** Shards: crates/core/src/shard.rs. A source is split into slices that are
    claimed and read independently: ranges of an integer key, or residues of a
    hash of an object's name. *)
From S2P Require Import Prelude Errors Json Text Drift.

Local Open Scope Z_scope.

(** [struct ShardSpec]. *)
Record ShardSpec := MkShardSpec {
  shard_id : string;
  descriptor : Value;
  size_estimate : option Z;
}.

(** [ShardSpec::whole], [new], [with_size], [is_whole]. *)
Definition whole : ShardSpec := MkShardSpec "0" Null None.
Definition shard_new (id : string) (d : Value) : ShardSpec := MkShardSpec id d None.
Definition with_size (size : Z) (s : ShardSpec) : ShardSpec :=
  MkShardSpec (shard_id s) (descriptor s) (Some size).
Definition is_whole (s : ShardSpec) : bool := string_eqb (shard_id s) "0" && is_null (descriptor s).

Definition MAX_SHARDS : Z := 4096.

(** [Ord::clamp], [u128::div_ceil]. *)
Definition clamp (lo hi z : Z) : Z := Z.max lo (Z.min hi z).
Definition div_ceil (a b : Z) : Z := (a + b - 1) / b.

(** The descriptor of a key range. *)
Definition pk_descriptor (key : string) (lo hi : Z) (lo_unbounded hi_unbounded include_null : bool) : Value :=
  VObject [("key", VString key); ("lo", of_i64 lo); ("hi", of_i64 hi);
           ("lo_unbounded", VBool lo_unbounded); ("hi_unbounded", VBool hi_unbounded);
           ("include_null", VBool include_null)].

(** The loop of [plan_pk_shards], from shard [i] of [n] with lower cut [lo];
    [fuel] shards are left. The size is a [u64] sum. *)
Fixpoint pk_loop (key : string) (max step n : Z) (fuel : nat) (i lo : Z) : list ShardSpec :=
  match fuel with
  | O => []
  | S fuel =>
      let hi := lo + step in
      let is_first := i =? 0 in
      let is_last := i =? n - 1 in
      let hi := if is_last || (max <? hi) then max else hi in
      let d := pk_descriptor key (cast_i64 lo) (cast_i64 hi) is_first is_last is_last in
      let size := wadd64 (cast_u64 (Z.max 0 (hi - lo))) (if is_last then 1 else 0) in
      with_size size (shard_new (dec i) d) ::
        (if is_last then [] else pk_loop key max step n fuel (i + 1) hi)
  end.

(** [plan_pk_shards]. *)
Definition plan_pk_shards (key : string) (min max target : Z) : list ShardSpec :=
  let target := clamp 1 MAX_SHARDS target in
  let width := Z.max 1 (max - min + 1) in
  let n := Z.min target width in
  let step := div_ceil width n in
  pk_loop key max step n (Z.to_nat n) 0 min.

(** [struct PkShardBounds]. *)
Record PkShardBounds := MkPkShardBounds {
  pk_key : string;
  pk_lo : Z;
  pk_hi : Z;
  lo_unbounded : bool;
  hi_unbounded : bool;
  include_null : bool;
}.

(** [Value::as_bool]. *)
Definition as_bool (v : Value) : option bool := match v with VBool b => Some b | _ => None end.

(** [PkShardBounds::from_spec]. *)
Definition from_spec (spec : ShardSpec) : option PkShardBounds :=
  let d := descriptor spec in
  match get d "key" ≫= as_str, get d "lo" ≫= as_i64, get d "hi" ≫= as_i64 with
  | Some key, Some lo, Some hi =>
      Some (MkPkShardBounds key lo hi
              (default false (get d "lo_unbounded" ≫= as_bool))
              (default false (get d "hi_unbounded" ≫= as_bool))
              (default false (get d "include_null" ≫= as_bool)))
  | _, _, _ => None
  end.

(** The conditions [wrap] joins: at least, or below, a bound. *)
Inductive condition := AtLeast (z : Z) | Below (z : Z).
Definition conditions (b : PkShardBounds) : list condition :=
  (if lo_unbounded b then [] else [AtLeast (pk_lo b)]) ++ (if hi_unbounded b then [] else [Below (pk_hi b)]).
Definition condition_text (key : string) (c : condition) : string :=
  match c with AtLeast z => key +:+ " >= " +:+ i64_str z | Below z => key +:+ " < " +:+ i64_str z end.

(** [PkShardBounds::wrap]. *)
Definition pk_wrap (b : PkShardBounds) (inner : string) (quote_ident : string -> string) : string :=
  let key := quote_ident (pk_key b) in
  let parts := conditions b in
  let range := join " AND " (condition_text key <$> parts) in
  let predicate :=
    if include_null b then
      (if string_eqb range EmptyString then "1=1" else "((" +:+ range +:+ ") OR " +:+ key +:+ " IS NULL)")
    else if string_eqb range EmptyString then "1=1" else range in
  "SELECT * FROM (" +:+ inner +:+ ") AS _faucet_shard WHERE " +:+ predicate.

(** What the predicate selects: a row by its key, [None] for a NULL key. A
    comparison with NULL does not hold. *)
Definition holds (k : option Z) (c : condition) : bool :=
  match k, c with
  | Some k, AtLeast z => z <=? k
  | Some k, Below z => k <? z
  | None, _ => false
  end.
Definition selects (b : PkShardBounds) (k : option Z) : bool :=
  let parts := conditions b in
  if is_nil parts then true
  else forallb (holds k) parts || (include_null b && match k with None => true | Some _ => false end).

Section Parse.
(** serde_json's text of a descriptor. *)
Context (to_string : Value -> string).

(** [parse_pk_shard]. *)
Definition parse_pk_shard (shard : ShardSpec) (connector : string) : result (option PkShardBounds) FaucetError :=
  if is_whole shard then Ok None
  else match from_spec shard with
       | Some b => Ok (Some b)
       | None => Err (Source (connector +:+ ": invalid shard descriptor: " +:+ to_string (descriptor shard)))
       end.
End Parse.

(** [pk_bounds_query], [pk_shards_from_bounds]. *)
Definition pk_bounds_query (inner quoted_key int_cast : string) : string :=
  "SELECT CAST(MIN(" +:+ quoted_key +:+ ") AS " +:+ int_cast +:+ ") AS lo, CAST(MAX(" +:+ quoted_key
  +:+ ") AS " +:+ int_cast +:+ ") AS hi FROM (" +:+ inner +:+ ") AS _faucet_bounds".
Definition pk_shards_from_bounds (key : string) (lo hi : option Z) (target : Z) : list ShardSpec :=
  match lo, hi with
  | Some lo, Some hi => plan_pk_shards key lo hi target
  | _, _ => [whole]
  end.

(** ** Hash shards *)

(** [shard_hash]. *)
Definition shard_hash (key : string) : Z := fnv1a 14695981039346656037 key.

(** [plan_hash_shards]. *)
Definition plan_hash_shards (target : Z) : list ShardSpec :=
  let target := Z.min target MAX_SHARDS in
  if target <=? 1 then [whole]
  else (fun i => shard_new (dec i) (VObject [("shards", of_u64 target); ("index", of_u64 i)])) <$> seqZ 0 target.

(** [struct HashShard], [from_spec], [contains]. *)
Record HashShard := MkHashShard { hs_shards : Z; hs_index : Z }.
Definition hash_from_spec (spec : ShardSpec) : option HashShard :=
  let d := descriptor spec in
  match get d "shards" ≫= as_u64, get d "index" ≫= as_u64 with
  | Some n, Some i => Some (MkHashShard n i)
  | _, _ => None
  end.
Definition hash_contains (h : HashShard) (key : string) : bool :=
  (hs_shards h <=? 1) || (shard_hash key mod hs_shards h =? hs_index h).
Definition parse_hash_shard (to_string : Value -> string) (shard : ShardSpec) (connector : string) :
    result (option HashShard) FaucetError :=
  if is_whole shard then Ok None
  else match hash_from_spec shard with
       | Some h => Ok (Some h)
       | None => Err (Source (connector +:+ ": invalid shard descriptor: " +:+ to_string (descriptor shard)))
       end.

(** What the reader of a parsed shard keeps. *)
Definition pk_reads (p : option PkShardBounds) (k : option Z) : bool :=
  match p with Some b => selects b k | None => true end.
Definition hash_reads (p : option HashShard) (key : string) : bool :=
  match p with Some h => hash_contains h key | None => true end.

(** The shard as its reader takes it. *)
Definition shard_reads (to_string : Value -> string) (s : ShardSpec) (k : option Z) : bool :=
  match parse_pk_shard to_string s EmptyString with Ok p => pk_reads p k | Err _ => false end.
Definition hash_shard_reads (to_string : Value -> string) (s : ShardSpec) (key : string) : bool :=
  match parse_hash_shard to_string s EmptyString with Ok p => hash_reads p key | Err _ => false end.

(** ** Facts *)

Lemma as_of_i64 z : is_i64 z -> as_i64 (of_i64 z) = Some z.
Proof.
  unfold is_i64, I64_MIN, I64_MAX, of_i64. intros Hz. destruct (Z.ltb_spec z 0); [done|]. simpl.
  by rewrite (proj2 (Z.leb_le _ _)) by lia.
Qed.

Lemma pk_from_spec id key lo hi a b c size :
  is_i64 lo -> is_i64 hi ->
  from_spec (with_size size (shard_new id (pk_descriptor key lo hi a b c))) = Some (MkPkShardBounds key lo hi a b c).
Proof.
  intros Hlo Hhi. set (d := pk_descriptor key lo hi a b c).
  assert (get d "lo" = Some (of_i64 lo) /\ get d "hi" = Some (of_i64 hi)) as [Hgl Hgh] by done.
  unfold from_spec. change (descriptor (with_size size (shard_new id d))) with d. rewrite Hgl, Hgh.
  cbn [mbind option_bind]. by rewrite !as_of_i64.
Qed.

Lemma pk_not_whole id key lo hi a b c size :
  is_whole (with_size size (shard_new id (pk_descriptor key lo hi a b c))) = false.
Proof. apply andb_false_r. Qed.

Lemma pk_descriptor_parses to_string id key lo hi a b c size :
  is_i64 lo -> is_i64 hi ->
  parse_pk_shard to_string (with_size size (shard_new id (pk_descriptor key lo hi a b c))) EmptyString =
  Ok (Some (MkPkShardBounds key lo hi a b c)).
Proof. intros. unfold parse_pk_shard. by rewrite pk_from_spec, pk_not_whole. Qed.

Lemma shard_reads_bounds ts id key lo hi a b c size k :
  is_i64 lo -> is_i64 hi ->
  shard_reads ts (with_size size (shard_new id (pk_descriptor key lo hi a b c))) k =
  selects (MkPkShardBounds key lo hi a b c) k.
Proof. intros. unfold shard_reads. by rewrite pk_descriptor_parses. Qed.

(** How many shards of a list read a key. *)
Notation readers ts l k := (length (filter (fun s => shard_reads ts s k = true) l)).

Lemma pk_loop_reads ts key max step n fuel i lo k :
  Z.of_nat fuel = n - i -> 0 <= i < n -> 0 < step -> is_i64 max -> is_i64 lo -> (i = n - 1 \/ lo <= max) ->
  readers ts (pk_loop key max step n fuel i lo) k =
  match k with Some k => if (i =? 0) || (lo <=? k) then 1%nat else 0%nat | None => 1%nat end.
Proof.
  revert i lo. induction fuel as [|fuel IH]; intros i lo Hf Hi Hs Hmax Hlo Hle; [lia|].
  cbn [pk_loop]. set (hi := if (i =? n - 1) || (max <? lo + step) then max else lo + step).
  assert (is_i64 hi) as Hhi.
  { unfold hi. destruct (Z.eqb_spec i (n - 1)); [done|]. destruct (Z.ltb_spec max (lo + step)); [done|].
    unfold is_i64 in *. simpl. lia. }
  rewrite !cast_i64_id by done. rewrite filter_cons.
  rewrite (shard_reads_bounds ts _ key lo hi) by done. unfold selects, conditions. cbn [lo_unbounded hi_unbounded pk_lo pk_hi include_null].
  destruct (Z.eqb_spec i (n - 1)) as [Hlast|Hlast].
  - destruct (Z.eqb_spec i 0); cbn [app is_nil forallb]; destruct k as [k|]; cbn [holds andb orb]; try done.
    destruct (Z.leb_spec lo k); done.
  - assert (lo <= hi) as Hord. { unfold hi. destruct (Z.ltb_spec max (lo + step)); simpl; lia. }
    assert (hi <= max) as Hhm.
    { unfold hi. destruct (Z.ltb_spec max (lo + step)); simpl; lia. }
    pose proof (IH (i + 1) hi ltac:(lia) ltac:(lia) Hs Hmax Hhi ltac:(by right)) as Hrest.
    rewrite (proj2 (Z.eqb_neq (i + 1) 0)) in Hrest by lia. cbn [orb] in Hrest.
    destruct (Z.eqb_spec i 0); cbn [app is_nil forallb]; destruct k as [k|]; cbn [holds andb orb];
      rewrite ?andb_true_r, ?orb_false_r.
    + destruct (Z.ltb_spec k hi), (Z.leb_spec hi k); try lia; case_decide; try done; simpl; by rewrite Hrest.
    + case_decide; [done|]. exact Hrest.
    + destruct (Z.leb_spec lo k), (Z.ltb_spec k hi), (Z.leb_spec hi k); try lia; case_decide; try done; simpl; by rewrite Hrest.
    + case_decide; [done|]. exact Hrest.
Qed.

Lemma pk_shards_read_once ts key lo hi target k :
  (forall z, lo = Some z \/ hi = Some z -> is_i64 z) ->
  readers ts (pk_shards_from_bounds key lo hi target) k = 1%nat.
Proof.
  intros Hb. unfold pk_shards_from_bounds. destruct lo as [min|], hi as [max|]; try (by destruct k).
  assert (is_i64 min) as Hmin by (apply Hb; by left). assert (is_i64 max) as Hmax by (apply Hb; by right).
  unfold plan_pk_shards. set (width := Z.max 1 (max - min + 1)). set (n := Z.min (clamp 1 MAX_SHARDS target) width).
  assert (1 <= n <= width) as Hn by (unfold n, clamp, MAX_SHARDS; lia).
  assert (0 < div_ceil width n) as Hstep.
  { unfold div_ceil. apply Z.div_str_pos. lia. }
  rewrite pk_loop_reads; [by destruct k|lia|lia|done|done|done|].
  destruct (Z.eq_dec n 1); [left; lia|right]. unfold width in Hn. lia.
Qed.

(** Every planned shard is a key range; only the last is unbounded above and only
    the first unbounded below. *)
Lemma pk_loop_shape key max step n fuel i lo s :
  s ∈ pk_loop key max step n fuel i lo ->
  exists j a b size, s = with_size size (shard_new (dec j) (pk_descriptor key a b (j =? 0) (j =? n - 1) (j =? n - 1))) /\
    is_i64 a /\ is_i64 b.
Proof.
  revert i lo. induction fuel as [|fuel IH]; intros i lo; cbn [pk_loop]; [by intros ?%not_elem_of_nil|].
  intros [->|Hin]%elem_of_cons.
  - eexists i, _, _, _. split; [done|]. split; apply cast_i64_range.
  - destruct (i =? n - 1); [by apply not_elem_of_nil in Hin|]. by apply IH in Hin.
Qed.

(** The shards of a key range lose and duplicate no row. Whatever bounds were
    observed (the whole of [i64], or none at all), however many shards are asked
    for, and whatever a row's key (inside the bounds, outside them, or NULL),
    exactly one shard of the plan reads the row. *)
Theorem pk_shards_partition to_string key lo hi target k :
  (forall z, lo = Some z \/ hi = Some z -> is_i64 z) ->
  readers to_string (pk_shards_from_bounds key lo hi target) k = 1%nat.
Proof. apply pk_shards_read_once. Qed.

Lemma pk_shards_partition_witness :
  length (pk_shards_from_bounds "id" (Some 1) (Some 5) 4) = 4%nat /\
  readers (fun _ => EmptyString) (pk_shards_from_bounds "id" (Some 1) (Some 5) 4) (Some (-7)) = 1%nat.
Proof.
  split; [vm_compute; reflexivity|].
  apply (pk_shards_partition (fun _ => EmptyString) "id" (Some 1) (Some 5) 4 (Some (-7))).
  intros z [[= <-]|[= <-]]; unfold is_i64, I64_MIN, I64_MAX; lia.
Defined.

(** The size estimate of the one shard of the whole of [i64] wraps to zero. *)
Example full_range_size_wraps :
  size_estimate <$> plan_pk_shards "id" I64_MIN I64_MAX 1 = [Some 0].
Proof. vm_compute. reflexivity. Qed.

(** ** Hash shards *)

Lemma of_u64_get n i : let d := VObject [("shards", of_u64 n); ("index", of_u64 i)] in
  hash_from_spec (shard_new (dec i) d) = Some (MkHashShard n i).
Proof. done. Qed.

(** The shards of a hashed name space are a partition: for any shard count,
    each name is read by exactly one shard of the plan. *)
Theorem hash_shards_partition to_string target key :
  length (filter (fun s => hash_shard_reads to_string s key = true) (plan_hash_shards target)) = 1%nat.
Proof.
  unfold plan_hash_shards. set (n := Z.min target MAX_SHARDS). destruct (Z.leb_spec n 1) as [|Hn]; [done|].
  set (r := shard_hash key mod n). assert (0 <= r < n) as Hr by (apply Z.mod_pos_bound; lia).
  assert (forall i, hash_shard_reads to_string
    (shard_new (dec i) (VObject [("shards", of_u64 n); ("index", of_u64 i)])) key = (r =? i)) as Hi.
  { intros i. unfold hash_shard_reads, parse_hash_shard, is_whole. cbn [shard_new shard_id descriptor is_null].
    rewrite andb_false_r, of_u64_get. cbn [hash_reads hash_contains]. unfold hash_contains. cbn [hs_shards hs_index].
    by rewrite (proj2 (Z.leb_gt n 1)) by lia. }
  assert (forall l, NoDup l -> length (filter (fun s => hash_shard_reads to_string s key = true)
    ((fun i => shard_new (dec i) (VObject [("shards", of_u64 n); ("index", of_u64 i)])) <$> l)) =
    if decide (r ∈ l) then 1%nat else 0%nat) as Hcount.
  { induction l as [|i l IH]; intros Hnd; [done|]. apply NoDup_cons in Hnd as [Hni Hnd].
    rewrite fmap_cons. specialize (IH Hnd). destruct (Z.eq_dec r i) as [<-|Hne].
    - rewrite filter_cons_True by (rewrite Hi; by apply Z.eqb_eq). rewrite decide_True by left.
      apply (f_equal S). etransitivity; [exact IH|]. by rewrite decide_False.
    - rewrite filter_cons_False by (rewrite Hi, Z.eqb_eq; done). etransitivity; [exact IH|].
      destruct (decide (r ∈ l)); [rewrite decide_True by (by right)|rewrite decide_False by set_solver]; done. }
  rewrite Hcount by apply NoDup_seqZ. rewrite decide_True; [done|]. apply elem_of_seqZ. lia.
Qed.
