(* ===== verification/Schema.v ===== *)
(** Schema inference: crates/core/src/schema.rs, and the part of drift.rs that
    infers a page's shape for the comparison with the destination
    ([infer_page_schema], [value_fits]).

    The code collects keys and type names in hash sets, whose order is not
    specified; the model keeps the order of first use. *)
From S2P Require Import Prelude Errors Json Text Drift.
From Stdlib Require Import Ascii.

Local Open Scope Z_scope.

(** [collect_types]. *)
Definition collect_types (schema : Value) : list string :=
  match get schema "type" with
  | Some (VString t) => [t]
  | Some (VArray arr) => omap as_str arr
  | _ => []
  end.

(** [make_type_value]. *)
Definition make_type_value (types : list string) : Value :=
  match dedup (sort_by id types) with
  | [t] => VString t
  | types => VArray (VString <$> types)
  end.

(** [add_null_type]. *)
Definition add_null_type (schema : Value) : Value :=
  let types := collect_types schema in
  if bool_decide ("null" ∈ types) then schema
  else
    let new_type := make_type_value (types ++ ["null"]) in
    match schema with
    | VObject map => VObject (assoc_insert "type" new_type map)
    | _ => VObject [("type", new_type)]
    end.

(** [extract_properties], [is_unknown_schema]. *)
Definition extract_properties (schema : Value) : list (string * Value) :=
  default [] (get schema "properties" ≫= as_object).
Definition is_unknown_schema (schema : Value) : bool :=
  match schema with VObject [] | Null => true | _ => false end.

(** The type names of a merged schema. *)
Definition merged_types (a b : Value) : list string :=
  let types := collect_types a ++ collect_types b in
  let types := if bool_decide ("integer" ∈ types) && bool_decide ("number" ∈ types)
               then filter (fun t => t <> "integer"%string) types else types in
  dedup (sort_by id types).

Section Merge.
Context (merge : Value -> Value -> Value).

(** [merge_properties]: the keys of both, then those of one side, which may be
    absent. *)
Definition merge_properties (a b : list (string * Value)) : list (string * Value) :=
  omap (fun e => (fun y => (e.1, merge e.2 y)) <$> assoc e.1 b) a
  ++ omap (fun e => match assoc e.1 b with Some _ => None | None => Some (e.1, add_null_type e.2) end) a
  ++ omap (fun e => match assoc e.1 a with Some _ => None | None => Some (e.1, add_null_type e.2) end) b.

Definition merge_items (a b : Value) : option Value :=
  match get a "items", get b "items" with
  | Some x, Some y => Some (merge x y)
  | Some x, None | None, Some x => Some x
  | None, None => None
  end.
End Merge.

(** [merge_schemas], with the depth of the first schema as fuel. *)
Fixpoint merge_fuel (fuel : nat) (a b : Value) : Value :=
  match fuel with
  | O => VObject []
  | S fuel =>
      let types := merged_types a b in
      match types with
      | [] => VObject []
      | _ =>
          let has_object := bool_decide ("object" ∈ types) in
          let has_array := bool_decide ("array" ∈ types) in
          let props := if has_object
                       then [("properties", VObject (merge_properties (merge_fuel fuel)
                               (extract_properties a) (extract_properties b)))] else [] in
          let items := if has_array then
                         match merge_items (merge_fuel fuel) a b with
                         | Some items => if is_unknown_schema items then [] else [("items", items)]
                         | None => []
                         end
                       else [] in
          VObject (("type", make_type_value types) :: props ++ items)
      end
  end.
Fixpoint depth (v : Value) : nat :=
  match v with
  | VArray l => S (foldr (fun x n => depth x `max` n)%nat O l)
  | VObject m => S (foldr (fun e n => depth e.2 `max` n)%nat O m)
  | _ => 1%nat
  end.
Definition merge_schemas (a b : Value) : Value := merge_fuel (depth a) a b.

(** [Iterator::reduce]. *)
Definition reduce {A} (f : A -> A -> A) (l : list A) : option A :=
  match l with [] => None | x :: l => Some (foldl f x l) end.

(** [infer_value_schema]. *)
Definition type_schema (t : string) : Value := VObject [("type", VString t)].
Fixpoint infer_value_schema (v : Value) : Value :=
  match v with
  | Null => type_schema "null"
  | VBool _ => type_schema "boolean"
  | VNumber (PosInt _ | NegInt _) => type_schema "integer"
  | VNumber (Float _) => type_schema "number"
  | VString _ => type_schema "string"
  | VArray arr =>
      VObject [("type", VString "array");
               ("items", default (VObject []) (reduce merge_schemas (map infer_value_schema arr)))]
  | VObject m =>
      VObject [("type", VString "object");
               ("properties", VObject (map (fun e => (e.1, infer_value_schema e.2)) m))]
  end.

(** [infer_schema]: one column. *)
Definition column_schema (objects : list (list (string * Value))) (key : string) : Value :=
  let values := omap (assoc key) objects in
  let field_schema := default (VObject []) (reduce merge_schemas (infer_value_schema <$> values)) in
  if (length values <? length objects)%nat then add_null_type field_schema else field_schema.
Definition infer_schema (records : list Value) : Value :=
  let objects := omap as_object records in
  let all_keys := remove_dups (concat ((fun o => o.*1) <$> objects)) in
  VObject [("type", VString "object");
           ("properties", VObject ((fun key => (key, column_schema objects key)) <$> all_keys))].

(** ** The page's shape against the destination (drift.rs) *)

Definition is_digit (c : ascii) : bool := let b := byte_of c in (48 <=? b) && (b <=? 57).

(** The closure [digits]: at least one digit, and what follows. *)
Fixpoint skip_digits (s : string) : string :=
  match s with String c s' => if is_digit c then skip_digits s' else s | EmptyString => s end.
Definition digits (s : string) : option string :=
  match s with String c _ => if is_digit c then Some (skip_digits s) else None | EmptyString => None end.

(** [is_numeric_text]. *)
Definition after_sign (s : string) : string :=
  match s with String c s' => if Ascii.eqb c "+" || Ascii.eqb c "-" then s' else s | _ => s end.
Definition is_numeric_text (s : string) : bool :=
  let s := match s with String "-" s' => s' | _ => s end in
  match digits s with
  | None => false
  | Some s =>
      match (match s with String "." s' => digits s' | _ => Some s end) with
      | None => false
      | Some s =>
          match (match s with String ("e" | "E") s' => digits (after_sign s') | _ => Some s end) with
          | None => false
          | Some s => string_eqb s EmptyString
          end
      end
  end.

(** The retyping of one column by [infer_page_schema]. *)
Definition all_numeric (name : string) (records : list Value) : bool :=
  forallb (fun v => match as_str v with Some s => is_numeric_text s | None => true end)
    (omap (fun r => get r name) records).
Definition page_column (dest_props : list (string * Value)) (records : list Value) (col : string * Value) :
    string * Value :=
  let '(name, fragment) := col in
  match assoc name dest_props with
  | None => col
  | Some dest =>
      let dn := (type_set dest).1 in
      let '(pn, pnull) := type_set fragment in
      if negb (bool_decide ("number" ∈ dn)) || negb (bool_decide ("string" ∈ pn)) then col
      else if negb (all_numeric name records) then col
      else
        let names := (fun t => if string_eqb t "string" then "number"%string else t) <$> pn in
        let names := if bool_decide ("number" ∈ names)
                     then filter (fun t => t <> "integer"%string) names else names in
        let names := dedup (sort_by id names) in
        let ty := (VString <$> names) ++ (if pnull then [VString "null"] else []) in
        let ty := match ty with [t] => t | _ => VArray ty end in
        (name, match fragment with VObject obj => VObject (assoc_insert "type" ty obj) | _ => fragment end)
  end.

(** [infer_page_schema]. *)
Definition infer_page_schema (destination : Value) (records : list Value) : Value :=
  let inferred := infer_schema records in
  match get destination "properties" ≫= as_object with
  | None => inferred
  | Some dest_props =>
      match inferred, get inferred "properties" ≫= as_object with
      | VObject m, Some props =>
          VObject (assoc_insert "properties" (VObject (page_column dest_props records <$> props)) m)
      | _, _ => inferred
      end
  end.

(** [value_fits]. *)
Definition value_fits (dest : Value) (name : string) (value : Value) : bool :=
  let destination := VObject [("type", VString "object"); ("properties", VObject [(name, dest)])] in
  let page := infer_page_schema destination [VObject [(name, value)]] in
  match get page "properties" ≫= (fun p => get p name) with
  | Some fragment => fits dest fragment
  | None => false
  end.

(** ** What an inferred schema says *)

(** Values as serde_json holds them: an object's keys are unique. *)
Fixpoint value_wf (v : Value) : Prop :=
  match v with
  | VArray l => foldr (fun x P => value_wf x /\ P) True l
  | VObject m => NoDup m.*1 /\ foldr (fun e P => value_wf e.2 /\ P) True m
  | _ => True
  end.

(** [v] has a type the schema names (an integer is also a number), its items and
    fields are as the schema says, and fields it lacks may be null. *)
Fixpoint describes (v s : Value) : Prop :=
  match v with
  | Null => "null" ∈ collect_types s
  | VBool _ => "boolean" ∈ collect_types s
  | VNumber (PosInt _ | NegInt _) => "integer" ∈ collect_types s \/ "number" ∈ collect_types s
  | VNumber (Float _) => "number" ∈ collect_types s
  | VString _ => "string" ∈ collect_types s
  | VArray l =>
      "array" ∈ collect_types s /\
      foldr (fun x P => (exists items, get s "items" = Some items /\ describes x items) /\ P) True l
  | VObject m =>
      "object" ∈ collect_types s /\ (exists props, get s "properties" = Some (VObject props)) /\
      foldr (fun e P => (exists f, assoc e.1 (extract_properties s) = Some f /\ describes e.2 f) /\ P) True m /\
      forall k f, assoc k (extract_properties s) = Some f -> assoc k m = None -> "null" ∈ collect_types f
  end.

(** ** Facts *)

Lemma foldr_and {A} (P : A -> Prop) l : foldr (fun x Q => P x /\ Q) True l <-> Forall P l.
Proof. induction l as [|x l IH]; simpl; [done|]. by rewrite Forall_cons, IH. Qed.

Lemma elem_of_dedup l x : x ∈ dedup l <-> x ∈ l.
Proof.
  induction l as [|y [|z l] IH]; [done|done|]. cbn [dedup]. case_decide as Hyz.
  - rewrite IH. subst. set_solver.
  - rewrite elem_of_cons, IH. set_solver.
Qed.

(** The names a [type] value lists. *)
Definition type_list (v : Value) : list string :=
  match v with VString t => [t] | VArray arr => omap as_str arr | _ => [] end.

Lemma collect_types_get s v : get s "type" = Some v -> collect_types s = type_list v.
Proof. intros H. unfold collect_types. rewrite H. by destruct v. Qed.

Lemma omap_as_str (l : list string) : omap as_str (VString <$> l) = l.
Proof. induction l as [|x l IH]; [done|]. exact (f_equal (cons x) IH). Qed.

Lemma elem_of_type_value ts x : x ∈ type_list (make_type_value ts) <-> x ∈ ts.
Proof.
  rewrite <- (elem_of_sort_by id ts), <- (elem_of_dedup (sort_by id ts)). unfold make_type_value.
  destruct (dedup (sort_by id ts)) as [|t [|u l]]; [done|done|].
  cbn [type_list]. by rewrite omap_as_str.
Qed.

Lemma elem_of_merged a b t :
  t ∈ merged_types a b <->
  (t ∈ collect_types a \/ t ∈ collect_types b) /\
  ~ (t = "integer" /\ ("number" ∈ collect_types a \/ "number" ∈ collect_types b)).
Proof.
  unfold merged_types. rewrite elem_of_dedup, elem_of_sort_by.
  set (ts := collect_types a ++ collect_types b).
  assert (forall x, x ∈ ts <-> x ∈ collect_types a \/ x ∈ collect_types b) as Hts by (intros; apply elem_of_app).
  rewrite <- !Hts. destruct (decide ("integer" ∈ ts)), (decide ("number" ∈ ts));
    rewrite ?(bool_decide_eq_true_2 (_ ∈ _)), ?(bool_decide_eq_false_2 (_ ∈ _)) by done; cbn [andb];
    rewrite ?list_elem_of_filter; naive_solver.
Qed.

Lemma collect_add_null s t : t ∈ collect_types (add_null_type s) <-> t ∈ collect_types s \/ t = "null".
Proof.
  unfold add_null_type. destruct (decide ("null" ∈ collect_types s)) as [Hn|Hn].
  { rewrite bool_decide_eq_true_2 by done. naive_solver. }
  rewrite bool_decide_eq_false_2 by done.
  assert (forall x, x ∈ type_list (make_type_value (collect_types s ++ ["null"])) <->
    x ∈ collect_types s \/ x = "null") as Hts.
  { intros x. by rewrite elem_of_type_value, elem_of_app, list_elem_of_singleton. }
  destruct s; rewrite <- Hts; (erewrite collect_types_get; [done|]); try done. simpl. by rewrite assoc_insert_eq.
Qed.
Lemma get_add_null s k : k <> "type" -> get (add_null_type s) k = get s k.
Proof.
  intros Hk. unfold add_null_type. case_match; [done|].
  destruct s; simpl; try by rewrite decide_False by done. by apply assoc_insert_ne.
Qed.
Lemma extract_add_null s : extract_properties (add_null_type s) = extract_properties s.
Proof. unfold extract_properties. by rewrite get_add_null. Qed.

(** A larger set of types, the same items and properties. *)
Lemma describes_add_null v s : describes v s -> describes v (add_null_type s).
Proof.
  destruct v as [|b|[n|n|f]|str|l|m]; cbn [describes]; rewrite ?collect_add_null, ?extract_add_null, ?get_add_null by done;
    naive_solver.
Qed.
(** *** Merging *)

Lemma assoc_app k l l' : assoc k (l ++ l') = match assoc k l with Some v => Some v | None => assoc k l' end.
Proof. induction l as [|[k' v] l IH]; [done|]. simpl. by case_decide. Qed.

Lemma omap_cons {A B} (f : A -> option B) x (l : list A) :
  omap f (x :: l) = match f x with Some y => y :: omap f l | None => omap f l end.
Proof. reflexivity. Qed.

(** A list of entries mapped by a function that keeps an entry by its key. *)
Lemma assoc_omap k (p : string -> bool) (g : string -> Value -> Value) l :
  assoc k (omap (fun e => if p e.1 then Some (e.1, g e.1 e.2) else None) l) =
  if p k then g k <$> assoc k l else None.
Proof.
  induction l as [|[k' v] l IH]; [by destruct (p k)|]. rewrite omap_cons. cbn [assoc fst snd].
  destruct (decide (k = k')) as [<-|Hne].
  - destruct (p k) eqn:Hp; [|by rewrite IH]. cbn [assoc]. by rewrite decide_True.
  - destruct (p k'); [cbn [assoc]; rewrite decide_False by done|]; apply IH.
Qed.

Lemma omap_ext_in {A B} (f g : A -> option B) (l : list A) : (forall x, f x = g x) -> omap f l = omap g l.
Proof. intros H. induction l as [|x l IH]; [done|]. by rewrite !omap_cons, H, IH. Qed.

Definition has_key (m : list (string * Value)) (k : string) : bool :=
  match assoc k m with Some _ => true | None => false end.

Lemma assoc_merge_properties merge a b k :
  assoc k (merge_properties merge a b) =
  match assoc k a, assoc k b with
  | Some x, Some y => Some (merge x y)
  | Some x, None | None, Some x => Some (add_null_type x)
  | None, None => None
  end.
Proof.
  unfold merge_properties. rewrite !assoc_app.
  rewrite (omap_ext_in _ (fun e => if has_key b e.1
    then Some (e.1, merge e.2 (default Null (assoc e.1 b))) else None) a)
    by (intros e; unfold has_key; by destruct (assoc e.1 b)).
  rewrite (omap_ext_in (fun e => match assoc e.1 b with Some _ => None | None => Some (e.1, add_null_type e.2) end)
    (fun e => if negb (has_key b e.1) then Some (e.1, add_null_type e.2) else None) a)
    by (intros e; unfold has_key; by destruct (assoc e.1 b)).
  rewrite (omap_ext_in (fun e => match assoc e.1 a with Some _ => None | None => Some (e.1, add_null_type e.2) end)
    (fun e => if negb (has_key a e.1) then Some (e.1, add_null_type e.2) else None) b)
    by (intros e; unfold has_key; by destruct (assoc e.1 a)).
  rewrite (assoc_omap k (has_key b) (fun k x => merge x (default Null (assoc k b)))).
  rewrite (assoc_omap k (fun k => negb (has_key b k)) (fun _ => add_null_type)).
  rewrite (assoc_omap k (fun k => negb (has_key a k)) (fun _ => add_null_type)).
  unfold has_key. by destruct (assoc k a), (assoc k b).
Qed.

Lemma depth_assoc k x m : assoc k m = Some x -> (depth x < depth (VObject m))%nat.
Proof.
  intros H. cbn [depth]. induction m as [|[k' y] m IH]; [done|]. cbn [assoc foldr] in *. case_decide.
  - injection H as ->. cbn [snd]. lia.
  - specialize (IH H). cbn [snd]. lia.
Qed.
Lemma depth_get s k x : get s k = Some x -> (depth x < depth s)%nat.
Proof. destruct s; try done. apply depth_assoc. Qed.
Lemma depth_property s k x : assoc k (extract_properties s) = Some x -> (depth x < depth s)%nat.
Proof.
  unfold extract_properties. destruct (get s "properties") as [[| | | | |m]|] eqn:Hg; try done.
  intros H. change (assoc k m = Some x) in H. apply depth_assoc in H. apply depth_get in Hg. lia.
Qed.

(** The parts of a merged schema that names some type. *)
Lemma merge_parts n a b :
  merged_types a b <> [] ->
  (forall t, t ∈ collect_types (merge_fuel (S n) a b) <-> t ∈ merged_types a b) /\
  ("object" ∈ merged_types a b ->
     get (merge_fuel (S n) a b) "properties" =
       Some (VObject (merge_properties (merge_fuel n) (extract_properties a) (extract_properties b)))) /\
  ("array" ∈ merged_types a b -> forall items,
     merge_items (merge_fuel n) a b = Some items -> is_unknown_schema items = false ->
     get (merge_fuel (S n) a b) "items" = Some items).
Proof.
  intros Hne. cbn [merge_fuel]. destruct (merged_types a b) as [|t0 ts] eqn:Ht; [done|]. rewrite <- Ht in *. clear Ht Hne.
  split_and!.
  - intros t. erewrite collect_types_get by done. by rewrite elem_of_type_value.
  - intros Ho. by rewrite (bool_decide_eq_true_2 ("object" ∈ _)).
  - intros Ha items Hi Hu. rewrite (bool_decide_eq_true_2 ("array" ∈ _)) by done. rewrite Hi, Hu.
    by destruct (bool_decide _).
Qed.

Lemma merged_other a b t :
  t <> "integer" -> t ∈ collect_types a \/ t ∈ collect_types b -> t ∈ merged_types a b.
Proof. intros Hne Ht. apply elem_of_merged. naive_solver. Qed.
Lemma merged_integer a b :
  "integer" ∈ collect_types a \/ "integer" ∈ collect_types b ->
  "integer" ∈ merged_types a b \/ "number" ∈ merged_types a b.
Proof.
  intros Ht. destruct (decide ("number" ∈ collect_types a \/ "number" ∈ collect_types b)) as [Hn|Hn].
  - right. by apply merged_other.
  - left. apply elem_of_merged. naive_solver.
Qed.

Lemma merge_types n a b t : t ∈ collect_types (merge_fuel (S n) a b) <-> t ∈ merged_types a b.
Proof.
  destruct (merged_types a b) as [|t0 ts] eqn:Ht.
  - cbn [merge_fuel]. by rewrite Ht.
  - rewrite <- Ht. apply merge_parts. by rewrite Ht.
Qed.

Lemma describes_named v s : describes v s -> exists t, t ∈ collect_types s.
Proof. destruct v as [|b|[n|n|f]|str|l|m]; cbn [describes]; naive_solver. Qed.
Lemma describes_known v s : describes v s -> is_unknown_schema s = false.
Proof.
  intros [t Ht]%describes_named. destruct s as [| | | | |[|e m]]; try done; by apply not_elem_of_nil in Ht.
Qed.

Lemma depth_pos v : (0 < depth v)%nat.
Proof. destruct v; simpl; lia. Qed.

Section DescribesMerge.
Context (n : nat) (IH : forall a b v, (depth a <= n)%nat -> describes v a \/ describes v b -> describes v (merge_fuel n a b)).
Context (a b : Value) (Hd : (depth a <= S n)%nat).

Lemma describes_merge_items x :
  "array" ∈ merged_types a b ->
  (exists items, get a "items" = Some items /\ describes x items) \/
  (exists items, get b "items" = Some items /\ describes x items) ->
  exists items, get (merge_fuel (S n) a b) "items" = Some items /\ describes x items.
Proof.
  intros Ha Hx.
  assert (exists items, merge_items (merge_fuel n) a b = Some items /\ describes x items) as (items & Hi & Hxi).
  { unfold merge_items. destruct Hx as [(i & Hg & Hx)|(i & Hg & Hx)]; rewrite Hg.
    - pose proof (depth_get _ _ _ Hg). destruct (get b "items"); eexists; (split; [done|]); [apply IH; [lia|by left]|done].
    - destruct (get a "items") eqn:Hga; eexists; (split; [done|]); [|done].
      pose proof (depth_get _ _ _ Hga). apply IH; [lia|by right]. }
  exists items. split; [|done]. apply merge_parts; [|done|done|by eapply describes_known].
  intros He. rewrite He in Ha. by apply not_elem_of_nil in Ha.
Qed.

Lemma describes_merge_object m :
  describes (VObject m) a \/ describes (VObject m) b -> describes (VObject m) (merge_fuel (S n) a b).
Proof.
  intros Hm. assert ("object" ∈ merged_types a b) as Ho.
  { apply merged_other; [done|]. cbn [describes] in Hm. naive_solver. }
  destruct (merge_parts n a b) as (_ & Hp & _).
  { intros He. rewrite He in Ho. by apply not_elem_of_nil in Ho. }
  specialize (Hp Ho). assert (extract_properties (merge_fuel (S n) a b) =
    merge_properties (merge_fuel n) (extract_properties a) (extract_properties b)) as Hex.
  { unfold extract_properties at 1. by rewrite Hp. }
  cbn [describes]. rewrite Hex. split_and!; [by apply merge_types|by eexists| |].
  - apply foldr_and, Forall_forall. intros e He.
    assert ((exists f, assoc e.1 (extract_properties a) = Some f /\ describes e.2 f) \/
            (exists f, assoc e.1 (extract_properties b) = Some f /\ describes e.2 f)) as Hf.
    { destruct Hm as [Hm|Hm]; [left|right]; cbn [describes] in Hm; destruct Hm as (_ & _ & Hm & _);
        rewrite foldr_and, Forall_forall in Hm; by apply Hm. }
    rewrite assoc_merge_properties. destruct Hf as [(f & Hf & Hef)|(f & Hf & Hef)]; rewrite Hf.
    + pose proof (depth_property _ _ _ Hf). destruct (assoc e.1 (extract_properties b)); eexists; (split; [done|]);
        [apply IH; [lia|by left]|by apply describes_add_null].
    + destruct (assoc e.1 (extract_properties a)) eqn:Hfa; eexists; (split; [done|]); [|by apply describes_add_null].
      pose proof (depth_property _ _ _ Hfa). apply IH; [lia|by right].
  - intros k f Hf Hk. rewrite assoc_merge_properties in Hf.
    destruct (assoc k (extract_properties a)) as [x|] eqn:Hx, (assoc k (extract_properties b)) as [y|] eqn:Hy;
      simplify_eq; try (apply collect_add_null; by right).
    pose proof (depth_property _ _ _ Hx). pose proof (depth_pos x).
    destruct n as [|n']; [lia|]. apply merge_types, merged_other; [done|].
    destruct Hm as [Hm|Hm]; cbn [describes] in Hm; naive_solver.
Qed.
End DescribesMerge.

(** A merged schema describes what either schema describes. *)
Lemma describes_merge n a b v :
  (depth a <= n)%nat -> describes v a \/ describes v b -> describes v (merge_fuel n a b).
Proof.
  revert a b v. induction n as [|n IH]; intros a b v Hd Hv; [pose proof (depth_pos a); lia|].
  destruct v as [|x|[z|z|f]|str|l|m]; [| | | | | | |by apply describes_merge_object];
    cbn [describes] in *; rewrite !merge_types; try (apply merged_other; [done|naive_solver]).
  1-2: destruct (decide ("number" ∈ merged_types a b)); [by right|left]; apply elem_of_merged;
    rewrite elem_of_merged in *; naive_solver.
  assert ("array" ∈ merged_types a b) as Ha by (apply merged_other; [done|naive_solver]). split; [done|].
  apply foldr_and, Forall_forall. intros x Hx. apply describes_merge_items; [done|done|done|].
  destruct Hv as [[_ Hv]|[_ Hv]]; [left|right]; rewrite foldr_and, Forall_forall in Hv; by apply Hv.
Qed.

Lemma describes_reduce v (l : list Value) s :
  s ∈ l -> describes v s -> forall r, reduce merge_schemas l = Some r -> describes v r.
Proof.
  destruct l as [|x l]; [by intros ?%not_elem_of_nil|]. intros Hs Hv r [= <-].
  assert (describes v x \/ exists y, y ∈ l /\ describes v y) as H.
  { apply elem_of_cons in Hs as [->|Hs]; [by left|right; by exists s]. }
  clear Hs Hv. revert x H. induction l as [|y l IH]; intros x [Hx|(z & Hz & Hv)]; try done.
  - by apply not_elem_of_nil in Hz.
  - simpl. apply IH. left. apply describes_merge; [done|by left].
  - simpl. apply IH. apply elem_of_cons in Hz as [->|Hz]; [|right; by exists z].
    left. apply describes_merge; [done|by right].
Qed.

Lemma assoc_map_snd k (g : Value -> Value) m : assoc k (map (fun e => (e.1, g e.2)) m) = g <$> assoc k m.
Proof. induction m as [|[k' v] m IH]; [done|]. simpl. by case_decide. Qed.

Lemma reduce_nonempty {A} (f : A -> A -> A) l : l <> [] -> exists r, reduce f l = Some r.
Proof. destruct l; [done|]. intros _. by eexists. Qed.

(** The schema inferred from a value describes it. *)
Lemma describes_infer v : value_wf v -> describes v (infer_value_schema v).
Proof.
  induction v as [|b|[z|z|f]|str|l IH|m IH] using Value_nested_ind; intros Hwf; cbn [infer_value_schema describes];
    try (left; left); try left.
  - split; [left|]. apply foldr_and, Forall_forall. intros x Hx. eexists. split; [done|].
    cbn [value_wf] in Hwf. rewrite foldr_and in Hwf. rewrite Forall_forall in IH, Hwf.
    destruct (reduce_nonempty merge_schemas (map infer_value_schema l)) as [r Hr].
    { destruct l; [by apply not_elem_of_nil in Hx|done]. }
    rewrite Hr. eapply describes_reduce; [apply list_elem_of_In, in_map, list_elem_of_In, Hx|by apply IH; [|apply Hwf]|done].
  - cbn [value_wf] in Hwf. destruct Hwf as [Hnd Hwf]. rewrite foldr_and, Forall_forall in Hwf. rewrite Forall_forall in IH.
    assert (forall k, assoc k (extract_properties (infer_value_schema (VObject m))) = infer_value_schema <$> assoc k m)
      as Hp by (intros k; apply assoc_map_snd).
    split_and!; [left|by eexists| |].
    + apply foldr_and, Forall_forall. intros [k x] He. setoid_rewrite Hp.
      apply (assoc_elem k x m Hnd) in He as Hk. cbn [fst snd]. rewrite Hk. eexists. split; [done|].
      exact (IH (k, x) He (Hwf (k, x) He)).
    + intros k f Hf Hk. setoid_rewrite Hp in Hf. by rewrite Hk in Hf.
Qed.

(** ** Columns of a page *)

Lemma elem_of_objects (records : list Value) o : o ∈ omap as_object records <-> VObject o ∈ records.
Proof.
  rewrite list_elem_of_omap. split.
  - intros (r & Hr & Ho). destruct r; simplify_eq/=. done.
  - intros Hr. by exists (VObject o).
Qed.

Lemma assoc_fmap_keys (g : string -> Value) (ks : list string) k :
  assoc k ((fun key => (key, g key)) <$> ks) = if decide (k ∈ ks) then Some (g k) else None.
Proof.
  induction ks as [|k' ks IH]; [done|]. rewrite fmap_cons. cbn [assoc].
  destruct (decide (k = k')) as [->|Hne]; [by rewrite decide_True by left|].
  rewrite IH. destruct (decide (k ∈ ks)) as [H|H]; [rewrite decide_True by (by right)|rewrite decide_False by set_solver]; done.
Qed.

Lemma assoc_keys k (m : list (string * Value)) : is_Some (assoc k m) <-> k ∈ m.*1.
Proof.
  induction m as [|[k' v] m IH]; simpl; [split; [by intros [? ?]|by intros ?%not_elem_of_nil]|].
  rewrite elem_of_cons, <- IH. case_decide; naive_solver.
Qed.

(** The columns of an inferred schema are the keys of the page's rows. *)
Lemma infer_property records k f :
  assoc k (extract_properties (infer_schema records)) = Some f <->
  (exists o, VObject o ∈ records /\ is_Some (assoc k o)) /\ f = column_schema (omap as_object records) k.
Proof.
  change (extract_properties (infer_schema records)) with
    ((fun key => (key, column_schema (omap as_object records) key)) <$>
       remove_dups (concat ((fun o => o.*1) <$> omap as_object records))).
  rewrite assoc_fmap_keys.
  assert (k ∈ remove_dups (concat ((fun o => o.*1) <$> omap as_object records)) <->
    exists o, VObject o ∈ records /\ is_Some (assoc k o)) as Hk.
  { rewrite elem_of_remove_dups, list_elem_of_In, in_concat. setoid_rewrite <- list_elem_of_In.
    setoid_rewrite list_elem_of_fmap. split.
    - intros (ks & (o & -> & Ho) & Hk). exists o. rewrite assoc_keys. split; [by apply elem_of_objects|done].
    - intros (o & Ho & Hk). exists (o.*1). rewrite assoc_keys in Hk. split; [|done]. exists o. by rewrite elem_of_objects. }
  case_decide as Hd; naive_solver.
Qed.

Lemma column_values (objects : list (list (string * Value))) k (o : list (string * Value)) v :
  o ∈ objects -> assoc k o = Some v -> v ∈ omap (assoc k) objects.
Proof. intros Ho Hv. apply list_elem_of_omap. by exists o. Qed.

Lemma omap_length_lt {A B} (f : A -> option B) (l : list A) :
  (length (omap f l) < length l)%nat <-> exists x, x ∈ l /\ f x = None.
Proof.
  assert (forall l : list A, (length (omap f l) <= length l)%nat) as Hle.
  { intros l'. induction l' as [|x l' IH]; [done|]. rewrite omap_cons. case_match; simpl; lia. }
  induction l as [|x l IH]; [split; [simpl; lia|by intros (? & ?%not_elem_of_nil & _)]|].
  rewrite omap_cons. destruct (f x) eqn:Hx; cbn [length].
  - rewrite <- Nat.succ_lt_mono, IH. split; intros (y & Hy & Hn); exists y.
    + split; [by right|done].
    + apply elem_of_cons in Hy as [->|Hy]; [congruence|done].
  - split; [intros _; exists x; split; [left|done]|]. intros _. pose proof (Hle l). lia.
Qed.

(** A column that some row lacks is nullable. *)
Lemma column_absent_null objects k (o : list (string * Value)) :
  o ∈ objects -> assoc k o = None -> "null" ∈ collect_types (column_schema objects k).
Proof.
  intros Ho Hk. unfold column_schema.
  rewrite (proj2 (Nat.ltb_lt _ _)) by (apply omap_length_lt; eauto). apply collect_add_null. by right.
Qed.
Lemma column_describes objects k (o : list (string * Value)) v :
  o ∈ objects -> assoc k o = Some v -> value_wf v -> describes v (column_schema objects k).
Proof.
  intros Ho Hv Hwf. pose proof (column_values objects k o v Ho Hv) as Hin. unfold column_schema.
  destruct (reduce_nonempty merge_schemas (infer_value_schema <$> omap (assoc k) objects)) as [r Hr].
  { intros He%fmap_nil_inv. rewrite He in Hin. by apply not_elem_of_nil in Hin. }
  rewrite Hr. simpl. assert (describes v r) as Hd.
  { exact (describes_reduce v _ _ (list_elem_of_fmap_2 infer_value_schema _ _ Hin) (describes_infer v Hwf) r Hr). }
  case_match; [by apply describes_add_null|done].
Qed.

(** C38: The schema inferred from a page is true of every row: each object row of
    the page has, for every field, a type the schema names for that column (an
    integer counts as a number), nested fields and array items are as the schema
    says, and every column a row lacks is marked nullable. *)
Theorem inferred_schema_describes_rows records r :
  r ∈ records -> value_wf r -> is_Some (as_object r) -> describes r (infer_schema records).
Proof.
  intros Hr Hwf [o Ho]. destruct r as [| | | | |m]; try done. cbn [value_wf] in Hwf. destruct Hwf as [Hnd Hwf].
  rewrite foldr_and, Forall_forall in Hwf. cbn [describes]. split_and!; [left|by eexists| |].
  - apply foldr_and, Forall_forall. intros [k v] He. exists (column_schema (omap as_object records) k).
    apply (assoc_elem k v m Hnd) in He as Hk. split.
    + apply infer_property. split; [|done]. exists m. split; [done|by eexists].
    + eapply column_describes; [by apply elem_of_objects|done|exact (Hwf (k, v) He)].
  - intros k f (_ & ->)%infer_property Hk. by eapply column_absent_null; [apply elem_of_objects|].
Qed.

Lemma inferred_schema_describes_rows_witness :
  let records := [VObject [("id", VNumber (PosInt 1)); ("tags", VArray [VString "a"; Null])]; VObject []] in
  describes (VObject []) (infer_schema records).
Proof.
  apply (inferred_schema_describes_rows [VObject [("id", VNumber (PosInt 1)); ("tags", VArray [VString "a"; Null])]; VObject []]
    (VObject [])).
  - right. left.
  - split; [constructor|exact I].
  - by eexists.
Defined.

Example infers_nullable_number :
  infer_schema [VObject [("id", VNumber (PosInt 1)); ("tags", VArray [VString "a"; Null])];
                VObject [("id", VNumber (Float (SpecFloat.S754_finite false 3 (-1))))]] =
  VObject [("type", VString "object"); ("properties", VObject
    [("tags", VObject [("type", VArray [VString "array"; VString "null"]);
                       ("items", VObject [("type", VArray [VString "null"; VString "string"])])]);
     ("id", VObject [("type", VString "number")])])].
Proof. vm_compute. reflexivity. Qed.

(** ** Rows and pages that fit a destination column *)

(** [destination accepts the base type]. *)
Definition accepts (dest : Value) (t : string) : Prop :=
  t ∈ (type_set dest).1 \/ t ∈ also_accepts dest \/ (t = "integer" /\ "number" ∈ (type_set dest).1).
Definition nullable (dest : Value) : Prop := "null" ∈ collect_types dest.

Lemma elem_of_type_set s t : t ∈ (type_set s).1 <-> t ∈ collect_types s /\ t <> "null".
Proof. unfold type_set. cbn [fst]. rewrite elem_of_sort_by, list_elem_of_filter. naive_solver. Qed.

Lemma fits_iff dest page :
  fits dest page = true <->
  ("null" ∈ collect_types page -> nullable dest) /\
  (forall t, t ∈ collect_types page -> t <> "null" -> accepts dest t).
Proof.
  unfold fits. destruct (type_set dest) as [dn dnull] eqn:Hd, (type_set page) as [pn pnull] eqn:Hp.
  assert (forall t, t ∈ pn <-> t ∈ collect_types page /\ t <> "null") as Hpn
    by (intros t; rewrite <- elem_of_type_set, Hp; done).
  assert (pnull = bool_decide ("null" ∈ collect_types page)) as -> by (by injection Hp).
  assert (dnull = bool_decide ("null" ∈ collect_types dest)) as -> by (by injection Hd).
  assert (forallb (fun t => bool_decide (t ∈ dn) || bool_decide (t ∈ also_accepts dest)
    || (string_eqb t "integer" && bool_decide ("number" ∈ dn))) pn = true <->
    forall t, t ∈ collect_types page -> t <> "null" -> accepts dest t) as Hall.
  { rewrite forallb_forall. unfold accepts, string_eqb. rewrite Hd. cbn [fst]. setoid_rewrite <- list_elem_of_In.
    setoid_rewrite Hpn. setoid_rewrite orb_true_iff. setoid_rewrite orb_true_iff. setoid_rewrite andb_true_iff.
    setoid_rewrite bool_decide_eq_true. naive_solver. }
  unfold nullable. destruct (decide ("null" ∈ collect_types page)) as [Hpn'|Hpn'].
  - rewrite (bool_decide_eq_true_2 ("null" ∈ collect_types page)) by done.
    destruct (decide ("null" ∈ collect_types dest)) as [Hdn|Hdn].
    + rewrite bool_decide_eq_true_2 by done. cbn [andb negb]. rewrite Hall. tauto.
    + rewrite bool_decide_eq_false_2 by done. cbn [andb negb]. split; [done|]. intros [H _]. by apply H in Hpn'.
  - rewrite (bool_decide_eq_false_2 ("null" ∈ collect_types page)) by done. cbn [andb]. rewrite Hall. tauto.
Qed.

(** The type a value is inferred with. *)
Definition type_name (v : Value) : string :=
  match v with
  | Null => "null" | VBool _ => "boolean" | VNumber (Float _) => "number" | VNumber _ => "integer"
  | VString _ => "string" | VArray _ => "array" | VObject _ => "object"
  end.
Lemma collect_infer v : collect_types (infer_value_schema v) = [type_name v].
Proof. by destruct v as [|b|[z|z|f]|str|l|m]. Qed.

Lemma merge_schemas_types a b t :
  t ∈ collect_types (merge_schemas a b) -> t ∈ collect_types a \/ t ∈ collect_types b.
Proof.
  unfold merge_schemas. destruct (depth a) eqn:Hd; [pose proof (depth_pos a); lia|].
  intros Ht%merge_types%elem_of_merged. tauto.
Qed.
Lemma reduce_types (l : list Value) r t :
  reduce merge_schemas l = Some r -> t ∈ collect_types r -> exists s, s ∈ l /\ t ∈ collect_types s.
Proof.
  destruct l as [|x l]; [done|]. intros [= <-]. revert x. induction l as [|y l IH]; intros x Ht; simpl in Ht.
  - exists x. split; [left|done].
  - destruct (IH _ Ht) as (s & Hs & Hts). apply elem_of_cons in Hs as [->|Hs].
    + apply merge_schemas_types in Hts as [?|?]; [exists x|exists y]; (split; [set_solver|done]).
    + exists s. split; [set_solver|done].
Qed.

(** The types of a column come from its values, and null from the rows without. *)
Lemma column_types (objects : list (list (string * Value))) k t :
  t ∈ collect_types (column_schema objects k) ->
  (exists o v, o ∈ objects /\ assoc k o = Some v /\ t = type_name v) \/
  (t = "null" /\ exists o, o ∈ objects /\ assoc k o = None).
Proof.
  unfold column_schema. set (values := omap (assoc k) objects).
  assert (forall t, t ∈ collect_types (default (VObject []) (reduce merge_schemas (infer_value_schema <$> values))) ->
    exists o v, o ∈ objects /\ assoc k o = Some v /\ t = type_name v) as Hv.
  { intros t' Ht. destruct (reduce merge_schemas (infer_value_schema <$> values)) as [r|] eqn:Hr;
      [|by apply not_elem_of_nil in Ht].
    destruct (reduce_types _ _ _ Hr Ht) as (s & Hs & Hts). apply list_elem_of_fmap in Hs as (v & -> & Hv).
    rewrite collect_infer in Hts. apply list_elem_of_singleton in Hts as ->.
    apply list_elem_of_omap in Hv as (o & ? & ?). by exists o, v. }
  destruct (Nat.ltb_spec (length values) (length objects)) as [Hlt|_]; [|intros Ht; left; by apply Hv].
  intros [Ht| ->]%collect_add_null; [left; by apply Hv|]. right. split; [done|]. by apply omap_length_lt.
Qed.

(** A value the destination column takes: numeric text counts as a number. *)
Definition value_ok (dest v : Value) : Prop :=
  match v with
  | Null => nullable dest
  | VString s => accepts dest "string" \/ ("number" ∈ (type_set dest).1 /\ is_numeric_text s = true)
  | _ => accepts dest (type_name v)
  end.

(** What [page_column] does to the types of a column. *)
Lemma page_column_cases dp records name m dest :
  assoc name dp = Some dest ->
  let frag := VObject m in
  (page_column dp records (name, frag) = (name, frag) /\
     ("number" ∈ (type_set dest).1 -> "string" ∈ collect_types frag -> all_numeric name records = false)) \/
  ("number" ∈ (type_set dest).1 /\ all_numeric name records = true /\
     exists frag', page_column dp records (name, frag) = (name, frag') /\
       forall t, t ∈ collect_types frag' <->
         t <> "integer" /\ (t = "number" \/ (t ∈ collect_types frag /\ t <> "string"))).
Proof.
  intros Hd frag. unfold page_column. rewrite Hd. set (dn := (type_set dest).1).
  destruct (type_set frag) as [pn pnull] eqn:Hp.
  assert (forall t, t ∈ pn <-> t ∈ collect_types frag /\ t <> "null") as Hpn
    by (intros t; rewrite <- elem_of_type_set, Hp; done).
  assert (pnull = bool_decide ("null" ∈ collect_types frag)) as -> by (by injection Hp).
  destruct (decide ("number" ∈ dn)) as [Hn|Hn]; [|left; by rewrite bool_decide_eq_false_2].
  destruct (decide ("string" ∈ pn)) as [Hs|Hs].
  2: { left. rewrite (bool_decide_eq_false_2 ("string" ∈ pn)), orb_true_r by done. split; [done|]. naive_solver. }
  rewrite !bool_decide_eq_true_2 by done. cbn [negb orb].
  destruct (all_numeric name records) eqn:Ha; [right|by left]. cbn [negb]. split_and!; [done|done|].
  eexists. split; [done|]. intros t.
  erewrite collect_types_get by apply assoc_insert_eq.
  set (names := (fun t => if string_eqb t "string" then "number" else t) <$> pn).
  assert (forall x, x ∈ names <-> x = "number" \/ (x ∈ pn /\ x <> "string")) as Hnames.
  { intros x. unfold names. rewrite list_elem_of_fmap. unfold string_eqb. split.
    - intros (y & -> & Hy). destruct (decide (y = "string")) as [->|Hne]; [by left|].
      rewrite bool_decide_eq_false_2 by done. by right.
    - intros [->|[Hx Hne]]; [by exists "string"|exists x]. by rewrite bool_decide_eq_false_2. }
  rewrite bool_decide_eq_true_2 by (apply Hnames; by left).
  set (ns := dedup (sort_by id (filter (fun t => t <> "integer") names))).
  assert (forall x, x ∈ ns <-> x <> "integer" /\ x ∈ names) as Hns.
  { intros x. unfold ns. by rewrite elem_of_dedup, elem_of_sort_by, list_elem_of_filter. }
  set (ty := (VString <$> ns) ++ (if bool_decide ("null" ∈ collect_types frag) then [VString "null"] else [])).
  assert (type_list (match ty with [t] => t | _ => VArray ty end) = omap as_str ty) as ->.
  { assert (Forall (fun v => is_Some (as_str v)) ty) as Hty.
    { apply Forall_app. split; [apply Forall_fmap, Forall_true; by eexists|]. case_match; repeat constructor; by eexists. }
    destruct ty as [|y [|z l]]; [done| |done]. inversion Hty as [|? ? [s Hys] _]; subst. by destruct y; simplify_eq/=. }
  unfold ty. rewrite omap_app, omap_as_str, elem_of_app, Hns, Hnames, Hpn.
  destruct (decide ("null" ∈ collect_types frag)) as [Hnull|Hnull].
  - rewrite (bool_decide_eq_true_2 ("null" ∈ _)) by done. simpl. rewrite list_elem_of_singleton.
    destruct (decide (t = "null")) as [->|]; naive_solver.
  - rewrite (bool_decide_eq_false_2 ("null" ∈ _)) by done. simpl. rewrite elem_of_nil.
    destruct (decide (t = "null")) as [->|]; naive_solver.
Qed.

Lemma column_is_object objects k : exists m, column_schema objects k = VObject m.
Proof.
  assert (forall n a b, exists m, merge_fuel n a b = VObject m) as Hmerge.
  { intros [|n] a b; [by eexists|]. cbn [merge_fuel]. case_match; by eexists. }
  assert (forall l, exists m, default (VObject []) (reduce merge_schemas (infer_value_schema <$> l)) = VObject m) as Hred.
  { intros [|v l]; [by eexists|]. simpl. assert (exists m, infer_value_schema v = VObject m) as [m Hm].
    { destruct v as [|b|[z|z|f]|str|l'|m']; by eexists. }
    revert v m Hm. induction l as [|y l IH]; intros v m Hm; simpl; [by exists m|].
    destruct (Hmerge (depth (infer_value_schema v)) (infer_value_schema v) (infer_value_schema y)) as [m' Hm'].
    clear IH. revert m' Hm'. unfold merge_schemas at 2. generalize (merge_fuel (depth (infer_value_schema v))
      (infer_value_schema v) (infer_value_schema y)). clear v m Hm y.
    induction l as [|y l IH]; intros s m ->; simpl; [by exists m|].
    destruct (Hmerge (depth (VObject m)) (VObject m) (infer_value_schema y)) as [m' Hm']. by eapply IH. }
  unfold column_schema. destruct (Hred (omap (assoc k) objects)) as [m ->].
  case_match; [|by eexists]. unfold add_null_type. case_match; by eexists.
Qed.

Lemma page_props destination records :
  props_of (infer_page_schema destination records) =
  page_column (props_of destination) records <$> extract_properties (infer_schema records).
Proof.
  unfold infer_page_schema, props_of. destruct (get destination "properties" ≫= as_object) as [dp|]; [done|].
  simpl. change (default [] (get (infer_schema records) "properties" ≫= as_object)) with
    (extract_properties (infer_schema records)).
  symmetry. transitivity (id <$> extract_properties (infer_schema records)); [|apply list_fmap_id].
  apply list_fmap_ext. intros ? [name f] _. done.
Qed.

(** A column of the page, with its inferred fragment. *)
Lemma page_column_of destination records name f dest :
  (name, f) ∈ props_of (infer_page_schema destination records) -> assoc name (props_of destination) = Some dest ->
  let frag := column_schema (omap as_object records) name in
  (f = frag /\ ("number" ∈ (type_set dest).1 -> "string" ∈ collect_types frag -> all_numeric name records = false)) \/
  ("number" ∈ (type_set dest).1 /\ all_numeric name records = true /\
     forall t, t ∈ collect_types f <->
       t <> "integer" /\ (t = "number" \/ (t ∈ collect_types frag /\ t <> "string"))).
Proof.
  rewrite page_props. intros Hin Hd frag. apply list_elem_of_fmap in Hin as ([name' f'] & Heq & Hin).
  assert (NoDup (extract_properties (infer_schema records)).*1) as Hnd.
  { change (extract_properties (infer_schema records)) with
      ((fun key => (key, column_schema (omap as_object records) key)) <$>
         remove_dups (concat ((fun o => o.*1) <$> omap as_object records))).
    rewrite <- list_fmap_compose. change (NoDup (id <$> remove_dups (concat ((fun o => o.*1) <$> omap as_object records)))).
    rewrite list_fmap_id. apply NoDup_remove_dups. }
  apply assoc_elem, infer_property in Hin as [_ ->]; [|done].
  destruct (column_is_object (omap as_object records) name') as [m Hm].
  assert (name' = name) as -> by (rewrite Hm in Heq; unfold page_column in Heq; repeat case_match; congruence).
  fold frag in Heq, Hm. rewrite Hm in Heq. rewrite Hm.
  destruct (page_column_cases (props_of destination) records name m dest Hd) as [[Hc Hs]|(Hn & Ha & frag' & Hc & Ht)].
  - left. rewrite Hc in Heq. injection Heq as ->. by split.
  - right. rewrite Hc in Heq. injection Heq as ->. by split_and!.
Qed.

Lemma all_numeric_iff name records :
  all_numeric name records = true <->
  forall o s, VObject o ∈ records -> assoc name o = Some (VString s) -> is_numeric_text s = true.
Proof.
  unfold all_numeric. rewrite forallb_forall. setoid_rewrite <- list_elem_of_In. split.
  - intros H o s Ho Hs. apply (H (VString s)). apply list_elem_of_omap. by exists (VObject o).
  - intros H v (r & Hr & Hv)%list_elem_of_omap. destruct v as [| | |s| |]; try done.
    destruct r as [| | | | |o]; try done. by apply (H o s).
Qed.

(** A page whose rows all fit a column, fits it. *)
Lemma rows_fit_page destination records name f dest :
  (name, f) ∈ props_of (infer_page_schema destination records) -> assoc name (props_of destination) = Some dest ->
  (forall o v, VObject o ∈ records -> assoc name o = Some v -> value_ok dest v) ->
  (forall o, VObject o ∈ records -> assoc name o = None -> nullable dest) ->
  fits dest f = true.
Proof.
  intros Hf Hd Hok Habs.
  assert (forall t, t ∈ collect_types (column_schema (omap as_object records) name) ->
    (t = "null" /\ nullable dest) \/ (t <> "null" /\ t <> "string" /\ accepts dest t) \/
    (t = "string" /\ exists o s, VObject o ∈ records /\ assoc name o = Some (VString s))) as Hcol.
  { intros t [(o & v & Ho & Hv & ->)|(-> & o & Ho & Hv)]%column_types; apply elem_of_objects in Ho.
    - specialize (Hok o v Ho Hv).
      destruct v as [|b|[z|z|x]|str|l|m]; cbn [value_ok type_name] in *; [left|right; left..|right; right|right; left|right; left];
        split_and!; try done. by exists o, str.
    - left. split; [done|]. by eapply Habs. }
  apply fits_iff. destruct (page_column_of _ _ _ _ _ Hf Hd) as [[-> Hs]|(Hn & Ha & Ht)].
  - split; [intros Hnull; destruct (Hcol _ Hnull) as [[_ ?]|[[? _]|[? _]]]; done|]. intros t Ht Hne.
    destruct (Hcol t Ht) as [[? _]|[(_ & _ & ?)|(-> & o & s & Ho & Hos)]]; [done|done|].
    destruct (decide (accepts dest "string")) as [?|Hna]; [done|exfalso]. pose proof (Hok _ _ Ho Hos) as [?|[Hnum _]]; [done|].
    specialize (Hs Hnum Ht). apply not_true_iff_false in Hs. apply Hs, all_numeric_iff. intros o' s' Ho' Hs'.
    by destruct (Hok _ _ Ho' Hs') as [?|[_ ?]].
  - split.
    + intros [_ [?|[Hnull _]]]%Ht; [done|]. destruct (Hcol _ Hnull) as [[_ ?]|[[? _]|[? _]]]; done.
    + intros t [_ [->|[Hc Hns]]]%Ht Hne; [by left|]. destruct (Hcol t Hc) as [[? _]|[(_ & _ & ?)|[? _]]]; done.
Qed.

(** A destination that takes numbers takes integers: a sink's extra types list
    [number] together with [integer]. *)
Definition number_takes_integer (dest : Value) : Prop :=
  "number" ∈ also_accepts dest -> accepts dest "integer".

Lemma number_integer dest : number_takes_integer dest -> accepts dest "number" -> accepts dest "integer".
Proof. intros H [Hn|[Hn|[? _]]]; [right; right; by split|by apply H|done]. Qed.

(** A page that fits a column has only rows that fit it. *)
Lemma page_fits_rows destination records name f dest o v :
  (name, f) ∈ props_of (infer_page_schema destination records) -> assoc name (props_of destination) = Some dest ->
  number_takes_integer dest -> fits dest f = true ->
  VObject o ∈ records -> assoc name o = Some v -> value_wf v -> value_ok dest v.
Proof.
  intros Hf Hd Hni [Hnull Hacc]%fits_iff Ho Hv Hwf.
  assert (describes v (column_schema (omap as_object records) name)) as Hdesc
    by (eapply column_describes; [by apply elem_of_objects|done|done]).
  destruct (page_column_of _ _ _ _ _ Hf Hd) as [[-> _]|(Hn & Ha & Ht)].
  - destruct v as [|b|[z|z|x]|str|l|m]; cbn [describes value_ok type_name] in *;
      try (by apply Hacc); try (by apply Hnull); try (left; by apply Hacc); try (apply Hacc; [apply Hdesc|done]);
      (destruct Hdesc as [?|?]; [by apply Hacc|apply number_integer; [done|by apply Hacc]]).
  - assert (forall t, t ∈ collect_types (column_schema (omap as_object records) name) -> t <> "string" -> t <> "null" ->
      accepts dest t) as Hc.
    { intros t Hc Hs Hnn. destruct (decide (t = "integer")) as [->|Hi]; [right; right; by split|].
      apply Hacc; [|done]. apply Ht. split; [done|by right]. }
    destruct v as [|b|[z|z|x]|str|l|m]; cbn [describes value_ok type_name] in *;
      try (by apply Hc); try (apply Hc; [apply Hdesc|done..]);
      try (destruct Hdesc as [?|?]; [by apply Hc|apply number_integer; [done|by apply Hc]]).
    + apply Hnull, Ht. split; [done|by right].
    + right. split; [done|]. by eapply all_numeric_iff.
Qed.

Lemma assoc_single k v : assoc k [(k, v)] = Some v.
Proof. cbn [assoc]. by rewrite decide_True. Qed.

(** [value_fits] is the test of one value. *)
Lemma value_fits_ok dest name v : value_fits dest name v = true -> value_ok dest v.
Proof.
  unfold value_fits. set (destination := VObject _). set (records := [VObject [(name, v)]]).
  destruct (get (infer_page_schema destination records) "properties" ≫= (fun p => get p name)) as [f|] eqn:Hg; [|done].
  intros Hfits. apply fits_iff in Hfits as [Hnull Hacc].
  assert (assoc name (props_of destination) = Some dest) as Hd by apply assoc_single.
  assert ((name, f) ∈ props_of (infer_page_schema destination records)) as Hin.
  { unfold props_of. destruct (get (infer_page_schema destination records) "properties") as [[| | | | |m]|]; try done.
    simpl in Hg |- *. clear -Hg. induction m as [|[k x] m IH]; [done|]. simpl in Hg. case_decide; [simplify_eq; left|].
    right. by apply IH. }
  assert (column_schema (omap as_object records) name = infer_value_schema v) as Hcol.
  { unfold column_schema. change (omap as_object records) with [[(name, v)]].
    rewrite (omap_cons (assoc name)), assoc_single. done. }
  assert (forall t, t ∈ collect_types (column_schema (omap as_object records) name) <-> t = type_name v) as Hty
    by (intros t; by rewrite Hcol, collect_infer, list_elem_of_singleton).
  destruct (page_column_of _ _ _ _ _ Hin Hd) as [[-> _]|(Hn & Ha & Ht)].
  - destruct v as [|b|[z|z|x]|str|l|m]; cbn [value_ok type_name] in *; try (apply Hacc; [by apply Hty|done]);
      [by apply Hnull, Hty|left; apply Hacc; [by apply Hty|done]].
  - destruct v as [|b|[z|z|x]|str|l|m]; cbn [value_ok type_name] in *;
      try (apply Hacc; [apply Ht; split; [done|right; split; [by apply Hty|done]]|done]);
      try (right; right; by split).
    + apply Hnull, Ht. split; [done|]. right. split; [by apply Hty|done].
    + right. split; [done|]. rewrite all_numeric_iff in Ha. apply (Ha [(name, VString str)]); [left|apply assoc_single].
Qed.

(** The columns of a page are the keys of its rows. *)
Lemma page_keys destination records name :
  name ∈ (props_of (infer_page_schema destination records)).*1 <->
  exists o v, VObject o ∈ records /\ assoc name o = Some v.
Proof.
  rewrite page_props.
  assert (forall l, (page_column (props_of destination) records <$> l).*1 = l.*1) as ->.
  { intros l. rewrite <- list_fmap_compose. apply list_fmap_ext. intros ? [k f] _. cbn. unfold page_column.
    repeat case_match; done. }
  rewrite <- assoc_keys. split.
  - intros [f [(o & Ho & v & Hv) _]%infer_property]. by exists o, v.
  - intros (o & v & Ho & Hv). eexists. apply infer_property. split; [|done]. exists o. split; [done|by eexists].
Qed.

Lemma elem_of_fst {A B} k (l : list (A * B)) : k ∈ l.*1 <-> exists v, (k, v) ∈ l.
Proof.
  rewrite list_elem_of_fmap. split; [intros ([k' v] & -> & ?); by exists v|]. intros [v ?]. by exists (k, v).
Qed.

Lemma assoc_in k v m : assoc k m = Some v -> (k, v) ∈ m.
Proof. induction m as [|[k' x] m IH]; [done|]. cbn [assoc]. case_decide; [intros [= ->]; subst; left|right; by apply IH]. Qed.

Lemma type_set_nullable d : (type_set d).2 = true <-> nullable d.
Proof. apply bool_decide_eq_true. Qed.

(** Where the diff puts a column of the page. *)
Lemma classified_in dest page allow col :
  col ∈ props_of page ->
  match classify_column (props_of dest) allow col with
  | Fits => True
  | Added x => x ∈ additions (diff_schema dest page allow)
  | Widened x => x ∈ widenings (diff_schema dest page allow)
  | NotFitting x => x ∈ incompatible_changes (diff_schema dest page allow)
  end.
Proof.
  intros Hc. pose proof (list_elem_of_fmap_2 (classify_column (props_of dest) allow) _ _ Hc) as Hin.
  destruct (classify_column (props_of dest) allow col) as [|x|x|x] eqn:Hcl; [done|..];
    apply elem_of_sort_by, list_elem_of_omap; (eexists; split; [exact Hin|done]).
Qed.
