(* ===== verification/Adaptive.v ===== *)
(** Adaptive batch sizing (crates/core/src/adaptive.rs): the AIMD controller
    that resizes write batches from observed latencies and error rates, its
    configuration check, and the pipeline's batch-size check. *)
From S2P Require Import Prelude Errors Text Float64.
From stdpp Require Import sorting.

Local Open Scope Z_scope.

Definition MAX_BATCH_SIZE : Z := 1000000.

(** pipeline.rs. *)
Definition validate_batch_size (batch_size : Z) : result Z FaucetError :=
  if MAX_BATCH_SIZE <? batch_size then
    Err (Config ("batch_size " +:+ dec batch_size +:+ " exceeds maximum " +:+ dec MAX_BATCH_SIZE
                 +:+ " (use 0 to opt out of batching entirely)"))
  else Ok batch_size.

Record AdaptiveBatchConfig := MkAdaptiveBatchConfig {
  ab_enabled : bool;
  ab_controller : string;
  ab_min : Z;
  ab_max : Z;
  ab_increase_step : Z;
  ab_decrease_factor : f64;
  ab_cooldown_batches : Z;
  ab_target_latency_ms : option Z;
  ab_latency_window : Z;
  ab_error_threshold : f64;
  ab_respect_source_max : bool;
  ab_log_every : Z;
}.

Definition adaptive_default : AdaptiveBatchConfig :=
  MkAdaptiveBatchConfig false "aimd" 100 50000 250 f64_half 5 None 10 (f64_ratio 1 100) true 50.

Definition validate (c : AdaptiveBatchConfig) : result unit FaucetError :=
  if negb (string_eqb (ab_controller c) "aimd") then
    Err (Config ("adaptive_batch_size.controller '" +:+ ab_controller c
                 +:+ "' is not supported (only 'aimd')"))
  else if ab_min c <? 1 then Err (Config "adaptive_batch_size.min must be >= 1")
  else if ab_max c <? ab_min c then
    Err (Config ("adaptive_batch_size.min (" +:+ dec (ab_min c) +:+ ") must be <= max ("
                 +:+ dec (ab_max c) +:+ ")"))
  else if MAX_BATCH_SIZE <? ab_max c then
    Err (Config ("adaptive_batch_size.max (" +:+ dec (ab_max c) +:+ ") must be <= "
                 +:+ dec MAX_BATCH_SIZE +:+ " (MAX_BATCH_SIZE)"))
  else if MAX_BATCH_SIZE <? ab_increase_step c then
    Err (Config ("adaptive_batch_size.increase_step (" +:+ dec (ab_increase_step c)
                 +:+ ") must be <= " +:+ dec MAX_BATCH_SIZE +:+ " (MAX_BATCH_SIZE)"))
  else if negb (f64_lt f64_zero (ab_decrease_factor c) && f64_lt (ab_decrease_factor c) f64_one) then
    Err (Config "adaptive_batch_size.decrease_factor must be in (0, 1)")
  else if ab_increase_step c <? 1 then
    Err (Config "adaptive_batch_size.increase_step must be >= 1")
  else if negb (f64_le f64_zero (ab_error_threshold c) && f64_le (ab_error_threshold c) f64_one) then
    Err (Config "adaptive_batch_size.error_threshold must be in [0, 1]")
  else if ab_latency_window c <? 1 then
    Err (Config "adaptive_batch_size.latency_window must be >= 1")
  else if match ab_target_latency_ms c with Some t => t =? 0 | None => false end then
    Err (Config "adaptive_batch_size.target_latency_ms must be > 0 when set")
  else if negb (ab_respect_source_max c) then
    Err (Config "adaptive_batch_size.respect_source_max=false is not supported (cross-page buffering would violate the O(batch_size) memory guarantee); remove the field or set it to true")
  else Ok tt.

Inductive AdjustDirection := Up | Down.
Inductive AdjustReason := Success | ErrorRate | Latency.

Record Observation := MkObservation { obs_batch_len : Z; obs_errors : Z; obs_latency : Z }.
Record Adjustment := MkAdjustment {
  adj_new_size : Z; adj_direction : AdjustDirection; adj_reason : AdjustReason }.

(** [struct AimdController]: the configuration it copies, then what changes. *)
Record AimdController := MkAimd {
  am_min : Z;
  am_max : Z;
  am_increase_step : Z;
  am_decrease_factor : f64;
  am_cooldown_batches : Z;
  am_target_latency_ms : option Z;
  am_latency_window : Z;
  am_error_threshold : f64;
  am_log_every : Z;
  current : Z;
  cooldown : Z;
  latencies : list Z;
  floor_warned : bool;
  adjustments : Z;
}.

(** The mutable half of a controller, replaced in one go. *)
Definition with_state (a : AimdController) (cur cool : Z) (lat : list Z) (warned : bool) (adj : Z) :
    AimdController :=
  MkAimd (am_min a) (am_max a) (am_increase_step a) (am_decrease_factor a) (am_cooldown_batches a)
    (am_target_latency_ms a) (am_latency_window a) (am_error_threshold a) (am_log_every a)
    cur cool lat warned adj.

(** [usize::clamp]. *)
Definition clamp (x lo hi : Z) : Z := if x <? lo then lo else if hi <? x then hi else x.

Definition aimd_new (c : AdaptiveBatchConfig) (initial : Z) : AimdController :=
  MkAimd (ab_min c) (ab_max c) (ab_increase_step c) (ab_decrease_factor c) (ab_cooldown_batches c)
    (ab_target_latency_ms c) (Z.max (ab_latency_window c) 1) (ab_error_threshold c) (ab_log_every c)
    (clamp initial (ab_min c) (ab_max c)) 0 [] false 0.

(** [sort_unstable] on integers: every sort gives the same list. *)
Definition p50_latency_ms (lat : list Z) : option Z :=
  match lat with
  | [] => None
  | _ => merge_sort Z.le lat !! (length lat / 2)%nat
  end.

(** [pop_front] while longer than the window. *)
Definition trim_window (w : Z) (lat : list Z) : list Z :=
  drop (Z.to_nat (zlen lat - w)) lat.

Definition shrink (a : AimdController) (reason : AdjustReason) : AimdController * option Adjustment :=
  let new := Z.max (f64_to_u64 (f64_mul (f64_of_Z (current a)) (am_decrease_factor a))) (am_min a) in
  if new =? current a then
    let warned := match reason with ErrorRate => (current a =? am_min a) || floor_warned a
                  | _ => floor_warned a end in
    (with_state a (current a) (am_cooldown_batches a) (latencies a) warned (adjustments a), None)
  else
    (with_state a new (am_cooldown_batches a) [] (floor_warned a) (wadd64 (adjustments a) 1),
     Some (MkAdjustment new Down reason)).

Definition grow (a : AimdController) (reason : AdjustReason) : AimdController * option Adjustment :=
  let new := Z.min (sadd64 (current a) (am_increase_step a)) (am_max a) in
  if new =? current a then (a, None)
  else
    (with_state a new (cooldown a) [] (floor_warned a) (wadd64 (adjustments a) 1),
     Some (MkAdjustment new Up reason)).

Definition observe (a : AimdController) (obs : Observation) : AimdController * option Adjustment :=
  if (0 <? obs_batch_len obs) &&
     f64_lt (am_error_threshold a) (f64_div (f64_of_Z (obs_errors obs)) (f64_of_Z (obs_batch_len obs)))
  then shrink a ErrorRate
  else if 0 <? cooldown a then
    (with_state a (current a) (cooldown a - 1) (latencies a) (floor_warned a) (adjustments a), None)
  else match am_target_latency_ms a with
  | Some target =>
      let lat := trim_window (am_latency_window a) (latencies a ++ [dur_millis64 (obs_latency obs)]) in
      let a := with_state a (current a) (cooldown a) lat (floor_warned a) (adjustments a) in
      let p50 := f64_of_Z (default 0 (p50_latency_ms lat)) in
      let t := f64_of_Z target in
      if f64_lt (f64_mul t (f64_ratio 12 10)) p50 then shrink a Latency
      else if f64_lt p50 (f64_mul t f64_half) then grow a Latency
      else (a, None)
  | None => grow a Success
  end.

(** A controller fed a sequence of observations. *)
Fixpoint observe_all (a : AimdController) (os : list Observation) : AimdController :=
  match os with
  | [] => a
  | o :: os => observe_all (observe a o).1 os
  end.

(** The invariant of a controller built from a checked configuration. *)
Definition aimd_inv (a : AimdController) : Prop :=
  1 <= am_min a <= am_max a /\ am_max a <= MAX_BATCH_SIZE /\
  1 <= am_increase_step a <= MAX_BATCH_SIZE /\
  f64_valid (am_decrease_factor a) = true /\
  f64_lt f64_zero (am_decrease_factor a) = true /\ f64_lt (am_decrease_factor a) f64_one = true /\
  1 <= am_latency_window a /\ 0 <= am_cooldown_batches a /\
  am_min a <= current a <= am_max a /\
  0 <= cooldown a <= am_cooldown_batches a /\
  zlen (latencies a) <= am_latency_window a.

(** What one observation may do to the size. *)
Definition adjustment_ok (a a' : AimdController) (adj : option Adjustment) : Prop :=
  match adj with
  | None => current a' = current a
  | Some j =>
      adj_new_size j = current a' /\ latencies a' = [] /\
      match adj_direction j with
      | Up => current a < current a' <= current a + am_increase_step a /\ cooldown a = 0 /\
              adj_reason j <> ErrorRate
      | Down => current a' < current a /\ cooldown a' = am_cooldown_batches a /\
                adj_reason j <> Success
      end
  end.

(** ** Facts *)

Lemma clamp_range x lo hi : lo <= hi -> lo <= clamp x lo hi <= hi.
Proof. intros. unfold clamp. repeat case_match; reflect_bools; lia. Qed.

Lemma trim_window_length w lat : 0 <= w -> zlen (trim_window w lat) <= w.
Proof. intros. unfold trim_window, zlen. rewrite length_drop. lia. Qed.

Lemma validate_ok c :
  validate c = Ok tt ->
  1 <= ab_min c <= ab_max c /\ ab_max c <= MAX_BATCH_SIZE /\
  1 <= ab_increase_step c <= MAX_BATCH_SIZE /\
  f64_lt f64_zero (ab_decrease_factor c) = true /\ f64_lt (ab_decrease_factor c) f64_one = true /\
  1 <= ab_latency_window c.
Proof. unfold validate. intros. repeat (case_match; [done|]). reflect_bools. repeat split; (lia || done). Qed.

Lemma aimd_new_inv c initial :
  validate c = Ok tt -> f64_valid (ab_decrease_factor c) = true -> 0 <= ab_cooldown_batches c ->
  aimd_inv (aimd_new c initial).
Proof.
  intros Hv Hf Hc. apply validate_ok in Hv as (? & ? & ? & ? & ? & ?).
  pose proof (clamp_range initial (ab_min c) (ab_max c) ltac:(lia)).
  unfold aimd_inv; simpl. unfold zlen; simpl length. repeat split; (done || lia).
Qed.

(** The factor keeps the size from growing. *)
Lemma shrink_spec a r :
  aimd_inv a -> r <> Success ->
  aimd_inv (shrink a r).1 /\ adjustment_ok a (shrink a r).1 (shrink a r).2.
Proof.
  intros (? & ? & ? & ? & ? & ? & ? & ? & ? & ? & ?) Hr. unfold shrink.
  pose proof (f64_scale_le (current a) (am_decrease_factor a)) as Hs.
  change (2 ^ PREC) with 9007199254740992 in Hs. unfold MAX_BATCH_SIZE in *.
  specialize (Hs ltac:(lia) ltac:(done) ltac:(done) ltac:(done)).
  set (x := f64_to_u64 _) in *. clearbody x.
  case_match; reflect_bools; simpl; unfold aimd_inv, adjustment_ok, MAX_BATCH_SIZE; simpl;
    unfold zlen in *; simpl length; repeat split; (done || lia).
Qed.

Lemma grow_spec a r :
  aimd_inv a -> cooldown a = 0 -> r <> ErrorRate ->
  aimd_inv (grow a r).1 /\ adjustment_ok a (grow a r).1 (grow a r).2.
Proof.
  intros (? & ? & ? & ? & ? & ? & ? & ? & ? & ? & ?) Hc Hr. unfold grow, sadd64, U64_MAX, MAX_BATCH_SIZE in *.
  case_match; reflect_bools; simpl; unfold aimd_inv, adjustment_ok, MAX_BATCH_SIZE; simpl;
    unfold zlen in *; simpl length; repeat split; (done || lia).
Qed.

Lemma observe_spec a o :
  aimd_inv a -> aimd_inv (observe a o).1 /\ adjustment_ok a (observe a o).1 (observe a o).2.
Proof.
  intros Hi. unfold observe. case_match; [by apply shrink_spec|].
  pose proof Hi as (? & ? & ? & ? & ? & ? & ? & ? & ? & ? & ?).
  case_match; reflect_bools; [unfold aimd_inv; simpl; repeat split; (done || lia)|].
  case_match; [|apply grow_spec; (done || lia)].
  pose proof (trim_window_length (am_latency_window a)
    (latencies a ++ [dur_millis64 (obs_latency o)]) ltac:(lia)).
  set (lat := trim_window _ _) in *. clearbody lat.
  set (b := with_state a (current a) (cooldown a) lat (floor_warned a) (adjustments a)).
  assert (aimd_inv b) by (unfold aimd_inv, b; simpl; repeat split; (done || lia)).
  assert (forall b' adj, adjustment_ok b b' adj -> adjustment_ok a b' adj) as Hab by done.
  case_match; [destruct (shrink_spec b Latency); auto|].
  case_match; [assert (cooldown b = 0) by (simpl; lia); destruct (grow_spec b Latency); auto|].
  by split.
Qed.

Lemma observe_all_inv a os : aimd_inv a -> aimd_inv (observe_all a os).
Proof. revert a. induction os; simpl; intros; [done|]. apply IHos. by apply observe_spec. Qed.

Lemma observe_config a o :
  am_min (observe a o).1 = am_min a /\ am_max (observe a o).1 = am_max a /\
  am_cooldown_batches (observe a o).1 = am_cooldown_batches a /\
  am_error_threshold (observe a o).1 = am_error_threshold a.
Proof. unfold observe, shrink, grow. repeat case_match; simplify_eq/=; done. Qed.

Lemma observe_all_config a os :
  am_min (observe_all a os) = am_min a /\ am_max (observe_all a os) = am_max a.
Proof.
  revert a. induction os as [|o os IH]; simpl; intros; [done|].
  destruct (IH (observe a o).1) as [-> ->]. destruct (observe_config a o) as (-> & -> & _). done.
Qed.

(** ** Properties *)

(** C39: under any sequence of observations, a controller built from a
    configuration that passes [validate] keeps its batch size within the
    configured [min..max]; every single observation changes the size only as
    AIMD allows: a growth adds at most one step and only outside a cooldown, a
    shrink strictly decreases the size and starts a full cooldown, and the
    reported new size is the size in force. *)
Theorem aimd_size_in_bounds c initial os o :
  validate c = Ok tt -> f64_valid (ab_decrease_factor c) = true -> 0 <= ab_cooldown_batches c ->
  let a := observe_all (aimd_new c initial) os in
  ab_min c <= current a <= ab_max c /\
  adjustment_ok a (observe a o).1 (observe a o).2.
Proof.
  intros Hv Hf Hc a. pose proof (aimd_new_inv c initial Hv Hf Hc) as Hi.
  apply (observe_all_inv _ os) in Hi. fold a in Hi.
  split; [|by apply observe_spec].
  destruct (observe_all_config (aimd_new c initial) os) as [H1 H2].
  fold a in H1, H2. simpl in H1, H2.
  destruct Hi as (_ & _ & _ & _ & _ & _ & _ & _ & Hb & _). by rewrite H1, H2 in Hb.
Qed.

Lemma aimd_size_in_bounds_witness :
  let a := observe_all (aimd_new adaptive_default 4000)
             [MkObservation 4000 4000 5; MkObservation 2000 0 5] in
  ab_min adaptive_default <= current a <= ab_max adaptive_default /\
  adjustment_ok a (observe a (MkObservation 2000 2000 5)).1 (observe a (MkObservation 2000 2000 5)).2.
Proof. apply (aimd_size_in_bounds adaptive_default 4000); vm_compute; done. Defined.

Lemma cooldown_counts_down a os :
  aimd_inv a -> zlen os <= cooldown a ->
  Forall (fun o => f64_lt (am_error_threshold a)
    (f64_div (f64_of_Z (obs_errors o)) (f64_of_Z (obs_batch_len o))) = false) os ->
  current (observe_all a os) = current a /\ cooldown (observe_all a os) = cooldown a - zlen os.
Proof.
  revert a. induction os as [|o os IH]; intros a Hi Hl Hos; simpl; [rewrite zlen_nil; lia|].
  apply Forall_cons in Hos as [Ho Hos]. rewrite zlen_cons in *. pose proof (zlen_nonneg os).
  pose proof (observe_spec a o Hi) as [Hi' _].
  assert (observe a o = (with_state a (current a) (cooldown a - 1) (latencies a) (floor_warned a)
                           (adjustments a), None)) as He.
  { unfold observe. rewrite Ho, andb_false_r. by rewrite (proj2 (Z.ltb_lt _ _)) by lia. }
  rewrite He in *. simpl in *. destruct (IH _ Hi') as [-> ->]; simpl; [lia|done|]. simpl. lia.
Qed.

(** A shrink caused by errors is followed by a full cooldown: the next
    [cooldown_batches] clean writes leave the size where the shrink put it,
    whatever their latencies. *)
Theorem aimd_cooldown_holds a o os :
  aimd_inv a ->
  0 < obs_batch_len o ->
  f64_lt (am_error_threshold a)
    (f64_div (f64_of_Z (obs_errors o)) (f64_of_Z (obs_batch_len o))) = true ->
  zlen os <= am_cooldown_batches a ->
  Forall (fun o => f64_lt (am_error_threshold a)
    (f64_div (f64_of_Z (obs_errors o)) (f64_of_Z (obs_batch_len o))) = false) os ->
  current (observe_all (observe a o).1 os) = current (observe a o).1 /\
  current (observe a o).1 <= current a.
Proof.
  intros Hi Hb He Hl Hos.
  pose proof (observe_spec a o Hi) as [Hi' Ha].
  assert (observe a o = shrink a ErrorRate) as Hs
    by (unfold observe; by rewrite He, (proj2 (Z.ltb_lt _ _) Hb)).
  assert (cooldown (observe a o).1 = am_cooldown_batches a) as Hcd
    by (rewrite Hs; unfold shrink; by case_match).
  split; [apply cooldown_counts_down; [done|lia|]|].
  - by destruct (observe_config a o) as (_ & _ & _ & ->).
  - unfold adjustment_ok in Ha. case_match; [|lia]. destruct Ha as (_ & _ & Ha).
    case_match; [|lia]. rewrite Hs in *. unfold shrink in *. case_match; simplify_eq/=.
Qed.

Lemma aimd_cooldown_holds_witness :
  let a := aimd_new adaptive_default 4000 in
  current (observe_all (observe a (MkObservation 4000 4000 5)).1
             [MkObservation 100 0 9; MkObservation 100 0 9]) = 2000.
Proof.
  destruct (aimd_cooldown_holds (aimd_new adaptive_default 4000) (MkObservation 4000 4000 5)
    [MkObservation 100 0 9; MkObservation 100 0 9]) as [H _].
  - apply aimd_new_inv; vm_compute; done.
  - done.
  - vm_compute. done.
  - vm_compute. done.
  - repeat constructor; vm_compute; done.
  - cbv zeta. rewrite H. vm_compute. done.
Defined.
