(* ===== verification/Quality.v ===== *)
(** Data-quality checks (crates/core/src/quality/{config,compile,record,batch,
    mod}.rs): compiling a spec, evaluating per-record and per-batch checks, and
    the per-page pass that splits a page into survivors and quarantined rows.

    Regular expressions, JSON Schema validation and the printing of JSON and of
    floats are library code and are parameters, as are the field-path language
    (its compiler and its resolver), the canonical JSON key and the exact
    decimal comparison, which other modules of the crate define. Per-check
    counters and timings only feed metrics and are left out. *)
From S2P Require Import Prelude Errors Float64 Json Text.

Local Open Scope Z_scope.
Local Open Scope result_scope.

(** ** config.rs *)

Inductive OnFailure := Quarantine | QuarantineBatch | Abort_.
Inductive CompareOp := Gt_ | Gte | Lt_ | Lte | Eq_ | Ne.
Inductive JsonType := TBoolean | TNumber | TString | TArray | TObject | TNull.

#[export] Instance OnFailure_eq_dec : EqDecision OnFailure.
Proof. solve_decision. Defined.

Definition op_str (op : CompareOp) : string :=
  match op with
  | Gt_ => "gt" | Gte => "gte" | Lt_ => "lt" | Lte => "lte" | Eq_ => "eq" | Ne => "ne"
  end.

Definition type_str (t : JsonType) : string :=
  match t with
  | TBoolean => "boolean" | TNumber => "number" | TString => "string" | TArray => "array"
  | TObject => "object" | TNull => "null"
  end.

Inductive RecordCheck :=
| RNotNull (field : string) (treat_missing_as_null : bool) (on_failure : OnFailure)
| RNotEmpty (field : string) (on_failure : OnFailure)
| RRegexMatch (field pattern : string) (on_failure : OnFailure)
| RValueInSet (field : string) (values : list Value) (on_failure : OnFailure)
| RNotInSet (field : string) (values : list Value) (on_failure : OnFailure)
| RCompare (field : string) (op : CompareOp) (value : Value) (on_failure : OnFailure)
| RTypeIs (field : string) (expected : JsonType) (on_failure : OnFailure)
| RStringLength (field : string) (min max : option Z) (on_failure : OnFailure)
| RJsonSchema (schema : Value) (on_failure : OnFailure).

Inductive BatchCheck :=
| BRowCount (min max : option Z) (on_failure : OnFailure)
| BNullRate (field : string) (max : f64) (on_failure : OnFailure)
| BUnique (fields : list string) (on_failure : OnFailure)
| BDistinctCount (field : string) (min max : option Z) (on_failure : OnFailure).

Record QualitySpec := MkQualitySpec { qs_record : list RecordCheck; qs_batch : list BatchCheck }.

(** ** Numbers and equality of JSON values *)

(** [Number::as_i64], [as_u64], [as_f64]. *)
Definition num_i64 (n : Number) : option Z := as_i64 (VNumber n).
Definition num_u64 (n : Number) : option Z := as_u64 (VNumber n).
Definition num_f64 (n : Number) : f64 :=
  match n with
  | PosInt n => f64_of_Z n
  | NegInt n => f64_of_Z n
  | Float f => f
  end.

(** [Number::eq]. *)
Definition number_eq (a b : Number) : bool :=
  match a, b with
  | PosInt x, PosInt y => x =? y
  | NegInt x, NegInt y => x =? y
  | Float x, Float y => SpecFloat.SFeqb x y
  | _, _ => false
  end.

(** [Value::eq]: objects compare as maps, whatever their entry order. *)
Fixpoint json_eq (a b : Value) {struct a} : bool :=
  match a, b with
  | Null, Null => true
  | VBool x, VBool y => Bool.eqb x y
  | VNumber x, VNumber y => number_eq x y
  | VString x, VString y => string_eqb x y
  | VArray xs, VArray ys =>
      (fix go xs ys := match xs, ys with
                       | [], [] => true
                       | x :: xs, y :: ys => json_eq x y && go xs ys
                       | _, _ => false
                       end) xs ys
  | VObject xs, VObject ys =>
      (length xs =? length ys)%nat &&
      (fix go xs := match xs with
                    | [] => true
                    | (k, x) :: xs =>
                        match assoc k ys with Some y => json_eq x y | None => false end && go xs
                    end) xs
  | _, _ => false
  end.

(** ** record.rs *)

Definition cmp_numbers (a b : Number) : option comparison :=
  match num_i64 a, num_i64 b with
  | Some x, Some y => Some (x ?= y)
  | _, _ =>
      match num_u64 a, num_u64 b with
      | Some x, Some y => Some (x ?= y)
      | _, _ =>
          if bool_decide (is_Some (num_i64 a)) && bool_decide (is_Some (num_u64 b)) then Some Lt
          else if bool_decide (is_Some (num_u64 a)) && bool_decide (is_Some (num_i64 b)) then Some Gt
          else SpecFloat.SFcompare (num_f64 a) (num_f64 b)
      end
  end.

Definition values_equal (a b : Value) : bool :=
  match a, b with
  | VNumber x, VNumber y => bool_decide (cmp_numbers x y = Some Eq)
  | _, _ => json_eq a b
  end.

(** The linear scan the index stands for. *)
Definition set_contains (values : list Value) (v : Value) : bool :=
  existsb (fun c => values_equal c v) values.

(** [number_bucket]: the double's bits, both zeros in one bucket. *)
Definition number_bucket (n : Number) : f64 :=
  match num_f64 n with
  | SpecFloat.S754_zero _ => f64_zero
  | f => f
  end.

Record ValueSetIndex := MkIndex {
  ix_strings : list string;
  ix_numbers : list (f64 * Number);
  ix_rest : list Value;
}.

(** [ValueSetIndex::new]: the hash set of strings and the buckets, as lists. *)
Definition index_add (ix : ValueSetIndex) (v : Value) : ValueSetIndex :=
  match v with
  | VString s => MkIndex (ix_strings ix ++ [s]) (ix_numbers ix) (ix_rest ix)
  | VNumber n => MkIndex (ix_strings ix) (ix_numbers ix ++ [(number_bucket n, n)]) (ix_rest ix)
  | other => MkIndex (ix_strings ix) (ix_numbers ix) (ix_rest ix ++ [other])
  end.
Definition index_new (values : list Value) : ValueSetIndex :=
  fold_left index_add values (MkIndex [] [] []).

(** [ValueSetIndex::contains]. *)
Definition index_contains (ix : ValueSetIndex) (v : Value) : bool :=
  match v with
  | VString s => existsb (string_eqb s) (ix_strings ix)
  | VNumber n =>
      existsb (fun e => bool_decide (e.1 = number_bucket n) &&
                        bool_decide (cmp_numbers e.2 n = Some Eq)) (ix_numbers ix)
      || existsb (fun c => values_equal c v) (ix_rest ix)
  | other => existsb (fun c => values_equal c other) (ix_rest ix)
  end.

(** [s.chars().count()] on UTF-8 bytes: every byte but continuation bytes. *)
Fixpoint char_count (s : string) : Z :=
  match s with
  | EmptyString => 0
  | String c s => (if Z.land (byte_of c) 192 =? 128 then 0 else 1) + char_count s
  end.

Definition json_type_matches (v : Value) (t : JsonType) : bool :=
  match v, t with
  | VBool _, TBoolean | VNumber _, TNumber | VString _, TString
  | VArray _, TArray | VObject _, TObject | Null, TNull => true
  | _, _ => false
  end.

Section Quality.
Context {Path Regex Validator : Type}.
Context (path_compile : string -> result Path string) (resolve : Path -> Value -> option Value).
Context (regex_new : string -> result Regex string) (is_match : Regex -> string -> bool).
Context (validator_for : Value -> result Validator string).
Context (schema_check : Validator -> Value -> result unit string).
Context (to_json : Value -> string) (fmt_rate : f64 -> string) (fmt_f64 : f64 -> string).
Context (canonical_json : Value -> string) (decimal_cmp : Value -> Value -> option comparison).

(** ** compile.rs *)

Inductive CompiledRecordKind :=
| KNotNull (path : Path) (treat_missing_as_null : bool)
| KNotEmpty (path : Path)
| KRegexMatch (path : Path) (re : Regex)
| KValueInSet (path : Path) (values : list Value) (index : ValueSetIndex)
| KNotInSet (path : Path) (values : list Value) (index : ValueSetIndex)
| KCompare (path : Path) (op : CompareOp) (value : Value)
| KTypeIs (path : Path) (expected : JsonType)
| KStringLength (path : Path) (min max : option Z)
| KJsonSchema (validator : Validator).

Inductive CompiledBatchKind :=
| KRowCount (min max : option Z)
| KNullRate (path : Path) (max : f64)
| KUnique (paths : list Path)
| KDistinctCount (path : Path) (min max : option Z).

Record CompiledRecordCheck := MkRecordCheck {
  rc_kind : CompiledRecordKind;
  rc_on_failure : OnFailure;
  rc_name : string;
  rc_field : option string;
}.
Record CompiledBatchCheck := MkBatchCheck {
  bc_kind : CompiledBatchKind;
  bc_on_failure : OnFailure;
  bc_name : string;
  bc_field : option string;
}.
Record CompiledQuality := MkQuality {
  cq_record : list CompiledRecordCheck;
  cq_batch : list CompiledBatchCheck;
}.

Definition config_err (msg : string) : FaucetError := Config ("quality: " +:+ msg).

Definition compile_path (field : string) : result Path FaucetError :=
  match path_compile field with
  | Ok p => Ok p
  | Err e => Err (config_err ("invalid field '" +:+ field +:+ "': " +:+ e))
  end.

Definition check_record_policy (name : string) (f : OnFailure) : result unit FaucetError :=
  match f with
  | Quarantine | Abort_ => Ok tt
  | QuarantineBatch => Err (config_err ("check '" +:+ name
      +:+ "': on_failure 'quarantine_batch' is only valid on aggregate batch checks"))
  end.

Definition check_aggregate_policy (name : string) (f : OnFailure) : result unit FaucetError :=
  match f with
  | Abort_ | QuarantineBatch => Ok tt
  | Quarantine => Err (config_err ("check '" +:+ name
      +:+ "': on_failure 'quarantine' is not row-attributable here; use 'quarantine_batch' or 'abort'"))
  end.

Definition ordering_op (op : CompareOp) : bool :=
  match op with Gt_ | Gte | Lt_ | Lte => true | _ => false end.
Definition is_number (v : Value) : bool := match v with VNumber _ => true | _ => false end.

(** The [min]/[max] checks three kinds share. *)
Definition check_bounds (name : string) (min max : option Z) : result unit FaucetError :=
  match min, max with
  | None, None => Err (config_err (name +:+ ": at least one of `min`/`max` is required"))
  | Some lo, Some hi =>
      if hi <? lo then Err (config_err (name +:+ ": `min` must be <= `max`")) else Ok tt
  | _, _ => Ok tt
  end.

Definition nonempty_values (name : string) (values : list Value) : result unit FaucetError :=
  match values with
  | [] => Err (config_err (name +:+ ": `values` must be non-empty"))
  | _ => Ok tt
  end.

Definition compile_record_check (c : RecordCheck) : result CompiledRecordCheck FaucetError :=
  match c with
  | RNotNull field t f =>
      let? _ := check_record_policy "not_null" f in
      let? p := compile_path field in
      Ok (MkRecordCheck (KNotNull p t) f "not_null" (Some field))
  | RNotEmpty field f =>
      let? _ := check_record_policy "not_empty" f in
      let? p := compile_path field in
      Ok (MkRecordCheck (KNotEmpty p) f "not_empty" (Some field))
  | RRegexMatch field pattern f =>
      let? _ := check_record_policy "regex_match" f in
      let? re := match regex_new pattern with
                 | Ok re => Ok re
                 | Err e => Err (config_err ("regex_match: invalid pattern '" +:+ pattern
                                             +:+ "': " +:+ e))
                 end in
      let? p := compile_path field in
      Ok (MkRecordCheck (KRegexMatch p re) f "regex_match" (Some field))
  | RValueInSet field values f =>
      let? _ := check_record_policy "value_in_set" f in
      let? _ := nonempty_values "value_in_set" values in
      let? p := compile_path field in
      Ok (MkRecordCheck (KValueInSet p values (index_new values)) f "value_in_set" (Some field))
  | RNotInSet field values f =>
      let? _ := check_record_policy "not_in_set" f in
      let? _ := nonempty_values "not_in_set" values in
      let? p := compile_path field in
      Ok (MkRecordCheck (KNotInSet p values (index_new values)) f "not_in_set" (Some field))
  | RCompare field op value f =>
      let? _ := check_record_policy "compare" f in
      if ordering_op op && negb (is_number value) then
        Err (config_err ("compare: op '" +:+ op_str op +:+ "' requires a numeric `value`"))
      else
        let? p := compile_path field in
        Ok (MkRecordCheck (KCompare p op value) f "compare" (Some field))
  | RTypeIs field expected f =>
      let? _ := check_record_policy "type_is" f in
      let? p := compile_path field in
      Ok (MkRecordCheck (KTypeIs p expected) f "type_is" (Some field))
  | RStringLength field min max f =>
      let? _ := check_record_policy "string_length" f in
      let? _ := check_bounds "string_length" min max in
      let? p := compile_path field in
      Ok (MkRecordCheck (KStringLength p min max) f "string_length" (Some field))
  | RJsonSchema schema f =>
      let? _ := check_record_policy "json_schema" f in
      let? v := match validator_for schema with
                | Ok v => Ok v
                | Err e => Err (config_err ("json_schema: invalid schema: " +:+ e))
                end in
      Ok (MkRecordCheck (KJsonSchema v) f "json_schema" None)
  end.

(** Collecting an iterator of [Result]s: the first error wins. *)
Fixpoint collect {A B} (f : A -> result B FaucetError) (l : list A) : result (list B) FaucetError :=
  match l with
  | [] => Ok []
  | x :: l => let? y := f x in let? ys := collect f l in Ok (y :: ys)
  end.

Definition compile_batch_check (c : BatchCheck) : result CompiledBatchCheck FaucetError :=
  match c with
  | BRowCount min max f =>
      let? _ := check_aggregate_policy "row_count" f in
      let? _ := check_bounds "row_count" min max in
      Ok (MkBatchCheck (KRowCount min max) f "row_count" None)
  | BNullRate field max f =>
      let? _ := check_aggregate_policy "null_rate" f in
      if negb (f64_le f64_zero max && f64_le max f64_one) then
        Err (config_err "null_rate: `max` must be within [0.0, 1.0]")
      else
        let? p := compile_path field in
        Ok (MkBatchCheck (KNullRate p max) f "null_rate" (Some field))
  | BUnique fields f =>
      let? _ := check_record_policy "unique" f in
      match fields with
      | [] => Err (config_err "unique: `fields` must be non-empty")
      | _ =>
          let? ps := collect compile_path fields in
          Ok (MkBatchCheck (KUnique ps) f "unique" (Some (join "," fields)))
      end
  | BDistinctCount field min max f =>
      let? _ := check_aggregate_policy "distinct_count" f in
      let? _ := check_bounds "distinct_count" min max in
      let? p := compile_path field in
      Ok (MkBatchCheck (KDistinctCount p min max) f "distinct_count" (Some field))
  end.

(** [CompiledQuality::compile]. *)
Definition quality_compile (s : QualitySpec) : result CompiledQuality FaucetError :=
  let? r := collect compile_record_check (qs_record s) in
  let? b := collect compile_batch_check (qs_batch s) in
  Ok (MkQuality r b).

(** [CompiledQuality::requires_dlq]. *)
Definition quality_requires_dlq (q : CompiledQuality) : bool :=
  existsb (fun c => bool_decide (rc_on_failure c = Quarantine)) (cq_record q)
  || existsb (fun c => bool_decide (bc_on_failure c = Quarantine) ||
                       bool_decide (bc_on_failure c = QuarantineBatch)) (cq_batch q).

(** ** record.rs: evaluation *)

Definition evaluate_compare (op : CompareOp) (actual expected : Value) : result unit string :=
  match op with
  | Eq_ => if values_equal actual expected then Ok tt else Err "values were not equal"
  | Ne => if negb (values_equal actual expected) then Ok tt else Err "values were equal"
  | _ =>
      let ord := match actual, expected with
                 | VNumber a, VNumber b => cmp_numbers a b
                 | _, _ => decimal_cmp actual expected
                 end in
      match ord with
      | None => Err "value was not numeric"
      | Some o =>
          if match op, o with
             | Gt_, Gt => true
             | Gte, (Gt | Eq) => true
             | Lt_, Lt => true
             | Lte, (Lt | Eq) => true
             | _, _ => false
             end
          then Ok tt
          else Err ("comparison " +:+ op_str op +:+ " " +:+ to_json expected +:+ " failed")
      end
  end.

(** [min]/[max] on a count, with the two messages. *)
Definition within (what : string) (n : Z) (min max : option Z) : result unit string :=
  match min with
  | Some lo =>
      if n <? lo then Err (what +:+ " " +:+ dec n +:+ " < min " +:+ dec lo)
      else match max with
           | Some hi => if hi <? n then Err (what +:+ " " +:+ dec n +:+ " > max " +:+ dec hi) else Ok tt
           | None => Ok tt
           end
  | None =>
      match max with
      | Some hi => if hi <? n then Err (what +:+ " " +:+ dec n +:+ " > max " +:+ dec hi) else Ok tt
      | None => Ok tt
      end
  end.

Definition evaluate_record_check (c : CompiledRecordCheck) (rec : Value) : result unit string :=
  match rc_kind c with
  | KNotNull p t =>
      match resolve p rec with
      | Some Null => Err "value was null"
      | Some _ => Ok tt
      | None => if t then Err "field was missing" else Ok tt
      end
  | KNotEmpty p =>
      match resolve p rec with
      | Some (VString s) =>
          if string_eqb (trim s) EmptyString then Err "string was empty/whitespace" else Ok tt
      | Some Null => Err "value was null"
      | Some _ => Err "value was not a string"
      | None => Err "field was missing"
      end
  | KRegexMatch p re =>
      match resolve p rec with
      | Some (VString s) => if is_match re s then Ok tt else Err "value did not match pattern"
      | Some _ => Err "value was not a string"
      | None => Err "field was missing"
      end
  | KValueInSet p _ ix =>
      match resolve p rec with
      | Some v => if index_contains ix v then Ok tt else Err "value not in allowed set"
      | None => Err "field was missing"
      end
  | KNotInSet p _ ix =>
      match resolve p rec with
      | Some v => if index_contains ix v then Err "value is in the forbidden set" else Ok tt
      | None => Ok tt
      end
  | KCompare p op value =>
      match resolve p rec with
      | Some actual => evaluate_compare op actual value
      | None => Err "field was missing"
      end
  | KTypeIs p expected =>
      match resolve p rec with
      | Some v => if json_type_matches v expected then Ok tt
                  else Err ("value was not of type " +:+ type_str expected)
      | None => Err "field was missing"
      end
  | KStringLength p min max =>
      match resolve p rec with
      | Some (VString s) => within "string length" (char_count s) min max
      | Some _ => Err "value was not a string"
      | None => Err "field was missing"
      end
  | KJsonSchema v => schema_check v rec
  end.

(** ** batch.rs *)

Definition MISSING_KEY : string := String Ascii.zero "__missing__".
Definition UNIT_SEP : string := String (Ascii.ascii_of_nat 31) EmptyString.

Definition value_key (v : option Value) : string :=
  match v with None => MISSING_KEY | Some v => canonical_json v end.

Definition is_nullish (v : option Value) : bool :=
  match v with None | Some Null => true | _ => false end.

Definition evaluate_aggregate_check (c : CompiledBatchCheck) (survivors : list Value) :
    result unit string :=
  match bc_kind c with
  | KRowCount min max => within "row count" (zlen survivors) min max
  | KNullRate p max =>
      match survivors with
      | [] => Ok tt
      | _ =>
          let nulls := zlen (filter (fun r => Is_true (is_nullish (resolve p r))) survivors) in
          let rate := f64_div (f64_of_Z nulls) (f64_of_Z (zlen survivors)) in
          if f64_le rate max then Ok tt
          else Err ("null rate " +:+ fmt_rate rate +:+ " > max " +:+ fmt_f64 max)
      end
  | KDistinctCount p min max =>
      within "distinct count"
        (zlen (remove_dups ((fun r => value_key (resolve p r)) <$> survivors))) min max
  | KUnique _ => Err "internal: unique evaluated as aggregate"
  end.

(** The composite key of a row. *)
Definition unique_key (paths : list Path) (rec : Value) : string :=
  join UNIT_SEP ((fun p => value_key (resolve p rec)) <$> paths).

Fixpoint unique_go (paths : list Path) (seen : list string) (i : nat) (l : list Value) : list nat :=
  match l with
  | [] => []
  | rec :: l =>
      let k := unique_key paths rec in
      if bool_decide (k ∈ seen) then i :: unique_go paths seen (S i) l
      else unique_go paths (k :: seen) (S i) l
  end.

Definition evaluate_unique_check (c : CompiledBatchCheck) (survivors : list Value) : list nat :=
  match bc_kind c with
  | KUnique paths => unique_go paths [] 0 survivors
  | _ => []
  end.

(** ** mod.rs *)

Record QuarantinedRecord := MkQuarantined {
  qr_record : Value;
  qr_check : string;
  qr_field : option string;
  qr_message : string;
  qr_page_index : nat;
}.

Record QualityOutcome := MkQualityOutcome {
  qo_survivors : list Value;
  qo_quarantined : list QuarantinedRecord;
}.

(** The pass's working state: the outcome and [survivor_idx]. *)
Record quality_state := MkQState {
  q_survivors : list Value;
  q_idx : list nat;
  q_quarantined : list QuarantinedRecord;
}.

Definition field_msg (field : option string) (message : string) : string :=
  match field with
  | Some f => "field '" +:+ f +:+ "': " +:+ message
  | None => message
  end.

(** The checks of one record, in order: the first failure decides. *)
Fixpoint first_failure (checks : list CompiledRecordCheck) (rec : Value) :
    option (CompiledRecordCheck * string) :=
  match checks with
  | [] => None
  | c :: checks =>
      match evaluate_record_check c rec with
      | Ok _ => first_failure checks rec
      | Err message => Some (c, message)
      end
  end.

Fixpoint record_pass (checks : list CompiledRecordCheck) (i : nat) (records : list Value)
    (s : quality_state) : result quality_state FaucetError :=
  match records with
  | [] => Ok s
  | rec :: records =>
      match first_failure checks rec with
      | None =>
          record_pass checks (S i) records
            (MkQState (q_survivors s ++ [rec]) (q_idx s ++ [i]) (q_quarantined s))
      | Some (c, message) =>
          match rc_on_failure c with
          | Abort_ => Err (QualityFailure (rc_name c) (field_msg (rc_field c) message))
          | _ =>
              record_pass checks (S i) records
                (MkQState (q_survivors s) (q_idx s)
                   (q_quarantined s ++
                    [MkQuarantined rec (rc_name c) (rc_field c) (field_msg (rc_field c) message) i]))
          end
      end
  end.

(** Move the survivors at the positions [bad] selects to the quarantine, each
    with its own page index; keep the rest in order. *)
Fixpoint route_rows (bad : nat -> bool) (c : CompiledBatchCheck) (message : string) (i : nat)
    (rows : list (Value * nat)) : list (Value * nat) * list QuarantinedRecord :=
  match rows with
  | [] => ([], [])
  | (rec, idx) :: rows =>
      let '(kept, out) := route_rows bad c message (S i) rows in
      if bad i then
        (kept, MkQuarantined rec (bc_name c) (bc_field c) (field_msg (bc_field c) message) idx :: out)
      else ((rec, idx) :: kept, out)
  end.

Definition route (bad : nat -> bool) (c : CompiledBatchCheck) (message : string) (s : quality_state) :
    quality_state :=
  let '(kept, out) := route_rows bad c message 0 (zip (q_survivors s) (q_idx s)) in
  MkQState kept.*1 kept.*2 (q_quarantined s ++ out).

Definition batch_step (c : CompiledBatchCheck) (s : quality_state) : result quality_state FaucetError :=
  match bc_kind c with
  | KUnique _ =>
      match evaluate_unique_check c (q_survivors s) with
      | [] => Ok s
      | dups =>
          match bc_on_failure c with
          | Abort_ => Err (QualityFailure (bc_name c) (dec (zlen dups) +:+ " duplicate row(s)"))
          | _ => Ok (route (fun i => bool_decide (i ∈ dups)) c "duplicate key" s)
          end
      end
  | _ =>
      match evaluate_aggregate_check c (q_survivors s) with
      | Ok _ => Ok s
      | Err message =>
          match bc_on_failure c with
          | Abort_ => Err (QualityFailure (bc_name c) (field_msg (bc_field c) message))
          | _ => Ok (route (fun _ => true) c message s)
          end
      end
  end.

Fixpoint batch_pass (checks : list CompiledBatchCheck) (s : quality_state) :
    result quality_state FaucetError :=
  match checks with
  | [] => Ok s
  | c :: checks => let? s := batch_step c s in batch_pass checks s
  end.

Definition apply_quality (records : list Value) (q : CompiledQuality) :
    result QualityOutcome FaucetError :=
  let? s := record_pass (cq_record q) 0 records (MkQState [] [] []) in
  let? s := batch_pass (cq_batch q) s in
  Ok (MkQualityOutcome (q_survivors s) (q_quarantined s)).

End Quality.

Arguments MkQuality {Path Regex Validator}.
Arguments cq_record {Path Regex Validator}.
Arguments cq_batch {Path Regex Validator}.

(** Page positions of the quarantined rows. *)
Definition quarantined_at (q : list QuarantinedRecord) : list nat := qr_page_index <$> q.

(** What a split of page [l] promises: the survivors are the rows whose position
    was not quarantined, in page order, and every quarantined row is the row of
    the page it says it is, once. *)
Definition split_of (l : list Value) (survivors : list Value) (q : list QuarantinedRecord) : Prop :=
  survivors = (rows_without (quarantined_at q) l).*1 /\
  NoDup (quarantined_at q) /\
  Forall (fun r => l !! qr_page_index r = Some (qr_record r)) q.

Definition qstate_inv (l : list Value) (s : quality_state) : Prop :=
  zip (q_survivors s) (q_idx s) =
    rows_without (quarantined_at (q_quarantined s)) l /\
  length (q_survivors s) = length (q_idx s) /\
  NoDup (quarantined_at (q_quarantined s)) /\
  Forall (fun r => l !! qr_page_index r = Some (qr_record r)) (q_quarantined s).

(** A small spec over field names, for the witnesses. *)
Definition demo_resolve (k : string) (v : Value) : option Value := get v k.
Definition demo_quality : @CompiledQuality string unit unit :=
  MkQuality [MkRecordCheck (KNotNull "id" true) Quarantine "not_null" (Some "id")]
            [MkBatchCheck (KUnique ["id"]) Quarantine "unique" (Some "id")].
Definition demo_strict : @CompiledQuality string unit unit :=
  MkQuality [MkRecordCheck (KNotNull "id" true) Abort_ "not_null" (Some "id")] [].
Definition demo_row (n : Z) : Value := VObject [("id", of_u64 n)].
Definition demo_canonical (v : Value) : string :=
  match v with VNumber (PosInt n) => dec n | _ => EmptyString end.

(** ** Facts *)

Lemma qstate_inv_split l s : qstate_inv l s -> split_of l (q_survivors s) (q_quarantined s).
Proof.
  intros (Hz & Hl & Hn & Hf). split; [|done].
  by rewrite <- Hz, fst_zip by lia.
Qed.

Lemma quarantined_below l q i :
  Forall (fun r => l !! qr_page_index r = Some (qr_record r)) q ->
  i ∈ quarantined_at q -> (i < length l)%nat.
Proof.
  intros Hf (r & -> & Hr)%list_elem_of_fmap. rewrite Forall_forall in Hf.
  apply Hf in Hr. by apply lookup_lt_Some in Hr.
Qed.

Lemma forall_lookup_app (l k : list Value) q :
  Forall (fun r => l !! qr_page_index r = Some (qr_record r)) q ->
  Forall (fun r => (l ++ k) !! qr_page_index r = Some (qr_record r)) q.
Proof.
  intros H. eapply Forall_impl; [exact H|]. intros r Hr. by rewrite lookup_app_l by by apply lookup_lt_Some in Hr.
Qed.

(** Keeping the next row. *)
Lemma qstate_keep l rec s :
  qstate_inv l s ->
  qstate_inv (l ++ [rec])
    (MkQState (q_survivors s ++ [rec]) (q_idx s ++ [length l]) (q_quarantined s)).
Proof.
  intros (Hz & Hl & Hn & Hf). unfold qstate_inv; simpl.
  rewrite zip_with_app, Hz, rows_without_keep by eauto using quarantined_below. simpl.
  split; [done|]. split; [rewrite !length_app; simpl; lia|]. split; [done|by apply forall_lookup_app].
Qed.

(** Quarantining the next row. *)
Lemma qstate_quarantine l rec s r :
  qstate_inv l s -> qr_record r = rec -> qr_page_index r = length l ->
  qstate_inv (l ++ [rec]) (MkQState (q_survivors s) (q_idx s) (q_quarantined s ++ [r])).
Proof.
  intros (Hz & Hl & Hn & Hf) Hr Hi. unfold qstate_inv, quarantined_at in *; simpl.
  rewrite fmap_app. simpl. rewrite Hi, rows_without_drop. repeat split; [done|done|..].
  - apply NoDup_app. split; [done|]. split; [|apply NoDup_singleton].
    intros i Hin ->%list_elem_of_singleton. apply (quarantined_below l) in Hin; [lia|done].
  - apply Forall_app. split; [by apply forall_lookup_app|]. apply Forall_singleton.
    rewrite Hi, Hr. by rewrite list_lookup_middle.
Qed.

(** The batch half: rows at chosen positions leave with their own page index. *)
Lemma route_rows_spec {Path} bad (c : @CompiledBatchCheck Path) msg i rows :
  NoDup rows.*2 ->
  let '(kept, out) := route_rows bad c msg i rows in
  kept = filter (fun p => p.2 ∉ quarantined_at out) rows /\
  NoDup (quarantined_at out) /\ Forall (fun r => (qr_record r, qr_page_index r) ∈ rows) out.
Proof.
  revert i. induction rows as [|[rec idx] rows IH]; intros i Hn; simpl; [by repeat split; constructor|].
  apply NoDup_cons in Hn as [Hidx Hn]. specialize (IH (S i) Hn).
  destruct (route_rows bad c msg (S i) rows) as [kept out]. destruct IH as (-> & Hq & Hf).
  assert (idx ∉ quarantined_at out) as Hout.
  { intros (r & -> & Hr)%list_elem_of_fmap. rewrite Forall_forall in Hf. apply Hf in Hr.
    apply Hidx. apply list_elem_of_fmap. by exists (qr_record r, qr_page_index r). }
  assert (Forall (fun r => (qr_record r, qr_page_index r) ∈ (rec, idx) :: rows) out)
    by (eapply Forall_impl; [exact Hf|]; intros; by right).
  destruct (bad i); simpl.
  - rewrite filter_cons_False by (simpl; set_solver). split; [|split; [by constructor|constructor; [left|done]]].
    apply filter_ext_in. intros [x n] Hx. unfold quarantined_at. simpl. rewrite not_elem_of_cons.
    assert (n <> idx); [|tauto]. intros ->. apply Hidx. apply list_elem_of_fmap. by exists (x, idx).
  - by rewrite filter_cons_True.
Qed.

Lemma qstate_route {Path} bad (c : @CompiledBatchCheck Path) msg l s :
  qstate_inv l s -> qstate_inv l (route bad c msg s).
Proof.
  intros (Hz & Hl & Hn & Hf). unfold route. rewrite Hz.
  set (rows := rows_without _ l).
  assert (rows ⊆ indexed 0 l) as Hsub by (intros x Hx; by apply list_elem_of_filter in Hx as [_ ?]).
  assert (NoDup rows.*2) as Hnd.
  { eapply sublist_NoDup; [|apply (fmap_sublist snd), sublist_filter].
    rewrite indexed_snd. apply NoDup_seq. }
  pose proof (route_rows_spec bad c msg 0 rows Hnd) as Hr.
  destruct (route_rows bad c msg 0 rows) as [kept out]. destruct Hr as (-> & Hq & Hout).
  unfold qstate_inv; simpl. rewrite zip_fst_snd, !length_fmap.
  unfold quarantined_at in *. rewrite fmap_app. split_and!; [|done|..].
  - unfold rows, rows_without. rewrite list_filter_filter. apply list_filter_iff. intros [x n]; simpl. set_solver.
  - apply NoDup_app. split; [done|]. split; [|done]. intros n Hin (r & -> & Hr)%list_elem_of_fmap.
    rewrite Forall_forall in Hout. apply Hout in Hr. unfold rows in Hr; apply list_elem_of_filter in Hr as [Hr _].
    by apply Hr.
  - apply Forall_app. split; [done|]. eapply Forall_impl; [exact Hout|]. intros r Hr. simpl.
    apply Hsub, elem_of_indexed in Hr. destruct Hr as [_ Hr]. by rewrite Nat.sub_0_r in Hr.
Qed.

Section PassFacts.
Context {Path Regex Validator : Type}.
Context (resolve : Path -> Value -> option Value) (is_match : Regex -> string -> bool).
Context (schema_check : Validator -> Value -> result unit string).
Context (to_json : Value -> string) (fmt_rate fmt_f64 : f64 -> string).
Context (canonical_json : Value -> string) (decimal_cmp : Value -> Value -> option comparison).

Lemma record_pass_inv checks l records s s' :
  qstate_inv l s ->
  record_pass resolve is_match schema_check to_json decimal_cmp checks (length l) records s = Ok s' ->
  qstate_inv (l ++ records) s'.
Proof.
  revert l s. induction records as [|rec records IH]; intros l s Hs H; simpl in H.
  - simplify_eq. by rewrite app_nil_r.
  - rewrite (cons_middle rec l records), app_assoc.
    assert (S (length l) = length (l ++ [rec])) as Hlen by (rewrite length_app; simpl; lia).
    destruct (first_failure _ _ _ _ _ checks rec) as [[c m]|].
    + destruct (rc_on_failure c); [..|done]; rewrite Hlen in H;
        (eapply IH; [|exact H]); by apply qstate_quarantine.
    + rewrite Hlen in H. eapply IH; [|exact H]. by apply qstate_keep.
Qed.

Lemma batch_step_inv c l s s' :
  qstate_inv l s ->
  batch_step resolve fmt_rate fmt_f64 canonical_json c s = Ok s' -> qstate_inv l s'.
Proof.
  intros Hs. unfold batch_step. intros H.
  repeat case_match; simplify_eq; try done; by apply qstate_route.
Qed.

Lemma batch_pass_inv checks l s s' :
  qstate_inv l s ->
  batch_pass resolve fmt_rate fmt_f64 canonical_json checks s = Ok s' -> qstate_inv l s'.
Proof.
  revert s. induction checks as [|c checks IH]; intros s Hs H; simpl in H; [by simplify_eq|].
  destruct (batch_step _ _ _ _ c s) as [s1|] eqn:Hc; [|done]. simpl in H.
  eapply IH; [|exact H]. by eapply batch_step_inv.
Qed.

Lemma apply_quality_inv records q out :
  apply_quality resolve is_match schema_check to_json fmt_rate fmt_f64 canonical_json decimal_cmp
    records q = Ok out ->
  split_of records (qo_survivors out) (qo_quarantined out).
Proof.
  unfold apply_quality. intros H.
  destruct (record_pass _ _ _ _ _ (cq_record q) 0 records _) as [s|] eqn:Hr; [|done]. simpl in H.
  destruct (batch_pass _ _ _ _ (cq_batch q) s) as [s'|] eqn:Hb; [|done]. simplify_eq/=.
  apply qstate_inv_split. eapply batch_pass_inv; [|exact Hb].
  apply (record_pass_inv (cq_record q) [] records (MkQState [] [] [])); [|done].
  by repeat split; constructor.
Qed.

(** Without a check that quarantines, nothing is. *)
Lemma record_pass_none checks i records s s' :
  Forall (fun c => rc_on_failure c = Abort_) checks ->
  record_pass resolve is_match schema_check to_json decimal_cmp checks i records s = Ok s' ->
  q_quarantined s' = q_quarantined s.
Proof.
  intros Hc. revert i s. induction records as [|rec records IH]; intros i s H; simpl in H; [by simplify_eq|].
  destruct (first_failure _ _ _ _ _ checks rec) as [[c m]|] eqn:Hf; [|by apply IH in H].
  assert (c ∈ checks) as Hin.
  { clear -Hf. induction checks as [|c' checks IH]; simpl in Hf; [done|].
    case_match; [right; by apply IH|simplify_eq; by left]. }
  rewrite Forall_forall in Hc. by rewrite (Hc c Hin) in H.
Qed.

Lemma batch_pass_none checks s s' :
  Forall (fun c => bc_on_failure c = Abort_) checks ->
  batch_pass resolve fmt_rate fmt_f64 canonical_json checks s = Ok s' ->
  q_quarantined s' = q_quarantined s.
Proof.
  intros Hc. revert s. induction Hc as [|c checks Hc _ IH]; intros s H; simpl in H; [by simplify_eq|].
  destruct (batch_step _ _ _ _ c s) as [s1|] eqn:Hs; [|done]. simpl in H.
  assert (s1 = s) as ->; [|by apply IH].
  unfold batch_step in Hs. rewrite Hc in Hs. repeat case_match; simplify_eq; done.
Qed.

End PassFacts.

Lemma not_abort_cases f : f <> Quarantine -> f <> QuarantineBatch -> f = Abort_.
Proof. by destruct f. Qed.

Section CompileFacts.
Context {Path Regex Validator : Type}.
Context (path_compile : string -> result Path string) (regex_new : string -> result Regex string).
Context (validator_for : Value -> result Validator string).

Lemma collect_Forall {A B} (f : A -> result B FaucetError) (P : B -> Prop) l l' :
  (forall x y, f x = Ok y -> P y) -> collect f l = Ok l' -> Forall P l'.
Proof.
  intros Hf. revert l'. induction l as [|x l IH]; intros l' H; simpl in H; [by simplify_eq|].
  destruct (f x) eqn:Hx; [|done]. destruct (collect f l); [|done]. simplify_eq/=. eauto.
Qed.

Lemma compile_record_policy c c' :
  compile_record_check path_compile regex_new validator_for c = Ok c' ->
  rc_on_failure c' <> QuarantineBatch.
Proof.
  destruct c; simpl; unfold check_record_policy, result_bind; destruct on_failure; simpl; try done;
    intros H; repeat (case_match; simplify_eq/=); done.
Qed.

Lemma requires_dlq_false (q : CompiledQuality) :
  Forall (fun c => rc_on_failure c <> QuarantineBatch) (@cq_record Path Regex Validator q) ->
  quality_requires_dlq q = false ->
  Forall (fun c => rc_on_failure c = Abort_) (cq_record q) /\
  Forall (fun c => bc_on_failure c = Abort_) (cq_batch q).
Proof.
  unfold quality_requires_dlq. intros Hp [H1 H2]%orb_false_iff.
  rewrite !Forall_forall in *. split; intros c Hin.
  - apply not_abort_cases; [|by apply Hp]. intros Hq.
    assert (existsb (fun c => bool_decide (rc_on_failure c = Quarantine)) (cq_record q) = true); [|congruence].
    apply existsb_exists. exists c. split; [by apply list_elem_of_In|by apply bool_decide_eq_true].
  - assert (~ (bc_on_failure c = Quarantine \/ bc_on_failure c = QuarantineBatch)) as Hn;
      [|apply not_abort_cases; tauto].
    intros Hq. rewrite <- not_true_iff_false in H2. apply H2. apply existsb_exists. exists c.
    split; [by apply list_elem_of_In|]. rewrite orb_true_iff, !bool_decide_eq_true. done.
Qed.

End CompileFacts.

Lemma sf_compare_eq f g :
  SpecFloat.SFcompare f g = Some Eq ->
  f = g \/ exists a b, f = SpecFloat.S754_zero a /\ g = SpecFloat.S754_zero b.
Proof.
  intros H.
  destruct f as [a|a| |a m e], g as [b|b| |b m' e']; try (by right; eauto); destruct_or?;
    repeat match goal with x : bool |- _ => destruct x end; try discriminate; try (by left);
    left; simpl in H; destruct (Z.compare_spec e e'); try done; subst; f_equal;
    pose proof (Pos.compare_spec m m') as Hs; unfold Pos.compare in Hs;
    destruct (Pos.compare_cont Eq m m'); try done; by inversion Hs.
Qed.

Lemma cmp_numbers_bucket a b : cmp_numbers a b = Some Eq -> number_bucket a = number_bucket b.
Proof.
  unfold cmp_numbers, number_bucket. intros H.
  assert (num_f64 a = num_f64 b \/
    exists x y, num_f64 a = SpecFloat.S754_zero x /\ num_f64 b = SpecFloat.S754_zero y) as [->|(x & y & -> & ->)];
    [|done..].
  destruct a as [n|n|f], b as [m|m|g]; cbn in *; repeat case_match; simplify_eq/=;
    try (by apply sf_compare_eq); try done; left; try (injection H as H); apply Z.compare_eq in H; by subst.
Qed.

Lemma index_add_contains ix c v :
  index_contains (index_add ix c) v = index_contains ix v || values_equal c v.
Proof.
  destruct c, v; cbn [index_add index_contains ix_strings ix_numbers ix_rest]; rewrite ?existsb_app;
    cbn [existsb values_equal json_eq fst snd]; rewrite ?orb_false_r, ?orb_assoc; try done.
  - rewrite <- !orb_assoc. f_equal. rewrite orb_comm. f_equal.
    destruct (bool_decide (cmp_numbers n n0 = Some Eq)) eqn:Hc; [|by rewrite andb_false_r].
    apply bool_decide_eq_true in Hc. rewrite andb_true_r. apply bool_decide_eq_true.
    by apply cmp_numbers_bucket.
  - f_equal. unfold string_eqb. apply bool_decide_ext. naive_solver.
Qed.

Lemma index_fold_contains values ix v :
  index_contains (fold_left index_add values ix) v = index_contains ix v || set_contains values v.
Proof.
  revert ix. induction values as [|c values IH]; intros ix; simpl; [by rewrite orb_false_r|].
  by rewrite IH, index_add_contains, orb_assoc.
Qed.

(** ** Properties *)

(** The quality pass splits a page and loses nothing: when it succeeds, the
    survivors are exactly the rows whose page position is not among the
    quarantined ones, in page order, and every quarantined row carries its own
    position within the original page, no position twice. This holds for every
    mix of per-record and per-batch checks. *)
Theorem quality_splits_page {Path Regex Validator} resolve is_match schema_check to_json fmt_rate
  fmt_f64 canonical_json decimal_cmp records (q : @CompiledQuality Path Regex Validator) out :
  apply_quality resolve is_match schema_check to_json fmt_rate fmt_f64 canonical_json decimal_cmp
    records q = Ok out ->
  split_of records (qo_survivors out) (qo_quarantined out).
Proof. apply apply_quality_inv. Qed.

Lemma quality_splits_page_witness :
  exists out, apply_quality demo_resolve (fun _ _ => true) (fun _ _ => Ok tt) (fun _ => EmptyString)
    (fun _ => EmptyString) (fun _ => EmptyString) demo_canonical (fun _ _ => None)
    [demo_row 1; VObject [("id", Null)]; demo_row 1; demo_row 2] demo_quality = Ok out /\
  qo_survivors out = [demo_row 1; demo_row 2] /\
  split_of [demo_row 1; VObject [("id", Null)]; demo_row 1; demo_row 2]
    (qo_survivors out) (qo_quarantined out).
Proof.
  eexists. split; [vm_compute; reflexivity|]. split; [reflexivity|].
  eapply (quality_splits_page demo_resolve (fun _ _ => true) (fun _ _ => Ok tt) (fun _ => EmptyString)
    (fun _ => EmptyString) (fun _ => EmptyString) demo_canonical (fun _ _ => None) _ demo_quality).
  vm_compute. reflexivity.
Defined.

(** A spec whose compiled form asks for no dead-letter sink never routes a
    row to one: the pass either keeps every row or aborts. The pipeline relies
    on this when it starts such a run without a dead-letter sink. *)
Theorem quality_without_dlq_quarantines_nothing {Path Regex Validator} path_compile regex_new
  validator_for resolve is_match schema_check to_json fmt_rate fmt_f64 canonical_json decimal_cmp
  spec (q : @CompiledQuality Path Regex Validator) records out :
  quality_compile path_compile regex_new validator_for spec = Ok q ->
  quality_requires_dlq q = false ->
  apply_quality resolve is_match schema_check to_json fmt_rate fmt_f64 canonical_json decimal_cmp
    records q = Ok out ->
  qo_quarantined out = [] /\ qo_survivors out = records.
Proof.
  intros Hc Hd Ha. pose proof (apply_quality_inv _ _ _ _ _ _ _ _ _ _ _ Ha) as (Hs & _ & _).
  assert (qo_quarantined out = []) as Hq.
  { unfold quality_compile in Hc.
    destruct (collect (compile_record_check _ _ _) _) as [r|] eqn:Hr; [|done]. simpl in Hc.
    destruct (collect (compile_batch_check _) _) as [b|]; [|done]. simplify_eq/=.
    apply (collect_Forall _ _ _ _ (compile_record_policy _ _ _)) in Hr.
    apply (requires_dlq_false (MkQuality r b) Hr) in Hd as [Hr' Hb']. simpl in Hr', Hb'.
    unfold apply_quality in Ha. simpl in Ha.
    destruct (record_pass _ _ _ _ _ r 0 records _) as [s|] eqn:Hp; [|done]. simpl in Ha.
    destruct (batch_pass _ _ _ _ b s) as [s'|] eqn:Hp'; [|done]. simplify_eq/=.
    rewrite (batch_pass_none _ _ _ _ _ _ _ Hb' Hp'). exact (record_pass_none _ _ _ _ _ _ _ _ _ _ Hr' Hp). }
  split; [done|]. rewrite Hs, Hq. apply rows_without_nil.
Qed.

Lemma quality_without_dlq_quarantines_nothing_witness :
  quality_compile (fun p => Ok p) (fun _ => Ok tt) (fun _ => Ok tt)
    (MkQualitySpec [RNotNull "id" true Abort_] []) = Ok demo_strict /\
  qo_quarantined (MkQualityOutcome [demo_row 1] []) = [] /\
  qo_survivors (MkQualityOutcome [demo_row 1] []) = [demo_row 1].
Proof.
  split; [vm_compute; reflexivity|].
  apply (quality_without_dlq_quarantines_nothing
    (fun p => Ok p) (fun _ => Ok tt) (fun _ => Ok tt) demo_resolve (fun _ _ => true) (fun _ _ => Ok tt)
    (fun _ => EmptyString) (fun _ => EmptyString) (fun _ => EmptyString) demo_canonical (fun _ _ => None)
    (MkQualitySpec [RNotNull "id" true Abort_] []) demo_strict [demo_row 1]
    (MkQualityOutcome [demo_row 1] [])); vm_compute; reflexivity.
Defined.

(** The hashed index behind [value_in_set] and [not_in_set] decides exactly
    what the linear scan with numeric-aware equality decides, for every value
    set and every value: an integer and a float spelling of one number are the
    same member, and so are both zeros. *)
Theorem index_contains_is_scan values v : index_contains (index_new values) v = set_contains values v.
Proof. unfold index_new. by rewrite index_fold_contains; destruct v. Qed.
