(* ===== verification/Contract.v ===== *)
(** Data contracts (crates/core/src/contract/{compile,mod}.rs): compiling a
    contract, evaluating a record against it, and the per-page pass. Regular
    expressions and the printing of floats and JSON are library code and are
    parameters. *)
From S2P Require Import Prelude Errors Float64 Json Text Quality.

Local Open Scope Z_scope.
Local Open Scope result_scope.

Inductive ContractFieldType := CString | CInteger | CNumber | CBoolean | CObject | CArray.
Inductive OnBreach := BreachFail | BreachQuarantine | BreachWarn.

#[export] Instance ContractFieldType_eq_dec : EqDecision ContractFieldType.
Proof. solve_decision. Defined.

Definition field_type_str (t : ContractFieldType) : string :=
  match t with
  | CString => "string" | CInteger => "integer" | CNumber => "number"
  | CBoolean => "boolean" | CObject => "object" | CArray => "array"
  end.

(** [struct FieldContract]. *)
Record FieldContract := MkFieldContract {
  fc_name : string;
  fc_type : ContractFieldType;
  fc_required : bool;
  fc_nullable : bool;
  fc_allowed : option (list Value);
  fc_pattern : option string;
  fc_min : option f64;
  fc_max : option f64;
  fc_min_length : option Z;
  fc_max_length : option Z;
}.
Record ContractSpec := MkContractSpec {
  cs_version : string;
  cs_on_breach : OnBreach;
  cs_allow_extra_fields : bool;
  cs_fields : list FieldContract;
}.

(** ** Floats against integers *)

(** [f.floor()] of a finite double, as an integer; [f.fract() == 0.0]. *)
Definition f64_floor (f : f64) : option Z :=
  match f with
  | SpecFloat.S754_zero _ => Some 0
  | SpecFloat.S754_finite s m e =>
      let v := if s then Zneg m else Zpos m in
      Some (if 0 <=? e then v * 2 ^ e else v / 2 ^ (- e))
  | _ => None
  end.
Definition f64_integral (f : f64) : bool :=
  match f with
  | SpecFloat.S754_zero _ => true
  | SpecFloat.S754_finite _ m e => (0 <=? e) || (Zpos m mod 2 ^ (- e) =? 0)
  | _ => false
  end.

Definition TEN_20 : Z := 100000000000000000000.

Definition cmp_int_to_f64 (i : Z) (bound : f64) : option comparison :=
  match bound with
  | SpecFloat.S754_nan => None
  | SpecFloat.S754_infinity s => Some (if s then Gt else Lt)
  | _ =>
      match f64_floor bound with
      | Some floor =>
          if TEN_20 <=? floor then Some Lt
          else if floor <=? - TEN_20 then Some Gt
          else match i ?= floor with
               | Eq => if f64_integral bound then Some Eq else Some Lt
               | c => Some c
               end
      | None => None
      end
  end.

Definition cmp_number_to_bound (n : Number) (bound : f64) : option comparison :=
  match num_i64 n, num_u64 n with
  | Some i, _ => cmp_int_to_f64 i bound
  | None, Some u => cmp_int_to_f64 u bound
  | None, None => SpecFloat.SFcompare (num_f64 n) bound
  end.

Definition enum_member (v value : Value) : bool :=
  match v, value with
  | VNumber a, VNumber b =>
      match num_i64 a, num_i64 b with
      | Some x, Some y => x =? y
      | _, _ =>
          match num_u64 a, num_u64 b with
          | Some x, Some y => x =? y
          | _, _ => SpecFloat.SFeqb (num_f64 a) (num_f64 b)
          end
      end
  | _, _ => json_eq v value
  end.
Definition enum_contains (allowed : list Value) (value : Value) : bool :=
  existsb (fun v => enum_member v value) allowed.

Definition type_matches (value : Value) (t : ContractFieldType) : bool :=
  match t, value with
  | CString, VString _ | CNumber, VNumber _ | CBoolean, VBool _
  | CObject, VObject _ | CArray, VArray _ => true
  | CInteger, VNumber (PosInt _ | NegInt _) => true
  | CInteger, VNumber (Float f) => f64_integral f
  | _, _ => false
  end.

Definition json_type_name (v : Value) : string :=
  match v with
  | Null => "null" | VBool _ => "boolean" | VNumber _ => "number" | VString _ => "string"
  | VArray _ => "array" | VObject _ => "object"
  end.

Record ContractViolation_ := MkViolation {
  cv_rule : string;
  cv_field : option string;
  cv_message : string;
  cv_page_index : nat;
}.

Definition describe (v : ContractViolation_) : string :=
  match cv_field v with
  | Some f => "field '" +:+ f +:+ "': " +:+ cv_message v +:+ " (" +:+ cv_rule v +:+ ")"
  | None => cv_message v +:+ " (" +:+ cv_rule v +:+ ")"
  end.

Record ViolatingRecord := MkViolating { vr_record : Value; vr_violation : ContractViolation_ }.

Record ContractOutcome := MkContractOutcome {
  co_survivors : list Value;
  co_quarantined : list ViolatingRecord;
  co_warned : list ContractViolation_;
}.

Section Contract.
Context {Regex : Type}.
Context (regex_new : string -> result Regex string) (is_match : Regex -> string -> bool).
Context (regex_str : Regex -> string) (fmt_f64 : f64 -> string) (to_json : Value -> string).

Record CompiledField := MkCompiledField {
  cf_name : string;
  cf_type : ContractFieldType;
  cf_required : bool;
  cf_nullable : bool;
  cf_allowed : option (list Value);
  cf_pattern : option Regex;
  cf_min : option f64;
  cf_max : option f64;
  cf_min_length : option Z;
  cf_max_length : option Z;
}.
Record CompiledContract := MkContract {
  cc_version : string;
  cc_on_breach : OnBreach;
  cc_allow_extra_fields : bool;
  cc_fields : list CompiledField;
  cc_declared : list string;
}.

(** ** compile.rs *)

Definition contract_err (msg : string) : FaucetError := Config ("contract: " +:+ msg).

Definition field_err (f : FieldContract) (msg : string) : FaucetError :=
  contract_err ("field '" +:+ fc_name f +:+ "': " +:+ msg).

(** The [enum] members of a field: the first one that does not fit is the error. *)
Fixpoint check_enum (f : FieldContract) (values : list Value) : result unit FaucetError :=
  match values with
  | [] => Ok tt
  | v :: values =>
      if is_null v then Err (field_err f "`enum` must not contain null — use `nullable: true`")
      else if negb (type_matches v (fc_type f)) then
        Err (field_err f ("enum value " +:+ to_json v +:+ " does not match declared type "
                          +:+ field_type_str (fc_type f)))
      else check_enum f values
  end.

Definition is_some {A} (o : option A) : bool := match o with Some _ => true | None => false end.

Definition compile_field (f : FieldContract) : result CompiledField FaucetError :=
  let is_string := bool_decide (fc_type f = CString) in
  let is_numeric := bool_decide (fc_type f = CInteger) || bool_decide (fc_type f = CNumber) in
  let? pattern :=
    match fc_pattern f with
    | Some p =>
        if negb is_string then
          Err (field_err f ("`pattern` applies only to string fields, not "
                            +:+ field_type_str (fc_type f)))
        else match regex_new p with
             | Ok re => Ok (Some re)
             | Err e => Err (field_err f ("invalid pattern '" +:+ p +:+ "': " +:+ e))
             end
    | None => Ok None
    end in
  if (is_some (fc_min f) || is_some (fc_max f)) && negb is_numeric then
    Err (field_err f ("`min`/`max` apply only to integer/number fields, not "
                      +:+ field_type_str (fc_type f)))
  else if match fc_min f, fc_max f with Some lo, Some hi => f64_lt hi lo | _, _ => false end then
    Err (field_err f "`min` must be <= `max`")
  else if (is_some (fc_min_length f) || is_some (fc_max_length f)) && negb is_string then
    Err (field_err f ("`min_length`/`max_length` apply only to string fields, not "
                      +:+ field_type_str (fc_type f)))
  else if match fc_min_length f, fc_max_length f with Some lo, Some hi => hi <? lo | _, _ => false end
  then Err (field_err f "`min_length` must be <= `max_length`")
  else
    let? _ := match fc_allowed f with
              | Some [] => Err (field_err f "`enum` must be non-empty")
              | Some values => check_enum f values
              | None => Ok tt
              end in
    Ok (MkCompiledField (fc_name f) (fc_type f) (fc_required f) (fc_nullable f) (fc_allowed f)
          pattern (fc_min f) (fc_max f) (fc_min_length f) (fc_max_length f)).

Fixpoint compile_fields (declared : list string) (fs : list FieldContract) :
    result (list CompiledField * list string) FaucetError :=
  match fs with
  | [] => Ok ([], declared)
  | f :: fs =>
      if string_eqb (trim (fc_name f)) EmptyString then
        Err (contract_err "field names must be non-empty")
      else if bool_decide (fc_name f ∈ declared) then
        Err (contract_err ("duplicate field '" +:+ fc_name f +:+ "'"))
      else
        let? c := compile_field f in
        let? (cs, d) := compile_fields (fc_name f :: declared) fs in
        Ok (c :: cs, d)
  end.

Definition contract_compile (s : ContractSpec) : result CompiledContract FaucetError :=
  if string_eqb (trim (cs_version s)) EmptyString then
    Err (contract_err "`version` must be non-empty")
  else match cs_fields s with
  | [] => Err (contract_err "`fields` must be non-empty")
  | fields =>
      let? (cs, d) := compile_fields [] fields in
      Ok (MkContract (cs_version s) (cs_on_breach s) (cs_allow_extra_fields s) cs d)
  end.

Definition contract_requires_dlq (c : CompiledContract) : bool :=
  match cc_on_breach c with BreachQuarantine => true | _ => false end.

(** ** mod.rs *)

(** One field of a record: [None] when it conforms. *)
Definition evaluate_field (obj : list (string * Value)) (page_index : nat) (f : CompiledField) :
    option ContractViolation_ :=
  let violation rule message := Some (MkViolation rule (Some (cf_name f)) message page_index) in
  match assoc (cf_name f) obj with
  | None => if cf_required f then violation "missing" "required field is missing" else None
  | Some value =>
      if is_null value then
        if cf_nullable f then None else violation "null" "field is null but not nullable"
      else if negb (type_matches value (cf_type f)) then
        violation "type" ("expected " +:+ field_type_str (cf_type f) +:+ ", got " +:+ json_type_name value)
      else if match cf_allowed f with Some vs => negb (enum_contains vs value) | None => false end then
        violation "enum" "value is not in the allowed set"
      else match match cf_pattern f with
                 | Some re => if is_match re (default EmptyString (as_str value)) then None else Some re
                 | None => None
                 end with
      | Some re => violation "pattern" ("value does not match pattern '" +:+ regex_str re +:+ "'")
      | None =>
          match match value with
                | VNumber n =>
                    match cf_min f with
                    | Some min =>
                        if bool_decide (cmp_number_to_bound n min = Some Lt) then
                          Some ("value is below the minimum " +:+ fmt_f64 min) else None
                    | None => None
                    end
                | _ => None
                end with
          | Some m => violation "range" m
          | None =>
              match match value with
                    | VNumber n =>
                        match cf_max f with
                        | Some max =>
                            if bool_decide (cmp_number_to_bound n max = Some Gt) then
                              Some ("value is above the maximum " +:+ fmt_f64 max) else None
                        | None => None
                        end
                    | _ => None
                    end with
              | Some m => violation "range" m
              | None =>
                  let len := match as_str value with Some s => char_count s | None => 0 end in
                  if match cf_min_length f with Some lo => len <? lo | None => false end then
                    violation "length" ("string length " +:+ dec len +:+ " is below the minimum "
                                        +:+ dec (default 0 (cf_min_length f)))
                  else if match cf_max_length f with Some hi => hi <? len | None => false end then
                    violation "length" ("string length " +:+ dec len +:+ " is above the maximum "
                                        +:+ dec (default 0 (cf_max_length f)))
                  else None
              end
          end
      end
  end.

Fixpoint first_breach (obj : list (string * Value)) (page_index : nat) (fs : list CompiledField) :
    option ContractViolation_ :=
  match fs with
  | [] => None
  | f :: fs =>
      match evaluate_field obj page_index f with
      | Some v => Some v
      | None => first_breach obj page_index fs
      end
  end.

Fixpoint first_extra (declared : list string) (page_index : nat) (keys : list string) :
    option ContractViolation_ :=
  match keys with
  | [] => None
  | k :: keys =>
      if bool_decide (k ∈ declared) then first_extra declared page_index keys
      else Some (MkViolation "extra_field" (Some k)
             "field is not declared in the contract and allow_extra_fields is false" page_index)
  end.

Definition evaluate_record (rec : Value) (c : CompiledContract) (page_index : nat) :
    option ContractViolation_ :=
  match as_object rec with
  | None => Some (MkViolation "not_object" None
      ("record is not a JSON object (got " +:+ json_type_name rec +:+ ")") page_index)
  | Some obj =>
      match first_breach obj page_index (cc_fields c) with
      | Some v => Some v
      | None => if cc_allow_extra_fields c then None
                else first_extra (cc_declared c) page_index obj.*1
      end
  end.

Fixpoint contract_pass (c : CompiledContract) (i : nat) (records : list Value) (out : ContractOutcome) :
    result ContractOutcome FaucetError :=
  match records with
  | [] => Ok out
  | rec :: records =>
      match evaluate_record rec c i with
      | None => contract_pass c (S i) records
          (MkContractOutcome (co_survivors out ++ [rec]) (co_quarantined out) (co_warned out))
      | Some v =>
          match cc_on_breach c with
          | BreachFail => Err (ContractViolation (cc_version c) (describe v))
          | BreachQuarantine => contract_pass c (S i) records
              (MkContractOutcome (co_survivors out) (co_quarantined out ++ [MkViolating rec v])
                 (co_warned out))
          | BreachWarn => contract_pass c (S i) records
              (MkContractOutcome (co_survivors out ++ [rec]) (co_quarantined out)
                 (co_warned out ++ [v]))
          end
      end
  end.

Definition apply_contract (records : list Value) (c : CompiledContract) :
    result ContractOutcome FaucetError := contract_pass c 0 records (MkContractOutcome [] [] []).

End Contract.

Arguments MkContract {Regex}.
Arguments cc_on_breach {Regex}.
Arguments cc_version {Regex}.

(** Rows the contract pass removed, by position in its input. *)
Definition breached_at (q : list ViolatingRecord) : list nat := (fun r => cv_page_index (vr_violation r)) <$> q.

Definition contract_split_of (l survivors : list Value) (q : list ViolatingRecord) : Prop :=
  survivors = (rows_without (breached_at q) l).*1 /\
  NoDup (breached_at q) /\
  Forall (fun r => l !! cv_page_index (vr_violation r) = Some (vr_record r)) q.

(** The order of an integer and of the exact value of a finite double. *)
Definition exact_compare (i : Z) (s : bool) (m : positive) (e : Z) : comparison :=
  let v := if s then Zneg m else Zpos m in
  if 0 <=? e then i ?= v * 2 ^ e else i * 2 ^ (- e) ?= v.

(** ** Facts *)

Lemma violation_index {Regex} is_match regex_str fmt (c : @CompiledContract Regex) rec i v :
  evaluate_record is_match regex_str fmt rec c i = Some v -> cv_page_index v = i.
Proof.
  unfold evaluate_record. destruct (as_object rec) as [obj|]; [|intros; by simplify_eq].
  assert (forall fs w, first_breach is_match regex_str fmt obj i fs = Some w -> cv_page_index w = i) as Hb.
  { induction fs as [|f fs IH]; intros w H; simpl in H; [done|].
    destruct (evaluate_field _ _ _ obj i f) as [u|] eqn:Hf; [|by apply IH].
    simplify_eq. unfold evaluate_field in Hf. repeat case_match; simplify_eq; done. }
  assert (forall ks w, first_extra (cc_declared c) i ks = Some w -> cv_page_index w = i) as He.
  { induction ks as [|k ks IH]; intros w H; simpl in H; [done|]. case_match; [by apply IH|]. by simplify_eq. }
  destruct (first_breach _ _ _ _ _ _) eqn:H1; intros H; simplify_eq; [by eapply Hb|].
  case_match; [done|]. by eapply He.
Qed.

Lemma breached_below l q i :
  Forall (fun r => l !! cv_page_index (vr_violation r) = Some (vr_record r)) q ->
  i ∈ breached_at q -> (i < length l)%nat.
Proof.
  intros Hf (r & -> & Hr)%list_elem_of_fmap. rewrite Forall_forall in Hf.
  apply Hf in Hr. by apply lookup_lt_Some in Hr.
Qed.

Lemma contract_pass_split {Regex} is_match regex_str fmt (c : @CompiledContract Regex) l records o o' :
  contract_split_of l (co_survivors o) (co_quarantined o) ->
  contract_pass is_match regex_str fmt c (length l) records o = Ok o' ->
  contract_split_of (l ++ records) (co_survivors o') (co_quarantined o').
Proof.
  revert l o. induction records as [|rec records IH]; intros l o Hs H; simpl in H;
    [simplify_eq; by rewrite app_nil_r|].
  rewrite (cons_middle rec l records), app_assoc.
  assert (S (length l) = length (l ++ [rec])) as Hlen by (rewrite length_app; simpl; lia).
  destruct Hs as (Hs & Hn & Hf).
  assert (Forall (fun r => (l ++ [rec]) !! cv_page_index (vr_violation r) = Some (vr_record r))
            (co_quarantined o)) as Hf'.
  { eapply Forall_impl; [exact Hf|]. intros r Hr. simpl in Hr. by rewrite lookup_app_l by by apply lookup_lt_Some in Hr. }
  assert (contract_split_of (l ++ [rec]) (co_survivors o ++ [rec]) (co_quarantined o)) as Hkeep.
  { split; [|done]. rewrite rows_without_keep by eauto using breached_below. rewrite fmap_app, Hs. done. }
  destruct (evaluate_record _ _ _ rec c (length l)) as [v|] eqn:Hv.
  2: { rewrite Hlen in H. by eapply IH; [|exact H]. }
  apply violation_index in Hv as Hi.
  destruct (cc_on_breach c); [done|..]; rewrite Hlen in H; (eapply IH; [|exact H]); [|done].
  unfold contract_split_of, breached_at in *; simpl. rewrite fmap_app; simpl. rewrite Hi, rows_without_drop.
  split; [done|]. split.
  - apply NoDup_app. split; [done|]. split; [|apply NoDup_singleton].
    intros i Hin ->%list_elem_of_singleton. apply (breached_below l) in Hin; [lia|done].
  - apply Forall_app. split; [done|]. apply Forall_singleton. simpl. rewrite Hi.
    by rewrite list_lookup_middle.
Qed.

Lemma apply_contract_split {Regex} is_match regex_str fmt (c : @CompiledContract Regex) records o :
  apply_contract is_match regex_str fmt records c = Ok o ->
  contract_split_of records (co_survivors o) (co_quarantined o).
Proof.
  intros H. apply (contract_pass_split is_match regex_str fmt c [] records (MkContractOutcome [] [] []));
    [|done]. by repeat split; constructor.
Qed.

(** Whether a record conforms does not depend on where it stands in the page. *)
Lemma evaluate_none_any {Regex} is_match regex_str fmt (c : @CompiledContract Regex) rec i j :
  evaluate_record is_match regex_str fmt rec c i = None ->
  evaluate_record is_match regex_str fmt rec c j = None.
Proof.
  unfold evaluate_record. destruct (as_object rec) as [obj|]; [|done].
  assert (forall fs, first_breach is_match regex_str fmt obj i fs = None ->
    first_breach is_match regex_str fmt obj j fs = None) as Hb.
  { induction fs as [|f fs IH]; intros H; simpl in *; [done|].
    destruct (evaluate_field _ _ _ obj i f) eqn:Hf; [done|].
    assert (evaluate_field is_match regex_str fmt obj j f = None) as ->; [|by apply IH].
    unfold evaluate_field in *. repeat case_match; simplify_eq; done. }
  assert (forall ks, first_extra (cc_declared c) i ks = None -> first_extra (cc_declared c) j ks = None) as He.
  { induction ks as [|k ks IH]; intros H; simpl in *; [done|]. case_match; [by apply IH|done]. }
  destruct (first_breach _ _ _ obj i _) eqn:H1; [done|]. rewrite (Hb _ H1).
  case_match; [done|]. apply He.
Qed.

Lemma contract_pass_conform {Regex} is_match regex_str fmt (c : @CompiledContract Regex) i records o o' :
  cc_on_breach c <> BreachWarn ->
  (forall r, r ∈ co_survivors o -> evaluate_record is_match regex_str fmt r c 0 = None) ->
  contract_pass is_match regex_str fmt c i records o = Ok o' ->
  forall r, r ∈ co_survivors o' -> evaluate_record is_match regex_str fmt r c 0 = None.
Proof.
  intros Hw. revert i o. induction records as [|rec records IH]; intros i o Ho H; simpl in H;
    [by simplify_eq|].
  destruct (evaluate_record _ _ _ rec c i) as [v|] eqn:Hv.
  - destruct (cc_on_breach c); [done|eapply IH; [|exact H]; exact Ho|done].
  - eapply IH; [|exact H]. intros r [Hr| ->%list_elem_of_singleton]%elem_of_app; [by apply Ho|].
    by eapply evaluate_none_any.
Qed.

Lemma zneg_mod_zero m p : 0 < p -> (Zneg m mod p = 0 <-> Zpos m mod p = 0).
Proof.
  intros Hp. change (Zneg m) with (- Zpos m). split; intros H.
  - rewrite <- (Z.opp_involutive (Zpos m)). by apply Z.mod_opp_l_z; [lia|].
  - by apply Z.mod_opp_l_z; [lia|].
Qed.

(** ** Properties *)

(** The contract pass splits a page like the quality pass: a successful pass
    keeps exactly the rows it did not quarantine, in order, and every
    quarantined row carries its own position in the pass's input. Unless the
    policy is [warn], every kept row conforms to the contract. *)
Theorem contract_splits_page {Regex} is_match regex_str fmt (c : @CompiledContract Regex) records o :
  apply_contract is_match regex_str fmt records c = Ok o ->
  contract_split_of records (co_survivors o) (co_quarantined o) /\
  (cc_on_breach c <> BreachWarn ->
   forall r, r ∈ co_survivors o -> evaluate_record is_match regex_str fmt r c 0 = None).
Proof.
  intros H. split; [by eapply apply_contract_split|]. intros Hw.
  eapply contract_pass_conform; [done| |exact H]. simpl. intros r Hr. inversion Hr.
Qed.

Lemma contract_splits_page_witness :
  let c := MkContract "1" BreachQuarantine true
             [MkCompiledField "id" CInteger true false None (@None unit) None None None None] ["id"] in
  let o := MkContractOutcome [demo_row 1]
             [MkViolating Null (MkViolation "not_object" None "record is not a JSON object (got null)" 1)] [] in
  apply_contract (fun _ _ => true) (fun _ => EmptyString) (fun _ => EmptyString) [demo_row 1; Null] c = Ok o
  /\ contract_split_of [demo_row 1; Null] (co_survivors o) (co_quarantined o).
Proof.
  intros c o. assert (apply_contract (fun _ _ => true) (fun _ => EmptyString) (fun _ => EmptyString)
    [demo_row 1; Null] c = Ok o) as H by (vm_compute; reflexivity).
  split; [exact H|]. exact (proj1 (contract_splits_page _ _ _ c _ o H)).
Defined.

(** A contract bound compares an integer field exactly. For every integer a
    JSON number can hold and every finite bound, [cmp_int_to_f64] gives the
    order of the integer and of the bound's exact value, with no rounding
    through a double. *)
Theorem integer_bound_exact i s m e :
  - TEN_20 < i < TEN_20 ->
  cmp_int_to_f64 i (SpecFloat.S754_finite s m e) = Some (exact_compare i s m e).
Proof.
  intros Hi. unfold cmp_int_to_f64, f64_floor, exact_compare, f64_integral.
  assert (forall p, 0 < p -> Zpos m mod p = 0 <-> (if s then Zneg m else Zpos m) mod p = 0) as Hmod
    by (intros; destruct s; [by rewrite zneg_mod_zero|done]).
  set (v := if s then Zneg m else Zpos m) in *. clearbody v.
  destruct (Z.leb_spec 0 e) as [He|He]; cbn [orb].
  - set (fl := v * 2 ^ e). clearbody fl.
    destruct (Z.leb_spec TEN_20 fl); [f_equal; symmetry; apply Z.compare_lt_iff; lia|].
    destruct (Z.leb_spec fl (- TEN_20)); [f_equal; symmetry; apply Z.compare_gt_iff; lia|].
    by destruct (i ?= fl).
  - assert (0 < 2 ^ (- e)) as HP by (apply Z.pow_pos_nonneg; lia). specialize (Hmod _ HP).
    set (P := 2 ^ (- e)) in *. clearbody P.
    pose proof (Z.div_mod v P ltac:(lia)) as Hd. pose proof (Z.mod_pos_bound v P HP) as Hb.
    set (q := v / P) in *. clearbody q. set (r := v mod P) in *. clearbody r.
    assert (P * q <= v < P * q + P) by lia.
    destruct (Z.leb_spec TEN_20 q); [f_equal; symmetry; apply Z.compare_lt_iff; nia|].
    destruct (Z.leb_spec q (- TEN_20)); [f_equal; symmetry; apply Z.compare_gt_iff; nia|].
    destruct (Z.compare_spec i q) as [->|Hlt|Hgt].
    + destruct (Z.eqb_spec (Zpos m mod P) 0) as [Hz|Hz]; f_equal; symmetry.
      * apply Hmod in Hz. apply Z.compare_eq_iff. lia.
      * rewrite Hmod in Hz. apply Z.compare_lt_iff. lia.
    + f_equal. symmetry. apply Z.compare_lt_iff. nia.
    + f_equal. symmetry. apply Z.compare_gt_iff. nia.
Qed.

Lemma integer_bound_exact_witness :
  cmp_int_to_f64 9007199254740993 (f64_of_Z 9007199254740992)
  = Some (exact_compare 9007199254740993 false 4503599627370496 1).
Proof. apply (integer_bound_exact 9007199254740993 false 4503599627370496 1). vm_compute. split; reflexivity. Defined.
