(* ===== verification/WriteMode.v ===== *)
(** Keyed writes: crates/core/src/write_mode.rs, and [canonical_json] of util.rs.

    A page written in upsert or delete mode is planned: rows are split into
    upserts and deletes, the last row of a key wins, and rows without a key are
    reported. JSON text of scalars is serde_json's and a parameter. *)
From S2P Require Import Prelude Errors Float64 Json Text Drift Quality Contract.
From Stdlib Require Import Floats.SpecFloat Ascii.

Local Open Scope Z_scope.

Inductive WriteMode := Append | Upsert | Delete | Overwrite.
Definition write_mode_str (m : WriteMode) : string :=
  match m with
  | Append => "append" | Upsert => "upsert" | Delete => "delete" | Overwrite => "overwrite"
  end.

(** [struct DeleteMarker]. *)
Record DeleteMarker := MkDeleteMarker { dm_field : string; dm_values : list string }.

(** [enum OverwriteScope] with its [validate]. *)
Inductive OverwriteScope := Window (column : string) (from to : Value).
Definition scope_validate (s : OverwriteScope) : result unit FaucetError :=
  let '(Window column from to) := s in
  if string_eqb (trim column) EmptyString then
    Err (Config "overwrite scope: window `column` must not be empty")
  else if is_null from || is_null to then
    Err (Config "overwrite scope: window `from`/`to` must not be null")
  else Ok tt.

(** [struct WriteSpec]; the rollback settings do not steer the plan. *)
Record WriteSpec := MkWriteSpec {
  ws_write_mode : WriteMode;
  ws_key : list string;
  ws_delete_marker : option DeleteMarker;
}.

(** [WriteSpec::validate]. *)
Definition spec_validate (s : WriteSpec) : result unit FaucetError :=
  match ws_write_mode s, ws_key s with
  | (Upsert | Delete) as m, [] =>
      Err (Config ("write_mode: " +:+ write_mode_str m +:+ " requires a non-empty `key`"))
  | _, _ => Ok tt
  end.

(** [WriteSpec::dedups_by_key], [WriteSpec::is_overwrite]. *)
Definition spec_dedups_by_key (s : WriteSpec) : bool :=
  match ws_write_mode s with Upsert | Delete => negb (is_nil (ws_key s)) | _ => false end.
Definition spec_is_overwrite (s : WriteSpec) : bool :=
  match ws_write_mode s with Overwrite => true | _ => false end.

(** [struct KeyTuple]. *)
Definition KeyTuple : Type := list (string * Value).

(** [struct WritePlan]. *)
Record WritePlan := MkWritePlan {
  upserts : list Value;
  deletes : list KeyTuple;
  plan_failed : list (nat * string);
}.

(** [enum Action]. *)
Inductive Action := AUpsert (v : Value) | ADelete (k : KeyTuple).

(** [extract_key]. *)
Fixpoint extract_columns (obj : list (string * Value)) (key : list string) : result KeyTuple string :=
  match key with
  | [] => Ok []
  | col :: key =>
      match assoc col obj with
      | None => Err ("missing key column '" +:+ col +:+ "'")
      | Some Null => Err ("null value for key column '" +:+ col +:+ "'")
      | Some v => result_bind (extract_columns obj key) (fun k => Ok ((col, v) :: k))
      end
  end.
Definition extract_key (rec : Value) (key : list string) : result KeyTuple string :=
  match as_object rec with
  | None => Err "record is not a JSON object"
  | Some obj => extract_columns obj key
  end.

(** [record_key], [key_failures]. *)
Definition record_key (rec : Value) (key : list string) : option KeyTuple :=
  result_ok (extract_key rec key).
Definition key_failures (page : list Value) (spec : WriteSpec) : list (nat * string) :=
  omap (fun '(rec, i) => match extract_key rec (ws_key spec) with Err m => Some (i, m) | Ok _ => None end)
    (indexed 0 page).

(** [is_delete_marked], [strip_marker]. *)
Definition is_delete_marked (rec : Value) (marker : option DeleteMarker) : bool :=
  match marker with
  | None => false
  | Some dm =>
      match get rec (dm_field dm) ≫= as_str with
      | Some s => existsb (string_eqb s) (dm_values dm)
      | None => false
      end
  end.
Definition strip_marker (rec : Value) (marker : option DeleteMarker) : Value :=
  match marker, rec with
  | Some dm, VObject map => VObject (assoc_remove (dm_field dm) map)
  | _, _ => rec
  end.

(** The delete test of the planners. *)
Definition row_is_delete (spec : WriteSpec) (rec : Value) : bool :=
  match ws_write_mode spec with
  | Delete => true
  | Upsert => is_delete_marked rec (ws_delete_marker spec)
  | Append | Overwrite => false
  end.

(** The planner's variables: failures, the slot of each key, the actions. *)
Record planner := MkPlanner {
  pl_failed : list (nat * string);
  pl_index : gmap string nat;
  pl_order : list Action;
}.

(** The keyed table a plan is applied to. *)
Local Notation table := (gmap string Value).

Section Plan.
Context (canonical : KeyTuple -> string) (spec : WriteSpec).

(** The action of a keyed row. *)
Definition row_action (rec : Value) (key_tuple : KeyTuple) : Action :=
  if row_is_delete spec rec then ADelete key_tuple
  else AUpsert (strip_marker rec (ws_delete_marker spec)).

(** One row of [plan_writes_by]. *)
Definition plan_row (p : planner) (row : Value * nat) : planner :=
  let '(rec, i) := row in
  match extract_key rec (ws_key spec) with
  | Err msg => MkPlanner (pl_failed p ++ [(i, msg)]) (pl_index p) (pl_order p)
  | Ok key_tuple =>
      let canon := canonical key_tuple in
      let action := row_action rec key_tuple in
      match pl_index p !! canon with
      | Some slot => MkPlanner (pl_failed p) (pl_index p) (<[slot := action]> (pl_order p))
      | None => MkPlanner (pl_failed p) (<[canon := length (pl_order p)]> (pl_index p))
                  (pl_order p ++ [action])
      end
  end.

Definition planned (page : list Value) : planner :=
  foldl plan_row (MkPlanner [] ∅ []) (indexed 0 page).

(** [plan_writes_by]. *)
Definition plan_writes_by (page : list Value) : WritePlan :=
  let p := planned page in
  MkWritePlan (omap (fun a => match a with AUpsert v => Some v | ADelete _ => None end) (pl_order p))
    (omap (fun a => match a with ADelete k => Some k | AUpsert _ => None end) (pl_order p))
    (pl_failed p).

(** The flush of [plan_writes_ordered]: rows [start..end_], failures dropped. *)
Definition flush_run (page : list Value) (start end_ : nat) : WritePlan :=
  let plan := plan_writes_by (slice start (end_ - start) page) in
  MkWritePlan (upserts plan) (deletes plan) [].

(** [plan_writes_ordered]: the plans so far, the start of the current run and
    its kind. *)
Definition ordered_row (page : list Value) (acc : list WritePlan * option nat * bool) (row : Value * nat) :
    list WritePlan * option nat * bool :=
  let '(plans, run_start, run_is_delete) := acc in
  let '(rec, i) := row in
  match extract_key rec (ws_key spec) with
  | Err _ => acc
  | Ok _ =>
      let is_delete := row_is_delete spec rec in
      match run_start with
      | Some start =>
          if Bool.eqb is_delete run_is_delete then (plans, run_start, is_delete)
          else (plans ++ [flush_run page start i], Some i, is_delete)
      | None => (plans, Some i, is_delete)
      end
  end.
Definition plan_writes_ordered_by (page : list Value) : list WritePlan :=
  let '(plans, run_start, _) := foldl (ordered_row page) ([], None, false) (indexed 0 page) in
  match run_start with
  | Some start => plans ++ [flush_run page start (length page)]
  | None => plans
  end.

(** ** Applying a plan *)

(** What a row, an upserted row or a deleted key does to the table. *)
Definition update : Type := string * option Value.
Definition apply_updates (us : list update) (t : table) : table :=
  foldl (fun t u => partial_alter (fun _ => u.2) u.1 t) t us.

Definition row_update (rec : Value) : option update :=
  match extract_key rec (ws_key spec) with
  | Ok k => Some (canonical k, if row_is_delete spec rec then None
                               else Some (strip_marker rec (ws_delete_marker spec)))
  | Err _ => None
  end.
Definition upsert_update (v : Value) : option update :=
  match extract_key v (ws_key spec) with Ok k => Some (canonical k, Some v) | Err _ => None end.
Definition delete_update (k : KeyTuple) : update := (canonical k, None).

(** The page applied row by row, and a plan: upserts, then deletes. *)
Definition apply_rows (page : list Value) (t : table) : table := apply_updates (omap row_update page) t.
Definition apply_plan (p : WritePlan) (t : table) : table :=
  apply_updates (delete_update <$> deletes p) (apply_updates (omap upsert_update (upserts p)) t).

End Plan.

(** ** Text of keys *)


(** [str::replace('\'', "''")]. *)
Fixpoint double_quotes (s : string) : string :=
  match s with
  | EmptyString => EmptyString
  | String c s =>
      if Ascii.eqb c "'" then String c (String c (double_quotes s)) else String c (double_quotes s)
  end.

(** [numeric_value]: whole floats as the integers they equal. *)
Definition numeric_number (n : Number) : Number :=
  match n with
  | Float f =>
      match f64_floor f with
      | Some z =>
          if f64_integral f && (- 2 ^ 63 <=? z) && (z <? 2 ^ 63) then
            (if z <? 0 then NegInt z else PosInt z)
          else if f64_integral f && (0 <=? z) && (z <? 2 ^ 64) then PosInt z
          else n
      | None => n
      end
  | _ => n
  end.
Fixpoint numeric_value (v : Value) : Value :=
  match v with
  | VNumber n => VNumber (numeric_number n)
  | VArray items => VArray (map numeric_value items)
  | VObject m => VObject (map (fun e => (e.1, numeric_value e.2)) m)
  | _ => v
  end.

Section KeyText.
(** serde_json's text of a string and of a float. *)
Context (json_str : string -> string) (float_str : f64 -> string).

(** [Number::to_string]. *)
Definition number_str (n : Number) : string :=
  match n with
  | PosInt n => dec n
  | NegInt n => i64_str n
  | Float f => float_str f
  end.

(** [canonical_json] (util.rs): compact text, object keys sorted. *)
Fixpoint canonical_json (v : Value) : string :=
  match v with
  | VObject m =>
      let entries := sort_by fst (map (fun e => (e.1, canonical_json e.2)) m) in
      "{" +:+ join "," ((fun e => json_str e.1 +:+ ":" +:+ e.2) <$> entries) +:+ "}"
  | VArray items => "[" +:+ join "," (map canonical_json items) +:+ "]"
  | Null => "null"
  | VBool b => bool_str b
  | VNumber n => number_str n
  | VString s => json_str s
  end.

(** [key_scalar_text]. *)
Definition key_scalar_text (v : Value) : string :=
  match v with
  | VString s => s
  | VNumber (Float f) =>
      match f64_floor f with
      | Some z => if f64_integral f && (Z.abs z <? 9007199254740992) then i64_str z else float_str f
      | None => float_str f
      end
  | VNumber n => number_str n
  | VBool b => bool_str b
  | other => canonical_json other
  end.

(** [canonical]: the key's texts as a JSON array of strings. *)
Definition canonical (k : KeyTuple) : string :=
  "[" +:+ join "," ((fun e => json_str (key_scalar_text e.2)) <$> k) +:+ "]".
Definition canonical_exact (k : KeyTuple) : string :=
  canonical_json (VArray ((fun e => numeric_value e.2) <$> k)).

(** [plan_writes], [plan_writes_exact], [plan_writes_ordered]. *)
Definition plan_writes (page : list Value) (spec : WriteSpec) : WritePlan := plan_writes_by canonical spec page.
Definition plan_writes_exact (page : list Value) (spec : WriteSpec) : WritePlan :=
  plan_writes_by canonical_exact spec page.
Definition plan_writes_ordered (page : list Value) (spec : WriteSpec) : list WritePlan :=
  plan_writes_ordered_by canonical spec page.

(** [key_to_doc_id]; the separator is not used. *)
Definition key_to_doc_id (k : KeyTuple) (separator : string) : string :=
  match k with
  | [(_, VString s)] => s
  | [(_, other)] => canonical_json other
  | _ => canonical_json (VArray k.*2)
  end.

(** [sql_literal], [render_where_literal]. *)
Definition sql_literal (v : Value) : string :=
  match v with
  | VString s => "'" +:+ double_quotes s +:+ "'"
  | VNumber n => number_str n
  | VBool b => bool_str b
  | _ => "NULL"
  end.
Definition render_where_literal (s : OverwriteScope) (quoted_col : string) : string :=
  let '(Window _ from to) := s in
  quoted_col +:+ " >= " +:+ sql_literal from +:+ " AND " +:+ quoted_col +:+ " < " +:+ sql_literal to.

End KeyText.

(** An ANSI reader of a string literal, from just after the opening quote: the
    text and what follows the literal. A doubled quote stands for one. *)
Fixpoint read_literal (s : string) : option (string * string) :=
  match s with
  | EmptyString => None
  | String c s' =>
      if Ascii.eqb c "'" then
        match s' with
        | String c' s'' =>
            if Ascii.eqb c' "'" then
              match read_literal s'' with Some (t, r) => Some (String c t, r) | None => None end
            else Some (EmptyString, s')
        | EmptyString => Some (EmptyString, s')
        end
      else match read_literal s' with Some (t, r) => Some (String c t, r) | None => None end
  end.
(** Text that does not continue a literal. *)
Definition no_quote_first (s : string) : Prop :=
  match s with String c _ => c <> "'"%char | EmptyString => True end.

(** Rows as serde_json holds them: an object's keys are unique. *)
Definition row_wf (rec : Value) : Prop :=
  match rec with VObject m => NoDup m.*1 | _ => True end.
(** The marker is not itself part of the key. *)
Definition marker_outside_key (spec : WriteSpec) : Prop :=
  match ws_delete_marker spec with Some dm => dm_field dm ∉ ws_key spec | None => True end.

(** ** Facts *)

Lemma apply_updates_app us us' t : apply_updates (us ++ us') t = apply_updates us' (apply_updates us t).
Proof. apply foldl_app. Qed.

Lemma apply_updates_cons u us t : apply_updates (u :: us) t = apply_updates us (partial_alter (fun _ => u.2) u.1 t).
Proof. reflexivity. Qed.

Lemma apply_updates_other us t k : k ∉ us.*1 -> apply_updates us t !! k = t !! k.
Proof.
  revert t. induction us as [|[k' v] us IH]; intros t Hk; [done|].
  rewrite fmap_cons, not_elem_of_cons in Hk. destruct Hk as [? ?].
  rewrite apply_updates_cons, IH by done. by apply lookup_partial_alter_ne.
Qed.

Lemma apply_updates_lookup us t k v :
  NoDup us.*1 -> (k, v) ∈ us -> apply_updates us t !! k = v.
Proof.
  revert t. induction us as [|[k' v'] us IH]; intros t Hnd Hin; [by apply not_elem_of_nil in Hin|].
  rewrite fmap_cons, NoDup_cons in Hnd. destruct Hnd as [Hni Hnd].
  rewrite apply_updates_cons. apply elem_of_cons in Hin as [[= -> ->]|Hin]; [|by apply IH].
  rewrite apply_updates_other by done. apply lookup_partial_alter_eq.
Qed.

(** Updates of distinct keys commute. *)
Lemma apply_updates_perm us us' t :
  NoDup us.*1 -> us ≡ₚ us' -> apply_updates us t = apply_updates us' t.
Proof.
  intros Hnd Hp. assert (NoDup us'.*1) as Hnd' by (by rewrite <- Hp).
  apply map_eq. intros k. destruct (decide (k ∈ us.*1)) as [Hk|Hk].
  - apply list_elem_of_fmap in Hk as ([k' v] & -> & Hin).
    change (apply_updates us t !! k' = apply_updates us' t !! k').
    assert ((k', v) ∈ us') by (by rewrite <- Hp).
    by rewrite (apply_updates_lookup us t k' v), (apply_updates_lookup us' t k' v).
  - rewrite !apply_updates_other; [done| |done]. by rewrite <- Hp.
Qed.

(** Overwriting the update of a key in place is updating the key afterwards. *)
Lemma apply_updates_insert us t i k v v' :
  NoDup us.*1 -> us !! i = Some (k, v') ->
  apply_updates (<[i := (k, v)]> us) t = partial_alter (fun _ => v) k (apply_updates us t).
Proof.
  intros Hnd Hi. pose proof (lookup_lt_Some _ _ _ Hi) as Hlt.
  assert ((<[i := (k, v)]> us).*1 = us.*1) as Hks.
  { rewrite list_fmap_insert. simpl. apply list_insert_id. by rewrite list_lookup_fmap, Hi. }
  apply map_eq. intros k'. destruct (decide (k' = k)) as [->|Hne].
  - rewrite lookup_partial_alter_eq. apply apply_updates_lookup; [by rewrite Hks|].
    apply list_elem_of_lookup_2 with i. by apply list_lookup_insert_eq.
  - rewrite lookup_partial_alter_ne by congruence. destruct (decide (k' ∈ us.*1)) as [Hk|Hk].
    + apply list_elem_of_fmap in Hk as ([k2 w] & -> & [j Hj]%list_elem_of_lookup).
      simpl in Hne. change (apply_updates (<[i := (k, v)]> us) t !! k2 = apply_updates us t !! k2).
      rewrite (apply_updates_lookup us t k2 w) by (done || by eapply list_elem_of_lookup_2).
      apply apply_updates_lookup; [by rewrite Hks|].
      apply list_elem_of_lookup_2 with j. rewrite list_lookup_insert_ne; [done|]. intros ->. congruence.
    + rewrite !apply_updates_other; [done|done|by rewrite Hks].
Qed.

Lemma extract_strip spec rec :
  row_wf rec -> marker_outside_key spec ->
  extract_key (strip_marker rec (ws_delete_marker spec)) (ws_key spec) = extract_key rec (ws_key spec).
Proof.
  unfold strip_marker, marker_outside_key. destruct (ws_delete_marker spec) as [dm|]; [|done].
  destruct rec as [| | | | |m]; try done. simpl. intros Hwf Hk.
  assert (forall col, col ∈ ws_key spec -> assoc col (assoc_remove (dm_field dm) m) = assoc col m) as Ha.
  { intros col Hc. apply assoc_remove_ne; [done|]. intros ->. done. }
  unfold extract_key. simpl. clear Hk. induction (ws_key spec) as [|col key IH]; [done|]. simpl.
  rewrite Ha by left. rewrite IH; [done|]. intros c Hc. apply Ha. by right.
Qed.

(** The slots of the index: one per key, in the order of first use. *)
Definition slots_ok (ix : gmap string nat) (ks : list string) : Prop :=
  NoDup ks /\ forall k i, ix !! k = Some i <-> ks !! i = Some k.

Lemma slots_snoc ix ks k :
  slots_ok ix ks -> ix !! k = None -> slots_ok (<[k := length ks]> ix) (ks ++ [k]).
Proof.
  intros [Hnd Hix] Hk. assert (k ∉ ks) as Hni.
  { intros [i Hi]%list_elem_of_lookup. apply Hix in Hi. congruence. }
  split.
  - apply NoDup_app. split_and!; [done| |apply NoDup_singleton].
    intros x Hx Hx'. apply list_elem_of_singleton in Hx'. by subst x.
  - intros k2 i. rewrite lookup_snoc_Some. destruct (decide (k2 = k)) as [->|Hne].
    + rewrite lookup_insert_eq. split; [intros [= <-]; by right|].
      intros [[_ Hi]|[-> _]]; [|done]. exfalso. apply Hni. by eapply list_elem_of_lookup_2.
    + rewrite lookup_insert_ne, Hix by done. split; [|intros [[_ ?]|[_ ?]]; [done|congruence]].
      left. split; [by eapply lookup_lt_Some|done].
Qed.

Section PlanFacts.
Context (canonical : KeyTuple -> string) (spec : WriteSpec) (Hm : marker_outside_key spec).

(** What an action does to the table. *)
Definition action_update (a : Action) : option update :=
  match a with
  | AUpsert v => upsert_update canonical spec v
  | ADelete k => Some (delete_update canonical k)
  end.

(** An action of the plan stands for a row of the page. *)
Definition from_row (rows : list Value) (a : Action) : Prop :=
  exists rec k, rec ∈ rows /\ extract_key rec (ws_key spec) = Ok k /\ a = row_action spec rec k.

(** The planner after the rows [done_]: one action per key, in step with the
    index, equivalent to the rows. *)
Definition planner_inv (done_ : list Value) (p : planner) : Prop :=
  exists us,
    Forall2 (fun a u => action_update a = Some u) (pl_order p) us /\ slots_ok (pl_index p) us.*1 /\
    (forall t, apply_updates us t = apply_rows canonical spec done_ t) /\
    (forall k, k ∈ us.*1 <-> k ∈ (omap (row_update canonical spec) done_).*1) /\
    Forall (from_row done_) (pl_order p) /\
    pl_failed p = key_failures done_ spec.

Lemma key_failures_snoc l rec :
  key_failures (l ++ [rec]) spec = key_failures l spec ++
    match extract_key rec (ws_key spec) with Err m => [(length l, m)] | Ok _ => [] end.
Proof.
  unfold key_failures. rewrite indexed_app, omap_app. f_equal. unfold indexed. simpl.
  by destruct (extract_key rec (ws_key spec)).
Qed.

Lemma apply_rows_snoc l rec t :
  apply_rows canonical spec (l ++ [rec]) t =
  match row_update canonical spec rec with
  | Some u => partial_alter (fun _ => u.2) u.1 (apply_rows canonical spec l t)
  | None => apply_rows canonical spec l t
  end.
Proof.
  unfold apply_rows. rewrite omap_app, apply_updates_app. simpl. by destruct (row_update canonical spec rec).
Qed.

Lemma row_action_update rec k :
  row_wf rec -> extract_key rec (ws_key spec) = Ok k ->
  action_update (row_action spec rec k) = row_update canonical spec rec.
Proof.
  intros Hwf Hk. pose proof (extract_strip spec rec Hwf Hm) as Hstrip. unfold row_action, row_update. rewrite Hk.
  destruct (row_is_delete spec rec); [done|]. simpl. unfold upsert_update. by rewrite Hstrip, Hk.
Qed.

Lemma from_row_weaken l l' a : l ⊆ l' -> from_row l a -> from_row l' a.
Proof. intros Hl (rec & k & ? & ? & ?). exists rec, k. split; [by apply Hl|done]. Qed.

Lemma plan_row_inv l rec p :
  row_wf rec -> planner_inv l p -> planner_inv (l ++ [rec]) (plan_row canonical spec p (rec, length l)).
Proof.
  intros Hwf (us & Hus & Hsl & Happ & Hks & Hfrom & Hf).
  assert (Forall (from_row (l ++ [rec])) (pl_order p)) as Hfrom'.
  { eapply Forall_impl; [exact Hfrom|]. intros a. apply from_row_weaken. set_solver. }
  unfold plan_row. destruct (extract_key rec (ws_key spec)) as [k|msg] eqn:Hk.
  2: { exists us. assert (row_update canonical spec rec = None) as Hu by (unfold row_update; by rewrite Hk).
    split_and!; [done|done| | |done|by simpl; rewrite key_failures_snoc, Hk, Hf].
    - intros t. by rewrite apply_rows_snoc, Hu.
    - intros k. rewrite omap_app. simpl. by rewrite Hu, app_nil_r. }
  pose proof (row_action_update rec k Hwf Hk) as Ha.
  assert (from_row (l ++ [rec]) (row_action spec rec k)) as Hfr by (exists rec, k; set_solver).
  assert (exists w, row_update canonical spec rec = Some (canonical k, w)) as [w Hu].
  { unfold row_update. rewrite Hk. by eexists. }
  assert (pl_failed p = key_failures (l ++ [rec]) spec) as Hf' by (by rewrite key_failures_snoc, Hk, app_nil_r).
  assert (forall k2, k2 ∈ (omap (row_update canonical spec) (l ++ [rec])).*1 <-> k2 ∈ us.*1 \/ k2 = canonical k) as Hks'.
  { intros k2. rewrite omap_app, fmap_app, elem_of_app, <- Hks. simpl. rewrite Hu. simpl.
    by rewrite list_elem_of_singleton. }
  rewrite Hu in Ha. destruct (pl_index p !! canonical k) as [slot|] eqn:Hslot.
  - pose proof Hslot as Hat. destruct Hsl as [Hnd Hix]. apply Hix in Hat. pose proof Hat as Hin.
    apply list_elem_of_lookup_2 in Hin. rewrite list_lookup_fmap in Hat.
    apply fmap_Some in Hat as ([k' v'] & Hat & Hk'). simpl in Hk'. subst k'.
    assert ((<[slot := (canonical k, w)]> us).*1 = us.*1) as Hsame.
    { rewrite list_fmap_insert. apply list_insert_id. by rewrite list_lookup_fmap, Hat. }
    exists (<[slot := (canonical k, w)]> us). rewrite Hsame.
    split_and!; [by apply Forall2_insert|done| | |by apply Forall_insert|done].
    + intros t. rewrite apply_rows_snoc, Hu, <- Happ. by apply (apply_updates_insert us t slot _ _ v').
    + intros k2. rewrite Hks'. set_solver.
  - exists (us ++ [(canonical k, w)]). rewrite fmap_app.
    split_and!; [apply Forall2_app; [done|by repeat constructor]| | | | |done].
    + assert (length (pl_order p) = length us.*1) as Hlen by (rewrite length_fmap; exact (Forall2_length _ _ _ Hus)).
      simpl. rewrite Hlen. by apply slots_snoc.
    + intros t. by rewrite apply_rows_snoc, Hu, apply_updates_app, Happ.
    + intros k2. rewrite Hks', elem_of_app. simpl. by rewrite list_elem_of_singleton.
    + apply Forall_app. split; [done|by repeat constructor].
Qed.

Lemma planned_inv page : Forall row_wf page -> planner_inv page (planned canonical spec page).
Proof.
  induction page as [|rec page IH] using rev_ind; intros Hwf.
  { exists []. split_and!; try done. split; [apply NoDup_nil_2|done]. }
  apply Forall_app in Hwf as [Hwf Hrec]. inversion Hrec; subst.
  unfold planned. rewrite indexed_app, foldl_app. apply plan_row_inv; [done|]. by apply IH.
Qed.

(** The plan's upserts and deletes are the planner's updates, reordered. *)
Lemma plan_split order us :
  Forall2 (fun a u => action_update a = Some u) order us ->
  omap (upsert_update canonical spec) (omap (fun a => match a with AUpsert v => Some v | ADelete _ => None end) order) ++
  (delete_update canonical <$> omap (fun a => match a with ADelete k => Some k | AUpsert _ => None end) order) ≡ₚ us.
Proof.
  induction 1 as [|a u order us Ha _ IH]; [done|]. destruct a as [v|k]; simpl in Ha |- *.
  - rewrite Ha. simpl. by rewrite IH.
  - injection Ha as <-. by rewrite <- Permutation_middle, IH.
Qed.

Lemma plan_is_sequential page t :
  Forall row_wf page ->
  apply_plan canonical spec (plan_writes_by canonical spec page) t = apply_rows canonical spec page t.
Proof.
  intros Hwf. destruct (planned_inv page Hwf) as (us & Hus & [Hnd _] & Happ & _).
  unfold apply_plan, plan_writes_by. simpl. rewrite <- Happ, <- apply_updates_app.
  pose proof (plan_split _ _ Hus) as Hp. apply apply_updates_perm; [|done]. by rewrite Hp.
Qed.

(** Every keyed row is stood for by an action with its key. *)
Lemma plan_covers page rec k :
  Forall row_wf page -> rec ∈ page -> extract_key rec (ws_key spec) = Ok k ->
  exists a w, a ∈ pl_order (planned canonical spec page) /\ action_update a = Some (canonical k, w).
Proof.
  intros Hwf Hin Hk. destruct (planned_inv page Hwf) as (us & Hus & _ & _ & Hks & _).
  assert (canonical k ∈ us.*1) as Hu.
  { apply Hks. apply list_elem_of_fmap. eexists (_, _). split; [|apply list_elem_of_omap; exists rec; split; [done|]].
    2: unfold row_update; by rewrite Hk. done. }
  apply list_elem_of_fmap in Hu as ([? w] & -> & [i Hi]%list_elem_of_lookup).
  destruct (Forall2_lookup_r _ _ _ _ _ Hus Hi) as (a & Hai & Ha).
  exists a, w. split; [by eapply list_elem_of_lookup_2|done].
Qed.

End PlanFacts.

(** ** Runs of one kind *)

(** The updates a plan applies, in its order. *)
Definition plan_updates (dest : KeyTuple -> string) (spec : WriteSpec) (p : WritePlan) : list update :=
  omap (upsert_update dest spec) (upserts p) ++ (delete_update dest <$> deletes p).

Lemma apply_plan_updates dest spec p t : apply_plan dest spec p t = apply_updates (plan_updates dest spec p) t.
Proof. unfold apply_plan, plan_updates. by rewrite apply_updates_app. Qed.

(** An update that removes its key, or writes it. *)
Definition update_kind (b : bool) (u : update) : Prop := if b then u.2 = None else is_Some u.2.

Lemma dom_updates b us (t : table) :
  Forall (update_kind b) us ->
  dom (apply_updates us t) =
    (if b then dom t ∖ list_to_set us.*1 else dom t ∪ list_to_set us.*1 : gset string).
Proof.
  intros Hus. revert t. induction Hus as [|[k v] us Hu Hus IH]; intros t.
  { simpl. destruct b; set_solver. }
  rewrite apply_updates_cons, IH, fmap_cons, list_to_set_cons. simpl in *.
  destruct b; simpl in Hu; [subst v|destruct Hu as [v' ->]].
  - change (partial_alter _ k t) with (delete k t). rewrite dom_delete_L. set_solver.
  - change (partial_alter _ k t) with (<[k := v']> t). rewrite dom_insert_L. set_solver.
Qed.

Section Runs.
Context (canonical dest : KeyTuple -> string) (spec : WriteSpec) (Hm : marker_outside_key spec).
(** The destination may identify more keys than the planner. *)
Context (Hdest : forall k k', canonical k = canonical k' -> dest k = dest k').

(** The keyed rows of a run are all deletes, or all upserts. *)
Definition run_kind (b : bool) (run : list Value) : Prop :=
  Forall (fun rec => forall k, extract_key rec (ws_key spec) = Ok k -> row_is_delete spec rec = b) run.

Lemma row_update_kind b run u :
  run_kind b run -> u ∈ omap (row_update dest spec) run -> update_kind b u.
Proof.
  intros Hrun (rec & Hin & Hu)%list_elem_of_omap. unfold run_kind in Hrun. rewrite Forall_forall in Hrun.
  specialize (Hrun rec Hin). unfold row_update in Hu. destruct (extract_key rec (ws_key spec)) as [k|]; [|done].
  injection Hu as <-. rewrite (Hrun k eq_refl). by destruct b; [|eexists].
Qed.

(** The plan's updates at the destination, and the rows' they stand for. *)
Lemma plan_dest_updates run :
  Forall row_wf run ->
  let us := plan_updates dest spec (plan_writes_by canonical spec run) in
  (forall u, u ∈ us -> u ∈ omap (row_update dest spec) run) /\
  (forall u, u ∈ omap (row_update dest spec) run -> u.1 ∈ us.*1).
Proof.
  intros Hwf us. destruct (planned_inv canonical spec Hm run Hwf) as (_ & _ & _ & _ & _ & Hfrom & _).
  set (order := pl_order (planned canonical spec run)) in *.
  pose proof Hwf as Hall. rewrite Forall_forall in Hfrom. rewrite Forall_forall in Hwf.
  assert (forall a, a ∈ order -> exists u, action_update dest spec a = Some u /\
    u ∈ omap (row_update dest spec) run) as Hact.
  { intros a (rec & k & Hin & Hk & ->)%Hfrom. rewrite (row_action_update dest spec Hm rec k) by auto.
    unfold row_update at 1. rewrite Hk. eexists. split; [done|]. apply list_elem_of_omap. exists rec.
    split; [done|]. unfold row_update. by rewrite Hk. }
  assert (exists us', Forall2 (fun a u => action_update dest spec a = Some u) order us' /\
    forall u, u ∈ us' -> u ∈ omap (row_update dest spec) run) as (us' & Hus' & Hrows).
  { clearbody order. clear -Hact. induction order as [|a order IH]; [exists []; split; [constructor|set_solver]|].
    destruct (Hact a) as (u & Hu & Hin); [left|]. destruct IH as (us' & ? & ?); [intros; apply Hact; by right|].
    exists (u :: us'). split; [by constructor|]. intros ? [->|?]%elem_of_cons; auto. }
  assert (us ≡ₚ us') as Hp by exact (plan_split dest spec order us' Hus').
  split; [intros u; rewrite Hp; apply Hrows|]. intros u (rec & Hin & Hu)%list_elem_of_omap. rewrite Hp.
  unfold row_update in Hu. destruct (extract_key rec (ws_key spec)) as [k|] eqn:Hk; [|done]. injection Hu as <-.
  destruct (plan_covers canonical spec Hm run rec k) as (a & w & Ha & Hau); [exact Hall|done|done|].
  destruct (Hfrom a Ha) as (rec2 & k2 & Hin2 & Hk2 & ->).
  rewrite (row_action_update canonical spec Hm rec2 k2) in Hau by auto. unfold row_update in Hau. rewrite Hk2 in Hau.
  injection Hau as Hc _. apply Hdest in Hc. simpl. rewrite <- Hc.
  apply list_elem_of_lookup in Ha as [i Hi]. destruct (Forall2_lookup_l _ _ _ _ _ Hus' Hi) as (u & Hui & Hu).
  rewrite (row_action_update dest spec Hm rec2 k2) in Hu by auto. unfold row_update in Hu. rewrite Hk2 in Hu.
  injection Hu as <-. apply list_elem_of_fmap. eexists. split; [|by eapply list_elem_of_lookup_2]. done.
Qed.

(** A run of one kind leaves the same keys present as its rows do. *)
Lemma run_presence b run (t t' : table) :
  Forall row_wf run -> run_kind b run -> dom t = dom t' ->
  dom (apply_plan dest spec (plan_writes_by canonical spec run) t) = dom (apply_rows dest spec run t').
Proof.
  intros Hwf Hrun Ht. destruct (plan_dest_updates run Hwf) as [Hsub Hcov].
  rewrite apply_plan_updates. unfold apply_rows.
  rewrite (dom_updates b), (dom_updates b), Ht.
  - set (us := plan_updates dest spec (plan_writes_by canonical spec run)) in *.
    assert (list_to_set us.*1 = (list_to_set (omap (row_update dest spec) run).*1 : gset string)) as ->; [|done].
    apply set_eq. intros x. rewrite !elem_of_list_to_set. split.
    + intros (u & -> & Hu)%list_elem_of_fmap. apply list_elem_of_fmap. eauto.
    + intros (u & -> & Hu)%list_elem_of_fmap. auto.
  - apply Forall_forall. intros u Hu. by eapply row_update_kind.
  - apply Forall_forall. intros u Hu%Hsub. by eapply row_update_kind.
Qed.

End Runs.

(** ** The runs of [plan_writes_ordered] *)

Section Ordered.
Context (canonical : KeyTuple -> string) (spec : WriteSpec).

Definition unkeyed (rec : Value) : Prop := forall k, extract_key rec (ws_key spec) <> Ok k.

Definition run_plan (run : list Value) : WritePlan :=
  let plan := plan_writes_by canonical spec run in MkWritePlan (upserts plan) (deletes plan) [].

(** After the rows [l]: the rows before the first key, the runs flushed and the
    run under way. *)
Definition ordered_inv (l : list Value) (acc : list WritePlan * option nat * bool) : Prop :=
  let '(plans, run_start, b) := acc in
  exists pre runs cur,
    l = (pre ++ concat runs) ++ cur /\ Forall unkeyed pre /\
    Forall (fun run => exists b, run_kind spec b run) runs /\ plans = run_plan <$> runs /\
    match run_start with
    | None => runs = [] /\ cur = []
    | Some start => start = length (pre ++ concat runs) /\ run_kind spec b cur
    end.

Lemma flush_run_slice (pre cur rest : list Value) :
  flush_run canonical spec ((pre ++ cur) ++ rest) (length pre) (length (pre ++ cur)) = run_plan cur.
Proof.
  unfold flush_run, run_plan, slice. rewrite <- app_assoc, drop_app_length, length_app.
  replace (length pre + length cur - length pre)%nat with (length cur) by lia. by rewrite take_app_length.
Qed.

Lemma ordered_row_inv l rec rest acc :
  ordered_inv l acc -> ordered_inv (l ++ [rec]) (ordered_row canonical spec (l ++ rec :: rest) acc (rec, length l)).
Proof.
  destruct acc as [[plans run_start] b]. intros (pre & runs & cur & Hl & Hpre & Hruns & Hplans & Hst).
  unfold ordered_row. destruct (extract_key rec (ws_key spec)) as [k|msg] eqn:Hk.
  2: { assert (unkeyed rec) as Hun by (intros k'; congruence). destruct run_start as [start|].
    - exists pre, runs, (cur ++ [rec]). destruct Hst as [-> Hb].
      split_and!; [by rewrite Hl, <- app_assoc|done..|].
      apply Forall_app. split; [done|]. constructor; [|done]. intros k' Hk'. by apply Hun in Hk'.
    - destruct Hst as [-> ->]. exists (pre ++ [rec]), [], []. simpl in *. rewrite !app_nil_r in *. subst l.
      split_and!; [done| |done|done|done|done]. apply Forall_app. by repeat constructor. }
  assert (run_kind spec (row_is_delete spec rec) [rec]) as Hrec by (by repeat constructor).
  destruct run_start as [start|].
  - destruct Hst as [-> Hb]. destruct (Bool.eqb (row_is_delete spec rec) b) eqn:Heq.
    + apply Bool.eqb_prop in Heq. exists pre, runs, (cur ++ [rec]).
      split_and!; [by rewrite Hl, <- app_assoc|done..|].
      apply Forall_app. rewrite <- Heq in Hb. by split.
    + exists pre, (runs ++ [cur]), [rec]. rewrite concat_app. simpl. rewrite app_nil_r, app_assoc.
      split_and!; [by rewrite Hl|done| | |by rewrite Hl|done].
      * apply Forall_app. split; [done|]. constructor; [by eexists|done].
      * rewrite Hl, flush_run_slice, fmap_app. by rewrite Hplans.
  - destruct Hst as [-> ->]. simpl in *. rewrite !app_nil_r in Hl. subst pre.
    exists l, [], [rec]. simpl. rewrite app_nil_r. by split_and!.
Qed.

Lemma ordered_fold_inv page l rest :
  page = l ++ rest -> ordered_inv l (foldl (ordered_row canonical spec page) ([], None, false) (indexed 0 l)).
Proof.
  revert rest. induction l as [|rec l IH] using rev_ind; intros rest Hp.
  { exists [], [], []. by split_and!. }
  rewrite indexed_app, foldl_app. rewrite <- app_assoc in Hp. specialize (IH _ Hp). simpl in Hp.
  rewrite Hp in IH |- *. by apply ordered_row_inv.
Qed.

(** The page is cut into runs of one kind, planned one by one. *)
Lemma ordered_runs page :
  exists pre runs, page = pre ++ concat runs /\ Forall unkeyed pre /\
    Forall (fun run => exists b, run_kind spec b run) runs /\
    plan_writes_ordered_by canonical spec page = run_plan <$> runs.
Proof.
  pose proof (ordered_fold_inv page page [] (eq_sym (app_nil_r page))) as Hinv.
  unfold plan_writes_ordered_by. destruct (foldl _ _ _) as [[plans run_start] b].
  destruct Hinv as (pre & runs & cur & Hl & Hpre & Hruns & -> & Hst). destruct run_start as [start|].
  - destruct Hst as [-> Hb]. exists pre, (runs ++ [cur]). rewrite concat_app. simpl. rewrite app_nil_r, app_assoc.
    split_and!; [done|done|apply Forall_app; split; [done|by repeat econstructor]|].
    rewrite fmap_app. f_equal. simpl. f_equal.
    pose proof (flush_run_slice (pre ++ concat runs) cur []) as Hf. rewrite app_nil_r, <- Hl in Hf. done.
  - destruct Hst as [-> ->]. exists pre, []. rewrite app_nil_r in Hl. by split_and!.
Qed.

Lemma apply_rows_app dest l l' t :
  apply_rows dest spec (l ++ l') t = apply_rows dest spec l' (apply_rows dest spec l t).
Proof. unfold apply_rows. by rewrite omap_app, apply_updates_app. Qed.

Lemma apply_rows_unkeyed dest pre t : Forall unkeyed pre -> apply_rows dest spec pre t = t.
Proof.
  unfold apply_rows. induction 1 as [|rec pre Hun _ IH]; [done|]. simpl. unfold row_update at 1.
  destruct (extract_key rec (ws_key spec)) as [k|] eqn:Hk; [by apply Hun in Hk|done].
Qed.

End Ordered.

Lemma run_plan_one_kind canonical spec b run :
  marker_outside_key spec -> Forall row_wf run -> run_kind spec b run ->
  upserts (run_plan canonical spec run) = [] \/ deletes (run_plan canonical spec run) = [].
Proof.
  intros Hm Hwf Hrun. destruct (planned_inv canonical spec Hm run Hwf) as (_ & _ & _ & _ & _ & Hfrom & _).
  unfold run_plan, plan_writes_by. simpl. unfold run_kind in Hrun. rewrite Forall_forall in Hrun.
  destruct b; [left|right]; induction Hfrom as [|a order (rec & k & Hin & Hk & ->) _ IH]; try done; simpl;
    unfold row_action; by rewrite (Hrun rec Hin k Hk).
Qed.

(** Plans applied one after another. *)
Definition apply_plans (dest : KeyTuple -> string) (spec : WriteSpec) (plans : list WritePlan) (t : table) : table :=
  foldl (fun t p => apply_plan dest spec p t) t plans.

Lemma runs_presence canonical dest spec runs (t t' : table) :
  marker_outside_key spec -> (forall k k', canonical k = canonical k' -> dest k = dest k') ->
  Forall (fun run => exists b, run_kind spec b run) runs -> Forall row_wf (concat runs) -> dom t = dom t' ->
  dom (apply_plans dest spec (run_plan canonical spec <$> runs) t) = dom (apply_rows dest spec (concat runs) t').
Proof.
  intros Hm Hd Hruns. revert t t'. induction Hruns as [|run runs [b Hb] _ IH]; intros t t' Hwf Ht; [done|].
  simpl in *. apply Forall_app in Hwf as [Hwf Hwf']. rewrite apply_rows_app. apply IH; [done|].
  exact (run_presence canonical dest spec Hm Hd b run t t' Hwf Hb Ht).
Qed.

Lemma runs_sequential canonical spec runs t :
  marker_outside_key spec -> Forall row_wf (concat runs) ->
  apply_plans canonical spec (run_plan canonical spec <$> runs) t = apply_rows canonical spec (concat runs) t.
Proof.
  intros Hm. revert t. induction runs as [|run runs IH]; intros t Hwf; [done|]. simpl in *.
  apply Forall_app in Hwf as [Hwf Hwf']. rewrite apply_rows_app, <- IH by done. unfold apply_plans.
  f_equal. exact (plan_is_sequential canonical spec Hm run t Hwf).
Qed.

(** A page with a marker column, for the witnesses: [Bob] is written, [bob] is
    deleted, a row has no key, [Bob] is deleted and written again. *)
Definition demo_spec : WriteSpec :=
  MkWriteSpec Upsert ["name"] (Some (MkDeleteMarker "op" ["delete"])).
Definition demo_row (name : string) (op : string) (n : Z) : Value :=
  VObject [("name", VString name); ("op", VString op); ("n", VNumber (PosInt n))].
Definition demo_page : list Value :=
  [demo_row "Bob" "write" 1; demo_row "bob" "delete" 2; VNumber (PosInt 3);
   demo_row "Bob" "delete" 4; demo_row "Bob" "write" 5].
Definition demo_canonical : KeyTuple -> string := canonical (fun s => s) (fun _ => EmptyString).
(** A destination that tells keys apart by their length only. *)
Definition demo_dest (k : KeyTuple) : string := dec (Z.of_nat (String.length (demo_canonical k))).

Lemma demo_page_wf : Forall row_wf demo_page.
Proof. repeat constructor; try (apply NoDup_cons; split); try set_solver; repeat constructor; set_solver. Qed.

Lemma demo_marker : marker_outside_key demo_spec.
Proof. intros H. apply list_elem_of_singleton in H. discriminate. Qed.

(** C35: planning a page loses nothing but its keyless rows. For any key text and
    any table, applying the plan (all upserts, then all deletes) leaves the table
    the page leaves when its rows are applied one by one in order, so the last row
    of a key wins whichever kind it is; the plan's failures are exactly the rows
    whose key cannot be read. The marker column must not be a key column. *)
Theorem plan_writes_is_sequential canonical spec page (t : table) :
  Forall row_wf page -> marker_outside_key spec ->
  apply_plan canonical spec (plan_writes_by canonical spec page) t = apply_rows canonical spec page t /\
  plan_failed (plan_writes_by canonical spec page) = key_failures page spec.
Proof.
  intros Hwf Hm. split; [by apply plan_is_sequential|].
  by destruct (planned_inv canonical spec Hm page Hwf) as (us & _ & _ & _ & _ & _ & Hf).
Qed.

Lemma plan_writes_is_sequential_witness :
  apply_plan demo_canonical demo_spec (plan_writes_by demo_canonical demo_spec demo_page) ∅ =
    apply_rows demo_canonical demo_spec demo_page ∅ /\
  plan_failed (plan_writes_by demo_canonical demo_spec demo_page) = key_failures demo_page demo_spec.
Proof. apply (plan_writes_is_sequential demo_canonical demo_spec demo_page ∅ demo_page_wf demo_marker). Defined.

Example demo_plan :
  plan_writes_by demo_canonical demo_spec demo_page =
  MkWritePlan [VObject [("name", VString "Bob"); ("n", VNumber (PosInt 5))]] [[("name", VString "bob")]]
    [(2%nat, "record is not a JSON object")].
Proof. vm_compute. reflexivity. Qed.

(** The runs of [plan_writes_ordered] are safe at a destination that
    identifies more keys than the planner (a case-insensitive collation): each
    plan holds only upserts or only deletes, and applying the plans in order
    leaves present exactly the keys the page's rows leave, so no delete undoes a
    later upsert. Where the destination distinguishes the planner's keys, the
    tables are equal. *)
Theorem ordered_runs_keep_presence canonical dest spec page (t : table) :
  Forall row_wf page -> marker_outside_key spec ->
  (forall k k', canonical k = canonical k' -> dest k = dest k') ->
  let plans := plan_writes_ordered_by canonical spec page in
  Forall (fun p => upserts p = [] \/ deletes p = []) plans /\
  dom (apply_plans dest spec plans t) = dom (apply_rows dest spec page t) /\
  apply_plans canonical spec plans t = apply_rows canonical spec page t.
Proof.
  intros Hwf Hm Hd plans. destruct (ordered_runs canonical spec page) as (pre & runs & -> & Hpre & Hruns & Hplans).
  apply Forall_app in Hwf as [_ Hwf]. unfold plans. rewrite Hplans, !apply_rows_app, !(apply_rows_unkeyed spec _ pre) by done.
  split_and!; [|by apply runs_presence|by apply runs_sequential].
  clear -Hm Hwf Hruns. induction Hruns as [|run runs [b Hb] _ IH]; [constructor|]. simpl in *.
  apply Forall_app in Hwf as [Hr Hwf]. constructor; [by eapply run_plan_one_kind|by apply IH].
Qed.

Lemma ordered_runs_keep_presence_witness :
  let plans := plan_writes_ordered_by demo_canonical demo_spec demo_page in
  Forall (fun p => upserts p = [] \/ deletes p = []) plans /\
  dom (apply_plans demo_dest demo_spec plans ∅) = dom (apply_rows demo_dest demo_spec demo_page ∅) /\
  apply_plans demo_canonical demo_spec plans ∅ = apply_rows demo_canonical demo_spec demo_page ∅.
Proof.
  apply (ordered_runs_keep_presence demo_canonical demo_dest demo_spec demo_page ∅ demo_page_wf demo_marker).
  intros k k' Hk. unfold demo_dest. by rewrite Hk.
Defined.

(** One plan for the page would delete the row at such a destination. *)
Example unordered_plan_deletes_reinserted_row :
  dom (apply_plan demo_dest demo_spec (plan_writes_by demo_canonical demo_spec demo_page) ∅) = ∅ /\
  dom (apply_rows demo_dest demo_spec demo_page ∅) = {[ "5" ]}.
Proof. split; vm_compute; reflexivity. Qed.

(** Within one run the order of differing spellings is that of their first row. *)
Example run_reorders_spellings :
  let page := [demo_row "Bob" "write" 1; demo_row "bob" "write" 2; demo_row "Bob" "write" 3] in
  apply_plans demo_dest demo_spec (plan_writes_ordered_by demo_canonical demo_spec page) ∅ !! "5" =
    Some (VObject [("name", VString "bob"); ("n", VNumber (PosInt 2))]) /\
  apply_rows demo_dest demo_spec page ∅ !! "5" =
    Some (VObject [("name", VString "Bob"); ("n", VNumber (PosInt 3))]).
Proof. split; vm_compute; reflexivity. Qed.

(** The reader of a literal undoes the doubling of its quotes. *)
Lemma read_double_quotes s rest :
  no_quote_first rest -> read_literal (double_quotes s +:+ "'" +:+ rest) = Some (s, rest).
Proof.
  intros Hr. induction s as [|c s IH].
  - destruct rest as [|c rest]; [done|]. apply Ascii.eqb_neq in Hr.
    change (read_literal (String "'" (String c rest)) = Some (EmptyString, String c rest)).
    cbn [read_literal]. by rewrite Hr.
  - cbn [double_quotes]. destruct (Ascii.eqb c "'") eqn:Hc.
    + change (read_literal (String c (String c (double_quotes s +:+ "'" +:+ rest))) = Some (String c s, rest)).
      cbn [read_literal]. by rewrite Hc, IH.
    + change (read_literal (String c (double_quotes s +:+ "'" +:+ rest)) = Some (String c s, rest)).
      cbn [read_literal]. by rewrite Hc, IH.
Qed.

(** A string bound of an overwrite window cannot leave its SQL literal: for
    any text of the bounds, whatever quotes they hold, the rendered condition reads
    back as the column, [>=], one literal holding exactly [from], [AND], the
    column, [<], one literal holding exactly [to], and nothing more. *)
Theorem window_literals_do_not_escape fs column from to quoted_col :
  exists r1 r2,
    render_where_literal fs (Window column (VString from) (VString to)) quoted_col =
      quoted_col +:+ " >= '" +:+ r1 /\
    read_literal r1 = Some (from, " AND " +:+ quoted_col +:+ " < '" +:+ r2) /\
    read_literal r2 = Some (to, EmptyString).
Proof.
  exists (double_quotes from +:+ "'" +:+ (" AND " +:+ quoted_col +:+ " < '" +:+ double_quotes to +:+ "'")),
    (double_quotes to +:+ "'").
  split; [|split; [by apply read_double_quotes|by apply (read_double_quotes to EmptyString)]].
  unfold render_where_literal, sql_literal. by rewrite !string_app_assoc.
Qed.
