(* ===== verification/Replication.v ===== *)
(** Incremental replication (crates/core/src/replication.rs): which records a run
    keeps for its bookmark, which bookmark it stores, and how a bookmark is put into
    a request.

    Timestamps (chrono) are nanoseconds since the epoch; their parsing and printing,
    JSON pointers and the text of JSON values are parameters. Writing a bind into a
    request body by pointer is not modelled. *)
From S2P Require Import Prelude Errors Float64 Json Text StateKey Decimal Quality WriteMode.
From Stdlib Require Import Ascii QArith.

Local Open Scope Z_scope.

Inductive ReplicationMethod := FullTable | Incremental.
Inductive OnMissingKey := KeepMissing | DropMissing | FailMissing.
Inductive KeyForm := TopLevel | DotPath (segments : list string) | Pointer.
Record ReplicationKey := MkReplicationKey { rk_raw : string; rk_form : KeyForm }.

(** chrono and serde_json. [SecondsFormat::Secs] text, dates, and the epoch of an
    [i64] of seconds, when it is in range. *)
Class ReplicationEnv := {
  parse_rfc3339 : string -> option Z;
  parse_naive : string -> option Z;
  parse_date : string -> option Z;
  from_timestamp : Z -> option Z;
  rfc3339 : Z -> string;
  date_str : Z -> string;
  float_text : f64 -> string;
  parse_float : string -> option f64;
  value_text : Value -> string;
  pointer : Value -> string -> option Value;
}.

(** ** Keys *)

Definition config_fail {A} (msg : string) : result A FaucetError := Err (Config msg).
Definition top_level (name : string) : ReplicationKey := MkReplicationKey name TopLevel.
Definition key_parse (raw : string) : result ReplicationKey FaucetError :=
  if string_eqb (trim raw) EmptyString then config_fail "replication_key must not be empty"
  else if starts_with_char SLASH raw then Ok (MkReplicationKey raw Pointer)
  else if negb (contains_char DOT raw) then Ok (top_level raw)
  else
    let segments := split_on DOT raw in
    if existsb (fun s => string_eqb s EmptyString) segments then
      config_fail ("replication_key '" +:+ raw +:+ "': empty path segment (use the JSON Pointer form `/a/b` for field names that contain dots)")
    else Ok (MkReplicationKey raw (DotPath segments)).
Definition is_pointer (k : ReplicationKey) : bool := match rk_form k with Pointer => true | _ => false end.
Definition is_nested (k : ReplicationKey) : bool := match rk_form k with TopLevel => false | _ => true end.

(** One step of a dot path; [usize::parse] is [parse_u64] here. *)
Definition path_step (cur : option Value) (seg : string) : option Value :=
  match cur with
  | Some (VObject m) => assoc seg m
  | Some (VArray a) => parse_u64 seg ≫= fun i => nth_error a (Z.to_nat i)
  | _ => None
  end.

Section Replication.
Context `{ReplicationEnv}.

Definition resolve_key (k : ReplicationKey) (record : Value) : option Value :=
  match rk_form k with
  | TopLevel => get record (rk_raw k)
  | Pointer => pointer record (rk_raw k)
  | DotPath segments =>
      match get record (rk_raw k) with
      | Some v => Some v
      | None => foldl path_step (Some record) segments
      end
  end.
Definition resolve_present (k : ReplicationKey) (record : Value) : option Value :=
  match resolve_key k record with Some v => if is_null v then None else Some v | None => None end.

(** ** Order *)

Definition type_rank (v : Value) : Z :=
  match v with Null => 0 | VBool _ => 1 | VNumber _ => 2 | VString _ => 3 | VArray _ => 4 | VObject _ => 5 end.
Definition number_as_i128 (n : Number) : option Z :=
  match num_i64 n with Some i => Some i | None => num_u64 n end.

Inductive Instant := Zoned (t : Z) | Naive (t : Z).
(** [Instant::parse]: a space may stand for the [T]. *)
Definition byte_at (i : nat) (s : string) (c : ascii) : bool :=
  match String.get i s with Some x => Ascii.eqb x c | None => false end.
Definition with_t (s : string) : string :=
  if byte_at 10 s " " then String.substring 0 10 s +:+ String "T" (String.substring 11 (String.length s - 11) s) else s.
Definition instant_parse (text : string) : option Instant :=
  let s := trim text in
  if (String.length s <? 19)%nat || negb (all_digits (String.substring 0 4 s)) then None
  else match parse_rfc3339 (with_t s) with
       | Some t => Some (Zoned t)
       | None => Naive <$> parse_naive (with_t s)
       end.

Definition numeric_text (v : Value) : option string :=
  match v with
  | VNumber n => Some (number_str float_text n)
  | VString s => match Decimal_parse s with Some _ => Some s | None => None end
  | _ => None
  end.
Definition same_kind (i j : Instant) : bool :=
  match i, j with Zoned _, Zoned _ | Naive _, Naive _ => true | _, _ => false end.
Definition comparable (a b : Value) : bool :=
  let by_type := (type_rank a =? type_rank b) || (negb (is_none (numeric_text a)) && negb (is_none (numeric_text b))) in
  match a, b with
  | VString x, VString y =>
      match instant_parse x, instant_parse y with
      | Some i, Some j => same_kind i j
      | _, _ => by_type
      end
  | _, _ => by_type
  end.

Definition compare_strings (x y : string) : comparison :=
  match Decimal_parse x, Decimal_parse y with
  | Some a, Some b => decimal_cmp a b
  | _, _ =>
      match instant_parse x, instant_parse y with
      | Some (Zoned a), Some (Zoned b) => a ?= b
      | Some (Naive a), Some (Naive b) => a ?= b
      | _, _ => String.compare x y
      end
  end.
Definition is_nan (f : f64) : bool := match f with SpecFloat.S754_nan => true | _ => false end.
Definition compare_numbers (x y : Number) : comparison :=
  match number_as_i128 x, number_as_i128 y with
  | Some a, Some b => a ?= b
  | _, _ =>
      let '(a, b) := (num_f64 x, num_f64 y) in
      match SpecFloat.SFcompare a b with
      | Some c => c
      | None => match is_nan a, is_nan b with
                | false, true => Lt
                | true, false => Gt
                | _, _ => Eq
                end
      end
  end.
Definition bool_compare (x y : bool) : comparison :=
  match x, y with false, true => Lt | true, false => Gt | _, _ => Eq end.
Definition by_rank (a b : Value) : comparison := type_rank a ?= type_rank b.
Fixpoint json_compare (a b : Value) {struct a} : comparison :=
  match a, b with
  | VNumber _, VString _ | VString _, VNumber _ =>
      match numeric_text a, numeric_text b with
      | Some x, Some y => match Decimal_parse x, Decimal_parse y with
                          | Some x, Some y => decimal_cmp x y
                          | _, _ => by_rank a b
                          end
      | _, _ => by_rank a b
      end
  | VNumber x, VNumber y => compare_numbers x y
  | VString x, VString y => compare_strings x y
  | VBool x, VBool y => bool_compare x y
  | Null, Null => Eq
  | VArray x, VArray y =>
      (fix go (l : list Value) (m : list Value) : comparison :=
         match l, m with
         | p :: l, q :: m => match json_compare p q with Eq => go l m | c => c end
         | _, _ => Nat.compare (length x) (length y)
         end) x y
  | VObject _, VObject _ => String.compare (value_text a) (value_text b)
  | _, _ => by_rank a b
  end.
Definition json_gt (a b : Value) : bool := match json_compare a b with Gt => true | _ => false end.

(** ** Filtering and the next bookmark *)

Record IncrementalFilter := MkIncrementalFilter { if_records : list Value; if_missing : nat }.
Fixpoint filter_path (records : list Value) (key : ReplicationKey) (start : Value) (on_missing : OnMissingKey) (inclusive : bool)
  : result IncrementalFilter FaucetError :=
  match records with
  | [] => Ok (MkIncrementalFilter [] 0)
  | r :: records =>
      let rest (keep : bool) (missing : nat) :=
        match filter_path records key start on_missing inclusive with
        | Err e => Err e
        | Ok f => Ok (MkIncrementalFilter (if keep then r :: if_records f else if_records f) (missing + if_missing f))
        end in
      match resolve_present key r with
      | None =>
          match on_missing with
          | KeepMissing => rest true 1%nat
          | DropMissing => rest false 1%nat
          | FailMissing => Err (Errors.Source ("incremental replication: a record lacks replication_key '" +:+ rk_raw key +:+ "' (on_missing_key: fail)"))
          end
      | Some v =>
          if negb (comparable v start) then rest true 0%nat
          else if inclusive then rest (negb (json_gt start v)) 0%nat
          else rest (json_gt v start) 0%nat
      end
  end.
Definition filter_incremental_path records key start on_missing := filter_path records key start on_missing false.
Definition filter_incremental_path_inclusive records key start on_missing := filter_path records key start on_missing true.
Definition filter_incremental (records : list Value) (key : string) (start : Value) : list Value :=
  match filter_incremental_path records (top_level key) start KeepMissing with Ok f => if_records f | Err _ => [] end.

(** [Iterator::max_by]: the last of the greatest. *)
Definition later_max (x y : Value) : Value := match json_compare x y with Gt => x | _ => y end.
Definition max_by (l : list Value) : option Value := match l with [] => None | x :: l => Some (foldl later_max x l) end.
Definition max_replication_value_path (records : list Value) (key : ReplicationKey) : option Value :=
  max_by (omap (resolve_present key) records).
Definition max_replication_value (records : list Value) (key : string) : option Value :=
  max_by (omap (fun r => match get r key with Some v => if is_null v then None else Some v | None => None end) records).
Definition max_value (a b : Value) : Value := match json_compare a b with Lt => b | _ => a end.

(** ** Binds *)

Inductive BindTarget := BindQuery | BindHeader | BindBody | BindPath.
Inductive BindFormat := Raw | Iso8601 | EpochS | EpochMs | Date.
Inductive BindValueType := AsString | AsNumber.
#[export] Instance BindTarget_eq_dec : EqDecision BindTarget.
Proof. solve_decision. Defined.
#[export] Instance BindFormat_eq_dec : EqDecision BindFormat.
Proof. solve_decision. Defined.
#[export] Instance BindValueType_eq_dec : EqDecision BindValueType.
Proof. solve_decision. Defined.

Definition BIND_PLACEHOLDER : string := "${bookmark}".
(** [BindValueType::to_value]; [Number::from_f64] refuses what is not finite. *)
Definition to_bind_value (t : BindValueType) (rendered : string) : result Value FaucetError :=
  match t with
  | AsString => Ok (VString rendered)
  | AsNumber =>
      match parse_i64 rendered with
      | Some i => Ok (of_i64 i)
      | None =>
          match parse_u64 rendered with
          | Some u => Ok (of_u64 u)
          | None =>
              match parse_float rendered with
              | Some f => if f64_is_finite f then Ok (VNumber (Float f))
                          else Err (Errors.Source ("bind: rendered value '" +:+ rendered +:+ "' is not a number (value_type: number)"))
              | None => Err (Errors.Source ("bind: rendered value '" +:+ rendered +:+ "' is not a number (value_type: number)"))
              end
          end
      end
  end.

Definition validate_bind_placement (what : string) (into : BindTarget) (name : string) (path : option string) : result unit FaucetError :=
  let has_name := negb (string_eqb (trim name) EmptyString) in
  match into, path with
  | BindBody, Some p =>
      if has_name then config_fail (what +:+ ": set either `name` (top-level body field) or `path` (JSON Pointer), not both")
      else if negb (starts_with_char SLASH p) || (String.length p <? 2)%nat then
        config_fail (what +:+ ": `path` must be a JSON Pointer such as `/filters/0/value`, got '" +:+ p +:+ "'")
      else Ok tt
  | _, Some _ => config_fail (what +:+ ": `path` applies only to `into: body`")
  | BindBody, None =>
      if has_name then Ok tt else config_fail (what +:+ ": `into: body` needs `name` (top-level field) or `path` (JSON Pointer)")
  | _, None => if has_name then Ok tt else config_fail (what +:+ ": `name` must not be empty")
  end.

Record ReplicationBind := MkReplicationBind {
  rb_into : BindTarget;
  rb_name : string;
  rb_path : option string;
  rb_value_type : BindValueType;
  rb_template : string;
  rb_format : BindFormat;
  rb_advance_from : option string;
}.

Definition bookmark_instant (v : Value) : result Z FaucetError :=
  match v with
  | VString s =>
      let s := trim s in
      match instant_parse s with
      | Some (Zoned t) | Some (Naive t) => Ok t
      | None =>
          match parse_date s with
          | Some t => Ok t
          | None => config_fail ("replication bind: cannot parse bookmark '" +:+ s +:+ "' as a timestamp (expected RFC 3339, YYYY-MM-DD, or YYYY-MM-DDTHH:MM:SS)")
          end
      end
  | VNumber n =>
      let secs := match num_i64 n with Some i => i | None => f64_to_i64 (num_f64 n) end in
      match from_timestamp secs with
      | Some t => Ok t
      | None => config_fail ("replication bind: numeric bookmark " +:+ number_str float_text n +:+ " is out of range for epoch seconds")
      end
  | other => config_fail ("replication bind: bookmark must be a string or number, got " +:+ value_text other)
  end.

(** [timestamp] and [timestamp_millis] round towards minus infinity. *)
Definition NANOS : Z := 1000000000.
Definition format_instant (t : Z) (format : BindFormat) : string :=
  match format with
  | Raw | Iso8601 => rfc3339 t
  | Date => date_str t
  | EpochS => i64_str (t / NANOS)
  | EpochMs => i64_str (t / 1000000)
  end.
Definition epoch_number (n : Number) : string :=
  match num_i64 n with
  | Some i => i64_str i
  | None => match num_u64 n with
            | Some u => dec u
            | None => i64_str (f64_to_i64 (num_f64 n))
            end
  end.
Definition format_bookmark (v : Value) (format : BindFormat) : result string FaucetError :=
  match format, v with
  | Raw, VString s => Ok s
  | Raw, VNumber n => Ok (number_str float_text n)
  | Raw, VBool b => Ok (bool_str b)
  | Raw, other => config_fail ("replication bind: cannot render " +:+ value_text other +:+ " as a raw scalar")
  | EpochS, VNumber n | EpochMs, VNumber n => Ok (epoch_number n)
  | f, v => match bookmark_instant v with Ok t => Ok (format_instant t f) | Err e => Err e end
  end.
Definition bind_validate (b : ReplicationBind) : result unit FaucetError :=
  match validate_bind_placement "replication bind" (rb_into b) (rb_name b) (rb_path b) with
  | Err e => Err e
  | Ok _ =>
      if contains_str BIND_PLACEHOLDER (rb_template b) then Ok tt
      else config_fail ("replication bind: `template` must contain the `" +:+ BIND_PLACEHOLDER +:+ "` placeholder")
  end.
Definition bind_render (b : ReplicationBind) (bookmark : Value) : result string FaucetError :=
  match format_bookmark bookmark (rb_format b) with
  | Ok formatted => Ok (replace_str BIND_PLACEHOLDER formatted (rb_template b))
  | Err e => Err e
  end.
End Replication.

(** ** Facts *)

Lemma string_compare_trans x y z :
  String.compare x y <> Gt -> String.compare y z <> Gt -> String.compare x z <> Gt.
Proof.
  revert y z. induction x as [|a x IH]; intros [|b y] [|c z]; cbn [String.compare]; try done.
  unfold Ascii.compare.
  destruct (N.compare_spec (N_of_ascii a) (N_of_ascii b)) as [E1|E1|E1], (N.compare_spec (N_of_ascii b) (N_of_ascii c)) as [E2|E2|E2];
    intros H1 H2; try done; destruct (N.compare_spec (N_of_ascii a) (N_of_ascii c)) as [E3|E3|E3]; try done; try lia. eauto.
Qed.

Lemma Qcompare_trans x y z : ((x ?= y) <> Gt -> (y ?= z) <> Gt -> (x ?= z) <> Gt)%Q.
Proof. rewrite <- !Qle_alt. apply Qle_trans. Qed.
Lemma Zcompare_trans x y z : (x ?= y) <> Gt -> (y ?= z) <> Gt -> (x ?= z) <> Gt.
Proof. fold (Z.le x y) (Z.le y z) (Z.le x z). lia. Qed.

Section Order.
Context `{ReplicationEnv}.

(** The columns whose values are ordered: integers, decimal strings, timestamps with
    an offset, timestamps without, booleans, and other strings. *)
Inductive column := Integers | Decimals | Offsets | Locals | Booleans | Texts.
Definition in_column (c : column) (v : Value) : Prop :=
  match c, v with
  | Integers, VNumber n => is_Some (number_as_i128 n)
  | Decimals, VString s => is_Some (Decimal_parse s) /\ instant_parse s = None
  | Offsets, VString s => Decimal_parse s = None /\ exists t, instant_parse s = Some (Zoned t)
  | Locals, VString s => Decimal_parse s = None /\ exists t, instant_parse s = Some (Naive t)
  | Booleans, VBool _ => True
  | Texts, VString s => Decimal_parse s = None /\ instant_parse s = None
  | _, _ => False
  end.

(** On such a column the comparison is a total preorder. *)
Record preordered (P : Value -> Prop) : Prop := {
  po_comparable : forall a b, P a -> P b -> comparable a b = true;
  po_flip : forall a b, P a -> P b -> json_compare b a = CompOpp (json_compare a b);
  po_trans : forall a b c, P a -> P b -> P c -> json_compare a b <> Gt -> json_compare b c <> Gt -> json_compare a c <> Gt;
}.

(** A preorder pulled back along a reading of the values. *)
Lemma preordered_by {K} (P : Value -> Prop) (read : Value -> K -> Prop) (cmp : K -> K -> comparison) :
  (forall v, P v -> exists k, read v k) ->
  (forall a b ka kb, P a -> P b -> read a ka -> read b kb -> comparable a b = true /\ json_compare a b = cmp ka kb) ->
  (forall x y, cmp y x = CompOpp (cmp x y)) -> (forall x y z, cmp x y <> Gt -> cmp y z <> Gt -> cmp x z <> Gt) ->
  preordered P.
Proof.
  intros Hr Hc Hf Ht. split.
  - intros a b Ha Hb. destruct (Hr a Ha) as [ka ?], (Hr b Hb) as [kb ?]. by eapply Hc.
  - intros a b Ha Hb. destruct (Hr a Ha) as [ka ?], (Hr b Hb) as [kb ?].
    rewrite (proj2 (Hc a b ka kb Ha Hb ltac:(done) ltac:(done))), (proj2 (Hc b a kb ka Hb Ha ltac:(done) ltac:(done))). apply Hf.
  - intros a b c Ha Hb Hc'. destruct (Hr a Ha) as [ka ?], (Hr b Hb) as [kb ?], (Hr c Hc') as [kc ?].
    rewrite (proj2 (Hc a b ka kb ltac:(done) ltac:(done) ltac:(done) ltac:(done))), (proj2 (Hc b c kb kc ltac:(done) ltac:(done) ltac:(done) ltac:(done))),
      (proj2 (Hc a c ka kc ltac:(done) ltac:(done) ltac:(done) ltac:(done))). apply Ht.
Qed.

Lemma column_preordered c : preordered (in_column c).
Proof.
  destruct c.
  - apply (preordered_by _ (fun v k => exists n, v = VNumber n /\ number_as_i128 n = Some k) Z.compare);
      [|intros a b ka kb _ _ (n & -> & En) (m & -> & Em)|intros; apply Z.compare_antisym|apply Zcompare_trans].
    + intros [| |n| | |]; try done. intros [k Hk]. eauto.
    + split; [done|]. cbn. unfold compare_numbers. by rewrite En, Em.
  - apply (preordered_by _ (fun v k => exists s d, v = VString s /\ instant_parse s = None /\ Decimal_parse s = Some d /\ normal_decimal d /\ k = decimal_value d) Qcompare);
      [|intros a b ka kb _ _ (s & d & -> & Is & Es & Ns & ->) (t & e & -> & It & Et & Nt & ->)|intros; symmetry; apply Qcompare_antisym|apply Qcompare_trans].
    + intros [| | |s| |]; try done. intros [[d Hd] Hi]. destruct (Decimal_parse_value _ _ Hd) as [Hn _]. eauto 10.
    + split; [unfold comparable; by rewrite Is|]. cbn. unfold compare_strings. rewrite Es, Et. by apply decimal_cmp_value.
  - apply (preordered_by _ (fun v k => exists s, v = VString s /\ Decimal_parse s = None /\ instant_parse s = Some (Zoned k)) Z.compare);
      [|intros a b ka kb _ _ (s & -> & Ds & Is) (t & -> & Dt & It)|intros; apply Z.compare_antisym|apply Zcompare_trans].
    + intros [| | |s| |]; try done. intros [Hd [t Ht]]. eauto.
    + split; [unfold comparable; by rewrite Is, It|]. cbn. unfold compare_strings. by rewrite Ds, Is, It.
  - apply (preordered_by _ (fun v k => exists s, v = VString s /\ Decimal_parse s = None /\ instant_parse s = Some (Naive k)) Z.compare);
      [|intros a b ka kb _ _ (s & -> & Ds & Is) (t & -> & Dt & It)|intros; apply Z.compare_antisym|apply Zcompare_trans].
    + intros [| | |s| |]; try done. intros [Hd [t Ht]]. eauto.
    + split; [unfold comparable; by rewrite Is, It|]. cbn. unfold compare_strings. by rewrite Ds, Is, It.
  - apply (preordered_by _ (fun v k => v = VBool k) bool_compare);
      [|by intros a b ka kb _ _ -> ->|by intros [] []|by intros [] [] []].
    intros [|b| | | |]; try done. eauto.
  - apply (preordered_by _ (fun v k => v = VString k /\ Decimal_parse k = None /\ instant_parse k = None) String.compare);
      [|intros a b ka kb _ _ (-> & Ds & Is) (-> & Dt & It)|intros; apply String.compare_antisym|apply string_compare_trans].
    + intros [| | |s| |]; try done. intros [Hd Hi]. eauto.
    + split; [unfold comparable; by rewrite Is|]. cbn. unfold compare_strings. by rewrite Ds, Is.
Qed.

(** The greatest value of such a column. *)
Lemma max_by_spec P l m : preordered P -> Forall P l -> max_by l = Some m -> m ∈ l /\ forall v, v ∈ l -> json_compare v m <> Gt.
Proof.
  intros HP Hl. destruct l as [|x l]; [done|]. intros [= <-]. apply Forall_cons in Hl as [Hx Hl].
  assert (forall y, P y -> json_compare y y <> Gt) as Hrefl.
  { intros y Hy E. pose proof (po_flip _ HP y y Hy Hy) as F. rewrite E in F. done. }
  revert x Hx. induction l as [|y l IH]; intros x Hx; cbn [foldl].
  - split; [left|]. intros v ->%list_elem_of_singleton. auto.
  - apply Forall_cons in Hl as [Hy Hl]. assert (P (later_max x y)) as Hm by (unfold later_max; by destruct (json_compare x y)).
    destruct (IH Hl (later_max x y) Hm) as [Hin Hge]. set (m := foldl later_max (later_max x y) l) in *.
    assert (P m) as HPm by (apply elem_of_cons in Hin as [->|Hin]; [done|by eapply Forall_forall in Hin]).
    assert (json_compare x (later_max x y) <> Gt /\ json_compare y (later_max x y) <> Gt) as [Hx1 Hy1].
    { unfold later_max. destruct (json_compare x y) eqn:E; split; auto; try congruence.
      rewrite (po_flip _ HP x y Hx Hy), E. done. }
    split.
    + apply elem_of_cons in Hin as [E|Hin]; [|by do 2 right]. rewrite E. unfold later_max. destruct (json_compare x y); set_solver.
    + intros v [->|[->|Hv]%elem_of_cons]%elem_of_cons; [eapply (po_trans _ HP x (later_max x y) m)|eapply (po_trans _ HP y (later_max x y) m)|]; auto;
        apply Hge; [left|left|by right].
Qed.

Definition run_keys (key : ReplicationKey) (rows : list Value) : list Value := omap (resolve_present key) rows.


(** With missing keys dropped the filter keeps, in order, the records whose key is
    above the start or cannot be compared with it. *)
Definition above (key : ReplicationKey) (start r : Value) : bool :=
  match resolve_present key r with Some v => negb (comparable v start) || json_gt v start | None => false end.
Lemma filter_drop_missing key start rows :
  exists n, filter_incremental_path rows key start DropMissing = Ok (MkIncrementalFilter (List.filter (above key start) rows) n).
Proof.
  unfold filter_incremental_path, above. induction rows as [|r rows [n IH]]; cbn [filter_path List.filter]; [eauto|]. rewrite IH.
  destruct (resolve_present key r) as [v|]; [|eauto]. destruct (comparable v start), (json_gt v start); eauto.
Qed.

(** The bookmark of a run over an ordered column (integers, decimal strings,
    timestamps of one kind, booleans, or other strings) is one of the keys read and no
    key exceeds it: whatever rows appear later, the next run keeps none of the rows
    already read, and of the later rows exactly those above the bookmark. *)
Theorem bookmark_covers_run c key rows m later :
  Forall (in_column c) (run_keys key rows) ->
  max_replication_value_path rows key = Some m ->
  m ∈ run_keys key rows /\ (forall v, v ∈ run_keys key rows -> json_compare v m <> Gt) /\
  exists n, filter_incremental_path (rows ++ later) key m DropMissing = Ok (MkIncrementalFilter (List.filter (above key m) later) n).
Proof.
  intros Hc Hm. destruct (max_by_spec _ _ _ (column_preordered c) Hc Hm) as [Hin Hge]. split; [done|]. split; [done|].
  destruct (filter_drop_missing key m (rows ++ later)) as [n ->]. exists n. rewrite List.filter_app.
  enough (List.filter (above key m) rows = []) as -> by done. clear Hm. unfold run_keys in *.
  assert (forall v, v ∈ omap (resolve_present key) rows -> comparable v m = true) as Hcmp.
  { rewrite Forall_forall in Hc. intros v Hv. eapply po_comparable; eauto using column_preordered. }
  clear Hin Hc. unfold above. induction rows as [|r rows IH]; [done|]. cbn [List.filter omap list_omap] in *.
  destruct (resolve_present key r) as [v|]; [|by apply IH]. unfold json_gt.
  rewrite (Hcmp v) by left. pose proof (Hge v ltac:(left)). destruct (json_compare v m); [..|done]; apply IH; set_solver.
Qed.
End Order.

(** An environment with no timestamps, and a run over order numbers. *)
Definition no_times : ReplicationEnv :=
  {| parse_rfc3339 _ := None; parse_naive _ := None; parse_date _ := None; from_timestamp _ := None; rfc3339 _ := EmptyString;
     date_str _ := EmptyString; float_text _ := EmptyString; parse_float _ := None; value_text _ := EmptyString; pointer _ _ := None |}.
Definition order_row (n : string) : Value := VObject [("order", VObject [("no", VString n)])].

Lemma bookmark_covers_run_witness :
  exists key, key_parse "order.no" = Ok key /\
  max_replication_value_path (H := no_times) [order_row "99"; order_row "100"; order_row "9.5"] key = Some (VString "100") /\
  exists n, filter_incremental_path (H := no_times) ([order_row "99"; order_row "100"; order_row "9.5"] ++ [order_row "101"; order_row "20"]) key (VString "100") DropMissing
            = Ok (MkIncrementalFilter [order_row "101"] n).
Proof.
  eexists; split; [reflexivity|]. split; [reflexivity|].
  destruct (bookmark_covers_run (H := no_times) Decimals (MkReplicationKey "order.no" (DotPath ["order"; "no"]))
    [order_row "99"; order_row "100"; order_row "9.5"] (VString "100") [order_row "101"; order_row "20"]) as (_ & _ & Hn).
  - change (Forall (in_column (H := no_times) Decimals) [VString "99"; VString "100"; VString "9.5"]).
    repeat (constructor; [split; [eexists; vm_compute; reflexivity|vm_compute; reflexivity]|]). constructor.
  - vm_compute. reflexivity.
  - destruct Hn as [n Hn]. exists n. vm_compute in Hn |- *. exact Hn.
Defined.

(** Outside such a column the comparison is not an order: a text that is no number
    closes a cycle through two that are. *)
Example json_compare_has_cycles :
  json_compare (H := no_times) (VString "100") (VString "1a") = Lt /\ json_compare (H := no_times) (VString "1a") (VString "9") = Lt /\
  json_compare (H := no_times) (VString "9") (VString "100") = Lt.
Proof. done. Qed.
