(* ===== verification/Window.v ===== *)
(** Datetime windows (crates/core/src/window.rs): the durations of a window spec, how a
    window's bounds are put into a request, and the enumeration of the windows of a run.

    Instants and durations are nanoseconds. The range of [DateTime<Utc>] is a
    parameter; [DateTime - Duration] panics outside it, which is [None] here. *)
From S2P Require Import Prelude Errors Json Text StateKey Replication.
From Stdlib Require Import Ascii.

Local Open Scope Z_scope.

Definition WINDOW_PLACEHOLDER : string := "${window}".
Definition WINDOW_START_PLACEHOLDER : string := "${window.start}".
Definition WINDOW_END_PLACEHOLDER : string := "${window.end}".
Definition DEFAULT_MAX_WINDOWS : nat := Z.to_nat 10000.
Definition MAX_DURATION_DAYS : Z := 36525.

Record Window := MkWindow { w_start : Z; w_end : Z }.
Record WindowBind := MkWindowBind {
  wb_into : BindTarget;
  wb_name : string;
  wb_path : option string;
  wb_value_type : BindValueType;
  wb_template : string;
  wb_format : BindFormat;
}.
#[export] Instance WindowBind_eq_dec : EqDecision WindowBind.
Proof. solve_decision. Defined.
Definition WindowBind_default : WindowBind := MkWindowBind BindQuery EmptyString None AsString WINDOW_PLACEHOLDER Raw.
Definition is_unset (b : WindowBind) : bool := bool_decide (b = WindowBind_default).

Record WindowSpec := MkWindowSpec {
  ws_step : string;
  ws_lower : WindowBind;
  ws_upper : WindowBind;
  ws_granularity : option string;
  ws_lookback : option string;
  ws_max_windows : nat;
}.

(** ** Durations *)

(** [chars().last()]: a lead byte and the continuation bytes after it. *)
Definition continuation (c : ascii) : bool := (128 <=? byte_of c) && (byte_of c <? 192).
Fixpoint split_lead (l : list ascii) (tail : list ascii) : option (list ascii * list ascii) :=
  match l with
  | [] => None
  | c :: l => if continuation c then split_lead l (c :: tail) else Some (reverse l, c :: tail)
  end.
Definition split_last_char (s : string) : option (string * string) :=
  match split_lead (reverse (String.list_ascii_of_string s)) [] with
  | Some (front, last) => Some (String.string_of_list_ascii front, String.string_of_list_ascii last)
  | None => None
  end.
Definition is_digit_char (s : string) : bool := match s with String c EmptyString => negb (is_none (digit_value c)) | _ => false end.

(** [Duration::try_seconds] and its multiples: milliseconds must fit an [i64], and so
    must the seconds [try_minutes] and the others multiply out. *)
Definition try_seconds (n : Z) : option Z := if n <=? I64_MAX / 1000 then Some (n * NANOS) else None.
Definition try_units (per n : Z) : option Z := if n * per <=? I64_MAX then try_seconds (n * per) else None.
Definition unit_duration (u : string) (n : Z) : option (option Z) :=
  if string_eqb u "s" then Some (try_seconds n)
  else if string_eqb u "m" then Some (try_units 60 n)
  else if string_eqb u "h" then Some (try_units 3600 n)
  else if string_eqb u "d" then Some (try_units 86400 n)
  else None.
Definition MAX_DURATION : Z := MAX_DURATION_DAYS * 86400 * NANOS.

Definition parse_step (text : string) : result Z FaucetError :=
  let s := trim text in
  let err := config_fail ("window slicing: '" +:+ s +:+ "' is not a valid duration — use e.g. 45s, 30m, 6h, 30d") in
  match split_last_char s with
  | None => err
  | Some (front, last) =>
      let '(num, unit) := if is_digit_char last then (s, "s") else (front, last) in
      match parse_i64 num with
      | None => err
      | Some n =>
          if n <=? 0 then config_fail ("window slicing: duration '" +:+ s +:+ "' must be positive")
          else match unit_duration unit n with
               | None => err
               | Some d =>
                   let too_long := config_fail ("window slicing: duration '" +:+ s +:+ "' exceeds the 36525-day maximum") in
                   match d with
                   | Some d => if d <=? MAX_DURATION then Ok d else too_long
                   | None => too_long
                   end
               end
      end
  end.
Definition parse_opt (s : option string) : result (option Z) FaucetError :=
  match s with
  | None => Ok None
  | Some s => match parse_step s with Ok d => Ok (Some d) | Err e => Err e end
  end.

(** ** The spec *)

Definition step_duration (w : WindowSpec) := parse_step (ws_step w).
Definition granularity_duration (w : WindowSpec) := parse_opt (ws_granularity w).
Definition lookback_duration (w : WindowSpec) := parse_opt (ws_lookback w).
Definition has_upper (w : WindowSpec) : bool := negb (is_unset (ws_upper w)).

Definition window_bind_validate (b : WindowBind) (side : string) : result unit FaucetError :=
  match validate_bind_placement ("window slicing `" +:+ side +:+ "`") (wb_into b) (wb_name b) (wb_path b) with
  | Err e => Err e
  | Ok _ =>
      if existsb (fun p => contains_str p (wb_template b)) [WINDOW_PLACEHOLDER; WINDOW_START_PLACEHOLDER; WINDOW_END_PLACEHOLDER] then Ok tt
      else config_fail ("window slicing: `" +:+ side +:+ ".template` must contain a `${window}`, `${window.start}` or `${window.end}` placeholder")
  end.

Definition check_granularity (w : WindowSpec) (step : Z) : result unit FaucetError :=
  match ws_granularity w with
  | None => Ok tt
  | Some g =>
      match parse_step g with
      | Err e => Err e
      | Ok d => if step <? d then config_fail ("window slicing: `granularity` (" +:+ g +:+ ") must not be longer than `step` (" +:+ ws_step w
                  +:+ "), or every window's upper bound would fall before its start")
                else Ok tt
      end
  end.
Definition check_binds (w : WindowSpec) : result unit FaucetError :=
  match window_bind_validate (ws_lower w) "lower" with
  | Err e => Err e
  | Ok _ =>
      if has_upper w then window_bind_validate (ws_upper w) "upper"
      else if contains_str WINDOW_END_PLACEHOLDER (wb_template (ws_lower w)) then Ok tt
      else config_fail "window slicing: `upper` may be omitted only when `lower.template` renders the window end with `${window.end}`; otherwise the window is unbounded above"
  end.
Definition window_validate (w : WindowSpec) : result unit FaucetError :=
  match step_duration w with
  | Err e => Err e
  | Ok step =>
      match check_granularity w step with
      | Err e => Err e
      | Ok _ =>
          match lookback_duration w with
          | Err e => Err e
          | Ok _ =>
              match check_binds w with
              | Err e => Err e
              | Ok _ => if (ws_max_windows w =? 0)%nat then config_fail "window slicing: `max_windows` must be greater than zero" else Ok tt
              end
          end
      end
  end.

(** ** Rendering *)

(** [DateTime::<Utc>::MIN_UTC] and [MAX_UTC]. *)
Class TimeRange := { MIN_UTC : Z; MAX_UTC : Z; utc_range : MIN_UTC <= MAX_UTC }.

Section Windows.
Context `{ReplicationEnv} `{TimeRange}.

Definition in_range (t : Z) : bool := (MIN_UTC <=? t) && (t <=? MAX_UTC).
Definition checked_sub_signed (t d : Z) : option Z := if in_range (t - d) then Some (t - d) else None.
Definition checked_add_signed (t d : Z) : option Z := if in_range (t + d) then Some (t + d) else None.

Definition render (b : WindowBind) (boundary : Z) : string :=
  replace_str WINDOW_PLACEHOLDER (format_instant boundary (wb_format b)) (wb_template b).
Definition render_window (b : WindowBind) (own start end_ : Z) : string :=
  replace_str WINDOW_PLACEHOLDER (format_instant own (wb_format b))
    (replace_str WINDOW_END_PLACEHOLDER (format_instant end_ (wb_format b))
      (replace_str WINDOW_START_PLACEHOLDER (format_instant start (wb_format b)) (wb_template b))).

(** [None] is the panic of the subtraction. *)
Definition rendered_end (w : WindowSpec) (win : Window) : option (result Z FaucetError) :=
  match granularity_duration w with
  | Err e => Some (Err e)
  | Ok None => Some (Ok (w_end win))
  | Ok (Some g) => Ok <$> checked_sub_signed (w_end win) g
  end.
Definition render_lower (w : WindowSpec) (win : Window) : option string :=
  (fun r => let e := match r with Ok e => e | Err _ => w_end win end in render_window (ws_lower w) (w_start win) (w_start win) e)
  <$> rendered_end w win.
Definition render_upper (w : WindowSpec) (win : Window) : option (result string FaucetError) :=
  (fun r => match r with Ok e => Ok (render_window (ws_upper w) e (w_start win) e) | Err e => Err e end) <$> rendered_end w win.
Definition render_binds (w : WindowSpec) (win : Window) : option (result (list (WindowBind * string)) FaucetError) :=
  (fun r => match r with
            | Err e => Err e
            | Ok e => Ok ((ws_lower w, render_window (ws_lower w) (w_start win) (w_start win) e)
                          :: if has_upper w then [(ws_upper w, render_window (ws_upper w) e (w_start win) e)] else [])
            end) <$> rendered_end w win.

(** ** Enumeration *)

(** The body of the loop; [room] counts the windows that may still be pushed, so the
    recursion is on it. *)
Fixpoint sweep (room : nat) (cur now step : Z) : list Window * bool :=
  if cur <? now then
    match room with
    | O => ([], true)
    | S room =>
        let end_ := match checked_add_signed cur step with Some e => Z.min e now | None => now end in
        if end_ <=? cur then ([], false)
        else let '(out, truncated) := sweep room end_ now step in (MkWindow cur end_ :: out, truncated)
    end
  else ([], false).
Definition first_instant (start : Z) (lookback : option Z) : Z :=
  match lookback with Some lb => default MIN_UTC (checked_sub_signed start lb) | None => start end.
Definition enumerate_windows (start now step : Z) (lookback : option Z) (max_windows : nat) : list Window * bool :=
  sweep max_windows (first_instant start lookback) now step.


(** ** A run of a windowed source *)

(** crates/source/rest/src/stream.rs: a pass per window, whose last page carries the
    window's end as the bookmark; a run that fetches no window leaves the bookmark. *)
Definition passes (w : WindowSpec) (start now : Z) : result (list Window) FaucetError :=
  match step_duration w with
  | Err e => Err e
  | Ok step =>
      match lookback_duration w with
      | Err e => Err e
      | Ok lookback => Ok (fst (enumerate_windows start now step lookback (ws_max_windows w)))
      end
  end.
Definition resume_at (start : Z) (completed : list Window) : Z :=
  match last completed with Some win => w_end win | None => start end.
Definition windowed_run (w : WindowSpec) (now start : Z) : Z :=
  match passes w start now with Ok ws => resume_at start ws | Err _ => start end.

(** ** Facts *)

(** Contiguous, non-empty windows of at most [step] from [from] to [to], all but the
    last a whole step. *)
Inductive tiles (step : Z) : Z -> list Window -> Z -> Prop :=
| tiles_nil t : tiles step t [] t
| tiles_last t e : t < e <= t + step -> tiles step t [MkWindow t e] e
| tiles_cons t l e : l <> [] -> 0 < step -> tiles step (t + step) l e -> tiles step t (MkWindow t (t + step) :: l) e.

Definition covers (x : Z) (win : Window) : bool := (w_start win <=? x) && (x <? w_end win).

Lemma tiles_le step t l e : tiles step t l e -> t <= e.
Proof. induction 1; lia. Qed.
Lemma tiles_nil_inv step t e : tiles step t [] e -> e = t.
Proof. by inversion 1. Qed.
Lemma tiles_cons_lt step t w l e : tiles step t (w :: l) e -> t < e.
Proof. inversion 1; subst; [lia|]. pose proof (tiles_le _ _ _ _ ltac:(eassumption)). lia. Qed.
Lemma tiles_count step t l e x : tiles step t l e ->
  length (List.filter (covers x) l) = if (t <=? x) && (x <? e) then 1%nat else 0%nat.
Proof.
  induction 1 as [t|t e He|t l e Hl Hs Ht IH]; cbn [List.filter]; unfold covers; cbn [w_start w_end].
  - destruct (t <=? x) eqn:?, (x <? t) eqn:?; try done; lia.
  - destruct (t <=? x), (x <? e); done.
  - apply tiles_le in Ht. unfold covers in IH.
    destruct (Z.leb_spec t x), (Z.ltb_spec x (t + step)), (Z.ltb_spec x e), (Z.leb_spec (t + step) x); cbn [andb length] in *; rewrite ?IH; try done; lia.
Qed.
Lemma tiles_end step t l e : tiles step t l e -> resume_at t l = e.
Proof.
  unfold resume_at. induction 1 as [| |t l e Hl Hs Ht IH]; try done.
  destruct l as [|w l]; [done|]. change (last (MkWindow t (t + step) :: w :: l)) with (last (w :: l)).
  destruct (last (w :: l)) eqn:E; [done|]. by apply last_None in E.
Qed.

Lemma resume_at_cons s t w l : resume_at s (w :: l) = resume_at t (w :: l).
Proof. unfold resume_at. destruct (last (w :: l)) eqn:E; [done|]. by apply last_None in E. Qed.

Lemma sweep_tiles n cur now step : 0 < step -> MIN_UTC <= cur -> now <= MAX_UTC ->
  let '(l, t) := sweep n cur now step in
  let e := Z.max cur (Z.min now (cur + Z.of_nat n * step)) in
  tiles step cur l e /\ t = (e <? now).
Proof.
  intros Hs. revert cur. induction n as [|n IH]; intros cur Hc Hn; cbn [sweep].
  - destruct (Z.ltb_spec cur now); cbn zeta beta; split; try (replace (Z.max _ _) with cur by lia; constructor); symmetry; [apply Z.ltb_lt|apply Z.ltb_ge]; lia.
  - destruct (Z.ltb_spec cur now) as [Hlt|Hge].
    2:{ split; [replace (Z.max _ _) with cur by lia; constructor|symmetry; apply Z.ltb_ge; lia]. }
    assert (match checked_add_signed cur step with Some e => Z.min e now | None => now end = Z.min (cur + step) now) as ->.
    { unfold checked_add_signed, in_range. destruct (Z.leb_spec MIN_UTC (cur + step)), (Z.leb_spec (cur + step) MAX_UTC); cbn [andb]; lia. }
    destruct (Z.leb_spec (Z.min (cur + step) now) cur); [lia|].
    specialize (IH (Z.min (cur + step) now) ltac:(lia) Hn). destruct (sweep n _ now step) as [l t]. cbn zeta beta in IH |- *. destruct IH as [Ht ->].
    set (e := Z.max cur _). replace (Z.max (Z.min (cur + step) now) _) with e in * by (unfold e; nia). split; [|done].
    destruct l as [|w l].
    + apply tiles_nil_inv in Ht as ->. apply tiles_last. lia.
    + assert (cur + step <= now) as Hle by (apply tiles_cons_lt in Ht; unfold e in Ht; lia). rewrite Z.min_l in * by lia. by apply tiles_cons.
Qed.

Lemma first_instant_range start lookback : MIN_UTC <= start <= MAX_UTC -> 0 <= default 0 lookback ->
  MIN_UTC <= first_instant start lookback <= start /\ start - default 0 lookback <= first_instant start lookback.
Proof.
  intros Hs Hl. destruct lookback as [lb|]; unfold first_instant; [|cbn in *; unfold id in *; lia].
  unfold checked_sub_signed, in_range, from_option, id in *.
  destruct (Z.leb_spec MIN_UTC (start - lb)), (Z.leb_spec (start - lb) MAX_UTC); cbn [andb]; lia.
Qed.

(** The windows of a run tile the time from the start (less the lookback) to where
    the run stops: contiguous, non-empty, a whole step each but the last; every instant
    in between is in exactly one window and no other instant is in any. The run stops
    at [now], or after [max_windows] steps, and reports truncation exactly when [now]
    was not reached. *)
Theorem windows_tile start now step lookback max_windows :
  0 < step -> 0 <= default 0 lookback -> MIN_UTC <= start <= MAX_UTC -> now <= MAX_UTC ->
  let '(l, truncated) := enumerate_windows start now step lookback max_windows in
  let first := first_instant start lookback in
  let e := Z.max first (Z.min now (first + Z.of_nat max_windows * step)) in
  tiles step first l e /\ truncated = (e <? now) /\
  forall x, length (List.filter (covers x) l) = if (first <=? x) && (x <? e) then 1%nat else 0%nat.
Proof.
  intros Hs Hl Hr Hn. destruct (first_instant_range start lookback Hr Hl) as [[] _].
  unfold enumerate_windows. pose proof (sweep_tiles max_windows (first_instant start lookback) now step Hs ltac:(lia) Hn) as Ht.
  destruct (sweep _ _ _ _) as [l t]. destruct Ht as [Ht Et]. split; [done|]. split; [done|]. intros x. by eapply tiles_count.
Qed.

Lemma parse_step_range s d : parse_step s = Ok d -> 0 < d <= MAX_DURATION.
Proof.
  unfold parse_step, config_fail. destruct (split_last_char _) as [[front tl]|]; [|done].
  destruct (if is_digit_char tl then _ else _) as [num u]. destruct (parse_i64 num) as [n|]; [|done].
  destruct (Z.leb_spec n 0); [done|].
  destruct (unit_duration u n) as [[k|]|] eqn:E; [|done..]. destruct (Z.leb_spec k MAX_DURATION); [|done]. intros [= <-]. split; [|done].
  unfold unit_duration, try_units, try_seconds, NANOS in E. repeat case_match; simplify_eq; lia.
Qed.
Lemma parse_opt_range s d : parse_opt s = Ok d -> 0 <= default 0 d.
Proof.
  destruct s as [s|]; cbn; [|by intros [= <-]]. destruct (parse_step s) eqn:E; intros; simplify_eq. apply parse_step_range in E. cbn. unfold id. lia.
Qed.

(** One run moves the bookmark forward or to [now]. *)
Lemma windowed_run_progress w step lookback now start :
  step_duration w = Ok step -> lookback_duration w = Ok lookback -> default 0 lookback < Z.of_nat (ws_max_windows w) * step ->
  MIN_UTC <= start <= now -> now <= MAX_UTC -> Z.min now (start + 1) <= windowed_run w now start <= now.
Proof.
  intros Es El Hp Hs Hn. unfold windowed_run, passes. rewrite Es, El. unfold step_duration in Es. apply parse_step_range in Es. apply parse_opt_range in El.
  destruct (first_instant_range start lookback ltac:(lia) El) as [Hf Hg]. unfold enumerate_windows.
  pose proof (sweep_tiles (ws_max_windows w) (first_instant start lookback) now step ltac:(lia) ltac:(lia) Hn) as Ht.
  destruct (sweep _ _ _ _) as [l t]. cbn [fst]. destruct Ht as [Ht _]. destruct l as [|x l].
  - apply tiles_nil_inv in Ht. change (resume_at start []) with start. lia.
  - rewrite (resume_at_cons start (first_instant start lookback)). erewrite tiles_end by done. lia.
Qed.

(** Successive runs reach [now] and stay there, provided the lookback is shorter than
    the span [max_windows] steps sweep: however small the truncated sweeps, each moves
    the bookmark past where the last one started. *)
Theorem sweeps_reach_now w step lookback now start :
  step_duration w = Ok step -> lookback_duration w = Ok lookback -> default 0 lookback < Z.of_nat (ws_max_windows w) * step ->
  MIN_UTC <= start <= now -> now <= MAX_UTC ->
  forall runs, now - start <= Z.of_nat runs -> Nat.iter runs (windowed_run w now) start = now.
Proof.
  intros Es El Hp Hs Hn runs Hr.
  enough (Z.min now (start + Z.of_nat runs) <= Nat.iter runs (windowed_run w now) start <= now) by lia. clear Hr.
  induction runs as [|runs IH]; [cbn; lia|]. cbn [Nat.iter nat_rect].
  pose proof (windowed_run_progress w step lookback now (Nat.iter runs (windowed_run w now) start) Es El Hp ltac:(lia) Hn).
  unfold Nat.iter in *. lia.
Qed.
End Windows.

(** ** Witnesses *)

Definition year_range : TimeRange.
Proof. refine {| MIN_UTC := - (400 * 86400 * NANOS); MAX_UTC := 400 * 86400 * NANOS |}. unfold NANOS. lia. Defined.
Definition day (n : Z) : Z := n * 86400 * NANOS.
Definition daily (granularity lookback : option string) (max_windows : nat) : WindowSpec :=
  MkWindowSpec "1d" (MkWindowBind BindQuery "from" None AsString "${window}" EpochS) (MkWindowBind BindQuery "to" None AsString "${window}" EpochS)
    granularity lookback max_windows.

Lemma windows_tile_witness :
  enumerate_windows (H0 := year_range) (day 10) (day 12 + 5) (day 1) (Some (day 1)) 100 =
    ([MkWindow (day 9) (day 10); MkWindow (day 10) (day 11); MkWindow (day 11) (day 12); MkWindow (day 12) (day 12 + 5)], false) /\
  length (List.filter (covers (day 11)) (fst (enumerate_windows (H0 := year_range) (day 10) (day 12 + 5) (day 1) (Some (day 1)) 100))) = 1%nat.
Proof.
  split; [vm_compute; reflexivity|].
  pose proof (windows_tile (H0 := year_range) (day 10) (day 12 + 5) (day 1) (Some (day 1)) 100
    ltac:(vm_compute; done) ltac:(vm_compute; done) ltac:(vm_compute; done) ltac:(vm_compute; done)) as Ht.
  destruct (enumerate_windows _ _ _ _ _) as [l t] eqn:E. destruct Ht as (_ & _ & Hx). cbn [fst]. rewrite (Hx (day 11)). vm_compute. reflexivity.
Defined.

Lemma sweeps_reach_now_witness :
  window_validate (daily None (Some "1d") 2) = Ok tt /\
  Nat.iter (Z.to_nat (day 3)) (windowed_run (H0 := year_range) (daily None (Some "1d") 2) (day 5)) (day 2) = day 5.
Proof.
  split; [vm_compute; reflexivity|].
  apply (sweeps_reach_now (H0 := year_range) (daily None (Some "1d") 2) (day 1) (Some (day 1)));
    [vm_compute; reflexivity|vm_compute; reflexivity|vm_compute; done|vm_compute; done|vm_compute; done|].
  rewrite Z2Nat.id by (vm_compute; done). vm_compute. done.
Defined.

(** A valid spec whose lookback is as long as a truncated sweep never advances. *)
Example lookback_starves_sweep :
  window_validate (daily None (Some "2d") 2) = Ok tt /\
  enumerate_windows (H0 := year_range) (day 2) (day 5) (day 1) (Some (day 2)) 2 = ([MkWindow (day 0) (day 1); MkWindow (day 1) (day 2)], true) /\
  windowed_run (H0 := year_range) (daily None (Some "2d") 2) (day 5) (day 2) = day 2.
Proof. vm_compute. done. Qed.

(** A valid granularity still sends an end before the start when the last window is
    clamped to [now]. *)
Example clamped_window_is_inverted :
  window_validate (daily (Some "1h") None 10) = Ok tt /\
  fst (enumerate_windows (H0 := year_range) (day 2) (day 2 + 60 * NANOS) (day 1) None 10) = [MkWindow (day 2) (day 2 + 60 * NANOS)] /\
  rendered_end (H0 := year_range) (daily (Some "1h") None 10) (MkWindow (day 2) (day 2 + 60 * NANOS)) = Some (Ok (day 2 - 3540 * NANOS)).
Proof. vm_compute. done. Qed.
