(* ===== verification/Join.v ===== *)
(** The hash join of topologies (crates/core/src/join.rs): one upstream is indexed by
    key, the records of the other are enriched from it.

    The counters are [u64]s that count records one by one and cannot wrap in practice;
    they are plain integers here. *)
From S2P Require Import Prelude Errors Float64 Json Text StateKey WriteMode.

Local Open Scope Z_scope.
Local Open Scope result_scope.

Definition DEFAULT_MAX_BUILD_RECORDS : Z := 10000000.
Inductive JoinMode := Inner | Left.
Inductive OnDuplicate := First | Cartesian.
Inductive OnCollision := Overwrite | Skip | CollisionError.
Inductive KeyNormalize := Preserve | Stringify.
Record Projection := MkProjection { pj_from : string; pj_as : string }.

Record JoinConfig := MkJoinConfig {
  jc_mode : JoinMode;
  jc_build_key : string;
  jc_probe_key : string;
  jc_projections : list Projection;
  jc_on_missing : Value;
  jc_on_duplicate : OnDuplicate;
  jc_on_collision : OnCollision;
  jc_key_normalize : KeyNormalize;
  jc_max_build_records : Z;
}.
Definition JoinConfig_default : JoinConfig :=
  MkJoinConfig Inner EmptyString EmptyString [] Null First Overwrite Preserve DEFAULT_MAX_BUILD_RECORDS.

Record JoinStats := MkJoinStats {
  build_records : Z;
  build_nulls : Z;
  duplicates : Z;
  probe_records : Z;
  matches : Z;
  misses : Z;
  project_misses : Z;
}.
Definition JoinStats_default : JoinStats := MkJoinStats 0 0 0 0 0 0 0.
Definition count_build (s : JoinStats) := MkJoinStats (build_records s + 1) (build_nulls s) (duplicates s) (probe_records s) (matches s) (misses s) (project_misses s).
Definition count_null (s : JoinStats) := MkJoinStats (build_records s) (build_nulls s + 1) (duplicates s) (probe_records s) (matches s) (misses s) (project_misses s).
Definition count_duplicate (s : JoinStats) := MkJoinStats (build_records s) (build_nulls s) (duplicates s + 1) (probe_records s) (matches s) (misses s) (project_misses s).
Definition count_probe (s : JoinStats) := MkJoinStats (build_records s) (build_nulls s) (duplicates s) (probe_records s + 1) (matches s) (misses s) (project_misses s).
Definition count_match (s : JoinStats) := MkJoinStats (build_records s) (build_nulls s) (duplicates s) (probe_records s) (matches s + 1) (misses s) (project_misses s).
Definition count_miss (s : JoinStats) := MkJoinStats (build_records s) (build_nulls s) (duplicates s) (probe_records s) (matches s) (misses s + 1) (project_misses s).
Definition count_project_miss (s : JoinStats) := MkJoinStats (build_records s) (build_nulls s) (duplicates s) (probe_records s) (matches s) (misses s) (project_misses s + 1).

Record HashJoin := MkHashJoin {
  hj_config : JoinConfig;
  hj_index : gmap string (list Value);
  hj_stats : JoinStats;
}.
Definition HashJoin_new (config : JoinConfig) : HashJoin := MkHashJoin config ∅ JoinStats_default.

(** [get_path]: objects only; the empty path is the value itself. *)
Definition object_step (cur : option Value) (seg : string) : option Value :=
  match cur with Some (VObject m) => assoc seg m | _ => None end.
Definition get_path (value : Value) (path : string) : option Value :=
  if string_eqb path EmptyString then Some value
  else foldl object_step (Some value) (split_on DOT path).

(** [set_field]. *)
Definition set_field (left_ : Value) (name : string) (value : Value) (on_collision : OnCollision) : result Value FaucetError :=
  match left_ with
  | VObject obj =>
      match assoc name obj, on_collision with
      | Some _, Overwrite | None, _ => Ok (VObject (assoc_insert name value obj))
      | Some _, Skip => Ok left_
      | Some _, CollisionError =>
          Err (Errors.Transform ("join projection '" +:+ name +:+ "' collides with an existing field (on_collision: error)"))
      end
  | _ => Err (Errors.Transform "join can only enrich object-shaped records")
  end.

Section Join.
Context (json_str : string -> string) (float_str : f64 -> string).

Definition canonical_key (value : Value) (mode : KeyNormalize) : option string :=
  match mode, value with
  | Preserve, VString s => Some ("s:" +:+ s)
  | Preserve, VNumber _ => Some ("n:" +:+ key_scalar_text json_str float_str value)
  | Preserve, VBool b => Some ("b:" +:+ bool_str b)
  | Stringify, VString s => Some s
  | Stringify, VNumber _ => Some (key_scalar_text json_str float_str value)
  | Stringify, VBool b => Some (bool_str b)
  | _, _ => None
  end.

(** A record's join key: absent, null and non-scalar keys are none. *)
Definition record_key (rec : Value) (path : string) (mode : KeyNormalize) : option string :=
  match get_path rec path with
  | Some v => if is_null v then None else canonical_key v mode
  | None => None
  end.

(** [add_build_page]; the state holds what was indexed before an overflow. *)
Definition index_record (j : HashJoin) (rec : Value) : HashJoin :=
  let c := hj_config j in
  match record_key rec (jc_build_key c) (jc_key_normalize c) with
  | None => MkHashJoin c (hj_index j) (count_null (hj_stats j))
  | Some k =>
      let bucket := default [] (hj_index j !! k) in
      MkHashJoin c (<[k := bucket ++ [rec]]> (hj_index j))
        (if (length bucket =? 1)%nat then count_duplicate (hj_stats j) else hj_stats j)
  end.
Fixpoint add_build_page (j : HashJoin) (records : list Value) : result unit FaucetError * HashJoin :=
  match records with
  | [] => (Ok tt, j)
  | rec :: records =>
      let j := MkHashJoin (hj_config j) (hj_index j) (count_build (hj_stats j)) in
      if jc_max_build_records (hj_config j) <? build_records (hj_stats j) then
        (Err (Errors.Transform ("join build side exceeded max_build_records (" +:+ dec (jc_max_build_records (hj_config j))
                +:+ "); raise the limit or partition the join")), j)
      else add_build_page (index_record j rec) records
  end.

(** [apply_projection]. *)
Fixpoint project (config : JoinConfig) (projections : list Projection) (stats : JoinStats) (left_ : Value) (right_ : option Value)
  : result Value FaucetError * JoinStats :=
  match projections with
  | [] => (Ok left_, stats)
  | p :: rest =>
      match (match right_ with Some r => get_path r (pj_from p) | None => Some (jc_on_missing config) end) with
      | None => project config rest (count_project_miss stats) left_ right_
      | Some v =>
          match set_field left_ (pj_as p) v (jc_on_collision config) with
          | Ok left_ => project config rest stats left_ right_
          | Err e => (Err e, stats)
          end
      end
  end.
Definition apply_projection (config : JoinConfig) (stats : JoinStats) (left_ : Value) (right_ : option Value)
  : result Value FaucetError * JoinStats := project config (jc_projections config) stats left_ right_.

(** One enriched copy of [left_] per record taken from the bucket. *)
Fixpoint enrich_all (config : JoinConfig) (stats : JoinStats) (left_ : Value) (rights : list (option Value))
  : result (list Value) FaucetError * JoinStats :=
  match rights with
  | [] => (Ok [], stats)
  | r :: rights =>
      match apply_projection config stats left_ r with
      | (Err e, stats) => (Err e, stats)
      | (Ok v, stats) =>
          match enrich_all config stats left_ rights with
          | (Err e, stats) => (Err e, stats)
          | (Ok vs, stats) => (Ok (v :: vs), stats)
          end
      end
  end.

(** One record of [probe_page]. *)
Definition probe_record (j : HashJoin) (left_ : Value) : result (list Value) FaucetError * JoinStats :=
  let c := hj_config j in
  let stats := count_probe (hj_stats j) in
  match record_key left_ (jc_probe_key c) (jc_key_normalize c) ≫= fun k => hj_index j !! k with
  | Some (b :: bucket) =>
      let take_ := match jc_on_duplicate c with First => [b] | Cartesian => b :: bucket end in
      enrich_all c (count_match stats) left_ (Some <$> take_)
  | _ =>
      let stats := count_miss stats in
      match jc_mode c with
      | Left => enrich_all c stats left_ [None]
      | Inner => (Ok [], stats)
      end
  end.
Fixpoint probe_page (j : HashJoin) (records : list Value) : result (list Value) FaucetError * HashJoin :=
  match records with
  | [] => (Ok [], j)
  | l :: records =>
      match probe_record j l with
      | (Err e, stats) => (Err e, MkHashJoin (hj_config j) (hj_index j) stats)
      | (Ok out, stats) =>
          match probe_page (MkHashJoin (hj_config j) (hj_index j) stats) records with
          | (Err e, j) => (Err e, j)
          | (Ok rest, j) => (Ok (out ++ rest), j)
          end
      end
  end.

(** A join node: every build page, then every probe page. *)
Fixpoint build_all (j : HashJoin) (pages : list (list Value)) : result unit FaucetError * HashJoin :=
  match pages with
  | [] => (Ok tt, j)
  | p :: pages => match add_build_page j p with (Ok _, j) => build_all j pages | (Err e, j) => (Err e, j) end
  end.
Fixpoint probe_all (j : HashJoin) (pages : list (list Value)) : result (list (list Value)) FaucetError * HashJoin :=
  match pages with
  | [] => (Ok [], j)
  | p :: pages =>
      match probe_page j p with
      | (Err e, j) => (Err e, j)
      | (Ok out, j) => match probe_all j pages with (Ok rest, j) => (Ok (out :: rest), j) | (Err e, j) => (Err e, j) end
      end
  end.

(** ** The nested-loop join *)

(** One probe record enriched from one build record, or from nothing. *)
Fixpoint projected (config : JoinConfig) (projections : list Projection) (left_ : Value) (right_ : option Value) : result Value FaucetError :=
  match projections with
  | [] => Ok left_
  | p :: rest =>
      match (match right_ with Some r => get_path r (pj_from p) | None => Some (jc_on_missing config) end) with
      | None => projected config rest left_ right_
      | Some v => let? left_ := set_field left_ (pj_as p) v (jc_on_collision config) in projected config rest left_ right_
      end
  end.
Fixpoint results {A B} (f : A -> result B FaucetError) (l : list A) : result (list B) FaucetError :=
  match l with
  | [] => Ok []
  | a :: l => let? b := f a in let? bs := results f l in Ok (b :: bs)
  end.

(** The build records whose key is the probe record's, in build order. *)
Definition partners (c : JoinConfig) (builds : list Value) (left_ : Value) : list Value :=
  match record_key left_ (jc_probe_key c) (jc_key_normalize c) with
  | Some k => List.filter (fun r => bool_decide (record_key r (jc_build_key c) (jc_key_normalize c) = Some k)) builds
  | None => []
  end.
Definition joined_with (c : JoinConfig) (builds : list Value) (left_ : Value) : list (option Value) :=
  match partners c builds left_ with
  | [] => match jc_mode c with Left => [None] | Inner => [] end
  | r :: rs => match jc_on_duplicate c with First => [Some r] | Cartesian => Some <$> r :: rs end
  end.
Definition nested_loop (c : JoinConfig) (builds lefts : list Value) : result (list Value) FaucetError :=
  let? rows := results (fun l => results (projected c (jc_projections c) l) (joined_with c builds l)) lefts in
  Ok (concat rows).

(** ** Facts *)

Definition key_is (c : JoinConfig) (k : string) (r : Value) : bool :=
  bool_decide (record_key r (jc_build_key c) (jc_key_normalize c) = Some k).

(** The index holds, under each key, the records of that key in build order. *)
Record indexes (c : JoinConfig) (builds : list Value) (j : HashJoin) : Prop := {
  ix_config : hj_config j = c;
  ix_bucket : forall k, default [] (hj_index j !! k) = List.filter (key_is c k) builds;
  ix_count : build_records (hj_stats j) = zlen builds;
}.

Lemma indexes_new c : indexes c [] (HashJoin_new c).
Proof. by split. Qed.

Lemma index_record_indexes c builds j rec :
  indexes c builds j -> indexes c (builds ++ [rec]) (index_record (MkHashJoin c (hj_index j) (count_build (hj_stats j))) rec).
Proof.
  intros [Hc Hb Hn]. assert (zlen (builds ++ [rec]) = build_records (count_build (hj_stats j))) as Hlen.
  { cbn. rewrite Hn. unfold zlen. rewrite length_app. cbn. lia. }
  unfold index_record. cbn [hj_config hj_index hj_stats].
  destruct (record_key rec (jc_build_key c) (jc_key_normalize c)) as [k|] eqn:Ek.
  - split; [done| |].
    + intros k'. cbn [hj_index]. rewrite List.filter_app. cbn [List.filter]. unfold key_is at 2. rewrite Ek.
      destruct (decide (k = k')) as [<-|Hne].
      * rewrite lookup_insert_eq, Hb, bool_decide_eq_true_2 by done. done.
      * rewrite lookup_insert_ne, Hb, bool_decide_eq_false_2 by congruence. by rewrite app_nil_r.
    + cbn [hj_stats]. rewrite Hlen. by case_match.
  - split; [done| |done]. intros k'. cbn [hj_index]. rewrite List.filter_app, Hb. cbn [List.filter].
    unfold key_is at 3. rewrite Ek. by rewrite app_nil_r.
Qed.

Lemma add_build_page_spec c page builds j : indexes c builds j ->
  let '(r, j') := add_build_page j page in
  (r = Ok tt <-> zlen (builds ++ page) <= Z.max (zlen builds) (jc_max_build_records c)) /\
  (r = Ok tt -> indexes c (builds ++ page) j').
Proof.
  revert builds j. induction page as [|rec page IH]; intros builds j Hj; cbn [add_build_page].
  - rewrite app_nil_r. split; [|done]. split; [lia|done].
  - destruct (ix_config _ _ _ Hj) as []. set (c := hj_config j) in *. cbn [hj_config hj_stats].
    assert (zlen (builds ++ rec :: page) = zlen builds + 1 + zlen page) as Hl by (unfold zlen; rewrite length_app; cbn; lia).
    pose proof (zlen_nonneg page). destruct (Z.ltb_spec (jc_max_build_records c) (build_records (count_build (hj_stats j)))) as [Hlt|Hge];
      cbn in Hlt || cbn in Hge; rewrite (ix_count _ _ _ Hj) in *.
    + split; [|done]. split; [done|lia].
    + specialize (IH _ _ (index_record_indexes _ _ _ rec Hj)). destruct (add_build_page _ page) as [r j'].
      rewrite <- app_assoc in IH. change ([rec] ++ page) with (rec :: page) in IH. destruct IH as [Hr Hi]. split; [|done].
      rewrite Hr, Hl. assert (zlen (builds ++ [rec]) = zlen builds + 1) as -> by (unfold zlen; rewrite length_app; cbn; lia). lia.
Qed.

Lemma build_all_spec c pages builds j : indexes c builds j -> zlen builds <= jc_max_build_records c ->
  let '(r, j') := build_all j pages in
  (r = Ok tt <-> zlen (builds ++ concat pages) <= jc_max_build_records c) /\
  (r = Ok tt -> indexes c (builds ++ concat pages) j').
Proof.
  revert builds j. induction pages as [|p pages IH]; intros builds j Hj Hle; cbn [build_all concat].
  - rewrite app_nil_r. done.
  - pose proof (add_build_page_spec c p builds j Hj) as Hp. destruct (add_build_page j p) as [[[]|e] j']; destruct Hp as [Hr Hi].
    + assert (zlen (builds ++ p) <= jc_max_build_records c) as Hle' by (destruct Hr as [Hr _]; specialize (Hr eq_refl); lia).
      specialize (IH (builds ++ p) j' (Hi eq_refl) Hle'). by rewrite <- app_assoc in IH.
    + split; [|done]. split; [done|]. intros Hlen. destruct Hr as [_ Hr]. discriminate Hr. rewrite app_assoc in Hlen. unfold zlen in *.
      rewrite (length_app (builds ++ p)) in Hlen. lia.
Qed.

(** The counters do not change what is produced. *)
Lemma project_projected c ps s l r : fst (project c ps s l r) = projected c ps l r.
Proof.
  revert s l. induction ps as [|p ps IH]; intros s l; cbn [project projected]; [done|].
  destruct (match r with Some r => _ | None => _ end) as [v|]; [|apply IH]. destruct (set_field _ _ _ _); [apply IH|done].
Qed.
Lemma project_probes c ps s l r : let s' := snd (project c ps s l r) in
  (probe_records s', matches s', misses s') = (probe_records s, matches s, misses s).
Proof.
  revert s l. induction ps as [|p ps IH]; intros s l; cbn [project]; [done|].
  destruct (match r with Some r => _ | None => _ end) as [v|]; [|exact (IH (count_project_miss s) l)]. destruct (set_field _ _ _ _); [apply IH|done].
Qed.
Lemma enrich_all_spec c s l rs :
  fst (enrich_all c s l rs) = results (projected c (jc_projections c) l) rs /\
  (let s' := snd (enrich_all c s l rs) in (probe_records s', matches s', misses s') = (probe_records s, matches s, misses s)).
Proof.
  revert s. induction rs as [|r rs IH]; intros s; cbn [enrich_all results]; [done|]. unfold apply_projection.
  rewrite <- (project_projected c _ s l r). pose proof (project_probes c (jc_projections c) s l r) as Hp.
  destruct (project c _ s l r) as [[v|e] s1]; cbn in *; [|done]. destruct (IH s1) as [H1 H2]. rewrite <- H1.
  destruct (enrich_all c s1 l rs) as [[vs|e] s2]; cbn in *; split; congruence.
Qed.

Lemma partners_bucket c builds j l : indexes c builds j ->
  default [] (record_key l (jc_probe_key c) (jc_key_normalize c) ≫= fun k => hj_index j !! k) = partners c builds l.
Proof.
  intros Hj. unfold partners. destruct (record_key l _ _) as [k|]; [|done]. cbn. apply (ix_bucket _ _ _ Hj).
Qed.

Definition has_partner (c : JoinConfig) (builds : list Value) (l : Value) : Z := if is_nil (partners c builds l) then 0 else 1.

Lemma probe_record_spec c builds j l : indexes c builds j ->
  let '(r, s) := probe_record j l in
  r = results (projected c (jc_projections c) l) (joined_with c builds l) /\
  matches s = matches (hj_stats j) + has_partner c builds l /\
  matches s + misses s = matches (hj_stats j) + misses (hj_stats j) + 1.
Proof.
  intros Hj. unfold probe_record. rewrite (ix_config _ _ _ Hj). pose proof (partners_bucket c builds j l Hj) as Hp.
  unfold joined_with, has_partner. rewrite <- Hp. destruct (record_key l _ _ ≫= _) as [[|b bucket]|]; cbn [default from_option].
  1,3: cbn [id is_nil]; destruct (jc_mode c); [split; [done|cbn; lia]|];
    destruct (enrich_all_spec c (count_miss (count_probe (hj_stats j))) l [None]) as [H1 H2];
    destruct (enrich_all _ _ _ _) as [r s]; split; [done|]; cbn in H2; injection H2 as E1 E2 E3; lia.
  cbn [id is_nil].
  destruct (enrich_all_spec c (count_match (count_probe (hj_stats j))) l (Some <$> match jc_on_duplicate c with First => [b] | Cartesian => b :: bucket end)) as [H1 H2].
  destruct (enrich_all _ _ _ _) as [r s]. cbn in H1, H2 |- *. injection H2 as E1 E2 E3. rewrite H1. split; [by destruct (jc_on_duplicate c)|]. lia.
Qed.

Definition row_join (c : JoinConfig) (builds : list Value) (l : Value) : result (list Value) FaucetError :=
  results (projected c (jc_projections c) l) (joined_with c builds l).

Lemma indexes_stats c builds j s : indexes c builds j -> build_records s = build_records (hj_stats j) ->
  indexes c builds (MkHashJoin (hj_config j) (hj_index j) s).
Proof. intros [] E. split; cbn; congruence. Qed.

Lemma enrich_builds c s l rs : build_records (snd (enrich_all c s l rs)) = build_records s.
Proof.
  revert s. induction rs as [|r rs IH]; intros s; cbn [enrich_all]; [done|]. unfold apply_projection.
  assert (build_records (snd (project c (jc_projections c) s l r)) = build_records s) as Hp.
  { clear. generalize (jc_projections c). intros ps. revert s l. induction ps as [|p ps IH]; intros s l; cbn [project]; [done|].
    destruct (match r with Some r => _ | None => _ end); [|exact (IH (count_project_miss s) l)]. destruct (set_field _ _ _ _); [apply IH|done]. }
  destruct (project _ _ _ _ _) as [[v|e] s1]; [|done]. specialize (IH s1). destruct (enrich_all c s1 l rs) as [[]]; cbn in *; congruence.
Qed.
Lemma probe_builds j l : build_records (snd (probe_record j l)) = build_records (hj_stats j).
Proof.
  unfold probe_record. destruct (_ ≫= _) as [[|b bucket]|]; try destruct (jc_mode _); try done; by rewrite enrich_builds.
Qed.

Lemma probe_page_spec c builds page j : indexes c builds j ->
  let '(r, j') := probe_page j page in
  r = result_bind (results (row_join c builds) page) (fun rows => Ok (concat rows)) /\ indexes c builds j' /\
  (is_ok r = true ->
   matches (hj_stats j') = matches (hj_stats j) + zsum (has_partner c builds <$> page) /\
   matches (hj_stats j') + misses (hj_stats j') = matches (hj_stats j) + misses (hj_stats j) + zlen page).
Proof.
  revert j. induction page as [|l page IH]; intros j Hj; cbn [probe_page results].
  - split; [done|]. split; [done|]. intros _. cbn. unfold zlen. cbn. lia.
  - pose proof (probe_record_spec c builds j l Hj) as Hp. pose proof (probe_builds j l) as Hb.
    destruct (probe_record j l) as [r s]. destruct Hp as [-> Hs]. fold (row_join c builds l). cbn in Hb.
    pose proof (indexes_stats _ _ _ _ Hj Hb) as Hj'. destruct (row_join c builds l) as [out|e]; cbn [result_bind]; [|done].
    specialize (IH _ Hj'). destruct (probe_page _ page) as [r' j']. destruct IH as (-> & Hi & Hst).
    destruct (results (row_join c builds) page) as [rows|e]; cbn [result_bind] in *; [|done].
    split; [done|]. split; [done|]. intros _. specialize (Hst eq_refl). cbn [hj_stats] in Hst. destruct Hs as [E1 E2].
    rewrite fmap_cons. cbn [zsum fold_right]. fold (zsum (has_partner c builds <$> page)). unfold zlen in *. cbn [length]. lia.
Qed.

Lemma results_app {A B} (f : A -> result B FaucetError) l l' :
  results f (l ++ l') = let? a := results f l in let? b := results f l' in Ok (a ++ b).
Proof.
  induction l as [|x l IH]; cbn [results app]; [by destruct (results f l')|]. destruct (f x); [|done]. cbn [result_bind]. rewrite IH.
  destruct (results f l); [|done]. cbn [result_bind]. by destruct (results f l').
Qed.

Lemma probe_all_spec c builds pages j : indexes c builds j ->
  let '(r, j') := probe_all j pages in
  (let? out := r in Ok (concat out)) = nested_loop c builds (concat pages) /\
  (is_ok r = true ->
   matches (hj_stats j') = matches (hj_stats j) + zsum (has_partner c builds <$> concat pages) /\
   matches (hj_stats j') + misses (hj_stats j') = matches (hj_stats j) + misses (hj_stats j) + zlen (concat pages)).
Proof.
  revert j. induction pages as [|p pages IH]; intros j Hj; cbn [probe_all concat].
  - split; [done|]. intros _. cbn. unfold zlen. cbn. lia.
  - pose proof (probe_page_spec c builds p j Hj) as Hp. destruct (probe_page j p) as [r j1]. destruct Hp as (-> & Hi & Hst).
    unfold nested_loop in *. fold (row_join c builds) in *. rewrite results_app.
    destruct (results (row_join c builds) p) as [rows|e]; cbn [result_bind] in *; [|done].
    specialize (IH j1 Hi). destruct (probe_all j1 pages) as [out j2]. destruct IH as [Ho Hs].
    destruct out as [out|e], (results (row_join c builds) (concat pages)) as [rows'|e']; cbn [result_bind concat] in *; simplify_eq; try done.
    split; [rewrite concat_app; congruence|]. intros _. specialize (Hst eq_refl). specialize (Hs eq_refl).
    rewrite fmap_app, zsum_app, zlen_app. lia.
Qed.

Lemma add_build_probes j page : let s := hj_stats (snd (add_build_page j page)) in
  matches s = matches (hj_stats j) /\ misses s = misses (hj_stats j).
Proof.
  revert j. induction page as [|rec page IH]; intros j; cbn [add_build_page]; [done|]. case_match; [done|].
  destruct (IH (index_record (MkHashJoin (hj_config j) (hj_index j) (count_build (hj_stats j))) rec)) as [-> ->].
  unfold index_record. cbn. destruct (record_key _ _ _); [|done]. by destruct (_ =? _)%nat.
Qed.
Lemma build_all_probes j pages : let s := hj_stats (snd (build_all j pages)) in
  matches s = matches (hj_stats j) /\ misses s = misses (hj_stats j).
Proof.
  revert j. induction pages as [|p pages IH]; intros j; cbn [build_all]; [done|].
  pose proof (add_build_probes j p) as Hp. destruct (add_build_page j p) as [[]j1]; [|done]. cbn in *. destruct (IH j1). lia.
Qed.
End Join.

(** C18: The hash join is the nested-loop join. However the build rows and the probe
    rows are cut into pages, the build side is refused exactly when it holds more than
    [max_build_records] rows; otherwise the rows produced, in order, or the error that
    ends the probe, are those of comparing every probe row with every build row: the
    partners of a probe row in build order, the first or all of them, a filled row for
    a [Left] join without a partner. When it succeeds the counters count every probe
    row once, as a match exactly when it has a partner. *)
Theorem hash_join_is_nested_loop json_str float_str c build_pages probe_pages :
  0 <= jc_max_build_records c ->
  let '(built, j) := build_all json_str float_str (HashJoin_new c) build_pages in
  let '(out, j') := probe_all json_str float_str j probe_pages in
  (built = Ok tt <-> zlen (concat build_pages) <= jc_max_build_records c) /\
  (built = Ok tt ->
   (let? pages := out in Ok (concat pages)) = nested_loop json_str float_str c (concat build_pages) (concat probe_pages) /\
   (is_ok out = true ->
    matches (hj_stats j') = zsum (has_partner json_str float_str c (concat build_pages) <$> concat probe_pages) /\
    matches (hj_stats j') + misses (hj_stats j') = zlen (concat probe_pages))).
Proof.
  intros Hm. pose proof (build_all_spec json_str float_str c build_pages [] (HashJoin_new c) (indexes_new json_str float_str c) Hm) as Hb.
  destruct (build_all _ _ _ _) as [built j] eqn:E. destruct Hb as [Hiff Hi]. cbn [app] in *.
  destruct (probe_all _ _ j probe_pages) as [out j'] eqn:Ep. split; [done|]. intros ->. specialize (Hi eq_refl). clear Hiff.
  pose proof (build_all_probes json_str float_str (HashJoin_new c) build_pages) as Hz. rewrite E in Hz. cbn in Hz. destruct Hz as [Z1 Z2].
  pose proof (probe_all_spec json_str float_str c (concat build_pages) probe_pages j Hi) as Hp. rewrite Ep in Hp. destruct Hp as [Ho Hs].
  split; [done|]. intros Hok. specialize (Hs Hok). lia.
Qed.

Definition demo_row (id : string) (k : Value) : Value := VObject [("id", VString id); ("k", k)].
Definition demo_join : JoinConfig := MkJoinConfig Left "k" "k" [MkProjection "id" "right"] Null Cartesian Overwrite Preserve 10.

Lemma hash_join_is_nested_loop_witness :
  (let? pages := fst (probe_all (fun s => s) (fun _ => EmptyString)
     (snd (build_all (fun s => s) (fun _ => EmptyString) (HashJoin_new demo_join) [[demo_row "a" (of_u64 1); demo_row "b" Null]; [demo_row "c" (of_u64 1)]]))
     [[demo_row "x" (of_u64 1)]; [demo_row "y" (of_u64 2)]]) in Ok (concat pages)) =
  Ok [VObject [("id", VString "x"); ("k", of_u64 1); ("right", VString "a")]; VObject [("id", VString "x"); ("k", of_u64 1); ("right", VString "c")];
      VObject [("id", VString "y"); ("k", of_u64 2); ("right", Null)]].
Proof.
  pose proof (hash_join_is_nested_loop (fun s => s) (fun _ => EmptyString) demo_join
    [[demo_row "a" (of_u64 1); demo_row "b" Null]; [demo_row "c" (of_u64 1)]] [[demo_row "x" (of_u64 1)]; [demo_row "y" (of_u64 2)]] ltac:(vm_compute; done)) as Ht.
  destruct (build_all _ _ _ _) as [built j] eqn:Eb. destruct (probe_all _ _ j _) as [out j'] eqn:Ep.
  assert (built = Ok tt) as Hb by (apply Ht; vm_compute; done). destruct Ht as [_ Ht]. destruct (Ht Hb) as [Ho _].
  cbn [fst snd]. rewrite Ep. cbn [fst]. rewrite Ho. vm_compute. reflexivity.
Defined.
