(* ===== verification/Rollback.v ===== *)
(** Undoing a run: crates/core/src/rollback.rs, and the journal and the upsert
    undo of the PostgreSQL sink (crates/sink/postgres/src/rollback.rs).

    A destination is a table of rows under the identity the database gives their
    keys, [dest], and the journal of before-images beside it; a statement is what
    it does to them. Splitting statements by their number of parameters, the
    creation of the journal and the columns a table computes itself are left out.
    JSON text and its parser are serde_json's and parameters. *)
From S2P Require Import Prelude Errors Float64 Json Text Contract WriteMode Drift.

Local Open Scope Z_scope.
Local Open Scope result_scope.

Local Notation table := (gmap string Value).

(** ** rollback.rs *)

Definition RUN_JOURNAL_TABLE : string := "_faucet_run_journal".
Definition PREVIOUS_TABLE_SUFFIX : string := "__faucet_prev".
Definition DEFAULT_RUN_ID_COLUMN : string := "_faucet_run_id".
Record RollbackWriteSpec := MkRollbackWriteSpec { rs_run_id : string; rs_run_id_column : string; rs_journal : bool; rs_keep_previous : bool }.
Inductive RollbackMode := UndoAppend | UndoUpsert | UndoOverwrite.
Definition for_write_mode (mode : WriteMode) : RollbackMode :=
  match mode with Append => UndoAppend | Upsert | Delete => UndoUpsert | Overwrite => UndoOverwrite end.
Definition rollback_mode_str (m : RollbackMode) : string :=
  match m with UndoAppend => "append" | UndoUpsert => "upsert" | UndoOverwrite => "overwrite" end.
Record RollbackOptions := MkRollbackOptions { ro_run_id_column : string; ro_mode : RollbackMode; ro_force : bool; ro_dry_run : bool; ro_later_runs : bool }.
Record RollbackOutcome := MkRollbackOutcome { rk_deleted : Z; rk_restored : Z; rk_conflicts : Z; rk_applied : bool; rk_note : option string }.
Definition outcome_nothing (note : string) : RollbackOutcome := MkRollbackOutcome 0 0 0 true (Some note).
Definition outcome_blocked (conflicts : Z) : RollbackOutcome :=
  MkRollbackOutcome 0 0 conflicts false (Some (dec conflicts +:+ " key(s) were changed by a later run; pass --force to restore them anyway")).

(** [struct JournalSql] and the statements it builds. *)
Record JournalSql := MkJournalSql {
  js_quote : string -> string;
  js_placeholder : Z -> string;
  js_before_type : string;
  js_insert_prefix : string;
  js_insert_suffix : string;
  js_now : string;
  js_key_column : string;
  js_primary_key : string;
}.
Definition KEY_COLUMN_TEXT : string := "key_json TEXT NOT NULL".
Definition PRIMARY_KEY_TEXT : string := "PRIMARY KEY (run_id, table_name, key_json)".
Definition sql_t (s : JournalSql) : string := js_quote s RUN_JOURNAL_TABLE.
Definition sql_create (s : JournalSql) : string :=
  "CREATE TABLE IF NOT EXISTS " +:+ sql_t s +:+ " (run_id VARCHAR(64) NOT NULL, table_name VARCHAR(255) NOT NULL, "
  +:+ js_key_column s +:+ ", before_json " +:+ js_before_type s +:+ ", recorded_at TIMESTAMP DEFAULT " +:+ js_now s +:+ ", " +:+ js_primary_key s +:+ ")".
(** [n] placeholders from [from + 1] on. *)
Definition placeholders (s : JournalSql) (from : Z) (n : nat) : list string := (fun i => js_placeholder s (from + 1 + Z.of_nat i)) <$> seq 0 n.
Definition groups_of (s : JournalSql) (from : Z) (width rows : nat) : list string :=
  (fun i => "(" +:+ join ", " (placeholders s (from + Z.of_nat (i * width)) width) +:+ ")") <$> seq 0 rows.
Definition sql_insert (s : JournalSql) (rows : nat) : string :=
  js_insert_prefix s +:+ " INTO " +:+ sql_t s +:+ " (run_id, table_name, key_json, before_json) VALUES " +:+ join ", " (groups_of s 0 4 rows) +:+ js_insert_suffix s.
Definition sql_select (s : JournalSql) : string :=
  "SELECT key_json, before_json FROM " +:+ sql_t s +:+ " WHERE run_id = " +:+ js_placeholder s 1 +:+ " AND table_name = " +:+ js_placeholder s 2.
Definition sql_later_keys (s : JournalSql) : string :=
  "SELECT key_json FROM " +:+ sql_t s +:+ " WHERE table_name = " +:+ js_placeholder s 1 +:+ " AND run_id <> " +:+ js_placeholder s 2
  +:+ " AND recorded_at >= (SELECT MIN(recorded_at) FROM " +:+ sql_t s +:+ " WHERE table_name = " +:+ js_placeholder s 3
  +:+ " AND run_id = " +:+ js_placeholder s 4 +:+ ")".
Definition sql_delete_table (s : JournalSql) : string :=
  "DELETE FROM " +:+ sql_t s +:+ " WHERE run_id = " +:+ js_placeholder s 1 +:+ " AND table_name = " +:+ js_placeholder s 2.
Definition sql_keys_in (s : JournalSql) (key : list string) (tuples : nat) (start : Z) : string * Z :=
  ("(" +:+ join ", " (js_quote s <$> key) +:+ ") IN (" +:+ join ", " (groups_of s start (length key) tuples) +:+ ")",
   start + Z.of_nat (tuples * length key)).
Definition sql_delete_by_run (s : JournalSql) (table_ref run_id_col : string) : string :=
  "DELETE FROM " +:+ table_ref +:+ " WHERE " +:+ js_quote s run_id_col +:+ " = " +:+ js_placeholder s 1.
Definition sql_count_by_run (s : JournalSql) (table_ref run_id_col : string) : string :=
  "SELECT count(*) FROM " +:+ table_ref +:+ " WHERE " +:+ js_quote s run_id_col +:+ " = " +:+ js_placeholder s 1.

Record JournalEntry := MkJournalEntry { je_key : list (string * Value); je_before : option Value }.
Definition entry_tuple (e : JournalEntry) (key : list string) : KeyTuple := (fun k => (k, default Null (assoc k (je_key e)))) <$> key.
Definition restorable (entries : list JournalEntry) : list JournalEntry := List.filter (fun e => is_some (je_before e)) entries.
Definition plan_restore (entries : list JournalEntry) : list JournalEntry * list Value :=
  (List.filter (fun e => negb (is_some (je_before e))) entries, omap je_before entries).

Section Rollback.
Context (to_json : Value -> string) (float_str : f64 -> string) (json_parse : string -> result Value string) (debug_str : string -> string).

Definition key_json (tuple : KeyTuple) : string :=
  "{" +:+ join "," ((fun e => to_json (VString e.1) +:+ ":" +:+ to_json e.2) <$> tuple) +:+ "}".
Definition text_of (v : Value) : string := key_scalar_text (fun s => to_json (VString s)) float_str v.
Definition canonical_key (tuple : KeyTuple) : KeyTuple :=
  (fun e : string * Value => (e.1, match e.2 with Null => Null | other => VString (text_of other) end)) <$> tuple.

(** The loop of [plan_keys], with the texts seen. *)
Fixpoint dedup_keys (seen : gset string) (tuples : list KeyTuple) : list KeyTuple :=
  match tuples with
  | [] => []
  | t :: tuples =>
      let c := canonical_key t in
      if bool_decide (key_json c ∈ seen) then dedup_keys seen tuples
      else c :: dedup_keys ({[key_json c]} ∪ seen) tuples
  end.
Definition plan_keys (plan : WritePlan) (key : list string) : list KeyTuple :=
  dedup_keys ∅ (omap (fun r => record_key r key) (upserts plan) ++ deletes plan).

Definition entry_decode (key_text : string) (before_text : option string) : result JournalEntry FaucetError :=
  match json_parse key_text with
  | Err e => Err (Sink ("rollback: malformed journal key " +:+ debug_str key_text +:+ ": " +:+ e))
  | Ok (VObject m) =>
      match before_text with
      | None => Ok (MkJournalEntry m None)
      | Some b => match json_parse b with
                  | Err e => Err (Sink ("rollback: malformed before-image: " +:+ e))
                  | Ok v => Ok (MkJournalEntry m (Some v))
                  end
      end
  | Ok other => Err (Sink ("rollback: journal key is not an object: " +:+ to_json other))
  end.
Definition touched_later (restorable : list JournalEntry) (later_keys : list string) (key : list string) : list JournalEntry :=
  let later : gset string :=
    list_to_set (omap (fun k => (fun e => key_json (entry_tuple e key)) <$> result_ok (entry_decode k None)) later_keys) in
  if bool_decide (later = ∅) then []
  else List.filter (fun e => bool_decide (key_json (entry_tuple e key) ∈ later)) restorable.

(** ** The PostgreSQL sink *)

(** A journal row of the table: run, key text, before-image and when it was recorded. *)
Record JournalRow := MkJournalRow { jr_run : string; jr_key : string; jr_before : option Value; jr_at : Z }.
Record Db := MkDb { db_rows : table; db_journal : list JournalRow }.

Context (dest : KeyTuple -> string) (spec : WriteSpec).

(** [journal_plan]: the rows under the keys of the plan, inserted where the run
    has not journaled the key yet. *)
Definition journaled (journal : list JournalRow) (run text : string) : bool :=
  existsb (fun r => string_eqb (jr_run r) run && string_eqb (jr_key r) text) journal.
Definition journal_key (run : string) (now : Z) (rows : table) (journal : list JournalRow) (c : KeyTuple) : list JournalRow :=
  if journaled journal run (key_json c) then journal
  else journal ++ [MkJournalRow run (key_json c) (rows !! dest c) now].
Definition journal_plan (run : string) (now : Z) (plan : WritePlan) (db : Db) : Db :=
  MkDb (db_rows db) (foldl (journal_key run now (db_rows db)) (db_journal db) (plan_keys plan (ws_key spec))).
(** A journaled page: the images and the plan, in one transaction. *)
Definition journaled_page (run : string) (db : Db) (page : Z * WritePlan) : Db :=
  let db := journal_plan run page.1 page.2 db in
  MkDb (apply_plan dest spec page.2 (db_rows db)) (db_journal db).

Fixpoint journal_entries (run : string) (rows : list JournalRow) : result (list JournalEntry) FaucetError :=
  match rows with
  | [] => Ok []
  | r :: rows =>
      if string_eqb (jr_run r) run then
        let? e := entry_decode (jr_key r) (to_json <$> jr_before r) in
        let? rest := journal_entries run rows in
        Ok (e :: rest)
      else journal_entries run rows
  end.

(** [count_rows_for]: the rows under the entries' keys, of other runs only when asked. *)
Definition other_run (run col : string) (row : Value) : bool :=
  negb (match get row col with Some (VString s) => string_eqb s run | _ => false end).
Definition count_rows_for (db : Db) (entries : list JournalEntry) (p : Value -> bool) : Z :=
  let keys : gset string := list_to_set ((fun e => dest (entry_tuple e (ws_key spec))) <$> entries) in
  zlen (List.filter (fun e : string * Value => bool_decide (e.1 ∈ keys) && p e.2) (map_to_list (db_rows db))).
Definition count_conflicts (has_column : bool) (db : Db) (entries : list JournalEntry) (run col : string) : Z :=
  if is_nil entries || negb has_column then 0 else count_rows_for db entries (other_run run col).
Definition min_at (run : string) (journal : list JournalRow) : option Z :=
  foldr (fun r m => if string_eqb (jr_run r) run then Some (default (jr_at r) (Z.min (jr_at r) <$> m)) else m) None journal.
Definition later_keys (run : string) (journal : list JournalRow) : list string :=
  match min_at run journal with
  | None => []
  | Some t => jr_key <$> List.filter (fun r => negb (string_eqb (jr_run r) run) && (t <=? jr_at r)) journal
  end.
Definition count_vanished (db : Db) (entries : list JournalEntry) (run : string) : Z :=
  let es := touched_later (restorable entries) (later_keys run (db_journal db)) (ws_key spec) in
  if is_nil (restorable entries) || is_nil es then 0
  else ssub (zlen es) (count_rows_for db es (fun _ => true)).

(** [restore_images]: the images the journal holds of the run, each under its own
    key; the database refuses a statement that writes one key twice. *)
Definition image_updates (images : list Value) : list update := omap (upsert_update dest spec) images.
Definition sink_err (context e : string) : FaucetError := Sink ("postgres rollback: " +:+ context +:+ ": " +:+ e).
Definition run_images (run : string) (journal : list JournalRow) : list Value :=
  omap jr_before (List.filter (fun r => string_eqb (jr_run r) run) journal).
Definition restore_images (twice run : string) (journal : list JournalRow) (rows : table) : result (table * Z) FaucetError :=
  let images := run_images run journal in
  if bool_decide (NoDup (image_updates images).*1) then Ok (apply_updates (image_updates images) rows, zlen images)
  else Err (sink_err "restore before-images" twice).
(** [delete_by_keys]: the rows gone and how many there were. *)
Definition delete_keys (tuples : list KeyTuple) (rows : table) : table * Z :=
  (apply_updates (delete_update dest <$> tuples) rows,
   zlen (List.filter (fun k => is_some (rows !! k)) (elements (list_to_set (dest <$> tuples) : gset string)))).

Definition rollback_upsert (has_column : bool) (twice : string) (run : string) (opts : RollbackOptions) (db : Db)
  : result (RollbackOutcome * Db) FaucetError :=
  if is_nil (ws_key spec) then Err (Sink "postgres rollback: the sink config has no `key`, so journaled keys cannot be addressed")
  else
    let? entries := journal_entries run (db_journal db) in
    if is_nil entries then
      Ok (outcome_nothing "no journal rows for this run (was `rollback.journal` enabled when it ran?)", db)
    else
      let conflicts := count_conflicts has_column db entries run (ro_run_id_column opts)
                       + (if ro_later_runs opts then count_vanished db entries run else 0) in
      if (0 <? conflicts) && negb (ro_force opts) then Ok (outcome_blocked conflicts, db)
      else
        let '(dels, restores) := plan_restore entries in
        if ro_dry_run opts then
          Ok (MkRollbackOutcome (zlen dels) (zlen restores) conflicts false (Some "dry run"), db)
        else
          let '(rows, deleted) := delete_keys ((fun e => entry_tuple e (ws_key spec)) <$> dels) (db_rows db) in
          let? restored := if is_nil restores then Ok (rows, 0) else restore_images twice run (db_journal db) rows in
          Ok (MkRollbackOutcome deleted restored.2 conflicts true None,
              MkDb restored.1 (List.filter (fun r => negb (string_eqb (jr_run r) run)) (db_journal db))).
(** [rollback_run_impl] of an upsert run: committed when it applied, else rolled back. *)
Definition rollback_run (has_column : bool) (twice : string) (run : string) (opts : RollbackOptions) (db : Db) : result RollbackOutcome FaucetError * Db :=
  match rollback_upsert has_column twice run opts db with
  | Err e => (Err e, db)
  | Ok (o, db') => (Ok o, if rk_applied o && negb (ro_dry_run opts) then db' else db)
  end.
End Rollback.

(** ** The undo *)

Section Undo.
Context (to_json : Value -> string) (float_str : f64 -> string) (json_parse : string -> result Value string) (debug_str : string -> string).
Context (dest : KeyTuple -> string) (spec : WriteSpec).
Local Notation key := (ws_key spec).
Local Notation key_json := (key_json to_json).
Local Notation canonical_key := (canonical_key to_json float_str).

(** What the undo relies on: the key columns are distinct; the database finds a
    row by the text of its key; a journaled key reads back as it was written, and
    an image reads back at all. *)
Class Journaling : Prop := {
  key_columns : NoDup key /\ key <> [];
  dest_text : forall t, dest (canonical_key t) = dest t;
  key_reads_back : forall t, t.*1 = key -> json_parse (key_json (canonical_key t)) = Ok (VObject (canonical_key t));
  image_reads_back : forall v, exists w, json_parse (to_json v) = Ok w;
}.
(** The keys of a list are each written one way: the database may take two texts for one key (a
    UUID in upper and lower case), but the list has only one of them. *)
Definition one_spelling (used : list KeyTuple) : Prop :=
  forall t t', t ∈ used -> t' ∈ used -> dest t = dest t' -> key_json (canonical_key t) = key_json (canonical_key t').
Context `{HJ : !Journaling} (used : list KeyTuple) (Hused : one_spelling used).

Definition canon (c : KeyTuple) : Prop := exists t, t.*1 = key /\ t ∈ used /\ c = canonical_key t.

Lemma canonical_columns t : (canonical_key t).*1 = t.*1.
Proof. unfold Rollback.canonical_key. rewrite <- list_fmap_compose. done. Qed.
Lemma canon_dest_text c c' : canon c -> canon c' -> dest c = dest c' -> key_json c = key_json c'.
Proof. intros (t & Ht & Hu & ->) (t' & Ht' & Hu' & ->). rewrite !dest_text. by apply Hused. Qed.
Lemma canon_inj c c' : canon c -> canon c' -> key_json c = key_json c' -> c = c'.
Proof.
  intros (t & Ht & _ & ->) (t' & Ht' & _ & ->) E. pose proof (key_reads_back t Ht) as H. rewrite E, (key_reads_back t' Ht') in H. by injection H.
Qed.
Lemma record_key_columns r t : record_key r key = Some t -> t.*1 = key.
Proof.
  unfold record_key, extract_key. destruct (as_object r) as [obj|]; [|done]. revert t. generalize (ws_key spec). intros k.
  induction k as [|col k IH]; intros t; cbn [extract_columns result_ok]; [by intros [= <-]|].
  destruct (assoc col obj) as [[]|]; try done; (destruct (extract_columns obj k) as [ks|]; [|done]); cbn; intros [= <-]; cbn; by rewrite (IH ks).
Qed.

(** The keys of a plan cover every tuple once. *)
Lemma dedup_keys_cover seen ts t : t ∈ ts -> key_json (canonical_key t) ∈ seen \/
  exists c, c ∈ dedup_keys to_json float_str seen ts /\ key_json c = key_json (canonical_key t).
Proof.
  revert seen. induction ts as [|t' ts IH]; intros seen; [by intros ?%elem_of_nil|]. cbn [dedup_keys]. intros [->|Ht]%elem_of_cons.
  - case_bool_decide; [by left|]. right. eexists. split; [apply elem_of_cons; by left|done].
  - case_bool_decide; [by apply IH|]. destruct (IH ({[key_json (canonical_key t')]} ∪ seen) Ht) as [[Hs|?]%elem_of_union|(c & Hc & E)].
    + right. exists (canonical_key t'). split; [apply elem_of_cons; by left|]. symmetry. by apply elem_of_singleton in Hs.
    + by left.
    + right. exists c. split; [apply elem_of_cons; by right|done].
Qed.
Lemma dedup_keys_canon seen ts : Forall (fun t : KeyTuple => t.*1 = key) ts -> ts ⊆ used -> Forall canon (dedup_keys to_json float_str seen ts).
Proof.
  intros H. revert seen. induction H as [|t ts Ht _ IH]; intros seen Hu; [done|]. assert (ts ⊆ used) as Hu' by set_solver. cbn [dedup_keys].
  case_bool_decide; [by apply IH|]. constructor; [exists t; set_solver|by apply IH].
Qed.

Lemma dedup_keys_from seen ts c : c ∈ dedup_keys to_json float_str seen ts -> exists t, t ∈ ts /\ c = canonical_key t.
Proof.
  revert seen. induction ts as [|t ts IH]; intros seen; cbn [dedup_keys]; [by intros ?%elem_of_nil|]. case_bool_decide.
  - intros (t' & ? & ?)%IH. exists t'. split; [apply elem_of_cons; by right|done].
  - intros [->|(t' & ? & ?)%IH]%elem_of_cons; [exists t|exists t']; (split; [apply elem_of_cons; auto|done]).
Qed.

Lemma updates_value us (t : table) k : k ∈ us.*1 -> (k, apply_updates us t !! k) ∈ us.
Proof.
  revert t. induction us as [|[k' v] us IH]; intros t; [by intros ?%elem_of_nil|]. rewrite apply_updates_cons. cbn [fst snd]. intros Hk.
  destruct (decide (k ∈ us.*1)) as [Hin|Hin]; [apply elem_of_cons; right; by apply IH|].
  rewrite fmap_cons, elem_of_cons in Hk. destruct Hk as [->|?]; [|done]. cbn. rewrite apply_updates_other by done.
  rewrite lookup_partial_alter_eq. apply elem_of_cons. by left.
Qed.

(** ** The journal holds the images from before the run *)

Section Run.
Context (run col : string) (rows0 : table) (journal0 : list JournalRow).
Local Notation mine := (fun r => string_eqb (jr_run r) run).

(** The run's journal rows are the keys [cs] with their rows of the start. *)
Definition images_of (journal : list JournalRow) (cs : list KeyTuple) : Prop :=
  Forall2 (fun r c => jr_key r = key_json c /\ jr_before r = rows0 !! dest c) (List.filter mine journal) cs /\
  List.filter (fun r => negb (mine r)) journal = journal0 /\ Forall canon cs /\ NoDup (key_json <$> cs).
Definition off (cs : list KeyTuple) (rows : table) : Prop := forall k, k ∉ dest <$> cs -> rows !! k = rows0 !! k.

Lemma journaled_in journal cs c : images_of journal cs -> journaled journal run (key_json c) = bool_decide (key_json c ∈ key_json <$> cs).
Proof.
  intros (Hf & _). unfold journaled. apply Bool.eq_iff_eq_true. rewrite existsb_exists, bool_decide_eq_true. split.
  - intros (r & Hr & [Hm Hk]%andb_true_iff). assert (r ∈ List.filter mine journal) as Hin by (apply list_elem_of_In, List.filter_In; by split).
    apply list_elem_of_lookup in Hin as [i Hi]. destruct (Forall2_lookup_l _ _ _ _ _ Hf Hi) as (c' & Hc' & Hkey & _).
    apply bool_decide_eq_true in Hk. rewrite <- Hk, Hkey. apply list_elem_of_fmap. exists c'. split; [done|]. by eapply list_elem_of_lookup_2.
  - intros (c' & E & [i Hi]%list_elem_of_lookup)%list_elem_of_fmap. destruct (Forall2_lookup_r _ _ _ _ _ Hf Hi) as (r & Hr & Hkey & _).
    apply list_elem_of_lookup_2, list_elem_of_In, List.filter_In in Hr as [Hr Hm]. exists r. split; [done|].
    rewrite Hm, E, <- Hkey. by apply bool_decide_eq_true.
Qed.

Lemma journal_key_images now rows journal cs c : images_of journal cs -> off cs rows -> canon c ->
  exists cs', images_of (journal_key to_json dest run now rows journal c) cs' /\ off cs' rows /\ cs ⊆ cs' /\ c ∈ cs' /\ cs' ⊆ c :: cs.
Proof.
  intros Hi Ho Hc. unfold journal_key. rewrite (journaled_in _ _ c Hi). pose proof Hi as (Hf & Hj & Hcs & Hnd). case_bool_decide as Hin.
  - apply list_elem_of_fmap in Hin as (c' & E & Hc'). exists cs. split_and!; [done..| |set_solver]. rewrite Forall_forall in Hcs.
    by rewrite (canon_inj c c' Hc (Hcs _ Hc') E).
  - assert (dest c ∉ dest <$> cs) as Hd.
    { intros (c' & E & Hc')%list_elem_of_fmap. apply Hin, list_elem_of_fmap. exists c'. split; [|done]. rewrite Forall_forall in Hcs.
      apply canon_dest_text; auto. }
    exists (cs ++ [c]). split_and!; [|intros k Hk; apply Ho; set_solver|set_solver..]. unfold images_of.
    rewrite !List.filter_app. cbn [List.filter jr_run]. unfold string_eqb. rewrite bool_decide_eq_true_2 by done. cbn [negb]. split_and!.
    + apply Forall2_app; [done|]. constructor; [|done]. cbn. split; [done|]. by apply Ho.
    + by rewrite app_nil_r.
    + apply Forall_app. by split; [|constructor].
    + rewrite fmap_app. apply NoDup_app. split_and!; [done| |apply NoDup_singleton]. intros x Hx ->%list_elem_of_singleton. done.
Qed.

Lemma journal_keys_images now rows journal cs ks : images_of journal cs -> off cs rows -> Forall canon ks ->
  exists cs', images_of (foldl (journal_key to_json dest run now rows) journal ks) cs' /\ off cs' rows /\ cs ⊆ cs' /\ ks ⊆ cs' /\ cs' ⊆ cs ++ ks.
Proof.
  intros Hi Ho Hk. revert journal cs Hi Ho. induction Hk as [|c ks Hc _ IH]; intros journal cs Hi Ho; [exists cs; set_solver|]. cbn [foldl].
  destruct (journal_key_images now rows journal cs c Hi Ho Hc) as (cs1 & Hi1 & Ho1 & Hs1 & Hc1 & Hb1).
  destruct (IH _ cs1 Hi1 Ho1) as (cs' & Hi' & Ho' & Hs' & Hks' & Hb'). exists cs'. split_and!; set_solver.
Qed.

(** A page of the run: deletes by key, every upserted row stamped with the run. *)
Definition stamped_plan (plan : WritePlan) : Prop :=
  Forall (fun t : KeyTuple => t.*1 = key) (deletes plan) /\ Forall (fun r => get r col = Some (VString run)) (upserts plan).
Definition undo_inv (db : Db) (cs : list KeyTuple) : Prop :=
  images_of (db_journal db) cs /\ off cs (db_rows db) /\
  forall c row, c ∈ cs -> db_rows db !! dest c = Some row -> other_run run col row = false.

Definition plan_tuples (plan : WritePlan) : list KeyTuple := omap (fun r => record_key r key) (upserts plan) ++ deletes plan.
Lemma plan_tuples_columns plan : stamped_plan plan -> Forall (fun t : KeyTuple => t.*1 = key) (plan_tuples plan).
Proof.
  intros [Hd _]. apply Forall_app. split; [|done]. apply Forall_forall. intros t (r & _ & Hr)%list_elem_of_omap. by eapply record_key_columns.
Qed.
Lemma plan_updates_keys plan : (plan_updates dest spec plan).*1 = dest <$> plan_tuples plan.
Proof.
  unfold plan_updates, plan_tuples. rewrite !fmap_app. f_equal; [|by rewrite <- list_fmap_compose].
  induction (upserts plan) as [|r l IH]; [done|]. cbn. unfold upsert_update, record_key. destruct (extract_key r key); cbn; [f_equal|]; exact IH.
Qed.
Lemma plan_updates_stamped plan k row : stamped_plan plan -> (k, Some row) ∈ plan_updates dest spec plan -> other_run run col row = false.
Proof.
  intros [_ Hu] [(r & Hr & E)%list_elem_of_omap|(t & E & _)%list_elem_of_fmap]%elem_of_app; [|done].
  unfold upsert_update in E. destruct (extract_key r key); [|done]. injection E as _ <-. rewrite Forall_forall in Hu.
  unfold other_run. rewrite (Hu _ Hr). unfold string_eqb. by rewrite bool_decide_eq_true_2.
Qed.

Lemma undo_page db cs now plan : stamped_plan plan -> plan_tuples plan ⊆ used -> undo_inv db cs ->
  exists cs', undo_inv (journaled_page to_json float_str dest spec run db (now, plan)) cs'.
Proof.
  intros Hp Hu (Hi & Ho & Hs). pose proof (plan_tuples_columns plan Hp) as Hcols. set (ks := plan_keys to_json float_str plan key).
  destruct (journal_keys_images now (db_rows db) (db_journal db) cs ks Hi Ho) as (cs' & Hi' & Ho' & Hsub & Hks & Hb).
  { by apply dedup_keys_canon. }
  exists cs'. unfold journaled_page. cbn [fst snd db_rows db_journal journal_plan]. rewrite apply_plan_updates.
  pose proof (plan_updates_keys plan) as Hkeys. split_and!; [done| |]; cbn [db_rows].
  - intros k Hk. rewrite apply_updates_other; [by apply Ho'|]. rewrite Hkeys. intros (t & -> & Ht)%list_elem_of_fmap. apply Hk, list_elem_of_fmap.
    destruct (dedup_keys_cover ∅ _ _ Ht) as [?|(c & Hc & E)]; [set_solver|]. exists c. split; [|by apply Hks]. rewrite <- (dest_text t).
    rewrite Forall_forall in Hcols. pose proof (dedup_keys_canon ∅ _ (plan_tuples_columns plan Hp) Hu) as Hcan. rewrite Forall_forall in Hcan.
    f_equal. apply canon_inj; [exists t; by auto|by apply Hcan|done].
  - intros c row Hc. destruct (decide (dest c ∈ (plan_updates dest spec plan).*1)) as [Hin|Hin].
    + intros E. eapply plan_updates_stamped; [done|]. rewrite <- E. by apply updates_value.
    + rewrite apply_updates_other by done. intros E. apply (Hs c row); [|done]. apply Hb, elem_of_app in Hc as [?|Hc]; [done|].
      exfalso. apply Hin. rewrite Hkeys. apply dedup_keys_from in Hc as (t & Ht & ->). rewrite dest_text. by apply list_elem_of_fmap_2.
Qed.
Definition run_tuples (pages : list (Z * WritePlan)) : list KeyTuple := flat_map (fun page => plan_tuples page.2) pages.
Lemma undo_run db cs pages : Forall (fun page => stamped_plan page.2) pages -> run_tuples pages ⊆ used -> undo_inv db cs ->
  exists cs', undo_inv (foldl (journaled_page to_json float_str dest spec run) db pages) cs'.
Proof.
  intros Hp. revert db cs. induction Hp as [|[now plan] pages Hpl _ IH]; intros db cs Hu Hi; [by exists cs|]. cbn [foldl].
  change (plan_tuples plan ++ run_tuples pages ⊆ used) in Hu. destruct (undo_page db cs now plan Hpl) as [cs1 Hi1]; [set_solver|done|].
  by eapply IH; [set_solver|].
Qed.

(** ** Reading the journal back *)

Lemma tuple_of_columns (c : KeyTuple) : NoDup c.*1 -> (fun k => (k, default Null (assoc k c))) <$> c.*1 = c.
Proof.
  intros Hnd. rewrite <- list_fmap_compose. transitivity (id <$> c); [|apply list_fmap_id]. apply list_fmap_ext. intros i [k v] Hi. cbn. f_equal.
  rewrite (proj2 (assoc_elem k v c Hnd)); [done|]. by eapply list_elem_of_lookup_2.
Qed.
Lemma entry_tuple_canon c before : canon c -> entry_tuple (MkJournalEntry c before) key = c.
Proof.
  intros (t & Ht & _ & ->). unfold entry_tuple. cbn [je_key]. rewrite <- Ht, <- (canonical_columns t). apply tuple_of_columns. rewrite canonical_columns, Ht.
  apply key_columns.
Qed.

Definition entry_for (e : JournalEntry) (c : KeyTuple) : Prop := je_key e = c /\ is_some (je_before e) = is_some (rows0 !! dest c).
Lemma journal_entries_ok journal cs :
  Forall2 (fun r c => jr_key r = key_json c /\ jr_before r = rows0 !! dest c) (List.filter mine journal) cs -> Forall canon cs ->
  exists es, journal_entries to_json json_parse debug_str run journal = Ok es /\ Forall2 entry_for es cs.
Proof.
  revert cs. induction journal as [|r journal IH]; intros cs Hf Hc; cbn [List.filter journal_entries] in *.
  { apply Forall2_nil_inv_l in Hf as ->. by exists []. }
  destruct (string_eqb (jr_run r) run) eqn:Hm; [|by apply IH]. apply Forall2_cons_inv_l in Hf as (c & cs' & [Hk Hb] & Hf & ->).
  apply Forall_cons in Hc as [(t & Ht & _ & ->) Hcs]. destruct (IH cs' Hf Hcs) as (es & -> & Hes). unfold entry_decode. rewrite Hk, (key_reads_back t Ht).
  rewrite Hb. destruct (rows0 !! dest (canonical_key t)) as [img|] eqn:Himg; cbn [fmap option_fmap option_map].
  - destruct (image_reads_back img) as [w ->]. eexists. split; [done|]. constructor; [|done]. split; [done|]. by rewrite Himg.
  - eexists. split; [done|]. constructor; [|done]. split; [done|]. by rewrite Himg.
Qed.

Lemma entries_deletes es cs : Forall2 entry_for es cs -> Forall canon cs ->
  (fun e => entry_tuple e key) <$> List.filter (fun e => negb (is_some (je_before e))) es = List.filter (fun c => negb (is_some (rows0 !! dest c))) cs.
Proof.
  induction 1 as [|[k before] c es cs [Hk Hb] _ IH]; [done|]. intros [Hc Hcs]%Forall_cons. cbn [je_key] in Hk. subst k.
  cbn [List.filter]. rewrite Hb. destruct (is_some (rows0 !! dest c)); cbn [negb]; [by apply IH|]. cbn [fmap list_fmap]. rewrite entry_tuple_canon by done. f_equal. by apply IH.
Qed.
Lemma entries_restores es cs : Forall2 entry_for es cs -> is_nil (omap je_before es) = is_nil (omap (fun c => rows0 !! dest c) cs).
Proof. induction 1 as [|[k before] c es cs [_ Hb] _ IH]; [done|]. cbn in *. by destruct before, (rows0 !! dest c). Qed.

Lemma run_images_of journal cs : images_of journal cs -> run_images run journal = omap (fun c => rows0 !! dest c) cs.
Proof. intros (Hf & _). unfold run_images. induction Hf as [|r c rs cs [_ Hb] _ IH]; [done|]. cbn. rewrite Hb. destruct (rows0 !! dest c); [f_equal|]; done. Qed.

(** ** The table after the undo *)

(** Every row lies under its own key. *)
Definition well_keyed (rows : table) : Prop := forall k row, rows !! k = Some row -> exists t, extract_key row key = Ok t /\ dest t = k.
Definition restored (c : KeyTuple) : option update := (fun img => (dest c, Some img)) <$> rows0 !! dest c.

Lemma image_updates_restored cs : well_keyed rows0 -> image_updates dest spec (omap (fun c => rows0 !! dest c) cs) = omap restored cs.
Proof.
  intros Hw. induction cs as [|c cs IH]; [done|]. unfold image_updates, restored in *. cbn. destruct (rows0 !! dest c) as [img|] eqn:E; [|done].
  cbn. unfold upsert_update at 1. destruct (Hw _ _ E) as (t & -> & ->). by rewrite IH.
Qed.
Lemma NoDup_dest cs : Forall canon cs -> NoDup (key_json <$> cs) -> NoDup (dest <$> cs).
Proof.
  intros Hc. induction Hc as [|c cs Hc Hcs IH]; [done|]. rewrite !fmap_cons, !NoDup_cons. intros [Hn Hnd]. split; [|by apply IH].
  intros (c' & E & Hc')%list_elem_of_fmap. apply Hn, list_elem_of_fmap. exists c'. split; [|done]. rewrite Forall_forall in Hcs. apply canon_dest_text; auto.
Qed.
Lemma restored_sublist cs : (omap restored cs).*1 `sublist_of` dest <$> cs.
Proof. induction cs as [|c cs IH]; [done|]. unfold restored in *. cbn. destruct (rows0 !! dest c); cbn; by constructor. Qed.

Lemma undone_rows rows cs : off cs rows -> NoDup (omap restored cs).*1 ->
  apply_updates (omap restored cs) (apply_updates (delete_update dest <$> List.filter (fun c => negb (is_some (rows0 !! dest c))) cs) rows) = rows0.
Proof.
  intros Ho Hnd. apply map_eq. intros k. destruct (rows0 !! k) as [img|] eqn:Hk.
  - destruct (decide (k ∈ dest <$> cs)) as [(c & -> & Hc)%list_elem_of_fmap|Hn].
    + apply apply_updates_lookup; [done|]. apply list_elem_of_omap. exists c. unfold restored. by rewrite Hk.
    + rewrite !apply_updates_other; [by rewrite Ho| |].
      * intros (u & -> & (c & -> & [Hc _]%list_elem_of_In%List.filter_In)%list_elem_of_fmap)%list_elem_of_fmap. apply Hn, list_elem_of_fmap.
        exists c. split; [done|]. by apply list_elem_of_In.
      * intros Hin. apply Hn. eapply elem_of_submseteq; [exact Hin|]. apply sublist_submseteq, restored_sublist.
  - rewrite apply_updates_other.
    + destruct (decide (k ∈ dest <$> cs)) as [(c & -> & Hc)%list_elem_of_fmap|Hn].
      * assert (dest c ∈ (delete_update dest <$> List.filter (fun c => negb (is_some (rows0 !! dest c))) cs).*1) as Hin.
        { rewrite <- list_fmap_compose. apply list_elem_of_fmap. exists c. split; [done|]. apply list_elem_of_In, List.filter_In.
          split; [by apply list_elem_of_In|by rewrite Hk]. }
        apply (updates_value _ rows) in Hin. apply list_elem_of_fmap in Hin as (c' & [= _ E] & _). done.
      * rewrite apply_updates_other; [by rewrite Ho|]. rewrite <- list_fmap_compose.
        intros (c & -> & [Hc _]%list_elem_of_In%List.filter_In)%list_elem_of_fmap. apply Hn, list_elem_of_fmap. exists c. split; [done|]. by apply list_elem_of_In.
    + intros (u & -> & (c & Hc & E)%list_elem_of_omap)%list_elem_of_fmap. unfold restored in E.
      destruct (rows0 !! dest c) eqn:Hd; [|done]. injection E as <-. cbn in Hk. congruence.
Qed.

Lemma no_conflicts has_column db es cs : undo_inv db cs -> Forall2 entry_for es cs -> count_conflicts dest spec has_column db es run col = 0.
Proof.
  intros (Hi & _ & Hs) Hes. unfold count_conflicts. destruct (_ || _); [done|]. unfold count_rows_for.
  assert (forall l, (forall e, e ∈ l -> db_rows db !! e.1 = Some e.2) ->
    List.filter (fun e : string * Value => bool_decide (e.1 ∈ (list_to_set ((fun e => dest (entry_tuple e key)) <$> es) : gset string)) && other_run run col e.2) l = []) as Hnil.
  { intros l. induction l as [|[k row] l IH]; intros Hl; [done|]. cbn [List.filter fst snd]. rewrite IH by (intros e He; apply Hl; apply elem_of_cons; by right).
    destruct (bool_decide _ && _) eqn:Hb; [|done]. exfalso. apply andb_true_iff in Hb as [Hk%bool_decide_eq_true Ho].
    apply elem_of_list_to_set, list_elem_of_fmap in Hk as (e & -> & [i He]%list_elem_of_lookup).
    destruct (Forall2_lookup_l _ _ _ _ _ Hes He) as (c & Hc & Hke & _). destruct Hi as (_ & _ & Hcs & _). rewrite Forall_forall in Hcs.
    apply list_elem_of_lookup_2 in Hc. destruct e as [ke be]. cbn in Hke. subst ke. specialize (Hl _ (list_elem_of_here _ _)). cbn in Hl.
    rewrite entry_tuple_canon in Hl by auto. rewrite (Hs c row Hc Hl) in Ho. done. }
  rewrite Hnil; [done|]. intros [k v] He. by apply elem_of_map_to_list in He.
Qed.

Lemma filter_none_mine journal : List.filter mine journal = [] -> List.filter (fun r => negb (mine r)) journal = journal.
Proof. induction journal as [|r l IH]; [done|]. cbn. destruct (string_eqb (jr_run r) run); [done|]. cbn. intros H. by rewrite IH. Qed.

(** Where no later run has journaled a key, none has vanished. *)
Lemma none_vanished db es : later_keys run (db_journal db) = [] -> count_vanished to_json json_parse debug_str dest spec db es run = 0.
Proof. intros Hl. unfold count_vanished, touched_later. rewrite Hl. cbn. by destruct (is_nil (restorable es)). Qed.
Lemma undo_inv_rolls_back db cs has_column twice opts : undo_inv db cs -> well_keyed rows0 ->
  ro_run_id_column opts = col -> ro_dry_run opts = false -> (ro_later_runs opts = true -> later_keys run (db_journal db) = []) ->
  exists o, rollback_run to_json json_parse debug_str dest spec has_column twice run opts db = (Ok o, MkDb rows0 journal0) /\
    rk_applied o = true /\ rk_conflicts o = 0.
Proof.
  intros Hinv Hw Hcol Hdry Hlater. pose proof Hinv as (Hi & Ho & _). pose proof Hi as (Hf & Hj & Hcs & Hnd).
  destruct (journal_entries_ok _ _ Hf Hcs) as (es & Hes & Hfor). unfold rollback_run, rollback_upsert.
  assert (is_nil key = false) as -> by (pose proof (proj2 key_columns); destruct key; [congruence|done]). rewrite Hes. cbn [result_bind].
  destruct es as [|e es'] eqn:Ees; cbn [is_nil].
  - apply Forall2_nil_inv_l in Hfor as ->. rewrite Hdry. eexists (outcome_nothing _). split; [|done]. cbn. f_equal. destruct db as [rows journal]. cbn in *. f_equal.
    + apply map_eq. intros k. apply Ho. by intros ?%elem_of_nil.
    + apply Forall2_nil_inv_r in Hf. rewrite <- Hj. symmetry. by apply filter_none_mine.
  - rewrite <- Ees in *. rewrite Hcol, (no_conflicts _ db es cs Hinv Hfor), Hdry.
    assert ((if ro_later_runs opts then count_vanished to_json json_parse debug_str dest spec db es run else 0) = 0) as ->
      by (destruct (ro_later_runs opts); [by apply none_vanished, Hlater|done]). cbn [Z.add Z.ltb Z.compare andb plan_restore].
    unfold delete_keys. rewrite (entries_deletes _ _ Hfor Hcs), (entries_restores _ _ Hfor).
    assert (NoDup (omap restored cs).*1) as Hnr by (eapply sublist_NoDup; [by apply NoDup_dest|apply restored_sublist]).
    pose proof (undone_rows (db_rows db) cs Ho Hnr) as Hrows. pose proof (image_updates_restored cs Hw) as Himg.
    destruct (is_nil (omap (fun c => rows0 !! dest c) cs)) eqn:Hnil; cbn [result_bind].
    + eexists (MkRollbackOutcome _ _ 0 true None). split; [|done]. cbn [rk_applied andb negb fst snd]. rewrite Hj. do 2 f_equal. rewrite <- Himg in Hrows.
      by destruct (omap (fun c => rows0 !! dest c) cs).
    + unfold restore_images. rewrite (run_images_of _ _ Hi), Himg, bool_decide_eq_true_2 by done. cbn [result_bind].
      eexists (MkRollbackOutcome _ _ 0 true None). split; [|done]. cbn [rk_applied andb negb fst snd]. by rewrite Hj, Hrows.
Qed.
End Run.
End Undo.

(** *** Journal times *)
Section Times.
Context (to_json : Value -> string) (float_str : f64 -> string) (dest : KeyTuple -> string) (spec : WriteSpec) (run : string).
(** What a run adds to the journal is its own, with the time of one of its pages. *)
Lemma journal_keys_times now rows journal ks r : r ∈ foldl (journal_key to_json dest run now rows) journal ks ->
  r ∈ journal \/ (jr_run r = run /\ jr_at r = now).
Proof.
  revert journal. induction ks as [|c ks IH]; intros journal; cbn [foldl]; [by left|]. intros [H|?]%IH; [|by right].
  unfold journal_key in H. destruct (journaled _ _ _); [by left|]. apply elem_of_app in H as [?| ->%list_elem_of_singleton]; [by left|by right].
Qed.
Lemma run_journal_times db pages r : r ∈ db_journal (foldl (journaled_page to_json float_str dest spec run) db pages) ->
  r ∈ db_journal db \/ (jr_run r = run /\ jr_at r ∈ pages.*1).
Proof.
  revert db. induction pages as [|[now plan] pages IH]; intros db; cbn [foldl]; [by left|]. intros [H|[? ?]]%IH.
  - cbn in H. apply journal_keys_times in H as [?|[? ->]]; [by left|right]. split; [done|]. apply elem_of_cons. by left.
  - right. split; [done|]. rewrite fmap_cons. apply elem_of_cons. by right.
Qed.
Lemma min_at_own journal t : min_at run journal = Some t -> exists r, r ∈ journal /\ jr_run r = run /\ jr_at r = t.
Proof.
  revert t. induction journal as [|r journal IH]; intros t; [done|].
  change (min_at run (r :: journal)) with (if string_eqb (jr_run r) run then Some (default (jr_at r) (Z.min (jr_at r) <$> min_at run journal)) else min_at run journal).
  unfold string_eqb. case_bool_decide as Hr.
  - destruct (min_at run journal) as [m|]; cbn; intros [= <-].
    + destruct (Z.min_spec (jr_at r) m) as [[_ ->]|[_ ->]]; [exists r; split; [left|done]|].
      destruct (IH m eq_refl) as (r' & ? & ? & ?). exists r'. split; [by right|done].
    + exists r. split; [left|done].
  - intros (r' & ? & ? & ?)%IH. exists r'. split; [by right|done].
Qed.
Lemma no_later_keys db pages : Forall (fun r => jr_run r <> run /\ forall now, now ∈ pages.*1 -> jr_at r < now) (db_journal db) ->
  later_keys run (db_journal (foldl (journaled_page to_json float_str dest spec run) db pages)) = [].
Proof.
  intros H0. rewrite Forall_forall in H0. set (db' := foldl _ _ _). unfold later_keys. destruct (min_at run (db_journal db')) as [t|] eqn:Et; [|done].
  apply min_at_own in Et as (r & Hr & Hrun & <-). apply run_journal_times in Hr as [Hr|[_ Hat]]; [by destruct (H0 _ Hr)|].
  destruct (List.filter _ (db_journal db')) as [|r' l] eqn:E; [done|]. exfalso.
  assert (In r' (r' :: l)) as Hin by (by left). rewrite <- E in Hin. apply List.filter_In in Hin as [Hr' Hb].
  apply andb_true_iff in Hb as [Hn%negb_true_iff%bool_decide_eq_false Hle%Z.leb_le].
  apply list_elem_of_In, run_journal_times in Hr' as [Hr'|[? _]]; [|done]. destruct (H0 _ Hr') as [_ Hlt]. specialize (Hlt _ Hat). lia.
Qed.
End Times.

(** C33: Undoing a journaled run restores the table. After any pages of keyed writes, each
    journaled and stamped with the run, none of which writes a key in two spellings, rolling
    the run back reports no conflict, puts every row back to what it was before the run,
    removes the keys the run created, and clears the run's part of the journal; later runs, if
    they are looked for, have journaled nothing since the run's first page. *)
Theorem rollback_undoes_run to_json float_str json_parse debug_str dest spec run rows0 journal0 pages has_column twice opts :
  Journaling to_json float_str json_parse dest spec ->
  one_spelling to_json float_str dest (run_tuples spec pages) ->
  well_keyed dest spec rows0 -> Forall (fun r => jr_run r <> run) journal0 ->
  Forall (fun page => stamped_plan spec run (ro_run_id_column opts) page.2) pages ->
  ro_dry_run opts = false ->
  (ro_later_runs opts = true -> Forall (fun r => forall now, now ∈ pages.*1 -> jr_at r < now) journal0) ->
  let db := foldl (journaled_page to_json float_str dest spec run) (MkDb rows0 journal0) pages in
  exists o, rollback_run to_json json_parse debug_str dest spec has_column twice run opts db = (Ok o, MkDb rows0 journal0) /\
    rk_applied o = true /\ rk_conflicts o = 0.
Proof.
  intros HJ Hone Hw Hj Hp Hdry Hlater db.
  assert (List.filter (fun r => string_eqb (jr_run r) run) journal0 = []) as Hmine.
  { clear - Hj. induction Hj as [|r l Hr _ IH]; [done|]. cbn. unfold string_eqb. by rewrite bool_decide_eq_false_2. }
  destruct (undo_run to_json float_str json_parse debug_str dest spec _ Hone run (ro_run_id_column opts) rows0 journal0 (MkDb rows0 journal0) [] pages Hp) as [cs Hinv]; [done| |].
  { split_and!; cbn; [|done|by intros ? ? ?%elem_of_nil]. unfold images_of. rewrite Hmine, filter_none_mine by done. split_and!; [constructor|done|constructor|constructor]. }
  eapply undo_inv_rolls_back; try done. intros Hl. apply no_later_keys, Forall_and. split; [done|by apply Hlater].
Qed.

(** Nothing changes when a later run's row stands under a journaled key, unless forced. *)
Theorem blocked_rollback_changes_nothing to_json json_parse debug_str dest spec has_column twice run opts db o db' :
  rollback_run to_json json_parse debug_str dest spec has_column twice run opts db = (Ok o, db') ->
  rk_applied o = false -> db' = db.
Proof. unfold rollback_run. destruct (rollback_upsert _ _ _ _ _ _ _ _ _ _) as [[o' db'']|e]; [|done]. intros [= <- <-] ->. done. Qed.

(** ** A concrete destination *)

(** A text of strings and nulls, and a parser that reads one-column keys. *)
Definition demo_json (v : Value) : string := match v with VString s => "s" +:+ s | _ => "n" end.
Fixpoint but_last (s : string) : string := match s with String c (String _ _ as s) => String c (but_last s) | _ => EmptyString end.
Definition demo_parse (s : string) : result Value string :=
  match strip_prefix "{sid:s" s with
  | Some t => Ok (VObject [("id", VString (but_last t))])
  | None => Ok (VObject [("id", Null)])
  end.
Definition demo_float (f : f64) : string := EmptyString.
Definition demo_spec : WriteSpec := MkWriteSpec Upsert ["id"] None.
Definition demo_row (id v run : string) : Value := VObject [("id", VString id); ("v", VString v); ("_faucet_run_id", VString run)].
Definition demo_opts : RollbackOptions := MkRollbackOptions "_faucet_run_id" UndoUpsert false false false.
Definition lower_dest (t : KeyTuple) : string := join "," ((fun e => string_lower (text_of demo_json demo_float e.2)) <$> t).
Definition plan_of (rows : list Value) (dels : list string) : WritePlan := MkWritePlan rows ((fun k => [("id", VString k)]) <$> dels) [].

Lemma but_last_app s : but_last (s +:+ "}") = s.
Proof. induction s as [|c s IH]; [done|]. destruct s as [|c' s]; [done|]. change (String c (but_last (String c' s +:+ "}")) = String c (String c' s)). by rewrite IH. Qed.

(** A database that takes keys without regard to case. *)
#[local] Instance demo_journaling : Journaling demo_json demo_float demo_parse lower_dest demo_spec.
Proof.
  split.
  - split; [apply NoDup_singleton|done].
  - intros t. unfold lower_dest, canonical_key. rewrite <- list_fmap_compose. f_equal. apply list_fmap_ext. intros i [k v] _. by destruct v.
  - intros [|[k v] [|]]; cbn; try done. intros [= ->]. unfold demo_parse.
    assert (forall s, demo_parse (key_json demo_json [("id", VString s)]) = Ok (VObject [("id", VString s)])) as Hs.
    { intros s. unfold demo_parse. replace (strip_prefix _ _) with (Some (s +:+ "}")) by done. by rewrite but_last_app. }
    destruct v; try apply Hs. done.
  - intros v. unfold demo_parse. destruct (strip_prefix "{sid:s" (demo_json v)); eauto.
Qed.

Definition demo_rows : gmap string Value := {[ lower_dest [("id", VString "a")] := demo_row "a" "old" "r0" ]}.
(** The run writes the table's [a] as [A]. *)
Definition demo_pages : list (Z * WritePlan) := [(0, plan_of [demo_row "A" "new" "r1"; demo_row "b" "made" "r1"] []); (1, plan_of [demo_row "b" "again" "r1"] ["A"])].

Lemma rollback_undoes_run_witness :
  db_rows (foldl (journaled_page demo_json demo_float lower_dest demo_spec "r1") (MkDb demo_rows []) demo_pages) !! lower_dest [("id", VString "a")] = None /\
  exists o, rollback_run demo_json demo_parse id lower_dest demo_spec true EmptyString "r1" demo_opts
    (foldl (journaled_page demo_json demo_float lower_dest demo_spec "r1") (MkDb demo_rows []) demo_pages) = (Ok o, MkDb demo_rows []) /\
    rk_applied o = true /\ rk_conflicts o = 0.
Proof.
  split; [vm_compute; reflexivity|].
  apply (rollback_undoes_run demo_json demo_float demo_parse id lower_dest demo_spec "r1" demo_rows [] demo_pages true EmptyString demo_opts); try done.
  - apply demo_journaling.
  - intros t t' Ht Ht'. change (t ∈ [[("id", VString "A")]; [("id", VString "b")]; [("id", VString "b")]; [("id", VString "A")]]) in Ht.
    change (t' ∈ [[("id", VString "A")]; [("id", VString "b")]; [("id", VString "b")]; [("id", VString "A")]]) in Ht'.
    rewrite !elem_of_cons, elem_of_nil in Ht, Ht'. destruct Ht as [->|[->|[->|[->|[]]]]], Ht' as [->|[->|[->|[->|[]]]]]; intros E; try reflexivity; discriminate E.
  - unfold demo_rows. intros k row [<- <-]%lookup_singleton_Some. exists [("id", VString "a")]. split; reflexivity.
  - repeat constructor.
Defined.

(** Two pages that write one key in two spellings the database takes for one:
    the second image is the run's own row, and after the undo it is still there. *)
Example respelled_key_survives_rollback :
  let page id v : Z * WritePlan := (0, plan_of [demo_row id v "r1"] []) in
  let db := foldl (journaled_page demo_json demo_float lower_dest demo_spec "r1") (MkDb ∅ []) [page "A1" "x"; page "a1" "y"] in
  match rollback_run demo_json demo_parse id lower_dest demo_spec true EmptyString "r1" demo_opts db with
  | (Ok o, db') => rk_applied o = true /\ rk_conflicts o = 0 /\ map_to_list (db_rows db') = [("a1", demo_row "A1" "x" "r1")]
  | _ => False
  end.
Proof. vm_compute. done. Qed.
