(* ===== verification/Batching.v ===== *)
(** Re-chunking of pages and rollover of objects: crates/core/src/batching.rs and
    object_rollover.rs.

    The loops that run requests concurrently belong to the futures crate and are
    not modelled. The lengths an accumulator adds are those of buffers in memory,
    so their sums do not overflow and are taken in [Z]. *)
From S2P Require Import Prelude Errors Json Text Contract.
From Stdlib Require Import Ascii.

Local Open Scope Z_scope.
Local Open Scope result_scope.

(** ** batching.rs *)

Section Chunks.
Context {T : Type}.

(** [slice::chunks]; the fuel is the number of items, of which each chunk takes one or more. *)
Fixpoint slice_chunks (fuel : nat) (size : nat) (items : list T) : list (list T) :=
  match fuel, items with
  | S fuel, _ :: _ => take size items :: slice_chunks fuel size (drop size items)
  | _, _ => []
  end.
Definition chunks (items : list T) (batch_size : Z) : list (list T) :=
  let size := if batch_size =? 0 then Z.max (zlen items) 1 else batch_size in
  slice_chunks (length items) (Z.to_nat size) items.

(** The loop of [into_chunks]. *)
Fixpoint take_chunks (fuel : nat) (batch_size : nat) (iter : list T) (out : list (list T)) : list (list T) :=
  match fuel with
  | O => out
  | S fuel =>
      let chunk := take batch_size iter in
      if is_nil chunk then out else take_chunks fuel batch_size (drop batch_size iter) (out ++ [chunk])
  end.
Definition into_chunks (items : list T) (batch_size : Z) : list (list T) :=
  if is_nil items then []
  else if (batch_size =? 0) || (zlen items <=? batch_size) then [items]
  else take_chunks (S (length items)) (Z.to_nat batch_size) items [].

Lemma take_chunks_slices fuel size items out : (0 < size)%nat -> (length items < fuel)%nat ->
  take_chunks fuel size items out = out ++ slice_chunks (length items) size items.
Proof.
  intros Hs. revert items out. induction fuel as [|fuel IH]; intros items out Hf; [lia|]. cbn [take_chunks].
  destruct items as [|x items]; [rewrite take_nil; cbn; by rewrite app_nil_r|].
  destruct size as [|size]; [lia|]. cbn [take is_nil drop length slice_chunks]. rewrite IH by (rewrite length_drop; cbn in Hf; lia).
  rewrite <- app_assoc. cbn [app]. do 2 f_equal.
  assert (forall n l, (length l <= n)%nat -> slice_chunks (length l) (S size) l = slice_chunks n (S size) l) as Hfuel.
  { clear. intros n l. remember (length l) as k eqn:E. revert n l E. induction k as [k IH] using lt_wf_ind. intros n l -> Hn.
    destruct l as [|y l]; [by destruct n|]. destruct n as [|n]; [cbn in Hn; lia|]. cbn [length slice_chunks take drop]. f_equal. cbn in Hn.
    rewrite <- (IH (length (drop size l)) ltac:(rewrite length_drop; cbn; lia) (length l) (drop size l)) by (done || rewrite length_drop; lia).
    apply (IH (length (drop size l))); [cbn; rewrite length_drop; lia|done|rewrite length_drop; lia]. }
  apply Hfuel. rewrite length_drop. lia.
Qed.

Lemma slice_chunks_spec fuel size items : (0 < size)%nat -> (length items <= fuel)%nat ->
  concat (slice_chunks fuel size items) = items /\ Forall (fun c => c <> [] /\ (length c <= size)%nat) (slice_chunks fuel size items).
Proof.
  intros Hs. revert items. induction fuel as [|fuel IH]; intros [|x items] Hf; try (by split); [cbn in Hf; lia|].
  destruct size as [|size]; [lia|]. cbn [slice_chunks concat].
  destruct (IH (drop (S size) (x :: items))) as [Hc Hl]; [rewrite length_drop; cbn in *; lia|]. rewrite Hc, take_drop.
  split; [done|]. constructor; [|done]. split; [done|]. rewrite length_take. lia.
Qed.
Lemma one_slice items size : items <> [] -> (length items <= size)%nat -> slice_chunks (length items) size items = [items].
Proof.
  destruct items as [|x items]; [done|]. intros _ Hl. cbn [length slice_chunks]. rewrite take_ge, drop_ge by done. by destruct (length items).
Qed.
End Chunks.

(** The owned split is the borrowed one; a page is cut into non-empty chunks of
    at most the batch size that make it up in order, and is one chunk when the
    size is zero. *)
Theorem chunks_cut_the_page {T} (items : list T) batch_size : 0 <= batch_size ->
  into_chunks items batch_size = chunks items batch_size /\
  concat (chunks items batch_size) = items /\
  Forall (fun c => c <> [] /\ (batch_size = 0 \/ zlen c <= batch_size)) (chunks items batch_size).
Proof.
  intros Hb. unfold chunks, into_chunks. set (size := Z.to_nat (if batch_size =? 0 then Z.max (zlen items) 1 else batch_size)).
  assert (0 < size)%nat as Hs by (unfold size; destruct (batch_size =? 0) eqn:E; reflect_bools; lia).
  destruct (slice_chunks_spec (length items) size items Hs (le_n _)) as [Hc Hl]. split_and!; [|done|].
  - destruct (is_nil items) eqn:Hn; [by destruct items|]. assert (items <> []) by (by destruct items).
    destruct ((batch_size =? 0) || (zlen items <=? batch_size)) eqn:Hone.
    + symmetry. apply one_slice; [done|]. unfold size. destruct (batch_size =? 0) eqn:Hz; [unfold zlen; lia|]. cbn in Hone. reflect_bools. unfold zlen in *. lia.
    + apply orb_false_iff in Hone as [Hz _]. unfold size. rewrite Hz. rewrite take_chunks_slices; [done| |lia]. reflect_bools. lia.
  - eapply Forall_impl; [exact Hl|]. intros c [? Hlen]. split; [done|]. unfold size in Hlen.
    destruct (batch_size =? 0) eqn:Hz; reflect_bools; [by left|right; unfold zlen; lia].
Qed.

(** ** object_rollover.rs *)

Record ObjectAccumulator := MkAccumulator {
  oa_buf : string;
  oa_rows : Z;
  oa_parted_bytes : Z;
  oa_max_rows : option Z;
  oa_max_bytes : option Z;
  oa_part_bytes : option Z;
}.
Record CompletedObject := MkCompletedObject { co_body : string; co_rows : Z }.
Inductive Emit := Nothing | Part (bytes : string) | Object (o : CompletedObject).

Definition positive (n : option Z) : option Z := match n with Some n => if 0 <? n then Some n else None | None => None end.
Definition accumulator_new (max_rows max_bytes : option Z) : ObjectAccumulator :=
  MkAccumulator EmptyString 0 0 (positive max_rows) (positive max_bytes) None.
Definition with_part_size (a : ObjectAccumulator) (bytes : Z) : ObjectAccumulator :=
  MkAccumulator (oa_buf a) (oa_rows a) (oa_parted_bytes a) (oa_max_rows a) (oa_max_bytes a) (if 0 <? bytes then Some bytes else None).
Definition has_parts (a : ObjectAccumulator) : bool := 0 <? oa_parted_bytes a.
Definition bytes_len (s : string) : Z := Z.of_nat (String.length s).
Definition accumulator_len (a : ObjectAccumulator) : Z := bytes_len (oa_buf a).
Definition accumulator_is_empty (a : ObjectAccumulator) : bool := oa_rows a =? 0.

Definition accumulator_take (a : ObjectAccumulator) : CompletedObject * ObjectAccumulator :=
  (MkCompletedObject (oa_buf a) (oa_rows a), MkAccumulator EmptyString 0 0 (oa_max_rows a) (oa_max_bytes a) (oa_part_bytes a)).
(** [is_some_and(|m| n >= m)]. *)
Definition reached (limit : option Z) (n : Z) : bool := match limit with Some m => m <=? n | None => false end.
Definition push_encoded (a : ObjectAccumulator) (encoded : string) : Emit * ObjectAccumulator :=
  let a := MkAccumulator (oa_buf a +:+ encoded) (oa_rows a + 1) (oa_parted_bytes a) (oa_max_rows a) (oa_max_bytes a) (oa_part_bytes a) in
  if reached (oa_max_rows a) (oa_rows a) || reached (oa_max_bytes a) (oa_parted_bytes a + accumulator_len a) then
    let '(o, a) := accumulator_take a in (Object o, a)
  else if reached (oa_part_bytes a) (accumulator_len a) then
    (Part (oa_buf a), MkAccumulator EmptyString (oa_rows a) (oa_parted_bytes a + accumulator_len a) (oa_max_rows a) (oa_max_bytes a) (oa_part_bytes a))
  else (Nothing, a).
Definition push_record (to_vec : Value -> result string string) (a : ObjectAccumulator) (record : Value) : result (Emit * ObjectAccumulator) FaucetError :=
  match to_vec record with
  | Ok line => Ok (push_encoded a (line +:+ String "010" EmptyString))
  | Err e => Err (Sink ("JSON serialization failed: " +:+ e))
  end.
Definition accumulator_finish (a : ObjectAccumulator) : option CompletedObject * ObjectAccumulator :=
  if accumulator_is_empty a then (None, a) else let '(o, a) := accumulator_take a in (Some o, a).

(** ** The objects a sink uploads *)

(** Parts collect into the open object, which a completed object closes. *)
Definition upload (st : list (string * Z) * string) (e : Emit) : list (string * Z) * string :=
  match e with
  | Nothing => st
  | Part b => (st.1, st.2 +:+ b)
  | Object o => (st.1 ++ [(st.2 +:+ co_body o, co_rows o)], EmptyString)
  end.
Fixpoint push_all (a : ObjectAccumulator) (st : list (string * Z) * string) (records : list string) : ObjectAccumulator * (list (string * Z) * string) :=
  match records with
  | [] => (a, st)
  | r :: records => let '(e, a) := push_encoded a r in push_all a (upload st e) records
  end.
Definition uploaded (a : ObjectAccumulator) (records : list string) : list (string * Z) :=
  let '(a, st) := push_all a ([], EmptyString) records in
  match (accumulator_finish a).1 with Some o => (upload st (Object o)).1 | None => st.1 end.

(** A group of records at a limit, and the object it makes. *)
Definition at_limit (max_rows max_bytes : option Z) (g : list string) : bool :=
  reached max_rows (zlen g) || reached max_bytes (bytes_len (concat_all g)).
Definition object_of (g : list string) : string * Z := (concat_all g, zlen g).

(** The fields of an accumulator after a step. *)
Ltac acc_fields :=
  cbn [upload fst snd co_body co_rows accumulator_take oa_buf oa_rows oa_parted_bytes oa_max_rows oa_max_bytes oa_part_bytes].

Section Rollover.
Context (max_rows max_bytes part : option Z).
Context (Hpart : forall m, part = Some m -> 0 < m).

(** The closed groups, and the open one held in the parts and the buffer. *)
Definition accumulates (a : ObjectAccumulator) (st : list (string * Z) * string) (groups : list (list string)) (g : list string) : Prop :=
  oa_max_rows a = max_rows /\ oa_max_bytes a = max_bytes /\ oa_part_bytes a = part /\
  st.1 = object_of <$> groups /\ st.2 +:+ oa_buf a = concat_all g /\ oa_rows a = zlen g /\ oa_parted_bytes a = bytes_len st.2 /\
  (g <> [] -> at_limit max_rows max_bytes g = false) /\
  Forall (fun g => at_limit max_rows max_bytes g = true /\ exists p x, g = p ++ [x] /\ (p <> [] -> at_limit max_rows max_bytes p = false)) groups /\
  reached part (accumulator_len a) = false.

Lemma concat_all_app k l : concat_all (k ++ l) = concat_all k +:+ concat_all l.
Proof. unfold concat_all. induction k as [|x k IH]; [done|]. cbn. rewrite IH. symmetry. apply string_app_assoc. Qed.

Lemma push_accumulates a st groups g r : accumulates a st groups g ->
  let '(e, a') := push_encoded a r in
  exists groups' g', accumulates a' (upload st e) groups' g' /\ concat groups' ++ g' = concat groups ++ g ++ [r].
Proof.
  intros (Hr & Hb & Hp & Hst & Hbuf & Hrows & Hparted & Hg & Hgs & Hlen). unfold push_encoded, accumulator_len in *. cbn [oa_max_rows oa_rows oa_max_bytes oa_parted_bytes oa_buf oa_part_bytes].
  assert (st.2 +:+ (oa_buf a +:+ r) = concat_all (g ++ [r])) as Hbuf'.
  { rewrite <- string_app_assoc, Hbuf, concat_all_app. cbn. by rewrite string_app_nil_r. }
  assert (reached (oa_max_rows a) (oa_rows a + 1) || reached (oa_max_bytes a) (oa_parted_bytes a + bytes_len (oa_buf a +:+ r)) = at_limit max_rows max_bytes (g ++ [r])) as ->.
  { unfold at_limit. rewrite Hr, Hb, Hrows, zlen_app, Hparted, <- Hbuf'. unfold bytes_len. by rewrite (string_length_app st.2), Nat2Z.inj_add. }
  assert (reached part (bytes_len EmptyString) = false) as Hempty.
  { destruct part as [m|] eqn:E; [|done]. cbn. specialize (Hpart m eq_refl). apply Z.leb_gt. unfold bytes_len. cbn. lia. }
  destruct (at_limit max_rows max_bytes (g ++ [r])) eqn:Hfull; [|rewrite Hp; destruct (reached part (bytes_len (oa_buf a +:+ r))) eqn:Hpt].
  - exists (groups ++ [g ++ [r]]), []. split; [|by rewrite concat_app; cbn; rewrite !app_nil_r].
    split_and!; acc_fields; try done.
    { rewrite fmap_app, Hst. change (object_of <$> [g ++ [r]]) with [(concat_all (g ++ [r]), zlen (g ++ [r]))]. by rewrite Hbuf', Hrows, zlen_app. }
    apply Forall_app. split; [done|]. constructor; [|done]. split; [done|]. by exists g, r.
  - exists groups, (g ++ [r]). split; [|done].
    split_and!; acc_fields; try done; [by rewrite string_app_nil_r|rewrite Hrows, zlen_app; done|].
    rewrite Hparted. unfold bytes_len. rewrite (string_length_app st.2). lia.
  - exists groups, (g ++ [r]). split; [|done]. split_and!; acc_fields; try done. rewrite Hrows, zlen_app. done.
Qed.

Lemma push_all_accumulates records a st groups g : accumulates a st groups g ->
  exists groups' g', accumulates (push_all a st records).1 (push_all a st records).2 groups' g' /\ concat groups' ++ g' = concat groups ++ g ++ records.
Proof.
  revert a st groups g. induction records as [|r records IH]; intros a st groups g Ha; cbn [push_all]; [exists groups, g; by rewrite app_nil_r|].
  pose proof (push_accumulates a st groups g r Ha) as Hp. destruct (push_encoded a r) as [e a']. destruct Hp as (groups1 & g1 & H1 & E1).
  destruct (IH _ _ _ _ H1) as (groups2 & g2 & H2 & E2). exists groups2, g2. split; [done|]. rewrite E2, app_assoc, E1, <- !app_assoc. done.
Qed.
End Rollover.

(** Rollover keeps every record: the objects uploaded are consecutive groups of
    the records, whole and in order, with their row counts; each is closed by the
    first record that reaches a limit, and only the last may be below one. *)
Theorem rollover_keeps_every_record max_rows max_bytes part records :
  let a := with_part_size (accumulator_new max_rows max_bytes) part in
  exists groups, uploaded a records = object_of <$> groups /\ concat groups = records /\
    Forall (fun g => exists p x, g = p ++ [x] /\ (p <> [] -> at_limit (positive max_rows) (positive max_bytes) p = false)) groups /\
    forall i g, groups !! i = Some g -> (S i < length groups)%nat -> at_limit (positive max_rows) (positive max_bytes) g = true.
Proof.
  intros a. set (mr := positive max_rows). set (mb := positive max_bytes). set (pt := if 0 <? part then Some part else None).
  assert (forall m, pt = Some m -> 0 < m) as Hpt by (intros m; unfold pt; destruct (0 <? part) eqn:E; [intros [= <-]; by reflect_bools|done]).
  destruct (push_all_accumulates mr mb pt Hpt records a ([], EmptyString) [] []) as (groups & g & Ha & Hcat).
  { split_and!; cbn; try done. destruct pt as [m|] eqn:E; [|done]. cbn. apply Z.leb_gt. by apply Hpt. }
  unfold uploaded. destruct (push_all a ([], EmptyString) records) as [a' st]. cbn [fst snd] in *.
  destruct Ha as (_ & _ & _ & Hst & Hbuf & Hrows & _ & Hg & Hgs & _). unfold accumulator_finish, accumulator_is_empty. rewrite Hrows.
  destruct (zlen g =? 0) eqn:Hz; cbn [fst].
  - apply Z.eqb_eq, zlen_zero in Hz as ->. rewrite app_nil_r in Hcat. exists groups. split_and!; [done|done| |].
    + eapply Forall_impl; [exact Hgs|]. by intros ? [_ ?].
    + intros i g' Hi _. rewrite Forall_lookup in Hgs. by apply (Hgs i).
  - exists (groups ++ [g]). assert (g <> []) as Hne by (by intros ->). unfold accumulator_take. acc_fields. split_and!.
    + rewrite fmap_app, Hst. change (object_of <$> [g]) with [(concat_all g, zlen g)]. by rewrite Hbuf, Hrows.
    + rewrite concat_app. cbn. by rewrite app_nil_r.
    + apply Forall_app. split; [eapply Forall_impl; [exact Hgs|]; by intros ? [_ ?]|]. constructor; [|done].
      destruct (exists_last Hne) as (p & x & ->). exists p, x. split; [done|]. intros Hp. specialize (Hg Hne). unfold at_limit in *.
      apply orb_false_iff in Hg as [H1 H2]. apply orb_false_iff. rewrite zlen_app in H1. rewrite concat_all_app in H2.
      unfold bytes_len in H2. rewrite string_length_app in H2.
      split; [destruct mr as [m|]; [|done]; cbn in *; rewrite Z.leb_gt in *; pose proof (zlen_nonneg [x]); lia|].
      destruct mb as [m|]; [|done]. unfold bytes_len. cbn in *. rewrite Z.leb_gt in *. lia.
    + intros i g' Hi Hlt. rewrite length_app in Hlt. cbn in Hlt. rewrite lookup_app_l in Hi by lia. rewrite Forall_lookup in Hgs. by apply (Hgs i).
Qed.

Example rollover_demo :
  uploaded (with_part_size (accumulator_new (Some 3) (Some 100)) 4) ["aa"; "bbb"; "c"; "d"] = [("aabbbc", 3); ("d", 1)].
Proof. reflexivity. Qed.
