(* ===== verification/Lease.v ===== *)
(** The run lease of a pipeline row (cli/src/pipeline_state/lease.rs).

    Runs in several processes take, renew and give up one lease, a value of a state
    store under one key. Every call of the store is one step; between two steps of a
    run any other run, the clock, or the end of a process may come. The store is one
    that compares and puts atomically. The clock is one for all runs, in
    nanoseconds; the text of an instant is chrono's and a parameter. *)
From S2P Require Import Prelude Errors Float64 Json Text Contract.

Local Open Scope Z_scope.

(** ** The stored lease *)

Definition seconds (n : Z) : Z := n * 1000000000.
Definition LEASE_TTL : Z := seconds 60.
Definition LOCAL_TEARDOWN_WAIT : Z := seconds 2.
Definition TAKE_ATTEMPTS : nat := 3.
Definition expiry (now : Z) : Z := now + LEASE_TTL.

Record RunLease := MkRunLease {
  l_run_id : string; l_pid : Z; l_host : option string; l_pid_ns : option string;
  l_acquired_at : Z; l_expires_at : Z;
}.
Definition is_live (l : RunLease) (now : Z) : bool := now <? l_expires_at l.
Definition with_expiry (l : RunLease) (t : Z) : RunLease :=
  MkRunLease (l_run_id l) (l_pid l) (l_host l) (l_pid_ns l) (l_acquired_at l) t.

(** A process: its host name, its PID namespace and its id there. *)
Record Process := MkProcess { p_host : option string; p_ns : option string; p_pid : Z }.
#[export] Instance Process_eq_dec : EqDecision Process.
Proof. solve_decision. Defined.
#[export] Instance Process_countable : Countable Process.
Proof. by apply (inj_countable' (fun p => (p_host p, p_ns p, p_pid p)) (fun '(h, n, i) => MkProcess h n i)); intros []. Defined.

Definition lease_new (run_id : string) (p : Process) (now : Z) : RunLease :=
  MkRunLease run_id (p_pid p) (p_host p) (p_ns p) now (expiry now).
Definition holder_process (l : RunLease) : Process := MkProcess (l_host l) (l_pid_ns l) (l_pid l).

(** [Holder] and [classify]. *)
Inductive Holder := ThisProcess | Alive | Gone | Remote.
#[export] Instance Holder_eq_dec : EqDecision Holder.
Proof. solve_decision. Defined.
Definition classify (same_host same_pid held_here : bool) (alive : option bool) : Holder :=
  if negb same_host then Remote
  else if same_pid then (if held_here then ThisProcess else Gone)
  else match alive with Some false => Gone | Some true => Alive | None => Remote end.

(** [HELD_HERE] of every process: how often it holds the lease for a run. *)
Notation marks := (gmap (Process * string) nat).
Definition held_here (h : marks) (p : Process) (r : string) : bool := is_some (h !! (p, r)).
Definition set_held_here (p : Process) (r : string) (held : bool) (h : marks) : marks :=
  if held then <[(p, r) := S (default 0%nat (h !! (p, r)))]> h
  else match h !! (p, r) with
       | Some n => if Nat.eqb (n - 1) 0 then delete (p, r) h else <[(p, r) := (n - 1)%nat]> h
       | None => h
       end.

(** [classify_holder], asked by a run of process [p]; [alive] is what the system
    answers about the holder's id. *)
Definition classify_holder (p : Process) (h : marks) (alive : option bool) (l : RunLease) : Holder :=
  classify (is_some (l_host l) && bool_decide (l_host l = p_host p) && bool_decide (l_pid_ns l = p_ns p))
    (l_pid l =? p_pid p) (held_here h p (l_run_id l)) alive.

(** ** A run of the row *)

(** [LeaseGuard] with what its renewal task keeps; [g_pending] is a renewal on its way. *)
Record LeaseGuard := MkLeaseGuard { g_lease : RunLease; g_last : Value; g_held_until : Z; g_pending : option RunLease; g_lost : bool }.

(** Where a run stands. The steps of [try_acquire_every]: [Forcing] before the put,
    [Reading] before the get, [Deciding] with what was read, [Waiting] in
    [holder_gone], [Writing] before the conditional write, [Rereading] after the
    attempts; [Running] with the guard; [Releasing] and [Dropping] the guard. *)
Inductive Phase :=
| Forcing (lease : RunLease)
| Reading (lease : RunLease) (attempts : nat)
| Deciding (lease : RunLease) (attempts : nat) (current : option Value)
| Waiting (lease : RunLease) (attempts : nat) (current : option Value) (held : RunLease) (deadline : Z)
| Writing (lease : RunLease) (attempts : nat) (current : option Value)
| Rereading
| Running (g : LeaseGuard)
| Releasing (g : LeaseGuard)
| ReleaseWriting (current : Value)
| Dropping (g : LeaseGuard)
| DropWriting (current : Value) (expired : RunLease)
| Refused (held : RunLease)
| Unleased
| Ended
| Dead.
Record Run := MkRun { r_process : Process; r_phase : Phase }.

Record World := MkWorld { w_now : Z; w_store : option Value; w_runs : gmap string Run; w_marks : marks; w_live : gset Process }.

(** What becomes of a store call: it is done, refused, or done with its reply lost. *)
Inductive Reply := Done | Failed | ReplyLost.

Inductive Action :=
| Start (r : string) (p : Process) (force : bool)
| Turn (r : string) (reply : Reply) (alive : option bool)
| Timer (r : string)
| Release (r : string)
| DropGuard (r : string)
| Spawn (p : Process)
| Exit (p : Process)
| Tick (d : Z).

Definition is_u32 (n : Z) : bool := (0 <=? n) && (n <? 2 ^ 32).

Section Lease.
Context (to_rfc3339 : Z -> string) (parse_rfc3339 : string -> option Z).

(** [serde_json::to_value] and [from_value] of a lease. *)
Definition lease_value (l : RunLease) : Value :=
  VObject ([("run_id", VString (l_run_id l)); ("pid", of_u64 (l_pid l))]
    ++ match l_host l with Some h => [("host", VString h)] | None => [] end
    ++ match l_pid_ns l with Some n => [("pid_ns", VString n)] | None => [] end
    ++ [("acquired_at", VString (to_rfc3339 (l_acquired_at l))); ("expires_at", VString (to_rfc3339 (l_expires_at l)))]).
Definition opt_string (v : option Value) : option (option string) :=
  match v with None | Some Null => Some None | Some (VString s) => Some (Some s) | Some _ => None end.
Definition instant_of (v : Value) : option Z := as_str v ≫= parse_rfc3339.
Definition pid_of (v : Value) : option Z := as_u64 v ≫= fun n => if is_u32 n then Some n else None.
Definition lease_fields (run_id pid : Value) (host ns : option Value) (acquired expires : Value) : option RunLease :=
  run_id ← as_str run_id; pid ← pid_of pid; host ← opt_string host; ns ← opt_string ns;
  acquired ← instant_of acquired; expires ← instant_of expires;
  Some (MkRunLease run_id pid host ns acquired expires).
Definition lease_from_value (v : Value) : option RunLease :=
  match v with
  | VObject m =>
      run_id ← assoc "run_id" m; pid ← assoc "pid" m; acquired ← assoc "acquired_at" m; expires ← assoc "expires_at" m;
      lease_fields run_id pid (assoc "host" m) (assoc "pid_ns" m) acquired expires
  | VArray [run_id; pid; host; ns; acquired; expires] => lease_fields run_id pid (Some host) (Some ns) acquired expires
  | _ => None
  end.
Definition lease_in (cell : option Value) : option RunLease := cell ≫= lease_from_value.

(** ** The store's calls *)

Definition compare_and_put (cell expected : option Value) (value : Value) : bool * option Value :=
  if bool_decide (cell = expected) then (true, Some value) else (false, cell).
(** The answer a caller sees, [None] for an error, and the cell after the call. *)
Definition call {A} (reply : Reply) (old : option Value) (done : A * option Value) : option A * option Value :=
  match reply with Done => (Some done.1, done.2) | Failed => (None, old) | ReplyLost => (None, done.2) end.
(** [read]; no effect to lose. *)
Definition get_call (reply : Reply) (cell : option Value) : option (option Value) :=
  match reply with Done => Some cell | _ => None end.

(** ** The steps *)

Definition set_run (r : string) (p : Process) (ph : Phase) (w : World) : World :=
  MkWorld (w_now w) (w_store w) (<[r := MkRun p ph]> (w_runs w)) (w_marks w) (w_live w).
Definition set_store (cell : option Value) (w : World) : World :=
  MkWorld (w_now w) cell (w_runs w) (w_marks w) (w_live w).
Definition mark (r : string) (p : Process) (held : bool) (w : World) : World :=
  MkWorld (w_now w) (w_store w) (w_runs w) (set_held_here p r held (w_marks w)) (w_live w).

(** The take ends without the lease: the mark is dropped. *)
Definition step_down (r : string) (p : Process) (ph : Phase) (w : World) : World := mark r p false (set_run r p ph w).
(** [spawn_guard]. *)
Definition spawn_guard (lease : RunLease) : LeaseGuard := MkLeaseGuard lease (lease_value lease) (l_expires_at lease) None false.

(** Another run's lease, live at [now]. *)
Definition blocking (r : string) (now : Z) (current : option Value) : option RunLease :=
  match lease_in current with
  | Some held => if negb (string_eqb (l_run_id held) r) && is_live held now then Some held else None
  | None => None
  end.

(** One step of [try_acquire_every]. *)
Definition take_turn (r : string) (p : Process) (reply : Reply) (alive : option bool) (ph : Phase) (w : World) : option World :=
  match ph with
  | Forcing lease =>
      let '(answer, cell) := call reply (w_store w) (tt, Some (lease_value lease)) in
      let w := set_store cell w in
      Some (match answer with
            | Some _ => set_run r p (Running (spawn_guard lease)) w
            | None => step_down r p Unleased w
            end)
  | Reading lease n =>
      Some (match get_call reply (w_store w) with
            | Some current => set_run r p (Deciding lease n current) w
            | None => step_down r p Unleased w
            end)
  | Deciding lease n current =>
      Some (match blocking r (w_now w) current with
            | Some held => set_run r p (Waiting lease n current held (w_now w + LOCAL_TEARDOWN_WAIT)) w
            | None => set_run r p (Writing lease n current) w
            end)
  | Waiting lease n current held deadline =>
      match classify_holder p (w_marks w) alive held with
      | Gone => Some (set_run r p (Writing lease n current) w)
      | ThisProcess => if w_now w <? deadline then Some w else Some (step_down r p (Refused held) w)
      | _ => Some (step_down r p (Refused held) w)
      end
  | Writing lease n current =>
      let '(answer, cell) := call reply (w_store w) (compare_and_put (w_store w) current (lease_value lease)) in
      let w := set_store cell w in
      Some (match answer with
            | Some true => set_run r p (Running (spawn_guard lease)) w
            | Some false => set_run r p (if Nat.ltb (S n) TAKE_ATTEMPTS then Reading lease (S n) else Rereading) w
            | None => step_down r p Unleased w
            end)
  | Rereading =>
      Some (step_down r p
        (match get_call reply (w_store w) ≫= fun current => blocking r (w_now w) current with
         | Some held => if bool_decide (classify_holder p (w_marks w) alive held = Gone) then Unleased else Refused held
         | None => Unleased
         end) w)
  | _ => None
  end.

(** The conditional write of a renewal that is on its way. *)
Definition renew (reply : Reply) (next : RunLease) (g : LeaseGuard) (w : World) : LeaseGuard * World :=
  let '(answer, cell) := call reply (w_store w) (compare_and_put (w_store w) (Some (g_last g)) (lease_value next)) in
  (match answer with
   | Some true => MkLeaseGuard next (lease_value next) (l_expires_at next) None (g_lost g)
   | Some false => MkLeaseGuard next (g_last g) (g_held_until g) None true
   | None => MkLeaseGuard next (g_last g) (g_held_until g) None (g_held_until g <=? w_now w)
   end, set_store cell w).

(** A guard's steps: the renewal on its way, then [release_lease] or [expire_lease]. *)
Definition guard_turn (r : string) (p : Process) (reply : Reply) (ph : Phase) (w : World) : option World :=
  match ph with
  | Running g =>
      match g_pending g with
      | Some next => let '(g, w) := renew reply next g w in Some (set_run r p (Running g) w)
      | None => None
      end
  | Releasing g =>
      match g_pending g with
      | Some next => let '(g, w) := renew reply next g w in Some (set_run r p (Releasing g) w)
      | None =>
          Some (match get_call reply (w_store w) with
                | Some (Some current) =>
                    match lease_from_value current with
                    | Some l => if string_eqb (l_run_id l) r then set_run r p (ReleaseWriting current) w else step_down r p Ended w
                    | None => set_run r p (ReleaseWriting current) w
                    end
                | _ => step_down r p Ended w
                end)
      end
  | ReleaseWriting current =>
      Some (step_down r p Ended (set_store (call reply (w_store w) (compare_and_put (w_store w) (Some current) Null)).2 w))
  | Dropping g =>
      match g_pending g with
      | Some next => let '(g, w) := renew reply next g w in Some (set_run r p (Dropping g) w)
      | None =>
          Some (match get_call reply (w_store w) with
                | Some (Some current) =>
                    match lease_from_value current with
                    | Some l => if string_eqb (l_run_id l) r
                                then set_run r p (DropWriting current (with_expiry l (w_now w - seconds 1))) w
                                else set_run r p Ended w
                    | None => set_run r p Ended w
                    end
                | _ => set_run r p Ended w
                end)
      end
  | DropWriting current expired =>
      Some (set_run r p Ended (set_store (call reply (w_store w) (compare_and_put (w_store w) (Some current) (lease_value expired))).2 w))
  | _ => None
  end.

(** The runs of a process that ended are dead. *)
Definition kill_run (p : Process) (x : Run) : Run :=
  if bool_decide (r_process x = p) then MkRun p Dead else x.
(** What the system may answer about a process: that it is gone, only if it is. *)
Definition honest (w : World) (ph : Phase) (alive : option bool) : bool :=
  match alive, ph with
  | Some false, Waiting _ _ _ held _ => negb (bool_decide (holder_process held ∈ w_live w))
  | _, _ => true
  end.

(** [step] is partial: an action that does not apply is no step. *)
Definition step (w : World) (a : Action) : option World :=
  match a with
  | Start r p force =>
      if bool_decide (p ∈ w_live w) && is_u32 (p_pid p) && negb (is_some (w_runs w !! r)) then
        let lease := lease_new r p (w_now w) in
        Some (mark r p true (set_run r p (if force then Forcing lease else Reading lease 0) w))
      else None
  | Turn r reply alive =>
      match w_runs w !! r with
      | Some x =>
          if honest w (r_phase x) alive then
            match take_turn r (r_process x) reply alive (r_phase x) w with
            | Some w' => Some w'
            | None => guard_turn r (r_process x) reply (r_phase x) w
            end
          else None
      | None => None
      end
  | Timer r =>
      match w_runs w !! r with
      | Some (MkRun p (Running g)) =>
          if g_lost g || is_some (g_pending g) then None
          else Some (set_run r p (Running (MkLeaseGuard (g_lease g) (g_last g) (g_held_until g)
                 (Some (with_expiry (g_lease g) (expiry (w_now w)))) false)) w)
      | _ => None
      end
  | Release r =>
      match w_runs w !! r with Some (MkRun p (Running g)) => Some (set_run r p (Releasing g) w) | _ => None end
  | DropGuard r =>
      match w_runs w !! r with Some (MkRun p (Running g)) => Some (mark r p false (set_run r p (Dropping g) w)) | _ => None end
  | Spawn p => Some (MkWorld (w_now w) (w_store w) (w_runs w) (w_marks w) ({[p]} ∪ w_live w))
  | Exit p => Some (MkWorld (w_now w) (w_store w) (kill_run p <$> w_runs w) (filter (fun m => m.1.1 <> p) (w_marks w)) (w_live w ∖ {[p]}))
  | Tick d => if 0 <=? d then Some (MkWorld (w_now w + d) (w_store w) (w_runs w) (w_marks w) (w_live w)) else None
  end.
Fixpoint steps (w : World) (l : list Action) : option World :=
  match l with [] => Some w | a :: l => step w a ≫= fun w' => steps w' l end.

(** The row is run by [r]: it holds its guard, was not told to stop, and the lease
    it knows to have written has not run out. *)
Definition active (w : World) (r : string) : Prop :=
  exists p g, w_runs w !! r = Some (MkRun p (Running g)) /\ g_lost g = false /\ w_now w < g_held_until g.
End Lease.

(** chrono reads back the instants it prints. *)
Class Rfc3339 (to_rfc3339 : Z -> string) (parse_rfc3339 : string -> option Z) :=
  rfc3339_reads_back : forall t, parse_rfc3339 (to_rfc3339 t) = Some t.

(** ** One holder at a time *)

Section Exclusion.
Context (to : Z -> string) (parse : string -> option Z) `{!Rfc3339 to parse}.

Lemma lease_value_reads_back l : is_u32 (l_pid l) = true -> lease_from_value parse (lease_value to l) = Some l.
Proof.
  intros Hp. destruct l as [run pid host ns acq exp]. cbn in Hp.
  assert (pid_of (of_u64 pid) = Some pid) as Hpid by (unfold pid_of; cbn; by rewrite Hp).
  assert (forall t, instant_of parse (VString (to t)) = Some t) as Ht by (intros t; exact (rfc3339_reads_back t)).
  transitivity (lease_fields parse (VString run) (of_u64 pid) (VString <$> host) (VString <$> ns) (VString (to acq)) (VString (to exp))); [by destruct host, ns|].
  unfold lease_fields. rewrite Hpid, !Ht. by destruct host, ns.
Qed.

(** A run that will not hold the lease any more, whatever comes. *)
Definition over (ph : Phase) : bool :=
  match ph with Dropping _ | DropWriting _ _ | Refused _ | Unleased | Ended | Dead => true | _ => false end.

Definition known (w : World) (l : RunLease) : Prop := exists x, w_runs w !! l_run_id l = Some x /\ r_process x = holder_process l.
Definition known_in (w : World) (cell : option Value) : Prop := forall l, lease_in parse cell = Some l -> known w l.
(** What was read may be replaced: its run is over or its time is. *)
Definition replaceable (w : World) (r : string) (cell : option Value) : Prop :=
  forall l, lease_in parse cell = Some l -> l_run_id l <> r ->
    l_expires_at l <= w_now w \/ exists x, w_runs w !! l_run_id l = Some x /\ over (r_phase x) = true.
Definition lease_for (w : World) (r : string) (p : Process) (l : RunLease) : Prop :=
  l_run_id l = r /\ holder_process l = p /\ is_u32 (l_pid l) = true /\ l_expires_at l <= expiry (w_now w).
Definition only_for (r : string) (cell : option Value) : Prop := forall l, lease_in parse cell = Some l -> l_run_id l = r.
Definition guard_for (w : World) (r : string) (p : Process) (g : LeaseGuard) : Prop :=
  lease_for w r p (g_lease g) /\ g_held_until g <= expiry (w_now w) /\ only_for r (Some (g_last g)) /\
  forall n, g_pending g = Some n -> lease_for w r p n /\ g_lost g = false /\ g_held_until g <= l_expires_at n.
Definition backed (w : World) (r : string) (g : LeaseGuard) : Prop :=
  g_lost g = false -> w_now w < g_held_until g ->
  exists l, lease_in parse (w_store w) = Some l /\ l_run_id l = r /\ g_held_until g <= l_expires_at l.

Definition phase_inv (w : World) (r : string) (x : Run) : Prop :=
  let p := r_process x in
  match r_phase x with
  | Forcing _ => False
  | Reading lease _ => lease_for w r p lease
  | Deciding lease _ current => lease_for w r p lease /\ known_in w current
  | Waiting lease _ current held _ => lease_for w r p lease /\ known_in w current /\ lease_in parse current = Some held
  | Writing lease _ current => lease_for w r p lease /\ replaceable w r current
  | Running g => guard_for w r p g /\ backed w r g
  | Releasing g | Dropping g => guard_for w r p g
  | ReleaseWriting current => only_for r (Some current)
  | DropWriting current expired => only_for r (Some current) /\ lease_for w r p expired
  | _ => True
  end.
Definition run_inv (w : World) (r : string) (x : Run) : Prop :=
  phase_inv w r x /\ (over (r_phase x) = false -> is_Some (w_marks w !! (r_process x, r)) /\ r_process x ∈ w_live w).
Definition inv (w : World) : Prop := known_in w (w_store w) /\ map_Forall (run_inv w) (w_runs w).

(** Time passes, runs keep their process, and what is over stays over. *)
Definition later (w w' : World) : Prop :=
  w_now w <= w_now w' /\
  forall r x, w_runs w !! r = Some x -> exists x', w_runs w' !! r = Some x' /\ r_process x' = r_process x /\ (over (r_phase x) = true -> over (r_phase x') = true).

Lemma known_in_later w w' cell : later w w' -> known_in w cell -> known_in w' cell.
Proof. intros [_ Hl] Hk l Hc. destruct (Hk l Hc) as (x & Hx & E). destruct (Hl _ _ Hx) as (x' & Hx' & E' & _). exists x'. by rewrite E'. Qed.
Lemma replaceable_later w w' r cell : later w w' -> replaceable w r cell -> replaceable w' r cell.
Proof.
  intros [Hn Hl] Hr l Hc Hne. destruct (Hr l Hc Hne) as [?|(x & Hx & Ho)]; [left; lia|]. right.
  destruct (Hl _ _ Hx) as (x' & Hx' & _ & H). exists x'. auto.
Qed.

Lemma lease_for_later w w' r p l : later w w' -> lease_for w r p l -> lease_for w' r p l.
Proof. intros [Hn _] (? & ? & ? & ?). unfold lease_for, expiry in *. split_and!; [done..|lia]. Qed.
Lemma guard_for_later w w' r p g : later w w' -> guard_for w r p g -> guard_for w' r p g.
Proof.
  intros Hl (? & ? & ? & Hn). pose proof Hl as [Hle _]. unfold guard_for, expiry in *. split_and!; [by eapply lease_for_later|lia|done|].
  intros n E. destruct (Hn n E) as (? & ? & ?). eauto using lease_for_later.
Qed.
Create HintDb lease.
#[local] Hint Resolve known_in_later replaceable_later lease_for_later guard_for_later : lease.

(** A run that took no part in a step keeps its invariant. *)
Lemma run_inv_later w w' r x : later w w' -> run_inv w r x -> (w_store w' = w_store w \/ ~ active w r) -> w_runs w !! r = Some x ->
  w_marks w' !! (r_process x, r) = w_marks w !! (r_process x, r) -> (r_process x ∈ w_live w -> r_process x ∈ w_live w') -> run_inv w' r x.
Proof.
  intros Hl [Hp Hm] Hs Hx Emk Hlive. split.
  2:{ intros Ho. destruct (Hm Ho). rewrite Emk. auto. }
  destruct x as [p ph]. unfold phase_inv in *. cbn [r_phase r_process] in *.
  destruct ph; cbn in *; try done; try (clear Hs Hm; intuition eauto with lease; fail).
  destruct Hp as [Hg Hb]. split; [by eapply guard_for_later|]. intros Hlost Hnow. destruct Hl as [Hle _]. destruct Hs as [->|Hs]; [apply Hb; [done|lia]|].
  exfalso. apply Hs. exists p, g. split_and!; [done|done|lia].
Qed.

(** A step of one run. *)
Lemma inv_run w w' r x x' : inv w -> w_runs w !! r = Some x -> w_now w' = w_now w -> w_live w' = w_live w ->
  w_runs w' = <[r := x']> (w_runs w) -> r_process x' = r_process x -> (over (r_phase x) = true -> over (r_phase x') = true) ->
  (forall q r2, r2 <> r -> w_marks w' !! (q, r2) = w_marks w !! (q, r2)) ->
  (w_store w' = w_store w \/ ((forall r2, r2 <> r -> ~ active w r2) /\ known_in w' (w_store w'))) ->
  run_inv w' r x' -> inv w'.
Proof.
  intros [Hk Hr] Hx En El Er Ep Ho Em Hs Hx'.
  assert (later w w') as Hl.
  { split; [lia|]. intros r2 y Hy. rewrite Er. destruct (decide (r2 = r)) as [->|Hne].
    - rewrite lookup_insert_eq. rewrite Hx in Hy. injection Hy as <-. eauto.
    - rewrite lookup_insert_ne by done. eauto. }
  split; [destruct Hs as [->|[_ ?]]; [by eapply known_in_later|done]|]. rewrite Er. intros r2 y.
  destruct (decide (r2 = r)) as [->|Hne]; [rewrite lookup_insert_eq; by intros [= <-]|]. rewrite lookup_insert_ne by done. intros Hy.
  apply (run_inv_later w); [done|by apply Hr|destruct Hs as [?|[Hs _]]; [by left|right; by apply Hs]|done|by apply Em|by rewrite El].
Qed.

(** No other run is active when the cell is this run's. *)
Lemma mine_alone w r : inv w -> only_for r (w_store w) -> forall r2, r2 <> r -> ~ active w r2.
Proof.
  intros [_ Hr] Ho r2 Hne (p & g & Hx & Hlost & Hnow). destruct (Hr _ _ Hx) as [[_ Hb] _]. destruct (Hb Hlost Hnow) as (l & Hl & <- & _).
  apply Hne. by apply Ho.
Qed.
Lemma replaceable_alone w r : inv w -> replaceable w r (w_store w) -> forall r2, r2 <> r -> ~ active w r2.
Proof.
  intros [_ Hr] Ho r2 Hne (p & g & Hx & Hlost & Hnow). destruct (Hr _ _ Hx) as [[_ Hb] _]. destruct (Hb Hlost Hnow) as (l & Hl & <- & Hu).
  destruct (Ho l Hl Hne) as [?|(y & Hy & Hover)]; [lia|]. rewrite Hx in Hy. by injection Hy as <-.
Qed.

Lemma set_same_store w : set_store (w_store w) w = w.
Proof. by destruct w. Qed.
Lemma set_held_here_other q r held h q2 r2 : r2 <> r -> set_held_here q r held h !! (q2, r2) = h !! (q2, r2).
Proof.
  intros Hne. unfold set_held_here. destruct held; [by rewrite lookup_insert_ne by congruence|].
  destruct (h !! (q, r)) as [n|]; [|done]. destruct (Nat.eqb _ _); [by rewrite lookup_delete_ne by congruence|by rewrite lookup_insert_ne by congruence].
Qed.

(** The cell a step leaves: as it was, or a value written when no other run was active. *)
Definition good_cell (w : World) (r : string) (p : Process) (cell : option Value) : Prop :=
  cell = w_store w \/ (forall r2, r2 <> r -> ~ active w r2) /\ (forall l, lease_in parse cell = Some l -> l_run_id l = r /\ holder_process l = p).

Lemma inv_set w r p ph ph' cell : inv w -> w_runs w !! r = Some (MkRun p ph) -> (over ph = true -> over ph' = true) -> good_cell w r p cell ->
  phase_inv (set_run r p ph' (set_store cell w)) r (MkRun p ph') -> inv (set_run r p ph' (set_store cell w)).
Proof.
  intros Hi Hx Ho Hc Hp. apply (inv_run w _ r (MkRun p ph) (MkRun p ph')); try done.
  - destruct Hc as [->|[Ha Hl]]; [by left|]. right. split; [done|]. intros l E. destruct (Hl l E) as [<- <-].
    exists (MkRun (holder_process l) ph'). split; [apply lookup_insert_eq|done].
  - split; [done|]. intros Hn. destruct Hi as [_ Hr]. apply (Hr _ _ Hx). destruct (over ph) eqn:E; [|done]. cbn in Hn. rewrite Ho in Hn; done.
Qed.
Lemma inv_step_down w r p ph ph' cell : inv w -> w_runs w !! r = Some (MkRun p ph) -> over ph' = true -> good_cell w r p cell ->
  phase_inv (set_run r p ph' (set_store cell w)) r (MkRun p ph') -> inv (step_down r p ph' (set_store cell w)).
Proof.
  intros Hi Hx Ho Hc Hp. apply (inv_run (set_run r p ph' (set_store cell w)) _ r (MkRun p ph') (MkRun p ph')); try done.
  - by apply (inv_set w r p ph).
  - apply lookup_insert_eq.
  - cbn. by rewrite insert_insert_eq.
  - intros q r2 Hne. by apply set_held_here_other.
  - by left.
  - split; [exact Hp|]. intros Hn. cbn in Hn. congruence.
Qed.

Lemma cas_cases reply cell expected v ans cell' : call reply cell (compare_and_put cell expected v) = (ans, cell') ->
  (cell' = cell /\ ans <> Some true) \/ (cell = expected /\ cell' = Some v /\ ans <> Some false).
Proof. unfold compare_and_put. case_bool_decide; destruct reply; cbn; intros [= <- <-]; eauto. Qed.

Lemma lease_for_reads w r p l : lease_for w r p l -> lease_in parse (Some (lease_value to l)) = Some l.
Proof. intros (_ & _ & Hu & _). by apply lease_value_reads_back. Qed.
Lemma lease_for_cell w r p l l' : lease_for w r p l -> lease_in parse (Some (lease_value to l)) = Some l' -> l' = l.
Proof. intros Hl. rewrite (lease_for_reads _ _ _ _ Hl). congruence. Qed.
Lemma good_lease w r p l : lease_for w r p l -> (forall r2, r2 <> r -> ~ active w r2) -> good_cell w r p (Some (lease_value to l)).
Proof. intros Hl Ha. right. split; [done|]. intros l' E. rewrite (lease_for_cell _ _ _ _ _ Hl E). by destruct Hl as (? & ? & _). Qed.
Lemma guard_spawned w r p l : lease_for w r p l -> guard_for w r p (spawn_guard to l).
Proof.
  intros Hl. unfold guard_for. split_and!; [done|apply Hl| |done].
  intros l' E. rewrite (lease_for_cell _ _ _ _ _ Hl E). apply Hl.
Qed.
Lemma backed_by_cell w r p l g : lease_for w r p l -> w_store w = Some (lease_value to l) -> g_held_until g = l_expires_at l -> backed w r g.
Proof. intros Hl Hs Hu _ _. exists l. rewrite Hs, (lease_for_reads _ _ _ _ Hl). split_and!; [done|apply Hl|lia]. Qed.

Lemma blocking_spec r now cell : match blocking parse r now cell with
  | Some held => lease_in parse cell = Some held
  | None => forall l, lease_in parse cell = Some l -> l_run_id l <> r -> l_expires_at l <= now
  end.
Proof.
  unfold blocking. destruct (lease_in parse cell) as [l|]; [|done]. unfold string_eqb, is_live. case_bool_decide; cbn.
  - by intros l' [= <-].
  - destruct (Z.ltb_spec now (l_expires_at l)); [done|]. by intros l' [= <-].
Qed.

(** A holder found gone is over. *)
Lemma gone_is_over w p alive held ph : inv w -> known w held -> honest w ph alive = true -> (exists a b c d, ph = Waiting a b c held d) ->
  classify_holder p (w_marks w) alive held = Gone -> exists x, w_runs w !! l_run_id held = Some x /\ over (r_phase x) = true.
Proof.
  intros [_ Hr] (x & Hx & Ep) Hh (a & b & c & d & ->) Hg. exists x. split; [done|]. destruct (over (r_phase x)) eqn:Ho; [done|exfalso].
  destruct (Hr _ _ Hx) as [_ Hm]. destruct (Hm Ho) as [[n Hmark] Hlive]. rewrite Ep in Hmark, Hlive.
  unfold classify_holder, classify in Hg. destruct (_ && _) eqn:Hsame; cbn in Hg; [|done].
  apply andb_true_iff in Hsame as [[_ E1%bool_decide_eq_true]%andb_true_iff E2%bool_decide_eq_true].
  destruct (Z.eqb_spec (l_pid held) (p_pid p)) as [E3|].
  - unfold held_here in Hg. replace p with (holder_process held) in Hg by (destruct p; unfold holder_process; cbn in *; congruence). by rewrite Hmark in Hg.
  - destruct alive as [[|]|]; [done| |done]. cbn in Hh. by rewrite bool_decide_eq_true_2 in Hh.
Qed.

Lemma later_set w r p ph ph' cell : w_runs w !! r = Some (MkRun p ph) -> (over ph = true -> over ph' = true) -> later w (set_run r p ph' (set_store cell w)).
Proof.
  intros Hx Ho. split; [cbn; lia|]. intros r2 y Hy. cbn. destruct (decide (r2 = r)) as [->|Hne].
  - rewrite lookup_insert_eq. rewrite Hx in Hy. injection Hy as <-. eauto.
  - rewrite lookup_insert_ne by done. eauto.
Qed.
(** The two lemmas above where the cell is not touched. *)
Lemma inv_move w r p ph ph' : inv w -> w_runs w !! r = Some (MkRun p ph) -> over ph = false ->
  (later w (set_run r p ph' w) -> phase_inv (set_run r p ph' w) r (MkRun p ph')) -> inv (set_run r p ph' w).
Proof.
  intros Hi Hx Ho Hp. pose proof (inv_set w r p ph ph' (w_store w) Hi Hx) as H. pose proof (later_set w r p ph ph' (w_store w) Hx) as Hl.
  rewrite set_same_store in H, Hl. apply H; [congruence|by left|apply Hp, Hl; congruence].
Qed.
Lemma inv_quit w r p ph ph' : inv w -> w_runs w !! r = Some (MkRun p ph) -> over ph' = true ->
  phase_inv (set_run r p ph' w) r (MkRun p ph') -> inv (step_down r p ph' w).
Proof. intros Hi Hx Ho Hp. pose proof (inv_step_down w r p ph ph' (w_store w) Hi Hx Ho) as H. rewrite set_same_store in H. apply H; [by left|done]. Qed.

Lemma take_inv w r p ph reply alive w' : inv w -> w_runs w !! r = Some (MkRun p ph) -> honest w ph alive = true ->
  take_turn to parse r p reply alive ph w = Some w' -> inv w'.
Proof.
  intros Hi Hx Hh. pose proof Hi as [Hk Hr]. destruct (Hr _ _ Hx) as [Hp _].
  destruct ph as [lease|lease n|lease n cur|lease n cur held dl|lease n cur| | | | | | | | | |]; try done; cbn [take_turn]; cbn in Hp.
  - destruct (get_call reply (w_store w)) as [c|] eqn:E; intros [= <-]; [|by eapply inv_quit].
    eapply inv_move; [done..|]. intros Hl. split; [done|]. eapply known_in_later; [done|]. destruct reply; cbn in E; by simplify_eq.
  - pose proof (blocking_spec r (w_now w) cur) as Hb. destruct Hp as [Hm Hc]. destruct (blocking parse r (w_now w) cur) as [held|]; intros [= <-].
    + eapply inv_move; [done..|]. intros Hl. split_and!; [done|by eapply known_in_later|done].
    + eapply inv_move; [done..|]. intros Hl. split; [done|]. intros l E Hne. left. by apply Hb.
  - destruct Hp as (Hm & Hc & E). destruct (classify_holder p (w_marks w) alive held) eqn:Hcl.
    + destruct (w_now w <? dl); intros [= <-]; [done|by eapply inv_quit].
    + intros [= <-]. by eapply inv_quit.
    + intros [= <-]. eapply inv_move; [done..|]. intros Hl. split; [done|]. eapply replaceable_later; [done|]. intros l El _. right.
      rewrite E in El. injection El as <-. eapply gone_is_over; eauto 10.
    + intros [= <-]. by eapply inv_quit.
  - destruct Hp as [Hm Hs]. destruct (call _ _ _) as [ans cell] eqn:Ec. cbn [fst snd]. intros [= <-].
    destruct (cas_cases _ _ _ _ _ _ Ec) as [[-> Hn]|(Hcur & -> & Hn)].
    + rewrite set_same_store. destruct ans as [[|]|]; [done| |by eapply inv_quit].
      destruct (Nat.ltb _ _); (eapply inv_move; [done..|]); done.
    + assert (good_cell w r p (Some (lease_value to lease))) as Hg by (apply good_lease; [done|apply replaceable_alone; [done|by rewrite Hcur]]).
      destruct ans as [[|]|]; [|done|by eapply inv_step_down].
      eapply inv_set; [done..|]. split; [by apply guard_spawned|]. by eapply backed_by_cell.
  - intros [= <-]. eapply inv_quit; [done..| |]; destruct (_ ≫= _); try destruct (bool_decide _); done.
Qed.

Lemma renew_spec w r p g next reply g' w' : inv w -> guard_for w r p g -> g_pending g = Some next -> renew to reply next g w = (g', w') ->
  exists cell, w' = set_store cell w /\ good_cell w r p cell /\ guard_for w r p g' /\ (backed w r g -> backed (set_store cell w) r g').
Proof.
  intros Hi (Hl & Hu & Ho & Hn) En. destruct (Hn _ En) as (Hln & Hlost & Hle). unfold renew.
  destruct (call _ _ _) as [ans cell] eqn:Ec. intros [= <- <-]. exists cell. split; [done|].
  destruct (cas_cases _ _ _ _ _ _ Ec) as [[-> Hne]|(Hcur & -> & Hne)].
  - split; [by left|]. rewrite set_same_store. destruct ans as [[|]|]; [done| |].
    + split; [done|]. intros Hb Hl'. done.
    + split; [done|]. intros Hb _ Hnow. by apply Hb.
  - split; [apply good_lease; [done|apply mine_alone; [done|by rewrite Hcur]]|]. destruct ans as [[|]|]; [|done|].
    + split; [|intros _; by eapply backed_by_cell]. split_and!; [done|apply Hln| |done]. intros l E. rewrite (lease_for_cell _ _ _ _ _ Hln E). apply Hln.
    + split; [done|]. intros Hb _ Hnow. exists next. cbn [w_store set_store]. rewrite (lease_for_reads _ _ _ _ Hln). split_and!; [done|apply Hln|done].
Qed.

Lemma cleared_cell w r p reply cur v : inv w -> only_for r (Some cur) ->
  (forall l, lease_from_value parse v = Some l -> l_run_id l = r /\ holder_process l = p) ->
  good_cell w r p (call reply (w_store w) (compare_and_put (w_store w) (Some cur) v)).2.
Proof.
  intros Hi Ho Hv. destruct (call _ _ _) as [ans cell] eqn:Ec. destruct (cas_cases _ _ _ _ _ _ Ec) as [[-> _]|(Hcur & -> & _)]; [by left|].
  right. split; [apply mine_alone; [done|by rewrite Hcur]|]. exact Hv.
Qed.
Lemma get_call_cell reply w c : get_call reply (w_store w) = Some c -> c = w_store w.
Proof. destruct reply; cbn; congruence. Qed.

Lemma lease_fields_u32 a b c d e f l : lease_fields parse a b c d e f = Some l -> is_u32 (l_pid l) = true.
Proof.
  unfold lease_fields. destruct (as_str a); [cbn|done]. unfold pid_of. destruct (as_u64 b) as [n|]; [cbn|done]. destruct (is_u32 n) eqn:E; [cbn|done].
  destruct (opt_string c); [cbn|done]. destruct (opt_string d); [cbn|done]. destruct (instant_of parse e); [cbn|done].
  destruct (instant_of parse f); [cbn|done]. by intros [= <-].
Qed.
Lemma lease_from_value_u32 v l : lease_from_value parse v = Some l -> is_u32 (l_pid l) = true.
Proof.
  unfold lease_from_value. destruct v as [| | | |[|a [|b [|c [|d [|e [|f []]]]]]]|m]; try done; [apply lease_fields_u32|].
  intros (? & _ & (? & _ & (? & _ & (? & _ & E)%bind_Some)%bind_Some)%bind_Some)%bind_Some. by eapply lease_fields_u32.
Qed.

Lemma guard_inv w r p ph reply w' : inv w -> w_runs w !! r = Some (MkRun p ph) -> guard_turn to parse r p reply ph w = Some w' -> inv w'.
Proof.
  intros Hi Hx. pose proof Hi as [Hk Hr]. destruct (Hr _ _ Hx) as [Hp _].
  destruct ph as [| | | | | |g|g|cur|g|cur expired| | | |]; try done; cbn [guard_turn]; cbn in Hp.
  - destruct (g_pending g) as [next|] eqn:En; [|done]. destruct (renew _ _ _ _ _) as [g' w1] eqn:Er. intros [= <-]. destruct Hp as [Hg Hb].
    destruct (renew_spec _ _ _ _ _ _ _ _ Hi Hg En Er) as (cell & -> & Hc & Hg' & Hb'). eapply inv_set; [done..|]. split; [exact Hg'|exact (Hb' Hb)].
  - destruct (g_pending g) as [next|] eqn:En.
    + destruct (renew _ _ _ _ _) as [g' w1] eqn:Er. intros [= <-].
      destruct (renew_spec _ _ _ _ _ _ _ _ Hi Hp En Er) as (cell & -> & Hc & Hg' & Hb'). eapply inv_set; [done..|]. exact Hg'.
    + destruct (get_call reply (w_store w)) as [[cur|]|] eqn:Eg; intros [= <-]; [|by eapply inv_quit..].
      destruct (lease_from_value parse cur) as [l|] eqn:El.
      * destruct (string_eqb (l_run_id l) r) eqn:E; [|by eapply inv_quit]. eapply inv_move; [done..|]. intros _ l' El'. cbn in El'. simplify_eq.
        by apply bool_decide_eq_true in E.
      * eapply inv_move; [done..|]. intros _ l' El'. cbn in El'. congruence.
  - intros [= <-]. eapply inv_step_down; [done..| |done]. by apply cleared_cell.
  - destruct (g_pending g) as [next|] eqn:En.
    + destruct (renew _ _ _ _ _) as [g' w1] eqn:Er. intros [= <-].
      destruct (renew_spec _ _ _ _ _ _ _ _ Hi Hp En Er) as (cell & -> & Hc & Hg' & Hb'). eapply inv_set; [done..|]. exact Hg'.
    + assert (inv (set_run r p Ended w)) as He by (rewrite <- (set_same_store w); eapply inv_set; [done..|by left|done]).
      destruct (get_call reply (w_store w)) as [[cur|]|] eqn:Eg; intros [= <-]; [|done..].
      destruct (lease_from_value parse cur) as [l|] eqn:El; [|done]. destruct (string_eqb (l_run_id l) r) eqn:E; [|done].
      apply bool_decide_eq_true in E as <-. apply get_call_cell in Eg.
      rewrite <- (set_same_store w). eapply inv_set; [done..|by left|]. split; [intros l' El'; cbn in El'; congruence|].
      destruct (Hk l) as (x & Hx' & Ep); [by rewrite <- Eg|]. rewrite Hx in Hx'. injection Hx' as <-.
      split_and!; [done|done|exact (lease_from_value_u32 _ _ El)|]. unfold expiry, LEASE_TTL, seconds. cbn. lia.
  - intros [= <-]. destruct Hp as [Ho Hl]. eapply inv_set; [done..| |done]. apply cleared_cell; [done..|]. intros l E.
    rewrite (lease_for_cell _ _ _ _ _ Hl E). split; apply Hl.
Qed.

Lemma inv_timer w r p g : inv w -> w_runs w !! r = Some (MkRun p (Running g)) -> g_lost g = false ->
  inv (set_run r p (Running (MkLeaseGuard (g_lease g) (g_last g) (g_held_until g) (Some (with_expiry (g_lease g) (expiry (w_now w)))) false)) w).
Proof.
  intros Hi Hx Hlost. pose proof Hi as [_ Hr]. destruct (Hr _ _ Hx) as [[(Hl & Hu & Ho & _) Hb] _]. eapply inv_move; [done..|]. intros _. split.
  - split_and!; [done..|]. cbn. intros n [= <-]. destruct Hl as (? & ? & ? & _). split; [|done].
    unfold lease_for. cbn. split_and!; [done..|lia].
  - intros _ Hnow. by apply Hb.
Qed.

(** The steps that are not one run's. *)
Lemma inv_start w r p ph : inv w -> w_runs w !! r = None -> p ∈ w_live w ->
  phase_inv w r (MkRun p ph) -> (forall w', w_now w' = w_now w -> phase_inv w r (MkRun p ph) -> phase_inv w' r (MkRun p ph)) ->
  inv (mark r p true (set_run r p ph w)).
Proof.
  intros [Hk Hr] Hx Hlive Hp Hmono. assert (later w (mark r p true (set_run r p ph w))) as Hl.
  { split; [cbn; lia|]. intros r2 y Hy. cbn. rewrite lookup_insert_ne by congruence. eauto. }
  split; [by eapply known_in_later|]. cbn. intros r2 y. destruct (decide (r2 = r)) as [->|Hne].
  - rewrite lookup_insert_eq. intros [= <-]. split; [by apply Hmono|]. intros _. cbn. split; [|done]. rewrite lookup_insert_eq. eauto.
  - rewrite lookup_insert_ne by done. intros Hy. eapply run_inv_later; [done|by apply Hr|by left|done| |done]. by apply set_held_here_other.
Qed.

(** The clock, and a process that begins. *)
Lemma inv_world w now live : inv w -> w_now w <= now -> w_live w ⊆ live -> inv (MkWorld now (w_store w) (w_runs w) (w_marks w) live).
Proof.
  intros [Hk Hr] Hn Hl. assert (later w (MkWorld now (w_store w) (w_runs w) (w_marks w) live)) as Hlt by (split; [done|eauto]).
  split; [by eapply known_in_later|]. intros r x Hx. eapply run_inv_later; [done|by apply Hr|by left|done|done|]. cbn. set_solver.
Qed.
Lemma inv_exit w p : inv w ->
  inv (MkWorld (w_now w) (w_store w) (kill_run p <$> w_runs w) (filter (fun m => m.1.1 <> p) (w_marks w)) (w_live w ∖ {[p]})).
Proof.
  intros [Hk Hr]. set (w' := MkWorld _ _ _ _ _). assert (later w w') as Hl.
  { split; [cbn; lia|]. intros r x Hx. exists (kill_run p x). split; [cbn; by rewrite lookup_fmap, Hx|]. unfold kill_run. case_bool_decide as E; by subst. }
  split; [by eapply known_in_later|]. intros r x. cbn [w_runs w']. rewrite lookup_fmap. destruct (w_runs w !! r) as [y|] eqn:Hy; [|done]. intros [= <-].
  unfold kill_run. case_bool_decide as E; [done|]. eapply run_inv_later; [done|by apply Hr|by left|done| |].
  - cbn. rewrite map_lookup_filter. destruct (w_marks w !! (r_process y, r)); [|done]. cbn. by rewrite option_guard_True.
  - cbn. set_solver.
Qed.

Definition forces (a : Action) : bool := match a with Start _ _ force => force | _ => false end.
Lemma step_inv w a w' : inv w -> forces a = false -> step to parse w a = Some w' -> inv w'.
Proof.
  intros Hi Hf. destruct a as [r p force|r reply alive|r|r|r|p|p|d]; cbn in Hf |- *.
  - destruct (bool_decide (p ∈ w_live w)) eqn:Hp; [|done]. destruct (is_u32 (p_pid p)) eqn:Hu; [|done]. cbn.
    destruct (w_runs w !! r) eqn:Hx; [done|]. cbn. subst force. intros [= <-]. apply inv_start; [done|done|by apply bool_decide_eq_true in Hp| |].
    + cbn. unfold lease_for. cbn. split_and!; [done|by destruct p|done|done].
    + intros w' En. cbn. unfold lease_for. by rewrite En.
  - destruct (w_runs w !! r) as [[p ph]|] eqn:Hx; [|done]. cbn [r_phase r_process]. destruct (honest w ph alive) eqn:Hh; [|done].
    destruct (take_turn _ _ _ _ _ _ _ _) as [w1|] eqn:Et; [intros [= <-]; by eapply take_inv|]. by eapply guard_inv.
  - destruct (w_runs w !! r) as [[p [| | | | | |g| | | | | | | |]]|] eqn:Hx; try done. destruct (g_lost g) eqn:Hl; [done|].
    destruct (is_some _); [done|]. intros [= <-]. by apply inv_timer.
  - destruct (w_runs w !! r) as [[p [| | | | | |g| | | | | | | |]]|] eqn:Hx; try done. intros [= <-]. pose proof Hi as [_ Hr].
    destruct (Hr _ _ Hx) as [[Hg _] _]. by eapply inv_move.
  - destruct (w_runs w !! r) as [[p [| | | | | |g| | | | | | | |]]|] eqn:Hx; try done. intros [= <-]. pose proof Hi as [_ Hr].
    destruct (Hr _ _ Hx) as [[Hg _] _]. by eapply inv_quit.
  - intros [= <-]. apply inv_world; [done|lia|set_solver].
  - intros [= <-]. by apply inv_exit.
  - destruct (Z.leb_spec 0 d); [|done]. intros [= <-]. apply inv_world; [done|lia|done].
Qed.
Lemma steps_inv w l w' : inv w -> Forall (fun a => forces a = false) l -> steps to parse w l = Some w' -> inv w'.
Proof.
  intros Hi Hf. revert w Hi. induction Hf as [|a l Ha _ IH]; intros w Hi; cbn; [by intros [= <-]|].
  destruct (step to parse w a) as [w1|] eqn:E; [|done]. cbn. apply IH. by eapply step_inv.
Qed.

Lemma inv_initial cell now live : lease_in parse cell = None -> inv (MkWorld now cell ∅ ∅ live).
Proof. intros Hc. split; [intros l E; cbn [w_store] in E; rewrite Hc in E; done|apply map_Forall_empty]. Qed.
Lemma inv_exclusive w r1 r2 : inv w -> active w r1 -> active w r2 -> r1 = r2.
Proof.
  intros [_ Hr] (p1 & g1 & H1 & Hl1 & Hn1) (p2 & g2 & H2 & Hl2 & Hn2). destruct (Hr _ _ H1) as [[_ B1] _]. destruct (Hr _ _ H2) as [[_ B2] _].
  destruct (B1 Hl1 Hn1) as (l1 & E1 & <- & _). destruct (B2 Hl2 Hn2) as (l2 & E2 & <- & _). congruence.
Qed.
End Exclusion.

(** C13: At most one run of a row is active. Whatever the order in which any number of
    runs in any number of processes take, renew, lose and give up the lease, whichever
    calls of the store fail or lose their reply, and whenever processes end and their ids
    are used again, two runs that hold an unexpired lease and were not told to stop are
    the same run, as long as no take is forced. *)
Theorem one_active_run to_rfc3339 parse_rfc3339 cell now live actions w r1 r2 :
  Rfc3339 to_rfc3339 parse_rfc3339 -> lease_in parse_rfc3339 cell = None -> Forall (fun a => forces a = false) actions ->
  steps to_rfc3339 parse_rfc3339 (MkWorld now cell ∅ ∅ live) actions = Some w ->
  active w r1 -> active w r2 -> r1 = r2.
Proof.
  intros HR Hc Hf Hs. apply (inv_exclusive parse_rfc3339). apply (steps_inv to_rfc3339 parse_rfc3339 _ actions _ (inv_initial parse_rfc3339 cell now live Hc) Hf Hs).
Qed.

(** ** A take that nothing disturbs *)

Section Solo.
Context (to : Z -> string) (parse : string -> option Z).

Definition turns (r : string) (alive : option bool) (n : nat) : list Action := repeat (Turn r Done alive) n.
Definition ends (w : option World) (r : string) (ph : Phase) (cell : option Value) : Prop :=
  exists w', w = Some w' /\ r_phase <$> w_runs w' !! r = Some ph /\ w_store w' = cell.

Lemma classify_unmarked p h alive l q r : l_run_id l <> r -> classify_holder p (set_held_here q r true h) alive l = classify_holder p h alive l.
Proof. intros Hne. unfold classify_holder, held_here. by rewrite set_held_here_other. Qed.
Lemma blocking_other r now cell held : blocking parse r now cell = Some held -> l_run_id held <> r.
Proof.
  unfold blocking. destruct (lease_in parse cell) as [l|]; [|done]. unfold string_eqb. case_bool_decide; cbn; [done|]. destruct (is_live l now); [|done]. by intros [= <-].
Qed.

Lemma steps_take w r p ph alive w' l : w_runs w !! r = Some (MkRun p ph) -> honest w ph alive = true ->
  take_turn to parse r p Done alive ph w = Some w' -> steps to parse w (Turn r Done alive :: l) = steps to parse w' l.
Proof. intros Hx Hh Ht. cbn [steps step]. rewrite Hx. cbn [r_phase r_process]. by rewrite Hh, Ht. Qed.
Lemma steps_start w r p l : p ∈ w_live w -> is_u32 (p_pid p) = true -> w_runs w !! r = None ->
  steps to parse w (Start r p false :: l) = steps to parse (mark r p true (set_run r p (Reading (lease_new r p (w_now w)) 0) w)) l.
Proof. intros Hp Hu Hx. cbn [steps step]. by rewrite bool_decide_eq_true_2, Hu, Hx by done. Qed.

(** The take up to its decision. *)
Definition decided (w : World) (r : string) (p : Process) : World :=
  let lease := lease_new r p (w_now w) in
  let w1 := set_run r p (Deciding lease 0 (w_store w)) (mark r p true (set_run r p (Reading lease 0) w)) in
  set_run r p (match blocking parse r (w_now w) (w_store w) with
               | Some held => Waiting lease 0 (w_store w) held (w_now w + LOCAL_TEARDOWN_WAIT)
               | None => Writing lease 0 (w_store w)
               end) w1.
Lemma steps_decided w r p alive l : p ∈ w_live w -> is_u32 (p_pid p) = true -> w_runs w !! r = None ->
  steps to parse w (Start r p false :: Turn r Done alive :: Turn r Done alive :: l) = steps to parse (decided w r p) l.
Proof.
  intros Hp Hu Hx. rewrite steps_start by done.
  erewrite steps_take; [|cbn; apply lookup_insert_eq|by destruct alive as [[]|]|reflexivity].
  erewrite steps_take; [|cbn; apply lookup_insert_eq|by destruct alive as [[]|]|]; [reflexivity|].
  cbn [take_turn get_call w_now w_store mark set_run]. unfold decided. by destruct (blocking parse r (w_now w) (w_store w)).
Qed.
(** The conditional write, when nothing was written since. *)
Lemma steps_written w r p lease n alive : w_runs w !! r = Some (MkRun p (Writing lease n (w_store w))) ->
  ends (steps to parse w [Turn r Done alive]) r (Running (spawn_guard to lease)) (Some (lease_value to lease)).
Proof.
  intros Hx. eexists. split.
  - erewrite steps_take; [|exact Hx|by destruct alive as [[]|]|]; [reflexivity|].
    cbn [take_turn]. unfold compare_and_put. rewrite bool_decide_eq_true_2 by done. reflexivity.
  - cbn. by rewrite lookup_insert_eq.
Qed.

Lemma steps_refused w r p lease n current held deadline alive : let ph := Waiting lease n current held deadline in
  w_runs w !! r = Some (MkRun p ph) -> honest w ph alive = true ->
  match classify_holder p (w_marks w) alive held with Gone => False | ThisProcess => deadline <= w_now w | _ => True end ->
  ends (steps to parse w [Turn r Done alive]) r (Refused held) (w_store w).
Proof.
  intros ph Hx Hh Hc. exists (step_down r p (Refused held) w). split.
  - erewrite steps_take; [|exact Hx|done|]; [reflexivity|]. cbn [take_turn ph]. destruct (classify_holder p (w_marks w) alive held); try done.
    by rewrite (proj2 (Z.ltb_ge _ _)).
  - cbn. by rewrite lookup_insert_eq.
Qed.

(** A take with no other step in between. It refuses exactly when another run's live
    lease stands in the store and its holder is not known to be gone; otherwise the
    store holds the new lease and the run has its guard. A run of this process that is
    being torn down is waited for. *)
Theorem undisturbed_take w r p alive : p ∈ w_live w -> is_u32 (p_pid p) = true -> w_runs w !! r = None ->
  let lease := lease_new r p (w_now w) in
  let begin n := steps to parse w (Start r p false :: turns r alive n) in
  match blocking parse r (w_now w) (w_store w) with
  | None => ends (begin 3%nat) r (Running (spawn_guard to lease)) (Some (lease_value to lease))
  | Some held =>
      (alive = Some false -> holder_process held ∉ w_live w) ->
      match classify_holder p (w_marks w) alive held with
      | Gone => ends (begin 4%nat) r (Running (spawn_guard to lease)) (Some (lease_value to lease))
      | ThisProcess => ends (steps to parse w (Start r p false :: turns r alive 3 ++ Tick LOCAL_TEARDOWN_WAIT :: turns r alive 1)) r (Refused held) (w_store w)
      | _ => ends (begin 3%nat) r (Refused held) (w_store w)
      end
  end.
Proof.
  intros Hp Hu Hx lease begin. subst begin. cbn [turns repeat app]. rewrite !steps_decided by done.
  pose proof (blocking_other r (w_now w) (w_store w)) as Hne. unfold decided. fold lease.
  destruct (blocking parse r (w_now w) (w_store w)) as [held|] eqn:Hb; [|apply (steps_written _ r p lease 0); cbn; apply lookup_insert_eq].
  intros Hh. set (ph := Waiting _ _ _ _ _). set (w1 := set_run r p ph _).
  assert (w_runs w1 !! r = Some (MkRun p ph)) as Hw1 by apply lookup_insert_eq.
  assert (forall w', w_live w' = w_live w -> honest w' ph alive = true) as Hhon.
  { intros w' El. unfold honest, ph. destruct alive as [[|]|]; [done| |done]. rewrite El, bool_decide_eq_false_2; [done|by apply Hh]. }
  assert (classify_holder p (w_marks w1) alive held = classify_holder p (w_marks w) alive held) as Hc by (apply classify_unmarked; auto).
  destruct (classify_holder p (w_marks w) alive held) eqn:Hcl.
  - erewrite steps_take; [|exact Hw1|by apply Hhon|cbn [take_turn ph]; rewrite Hc, (proj2 (Z.ltb_lt _ _)); [reflexivity|]].
    2:{ unfold LOCAL_TEARDOWN_WAIT, seconds. cbn. lia. }
    change (steps to parse w1 (Tick ?d :: ?l)) with (steps to parse (MkWorld (w_now w1 + d) (w_store w1) (w_runs w1) (w_marks w1) (w_live w1)) l).
    match goal with |- ends (steps _ _ ?v _) _ _ _ => apply (steps_refused v r p lease 0 (w_store w) held (w_now w + LOCAL_TEARDOWN_WAIT)) end;
      [exact Hw1|by apply Hhon|]. cbn [w_marks w_now]. by rewrite Hc.
  - apply (steps_refused w1 r p lease 0 (w_store w) held (w_now w + LOCAL_TEARDOWN_WAIT)); [exact Hw1|by apply Hhon|]. by rewrite Hc.
  - erewrite steps_take; [|exact Hw1|by apply Hhon|cbn [take_turn ph]; rewrite Hc; reflexivity].
    apply (steps_written _ r p lease 0). apply lookup_insert_eq.
  - apply (steps_refused w1 r p lease 0 (w_store w) held (w_now w + LOCAL_TEARDOWN_WAIT)); [exact Hw1|by apply Hhon|]. by rewrite Hc.
Qed.
End Solo.

(** A run whose lease was replaced stops at its next renewal. *)
Theorem displaced_run_is_told to parse w r p g alive : w_runs w !! r = Some (MkRun p (Running g)) -> g_lost g = false -> g_pending g = None ->
  w_store w <> Some (g_last g) ->
  exists w' g', steps to parse w [Timer r; Turn r Done alive] = Some w' /\ w_runs w' !! r = Some (MkRun p (Running g')) /\
    g_lost g' = true /\ w_store w' = w_store w.
Proof.
  intros Hx Hl Hn Hs. set (next := with_expiry (g_lease g) (expiry (w_now w))). exists (set_run r p (Running (MkLeaseGuard next (g_last g) (g_held_until g) None true))
    (set_run r p (Running (MkLeaseGuard (g_lease g) (g_last g) (g_held_until g) (Some next) false)) w)). eexists. split_and!; [|apply lookup_insert_eq|done|done].
  cbn [steps step]. rewrite Hx, Hl, Hn. cbn [orb is_some mbind option_bind w_runs set_run]. rewrite lookup_insert_eq. cbn [r_phase r_process].
  replace (honest _ _ _) with true by (by destruct alive as [[]|]). cbn [take_turn guard_turn g_pending]. unfold renew, compare_and_put. cbn [g_last w_store set_run].
  rewrite bool_decide_eq_false_2 by done. cbn. by destruct w.
Qed.

(** ** Concrete runs *)

Fixpoint bits (n : positive) : string :=
  match n with xH => EmptyString | xO n => "0" +:+ bits n | xI n => "1" +:+ bits n end.
Fixpoint unbits (s : string) : positive :=
  match s with EmptyString => xH | String c s => if Ascii.eqb c (Ascii.ascii_of_nat 48) then xO (unbits s) else xI (unbits s) end.
Definition demo_instant (t : Z) : string := match t with Z0 => EmptyString | Zpos n => "0" +:+ bits n | Zneg n => "1" +:+ bits n end.
Definition demo_read (s : string) : option Z :=
  match s with EmptyString => Some 0 | String c s => Some (if Ascii.eqb c (Ascii.ascii_of_nat 48) then Zpos (unbits s) else Zneg (unbits s)) end.
#[local] Instance demo_rfc3339 : Rfc3339 demo_instant demo_read.
Proof.
  assert (forall n, unbits (bits n) = n) as H by (intros n; induction n as [n IH|n IH|]; [change (xI (unbits (bits n)) = xI n)|change (xO (unbits (bits n)) = xO n)|done]; by rewrite IH).
  intros [|n|n]; [done|change (Some (Zpos (unbits (bits n))) = Some (Zpos n))|change (Some (Zneg (unbits (bits n))) = Some (Zneg n))]; by rewrite H.
Qed.

Definition here (pid : Z) : Process := MkProcess (Some "db-1") (Some "pid:[1]") pid.
(** Run [a] takes the lease; run [b] on the same host, told that the holder is alive, is refused. *)
Definition demo_takes : list Action := [Spawn (here 1); Spawn (here 2); Start "a" (here 1) false] ++ turns "a" None 3
  ++ [Start "b" (here 2) false] ++ turns "b" (Some true) 3 ++ [Timer "a"; Turn "a" Done None].

Definition activeb (w : World) (r : string) : bool :=
  match w_runs w !! r with Some (MkRun _ (Running g)) => negb (g_lost g) && (w_now w <? g_held_until g) | _ => false end.
Lemma activeb_active w r : activeb w r = true -> active w r.
Proof.
  unfold activeb, active. destruct (w_runs w !! r) as [[p [| | | | | |g| | | | | | | |]]|]; try done.
  intros [H1%negb_true_iff H2%Z.ltb_lt]%andb_true_iff. eauto 10.
Qed.

Lemma one_active_run_witness :
  match steps demo_instant demo_read (MkWorld 0 None ∅ ∅ ∅) demo_takes with
  | Some w => active w "a" /\ forall r, active w r -> r = "a"
  | None => False
  end.
Proof.
  assert ((fun w => activeb w "a") <$> steps demo_instant demo_read (MkWorld 0 None ∅ ∅ ∅) demo_takes = Some true) as Ha by (vm_compute; reflexivity).
  destruct (steps demo_instant demo_read (MkWorld 0 None ∅ ∅ ∅) demo_takes) as [w|] eqn:E; [|discriminate].
  injection Ha as Ha%activeb_active.
  split; [exact Ha|]. intros r Hr.
  apply (one_active_run demo_instant demo_read None 0 ∅ demo_takes w r "a" demo_rfc3339 eq_refl); [|exact E|exact Hr|exact Ha].
  repeat constructor.
Defined.

(** Run [a] dies; run [b] on its host takes the lease over at once, a run elsewhere after its time. *)
Example dead_run_is_taken_over :
  let dies := [Spawn (here 1); Spawn (here 2); Start "a" (here 1) false] ++ turns "a" None 3 ++ [Exit (here 1)] in
  let phase w r := r_phase <$> w_runs w !! r in
  match steps demo_instant demo_read (MkWorld 0 None ∅ ∅ ∅) (dies ++ [Start "b" (here 2) false] ++ turns "b" (Some false) 4) with
  | Some w => match phase w "b" with Some (Running _) => True | _ => False end
  | None => False
  end.
Proof. vm_compute. exact I. Qed.

(** A renewal that was written but whose reply was lost: the next one finds a value it
    does not know and the run is stopped, though no other run ever took the lease. *)
Example lost_reply_stops_the_holder :
  match steps demo_instant demo_read (MkWorld 0 None ∅ ∅ ∅)
    ([Spawn (here 1); Start "a" (here 1) false] ++ turns "a" None 3
     ++ [Tick (seconds 20); Timer "a"; Turn "a" ReplyLost None; Tick (seconds 20); Timer "a"; Turn "a" Done None]) with
  | Some w =>
      l_run_id <$> lease_in demo_read (w_store w) = Some "a" /\ size (w_runs w) = 1%nat /\
      match r_phase <$> w_runs w !! "a" with Some (Running g) => g_lost g = true /\ w_now w < g_held_until g | _ => False end
  | None => False
  end.
Proof. vm_compute. done. Qed.
