(* ===== verification/Transform.v ===== *)
(** Record transforms: crates/core/src/transform.rs, with the two helpers of
    crates/core/src/util.rs they use.

    Parameters: the regex engine, the Unicode tables, SHA-256, BLAKE3 and
    base64, the JSON printer and parser, chrono's RFC 3339 reader, and the
    printer and parser of floating-point numbers. *)
From S2P Require Import Prelude Errors Float64 Json Text Drift Quality Contract WriteMode.
From Stdlib Require Import Ascii.

Local Open Scope Z_scope.
Local Open Scope result_scope.

Class TransformEnv := {
  Regex : Type;
  regex_new : string -> result Regex string;
  replace_all : Regex -> string -> string -> string;
  char_is_alphanumeric : string -> bool;
  char_is_uppercase : string -> bool;
  char_is_lowercase : string -> bool;
  char_to_uppercase : string -> string;
  char_to_lowercase : string -> string;
  str_to_uppercase : string -> string;
  str_to_lowercase : string -> string;
  sha256 : string -> list Z;
  blake3 : string -> list Z;
  base64 : list Z -> string;
  json_str : string -> string;
  float_json : f64 -> string;
  json_parse : string -> result Value string;
  normalize_rfc3339 : string -> result string string;
  parse_float : string -> option f64;
  float_str : f64 -> string;
  parse_int_error : string -> string;
  debug_str : string -> string;
}.

(** ** Text *)

(** The characters of a UTF-8 text, each as its bytes. *)
Definition utf8_len (c : ascii) : nat :=
  let b := byte_of c in if b <? 128 then 1%nat else if b <? 224 then 2%nat else if b <? 240 then 3%nat else 4%nat.
Fixpoint str_drop (n : nat) (s : string) : string :=
  match n, s with S n, String _ s => str_drop n s | _, _ => s end.
Fixpoint str_take (n : nat) (s : string) : string :=
  match n, s with S n, String c s => String c (str_take n s) | _, _ => EmptyString end.
Fixpoint chars_fuel (fuel : nat) (s : string) : list string :=
  match fuel, s with
  | S fuel, String c _ => str_take (utf8_len c) s :: chars_fuel fuel (str_drop (utf8_len c) s)
  | _, _ => []
  end.
Definition chars (s : string) : list string := chars_fuel (String.length s) s.
Definition is_empty_str (s : string) : bool := match s with EmptyString => true | _ => false end.

(** [char::is_whitespace] and [str::to_ascii_lowercase]. *)
Definition char_is_whitespace (c : string) : bool :=
  match c with
  | String a EmptyString => ws1 a
  | String a (String b EmptyString) => ws2 a b
  | String a (String b (String c EmptyString)) => ws3 a b c
  | _ => false
  end.

(** [str::split] by a non-empty pattern. [skip] bytes of a match are left. *)
Fixpoint split_go (d s : string) (skip : nat) (cur : string) : list string :=
  match s with
  | EmptyString => [cur]
  | String c r =>
      match skip with
      | S skip => split_go d r skip cur
      | O => if starts_with d s then cur :: split_go d r (String.length d - 1) EmptyString
             else split_go d r 0 (cur +:+ String c EmptyString)
      end
  end.
Definition split_str (d s : string) : list string := split_go d s 0 EmptyString.

(** ** The transforms *)

Inductive CastType := CastInt | CastFloat | CastBool | CastString | CastTimestamp.
Inductive CastOnError := CastError | CastNull | CastSkip.
Inductive KeyCaseMode := Snake | Camel | Pascal | Kebab | ScreamingSnake | Dot.
Inductive KeyCollision := CollisionError | CollisionSuffix.
Inductive ValueCaseMode := Lower | Upper | Trim | Title | Capitalize.
Inductive HashAlgorithm := Sha256 | Blake3.
Inductive HashEncoding := Hex | Base64.
Inductive JsonParseOnError := ParseKeep | ParseNull | ParseError.
Inductive LookupOnMissing := LookupNull | LookupKeep | LookupError.

#[export] Instance KeyCollision_eq_dec : EqDecision KeyCollision.
Proof. solve_decision. Defined.

Section Transform.
Context `{TransformEnv}.

(** [enum RecordTransform]; hash maps are lists of entries with distinct keys. *)
Inductive RecordTransform :=
| RFlatten (separator : string)
| RRenameKeys (pattern replacement : string)
| RKeysCase (mode : KeyCaseMode) (on_collision : KeyCollision) (suffix_keys : list string)
| RSelect (fields : list string)
| RDrop (fields : list string)
| RSet (values : list (string * Value))
| RRenameField (fields : list (string * string))
| RCast (fields : list (string * CastType)) (on_error : CastOnError)
| RRedact (fields : list string) (mask : Value)
| RValueCase (fields : list string) (mode : ValueCaseMode)
| RSpellSymbols (extra : list (string * string)) (separator : string)
| RHash (fields : list string) (algorithm : HashAlgorithm) (encoding : HashEncoding) (salt into : option string)
| RJsonParse (fields : list string) (on_error : JsonParseOnError) (into : option string)
| RCoalesce (field : string) (default : option Value) (from : list string) (treat_empty_string_as_null : bool)
| RSplit (field delimiter : string) (trim : bool) (into : option string)
| RJoin (field delimiter : string) (into : option string)
| RJsonEncode (fields : list string)
| RLookup (reference : list (list (string * Value))) (on_record on_ref : string) (add : list (string * string))
    (on_missing : LookupOnMissing)
| RCustom (f : Value -> Value).

(** [enum CompiledTransform]. *)
Inductive CompiledTransform :=
| Flatten (separator : string)
| RenameKeys (re : Regex) (replacement : string)
| KeysCase (mode : KeyCaseMode) (on_collision : KeyCollision) (assignments : gset string)
| Select (fields : list string)
| DropFields (fields : list string)
| SetFields (values : list (string * Value))
| RenameField (fields : list (string * string))
| Cast (fields : list (string * CastType)) (on_error : CastOnError)
| Redact (fields : list string) (mask : Value)
| ValueCase (fields : list string) (mode : ValueCaseMode)
| SpellSymbols (replacements : list (string * string)) (separator : string)
| Hash (fields : list string) (algorithm : HashAlgorithm) (encoding : HashEncoding) (salt into : option string)
| JsonParse (fields : list string) (on_error : JsonParseOnError) (into : option string)
| Coalesce (field : string) (default : option Value) (from : list string) (treat_empty_string_as_null : bool)
| Split (field delimiter : string) (trim : bool) (into : option string)
| Join (field delimiter : string) (into : option string)
| JsonEncode (fields : list string)
| Lookup (index : gmap string (list (string * Value))) (on_record : string) (add : list (string * string))
    (on_missing : LookupOnMissing)
| CustomTransform (f : Value -> Value).

Definition transform_err {A} (m : string) : result A FaucetError := Err (Transform m).
Definition config_fail {A} (m : string) : result A FaucetError := Err (Config m).

(** *** Flatten *)

(** [flatten_into], [flatten]. *)
Definition insert_flat (prefix separator : string) (v : Value) (out : list (string * Value))
  : result (list (string * Value)) FaucetError :=
  match assoc prefix out with
  | Some _ => transform_err ("flatten produced a duplicate key '" +:+ prefix +:+ "'; two distinct fields collapse to the same flattened key (separator '" +:+ separator +:+ "')")
  | None => Ok (assoc_insert prefix v out)
  end.
Definition flat_entries (go : Value -> string -> list (string * Value) -> result (list (string * Value)) FaucetError)
  (prefix separator : string) : list (string * Value) -> list (string * Value) -> result (list (string * Value)) FaucetError :=
  fix entries map out :=
    match map with
    | [] => Ok out
    | (k, x) :: map =>
        let key := if is_empty_str prefix then k else prefix +:+ separator +:+ k in
        let? out := go x key out in
        entries map out
    end.
Fixpoint flatten_into (separator : string) (v : Value) (prefix : string) (out : list (string * Value))
  : result (list (string * Value)) FaucetError :=
  match v with
  | VObject map =>
      if negb (is_nil map) || is_empty_str prefix then
        flat_entries (flatten_into separator) prefix separator map out
      else insert_flat prefix separator v out
  | _ => insert_flat prefix separator v out
  end.
Definition flatten (v : Value) (separator : string) : result Value FaucetError :=
  match v with
  | VObject _ => let? out := flatten_into separator v EmptyString [] in Ok (VObject out)
  | _ => Ok v
  end.

(** *** Rewriting keys *)

(** The recursion [rename_keys], [keys_case] and [spell_symbols] share: every
    object is rebuilt under new names, and a name taken twice fails the record.
    [keys_case] looks for the collision before it descends into the value
    ([check_first]); [sources] holds the source key of each name taken. *)
Definition lookup_source (k : string) (sources : list (string * string)) : option string :=
  snd <$> List.find (fun e => string_eqb e.1 k) sources.
Definition rekey_entries (go : Value -> result Value FaucetError) (name : string -> string)
  (collision : string -> string -> string -> FaucetError) (check_first : bool) :
  list (string * Value) -> list (string * Value) -> list (string * string) -> result (list (string * Value)) FaucetError :=
  fix entries map out sources :=
    match map with
    | [] => Ok out
    | (k, x) :: map =>
        let taken := lookup_source (name k) sources in
        match check_first, taken with
        | true, Some other => Err (collision (name k) k other)
        | _, _ =>
            let? x := go x in
            match taken with
            | Some other => Err (collision (name k) k other)
            | None => entries map (assoc_insert (name k) x out) ((name k, k) :: sources)
            end
        end
    end.
Definition rekey_items (go : Value -> result Value FaucetError) : list Value -> result (list Value) FaucetError :=
  fix items l :=
    match l with
    | [] => Ok []
    | x :: l => let? x := go x in let? l := items l in Ok (x :: l)
    end.
Fixpoint rekey (name : string -> string) (collision : string -> string -> string -> FaucetError) (check_first : bool)
  (v : Value) : result Value FaucetError :=
  match v with
  | VObject map =>
      let? out := rekey_entries (rekey name collision check_first) name collision check_first map [] [] in
      Ok (VObject out)
  | VArray l => let? out := rekey_items (rekey name collision check_first) l in Ok (VArray out)
  | _ => Ok v
  end.

(** [rename_keys]. *)
Definition rename_keys (v : Value) (re : Regex) (replacement : string) : result Value FaucetError :=
  rekey (fun k => replace_all re k replacement)
    (fun new_k k _ => Transform ("rename_keys produced a duplicate key '" +:+ new_k +:+ "' (from '" +:+ k
       +:+ "'); two distinct keys rename to the same name"))
    false v.

(** [util::tokenize_identifier], with the tokens so far, the current one and
    whether its last character was lower case. *)
Fixpoint tokenize_go (cs : list string) (tokens : list string) (current : string) (prev_was_lower : bool) : list string :=
  let pushed := if is_empty_str current then tokens else tokens ++ [current] in
  match cs with
  | [] => pushed
  | ch :: cs =>
      if char_is_alphanumeric ch then
        if prev_was_lower && char_is_uppercase ch && negb (is_empty_str current)
        then tokenize_go cs (tokens ++ [current]) ch (char_is_lowercase ch)
        else tokenize_go cs tokens (current +:+ ch) (char_is_lowercase ch)
      else tokenize_go cs pushed EmptyString false
  end.
Definition tokenize_identifier (key : string) : list string := tokenize_go (chars key) [] EmptyString false.

(** [capitalize_token], [apply_key_case], [recase_key]. *)
Definition capitalize_token (s : string) : string :=
  match chars (str_to_lowercase s) with
  | [] => EmptyString
  | first :: rest => char_to_uppercase first +:+ concat_all rest
  end.
Definition apply_key_case (tokens : list string) (mode : KeyCaseMode) : string :=
  match mode with
  | Snake => join "_" (str_to_lowercase <$> tokens)
  | ScreamingSnake => join "_" (str_to_uppercase <$> tokens)
  | Kebab => join "-" (str_to_lowercase <$> tokens)
  | Dot => join "." (str_to_lowercase <$> tokens)
  | Camel => match tokens with
             | [] => EmptyString
             | first :: rest => str_to_lowercase first +:+ concat_all (capitalize_token <$> rest)
             end
  | Pascal => concat_all (capitalize_token <$> tokens)
  end.
Definition recase_key (key : string) (mode : KeyCaseMode) : string :=
  match tokenize_identifier key with
  | [] => key
  | tokens => apply_key_case tokens mode
  end.

(** [suffixed_key_name]. *)
Definition suffixed_key_name (recased source : string) : string :=
  let h := fnv1a 14695981039346656037 source in
  recased +:+ "_" +:+ hex_pad 8 (Z.lxor h (Z.shiftr h 32) mod 2 ^ 32) EmptyString.

(** [KeyCaseAssignments::compile]. *)
Fixpoint check_suffix_keys (mode : KeyCaseMode) (keys : list string) : result unit FaucetError :=
  match keys with
  | [] => Ok tt
  | key :: keys =>
      if string_eqb (recase_key key mode) key then
        config_fail ("keys_case: suffix key '" +:+ key +:+ "' is already spelled in the target case, so it keeps the base name; list the other spellings instead")
      else check_suffix_keys mode keys
  end.
Definition compile_assignments (mode : KeyCaseMode) (on_collision : KeyCollision) (suffix_keys : list string)
  : result (gset string) FaucetError :=
  if negb (is_nil suffix_keys) && bool_decide (on_collision <> CollisionSuffix) then
    config_fail "keys_case: `suffix_keys` needs `on_collision: suffix`"
  else let? _ := check_suffix_keys mode suffix_keys in Ok (list_to_set suffix_keys).

(** [keys_case]: the name a key takes, and the recursion. *)
Definition mode_str (m : KeyCaseMode) : string :=
  match m with
  | Snake => "Snake" | Camel => "Camel" | Pascal => "Pascal" | Kebab => "Kebab"
  | ScreamingSnake => "ScreamingSnake" | Dot => "Dot"
  end.
Definition final_key (mode : KeyCaseMode) (on_collision : KeyCollision) (assignments : gset string) (k : string) : string :=
  let r := recase_key k mode in
  if bool_decide (on_collision = CollisionSuffix) && negb (string_eqb r k) && bool_decide (k ∈ assignments)
  then suffixed_key_name r k else r.
Definition keys_case_collision (mode : KeyCaseMode) (on_collision : KeyCollision) (final_key k other : string) : FaucetError :=
  Transform match on_collision with
    | CollisionError => "keys_case produced a duplicate key '" +:+ final_key +:+ "'; two distinct keys re-case to the same name under mode " +:+ mode_str mode +:+ " (set on_collision: suffix and list all but one of them in suffix_keys)"
    | CollisionSuffix => "keys_case produced a duplicate key '" +:+ final_key +:+ "' from source keys '" +:+ other +:+ "' and '" +:+ k +:+ "'; list all but one of the keys that re-case to it in suffix_keys"
    end.
Definition keys_case (v : Value) (mode : KeyCaseMode) (on_collision : KeyCollision) (assignments : gset string)
  : result Value FaucetError :=
  rekey (final_key mode on_collision assignments) (keys_case_collision mode on_collision) true v.

(** [default_symbol_map], [spell_symbols_in_key], [spell_symbols]. *)
Definition default_symbol_map : list (string * string) :=
  [("%", "percent"); ("#", "number"); ("$", "dollar"); ("&", "and"); ("@", "at"); ("+", "plus"); ("*", "star");
   ("=", "equals"); ("<", "lt"); (">", "gt"); ("/", "slash"); ("\", "backslash"); ("|", "pipe"); ("^", "caret");
   ("~", "tilde")].
Fixpoint spell_fuel (fuel : nat) (replacements : list (string * string)) (separator key : string) : string :=
  match fuel, key with
  | S fuel, String c _ =>
      match List.find (fun e => negb (is_empty_str e.1) && starts_with e.1 key) replacements with
      | Some (from, to) =>
          separator +:+ to +:+ separator +:+
          spell_fuel fuel replacements separator (str_drop (String.length from) key)
      | None =>
          str_take (utf8_len c) key +:+ spell_fuel fuel replacements separator (str_drop (utf8_len c) key)
      end
  | _, _ => EmptyString
  end.
Definition spell_symbols_in_key (key : string) (replacements : list (string * string)) (separator : string) : string :=
  spell_fuel (String.length key) replacements separator key.
Definition spell_symbols (v : Value) (replacements : list (string * string)) (separator : string)
  : result Value FaucetError :=
  rekey (fun k => spell_symbols_in_key k replacements separator)
    (fun new_k _ _ => Transform ("spell_symbols produced a duplicate key '" +:+ new_k
       +:+ "'; two distinct keys expand to the same name"))
    false v.

(** *** Fields *)

(** [select_fields], [drop_fields], [set_fields], [redact_fields]. *)
Definition on_object (f : list (string * Value) -> list (string * Value)) (v : Value) : Value :=
  match v with VObject m => VObject (f m) | _ => v end.
Definition select_fields (v : Value) (fields : list string) : Value :=
  on_object (fun m => foldl (fun out f => match assoc f m with Some x => assoc_insert f x out | None => out end) [] fields) v.
Definition drop_fields (v : Value) (fields : list string) : Value :=
  on_object (fun m => foldl (fun m f => assoc_remove f m) m fields) v.
Definition set_fields (v : Value) (values : list (string * Value)) : Value :=
  on_object (fun m => foldl (fun m e => assoc_insert e.1 e.2 m) m values) v.
Definition redact_fields (v : Value) (fields : list string) (mask : Value) : Value :=
  on_object (fun m => foldl (fun m f => match assoc f m with Some _ => assoc_insert f mask m | None => m end) m fields) v.

(** [rename_field]: the renames that apply, their validation, and the move. *)
Definition contains_key (k : string) (m : list (string * Value)) : bool :=
  match assoc k m with Some _ => true | None => false end.
Fixpoint check_renames (m : list (string * Value)) (sources seen : list string) (renames : list (string * string))
  : result unit FaucetError :=
  match renames with
  | [] => Ok tt
  | (from, to) :: renames =>
      if mem to seen then
        transform_err ("rename_field: two fields rename to the same target key '" +:+ to +:+ "'")
      else if contains_key to m && negb (mem to sources) then
        transform_err ("rename_field: target key '" +:+ to +:+ "' already exists on the record (renaming from '" +:+ from +:+ "')")
      else check_renames m sources (to :: seen) renames
  end.
Fixpoint stage_renames (m : list (string * Value)) (renames : list (string * string))
  : list (string * Value) * list (string * Value) :=
  match renames with
  | [] => (m, [])
  | (from, to) :: renames =>
      let v := default Null (assoc from m) in
      let '(m, staged) := stage_renames (assoc_remove from m) renames in
      (m, (to, v) :: staged)
  end.
Definition applicable (m : list (string * Value)) (fields : list (string * string)) : list (string * string) :=
  List.filter (fun e => negb (string_eqb e.1 e.2) && contains_key e.1 m) fields.
Definition rename_field (v : Value) (fields : list (string * string)) : result Value FaucetError :=
  match v with
  | VObject m =>
      let renames := applicable m fields in
      let? _ := check_renames m (renames.*1) [] renames in
      let '(m, staged) := stage_renames m renames in
      Ok (VObject (foldl (fun m e => assoc_insert e.1 e.2 m) m staged))
  | _ => Ok v
  end.

(** [util::canonical_json], with serde_json's text of strings and floats. *)
Notation json_text := (canonical_json json_str float_json).

(** [cast_value]. *)
Definition TWO_63 : f64 := f64_of_Z (2 ^ 63).
Definition f64_opp (f : f64) : f64 := SpecFloat.SFopp f.
Definition number_from_f64 (f : f64) : option Value := if f64_is_finite f then Some (VNumber (Float f)) else None.
Definition value_type_name (v : Value) : string :=
  match v with
  | Null => "null" | VBool _ => "bool" | VNumber _ => "number" | VString _ => "string"
  | VArray _ => "array" | VObject _ => "object"
  end.
Definition cast_int (v : Value) : result Value string :=
  match v with
  | VNumber n =>
      match num_i64 n with
      | Some i => Ok (of_i64 i)
      | None =>
          let f := num_f64 n in
          if f64_integral f && f64_le (f64_opp TWO_63) f && f64_lt f TWO_63 then Ok (of_i64 (f64_to_i64 f))
          else Err ("float '" +:+ float_str f +:+ "' is not a whole number representable as i64")
      end
  | VString s =>
      match parse_i64 (trim s) with
      | Some i => Ok (of_i64 i)
      | None => Err ("'" +:+ s +:+ "' is not an integer: " +:+ parse_int_error (trim s))
      end
  | VBool b => Ok (of_i64 (Z.b2z b))
  | Null => Err "null cannot be cast to int"
  | VArray _ | VObject _ => Err "composite values cannot be cast to int"
  end.
Definition cast_float (v : Value) : result Value string :=
  match v with
  | VNumber n => match number_from_f64 (num_f64 n) with
                 | Some v => Ok v
                 | None => Err ("number '" +:+ number_str float_json n +:+ "' is not representable as f64")
                 end
  | VString s => match parse_float (trim s) ≫= number_from_f64 with
                 | Some v => Ok v
                 | None => Err ("'" +:+ s +:+ "' is not a float")
                 end
  | VBool b => Ok (VNumber (Float (if b then f64_one else f64_zero)))
  | Null => Err "null cannot be cast to float"
  | VArray _ | VObject _ => Err "composite values cannot be cast to float"
  end.
Definition cast_bool (v : Value) : result Value string :=
  match v with
  | VBool b => Ok (VBool b)
  | VNumber n =>
      match num_i64 n with
      | Some i => if i =? 0 then Ok (VBool false) else if i =? 1 then Ok (VBool true)
                  else Err ("integer " +:+ i64_str i +:+ " is not 0 or 1")
      | None => Err ("number '" +:+ number_str float_json n +:+ "' is not 0 or 1")
      end
  | VString s =>
      let t := string_lower (trim s) in
      if mem t ["true"; "1"; "yes"; "y"] then Ok (VBool true)
      else if mem t ["false"; "0"; "no"; "n"] then Ok (VBool false)
      else Err ("'" +:+ t +:+ "' is not a recognised boolean")
  | Null => Err "null cannot be cast to bool"
  | VArray _ | VObject _ => Err "composite values cannot be cast to bool"
  end.
Definition cast_string (v : Value) : result Value string :=
  match v with
  | VString s => Ok (VString s)
  | VNumber n => Ok (VString (number_str float_json n))
  | VBool b => Ok (VString (bool_str b))
  | Null => Err "null cannot be cast to string"
  | VArray _ | VObject _ => Err "composite values cannot be cast to string"
  end.
Definition cast_value (v : Value) (target : CastType) : result Value string :=
  match target with
  | CastInt => cast_int v
  | CastFloat => cast_float v
  | CastBool => cast_bool v
  | CastString => cast_string v
  | CastTimestamp =>
      match v with
      | VString s => match normalize_rfc3339 s with
                     | Ok t => Ok (VString t)
                     | Err e => Err ("'" +:+ s +:+ "' is not a valid RFC 3339 timestamp: " +:+ e)
                     end
      | other => Err ("cannot cast " +:+ value_type_name other +:+ " to timestamp (expected RFC 3339 string)")
      end
  end.

(** [cast_fields]. *)
Definition cast_type_str (t : CastType) : string :=
  match t with CastInt => "Int" | CastFloat => "Float" | CastBool => "Bool" | CastString => "String"
             | CastTimestamp => "Timestamp" end.
Definition cast_field (on_error : CastOnError) (m : list (string * Value)) (field : string) (target : CastType)
  : result (list (string * Value)) FaucetError :=
  match assoc field m with
  | None => Ok m
  | Some current =>
      match cast_value current target, on_error with
      | Ok v, _ => Ok (assoc_insert field v m)
      | Err msg, CastError =>
          transform_err ("cast: field '" +:+ field +:+ "' to " +:+ cast_type_str target +:+ " failed: " +:+ msg)
      | Err _, CastNull => Ok (assoc_insert field Null m)
      | Err _, CastSkip => Ok m
      end
  end.
Fixpoint cast_all (on_error : CastOnError) (fields : list (string * CastType)) (m : list (string * Value))
  : result (list (string * Value)) FaucetError :=
  match fields with
  | [] => Ok m
  | (field, target) :: fields => let? m := cast_field on_error m field target in cast_all on_error fields m
  end.
Definition cast_fields (v : Value) (fields : list (string * CastType)) (on_error : CastOnError)
  : result Value FaucetError :=
  match v with
  | VObject m => let? m := cast_all on_error fields m in Ok (VObject m)
  | _ => Ok v
  end.

(** [title_case], [capitalize_str], [value_case]. *)
Fixpoint title_go (cs : list string) (at_word_start : bool) : string :=
  match cs with
  | [] => EmptyString
  | ch :: cs =>
      if char_is_whitespace ch then ch +:+ title_go cs true
      else if at_word_start then char_to_uppercase ch +:+ title_go cs false
      else char_to_lowercase ch +:+ title_go cs false
  end.
Definition title_case (s : string) : string := title_go (chars s) true.
Definition capitalize_str (s : string) : string :=
  match chars s with
  | [] => EmptyString
  | first :: rest => char_to_uppercase first +:+ str_to_lowercase (concat_all rest)
  end.
Definition recase_value (mode : ValueCaseMode) (s : string) : string :=
  match mode with
  | Lower => str_to_lowercase s
  | Upper => str_to_uppercase s
  | Trim => trim s
  | Title => title_case s
  | Capitalize => capitalize_str s
  end.
Definition value_case (v : Value) (fields : list string) (mode : ValueCaseMode) : Value :=
  on_object (fun m => foldl (fun m f => match assoc f m with
                                        | Some (VString s) => assoc_insert f (VString (recase_value mode s)) m
                                        | _ => m
                                        end) m fields) v.

(** [hex_encode], [hash_string], [hash_fields]. *)
Fixpoint hex_encode (bytes : list Z) : string :=
  match bytes with
  | [] => EmptyString
  | b :: bytes => String (hex_char (Z.shiftr b 4)) (String (hex_char (Z.land b 15)) (hex_encode bytes))
  end.
Definition hash_string (input : string) (algorithm : HashAlgorithm) (encoding : HashEncoding) (salt : option string)
  : string :=
  let bytes := default EmptyString salt +:+ input in
  let digest := match algorithm with Sha256 => sha256 bytes | Blake3 => blake3 bytes end in
  match encoding with Hex => hex_encode digest | Base64 => base64 digest end.
Definition hash_input (v : Value) : string := match v with VString s => s | _ => json_text v end.
Definition hash_fields (v : Value) (fields : list string) (algorithm : HashAlgorithm) (encoding : HashEncoding)
  (salt into : option string) : Value :=
  on_object (fun m => foldl (fun m field =>
    match assoc field m with
    | None | Some Null => m
    | Some current =>
        assoc_insert (default field into) (VString (hash_string (hash_input current) algorithm encoding salt)) m
    end) m fields) v.

(** [json_encode_fields]. *)
Definition json_encode_fields (v : Value) (fields : list string) : Value :=
  on_object (fun m => foldl (fun m f => match assoc f m with
                                        | Some (VObject _ as x) | Some (VArray _ as x) =>
                                            assoc_insert f (VString (json_text x)) m
                                        | _ => m
                                        end) m fields) v.

(** [value_to_key], [lookup_field]. *)
Definition TWO_53 : f64 := f64_of_Z 9007199254740992.
Definition value_to_key (v : Value) : option string :=
  match v with
  | VString s => Some s
  | Null => None
  | VNumber (Float f) =>
      Some (if f64_integral f && f64_lt (f64_abs f) TWO_53 then i64_str (f64_to_i64 f) else float_json f)
  | other => Some (json_text other)
  end.
Definition lookup_field (v : Value) (index : gmap string (list (string * Value)))
  (on_record : string) (add : list (string * string)) (on_missing : LookupOnMissing) : result Value FaucetError :=
  match v with
  | VObject m =>
      let key := assoc on_record m ≫= value_to_key in
      match key ≫= fun k => index !! k with
      | Some row =>
          Ok (VObject (foldl (fun m e => assoc_insert e.1 (default Null (assoc e.2 row)) m) m add))
      | None =>
          match on_missing with
          | LookupNull => Ok (VObject (foldl (fun m e => assoc_insert e.1 Null m) m add))
          | LookupKeep => Ok v
          | LookupError => transform_err ("lookup: no reference row for " +:+ on_record +:+ "=" +:+ debug_str (default EmptyString key))
          end
      end
  | _ => Ok v
  end.

(** [json_parse_fields]. *)
Fixpoint json_parse_all (on_error : JsonParseOnError) (into : option string) (fields : list string)
  (m : list (string * Value)) : result (list (string * Value)) FaucetError :=
  match fields with
  | [] => Ok m
  | field :: fields =>
      match assoc field m with
      | Some (VString s) =>
          match json_parse s, on_error with
          | Ok parsed, _ => json_parse_all on_error into fields (assoc_insert (default field into) parsed m)
          | Err _, ParseKeep => json_parse_all on_error into fields m
          | Err _, ParseNull => json_parse_all on_error into fields (assoc_insert (default field into) Null m)
          | Err e, ParseError => transform_err ("json_parse: field '" +:+ field +:+ "' is not valid JSON: " +:+ e)
          end
      | _ => json_parse_all on_error into fields m
      end
  end.
Definition json_parse_fields (v : Value) (fields : list string) (on_error : JsonParseOnError) (into : option string)
  : result Value FaucetError :=
  match v with
  | VObject m => let? m := json_parse_all on_error into fields m in Ok (VObject m)
  | _ => Ok v
  end.

(** [is_nullish], [coalesce_field]. *)
Definition is_coalesced (v : option Value) (treat_empty_string_as_null : bool) : bool :=
  match v with
  | None | Some Null => true
  | Some (VString s) => treat_empty_string_as_null && is_empty_str s
  | _ => false
  end.
Fixpoint first_present (m : list (string * Value)) (empty_null : bool) (from : list string) : option Value :=
  match from with
  | [] => None
  | k :: from => if is_coalesced (assoc k m) empty_null then first_present m empty_null from else assoc k m
  end.
Definition coalesce_field (v : Value) (field : string) (dflt : option Value) (from : list string)
  (treat_empty_string_as_null : bool) : Value :=
  on_object (fun m =>
    if is_coalesced (assoc field m) treat_empty_string_as_null then
      match (match dflt with Some d => Some d | None => first_present m treat_empty_string_as_null from end) with
      | Some v => assoc_insert field v m
      | None => m
      end
    else m) v.

(** [split_field], [scalar_to_string], [join_field]. *)
Definition split_field (v : Value) (field delimiter : string) (trimmed : bool) (into : option string) : Value :=
  on_object (fun m =>
    match assoc field m with
    | Some (VString s) =>
        let tidy p := if trimmed then trim p else p in
        let parts := if is_empty_str delimiter then [VString (tidy s)]
                     else map (fun p => VString (tidy p)) (split_str delimiter s) in
        assoc_insert (default field into) (VArray parts) m
    | _ => m
    end) v.
Definition scalar_to_string (v : Value) : string :=
  match v with VString s => s | Null => EmptyString | other => json_text other end.
Definition join_field (v : Value) (field delimiter : string) (into : option string) : Value :=
  on_object (fun m =>
    match assoc field m with
    | Some (VArray arr) => assoc_insert (default field into) (VString (join delimiter (map scalar_to_string arr))) m
    | _ => m
    end) v.

(** ** Compiling and applying *)

(** [HashMap::insert] into the entries, and the longest-first order. *)
Fixpoint entry_insert (k v : string) (m : list (string * string)) : list (string * string) :=
  match m with
  | [] => [(k, v)]
  | (k', v') :: m => if string_eqb k k' then (k', v) :: m else (k', v') :: entry_insert k v m
  end.
Fixpoint insert_longest (e : string * string) (l : list (string * string)) : list (string * string) :=
  match l with
  | [] => [e]
  | x :: l => if (String.length x.1 <=? String.length e.1)%nat then e :: x :: l else x :: insert_longest e l
  end.
Definition longest_first (l : list (string * string)) : list (string * string) := foldr insert_longest [] l.

(** [compile]. *)
Definition compile (t : RecordTransform) : result CompiledTransform FaucetError :=
  match t with
  | RFlatten separator => Ok (Flatten separator)
  | RRenameKeys pattern replacement =>
      match regex_new pattern with
      | Ok re => Ok (RenameKeys re replacement)
      | Err e => transform_err ("invalid regex '" +:+ pattern +:+ "': " +:+ e)
      end
  | RKeysCase mode on_collision suffix_keys =>
      let? assignments := compile_assignments mode on_collision suffix_keys in
      Ok (KeysCase mode on_collision assignments)
  | RSelect fields => Ok (Select fields)
  | RDrop fields => Ok (DropFields fields)
  | RSet values => Ok (SetFields values)
  | RRenameField fields => Ok (RenameField (sort_by fst fields))
  | RCast fields on_error => Ok (Cast fields on_error)
  | RRedact fields mask => Ok (Redact fields mask)
  | RValueCase fields mode => Ok (ValueCase fields mode)
  | RSpellSymbols extra separator =>
      Ok (SpellSymbols (longest_first (foldl (fun m e => entry_insert e.1 e.2 m) default_symbol_map extra)) separator)
  | RHash fields algorithm encoding salt into =>
      if is_nil fields then config_fail "hash: `fields` must not be empty"
      else if negb (is_none into) && negb (zlen fields =? 1) then
        config_fail "hash: `into` is only valid with exactly one field"
      else Ok (Hash fields algorithm encoding salt into)
  | RJsonParse fields on_error into =>
      if is_nil fields then config_fail "json_parse: `fields` must not be empty"
      else if negb (is_none into) && negb (zlen fields =? 1) then
        config_fail "json_parse: `into` is only valid with exactly one field"
      else Ok (JsonParse fields on_error into)
  | RCoalesce field dflt from empty_null =>
      match negb (is_none dflt), is_nil from with
      | true, false => config_fail "coalesce: set exactly one of `default` or `from`, not both"
      | false, true => config_fail "coalesce: set exactly one of `default` or `from`"
      | _, _ => Ok (Coalesce field dflt from empty_null)
      end
  | RSplit field delimiter trim into => Ok (Split field delimiter trim into)
  | RJoin field delimiter into => Ok (Join field delimiter into)
  | RJsonEncode fields => Ok (JsonEncode fields)
  | RLookup reference on_record on_ref add on_missing =>
      if is_empty_str (trim on_record) || is_empty_str (trim on_ref) then
        transform_err "lookup: `on_record` and `on_ref` must be non-empty"
      else if is_nil add then transform_err "lookup: `add` must name at least one output column"
      else
        let index := foldl (fun index row =>
          match assoc on_ref row ≫= value_to_key with
          | Some k => match index !! k with Some _ => index | None => <[k := row]> index end
          | None => index
          end) (∅ : gmap string (list (string * Value))) reference in
        Ok (Lookup index on_record add on_missing)
  | RCustom f => Ok (CustomTransform f)
  end.

(** [apply_one], [apply_all]. *)
Definition apply_one (v : Value) (t : CompiledTransform) : result Value FaucetError :=
  match t with
  | Flatten separator => flatten v separator
  | RenameKeys re replacement => rename_keys v re replacement
  | KeysCase mode on_collision assignments => keys_case v mode on_collision assignments
  | Select fields => Ok (select_fields v fields)
  | DropFields fields => Ok (drop_fields v fields)
  | SetFields values => Ok (set_fields v values)
  | RenameField fields => rename_field v fields
  | Cast fields on_error => cast_fields v fields on_error
  | Redact fields mask => Ok (redact_fields v fields mask)
  | ValueCase fields mode => Ok (value_case v fields mode)
  | SpellSymbols replacements separator => spell_symbols v replacements separator
  | Hash fields algorithm encoding salt into => Ok (hash_fields v fields algorithm encoding salt into)
  | JsonParse fields on_error into => json_parse_fields v fields on_error into
  | Coalesce field dflt from empty_null => Ok (coalesce_field v field dflt from empty_null)
  | Split field delimiter trim into => Ok (split_field v field delimiter trim into)
  | Join field delimiter into => Ok (join_field v field delimiter into)
  | JsonEncode fields => Ok (json_encode_fields v fields)
  | Lookup index on_record add on_missing => lookup_field v index on_record add on_missing
  | CustomTransform f => Ok (f v)
  end.
Fixpoint apply_all (record : Value) (transforms : list CompiledTransform) : result Value FaucetError :=
  match transforms with
  | [] => Ok record
  | t :: transforms => let? acc := apply_one record t in apply_all acc transforms
  end.

(** ** Rewritten keys *)

(** What a key rewrite promises: the same record under new names, where the names
    of every object stay apart. *)
Fixpoint rekeyed (name : string -> string) (v : Value) : Value :=
  match v with
  | VObject m => VObject (map (fun e => (name e.1, rekeyed name e.2)) m)
  | VArray l => VArray (map (rekeyed name) l)
  | _ => v
  end.
Inductive keys_apart (name : string -> string) : Value -> Prop :=
| apart_object m : NoDup (name <$> m.*1) -> Forall (fun e => keys_apart name e.2) m -> keys_apart name (VObject m)
| apart_array l : Forall (keys_apart name) l -> keys_apart name (VArray l)
| apart_null : keys_apart name Null
| apart_bool b : keys_apart name (VBool b)
| apart_number n : keys_apart name (VNumber n)
| apart_string s : keys_apart name (VString s).

(** The name each of the three rewrites gives a key. *)
Definition key_name (t : CompiledTransform) : option (string -> string) :=
  match t with
  | RenameKeys re replacement => Some (fun k => replace_all re k replacement)
  | KeysCase mode on_collision assignments => Some (final_key mode on_collision assignments)
  | SpellSymbols replacements separator => Some (fun k => spell_symbols_in_key k replacements separator)
  | _ => None
  end.

(** ** Facts *)

Lemma result_bind_ok {A B E} (r : result A E) (f : A -> result B E) b :
  result_bind r f = Ok b <-> exists a, r = Ok a /\ f a = Ok b.
Proof. destruct r; cbn; naive_solver. Qed.

Lemma lookup_source_none k sources : lookup_source k sources = None <-> k ∉ sources.*1.
Proof.
  unfold lookup_source. induction sources as [|[a b] l IH]; cbn; [by split; [intros _; apply not_elem_of_nil|]|].
  rewrite not_elem_of_cons. unfold string_eqb at 1. case_bool_decide; cbn; [naive_solver|]. rewrite IH. naive_solver.
Qed.

Section Rekey.
Context (name : string -> string) (collision : string -> string -> string -> FaucetError) (check_first : bool).
Notation rk := (rekey name collision check_first).

Lemma rekey_entries_fresh k x m out sources :
  lookup_source (name k) sources = None ->
  rekey_entries rk name collision check_first ((k, x) :: m) out sources =
  result_bind (rk x) (fun x => rekey_entries rk name collision check_first m (assoc_insert (name k) x out) ((name k, k) :: sources)).
Proof. intros E. cbn [rekey_entries]. rewrite E. by destruct check_first. Qed.

Lemma rekey_entries_taken k x m out sources other out' :
  lookup_source (name k) sources = Some other ->
  rekey_entries rk name collision check_first ((k, x) :: m) out sources <> Ok out'.
Proof. intros E. cbn [rekey_entries]. rewrite E. destruct check_first; [done|]. by destruct (rekey _ _ _ x). Qed.

Lemma rekey_entries_spec m out sources out' :
  Forall (fun e => forall x, rk e.2 = Ok x <-> keys_apart name e.2 /\ x = rekeyed name e.2) m ->
  out.*1 = reverse (sources.*1) ->
  rekey_entries rk name collision check_first m out sources = Ok out' <->
  NoDup (name <$> m.*1) /\ (forall k, k ∈ name <$> m.*1 -> k ∉ sources.*1) /\
  Forall (fun e => keys_apart name e.2) m /\ out' = out ++ map (fun e => (name e.1, rekeyed name e.2)) m.
Proof.
  intros Hm. revert out sources. induction Hm as [|[k x] m Hx Hm IH]; intros out sources Hs.
  - cbn. rewrite app_nil_r. split; [intros [= <-]|naive_solver].
    split_and!; try done; [apply NoDup_nil_2|intros k Hk; by apply not_elem_of_nil in Hk].
  - rewrite !fmap_cons. cbn [fst]. rewrite NoDup_cons, Forall_cons. setoid_rewrite elem_of_cons.
    destruct (lookup_source (name k) sources) as [other|] eqn:E.
    + split; [intros Hok; by destruct (rekey_entries_taken k x m out sources other out' E)|].
      intros (_ & Hd & _). specialize (Hd (name k) ltac:(tauto)). apply lookup_source_none in Hd. congruence.
    + rewrite rekey_entries_fresh by done. apply lookup_source_none in E.
      assert (assoc (name k) out = None) as Hout by (apply assoc_none; by rewrite Hs, elem_of_reverse).
      rewrite result_bind_ok. setoid_rewrite Hx. cbn [snd].
      assert (forall y, rekey_entries rk name collision check_first m (assoc_insert (name k) y out) ((name k, k) :: sources) = Ok out' <->
        NoDup (name <$> m.*1) /\ (forall k', k' ∈ name <$> m.*1 -> k' ∉ (name k, k).1 :: sources.*1) /\
        Forall (fun e => keys_apart name e.2) m /\ out' = (out ++ [(name k, y)]) ++ map (fun e => (name e.1, rekeyed name e.2)) m) as Hrec.
      { intros y. rewrite assoc_insert_fresh by done. apply IH. change (((name k, k) :: sources).*1) with (name k :: sources.*1). by rewrite fmap_app, Hs, reverse_cons. }
      setoid_rewrite Hrec. cbn [fst map]. setoid_rewrite not_elem_of_cons.
      split.
      * intros (y & [Ha ->] & Hn & Hd & Hf & ->). rewrite <- app_assoc. split_and!; try done.
        -- intros Hin. by apply Hd in Hin as [].
        -- intros k' [->|Hin]; [done|by apply Hd].
      * intros ([Hnk Hn] & Hd & [Ha Hf] & ->). exists (rekeyed name x). rewrite <- app_assoc. split_and!; try done.
        intros k' Hin. split; [by intros ->|]. apply Hd. by right.
Qed.

Lemma rekey_items_spec l l' :
  Forall (fun v => forall x, rk v = Ok x <-> keys_apart name v /\ x = rekeyed name v) l ->
  rekey_items rk l = Ok l' <-> Forall (keys_apart name) l /\ l' = map (rekeyed name) l.
Proof.
  intros Hl. revert l'. induction Hl as [|v l Hv Hl IH]; intros l'; cbn [rekey_items map].
  - rewrite Forall_nil. naive_solver.
  - rewrite result_bind_ok, Forall_cons. setoid_rewrite Hv. setoid_rewrite result_bind_ok. setoid_rewrite IH. split.
    + intros (x & [Ha ->] & ls & [Hf ->] & [= <-]). done.
    + intros [[Ha Hf] ->]. eexists. split; [done|]. eexists. done.
Qed.

(** A key rewrite succeeds exactly where the new names stay apart, and then is the
    record under the new names. *)
Lemma rekey_spec v v' : rk v = Ok v' <-> keys_apart name v /\ v' = rekeyed name v.
Proof.
  revert v'. induction v as [| | | |l IH|m IH] using Value_nested_ind; intros v'; cbn [rekey rekeyed].
  1-4: split; [intros [= <-]; split; [constructor|done]|naive_solver].
  - rewrite result_bind_ok. setoid_rewrite (rekey_items_spec l _ IH). split.
    + intros (ls & [Hf ->] & [= <-]). split; [by constructor|done].
    + intros [Ha ->]. inversion Ha; subst. by eexists.
  - rewrite result_bind_ok. setoid_rewrite (rekey_entries_spec m [] [] _ IH eq_refl). split.
    + intros (out & (Hn & _ & Hf & ->) & [= <-]). split; [by constructor|done].
    + intros [Ha ->]. inversion Ha; subst. eexists. split_and!; try done. intros k _. apply not_elem_of_nil.
Qed.
End Rekey.

(** Rewriting keys loses no field. For each of the three transforms that rename
    keys (by pattern, by case, by spelling symbols out), at any depth of a record:
    the transform succeeds exactly when no object of the record has two keys that
    take the same name, and its result is then the record with every key renamed,
    every value and every position kept. *)
Theorem key_rewrite_exact t v v' :
  match key_name t with
  | Some name => apply_one v t = Ok v' <-> keys_apart name v /\ v' = rekeyed name v
  | None => True
  end.
Proof. destruct t; try exact I; apply rekey_spec. Qed.

(** ** Flattening *)

(** The leaves of a nested record with their paths: scalars, arrays, and objects
    without entries. *)
Fixpoint leaves (v : Value) : list (list string * Value) :=
  match v with
  | VObject m => if is_nil m then [([], v)]
                 else concat (map (fun e => map (fun l => (e.1 :: l.1, l.2)) (leaves e.2)) m)
  | _ => [([], v)]
  end.
Definition record_leaves (m : list (string * Value)) : list (list string * Value) :=
  concat (map (fun e => map (fun l => (e.1 :: l.1, l.2)) (leaves e.2)) m).
Fixpoint named_keys (v : Value) : bool :=
  match v with
  | VObject m => forallb (fun e => negb (is_empty_str e.1) && named_keys e.2) m
  | _ => true
  end.

(** A step that adds entries to a record under construction, unless one of their
    names is taken. *)
Definition appends (ns : list (string * Value)) (f : list (string * Value) -> result (list (string * Value)) FaucetError) : Prop :=
  forall out out', f out = Ok out' <->
    NoDup ns.*1 /\ (forall k, k ∈ ns.*1 -> k ∉ out.*1) /\ out' = out ++ ns.

Lemma appends_nil : appends [] Ok.
Proof.
  intros out out'. rewrite app_nil_r. split; [intros [= <-]|naive_solver].
  split_and!; [apply NoDup_nil_2|intros k Hk; by apply not_elem_of_nil in Hk|done].
Qed.

Lemma appends_seq a b f g : appends a f -> appends b g -> appends (a ++ b) (fun out => result_bind (f out) g).
Proof.
  unfold appends. intros Hf Hg out out'. rewrite result_bind_ok, fmap_app, NoDup_app. setoid_rewrite (Hf out). setoid_rewrite Hg. split.
  - intros (o & (Ha & Hda & ->) & Hb & Hdb & ->). rewrite app_assoc. split_and!; try done.
    + intros k Hka Hkb. apply Hdb in Hkb. rewrite fmap_app in Hkb. set_solver.
    + intros k. rewrite elem_of_app. intros [Hk|Hk]; [by apply Hda|]. apply Hdb in Hk. rewrite fmap_app in Hk. set_solver.
  - intros ((Ha & Hab & Hb) & Hd & ->). exists (out ++ a). rewrite app_assoc. setoid_rewrite fmap_app. set_solver.
Qed.

Lemma appends_insert prefix separator v : appends [(prefix, v)] (insert_flat prefix separator v).
Proof.
  intros out out'. unfold insert_flat. cbn. destruct (assoc prefix out) eqn:E.
  - split; [done|]. intros (_ & Hd & _). specialize (Hd prefix ltac:(left)). apply assoc_none in Hd. congruence.
  - pose proof E as E'. apply assoc_none in E'. rewrite assoc_insert_fresh by done. split.
    + intros [= <-]. split_and!; [apply NoDup_singleton| |done]. by intros k ->%list_elem_of_singleton.
    + naive_solver.
Qed.

Lemma join_snoc sep ps k : ps <> [] -> join sep (ps ++ [k]) = join sep ps +:+ sep +:+ k.
Proof.
  induction ps as [|p [|p' ps] IH]; intros Hne; [done|done|].
  change (join sep ((p :: p' :: ps) ++ [k])) with (p +:+ sep +:+ join sep ((p' :: ps) ++ [k])).
  rewrite IH by done. change (join sep (p :: p' :: ps)) with (p +:+ sep +:+ join sep (p' :: ps)).
  by rewrite !string_app_assoc.
Qed.

Lemma joined_nonempty sep p ps : p <> EmptyString -> is_empty_str (join sep (p :: ps)) = false.
Proof. by destruct p, ps. Qed.

Section Flatten.
Context (separator : string).
Definition flat_name (ps : list string) (l : list string * Value) : string * Value := (join separator (ps ++ l.1), l.2).

Lemma flat_entries_spec ps m :
  (forall p ps', ps = p :: ps' -> p <> EmptyString) ->
  Forall (fun e => forall qs, qs <> [] -> (forall p ps', qs = p :: ps' -> p <> EmptyString) -> named_keys e.2 = true ->
    appends (map (flat_name qs) (leaves e.2)) (flatten_into separator e.2 (join separator qs))) m ->
  forallb (fun e => negb (is_empty_str e.1) && named_keys e.2) m = true ->
  appends (map (flat_name ps) (record_leaves m)) (flat_entries (flatten_into separator) (join separator ps) separator m).
Proof.
  intros Hps. induction 1 as [|[k x] m Hx Hm IH]; cbn [forallb]; intros Hn; [apply appends_nil|].
  apply andb_true_iff in Hn as [[Hk Hnx]%andb_true_iff Hn]. unfold record_leaves. cbn [map concat]. rewrite map_app.
  assert (k <> EmptyString) as Hke by by destruct k.
  assert (join separator (ps ++ [k]) = (if is_empty_str (join separator ps) then k else join separator ps +:+ separator +:+ k)) as Hkey.
  { destruct ps as [|p ps]; [done|]. rewrite joined_nonempty by by eapply Hps. by apply join_snoc. }
  assert (map (flat_name ps) (map (fun l => ((k, x).1 :: l.1, l.2)) (leaves (k, x).2)) = map (flat_name (ps ++ [k])) (leaves x)) as ->.
  { rewrite map_map. apply map_ext. intros l. unfold flat_name. cbn. by rewrite <- app_assoc. }
  apply (appends_seq _ _ (flatten_into separator x (if is_empty_str (join separator ps) then k else join separator ps +:+ separator +:+ k))).
  - rewrite <- Hkey. apply Hx; [by destruct ps| |done].
    intros p ps' E. destruct ps as [|q qs]; [by injection E as <- _|]. injection E as <- _. by eapply Hps.
  - by apply IH.
Qed.

Lemma flatten_into_spec v qs :
  qs <> [] -> (forall p ps', qs = p :: ps' -> p <> EmptyString) -> named_keys v = true ->
  appends (map (flat_name qs) (leaves v)) (flatten_into separator v (join separator qs)).
Proof.
  revert qs. induction v as [| | | | |m IH] using Value_nested_ind; intros qs Hne Hq Hn.
  1-5: cbn; unfold flat_name; cbn; rewrite app_nil_r; apply appends_insert.
  cbn [flatten_into]. destruct m as [|e m].
  - destruct qs as [|q qs]; [done|]. rewrite joined_nonempty by by eapply Hq.
    cbn. unfold flat_name; cbn. rewrite app_nil_r. apply appends_insert.
  - change (negb (is_nil (e :: m)) || _) with true. change (leaves (VObject (e :: m))) with (record_leaves (e :: m)).
    by apply (flat_entries_spec qs (e :: m)).
Qed.
End Flatten.

(** Flattening keeps every leaf. For a record whose keys are not empty, nested
    to any depth, [flatten] succeeds exactly when no two leaves (scalars, arrays and
    empty objects) come to the same joined name, and its result then lists every
    leaf, in order, under the names on its path joined by the separator. *)
Theorem flatten_keeps_leaves separator m v' :
  named_keys (VObject m) = true ->
  flatten (VObject m) separator = Ok v' <->
  NoDup (map (fun l => join separator l.1) (record_leaves m)) /\
  v' = VObject (map (fun l => (join separator l.1, l.2)) (record_leaves m)).
Proof.
  intros Hn. unfold flatten. cbn [flatten_into]. rewrite orb_true_r, result_bind_ok.
  assert (appends (map (flat_name separator []) (record_leaves m)) (flat_entries (flatten_into separator) EmptyString separator m)) as Ha.
  { apply (flat_entries_spec separator []); [done| |done]. apply Forall_forall. intros e _ qs Hq Hp Hnk. by apply flatten_into_spec. }
  setoid_rewrite (Ha []).
  assert ((map (flat_name separator []) (record_leaves m)).*1 = map (fun l => join separator l.1) (record_leaves m)) as ->
    by (change (@fmap list _ _ _ fst) with (map (@fst string Value)); by rewrite map_map).
  split.
  - intros (out & (Hd & _ & ->) & [= <-]). done.
  - intros [Hd ->]. eexists. split_and!; try done. intros k _. apply not_elem_of_nil.
Qed.

(** ** Renaming fields *)

Lemma check_renames_ok m sources seen renames :
  is_ok (check_renames m sources seen renames) = true <->
  NoDup (renames.*2) /\ (forall t, t ∈ renames.*2 -> t ∉ seen /\ (t ∈ m.*1 -> t ∈ sources)).
Proof.
  revert seen. induction renames as [|[from to] l IH]; intros seen; cbn [check_renames].
  - split; [intros _; split; [apply NoDup_nil_2|intros t Ht; by apply not_elem_of_nil in Ht]|done].
  - unfold mem at 1. rewrite fmap_cons, NoDup_cons. setoid_rewrite elem_of_cons. cbn [snd].
    case_bool_decide as Hs; [split; [done|]; intros [_ Hall]; by destruct (Hall to ltac:(tauto))|].
    assert (contains_key to m && negb (mem to sources) = false <-> (to ∈ m.*1 -> to ∈ sources)) as Hc.
    { unfold contains_key, mem. destruct (assoc to m) eqn:E; cbn.
      - assert (to ∈ m.*1) by (destruct (decide (to ∈ m.*1)) as [|Hn%assoc_none]; [done|congruence]).
        case_bool_decide; cbn; naive_solver.
      - apply assoc_none in E. naive_solver. }
    destruct (contains_key to m && negb (mem to sources)) eqn:E; cbn [is_ok].
    + split; [done|]. intros [_ Hall]. destruct (Hall to ltac:(tauto)) as [_ Hin]. by apply Hc in Hin.
    + pose proof (proj1 Hc eq_refl) as Hto. rewrite IH. setoid_rewrite not_elem_of_cons. split.
      * intros [Hn Hall]. split_and!; [intros Hin; by destruct (Hall to Hin) as [[] _]|done|].
        intros t [->|Ht]; [done|]. destruct (Hall t Ht) as [[] ?]. done.
      * intros [[Hni Hn] Hall]. split; [done|]. intros t Ht. split; [split; [by intros ->|]|]; apply Hall; tauto.
Qed.

Lemma stage_renames_spec m renames :
  NoDup m.*1 -> NoDup renames.*1 ->
  NoDup (stage_renames m renames).1.*1 /\
  (forall x, assoc x (stage_renames m renames).1 = if decide (x ∈ renames.*1) then None else assoc x m) /\
  (stage_renames m renames).2 = (fun e => (e.2, default Null (assoc e.1 m))) <$> renames.
Proof.
  revert m. induction renames as [|[from to] l IH]; intros m Hm Hl.
  - split_and!; [done| |done]. intros x. rewrite decide_False by apply not_elem_of_nil. done.
  - change (((from, to) :: l).*1) with (from :: l.*1) in *. cbn [stage_renames]. apply NoDup_cons in Hl as [Hni Hl]. pose proof (assoc_remove_nodup from m Hm) as Hm'.
    destruct (IH _ Hm' Hl) as (Hn & Ha & Hs). destruct (stage_renames (assoc_remove from m) l) as [m' staged]. cbn [fst snd] in *.
    split_and!; [done| |].
    + intros x. rewrite Ha. destruct (decide (x = from)) as [->|Hne].
      * rewrite assoc_remove_eq by done. repeat case_decide; try done; set_solver.
      * rewrite assoc_remove_ne by done. repeat case_decide; set_solver.
    + rewrite Hs, fmap_cons. f_equal. apply list_fmap_ext. intros i [f t] Hi. cbn. rewrite assoc_remove_ne; [done|done|].
      intros ->. apply Hni. apply list_elem_of_lookup_2, (list_elem_of_fmap_2 fst) in Hi. done.
Qed.

Lemma assoc_insert_all (l m : list (string * Value)) x :
  NoDup l.*1 -> assoc x (foldl (fun m e => assoc_insert e.1 e.2 m) m l) = match assoc x l with Some v => Some v | None => assoc x m end.
Proof.
  revert m. induction l as [|[k v] l IH]; intros m Hl; [done|]. apply NoDup_cons in Hl as [Hk Hl]. cbn [foldl assoc fst snd].
  rewrite IH by done. case_decide as E.
  - subst x. rewrite (proj2 (assoc_none k l)) by done. apply assoc_insert_eq.
  - destruct (assoc x l); [done|]. by apply assoc_insert_ne.
Qed.

Lemma assoc_staged (renames : list (string * string)) (m : list (string * Value)) x :
  assoc x ((fun e => (e.2, default Null (assoc e.1 m))) <$> renames) =
  (fun e => default Null (assoc e.1 m)) <$> List.find (fun e => string_eqb e.2 x) renames.
Proof.
  induction renames as [|[f t] l IH]; [done|]. rewrite fmap_cons. cbn [assoc List.find fst snd]. unfold string_eqb at 1.
  case_bool_decide; case_decide; congruence || done.
Qed.

Lemma applicable_from m fields : Forall (fun e => exists v, assoc e.1 m = Some v) (applicable m fields).
Proof.
  apply Forall_forall. intros e He%list_elem_of_In. apply filter_In in He as [_ He]. apply andb_true_iff in He as [_ He].
  unfold contains_key in He. destruct (assoc e.1 m); [by eexists|done].
Qed.

Lemma applicable_nodup m fields : NoDup fields.*1 -> NoDup (applicable m fields).*1.
Proof.
  unfold applicable. induction fields as [|e l IH]; intros Hl; [apply NoDup_nil_2|]. apply NoDup_cons in Hl as [He Hl].
  cbn [List.filter]. destruct (_ && _); [|by apply IH]. rewrite fmap_cons. apply NoDup_cons. split; [|by apply IH].
  intros (e' & E & Hin)%list_elem_of_fmap. apply He. rewrite E. apply (list_elem_of_fmap_2 fst).
  apply list_elem_of_In in Hin. apply list_elem_of_In. by apply filter_In in Hin as [? _].
Qed.

(** Fields are renamed at once, whatever order they are listed in. The rename
    succeeds exactly when the targets of the fields present are distinct and a
    target already on the record is itself being renamed away; and then a key of
    the result holds the value its source field had before any rename (so chains
    and swaps move the original values), a source that is no target is gone, and
    every other field is as it was. *)
Theorem rename_field_simultaneous m fields :
  NoDup m.*1 -> NoDup fields.*1 ->
  let renames := applicable m fields in
  let fine := NoDup (renames.*2) /\ (forall t, t ∈ renames.*2 -> t ∈ m.*1 -> t ∈ renames.*1) in
  (is_ok (rename_field (VObject m) fields) = true <-> fine) /\
  (fine -> exists m', rename_field (VObject m) fields = Ok (VObject m') /\ forall x,
    assoc x m' = match List.find (fun e => string_eqb e.2 x) renames with
                 | Some e => assoc e.1 m
                 | None => if decide (x ∈ renames.*1) then None else assoc x m
                 end).
Proof.
  intros Hm Hf renames fine. assert (is_ok (check_renames m renames.*1 [] renames) = true <-> fine) as Hc.
  { rewrite check_renames_ok. unfold fine. split; intros [Hn Hall]; (split; [done|]); intros t Ht.
    - by apply Hall.
    - split; [apply not_elem_of_nil|by apply Hall]. }
  assert (NoDup renames.*1) as Hr by by apply applicable_nodup.
  destruct (stage_renames_spec m renames Hm Hr) as (_ & Ha & Hs).
  unfold rename_field. fold renames. destruct (stage_renames m renames) as [m' staged]. cbn [fst snd] in *.
  split.
  - rewrite <- Hc. by destruct (check_renames _ _ _ _).
  - intros Hfine. pose proof (proj2 Hc Hfine) as Hok. destruct (check_renames _ _ _ _); [|done]. cbn [result_bind].
    eexists. split; [done|]. intros x. rewrite assoc_insert_all, Hs, assoc_staged.
    2: { rewrite Hs, <- list_fmap_compose. apply Hfine. }
    pose proof (applicable_from m fields) as Hfrom. rewrite Forall_forall in Hfrom. fold renames in Hfrom.
    destruct (List.find _ renames) as [e|] eqn:E; cbn; [|apply Ha].
    apply List.find_some in E as [Hin _]. apply list_elem_of_In, Hfrom in Hin as [v ->]. done.
Qed.

(** ** Splitting and joining *)

Lemma starts_with_drop d s : starts_with d s = true -> s = d +:+ str_drop (String.length d) s.
Proof.
  unfold starts_with. revert s. induction d as [|c d IH]; intros s; [done|]. destruct s as [|c' s]; [done|]. cbn.
  destruct (Ascii.eqb_spec c c') as [->|]; [|done]. intros Hs. exact (f_equal (String c') (IH s Hs)).
Qed.

Lemma starts_with_length d s : starts_with d s = true -> (String.length d <= String.length s)%nat.
Proof.
  unfold starts_with. revert s. induction d as [|c d IH]; intros [|c' s]; cbn; try done; try (intros; lia).
  destruct (Ascii.eqb c c'); [|done]. intros Hs. specialize (IH s Hs). lia.
Qed.

Lemma split_go_cons d s skip cur : exists p l, split_go d s skip cur = p :: l.
Proof.
  revert skip cur. induction s as [|c s IH]; intros skip cur; cbn; [by eexists _, _|].
  destruct skip; [|apply IH]. destruct (starts_with d (String c s)); [by eexists _, _|apply IH].
Qed.

Lemma join_split_go d s skip cur :
  d <> EmptyString -> (skip <= String.length s)%nat -> join d (split_go d s skip cur) = cur +:+ str_drop skip s.
Proof.
  intros Hd. revert skip cur. induction s as [|c s IH]; intros skip cur Hs.
  - cbn in Hs. replace skip with 0%nat by lia. cbn. by rewrite string_app_nil_r.
  - destruct skip as [|skip]; cbn [split_go]; [|cbn [str_drop]; apply IH; cbn in Hs; lia].
    destruct (starts_with d (String c s)) eqn:E.
    + destruct d as [|c' d]; [done|]. cbn [String.length Nat.sub]. rewrite Nat.sub_0_r.
      pose proof (starts_with_length _ _ E) as Hle. pose proof (starts_with_drop _ _ E) as Hdrop. cbn in Hle.
      destruct (split_go_cons (String c' d) s (String.length d) EmptyString) as (p & l & Hpl).
      assert (join (String c' d) (cur :: split_go (String c' d) s (String.length d) EmptyString) =
        cur +:+ String c' d +:+ join (String c' d) (split_go (String c' d) s (String.length d) EmptyString)) as -> by by rewrite Hpl.
      rewrite IH by lia. cbn [str_drop]. f_equal. symmetry. exact Hdrop.
    + rewrite IH by lia. cbn [str_drop]. by rewrite string_app_assoc.
Qed.

Lemma join_of_split d s : d <> EmptyString -> join d (split_str d s) = s.
Proof. intros Hd. unfold split_str. by rewrite join_split_go by (done || lia). Qed.

Lemma assoc_insert_back k v w m : assoc k m = Some v -> assoc_insert k v (assoc_insert k w m) = m.
Proof.
  induction m as [|[k' v'] m IH]; [done|]. cbn. case_decide as E.
  - intros [= ->]. cbn. by rewrite decide_True.
  - intros Hm. cbn. rewrite decide_False by done. by rewrite IH.
Qed.

(** Splitting a text field and joining it again by the same delimiter gives
    the record back, for every non-empty delimiter and every text, with nothing
    trimmed. *)
Theorem split_join_roundtrip m field d s :
  d <> EmptyString -> assoc field m = Some (VString s) ->
  apply_all (VObject m) [Split field d false None; Join field d None] = Ok (VObject m).
Proof.
  intros Hd Hm. cbn [apply_all apply_one split_field on_object result_bind]. rewrite Hm.
  assert (is_empty_str d = false) as -> by by destruct d. cbn [join_field on_object default from_option id].
  rewrite assoc_insert_eq, map_map. cbn [scalar_to_string]. rewrite map_id, join_of_split by done.
  by rewrite assoc_insert_back.
Qed.
End Transform.

Lemma flatten_keeps_leaves_witness :
  let m := [("a", VObject [("b", VBool true); ("c", VObject [])]); ("d", VArray [Null])] in
  named_keys (VObject m) = true /\
  flatten (VObject m) "__" = Ok (VObject [("a__b", VBool true); ("a__c", VObject []); ("d", VArray [Null])]).
Proof.
  intros m. split; [reflexivity|]. apply (flatten_keeps_leaves "__" m); [reflexivity|].
  split; [|reflexivity]. apply (bool_decide_unpack _). vm_compute. exact I.
Defined.

(** An empty object under an empty key is dropped. *)
Example flatten_drops_unnamed_empty :
  flatten (VObject [(EmptyString, VObject []); ("a", VBool true)]) "__" = Ok (VObject [("a", VBool true)]).
Proof. reflexivity. Qed.

Lemma rename_field_simultaneous_witness :
  let m := [("a", VBool true); ("b", Null); ("c", VString "x")] in
  exists m', rename_field (VObject m) [("a", "b"); ("b", "a")] = Ok (VObject m') /\ assoc "a" m' = Some Null.
Proof.
  intros m. destruct (rename_field_simultaneous m [("a", "b"); ("b", "a")]) as [_ Hok];
    [apply (bool_decide_unpack _); vm_compute; exact I..|].
  destruct Hok as (m' & Hr & Ha).
  - split; [apply (bool_decide_unpack _); vm_compute; exact I|]. intros t Ht _.
    change (applicable m [("a", "b"); ("b", "a")]) with [("a", "b"); ("b", "a")] in *.
    apply list_elem_of_In in Ht. apply list_elem_of_In. cbn in *. tauto.
  - exists m'. split; [exact Hr|]. rewrite Ha. reflexivity.
Defined.

(** An environment for the witnesses; the transforms they run use none of it. *)
Definition blank_env : TransformEnv := {|
  Regex := unit; regex_new := fun _ => Ok tt; replace_all := fun _ k _ => k;
  char_is_alphanumeric := fun _ => true; char_is_uppercase := fun _ => false; char_is_lowercase := fun _ => true;
  char_to_uppercase := id; char_to_lowercase := id; str_to_uppercase := id; str_to_lowercase := id;
  sha256 := fun _ => []; blake3 := fun _ => []; base64 := fun _ => EmptyString; json_str := id; float_json := fun _ => EmptyString;
  json_parse := fun _ => Ok Null; normalize_rfc3339 := fun s => Ok s; parse_float := fun _ => None;
  float_str := fun _ => EmptyString; parse_int_error := id; debug_str := id |}.

Lemma split_join_roundtrip_witness :
  let m := [("tags", VString "a, b, , c"); ("n", Null)] in
  split_str ", " "a, b, , c" = ["a"; "b"; ""; "c"] /\
  apply_all (H := blank_env) (VObject m) [Split "tags" ", " false None; Join "tags" ", " None] = Ok (VObject m).
Proof. intros m. split; [reflexivity|]. by apply (split_join_roundtrip (H := blank_env) m "tags" ", " "a, b, , c"). Defined.
