(* ===== verification/Resolve.v ===== *)
(** The external resources a config names and the allow-list they are held to:
    crates/core/src/resolve.rs.

    Parameters: the URL parser of the url crate, percent and form decoding, a JSON
    pointer look-up, the file system's [canonicalize] with the working directory, and
    name resolution. Addresses and their texts are the Standard Library's and are
    modelled. Paths are those of Unix. *)
From S2P Require Import Prelude Errors Float64 Json Text StateKey Contract Transform.
From Stdlib Require Import Ascii.

Local Open Scope Z_scope.
Local Open Scope result_scope.

(** ** Strings *)

Definition one_of (cs : string) (c : ascii) : bool := contains_char c cs.
(** [find] of a set of characters: what is before the first and what starts with it. *)
Fixpoint break_at (p : ascii -> bool) (s : string) : string * string :=
  match s with
  | EmptyString => (EmptyString, EmptyString)
  | String c s' => if p c then (EmptyString, s) else let '(a, b) := break_at p s' in (String c a, b)
  end.
Definition before_any (cs s : string) : string := (break_at (one_of cs) s).1.
(** [split] at a set of characters. *)
Fixpoint split_any (p : ascii -> bool) (s : string) : list string :=
  match s with
  | EmptyString => [EmptyString]
  | String c s' =>
      if p c then EmptyString :: split_any p s'
      else match split_any p s' with x :: l => String c x :: l | [] => [String c EmptyString] end
  end.
Fixpoint has_any (p : ascii -> bool) (s : string) : bool :=
  match s with EmptyString => false | String c s => p c || has_any p s end.
Fixpoint str_all (p : ascii -> bool) (s : string) : bool :=
  match s with EmptyString => true | String c s => p c && str_all p s end.
Fixpoint str_rev_go (s acc : string) : string := match s with EmptyString => acc | String c s => str_rev_go s (String c acc) end.
Definition str_rev (s : string) : string := str_rev_go s EmptyString.
Definition strip_suffix (p s : string) : option string := str_rev <$> strip_prefix (str_rev p) (str_rev s).
Definition ends_with (p s : string) : bool := is_some (strip_suffix p s).
(** [rfind] of a character: what is before and after the last. *)
Definition split_last (c : ascii) (s : string) : option (string * string) :=
  (fun ba => (str_rev ba.2, str_rev ba.1)) <$> split_once c (str_rev s).
Fixpoint split_once_str (sep s : string) : option (string * string) :=
  match strip_prefix sep s with
  | Some rest => Some (EmptyString, rest)
  | None => match s with
            | EmptyString => None
            | String c s => (fun ab => (String c ab.1, ab.2)) <$> split_once_str sep s
            end
  end.
Fixpoint trim_prefixes (fuel : nat) (p s : string) : string :=
  match fuel with
  | O => s
  | S fuel => match strip_prefix p s with Some rest => trim_prefixes fuel p rest | None => s end
  end.
Definition trim_start_matches (p s : string) : string := trim_prefixes (String.length s) p s.
Definition trim_end_matches (p s : string) : string := str_rev (trim_start_matches (str_rev p) (str_rev s)).
Definition is_lower (c : ascii) : bool := (97 <=? Z.of_nat (nat_of_ascii c)) && (Z.of_nat (nat_of_ascii c) <=? 122).
Definition is_upper (c : ascii) : bool := (65 <=? Z.of_nat (nat_of_ascii c)) && (Z.of_nat (nat_of_ascii c) <=? 90).
Definition is_ascii_digit (c : ascii) : bool := (48 <=? Z.of_nat (nat_of_ascii c)) && (Z.of_nat (nat_of_ascii c) <=? 57).
Definition is_alpha (c : ascii) : bool := is_lower c || is_upper c.
Definition is_alnum (c : ascii) : bool := is_alpha c || is_ascii_digit c.
Definition eq_ignore_case (a b : string) : bool := string_eqb (string_lower a) (string_lower b).
Definition is_dquote (c : ascii) : bool := Nat.eqb (nat_of_ascii c) 34.
Definition is_quote (c : ascii) : bool := is_dquote c || Ascii.eqb c "'"%char.
Definition unwrap_chars (l r : ascii -> bool) (s : string) : option string :=
  match s with
  | String c s => if l c then match str_rev s with String d t => if r d then Some (str_rev t) else None | EmptyString => None end else None
  | EmptyString => None
  end.
Fixpoint trim_left (p : ascii -> bool) (s : string) : string :=
  match s with String c s' => if p c then trim_left p s' else s | EmptyString => EmptyString end.
Definition trim_chars (p : ascii -> bool) (s : string) : string := str_rev (trim_left p (str_rev (trim_left p s))).
(** [split_whitespace]. *)
Fixpoint words_go (cs : list string) (cur : string) : list string :=
  match cs with
  | [] => if is_empty_str cur then [] else [cur]
  | c :: cs => if char_is_whitespace c then (if is_empty_str cur then [] else [cur]) ++ words_go cs EmptyString else words_go cs (cur +:+ c)
  end.
Definition split_whitespace (s : string) : list string := words_go (chars s) EmptyString.

(** ** Addresses (std::net) *)

Inductive IpAddr := V4 (octets : list Z) | V6 (segments : list Z).
#[export] Instance IpAddr_eq_dec : EqDecision IpAddr.
Proof. solve_decision. Defined.
Definition radix_digit (radix : Z) (c : ascii) : option Z :=
  let n := Z.of_nat (nat_of_ascii c) in
  let v := if is_ascii_digit c then n - 48 else if is_lower c then n - 87 else if is_upper c then n - 55 else 99 in
  if v <? radix then Some v else None.
(** [read_number]: at most [limit] digits, at most [max]. *)
Fixpoint read_digits (radix max : Z) (s : string) (acc : Z) (count : nat) : option (Z * nat * string) :=
  match s with
  | String c s' =>
      match radix_digit radix c with
      | Some d => if max <? acc * radix + d then None else read_digits radix max s' (acc * radix + d) (S count)
      | None => Some (acc, count, s)
      end
  | EmptyString => Some (acc, count, EmptyString)
  end.
Definition read_number (radix max : Z) (limit : nat) (zero_prefix : bool) (s : string) : option (Z * string) :=
  match read_digits radix max s 0 0 with
  | Some (v, count, rest) =>
      if Nat.eqb count 0 || Nat.ltb limit count then None
      else if negb zero_prefix && starts_with "0" s && Nat.ltb 1 count then None
      else Some (v, rest)
  | None => None
  end.
Definition read_separator {A} (sep : ascii) (i : nat) (p : string -> option (A * string)) (s : string) : option (A * string) :=
  match i with
  | O => p s
  | S _ => match s with String c s' => if Ascii.eqb c sep then p s' else None | EmptyString => None end
  end.
Fixpoint read_octets (n i : nat) (s : string) : option (list Z * string) :=
  match n with
  | O => Some ([], s)
  | S n => match read_separator "."%char i (read_number 10 255 3 false) s with
           | Some (v, s) => match read_octets n (S i) s with Some (l, s) => Some (v :: l, s) | None => None end
           | None => None
           end
  end.
Definition read_ipv4 (s : string) : option (list Z * string) := read_octets 4 0 s.
(** [read_groups]: the groups, whether they end in an embedded IPv4 address, and the rest. *)
Fixpoint read_groups (left i : nat) (s : string) : list Z * bool * string :=
  match left with
  | O => ([], false, s)
  | S left' =>
      match (if Nat.ltb 0 left' then read_separator ":"%char i read_ipv4 s else None) with
      | Some ([a; b; c; d], s) => ([a * 256 + b; c * 256 + d], true, s)
      | _ => match read_separator ":"%char i (read_number 16 65535 4 true) s with
             | Some (g, s) => let '(l, v4, s) := read_groups left' (S i) s in (g :: l, v4, s)
             | None => ([], false, s)
             end
      end
  end.
Definition read_ipv6 (s : string) : option (list Z * string) :=
  let '(front, v4, s) := read_groups 8 0 s in
  if Nat.eqb (length front) 8 then Some (front, s)
  else if v4 then None
  else match strip_prefix "::" s with
       | Some s => let '(back, _, s) := read_groups (7 - length front) 0 s in
                   Some (front ++ replicate (8 - length front - length back) 0 ++ back, s)
       | None => None
       end.
Definition parse_ip (s : string) : option IpAddr :=
  match read_ipv4 s with
  | Some (o, rest) => if is_empty_str rest then Some (V4 o) else None
  | None => match read_ipv6 s with Some (g, rest) => if is_empty_str rest then Some (V6 g) else None | None => None end
  end.
Definition v4_text (o : list Z) : string := join "." (dec <$> o).
Fixpoint hex_go (fuel : nat) (n : Z) (acc : string) : string :=
  match fuel with
  | O => acc
  | S fuel => let acc := String (hex_char (n mod 16)) acc in if n <? 16 then acc else hex_go fuel (n / 16) acc
  end.
Definition hex_text (n : Z) : string := hex_go 4 n EmptyString.
(** The longest run of zero groups: its start and length. *)
Fixpoint longest_zeros (seg : list Z) (i : nat) (cur best : nat * nat) : nat * nat :=
  match seg with
  | [] => best
  | s :: seg =>
      if s =? 0 then
        let cur := if Nat.eqb cur.2 0 then (i, 1%nat) else (cur.1, S cur.2) in
        longest_zeros seg (S i) cur (if Nat.ltb best.2 cur.2 then cur else best)
      else longest_zeros seg (S i) (0%nat, 0%nat) best
  end.
Definition hi_lo (g : Z) : list Z := [g / 256; g mod 256].
Definition v6_text (seg : list Z) : string :=
  match seg with
  | [0; 0; 0; 0; 0; 65535; g; h] => "::ffff:" +:+ v4_text (hi_lo g ++ hi_lo h)
  | _ => let '(start, len) := longest_zeros seg 0 (0%nat, 0%nat) (0%nat, 0%nat) in
         let text l := join ":" (hex_text <$> l) in
         if Nat.ltb 1 len then text (take start seg) +:+ "::" +:+ text (drop (start + len) seg) else text seg
  end.

Definition METADATA_V6 : list (list Z) :=
  [[64768; 3778; 0; 0; 0; 0; 0; 596]; [64800; 206; 0; 0; 0; 0; 0; 596]; [64768; 193; 0; 0; 0; 0; 43518; 43518]].
Definition v4_meta (o : list Z) : bool := match o with 169 :: 254 :: _ => true | [100; 100; 100; 200] => true | _ => false end.
Definition v4_mapped (seg : list Z) : option (list Z) :=
  match seg with [0; 0; 0; 0; 0; 65535; g; h] => Some (hi_lo g ++ hi_lo h) | _ => None end.
Definition embedded_ipv4 (seg : list Z) : option (list Z) :=
  match seg with
  | [0; 0; 0; 0; 0; 0; g; h] | [100; 65435; 0; 0; 0; 0; g; h] => Some (hi_lo g ++ hi_lo h)
  | _ => None
  end.
Definition opt_test {A} (p : A -> bool) (o : option A) : bool := match o with Some a => p a | None => false end.
Definition is_metadata_ip (ip : IpAddr) : bool :=
  match ip with
  | V4 o => v4_meta o
  | V6 seg => opt_test (fun s => Z.land s 65472 =? 65152) (head seg) || bool_decide (seg ∈ METADATA_V6)
              || opt_test v4_meta (v4_mapped seg) || opt_test v4_meta (embedded_ipv4 seg)
  end.

(** ** Resources and refusals *)

Inductive ResourceKind := KPath | KUrl | KCommand | KUnverified | KHostCredentials.
#[export] Instance ResourceKind_eq_dec : EqDecision ResourceKind.
Proof. solve_decision. Defined.
Definition resource_str (k : ResourceKind) : string :=
  match k with KPath => "path" | KUrl => "url" | KCommand => "command" | KUnverified => "unverified" | KHostCredentials => "host_credentials" end.
Definition resource_parse (s : string) : option ResourceKind :=
  if string_eqb s "path" then Some KPath else if string_eqb s "url" then Some KUrl else if string_eqb s "command" then Some KCommand else None.
Record ResourceRef := MkResourceRef { rr_pointer : string; rr_kind : ResourceKind; rr_value : string }.
#[export] Instance ResourceRef_eq_dec : EqDecision ResourceRef.
Proof. solve_decision. Defined.
Inductive RefusalKind := REnv | RFile | RSecret | RPath | RUrl | RCommand | RUnverified | RHostCredentials.
Record Refusal := MkRefusal { rf_kind : RefusalKind; rf_subject : string; rf_reason : string }.
(** A check ends in a refusal or in a panic (a slice inside a character). *)
Inductive Failure := Refuse (r : Refusal) | Panicked.
Definition refusal (kind : RefusalKind) (subject reason : string) : Failure := Refuse (MkRefusal kind subject reason).

(** [None] is open, a list allows what it names. *)
Record ReferencePolicy := MkReferencePolicy {
  rp_path_roots : option (list string);
  rp_url_schemes : option (gset string);
  rp_url_hosts : option (list string);
  rp_env : option (list string);
  rp_secret_schemes : option (gset string);
  rp_subprocess : bool;
  rp_unverified : bool;
  rp_host_credentials : bool;
}.
Definition policy_open : ReferencePolicy := MkReferencePolicy None None None None None true true true.
Definition policy_deny_all : ReferencePolicy := MkReferencePolicy (Some []) (Some ∅) (Some []) (Some []) (Some ∅) false false false.

(** The setters; a policy starts as [policy_open] or [policy_deny_all] and each setter opens or
    lists one dimension. *)
Definition with_path_roots (roots : option (list string)) (p : ReferencePolicy) : ReferencePolicy :=
  let '(MkReferencePolicy _ b c d e f g h) := p in MkReferencePolicy roots b c d e f g h.
Definition with_url_schemes (schemes : option (list string)) (p : ReferencePolicy) : ReferencePolicy :=
  let '(MkReferencePolicy a _ c d e f g h) := p in MkReferencePolicy a (list_to_set ∘ fmap string_lower <$> schemes) c d e f g h.
Definition with_url_hosts (hosts : option (list string)) (p : ReferencePolicy) : ReferencePolicy :=
  let '(MkReferencePolicy a b _ d e f g h) := p in MkReferencePolicy a b hosts d e f g h.
Definition with_env (names : option (list string)) (p : ReferencePolicy) : ReferencePolicy :=
  let '(MkReferencePolicy a b c _ e f g h) := p in MkReferencePolicy a b c names e f g h.
Definition with_secret_schemes (schemes : option (list string)) (p : ReferencePolicy) : ReferencePolicy :=
  let '(MkReferencePolicy a b c d _ f g h) := p in MkReferencePolicy a b c d (list_to_set ∘ fmap string_lower <$> schemes) f g h.
Definition with_subprocess (allowed : bool) (p : ReferencePolicy) : ReferencePolicy :=
  let '(MkReferencePolicy a b c d e _ g h) := p in MkReferencePolicy a b c d e allowed g h.
Definition with_unverified (allowed : bool) (p : ReferencePolicy) : ReferencePolicy :=
  let '(MkReferencePolicy a b c d e f _ h) := p in MkReferencePolicy a b c d e f allowed h.
Definition with_host_credentials (allowed : bool) (p : ReferencePolicy) : ReferencePolicy :=
  let '(MkReferencePolicy a b c d e f g _) := p in MkReferencePolicy a b c d e f g allowed.

Definition name_matches (pattern name : string) : bool :=
  match strip_suffix "*" pattern with Some prefix => starts_with prefix name | None => string_eqb pattern name end.

(** [scheme_of]. *)
Definition scheme_of (value : string) : option string :=
  match split_once ":"%char value with
  | Some (scheme, after) =>
      let valid := Nat.ltb 1 (String.length scheme) && match scheme with String c _ => is_alpha c | EmptyString => false end
                   && str_all (fun c => is_alnum c || one_of "+-." c) scheme in
      let rest := before_any "/?#," after in
      let port := negb (is_empty_str rest) && str_all is_ascii_digit rest in
      if valid && negb port then Some (string_lower scheme) else None
  | None => None
  end.
Definition REMOTE_PATH_SCHEMES : list string :=
  ["http"; "https"; "s3"; "s3a"; "s3n"; "gs"; "gcs"; "az"; "azure"; "abfs"; "abfss"; "adl"; "wasb"; "wasbs"; "oss"; "sftp"; "ftp"; "hdfs"; "memory"].
Definition SPECIAL_SCHEMES : list string := ["http"; "https"; "ws"; "wss"; "ftp"; "file"].
Definition CONN_HOST_KEYS : list string :=
  ["server"; "data source"; "datasource"; "address"; "addr"; "network address"; "host"; "hostname"; "hostaddr"].
Definition CONN_ENDPOINT_KEYS : list string := ["blobendpoint"; "queueendpoint"; "tableendpoint"; "fileendpoint"; "dfsendpoint"].
Definition DB_URL_SCHEMES : list string := ["postgres"; "postgresql"; "redshift"; "mysql"; "mariadb"; "tcp"; "tcps"].
Definition DB_HOST_PARAMS : list string := ["host"; "hostaddr"].
Definition DB_PATH_PARAMS : list string :=
  ["socket"; "passfile"; "sslrootcert"; "ssl-root-cert"; "sslca"; "ssl-ca"; "sslcert"; "ssl-cert"; "sslkey"; "ssl-key"; "sslcrl"; "sslcrldir";
   "trustservercertificateca"; "wallet_location"; "my_wallet_directory"; "directory"].
Definition DB_UNVERIFIED_PARAMS : list (string * list string) :=
  [("verify_ca", ["false"; "0"]); ("verify_identity", ["false"; "0"]); ("trustservercertificate", ["true"; "yes"]); ("ssl_server_dn_match", ["false"; "no"; "off"])].

Inductive Location := Local (path : string) | RemoteLocation | RefusedLocation (reason : string) | PanickedLocation.
Definition NOT_UTF8 : string := "a percent-encoded path that is not UTF-8 cannot be checked".
Definition NESTED_FILE : string := "a SQLite database name that is itself a `file:` URI cannot be checked".

Inductive UrlHost := HostV4 (o : list Z) | HostV6 (seg : list Z) | Domain (d : string).

Definition ambiguous_first_segment (path : string) : bool :=
  if starts_with "/" path then false
  else let first := before_any "/\" path in
       let drive := Nat.eqb (String.length first) 2 && match first with String c _ => is_alpha c | EmptyString => false end in
       contains_char ":"%char first && negb drive.

(** [descriptor_pairs], [connection_string_pairs]. *)
Definition descriptor_pair (part : string) : option (string * string) :=
  kv ← split_once "="%char part;
  let v := trim (before_any ")" kv.2) in
  if is_empty_str v || starts_with "(" v then None else Some (string_lower (trim kv.1), trim_chars is_quote v).
Definition descriptor_pairs (value : string) : list (string * string) := omap descriptor_pair (split_any (one_of "(") value).
Definition unquote (v : string) : string :=
  let v := trim v in
  default v (option_or (unwrap_chars (one_of "{") (one_of "}") v) (option_or (unwrap_chars is_dquote is_dquote v) (unwrap_chars (one_of "'") (one_of "'") v))).
Definition conn_separator (libpq : bool) (c : ascii) : bool :=
  if libpq then (let n := nat_of_ascii c in Nat.eqb n 32 || Nat.eqb n 9 || Nat.eqb n 10 || Nat.eqb n 13) else one_of ";" c.
Definition connection_string_pairs (value : string) : option (list (string * string)) :=
  kv ← split_once "="%char (before_any ";" value);
  let first_key := trim kv.1 in
  if is_empty_str first_key || negb (str_all (fun c => is_alnum c || one_of " _-" c) first_key) then None
  else
    let words := split_whitespace value in
    let libpq := negb (contains_char ";"%char value) && Nat.ltb 1 (length words) && forallb (contains_char "="%char) words in
    Some ((fun kv => (string_lower (trim kv.1), unquote kv.2)) <$> omap (split_once "="%char) (split_any (conn_separator libpq) value)).

Section Resolve.
Context (url_parse : string -> option (option UrlHost)) (percent_decoded : string -> option string) (form_parse : string -> list (string * string)).

Definition canonical_host (host : string) : string :=
  let raw := string_lower host in
  if is_empty_str raw || has_any (one_of "${}*/?#@") raw then raw
  else match url_parse ("http://" +:+ raw +:+ "/") with
       | Some (Some (HostV4 o)) => v4_text o
       | Some (Some (HostV6 seg)) => "[" +:+ v6_text seg +:+ "]"
       | Some (Some (Domain d)) => trim_end_matches "." d
       | _ => trim_end_matches "." raw
       end.
Definition bare_host (h : string) : string := trim_end_matches "]" (trim_start_matches "[" h).
Definition is_metadata_host (host : string) : bool :=
  let h := bare_host (canonical_host host) in
  match parse_ip h with
  | Some ip => is_metadata_ip ip
  | None => string_eqb h "metadata.google.internal" || string_eqb h "metadata"
  end.
Definition host_matches (pattern host : string) : bool :=
  let pattern := string_lower pattern in
  if string_eqb pattern "*" then true
  else match strip_prefix "*." pattern with
       | Some suffix => Nat.ltb (String.length suffix + 1) (String.length host) && ends_with ("." +:+ suffix) host
       | None => string_eqb (canonical_host pattern) host
       end.
Definition lists_host_exactly (p : ReferencePolicy) (host : string) : bool :=
  let host := canonical_host host in
  match rp_url_hosts p with
  | Some l => existsb (fun q => negb (contains_char "*"%char q) && string_eqb (canonical_host q) host) l
  | None => false
  end.
(** [screen_resolved]; ports are left out. *)
Definition screen_resolved (host : string) (addrs : list IpAddr) (policy : option ReferencePolicy) : result (list IpAddr) string :=
  if opt_test (fun p => lists_host_exactly p host) policy then Ok addrs
  else let kept := List.filter (fun a => negb (is_metadata_ip a)) addrs in
       if is_nil kept && negb (is_nil addrs) then Err ("host `" +:+ canonical_host host +:+ "` resolves to a link-local / metadata endpoint") else Ok kept.

(** ** What a value names *)

(** [is_char_boundary]: the byte there, if any, does not continue a character. *)
Definition is_char_boundary (i : nat) (s : string) : bool :=
  match String.get i s with Some c => let n := nat_of_ascii c in negb (Nat.leb 128 n && Nat.ltb n 192) | None => true end.

Definition sqlite_file (value : string) : Location :=
  let rest := trim_start_matches "sqlite:" (trim_start_matches "sqlite://" value) in
  match percent_decoded (before_any "?" rest) with
  | Some name => if Nat.leb 5 (String.length name) && negb (is_char_boundary 5 name) then PanickedLocation
                 else if eq_ignore_case (str_take 5 name) "file:" then RefusedLocation NESTED_FILE else Local name
  | None => RefusedLocation NOT_UTF8
  end.
Definition decoded_path (local : string) : Location :=
  match percent_decoded local with Some p => Local p | None => RefusedLocation NOT_UTF8 end.
Definition file_url (value : string) : Location :=
  let rest := str_drop 5 value in
  match strip_prefix "//" rest with
  | None => decoded_path rest
  | Some after =>
      let '(authority, path) := break_at (one_of "/") after in
      if is_empty_str authority || eq_ignore_case authority "localhost" then decoded_path path
      else if string_eqb authority "." || string_eqb authority ".." then decoded_path after
      else RemoteLocation
  end.
Definition locate_value (value : string) : Location :=
  match scheme_of value with
  | Some s =>
      if string_eqb s "file" then file_url value
      else if string_eqb s "sqlite" && starts_with "sqlite:" value then sqlite_file value
      else if string_eqb s "duckdb" && starts_with "duckdb:" value then Local (trim_start_matches "duckdb:" (trim_start_matches "duckdb://" value))
      else if mem s REMOTE_PATH_SCHEMES && starts_with "//" (str_drop (String.length s + 1) value) then RemoteLocation
      else Local value
  | None => Local value
  end.
Definition local_path (value : string) : result (option string) Failure :=
  match locate_value value with
  | Local p => Ok (Some p)
  | RemoteLocation => Ok None
  | RefusedLocation _ => Ok (Some value)
  | PanickedLocation => Err Panicked
  end.
Definition has_parent_segment (value : string) : bool :=
  let after := match split_once_str "://" value with Some (_, a) => a | None => value end in
  existsb (fun seg => opt_test (fun d => string_eqb (trim d) "..") (percent_decoded seg) || string_eqb seg "..") (split_any (one_of "/\") after).
Definition is_relative_path (value : string) : bool :=
  match split_once "/"%char value with
  | Some (first, _) => negb (has_any (one_of ".:[") first) && negb (eq_ignore_case first "localhost") && negb (is_some (parse_ip (canonical_host first)))
  | None => false
  end.

(** [database_url_params]. *)
Definition database_url_params (value : string) : list (string * string) :=
  let value := trim value in
  if starts_with "(" value then descriptor_pairs value
  else if negb (contains_str "://" value) then default [] (connection_string_pairs value)
  else if negb (opt_test (fun s => mem s DB_URL_SCHEMES) (scheme_of value)) then []
  else let query := match split_once "?"%char value with Some (_, q) => before_any "#" q | None => EmptyString end in
       (fun kv => (string_lower kv.1, kv.2)) <$> form_parse query.

(** The authority's hosts of a URL the parser is not asked about, with the query's. *)
Definition strip_port (h : string) : string :=
  if starts_with "[" h then match break_at (one_of "]") h with (a, EmptyString) => h | (a, _) => a +:+ "]" end
  else match split_last ":"%char h with Some (host, port) => if str_all is_ascii_digit port then host else h | None => h end.
Definition nonempty (l : list string) : list string := List.filter (fun h => negb (is_empty_str h)) l.
Definition authority_hosts (value : string) (scheme : option string) (special : bool) : list string :=
  let after := match split_once_str "://" value with
               | Some (_, a) => a
               | None => match scheme with Some s => str_drop (String.length s + 1) value | None => value end
               end in
  let authority := before_any (if special then "/?#\" else "/?#") after in
  let hosts := match split_last "@"%char authority with Some (_, h) => h | None => authority end in
  let hosts := before_any ";" hosts in
  nonempty ((fun h => canonical_host (strip_port h)) <$> split_any (one_of ",") hosts)
  ++ flat_map (fun kv => if mem kv.1 DB_HOST_PARAMS && negb (starts_with "/" kv.2)
                         then nonempty ((fun h => canonical_host (trim h)) <$> split_any (one_of ",") kv.2) else []) (database_url_params value).
Definition host_str (h : UrlHost) : string :=
  match h with HostV4 o => v4_text o | HostV6 seg => "[" +:+ v6_text seg +:+ "]" | Domain d => d end.
(** [url_hosts] of a value that is no connection string. *)
Definition plain_url_hosts (value : string) : list string :=
  let scheme := scheme_of value in
  let special := match scheme with Some s => mem s SPECIAL_SCHEMES | None => true end in
  match (if is_some scheme && special && negb (contains_str "${" value) then url_parse value else None) with
  | Some host => nonempty ((fun h => canonical_host (host_str h)) <$> option_list host)
  | None => authority_hosts value scheme special
  end.
(** [connection_string_hosts]; [hosts_of] reads the values. *)
Definition pair_value (key : string) (pairs : list (string * string)) : option string := snd <$> List.find (fun kv => string_eqb kv.1 key) pairs.
Definition descriptor_hosts (value : string) : list string :=
  let hosts := nonempty ((fun kv => canonical_host kv.2) <$> List.filter (fun kv => string_eqb kv.1 "host") (descriptor_pairs value)) in
  if is_nil hosts then ["localhost"] else hosts.
Definition server_host (hosts_of : string -> list string) (v : string) : list string :=
  let lower := string_lower v in
  let bare := match List.find (fun p => starts_with p lower) ["tcp:"; "np:"; "lpc:"; "admin:"] with Some p => str_drop (String.length p) v | None => v end in
  let bare := before_any "\" (before_any "," bare) in
  if starts_with "/" bare then [] else hosts_of (if contains_str "://" bare then bare else "tcp://" +:+ bare).
Definition connection_hosts (hosts_of : string -> list string) (pairs : list (string * string)) : list string :=
  let named := flat_map (fun kv => if mem kv.1 CONN_HOST_KEYS then server_host hosts_of kv.2
                                   else if mem kv.1 CONN_ENDPOINT_KEYS then hosts_of kv.2 else []) pairs in
  let account := match pair_value "accountname" pairs with
                 | Some account => if is_some (pair_value "blobendpoint" pairs) then []
                                   else [canonical_host (account +:+ ".blob." +:+ default "core.windows.net" (pair_value "endpointsuffix" pairs))]
                 | None => []
                 end in
  let devel := if opt_test (fun v => eq_ignore_case v "true") (pair_value "usedevelopmentstorage" pairs) then ["127.0.0.1"] else [] in
  let hosts := named ++ account ++ devel in
  nonempty (if is_nil hosts then ["localhost"] else hosts).
(** [url_hosts]; a value of a connection string is shorter than the string, and one given a
    scheme is read at once, so the length and two more are fuel enough. *)
Fixpoint url_hosts_go (fuel : nat) (value : string) : list string :=
  match fuel with
  | O => []
  | S fuel =>
      let value := trim value in
      if starts_with "(" value then descriptor_hosts value
      else match (if contains_str "://" value then None else connection_string_pairs value) with
           | Some pairs => connection_hosts (url_hosts_go fuel) pairs
           | None => plain_url_hosts value
           end
  end.
Definition url_hosts (value : string) : list string := url_hosts_go (S (S (String.length value))) value.

(** ** Paths *)

Context (canonicalize : list string -> option (list string)) (current_dir : option (list string)).
(** The components of a path below the root; an empty one and [.] name nothing. *)
Definition components (path : string) : list string :=
  List.filter (fun c => negb (is_empty_str c || string_eqb c ".")) (split_any (one_of "/") path).
(** The loop of [normalize] over prefixes, the longest first. *)
Fixpoint normalize_from (k : nat) (comps : list string) : option (list string) :=
  match canonicalize (take k comps) with
  | Some out => if mem ".." (drop k comps) then None else Some (out ++ drop k comps)
  | None => match k with O => None | S k => normalize_from k comps end
  end.
Definition absolute (path : string) : option (list string) :=
  if starts_with "/" path then Some (components path) else (fun d => d ++ components path) <$> current_dir.
Definition normalize (path : string) : option (list string) := comps ← absolute path; normalize_from (length comps) comps.
Fixpoint path_under (root target : list string) : bool :=
  match root, target with
  | [], _ => true
  | r :: root, t :: target => string_eqb r t && path_under root target
  | _ :: _, [] => false
  end.

(** The part of a path before a pattern or token, and the part from it on. *)
Definition base_and_rest (path : string) : string * string :=
  let '(static, dynamic) := break_at (one_of "*?[{") path in
  if is_empty_str dynamic then (path, EmptyString)
  else match split_last "/"%char static with
       | Some (dir, name) => (if is_empty_str dir then "/" else dir, name +:+ dynamic)
       | None => (".", path)
       end.
Definition exempt_path (path : string) : bool := is_empty_str path || string_eqb path ":memory:" || string_eqb path "/dev/null".
Definition check_local (p : ReferencePolicy) (path : string) : result unit string :=
  match rp_path_roots p with
  | None => Ok tt
  | Some roots =>
      if exempt_path path then Ok tt
      else if ambiguous_first_segment path then
        Err "a relative path whose first segment contains `:` reads as a URL scheme; write it as `./…` or use an absolute path"
      else if starts_with "~" path then Err "a path starting with `~` may be expanded to a home directory; use an absolute path"
      else
        let '(base, rest) := base_and_rest path in
        if mem ".." (split_any (one_of "/") rest) then Err "a pattern or token segment may not contain `..`"
        else match normalize base with
             | None => Err "a `..` below a directory that does not exist cannot be checked"
             | Some target =>
                 if existsb (fun root => path_under root target) (omap normalize roots) then Ok tt
                 else Err (if is_nil roots then "local paths are not allowed" else "outside the allowed path roots (" +:+ join ", " roots +:+ ")")
             end
  end.

(** ** The checks *)

Definition refuse_as {A} (kind : RefusalKind) (subject : string) (r : result A string) : result A Failure :=
  match r with Ok a => Ok a | Err reason => Err (refusal kind subject reason) end.
Definition check_env (p : ReferencePolicy) (name : string) : result unit Failure :=
  match rp_env p with
  | None => Ok tt
  | Some l => if existsb (fun q => name_matches q name) l then Ok tt else Err (refusal REnv name "environment variable not in the allow-list")
  end.
Definition check_file (p : ReferencePolicy) (path : string) : result unit Failure := refuse_as RFile path (check_local p path).
Definition check_secret (p : ReferencePolicy) (scheme reference : string) : result unit Failure :=
  match rp_secret_schemes p with
  | None => Ok tt
  | Some set => if bool_decide (string_lower scheme ∈ set) then Ok tt
                else Err (refusal RSecret (scheme +:+ ":" +:+ reference) "secret-manager scheme not in the allow-list")
  end.
Definition check_host (p : ReferencePolicy) (value host : string) : result unit Failure :=
  if contains_str "${" host || contains_char "*"%char host then
    if is_some (rp_url_hosts p) then Err (refusal RUrl value "a host taken from a token cannot be checked against the host allow-list") else Ok tt
  else match rp_url_hosts p with
       | Some l => if existsb (fun q => host_matches q host) l then Ok tt else Err (refusal RUrl value ("host `" +:+ host +:+ "` not in the allow-list"))
       | None => if is_metadata_host host then Err (refusal RUrl value ("host `" +:+ host +:+ "` is a link-local / metadata endpoint")) else Ok tt
       end.
Definition check_param (p : ReferencePolicy) (value : string) (kv : string * string) : result unit Failure :=
  let '(key, v) := kv in
  let? _ := (if mem key DB_PATH_PARAMS || (mem key DB_HOST_PARAMS && starts_with "/" v) then
               match check_local p v with Ok _ => Ok tt | Err reason => Err (refusal RPath value ("`" +:+ key +:+ "`: " +:+ reason)) end
             else Ok tt) in
  if existsb (fun kl => string_eqb kl.1 key && existsb (fun x => eq_ignore_case x v) kl.2) DB_UNVERIFIED_PARAMS && negb (rp_unverified p) then
    Err (refusal RUrl value ("`" +:+ key +:+ "=" +:+ v +:+ "` turns off certificate verification"))
  else Ok tt.
Fixpoint all_pass {A} (f : A -> result unit Failure) (l : list A) : result unit Failure :=
  match l with [] => Ok tt | a :: l => let? _ := f a in all_pass f l end.
(** The value names no host of its own. *)
Definition names_no_host (value : string) (scheme : option string) : bool :=
  negb (is_some scheme) &&
  (match value with String c _ => one_of "/.?#" c | EmptyString => false end
   || (is_relative_path value && negb (starts_with "(" value) && negb (is_some (connection_string_pairs value)))).
Definition insecure_fragment (value : string) (scheme : option string) : bool :=
  opt_test (fun s => string_eqb s "rediss" || string_eqb s "valkeys") scheme
  && opt_test (fun af => eq_ignore_case af.2 "insecure") (split_once "#"%char value).
Definition is_file_scheme (scheme : option string) : bool := opt_test (fun s => string_eqb s "file" || string_eqb s "sqlite") scheme.
Definition check_url (p : ReferencePolicy) (value : string) : result unit Failure :=
  let scheme := if starts_with "/" value then None else scheme_of value in
  if is_file_scheme scheme then
    match locate_value value with
    | Local path => refuse_as RPath value (check_local p path)
    | PanickedLocation => Err Panicked
    | other => if negb (is_some (rp_path_roots p)) then Ok tt
               else match other with
                    | RefusedLocation reason => Err (refusal RPath value reason)
                    | _ => Err (refusal RUrl value "a `file:` URL that names a remote host is not a local path")
                    end
    end
  else if names_no_host value scheme then Ok tt
  else
    let? _ := (match scheme, rp_url_schemes p with
               | Some s, Some allowed => if bool_decide (s ∈ allowed) then Ok tt else Err (refusal RUrl value ("URL scheme `" +:+ s +:+ "` not in the allow-list"))
               | _, _ => Ok tt
               end) in
    let? _ := all_pass (check_host p value) (url_hosts value) in
    let? _ := all_pass (check_param p value) (database_url_params value) in
    if negb (rp_unverified p) && insecure_fragment value scheme then
      Err (refusal RUrl value "the `#insecure` fragment turns off certificate verification")
    else Ok tt.
Definition check_path (p : ReferencePolicy) (value : string) : result unit Failure :=
  match locate_value value with
  | Local path => refuse_as RPath value (check_local p path)
  | RemoteLocation =>
      if is_some (rp_path_roots p) && has_parent_segment value
      then Err (refusal RPath value "a remote location in a path field may not contain a `..` segment")
      else check_url p value
  | RefusedLocation reason => if is_some (rp_path_roots p) then Err (refusal RPath value reason) else Ok tt
  | PanickedLocation => Err Panicked
  end.
Definition check_command (p : ReferencePolicy) (value : string) : result unit Failure :=
  if rp_subprocess p then Ok tt else Err (refusal RCommand value "connectors that run a program are not allowed").
Definition check_reference (p : ReferencePolicy) (r : ResourceRef) : result unit Failure :=
  match rr_kind r with
  | KPath => check_path p (rr_value r)
  | KUrl => check_url p (rr_value r)
  | KCommand => check_command p (rr_value r)
  | KUnverified => if rp_unverified p then Ok tt
                   else Err (refusal RUnverified (rr_value r) "settings that turn off certificate or host-key verification are not allowed")
  | KHostCredentials => if rp_host_credentials p then Ok tt
                        else Err (refusal RHostCredentials (rr_value r) "settings that authenticate with the server's own credentials are not allowed")
  end.
(** [check_url_resolved], [check_resolved]; [lookup] resolves a name. *)
Context (lookup : string -> option (list IpAddr)).
Definition check_resolved_host (p : ReferencePolicy) (value host : string) : result unit Failure :=
  let bare := bare_host host in
  if contains_str "${" host || contains_char "*"%char host || is_some (parse_ip bare) then Ok tt
  else match lookup bare with
       | None => Ok tt
       | Some addrs => match screen_resolved host addrs (Some p) with Ok _ => Ok tt | Err reason => Err (refusal RUrl value reason) end
       end.
Definition check_url_resolved (p : ReferencePolicy) (value : string) : result unit Failure :=
  let? _ := check_url p value in
  if is_file_scheme (scheme_of value) then Ok tt else all_pass (check_resolved_host p value) (url_hosts value).
Definition check_resolved (p : ReferencePolicy) (r : ResourceRef) : result unit Failure :=
  match rr_kind r with
  | KUrl => check_url_resolved p (rr_value r)
  | KPath => match locate_value (rr_value r) with RemoteLocation => check_url_resolved p (rr_value r) | _ => check_reference p r end
  | _ => check_reference p r
  end.
End Resolve.

(** ** Annotated fields of a config *)

Definition RESOURCE_ANNOTATION : string := "x-faucet-resource".
Definition RESOURCE_KEYS_ANNOTATION : string := "x-faucet-resource-keys".
Definition UNVERIFIED_ANNOTATION : string := "x-faucet-unverified".
Definition HOST_CREDENTIALS_ANNOTATION : string := "x-faucet-host-credentials".
Definition SANDBOX_ANNOTATION : string := "x-faucet-sandbox".
Definition SQL_ANNOTATION : string := "x-faucet-sql".
Definition RESOLVE_MAX_DEPTH : nat := 64.

Definition key_pattern_matches (pattern key : string) : bool :=
  let key := string_lower key in
  let pattern := string_lower pattern in
  match strip_prefix "*" pattern with
  | Some rest => match strip_suffix "*" rest with
                 | Some infix => if is_empty_str infix then ends_with rest key else contains_str infix key
                 | None => ends_with rest key
                 end
  | None => match strip_suffix "*" pattern with Some prefix => starts_with prefix key | None => string_eqb key pattern end
  end.
Definition keyed_annotation (node : Value) (key : string) : option ResourceKind :=
  node ← get node RESOURCE_KEYS_ANNOTATION;
  m ← as_object node;
  e ← List.find (fun e => key_pattern_matches e.1 key) m;
  k ← as_str e.2;
  resource_parse k.
Definition annotation_of (node : Value) : option ResourceKind :=
  v ← get node RESOURCE_ANNOTATION;
  k ← as_str v;
  resource_parse k.
(** [find_map]. *)
Fixpoint find_first {A B} (f : A -> option B) (l : list A) : option B :=
  match l with [] => None | a :: l => match f a with Some b => Some b | None => find_first f l end end.

(** The elements of a [BTreeSet] filled from a list. *)
Fixpoint ordered_insert {A} (cmp : A -> A -> comparison) (a : A) (l : list A) : list A :=
  match l with
  | [] => [a]
  | b :: l' => match cmp a b with Lt => a :: l | Eq => l | Gt => b :: ordered_insert cmp a l' end
  end.
Definition ordered_set {A} (cmp : A -> A -> comparison) (l : list A) : list A := foldl (fun s a => ordered_insert cmp a s) [] l.
(** [retain] with a set of the seen: the first of equal elements stays. *)
Fixpoint retain_new {A} `{EqDecision A} (seen l : list A) : list A :=
  match l with
  | [] => []
  | a :: l => if bool_decide (a ∈ seen) then retain_new seen l else a :: retain_new (a :: seen) l
  end.
Definition kind_rank (k : ResourceKind) : nat := match k with KPath => 0 | KUrl => 1 | KCommand => 2 | KUnverified => 3 | KHostCredentials => 4 end.
Definition field_compare (a b : string * ResourceKind) : comparison :=
  match String.compare a.1 b.1 with Eq => Nat.compare (kind_rank a.2) (kind_rank b.2) | c => c end.
Definition in_texts (l : Value) (s : string) : bool :=
  match l with VArray vs => existsb (fun v => opt_test (fun t => eq_ignore_case t (trim s)) (as_str v)) vs | _ => false end.
Definition flagged_setting (node value : Value) (annotation : string) : option (string * string) :=
  a ← get node annotation;
  match a, value with
  | VBool true, VBool true => Some (EmptyString, "true")
  | VBool true, VObject map =>
      props ← get node "properties";
      props ← as_object props;
      let consts := omap (fun e => (fun c => (e.1, c)) <$> get e.2 "const") props in
      first ← head consts;
      if forallb (fun kc => bool_decide (assoc kc.1 map = Some kc.2)) consts then Some (first.1, default EmptyString (as_str first.2)) else None
  | VArray _, VString s => if in_texts a s then Some (EmptyString, s) else None
  | VObject keys, VObject map =>
      find_first (fun e => l ← List.find (fun kl => eq_ignore_case kl.1 e.1) keys; s ← as_str e.2; if in_texts l.2 s then Some (e.1, s) else None) map
  | _, _ => None
  end.
Definition escape_pointer (key : string) : string := replace_str "/" "~1" (replace_str "~" "~0" key).

Section Annotations.
Context (pointer : Value -> string -> option Value) (root : Value).

(** [deref], with whether a reference was followed. *)
Fixpoint deref_go (fuel : nat) (cur : Value) : Value :=
  match fuel with
  | O => cur
  | S fuel => match (v ← get cur "$ref"; r ← as_str v; strip_prefix "#" r) with
              | Some p => match pointer root p with Some next => deref_go fuel next | None => cur end
              | None => cur
              end
  end.
Definition deref (node : Value) : Value := deref_go RESOLVE_MAX_DEPTH node.
Definition branches (node : Value) : list Value :=
  flat_map (fun key => match get node key with Some (VArray l) => l | _ => [] end) ["oneOf"; "anyOf"; "allOf"].
(** [alternatives]; the fuel is what is left of the depth. A node and what it refers to
    are told apart by value, not by address. *)
Fixpoint alternatives_go (fuel : nat) (node : Value) : list Value :=
  match fuel with
  | O => []
  | S fuel =>
      let target := deref node in
      node :: (if bool_decide (target = node) then [] else [target]) ++ flat_map (alternatives_go fuel) (branches target)
  end.
Definition alternatives (node : Value) : list Value := alternatives_go (S RESOLVE_MAX_DEPTH) node.

Definition flagged_refs (alts : list Value) (value : Value) (ptr : string) : list ResourceRef :=
  flat_map (fun ak =>
    match find_first (fun n => flagged_setting n value ak.1) alts with
    | Some (key, setting) =>
        let field := replace_str "/" "." (trim_start_matches "/" ptr) in
        let field := if is_empty_str key then field else if is_empty_str field then key else field +:+ "." +:+ key in
        [MkResourceRef ptr ak.2 (field +:+ ": " +:+ setting)]
    | None => []
    end) [(UNVERIFIED_ANNOTATION, KUnverified); (HOST_CREDENTIALS_ANNOTATION, KHostCredentials)].
Definition object_at (key : string) (node : Value) : option Value :=
  match get node key with Some (VObject m) => Some (VObject m) | _ => None end.
(** The schema an alternative gives a property. *)
Definition property_schema (alt : Value) (k : string) : option Value :=
  match (props ← get alt "properties"; get props k) with
  | Some s => Some s
  | None => object_at "additionalProperties" alt
  end.
Definition string_ref (kind : option ResourceKind) (value : Value) (ptr : string) : list ResourceRef :=
  match kind, value with Some kind, VString s => [MkResourceRef ptr kind s] | _, _ => [] end.
Fixpoint visit (fuel : nat) (node value : Value) (ptr : string) : list ResourceRef :=
  match fuel with
  | O => []
  | S fuel =>
      let alts := alternatives node in
      let kind := find_first annotation_of alts in
      flagged_refs alts value ptr ++
      match value with
      | VString _ => string_ref kind value ptr
      | VArray items =>
          concat (imap (fun i item =>
            let p := ptr +:+ "/" +:+ dec (Z.of_nat i) in
            string_ref kind item p ++
            flat_map (fun alt => match object_at "items" alt with Some s => visit fuel s item p | None => [] end) alts) items)
      | VObject map =>
          flat_map (fun e =>
            let p := ptr +:+ "/" +:+ escape_pointer e.1 in
            string_ref (find_first (fun n => keyed_annotation n e.1) alts) e.2 p ++
            flat_map (fun alt => match property_schema alt e.1 with Some s => visit fuel s e.2 p | None => [] end) alts) map
      | _ => []
      end
  end.
Definition annotated_resources (config : Value) : list ResourceRef := retain_new [] (visit (S RESOLVE_MAX_DEPTH) root config EmptyString).

(** [collect_fields]: the fields a schema declares, to a depth of 12. *)
Fixpoint collect_fields (fuel : nat) (node : Value) (path : string) : list (string * ResourceKind) :=
  match fuel with
  | O => []
  | S fuel =>
      let alts := alternatives node in
      match find_first annotation_of alts with Some kind => if is_empty_str path then [] else [(path, kind)] | None => [] end ++
      flat_map (fun alt =>
        match get alt RESOURCE_KEYS_ANNOTATION with
        | Some (VObject keys) => omap (fun e => k ← as_str e.2; kind ← resource_parse k; Some (path +:+ "{" +:+ e.1 +:+ "}", kind)) keys
        | _ => []
        end ++
        match get alt "properties" with
        | Some (VObject props) => flat_map (fun e => collect_fields fuel e.2 (if is_empty_str path then e.1 else path +:+ "." +:+ e.1)) props
        | _ => []
        end ++
        match object_at "items" alt with Some s => collect_fields fuel s (path +:+ "[]") | None => [] end ++
        match object_at "additionalProperties" alt with Some s => collect_fields fuel s (path +:+ "{}") | None => [] end) alts
  end.
Definition annotated_fields : list (string * ResourceKind) := ordered_set field_compare (collect_fields 13 root EmptyString).
Definition declares (kind : ResourceKind) : bool := existsb (fun fk => bool_decide (fk.2 = kind)) annotated_fields.

(** [flagged_fields], [sandbox_fields], [sql_fields]. *)
Definition flagged_fields (annotation : string) : list string :=
  ordered_set String.compare (flat_map (fun alt =>
    match get alt "properties" with
    | Some (VObject props) => omap (fun e => if existsb (fun n => bool_decide (get n annotation = Some (VBool true))) (alternatives e.2) then Some e.1 else None) props
    | _ => []
    end) (alternatives root)).
Definition sandbox_fields : list string := flagged_fields SANDBOX_ANNOTATION.
Definition sql_fields : list string := flagged_fields SQL_ANNOTATION.
End Annotations.

(** ** The hosts of a value: enough fuel *)

Lemma strip_ws_length w2 w3 l : (length (strip_ws w2 w3 l) <= length l)%nat.
Proof.
  remember (length l) as n eqn:Hn. revert l Hn. induction n as [n IH] using lt_wf_ind. intros [|a l] ->; [done|].
  assert (forall l', (length l' < length (a :: l))%nat -> (length (strip_ws w2 w3 l') <= length (a :: l))%nat) as H.
  { intros l' Hl. specialize (IH (length l') Hl l' eq_refl). lia. }
  cbn [strip_ws]. destruct (ws1 a); [apply H; cbn; lia|]. destruct l as [|b l]; [done|].
  destruct (w2 a b); [apply H; cbn; lia|]. destruct l as [|c l]; [done|]. destruct (w3 a b c); [apply H; cbn; lia|done].
Qed.
Lemma length_of_list l : String.length (String.string_of_list_ascii l) = length l.
Proof. induction l as [|c l IH]; [done|]. cbn. by rewrite IH. Qed.
Lemma length_to_list s : length (String.list_ascii_of_string s) = String.length s.
Proof. induction s as [|c s IH]; [done|]. cbn. by rewrite IH. Qed.
Lemma trim_length s : (String.length (trim s) <= String.length s)%nat.
Proof.
  unfold trim. rewrite length_of_list, length_rev. etransitivity; [apply strip_ws_length|]. rewrite length_rev.
  etransitivity; [apply strip_ws_length|]. by rewrite length_to_list.
Qed.
Lemma break_at_length f s : (String.length (break_at f s).1 <= String.length s)%nat.
Proof. induction s as [|c s IH]; [done|]. cbn [break_at]. destruct (f c), (break_at f s); cbn in *; lia. Qed.
Lemma split_any_length f s : Forall (fun x => (String.length x <= String.length s)%nat) (split_any f s).
Proof.
  induction s as [|c s IH]; [repeat constructor|]. cbn [split_any]. destruct (f c).
  - constructor; [cbn; lia|]. eapply Forall_impl; [exact IH|]. cbn. lia.
  - destruct (split_any f s) as [|x l]; [apply Forall_singleton; cbn; lia|]. apply Forall_cons in IH as [Hx Hl].
    apply Forall_cons. split; [cbn; lia|]. eapply Forall_impl; [exact Hl|]. cbn. lia.
Qed.
Lemma str_rev_length s : String.length (str_rev s) = String.length s.
Proof.
  unfold str_rev. assert (forall acc, String.length (str_rev_go s acc) = (String.length s + String.length acc)%nat) as H; [|by rewrite H; cbn; lia].
  induction s as [|c s IH]; intros acc; [done|]. cbn [str_rev_go]. rewrite IH. cbn. lia.
Qed.
Lemma unwrap_chars_length l r s t : unwrap_chars l r s = Some t -> (String.length t <= String.length s)%nat.
Proof.
  unfold unwrap_chars. destruct s as [|c s]; [done|]. destruct (l c); [|done]. pose proof (str_rev_length s) as Hl.
  destruct (str_rev s) as [|d u]; [done|]. destruct (r d); [|done]. intros [= <-]. rewrite str_rev_length. cbn in *. lia.
Qed.
Lemma unquote_length v : (String.length (unquote v) <= String.length v)%nat.
Proof.
  unfold unquote. etransitivity; [|apply (trim_length v)]. generalize (trim v). intros t.
  destruct (unwrap_chars (one_of "{") _ t) eqn:E1; [by apply unwrap_chars_length in E1|].
  destruct (unwrap_chars is_dquote _ t) eqn:E2; [by apply unwrap_chars_length in E2|].
  destruct (unwrap_chars (one_of "'") _ t) eqn:E3; [by apply unwrap_chars_length in E3|done].
Qed.
Lemma connection_pairs_shorter value pairs kv :
  connection_string_pairs value = Some pairs -> kv ∈ pairs -> (String.length kv.2 < String.length value)%nat.
Proof.
  unfold connection_string_pairs. destruct (split_once _ _) as [[k0 v0]|]; [|done]. cbn [mbind option_bind].
  destruct (_ || _); [done|]. intros [= <-] Hin. apply list_elem_of_fmap in Hin as ([k v] & -> & Hin). cbn [fst snd].
  apply list_elem_of_omap in Hin as (part & Hpart & Hs).
  pose proof (proj1 (Forall_forall _ _) (split_any_length _ value) part Hpart) as Hle. cbn in Hle.
  assert (String.length v < String.length part)%nat; [|pose proof (unquote_length v); lia].
  clear -Hs. revert k v Hs. induction part as [|c part IH]; intros k v; [done|]. cbn [split_once].
  destruct (Ascii.eqb _ _); [intros [= <- <-]; cbn; lia|]. destruct (split_once _ part) as [[a b]|]; [|done].
  intros [= <- <-]. specialize (IH a b eq_refl). cbn. lia.
Qed.

Section Fuel.
Context (url_parse : string -> option (option UrlHost)) (form_parse : string -> list (string * string)).
Notation url_hosts_go := (url_hosts_go url_parse form_parse).

(** A suffix that starts past a slash is not trimmed away. *)
Lemma strip_ws_keeps w2 w3 l z :
  (forall a, w2 a "/"%char = false) -> (forall a b, w3 a "/"%char b = false) -> (forall a b, w3 a b "/"%char = false) ->
  exists y, strip_ws w2 w3 (l ++ "/"%char :: "/"%char :: z) = y ++ "/"%char :: "/"%char :: z.
Proof.
  intros H2 H3 H3'. remember (length l) as n eqn:Hn. revert l Hn. induction n as [n IH] using lt_wf_ind. intros l ->.
  assert (forall l', (length l' < length l)%nat -> exists y, strip_ws w2 w3 (l' ++ "/"%char :: "/"%char :: z) = y ++ "/"%char :: "/"%char :: z) as H.
  { intros l' Hl. by apply (IH (length l')). }
  clear IH. destruct l as [|a l]; [exists []; cbn; rewrite H2; destruct z; [done|]; by rewrite H3|].
  cbn [app strip_ws]. destruct (ws1 a); [apply H; cbn; lia|].
  destruct l as [|b l]; cbn [app]; [rewrite H2, H3; by exists [a]|]. destruct (w2 a b); [apply H; cbn; lia|].
  destruct l as [|c l]; cbn [app]; [rewrite H3'; by exists [a; b]|]. destruct (w3 a b c); [apply H; cbn; lia|].
  by exists (a :: b :: c :: l).
Qed.
Lemma tcp_has_scheme bare : contains_str "://" (trim ("tcp://" +:+ bare)) = true.
Proof.
  unfold trim. change (String.list_ascii_of_string ("tcp://" +:+ bare)) with ("t" :: "c" :: "p" :: ":" :: "/" :: "/" :: String.list_ascii_of_string bare)%char.
  generalize (String.list_ascii_of_string bare). intros l.
  change (strip_ws ws2 ws3 ("t" :: "c" :: "p" :: ":" :: "/" :: "/" :: l)%char) with ("t" :: "c" :: "p" :: ":" :: "/" :: "/" :: l)%char.
  assert (rev ("t" :: "c" :: "p" :: ":" :: "/" :: "/" :: l)%char = rev l ++ ["/"; "/"; ":"; "p"; "c"; "t"]%char) as ->.
  { cbn [rev]. by rewrite <- !app_assoc. }
  destruct (strip_ws_keeps (fun a b => ws2 b a) (fun a b c => ws3 c b a) (rev l) [":"; "p"; "c"; "t"]%char) as [y ->]; [done| |done|].
  - intros a b. unfold ws3. cbn. by rewrite !andb_false_r.
  - rewrite rev_app_distr. reflexivity.
Qed.
(** A value is read within its fuel: at once when it has a scheme, and otherwise within its
    length. *)
Definition enough_fuel (fuel : nat) (value : string) : Prop :=
  (contains_str "://" (trim value) = true /\ (0 < fuel)%nat) \/ (String.length value < fuel)%nat.
Lemma connection_hosts_ext f g pairs :
  (forall kv, kv ∈ pairs -> f kv.2 = g kv.2) -> (forall kv, kv ∈ pairs -> server_host f kv.2 = server_host g kv.2) ->
  connection_hosts url_parse f pairs = connection_hosts url_parse g pairs.
Proof.
  intros Hv Hs. unfold connection_hosts.
  assert (forall l, (forall kv, kv ∈ l -> kv ∈ pairs) ->
    flat_map (fun kv => if mem kv.1 CONN_HOST_KEYS then server_host f kv.2 else if mem kv.1 CONN_ENDPOINT_KEYS then f kv.2 else []) l
    = flat_map (fun kv => if mem kv.1 CONN_HOST_KEYS then server_host g kv.2 else if mem kv.1 CONN_ENDPOINT_KEYS then g kv.2 else []) l) as Hl.
  { induction l as [|kv l IH]; intros Hin; [done|]. cbn [flat_map]. rewrite IH by (intros; apply Hin; by right).
    rewrite Hs, Hv by (apply Hin; by left). done. }
  by rewrite Hl.
Qed.
Lemma server_host_length v p : (String.length (before_any "\" (before_any "," (str_drop p v))) <= String.length v)%nat.
Proof.
  unfold before_any. etransitivity; [apply break_at_length|]. etransitivity; [apply break_at_length|].
  revert v. induction p as [|p IH]; intros [|c v]; cbn; try lia. specialize (IH v). lia.
Qed.
Lemma server_host_ext f g v :
  (forall x, enough_fuel (S (String.length v)) x -> f x = g x) -> server_host f v = server_host g v.
Proof.
  intros H. unfold server_host. destruct (starts_with "/" _); [done|]. destruct (contains_str "://" _); apply H.
  - right. destruct (List.find _ _) as [p|]; [pose proof (server_host_length v (String.length p)); lia|].
    pose proof (server_host_length v 0). cbn [str_drop] in *. lia.
  - left. split; [apply tcp_has_scheme|lia].
Qed.
Lemma url_hosts_go_enough fuel fuel' value :
  enough_fuel fuel value -> (fuel <= fuel')%nat -> url_hosts_go fuel value = url_hosts_go fuel' value.
Proof.
  revert fuel' value. induction fuel as [|fuel IH]; intros fuel' value Hf Hle; [destruct Hf as [[_ ?]|?]; lia|].
  destruct fuel' as [|fuel']; [lia|]. cbn [Resolve.url_hosts_go]. destruct (starts_with "(" _); [done|].
  destruct (contains_str "://" (trim value)) eqn:Es; [done|]. destruct (connection_string_pairs _) as [pairs|] eqn:Ep; [|done].
  assert (String.length value < S fuel)%nat as Hlen by (destruct Hf as [[? _]|?]; [congruence|done]).
  assert (forall kv, kv ∈ pairs -> (String.length kv.2 < fuel)%nat) as Hkv.
  { intros kv Hin. pose proof (connection_pairs_shorter _ _ _ Ep Hin). pose proof (trim_length value). lia. }
  apply connection_hosts_ext; intros kv Hin; specialize (Hkv kv Hin).
  - apply IH; [by right|lia].
  - apply server_host_ext. intros x Hx. apply IH; [|lia]. destruct Hx as [[? ?]|?]; [left; split; [done|lia]|right; lia].
Qed.
(** The fuel [url_hosts] takes is enough: more changes nothing. *)
Theorem url_hosts_settled value fuel :
  (String.length value < fuel)%nat -> url_hosts url_parse form_parse value = url_hosts_go fuel value.
Proof.
  intros Hf. unfold Resolve.url_hosts. destruct (decide (fuel <= S (S (String.length value)))%nat).
  - symmetry. apply url_hosts_go_enough; [by right|done].
  - apply url_hosts_go_enough; [right; lia|lia].
Qed.
End Fuel.

(** ** Paths stay under the roots *)

Section Confinement.
Context (canonicalize opened : list string -> option (list string)) (current_dir : option (list string)).
Notation normalize := (normalize canonicalize current_dir).
Notation normalize_from := (normalize_from canonicalize).
Notation absolute := (absolute current_dir).
Notation check_local := (check_local canonicalize current_dir).

(** [k] is the longest prefix of [comps] that exists, and it is [out]. *)
Definition exists_up_to (comps : list string) (k : nat) (out : list string) : Prop :=
  (k <= length comps)%nat /\ canonicalize (take k comps) = Some out
  /\ forall j, (k < j <= length comps)%nat -> canonicalize (take j comps) = None.
(** When a path is opened, with [names] in place of what a pattern stood for, what lies below
    the part of it that existed is not a link. *)
Definition no_links_below (comps names : list string) : Prop :=
  forall k out real, exists_up_to comps k out -> opened (comps ++ names) = Some real ->
    ~ ".." ∈ drop k comps ++ names -> real = out ++ drop k comps ++ names.

Lemma normalize_from_inv k comps target :
  (k <= length comps)%nat -> (forall j, (k < j <= length comps)%nat -> canonicalize (take j comps) = None) ->
  normalize_from k comps = Some target ->
  exists i out, exists_up_to comps i out /\ ~ ".." ∈ drop i comps /\ target = out ++ drop i comps.
Proof.
  induction k as [|k IH]; intros Hk Hn; cbn [Resolve.normalize_from];
    destruct (canonicalize _) as [out|] eqn:E; [|done| |].
  - destruct (mem _ _) eqn:M; [done|]. intros [= <-]. exists 0%nat, out.
    split_and!; [split_and!|by apply bool_decide_eq_false in M|]; done.
  - destruct (mem _ _) eqn:M; [done|]. intros [= <-]. exists (S k), out.
    split_and!; [split_and!|by apply bool_decide_eq_false in M|]; done.
  - intros H. apply IH; [lia| |done]. intros j Hj. destruct (decide (j = S k)) as [->|]; [done|]. apply Hn. lia.
Qed.
Lemma normalize_inv path target :
  normalize path = Some target ->
  exists comps i out, absolute path = Some comps /\ exists_up_to comps i out /\ ~ ".." ∈ drop i comps /\ target = out ++ drop i comps.
Proof.
  unfold Resolve.normalize. destruct (absolute path) as [comps|]; [|done]. cbn [mbind option_bind]. intros H.
  destruct (normalize_from_inv (length comps) comps target) as (i & out & ?); [lia|intros; lia|done|]. eauto 6.
Qed.
Lemma path_under_app root a b : path_under root a = true -> path_under root (a ++ b) = true.
Proof.
  revert a. induction root as [|r root IH]; [done|]. intros [|x a]; cbn [path_under app]; [done|].
  intros [? ?]%andb_true_iff. apply andb_true_iff. auto.
Qed.
Lemma check_local_inv p roots path :
  rp_path_roots p = Some roots -> exempt_path path = false -> check_local p path = Ok tt ->
  mem ".." (split_any (one_of "/") (base_and_rest path).2) = false /\
  exists root dir target, root ∈ roots /\ normalize root = Some dir
    /\ normalize (base_and_rest path).1 = Some target /\ path_under dir target = true.
Proof.
  unfold Resolve.check_local. intros -> ->. destruct (ambiguous_first_segment _); [done|]. destruct (starts_with _ _); [done|].
  destruct (base_and_rest path) as [base rest]. cbn [fst snd]. destruct (mem _ _) eqn:M; [done|].
  destruct (normalize base) as [target|]; [|done]. destruct (existsb _ _) eqn:E; [|by destruct (is_nil roots)].
  intros _. split; [done|]. apply existsb_exists in E as (dir & Hin & Hu).
  apply list_elem_of_In, list_elem_of_omap in Hin as (root & Hr & Hn). eauto 10.
Qed.
(** C25: A path the policy lets through stays inside an allowed directory when it is opened. Its
    part before a pattern is resolved, links included, and lies under the resolved root; with
    any file names in place of the pattern's segments (none of them [..]), what the path then
    opens lies under that root, provided that nothing created since, and nothing the pattern
    matched, is a link. *)
Theorem admitted_paths_are_confined p roots path (expand : string -> string) comps real :
  rp_path_roots p = Some roots -> exempt_path path = false -> check_local p path = Ok tt ->
  (forall seg, expand seg = ".." -> seg = "..") ->
  absolute (base_and_rest path).1 = Some comps ->
  let names := expand <$> components (base_and_rest path).2 in
  no_links_below comps names -> opened (comps ++ names) = Some real ->
  exists root dir, root ∈ roots /\ normalize root = Some dir /\ path_under dir real = true.
Proof.
  intros Hroots Hex Hok Hexp Habs names Hlinks Hopen.
  destruct (check_local_inv _ _ _ Hroots Hex Hok) as (Hrest & root & dir & target & Hin & Hdir & Htarget & Hu).
  apply normalize_inv in Htarget as (comps' & i & out & Habs' & Hup & Hdots & ->). simplify_eq.
  exists root, dir. split_and!; [done|done|]. rewrite (Hlinks i out real Hup Hopen).
  - rewrite app_assoc. by apply path_under_app.
  - intros [?|(seg & Hseg & Hc)%list_elem_of_fmap]%elem_of_app; [done|]. symmetry in Hseg. apply Hexp in Hseg as ->.
    apply bool_decide_eq_false in Hrest. apply Hrest.
    apply list_elem_of_In, filter_In in Hc as [Hc _]. by apply list_elem_of_In.
Qed.
End Confinement.

(** A file system with the directory [/data], a link [/link] to it and a link [/data/li] to
    [/etc]. *)
Definition linked_fs (l : list string) : option (list string) :=
  match l with
  | [] => Some []
  | ["data"] | ["link"] => Some ["data"]
  | ["data"; "li"] | ["etc"] => Some ["etc"]
  | _ => None
  end.
Definition linked_fs_later (l : list string) : option (list string) :=
  match l with ["link"; "new.csv"] => Some ["data"; "new.csv"] | _ => linked_fs l end.
Definition data_only : ReferencePolicy := with_path_roots (Some ["/data"]) policy_open.

Lemma admitted_paths_are_confined_witness :
  check_local linked_fs None data_only "/link/new.csv" = Ok tt
  /\ exists root dir, root ∈ ["/data"] /\ normalize linked_fs None root = Some dir /\ path_under dir ["data"; "new.csv"] = true.
Proof.
  split; [vm_compute; reflexivity|].
  apply (admitted_paths_are_confined linked_fs linked_fs_later None data_only ["/data"] "/link/new.csv" id ["link"; "new.csv"]);
    try (vm_compute; reflexivity); [done|].
  intros k out real (Hk & Hout & Hno) Ho _. cbn in Hk, Ho. injection Ho as <-.
  destruct k as [|[|[|k]]]; cbn in Hout; [|by simplify_eq|done|lia].
  specialize (Hno 1%nat). cbn in Hno. assert (Some ["data"] = None) by (apply Hno; lia). done.
Defined.
(** A literal path through a link that leaves the root is refused; the same path with a pattern
    for the link's name is checked only up to the directory before the pattern and passes here
    (the server's loader looks at what a pattern matches, [glob_match_escapes]). *)
Example pattern_reaches_through_a_link :
  check_local linked_fs None data_only "/data/li/passwd" = Err "outside the allowed path roots (/data)"
  /\ check_local linked_fs None data_only "/data/l[i]/passwd" = Ok tt.
Proof. by vm_compute. Qed.

(** ** Hosts *)

Section Hosts.
Context (url_parse : string -> option (option UrlHost)) (percent_decoded : string -> option string) (form_parse : string -> list (string * string)).
Context (canonicalize : list string -> option (list string)) (current_dir : option (list string)).
Notation canonical_host := (canonical_host url_parse).
Notation is_metadata_host := (is_metadata_host url_parse).
Notation host_matches := (host_matches url_parse).
Notation url_hosts := (url_hosts url_parse form_parse).
Notation check_url := (check_url url_parse percent_decoded form_parse canonicalize current_dir).
Notation check_param := (check_param canonicalize current_dir).

Lemma all_pass_ok {A} (f : A -> result unit Failure) l : all_pass f l = Ok tt <-> forall a, a ∈ l -> f a = Ok tt.
Proof.
  induction l as [|a l IH]; cbn [all_pass]; [split; [intros _ a H; by apply not_elem_of_nil in H|done]|].
  destruct (f a) as [[]|e] eqn:E; cbn [result_bind]; rewrite ?IH; split.
  - intros H b [->|Hb]%elem_of_cons; auto.
  - intros H b Hb. apply H. by right.
  - done.
  - intros H. rewrite H in E by left. done.
Qed.
Definition from_token (host : string) : bool := contains_str "${" host || contains_char "*"%char host.
Definition host_allowed (p : ReferencePolicy) (host : string) : Prop :=
  match rp_url_hosts p with
  | Some l => from_token host = false /\ exists q, q ∈ l /\ host_matches q host = true
  | None => from_token host = true \/ is_metadata_host host = false
  end.
Lemma check_host_ok p value host : check_host url_parse p value host = Ok tt -> host_allowed p host.
Proof.
  unfold check_host, host_allowed, from_token. destruct (contains_str _ _ || _), (rp_url_hosts p) as [l|] eqn:E; cbn [is_some]; try done.
  - by left.
  - destruct (existsb _ _) eqn:Ex; [|done]. intros _. split; [done|]. apply existsb_exists in Ex as (q & ?%list_elem_of_In & ?). eauto.
  - destruct (is_metadata_host host); [done|]. by right.
Qed.
Lemma check_param_ok p value kv : check_param p value kv = Ok tt ->
  kv.1 ∈ DB_PATH_PARAMS \/ (kv.1 ∈ DB_HOST_PARAMS /\ starts_with "/" kv.2 = true) -> check_local canonicalize current_dir p kv.2 = Ok tt.
Proof.
  destruct kv as [key v]. unfold Resolve.check_param. cbn [fst snd]. intros H Hin.
  assert (mem key DB_PATH_PARAMS || (mem key DB_HOST_PARAMS && starts_with "/" v) = true) as Hm.
  { unfold mem. destruct Hin as [Hin|[Hin Hs]]; rewrite (bool_decide_eq_true_2 _ Hin); [done|]. rewrite Hs. apply orb_true_r. }
  rewrite Hm in H. by destruct (check_local _ _ p v) as [[]|].
Qed.
(** What a URL the policy lets through can reach. Its scheme is an allowed one, every host it
    names (each of a list, each server of a connection string, each [host] parameter) is
    matched by the host list, and is then written out and not taken from a token, or with an
    open list is no metadata endpoint, and every file its parameters name passes the path
    check. *)
Theorem admitted_urls_reach_allowed_hosts p value scheme :
  check_url p value = Ok tt -> scheme = (if starts_with "/" value then None else scheme_of value) ->
  is_file_scheme scheme = false -> names_no_host url_parse value scheme = false ->
  (forall s allowed, scheme = Some s -> rp_url_schemes p = Some allowed -> s ∈ allowed)
  /\ (forall host, host ∈ url_hosts value -> host_allowed p host)
  /\ (forall kv, kv ∈ database_url_params form_parse value ->
        kv.1 ∈ DB_PATH_PARAMS \/ (kv.1 ∈ DB_HOST_PARAMS /\ starts_with "/" kv.2 = true) -> check_local canonicalize current_dir p kv.2 = Ok tt).
Proof.
  intros H -> Hf Hn. unfold Resolve.check_url in H. rewrite Hf, Hn in H. set (scheme := if starts_with "/" value then None else scheme_of value) in *.
  destruct (match scheme with Some _ => _ | None => _ end) as [[]|] eqn:Es; cbn [result_bind] in H; [|done].
  destruct (all_pass (check_host _ _ _) _) as [[]|] eqn:Eh; cbn [result_bind] in H; [|done].
  destruct (all_pass (Resolve.check_param _ _ _ _) _) as [[]|] eqn:Ep; cbn [result_bind] in H; [|done].
  split_and!.
  - intros s allowed Hs Ha. rewrite Hs, Ha in Es. by destruct (bool_decide_reflect (s ∈ allowed)).
  - intros host Hin. eapply check_host_ok, all_pass_ok; eassumption.
  - intros kv Hin. eapply check_param_ok, all_pass_ok; eassumption.
Qed.

(** *** Addresses *)

Definition after_octet (rest : string) : Prop := rest = EmptyString \/ exists r, rest = String "."%char r.
Lemma octet_reads x rest : 0 <= x <= 255 -> after_octet rest -> read_number 10 255 3 false (dec x +:+ rest) = Some (x, rest).
Proof.
  intros Hx Hr. assert (x ∈ seqZ 0 256) as Hin by (apply elem_of_seqZ; lia). clear Hx. revert x Hin.
  apply (Forall_forall (fun x => read_number 10 255 3 false (dec x +:+ rest) = Some (x, rest))).
  let l := eval vm_compute in (seqZ 0 256) in change (seqZ 0 256) with l.
  destruct Hr as [->|[r ->]]; repeat constructor.
Qed.
Lemma separated_octet_reads x i rest : 0 <= x <= 255 -> after_octet rest ->
  read_separator "."%char (S i) (read_number 10 255 3 false) ("." +:+ dec x +:+ rest) = Some (x, rest).
Proof. apply octet_reads. Qed.
(** A dotted quad reads back as the address it was printed from. *)
Lemma v4_text_parses a b c d :
  0 <= a <= 255 -> 0 <= b <= 255 -> 0 <= c <= 255 -> 0 <= d <= 255 -> parse_ip (v4_text [a; b; c; d]) = Some (V4 [a; b; c; d]).
Proof.
  intros. unfold parse_ip, read_ipv4. cbn [read_octets].
  assert (v4_text [a; b; c; d] = dec a +:+ "." +:+ dec b +:+ "." +:+ dec c +:+ "." +:+ dec d +:+ EmptyString) as ->.
  { unfold v4_text. cbn [fmap list_fmap join]. by rewrite string_app_nil_r. }
  assert (forall s, after_octet ("." +:+ s)) as Hdot by (intros s; right; by exists s).
  unfold read_separator at 1. rewrite octet_reads by auto. rewrite !separated_octet_reads by (try done; auto; by left). done.
Qed.

Lemma str_rev_go_spec s acc : str_rev_go s acc = str_rev s +:+ acc.
Proof.
  unfold str_rev. revert acc. induction s as [|c s IH]; intros acc; cbn [str_rev_go]; [done|].
  rewrite IH, (IH (String c EmptyString)). by rewrite string_app_assoc.
Qed.
Lemma str_all_app f a b : str_all f (a +:+ b) = str_all f a && str_all f b.
Proof. induction a as [|c a IH]; [done|]. cbn [str_all]. change (String c a +:+ b) with (String c (a +:+ b)). cbn [str_all]. by rewrite IH, andb_assoc. Qed.
Lemma str_rev_cons c s : str_rev (String c s) = str_rev s +:+ String c EmptyString.
Proof. unfold str_rev at 1. cbn [str_rev_go]. apply str_rev_go_spec. Qed.
Lemma str_rev_app a b : str_rev (a +:+ b) = str_rev b +:+ str_rev a.
Proof.
  induction a as [|c a IH]; [by rewrite string_app_nil_r|]. change (String c a +:+ b) with (String c (a +:+ b)).
  by rewrite !str_rev_cons, IH, string_app_assoc.
Qed.
Lemma str_rev_involutive s : str_rev (str_rev s) = s.
Proof. induction s as [|c s IH]; [done|]. by rewrite str_rev_cons, str_rev_app, IH. Qed.
Lemma str_all_rev f s : str_all f (str_rev s) = str_all f s.
Proof. induction s as [|c s IH]; [done|]. rewrite str_rev_cons, str_all_app, IH. cbn [str_all]. by rewrite andb_true_r, andb_comm. Qed.
Lemma trim_start_other f c s : str_all f s = true -> f c = false -> trim_start_matches (String c EmptyString) s = s.
Proof.
  intros Ha Hc. unfold trim_start_matches. destruct s as [|d s]; [done|]. cbn [String.length trim_prefixes strip_prefix].
  cbn [str_all] in Ha. apply andb_true_iff in Ha as [Hd _]. destruct (Ascii.eqb_spec c d) as [->|]; [congruence|done].
Qed.
Definition quad_char (c : ascii) : bool := is_ascii_digit c || one_of "." c.
Lemma v4_text_chars o : Forall (fun x => 0 <= x <= 255) o -> str_all quad_char (v4_text o) = true.
Proof.
  assert (forall x, 0 <= x <= 255 -> str_all quad_char (dec x) = true) as Hd.
  { intros x Hx. assert (forallb (fun x => str_all quad_char (dec x)) (seqZ 0 256) = true) as H by by vm_compute.
    rewrite forallb_forall in H. apply H, list_elem_of_In, elem_of_seqZ. lia. }
  unfold v4_text. induction 1 as [|x o Hx Ho IH]; [done|]. destruct o as [|y o]; cbn [fmap list_fmap join] in *; [by apply Hd|].
  rewrite !str_all_app, IH, Hd by done. done.
Qed.
Lemma bare_quad o : Forall (fun x => 0 <= x <= 255) o -> bare_host (v4_text o) = v4_text o.
Proof.
  intros H%v4_text_chars. unfold bare_host. rewrite (trim_start_other quad_char) by done. unfold trim_end_matches.
  change (str_rev "]") with "]". rewrite (trim_start_other quad_char) by by rewrite ?str_all_rev. apply str_rev_involutive.
Qed.
(** Any spelling of a host that the URL parser reads as a link-local or metadata address
    (a decimal or hexadecimal number, an octal quad) is recognised as one. *)
Theorem metadata_spellings_are_recognised host a b c d :
  0 <= a <= 255 -> 0 <= b <= 255 -> 0 <= c <= 255 -> 0 <= d <= 255 ->
  is_empty_str (string_lower host) || has_any (one_of "${}*/?#@") (string_lower host) = false ->
  url_parse ("http://" +:+ string_lower host +:+ "/") = Some (Some (HostV4 [a; b; c; d])) ->
  is_metadata_host host = is_metadata_ip (V4 [a; b; c; d]).
Proof.
  intros Ha Hb Hc Hd Hraw Hp. unfold Resolve.is_metadata_host, Resolve.canonical_host. rewrite Hraw, Hp.
  rewrite bare_quad by (repeat (constructor; [done|]); constructor). by rewrite v4_text_parses by done.
Qed.
(** The addresses a connection may use: unless the list names the host itself, none is a
    metadata address, and a name with addresses keeps one. *)
Theorem screened_addresses_are_usable p host addrs kept :
  screen_resolved url_parse host addrs (Some p) = Ok kept -> lists_host_exactly url_parse p host = false ->
  (forall a, a ∈ kept <-> a ∈ addrs /\ is_metadata_ip a = false) /\ (addrs <> [] -> kept <> []).
Proof.
  unfold screen_resolved. cbn [opt_test]. intros H Hl. rewrite Hl in H. destruct (_ && _) eqn:E; [done|]. injection H as <-. split.
  - intros a. rewrite !list_elem_of_In, filter_In. by rewrite negb_true_iff.
  - intros Hne Hk. rewrite Hk in E. by destruct addrs.
Qed.
End Hosts.

(** The URL parser on the URLs of the examples. *)
Definition metadata_quad : list Z := [169; 254; 169; 254].
Definition example_url_parse (v : string) : option (option UrlHost) :=
  if existsb (fun p => starts_with p v) ["http://169.254.169.254/"; "http://2852039166/"] then Some (Some (HostV4 metadata_quad))
  else if starts_with "http://db.internal/" v then Some (Some (Domain "db.internal")) else None.
Definition no_parameters (query : string) : list (string * string) := [].
Definition named_hosts (l : list string) : ReferencePolicy := with_url_hosts (Some l) (with_path_roots (Some ["/data"]) policy_open).
Notation example_check_url := (check_url example_url_parse Some no_parameters linked_fs None).

Lemma admitted_urls_reach_allowed_hosts_witness :
  example_check_url (named_hosts ["*.internal"]) "postgres://u:p@db.internal:5432/app?sslmode=require" = Ok tt
  /\ forall host, host ∈ ["db.internal"] -> host_allowed example_url_parse (named_hosts ["*.internal"]) host.
Proof.
  split; [vm_compute; reflexivity|].
  change ["db.internal"] with (ltac:(let l := eval vm_compute in (url_hosts example_url_parse no_parameters "postgres://u:p@db.internal:5432/app?sslmode=require") in exact l)).
  intros host Hin.
  apply (admitted_urls_reach_allowed_hosts example_url_parse Some no_parameters linked_fs None (named_hosts ["*.internal"])
           "postgres://u:p@db.internal:5432/app?sslmode=require" (Some "postgres")); [vm_compute; reflexivity..|].
  vm_compute. exact Hin.
Defined.
(** The number 2852039166 is the address 169.254.169.254 and an open host list refuses it. *)
Example metadata_spelled_as_a_number :
  example_check_url (with_path_roots (Some ["/data"]) policy_open) "http://2852039166/latest"
  = Err (refusal RUrl "http://2852039166/latest" "host `169.254.169.254` is a link-local / metadata endpoint").
Proof. by vm_compute. Qed.
(** With a list that holds [*], the literal metadata address is let through, by the check and by
    the check that resolves names: only an open list asks whether a host is a metadata
    endpoint. *)
Example wildcard_admits_metadata :
  example_check_url (named_hosts ["*"]) "http://169.254.169.254/latest" = Ok tt
  /\ check_url_resolved example_url_parse Some no_parameters linked_fs None (fun _ => None) (named_hosts ["*"]) "http://169.254.169.254/latest" = Ok tt
  /\ lists_host_exactly example_url_parse (named_hosts ["*"]) "169.254.169.254" = false.
Proof. by vm_compute. Qed.
(** A remote location that climbs is refused by the check and let through by the one that also
    resolves names. *)
Example resolved_check_lets_a_climb_through :
  let r := MkResourceRef "/path" KPath "s3://bucket/in/../../other" in
  check_reference example_url_parse Some no_parameters linked_fs None data_only r
  = Err (refusal RPath "s3://bucket/in/../../other" "a remote location in a path field may not contain a `..` segment")
  /\ check_resolved example_url_parse Some no_parameters linked_fs None (fun _ => None) data_only r = Ok tt.
Proof. by vm_compute. Qed.
(** A database name whose fifth byte is inside a character makes the check panic. *)
Example database_name_panics : example_check_url data_only "sqlite:dataé.db" = Err Panicked.
Proof. by vm_compute. Qed.

(** ** Every annotated field is found *)

Lemma elem_of_flat_map {A B} (f : A -> list B) l a b : a ∈ l -> b ∈ f a -> b ∈ flat_map f l.
Proof. rewrite !list_elem_of_In, in_flat_map. eauto. Qed.
Lemma flat_map_mono {A B} (f g : A -> list B) l b : (forall a, b ∈ f a -> b ∈ g a) -> b ∈ flat_map f l -> b ∈ flat_map g l.
Proof. intros H. rewrite !list_elem_of_In, !in_flat_map. setoid_rewrite <- list_elem_of_In. intros (a & Ha & Hb). eauto. Qed.
Lemma concat_imap_mono {A B} (f g : nat -> A -> list B) l b :
  (forall i a, b ∈ f i a -> b ∈ g i a) -> b ∈ concat (imap f l) -> b ∈ concat (imap g l).
Proof.
  intros H. rewrite !list_elem_of_In, !in_concat. setoid_rewrite <- list_elem_of_In. intros (x & Hx & Hb).
  apply list_elem_of_lookup in Hx as [i Hx]. rewrite list_lookup_imap in Hx. destruct (l !! i) as [a|] eqn:Hi; [|done].
  injection Hx as <-. exists (g i a). split; [|auto]. eapply list_elem_of_lookup_2. by rewrite list_lookup_imap, Hi.
Qed.
Lemma elem_of_app_mono {A} (a b c : list A) x : (x ∈ b -> x ∈ c) -> x ∈ a ++ b -> x ∈ a ++ c.
Proof. rewrite !elem_of_app. tauto. Qed.
Lemma elem_of_retain_new {A} `{EqDecision A} (seen l : list A) a : a ∈ retain_new seen l <-> a ∈ l /\ ~ a ∈ seen.
Proof.
  revert seen. induction l as [|b l IH]; intros seen; cbn [retain_new].
  - rewrite elem_of_nil. naive_solver.
  - case_bool_decide; rewrite ?elem_of_cons, IH; rewrite ?elem_of_cons; destruct (decide (a = b)) as [->|]; naive_solver.
Qed.

Section Found.
Context (pointer : Value -> string -> option Value) (root : Value).
Notation alternatives := (alternatives pointer root).
Notation visit := (visit pointer root).

(** [descends n v p n' v' p' d]: [d] steps down the config, along schemas that any alternative
    gives, lead from [v] at [p] to [v'] at [p']. *)
Inductive descends : Value -> Value -> string -> Value -> Value -> string -> nat -> Prop :=
| descends_here n v p : descends n v p n v p 0
| descends_field n map p k child alt s n' v' p' d :
    (k, child) ∈ map -> alt ∈ alternatives n -> property_schema alt k = Some s ->
    descends s child (p +:+ "/" +:+ escape_pointer k) n' v' p' d -> descends n (VObject map) p n' v' p' (S d)
| descends_item n items p i item alt s n' v' p' d :
    items !! i = Some item -> alt ∈ alternatives n -> object_at "items" alt = Some s ->
    descends s item (p +:+ "/" +:+ dec (Z.of_nat i)) n' v' p' d -> descends n (VArray items) p n' v' p' (S d).

Lemma visit_below n v p n' v' p' d fuel r :
  descends n v p n' v' p' d -> r ∈ visit fuel n' v' p' -> r ∈ visit (d + fuel) n v p.
Proof.
  intros H Hr. induction H as [n v p|n map p k child alt s n' v' p' d Hk Ha Hs _ IH|n items p i item alt s n' v' p' d Hi Ha Hs _ IH];
    [done| |]; cbn [Nat.add Resolve.visit]; apply elem_of_app; right.
  - eapply elem_of_flat_map; [exact Hk|]. cbn [fst snd]. apply elem_of_app. right.
    eapply elem_of_flat_map; [exact Ha|]. rewrite Hs. auto.
  - apply list_elem_of_In, in_concat. eexists. split.
    { apply list_elem_of_In. eapply list_elem_of_lookup_2. rewrite list_lookup_imap, Hi. reflexivity. }
    apply list_elem_of_In, elem_of_app. right. eapply elem_of_flat_map; [exact Ha|]. rewrite Hs. auto.
Qed.
Lemma visit_more fuel n v p r : r ∈ visit fuel n v p -> r ∈ visit (S fuel) n v p.
Proof.
  revert n v p. induction fuel as [|fuel IH]; intros n v p; [by intros ?%not_elem_of_nil|].
  cbn [Resolve.visit]. apply elem_of_app_mono. destruct v; try done.
  - apply concat_imap_mono. intros i item. apply elem_of_app_mono, flat_map_mono. intros alt. destruct (object_at _ _); [apply IH|done].
  - apply flat_map_mono. intros e. apply elem_of_app_mono, flat_map_mono. intros alt. destruct (property_schema _ _); [apply IH|done].
Qed.
Lemma visit_le f f' n v p r : (f <= f')%nat -> r ∈ visit f n v p -> r ∈ visit f' n v p.
Proof. induction 1; auto using visit_more. Qed.
(** The setting at a pointer, with dots, and the key below it that turns something off. *)
Definition flag_text (p key setting : string) : string :=
  let field := replace_str "/" "." (trim_start_matches "/" p) in
  (if is_empty_str key then field else if is_empty_str field then key else field +:+ "." +:+ key) +:+ ": " +:+ setting.
(** What a schema says of a value at [p]: a string of its kind; of a list, each string of its
    kind; of an object, each string whose key it annotates; and a setting that turns off
    verification or uses the server's own credentials. *)
Inductive annotates (n : Value) : Value -> string -> ResourceRef -> Prop :=
| annotates_string s p k : find_first annotation_of (alternatives n) = Some k -> annotates n (VString s) p (MkResourceRef p k s)
| annotates_item items i s p k :
    items !! i = Some (VString s) -> find_first annotation_of (alternatives n) = Some k ->
    annotates n (VArray items) p (MkResourceRef (p +:+ "/" +:+ dec (Z.of_nat i)) k s)
| annotates_key map key s p k :
    (key, VString s) ∈ map -> find_first (fun a => keyed_annotation a key) (alternatives n) = Some k ->
    annotates n (VObject map) p (MkResourceRef (p +:+ "/" +:+ escape_pointer key) k s)
| annotates_flag v p annotation k key setting :
    (annotation = UNVERIFIED_ANNOTATION /\ k = KUnverified) \/ (annotation = HOST_CREDENTIALS_ANNOTATION /\ k = KHostCredentials) ->
    find_first (fun a => flagged_setting a v annotation) (alternatives n) = Some (key, setting) ->
    annotates n v p (MkResourceRef p k (flag_text p key setting)).
(** The resources the schema annotates in a config, through any alternative of it. *)
Definition annotated (config : Value) (r : ResourceRef) : Prop :=
  exists n v p d, descends root config EmptyString n v p d /\ (d <= RESOLVE_MAX_DEPTH)%nat /\ annotates n v p r.
Lemma visit_here n v p r fuel : annotates n v p r -> r ∈ visit (S fuel) n v p.
Proof.
  intros H. cbn [Resolve.visit]. apply elem_of_app. destruct H as [s p k Hk|items i s p k Hi Hk|map key s p k Hin Hk|v p annotation k key setting Hk Hf].
  - right. rewrite Hk. by apply list_elem_of_singleton.
  - right. apply list_elem_of_In, in_concat. eexists. split.
    { apply list_elem_of_In. eapply list_elem_of_lookup_2. rewrite list_lookup_imap, Hi. reflexivity. }
    apply list_elem_of_In, elem_of_app. left. rewrite Hk. by apply list_elem_of_singleton.
  - right. eapply elem_of_flat_map; [exact Hin|]. cbn [fst snd]. apply elem_of_app. left. rewrite Hk. by apply list_elem_of_singleton.
  - left. unfold flagged_refs. apply (elem_of_flat_map _ _ (annotation, k)).
    + destruct Hk as [[-> ->]|[-> ->]]; [by left|by right; left].
    + cbn [fst snd]. rewrite Hf. by apply list_elem_of_singleton.
Qed.
(** The walk finds what the schema annotates, at most 64 fields and items deep, and reports it
    with its pointer, its kind and its value. *)
Lemma annotated_strings_are_reported config r : annotated config r -> r ∈ annotated_resources pointer root config.
Proof.
  intros (n & v & p & d & Hd & Hle & Ha). unfold annotated_resources. apply elem_of_retain_new. split; [|apply not_elem_of_nil].
  apply (visit_le (d + 1)); [lia|]. eapply visit_below; [exact Hd|]. by apply visit_here.
Qed.
End Found.
