(* ===== verification/ServePolicy.v ===== *)
(** The reference policies of the server, by who wrote a config: cli/src/serve/references.rs,
    with the origins of cli/src/serve/load.rs.

    Parameters: those of Resolve.v, the schemas registered for a connector kind, and the
    system's temporary directory. The process-wide cells that hold the installed policy and
    the schemas already looked up are left out. *)
From S2P Require Import Prelude Errors Float64 Json Text StateKey Contract Transform Resolve.

Local Open Scope result_scope.

Inductive BodyOrigin := Trusted | Caller (allow_subprocess : bool) | ServerFile.
Definition SECRET_SCHEMES : list string := ["vault"; "aws-sm"; "gcp-sm"; "azure-kv"].
Record ReferenceArgs := MkReferenceArgs {
  ra_allow_path_root : list string;
  ra_allow_url_scheme : list string;
  ra_allow_url_host : list string;
  ra_allow_env : list string;
  ra_allow_secret_scheme : list string;
  ra_tenant_path_root : option string;
  ra_allow_unverified_tls : bool;
}.
Record ServeReferencePolicy := MkServeReferencePolicy { sp_caller : ReferencePolicy; sp_tenant_root : option string }.

(** [Path::join]. *)
Definition path_join (root t : string) : string :=
  if starts_with "/" t then t else if is_empty_str root || ends_with "/" root then root +:+ t else root +:+ "/" +:+ t.

Section ServePolicy.
Context (url_parse : string -> option (option UrlHost)) (percent_decoded : string -> option string) (form_parse : string -> list (string * string)).
Context (canonicalize : list string -> option (list string)) (current_dir : option (list string)) (temp_dir : string).
Context (pointer : Value -> string -> option Value) (schemas : string -> list Value).

Definition default_path_roots : list string :=
  option_list ((fun d => "/" +:+ join "/" d) <$> current_dir) ++ [temp_dir].
(** The first secret scheme that is none, then the first flag with a blank value. *)
Definition bad_args (args : ReferenceArgs) : option string :=
  match List.find (fun s => negb (mem s SECRET_SCHEMES)) (ra_allow_secret_scheme args) with
  | Some scheme => Some ("--allow-secret-scheme `" +:+ scheme +:+ "` is not a secret-manager scheme (one of " +:+ join ", " SECRET_SCHEMES +:+ ")")
  | None => (fun fv => fv.1 +:+ " takes a non-empty value") <$>
              List.find (fun fv => existsb (fun v => is_empty_str (trim v)) fv.2)
                [("--allow-env", ra_allow_env args); ("--allow-url-host", ra_allow_url_host args); ("--allow-url-scheme", ra_allow_url_scheme args)]
  end.
(** An empty flag leaves its dimension open. *)
Definition unless_empty (l : list string) : option (list string) := if is_nil l then None else Some l.
Definition from_args (args : ReferenceArgs) : result ServeReferencePolicy string :=
  match bad_args args with
  | Some e => Err e
  | None =>
      let roots := if is_nil (ra_allow_path_root args) then default_path_roots else ra_allow_path_root args in
      let caller := with_unverified (ra_allow_unverified_tls args)
                      (with_secret_schemes (Some (ra_allow_secret_scheme args))
                        (with_env (Some (ra_allow_env args)) (with_path_roots (Some roots) policy_deny_all))) in
      let caller := with_url_schemes (unless_empty (ra_allow_url_scheme args)) caller in
      let caller := with_url_hosts (unless_empty (ra_allow_url_host args)) caller in
      Ok (MkServeReferencePolicy caller (ra_tenant_path_root args))
  end.
Definition for_origin (sp : ServeReferencePolicy) (origin : BodyOrigin) (tenant : option string) : ReferencePolicy :=
  match origin with
  | Trusted | ServerFile => policy_open
  | Caller allow_subprocess =>
      let unverified := rp_unverified (sp_caller sp) && negb (is_some tenant) in
      let p := with_unverified unverified (with_subprocess (allow_subprocess && negb (is_some tenant)) (sp_caller sp)) in
      match sp_tenant_root sp, tenant with
      | Some root, Some t => with_path_roots (Some [path_join root t]) p
      | _, _ => p
      end
  end.
Definition connector_resources (kind : string) (config : Value) : list ResourceRef :=
  retain_new [] (flat_map (fun s => annotated_resources pointer s config) (schemas kind)).
Definition runs_program (kind : string) : bool := existsb (fun s => declares pointer s KCommand) (schemas kind).

Notation check_reference := (check_reference url_parse percent_decoded form_parse canonicalize current_dir).
Notation normalize := (normalize canonicalize current_dir).

(** The dimensions a tenant's policy closes whatever the flags say. *)
Lemma tenant_policy_closed args sp allow root t :
  from_args args = Ok sp -> ra_tenant_path_root args = Some root ->
  let p := for_origin sp (Caller allow) (Some t) in
  rp_path_roots p = Some [path_join root t] /\ rp_subprocess p = false /\ rp_unverified p = false /\ rp_host_credentials p = false
  /\ rp_env p = Some (ra_allow_env args).
Proof.
  unfold from_args. destruct (bad_args args); [done|]. intros [= <-] Hr. unfold for_origin. rewrite Hr. cbn.
  by rewrite !andb_false_r.
Qed.
(** Without the flags a config that a request carried reads no variable and no secret, runs no
    program and may not turn verification off. *)
Theorem default_caller_reads_nothing sp t name scheme reference :
  from_args (MkReferenceArgs [] [] [] [] [] None false) = Ok sp ->
  let p := for_origin sp (Caller false) t in
  is_ok (check_env p name) = false /\ is_ok (check_secret p scheme reference) = false
  /\ rp_subprocess p = false /\ rp_unverified p = false /\ rp_host_credentials p = false.
Proof. intros [= <-]. by destruct t. Qed.
Lemma found_in_connector kind schema config r :
  schema ∈ schemas kind -> annotated pointer schema config r -> r ∈ connector_resources kind config.
Proof.
  intros Hs Hr. unfold connector_resources. rewrite elem_of_retain_new. split; [|apply not_elem_of_nil].
  apply (elem_of_flat_map _ _ schema); [done|]. by apply annotated_strings_are_reported.
Qed.
(** The local file a resource names: by a path field, or by a URL field with a file scheme. *)
Definition names_local (r : ResourceRef) (path : string) : Prop :=
  locate_value percent_decoded (rr_value r) = Local path
  /\ (rr_kind r = KPath \/ (rr_kind r = KUrl /\ starts_with "/" (rr_value r) = false /\ is_file_scheme (scheme_of (rr_value r)) = true)).
Lemma local_is_checked p r path : names_local r path -> check_reference p r = Ok tt -> check_local canonicalize current_dir p path = Ok tt.
Proof.
  intros [Hl Hk]. unfold Resolve.check_reference. assert (forall v, refuse_as RPath v (check_local canonicalize current_dir p path) = Ok tt -> check_local canonicalize current_dir p path = Ok tt) as Hr.
  { intros v. by destruct (check_local _ _ p path) as [[]|]. }
  destruct Hk as [-> |(-> & Hs & Hf)]; [unfold check_path|unfold check_url; rewrite Hs, Hf]; rewrite Hl; apply Hr.
Qed.
(** C24: What a tenant's config can name. When the server was started with a directory for
    tenants and every resource found in a connector's config passes its policy, then whatever
    the flags allow other callers, nothing the connector's schemas annotate in the config (a
    string, an item of a list, a value by its key, or a setting; at most 64 deep, through any
    alternative) is a program to run, a setting that turns off verification or one that uses
    the server's credentials; and a local path, written so or as a file URL, resolves, links
    included, to below the tenant's own directory and has no parent segment in its pattern,
    but for the empty path, [:memory:] and [/dev/null]. *)
Theorem tenant_references_are_confined args sp allow root t kind schema config r :
  from_args args = Ok sp -> ra_tenant_path_root args = Some root ->
  all_pass (check_reference (for_origin sp (Caller allow) (Some t))) (connector_resources kind config) = Ok tt ->
  schema ∈ schemas kind -> annotated pointer schema config r ->
  (rr_kind r = KPath \/ rr_kind r = KUrl) /\
  forall path, names_local r path -> exempt_path path = false ->
    mem ".." (split_any (one_of "/") (base_and_rest path).2) = false /\
    exists dir target, normalize (path_join root t) = Some dir /\ normalize (base_and_rest path).1 = Some target /\ path_under dir target = true.
Proof.
  intros Ha Hr Hall Hs Hann. destruct (tenant_policy_closed args sp allow root t Ha Hr) as (Hroots & Hsub & Hun & Hhc & _).
  pose proof (proj1 (all_pass_ok _ _) Hall _ (found_in_connector _ _ _ _ Hs Hann)) as Hok. split.
  - unfold Resolve.check_reference, check_command in Hok. rewrite Hsub, Hun, Hhc in Hok. destruct (rr_kind r); try done; [by left|by right].
  - intros path Hl Hex. apply (local_is_checked _ _ _ Hl) in Hok.
    destruct (check_local_inv _ _ _ _ _ Hroots Hex Hok) as (? & q & dir & target & ->%list_elem_of_singleton & ? & ? & ?). eauto 6.
Qed.
End ServePolicy.

(** A connector whose [input.path] is annotated, on the file system of the Resolve examples
    with a tenants' directory. *)
Definition object (l : list (string * Value)) : Value := VObject l.
Definition path_field : Value := object [(RESOURCE_ANNOTATION, VString "path")].
Definition input_schema : Value := object [("anyOf", VArray [object [("properties", object [("path", path_field)])]])].
Definition path_schema : Value := object [("properties", object [("input", input_schema)])].
Definition tenant_config : Value := object [("input", object [("path", VString "/srv/t/acme/new.csv")])].
Definition tenants_fs (l : list string) : option (list string) :=
  match l with [] | ["srv"] | ["srv"; "t"] | ["srv"; "t"; "acme"] => Some l | _ => None end.
Definition tenant_args : ReferenceArgs := MkReferenceArgs ["/"] [] [] ["HOME"] [] (Some "/srv/t") true.
Definition no_pointer (root : Value) (p : string) : option Value := None.
Definition path_schemas (kind : string) : list Value := [path_schema].

Lemma tenant_references_are_confined_witness :
  exists dir target, normalize tenants_fs None "/srv/t/acme" = Some dir /\ normalize tenants_fs None "/srv/t/acme/new.csv" = Some target
    /\ path_under dir target = true.
Proof.
  refine (proj2 (proj2 (tenant_references_are_confined example_url_parse Some no_parameters tenants_fs None "/tmp" no_pointer path_schemas
    tenant_args _ true "/srv/t" "acme" "csv" path_schema tenant_config (MkResourceRef "/input/path" KPath "/srv/t/acme/new.csv")
    eq_refl eq_refl _ _ _) _ (conj eq_refl (or_introl eq_refl)) eq_refl)).
  - vm_compute. reflexivity.
  - by apply list_elem_of_singleton.
  - exists path_field, (VString "/srv/t/acme/new.csv"), "/input/path", 2%nat. split_and!; [|unfold RESOLVE_MAX_DEPTH; lia|by apply annotates_string].
    eapply (descends_field _ _ _ _ _ "input" _ path_schema input_schema); [by left|by left|reflexivity|].
    eapply (descends_field _ _ _ _ _ "path" _ (object [("properties", object [("path", path_field)])]) path_field); [by left|by right; left|reflexivity|].
    apply descends_here.
Defined.
(** *** A list, a keyed value and a flag are found too *)
Definition listed_schema : Value :=
  object [("properties", object [("files", object [(RESOURCE_ANNOTATION, VString "path")]);
                                 ("headers", object [(RESOURCE_KEYS_ANNOTATION, object [("*url", VString "url")])]);
                                 ("insecure", object [(UNVERIFIED_ANNOTATION, VBool true)])])].
Definition listed_config : Value :=
  object [("files", VArray [VString "/etc/passwd"]); ("headers", object [("Hook-URL", VString "http://h")]); ("insecure", VBool true)].
Example annotated_settings_are_found :
  connector_resources no_pointer (fun _ => [listed_schema]) "csv" listed_config
  = [MkResourceRef "/files/0" KPath "/etc/passwd"; MkResourceRef "/headers/Hook-URL" KUrl "http://h"; MkResourceRef "/insecure" KUnverified "insecure: true"].
Proof. vm_compute. reflexivity. Qed.
