(* ===== verification/Rbac.v ===== *)
(** Who may call the server: roles, principals, routes, tenants and the count of failed
    attempts. cli/src/serve/rbac.rs, cli/src/serve/auth.rs, the modes of
    cli/src/serve/config.rs and the tenant ids of cli/src/serve/history/tenants.rs.

    The router's choice of a route template for a request is an input, as is the clock. A
    [HashMap] is a [gmap]; a lock held for a call makes it one step. Reading the file of
    principals and log lines are left out. *)
From stdpp Require Import sorting.
From S2P Require Import Prelude Errors Float64 Json Text StateKey TypedKey Contract Transform Resolve.
From Stdlib Require Import Ascii.

Local Open Scope Z_scope.
Local Open Scope result_scope.

Inductive Method := GET | POST | PUT | PATCH | DELETE | OPTIONS | OTHER (name : string).
#[export] Instance Method_eq_dec : EqDecision Method.
Proof. solve_decision. Defined.
Inductive Permission :=
  | RunRead | RunWrite | SchemaRead | Doctor | TriggerFire | DlqRead | DlqManage | CatalogRead | TemplateRead | TemplateAdmin | LocalOutputRead | LocalOutputManage | Rollback | AuditRead | Reload | Identity | Plan | CatalogAnnotate | UsageRead | ChangeRead | ChangeRequest | ChangeApprove | StatusRead | StateAdmin | TenantRead | TenantAdmin | ConnectionManage | ScheduleRead | ScheduleWrite | PolicyRead | PolicyAdmin.
#[export] Instance Permission_eq_dec : EqDecision Permission.
Proof. solve_decision. Defined.
Definition ALL_PERMISSIONS : list Permission :=
  [RunRead; RunWrite; SchemaRead; Doctor; TriggerFire; DlqRead; DlqManage; CatalogRead; TemplateRead; TemplateAdmin; LocalOutputRead; LocalOutputManage; Rollback; AuditRead; Reload; Identity; Plan; CatalogAnnotate; UsageRead; ChangeRead; ChangeRequest; ChangeApprove; StatusRead; StateAdmin; TenantRead; TenantAdmin; ConnectionManage; ScheduleRead; ScheduleWrite; PolicyRead; PolicyAdmin].
Inductive Role := Viewer | Operator | Admin.
#[export] Instance Role_eq_dec : EqDecision Role.
Proof. solve_decision. Defined.
Definition role_str (r : Role) : string := match r with Viewer => "viewer" | Operator => "operator" | Admin => "admin" end.
Definition grants (r : Role) (perm : Permission) : bool :=
  match r with
  | Viewer =>
      match perm with
      | RunRead | SchemaRead | DlqRead | CatalogRead | TemplateRead | LocalOutputRead | Identity | UsageRead | ChangeRead | StatusRead | TenantRead | ScheduleRead | PolicyRead => true
      | _ => false
      end
  | Operator =>
      match perm with
      | RunRead | SchemaRead | DlqRead | CatalogRead | TemplateRead | RunWrite | Doctor | TriggerFire | DlqManage | LocalOutputRead | LocalOutputManage | Identity | Plan | CatalogAnnotate | UsageRead | ChangeRead | ChangeRequest | ChangeApprove | StatusRead | TenantRead | ConnectionManage | ScheduleRead | ScheduleWrite | PolicyRead => true
      | _ => false
      end
  | Admin => true
  end.
Definition permissions (r : Role) : list Permission := List.filter (grants r) ALL_PERMISSIONS.

(** ** Routes *)

Definition route_permissions : list (list Method * string * Permission) :=
  [([POST], "/v1/runs", RunWrite);
   ([GET], "/v1/runs", RunRead);
   ([GET], "/v1/runs/{id}", RunRead);
   ([DELETE], "/v1/runs/{id}", RunWrite);
   ([POST], "/v1/runs/{id}/cancel", RunWrite);
   ([GET], "/v1/runs/{id}/logs", RunRead);
   ([GET], "/v1/runs/{id}/config", RunRead);
   ([GET], "/v1/overview", RunRead);
   ([GET], "/v1/schemas", SchemaRead);
   ([GET], "/v1/schemas/{kind}/{name}", SchemaRead);
   ([POST], "/v1/doctor", Doctor);
   ([POST], "/v1/backfill", RunWrite);
   ([POST], "/v1/verify", RunWrite);
   ([POST], "/v1/plan", Plan);
   ([POST], "/v1/runs/{id}/rollback", Rollback);
   ([POST], "/v1/dlq/inspect", DlqRead);
   ([POST], "/v1/dlq/replay", DlqManage);
   ([POST], "/v1/dlq/discard", DlqManage);
   ([GET], "/v1/audit", AuditRead);
   ([GET], "/v1/audit/{id}", AuditRead);
   ([GET], "/v1/triggers", StatusRead);
   ([GET], "/v1/schedules", ScheduleRead);
   ([POST], "/v1/schedules/preview", ScheduleRead);
   ([GET], "/v1/schedules/{name}", ScheduleRead);
   ([POST], "/v1/schedules", ScheduleWrite);
   ([PUT], "/v1/schedules/{name}", ScheduleWrite);
   ([DELETE], "/v1/schedules/{name}", ScheduleWrite);
   ([POST], "/v1/schedules/{name}/pause", ScheduleWrite);
   ([POST], "/v1/schedules/{name}/resume", ScheduleWrite);
   ([POST], "/v1/schedules/{name}/run", ScheduleWrite);
   ([POST], "/v1/triggers/{name}", TriggerFire);
   ([PUT], "/v1/triggers/{name}", TriggerFire);
   ([GET], "/v1/catalog/datasets", CatalogRead);
   ([GET], "/v1/catalog/datasets/{id}", CatalogRead);
   ([GET], "/v1/catalog/lineage", CatalogRead);
   ([POST], "/v1/catalog/datasets/{id}/consumers", CatalogAnnotate);
   ([GET], "/v1/usage", UsageRead);
   ([GET; POST], "/v1/mirror/{name}", StatusRead);
   ([POST], "/v1/changes", ChangeRequest);
   ([GET], "/v1/changes", ChangeRead);
   ([GET], "/v1/changes/counts", ChangeRead);
   ([GET], "/v1/changes/{id}", ChangeRead);
   ([POST], "/v1/changes/{id}/approve", ChangeApprove);
   ([POST], "/v1/changes/{id}/reject", ChangeApprove);
   ([GET], "/v1/local-outputs", LocalOutputRead);
   ([DELETE], "/v1/local-outputs/{id}", LocalOutputManage);
   ([POST], "/v1/local-outputs/cleanup", LocalOutputManage);
   ([GET], "/v1/local-outputs/{id}/preview", LocalOutputRead);
   ([POST], "/v1/templates", TemplateAdmin);
   ([GET], "/v1/templates", TemplateRead);
   ([GET], "/v1/templates/matrix", TemplateRead);
   ([GET], "/v1/templates/{id}", TemplateRead);
   ([GET], "/v1/templates/{id}/rows", TemplateRead);
   ([DELETE], "/v1/templates/{id}", TemplateAdmin);
   ([POST], "/v1/templates/{id}/runs", RunWrite);
   ([GET], "/v1/templates/{id}/runs", TemplateRead);
   ([POST], "/v1/templates/{id}/tags", TemplateAdmin);
   ([POST], "/v1/templates/{id}/launch", TemplateAdmin);
   ([POST], "/v1/templates/{id}/rollback", TemplateAdmin);
   ([POST], "/v1/templates/{id}/deprecate", TemplateAdmin);
   ([POST], "/v1/templates/{id}/versions/{version}/deprecate", TemplateAdmin);
   ([POST], "/v1/templates/{id}/versions/{version}/test", TemplateAdmin);
   ([GET], "/v1/templates/{id}/versions/{version}/tests", TemplateRead);
   ([POST], "/v1/templates/sync", TemplateAdmin);
   ([POST], "/v1/templates/{id}/publish", TemplateAdmin);
   ([POST], "/v1/reload", Reload);
   ([GET], "/v1/whoami", Identity);
   ([GET; POST], "/v1/status", StatusRead);
   ([GET; PUT; DELETE], "/v1/state/{pipeline}/{row}", StateAdmin);
   ([GET], "/v1/tenants", TenantRead);
   ([POST], "/v1/tenants", TenantAdmin);
   ([GET], "/v1/tenants/{tenant}", TenantRead);
   ([PATCH], "/v1/tenants/{tenant}", TenantAdmin);
   ([DELETE], "/v1/tenants/{tenant}", TenantAdmin);
   ([GET], "/v1/tenants/{tenant}/connections", TenantRead);
   ([POST], "/v1/tenants/{tenant}/connections", ConnectionManage);
   ([GET], "/v1/tenants/{tenant}/connections/{name}", TenantRead);
   ([PUT], "/v1/tenants/{tenant}/connections/{name}", ConnectionManage);
   ([DELETE], "/v1/tenants/{tenant}/connections/{name}", ConnectionManage);
   ([POST], "/v1/tenants/{tenant}/connect/{provider}", ConnectionManage);
   ([POST], "/v1/tenants/{tenant}/runs", RunWrite);
   ([POST], "/v1/tenants/{tenant}/templates/{id}/runs", RunWrite);
   ([POST], "/v1/templates/{id}/fanout", RunWrite);
   ([GET], "/v1/connect/providers", TenantRead);
   ([GET], "/v1/policy", PolicyRead);
   ([GET], "/v1/policy/versions", PolicyRead);
   ([GET], "/v1/policy/refusals", PolicyRead);
   ([POST], "/v1/policy/check", Plan);
   ([POST], "/v1/policy", PolicyAdmin);
   ([POST], "/v1/policy/preview", PolicyAdmin);
   ([POST], "/v1/policy/rollback", PolicyAdmin);
   ([GET], "/v1/tenants/{tenant}/policy", PolicyRead);
   ([POST], "/v1/tenants/{tenant}/policy", PolicyAdmin);
   ([POST], "/v1/tenants/{tenant}/policy/preview", PolicyAdmin);
   ([POST], "/v1/tenants/{tenant}/policy/rollback", PolicyAdmin);
   ([POST], "/mcp", SchemaRead)].
Definition route_actions : list (list Method * string * string) :=
  [([POST], "/v1/runs", "run.submit");
   ([GET], "/v1/runs", "run.list");
   ([GET], "/v1/runs/{id}", "run.get");
   ([DELETE], "/v1/runs/{id}", "run.delete");
   ([POST], "/v1/runs/{id}/cancel", "run.cancel");
   ([GET], "/v1/runs/{id}/logs", "run.logs");
   ([GET], "/v1/runs/{id}/config", "run.config");
   ([GET], "/v1/overview", "overview.get");
   ([GET], "/v1/schemas", "schema.list");
   ([GET], "/v1/schemas/{kind}/{name}", "schema.get");
   ([POST], "/v1/doctor", "doctor");
   ([POST], "/v1/backfill", "backfill.submit");
   ([POST], "/v1/verify", "verify");
   ([POST], "/v1/plan", "plan");
   ([POST], "/v1/runs/{id}/rollback", "run.rollback");
   ([POST], "/v1/dlq/inspect", "dlq.inspect");
   ([POST], "/v1/dlq/replay", "dlq.replay");
   ([POST], "/v1/dlq/discard", "dlq.discard");
   ([GET], "/v1/audit", "audit.list");
   ([GET], "/v1/audit/{id}", "audit.get");
   ([GET], "/v1/triggers", "trigger.list");
   ([GET], "/v1/schedules", "schedule.list");
   ([POST], "/v1/schedules/preview", "schedule.preview");
   ([GET], "/v1/schedules/{name}", "schedule.get");
   ([POST], "/v1/schedules", "schedule.create");
   ([PUT], "/v1/schedules/{name}", "schedule.update");
   ([DELETE], "/v1/schedules/{name}", "schedule.delete");
   ([POST], "/v1/schedules/{name}/pause", "schedule.pause");
   ([POST], "/v1/schedules/{name}/resume", "schedule.resume");
   ([POST], "/v1/schedules/{name}/run", "schedule.run");
   ([POST; PUT], "/v1/triggers/{name}", "trigger.fire");
   ([GET], "/v1/catalog/datasets", "catalog.list");
   ([GET], "/v1/catalog/datasets/{id}", "catalog.get");
   ([GET], "/v1/catalog/lineage", "catalog.lineage");
   ([POST], "/v1/catalog/datasets/{id}/consumers", "catalog.annotate");
   ([GET], "/v1/usage", "usage.list");
   ([GET; POST], "/v1/mirror/{name}", "mirror.status");
   ([GET; POST], "/v1/status", "status");
   ([GET], "/v1/state/{pipeline}/{row}", "state.get");
   ([PUT], "/v1/state/{pipeline}/{row}", "state.set");
   ([DELETE], "/v1/state/{pipeline}/{row}", "state.reset");
   ([POST], "/v1/changes", "change.request");
   ([GET], "/v1/changes", "change.list");
   ([GET], "/v1/changes/counts", "change.counts");
   ([GET], "/v1/changes/{id}", "change.get");
   ([POST], "/v1/changes/{id}/approve", "change.approve");
   ([POST], "/v1/changes/{id}/reject", "change.reject");
   ([GET], "/v1/local-outputs", "local_output.list");
   ([DELETE], "/v1/local-outputs/{id}", "local_output.delete");
   ([POST], "/v1/local-outputs/cleanup", "local_output.cleanup");
   ([GET], "/v1/local-outputs/{id}/preview", "local_output.preview");
   ([POST], "/v1/templates", "template.register");
   ([GET], "/v1/templates", "template.list");
   ([GET], "/v1/templates/{id}", "template.get");
   ([GET], "/v1/templates/{id}/rows", "template.rows");
   ([DELETE], "/v1/templates/{id}", "template.delete");
   ([POST], "/v1/templates/{id}/runs", "template.run");
   ([GET], "/v1/templates/{id}/runs", "template.runs");
   ([POST], "/v1/templates/{id}/tags", "template.promote");
   ([POST], "/v1/templates/{id}/launch", "template.launch");
   ([POST], "/v1/templates/{id}/rollback", "template.rollback");
   ([POST], "/v1/templates/{id}/deprecate", "template.deprecate");
   ([POST], "/v1/templates/{id}/versions/{version}/deprecate", "template.version_deprecate");
   ([POST], "/v1/templates/{id}/versions/{version}/test", "template.test");
   ([GET], "/v1/templates/{id}/versions/{version}/tests", "template.tests");
   ([POST], "/v1/templates/sync", "template.sync");
   ([POST], "/v1/templates/{id}/publish", "template.publish");
   ([POST], "/v1/reload", "config.reload");
   ([GET], "/v1/whoami", "whoami");
   ([GET], "/v1/tenants", "tenant.list");
   ([POST], "/v1/tenants", "tenant.create");
   ([GET], "/v1/tenants/{tenant}", "tenant.get");
   ([PATCH], "/v1/tenants/{tenant}", "tenant.update");
   ([DELETE], "/v1/tenants/{tenant}", "tenant.delete");
   ([GET], "/v1/tenants/{tenant}/connections", "connection.list");
   ([POST], "/v1/tenants/{tenant}/connections", "connection.upsert");
   ([GET], "/v1/tenants/{tenant}/connections/{name}", "connection.get");
   ([PUT], "/v1/tenants/{tenant}/connections/{name}", "connection.upsert");
   ([DELETE], "/v1/tenants/{tenant}/connections/{name}", "connection.delete");
   ([POST], "/v1/tenants/{tenant}/connect/{provider}", "connect.start");
   ([POST], "/v1/tenants/{tenant}/runs", "run.submit");
   ([POST], "/v1/tenants/{tenant}/templates/{id}/runs", "template.run");
   ([POST], "/v1/templates/{id}/fanout", "template.fanout");
   ([GET], "/v1/connect/providers", "connect.providers");
   ([GET], "/v1/policy", "policy.get");
   ([GET], "/v1/policy/versions", "policy.versions");
   ([GET], "/v1/policy/refusals", "policy.refusals");
   ([POST], "/v1/policy/check", "policy.check");
   ([POST], "/v1/policy", "policy.request");
   ([POST], "/v1/policy/preview", "policy.preview");
   ([POST], "/v1/policy/rollback", "policy.rollback");
   ([GET], "/v1/tenants/{tenant}/policy", "policy.get");
   ([POST], "/v1/tenants/{tenant}/policy", "policy.request");
   ([POST], "/v1/tenants/{tenant}/policy/preview", "policy.preview");
   ([POST], "/v1/tenants/{tenant}/policy/rollback", "policy.rollback");
   ([POST], "/mcp", "mcp")].
Definition tenant_routes : list (option Method * string) :=
  [(None, "/v1/whoami");
   (None, "/v1/runs");
   (None, "/v1/runs/{id}");
   (None, "/v1/runs/{id}/cancel");
   (None, "/v1/runs/{id}/logs");
   (Some GET, "/v1/runs/{id}/config");
   (Some GET, "/v1/overview");
   (Some GET, "/v1/schemas");
   (Some GET, "/v1/schemas/{kind}/{name}");
   (Some GET, "/v1/templates");
   (Some GET, "/v1/templates/{id}");
   (Some GET, "/v1/templates/{id}/rows");
   (Some GET, "/v1/templates/{id}/runs");
   (Some GET, "/v1/templates/{id}/versions/{version}/tests");
   (None, "/v1/changes");
   (None, "/v1/changes/counts");
   (None, "/v1/changes/{id}");
   (None, "/v1/changes/{id}/approve");
   (None, "/v1/changes/{id}/reject");
   (Some GET, "/v1/usage");
   (Some GET, "/v1/tenants");
   (Some GET, "/v1/connect/providers");
   (None, "/v1/schedules");
   (None, "/v1/schedules/preview");
   (None, "/v1/schedules/{name}");
   (None, "/v1/schedules/{name}/pause");
   (None, "/v1/schedules/{name}/resume");
   (None, "/v1/schedules/{name}/run");
   (Some GET, "/v1/policy");
   (Some GET, "/v1/policy/refusals")].
(** The first entry of a table for a method and a route template. *)
Fixpoint route_lookup {A} (m : Method) (path : string) (table : list (list Method * string * A)) : option A :=
  match table with
  | [] => None
  | (ms, p, a) :: table => if bool_decide (m ∈ ms) && string_eqb p path then Some a else route_lookup m path table
  end.
Definition required_permission (m : Method) (matched_path : string) : option Permission := route_lookup m matched_path route_permissions.
Definition audit_action (m : Method) (matched_path : string) : string := default "unknown" (route_lookup m matched_path route_actions).

Inductive TenantScopeDecision := AllowRoute | DenyRoute | NotFoundRoute.
Definition path_tenant (path : string) : option string :=
  rest ← strip_prefix "/v1/tenants/" path;
  let t := before_any "/" rest in
  if is_empty_str t then None else Some t.
Definition tenant_scope_decision (m : Method) (matched_path path scoped : string) : TenantScopeDecision :=
  if starts_with "/v1/tenants/{tenant}" matched_path then
    if bool_decide (path_tenant path = Some scoped) then
      if (bool_decide (m = PATCH) || bool_decide (m = DELETE)) && string_eqb matched_path "/v1/tenants/{tenant}" then DenyRoute else AllowRoute
    else NotFoundRoute
  else if existsb (fun r => match r.1 with Some x => bool_decide (x = m) | None => true end && string_eqb r.2 matched_path) tenant_routes then AllowRoute
  else DenyRoute.

(** ** Principals *)

Record AuthContext := MkAuthContext { ac_principal : string; ac_role : Role; ac_source_ip : option string; ac_tenant : option string }.
Record PrincipalSpec := MkPrincipalSpec { ps_name : string; ps_token : string; ps_role : Role; ps_tenant : option string }.
Definition is_server_identity (name : string) : bool :=
  string_eqb name "runtime" || existsb (fun p => starts_with p name) ["system:"; "trigger:"; "sync:"].
Inductive ServeError :=
| Unauthorized | Forbidden (m : string) | NotFound | BadConfig (m : string) | Unprocessable (message : string) (details : option Value) | Conflict (m : string)
| QueueFull (retry_after_secs : Z) | TooManyRequests (m : string) | Unavailable (m : string) | Draining | UnsupportedMediaType (m : string) | InternalError (m : string).
Definition tenant_filter (c : AuthContext) (requested : option string) : result (option string) ServeError :=
  match ac_tenant c, requested with
  | Some own, Some r => if string_eqb r own then Ok (Some own) else Err NotFound
  | Some own, None => Ok (Some own)
  | None, r => Ok r
  end.
Definition sees_tenant (c : AuthContext) (tenant : option string) : bool :=
  match ac_tenant c with Some own => bool_decide (tenant = Some own) | None => true end.
Definition reads_template_bodies (c : AuthContext) : bool := bool_decide (ac_role c = Admin) && negb (is_some (ac_tenant c)).
Definition actor_system (name : string) : AuthContext := MkAuthContext ("system:" +:+ name) Admin None None.
Definition actor_trigger (name : string) : AuthContext := MkAuthContext ("trigger:" +:+ name) Operator None None.
Definition actor_runtime : AuthContext := MkAuthContext "runtime" Operator None None.

Definition MAX_TENANT_ID_LEN : nat := 63.
Definition slug_char (c : ascii) : bool := is_lower c || is_ascii_digit c || one_of "_-" c.
Definition validate_slug (s what : string) (max : nat) : result unit string :=
  match s with
  | EmptyString => Err (what +:+ " must not be empty")
  | String first _ =>
      if negb (is_lower first || is_ascii_digit first) then Err (what +:+ " '" +:+ s +:+ "' must start with a lowercase letter or a digit")
      else if Nat.ltb max (String.length s) then Err (what +:+ " '" +:+ s +:+ "' is longer than " +:+ dec (Z.of_nat max) +:+ " characters")
      else match List.find (fun c => negb (str_all slug_char c)) (chars s) with
           | Some bad => Err (what +:+ " '" +:+ s +:+ "' contains '" +:+ bad +:+ "'; use lowercase letters, digits, '_' and '-'")
           | None => Ok tt
           end
  end.
Definition validate_tenant_id (id : string) : result unit string := validate_slug id "tenant id" MAX_TENANT_ID_LEN.

(** [RbacConfig::new]: one principal after another, with the names and tokens seen. *)
Fixpoint check_principals (names tokens : list string) (l : list PrincipalSpec) : result unit string :=
  match l with
  | [] => Ok tt
  | p :: l =>
      let err m := Err ("--auth-config: " +:+ m) in
      if is_empty_str (trim (ps_name p)) then err "every principal must have a non-empty name"
      else if is_empty_str (ps_token p) then err ("principal '" +:+ ps_name p +:+ "' has an empty token")
      else if is_server_identity (ps_name p) then
        err ("principal name '" +:+ ps_name p +:+ "' is reserved for the server's own actors (`runtime` and names starting with `system:`, `trigger:` or `sync:`)")
      else match match ps_tenant p with Some t => validate_tenant_id t | None => Ok tt end with
           | Err e => err ("principal '" +:+ ps_name p +:+ "': " +:+ e)
           | Ok _ =>
               if mem (ps_name p) names then err ("duplicate principal name '" +:+ ps_name p +:+ "'")
               else if mem (ps_token p) tokens then err ("principal '" +:+ ps_name p +:+ "' reuses a token already assigned to another principal")
               else check_principals (ps_name p :: names) (ps_token p :: tokens) l
           end
  end.
Definition rbac_new (l : list PrincipalSpec) : result (list PrincipalSpec) string :=
  if is_nil l then Err "--auth-config must define at least one principal"
  else match check_principals [] [] l with Ok _ => Ok l | Err e => Err e end.
Definition trio_principal (name : string) (role : Role) (token : option string) : list PrincipalSpec :=
  match token with Some t => [MkPrincipalSpec name t role None] | None => [] end.
Definition from_token_trio (read write admin_ : option string) : result (option (list PrincipalSpec)) string :=
  let l := trio_principal "read" Viewer read ++ trio_principal "write" Operator write ++ trio_principal "admin" Admin admin_ in
  if is_nil l then Ok None
  else match List.find (fun p => is_empty_str (trim (ps_token p))) l with
       | Some p => Err ("--" +:+ ps_name p +:+ "-token must not be empty (omit the flag to not issue that token, or use --no-auth to disable authentication entirely)")
       | None => match rbac_new l with Ok l => Ok (Some l) | Err e => Err e end
       end.
(** Every principal is compared; the last that matches counts. *)
Definition authenticate (l : list PrincipalSpec) (token : string) : option AuthContext :=
  (fun p => MkAuthContext (ps_name p) (ps_role p) None (ps_tenant p))
    <$> foldl (fun m p => if string_eqb token (ps_token p) then Some p else m) None l.
Definition rbac_principal (l : list PrincipalSpec) (name : string) : option (Role * option string) :=
  (fun p => (ps_role p, ps_tenant p)) <$> List.find (fun p => string_eqb (ps_name p) name) l.
Inductive AuthMode := Token (t : string) | Rbac (l : list PrincipalSpec) | NoAuth.
Definition resolve_bearer (mode : AuthMode) (bearer : option string) : option AuthContext :=
  match mode with
  | NoAuth => Some (MkAuthContext "anonymous" Admin None None)
  | Token expected => match bearer with Some t => if string_eqb t expected then Some (MkAuthContext "token" Admin None None) else None | None => None end
  | Rbac l => t ← bearer; authenticate l t
  end.

(** ** Failed attempts *)

Definition MAX_FAILURES : Z := 20.
Definition FAILURE_WINDOW : Z := 60 * 1000000000.
Definition MAX_TRACKED : nat := Z.to_nat 10000.
Definition MAX_AUDITS_PER_WINDOW : Z := 60.
Definition MIN_TOKEN_LEN : nat := 16.
Record FailureWindow := MkFailureWindow { fw_start : Z; fw_failures : Z }.
(** [duration_since] is zero for a start still to come. *)
Definition window_open (w : FailureWindow) (now : Z) : bool := Z.max 0 (now - fw_start w) <? FAILURE_WINDOW.
Record FailedAuth := MkFailedAuth { fa_by_source : gmap string FailureWindow; fa_audits : option FailureWindow }.
Definition locked (fa : FailedAuth) (source : string) (now : Z) : bool :=
  match fa_by_source fa !! source with Some w => window_open w now && (MAX_FAILURES <=? fw_failures w) | None => false end.
Definition oldest_first (a b : Z * string) : Prop := a.1 < b.1 \/ (a.1 = b.1 /\ String.compare a.2 b.2 <> Gt).
#[export] Instance oldest_first_dec a b : Decision (oldest_first a b).
Proof. unfold oldest_first. solve_decision. Defined.
Definition unlocked_sources (m : gmap string FailureWindow) : list (Z * string) :=
  merge_sort oldest_first (omap (fun kw => if fw_failures kw.2 <? MAX_FAILURES then Some (fw_start kw.2, kw.1) else None) (map_to_list m)).
(** The map with room made, as far as locked addresses allow. *)
Definition make_room (m : gmap string FailureWindow) (now : Z) (cap : nat) : gmap string FailureWindow :=
  let m := filter (fun kw => window_open kw.2 now = true) m in
  if Nat.leb cap (size m) then
    let unlocked := unlocked_sources m in
    let excess := (size m + 1 - cap)%nat in
    let n := Nat.min (Nat.max excess (Nat.div cap 10)) (length unlocked) in
    foldl (fun m sk => delete sk.2 m) m (take n unlocked)
  else m.
Definition audit_budget (audits : option FailureWindow) (now : Z) : bool * option FailureWindow :=
  let w := match audits with Some w => if window_open w now then w else MkFailureWindow now 0 | None => MkFailureWindow now 0 end in
  if MAX_AUDITS_PER_WINDOW <=? fw_failures w then (false, Some w) else (true, Some (MkFailureWindow (fw_start w) (fw_failures w + 1))).
Definition sat_incr32 (n : Z) : Z := Z.min (n + 1) 4294967295.
Definition record_capped (fa : FailedAuth) (source : string) (now : Z) (cap : nat) : bool * FailedAuth :=
  let m := fa_by_source fa in
  let m := if Nat.leb cap (size m) && negb (is_some (m !! source)) then make_room m now cap else m in
  if Nat.leb cap (size m) && negb (is_some (m !! source)) then (false, MkFailedAuth m (fa_audits fa))
  else
    let w := match m !! source with Some w => if window_open w now then w else MkFailureWindow now 0 | None => MkFailureWindow now 0 end in
    let w := MkFailureWindow (fw_start w) (sat_incr32 (fw_failures w)) in
    let m := <[source := w]> m in
    if (fw_failures w =? 1) || (fw_failures w =? MAX_FAILURES) then
      let '(audit, audits) := audit_budget (fa_audits fa) now in (audit, MkFailedAuth m audits)
    else (false, MkFailedAuth m (fa_audits fa)).
Definition count_failure (fa : FailedAuth) (source : string) (now : Z) : bool * FailedAuth := record_capped fa source now MAX_TRACKED.
Definition short_tokens (mode : AuthMode) : nat :=
  let short t := Nat.ltb (String.length t) MIN_TOKEN_LEN in
  match mode with
  | Token t => if short t then 1 else 0
  | Rbac l => length (List.filter short (ps_token <$> l))
  | NoAuth => 0
  end.

(** ** A request *)

Record Request := MkRequest { rq_method : Method; rq_authorization : option string; rq_source_ip : option string; rq_matched : option string; rq_path : string }.
Definition bearer_token (authorization : option string) : option string := h ← authorization; strip_prefix "Bearer " h.
Definition authorize_header (header : option string) (expected : string) : result unit ServeError :=
  match bearer_token header with Some t => if string_eqb t expected then Ok tt else Err Unauthorized | None => Err Unauthorized end.
Definition extract_run_id (path : string) : option string :=
  rest ← strip_prefix "/v1/runs/" path;
  let id := before_any "/" rest in
  if is_empty_str id then None else Some id.
Record AuditRecord := MkAuditRecord { au_who : AuthContext; au_action : string; au_run_id : option string }.
(** The handlers run, for a caller or for a preflight, or the request is answered at once; with
    the counters and the audit records of denials. *)
Inductive AuthOutcome := Preflight | Passed (ctx : AuthContext) | Refused (e : ServeError).
Definition role_allows (ctx : AuthContext) (m : Method) (matched : option string) : bool :=
  match matched with
  | Some mp => match required_permission m mp with Some perm => grants (ac_role ctx) perm | None => bool_decide (ac_role ctx = Admin) end
  | None => bool_decide (ac_role ctx = Admin)
  end.
Definition denied (ctx : AuthContext) (req : Request) (run_id : option string) (m : string) : AuthOutcome * list AuditRecord :=
  (Refused (Forbidden m), [MkAuditRecord ctx (match rq_matched req with Some mp => audit_action (rq_method req) mp | None => "unknown" end) run_id]).
Definition authorize (ctx : AuthContext) (req : Request) : AuthOutcome * list AuditRecord :=
  if role_allows ctx (rq_method req) (rq_matched req) then
    match ac_tenant ctx with
    | None => (Passed ctx, [])
    | Some scoped =>
        match (fun mp => tenant_scope_decision (rq_method req) mp (rq_path req) scoped) <$> rq_matched req with
        | Some AllowRoute => (Passed ctx, [])
        | Some NotFoundRoute => (Refused NotFound, [])
        | Some DenyRoute | None =>
            denied ctx req None ("principal '" +:+ ac_principal ctx +:+ "' is confined to tenant '" +:+ scoped +:+ "' and may not perform this action")
        end
    end
  else denied ctx req (extract_run_id (rq_path req))
         ("principal '" +:+ ac_principal ctx +:+ "' (role " +:+ role_str (ac_role ctx) +:+ ") is not permitted to perform this action").
Definition require_auth (mode : AuthMode) (fa : FailedAuth) (now : Z) (req : Request) : AuthOutcome * FailedAuth * list AuditRecord :=
  if bool_decide (rq_method req = OPTIONS) then (Preflight, fa, [])
  else
    let bearer := bearer_token (rq_authorization req) in
    let source := default "unknown" (rq_source_ip req) in
    let presented := opt_test (fun t => negb (is_empty_str t)) bearer in
    match resolve_bearer mode bearer with
    | None =>
        if presented && locked fa source now then
          (Refused (TooManyRequests "too many failed authentication attempts from this address; retry in a minute"), fa, [])
        else if presented then
          let '(audit, fa) := count_failure fa source now in
          (Refused Unauthorized, fa, if audit then [MkAuditRecord (MkAuthContext "unauthenticated" Viewer (rq_source_ip req) None) "auth.failed" None] else [])
        else (Refused Unauthorized, fa, [])
    | Some c =>
        let '(o, audits) := authorize (MkAuthContext (ac_principal c) (ac_role c) (rq_source_ip req) (ac_tenant c)) req in (o, fa, audits)
    end.

(** ** Roles and routes *)

Lemma grants_ladder p : (grants Viewer p = true -> grants Operator p = true) /\ grants Admin p = true.
Proof. by destruct p. Qed.
Lemma route_lookup_Some {A} m path (table : list (list Method * string * A)) a :
  route_lookup m path table = Some a -> exists ms, (ms, path, a) ∈ table /\ m ∈ ms.
Proof.
  induction table as [|[[ms p] b] table IH]; [done|]. cbn [route_lookup]. destruct (bool_decide _ && _) eqn:E.
  - intros [= ->]. apply andb_true_iff in E as [Hm%bool_decide_eq_true Hp]. apply bool_decide_eq_true in Hp as ->. exists ms. split; [left|done].
  - intros (ms' & ? & ?)%IH. exists ms'. split; [by right|done].
Qed.
(** The routes that a viewer may call with another method than [GET]: each reads. *)
Definition reading_posts : list string :=
  ["/v1/dlq/inspect"; "/v1/schedules/preview"; "/v1/mirror/{name}"; "/v1/status"; "/mcp"].
(** A viewer only reads: every route its role opens is a [GET] or one of five that look at
    something a body names. *)
Theorem viewers_only_read ctx m path :
  ac_role ctx = Viewer -> role_allows ctx m (Some path) = true -> m = GET \/ path ∈ reading_posts.
Proof.
  intros Hr. unfold role_allows. rewrite Hr. destruct (required_permission m path) as [perm|] eqn:E; [|done]. intros Hg.
  apply route_lookup_Some in E as (ms & Hin & Hm).
  assert (forallb (fun e => negb (grants Viewer e.2) || forallb (fun m => bool_decide (m = GET)) e.1.1 || mem e.1.2 reading_posts) route_permissions = true)
    as H by by vm_compute.
  rewrite forallb_forall in H. apply list_elem_of_In, H in Hin. cbn [fst snd] in Hin. rewrite Hg in Hin. cbn [negb orb] in Hin.
  apply orb_true_iff in Hin as [Hget|Hp]; [left|right; by apply bool_decide_eq_true in Hp].
  rewrite forallb_forall in Hget. by apply list_elem_of_In, Hget, bool_decide_eq_true in Hm.
Qed.
(** Every route with a permission has a name in the audit log, but for one. *)
Theorem routes_have_audit_names m path perm :
  required_permission m path = Some perm -> path <> "/v1/templates/matrix" -> audit_action m path <> "unknown".
Proof.
  intros (ms & Hin & Hm)%route_lookup_Some Hne.
  assert (forallb (fun e => string_eqb e.1.2 "/v1/templates/matrix" || forallb (fun m => negb (string_eqb (audit_action m e.1.2) "unknown")) e.1.1)
            route_permissions = true) as H by by vm_compute.
  rewrite forallb_forall in H. apply list_elem_of_In, H in Hin. cbn [fst snd] in Hin. apply orb_true_iff in Hin as [Hp|Hin].
  - by apply bool_decide_eq_true in Hp.
  - rewrite forallb_forall in Hin. apply list_elem_of_In, Hin in Hm. intros Hu. rewrite Hu in Hm. done.
Qed.
Example matrix_route_has_no_audit_name :
  required_permission GET "/v1/templates/matrix" = Some TemplateRead /\ audit_action GET "/v1/templates/matrix" = "unknown".
Proof. by vm_compute. Qed.

(** ** Principals *)

Lemma check_principals_inv names tokens l : check_principals names tokens l = Ok tt ->
  NoDup (ps_token <$> l) /\ NoDup (ps_name <$> l)
  /\ Forall (fun p => ~ ps_token p ∈ tokens /\ ~ ps_name p ∈ names /\ is_server_identity (ps_name p) = false /\ ps_token p <> EmptyString) l.
Proof.
  revert names tokens. induction l as [|p l IH]; intros names tokens; [by repeat constructor|]. cbn [check_principals].
  destruct (is_empty_str (trim _)); [done|]. destruct (ps_token p) as [|c t] eqn:Et; [done|]. cbn [is_empty_str].
  destruct (is_server_identity _) eqn:Hi; [done|]. destruct (match ps_tenant p with Some _ => _ | None => _ end); [|done].
  destruct (mem (ps_name p) _) eqn:Hn; [done|]. destruct (mem (String c t) _) eqn:Ht; [done|].
  apply bool_decide_eq_false in Hn, Ht. intros (Hdt & Hdn & Hf)%IH. cbn [fmap list_fmap]. rewrite Et.
  rewrite !NoDup_cons, Forall_cons, !list_elem_of_fmap. setoid_rewrite elem_of_cons in Hf. rewrite Forall_forall in Hf. split_and!.
  - intros (q & Hq & Hin). apply (proj1 (Hf q Hin)). left. congruence.
  - done.
  - intros (q & Hq & Hin). apply (proj1 (proj2 (Hf q Hin))). left. congruence.
  - done.
  - by rewrite Et.
  - done.
  - done.
  - by rewrite Et.
  - apply Forall_forall. intros q Hin. destruct (Hf q Hin) as (? & ? & ? & ?). naive_solver.
Qed.
Lemma find_last_unique {A} (f : A -> bool) l p :
  (forall q r, q ∈ l -> r ∈ l -> f q = true -> f r = true -> q = r) -> p ∈ l -> f p = true ->
  foldl (fun m q => if f q then Some q else m) None l = Some p.
Proof.
  intros Hu Hin Hp. assert (forall acc, (acc = None \/ acc = Some p) -> p ∈ l \/ acc = Some p ->
    foldl (fun m q => if f q then Some q else m) acc l = Some p) as H; [|apply H; auto].
  assert (forall q, q ∈ l -> f q = true -> q = p) as Hq by eauto. clear Hu Hin.
  induction l as [|q l IH]; intros acc Ha Hin; cbn [foldl].
  - destruct Hin as [Hn| ->]; [by apply not_elem_of_nil in Hn|done].
  - apply IH; [intros; apply Hq; [by right|done]| |].
    + destruct (f q) eqn:E; [right; f_equal; apply Hq; [left|done]|done].
    + destruct (f q) eqn:E; [right; f_equal; apply Hq; [left|done]|]. destruct Hin as [[->|?]%elem_of_cons|?]; [congruence|by left|by right].
Qed.
Lemma find_last_Some {A} (f : A -> bool) l acc p :
  foldl (fun m q => if f q then Some q else m) acc l = Some p -> acc = Some p \/ (p ∈ l /\ f p = true).
Proof.
  revert acc. induction l as [|q l IH]; intros acc; cbn [foldl]; [by left|]. intros [H|[? ?]]%IH; [|right; split; [by right|done]].
  destruct (f q) eqn:E; [injection H as ->; right; split; [left|done]|by left].
Qed.
(** In a configuration the server starts with, a token names one principal: it is let in as that
    one, wherever it stands in the list, and any other token as none; no principal has a name
    of the server's own actors. *)
Theorem tokens_name_principals l l' token ctx :
  rbac_new l = Ok l' ->
  (authenticate l' token = Some ctx <->
     exists p, p ∈ l /\ ps_token p = token /\ ctx = MkAuthContext (ps_name p) (ps_role p) None (ps_tenant p))
  /\ (authenticate l' token = Some ctx -> is_server_identity (ac_principal ctx) = false /\ token <> EmptyString).
Proof.
  unfold rbac_new. destruct (is_nil l); [done|]. destruct (check_principals [] [] l) as [[]|] eqn:E; [|done]. intros [= <-].
  apply check_principals_inv in E as (Htok & _ & Hf). rewrite Forall_forall in Hf. unfold authenticate. rewrite fmap_Some.
  assert (forall p, foldl (fun m q => if string_eqb token (ps_token q) then Some q else m) None l = Some p -> p ∈ l /\ ps_token p = token) as Hs.
  { intros p [Hn|[? Hp%bool_decide_eq_true]]%find_last_Some; [done|by split]. }
  split; [split|].
  - intros (p & [? ?]%Hs & ->). by exists p.
  - intros (p & Hin & Hp & ->). exists p. split; [|done]. apply find_last_unique; [|done|by apply bool_decide_eq_true].
    intros q r Hq Hr Hqt%bool_decide_eq_true Hrt%bool_decide_eq_true. apply list_elem_of_lookup in Hq as [i Hi], Hr as [j Hj].
    assert (i = j) as ->; [|congruence]. eapply (NoDup_lookup _ _ _ token Htok); rewrite list_lookup_fmap, ?Hi, ?Hj; cbn; congruence.
  - intros (p & [Hin Hp]%Hs & ->). cbn [ac_principal]. destruct (Hf p Hin) as (_ & _ & ? & ?). split; [done|congruence].
Qed.

(** ** Requests *)

(** What the routing of a confined principal allows: below its own tenant everything but changing
    or deleting the tenant itself, elsewhere the routes a tenant may call, by their methods. *)
Definition tenant_may_call (m : Method) (mp path scoped : string) : Prop :=
  (starts_with "/v1/tenants/{tenant}" mp = true /\ path_tenant path = Some scoped
     /\ (mp = "/v1/tenants/{tenant}" -> m <> PATCH /\ m <> DELETE))
  \/ (starts_with "/v1/tenants/{tenant}" mp = false /\ exists m', (m', mp) ∈ tenant_routes /\ (m' = None \/ m' = Some m)).
Lemma tenant_route_allowed m mp path scoped : tenant_scope_decision m mp path scoped = AllowRoute <-> tenant_may_call m mp path scoped.
Proof.
  unfold tenant_scope_decision, tenant_may_call, string_eqb. destruct (starts_with _ mp).
  - case_bool_decide as Ht; [|naive_solver]. do 3 case_bool_decide; cbn; naive_solver.
  - destruct (existsb _ _) eqn:E.
    + split; [|done]. intros _. right. split; [done|]. apply existsb_exists in E as ([m' p] & Hin & Hp). cbn in Hp.
      apply andb_true_iff in Hp as [Hm Hp%bool_decide_eq_true]. subst. exists m'. split; [by apply list_elem_of_In|].
      destruct m' as [x|]; [right; apply bool_decide_eq_true in Hm; by subst|by left].
    + split; [done|]. intros [[? _]|(_ & m' & Hin & Hm)]; [done|]. apply not_true_iff_false in E. destruct E. apply existsb_exists.
      exists (m', mp). split; [by apply list_elem_of_In|]. apply andb_true_iff. split; [|by apply bool_decide_eq_true].
      destruct Hm as [-> | ->]; [done|by apply bool_decide_eq_true].
Qed.
(** The permissions of the server's own administration. *)
Definition server_wide (perm : Permission) : bool :=
  match perm with
  | TemplateAdmin | DlqManage | LocalOutputManage | Rollback | AuditRead | Reload | CatalogAnnotate | StateAdmin | TenantAdmin | PolicyAdmin | Doctor | TriggerFire | Plan => true
  | _ => false
  end.
(** No route a tenant may call, by a method of it, asks for such a permission. *)
Definition keeps_out (e : list Method * string * Permission) (r : option Method * string) : bool :=
  implb (server_wide e.2 && string_eqb e.1.2 r.2) (match r.1 with Some x => negb (bool_decide (x ∈ e.1.1)) | None => false end).
Lemma tenant_kept_out m mp path scoped perm : tenant_may_call m mp path scoped -> starts_with "/v1/tenants/{tenant}" mp = false ->
  required_permission m mp = Some perm -> server_wide perm = false.
Proof.
  intros [[? _]|(_ & m' & Hin & Hm)] Hs Hp; [congruence|]. apply route_lookup_Some in Hp as (ms & He & Hms).
  assert (forallb (fun e => forallb (keeps_out e) tenant_routes) route_permissions = true) as H by (vm_compute; reflexivity).
  rewrite forallb_forall in H. specialize (H _ (proj1 (list_elem_of_In _ _) He)). rewrite forallb_forall in H.
  specialize (H _ (proj1 (list_elem_of_In _ _) Hin)). unfold keeps_out in H. cbn [fst snd] in H. destruct (server_wide perm); [|done].
  unfold string_eqb in H. rewrite bool_decide_eq_true_2 in H by done. cbn [implb andb] in H.
  destruct Hm as [-> | ->]; [done|]. by rewrite bool_decide_eq_true_2 in H.
Qed.
(** C23: What gets past the door. Under a configuration of principals, a request that reaches a
    handler (preflights apart) carries the token of a configured principal and runs as that
    one; its role grants the permission of the route and method, or is the highest when the
    route has none; and a principal confined to a tenant reaches, of the routes below a tenant,
    only its own tenant's, and never the change or the deletion of the tenant itself; of the
    others only those a tenant may call, by the methods it may use there, none of which asks
    for a permission over the whole server. *)
Theorem passed_requests_are_permitted specs l fa now req ctx fa' audits :
  rbac_new specs = Ok l -> require_auth (Rbac l) fa now req = (Passed ctx, fa', audits) ->
  (exists p token, p ∈ specs /\ rq_authorization req = Some ("Bearer " +:+ token) /\ ps_token p = token
     /\ ctx = MkAuthContext (ps_name p) (ps_role p) (rq_source_ip req) (ps_tenant p))
  /\ (ac_role ctx = Admin \/ exists mp perm, rq_matched req = Some mp /\ required_permission (rq_method req) mp = Some perm /\ grants (ac_role ctx) perm = true)
  /\ (forall scoped, ac_tenant ctx = Some scoped -> exists mp, rq_matched req = Some mp /\ tenant_may_call (rq_method req) mp (rq_path req) scoped
        /\ (starts_with "/v1/tenants/{tenant}" mp = false -> forall perm, required_permission (rq_method req) mp = Some perm -> server_wide perm = false)).
Proof.
  intros Hn. unfold require_auth. case_bool_decide; [done|]. destruct (resolve_bearer _ _) as [c|] eqn:Er.
  2: { destruct (_ && _); [done|]. destruct (opt_test _ _); [|done]. by destruct (count_failure _ _ _). }
  destruct (authorize _ req) as [o au] eqn:Ea. intros [= -> -> ->]. unfold authorize in Ea. set (c' := MkAuthContext _ _ _ _) in Ea.
  destruct (role_allows c' _ _) eqn:Hr; [|done].
  assert (c' = ctx /\ forall scoped, ac_tenant c' = Some scoped ->
    exists mp, rq_matched req = Some mp /\ tenant_scope_decision (rq_method req) mp (rq_path req) scoped = AllowRoute) as [<- Ht].
  { destruct (ac_tenant c') as [scoped|]; [|by simplify_eq].
    destruct (rq_matched req) as [mp|]; [|done]. cbn [fmap option_fmap option_map] in Ea. destruct (tenant_scope_decision _ _ _ _) eqn:Ed; [|done..].
    split; [by simplify_eq|]. intros s [= <-]. eauto. }
  clear Ea. split_and!.
  - unfold resolve_bearer, bearer_token in Er. destruct (rq_authorization req) as [h|]; [|done]. cbn [mbind option_bind] in Er.
    destruct (strip_prefix "Bearer " h) as [t|] eqn:Es; [|done]. cbn [mbind option_bind] in Er.
    apply (tokens_name_principals specs l t c Hn) in Er as (p & Hin & Hp & ->). exists p, t. split_and!; [done| |done|done].
    f_equal. by apply strip_prefix_Some in Es.
  - unfold role_allows in Hr. destruct (rq_matched req) as [mp|]; [|by left; apply bool_decide_eq_true in Hr].
    destruct (required_permission _ mp) as [perm|] eqn:Ep; [right; eauto|by left; apply bool_decide_eq_true in Hr].
  - intros scoped (mp & ? & Hc%tenant_route_allowed)%Ht. exists mp. split_and!; [done|done|]. intros ? ? ?. by eapply tenant_kept_out.
Qed.
Definition two_principals : list PrincipalSpec := [MkPrincipalSpec "ann" "t-ann" Operator (Some "acme"); MkPrincipalSpec "bob" "t-bob" Admin None].
Definition tenant_request : Request :=
  MkRequest POST (Some "Bearer t-ann") (Some "10.0.0.9") (Some "/v1/tenants/{tenant}/runs") "/v1/tenants/acme/runs".
Definition no_failures : FailedAuth := MkFailedAuth ∅ None.
Lemma passed_requests_are_permitted_witness : path_tenant (rq_path tenant_request) = Some "acme".
Proof.
  destruct (passed_requests_are_permitted two_principals two_principals no_failures 0 tenant_request
    (MkAuthContext "ann" Operator (Some "10.0.0.9") (Some "acme")) no_failures []) as (_ & _ & Ht); [vm_compute; reflexivity..|].
  destruct (Ht "acme" eq_refl) as (mp & [= <-] & [(_ & H & _)|[H _]] & _); [exact H|discriminate H].
Defined.

(** ** The lock-out *)

Lemma unlocked_sources_spec m s k : (s, k) ∈ unlocked_sources m -> exists w, m !! k = Some w /\ fw_failures w < MAX_FAILURES.
Proof.
  unfold unlocked_sources. rewrite merge_sort_Permutation. intros ([k' w] & Hin & Hs)%list_elem_of_omap. cbn [fst snd] in Hs.
  destruct (fw_failures w <? MAX_FAILURES) eqn:E; [|done]. injection Hs as <- <-. apply elem_of_map_to_list in Hin. exists w. split; [done|lia].
Qed.
Lemma delete_all_lookup (l : list (Z * string)) (m : gmap string FailureWindow) k :
  (forall s, ~ (s, k) ∈ l) -> foldl (fun m sk => delete sk.2 m) m l !! k = m !! k.
Proof.
  revert m. induction l as [|[s k'] l IH]; intros m Hn; cbn [foldl]; [done|]. rewrite IH; [|intros t Ht; apply (Hn t); by right].
  apply lookup_delete_ne. cbn [snd]. intros ->. apply (Hn s). left.
Qed.
Lemma delete_all_size (l : list (Z * string)) (m : gmap string FailureWindow) : (size (foldl (fun m sk => delete sk.2 m) m l) <= size m)%nat.
Proof.
  revert m. induction l as [|[s k] l IH]; intros m; cbn [foldl]; [done|]. etransitivity; [apply IH|]. cbn [snd].
  rewrite map_size_delete. destruct (m !! k); cbn; lia.
Qed.
Lemma make_room_keeps_locked m now cap k w :
  m !! k = Some w -> window_open w now = true -> MAX_FAILURES <= fw_failures w -> make_room m now cap !! k = Some w.
Proof.
  intros Hk Ho Hf. unfold make_room. set (m' := filter _ m).
  assert (m' !! k = Some w) as Hm by by apply map_lookup_filter_Some. destruct (Nat.leb _ _); [|done].
  rewrite delete_all_lookup; [done|]. intros s Hin. apply elem_of_take in Hin as (i & Hi & _). apply list_elem_of_lookup_2 in Hi.
  apply unlocked_sources_spec in Hi as (w' & Hw & ?). simplify_eq. lia.
Qed.
Lemma make_room_size m now cap : (size (make_room m now cap) <= size m)%nat.
Proof.
  unfold make_room. set (m' := filter _ m). assert (size m' <= size m)%nat by (apply map_subseteq_size, map_filter_subseteq).
  destruct (Nat.leb _ _); [|done]. etransitivity; [apply delete_all_size|done].
Qed.
Lemma record_keeps_locked fa source now cap k w :
  fa_by_source fa !! k = Some w -> window_open w now = true -> MAX_FAILURES <= fw_failures w ->
  exists w', fa_by_source (record_capped fa source now cap).2 !! k = Some w' /\ fw_start w' = fw_start w /\ MAX_FAILURES <= fw_failures w'.
Proof.
  intros Hk Ho Hf. unfold record_capped.
  set (m := if Nat.leb cap (size (fa_by_source fa)) && _ then make_room _ _ _ else _).
  assert (m !! k = Some w) as Hm by (unfold m; destruct (_ && _); [by apply make_room_keeps_locked|done]).
  destruct (Nat.leb cap (size m) && _); [by eauto|].
  set (w2 := MkFailureWindow _ _). assert (exists w', <[source := w2]> m !! k = Some w' /\ fw_start w' = fw_start w /\ MAX_FAILURES <= fw_failures w') as H.
  { destruct (decide (source = k)) as [->|]; [|rewrite lookup_insert_ne by done; eauto]. rewrite lookup_insert_eq. eexists. split; [done|].
    unfold w2. rewrite Hm, Ho. cbn. split; [done|]. unfold sat_incr32, MAX_FAILURES in *. lia. }
  destruct (_ || _); [|done]. by destruct (audit_budget _ _).
Qed.
Definition record_all (cap : nat) (fa : FailedAuth) (attempts : list (string * Z)) : FailedAuth :=
  foldl (fun fa sn => (record_capped fa sn.1 sn.2 cap).2) fa attempts.
(** An address that has failed often enough stays locked for the rest of its window, whatever
    further attempts come, from it or from any number of other addresses. *)
Theorem lockout_holds cap fa source w attempts now :
  fa_by_source fa !! source = Some w -> MAX_FAILURES <= fw_failures w ->
  Forall (fun sn => window_open w sn.2 = true) attempts -> window_open w now = true ->
  locked (record_all cap fa attempts) source now = true.
Proof.
  unfold record_all. revert fa w. induction attempts as [|[s t] attempts IH]; intros fa w Hk Hf Ha Hn; cbn [foldl].
  - unfold locked. rewrite Hk, Hn. apply andb_true_iff. split; [done|lia].
  - apply Forall_cons in Ha as [Ht Ha]. cbn [fst snd] in *. destruct (record_keeps_locked fa s t cap source w Hk Ht Hf) as (w' & Hk' & Hs & Hf').
    apply (IH _ w'); [done|done| |]; unfold window_open in *; rewrite Hs; done.
Qed.
(** The addresses tracked never outgrow the cap. *)
Theorem tracked_addresses_bounded cap fa source now :
  (size (fa_by_source fa) <= cap)%nat -> (size (fa_by_source (record_capped fa source now cap).2) <= cap)%nat.
Proof.
  intros Hs. unfold record_capped. set (m := if Nat.leb cap (size (fa_by_source fa)) && _ then make_room _ _ _ else _).
  assert (size m <= cap)%nat as Hm.
  { unfold m. destruct (_ && _); [|done]. etransitivity; [apply make_room_size|done]. }
  destruct (Nat.leb cap (size m) && _) eqn:E; [done|]. assert (forall w, (size (<[source := w]> m) <= cap)%nat) as H.
  { intros w. rewrite map_size_insert. destruct (m !! source) eqn:El; [done|]. cbn in E. rewrite andb_true_r in E. apply Nat.leb_gt in E. lia. }
  destruct (_ || _); [|apply H]. destruct (audit_budget _ _). apply H.
Qed.
(** An address that is locked out and then presents a valid token is let in: the token is looked
    at before the lock. *)
Example locked_address_passes_with_a_valid_token :
  let fa := record_all MAX_TRACKED no_failures (replicate 20 ("10.0.0.9", 0)) in
  locked fa "10.0.0.9" 1 = true
  /\ (require_auth (Rbac two_principals) fa 1 tenant_request).1.1 = Passed (MkAuthContext "ann" Operator (Some "10.0.0.9") (Some "acme")).
Proof. by vm_compute. Qed.
