(* ===== verification/Changes.v ===== *)
(** Change requests: a proposed action is stored, approved by whom the policy names, re-planned
    and carried out. cli/src/serve/changes/mod.rs, cli/src/serve/changes/policy.rs and the
    approver's scope of policy_update.rs; the store's transitions of
    cli/src/serve/history/sql.rs.

    Several servers share the store. A request is read, decided on and written back in
    separate steps, so any steps of others may come between; a transition of the store is one
    step, the reply to the caller another, and a call can end between any two. The clocks are
    arbitrary. Parameters: JSON text, and what planning and carrying out an action answer. The
    fields of a request that no decision reads (reason, budget, comments, the template
    outcome, the caller's parameters, the version noted in a policy change's summary) are left
    out, with the redaction of stored error texts,
    audit records, metrics and notifications. *)
From S2P Require Import Prelude Errors Float64 Json Text StateKey Contract Transform Resolve Rbac.

Local Open Scope Z_scope.
Local Open Scope result_scope.

Inductive ChangeKind := Run | TemplateRegister | TemplateLaunch | TemplateDelete | TemplateDeprecate | Schedule | PolicyUpdate | TenantPolicyUpdate.
#[export] Instance ChangeKind_eq_dec : EqDecision ChangeKind.
Proof. solve_decision. Defined.
Definition ALL_KINDS : list ChangeKind :=
  [Run; TemplateRegister; TemplateLaunch; TemplateDelete; TemplateDeprecate; Schedule; PolicyUpdate; TenantPolicyUpdate].
Definition change_kind_str (k : ChangeKind) : string :=
  match k with
  | Run => "run" | TemplateRegister => "template_register" | TemplateLaunch => "template_launch" | TemplateDelete => "template_delete"
  | TemplateDeprecate => "template_deprecate" | Schedule => "schedule" | PolicyUpdate => "policy_update" | TenantPolicyUpdate => "tenant_policy_update"
  end.
Definition is_policy (k : ChangeKind) : bool := match k with PolicyUpdate | TenantPolicyUpdate => true | _ => false end.
Definition governed_by (k : ChangeKind) : option ChangeKind := match k with TemplateDelete | TemplateDeprecate => Some TemplateLaunch | _ => None end.
Definition change_kind_from_str (s : string) : result ChangeKind string :=
  let s := trim s in
  match List.find (fun k => string_eqb s (change_kind_str k) || string_eqb s (replace_str "_" "-" (change_kind_str k))) ALL_KINDS with
  | Some k => Ok k
  | None => Err ("unknown change kind `" +:+ s +:+ "` (expected run, template_register, template_launch, template_delete, template_deprecate, schedule, policy_update or tenant_policy_update)")
  end.
Inductive ChangeStatus := Pending | Approved | Rejected | Executed | Expired | Invalidated | Failed.
#[export] Instance ChangeStatus_eq_dec : EqDecision ChangeStatus.
Proof. solve_decision. Defined.
Definition status_str (s : ChangeStatus) : string :=
  match s with
  | Pending => "pending" | Approved => "approved" | Rejected => "rejected" | Executed => "executed" | Expired => "expired"
  | Invalidated => "invalidated" | Failed => "failed"
  end.
Definition is_terminal (s : ChangeStatus) : bool := match s with Pending | Approved => false | _ => true end.
Definition status_from_str (s : string) : result ChangeStatus string :=
  match List.find (fun t => string_eqb s (status_str t)) [Pending; Approved; Rejected; Executed; Expired; Invalidated; Failed] with
  | Some t => Ok t
  | None => Err ("unknown change status `" +:+ s +:+ "`")
  end.

(** ** The policy *)

Definition DEFAULT_EXPIRE_SECS : Z := 86400.
Record ApprovalRule := MkApprovalRule {
  rl_kinds : list ChangeKind; rl_roles : list Role; rl_principals : list string; rl_min_approvers : Z; rl_self_approve : bool }.
Record ApprovalPolicy := MkApprovalPolicy { pl_expire_secs : option Z; pl_rules : list ApprovalRule }.
Record EffectiveRule := MkEffectiveRule { ef_roles : list Role; ef_principals : list string; ef_min_approvers : Z; ef_self_approve : bool }.
Definition default_rule : EffectiveRule := MkEffectiveRule [Admin] [] 1 false.
Definition permissive : ApprovalPolicy := MkApprovalPolicy None [MkApprovalRule [] [Admin] [] 1 true].
Fixpoint validate_rules (i : nat) (l : list ApprovalRule) : result unit string :=
  match l with
  | [] => Ok tt
  | r :: l =>
      let at_ := "approvals.rules[" +:+ dec (Z.of_nat i) +:+ "]" in
      if rl_min_approvers r =? 0 then Err (at_ +:+ ".min_approvers must be at least 1")
      else if existsb (fun p => is_empty_str (trim p)) (rl_principals r) then Err (at_ +:+ ".principals contains an empty name")
      else validate_rules (S i) l
  end.
Definition validate_policy (p : ApprovalPolicy) : result unit string :=
  if bool_decide (pl_expire_secs p = Some 0) then Err "approvals.expire_secs must be greater than 0" else validate_rules 0 (pl_rules p).
Definition expire_secs (p : ApprovalPolicy) : Z := default DEFAULT_EXPIRE_SECS (pl_expire_secs p).
Definition names_kind (k : ChangeKind) (r : ApprovalRule) : bool := bool_decide (k ∈ rl_kinds r).
Definition effective (p : ApprovalPolicy) (kind : ChangeKind) : EffectiveRule :=
  let kind := match governed_by kind with
              | Some governing => if existsb (names_kind kind) (pl_rules p) then kind else governing
              | None => kind
              end in
  match List.find (fun r => is_nil (rl_kinds r) || names_kind kind r) (pl_rules p) with
  | None => default_rule
  | Some r => MkEffectiveRule (if is_nil (rl_roles r) && is_nil (rl_principals r) then [Admin] else rl_roles r) (rl_principals r)
                (Z.max 1 (rl_min_approvers r)) (rl_self_approve r)
  end.
Definition roles_text (l : list Role) : string := "role " +:+ join " / " (role_str <$> l).
Definition may_approve (p : ApprovalPolicy) (kind : ChangeKind) (actor : AuthContext) (requester : string) : result unit string :=
  let rule := effective p kind in
  let named := existsb (fun q => string_eqb q (ac_principal actor)) (ef_principals rule) in
  let by_role := bool_decide (ac_role actor ∈ ef_roles rule) in
  if negb named && negb by_role then
    let who := if is_nil (ef_principals rule) then roles_text (ef_roles rule) else join ", " (ef_principals rule) +:+ " or " +:+ roles_text (ef_roles rule) in
    Err ("a " +:+ change_kind_str kind +:+ " change may be approved by " +:+ who +:+ "; '" +:+ ac_principal actor +:+ "' is " +:+ role_str (ac_role actor))
  else if string_eqb (ac_principal actor) requester && negb (ef_self_approve rule) then
    Err ("'" +:+ ac_principal actor +:+ "' requested this change and may not approve it (self-approval is off for " +:+ change_kind_str kind +:+ " changes)")
  else Ok tt.
Definition approver_in_scope (actor : AuthContext) (change_tenant : option string) : result unit string :=
  match ac_tenant actor with
  | None => Ok tt
  | Some own => if bool_decide (change_tenant = Some own) then Ok tt
                else Err ("'" +:+ ac_principal actor +:+ "' is confined to tenant " +:+ own
                          +:+ "; only a server admin or an admin of the tenant the change is for may approve it")
  end.

(** ** Requests *)

Record Approval := MkApproval { av_principal : string; av_role : Role; av_at : Z }.
#[export] Instance Approval_eq_dec : EqDecision Approval.
Proof. solve_decision. Defined.
Record Rejection := MkRejection { rj_principal : string; rj_at : Z; rj_reason : string }.
#[export] Instance Rejection_eq_dec : EqDecision Rejection.
Proof. solve_decision. Defined.
Record ChangePlan := MkChangePlan { pn_material : string; pn_rows : list Value; pn_summary : Value }.
#[export] Instance ChangePlan_eq_dec : EqDecision ChangePlan.
Proof. solve_decision. Defined.
Record ChangeRequest := MkChangeRequest {
  cr_id : string; cr_kind : ChangeKind; cr_requester : string; cr_requester_role : Role; cr_payload : Value; cr_required_approvals : Z;
  cr_created_at : Z; cr_expires_at : Z; cr_tenant : option string;
  cr_status : ChangeStatus; cr_plan : option ChangePlan; cr_approvals : list Approval; cr_rejection : option Rejection;
  cr_run_id : option string; cr_error : option string; cr_updated_at : Z }.
#[export] Instance ChangeRequest_eq_dec : EqDecision ChangeRequest.
Proof. solve_decision. Defined.
(** The fields a request keeps, with new values for those that change. *)
Definition change_with (c : ChangeRequest) (status : ChangeStatus) (plan : option ChangePlan) (approvals : list Approval) (rejection : option Rejection)
  (run_id error : option string) (now : Z) : ChangeRequest :=
  MkChangeRequest (cr_id c) (cr_kind c) (cr_requester c) (cr_requester_role c) (cr_payload c) (cr_required_approvals c) (cr_created_at c) (cr_expires_at c)
    (cr_tenant c) status plan approvals rejection run_id error now.
Definition set_status (c : ChangeRequest) (status : ChangeStatus) (now : Z) : ChangeRequest :=
  change_with c status (cr_plan c) (cr_approvals c) (cr_rejection c) (cr_run_id c) (cr_error c) now.
(** [ChangeListFilter::matches]. *)
Record ChangeListFilter := MkChangeListFilter {
  fl_status : option ChangeStatus; fl_kind : option ChangeKind; fl_requester : option string; fl_tenant : option string }.
Definition none_or {A} (p : A -> bool) (o : option A) : bool := match o with Some a => p a | None => true end.
Definition filter_matches (f : ChangeListFilter) (c : ChangeRequest) : bool :=
  none_or (fun s => bool_decide (cr_status c = s)) (fl_status f) && none_or (fun k => bool_decide (cr_kind c = k)) (fl_kind f)
  && none_or (fun r => string_eqb (cr_requester c) r) (fl_requester f) && none_or (fun t => bool_decide (cr_tenant c = Some t)) (fl_tenant f).
Definition approval_kinds (kind : ChangeKind) (payload : Value) : list ChangeKind :=
  let launches := bool_decide (get payload "launch" = Some (VBool true))
                  || match get payload "tags" with Some (VArray t) => negb (is_nil t) | _ => false end in
  if bool_decide (kind = TemplateRegister) && launches then [kind; TemplateLaunch] else [kind].
Definition quorum_of (p : ApprovalPolicy) (kinds : list ChangeKind) : Z :=
  match (fun k => ef_min_approvers (effective p k)) <$> kinds with [] => 1 | n :: l => foldl Z.max n l end.
(** [create], once the payload is checked and planned. *)
Definition create (p : ApprovalPolicy) (actor : AuthContext) (id : string) (kind : ChangeKind) (payload : Value) (plan : ChangePlan) (expiry now : Z) : ChangeRequest :=
  let tenant := if bool_decide (kind = TenantPolicyUpdate) then t ← get payload "tenant"; as_str t else ac_tenant actor in
  MkChangeRequest id kind (ac_principal actor) (ac_role actor) payload (quorum_of p (approval_kinds kind payload)) now (now + expiry) tenant
    Pending (Some plan) [] None None None now.

(** ** Decisions *)

Definition not_pending (c : ChangeRequest) : ServeError :=
  Conflict ("change " +:+ cr_id c +:+ " is " +:+ status_str (cr_status c) +:+ ", not pending").
Fixpoint may_approve_all (p : ApprovalPolicy) (kinds : list ChangeKind) (actor : AuthContext) (requester : string) : result unit ServeError :=
  match kinds with
  | [] => Ok tt
  | k :: kinds => match may_approve p k actor requester with Ok _ => may_approve_all p kinds actor requester | Err m => Err (Forbidden m) end
  end.
Definition approver_scope (c : ChangeRequest) (actor : AuthContext) : result unit ServeError :=
  if is_policy (cr_kind c) then match approver_in_scope actor (cr_tenant c) with Ok _ => Ok tt | Err m => Err (Forbidden m) end else Ok tt.
(** [as u32]. *)
Definition count32 (l : list Approval) : Z := Z.of_nat (length l) mod 4294967296.
(** [approve] on what it read, up to the request it writes back. *)
Definition approve (p : ApprovalPolicy) (actor : AuthContext) (now : Z) (c : ChangeRequest) : result ChangeRequest ServeError :=
  if negb (bool_decide (cr_status c = Pending)) then Err (not_pending c)
  else
    let? _ := may_approve_all p (approval_kinds (cr_kind c) (cr_payload c)) actor (cr_requester c) in
    let? _ := approver_scope c actor in
    if existsb (fun a => string_eqb (av_principal a) (ac_principal actor)) (cr_approvals c) then
      Err (Conflict ("'" +:+ ac_principal actor +:+ "' already approved change " +:+ cr_id c))
    else
      let approvals := cr_approvals c ++ [MkApproval (ac_principal actor) (ac_role actor) now] in
      let status := if cr_required_approvals c <=? count32 approvals then Approved else Pending in
      Ok (change_with c status (cr_plan c) approvals (cr_rejection c) (cr_run_id c) (cr_error c) now).
Definition reject (p : ApprovalPolicy) (actor : AuthContext) (reason : string) (now : Z) (c : ChangeRequest) : result ChangeRequest ServeError :=
  if negb (bool_decide (cr_status c = Pending)) then Err (not_pending c)
  else
    let? _ := (if string_eqb (ac_principal actor) (cr_requester c) then Ok tt
               else let? _ := may_approve_all p (approval_kinds (cr_kind c) (cr_payload c)) actor EmptyString in approver_scope c actor) in
    Ok (change_with c Rejected (cr_plan c) (cr_approvals c) (Some (MkRejection (ac_principal actor) now reason)) (cr_run_id c) (cr_error c) now).
Definition expiry_due (c : ChangeRequest) (now : Z) : bool := bool_decide (cr_status c = Pending) && (cr_expires_at c <=? now).
Definition expire (c : ChangeRequest) (now : Z) : ChangeRequest := set_status c Expired now.

Definition role_debug (r : Role) : string := match r with Viewer => "Viewer" | Operator => "Operator" | Admin => "Admin" end.
Definition requester_still_authorized (mode : AuthMode) (c : ChangeRequest) : result unit string :=
  match mode with
  | Rbac l =>
      let name := cr_requester c in
      match rbac_principal l name with
      | None => if is_server_identity name then Ok tt
                else Err ("requester '" +:+ name +:+ "' is no longer a principal in --auth-config, so the approved change cannot run on its behalf")
      | Some (role, tenant) =>
          if existsb (fun q => negb (grants role q)) (permissions (cr_requester_role c)) then
            Err ("requester '" +:+ name +:+ "' now holds role " +:+ role_debug role +:+ ", below the " +:+ role_debug (cr_requester_role c)
                 +:+ " it held when it requested this change, so the approved change cannot run on its behalf")
          else match tenant with
               | Some scope => if bool_decide (cr_tenant c = Some scope) then Ok tt
                               else Err ("requester '" +:+ name +:+ "' is no longer scoped to the tenant this change was requested for, so the approved change cannot run on its behalf")
               | None => Ok tt
               end
      end
  | _ => Ok tt
  end.
Definition finish_failed (c : ChangeRequest) (error : string) (now : Z) : ChangeRequest :=
  change_with c Failed (cr_plan c) (cr_approvals c) (cr_rejection c) (cr_run_id c) (Some error) now.

Section Execute.
Context (json_text : Value -> string).
Definition MATERIAL_FIELDS : list string :=
  ["source"; "sink"; "write_mode"; "delivery_guarantee"; "transforms"; "quality"; "contract"; "masking"; "schema_drift"].
Definition plan_row_key (r : Value) : string := default EmptyString (v ← get r "row"; as_str v).
Definition field_text (r : Value) (f : string) : string := match get r f with Some v => json_text v | None => EmptyString end.
Definition row_diff (after : list Value) (b : Value) : list string :=
  let k := plan_row_key b in
  match List.find (fun a => string_eqb (plan_row_key a) k) after with
  | None => ["row `" +:+ k +:+ "` is gone"]
  | Some a => omap (fun f => if bool_decide (get b f = get a f) then None
                             else Some ("row `" +:+ k +:+ "`: " +:+ f +:+ " was " +:+ field_text b f +:+ " and is now " +:+ field_text a f)) MATERIAL_FIELDS
  end.
Definition material_diff (before after : list Value) : list string :=
  flat_map (row_diff after) before
  ++ omap (fun a => if existsb (fun b => string_eqb (plan_row_key b) (plan_row_key a)) before then None else Some ("row `" +:+ plan_row_key a +:+ "` is new")) after.

(** What the world answers an execution: the version a policy change has stored already, the
    plan as of now, and the outcome when the action is carried out. *)
Record Answers := MkAnswers { an_applied : option Z; an_plan : result ChangePlan string; an_outcome : result (option string) string }.
Definition invalidated_error (before fresh : ChangePlan) : string :=
  let diff := material_diff (pn_rows before) (pn_rows fresh) in
  if is_nil diff then "the plan changed since approval (" +:+ json_text (pn_summary before) +:+ " → " +:+ json_text (pn_summary fresh) +:+ ")"
  else "the plan changed since approval: " +:+ join "; " diff.
Definition plan_moved (before : option ChangePlan) (fresh : ChangePlan) : bool :=
  opt_test (fun b => negb (string_eqb (pn_material b) (pn_material fresh))) before.
(** [execute]: whether the action was carried out, and the request to store. *)
Definition execute (mode : AuthMode) (ans : Answers) (now : Z) (c : ChangeRequest) : bool * ChangeRequest :=
  match requester_still_authorized mode c with
  | Err why => (false, finish_failed c why now)
  | Ok _ =>
      if is_policy (cr_kind c) && is_some (an_applied ans) then (false, set_status c Executed now)
      else match an_plan ans with
           | Err e => (false, finish_failed c e now)
           | Ok fresh =>
               if plan_moved (cr_plan c) fresh then
                 (false, change_with c Invalidated (Some fresh) (cr_approvals c) (cr_rejection c) (cr_run_id c)
                           ((fun b => invalidated_error b fresh) <$> cr_plan c) now)
               else match an_outcome ans with
                    | Ok run_id => (true, change_with c Executed (Some fresh) (cr_approvals c) (cr_rejection c) run_id (cr_error c) now)
                    | Err e => (true, finish_failed c e now)
                    end
           end
  end.
End Execute.
Definition INTERRUPTED : string :=
  "execution was interrupted after approval and its outcome is unknown; check the template's versions before proposing it again".
Definition STALE_APPROVED : Z := 5 * 60 * 1000000000.

(** ** The store *)

Definition change_transition (stored : option ChangeRequest) (c : ChangeRequest) (from : ChangeStatus) : bool * option ChangeRequest :=
  if bool_decide (cr_status <$> stored = Some from) then (true, Some c) else (false, stored).
(** The stored row has the status and the time of the version that was read. *)
Definition change_transition_from (stored : option ChangeRequest) (c before : ChangeRequest) : bool * option ChangeRequest :=
  match stored with
  | Some s => if bool_decide (cr_status s = cr_status before) && (cr_updated_at s =? cr_updated_at before) then (true, Some c) else (false, stored)
  | None => (false, None)
  end.

(** ** Servers at work on one request *)

Inductive Task :=
| TApprove (actor : AuthContext) (before after : ChangeRequest)
| TApproved (actor : AuthContext) (c : ChangeRequest)
| TReject (after : ChangeRequest)
| TExpire (after : ChangeRequest)
| TExecute (approver : option string) (c : ChangeRequest)
| TSave (approver : option string) (c : ChangeRequest)
| TReply (approver : string).
(** The stored request, the calls under way, and what has happened: the approvals the store
    took, the approvers who were told so, and the requests carried out. *)
Record World := MkWorld {
  wd_stored : option ChangeRequest; wd_tasks : list Task; wd_taken : list string; wd_acknowledged : list string; wd_performed : list ChangeRequest }.
Definition wd_add (w : World) (t : Task) : World := MkWorld (wd_stored w) (t :: wd_tasks w) (wd_taken w) (wd_acknowledged w) (wd_performed w).
(** The calls under way go on as [tasks] with the store as [stored]. *)
Definition wd_go (w : World) (stored : option ChangeRequest) (tasks : list Task) : World :=
  MkWorld stored tasks (wd_taken w) (wd_acknowledged w) (wd_performed w).

Section Steps.
Context (json_text : Value -> string) (p : ApprovalPolicy) (mode : AuthMode).
(** One call under way goes on: [rest] are the others. An approval is committed, then, with the
    quorum, the request is carried out and its outcome saved; the approver hears of it last. *)
Definition run_task (ans : Answers) (now : Z) (rest : list Task) (t : Task) (w : World) : World :=
  match t with
  | TApprove actor before after =>
      let '(ok, stored) := change_transition_from (wd_stored w) after before in
      if ok then MkWorld stored (TApproved actor after :: rest) (wd_taken w ++ [ac_principal actor]) (wd_acknowledged w) (wd_performed w)
      else wd_go w stored rest
  | TApproved actor c =>
      wd_go w (wd_stored w) ((if bool_decide (cr_status c = Approved) then TExecute (Some (ac_principal actor)) c else TReply (ac_principal actor)) :: rest)
  | TReject after | TExpire after => wd_go w (change_transition (wd_stored w) after Pending).2 rest
  | TExecute approver c =>
      let '(did, c') := execute json_text mode ans now c in
      MkWorld (wd_stored w) (TSave approver c' :: rest) (wd_taken w) (wd_acknowledged w) (if did then wd_performed w ++ [c] else wd_performed w)
  | TSave approver c => wd_go w (Some c) (match approver with Some who => TReply who :: rest | None => rest end)
  | TReply who => MkWorld (wd_stored w) rest (wd_taken w) (wd_acknowledged w ++ [who]) (wd_performed w)
  end.
(** A server reads the request and decides; a call goes on; a call ends early: its server dies,
    or the store answers it with an error. *)
Inductive step : World -> World -> Prop :=
| step_approve w actor seen now c after :
    wd_stored w = Some c -> expiry_due c seen = false -> approve p actor now c = Ok after -> step w (wd_add w (TApprove actor c after))
| step_reject w actor reason seen now c after :
    wd_stored w = Some c -> expiry_due c seen = false -> reject p actor reason now c = Ok after -> step w (wd_add w (TReject after))
| step_expire w seen now c : wd_stored w = Some c -> expiry_due c seen = true -> step w (wd_add w (TExpire (expire c now)))
| step_reconcile w now c :
    wd_stored w = Some c -> cr_status c = Approved -> cr_updated_at c <= now - STALE_APPROVED ->
    step w (wd_add w (if bool_decide (cr_kind c = TemplateRegister) then TSave None (finish_failed c INTERRUPTED now) else TExecute None c))
| step_task w ans now l1 t l2 : wd_tasks w = l1 ++ t :: l2 -> step w (run_task ans now (l1 ++ l2) t w)
| step_die w l1 t l2 : wd_tasks w = l1 ++ t :: l2 -> step w (wd_go w (wd_stored w) (l1 ++ l2)).
Definition created (c : ChangeRequest) : World := MkWorld (Some c) [] [] [] [].
Definition reachable (w : World) : Prop :=
  exists actor id kind payload plan expiry now, rtc step (created (create p actor id kind payload plan expiry now)) w.
End Steps.

(** ** Only approved requests are carried out *)

Section Safety.
Context (json_text : Value -> string) (p : ApprovalPolicy) (mode : AuthMode).
Notation step := (step json_text p mode).
Notation reachable := (reachable json_text p mode).

Definition voter (a : Approval) : AuthContext := MkAuthContext (av_principal a) (av_role a) None None.
Definition kinds_of (c : ChangeRequest) : list ChangeKind := approval_kinds (cr_kind c) (cr_payload c).
Definition voters (c : ChangeRequest) : list string := av_principal <$> cr_approvals c.
Definition good (c : ChangeRequest) : Prop :=
  NoDup (voters c) /\ Forall (fun a => forall k, k ∈ kinds_of c -> may_approve p k (voter a) (cr_requester c) = Ok tt) (cr_approvals c)
  /\ forall k, k ∈ kinds_of c -> ef_min_approvers (effective p k) <= cr_required_approvals c.
Definition quorate (c : ChangeRequest) : Prop := cr_required_approvals c <= Z.of_nat (length (cr_approvals c)).
Definition sound (taken : list string) (c : ChangeRequest) : Prop := good c /\ voters c ⊆ taken.
Definition decided (taken : list string) (c : ChangeRequest) : Prop := sound taken c /\ quorate c.
Definition past_vote (s : ChangeStatus) : bool := match s with Approved | Executed | Invalidated | Failed => true | _ => false end.
Definition voting (taken : list string) (t : Task) : Prop :=
  match t with
  | TApprove actor before after => sound taken before /\ exists now, approve p actor now before = Ok after
  | TApproved actor c => cr_status c = Pending /\ ac_principal actor ∈ taken
  | TReject after => cr_status after = Rejected /\ sound taken after
  | TExpire after => cr_status after = Expired /\ sound taken after
  | TReply who => who ∈ taken
  | _ => False
  end.
Definition heard (taken : list string) (approver : option string) : Prop := forall who, approver = Some who -> who ∈ taken.
Definition working (taken : list string) (t : Task) : Prop :=
  match t with
  | TApproved actor c => ac_principal actor ∈ taken /\ (cr_status c = Pending \/ (cr_status c = Approved /\ decided taken c))
  | TExecute approver c => decided taken c /\ heard taken approver
  | TSave approver c => decided taken c /\ past_vote (cr_status c) = true /\ heard taken approver
  | _ => voting taken t
  end.
Definition safe (w : World) : Prop :=
  wd_acknowledged w ⊆ wd_taken w /\
  exists c, wd_stored w = Some c /\ sound (wd_taken w) c /\
  if past_vote (cr_status c) then quorate c /\ Forall (working (wd_taken w)) (wd_tasks w) /\ Forall (decided (wd_taken w)) (wd_performed w)
  else Forall (voting (wd_taken w)) (wd_tasks w) /\ wd_performed w = [].

Lemma may_approve_all_ok kinds actor requester : may_approve_all p kinds actor requester = Ok tt -> forall k, k ∈ kinds -> may_approve p k actor requester = Ok tt.
Proof.
  induction kinds as [|k kinds IH]; cbn [may_approve_all]; [intros _ k Hk; by apply not_elem_of_nil in Hk|].
  destruct (may_approve p k actor requester) as [[]|] eqn:E; [|done]. intros H k' [->|?]%elem_of_cons; auto.
Qed.
Lemma foldl_max_ge n l x : x = n \/ x ∈ l -> x <= foldl Z.max n l.
Proof.
  revert n x. induction l as [|y l IH]; intros n x; cbn [foldl]; [intros [->|H]; [lia|by apply not_elem_of_nil in H]|].
  pose proof (IH (Z.max n y) _ (or_introl eq_refl)) as Hm.
  intros [->|[->|Hx]%elem_of_cons]; [lia|lia|]. by apply IH; right.
Qed.
Lemma quorum_of_ge kinds k : k ∈ kinds -> ef_min_approvers (effective p k) <= quorum_of p kinds.
Proof.
  intros Hk. unfold quorum_of. apply (list_elem_of_fmap_2 (fun k => ef_min_approvers (effective p k))) in Hk.
  destruct (_ <$> kinds) as [|n l]; [by apply not_elem_of_nil in Hk|]. apply foldl_max_ge. by apply elem_of_cons in Hk.
Qed.
(** An approval adds one voter the policy allows; with the quorum the request is approved. *)
Lemma approve_inv actor now c after : approve p actor now c = Ok after -> good c ->
  cr_status c = Pending /\ good after /\ voters after = voters c ++ [ac_principal actor]
  /\ (cr_status after = Pending \/ (cr_status after = Approved /\ cr_required_approvals after <= Z.of_nat (length (cr_approvals after)))).
Proof.
  unfold approve. case_bool_decide as Hs; cbn [negb]; [|done]. destruct (may_approve_all _ _ _ _) as [[]|] eqn:Hm; cbn [result_bind]; [|done].
  destruct (approver_scope c actor) as [[]|]; cbn [result_bind]; [|done]. destruct (existsb _ _) eqn:He; [done|]. intros [= <-] (Hd & Hf & Hq).
  assert (~ ac_principal actor ∈ voters c) as Hnew.
  { intros (a & Ha & Hin)%list_elem_of_fmap. apply not_true_iff_false in He. apply He, existsb_exists. exists a.
    split; [by apply list_elem_of_In|by apply bool_decide_eq_true]. }
  split_and!; [done| | |].
  - split_and!; [unfold voters; cbn; rewrite fmap_app; apply NoDup_app; split_and!; [done| |apply NoDup_singleton]| |done].
    + intros x Hx ->%list_elem_of_singleton. done.
    + apply Forall_app. split; [done|]. apply Forall_singleton. intros k Hk.
      exact (may_approve_all_ok _ _ _ Hm k Hk).
  - unfold voters. cbn. by rewrite fmap_app.
  - cbn. destruct (_ <=? _) eqn:El; [right|by left]. split; [done|]. apply Z.leb_le in El. unfold count32 in El.
    pose proof (Z.mod_le (Z.of_nat (length (cr_approvals c ++ [MkApproval (ac_principal actor) (ac_role actor) now]))) 4294967296). lia.
Qed.
Lemma execute_inv taken ans now c did c' :
  execute json_text mode ans now c = (did, c') -> decided taken c -> decided taken c' /\ past_vote (cr_status c') = true.
Proof.
  intros He Hd. assert (exists s pl rj ri er, c' = change_with c s pl (cr_approvals c) rj ri er now /\ past_vote s = true)
    as (s & pl & rj & ri & er & -> & Hs); [|by split].
  revert He. unfold execute. destruct (requester_still_authorized mode c); [|intros [= _ <-]; repeat eexists].
  destruct (_ && _); [intros [= _ <-]; repeat eexists|]. destruct (an_plan ans) as [fresh|]; [|intros [= _ <-]; repeat eexists].
  destruct (plan_moved _ _); [intros [= _ <-]; repeat eexists|]. destruct (an_outcome ans); intros [= _ <-]; repeat eexists.
Qed.
Lemma working_voting taken t : voting taken t -> working taken t.
Proof. destruct t; cbn; naive_solver. Qed.
Lemma Forall_mid {A} (P : A -> Prop) l1 a l2 : Forall P (l1 ++ a :: l2) <-> P a /\ Forall P (l1 ++ l2).
Proof. rewrite !Forall_app, Forall_cons. tauto. Qed.
(** *** What holds of the approvals taken holds of more of them *)
Section More.
Context (taken more : list string) (Hsub : taken ⊆ more).
Lemma sound_more c : sound taken c -> sound more c.
Proof. intros [Hg Hv]. split; [done|]. by transitivity taken. Qed.
Lemma decided_more c : decided taken c -> decided more c.
Proof. intros [Hs Hq]. split; [by apply sound_more|done]. Qed.
Lemma voting_more t : voting taken t -> voting more t.
Proof. destruct t; cbn; try done; intros H; [destruct H; split; [by apply sound_more|done]|destruct H; split; [done|by apply Hsub]|..|by apply Hsub]; destruct H; split; try done; by apply sound_more. Qed.
Lemma heard_more approver : heard taken approver -> heard more approver.
Proof. intros H who Hw. by apply Hsub, H. Qed.
Lemma working_more t : working taken t -> working more t.
Proof.
  destruct t; try exact (voting_more _); cbn; intros H.
  - destruct H as [Hin [Hp|[Ha Hd]]]; (split; [by apply Hsub|]); [by left|right; split; [done|by apply decided_more]].
  - destruct H. split; [by apply decided_more|by apply heard_more].
  - destruct H as (? & ? & ?). split_and!; [by apply decided_more|done|by apply heard_more].
Qed.
End More.
Lemma safe_add w t : safe w ->
  (forall c, wd_stored w = Some c -> sound (wd_taken w) c -> (past_vote (cr_status c) = true -> quorate c) ->
     if past_vote (cr_status c) then working (wd_taken w) t else voting (wd_taken w) t) ->
  safe (wd_add w t).
Proof.
  intros (Hk & c & Hc & Hg & H) Ht. split; [done|]. exists c. split_and!; [done|done|]. specialize (Ht c Hc Hg). cbn [wd_add wd_taken wd_tasks wd_performed].
  destruct (past_vote _).
  - destruct H as (Hq & Hts & Hp). split_and!; [done| |done]. apply Forall_cons. split; [by apply Ht|done].
  - destruct H as (Hts & Hp). split; [|done]. apply Forall_cons. split; [by apply Ht|done].
Qed.
(** The calls under way, without the one that goes on. *)
Lemma safe_rest w l1 t l2 : safe w -> wd_tasks w = l1 ++ t :: l2 -> safe (wd_go w (wd_stored w) (l1 ++ l2)).
Proof.
  intros (Hk & c & Hc & Hg & H) Ht. split; [done|]. exists c. split_and!; [done|done|]. rewrite Ht in H. cbn [wd_go wd_taken wd_tasks wd_performed].
  destruct (past_vote _); rewrite Forall_mid in H; tauto.
Qed.
(** What is known of the call that goes on. *)
Lemma safe_task w l1 t l2 : safe w -> wd_tasks w = l1 ++ t :: l2 -> working (wd_taken w) t.
Proof.
  intros (_ & c & _ & _ & H) Ht. rewrite Ht in H. destruct (past_vote _); rewrite Forall_mid in H; [tauto|]. apply working_voting. tauto.
Qed.
(** A call that votes goes on as another that votes. *)
Lemma safe_next w l1 t l2 t' : safe w -> wd_tasks w = l1 ++ t :: l2 -> (voting (wd_taken w) t -> voting (wd_taken w) t') ->
  (working (wd_taken w) t -> working (wd_taken w) t') -> safe (wd_go w (wd_stored w) (t' :: l1 ++ l2)).
Proof.
  intros Hs Ht Hv Hw. apply (safe_add (wd_go w (wd_stored w) (l1 ++ l2))); [by eapply safe_rest|]. cbn. intros c Hc _ _.
  destruct Hs as (_ & c' & Hc' & _ & H). simplify_eq. rewrite Ht in H. destruct (past_vote _); rewrite Forall_mid in H; tauto.
Qed.
Lemma safe_commit_approve w l1 actor before after l2 : safe w -> wd_tasks w = l1 ++ TApprove actor before after :: l2 ->
  (change_transition_from (wd_stored w) after before).1 = true ->
  safe (MkWorld (Some after) (TApproved actor after :: l1 ++ l2) (wd_taken w ++ [ac_principal actor]) (wd_acknowledged w) (wd_performed w)).
Proof.
  intros Hsafe Ht. destruct (safe_task _ _ _ _ Hsafe Ht) as ([Hgb Hvb] & n & Hap). destruct Hsafe as (Hk & c & Hc & Hg & H).
  rewrite Hc. unfold change_transition_from. destruct (bool_decide _ && _) eqn:E; [|done]. apply andb_true_iff in E as [Hs%bool_decide_eq_true _]. intros _.
  destruct (approve_inv _ _ _ _ Hap Hgb) as (Hpend & Hga & Hv & Hst). rewrite Hs, Hpend, Ht in H. destruct H as ([_ Hts]%Forall_mid & Hpf).
  set (more := wd_taken w ++ [ac_principal actor]). assert (wd_taken w ⊆ more) as Hsub by (unfold more; set_solver).
  assert (ac_principal actor ∈ more) as Hin by (unfold more; set_solver).
  assert (sound more after) as Hsa by (split; [done|rewrite Hv; unfold more; set_solver]).
  split; [by transitivity (wd_taken w)|]. exists after. split_and!; [done|done|]. cbn [wd_taken wd_tasks wd_performed]. fold more.
  assert (Forall (voting more) (l1 ++ l2)) as Hts' by (eapply Forall_impl; [exact Hts|intros t; by apply voting_more]).
  destruct Hst as [Hst|[Hst Hq]]; rewrite Hst; cbn [past_vote].
  - split; [|done]. by apply Forall_cons.
  - rewrite Hpf. split_and!; [done| |done]. apply Forall_cons. split; [split; [done|by right]|].
    eapply Forall_impl; [exact Hts'|apply working_voting].
Qed.
Lemma safe_close w l1 t l2 after : safe w -> wd_tasks w = l1 ++ t :: l2 -> t = TReject after \/ t = TExpire after ->
  safe (wd_go w (change_transition (wd_stored w) after Pending).2 (l1 ++ l2)).
Proof.
  intros Hsafe Ht Hk. pose proof (safe_rest _ _ _ _ Hsafe Ht) as Hr. unfold change_transition. case_bool_decide as Hs; [|exact Hr].
  pose proof (safe_task _ _ _ _ Hsafe Ht) as Hv. destruct Hr as (Hack & c & Hc & Hg & H). cbn in Hc. rewrite Hc in Hs. injection Hs as Hs. rewrite Hs in H.
  split; [done|]. exists after. destruct Hk as [-> | ->]; destruct Hv as [Hst Hga]; rewrite Hst; done.
Qed.
Lemma safe_save w l1 approver d l2 : safe w -> wd_tasks w = l1 ++ TSave approver d :: l2 ->
  safe (wd_go w (Some d) (match approver with Some who => TReply who :: l1 ++ l2 | None => l1 ++ l2 end)).
Proof.
  intros Hsafe Ht. destruct (safe_task _ _ _ _ Hsafe Ht) as ([Hs Hq] & Hp & Hh). destruct Hsafe as (Hack & c & Hc & Hg & H). rewrite Ht in H.
  destruct (past_vote (cr_status c)); [|by destruct H as [[[] _]%Forall_mid _]].
  destruct H as (_ & [_ Hts]%Forall_mid & Hpf). split; [done|]. exists d. split_and!; [done|done|]. rewrite Hp. split_and!; [done| |done].
  destruct approver as [who|]; [|done]. apply Forall_cons. split; [by apply Hh|done].
Qed.
(** A call going on keeps the state safe. *)
Lemma safe_run ans now w l1 t l2 : safe w -> wd_tasks w = l1 ++ t :: l2 -> safe (run_task json_text mode ans now (l1 ++ l2) t w).
Proof.
  intros Hsafe Ht. pose proof (safe_rest _ _ _ _ Hsafe Ht) as Hr. pose proof (safe_task _ _ _ _ Hsafe Ht) as Hk.
  destruct t as [actor before after|actor c|after|after|approver d|approver d|who]; cbn [run_task].
  - pose proof (safe_commit_approve _ _ _ _ _ _ Hsafe Ht) as Hcommit. unfold change_transition_from in *.
    destruct (wd_stored w); [|done]. destruct (_ && _); [by apply Hcommit|done].
  - eapply safe_next; [done|done| |]; cbn; [by intros [-> ?]|]. intros [Hin [-> |[-> Hd]]]; [done|]. split; [done|]. by intros who [= <-].
  - by eapply safe_close; eauto.
  - by eapply safe_close; eauto.
  - destruct Hk as [Hd Hh]. destruct (execute _ _ _ _ d) as [did d'] eqn:Ed. destruct (execute_inv _ _ _ _ _ _ Ed Hd) as [Hd' Hs'].
    destruct Hsafe as (_ & c0 & Hc0 & _ & Ht0). rewrite Ht in Ht0. destruct Hr as (Hack & c & Hc & Hg & H). cbn in Hc.
    assert (c0 = c) as -> by congruence. split; [done|]. exists c. split_and!; [done|done|]. cbn. destruct (past_vote (cr_status c)); [|by destruct Ht0 as [[[] _]%Forall_mid _]].
    destruct H as (Hq & Hts & Hpf). split_and!; [done|by apply Forall_cons|]. destruct did; [|done]. apply Forall_app. split; [done|]. by apply Forall_singleton.
  - by eapply safe_save.
  - destruct Hr as (Hack & Hr). split; [|exact Hr]. cbn. cbn in Hk, Hack. set_solver.
Qed.
Lemma safe_step w w' : safe w -> step w w' -> safe w'.
Proof.
  intros Hs Hstep. destruct Hstep as [w actor seen now c after Hc _ Ha|w actor reason seen now c after Hc _ Hr|w seen now c Hc Hd|w now c Hc Hst _|w ans now l1 t l2 Ht|w l1 t l2 Ht].
  - apply safe_add; [done|]. intros c' Hc' Hg _. simplify_eq.
    assert (voting (wd_taken w) (TApprove actor c after)) as Hv by (split; [done|by exists now]). destruct (past_vote _); done.
  - apply safe_add; [done|]. intros c' Hc' Hg _. simplify_eq.
    assert (voting (wd_taken w) (TReject after)) as Hv; [|by destruct (past_vote _)]. revert Hr. unfold reject. case_bool_decide; cbn [negb]; [|done].
    destruct (if string_eqb _ _ then _ else _) as [[]|]; cbn [result_bind]; [|done]. by intros [= <-].
  - apply safe_add; [done|]. intros c' Hc' Hg _. simplify_eq. assert (voting (wd_taken w) (TExpire (expire c now))) as Hv by done. by destruct (past_vote _).
  - apply safe_add; [done|]. intros c' Hc' Hg Hdec. simplify_eq. rewrite Hst in *. cbn [past_vote] in *. specialize (Hdec eq_refl).
    case_bool_decide; cbn; split_and!; done.
  - by apply safe_run.
  - by eapply safe_rest.
Qed.
Lemma safe_created actor id kind payload plan expiry now : safe (created (create p actor id kind payload plan expiry now)).
Proof.
  split; [done|]. eexists. split_and!; [done| |done]. split; [|done]. split_and!; [apply NoDup_nil_2|constructor|]. intros k Hk. by apply quorum_of_ge.
Qed.
Lemma reachable_safe w : reachable w -> safe w.
Proof.
  intros (actor & id & kind & payload & plan & expiry & now & Hr).
  pose proof (safe_created actor id kind payload plan expiry now) as Hs. induction Hr as [|? ? ? Hstep _ IH]; [done|]. by apply IH, (safe_step _ _ Hs).
Qed.
Lemma may_approve_ok k actor requester : may_approve p k actor requester = Ok tt ->
  (ac_principal actor ∈ ef_principals (effective p k) \/ ac_role actor ∈ ef_roles (effective p k))
  /\ (ac_principal actor = requester -> ef_self_approve (effective p k) = true).
Proof.
  unfold may_approve. destruct (negb _ && negb _) eqn:E; [done|]. destruct (string_eqb _ _ && _) eqn:Es; [done|]. intros _. split.
  - apply andb_false_iff in E as [E|E]; apply negb_false_iff in E.
    + left. apply existsb_exists in E as (q & Hin%list_elem_of_In & Hq%bool_decide_eq_true). by subst.
    + right. by apply bool_decide_eq_true in E.
  - intros Hq. apply andb_false_iff in Es as [Es|Es]; [by apply bool_decide_eq_false in Es|by apply negb_false_iff in Es].
Qed.
(** C22: Nothing runs unapproved. However the calls of several servers interleave, fail or die
    and whatever their clocks read, a request that was carried out had, for its kind and for
    every kind it also counts as, as many distinct approvers as the rule asks for; each is one
    the rule names or whose role it names, and the requester among them only where the rule
    lets it; the store had taken an approval of each of them; and the request had not been
    rejected and had not lapsed, nor does it later. Whoever is told that their approval was
    taken gave one that the store took. *)
Theorem only_approved_changes_run w c : reachable w -> c ∈ wd_performed w ->
  NoDup (voters c) /\ voters c ⊆ wd_taken w /\ wd_acknowledged w ⊆ wd_taken w
  /\ (forall k, k ∈ kinds_of c -> ef_min_approvers (effective p k) <= Z.of_nat (length (cr_approvals c)))
  /\ (forall a k, a ∈ cr_approvals c -> k ∈ kinds_of c ->
        (av_principal a ∈ ef_principals (effective p k) \/ av_role a ∈ ef_roles (effective p k))
        /\ (av_principal a = cr_requester c -> ef_self_approve (effective p k) = true))
  /\ exists s, wd_stored w = Some s /\ cr_status s <> Pending /\ cr_status s <> Rejected /\ cr_status s <> Expired.
Proof.
  intros (Hack & s & Hs & _ & H)%reachable_safe Hin. destruct (past_vote (cr_status s)) eqn:Hp; [|destruct H as (_ & Hn); rewrite Hn in Hin; by apply not_elem_of_nil in Hin].
  destruct H as (_ & _ & Hf). rewrite Forall_forall in Hf. destruct (Hf c Hin) as [[(Hd & Hv & Hm) Hsub] Hq]. split_and!; [done|done|done| | |].
  - intros k Hk. etransitivity; [by apply Hm|done].
  - intros a k Ha Hk. rewrite Forall_forall in Hv. exact (may_approve_ok k (voter a) _ (Hv a Ha k Hk)).
  - exists s. split; [done|]. by destruct (cr_status s).
Qed.
Lemma closed_step w w' c : safe w -> step w w' -> wd_stored w = Some c -> cr_status c = Rejected \/ cr_status c = Expired -> wd_stored w' = Some c.
Proof.
  intros (_ & c' & Hc' & _ & H) Hstep Hc Hst. assert (c' = c) as -> by congruence. assert (past_vote (cr_status c) = false) as Hp by (by destruct Hst as [-> | ->]). rewrite Hp in H.
  assert (forall l1 t l2, wd_tasks w = l1 ++ t :: l2 -> voting (wd_taken w) t) as Hv.
  { intros l1 t l2 Ht. destruct H as (Hf & _). rewrite Ht in Hf. by apply Forall_mid in Hf as [? _]. }
  assert (cr_status c <> Pending) as Hn by (by destruct Hst as [-> | ->]).
  destruct Hstep as [| | | |w ans now l1 t l2 Ht|]; try done. specialize (Hv _ _ _ Ht). unfold run_task.
  destruct t as [actor before after|actor d|after|after|approver d|approver d|who]; [|done| | |done|done|done].
  - destruct Hv as ([Hg _] & n & Hap). destruct (approve_inv _ _ _ _ Hap Hg) as [Hpend _].
    unfold change_transition_from. rewrite Hc. rewrite bool_decide_eq_false_2 by (by rewrite Hpend). done.
  - unfold change_transition. rewrite bool_decide_eq_false_2; [done|]. rewrite Hc. by intros [= ?].
  - unfold change_transition. rewrite bool_decide_eq_false_2; [done|]. rewrite Hc. by intros [= ?].
Qed.
(** A request that was rejected or has lapsed stays so and is never carried out. *)
Theorem closed_changes_stay_closed w w' c :
  reachable w -> wd_stored w = Some c -> cr_status c = Rejected \/ cr_status c = Expired -> rtc step w w' ->
  wd_stored w' = Some c /\ wd_performed w' = [].
Proof.
  intros Hr%reachable_safe Hc Hst Hsteps. induction Hsteps as [w|w w1 w2 Hstep _ IH].
  - split; [done|]. destruct Hr as (_ & c' & Hc' & _ & H). assert (c' = c) as -> by congruence.
    assert (past_vote (cr_status c) = false) as Hp by (by destruct Hst as [-> | ->]). rewrite Hp in H. by destruct H as (_ & ?).
  - apply IH; [by eapply safe_step|by eapply closed_step].
Qed.
(** What is carried out is what was reviewed: the plan made anew has the material of the stored
    one, and the requester still holds the role and the tenant it had. *)
Theorem performed_as_reviewed ans now c c' : execute json_text mode ans now c = (true, c') ->
  requester_still_authorized mode c = Ok tt
  /\ exists fresh, an_plan ans = Ok fresh /\ forall before, cr_plan c = Some before -> pn_material before = pn_material fresh.
Proof.
  unfold execute. destruct (requester_still_authorized mode c) as [[]|]; [|done]. destruct (_ && _); [done|].
  destruct (an_plan ans) as [fresh|]; [|done]. unfold plan_moved. destruct (cr_plan c) as [b|]; cbn [opt_test].
  - unfold string_eqb. case_bool_decide as Hm; [|done]. intros _. split; [done|]. exists fresh. split; [done|]. by intros b' [= <-].
  - intros _. split; [done|]. by exists fresh.
Qed.
End Safety.

(** *** A request by ann that bob approves *)
Definition example_plan : ChangePlan := MkChangePlan "m" [] Null.
Definition example_change (kind : ChangeKind) : ChangeRequest :=
  create (MkApprovalPolicy None []) (MkAuthContext "ann" Operator None None) "c1" kind (VObject []) example_plan 1000 0.
Definition bob : AuthContext := MkAuthContext "bob" Admin None None.
Definition approved_by_bob (kind : ChangeKind) : ChangeRequest :=
  let c := example_change kind in change_with c Approved (cr_plan c) [MkApproval "bob" Admin 5] None None None 5.
Definition all_well : Answers := MkAnswers None (Ok example_plan) (Ok (Some "run-1")).
Definition plain_text (v : Value) : string := EmptyString.
Notation example_step := (step plain_text (MkApprovalPolicy None []) NoAuth).
(** The steps that take an approval and start to carry the request out. *)
Lemma approved_reachable kind : kind = Run \/ kind = TemplateDelete ->
  reachable plain_text (MkApprovalPolicy None []) NoAuth
    (MkWorld (Some (approved_by_bob kind)) [TExecute (Some "bob") (approved_by_bob kind)] ["bob"] [] []).
Proof.
  intros Hk. exists (MkAuthContext "ann" Operator None None), "c1", kind, (VObject []), example_plan, 1000, 0.
  assert (approve (MkApprovalPolicy None []) bob 5 (example_change kind) = Ok (approved_by_bob kind)) as Ha by (by destruct Hk as [-> | ->]; vm_compute).
  eapply rtc_l; [apply (step_approve _ _ _ _ bob 5 5 (example_change kind) (approved_by_bob kind)); [done|done|exact Ha]|].
  eapply rtc_l; [exact (step_task plain_text _ NoAuth (wd_add (created (example_change kind)) (TApprove bob (example_change kind) (approved_by_bob kind))) all_well 5 [] _ [] eq_refl)|].
  eapply rtc_l; [exact (step_task plain_text _ NoAuth (MkWorld (Some (approved_by_bob kind)) [TApproved bob (approved_by_bob kind)] ["bob"] [] []) all_well 5 [] _ [] eq_refl)|].
  apply rtc_refl.
Qed.
Definition performed_world : World :=
  MkWorld (Some (approved_by_bob Run)) [TSave (Some "bob") (execute plain_text NoAuth all_well 6 (approved_by_bob Run)).2] ["bob"] [] [approved_by_bob Run].
Lemma only_approved_changes_run_witness :
  voters (approved_by_bob Run) ⊆ wd_taken performed_world /\ 1 <= Z.of_nat (length (cr_approvals (approved_by_bob Run))).
Proof.
  destruct (only_approved_changes_run plain_text (MkApprovalPolicy None []) NoAuth performed_world (approved_by_bob Run)) as (_ & Hv & _ & Hm & _).
  - destruct (approved_reachable Run (or_introl eq_refl)) as (actor & id & kind & payload & plan & expiry & now & Hr).
    exists actor, id, kind, payload, plan, expiry, now. eapply rtc_r; [exact Hr|].
    exact (step_task plain_text _ NoAuth (MkWorld (Some (approved_by_bob Run)) [TExecute (Some "bob") (approved_by_bob Run)] ["bob"] [] []) all_well 6 [] _ [] eq_refl).
  - by apply list_elem_of_singleton.
  - split; [exact Hv|]. apply (Hm Run). by apply list_elem_of_singleton.
Defined.
(** *** Two servers with one clock reading

    Two approvers read the same version and both servers' clocks read the time it was written:
    the second approval replaces the first, whose approver was told it was taken. *)
Definition two_of_admins : ApprovalPolicy := MkApprovalPolicy None [MkApprovalRule [] [Admin] [] 2 false].
Definition unvoted : ChangeRequest :=
  create two_of_admins (MkAuthContext "ann" Operator None None) "c1" Run (VObject []) example_plan 1000 0.
Definition voted_by (who : string) : ChangeRequest := change_with unvoted Pending (cr_plan unvoted) [MkApproval who Admin 0] None None None 0.
Definition carol : AuthContext := MkAuthContext "carol" Admin None None.
Example equal_clocks_lose_an_approval :
  exists w, reachable plain_text two_of_admins NoAuth w /\ "bob" ∈ wd_acknowledged w /\ (voters <$> wd_stored w) = Some ["carol"].
Proof.
  set (call who actor := TApprove actor unvoted (voted_by who)).
  exists (MkWorld (Some (voted_by "carol")) [TApproved carol (voted_by "carol")] ["bob"; "carol"] ["bob"] []).
  split_and!; [|by apply list_elem_of_singleton|reflexivity].
  exists (MkAuthContext "ann" Operator None None), "c1", Run, (VObject []), example_plan, 1000, 0. fold unvoted.
  eapply rtc_l; [by apply (step_approve _ _ _ _ carol 0 0 unvoted (voted_by "carol")); [..|vm_compute]|].
  eapply rtc_l; [by apply (step_approve _ _ _ _ bob 0 0 unvoted (voted_by "bob")); [..|vm_compute]|].
  eapply rtc_l; [exact (step_task plain_text _ NoAuth (MkWorld (Some unvoted) [call "bob" bob; call "carol" carol] [] [] []) all_well 0 [] _ [call "carol" carol] eq_refl)|].
  eapply rtc_l; [exact (step_task plain_text _ NoAuth (MkWorld (Some (voted_by "bob")) [TApproved bob (voted_by "bob"); call "carol" carol] ["bob"] [] []) all_well 0 [] _ [call "carol" carol] eq_refl)|].
  eapply rtc_l; [exact (step_task plain_text _ NoAuth (MkWorld (Some (voted_by "bob")) [TReply "bob"; call "carol" carol] ["bob"] [] []) all_well 0 [] _ [call "carol" carol] eq_refl)|].
  eapply rtc_l; [exact (step_task plain_text _ NoAuth (MkWorld (Some (voted_by "bob")) [call "carol" carol] ["bob"] ["bob"] []) all_well 0 [] _ [] eq_refl)|].
  apply rtc_refl.
Qed.
(** The template a delete names is gone, so planning the delete again fails. *)
Definition gone : Answers := MkAnswers None (Err "no such template") (Ok None).
(** The sweep of another server takes a slow execution for an interrupted one. The first server
    deletes and stores that it did; the second plans anew, finds nothing to delete and stores a
    failure over it. *)
Example executed_change_ends_as_failed :
  exists w1 w2, reachable plain_text (MkApprovalPolicy None []) NoAuth w1 /\ (cr_status <$> wd_stored w1) = Some Executed
    /\ rtc example_step w1 w2 /\ (cr_status <$> wd_stored w2) = Some Failed /\ length (wd_performed w2) = 1%nat.
Proof.
  set (c := approved_by_bob TemplateDelete). set (late := 6 + STALE_APPROVED).
  set (first := TExecute (Some "bob") c). set (sweep := TExecute None c).
  set (done_ := (execute plain_text NoAuth all_well late c).2). set (failed_ := (execute plain_text NoAuth gone late c).2).
  exists (MkWorld (Some done_) [TReply "bob"; sweep] ["bob"] [] [c]), (MkWorld (Some failed_) [TReply "bob"] ["bob"] [] [c]). split_and!; [|reflexivity| |reflexivity|reflexivity].
  - destruct (approved_reachable TemplateDelete (or_intror eq_refl)) as (actor & id & kind & payload & plan & expiry & now & Hr).
    exists actor, id, kind, payload, plan, expiry, now. etransitivity; [exact Hr|].
    eapply rtc_l; [by apply (step_reconcile _ _ _ _ late c)|].
    eapply rtc_l; [exact (step_task plain_text _ NoAuth (MkWorld (Some c) [sweep; first] ["bob"] [] []) all_well late [sweep] _ [] eq_refl)|].
    eapply rtc_l; [exact (step_task plain_text _ NoAuth (MkWorld (Some c) [TSave (Some "bob") done_; sweep] ["bob"] [] [c]) all_well late [] _ [sweep] eq_refl)|]. apply rtc_refl.
  - eapply rtc_l; [exact (step_task plain_text _ NoAuth (MkWorld (Some done_) [TReply "bob"; sweep] ["bob"] [] [c]) gone late [TReply "bob"] _ [] eq_refl)|].
    eapply rtc_l; [exact (step_task plain_text _ NoAuth (MkWorld (Some done_) [TSave None failed_; TReply "bob"] ["bob"] [] [c]) gone late [] _ [TReply "bob"] eq_refl)|]. apply rtc_refl.
Qed.
