(* ===== verification/Select.v ===== *)
(** Which rows of a matrix run: cli/src/select.rs, with the statuses and policies of
    cli/src/config.rs.

    A [HashSet] is a [gset], a [HashMap] a [gmap]; where the code starts a queue from a set, the
    order is that of [elements], and it decides only which dependent a row pulled in is noted
    for. A node carries what selection reads. Log lines, the check for overwriting sinks and
    the refusal of topologies are left out. *)
From S2P Require Import Prelude Errors Float64 Json Text StateKey Contract Transform Resolve.
From Stdlib Require Import Ascii Sorted.

Local Open Scope result_scope.

Inductive SourceStatus := Mandatory | Active | Available | Draft | Archived.
#[export] Instance SourceStatus_eq_dec : EqDecision SourceStatus.
Proof. solve_decision. Defined.
Definition ALL_STATUSES : list SourceStatus := [Mandatory; Active; Available; Draft; Archived].
Definition source_status_str (s : SourceStatus) : string :=
  match s with Mandatory => "mandatory" | Active => "active" | Available => "available" | Draft => "draft" | Archived => "archived" end.
Definition source_status_parse (s : string) : option SourceStatus := List.find (fun v => string_eqb (source_status_str v) s) ALL_STATUSES.
Inductive IncludeParents := Off | Eligible | AllParents.
#[export] Instance IncludeParents_eq_dec : EqDecision IncludeParents.
Proof. solve_decision. Defined.
Definition include_parents_str (p : IncludeParents) : string := match p with Off => "off" | Eligible => "eligible" | AllParents => "all" end.
Definition include_parents_parse (s : string) : option IncludeParents :=
  if string_eqb s "off" then Some Off else if string_eqb s "eligible" then Some Eligible else if string_eqb s "all" then Some AllParents else None.

Record ExpandedNode := MkExpandedNode {
  nd_id : string; nd_status : SourceStatus; nd_tags : list string; nd_parent : option string; nd_depends_on : list string }.
Record RunSelection := MkRunSelection {
  rs_select : list string; rs_only : list string; rs_skip : list string; rs_status : list SourceStatus; rs_tags : list string;
  rs_include_parents : IncludeParents }.
Inductive SelectError :=
| NoMatchForSelector (flag token : string) (available : list string)
| UnknownTag (tag : string) (available : list string)
| EmptyRunSet (rows : list string)
| RunSetMissingAncestors (pairs : list string) (policy : string)
| SelectorsWithoutMatrix (flags : string)
| UnknownStatus (value : string) (available : list string)
| UnknownIncludeParents (value : string).

(** ** Requests *)

Fixpoint parse_statuses (l : list string) : result (list SourceStatus) SelectError :=
  match l with
  | [] => Ok []
  | s :: l => match source_status_parse s with
              | Some v => let? vs := parse_statuses l in Ok (v :: vs)
              | None => Err (UnknownStatus s (source_status_str <$> ALL_STATUSES))
              end
  end.
Definition resolve_flags (select only skip status tags : list string) (flag : option string) (cfg : option IncludeParents) : result RunSelection SelectError :=
  let? status := parse_statuses status in
  let? policy := (match flag with
                  | Some s => match include_parents_parse s with Some p => Ok p | None => Err (UnknownIncludeParents s) end
                  | None => Ok (default Off cfg)
                  end) in
  Ok (MkRunSelection (retain_new [] select) (retain_new [] only) (retain_new [] skip) status (retain_new [] tags) policy).
Definition has_matrix_only_selector (s : RunSelection) : bool :=
  negb (is_nil (rs_select s)) || negb (is_nil (rs_only s)) || negb (is_nil (rs_skip s)) || negb (is_nil (rs_tags s)).
Definition narrows (s : RunSelection) : bool := has_matrix_only_selector s || negb (is_nil (rs_status s)).
(** The wire form, and its canonical line. *)
Record SelectionRequest := MkSelectionRequest {
  sr_select : list string; sr_only : list string; sr_skip : list string; sr_tags : list string; sr_status : list SourceStatus;
  sr_include_parents : option IncludeParents }.
Definition from_run_selection (s : RunSelection) : SelectionRequest :=
  MkSelectionRequest (rs_select s) (rs_only s) (rs_skip s) (rs_tags s) (rs_status s) (Some (rs_include_parents s)).
Definition to_run_selection (r : SelectionRequest) (cfg : option IncludeParents) : RunSelection :=
  MkRunSelection (retain_new [] (sr_select r)) (retain_new [] (sr_only r)) (retain_new [] (sr_skip r)) (retain_new [] (sr_status r))
    (retain_new [] (sr_tags r)) (default Off (option_or (sr_include_parents r) cfg)).
Definition canonical_list (name : string) (items : list string) : list string :=
  if is_nil items then [] else [name +:+ "=" +:+ join "," (ordered_set String.compare items)].
Definition canonical (r : SelectionRequest) : string :=
  let parts := canonical_list "select" (sr_select r) ++ canonical_list "only" (sr_only r) ++ canonical_list "skip" (sr_skip r)
    ++ canonical_list "tags" (sr_tags r) ++ canonical_list "status" (source_status_str <$> sr_status r)
    ++ match sr_include_parents r with Some p => ["include_parents=" +:+ include_parents_str p] | None => [] end in
  if is_nil parts then "default" else join ";" parts.

(** ** Patterns *)

(** The loop of [glob_match]: what is left of the pattern and of the text, and the last star with
    the text from its mark. Every turn but a return to the star uses up a piece of the
    pattern, and a return uses up a piece of the text, so [(text + 1) * (pattern + 1)] turns
    are enough. *)
Definition piece_matches (p c : string) : bool := string_eqb p "?" || string_eqb p c.
Fixpoint glob_loop (fuel : nat) (p t : list string) (star : option (list string * list string)) : bool :=
  match fuel with
  | O => false
  | S fuel =>
      match t with
      | [] => forallb (fun x => string_eqb x "*") p
      | c :: t' =>
          let back := match star with Some (ps, m) => glob_loop fuel ps (tail m) (Some (ps, tail m)) | None => false end in
          match p with
          | x :: p' => if piece_matches x c then glob_loop fuel p' t' star
                       else if string_eqb x "*" then glob_loop fuel p' t (Some (p', t)) else back
          | [] => back
          end
      end
  end.
Definition glob_match (pattern text : string) : bool :=
  let p := chars pattern in let t := chars text in glob_loop (S (length t) * S (length p)) p t None.
Definition has_glob (s : string) : bool := contains_str "*" s || contains_str "?" s.
Definition skip_matches (token id : string) (mandatory : bool) : bool :=
  if has_glob token then negb mandatory && glob_match token id else string_eqb token id.
Definition token_matches (token id : string) : bool := if has_glob token then glob_match token id else string_eqb token id.

(** What a pattern means: a star stands for any run of characters, a question mark for one. *)
Fixpoint glob_spec (p t : list string) : bool :=
  match p with
  | [] => is_nil t
  | x :: p =>
      if string_eqb x "*" then (fix any (t : list string) : bool := glob_spec p t || match t with [] => false | _ :: t => any t end) t
      else match t with [] => false | c :: t => piece_matches x c && glob_spec p t end
  end.
Lemma glob_spec_star_eq p t : glob_spec ("*" :: p) t = glob_spec p t || match t with [] => false | _ :: t => glob_spec ("*" :: p) t end.
Proof. by destruct t. Qed.
Lemma glob_spec_star p t : glob_spec ("*" :: p) t = true <-> exists k, (k <= length t)%nat /\ glob_spec p (drop k t) = true.
Proof.
  induction t as [|c t IH]; rewrite glob_spec_star_eq, orb_true_iff.
  - split; [intros [H|H]; [by exists 0%nat|done]|intros (k & Hk & H); left; by rewrite drop_nil in H].
  - rewrite IH. split.
    + intros [H|(k & Hk & H)]; [by exists 0%nat; split; [lia|]|exists (S k); split; [cbn; lia|done]].
    + intros ([|k] & Hk & H); [by left|right; exists k; split; [cbn in Hk; lia|done]].
Qed.
Lemma glob_spec_stars p : glob_spec p [] = forallb (fun x => string_eqb x "*") p.
Proof. induction p as [|x p IH]; [done|]. cbn [glob_spec forallb]. destruct (string_eqb x "*"); [|done]. by rewrite IH, orb_false_r. Qed.
Definition no_star (l : list string) : Prop := Forall (fun x => x <> "*") l.
Lemma glob_spec_prefix q p t : no_star q -> glob_spec (q ++ p) t = true -> (length q <= length t)%nat /\ glob_spec p (drop (length q) t) = true.
Proof.
  revert t. induction q as [|x q IH]; intros t Hq; [cbn; split; [lia|done]|]. apply Forall_cons in Hq as [Hx Hq]. cbn [app glob_spec].
  unfold string_eqb at 1. rewrite bool_decide_eq_false_2 by done. destruct t as [|c t]; [done|]. intros [_ H]%andb_true_iff.
  destruct (IH t Hq H). cbn. split; [lia|done].
Qed.
(** The last star: what followed it is a star-free part that matched from the mark, then what is
    left. *)
Definition star_ok (p t : list string) (star : option (list string * list string)) : Prop :=
  match star with
  | None => True
  | Some (ps, m) => exists q u, ps = q ++ p /\ m = u ++ t /\ length q = length u /\ no_star q /\ no_star m
  end.
Definition later_match (star : option (list string * list string)) : Prop :=
  match star with
  | None => False
  | Some (ps, m) => exists k, (1 <= k <= length m)%nat /\ glob_spec ps (drop k m) = true
  end.
Definition glob_work (n : nat) (p t : list string) (star : option (list string * list string)) : nat :=
  (match star with Some (_, m) => length m | None => length t end * S n + length p)%nat.
Definition pattern_bound (n : nat) (p : list string) (star : option (list string * list string)) : Prop :=
  (length p <= n)%nat /\ match star with Some (ps, _) => (length ps <= n)%nat | None => True end.
Lemma later_match_star q x p u t ps m : ps = q ++ "*" :: p -> m = u ++ t -> length q = length u -> no_star q -> x = "*" ->
  later_match (Some (ps, m)) -> glob_spec ("*" :: p) t = true.
Proof.
  intros -> -> Hl Hq _ (k & Hk & H). apply glob_spec_prefix in H as [Hlen H]; [|done]. rewrite length_drop, length_app in Hlen. rewrite length_app in Hk.
  apply glob_spec_star in H as (j & Hj & H). apply glob_spec_star. rewrite !length_drop, length_app in Hj.
  exists (k + j)%nat. split; [lia|]. rewrite <- H, !drop_drop, drop_app_ge by lia. do 2 f_equal. lia.
Qed.
Lemma later_match_tail ps d m : later_match (Some (ps, d :: m)) <-> glob_spec ps m = true \/ later_match (Some (ps, m)).
Proof.
  cbn [later_match]. split.
  - intros ([|[|k]] & Hk & H); [lia|by left|right]. exists (S k). cbn in Hk. split; [lia|done].
  - intros [H|(k & Hk & H)]; [exists 1%nat; cbn; split; [lia|done]|exists (S k); cbn; split; [lia|done]].
Qed.
Lemma glob_loop_exact n fuel p t star :
  no_star t -> star_ok p t star -> pattern_bound n p star -> (glob_work n p t star < fuel)%nat ->
  glob_loop fuel p t star = true <-> glob_spec p t = true \/ later_match star.
Proof.
  revert p t star. induction fuel as [|fuel IH]; intros p t star Ht Hs Hb Hf; [lia|]. cbn [glob_loop]. destruct t as [|c t].
  - rewrite <- glob_spec_stars. split; [by left|]. intros [H|H]; [done|]. destruct star as [[ps m]|]; [|done].
    destruct Hs as (q & u & -> & -> & Hl & Hq & _), H as (k & Hk & H). apply glob_spec_prefix in H as [Hlen _]; [|done].
    rewrite length_drop, length_app in Hlen. rewrite length_app in Hk. cbn [length] in Hk, Hlen. lia.
  - set (back := match star with Some _ => _ | None => _ end). destruct Hb as [Hp Hps].
    assert (back = true <-> later_match star) as Hback.
    { unfold back. destruct star as [[ps m]|]; [|done]. destruct Hs as (q & u & _ & Hmu & _ & _ & Hm).
      destruct m as [|d m]; [by destruct u|]. cbn [tail]. apply Forall_cons in Hm as [_ Hm]. rewrite later_match_tail. apply IH; [done| |done|].
      - exists [], []. repeat split; [constructor|done].
      - unfold glob_work in *. cbn [length] in *. nia. }
    destruct p as [|x p]; [cbn [glob_spec is_nil]; rewrite Hback; naive_solver|]. apply Forall_cons in Ht as [Hc Ht].
    destruct (piece_matches x c) eqn:Hx; [|unfold string_eqb; case_bool_decide as Hst].
    + assert (x <> "*") as Hne.
      { intros ->. unfold piece_matches in Hx. apply orb_true_iff in Hx as [Hx|Hx]; apply bool_decide_eq_true in Hx; [done|by subst]. }
      cbn [glob_spec]. unfold string_eqb. rewrite bool_decide_eq_false_2 by done. rewrite Hx. cbn [andb]. apply IH; [done| | |].
      * destruct star as [[ps m]|]; [|done]. destruct Hs as (q & u & -> & -> & Hl & Hq & Hm). exists (q ++ [x]), (u ++ [c]).
        rewrite <- !app_assoc, !length_app. repeat split; [cbn; lia| |done]. apply Forall_app. split; [done|]. by apply Forall_singleton.
      * split; [cbn in Hp; lia|done].
      * unfold glob_work in *. cbn [length] in Hf. destruct star as [[ps m]|]; [lia|]. nia.
    + subst x. rewrite IH; [|by apply Forall_cons|by exists [], []; repeat split; [constructor|apply Forall_cons]|split; cbn in Hp |- *; lia|].
      * change (later_match (Some (p, c :: t))) with (exists k, (1 <= k <= length (c :: t))%nat /\ glob_spec p (drop k (c :: t)) = true).
        rewrite glob_spec_star. split.
        -- intros [H|(k & Hk & H)]; left; [exists 0%nat; split; [lia|done]|exists k; split; [lia|done]].
        -- intros [(k & Hk & H)|H].
           ++ destruct k as [|k]; [by left|right]. exists (S k). split; [lia|done].
           ++ destruct star as [[ps m]|]; [|done]. destruct Hs as (q & u & Hpq & Hmu & Hl & Hq & _).
              pose proof (later_match_star q "*" p u (c :: t) ps m Hpq Hmu Hl Hq eq_refl H) as (k & Hk & H')%glob_spec_star.
              destruct k as [|k]; [by left|right]. exists (S k). split; [lia|done].
      * unfold glob_work in *. cbn [length] in Hf |- *. destruct star as [[ps m]|]; [|lia].
        destruct Hs as (q & u & _ & -> & _). rewrite length_app in Hf. cbn [length] in Hf. nia.
    + cbn [glob_spec]. unfold string_eqb. rewrite bool_decide_eq_false_2 by done. rewrite Hx. cbn [andb]. rewrite Hback. naive_solver.
Qed.
(** The matcher is the pattern's meaning for every text without a star of its own. *)
Theorem glob_match_exact pattern text : no_star (chars text) -> glob_match pattern text = glob_spec (chars pattern) (chars text).
Proof.
  intros Ht. apply eq_true_iff_eq. unfold glob_match. rewrite (glob_loop_exact (length (chars pattern))); [|done|done|done|].
  - cbn [later_match]. naive_solver.
  - unfold glob_work. nia.
Qed.
(** [is_row_id] of expand.rs: a row's id has no star, so patterns on ids mean what they say. *)
Definition row_id_char (c : string) : bool :=
  match c with String a EmptyString => is_alnum a || Ascii.eqb a "_" || Ascii.eqb a "-" | _ => false end.
Definition is_row_id (id : string) : bool := negb (is_empty_str id) && forallb row_id_char (chars id).
Theorem row_id_patterns_exact pattern id : is_row_id id = true -> glob_match pattern id = glob_spec (chars pattern) (chars id).
Proof.
  intros [_ H]%andb_true_iff. apply glob_match_exact, Forall_forall. intros c Hc ->. rewrite forallb_forall in H.
  by specialize (H "*" (proj1 (list_elem_of_In _ _) Hc)).
Qed.
(** A star of the text is taken as a plain character the pattern's star stands for, and the
    pattern's star is then used up. *)
Example star_in_the_text : glob_match "*" "*a" = false /\ glob_spec (chars "*") (chars "*a") = true.
Proof. by vm_compute. Qed.

(** ** Resolving a selection *)

Inductive RowDecision := SelectedRow (by_ : string) | PulledIn (because : string) | Excluded (reason : string) | BlockedRow (reason : string).
Definition decision_runs (d : RowDecision) : bool := match d with SelectedRow _ | PulledIn _ => true | _ => false end.
Record Resolution := MkResolution { rz_run_set : list string; rz_decisions : gmap string RowDecision; rz_error : option SelectError }.
Definition all_ids (nodes : list ExpandedNode) : list string := nd_id <$> nodes.
Definition required_ancestors (n : ExpandedNode) : list (string * string) :=
  match nd_parent n with Some p => [(p, "parent")] | None => [] end ++ ((fun d => (d, "depends_on")) <$> nd_depends_on n).
(** The first unknown row or tag. *)
Definition unknown_selector (nodes : list ExpandedNode) (sel : RunSelection) : option SelectError :=
  match List.find (fun token => negb (existsb (fun n => string_eqb (nd_id n) token) nodes)) (rs_select sel) with
  | Some token => Some (NoMatchForSelector "--select" token (all_ids nodes))
  | None =>
      match List.find (fun token => negb (existsb (fun n => token_matches token (nd_id n)) nodes)) (rs_only sel ++ rs_skip sel) with
      | Some token => Some (NoMatchForSelector (if mem token (rs_only sel) then "--only" else "--skip") token (all_ids nodes))
      | None =>
          let present := ordered_set String.compare (flat_map nd_tags nodes) in
          match List.find (fun tag => negb (mem tag present)) (rs_tags sel) with
          | Some tag => Some (UnknownTag tag present)
          | None => None
          end
      end
  end.
Definition without_matrix (sel : RunSelection) : SelectError :=
  SelectorsWithoutMatrix (join ", " (
    (if is_nil (rs_select sel) then [] else ["--select"]) ++ (if is_nil (rs_only sel) then [] else ["--only"])
    ++ (if is_nil (rs_skip sel) then [] else ["--skip"]) ++ (if is_nil (rs_tags sel) then [] else ["--tag"]))).
Definition eligible (sel : RunSelection) (s : SourceStatus) : bool := bool_decide (s ∈ [Mandatory; Active] ++ rs_status sel).
Definition parked_reason (s : SourceStatus) : string :=
  "status `" +:+ source_status_str s +:+ "` is not in the default eligible set (mandatory, active)".
Definition decide_row (sel : RunSelection) (n : ExpandedNode) : RowDecision :=
  let has_identity := negb (is_nil (rs_select sel)) || negb (is_nil (rs_only sel)) in
  let has_tag := negb (is_nil (rs_tags sel)) in
  let ok := eligible sel (nd_status n) in
  let tagged := existsb (fun t => mem t (nd_tags n)) (rs_tags sel) in
  if negb has_identity && negb has_tag then if ok then SelectedRow "default" else Excluded (parked_reason (nd_status n))
  else if has_identity && mem (nd_id n) (rs_select sel) then SelectedRow "select"
  else if has_identity && existsb (fun g => token_matches g (nd_id n)) (rs_only sel) then SelectedRow "only"
  else if has_tag && tagged && ok then SelectedRow "tag"
  else if has_tag && tagged then Excluded ("tagged, but " +:+ parked_reason (nd_status n) +:+ " — a tag never resurrects a parked row")
  else Excluded "not selected".
(** [collect] of the nodes by id: the last of equal ids stays. *)
Definition node_by_id (nodes : list ExpandedNode) (id : string) : option ExpandedNode :=
  List.find (fun n => string_eqb (nd_id n) id) (rev nodes).

(** The closure over ancestors: what runs, the decisions, the violations, and the queue. *)
Record Closure := MkClosure { cl_run : gset string; cl_decisions : gmap string RowDecision; cl_violations : list string; cl_queue : list string }.
Definition status_text (s : option SourceStatus) : string := match s with Some s => source_status_str s | None => "unknown" end.
Definition close_edge (nodes : list ExpandedNode) (sel : RunSelection) (id : string) (c : Closure) (edge : string * string) : Closure :=
  let '(anc, kind) := edge in
  if bool_decide (anc ∈ cl_run c) then c
  else
    let anc_status := nd_status <$> node_by_id nodes anc in
    let ok := opt_test (eligible sel) anc_status in
    let pull := MkClosure ({[anc]} ∪ cl_run c) (<[anc := PulledIn id]> (cl_decisions c)) (cl_violations c) (cl_queue c ++ [anc]) in
    let block v reason := MkClosure (cl_run c) (<[anc := BlockedRow reason]> (cl_decisions c)) (cl_violations c ++ [v]) (cl_queue c) in
    match rs_include_parents sel with
    | Off => block (id +:+ " → " +:+ anc +:+ " (" +:+ kind +:+ ")")
               ("required by `" +:+ id +:+ "` (" +:+ kind +:+ ") but not selected — include_parents is off; select it, or use include_parents: eligible / all")
    | Eligible =>
        if ok then pull
        else block (id +:+ " → " +:+ anc +:+ " (" +:+ kind +:+ ", parked)")
               ("required by `" +:+ id +:+ "` (" +:+ kind +:+ ") but parked (status `" +:+ status_text anc_status
                +:+ "`) — include_parents: eligible never pulls in a parked row; use all, or select it by id")
    | AllParents => pull
    end.
Definition close_node (nodes : list ExpandedNode) (sel : RunSelection) (id : string) (c : Closure) : Closure :=
  match node_by_id nodes id with Some n => foldl (close_edge nodes sel id) c (required_ancestors n) | None => c end.
Fixpoint close_loop (fuel : nat) (nodes : list ExpandedNode) (sel : RunSelection) (c : Closure) : Closure :=
  match fuel with
  | O => c
  | S fuel =>
      match cl_queue c with
      | [] => c
      | id :: queue => close_loop fuel nodes sel (close_node nodes sel id (MkClosure (cl_run c) (cl_decisions c) (cl_violations c) queue))
      end
  end.
(** Every edge puts its ancestor into the queue at most once. *)
Definition edges (nodes : list ExpandedNode) : list (string * string) := flat_map required_ancestors nodes.
Definition apply_parent_policy (nodes : list ExpandedNode) (sel : RunSelection) (run : gset string) (decisions : gmap string RowDecision) : Closure :=
  close_loop (size run + length (edges nodes)) nodes sel (MkClosure run decisions [] (elements run)).
Definition missing_ancestors (pairs : list string) (sel : RunSelection) : SelectError :=
  RunSetMissingAncestors (ordered_set String.compare pairs) (include_parents_str (rs_include_parents sel)).
Definition skip_row (sel : RunSelection) (rd : gset string * gmap string RowDecision) (n : ExpandedNode) : gset string * gmap string RowDecision :=
  let '(run, decisions) := rd in
  if bool_decide (nd_id n ∈ run) then
    match List.find (fun tok => skip_matches tok (nd_id n) (bool_decide (nd_status n = Mandatory))) (rs_skip sel) with
    | Some tok => (run ∖ {[nd_id n]}, <[nd_id n := Excluded ("removed by skip `" +:+ tok +:+ "`")]> decisions)
    | None => rd
    end
  else rd.
Definition orphan_edges (run : gset string) (n : ExpandedNode) : list (string * string * string) :=
  if bool_decide (nd_id n ∈ run) then
    omap (fun ak => if bool_decide (ak.1 ∈ run) then None else Some (nd_id n, ak.1, ak.2)) (required_ancestors n)
  else [].
Definition orphan_decision (d : gmap string RowDecision) (o : string * string * string) : gmap string RowDecision :=
  let '(id, anc, kind) := o in <[id := BlockedRow ("its " +:+ kind +:+ " `" +:+ anc +:+ "` was removed from the run set")]> d.

(** *** Execution order *)

(** [depth] with its memo; the guard counts down. *)
Fixpoint depth (fuel : nat) (nodes : list ExpandedNode) (id : string) (memo : gmap string nat) : nat * gmap string nat :=
  match memo !! id with
  | Some d => (d, memo)
  | None =>
      let '(d, memo) :=
        match node_by_id nodes id, fuel with
        | Some n, S fuel =>
            foldl (fun dm ak => if is_some (node_by_id nodes ak.1)
                                then let '(d, memo) := depth fuel nodes ak.1 dm.2 in (Nat.max dm.1 (S d), memo) else dm)
              (0, memo) (required_ancestors n)
        | _, _ => (0, memo)
        end in
      (d, <[id := d]> memo)
  end.
Definition execution_depths (nodes : list ExpandedNode) : gmap string nat :=
  foldl (fun memo n => (depth (length (retain_new [] (all_ids nodes))) nodes (nd_id n) memo).2) ∅ nodes.
(** A stable sort by key. *)
Fixpoint insert_by {A} (key : A -> nat) (a : A) (l : list A) : list A :=
  match l with [] => [a] | b :: l' => if Nat.ltb (key a) (key b) then a :: l else b :: insert_by key a l' end.
Definition sort_by {A} (key : A -> nat) (l : list A) : list A := foldl (fun s a => insert_by key a s) [] l.

Definition resolve_rows (nodes : list ExpandedNode) (sel : RunSelection) (has_matrix : bool) : Resolution :=
  let fail e d := MkResolution [] d (Some e) in
  if negb has_matrix && has_matrix_only_selector sel then fail (without_matrix sel) ∅
  else match unknown_selector nodes sel with
  | Some e => fail e ∅
  | None =>
      let decisions := foldl (fun d n => <[nd_id n := decide_row sel n]> d) ∅ nodes in
      let run := list_to_set (nd_id <$> List.filter (fun n => decision_runs (decide_row sel n)) nodes) : gset string in
      let c := apply_parent_policy nodes sel run decisions in
      if negb (is_nil (cl_violations c)) then fail (missing_ancestors (cl_violations c) sel) (cl_decisions c)
      else
        let '(run, decisions) := foldl (skip_row sel) (cl_run c, cl_decisions c) nodes in
        let orphans := flat_map (orphan_edges run) nodes in
        if negb (is_nil orphans) then
          fail (missing_ancestors ((fun o => o.1.1 +:+ " → " +:+ o.1.2 +:+ " (" +:+ o.2 +:+ ")") <$> orphans) sel) (foldl orphan_decision decisions orphans)
        else if bool_decide (run = ∅) then
          fail (EmptyRunSet ((fun n => nd_id n +:+ " [" +:+ source_status_str (nd_status n) +:+ "]") <$> nodes)) decisions
        else
          let depths := execution_depths nodes in
          MkResolution (nd_id <$> sort_by (fun n => default 0 (depths !! nd_id n)) (List.filter (fun n => bool_decide (nd_id n ∈ run)) nodes)) decisions None
  end.
Definition select_nodes (nodes : list ExpandedNode) (sel : RunSelection) (has_matrix : bool) : result (list ExpandedNode) SelectError :=
  let r := resolve_rows nodes sel has_matrix in
  match rz_error r with Some e => Err e | None => Ok (List.filter (fun n => mem (nd_id n) (rz_run_set r)) nodes) end.

(** ** What a selection runs *)

Lemma list_to_set_size_le (l : list string) : (size (list_to_set l : gset string) <= length l)%nat.
Proof.
  induction l as [|x l IH]; [done|]. cbn [list_to_set length foldr fmap]. rewrite size_union_alt, size_singleton.
  etrans; [apply le_n_S, subseteq_size, subseteq_difference_l; reflexivity|]. cbn in IH |- *. lia.
Qed.

Section Selecting.
Context (nodes : list ExpandedNode) (sel : RunSelection).

(** A row the selection names: with no selector every row of an eligible status, else by id, by
    a pattern, or by a tag within the eligible statuses. *)
Inductive names_row (n : ExpandedNode) : Prop :=
| by_default : rs_select sel = [] -> rs_only sel = [] -> rs_tags sel = [] -> nd_status n ∈ [Mandatory; Active] ++ rs_status sel -> names_row n
| by_id : nd_id n ∈ rs_select sel -> names_row n
| by_pattern g : g ∈ rs_only sel -> token_matches g (nd_id n) = true -> names_row n
| by_tag t : t ∈ rs_tags sel -> t ∈ nd_tags n -> nd_status n ∈ [Mandatory; Active] ++ rs_status sel -> names_row n.
(** A row the selection picks itself; a row it needs, as an ancestor of one it picks; and a row
    its policy lets in as an ancestor. *)
Definition picked (id : string) : Prop := exists n, n ∈ nodes /\ nd_id n = id /\ names_row n.
Inductive needed : string -> Prop :=
| needed_picked id : picked id -> needed id
| needed_ancestor id n ak : needed id -> node_by_id nodes id = Some n -> ak ∈ required_ancestors n -> needed ak.1.
Definition policy_lets_in (id : string) : Prop :=
  match rs_include_parents sel with
  | Off => False
  | Eligible => exists n, node_by_id nodes id = Some n /\ eligible sel (nd_status n) = true
  | AllParents => True
  end.

Lemma node_by_id_in id n : node_by_id nodes id = Some n -> n ∈ nodes /\ nd_id n = id.
Proof.
  intros H. apply List.find_some in H as [Hi He]. split; [apply list_elem_of_In; by apply in_rev|by apply bool_decide_eq_true in He].
Qed.
Lemma edge_of_node id n ak : node_by_id nodes id = Some n -> ak ∈ required_ancestors n -> ak ∈ edges nodes.
Proof.
  intros [Hn _]%node_by_id_in Hak. apply list_elem_of_In, in_flat_map. exists n. by split; apply list_elem_of_In.
Qed.

(** *** The queue empties *)

Definition ancestor_ids : gset string := list_to_set (edges nodes).*1.
Definition closing_work (c : Closure) : nat := (length (cl_queue c) + size (ancestor_ids ∖ cl_run c))%nat.
Lemma close_edge_work id c ak : ak ∈ edges nodes -> (closing_work (close_edge nodes sel id c ak) <= closing_work c)%nat.
Proof.
  intros Hak. destruct ak as [anc kind]. unfold close_edge. case_bool_decide as Hin; [done|].
  assert (closing_work (MkClosure ({[anc]} ∪ cl_run c) (<[anc := PulledIn id]> (cl_decisions c)) (cl_violations c) (cl_queue c ++ [anc]))
          <= closing_work c)%nat as Hpull.
  { unfold closing_work. cbn [cl_queue cl_run]. rewrite length_app. cbn [length].
    assert (anc ∈ ancestor_ids) as Ha by (apply elem_of_list_to_set, list_elem_of_fmap; by exists (anc, kind)).
    assert (size (ancestor_ids ∖ ({[anc]} ∪ cl_run c)) < size (ancestor_ids ∖ cl_run c))%nat; [|lia].
    apply subset_size. split.
    - intros x [Hx Hr]%elem_of_difference. apply elem_of_difference. split; [done|]. intros H. by apply Hr, elem_of_union_r.
    - intros Hs. assert (anc ∈ ancestor_ids ∖ cl_run c) as H by (by apply elem_of_difference). apply Hs, elem_of_difference in H as [_ H].
      by apply H, elem_of_union_l, elem_of_singleton. }
  destruct (rs_include_parents sel); [done| |done]. by destruct (opt_test _ _).
Qed.
Lemma close_edges_work id c l : (forall ak, ak ∈ l -> ak ∈ edges nodes) -> (closing_work (foldl (close_edge nodes sel id) c l) <= closing_work c)%nat.
Proof.
  revert c. induction l as [|ak l IH]; intros c Hl; [done|]. cbn [foldl]. etrans; [apply IH; intros; apply Hl; by right|].
  apply close_edge_work, Hl. by left.
Qed.
Lemma close_loop_settles fuel c : (closing_work c <= fuel)%nat -> cl_queue (close_loop fuel nodes sel c) = [].
Proof.
  revert c. induction fuel as [|fuel IH]; intros c Hw; cbn [close_loop].
  - unfold closing_work in Hw. destruct (cl_queue c); [done|]. cbn in Hw. lia.
  - destruct (cl_queue c) as [|id q] eqn:Hq; [done|]. apply IH. unfold closing_work in Hw. rewrite Hq in Hw. cbn [length] in Hw.
    unfold close_node. destruct (node_by_id nodes id) as [n|] eqn:Hn; [|unfold closing_work; cbn [cl_queue cl_run]; lia].
    etrans; [apply close_edges_work; intros ak; by apply (edge_of_node id)|]. unfold closing_work. cbn [cl_queue cl_run]. lia.
Qed.
(** The fuel is enough: the loop ends with its queue empty. *)
Theorem closure_settled run decisions : cl_queue (apply_parent_policy nodes sel run decisions) = [].
Proof.
  apply close_loop_settles. unfold closing_work. cbn [cl_queue cl_run].
  assert (size (ancestor_ids ∖ run) <= length (edges nodes))%nat as Hs.
  { etrans; [apply subseteq_size, subseteq_difference_l; reflexivity|]. unfold ancestor_ids. rewrite <- (length_fmap fst). apply list_to_set_size_le. }
  change (length (elements run)) with (size run). lia.
Qed.

(** *** The closure is exact *)

(** One closing step: the run set and the violations only grow, and a row it adds is queued. *)
Definition closes_to (c c' : Closure) : Prop :=
  cl_run c ⊆ cl_run c' /\ (cl_violations c' = [] -> cl_violations c = []) /\ (forall x, x ∈ cl_run c' -> x ∈ cl_run c \/ x ∈ cl_queue c')
  /\ cl_queue c ⊆ cl_queue c'.
Lemma closes_to_refl c : closes_to c c.
Proof. repeat split; [done|done|by left|done]. Qed.
Lemma closes_to_trans c1 c2 c3 : closes_to c1 c2 -> closes_to c2 c3 -> closes_to c1 c3.
Proof.
  intros (R1 & V1 & N1 & Q1) (R2 & V2 & N2 & Q2). repeat split; [by etrans|auto| |by etrans].
  intros x [H|H]%N2; [|by right]. apply N1 in H as [H|H]; [by left|right; by apply Q2].
Qed.
Definition lets_in_all (c : Closure) : Prop :=
  (forall x, x ∈ cl_run c -> needed x /\ (picked x \/ policy_lets_in x)) /\ (forall x, x ∈ cl_queue c -> x ∈ cl_run c).

Lemma close_edge_steps id n c ak :
  needed id -> node_by_id nodes id = Some n -> ak ∈ required_ancestors n -> lets_in_all c ->
  let c' := close_edge nodes sel id c ak in
  closes_to c c' /\ lets_in_all c' /\ (cl_violations c' = [] -> ak.1 ∈ cl_run c').
Proof.
  intros Hid Hn Hak [Hr Hq]. pose proof (needed_ancestor id n ak Hid Hn Hak) as Hneed. destruct ak as [anc kind]. cbn [fst] in *.
  unfold close_edge. case_bool_decide as Hin; [by split; [apply closes_to_refl|]|].
  set (pull := MkClosure _ _ _ (cl_queue c ++ [anc])).
  assert (policy_lets_in anc -> closes_to c pull /\ lets_in_all pull /\ (cl_violations pull = [] -> anc ∈ cl_run pull)) as Hpull.
  { intros Hp. split; [|split].
    - repeat split; cbn [pull cl_run cl_violations cl_queue]; [apply union_subseteq_r|done| |intros x Hx; apply elem_of_app; by left].
      intros x [->%elem_of_singleton|H]%elem_of_union; [right; apply elem_of_app; right; by apply list_elem_of_singleton|by left].
    - split; cbn [pull cl_run cl_queue].
      + intros x [->%elem_of_singleton|H]%elem_of_union; [by split; [|right]|by apply Hr].
      + intros x [H| ->%list_elem_of_singleton]%elem_of_app; [by apply elem_of_union_r, Hq|by apply elem_of_union_l, elem_of_singleton].
    - intros _. cbn. by apply elem_of_union_l, elem_of_singleton. }
  assert (forall v d, let b := MkClosure (cl_run c) d (cl_violations c ++ [v]) (cl_queue c) in
    closes_to c b /\ lets_in_all b /\ (cl_violations b = [] -> anc ∈ cl_run b)) as Hblock.
  { intros v d. cbn. repeat split; cbn; [done| |by left|done|by apply Hr|by apply Hr|done|];
      intros Hv; by apply app_eq_nil in Hv as [_ Hv]. }
  unfold policy_lets_in in Hpull. destruct (rs_include_parents sel); [apply Hblock| |by apply Hpull].
  destruct (node_by_id nodes anc) as [a|] eqn:Ha; cbn [fmap option_fmap option_map opt_test]; [|apply Hblock].
  destruct (eligible sel (nd_status a)) eqn:He; [|apply Hblock]. apply Hpull. by exists a.
Qed.
Lemma close_edges_steps id n l c :
  needed id -> node_by_id nodes id = Some n -> (forall ak, ak ∈ l -> ak ∈ required_ancestors n) -> lets_in_all c ->
  let c' := foldl (close_edge nodes sel id) c l in
  closes_to c c' /\ lets_in_all c' /\ (cl_violations c' = [] -> forall ak, ak ∈ l -> ak.1 ∈ cl_run c').
Proof.
  intros Hid Hn. revert c. induction l as [|ak l IH]; intros c Hl Hc; cbn [foldl].
  - split; [apply closes_to_refl|]. split; [done|]. intros _ ak H. by apply not_elem_of_nil in H.
  - destruct (close_edge_steps id n c ak) as (S1 & L1 & V1); [done|done|apply Hl; by left|done|].
    destruct (IH (close_edge nodes sel id c ak)) as (S2 & L2 & V2); [intros; apply Hl; by right|done|].
    split; [by eapply closes_to_trans|]. split; [done|]. intros Hv b [-> | Hb]%elem_of_cons; [|by apply V2].
    destruct S2 as (R2 & W2 & _). by apply R2, V1, W2.
Qed.
Definition closed_but_queue (c : Closure) : Prop := cl_violations c = [] ->
  forall x n ak, x ∈ cl_run c -> x ∉ cl_queue c -> node_by_id nodes x = Some n -> ak ∈ required_ancestors n -> ak.1 ∈ cl_run c.
Lemma close_loop_steps fuel c : lets_in_all c -> closed_but_queue c ->
  let c' := close_loop fuel nodes sel c in cl_run c ⊆ cl_run c' /\ lets_in_all c' /\ closed_but_queue c'.
Proof.
  revert c. induction fuel as [|fuel IH]; intros c Hc Hq; cbn [close_loop]; [done|]. destruct (cl_queue c) as [|id q] eqn:Eq; [done|].
  set (c0 := MkClosure (cl_run c) (cl_decisions c) (cl_violations c) q).
  assert (lets_in_all c0) as H0 by (split; [apply Hc|intros x Hx; apply Hc; rewrite Eq; by right]).
  assert (id ∈ cl_run c) as Hid by (apply Hc; rewrite Eq; by left).
  unfold close_node. destruct (node_by_id nodes id) as [n|] eqn:Hn.
  - destruct (close_edges_steps id n (required_ancestors n) c0) as ((R & V & N & Q) & L & E); [by apply Hc|done|done|done|].
    destruct (IH (foldl (close_edge nodes sel id) c0 (required_ancestors n))) as (R' & L' & C'); [done| |split; [by etrans|done]].
    intros Hv x m ak Hx Hxq Hm Hak. destruct (decide (x = id)) as [->|Hne].
    + rewrite Hn in Hm. injection Hm as <-. by apply E.
    + apply R. eapply Hq; [by apply V| | |done|done].
      * by apply N in Hx as [Hx|Hx].
      * rewrite Eq. intros [->|H]%elem_of_cons; [done|]. by apply Hxq, Q.
  - apply (IH c0); [done|]. intros Hv x m ak Hx Hxq Hm Hak. eapply Hq; [done|done| |done|done]. rewrite Eq.
    intros [->|H]%elem_of_cons; [by rewrite Hn in Hm|done].
Qed.
(** Without a violation the closure adds exactly the needed rows, each picked or let in by the
    policy. *)
Definition initial_run : gset string := list_to_set (nd_id <$> List.filter (fun n => decision_runs (decide_row sel n)) nodes).
Lemma is_nil_elem {A} (x : A) l : x ∈ l -> is_nil l = false.
Proof. destruct l; [intros H; by apply not_elem_of_nil in H|done]. Qed.
Lemma names_row_test n :
  names_row n <-> is_nil (rs_select sel) && is_nil (rs_only sel) && is_nil (rs_tags sel) && eligible sel (nd_status n)
    || mem (nd_id n) (rs_select sel) || existsb (fun g => token_matches g (nd_id n)) (rs_only sel)
    || existsb (fun t => mem t (nd_tags n)) (rs_tags sel) && eligible sel (nd_status n) = true.
Proof.
  rewrite !orb_true_iff, !andb_true_iff, !existsb_exists. unfold mem, eligible. rewrite !bool_decide_eq_true.
  split.
  - intros [-> -> -> H|H|g Hg H|t Ht Hn H]; [tauto|tauto|..]; [left; right; exists g|right; split; [exists t|done]].
    + by rewrite <- list_elem_of_In.
    + by rewrite <- list_elem_of_In, bool_decide_eq_true.
  - intros [[[H|H]|(g & Hg & H)]|[(t & Ht & H) Hs]].
    + destruct H as [[[? ?] ?] ?]. destruct (rs_select sel) eqn:?, (rs_only sel) eqn:?, (rs_tags sel) eqn:?; try done. by apply by_default.
    + by apply by_id.
    + apply (by_pattern _ g); [by apply list_elem_of_In|done].
    + apply bool_decide_eq_true in H. by apply (by_tag _ t); [apply list_elem_of_In|..].
Qed.
Lemma decide_row_names n : decision_runs (decide_row sel n) = true <-> names_row n.
Proof.
  rewrite names_row_test. unfold decide_row.
  assert (mem (nd_id n) (rs_select sel) = true -> is_nil (rs_select sel) = false) as H1 by (intros H%bool_decide_eq_true; by eapply is_nil_elem).
  assert (existsb (fun g => token_matches g (nd_id n)) (rs_only sel) = true -> is_nil (rs_only sel) = false) as H2 by (by destruct (rs_only sel)).
  assert (existsb (fun t => mem t (nd_tags n)) (rs_tags sel) = true -> is_nil (rs_tags sel) = false) as H3 by (by destruct (rs_tags sel)).
  revert H1 H2 H3. generalize (mem (nd_id n) (rs_select sel)), (existsb (fun g => token_matches g (nd_id n)) (rs_only sel)),
    (existsb (fun t => mem t (nd_tags n)) (rs_tags sel)), (eligible sel (nd_status n)).
  intros [] [] [] [] H1 H2 H3; rewrite ?H1, ?H2, ?H3 by done;
    destruct (is_nil (rs_select sel)), (is_nil (rs_only sel)), (is_nil (rs_tags sel)); cbn; naive_solver.
Qed.
Lemma initial_run_picked id : id ∈ initial_run <-> picked id.
Proof.
  unfold initial_run, picked. setoid_rewrite <- decide_row_names. rewrite elem_of_list_to_set, list_elem_of_fmap. setoid_rewrite list_elem_of_In. setoid_rewrite filter_In. naive_solver.
Qed.
Lemma closure_exact decisions c : c = apply_parent_policy nodes sel initial_run decisions -> cl_violations c = [] ->
  (forall id, id ∈ cl_run c <-> needed id) /\ (forall id, id ∈ cl_run c -> picked id \/ policy_lets_in id).
Proof.
  intros Hc Hv. pose proof (closure_settled initial_run decisions) as Hs. rewrite <- Hc in Hs. unfold apply_parent_policy in Hc.
  pose proof (close_loop_steps (size initial_run + length (edges nodes)) (MkClosure initial_run decisions [] (elements initial_run))) as H.
  rewrite <- Hc in H. destruct H as (R & L & C).
  { split; cbn [cl_run cl_queue]; intros x Hx; [|by apply elem_of_elements in Hx]. apply initial_run_picked in Hx. split; [by constructor|by left]. }
  { intros _ x n ak Hx Hxq. by apply elem_of_elements in Hx. }
  split; [|intros id Hid; by apply L]. intros id. split; [intros Hid; by apply L|]. induction 1 as [id H|id n ak _ IH Hn Hak].
  - apply R. by apply initial_run_picked.
  - eapply C; [done|done|rewrite Hs; apply not_elem_of_nil|done|done].
Qed.

(** *** Skipping *)

Definition skipped (n : ExpandedNode) : bool := existsb (fun tok => skip_matches tok (nd_id n) (bool_decide (nd_status n = Mandatory))) (rs_skip sel).
Lemma skip_rows_exact l run decisions id :
  id ∈ (foldl (skip_row sel) (run, decisions) l).1 <-> id ∈ run /\ forall n, n ∈ l -> nd_id n = id -> skipped n = false.
Proof.
  revert run decisions. induction l as [|n l IH]; intros run decisions; cbn [foldl].
  - cbn [fst]. split; [intros H; split; [done|intros n Hn; by apply not_elem_of_nil in Hn]|by intros []].
  - assert (forall d, (skip_row sel (run, d) n).1 = if skipped n then run ∖ {[nd_id n]} else run) as Hrow.
    { intros d. unfold skip_row, skipped. case_bool_decide as Hin.
      - destruct (List.find _ (rs_skip sel)) as [tok|] eqn:Hf; cbn [fst].
        + apply List.find_some in Hf as [Hf1 Hf2]. replace (existsb _ _) with true; [done|]. symmetry. apply existsb_exists. by exists tok.
        + destruct (existsb _ _) eqn:He; [|done]. apply existsb_exists in He as (tok & H1 & H2). by rewrite (List.find_none _ _ Hf tok H1) in H2.
      - cbn [fst]. destruct (existsb _ _); [|done]. apply set_eq. intros x. rewrite elem_of_difference, elem_of_singleton. naive_solver. }
    specialize (Hrow decisions). destruct (skip_row sel (run, decisions) n) as [run' d'] eqn:E. cbn [fst] in Hrow. rewrite IH, Hrow. clear IH E.
    destruct (skipped n) eqn:Hk; [rewrite elem_of_difference, elem_of_singleton|]; split.
    + intros [[Hr Hne] Hall]. split; [done|]. intros m [-> |Hm]%elem_of_cons Hid; [by subst|by apply Hall].
    + intros [Hr Hall]. split; [split; [done|]|intros m Hm; apply Hall; by right]. intros ->. rewrite (Hall n) in Hk; [done|by left|done].
    + intros [Hr Hall]. split; [done|]. intros m [-> |Hm]%elem_of_cons Hid; [done|by apply Hall].
    + intros [Hr Hall]. split; [done|intros m Hm; apply Hall; by right].
Qed.
End Selecting.

Lemma insert_level_elem {A} (key : A -> nat) a l x : x ∈ insert_by key a l <-> x = a \/ x ∈ l.
Proof.
  induction l as [|b l IH]; cbn [insert_by]; [by rewrite elem_of_cons|]. destruct (Nat.ltb _ _); rewrite !elem_of_cons; [done|]. rewrite IH. tauto.
Qed.
Lemma sort_level_elem {A} (key : A -> nat) l x : x ∈ sort_by key l <-> x ∈ l.
Proof.
  unfold sort_by. enough (forall s, x ∈ foldl (fun s a => insert_by key a s) s l <-> x ∈ l \/ x ∈ s) as H.
  { rewrite H. split; [intros [?|Hx]; [done|by apply not_elem_of_nil in Hx]|by left]. }
  induction l as [|a l IH]; intros s; cbn [foldl]; [split; [by right|intros [Hx|]; [by apply not_elem_of_nil in Hx|done]]|].
  rewrite IH, insert_level_elem, elem_of_cons. tauto.
Qed.

(** What a resolution without an error passed. *)
Lemma resolve_rows_ok nodes sel m : rz_error (resolve_rows nodes sel m) = None ->
  exists decisions run,
    let c := apply_parent_policy nodes sel (initial_run nodes sel) decisions in
    cl_violations c = [] /\ run = (foldl (skip_row sel) (cl_run c, cl_decisions c) nodes).1
    /\ (forall n, n ∈ nodes -> orphan_edges run n = []) /\ run <> ∅
    /\ rz_run_set (resolve_rows nodes sel m) = nd_id <$> sort_by (fun n => default 0 (execution_depths nodes !! nd_id n)) (List.filter (fun n => bool_decide (nd_id n ∈ run)) nodes).
Proof.
  unfold resolve_rows. destruct (negb m && has_matrix_only_selector sel); [done|]. destruct (unknown_selector nodes sel); [done|].
  set (decisions := foldl _ ∅ nodes). fold (initial_run nodes sel). set (c := apply_parent_policy _ _ _ _).
  destruct (is_nil (cl_violations c)) eqn:Hv; cbn [negb]; [|done]. destruct (foldl (skip_row sel) _ nodes) as [run d] eqn:Hs.
  destruct (is_nil (flat_map (orphan_edges run) nodes)) eqn:Ho; cbn [negb]; [|done]. case_bool_decide as He; [done|]. intros _.
  exists decisions, run. fold c. rewrite Hs. repeat split.
  - by destruct (cl_violations c).
  - intros n Hn. destruct (orphan_edges run n) as [|o l] eqn:E; [done|]. exfalso.
    assert (o ∈ flat_map (orphan_edges run) nodes) as H by (apply list_elem_of_In, in_flat_map; exists n; split; [by apply list_elem_of_In|rewrite E; by left]).
    destruct (flat_map _ _); [by apply not_elem_of_nil in H|done].
  - done.
Qed.

(** Row ids are distinct and name the rows the edges point to, as expansion checks. *)
Definition expanded_rows (nodes : list ExpandedNode) : Prop :=
  NoDup (all_ids nodes) /\ forall n ak, n ∈ nodes -> ak ∈ required_ancestors n -> ak.1 ∈ all_ids nodes.

Lemma distinct_ids nodes a b : NoDup (all_ids nodes) -> a ∈ nodes -> b ∈ nodes -> nd_id a = nd_id b -> a = b.
Proof.
  intros Hnd [i Hi]%list_elem_of_lookup [j Hj]%list_elem_of_lookup He.
  assert (i = j) as ->; [|rewrite Hi in Hj; by injection Hj].
  eapply NoDup_lookup; [exact Hnd| |]; unfold all_ids; rewrite list_lookup_fmap; [by rewrite Hi|rewrite Hj; cbn; by rewrite He].
Qed.
Lemma needed_known nodes sel id : expanded_rows nodes -> needed nodes sel id -> id ∈ all_ids nodes.
Proof.
  intros [_ Hk]. destruct 1 as [id (n & Hn & <- & _)|id n ak _ Hn Hak]; [apply list_elem_of_fmap; by exists n|].
  apply node_by_id_in in Hn as [Hn _]. by eapply Hk.
Qed.
Lemma orphan_free run n : orphan_edges run n = [] -> nd_id n ∈ run -> forall ak, ak ∈ required_ancestors n -> ak.1 ∈ run.
Proof.
  unfold orphan_edges. intros H Hn ak Hak. rewrite bool_decide_eq_true_2 in H by done. destruct (decide (ak.1 ∈ run)) as [|Hno]; [done|].
  exfalso. apply (not_elem_of_nil (nd_id n, ak.1, ak.2)). rewrite <- H. apply list_elem_of_omap. exists ak. split; [done|].
  by rewrite bool_decide_eq_false_2.
Qed.
(** The rows of a resolved run set, by id. *)
Lemma resolved_rows nodes sel m : expanded_rows nodes -> rz_error (resolve_rows nodes sel m) = None ->
  exists run : gset string, run <> ∅ /\ (forall n, n ∈ nodes -> mem (nd_id n) (rz_run_set (resolve_rows nodes sel m)) = bool_decide (nd_id n ∈ run))
    /\ (forall n, n ∈ nodes -> orphan_edges run n = [])
    /\ (forall id, id ∈ run -> picked nodes sel id \/ policy_lets_in nodes sel id)
    /\ (forall id, id ∈ run -> needed nodes sel id)
    /\ (forall n, n ∈ nodes -> nd_id n ∈ run <-> needed nodes sel (nd_id n) /\ skipped sel n = false).
Proof.
  intros Hx (decisions & run & Hv & Hrun & Ho & Hne & Hset)%resolve_rows_ok.
  destruct (closure_exact nodes sel decisions _ eq_refl Hv) as [Hex Hpol]. set (c := apply_parent_policy _ _ _ _) in *.
  assert (forall id, id ∈ run <-> id ∈ cl_run c /\ forall n, n ∈ nodes -> nd_id n = id -> skipped sel n = false) as Hr
    by (intros id; rewrite Hrun; apply skip_rows_exact).
  exists run. split; [done|]. split; [|split; [done|split; [intros id Hid; by apply Hpol, Hr|split; [intros id Hid; by apply Hex, Hr|]]]].
  - intros n Hn. rewrite Hset. unfold mem. apply bool_decide_ext. rewrite list_elem_of_fmap. setoid_rewrite sort_level_elem.
    setoid_rewrite list_elem_of_In. setoid_rewrite filter_In. split.
    + intros (a & -> & _ & H). by apply bool_decide_eq_true in H.
    + intros H. exists n. split; [done|]. split; [by apply list_elem_of_In|by apply bool_decide_eq_true_2].
  - intros n Hn. rewrite Hr, Hex. split; intros [H1 H2]; split; [done|by apply H2|done|].
    intros a Ha Hid. by rewrite (distinct_ids nodes a n (proj1 Hx) Ha Hn Hid).
Qed.

(** A selection that is accepted runs exactly the rows it needs and does not skip. *)
Lemma selected_rows_exact nodes sel m out :
  expanded_rows nodes -> select_nodes nodes sel m = Ok out ->
  out <> [] /\ (forall n, n ∈ out <-> n ∈ nodes /\ needed nodes sel (nd_id n) /\ skipped sel n = false)
  /\ (forall n, n ∈ out -> picked nodes sel (nd_id n) \/ policy_lets_in nodes sel (nd_id n))
  /\ (forall n ak, n ∈ out -> ak ∈ required_ancestors n -> exists a, a ∈ out /\ nd_id a = ak.1).
Proof.
  intros Hx H. unfold select_nodes in H. destruct (rz_error _) eqn:He; [done|]. injection H as <-.
  destruct (resolved_rows nodes sel m Hx He) as (run & Hne & Hmem & Ho & Hpol & Hneed & Hex).
  assert (forall n, n ∈ List.filter (fun n => mem (nd_id n) (rz_run_set (resolve_rows nodes sel m))) nodes <-> n ∈ nodes /\ nd_id n ∈ run) as Hout.
  { intros n. rewrite list_elem_of_In, filter_In, <- list_elem_of_In. split; intros [Hn H]; split; try done.
    - rewrite Hmem in H by done. by apply bool_decide_eq_true in H.
    - rewrite Hmem by done. by apply bool_decide_eq_true_2. }
  assert (forall id, id ∈ run -> exists a, a ∈ nodes /\ nd_id a = id) as Hknown.
  { intros id H. apply Hneed, (needed_known nodes sel id Hx), list_elem_of_fmap in H as (a & -> & Ha). by exists a. }
  repeat split.
  - intros Hnil. apply set_choose_L in Hne as [id Hid]. destruct (Hknown id Hid) as (a & Ha & <-).
    apply (not_elem_of_nil a). rewrite <- Hnil. by apply Hout.
  - by apply Hout in H as [H _].
  - apply Hout in H as [Hn H]. by apply Hex in H as [? ?].
  - apply Hout in H as [Hn H]. by apply Hex in H as [? ?].
  - intros (Hn & H). apply Hout. split; [done|]. by apply Hex.
  - intros n [Hn H]%Hout. by apply Hpol.
  - intros n ak [Hn H]%Hout Hak. destruct (Hknown ak.1) as (a & Ha & Hid); [by apply (orphan_free run n (Ho n Hn) H)|].
    exists a. split; [|done]. apply Hout. split; [done|]. rewrite Hid. by apply (orphan_free run n (Ho n Hn) H).
Qed.

(** No selector leaves a mandatory row out: the selection picks it, or needs it as an ancestor. *)
Definition keeps_mandatory (nodes : list ExpandedNode) (sel : RunSelection) : Prop :=
  forall n, n ∈ nodes -> nd_status n = Mandatory -> needed nodes sel (nd_id n).
(** Only its own id, without a pattern, skips a mandatory row. *)
Lemma mandatory_skip sel n : nd_status n = Mandatory -> skipped sel n = true -> nd_id n ∈ rs_skip sel.
Proof.
  intros Hm (tok & Hin & H)%existsb_exists. unfold skip_matches in H. rewrite bool_decide_eq_true_2 in H by done.
  destruct (has_glob tok); [done|]. apply bool_decide_eq_true in H as ->. by apply list_elem_of_In.
Qed.

(** C14: A selection whose selectors leave no mandatory row out, when it is accepted, runs
    something, and exactly the rows it needs and does not skip: those it names (every row of an
    eligible status when there is no selector, else by id, by pattern, or by tag within the
    eligible statuses) and their ancestors. An ancestor it does not name itself is one the policy
    lets in, no row runs without every row it depends on, and every mandatory row runs unless it
    is skipped by its exact id. *)
Theorem selection_is_exact nodes sel m out :
  expanded_rows nodes -> keeps_mandatory nodes sel -> select_nodes nodes sel m = Ok out ->
  out <> [] /\ (forall n, n ∈ out <-> n ∈ nodes /\ needed nodes sel (nd_id n) /\ skipped sel n = false)
  /\ (forall n, n ∈ out -> picked nodes sel (nd_id n) \/ policy_lets_in nodes sel (nd_id n))
  /\ (forall n ak, n ∈ out -> ak ∈ required_ancestors n -> exists a, a ∈ out /\ nd_id a = ak.1)
  /\ (forall n, n ∈ nodes -> nd_status n = Mandatory -> n ∈ out \/ nd_id n ∈ rs_skip sel).
Proof.
  intros Hx Hk H. destruct (selected_rows_exact nodes sel m out Hx H) as (H1 & H2 & H3 & H4).
  split_and!; [done..|]. intros n Hn Hm. destruct (skipped sel n) eqn:Hs; [right; by apply mandatory_skip|left].
  apply H2. split_and!; [done|by apply Hk|done].
Qed.

(** ** Execution order *)

(** The level of a row, without the memo. *)
Fixpoint height (fuel : nat) (nodes : list ExpandedNode) (id : string) : nat :=
  match node_by_id nodes id, fuel with
  | Some n, S fuel => foldl (fun d ak => if is_some (node_by_id nodes ak.1) then Nat.max d (S (height fuel nodes ak.1)) else d) 0 (required_ancestors n)
  | _, _ => 0
  end.
Section Levels.
Context (nodes : list ExpandedNode) (num : string -> nat).
(** The rows can be numbered along their edges: there is no cycle. *)
Definition acyclic_by : Prop :=
  (forall id, num id < length (retain_new [] (all_ids nodes)))%nat
  /\ (forall id n ak, node_by_id nodes id = Some n -> ak ∈ required_ancestors n -> is_some (node_by_id nodes ak.1) = true -> (num ak.1 < num id)%nat).
Hypothesis Hac : acyclic_by.
Definition level (id : string) : nat := height (S (num id)) nodes id.

Lemma height_fold_ext (f g : string -> nat) (l : list (string * string)) d :
  (forall ak, ak ∈ l -> is_some (node_by_id nodes ak.1) = true -> f ak.1 = g ak.1) ->
  foldl (fun d ak => if is_some (node_by_id nodes ak.1) then Nat.max d (S (f ak.1)) else d) d l
  = foldl (fun d ak => if is_some (node_by_id nodes ak.1) then Nat.max d (S (g ak.1)) else d) d l.
Proof.
  revert d. induction l as [|ak l IH]; intros d H; [done|]. cbn [foldl]. destruct (is_some (node_by_id nodes ak.1)) eqn:Ek.
  - rewrite (H ak) by (done || by left). apply IH. intros; apply H; [by right|done].
  - apply IH. intros; apply H; [by right|done].
Qed.
Lemma height_stable f1 f2 id : (num id < f1)%nat -> (num id < f2)%nat -> height f1 nodes id = height f2 nodes id.
Proof.
  revert f2 id. induction f1 as [|f1 IH]; intros [|f2] id H1 H2; [lia..|]. cbn [height]. destruct (node_by_id nodes id) as [n|] eqn:Hn; [|done].
  apply height_fold_ext. intros ak Hak Hk. pose proof (proj2 Hac id n ak Hn Hak Hk). apply IH; lia.
Qed.
Definition memo_right (memo : gmap string nat) : Prop := forall id d, memo !! id = Some d -> d = level id.
Definition memo_grows (memo memo' : gmap string nat) : Prop := forall id, is_Some (memo !! id) -> is_Some (memo' !! id).
Lemma depth_exact fuel id memo : (num id < fuel)%nat -> memo_right memo ->
  (depth fuel nodes id memo).1 = level id /\ memo_right (depth fuel nodes id memo).2
  /\ memo_grows memo (depth fuel nodes id memo).2 /\ is_Some ((depth fuel nodes id memo).2 !! id).
Proof.
  revert id memo. induction fuel as [|fuel IH]; intros id memo Hf Hm; [lia|]. cbn [depth]. destruct (memo !! id) as [d|] eqn:Hd.
  { cbn [fst snd]. split; [by apply Hm|]. split; [done|]. split; [by intros x|by exists d]. }
  set (step := fun (dm : nat * gmap string nat) (ak : string * string) => _).
  destruct (node_by_id nodes id) as [n|] eqn:Hn.
  - assert (forall l d memo, (forall ak, ak ∈ l -> ak ∈ required_ancestors n) -> memo_right memo ->
      (foldl step (d, memo) l).1 = foldl (fun d ak => if is_some (node_by_id nodes ak.1) then Nat.max d (S (level ak.1)) else d) d l
      /\ memo_right (foldl step (d, memo) l).2 /\ memo_grows memo (foldl step (d, memo) l).2) as Hfold.
    { clear Hm Hd memo. induction l as [|ak l IHl]; intros d memo Hl Hm; [by repeat split; [|intros x]|]. cbn [foldl]. unfold step at 2 4 6.
      cbn [fst snd]. destruct (is_some (node_by_id nodes ak.1)) eqn:Ek; [|apply IHl; [intros; apply Hl; by right|done]].
      pose proof (proj2 Hac id n ak Hn (Hl ak (list_elem_of_here _ _)) Ek) as Hlt.
      destruct (IH ak.1 memo ltac:(lia) Hm) as (E & R & G & _). destruct (depth fuel nodes ak.1 memo) as [e memo1]. cbn [fst snd] in *. subst e.
      destruct (IHl (Nat.max d (S (level ak.1))) memo1) as (E2 & R2 & G2); [intros; apply Hl; by right|done|].
      split; [done|]. split; [done|]. intros x Hx. by apply G2, G. }
    destruct (Hfold (required_ancestors n) 0%nat memo) as (E & R & G); [done|done|]. destruct (foldl step _ _) as [d memo1]. cbn [fst snd] in *.
    assert (d = level id) as ->.
    { rewrite E. unfold level at 2. cbn [height]. rewrite Hn. apply height_fold_ext. intros ak Hak Hk.
      pose proof (proj2 Hac id n ak Hn Hak Hk). apply height_stable; lia. }
    split; [done|]. split; [|split].
    + intros x v. rewrite lookup_insert_Some. intros [[<- <-]|[_ H]]; [done|by apply R].
    + intros x Hx. rewrite lookup_insert_is_Some'. right. by apply G.
    + rewrite lookup_insert_eq. by eexists.
  - cbn [fst snd]. assert (level id = 0%nat) as Hz by (unfold level; cbn [height]; by rewrite Hn). split; [done|]. split; [|split].
    + intros x v. rewrite lookup_insert_Some. intros [[<- <-]|[_ H]]; [done|by apply Hm].
    + intros x Hx. rewrite lookup_insert_is_Some'. by right.
    + rewrite lookup_insert_eq. by eexists.
Qed.
Lemma execution_depths_level n : n ∈ nodes -> execution_depths nodes !! nd_id n = Some (level (nd_id n)).
Proof.
  unfold execution_depths. set (fuel := length _).
  enough (forall l memo, memo_right memo -> let memo' := foldl (fun memo n => (depth fuel nodes (nd_id n) memo).2) memo l in
    memo_right memo' /\ memo_grows memo memo' /\ forall n, n ∈ l -> is_Some (memo' !! nd_id n)) as H.
  { intros Hn. destruct (H nodes ∅) as (R & _ & G); [by intros x d Hx|]. destruct (G n Hn) as [d Hd]. rewrite Hd. f_equal. by apply R. }
  induction l as [|a l IH]; intros memo Hm; cbn [foldl]; [by repeat split; [|intros x|intros x Hx%not_elem_of_nil]|].
  destruct (depth_exact fuel (nd_id a) memo (proj1 Hac _) Hm) as (_ & R & G & S). destruct (IH _ R) as (R2 & G2 & S2).
  split; [done|]. split; [intros x Hx; by apply G2, G|]. intros x [-> |Hx]%elem_of_cons; [by apply G2|by apply S2].
Qed.
Lemma height_fold_le (f : string -> nat) (l : list (string * string)) d ak :
  ((d <= foldl (fun d ak => if is_some (node_by_id nodes ak.1) then Nat.max d (S (f ak.1)) else d) d l)
   /\ (ak ∈ l -> is_some (node_by_id nodes ak.1) = true ->
       f ak.1 < foldl (fun d ak => if is_some (node_by_id nodes ak.1) then Nat.max d (S (f ak.1)) else d) d l))%nat.
Proof.
  revert d. induction l as [|b l IH]; intros d; cbn [foldl]; [split; [lia|intros H; by apply not_elem_of_nil in H]|].
  destruct (is_some (node_by_id nodes b.1)) eqn:Eb.
  - destruct (IH (Nat.max d (S (f b.1)))) as [Hle Hlt]. split; [lia|]. intros [-> |Hin]%elem_of_cons Hk; [lia|by apply Hlt].
  - destruct (IH d) as [Hle Hlt]. split; [lia|]. intros [-> |Hin]%elem_of_cons Hk; [congruence|by apply Hlt].
Qed.
Lemma level_of_ancestor id n ak : node_by_id nodes id = Some n -> ak ∈ required_ancestors n -> is_some (node_by_id nodes ak.1) = true ->
  (level ak.1 < level id)%nat.
Proof.
  intros Hn Hak Hk. unfold level at 2. cbn [height]. rewrite Hn. pose proof (proj2 Hac id n ak Hn Hak Hk) as Hlt.
  unfold level. rewrite (height_stable (S (num ak.1)) (num id)) by lia. by apply (height_fold_le (height (num id) nodes)).
Qed.
End Levels.

Lemma insert_level_sorted {A} (key : A -> nat) a l :
  StronglySorted (fun a b => key a <= key b)%nat l -> StronglySorted (fun a b => key a <= key b)%nat (insert_by key a l).
Proof.
  induction 1 as [|b l Hs IH Hb]; cbn [insert_by]; [by repeat constructor|]. destruct (Nat.ltb_spec (key a) (key b)).
  - constructor; [by constructor|]. constructor; [lia|]. eapply Forall_impl; [exact Hb|]. cbn. lia.
  - constructor; [done|]. apply Forall_forall. intros x [-> |Hx]%insert_level_elem; [lia|]. rewrite Forall_forall in Hb. by apply Hb.
Qed.
Lemma sort_level_sorted {A} (key : A -> nat) l : StronglySorted (fun a b => key a <= key b)%nat (sort_by key l).
Proof.
  unfold sort_by. enough (forall s, StronglySorted (fun a b => key a <= key b)%nat s ->
    StronglySorted (fun a b => key a <= key b)%nat (foldl (fun s a => insert_by key a s) s l)) as H by (apply H; constructor).
  induction l as [|a l IH]; intros s Hs; [done|]. by apply IH, insert_level_sorted.
Qed.
Lemma sorted_order {A} (key : A -> nat) l i j a b :
  StronglySorted (fun a b => key a <= key b)%nat l -> l !! i = Some a -> l !! j = Some b -> (key a < key b)%nat -> (i < j)%nat.
Proof.
  intros Hs Hi Hj Hlt. destruct (decide (i < j)%nat) as [|Hge]; [done|]. exfalso. assert (key b <= key a)%nat; [|lia].
  destruct (decide (i = j)) as [->|Hne]; [rewrite Hi in Hj; injection Hj as ->; lia|]. clear Hlt.
  revert i j Hge Hne Hi Hj. induction Hs as [|c l Hs IH Hc]; intros [|i] [|j] Hge Hne Hi Hj; [done..|lia|lia| |eapply (IH i j); [lia|lia|done|done]].
  injection Hj as ->. rewrite Forall_forall in Hc. apply Hc. by apply (list_elem_of_lookup_2 l i).
Qed.
Lemma node_by_own_id nodes : expanded_rows nodes -> forall c, c ∈ nodes -> node_by_id nodes (nd_id c) = Some c.
Proof.
  intros Hx c Hc. destruct (node_by_id nodes (nd_id c)) as [d|] eqn:Hd.
  - apply node_by_id_in in Hd as [Hd Hid]. by rewrite (distinct_ids nodes d c (proj1 Hx) Hd Hc Hid).
  - exfalso. unfold node_by_id in Hd. eapply List.find_none in Hd; [|by apply -> in_rev; apply list_elem_of_In].
    by apply bool_decide_eq_false in Hd.
Qed.
(** A resolved run set is in execution order: a row comes after every row it depends on. *)
Theorem rows_run_after_their_ancestors nodes sel m num i j n ak :
  expanded_rows nodes -> acyclic_by nodes num -> rz_error (resolve_rows nodes sel m) = None ->
  n ∈ nodes -> ak ∈ required_ancestors n ->
  rz_run_set (resolve_rows nodes sel m) !! i = Some ak.1 -> rz_run_set (resolve_rows nodes sel m) !! j = Some (nd_id n) -> (i < j)%nat.
Proof.
  intros Hx Hac He Hn Hak Hi Hj. apply resolve_rows_ok in He as (decisions & run & _ & _ & _ & _ & Hset). rewrite Hset in Hi, Hj.
  apply list_lookup_fmap_Some in Hi as (a & Ha & Hi), Hj as (b & Hb & Hj).
  set (sorted := sort_by _ _) in *.
  assert (forall c k, sorted !! k = Some c -> c ∈ nodes) as Hin.
  { intros c k Hc. apply list_elem_of_lookup_2, sort_level_elem, list_elem_of_In, filter_In in Hc as [Hc _]. by apply list_elem_of_In. }
  eapply sorted_order; [apply sort_level_sorted|exact Hi|exact Hj|]. cbn beta. rewrite !(execution_depths_level nodes num Hac) by (by eapply Hin).
  cbn [default from_option]. rewrite <- Hb, <- Ha. eapply level_of_ancestor; [done|by apply (node_by_own_id nodes Hx)|done|].
  rewrite Ha, (node_by_own_id nodes Hx); [done|by eapply Hin].
Qed.

(** ** Examples *)

(** A pipeline of four rows: lines come after orders, a report after both, and a parked row. *)
Definition sample_rows : list ExpandedNode :=
  [MkExpandedNode "orders" Mandatory ["daily"] None []; MkExpandedNode "lines" Active ["daily"] (Some "orders") [];
   MkExpandedNode "report" Active [] None ["lines"; "orders"]; MkExpandedNode "old" Archived ["daily"] None []].
Definition sample_selection (select skip : list string) (policy : IncludeParents) : RunSelection := MkRunSelection select [] skip [] [] policy.
Lemma sample_rows_expanded : expanded_rows sample_rows.
Proof.
  split; [by apply (bool_decide_unpack _); vm_compute|]. intros n ak Hn Hak.
  assert (Forall (fun n => Forall (fun ak => ak.1 ∈ all_ids sample_rows) (required_ancestors n)) sample_rows) as H
    by (apply (bool_decide_unpack _); by vm_compute).
  rewrite Forall_forall in H. specialize (H n Hn). rewrite Forall_forall in H. by apply H.
Qed.
(** Selecting the report pulls in what it needs, and not the parked row. *)
Lemma sample_keeps_mandatory : keeps_mandatory sample_rows (sample_selection ["report"] [] Eligible).
Proof.
  intros n Hn Hm. assert (nd_id n = "orders") as ->.
  { assert (Forall (fun n => nd_status n = Mandatory -> nd_id n = "orders") sample_rows) as H by (by repeat constructor).
    rewrite Forall_forall in H. by apply H. }
  apply (needed_ancestor _ _ "report" (MkExpandedNode "report" Active [] None ["lines"; "orders"]) ("orders", "depends_on")).
  - apply needed_picked. exists (MkExpandedNode "report" Active [] None ["lines"; "orders"]).
    split; [unfold sample_rows; rewrite !elem_of_cons; by right; right; left|]. split; [done|]. apply by_id. left.
  - by vm_compute.
  - by right; left.
Qed.
Lemma selection_is_exact_witness :
  exists out, select_nodes sample_rows (sample_selection ["report"] [] Eligible) true = Ok out /\ all_ids out = ["orders"; "lines"; "report"] /\
    out <> [] /\ (forall n, n ∈ out <-> n ∈ sample_rows /\ needed sample_rows (sample_selection ["report"] [] Eligible) (nd_id n)
                                    /\ skipped (sample_selection ["report"] [] Eligible) n = false)
    /\ (forall n, n ∈ out -> picked sample_rows (sample_selection ["report"] [] Eligible) (nd_id n)
                            \/ policy_lets_in sample_rows (sample_selection ["report"] [] Eligible) (nd_id n))
    /\ (forall n ak, n ∈ out -> ak ∈ required_ancestors n -> exists a, a ∈ out /\ nd_id a = ak.1)
    /\ (forall n, n ∈ sample_rows -> nd_status n = Mandatory -> n ∈ out \/ nd_id n ∈ @nil string).
Proof.
  eexists. split; [by vm_compute|]. split; [done|].
  apply (selection_is_exact sample_rows (sample_selection ["report"] [] Eligible) true);
    [apply sample_rows_expanded|apply sample_keeps_mandatory|by vm_compute].
Defined.
(** Without a policy the same selection is refused, with every pair; a skipped ancestor is refused
    too, and a pattern does not remove a mandatory row. *)
Example ancestors_are_not_guessed :
  select_nodes sample_rows (sample_selection ["report"] [] Off) true
    = Err (RunSetMissingAncestors ["report → lines (depends_on)"; "report → orders (depends_on)"] "off")
  /\ select_nodes sample_rows (sample_selection [] ["lines"] Off) true
    = Err (RunSetMissingAncestors ["report → lines (depends_on)"] "off")
  /\ all_ids <$> result_ok (select_nodes sample_rows (sample_selection [] ["*r*"] Off) true) = Some ["orders"; "lines"].
Proof. by vm_compute. Qed.
(** Any identity selector leaves a mandatory row out. *)
Example mandatory_row_is_narrowed_out :
  rz_decisions (resolve_rows sample_rows (sample_selection ["old"] [] Off) true) !! "orders" = Some (Excluded "not selected")
  /\ all_ids <$> result_ok (select_nodes sample_rows (sample_selection ["old"] [] Off) true) = Some ["old"].
Proof. by vm_compute. Qed.
(** The order of the sample, by its levels. *)
Definition sample_number (id : string) : nat := if string_eqb id "report" then 2 else if string_eqb id "lines" then 1 else 0.
Lemma sample_rows_acyclic : acyclic_by sample_rows sample_number.
Proof.
  split; [intros id; change (sample_number id < 4)%nat; unfold sample_number; by repeat case_match; lia|].
  intros id n ak [Hn <-]%node_by_id_in Hak _.
  assert (Forall (fun n => Forall (fun ak => (sample_number ak.1 < sample_number (nd_id n))%nat) (required_ancestors n)) sample_rows) as H
    by (apply (bool_decide_unpack _); by vm_compute).
  rewrite Forall_forall in H. specialize (H n Hn). rewrite Forall_forall in H. by apply H.
Qed.
Lemma rows_run_after_their_ancestors_witness :
  rz_run_set (resolve_rows sample_rows (sample_selection [] [] Off) true) = ["orders"; "lines"; "report"] /\ (1 < 2)%nat.
Proof.
  split; [by vm_compute|].
  apply (rows_run_after_their_ancestors sample_rows (sample_selection [] [] Off) true sample_number 1 2
    (MkExpandedNode "report" Active [] None ["lines"; "orders"]) ("lines", "depends_on"));
    [apply sample_rows_expanded|apply sample_rows_acyclic|by vm_compute|by do 2 right; left|by left|by vm_compute|by vm_compute].
Defined.
