(* ===== verification/Fanout.v ===== *)
(** What a row fans out over: cli/src/discovery_matrix.rs.

    A [HashMap] is a [gmap]; the [HashSet] of dedup keys is a [gset]. Parameters: the evaluation of
    a JSONPath ([extract_records] over a third-party crate) and serde_json's text of a value and of
    a string. *)
From S2P Require Import Prelude Errors Float64 Json Text StateKey TypedKey Contract Transform Resolve.
From Stdlib Require Import Ascii.

Local Open Scope Z_scope.

Definition MAX_MATRIX_PRODUCT : Z := 10000.
Record Dim := MkDim { dm_id : string; dm_alias : string; dm_values : list Value }.
Record CollectedDim := MkCollectedDim { cd_id : string; cd_alias : string; cd_dims : list string; cd_by_tuple : gmap string (list Value) }.
Notation Tuple := (gmap string Value).

(** ** Projecting a dimension *)

Section Projecting.
Context (extract : Value -> string -> option (list Value)) (to_string : Value -> string).

(** [char::is_control]. *)
Definition char_is_control (c : string) : bool :=
  match c with
  | String a EmptyString => (byte_of a <? 32) || (byte_of a =? 127)
  | String a (String b EmptyString) => (byte_of a =? 194) && (128 <=? byte_of b) && (byte_of b <=? 159)
  | _ => false
  end.
Definition double_quote : string := String (Ascii.ascii_of_nat 34) EmptyString.
Definition parses (path : string) : bool := match extract Null path with Some _ => true | None => false end.
Fixpoint bracket_segments (segs : list string) : option string :=
  match segs with
  | [] => Some EmptyString
  | seg :: segs =>
      match (if negb (contains_str "'" seg) then Some "'" else if negb (contains_str double_quote seg) then Some double_quote else None) with
      | None => None
      | Some quote =>
          if is_empty_str seg || contains_str "\" seg then None
          else (fun rest => "[" +:+ quote +:+ seg +:+ quote +:+ "]" +:+ rest) <$> bracket_segments segs
      end
  end.
Definition dot_path_as_brackets (select : string) : option string :=
  let body := default select (option_or (strip_prefix "$." select) (strip_prefix "$" select)) in
  if is_empty_str body || contains_str "[" body || contains_str "]" body || existsb char_is_control (chars body) then None
  else (fun s => "$" +:+ s) <$> bracket_segments (split_str "." body).
Definition select_path (select : string) : option string :=
  let s := trim select in
  if is_empty_str s || string_eqb s "$" then None
  else
    let path := if starts_with "$" s then s else "$." +:+ s in
    if parses path then Some path
    else Some (match dot_path_as_brackets s with Some p => if parses p then p else path | None => path end).

(** An object's entries, sorted by key. *)
Fixpoint insert_entry (e : string * string) (l : list (string * string)) : list (string * string) :=
  match l with [] => [e] | f :: l' => if String.leb e.1 f.1 then e :: l else f :: insert_entry e l' end.
Fixpoint dedup_key (v : Value) : string :=
  match v with
  | VObject m =>
      let entries := foldr insert_entry [] ((fix go (m : list (string * Value)) := match m with [] => [] | (k, x) :: m => (k, dedup_key x) :: go m end) m) in
      "{" +:+ join "," ((fun e => to_string (VString e.1) +:+ ":" +:+ e.2) <$> entries) +:+ "}"
  | VArray a => "[" +:+ join "," ((fix go (a : list Value) := match a with [] => [] | x :: a => dedup_key x :: go a end) a) +:+ "]"
  | other => to_string other
  end.

Record ProjectionAcc := MkAcc { pa_path : option string; pa_seen : gset string; pa_out : list Value; pa_skipped : Z; pa_records : Z }.
Definition acc_new (select : string) : ProjectionAcc := MkAcc (select_path select) ∅ [] 0 0.
Definition record_matches (path : option string) (rec : Value) : list Value :=
  match path with None => [rec] | Some p => default [] (extract rec p) end.
Definition push_value (so : gset string * list Value) (v : Value) : gset string * list Value :=
  if is_null v then so else if bool_decide (dedup_key v ∈ so.1) then so else ({[dedup_key v]} ∪ so.1, so.2 ++ [v]).
Definition acc_push_record (a : ProjectionAcc) (rec : Value) : ProjectionAcc :=
  let matches := record_matches (pa_path a) rec in
  let so := foldl push_value (pa_seen a, pa_out a) matches in
  MkAcc (pa_path a) so.1 so.2 (if existsb (fun v => negb (is_null v)) matches then pa_skipped a else pa_skipped a + 1) (pa_records a + 1).
Definition acc_push (a : ProjectionAcc) (records : list Value) : ProjectionAcc := foldl acc_push_record a records.
Record ProjectionResult := MkProjection { pj_values : list Value; pj_skipped : Z }.
Definition acc_finish (a : ProjectionAcc) : ProjectionResult := MkProjection (pa_out a) (pa_skipped a).
Definition project_dedup_counted (records : list Value) (select : string) : ProjectionResult := acc_finish (acc_push (acc_new select) records).
End Projecting.

(** ** Tuples *)

Fixpoint product_from (acc : Z) (dims : list Dim) : Z :=
  match dims with
  | [] => acc
  | d :: dims => let n := acc * zlen (dm_values d) in if n <=? U64_MAX then product_from n dims else U64_MAX
  end.
Definition dims_product_size (dims : list Dim) : Z := if is_nil dims then 0 else product_from 1 dims.
Definition bind_dim (d : Dim) (ctx : Tuple) (v : Value) : Tuple := <[dm_id d := VObject [(dm_alias d, v)]]> ctx.
Definition cartesian (dims : list Dim) : list Tuple :=
  if is_nil dims || existsb (fun d => is_nil (dm_values d)) dims then []
  else foldl (fun out d => flat_map (fun base => (fun v => bind_dim d base v) <$> dm_values d) out) [∅] dims.

Section Tuples.
Context (to_string : Value -> string).
Definition value_brief (v : Value) : string := match v with VString s => s | Null => "null" | other => to_string other end.
Definition state_key_component (raw : string) (allow_separators : bool) : string := encode_component raw allow_separators.
Definition tuple_state_key_suffix (dims : list Dim) (ctx : Tuple) : string :=
  join "/" ((fun d =>
    let v := match ctx !! dm_id d ≫= (fun o => get o (dm_alias d)) with Some v => value_brief v | None => "(missing)" end in
    state_key_component (dm_alias d) false +:+ ":" +:+ state_key_component v false) <$> dims).
Definition collected_tuple_key (dims : list string) (ctx : Tuple) : string :=
  join "&" ((fun d => d +:+ "=" +:+ to_string (default Null (ctx !! d))) <$> dims).
Definition inject_one (ctx : Tuple) (cd : CollectedDim) : Tuple :=
  let list := default [] (cd_by_tuple cd !! collected_tuple_key (cd_dims cd) ctx) in
  <[cd_id cd := VObject [(cd_alias cd, VArray list)]]> ctx.
Definition inject_collected (ctx : Tuple) (collected : list CollectedDim) : Tuple := foldl inject_one ctx collected.
End Tuples.

(** ** Properties *)

Section ProjectionFacts.
Context (extract : Value -> string -> option (list Value)) (to_string : Value -> string).
Notation dedup_key := (dedup_key to_string).

(** The first of the values with each key. *)
Fixpoint first_by_key (seen : gset string) (l : list Value) : list Value :=
  match l with
  | [] => []
  | v :: l => if bool_decide (dedup_key v ∈ seen) then first_by_key seen l else v :: first_by_key ({[dedup_key v]} ∪ seen) l
  end.
Lemma first_by_key_app seen l1 l2 : first_by_key seen (l1 ++ l2) = first_by_key seen l1 ++ first_by_key (list_to_set (dedup_key <$> l1) ∪ seen) l2.
Proof.
  revert seen. induction l1 as [|v l1 IH]; intros seen; cbn [app first_by_key fmap list_fmap list_to_set]; [by rewrite (left_id_L ∅ (∪))|].
  case_bool_decide as Hv; rewrite IH; cbn [app]; do 2 f_equal; [|f_equal]; apply set_eq; intros x; rewrite !elem_of_union, !elem_of_singleton; [|tauto].
  split; [tauto|]. intros [[->|H]|H]; tauto.
Qed.
Lemma push_values_exact l seen out :
  foldl (push_value to_string) (seen, out) l
  = (list_to_set (dedup_key <$> List.filter (fun v => negb (is_null v)) l) ∪ seen, out ++ first_by_key seen (List.filter (fun v => negb (is_null v)) l)).
Proof.
  revert seen out. induction l as [|v l IH]; intros seen out; cbn [foldl List.filter].
  - cbn [fmap list_fmap list_to_set first_by_key]. by rewrite (left_id_L ∅ (∪)), app_nil_r.
  - unfold push_value at 2. destruct (is_null v); cbn [negb]; [apply IH|]. cbn [fst snd fmap list_fmap list_to_set first_by_key].
    case_bool_decide as Hv; rewrite IH; f_equal.
    + apply set_eq. intros x. rewrite !elem_of_union, !elem_of_singleton. split; [tauto|]. intros [[->|H]|H]; tauto.
    + apply set_eq. intros x. rewrite !elem_of_union, !elem_of_singleton. tauto.
    + by rewrite <- app_assoc.
Qed.
Definition projected (path : option string) (records : list Value) : list Value :=
  List.filter (fun v => negb (is_null v)) (flat_map (record_matches extract path) records).
Lemma filter_app_bool {A} (p : A -> bool) l1 l2 : List.filter p (l1 ++ l2) = List.filter p l1 ++ List.filter p l2.
Proof. induction l1 as [|a l1 IH]; [done|]. cbn. destruct (p a); [cbn; by rewrite IH|done]. Qed.
Lemma acc_push_exact records a :
  pa_path (acc_push extract to_string a records) = pa_path a
  /\ pa_out (acc_push extract to_string a records) = pa_out a ++ first_by_key (pa_seen a) (projected (pa_path a) records)
  /\ pa_seen (acc_push extract to_string a records) = list_to_set (dedup_key <$> projected (pa_path a) records) ∪ pa_seen a
  /\ pa_records (acc_push extract to_string a records) = pa_records a + zlen records.
Proof.
  revert a. induction records as [|r records IH]; intros a; cbn [acc_push foldl].
  - cbn. rewrite app_nil_r, (left_id_L ∅ (∪)), Z.add_0_r. done.
  - destruct (IH (acc_push_record extract to_string a r)) as (P & O & S & R). unfold acc_push in *. rewrite P, O, S, R. clear P O S R IH.
    unfold acc_push_record. rewrite push_values_exact. cbn [pa_path pa_out pa_seen pa_records fst snd].
    unfold projected. cbn [flat_map]. rewrite filter_app_bool, first_by_key_app, fmap_app, list_to_set_app_L. split; [done|].
    split; [by rewrite <- app_assoc|]. split; [|unfold zlen; cbn [length]; lia].
    apply set_eq. intros x. rewrite !elem_of_union. tauto.
Qed.
(** Fed page by page, a dimension holds the first of the non-null projections with each key, in
    the order of the records: how the source pages them makes no difference. *)
Theorem dimension_ignores_paging select pages :
  pa_out (foldl (acc_push extract to_string) (acc_new extract select) pages)
    = first_by_key ∅ (projected (select_path extract select) (concat pages))
  /\ acc_finish (foldl (acc_push extract to_string) (acc_new extract select) pages) = project_dedup_counted extract to_string (concat pages) select.
Proof.
  assert (forall a, foldl (acc_push extract to_string) a pages = acc_push extract to_string a (concat pages)) as H.
  { induction pages as [|p pages IH]; intros a; [done|]. cbn [foldl concat]. rewrite IH. unfold acc_push. by rewrite foldl_app. }
  rewrite H. split; [|done]. destruct (acc_push_exact (concat pages) (acc_new extract select)) as (_ & -> & _). done.
Qed.
(** No two values of a dimension have one key. *)
Lemma first_by_key_distinct seen l : NoDup (dedup_key <$> first_by_key seen l) /\ (forall v, v ∈ first_by_key seen l -> dedup_key v ∉ seen).
Proof.
  revert seen. induction l as [|v l IH]; intros seen; cbn [first_by_key]; [split; [constructor|intros v H; by apply not_elem_of_nil in H]|].
  case_bool_decide as Hv; [apply IH|]. destruct (IH ({[dedup_key v]} ∪ seen)) as [Hd Hn]. cbn [fmap list_fmap]. split.
  - constructor; [|done]. intros (w & Hw & Hin)%list_elem_of_fmap. apply Hn in Hin. apply Hin, elem_of_union_l, elem_of_singleton. done.
  - intros w [-> |Hw]%elem_of_cons; [done|]. apply Hn in Hw. intros H. by apply Hw, elem_of_union_r.
Qed.
Theorem dimension_values_distinct records select : NoDup (dedup_key <$> pj_values (project_dedup_counted extract to_string records select)).
Proof.
  unfold project_dedup_counted, acc_finish. cbn [pj_values]. destruct (acc_push_exact records (acc_new extract select)) as (_ & -> & _).
  apply first_by_key_distinct.
Qed.
End ProjectionFacts.

Definition bind_all (dims : list Dim) (vs : list Value) (ctx : Tuple) : Tuple := foldl (fun c dv => bind_dim dv.1 c dv.2) ctx (zip dims vs).
Notation extend_all := (foldl (fun out d => flat_map (fun base => (fun v => bind_dim d base v) <$> dm_values d) out)).
Lemma extend_all_exact dims out ctx :
  ctx ∈ extend_all out dims <-> exists base vs, base ∈ out /\ Forall2 (fun d v => v ∈ dm_values d) dims vs /\ ctx = bind_all dims vs base.
Proof.
  revert out. induction dims as [|d dims IH]; intros out; cbn [foldl].
  - split; [intros H; exists ctx, []; by repeat split|]. by intros (base & vs & Hb & Hvs%Forall2_nil_inv_l & ->); subst.
  - rewrite IH. split.
    + intros (b' & vs & Hb & Hvs & ->). apply list_elem_of_In, in_flat_map in Hb as (base & Hbase & Hv).
      apply list_elem_of_In, list_elem_of_fmap in Hv as (v & -> & Hv). exists base, (v :: vs). split; [by apply list_elem_of_In|]. split; [by constructor|done].
    + intros (base & vs & Hb & Hvs & ->). apply Forall2_cons_inv_l in Hvs as (v & vs' & Hv & Hvs & ->). exists (bind_dim d base v), vs'. split; [|by split].
      apply list_elem_of_In, in_flat_map. exists base. split; [by apply list_elem_of_In|]. apply list_elem_of_In, list_elem_of_fmap. by exists v.
Qed.
(** The tuples are exactly the choices of one value per dimension. *)
Theorem cartesian_exact dims ctx : dims <> [] ->
  ctx ∈ cartesian dims <-> exists vs, Forall2 (fun d v => v ∈ dm_values d) dims vs /\ ctx = bind_all dims vs ∅.
Proof.
  intros Hne. unfold cartesian. replace (is_nil dims) with false by (by destruct dims). cbn [orb].
  destruct (existsb (fun d => is_nil (dm_values d)) dims) eqn:He.
  - split; [intros H; by apply not_elem_of_nil in H|]. intros (vs & Hvs & _). apply existsb_exists in He as (d & Hd & Hn). exfalso.
    apply list_elem_of_In in Hd. clear Hne. induction Hvs as [|e v dims' vs Hv _ IH]; [by apply not_elem_of_nil in Hd|].
    apply elem_of_cons in Hd as [-> |Hd]; [|by apply IH]. destruct (dm_values e); [by apply not_elem_of_nil in Hv|done].
  - rewrite extend_all_exact. split.
    + intros (base & vs & ->%list_elem_of_singleton & Hvs & ->). by exists vs.
    + intros (vs & Hvs & ->). exists ∅, vs. by split; [apply list_elem_of_singleton|].
Qed.
Definition dims_product (dims : list Dim) : Z := foldr (fun d n => zlen (dm_values d) * n) 1 dims.
Lemma extend_all_length dims out : zlen (extend_all out dims) = zlen out * dims_product dims.
Proof.
  revert out. induction dims as [|d dims IH]; intros out; cbn [foldl dims_product foldr]; [lia|]. fold (dims_product dims). rewrite IH.
  rewrite Z.mul_assoc. f_equal. unfold zlen. induction out as [|b out IHo]; [done|]. cbn [flat_map length]. rewrite length_app, length_fmap. lia.
Qed.
Lemma product_from_exact dims acc : 1 <= acc <= U64_MAX -> Forall (fun d => dm_values d <> []) dims ->
  product_from acc dims = Z.min (acc * dims_product dims) U64_MAX.
Proof.
  revert acc. induction dims as [|d dims IH]; intros acc Ha Hne; cbn [product_from dims_product foldr]; [lia|]. fold (dims_product dims).
  apply Forall_cons in Hne as [Hd Hne].
  assert (forall l, Forall (fun d => dm_values d <> []) l -> 1 <= dims_product l) as Hpos.
  { induction 1 as [|e l He _ IHl]; cbn [dims_product foldr]; [lia|]. fold (dims_product l). unfold zlen. destruct (dm_values e); [done|]. cbn [length]. nia. }
  pose proof (Hpos dims Hne). assert (1 <= zlen (dm_values d)) by (unfold zlen; destruct (dm_values d); [done|cbn [length]; lia]).
  destruct (Z.leb_spec (acc * zlen (dm_values d)) U64_MAX); [rewrite IH; [|nia|done]; f_equal; lia|nia].
Qed.
(** The size a row is checked against is the number of its tuples, up to the width of a [usize], so
    a row within the ceiling starts no more invocations than it. *)
Theorem dims_product_size_exact dims : Forall (fun d => dm_values d <> []) dims -> dims_product_size dims = Z.min (zlen (cartesian dims)) U64_MAX.
Proof.
  intros Hne. destruct dims as [|d dims]; [done|]. unfold dims_product_size, cartesian. cbn [is_nil orb].
  replace (existsb _ _) with false.
  - rewrite extend_all_length, product_from_exact by (done || unfold U64_MAX; lia). done.
  - symmetry. apply not_true_is_false. intros (e & He & Hn)%existsb_exists. rewrite Forall_forall in Hne.
    specialize (Hne e (proj2 (list_elem_of_In _ _) He)). by destruct (dm_values e).
Qed.
(** An empty dimension gives no tuples, but its size is not zero once the product of the dimensions
    before it is too large. *)
Definition huge_dims : list Dim := replicate 64 (MkDim "d" "v" [VBool true; VBool false]) ++ [MkDim "e" "v" []].
Example empty_product_is_over_the_ceiling : cartesian huge_dims = [] /\ dims_product_size huge_dims = U64_MAX.
Proof. by vm_compute. Qed.

(** A collected list is found by every tuple that agrees with the one it was stored for. *)
Lemma collected_key_agrees to_string dims (c1 c2 : Tuple) :
  (forall d, d ∈ dims -> c1 !! d = c2 !! d) -> collected_tuple_key to_string dims c1 = collected_tuple_key to_string dims c2.
Proof. intros H. unfold collected_tuple_key. f_equal. apply list_fmap_ext. intros i d Hd. by rewrite (H d) by (by eapply list_elem_of_lookup_2). Qed.
Theorem collected_list_injected to_string cd (stored ctx : Tuple) values :
  (forall d, d ∈ cd_dims cd -> ctx !! d = stored !! d) ->
  inject_one to_string ctx (MkCollectedDim (cd_id cd) (cd_alias cd) (cd_dims cd) (<[collected_tuple_key to_string (cd_dims cd) stored := values]> (cd_by_tuple cd)))
    !! cd_id cd = Some (VObject [(cd_alias cd, VArray values)]).
Proof.
  intros H. unfold inject_one. cbn [cd_id cd_alias cd_dims cd_by_tuple]. rewrite lookup_insert_eq.
  rewrite (collected_key_agrees to_string (cd_dims cd) ctx stored H), lookup_insert_eq. done.
Qed.
