(* ===== verification/Executor.v ===== *)
(** How a run takes its rows: the levels of [run_expanded] in cli/src/executor.rs.

    Rows run level by level: every row whose parent and dependencies are settled, one invocation per
    root, parent record or tuple of discovered values. A run is a fold over one [LevelWorld] per
    level, which holds what is outside: the order in which the tasks of a level end and how, when
    the run is cancelled and when the grace after a failure has passed, where an overwriting sink
    writes and how its lifecycle calls answer. The trace lists what the executor does: preparing,
    swapping or discarding a destination, starting an invocation or leaving it out, and its end.

    A [HashMap] is a [gmap] and a [HashSet] a [gset]. A weight is the [i64] that [f64::total_cmp]
    compares. What one invocation does is its answer; the checks before the first level, the limit
    on concurrent tasks, usage records, notifications and log lines are left out. *)
From S2P Require Import Prelude Errors Float64 Json Text StateKey TypedKey Contract Transform Resolve Select Fanout.
From Stdlib Require Import Ascii.

Local Open Scope result_scope.

Inductive OnError := Continue | Stop.
Inductive DispatchOrder := Declared | Lpt.
#[export] Instance OnError_eq_dec : EqDecision OnError.
Proof. solve_decision. Defined.
Inductive NodeRole :=
| RootRow
| ChildRow (parent_id parent_key : string)
| DiscoveryRow (select as_alias : string) (collect : bool) (dims : list string)
| ProductRow (dims collected : list string).
Record Row := MkRow {
  row_id : string; row_weight : option Z; row_role : NodeRole; row_depends_on : list string; row_legacy : list string;
  row_uses_state : bool; row_overwrite : bool }.

Inductive InvocationErrorKind := KindCircuitOpen | KindPolicy | KindBudgetExceeded | KindLeaseHeld | KindSkipped | KindOther.
#[export] Instance InvocationErrorKind_eq_dec : EqDecision InvocationErrorKind.
Proof. solve_decision. Defined.
Inductive CliError :=
| CliFaucet (e : FaucetError)
| PolicyViolations
| BudgetSinkNotAllowed
| LeaseHeldError (m : string)
| InvalidStateKey (id state_key : string) (reason : FaucetError)
| DuplicateStateKey (id state_key : string)
| CliConfig (m : string)
| OtherCliError (m : string).
Definition classify_error (e : CliError) : InvocationErrorKind :=
  match e with
  | CliFaucet (CircuitOpen _ _) => KindCircuitOpen
  | CliFaucet (PolicyViolation _ _ _) | PolicyViolations => KindPolicy
  | CliFaucet (BudgetExceeded _ _ _) | BudgetSinkNotAllowed => KindBudgetExceeded
  | LeaseHeldError _ => KindLeaseHeld
  | _ => KindOther
  end.
Record Outcome := MkOutcome {
  oc_row : string; oc_key : option string; oc_written : Z; oc_error : option string; oc_kind : option InvocationErrorKind }.
Definition synthetic_outcome (id : string) (key : option string) (error : string) (kind : InvocationErrorKind) : Outcome :=
  MkOutcome id key 0 (Some error) (Some kind).
Definition is_skip (o : Outcome) : bool := bool_decide (oc_kind o = Some KindSkipped).
Definition failure_count (l : list Outcome) : nat := length (List.filter (fun o => is_some (oc_error o) && negb (is_skip o)) l).
Definition skipped_count (l : list Outcome) : nat := length (List.filter is_skip l).
Definition had_failures (l : list Outcome) : bool := Nat.ltb 0 (failure_count l).

(** ** Invocations of a level *)

Record Unit_ := MkUnit {
  un_row : Row; un_record : option Value; un_state_key : string; un_key : option string; un_ctx : option Tuple; un_legacy : list string }.
Notation UnitKey := (string * option string)%type.
Definition unit_key (u : Unit_) : UnitKey := (row_id (un_row u), un_key u).

Section Options.
(** serde_json's text, the JSONPath evaluation, the text of an error and [{:?}] of a character. *)
Context (to_string : Value -> string) (extract : Value -> string -> option (list Value)) (error_text : CliError -> string)
  (debug_char : string -> Z -> string).
(** The run's names and settings. *)
Context (tenant : option string) (pipeline : string) (on_error : OnError) (order : DispatchOrder) (dry_run limited : bool).

Definition scope_key : StateKey := with_tenant tenant (pipeline_key pipeline).
Definition validate_unit_state_key (id : string) (uses_state : bool) (key : string) : result unit CliError :=
  if uses_state then match validate_state_key debug_char key with Ok _ => Ok tt | Err e => Err (InvalidStateKey id key e) end else Ok tt.
Definition check_unit_state_key (id : string) (uses_state : bool) (key : string) (seen : gset string) : result unit CliError * gset string :=
  match validate_unit_state_key id uses_state key with
  | Err e => (Err e, seen)
  | Ok _ => if bool_decide (key ∈ seen) then (Err (DuplicateStateKey id key), seen) else (Ok tt, {[key]} ∪ seen)
  end.
Definition check_parent_key (row parent_key : string) (value : option Value) (uses_state : bool) : result unit CliError :=
  let keyless := match value with None => true | Some Null => true | Some (VString s) => is_empty_str s | _ => false end in
  if uses_state && keyless then
    Err (CliConfig ("row '" +:+ row +:+ "': a parent record has no `" +:+ parent_key
      +:+ "` (missing, null or empty); a child that keeps state needs it to name its bookmark, so this invocation is skipped"))
  else Ok tt.
Definition child_state_keys (row : string) (parent : option Value) (fallback : string) : string * list string :=
  let key := with_row row scope_key in
  let key := match parent with Some v => with_parent_value to_string v key | None => with_parent_key fallback key end in
  (render key, legacy_renderings debug_char key).
Definition value_to_string_brief (v : Value) : string := match v with VString s => s | other => to_string other end.
(** [str::parse::<usize>]. *)
Fixpoint parse_digits (acc : Z) (s : string) : option Z :=
  match s with
  | EmptyString => Some acc
  | String c s => if is_ascii_digit c then let n := (acc * 10 + (byte_of c - 48))%Z in if (n <=? U64_MAX)%Z then parse_digits n s else None else None
  end.
Definition parse_usize (s : string) : option Z :=
  let s := match strip_prefix "+" s with Some r => r | None => s end in if is_empty_str s then None else parse_digits 0 s.
Definition step_into (cur : Value) (segment : string) : option Value :=
  match cur with
  | VObject m => assoc segment m
  | VArray a => parse_usize segment ≫= (fun i => a !! Z.to_nat i)
  | _ => None
  end.
Definition resolve_parent_key (record : Value) (parent_key : string) : option Value :=
  foldl (fun cur seg => cur ≫= (fun v => step_into v seg)) (Some record) (split_str "." parent_key).

(** *** Building the units *)

Definition refuse (id : string) (key : option string) (e : CliError) : Outcome := synthetic_outcome id key (error_text e) (classify_error e).
Definition refuse_other (id : string) (key : option string) (e : CliError) : Outcome := synthetic_outcome id key (error_text e) KindOther.
Notation Built := (list Unit_ * list Outcome)%type.
Definition root_units (r : Row) : Built :=
  let state_key := render (with_row (row_id r) scope_key) in
  match validate_unit_state_key (row_id r) (row_uses_state r) state_key with
  | Err e => ([], [refuse (row_id r) None e])
  | Ok _ => ([MkUnit r None state_key None None ((fun id => render (with_row id scope_key)) <$> row_legacy r)], [])
  end.
(** A failed check leaves the set of keys as it is; each record is decided in turn. *)
Fixpoint child_units (r : Row) (parent_key : string) (records : list Value) (seen : gset string) : Built :=
  match records with
  | [] => ([], [])
  | record :: records =>
      let pk_value := resolve_parent_key record parent_key in
      let pk_string := match pk_value with Some v => value_to_string_brief v | None => "(missing)" end in
      match check_parent_key (row_id r) parent_key pk_value (row_uses_state r) with
      | Err e => let '(us, os) := child_units r parent_key records seen in (us, refuse_other (row_id r) (Some pk_string) e :: os)
      | Ok _ =>
          let '(state_key, legacy) := child_state_keys (row_id r) pk_value pk_string in
          match check_unit_state_key (row_id r) (row_uses_state r) state_key seen with
          | (Err e, seen) => let '(us, os) := child_units r parent_key records seen in (us, refuse_other (row_id r) (Some pk_string) e :: os)
          | (Ok _, seen) => let '(us, os) := child_units r parent_key records seen in (MkUnit r (Some record) state_key (Some pk_string) None legacy :: us, os)
          end
      end
  end.
Fixpoint tuple_units (r : Row) (dims : list Dim) (tuples : list Tuple) (seen : gset string) : Built :=
  match tuples with
  | [] => ([], [])
  | ctx :: tuples =>
      let suffix := tuple_state_key_suffix to_string dims ctx in
      let state_key := render (with_sub suffix (with_row (row_id r) scope_key)) in
      match check_unit_state_key (row_id r) (row_uses_state r) state_key seen with
      | (Err e, seen) => let '(us, os) := tuple_units r dims tuples seen in (us, refuse_other (row_id r) (Some suffix) e :: os)
      | (Ok _, seen) => let '(us, os) := tuple_units r dims tuples seen in (MkUnit r None state_key (Some suffix) (Some ctx) [] :: us, os)
      end
  end.
Definition discovery_unit (r : Row) (dims : list Dim) (ctx : Tuple) : Unit_ :=
  let suffix := tuple_state_key_suffix to_string dims ctx in
  MkUnit r None (render (with_sub suffix (with_row (row_id r) scope_key))) (Some suffix) (Some ctx) [].
(** [Ok(None)] is a row that is skipped without an outcome. *)
Definition resolve_product_dims (dims : list string) (discovered : gmap string Dim) (id : string) : result (option (list Dim)) CliError :=
  match mapM (fun d => discovered !! d) dims with
  | None => Ok None
  | Some resolved =>
      let size := dims_product_size resolved in
      if (size =? 0)%Z then Ok None
      else if (MAX_MATRIX_PRODUCT <? size)%Z then Err (CliConfig ("matrix row '" +:+ id +:+ "': for_each cross-product is " +:+ to_string (of_u64 size)
        +:+ " invocations, over the limit of " +:+ to_string (of_u64 MAX_MATRIX_PRODUCT) +:+ " — narrow the discovery dimensions"))
      else Ok (Some resolved)
  end.

(** ** The state of a run *)

Record Data := MkData { dt_captured : gmap string (list Value); dt_discovered : gmap string Dim; dt_collected : gmap string CollectedDim }.
(** Building the units of one row: the units, the outcomes decided before anything runs, and whether
    the row joins the skipped ones. *)
Record Plan := MkPlan { pl_units : list Unit_; pl_pre : list Outcome; pl_skip : bool }.
Definition of_built (b : Built) : Plan := MkPlan b.1 b.2 false.
Definition skip_plan (id why : string) : Plan := MkPlan [] [synthetic_outcome id None why KindSkipped] true.
Definition fan_out (dims : list string) (data : Data) (id : string) (k : list Dim -> Built) : Plan :=
  match resolve_product_dims dims (dt_discovered data) id with
  | Ok (Some resolved) => of_built (k resolved)
  | Ok None => MkPlan [] [] true
  | Err e => MkPlan [] [refuse id None e] false
  end.
Definition plan_level_row (data : Data) (records : gmap string (list Value)) (skipped : gset string) (r : Row) : Plan :=
  let id := row_id r in
  match (match row_role r with ChildRow p _ => if bool_decide (p ∈ skipped) then Some p else None | _ => None end) with
  | Some p => skip_plan id ("skipped: parent row '" +:+ p +:+ "' failed or was skipped")
  | None =>
      match List.find (fun d => bool_decide (d ∈ skipped)) (row_depends_on r) with
      | Some d => skip_plan id ("skipped: depends_on row '" +:+ d +:+ "' failed or was skipped")
      | None =>
          match row_role r with
          | RootRow => of_built (root_units r)
          | DiscoveryRow _ _ _ [] => MkPlan [MkUnit r None (render (with_row id scope_key)) None None []] [] false
          | DiscoveryRow _ _ _ dims => fan_out dims data id (fun ds => (discovery_unit r ds <$> cartesian ds, []))
          | ProductRow dims collected =>
              fan_out dims data id (fun ds =>
                tuple_units r ds ((fun ctx => inject_collected to_string ctx (omap (fun c => dt_collected data !! c) collected)) <$> cartesian ds) ∅)
          | ChildRow p key => of_built (child_units r key (default [] (records !! p)) ∅)
          end
      end
  end.
(** The rows of a level in turn: a row skipped early skips the rows after it that need it. *)
Fixpoint plan_rows (data : Data) (records : gmap string (list Value)) (skipped : gset string) (ready : list Row) : list Unit_ * list Outcome * gset string :=
  match ready with
  | [] => ([], [], skipped)
  | r :: ready =>
      let p := plan_level_row data records skipped r in
      let '(us, os, skipped) := plan_rows data records (if pl_skip p then {[row_id r]} ∪ skipped else skipped) ready in
      (pl_units p ++ us, pl_pre p ++ os, skipped)
  end.

(** The records of the parents whose children run in this level. A parent's records are dropped
    when its last child is planned. *)
Definition take_records (s : gmap string (list Value) * gmap string (list Value) * gmap string nat) (r : Row) :
    gmap string (list Value) * gmap string (list Value) * gmap string nat :=
  match row_role r with
  | ChildRow p _ =>
      let '(snapshot, captured, pending) := s in
      let snapshot := match captured !! p with Some records => <[p := records]> snapshot | None => snapshot end in
      let left := (default 1 (pending !! p) - 1)%nat in
      (snapshot, if Nat.eqb left 0 then delete p captured else captured, <[p := left]> pending)
  | _ => s
  end.

(** *** Overwrite groups *)

(** What planning asks of outside: the resolved destination of a unit, and the one its sink
    reports. *)
Record Destinations := MkDestinations { ds_resolve : Unit_ -> result string CliError; ds_reported : string -> option string; ds_name : nat -> string }.
Record Groups := MkGroups { gr_members : list nat; gr_task : gmap UnitKey nat; gr_index : gmap string nat }.
Fixpoint plan_groups (d : Destinations) (many : bool) (units : list Unit_) (g : Groups) : Groups * list (UnitKey * CliError) :=
  match units with
  | [] => (g, [])
  | u :: units =>
      if negb (row_overwrite (un_row u)) then plan_groups d many units g
      else match ds_resolve d u with
      | Err e => let '(g, failed) := plan_groups d many units g in (g, (unit_key u, e) :: failed)
      | Ok key =>
          let uri_key := if many then ds_reported d key else None in
          let '(gi, members) := match option_or (gr_index g !! key) (uri_key ≫= (fun u => gr_index g !! u)) with
                                | Some gi => (gi, alter S gi (gr_members g))
                                | None => (length (gr_members g), gr_members g ++ [1%nat])
                                end in
          let index := <[key := gi]> (gr_index g) in
          let index := match uri_key with Some u => <[u := gi]> index | None => index end in
          plan_groups d many units (MkGroups members (<[unit_key u := gi]> (gr_task g)) index)
      end
  end.
Definition plan_overwrite_units (d : Destinations) (units : list Unit_) : Groups * list (UnitKey * CliError) :=
  plan_groups d (Nat.ltb 1 (length (List.filter (fun u => row_overwrite (un_row u)) units))) units (MkGroups [] ∅ ∅).

(** *** Running a level *)

(** What a task answers: the records it captured, or the pages a listing read, and its count. *)
Record Done := MkDone { dn_pages : list (list Value); dn_written : Z }.
Inductive Joined :=
| JFinished (task : nat) (a : result Done CliError)
| JPanicked (task : nat) (why : string)
| JAborted (task : nat)
| JGrace
| JCancel.
Inductive Finish := SinkNotBuilt (e : string) | Finished | FinishFailed (e : string).
Record LevelWorld := MkLevelWorld {
  lw_dest : Destinations; lw_begin : nat -> option string; lw_cancel : nat -> bool; lw_events : list Joined; lw_finish : nat -> Finish }.
(** An invocation is named by its level and its place in it. *)
Inductive Event :=
| TBegin (level group : nat) (ok : bool)
| TStart (level task : nat) (row : string) (group : option nat)
| TLeave (level task : nat) (row : string) (group : option nat)
| TEnd (level task : nat) (ok : bool)
| TCommit (level group : nat) (ok : bool)
| TDiscard (level group : nat).

(** The flags of the run and of the level, and what the level has marked. *)
Record Flags := MkFlags { fl_cancel : bool; fl_level : bool; fl_stop : bool; fl_aborted : bool }.
Record Marks := MkMarks { mk_failure : bool; mk_failed : gset string; mk_not_run : gset string; mk_groups : gset nat }.
Record Turn := MkTurn { tn_flags : Flags; tn_marks : Marks; tn_data : Data; tn_flight : gmap nat Unit_; tn_outcomes : list Outcome; tn_trace : list Event }.
Definition level_cancelled (f : Flags) : bool := fl_level f || fl_cancel f.
Definition mark_failed (id : string) (group : option nat) (m : Marks) : Marks :=
  MkMarks true ({[id]} ∪ mk_failed m) (mk_not_run m) (match group with Some g => {[g]} ∪ mk_groups m | None => mk_groups m end).
Definition mark_not_run (id : string) (m : Marks) : Marks := MkMarks (mk_failure m) (mk_failed m) ({[id]} ∪ mk_not_run m) (mk_groups m).

(** A row's outcome, and what it publishes. *)
Definition publish (r : Row) (ctx : option Tuple) (captures : bool) (d : Done) (data : Data) : Data :=
  match row_role r with
  | DiscoveryRow select alias collect dims =>
      let values := pj_values (acc_finish (foldl (acc_push extract to_string) (acc_new extract select) (dn_pages d))) in
      if collect then
        let entry := default (MkCollectedDim (row_id r) alias dims ∅) (dt_collected data !! row_id r) in
        let key := collected_tuple_key to_string dims (default ∅ ctx) in
        MkData (dt_captured data) (dt_discovered data)
          (<[row_id r := MkCollectedDim (cd_id entry) (cd_alias entry) (cd_dims entry) (<[key := values]> (cd_by_tuple entry))]> (dt_collected data))
      else MkData (dt_captured data) (<[row_id r := MkDim (row_id r) alias values]> (dt_discovered data)) (dt_collected data)
  | _ =>
      if captures then
        MkData (<[row_id r := default [] (dt_captured data !! row_id r) ++ concat (dn_pages d)]> (dt_captured data)) (dt_discovered data) (dt_collected data)
      else data
  end.
Definition is_discovery (r : Row) : bool := match row_role r with DiscoveryRow _ _ _ _ => true | _ => false end.
Definition finish_unit (u : Unit_) (captures cancelled : bool) (a : result Done CliError) (data : Data) : Outcome * Data :=
  let id := row_id (un_row u) in
  let key := if is_discovery (un_row u) then None else un_key u in
  match a with
  | Ok d => (MkOutcome id key (if is_discovery (un_row u) then 0 else dn_written d) None None, publish (un_row u) (un_ctx u) captures d data)
  | Err e =>
      let stopped := is_discovery (un_row u) && cancelled && match e with CliFaucet (Cancelled _) => true | _ => false end in
      (MkOutcome id key 0 (Some (error_text e)) (Some (if stopped then KindSkipped else classify_error e)), data)
  end.

Definition STOPPED_BEFORE_START : string := "skipped: `on_error: stop` ended the run before this row started".
Definition CANCELLED_BEFORE_START : string := "skipped: the run was cancelled before this row started".
Definition stops : bool := bool_decide (on_error = Stop).

Section Level.
Context (rows : list Row) (lvl : nat) (w : LevelWorld) (groups : Groups) (begin_failed : gmap nat string).
Definition has_children (id : string) : bool :=
  existsb (fun r => match row_role r with ChildRow p _ => string_eqb p id | _ => false end) rows.
Definition group_of (k : UnitKey) : option nat := gr_task groups !! k.

(** One unit of the spawn loop. *)
Definition spawn (t : Turn) (iu : nat * Unit_) : Turn :=
  let '(i, u) := iu in
  let f := tn_flags t in
  let f := MkFlags (fl_cancel f || lw_cancel w i) (fl_level f) (fl_stop f) (fl_aborted f) in
  let id := row_id (un_row u) in
  let leave m o := MkTurn f m (tn_data t) (tn_flight t) (tn_outcomes t ++ [o]) (tn_trace t ++ [TLeave lvl i id (group_of (unit_key u))]) in
  if level_cancelled f && stops then
    leave (mark_not_run id (tn_marks t))
      (synthetic_outcome id (un_key u) (if fl_cancel f then CANCELLED_BEFORE_START else STOPPED_BEFORE_START) KindSkipped)
  else
    match group_of (unit_key u) ≫= (fun g => begin_failed !! g) with
    | Some e => leave (mark_failed id None (tn_marks t)) (synthetic_outcome id (un_key u) e KindOther)
    | None =>
        MkTurn f (tn_marks t) (tn_data t) (<[i := u]> (tn_flight t)) (tn_outcomes t)
          (tn_trace t ++ [TStart lvl i id (group_of (unit_key u))])
    end.

(** The end of a task. The first failure of a level cancels it under [Stop]. *)
Definition end_task (t : Turn) (i : nat) (o : Outcome) (data : Data) : Turn :=
  let f := tn_flags t in
  let failed := is_some (oc_error o) in
  MkTurn (if failed && stops && negb (fl_stop f) then MkFlags (fl_cancel f) true true (fl_aborted f) else f)
    (if failed then mark_failed (oc_row o) (group_of (oc_row o, oc_key o)) (tn_marks t) else tn_marks t)
    data (delete i (tn_flight t)) (tn_outcomes t ++ [o]) (tn_trace t ++ [TEnd lvl i (negb failed)]).
Definition join_step (t : Turn) (ev : Joined) : Turn :=
  let f := tn_flags t in
  match ev with
  | JCancel => MkTurn (MkFlags true (fl_level f) (fl_stop f) (fl_aborted f)) (tn_marks t) (tn_data t) (tn_flight t) (tn_outcomes t) (tn_trace t)
  | JGrace =>
      MkTurn (MkFlags (fl_cancel f) (fl_level f) (fl_stop f) (fl_stop f)) (tn_marks t) (tn_data t) (tn_flight t) (tn_outcomes t) (tn_trace t)
  | JFinished i a =>
      match tn_flight t !! i with
      | Some u => let '(o, data) := finish_unit u (has_children (row_id (un_row u))) (level_cancelled f) a (tn_data t) in end_task t i o data
      | None => t
      end
  | JPanicked i why =>
      match tn_flight t !! i with
      | Some u => end_task t i (MkOutcome (row_id (un_row u)) (un_key u) 0 (Some ("pipeline invocation task panicked: " +:+ why)) None) (tn_data t)
      | None => t
      end
  | JAborted i =>
      match tn_flight t !! i with
      | Some u =>
          if fl_aborted f then
            MkTurn f (mark_not_run (row_id (un_row u)) (tn_marks t)) (tn_data t) (delete i (tn_flight t))
              (tn_outcomes t ++ [synthetic_outcome (row_id (un_row u)) (un_key u) "skipped: aborted by `on_error: stop` before it finished" KindSkipped])
              (tn_trace t ++ [TEnd lvl i false])
          else t
      | None => t
      end
  end.

(** The end of the groups: every group is swapped or discarded once, unless its sink cannot be
    built. *)
Definition must_abort (t : Turn) (g : nat) : bool := level_cancelled (tn_flags t) || bool_decide (g ∈ mk_groups (tn_marks t)) || limited.
Definition finish_group (t : Turn) (s : gmap nat string * list Event) (g : nat) : gmap nat string * list Event :=
  let '(unswapped, trace) := s in
  let dest := ds_name (lw_dest w) g in
  match lw_finish w g with
  | SinkNotBuilt e => (<[g := "overwrite: finishing destination '" +:+ dest +:+ "': " +:+ e]> unswapped, trace)
  | ans =>
      if must_abort t g then
        (if bool_decide (g ∈ mk_groups (tn_marks t)) && negb (is_some (begin_failed !! g)) then
           <[g := "overwrite of '" +:+ dest +:+ "' aborted because another invocation of the group failed; the destination is unchanged"]> unswapped
         else if level_cancelled (tn_flags t) && negb limited then
           <[g := "overwrite of '" +:+ dest +:+ "' discarded because the run was stopped or cancelled before the group finished; the destination is unchanged"]> unswapped
         else unswapped, trace ++ [TDiscard lvl g])
      else
        match ans with
        | FinishFailed e => (<[g := "overwrite: swapping destination '" +:+ dest +:+ "' into place: " +:+ e]> unswapped, trace ++ [TCommit lvl g false])
        | _ => (unswapped, trace ++ [TCommit lvl g true])
        end
  end.
(** An invocation of a group that was not swapped has failed after all. *)
Definition unswapped_message (unswapped : gmap nat string) (o : Outcome) : option string :=
  if is_some (oc_error o) then None else group_of (oc_row o, oc_key o) ≫= (fun g => unswapped !! g).
Definition fail_unswapped (unswapped : gmap nat string) (om : list Outcome * Marks) (o : Outcome) : list Outcome * Marks :=
  match unswapped_message unswapped o with
  | Some msg => (om.1 ++ [MkOutcome (oc_row o) (oc_key o) (oc_written o) (Some msg) (Some KindOther)], mark_failed (oc_row o) None om.2)
  | None => (om.1 ++ [o], om.2)
  end.
End Level.

(** ** Levels and runs *)

Record Exec := MkExec {
  ex_remaining : gset string; ex_completed : gset string; ex_skipped : gset string; ex_pending : gmap string nat; ex_data : Data;
  ex_cancel : bool; ex_level : nat; ex_outcomes : list Outcome; ex_trace : list Event }.
Inductive Status := Running | Summary | DeadlockError (stuck : list string) | Hanging.

Section Run.
(** The rows, in the order of their index. *)
Context (rows : list Row).
Definition children_ids (id : string) : list string :=
  omap (fun r => match row_role r with ChildRow p _ => if string_eqb p id then Some (row_id r) else None | _ => None end) rows.
Definition row_settled (x : Exec) (id : string) : bool := bool_decide (id ∈ ex_completed x) || bool_decide (id ∈ ex_skipped x).
Definition is_ready (x : Exec) (r : Row) : bool :=
  bool_decide (row_id r ∈ ex_remaining x)
  && match row_role r with ChildRow p _ => row_settled x p | _ => true end
  && forallb (row_settled x) (row_depends_on r).
(** [order_ready]: a stable sort, heaviest first, rows without a weight last. *)
Definition dispatched_before (a b : Row) : bool :=
  match row_weight a, row_weight b with Some x, Some y => (y <? x)%Z | Some _, None => true | _, _ => false end.
Fixpoint insert_ready (r : Row) (l : list Row) : list Row :=
  match l with [] => [r] | s :: l' => if dispatched_before r s then r :: l else s :: insert_ready r l' end.
Definition order_ready (ready : list Row) : list Row :=
  match order with Declared => ready | Lpt => foldl (fun l r => insert_ready r l) [] ready end.
Definition ready_rows (x : Exec) : list Row := order_ready (List.filter (is_ready x) rows).

(** The outcomes decided before anything runs. *)
Definition pre_marks (m : Marks) (o : Outcome) : Marks := if is_skip o then m else mark_failed (oc_row o) None m.
Definition mark_done (m : Marks) (x : gset string * gset string * gset string) (r : Row) : gset string * gset string * gset string :=
  let '(remaining, completed, skipped) := x in
  let id := row_id r in
  if bool_decide (id ∈ mk_failed m) || bool_decide (id ∈ mk_not_run m)
  then (remaining ∖ {[id]}, completed, list_to_set (children_ids id) ∪ ({[id]} ∪ skipped))
  else (remaining ∖ {[id]}, {[id]} ∪ completed, skipped).

(** A level up to the spawning of its tasks. *)
Record Opening := MkOpening {
  op_units : list Unit_; op_groups : Groups; op_begin_failed : gmap nat string; op_pre : list Outcome; op_skipped : gset string;
  op_captured : gmap string (list Value); op_pending : gmap string nat }.
Definition open_level (w : LevelWorld) (x : Exec) (ready : list Row) : Opening :=
  let '(records, captured, pending) := foldl take_records (∅, dt_captured (ex_data x), ex_pending x) ready in
  let '(units, pre, skipped) := plan_rows (ex_data x) records (ex_skipped x) ready in
  let '(groups, failed) := if dry_run then (MkGroups [] ∅ ∅, []) else plan_overwrite_units (lw_dest w) units in
  let units := List.filter (fun u => negb (existsb (fun f => bool_decide (f.1 = unit_key u)) failed)) units in
  let pre := pre ++ ((fun f => refuse f.1.1 f.1.2 f.2) <$> failed) in
  let begin_failed := foldl (fun (m : gmap nat string) g =>
    match lw_begin w g with Some e => <[g := "overwrite: preparing destination '" +:+ ds_name (lw_dest w) g +:+ "': " +:+ e]> m | None => m end)
    ∅ (seq 0 (length (gr_members groups))) in
  MkOpening units groups begin_failed pre skipped captured pending.
Definition begin_events (lvl : nat) (o : Opening) : list Event :=
  (fun g => TBegin lvl g (is_none (op_begin_failed o !! g))) <$> seq 0 (length (gr_members (op_groups o))).
(** The tasks of a level: spawned in order, then joined as they end. *)
Definition run_tasks (w : LevelWorld) (x : Exec) (o : Opening) : Turn :=
  let m := foldl pre_marks (MkMarks false ∅ ∅ (dom (op_begin_failed o))) (op_pre o) in
  let data := MkData (op_captured o) (dt_discovered (ex_data x)) (dt_collected (ex_data x)) in
  let t := MkTurn (MkFlags (ex_cancel x) (mk_failure m && stops) false false) m data ∅ (ex_outcomes x ++ op_pre o)
    (ex_trace x ++ begin_events (ex_level x) o) in
  let t := foldl (spawn (ex_level x) w (op_groups o) (op_begin_failed o)) t (imap pair (op_units o)) in
  foldl (join_step rows (ex_level x) (op_groups o)) t (lw_events w).
Definition close_level (w : LevelWorld) (x : Exec) (ready : list Row) (o : Opening) (t : Turn) : Exec * Status :=
  let '(unswapped, trace) :=
    foldl (finish_group (ex_level x) w (op_begin_failed o) t) (∅, tn_trace t) (seq 0 (length (gr_members (op_groups o)))) in
  let '(outcomes, m) := foldl (fail_unswapped (op_groups o) unswapped) ([], tn_marks t) (tn_outcomes t) in
  let '(remaining, completed, skipped) := foldl (mark_done m) (ex_remaining x, ex_completed x, op_skipped o) ready in
  let halt := mk_failure m && stops in
  let outcomes := if halt then outcomes ++ ((fun r => synthetic_outcome (row_id r) None STOPPED_BEFORE_START KindSkipped)
                                             <$> List.filter (fun r => bool_decide (row_id r ∈ remaining)) rows) else outcomes in
  (MkExec remaining completed skipped (op_pending o) (tn_data t) (fl_cancel (tn_flags t)) (S (ex_level x)) outcomes trace,
   if halt then Summary else Running).
(** A level whose tasks have not all ended is still hanging. *)
Definition run_level (w : LevelWorld) (x : Exec) : Exec * Status :=
  let ready := ready_rows x in
  if is_nil ready then (x, DeadlockError (ordered_set String.compare (elements (ex_remaining x))))
  else
    let o := open_level w x ready in
    let t := run_tasks w x o in
    if bool_decide (tn_flight t = ∅) then close_level w x ready o t
    else (MkExec (ex_remaining x) (ex_completed x) (op_skipped o) (op_pending o) (tn_data t) (fl_cancel (tn_flags t)) (ex_level x) (tn_outcomes t) (tn_trace t), Hanging).
Fixpoint run_levels (ws : list LevelWorld) (x : Exec) : Exec * Status :=
  if bool_decide (ex_remaining x = ∅) then (x, Summary)
  else
    match ws with
    | [] => (x, Running)
    | w :: ws => match run_level w x with (x, Running) => run_levels ws x | r => r end
    end.
Definition pending_children : gmap string nat :=
  list_to_map ((fun p => (p, length (children_ids p))) <$> retain_new [] (omap (fun r => match row_role r with ChildRow p _ => Some p | _ => None end) rows)).
Definition start_run (cancelled : bool) : Exec :=
  MkExec (list_to_set (row_id <$> rows)) ∅ ∅ pending_children (MkData ∅ ∅ ∅) cancelled 0 [] [].
Definition run_expanded (cancelled : bool) (ws : list LevelWorld) : Exec * Status := run_levels ws (start_run cancelled).

(** ** The order of the rows *)

(** What a row waits for. *)
Definition prerequisites (r : Row) : list string :=
  match row_role r with ChildRow p _ => [p] | _ => [] end ++ row_depends_on r.
Definition event_level (e : Event) : nat :=
  match e with TBegin l _ _ | TStart l _ _ _ | TLeave l _ _ _ | TEnd l _ _ | TCommit l _ _ | TDiscard l _ => l end.

(** *** One level *)

Section OneLevel.
Context (lvl : nat) (w : LevelWorld) (groups : Groups) (begin_failed : gmap nat string).
(** What was there before, the rows of the level, those with a unit, and those it has skipped. *)
Context (T0 : list Event) (O0 : list Outcome) (ready : gset string) (started : gset string) (skipped : gset string).

Definition broken (t : Turn) (r : string) : Prop := r ∈ mk_failed (tn_marks t) \/ r ∈ mk_not_run (tn_marks t).
Definition spoiled (t : Turn) (g : option nat) : Prop :=
  match g with Some g => g ∈ mk_groups (tn_marks t) \/ level_cancelled (tn_flags t) = true | None => True end.
(** An invocation that was started is in flight, has ended well, or has marked its row and group. *)
Definition task_accounted (t : Turn) (E : list Event) (i : nat) (r : string) (g : option nat) : Prop :=
  (exists u, tn_flight t !! i = Some u /\ row_id (un_row u) = r /\ group_of groups (unit_key u) = g)
  \/ TEnd lvl i true ∈ E \/ (broken t r /\ spoiled t g).
Record turn_ok (n : nat) (t : Turn) (E : list Event) : Prop := {
  to_trace : tn_trace t = T0 ++ E;
  to_level : forall e, e ∈ E -> event_level e = lvl;
  to_start : forall l i r g, TStart l i r g ∈ E -> r ∈ started /\ (i < n)%nat /\ task_accounted t E i r g;
  to_leave : forall l i r g, TLeave l i r g ∈ E -> spoiled t g;
  to_quiet : forall e, e ∈ E -> match e with TCommit _ _ _ | TDiscard _ _ => False | _ => True end;
  to_flight : forall i u, tn_flight t !! i = Some u -> (i < n)%nat /\ row_id (un_row u) ∈ ready /\ (is_discovery (un_row u) = true -> group_of groups (unit_key u) = None);
  to_outcome : forall o, o ∈ tn_outcomes t -> o ∈ O0 \/ oc_row o ∈ ready;
  to_error : forall o, o ∈ tn_outcomes t -> oc_error o <> None -> o ∈ O0 \/ broken t (oc_row o) \/ oc_row o ∈ skipped;
  to_begin : dom begin_failed ⊆ mk_groups (tn_marks t);
  to_aborted : fl_aborted (tn_flags t) = true -> fl_stop (tn_flags t) = true;
  to_stop : fl_stop (tn_flags t) = true -> fl_level (tn_flags t) = true }.

(** Marks and flags only grow. *)
Definition later (t t' : Turn) : Prop :=
  mk_failed (tn_marks t) ⊆ mk_failed (tn_marks t') /\ mk_not_run (tn_marks t) ⊆ mk_not_run (tn_marks t')
  /\ mk_groups (tn_marks t) ⊆ mk_groups (tn_marks t')
  /\ (level_cancelled (tn_flags t) = true -> level_cancelled (tn_flags t') = true).
Lemma broken_later t t' r : later t t' -> broken t r -> broken t' r.
Proof. intros (F & N & _) [H|H]; [left; by apply F|right; by apply N]. Qed.
Lemma spoiled_later t t' g : later t t' -> spoiled t g -> spoiled t' g.
Proof. intros (_ & _ & G & C). destruct g as [g|]; [|done]. intros [H|H]; [left; by apply G|right; by apply C]. Qed.
Lemma task_accounted_later t t' E e i r g : later t t' ->
  (forall u, tn_flight t !! i = Some u -> row_id (un_row u) = r -> group_of groups (unit_key u) = g -> task_accounted t' (E ++ e) i r g) ->
  task_accounted t E i r g -> task_accounted t' (E ++ e) i r g.
Proof.
  intros Hl Hf [(u & Hu & Hr & Hg)|[H|[Hb Hs]]]; [by eapply Hf|right; left; apply elem_of_app; by left|right; right].
  split; [by eapply broken_later|by eapply spoiled_later].
Qed.
Lemma mark_failed_later t t' id g : tn_marks t' = mark_failed id g (tn_marks t) -> tn_flags t' = tn_flags t -> later t t'.
Proof.
  intros Hm Hf. unfold later. rewrite Hm, Hf. cbn [mark_failed mk_failed mk_not_run mk_groups].
  repeat split; [apply union_subseteq_r|done| |done]. destruct g; [apply union_subseteq_r|done].
Qed.
Lemma elem_snoc {A} (x a : A) l : x ∈ l ++ [a] <-> x ∈ l \/ x = a.
Proof. by rewrite elem_of_app, list_elem_of_singleton. Qed.

(** A unit that is left out. *)
Lemma leave_ok n t E u f m o :
  let t' := MkTurn f m (tn_data t) (tn_flight t) (tn_outcomes t ++ [o]) (tn_trace t ++ [TLeave lvl n (row_id (un_row u)) (group_of groups (unit_key u))]) in
  turn_ok n t E -> row_id (un_row u) ∈ ready -> later t t' -> oc_row o = row_id (un_row u) -> broken t' (oc_row o) ->
  spoiled t' (group_of groups (unit_key u)) -> fl_level f = fl_level (tn_flags t) -> fl_stop f = fl_stop (tn_flags t) -> fl_aborted f = fl_aborted (tn_flags t) ->
  turn_ok (S n) t' (E ++ [TLeave lvl n (row_id (un_row u)) (group_of groups (unit_key u))]).
Proof.
  intros t' [Ht Hlv Hst Hle Hq Hfl Ho He Hb Ha Hs] Hr Hl Hor Hoe Hsp F1 F2 F3. split; cbn [t' tn_trace tn_flight tn_outcomes tn_marks tn_flags].
  - by rewrite Ht, app_assoc.
  - intros e [He'| ->]%elem_snoc; [by apply Hlv|done].
  - intros l i r g [Hi|]%elem_snoc; [|done]. apply Hst in Hi as (R & L & A). split; [done|]. split; [lia|].
    apply (task_accounted_later t); [done| |done]. intros v Hv Hvr Hvg. left. by exists v.
  - intros l i r g [Hi|[= _ _ _ ->]]%elem_snoc; [apply Hle in Hi; by eapply spoiled_later|done].
  - intros e [He'| ->]%elem_snoc; [by apply Hq|done].
  - intros i v Hv. apply Hfl in Hv as (L & R). by split; [lia|].
  - intros o' [Ho'| ->]%elem_snoc; [by apply Ho|right; by rewrite Hor].
  - intros o' [Ho'| ->]%elem_snoc Herr; [|by right; left]. destruct (He o' Ho' Herr) as [|[|]]; [by left|right; left; by eapply broken_later|by do 2 right].
  - etrans; [exact Hb|apply Hl].
  - by rewrite F2, F3.
  - by rewrite F1, F2.
Qed.
(** A unit that is started. *)
Lemma started_ok n t E u c :
  let f := MkFlags c (fl_level (tn_flags t)) (fl_stop (tn_flags t)) (fl_aborted (tn_flags t)) in
  let e := TStart lvl n (row_id (un_row u)) (group_of groups (unit_key u)) in
  turn_ok n t E -> row_id (un_row u) ∈ ready -> row_id (un_row u) ∈ started ->
  (is_discovery (un_row u) = true -> group_of groups (unit_key u) = None) ->
  (fl_cancel (tn_flags t) = true -> c = true) ->
  turn_ok (S n) (MkTurn f (tn_marks t) (tn_data t) (<[n := u]> (tn_flight t)) (tn_outcomes t) (tn_trace t ++ [e])) (E ++ [e]).
Proof.
  intros f e [Ht Hlv Hst Hle Hq Hfl Ho He Hb Ha Hs] Hr Hw Hd Hc. set (t' := MkTurn _ _ _ _ _ _).
  assert (later t t') as Hl.
  { repeat split; [done..|]. unfold level_cancelled. cbn. intros [-> |H]%orb_true_iff; [done|]. by rewrite Hc, orb_true_r. }
  split; cbn [t' tn_trace tn_flight tn_outcomes tn_marks tn_flags].
  - by rewrite Ht, app_assoc.
  - intros x [He'| ->]%elem_snoc; [by apply Hlv|done].
  - intros l i r g [Hi|[= _ -> -> ->]]%elem_snoc.
    + apply Hst in Hi as (R & L & A). split; [done|]. split; [lia|]. apply (task_accounted_later t); [done| |done].
      intros v Hv Hvr Hvg. left. exists v. cbn. rewrite lookup_insert_ne by lia. done.
    + split; [done|]. split; [lia|]. left. exists u. cbn. by rewrite lookup_insert_eq.
  - intros l i r g [Hi|]%elem_snoc; [|done]. apply (spoiled_later t); [done|by eapply Hle].
  - intros x [He'| ->]%elem_snoc; [by apply Hq|done].
  - intros i v. rewrite lookup_insert_Some. intros [[<- <-]|[_ Hv]]; [by split; [lia|]|]. apply Hfl in Hv as (L & R). by split; [lia|].
  - done.
  - done.
  - done.
  - done.
  - done.
Qed.
Lemma spawn_ok n t E u :
  turn_ok n t E -> row_id (un_row u) ∈ ready -> row_id (un_row u) ∈ started ->
  (is_discovery (un_row u) = true -> group_of groups (unit_key u) = None) ->
  exists e, turn_ok (S n) (spawn lvl w groups begin_failed t (n, u)) (E ++ e).
Proof.
  intros H Hr Hw Hd. unfold spawn. set (f' := MkFlags _ _ _ _).
  assert (level_cancelled (tn_flags t) = true -> level_cancelled f' = true) as Hc
    by (unfold level_cancelled; cbn; intros [-> | ->]%orb_true_iff; by rewrite ?orb_true_r).
  destruct (level_cancelled f' && stops) eqn:Hstop; [|destruct (group_of groups (unit_key u) ≫= (fun g => begin_failed !! g)) as [err|] eqn:Hg].
  - eexists. apply andb_true_iff in Hstop as [Hlc _]. apply leave_ok; [done|done| |done| | |done..].
    + unfold later. cbn. repeat split; [done|apply union_subseteq_r|done|done].
    + right. cbn. by apply elem_of_union_l, elem_of_singleton.
    + unfold spoiled. destruct (group_of _ _); [by right|done].
  - eexists. apply leave_ok; [done|done| |done| | |done..].
    + unfold later. cbn. repeat split; [apply union_subseteq_r|done|done|done].
    + left. cbn. by apply elem_of_union_l, elem_of_singleton.
    + unfold spoiled. destruct (group_of _ _) as [g|]; [|done]. left. cbn. apply (to_begin _ _ _ H), elem_of_dom. cbn in Hg. by rewrite Hg.
  - eexists. apply started_ok; [done|done|done|done|]. by intros ->.
Qed.

(** The end of a task: well, or with its row and group marked. *)
Lemma end_ok n t E i u f m data o ok :
  let t' := MkTurn f m data (delete i (tn_flight t)) (tn_outcomes t ++ [o]) (tn_trace t ++ [TEnd lvl i ok]) in
  turn_ok n t E -> tn_flight t !! i = Some u -> later t t' -> oc_row o = row_id (un_row u) ->
  (if ok then oc_error o = None else broken t' (oc_row o) /\ spoiled t' (group_of groups (unit_key u))) ->
  (fl_aborted f = true -> fl_stop f = true) -> (fl_stop f = true -> fl_level f = true) ->
  turn_ok n t' (E ++ [TEnd lvl i ok]).
Proof.
  intros t' [Ht Hlv Hst Hle Hq Hfl Ho He Hb Ha Hs] Hu Hl Hor Hok F1 F2. split; cbn [t' tn_trace tn_flight tn_outcomes tn_marks tn_flags].
  - by rewrite Ht, app_assoc.
  - intros e [He'| ->]%elem_snoc; [by apply Hlv|done].
  - intros l j r g [Hi|]%elem_snoc; [|done]. apply Hst in Hi as (R & L & A). split; [done|]. split; [done|].
    apply (task_accounted_later t); [done| |done]. intros v Hv Hvr Hvg. destruct (decide (j = i)) as [->|Hne].
    + rewrite Hu in Hv. injection Hv as <-. right. destruct ok; [left; apply elem_snoc; by right|right]. by rewrite <- Hvr, <- Hvg, <- Hor.
    + left. exists v. cbn. by rewrite lookup_delete_ne.
  - intros l j r g [Hi|]%elem_snoc; [|done]. apply Hle in Hi. by eapply spoiled_later.
  - intros e [He'| ->]%elem_snoc; [by apply Hq|done].
  - intros j v [_ Hv]%lookup_delete_Some. by apply Hfl in Hv.
  - intros o' [Ho'| ->]%elem_snoc; [by apply Ho|]. right. rewrite Hor. by apply Hfl in Hu as (_ & R & _).
  - intros o' [Ho'| ->]%elem_snoc Herr; [|destruct ok; [done|by right; left; apply Hok]].
    destruct (He o' Ho' Herr) as [|[|]]; [by left|right; left; by eapply broken_later|by do 2 right].
  - etrans; [exact Hb|apply Hl].
  - done.
  - done.
Qed.
Lemma end_task_ok n t E i u o data : turn_ok n t E -> tn_flight t !! i = Some u -> oc_row o = row_id (un_row u) ->
  (group_of groups (oc_row o, oc_key o) = group_of groups (unit_key u) \/ group_of groups (unit_key u) = None) ->
  exists e, turn_ok n (end_task lvl groups t i o data) (E ++ e).
Proof.
  intros H Hu Hor Hg. unfold end_task. destruct (is_some (oc_error o)) eqn:Hf; cbn [negb andb]; eexists.
  - apply end_ok with (u := u); [done|done| |done| | |].
    + unfold later. cbn. repeat split; [apply union_subseteq_r|done|by destruct (group_of _ _); [apply union_subseteq_r|]|].
      destruct (stops && negb _); [done|done].
    + split; [left; cbn; by apply elem_of_union_l, elem_of_singleton|]. unfold spoiled. destruct (group_of groups (unit_key u)) as [g|] eqn:Eg; [|done].
      destruct Hg as [-> |]; [|done]. left. cbn. by apply elem_of_union_l, elem_of_singleton.
    + pose proof (to_aborted _ _ _ H). destruct (stops && negb _); [done|done].
    + pose proof (to_stop _ _ _ H). destruct (stops && negb _); [done|done].
  - apply end_ok with (u := u); [done|done|by repeat split|done| |apply (to_aborted _ _ _ H)|apply (to_stop _ _ _ H)]. by destruct (oc_error o).
Qed.
Lemma flags_ok n t E f : let t' := MkTurn f (tn_marks t) (tn_data t) (tn_flight t) (tn_outcomes t) (tn_trace t) in
  turn_ok n t E -> later t t' -> (fl_aborted f = true -> fl_stop f = true) -> (fl_stop f = true -> fl_level f = true) -> turn_ok n t' E.
Proof.
  intros t' [Ht Hlv Hst Hle Hq Hfl Ho He Hb Ha Hs] Hl F1 F2. split; try done.
  - intros l i r g Hi. apply Hst in Hi as (R & L & A). split; [done|]. split; [done|]. rewrite <- (app_nil_r E).
    apply (task_accounted_later t); [done| |done]. intros v Hv Hvr Hvg. left. by exists v.
  - intros l i r g Hi. apply Hle in Hi. by eapply spoiled_later.
Qed.
Lemma join_step_ok n t E ev : turn_ok n t E -> exists e, turn_ok n (join_step rows lvl groups t ev) (E ++ e).
Proof.
  intros H. assert (exists e, turn_ok n t (E ++ e)) as Hsame by (exists []; by rewrite app_nil_r). destruct ev as [i a|i why|i| |]; cbn [join_step].
  - destruct (tn_flight t !! i) as [u|] eqn:Hu; [|done]. pose proof (to_flight _ _ _ H i u Hu) as (_ & _ & Hd).
    destruct (finish_unit _ _ _ _ _) as [o data] eqn:Hfin. apply end_task_ok with (u := u); [done|done| |].
    + unfold finish_unit in Hfin. by destruct a; injection Hfin as <- <-.
    + unfold finish_unit in Hfin. unfold unit_key. destruct (is_discovery (un_row u)); [right; by apply Hd|left].
      by destruct a; injection Hfin as <- <-.
  - destruct (tn_flight t !! i) as [u|] eqn:Hu; [|done]. apply end_task_ok with (u := u); [done|done|done|by left].
  - destruct (tn_flight t !! i) as [u|] eqn:Hu; [|done]. destruct (fl_aborted (tn_flags t)) eqn:Hab; [|done].
    pose proof (to_aborted _ _ _ H) as Ha. pose proof (to_stop _ _ _ H) as Hs.
    eexists. apply end_ok with (u := u); [done|done| |done| |done|done].
    + unfold later. cbn. repeat split; [done|apply union_subseteq_r|done|done].
    + split; [right; cbn; by apply elem_of_union_l, elem_of_singleton|]. unfold spoiled. destruct (group_of _ _); [|done]. right.
      unfold level_cancelled. cbn. by rewrite Hs by auto.
  - exists []. rewrite app_nil_r. apply flags_ok; [done|by repeat split|done|apply (to_stop _ _ _ H)].
  - exists []. rewrite app_nil_r. apply flags_ok; [done| |apply (to_aborted _ _ _ H)|apply (to_stop _ _ _ H)].
    repeat split; [done..|]. unfold level_cancelled. cbn. by rewrite orb_true_r.
Qed.
Lemma joins_ok n t E evs : turn_ok n t E -> exists e, turn_ok n (foldl (join_step rows lvl groups) t evs) (E ++ e).
Proof.
  revert t E. induction evs as [|ev evs IH]; intros t E H; cbn [foldl]; [exists []; by rewrite app_nil_r|].
  destruct (join_step_ok n t E ev H) as [e1 H1]. destruct (IH _ _ H1) as [e2 H2]. exists (e1 ++ e2). by rewrite app_assoc.
Qed.
Lemma spawns_ok t E us : turn_ok 0 t E -> 
  (forall u, u ∈ us -> row_id (un_row u) ∈ ready /\ row_id (un_row u) ∈ started /\ (is_discovery (un_row u) = true -> group_of groups (unit_key u) = None)) ->
  exists e, turn_ok (length us) (foldl (spawn lvl w groups begin_failed) t (imap pair us)) (E ++ e).
Proof.
  intros H. induction us as [|u us IH] using rev_ind; intros Hus; [exists []; by rewrite app_nil_r|].
  destruct IH as [e1 H1]; [intros v Hv; apply Hus, elem_snoc; by left|]. rewrite imap_app, foldl_app. cbn [imap foldl].
  destruct (spawn_ok _ _ _ u H1) as [e2 H2]; [apply Hus, elem_snoc; by right..|]. exists (e1 ++ e2). rewrite app_assoc, length_app.
  cbn [length]. rewrite Nat.add_1_r. by rewrite Nat.add_0_r.
Qed.
End OneLevel.

(** *** Planning *)

Lemma classify_not_skipped e : classify_error e <> KindSkipped.
Proof. destruct e as [[]| | | | | | |]; done. Qed.
Lemma refuse_not_skip id key e : is_skip (refuse id key e) = false.
Proof. unfold is_skip, refuse. cbn. apply bool_decide_eq_false. intros [= H]. by apply classify_not_skipped in H. Qed.
Definition built_for (r : Row) (b : Built) : Prop :=
  (forall u, u ∈ b.1 -> un_row u = r) /\ (forall o, o ∈ b.2 -> oc_row o = row_id r /\ is_skip o = false /\ oc_error o <> None).
Lemma built_cons_unit r u b : un_row u = r -> built_for r b -> built_for r (u :: b.1, b.2).
Proof. intros Hu [H1 H2]. split; [intros v [-> |Hv]%elem_of_cons; [done|by apply H1]|done]. Qed.
Lemma built_cons_refusal r o b : oc_row o = row_id r -> is_skip o = false -> oc_error o <> None -> built_for r b -> built_for r (b.1, o :: b.2).
Proof. intros Ho Hs He [H1 H2]. split; [done|]. intros v [-> |Hv]%elem_of_cons; [done|by apply H2]. Qed.
Lemma built_nil r : built_for r ([], []).
Proof. split; cbn; intros ? H; by apply not_elem_of_nil in H. Qed.
Lemma root_units_for r : built_for r (root_units r).
Proof.
  unfold root_units. destruct (validate_unit_state_key _ _ _).
  - split; cbn; [by intros u ->%list_elem_of_singleton|intros o H; by apply not_elem_of_nil in H].
  - apply (built_cons_refusal r (refuse (row_id r) None e) ([], [])); [done|apply refuse_not_skip|done|apply built_nil].
Qed.
Lemma child_units_for r key records seen : built_for r (child_units r key records seen).
Proof.
  revert seen. induction records as [|v records IH]; intros seen; cbn [child_units]; [apply built_nil|].
  destruct (check_parent_key _ _ _ _) as [[]|e].
  - destruct (child_state_keys _ _ _) as [sk legacy]. destruct (check_unit_state_key _ _ _ _) as [[[]|e] seen'];
      specialize (IH seen'); destruct (child_units r key records seen') as [us os].
    + by apply (built_cons_unit r _ (us, os)).
    + by apply (built_cons_refusal r _ (us, os)).
  - specialize (IH seen). destruct (child_units r key records seen) as [us os]. by apply (built_cons_refusal r _ (us, os)).
Qed.
Lemma tuple_units_for r dims tuples seen : built_for r (tuple_units r dims tuples seen).
Proof.
  revert seen. induction tuples as [|v tuples IH]; intros seen; cbn [tuple_units]; [apply built_nil|].
  destruct (check_unit_state_key _ _ _ _) as [[[]|e] seen']; specialize (IH seen'); destruct (tuple_units r dims tuples seen') as [us os].
  - by apply (built_cons_unit r _ (us, os)).
  - by apply (built_cons_refusal r _ (us, os)).
Qed.
(** A row that plans anything waits for no skipped row. *)
Definition planned_for (r : Row) (skipped : gset string) (p : Plan) : Prop :=
  (forall u, u ∈ pl_units p -> un_row u = r /\ forall q, q ∈ prerequisites r -> q ∉ skipped)
  /\ (forall o, o ∈ pl_pre p -> oc_row o = row_id r /\ oc_error o <> None /\ (is_skip o = true -> pl_skip p = true))
  /\ (forall q, q ∈ prerequisites r -> q ∈ skipped -> pl_skip p = true).
Lemma planned_built r skipped b : (forall q, q ∈ prerequisites r -> q ∉ skipped) -> built_for r b -> planned_for r skipped (of_built b).
Proof.
  intros Hq [H1 H2]. split; [intros u Hu; split; [by apply H1|done]|]. split; [|intros q H H'; by apply Hq in H].
  intros o Ho. apply H2 in Ho as (A & B & C). split; [done|]. split; [done|]. by rewrite B.
Qed.
Lemma planned_fan_out r skipped dims data k :
  (forall q, q ∈ prerequisites r -> q ∉ skipped) -> (forall ds, built_for r (k ds)) -> planned_for r skipped (fan_out dims data (row_id r) k).
Proof.
  intros Hq Hk. unfold fan_out. destruct (resolve_product_dims _ _ _) as [[ds|]|e].
  - by apply planned_built.
  - split; [|split]; cbn; [intros ? H; by apply not_elem_of_nil in H..|done].
  - split; [|split]; cbn; [intros u H; by apply not_elem_of_nil in H| |intros q H H'; by apply Hq in H].
    intros o ->%list_elem_of_singleton. split; [done|]. split; [done|]. by rewrite refuse_not_skip.
Qed.
Lemma plan_level_row_ok data records skipped r : planned_for r skipped (plan_level_row data records skipped r).
Proof.
  unfold plan_level_row. assert (forall why, planned_for r skipped (skip_plan (row_id r) why)) as Hskip.
  { intros why. split; [|split]; cbn; [intros u H; by apply not_elem_of_nil in H|by intros o ->%list_elem_of_singleton|done]. }
  destruct (match row_role r with ChildRow p _ => if bool_decide (p ∈ skipped) then Some p else None | _ => None end) eqn:Hp; [apply Hskip|].
  destruct (List.find _ (row_depends_on r)) eqn:Hd; [apply Hskip|].
  assert (forall q, q ∈ prerequisites r -> q ∉ skipped) as Hq.
  { intros q [Hq|Hq]%elem_of_app.
    - destruct (row_role r); try by apply not_elem_of_nil in Hq. apply list_elem_of_singleton in Hq as ->. by case_bool_decide.
    - intros Hin. apply list_elem_of_In in Hq. apply (List.find_none _ _ Hd) in Hq. by apply bool_decide_eq_false in Hq. }
  destruct (row_role r) as [|p key|sel alias collect dims|dims collected] eqn:Hr.
  - apply planned_built; [done|apply root_units_for].
  - apply planned_built; [done|apply child_units_for].
  - destruct dims as [|d dims].
    + split; [|split]; cbn; [by intros u ->%list_elem_of_singleton|intros o H; by apply not_elem_of_nil in H|intros q H H'; by apply Hq in H].
    + apply planned_fan_out; [done|]. intros ds. split; cbn; [|intros o H; by apply not_elem_of_nil in H].
      by intros u (ctx & -> & _)%list_elem_of_fmap.
  - apply planned_fan_out; [done|]. intros ds. apply tuple_units_for.
Qed.
Lemma plan_rows_ok data records skipped ready us os sk : plan_rows data records skipped ready = (us, os, sk) ->
  (forall u, u ∈ us -> un_row u ∈ ready /\ forall q, q ∈ prerequisites (un_row u) -> q ∉ skipped)
  /\ (forall o, o ∈ os -> (exists r, r ∈ ready /\ oc_row o = row_id r) /\ oc_error o <> None /\ (is_skip o = true -> oc_row o ∈ sk))
  /\ skipped ⊆ sk /\ (forall x, x ∈ sk -> x ∈ skipped \/ x ∈ row_id <$> ready)
  /\ (forall r q, r ∈ ready -> q ∈ prerequisites r -> q ∈ skipped -> row_id r ∈ sk).
Proof.
  revert skipped us os sk. induction ready as [|r ready IH]; intros skipped us os sk; cbn [plan_rows].
  { intros [= <- <- <-]. repeat split; [by apply not_elem_of_nil in H..|done|by left|intros r q H; by apply not_elem_of_nil in H]. }
  pose proof (plan_level_row_ok data records skipped r) as (P1 & P2 & P3). set (p := plan_level_row data records skipped r) in *.
  set (skipped1 := if pl_skip p then {[row_id r]} ∪ skipped else skipped).
  destruct (plan_rows data records skipped1 ready) as [[us' os'] sk'] eqn:E. intros [= <- <- <-]. apply IH in E as (U & O & S & X & Q).
  assert (skipped ⊆ skipped1) as H1 by (unfold skipped1; destruct (pl_skip p); [apply union_subseteq_r|done]).
  split; [|split; [|split; [by etrans|split]]].
  - intros u [Hu|Hu]%elem_of_app.
    + apply P1 in Hu as [<- Hq]. split; [by left|done].
    + apply U in Hu as [Hr Hq]. split; [by right|]. intros q H H'. by apply (Hq q H), H1.
  - intros o [Ho|Ho]%elem_of_app.
    + apply P2 in Ho as (Hr & He & Hs). split; [exists r; by split; [left|]|]. split; [done|]. intros Hk. apply S. unfold skipped1.
      rewrite Hs by done. rewrite Hr. by apply elem_of_union_l, elem_of_singleton.
    + apply O in Ho as ((r' & Hr & He) & Hs). split; [exists r'; by split; [right|]|done].
  - intros x Hx. apply X in Hx as [Hx|Hx]; [|right; by right]. unfold skipped1 in Hx. destruct (pl_skip p); [|by left].
    apply elem_of_union in Hx as [->%elem_of_singleton|Hx]; [right; by left|by left].
  - intros a q [-> |Ha]%elem_of_cons Hq Hs; [|eapply Q; [done|done|by apply H1]]. apply S. unfold skipped1. rewrite (P3 q Hq Hs).
    by apply elem_of_union_l, elem_of_singleton.
Qed.
Lemma plan_groups_ok d many units g g' failed : plan_groups d many units g = (g', failed) ->
  (forall k, is_Some (gr_task g' !! k) -> is_Some (gr_task g !! k) \/ exists u, u ∈ units /\ row_overwrite (un_row u) = true /\ unit_key u = k)
  /\ (forall f, f ∈ failed -> exists u, u ∈ units /\ unit_key u = f.1).
Proof.
  revert g g' failed. induction units as [|u units IH]; intros g g' failed; cbn [plan_groups].
  { intros [= <- <-]. split; [by left|intros f H; by apply not_elem_of_nil in H]. }
  assert (forall (P : Unit_ -> Prop), (exists v, v ∈ units /\ P v) -> exists v, v ∈ u :: units /\ P v) as Hex
    by (intros P (v & Hv & HP); exists v; by split; [right|]).
  destruct (row_overwrite (un_row u)) eqn:Hov; cbn [negb].
  - destruct (ds_resolve d u) as [key|e].
    + set (uri := if many then _ else _). destruct (match option_or _ _ with Some gi => _ | None => _ end) as [gi members].
      intros H. apply IH in H as [H1 H2]. cbn [gr_task] in H1. split; [|intros f Hf; by apply (Hex (fun v => unit_key v = f.1)), H2].
      intros k Hk. apply H1 in Hk as [Hk|Hk]; [|right; by apply (Hex (fun v => row_overwrite (un_row v) = true /\ unit_key v = k))].
      apply lookup_insert_is_Some' in Hk as [<-|Hk]; [right; exists u; by split; [left|]|by left].
    + destruct (plan_groups d many units g) as [g1 f1] eqn:E. intros [= <- <-]. apply IH in E as [H1 H2]. split.
      * intros k Hk. apply H1 in Hk as [Hk|Hk]; [by left|right; by apply (Hex (fun v => row_overwrite (un_row v) = true /\ unit_key v = k))].
      * intros f [-> |Hf]%elem_of_cons; [exists u; by split; [left|]|by apply (Hex (fun v => unit_key v = f.1)), H2].
  - intros H. apply IH in H as [H1 H2]. split; [|intros f Hf; by apply (Hex (fun v => unit_key v = f.1)), H2].
    intros k Hk. apply H1 in Hk as [Hk|Hk]; [by left|right; by apply (Hex (fun v => row_overwrite (un_row v) = true /\ unit_key v = k))].
Qed.
Record opened (x : Exec) (ready : list Row) (o : Opening) : Prop := {
  od_units : forall u, u ∈ op_units o -> un_row u ∈ ready /\ forall q, q ∈ prerequisites (un_row u) -> q ∉ ex_skipped x;
  od_pre : forall p, p ∈ op_pre o -> (exists r, r ∈ ready /\ oc_row p = row_id r) /\ oc_error p <> None /\ (is_skip p = true -> oc_row p ∈ op_skipped o);
  od_skipped : ex_skipped x ⊆ op_skipped o;
  od_new : forall y, y ∈ op_skipped o -> y ∈ ex_skipped x \/ y ∈ row_id <$> ready;
  od_cascade : forall r q, r ∈ ready -> q ∈ prerequisites r -> q ∈ ex_skipped x -> row_id r ∈ op_skipped o;
  od_group : forall k, is_Some (group_of (op_groups o) k) -> exists r, r ∈ ready /\ row_overwrite r = true /\ row_id r = k.1 }.
Lemma open_level_ok w x ready : opened x ready (open_level w x ready).
Proof.
  unfold open_level. destruct (foldl take_records _ ready) as [[records captured] pending].
  destruct (plan_rows _ _ _ ready) as [[us os] sk] eqn:E. apply plan_rows_ok in E as (U & O & S & X & Q).
  destruct (if dry_run then _ else _) as [groups failed] eqn:Eg.
  assert ((forall k, is_Some (gr_task groups !! k) -> exists u, u ∈ us /\ row_overwrite (un_row u) = true /\ unit_key u = k)
    /\ (forall f, f ∈ failed -> exists u, u ∈ us /\ unit_key u = f.1)) as [G F].
  { destruct dry_run; [injection Eg as <- <-; split; [by intros k []|intros f H; by apply not_elem_of_nil in H]|].
    apply plan_groups_ok in Eg as [G F]. split; [|done]. intros k [H|H]%G; [by destruct H|done]. }
  split; cbn [op_units op_pre op_skipped op_groups].
  - intros u Hu. apply list_elem_of_In, filter_In in Hu as [Hu _]. by apply U, list_elem_of_In.
  - intros p [Hp|Hp]%elem_of_app; [by apply O|]. apply list_elem_of_fmap in Hp as (f & -> & Hf). apply F in Hf as (u & Hu & Hk).
    split; [|split; [done|by rewrite refuse_not_skip]]. exists (un_row u). split; [by apply U|]. cbn. by rewrite <- Hk.
  - done.
  - done.
  - done.
  - intros k Hk. apply G in Hk as (u & Hu & Hov & <-). exists (un_row u). split; [by apply U|done].
Qed.
Lemma pre_marks_ok pre m : let m' := foldl pre_marks m pre in
  mk_groups m' = mk_groups m /\ mk_failed m ⊆ mk_failed m' /\ (forall o, o ∈ pre -> is_skip o = false -> oc_row o ∈ mk_failed m').
Proof.
  revert m. induction pre as [|o pre IH]; intros m; cbn [foldl]; [repeat split; [done|]; intros o H; by apply not_elem_of_nil in H|].
  destruct (IH (pre_marks m o)) as (G & F & P). unfold pre_marks in *. split; [rewrite G; by destruct (is_skip o)|]. split.
  - etrans; [|exact F]. destruct (is_skip o); [done|apply union_subseteq_r].
  - intros p [-> |Hp]%elem_of_cons Hs; [|by apply P]. apply F. rewrite Hs. cbn. by apply elem_of_union_l, elem_of_singleton.
Qed.
(** The rows: distinct ids, and a row that lists values overwrites nothing. *)
Definition listed_rows : Prop := NoDup (row_id <$> rows) /\ forall r, r ∈ rows -> is_discovery r = true -> row_overwrite r = false.
Lemma same_row a b : listed_rows -> a ∈ rows -> b ∈ rows -> row_id a = row_id b -> a = b.
Proof.
  intros [Hnd _] [i Hi]%list_elem_of_lookup [j Hj]%list_elem_of_lookup He. assert (i = j) as ->; [|rewrite Hi in Hj; by injection Hj].
  eapply NoDup_lookup; [exact Hnd| |]; rewrite list_lookup_fmap; [by rewrite Hi|rewrite Hj; cbn; by rewrite He].
Qed.
Lemma run_tasks_ok w x ready : listed_rows -> (forall r, r ∈ ready -> r ∈ rows) -> let o := open_level w x ready in
  exists n e, turn_ok (ex_level x) (op_groups o) (op_begin_failed o) (ex_trace x) (ex_outcomes x) (list_to_set (row_id <$> ready)) (list_to_set ((fun u => row_id (un_row u)) <$> op_units o)) (op_skipped o)
    n (run_tasks w x o) (begin_events (ex_level x) o ++ e).
Proof.
  intros Hrows Hready o. destruct (open_level_ok w x ready) as [U P S N _ G]. fold o in U, P, S, N, G. unfold run_tasks.
  destruct (pre_marks_ok (op_pre o) (MkMarks false ∅ ∅ (dom (op_begin_failed o)))) as (Mg & _ & Mf). set (m := foldl pre_marks _ _) in *.
  assert (forall r, r ∈ ready -> row_id r ∈ (list_to_set (row_id <$> ready) : gset string)) as Hin
    by (intros r Hr; apply elem_of_list_to_set, list_elem_of_fmap; by exists r).
  set (t0 := MkTurn (MkFlags (ex_cancel x) _ _ _) _ _ _ _ _).
  assert (turn_ok (ex_level x) (op_groups o) (op_begin_failed o) (ex_trace x) (ex_outcomes x) (list_to_set (row_id <$> ready)) (list_to_set ((fun u => row_id (un_row u)) <$> op_units o)) (op_skipped o)
    0 t0 (begin_events (ex_level x) o)) as H0.
  { assert (forall e, e ∈ begin_events (ex_level x) o -> exists g ok, e = TBegin (ex_level x) g ok) as Hb
      by (intros e (g & -> & _)%list_elem_of_fmap; by eexists _, _).
    split; cbn [t0 tn_trace tn_outcomes tn_flight tn_marks tn_flags fl_aborted fl_stop]; try done.
    - intros e He. by apply Hb in He as (g & ok & ->).
    - intros l i r g He. by apply Hb in He as (? & ? & ?).
    - intros l i r g He. by apply Hb in He as (? & ? & ?).
    - intros e He. by apply Hb in He as (g & ok & ->).
    - intros p [Hp|Hp]%elem_of_app; [by left|right]. apply P in Hp as ((r & Hr & ->) & _). by apply Hin.
    - intros p [Hp|Hp]%elem_of_app Herr; [by left|right]. destruct (is_skip p) eqn:Hs; [right; by apply P|left; left; by apply Mf].
    - by rewrite Mg. }
  destruct (spawns_ok _ w _ _ _ _ _ _ _ t0 _ (op_units o) H0) as [e1 H1].
  { intros u Hu. split; [by apply Hin, U|]. split; [apply elem_of_list_to_set, list_elem_of_fmap; by exists u|]. apply U in Hu as [Hu _]. intros Hd. destruct (group_of _ _) eqn:Hg; [|done]. exfalso.
    destruct (G (unit_key u)) as (r & Hr & Hov & Hid); [by rewrite Hg|]. cbn in Hid.
    assert (r = un_row u) as -> by (apply same_row; auto). by rewrite (proj2 Hrows (un_row u)) in Hov by auto. }
  destruct (joins_ok _ _ _ _ _ _ _ _ _ _ _ (lw_events w) H1) as [e2 H2]. exists (length (op_units o)), (e1 ++ e2). by rewrite app_assoc.
Qed.

(** *** Closing a level *)

Definition group_event (w : LevelWorld) (lvl : nat) (t : Turn) (g : nat) : option Event :=
  match lw_finish w g with
  | SinkNotBuilt _ => None
  | ans => Some (if must_abort t g then TDiscard lvl g else TCommit lvl g (match ans with FinishFailed _ => false | _ => true end))
  end.
Lemma finish_groups_trace w lvl bf t l s :
  (foldl (finish_group lvl w bf t) s l).2 = s.2 ++ omap (group_event w lvl t) l.
Proof.
  revert s. induction l as [|g l IH]; intros s; cbn [foldl omap list_omap]; [by rewrite app_nil_r|]. rewrite IH. clear IH.
  unfold finish_group, group_event. destruct s as [uns tr]. destruct (lw_finish w g); cbn [snd]; [done|destruct (must_abort t g)..]; cbn [snd];
    by rewrite <- app_assoc.
Qed.
Lemma fail_unswapped_ok groups uns os acc m : let r := foldl (fail_unswapped groups uns) (acc, m) os in
  mk_failed m ⊆ mk_failed r.2 /\ mk_not_run r.2 = mk_not_run m
  /\ (forall o', o' ∈ r.1 -> o' ∈ acc \/ exists o, o ∈ os /\ oc_row o' = oc_row o
        /\ (o' = o \/ (oc_row o ∈ mk_failed r.2 /\ is_Some (group_of groups (oc_row o, oc_key o))))).
Proof.
  revert acc m. induction os as [|o os IH]; intros acc m; cbn [foldl]; [by repeat split; [|left]|].
  unfold fail_unswapped at 2 4 6 8. cbn [fst snd]. destruct (unswapped_message groups uns o) as [msg|] eqn:Hm.
  - destruct (IH (acc ++ [MkOutcome (oc_row o) (oc_key o) (oc_written o) (Some msg) (Some KindOther)]) (mark_failed (oc_row o) None m)) as (F & N & O).
    split; [etrans; [|exact F]; apply union_subseteq_r|]. split; [by rewrite N|]. intros o' Ho. apply O in Ho as [[Ho| ->]%elem_snoc|(p & Hp & H)].
    + by left.
    + right. exists o. split; [by left|]. split; [done|]. right. split; [apply F; cbn; by apply elem_of_union_l, elem_of_singleton|].
      unfold unswapped_message in Hm. destruct (is_some _); [done|]. by destruct (group_of _ _).
    + right. exists p. by split; [right|].
  - destruct (IH (acc ++ [o]) m) as (F & N & O). split; [done|]. split; [done|]. intros o' Ho. apply O in Ho as [[Ho| ->]%elem_snoc|(p & Hp & H)].
    + by left.
    + right. exists o. split; [by left|]. by split; [|left].
    + right. exists p. by split; [right|].
Qed.
Definition is_broken (m : Marks) (r : string) : Prop := r ∈ mk_failed m \/ r ∈ mk_not_run m.
Lemma mark_done_ok m ready rem com sk : let r := foldl (mark_done m) (rem, com, sk) ready in
  (forall y, y ∈ r.1.1 <-> y ∈ rem /\ y ∉ row_id <$> ready)
  /\ (forall y, y ∈ r.1.2 <-> y ∈ com \/ (y ∈ row_id <$> ready /\ ~ is_broken m y))
  /\ (forall y, y ∈ r.2 <-> y ∈ sk \/ exists a, a ∈ ready /\ is_broken m (row_id a) /\ (y = row_id a \/ y ∈ children_ids (row_id a))).
Proof.
  revert rem com sk. induction ready as [|a ready IH]; intros rem com sk; cbn [foldl].
  - cbn [fst snd fmap list_fmap]. repeat split; [done|by apply not_elem_of_nil|by intros []|by left| |by left|].
    + intros [H|[H _]]; [done|by apply not_elem_of_nil in H].
    + intros [H|(a & H & _)]; [done|by apply not_elem_of_nil in H].
  - unfold mark_done at 2 4 6. assert (bool_decide (row_id a ∈ mk_failed m) || bool_decide (row_id a ∈ mk_not_run m) = true <-> is_broken m (row_id a)) as Hb
      by (unfold is_broken; by rewrite orb_true_iff, !bool_decide_eq_true).
    destruct (_ || _); [assert (is_broken m (row_id a)) as Hk by (by apply Hb)|assert (~ is_broken m (row_id a)) as Hk by (intros H; by apply Hb in H)];
      [destruct (IH (rem ∖ {[row_id a]}) com (list_to_set (children_ids (row_id a)) ∪ ({[row_id a]} ∪ sk))) as (R & C & S)
      |destruct (IH (rem ∖ {[row_id a]}) ({[row_id a]} ∪ com) sk) as (R & C & S)]; clear IH Hb; cbn [fmap list_fmap].
    + split; [intros y; rewrite R, elem_of_difference, elem_of_singleton, not_elem_of_cons; tauto|]. split.
      * intros y. rewrite C, elem_of_cons. split; [tauto|]. intros [H|[[->|H] Hn]]; tauto.
      * intros y. rewrite S, !elem_of_union, elem_of_list_to_set, elem_of_singleton. setoid_rewrite elem_of_cons. split.
        -- intros [[H|[->|H]]|(b & Hb & H)]; [right; exists a; tauto|right; exists a; tauto|by left|right; exists b; tauto].
        -- intros [H|(b & [->|Hb] & Hbb & [->|H])]; try tauto; [right|right]; exists b; tauto.
    + split; [intros y; rewrite R, elem_of_difference, elem_of_singleton, not_elem_of_cons; tauto|]. split.
      * intros y. rewrite C, elem_of_cons, elem_of_union, elem_of_singleton. split; [intros [[->|H]|H]; tauto|]. intros [H|[[->|H] Hn]]; tauto.
      * intros y. rewrite S. setoid_rewrite elem_of_cons. split.
        -- intros [H|(b & Hb & H)]; [by left|right; exists b; tauto].
        -- intros [H|(b & [->|Hb] & Hbb & H)]; [by left|done|right; exists b; tauto].
Qed.

(** *** The invariant of a run *)

Definition row_needs (r p : string) : Prop := exists a, a ∈ rows /\ row_id a = r /\ p ∈ prerequisites a.
Definition done_well (x : Exec) (p : string) : Prop := p ∈ ex_completed x /\ p ∉ ex_skipped x.
(** Every invocation a prerequisite of a started row ever has, ended well before the row started. *)
Definition waits (T : list Event) : Prop :=
  forall t1 t2 l i r g, T = t1 ++ TStart l i r g :: t2 -> forall p, row_needs r p -> forall l' j g', TStart l' j p g' ∈ T -> TEnd l' j true ∈ t1.
Record exec_ok (x : Exec) : Prop := {
  eo_disjoint : forall y, y ∈ ex_completed x -> y ∉ ex_remaining x;
  eo_start : forall l i r g, TStart l i r g ∈ ex_trace x -> r ∉ ex_remaining x /\ forall p, row_needs r p -> done_well x p;
  eo_done : forall p, done_well x p -> (forall l i g, TStart l i p g ∈ ex_trace x -> TEnd l i true ∈ ex_trace x) /\ forall q, row_needs p q -> done_well x q;
  eo_clean : forall p, done_well x p -> forall o, o ∈ ex_outcomes x -> oc_row o = p -> oc_error o = None;
  eo_level : forall e, e ∈ ex_trace x -> (event_level e < ex_level x)%nat;
  eo_outcome : forall o, o ∈ ex_outcomes x -> oc_row o ∉ ex_remaining x;
  eo_waits : waits (ex_trace x) }.
(** What an end of a run shows, however it ends. *)
Definition ordered (x : Exec) : Prop :=
  waits (ex_trace x) /\ forall l i r g p o, TStart l i r g ∈ ex_trace x -> row_needs r p -> o ∈ ex_outcomes x -> oc_row o = p -> oc_error o = None.

Lemma insert_ready_elem a l r : r ∈ insert_ready a l <-> r = a \/ r ∈ l.
Proof.
  induction l as [|b l IH]; cbn [insert_ready]; [by rewrite elem_of_cons|]. destruct (dispatched_before _ _); rewrite !elem_of_cons; [done|]. rewrite IH. tauto.
Qed.
Lemma order_ready_elem l r : r ∈ order_ready l <-> r ∈ l.
Proof.
  unfold order_ready. destruct order; [done|]. enough (forall s, r ∈ foldl (fun l r => insert_ready r l) s l <-> r ∈ l \/ r ∈ s) as H.
  { rewrite H. split; [intros [?|Hx]; [done|by apply not_elem_of_nil in Hx]|by left]. }
  induction l as [|a l IH]; intros s; cbn [foldl]; [split; [by right|intros [Hx|]; [by apply not_elem_of_nil in Hx|done]]|].
  rewrite IH, insert_ready_elem, elem_of_cons. tauto.
Qed.
Lemma ready_rows_ok x r : r ∈ ready_rows x <-> r ∈ rows /\ row_id r ∈ ex_remaining x /\ forall q, q ∈ prerequisites r -> row_settled x q = true.
Proof.
  unfold ready_rows. rewrite order_ready_elem, list_elem_of_In, filter_In, <- list_elem_of_In. unfold is_ready, prerequisites.
  rewrite !andb_true_iff, bool_decide_eq_true, forallb_forall. setoid_rewrite <- list_elem_of_In. split.
  - intros (Hr & (Hm & Hp) & Hd). split; [done|]. split; [done|]. intros q [Hq|Hq]%elem_of_app; [|by apply Hd].
    destruct (row_role r); try by apply not_elem_of_nil in Hq. by apply list_elem_of_singleton in Hq as ->.
  - intros (Hr & Hm & Hq). split; [done|]. split; [split; [done|]|intros q H; apply Hq, elem_of_app; by right].
    destruct (row_role r); try done. by apply Hq, elem_of_app; left; apply list_elem_of_singleton.
Qed.
Lemma extend_waits x E : exec_ok x ->
  (forall l i r g, TStart l i r g ∈ E -> r ∈ ex_remaining x /\ forall p, row_needs r p -> done_well x p) -> waits (ex_trace x ++ E).
Proof.
  intros Hx HE t1 t2 l i r g Heq p Hp l' j g' Hst.
  assert (done_well x p -> TStart l' j p g' ∈ ex_trace x) as Hold.
  { intros [Hc _]. apply elem_of_app in Hst as [|Hst]; [done|]. apply HE in Hst as [Hst _]. by apply (eo_disjoint x Hx) in Hc. }
  apply app_eq_app in Heq as (m & [[Ht Hs]|[-> Hs]]).
  - destruct m as [|e m]; cbn in Hs.
    + rewrite app_nil_r in Ht. subst t1. assert (done_well x p) as Hd by (eapply (HE l i r g); [rewrite <- Hs; by left|done]).
      by eapply (eo_done x Hx); [|apply Hold].
    + injection Hs as <- ->. assert (done_well x p) as Hd by (eapply (eo_start x Hx l i r g); [rewrite Ht; apply elem_of_app; right; by left|done]).
      eapply (eo_waits x Hx); [exact Ht|done|by apply Hold].
  - assert (done_well x p) as Hd by (eapply (HE l i r g); [rewrite Hs; apply elem_of_app; right; by left|done]).
    apply elem_of_app. left. by eapply (eo_done x Hx); [|apply Hold].
Qed.

Section RunLevel.
Hypothesis Hrows : listed_rows.
Context (w : LevelWorld) (x : Exec).
Hypothesis Hx : exec_ok x.
Notation ready := (ready_rows x).
Notation o := (open_level w x ready).
Notation t := (run_tasks w x o).
Notation level_turn := (turn_ok (ex_level x) (op_groups o) (op_begin_failed o) (ex_trace x) (ex_outcomes x) (list_to_set (row_id <$> ready))
  (list_to_set ((fun u => row_id (un_row u)) <$> op_units o)) (op_skipped o)).

Lemma ready_remaining y : y ∈ row_id <$> ready -> y ∈ ex_remaining x.
Proof. intros (r & -> & Hr)%list_elem_of_fmap. by apply ready_rows_ok in Hr as (_ & H & _). Qed.
Lemma done_not_ready p : done_well x p -> p ∉ row_id <$> ready.
Proof. intros [Hc _] Hr. apply ready_remaining in Hr. by apply (eo_disjoint x Hx) in Hc. Qed.
Lemma started_rows r : r ∈ (list_to_set ((fun u => row_id (un_row u)) <$> op_units o) : gset string) ->
  r ∈ row_id <$> ready /\ forall p, row_needs r p -> done_well x p.
Proof.
  intros (u & -> & Hu)%elem_of_list_to_set%list_elem_of_fmap. apply (od_units _ _ _ (open_level_ok w x ready)) in Hu as [Hr Hq].
  split; [apply list_elem_of_fmap; by exists (un_row u)|]. intros p (a & Ha & Hid & Hp). apply ready_rows_ok in Hr as (Hr & _ & Hs).
  rewrite (same_row a (un_row u) Hrows Ha Hr Hid) in Hp. specialize (Hs p Hp). specialize (Hq p Hp). unfold row_settled in Hs.
  apply orb_true_iff in Hs as [H|H]; apply bool_decide_eq_true in H; [by split|done].
Qed.
Lemma run_tasks_turn : exists n e, level_turn n t (begin_events (ex_level x) o ++ e).
Proof. apply run_tasks_ok; [done|]. intros r Hr. by apply ready_rows_ok in Hr as [Hr _]. Qed.
Lemma turn_starts n E : level_turn n t E ->
  forall l i r g, TStart l i r g ∈ E -> r ∈ ex_remaining x /\ forall p, row_needs r p -> done_well x p.
Proof. intros H l i r g Hi. apply (to_start _ _ _ _ _ _ _ _ _ _ _ H) in Hi as (Hr & _). apply started_rows in Hr as [Hr Hp]. split; [by apply ready_remaining|done]. Qed.
(** The outcomes of a row that was done well before the level stay clean. *)
Lemma clean_tasks n E p : level_turn n t E ->
  done_well x p -> forall q, q ∈ tn_outcomes t -> oc_row q = p -> oc_error q = None.
Proof.
  intros H Hd q Hq Hp. apply (to_outcome _ _ _ _ _ _ _ _ _ _ _ H) in Hq as [Hq|Hq]; [by eapply (eo_clean x Hx)|].
  apply elem_of_list_to_set in Hq. rewrite Hp in Hq. by apply done_not_ready in Hq.
Qed.
Lemma hanging_ordered x' : ex_trace x' = tn_trace t -> ex_outcomes x' = tn_outcomes t -> ordered x'.
Proof.
  intros HT HO. destruct run_tasks_turn as (n & e & H). pose proof (turn_starts _ _ H) as Hs. unfold ordered. rewrite HT, HO.
  rewrite (to_trace _ _ _ _ _ _ _ _ _ _ _ H). split; [by apply extend_waits|]. intros l i r g p q Hst Hp Hq Hqp.
  eapply clean_tasks; [exact H| |exact Hq|done]. apply elem_of_app in Hst as [Hst|Hst]; [by eapply (eo_start x Hx)|by eapply Hs].
Qed.

(** The state a level leaves. *)
Definition unswapped_groups : gmap nat string :=
  (foldl (finish_group (ex_level x) w (op_begin_failed o) t) (∅, tn_trace t) (seq 0 (length (gr_members (op_groups o))))).1.
Definition closed_outcomes : list Outcome * Marks := foldl (fail_unswapped (op_groups o) unswapped_groups) ([], tn_marks t) (tn_outcomes t).
Definition closed_rows : gset string * gset string * gset string :=
  foldl (mark_done closed_outcomes.2) (ex_remaining x, ex_completed x, op_skipped o) ready.
Definition group_events : list Event := omap (group_event w (ex_level x) t) (seq 0 (length (gr_members (op_groups o)))).
Lemma close_level_eq : exists stopped,
  close_level w x ready o t =
    (MkExec closed_rows.1.1 closed_rows.1.2 closed_rows.2 (op_pending o) (tn_data t) (fl_cancel (tn_flags t)) (S (ex_level x))
       (closed_outcomes.1 ++ stopped) (tn_trace t ++ group_events),
     if mk_failure closed_outcomes.2 && stops then Summary else Running)
  /\ (mk_failure closed_outcomes.2 && stops = false -> stopped = []) /\ (forall q, q ∈ stopped -> oc_row q ∈ closed_rows.1.1)
  /\ (mk_failure closed_outcomes.2 && stops = true -> forall r, r ∈ rows -> row_id r ∈ closed_rows.1.1 ->
      exists q, q ∈ stopped /\ oc_row q = row_id r /\ oc_kind q = Some KindSkipped).
Proof.
  exists (if mk_failure closed_outcomes.2 && stops then (fun r => synthetic_outcome (row_id r) None STOPPED_BEFORE_START KindSkipped)
    <$> List.filter (fun r => bool_decide (row_id r ∈ closed_rows.1.1)) rows else []). split; [|split; [|split]].
  - pose proof (finish_groups_trace w (ex_level x) (op_begin_failed o) t (seq 0 (length (gr_members (op_groups o)))) (∅, tn_trace t)) as Ht.
    unfold close_level, closed_rows, closed_outcomes, unswapped_groups, group_events. destruct (foldl (finish_group _ _ _ _) _ _) as [uns tr]. cbn [fst snd] in *.
    rewrite Ht. destruct (foldl (fail_unswapped _ _) _ _) as [outs m]. cbn [fst snd]. destruct (foldl (mark_done _) _ _) as [[rem com] sk]. cbn [fst snd].
    by destruct (mk_failure m && stops); [|rewrite app_nil_r].
  - by intros ->.
  - intros q. destruct (_ && _); [|intros H; by apply not_elem_of_nil in H]. intros (r & -> & Hr)%list_elem_of_fmap.
    apply list_elem_of_In, filter_In in Hr as [_ Hr]. by apply bool_decide_eq_true in Hr.
  - intros -> r Hr Hrem. eexists. split; [apply list_elem_of_fmap; exists r; split; [reflexivity|]|done].
    apply list_elem_of_In, filter_In. split; [by apply list_elem_of_In|by apply bool_decide_eq_true].
Qed.
Lemma closed_rows_ok :
  (forall y, y ∈ closed_rows.1.1 <-> y ∈ ex_remaining x /\ y ∉ row_id <$> ready)
  /\ (forall y, y ∈ closed_rows.1.2 <-> y ∈ ex_completed x \/ (y ∈ row_id <$> ready /\ ~ is_broken closed_outcomes.2 y))
  /\ (forall y, y ∈ closed_rows.2 <-> y ∈ op_skipped o \/ exists a, a ∈ ready /\ is_broken closed_outcomes.2 (row_id a) /\ (y = row_id a \/ y ∈ children_ids (row_id a))).
Proof. apply mark_done_ok. Qed.
Lemma still_done p : done_well x p -> p ∈ closed_rows.1.2 /\ p ∉ closed_rows.2.
Proof.
  intros Hd. destruct closed_rows_ok as (_ & C & S). rewrite C, S. split; [left; by apply Hd|]. pose proof (done_not_ready p Hd) as Hr.
  intros [H|(a & Ha & _ & [->|Hc])].
  - apply (od_new _ _ _ (open_level_ok w x ready)) in H as [H|H]; [by apply Hd|done].
  - apply Hr, list_elem_of_fmap. by exists a.
  - apply list_elem_of_omap in Hc as (r & Hin & Hc). destruct (row_role r) as [|q key| |] eqn:Hrole; try done. unfold string_eqb in Hc.
    case_bool_decide; [|done]. injection Hc as Hp. apply (done_not_ready (row_id a)); [|apply list_elem_of_fmap; by exists a].
    apply (proj2 (eo_done x Hx p Hd)). exists r. split; [done|]. split; [done|]. unfold prerequisites. rewrite Hrole. apply elem_of_app. left.
    apply list_elem_of_singleton. by symmetry.
Qed.
(** A row of the level that ends well. *)
Lemma newly_done n E p : level_turn n t E -> tn_flight t = ∅ -> p ∈ row_id <$> ready -> ~ is_broken closed_outcomes.2 p -> p ∉ closed_rows.2 ->
  (forall l i g, TStart l i p g ∈ ex_trace x ++ E -> TEnd l i true ∈ E)
  /\ (forall q, row_needs p q -> done_well x q)
  /\ (forall q, q ∈ tn_outcomes t -> oc_row q = p -> oc_error q = None).
Proof.
  intros H Hf Hp Hb Hs. destruct (fail_unswapped_ok (op_groups o) unswapped_groups (tn_outcomes t) [] (tn_marks t)) as (F & N & _).
  fold closed_outcomes in F, N. assert (~ broken t p) as Hnb.
  { intros [Hk|Hk]; apply Hb; [left; by apply F|right; by rewrite N]. }
  assert (p ∉ op_skipped o) as Hns by (intros Hk; apply Hs; apply closed_rows_ok; by left). split; [|split].
  - intros l i g [Hi|Hi]%elem_of_app; [apply (eo_start x Hx) in Hi as [Hi _]; by apply ready_remaining in Hp|].
    assert (l = ex_level x) as -> by (apply (to_level _ _ _ _ _ _ _ _ _ _ _ H) in Hi; by rewrite <- Hi).
    apply (to_start _ _ _ _ _ _ _ _ _ _ _ H) in Hi as (_ & _ & [(u & Hu & _)|[Hi|[Hi _]]]); [by rewrite Hf in Hu|done|done].
  - apply list_elem_of_fmap in Hp as (r & -> & Hr). intros q (a & Ha & Hid & Hq). pose proof Hr as (Hin & _ & Hset)%ready_rows_ok.
    rewrite (same_row a r Hrows Ha Hin Hid) in Hq. specialize (Hset q Hq). unfold row_settled in Hset.
    assert (q ∉ ex_skipped x) as Hqs by (intros Hk; by apply Hns, (od_cascade _ _ _ (open_level_ok w x ready) r q)).
    apply orb_true_iff in Hset as [Hk|Hk]; apply bool_decide_eq_true in Hk; by split.
  - intros q Hq Hqp. destruct (oc_error q) as [e|] eqn:Herr; [|done]. exfalso.
    destruct (to_error _ _ _ _ _ _ _ _ _ _ _ H q Hq) as [Hk|[Hk|Hk]]; [by rewrite Herr| |by rewrite Hqp in Hk|by rewrite Hqp in Hk].
    apply (eo_outcome x Hx) in Hk. rewrite Hqp in Hk. by apply ready_remaining in Hp.
Qed.
Lemma closed_done y : y ∈ closed_rows.1.2 -> y ∉ closed_rows.2 ->
  done_well x y \/ (y ∈ row_id <$> ready /\ ~ is_broken closed_outcomes.2 y).
Proof.
  destruct closed_rows_ok as (_ & C & S). rewrite C, S. intros [Hc|Hr] Hs; [left|by right]. split; [done|]. intros Hk. apply Hs. left.
  by apply (od_skipped _ _ _ (open_level_ok w x ready)).
Qed.
Lemma closed_clean n E p : level_turn n t E -> tn_flight t = ∅ -> p ∈ closed_rows.1.2 -> p ∉ closed_rows.2 ->
  forall q, q ∈ closed_outcomes.1 -> oc_row q = p -> oc_error q = None.
Proof.
  intros H Hf Hc Hs q Hq Hp. pose proof (closed_done p Hc Hs) as Hd.
  destruct (fail_unswapped_ok (op_groups o) unswapped_groups (tn_outcomes t) [] (tn_marks t)) as (_ & _ & O). fold closed_outcomes in O.
  apply O in Hq as [Hq|(a & Ha & Hrow & Hq)]; [by apply not_elem_of_nil in Hq|]. rewrite Hp in Hrow.
  destruct Hq as [-> |[Hm Hg]], Hd as [Hd|[Hr Hb]].
  - by eapply clean_tasks.
  - by eapply newly_done.
  - destruct (od_group _ _ _ (open_level_ok w x ready) _ Hg) as (r & Hin & _ & Hid). cbn in Hid. exfalso.
    apply (done_not_ready p Hd), list_elem_of_fmap. exists r. by rewrite Hid, Hrow.
  - exfalso. apply Hb. left. by rewrite Hrow.
Qed.
Lemma group_events_only e : e ∈ group_events -> exists g, (g < length (gr_members (op_groups o)))%nat /\ group_event w (ex_level x) t g = Some e.
Proof. intros (g & Hg & He)%list_elem_of_omap. exists g. split; [apply elem_of_seq in Hg; lia|done]. Qed.
Lemma group_event_level g e : group_event w (ex_level x) t g = Some e -> event_level e = ex_level x /\ forall l i r h, e <> TStart l i r h.
Proof. unfold group_event. destruct (lw_finish w g); intros [= <-]; by destruct (must_abort t g). Qed.

Lemma close_level_ok x' st : tn_flight t = ∅ -> close_level w x ready o t = (x', st) -> ordered x' /\ (st = Running -> exec_ok x').
Proof.
  intros Hf Hcl. destruct close_level_eq as (stopped & Heq & Hrun & Hstop & _). rewrite Heq in Hcl. injection Hcl as <- Hst.
  destruct run_tasks_turn as (n & e & H). set (E := begin_events (ex_level x) o ++ e) in *. pose proof (turn_starts _ _ H) as Hs.
  destruct closed_rows_ok as (R & C & S).
  assert (tn_trace t ++ group_events = ex_trace x ++ (E ++ group_events)) as HT by (by rewrite (to_trace _ _ _ _ _ _ _ _ _ _ _ H), app_assoc).
  assert (forall l i r g, TStart l i r g ∈ E ++ group_events -> TStart l i r g ∈ E) as HE.
  { intros l i r g [Hi|Hi]%elem_of_app; [done|]. apply group_events_only in Hi as (h & _ & Hi). by destruct (proj2 (group_event_level _ _ Hi) l i r g). }
  assert (waits (ex_trace x ++ E ++ group_events)) as HW by (apply extend_waits; [done|]; intros l i r g Hi; by apply (Hs l i r g), HE).
  assert (forall l i r g, TStart l i r g ∈ ex_trace x ++ E ++ group_events -> r ∉ closed_rows.1.1 /\ forall p, row_needs r p -> p ∈ closed_rows.1.2 /\ p ∉ closed_rows.2) as HN.
  { intros l i r g [Hi|Hi]%elem_of_app.
    - apply (eo_start x Hx) in Hi as [Hr Hp]. split; [rewrite R; tauto|]. intros p Hn. by apply still_done, Hp.
    - apply HE in Hi. split; [|intros p Hn; by apply still_done, (Hs l i r g Hi)]. rewrite R. intros [_ Hr]. apply Hr.
      apply (to_start _ _ _ _ _ _ _ _ _ _ _ H) in Hi as (Hi & _). by apply started_rows in Hi as [Hi _]. }
  split.
  - unfold ordered. cbn [ex_trace ex_outcomes]. rewrite HT. split; [done|]. intros l i r g p q Hi Hp [Hq|Hq]%elem_of_app Hqp.
    + apply HN in Hi as [_ Hi]. destruct (Hi p Hp). by eapply closed_clean.
    + exfalso. apply Hstop in Hq. rewrite Hqp, R in Hq. apply HN in Hi as [_ Hi]. destruct (Hi p Hp) as [Hc Hk].
      destruct (closed_done p Hc Hk) as [Hd|[Hd _]]; [|tauto]. exact (eo_disjoint x Hx p (proj1 Hd) (proj1 Hq)).
  - intros ->. assert (stopped = []) as -> by (apply Hrun; by destruct (_ && _)). rewrite app_nil_r.
    split; cbn [ex_completed ex_remaining ex_trace ex_outcomes ex_level ex_skipped]; rewrite ?HT; unfold done_well; cbn [ex_completed ex_skipped].
    + intros y. rewrite C, R. intros [Hy|[Hy _]] [Hrem Hno]; [by apply (eo_disjoint x Hx) in Hy|done].
    + done.
    + intros p [Hc Hk]. destruct (closed_done p Hc Hk) as [Hd|[Hr Hb]].
      * destruct (eo_done x Hx p Hd) as [D1 D2]. split; [|intros q Hq; by apply still_done, D2]. intros l i g [Hi|Hi]%elem_of_app.
        -- apply elem_of_app. left. by eapply D1.
        -- apply HE, Hs in Hi as [Hi _]. by destruct (eo_disjoint x Hx p (proj1 Hd) Hi).
      * destruct (newly_done n E p H Hf Hr Hb Hk) as (D1 & D2 & _). split; [|intros q Hq; by apply still_done, D2]. intros l i g Hi.
        apply elem_of_app. right. apply elem_of_app. left. apply (D1 l i g). apply elem_of_app in Hi as [Hi|Hi]; apply elem_of_app; [by left|right; by apply HE].
    + intros p [Hc Hk]. by eapply closed_clean.
    + intros ev [Hv|[Hv|Hv]%elem_of_app]%elem_of_app.
      * apply (eo_level x Hx) in Hv. lia.
      * apply (to_level _ _ _ _ _ _ _ _ _ _ _ H) in Hv. lia.
      * apply group_events_only in Hv as (h & _ & Hv). apply group_event_level in Hv as [-> _]. lia.
    + intros q Hq. destruct (fail_unswapped_ok (op_groups o) unswapped_groups (tn_outcomes t) [] (tn_marks t)) as (_ & _ & O). fold closed_outcomes in O.
      apply O in Hq as [Hq|(a & Ha & -> & _)]; [by apply not_elem_of_nil in Hq|]. rewrite R. intros [H1 H2].
      apply (to_outcome _ _ _ _ _ _ _ _ _ _ _ H) in Ha as [Ha|Ha]; [by apply (eo_outcome x Hx) in Ha|by apply elem_of_list_to_set in Ha].
    + done.
Qed.
End RunLevel.

(** ** Overwritten destinations *)

(** A destination is swapped after it was prepared and after every invocation of its group has
    started and ended well; it is swapped once and then not discarded. *)
Definition swaps (T : list Event) : Prop :=
  forall t1 t2 l g ok, T = t1 ++ TCommit l g ok :: t2 ->
    TBegin l g true ∈ t1 /\ (forall i r, TStart l i r (Some g) ∈ T -> TEnd l i true ∈ t1) /\ (forall i r, TLeave l i r (Some g) ∉ T)
    /\ TDiscard l g ∉ T /\ (forall ok', TCommit l g ok' ∉ t1 ++ t2).
Lemma swaps_app T B L : swaps T -> swaps B -> (forall e, e ∈ T -> (event_level e < L)%nat) -> (forall e, e ∈ B -> event_level e = L) -> swaps (T ++ B).
Proof.
  intros HT HB LT LB t1 t2 l g ok Heq. apply app_eq_app in Heq as (m & [[Ht Hs]|[-> Hs]]).
  - destruct m as [|e m]; cbn in Hs.
    + rewrite app_nil_r in Ht. subst t1. assert (l = L) as -> by (apply (LB (TCommit l g ok)); rewrite <- Hs; by left).
      destruct (HB [] t2 L g ok (eq_sym Hs)) as (B1 & _). by apply not_elem_of_nil in B1.
    + injection Hs as <- Hs. assert (l < L)%nat as Hl by (apply (LT (TCommit l g ok)); rewrite Ht; apply elem_of_app; right; by left).
      assert (forall e, event_level e = l -> e ∉ B) as HnB by (intros e He Hin; apply LB in Hin; lia).
      destruct (HT t1 m l g ok Ht) as (B1 & S1 & V1 & D1 & C1). split; [done|]. split; [|split; [|split]].
      * intros i r [H|H]%elem_of_app; [by eapply S1|by apply HnB in H].
      * intros i r [H|H]%elem_of_app; [by apply V1 in H|by apply HnB in H].
      * intros [H|H]%elem_of_app; [done|by apply HnB in H].
      * intros ok'. rewrite Hs. intros [H|[H|H]%elem_of_app]%elem_of_app; [|by apply (C1 ok'), elem_of_app; right|by apply HnB in H].
        by apply (C1 ok'), elem_of_app; left.
  - assert (l = L) as -> by (apply (LB (TCommit l g ok)); rewrite Hs; apply elem_of_app; right; by left).
    assert (forall e, event_level e = L -> e ∉ T) as HnT by (intros e He Hin; apply LT in Hin; lia).
    destruct (HB m t2 L g ok Hs) as (B1 & S1 & V1 & D1 & C1). split; [apply elem_of_app; by right|]. split; [|split; [|split]].
    + intros i r [H|H]%elem_of_app; [by apply HnT in H|]. apply elem_of_app. right. by eapply S1.
    + intros i r [H|H]%elem_of_app; [by apply HnT in H|by apply V1 in H].
    + intros [H|H]%elem_of_app; [by apply HnT in H|done].
    + intros ok' [[H|H]%elem_of_app|H]%elem_of_app; [by apply HnT in H|by apply (C1 ok'), elem_of_app; left|by apply (C1 ok'), elem_of_app; right].
Qed.
Lemma no_commit_swaps T : (forall l g ok, TCommit l g ok ∉ T) -> swaps T.
Proof. intros H t1 t2 l g ok ->. destruct (H l g ok). apply elem_of_app. right. by left. Qed.
Definition event_group (e : Event) : option nat :=
  match e with TCommit _ g _ | TDiscard _ g => Some g | _ => None end.
Lemma group_event_group w lvl t g e : group_event w lvl t g = Some e -> event_group e = Some g.
Proof. unfold group_event. destruct (lw_finish w g); intros [= <-]; by destruct (must_abort t g). Qed.
Lemma group_events_distinct w lvl t l : NoDup l -> NoDup (omap (group_event w lvl t) l).
Proof.
  induction 1 as [|g l Hg Hl IH]; cbn [omap list_omap]; [constructor|]. destruct (group_event w lvl t g) as [e|] eqn:He; [|done].
  constructor; [|done]. intros (h & Hh & He')%list_elem_of_omap. apply group_event_group in He, He'. rewrite He in He'. by injection He' as ->.
Qed.

Lemma level_swaps w x n e : listed_rows -> exec_ok x -> let o := open_level w x (ready_rows x) in let t := run_tasks w x o in
  turn_ok (ex_level x) (op_groups o) (op_begin_failed o) (ex_trace x) (ex_outcomes x) (list_to_set (row_id <$> ready_rows x))
    (list_to_set ((fun u => row_id (un_row u)) <$> op_units o)) (op_skipped o) n t (begin_events (ex_level x) o ++ e) ->
  tn_flight t = ∅ -> swaps ((begin_events (ex_level x) o ++ e) ++ group_events w x).
Proof.
  intros Hrows Hx o t H Hf. set (E := begin_events (ex_level x) o ++ e) in *. intros t1 t2 l g ok Heq.
  assert (forall l g ok, TCommit l g ok ∉ E) as HnE by (intros l' g' ok' Hin; by apply (to_quiet _ _ _ _ _ _ _ _ _ _ _ H) in Hin).
  assert (exists m, t1 = E ++ m /\ group_events w x = m ++ TCommit l g ok :: t2) as (m & -> & Hm).
  { apply app_eq_app in Heq as (m & [[Ht Hs]|[-> Hs]]); [|by exists m]. destruct m as [|a m]; cbn in Hs.
    - exists []. rewrite app_nil_r in Ht |- *. by split.
    - injection Hs as <- _. destruct (HnE l g ok). rewrite Ht. apply elem_of_app. right. by left. }
  assert (TCommit l g ok ∈ group_events w x) as Hin by (rewrite Hm; apply elem_of_app; right; by left).
  apply group_events_only in Hin as (h & Hh & Hev). pose proof (group_event_group _ _ _ _ _ Hev) as [= <-].
  pose proof (proj1 (group_event_level _ _ _ _ Hev)) as Hl. cbn in Hl. subst l.
  assert (must_abort t g = false) as Hma by (unfold group_event in Hev; fold o t in Hev; destruct (lw_finish w g); [done|destruct (must_abort t g); done..]).
  assert (~ spoiled t (Some g)) as Hns.
  { unfold must_abort in Hma. apply orb_false_iff in Hma as [[Hc Hg]%orb_false_iff _]. apply bool_decide_eq_false in Hg. intros [Hk|Hk]; [done|by rewrite Hk in Hc]. }
  assert (forall ev, ev ∈ group_events w x -> event_group ev <> None) as Hge.
  { intros ev (h & _ & Hv)%group_events_only. apply group_event_group in Hv. by rewrite Hv. }
  split; [|split; [|split; [|split]]].
  - apply elem_of_app. left. apply elem_of_app. left. apply list_elem_of_fmap. exists g. split; [|apply elem_of_seq; fold o in Hh; lia].
    destruct (op_begin_failed o !! g) as [err|] eqn:Hb; [|done]. destruct Hns. left. apply (to_begin _ _ _ _ _ _ _ _ _ _ _ H), elem_of_dom. by rewrite Hb.
  - intros i r [Hi|Hi]%elem_of_app; [|by apply Hge in Hi]. apply elem_of_app. left.
    apply (to_start _ _ _ _ _ _ _ _ _ _ _ H) in Hi as (_ & _ & [(u & Hu & _)|[Hi|[_ Hi]]]); [by rewrite Hf in Hu|done|done].
  - intros i r [Hi|Hi]%elem_of_app; [by apply (to_leave _ _ _ _ _ _ _ _ _ _ _ H) in Hi|by apply Hge in Hi].
  - intros [Hi|Hi]%elem_of_app; [by apply (to_quiet _ _ _ _ _ _ _ _ _ _ _ H) in Hi|]. apply group_events_only in Hi as (h & _ & Hv).
    pose proof (group_event_group _ _ _ _ _ Hv) as [= <-]. unfold group_event in Hv. fold o t in Hv. rewrite Hma in Hv. by destruct (lw_finish w g).
  - intros ok' Hi. assert (TCommit (ex_level x) g ok' ∈ m ++ t2) as Hi'.
    { rewrite <- app_assoc in Hi. apply elem_of_app in Hi as [Hi|Hi]; [by apply HnE in Hi|done]. }
    assert (TCommit (ex_level x) g ok' ∈ group_events w x) as Hin.
    { rewrite Hm. apply elem_of_app. apply elem_of_app in Hi' as [Hi'|Hi']; [by left|right; by right]. }
    apply group_events_only in Hin as (h & _ & Hv). pose proof (group_event_group _ _ _ _ _ Hv) as [= <-]. rewrite Hev in Hv. injection Hv as ->.
    pose proof (group_events_distinct w (ex_level x) t (seq 0 (length (gr_members (op_groups o)))) (NoDup_seq _ _)) as Hnd.
    fold o t in Hm. unfold group_events in Hm. fold o t in Hm. rewrite Hm in Hnd. apply NoDup_app in Hnd as (_ & Hd & Hnd). apply NoDup_cons in Hnd as [Hn _].
    apply elem_of_app in Hi' as [Hi'|Hi']; [|done]. apply (Hd _ Hi'). by left.
Qed.

(** *** Whole runs *)

Lemma start_exec_ok cancelled : exec_ok (start_run cancelled).
Proof.
  split; cbn [start_run ex_trace ex_completed ex_skipped ex_outcomes].
  - intros y H. by apply elem_of_empty in H.
  - intros l i r g H. by apply not_elem_of_nil in H.
  - intros p [H _]. by apply elem_of_empty in H.
  - intros p [H _]. by apply elem_of_empty in H.
  - intros e H. by apply not_elem_of_nil in H.
  - intros o H. by apply not_elem_of_nil in H.
  - intros t1 t2 l i r g H. by destruct t1.
Qed.
Lemma exec_ok_ordered x : exec_ok x -> ordered x.
Proof.
  intros Hx. split; [apply (eo_waits x Hx)|]. intros l i r g p o Hi Hp Ho Hop. eapply (eo_clean x Hx); [|done|done].
  by eapply (eo_start x Hx).
Qed.
Lemma run_level_ok w x x' st : listed_rows -> exec_ok x -> run_level w x = (x', st) -> ordered x' /\ (st = Running -> exec_ok x').
Proof.
  intros Hrows Hx. unfold run_level. destruct (is_nil (ready_rows x)); [intros [= <- <-]; split; [by apply exec_ok_ordered|done]|].
  case_bool_decide as Hf; [by apply close_level_ok|]. intros [= <- <-]. split; [|done]. by apply (hanging_ordered Hrows w x Hx).
Qed.
Lemma run_levels_ok ws x x' st : listed_rows -> exec_ok x -> run_levels ws x = (x', st) -> ordered x' /\ (st = Running -> exec_ok x').
Proof.
  intros Hrows. revert x. induction ws as [|w ws IH]; intros x Hx; cbn [run_levels]; (case_bool_decide; [intros [= <- <-]; split; [by apply exec_ok_ordered|done]|]).
  - intros [= <- <-]. split; [by apply exec_ok_ordered|done].
  - destruct (run_level w x) as [x1 st1] eqn:E. destruct (run_level_ok w x x1 st1 Hrows Hx E) as [Ho Hok].
    destruct st1; intros Hr; [by apply (IH x1); [apply Hok|]|injection Hr as <- <-; by split..].
Qed.
(** C15: A row never starts before what it waits for is done: when an invocation of a row starts,
    every invocation its parent or a row it depends on ever has has already ended well, and no
    outcome of such a row is an error, whichever tasks fail, panic or hang, in whatever order they
    end, whenever the run is cancelled or stopped. *)
Theorem rows_wait_for_their_prerequisites cancelled ws x st t1 t2 l i r g p :
  listed_rows -> run_expanded cancelled ws = (x, st) -> ex_trace x = t1 ++ TStart l i r g :: t2 -> row_needs r p ->
  (forall l' j g', TStart l' j p g' ∈ ex_trace x -> TEnd l' j true ∈ t1)
  /\ (forall o, o ∈ ex_outcomes x -> oc_row o = p -> oc_error o = None).
Proof.
  intros Hrows Hrun Ht Hp. destruct (run_levels_ok ws _ x st Hrows (start_exec_ok cancelled) Hrun) as [[Hw Hc] _]. split.
  - intros l' j g'. by apply (Hw t1 t2 l i r g Ht p Hp).
  - intros o. apply (Hc l i r g p o); [|done]. rewrite Ht. apply elem_of_app. right. by left.
Qed.
Lemma run_level_swaps w x x' st : listed_rows -> exec_ok x -> swaps (ex_trace x) -> run_level w x = (x', st) -> swaps (ex_trace x').
Proof.
  intros Hrows Hx Hsw. unfold run_level. destruct (is_nil (ready_rows x)); [by intros [= <- <-]|]. destruct (run_tasks_turn Hrows w x) as (n & e & H).
  set (E := begin_events _ _ ++ e) in *. pose proof (to_trace _ _ _ _ _ _ _ _ _ _ _ H) as HT. case_bool_decide as Hf.
  - destruct (close_level_eq w x) as (stopped & -> & _). intros [= <- _]. cbn [ex_trace]. rewrite HT, <- app_assoc.
    apply (swaps_app _ _ (ex_level x)); [done|by apply (level_swaps w x n e)|apply (eo_level x Hx)|].
    intros ev [Hv|Hv]%elem_of_app; [by apply (to_level _ _ _ _ _ _ _ _ _ _ _ H)|]. apply group_events_only in Hv as (h & _ & Hv).
    by apply group_event_level in Hv as [-> _].
  - intros [= <- _]. cbn [ex_trace]. rewrite HT. apply (swaps_app _ _ (ex_level x)); [done| |apply (eo_level x Hx)|apply (to_level _ _ _ _ _ _ _ _ _ _ _ H)].
    apply no_commit_swaps. intros l g ok Hin. by apply (to_quiet _ _ _ _ _ _ _ _ _ _ _ H) in Hin.
Qed.
Lemma run_levels_swaps ws x x' st : listed_rows -> exec_ok x -> swaps (ex_trace x) -> run_levels ws x = (x', st) -> swaps (ex_trace x').
Proof.
  intros Hrows. revert x. induction ws as [|w ws IH]; intros x Hx Hs; cbn [run_levels]; (case_bool_decide; [by intros [= <- <-]|]); [by intros [= <- <-]|].
  destruct (run_level w x) as [x1 st1] eqn:E. pose proof (run_level_swaps w x x1 st1 Hrows Hx Hs E) as Hs1.
  pose proof (run_level_ok w x x1 st1 Hrows Hx E) as [_ Hok]. destruct st1; intros Hr; [by apply (IH x1); [apply Hok| |]|by injection Hr as <- <-..].
Qed.
(** ** The end of a run *)

(** Expansion leaves rows whose prerequisites are rows, numbered along them. *)
Definition acyclic_rows (num : string -> nat) : Prop :=
  forall r p, r ∈ rows -> p ∈ prerequisites r -> p ∈ row_id <$> rows /\ (num p < num (row_id r))%nat.
Definition covered (x : Exec) : Prop :=
  (forall y, y ∈ ex_remaining x -> y ∈ row_id <$> rows) /\ (forall y, y ∈ row_id <$> rows -> y ∈ ex_remaining x \/ row_settled x y = true).
Lemma some_row_ready num x : acyclic_rows num -> covered x -> ex_remaining x <> ∅ -> ready_rows x <> [].
Proof.
  intros Hac [Hk Hc] Hne Hnil. apply set_choose_L in Hne as [y0 Hy0].
  enough (forall n y, (num y < n)%nat -> y ∉ ex_remaining x) as H by (by apply (H (S (num y0)) y0); [lia|]).
  induction n as [|n IH]; intros y Hn Hy; [lia|]. pose proof (Hk y Hy) as (r & -> & Hr)%list_elem_of_fmap.
  apply (not_elem_of_nil r). rewrite <- Hnil. apply ready_rows_ok. split; [done|]. split; [done|]. intros q Hq.
  destruct (Hac r q Hr Hq) as [Hin Hlt]. destruct (Hc q Hin) as [Hrem|]; [|done]. by destruct (IH q ltac:(lia)).
Qed.
Lemma close_covered w x : covered x ->
  (forall y, y ∈ (closed_rows w x).1.1 -> y ∈ row_id <$> rows)
  /\ (forall y, y ∈ row_id <$> rows -> y ∈ (closed_rows w x).1.1 \/ y ∈ (closed_rows w x).1.2 \/ y ∈ (closed_rows w x).2).
Proof.
  intros [Hk Hc]. destruct (closed_rows_ok w x) as (R & C & S). split; [intros y Hy; by apply R in Hy as [Hy _]; apply Hk|].
  intros y Hy. rewrite R, C, S. unfold is_broken. destruct (decide (y ∈ row_id <$> ready_rows x)) as [Hr|Hr].
  - right. destruct (decide (y ∈ mk_failed (closed_outcomes w x).2)) as [Hf|Hf]; [|destruct (decide (y ∈ mk_not_run (closed_outcomes w x).2)) as [Hn|Hn]].
    + right. right. apply list_elem_of_fmap in Hr as (a & -> & Ha). exists a. by split; [|split; [left|left]].
    + right. right. apply list_elem_of_fmap in Hr as (a & -> & Ha). exists a. by split; [|split; [right|left]].
    + left. right. split; [done|]. by intros [|].
  - apply Hc in Hy as [Hy|Hy]; [by left; split|right]. unfold row_settled in Hy. rewrite orb_true_iff, !bool_decide_eq_true in Hy.
    destruct Hy as [Hy|Hy]; [by left; left|right; left]. by apply (od_skipped _ _ _ (open_level_ok w x (ready_rows x))).
Qed.
Lemma level_covered w x x' : covered x -> run_level w x = (x', Running) -> covered x'.
Proof.
  intros Hc%(close_covered w). destruct Hc as [Hk Hc]. unfold run_level. destruct (is_nil _); [done|]. case_bool_decide; [|done].
  destruct (close_level_eq w x) as (stopped & -> & _). intros [= <- _]. split; cbn [ex_remaining]; [done|].
  intros y Hy. unfold row_settled. cbn [ex_completed ex_skipped]. rewrite orb_true_iff, !bool_decide_eq_true. by apply Hc.
Qed.
Lemma level_shrinks w x x' st : run_level w x = (x', st) -> ex_remaining x' ⊆ ex_remaining x
  /\ (st = Running -> covered x -> ready_rows x <> [] -> (size (ex_remaining x') < size (ex_remaining x))%nat).
Proof.
  unfold run_level. destruct (is_nil (ready_rows x)) eqn:En; [by intros [= <- <-]|]. case_bool_decide; [|intros [= <- <-]; cbn [ex_remaining]; by split].
  destruct (close_level_eq w x) as (stopped & -> & _). intros [= <- _]. cbn [ex_remaining]. destruct (closed_rows_ok w x) as (R & _ & _).
  split; [intros y Hy; by apply R in Hy as [Hy _]|]. intros _ _ Hne. apply subset_size. split; [intros y Hy; by apply R in Hy as [Hy _]|].
  intros Hs. destruct (ready_rows x) as [|r l] eqn:Er; [done|]. assert (r ∈ ready_rows x) as Hr by (rewrite Er; by left).
  pose proof Hr as (_ & Hrem & _)%ready_rows_ok. apply Hs, R in Hrem as [_ Hrem]. apply Hrem. by left.
Qed.
(** The rows a level's end leaves unstarted are reported. *)
Definition reported_rows (x : Exec) : Prop :=
  forall y, y ∈ row_id <$> rows -> row_settled x y = true \/ exists o, o ∈ ex_outcomes x /\ oc_row o = y /\ oc_kind o = Some KindSkipped.
Lemma halt_reported w x x' : covered x -> run_level w x = (x', Summary) -> reported_rows x'.
Proof.
  intros Hc%(close_covered w). destruct Hc as [_ Hc]. unfold run_level. destruct (is_nil _); [done|]. case_bool_decide; [|done].
  destruct (close_level_eq w x) as (stopped & -> & _ & _ & Hst). destruct (mk_failure _ && stops); [|done]. intros [= <-].
  intros y Hy. unfold row_settled. cbn [ex_completed ex_skipped ex_outcomes]. rewrite orb_true_iff, !bool_decide_eq_true.
  destruct (Hc y Hy) as [Hr|Hs]; [right|by left]. apply list_elem_of_fmap in Hy as (r & -> & Hr').
  destruct (Hst eq_refl r Hr' Hr) as (q & Hq & Hrow). exists q. split; [apply elem_of_app; by right|done].
Qed.
(** *** Groups *)

(** A planned group never moves: an index that is set stays, as long as what a sink reports is never
    another unit's identity, and a unit keeps its group when no later unit has its key. *)
Definition apart (d : Destinations) : Prop := forall k u v, ds_reported d k = Some u -> ds_resolve d v <> Ok u.
Lemma plan_groups_index d many units g g' failed key gi : apart d -> plan_groups d many units g = (g', failed) ->
  (exists v, ds_resolve d v = Ok key) -> gr_index g !! key = Some gi -> gr_index g' !! key = Some gi.
Proof.
  intros Ha H [v Hv]. revert g failed H. induction units as [|u units IH]; intros g failed; cbn [plan_groups]; [by intros [= <- <-]|].
  destruct (row_overwrite (un_row u)); cbn [negb]; [|by apply IH]. destruct (ds_resolve d u) as [k|e].
  - set (uri := if many then _ else _). destruct (match option_or _ _ with Some gi => _ | None => _ end) as [gj members] eqn:Eg. intros H Hk.
    eapply IH; [exact H|]. cbn [gr_index]. assert (<[k := gj]> (gr_index g) !! key = Some gi) as Hins.
    { destruct (decide (k = key)) as [->|Hne]; [|by rewrite lookup_insert_ne]. rewrite Hk in Eg. cbn [option_or] in Eg. injection Eg as <- _. by rewrite lookup_insert_eq. }
    destruct uri as [q|] eqn:Eu; [|done]. rewrite lookup_insert_ne; [done|]. intros ->. unfold uri in Eu. destruct many; [|done]. by apply (Ha k key v) in Eu.
  - destruct (plan_groups d many units g) as [g1 f1] eqn:E. intros [= <- <-]. by apply (IH g f1).
Qed.
Lemma plan_groups_task d many units g g' failed k : plan_groups d many units g = (g', failed) -> k ∉ unit_key <$> units -> gr_task g' !! k = gr_task g !! k.
Proof.
  revert g failed. induction units as [|u units IH]; intros g failed; cbn [plan_groups]; [by intros [= <- <-]|]. intros H Hk.
  cbn [fmap list_fmap] in Hk. apply not_elem_of_cons in Hk as [Hne Hk]. destruct (row_overwrite (un_row u)); cbn [negb] in H; [|by apply (IH g failed)].
  destruct (ds_resolve d u) as [key|e].
  - destruct (match option_or _ _ with Some gi => _ | None => _ end) as [gj members]. rewrite (IH _ _ H Hk). cbn [gr_task]. by rewrite lookup_insert_ne.
  - destruct (plan_groups d many units g) as [g1 f1] eqn:E. injection H as <- <-. by apply (IH g f1).
Qed.
(** Overwriting invocations with one destination are one group, so they are swapped together. *)
Lemma plan_groups_member d many units g g' failed key u : apart d -> NoDup (unit_key <$> units) -> plan_groups d many units g = (g', failed) ->
  u ∈ units -> row_overwrite (un_row u) = true -> ds_resolve d u = Ok key ->
  is_Some (gr_index g' !! key) /\ gr_task g' !! unit_key u = gr_index g' !! key.
Proof.
  intros Ha. revert g failed. induction units as [|v units IH]; intros g failed Hnd H Hu Hov Hkey; [by apply not_elem_of_nil in Hu|]. cbn [plan_groups] in H.
  cbn [fmap list_fmap] in Hnd. apply NoDup_cons in Hnd as [Hn Hnd]. apply elem_of_cons in Hu as [<-|Hu].
  - rewrite Hov, Hkey in H. cbn [negb] in H. set (uri := if many then _ else _) in H.
    destruct (match option_or _ _ with Some gi => _ | None => _ end) as [gj members]. set (g1 := MkGroups _ _ _) in H.
    assert (gr_index g1 !! key = Some gj) as Hi.
    { cbn [g1 gr_index]. destruct uri as [q|] eqn:Eu; [|by rewrite lookup_insert_eq]. rewrite lookup_insert_ne; [by rewrite lookup_insert_eq|].
      intros ->. unfold uri in Eu. destruct many; [|done]. by apply (Ha key key u) in Eu. }
    rewrite (plan_groups_index d many units g1 g' failed key gj Ha H (ex_intro _ u Hkey) Hi). split; [done|].
    rewrite (plan_groups_task d many units g1 g' failed (unit_key u) H Hn). cbn [g1 gr_task]. by rewrite lookup_insert_eq.
  - destruct (row_overwrite (un_row v)); cbn [negb] in H; [|by eapply IH]. destruct (ds_resolve d v) as [k|e].
    + destruct (match option_or _ _ with Some gi => _ | None => _ end) as [gj members]. by eapply IH.
    + destruct (plan_groups d many units g) as [g1 f1] eqn:E. injection H as <- <-. by eapply IH.
Qed.
Theorem shared_destination_is_one_group d units g failed key u v : apart d -> NoDup (unit_key <$> units) -> plan_overwrite_units d units = (g, failed) ->
  u ∈ units -> v ∈ units -> row_overwrite (un_row u) = true -> row_overwrite (un_row v) = true -> ds_resolve d u = Ok key -> ds_resolve d v = Ok key ->
  is_Some (group_of g (unit_key u)) /\ group_of g (unit_key u) = group_of g (unit_key v).
Proof.
  intros Ha Hnd Hp Hu Hv Ou Ov Ku Kv. unfold plan_overwrite_units in Hp. unfold group_of.
  destruct (plan_groups_member _ _ _ _ _ _ key u Ha Hnd Hp Hu Ou Ku) as [Hs ->]. destruct (plan_groups_member _ _ _ _ _ _ key v Ha Hnd Hp Hv Ov Kv) as [_ ->]. done.
Qed.

(** *** Whole swaps *)

(** The invocations planned for a level, before any is refused for its destination. *)
Definition planned (x : Exec) : list Unit_ :=
  let '(records, _, _) := foldl take_records (∅, dt_captured (ex_data x), ex_pending x) (ready_rows x) in
  (plan_rows (ex_data x) records (ex_skipped x) (ready_rows x)).1.1.
(** Nothing was refused while the level was planned: every outcome decided before anything ran is
    that of a skipped row. *)
Definition unrefused (w : LevelWorld) (x : Exec) : Prop := forall o, o ∈ op_pre (open_level w x (ready_rows x)) -> is_skip o = true.
Definition level_groups (w : LevelWorld) (x : Exec) : Groups := op_groups (open_level w x (ready_rows x)).

Lemma unrefused_units w x : unrefused w x ->
  op_units (open_level w x (ready_rows x)) = planned x
  /\ (dry_run = false -> plan_overwrite_units (lw_dest w) (planned x) = (level_groups w x, [])).
Proof.
  unfold unrefused, level_groups, planned, open_level. destruct (foldl take_records _ _) as [[records captured] pending].
  destruct (plan_rows _ _ _ _) as [[us os] sk]. destruct (if dry_run then _ else _) as [groups failed] eqn:Eg.
  cbn [op_pre op_units op_groups fst]. intros H. assert (failed = []) as ->.
  { destruct failed as [|f failed]; [done|]. specialize (H (refuse f.1.1 f.1.2 f.2)). rewrite refuse_not_skip in H. discriminate H. apply elem_of_app. right. left. }
  split; [|intros Hd; by rewrite Hd in Eg]. clear. induction us as [|u us IH]; [done|]. cbn [List.filter existsb negb]. by f_equal.
Qed.

Lemma spawn_traced lvl w groups bf t i u :
  exists e, tn_trace (spawn lvl w groups bf t (i, u)) = tn_trace t ++ [e]
    /\ (e = TStart lvl i (row_id (un_row u)) (group_of groups (unit_key u)) \/ e = TLeave lvl i (row_id (un_row u)) (group_of groups (unit_key u))).
Proof.
  unfold spawn. destruct (_ && stops); [eexists; split; [reflexivity|by right]|].
  destruct (_ ≫= _); eexists; (split; [reflexivity|]); [by right|by left].
Qed.
Lemma join_step_traced lvl groups t ev : exists e, tn_trace (join_step rows lvl groups t ev) = tn_trace t ++ e.
Proof.
  assert (exists e, tn_trace t = tn_trace t ++ e) as Hnil by (exists []; by rewrite app_nil_r).
  destruct ev; cbn [join_step]; try exact Hnil; (destruct (tn_flight t !! task); [|exact Hnil]).
  - destruct (finish_unit _ _ _ _ _). by eexists.
  - by eexists.
  - destruct (fl_aborted _); [by eexists|exact Hnil].
Qed.
Lemma foldl_traced {A} (f : Turn -> A -> Turn) l t : (forall t a, exists e, tn_trace (f t a) = tn_trace t ++ e) ->
  exists e, tn_trace (foldl f t l) = tn_trace t ++ e.
Proof.
  intros Hf. revert t. induction l as [|a l IH]; intros t; cbn [foldl]; [exists []; by rewrite app_nil_r|].
  destruct (IH (f t a)) as [e ->], (Hf t a) as [e' ->]. exists (e' ++ e). by rewrite app_assoc.
Qed.
(** Every unit of a level is started or left out. *)
Lemma units_traced w x i u : let o := open_level w x (ready_rows x) in op_units o !! i = Some u ->
  exists e, e ∈ tn_trace (run_tasks w x o)
    /\ (e = TStart (ex_level x) i (row_id (un_row u)) (group_of (op_groups o) (unit_key u))
        \/ e = TLeave (ex_level x) i (row_id (un_row u)) (group_of (op_groups o) (unit_key u))).
Proof.
  intros o Hi. unfold run_tasks. set (f := spawn (ex_level x) w (op_groups o) (op_begin_failed o)).
  assert (forall t a, exists e, tn_trace (f t a) = tn_trace t ++ e) as Hf.
  { intros t [j v]. destruct (spawn_traced (ex_level x) w (op_groups o) (op_begin_failed o) t j v) as (e & He & _). exists [e]. exact He. }
  set (t0 := MkTurn _ _ _ _ _ _).
  assert (imap pair (op_units o) = take i (imap pair (op_units o)) ++ (i, u) :: drop (S i) (imap pair (op_units o))) as Hsplit.
  { symmetry. apply take_drop_middle. by rewrite list_lookup_imap, Hi. }
  destruct (foldl_traced (join_step rows (ex_level x) (op_groups o)) (lw_events w) (foldl f t0 (imap pair (op_units o)))
    (join_step_traced _ _)) as [e1 ->].
  rewrite Hsplit, foldl_app. cbn [foldl]. set (t1 := foldl f t0 _).
  destruct (foldl_traced f (drop (S i) (imap pair (op_units o))) (f t1 (i, u)) Hf) as [e2 ->].
  destruct (spawn_traced (ex_level x) w (op_groups o) (op_begin_failed o) t1 i u) as (e & He & Hk). fold f in He. rewrite He.
  exists e. split; [|done]. rewrite <- !app_assoc. apply elem_of_app. right. by left.
Qed.

(** The trace of a run only grows. *)
Lemma run_level_traced w x x' st : listed_rows -> exec_ok x -> run_level w x = (x', st) -> ready_rows x <> [] ->
  (exists e, ex_trace x' = tn_trace (run_tasks w x (open_level w x (ready_rows x))) ++ e)
  /\ exists e, ex_trace x' = ex_trace x ++ e.
Proof.
  intros Hrows Hx H Hne. destruct (run_tasks_turn Hrows w x) as (n & e & Ht).
  pose proof (to_trace _ _ _ _ _ _ _ _ _ _ _ Ht) as HT. unfold run_level in H.
  destruct (is_nil (ready_rows x)) eqn:En; [by destruct (ready_rows x)|].
  assert (exists e', ex_trace x' = tn_trace (run_tasks w x (open_level w x (ready_rows x))) ++ e') as (e' & He').
  { case_bool_decide as Hf.
    - destruct (close_level_eq w x) as (stopped & Heq & _). rewrite Heq in H. injection H as <- _. by eexists.
    - injection H as <- _. exists []. by rewrite app_nil_r. }
  split; [by exists e'|]. rewrite He', HT, <- app_assoc. by eexists.
Qed.
Lemma run_levels_traced ws x x' st : listed_rows -> exec_ok x -> run_levels ws x = (x', st) -> exists e, ex_trace x' = ex_trace x ++ e.
Proof.
  intros Hrows. revert x. assert (forall x, exists e, ex_trace x = ex_trace x ++ e) as Hnil by (intros x; exists []; by rewrite app_nil_r).
  induction ws as [|w ws IH]; intros x Hx; cbn [run_levels]; (case_bool_decide; [intros [= <- <-]; apply Hnil|]); [intros [= <- <-]; apply Hnil|].
  destruct (run_level w x) as [x1 st1] eqn:E. assert (exists e, ex_trace x1 = ex_trace x ++ e) as [e1 He1].
  { destruct (decide (ready_rows x = [])) as [Hr|Hr]; [|by eapply run_level_traced]. unfold run_level in E. rewrite Hr in E. injection E as <- _. apply Hnil. }
  pose proof (run_level_ok w x x1 st1 Hrows Hx E) as [_ Hok]. destruct st1; intros Hr; try (injection Hr as <- <-; by exists e1).
  destruct (IH x1 (Hok eq_refl) Hr) as [e2 ->]. rewrite He1, <- app_assoc. by eexists.
Qed.
Lemma run_levels_app ws ws' x x1 : run_levels ws x = (x1, Running) -> run_levels (ws ++ ws') x = run_levels ws' x1.
Proof.
  revert x. induction ws as [|w ws IH]; intros x; cbn [run_levels app].
  - case_bool_decide; [done|]. by intros [= <-].
  - case_bool_decide; [done|]. destruct (run_level w x) as [y []]; [apply IH|done..].
Qed.

(** C16: An overwritten destination is swapped only whole. Take any level of any run in which no
    invocation was refused while the level was planned, the invocations have distinct keys and
    what a sink reports of its destination is no other unit's own name. When the group of a
    destination is swapped there, it was prepared before; every overwriting invocation planned
    for that destination was started and ended well before; and the group is swapped once and not
    discarded too. This holds whichever tasks of the run fail, panic or are stopped. *)
Theorem destinations_swap_whole cancelled ws w ws' x x' st t1 t2 g ok :
  listed_rows -> run_expanded cancelled ws = (x, Running) -> run_expanded cancelled (ws ++ w :: ws') = (x', st) ->
  ex_trace x' = t1 ++ TCommit (ex_level x) g ok :: t2 ->
  unrefused w x -> NoDup (unit_key <$> planned x) -> apart (lw_dest w) ->
  TBegin (ex_level x) g true ∈ t1
  /\ (forall i u key, planned x !! i = Some u -> row_overwrite (un_row u) = true -> ds_resolve (lw_dest w) u = Ok key ->
        gr_index (level_groups w x) !! key = Some g ->
        TStart (ex_level x) i (row_id (un_row u)) (Some g) ∈ ex_trace x' /\ TEnd (ex_level x) i true ∈ t1)
  /\ TDiscard (ex_level x) g ∉ ex_trace x' /\ (forall ok', TCommit (ex_level x) g ok' ∉ t1 ++ t2).
Proof.
  intros Hrows Hx Hrun Ht Hun Hnd Hap. unfold run_expanded in Hx, Hrun. pose proof Hrun as Hrun0. rewrite (run_levels_app _ _ _ _ Hx) in Hrun.
  pose proof (run_levels_ok ws _ x Running Hrows (start_exec_ok cancelled) Hx) as [_ Hok]. specialize (Hok eq_refl).
  assert (swaps (ex_trace x')) as Hsw.
  { apply (run_levels_swaps _ _ x' st Hrows (start_exec_ok cancelled)) in Hrun0; [done|].
    apply no_commit_swaps. intros ? ? ? H. by apply not_elem_of_nil in H. }
  destruct (Hsw t1 t2 (ex_level x) g ok Ht) as (Hb & Hs & Hl & Hd & Hc). split; [done|]. split; [|done].
  intros i u key Hi Hov Hres Hidx. destruct (unrefused_units w x Hun) as [Hu Hg].
  destruct dry_run eqn:Hdry.
  { unfold level_groups, open_level in Hidx. rewrite Hdry in Hidx. repeat case_match; by simplify_eq/=. }
  assert (group_of (level_groups w x) (unit_key u) = Some g) as Hgu.
  { unfold group_of. rewrite <- Hidx. specialize (Hg eq_refl). unfold plan_overwrite_units in Hg.
    eapply (plan_groups_member (lw_dest w) _ (planned x)); [done|done|exact Hg|by eapply list_elem_of_lookup_2|done|done]. }
  destruct (units_traced w x i u) as (e & He & Hk); [by rewrite Hu|]. fold (level_groups w x) in Hk. rewrite Hgu in Hk.
  assert (e ∈ ex_trace x') as Hin.
  { assert (x' <> x) as Hne.
    { intros ->. apply (Nat.lt_irrefl (ex_level x)), (eo_level x Hok (TCommit (ex_level x) g ok)). rewrite Ht. apply elem_of_app. right. by left. }
    cbn [run_levels] in Hrun. case_bool_decide; [by injection Hrun as <- <-|]. destruct (run_level w x) as [x1 st1] eqn:E.
    assert (ready_rows x <> []) as Hr.
    { intros Hr. unfold run_level in E. rewrite Hr in E. injection E as <- <-. by injection Hrun as <- <-. }
    destruct (run_level_traced w x x1 st1 Hrows Hok E Hr) as [[e1 He1] _].
    assert (e ∈ ex_trace x1) as He2 by (rewrite He1; apply elem_of_app; by left).
    pose proof (run_level_ok w x x1 st1 Hrows Hok E) as [_ Hok1]. destruct st1; try (by injection Hrun as <- <-).
    destruct (run_levels_traced ws' x1 x' st Hrows (Hok1 eq_refl) Hrun) as [e3 ->]. apply elem_of_app. by left. }
  destruct Hk as [-> | ->]; [|by apply Hl in Hin]. split; [done|]. by eapply Hs.
Qed.

(** C17: A run over acyclic rows never deadlocks. Given as many levels as it has rows it has returned
    its summary, unless some task never ends, and then every row has run, was skipped, or is
    reported as not started. *)
Theorem run_returns_its_summary num cancelled ws x st :
  acyclic_rows num -> run_expanded cancelled ws = (x, st) -> (length rows <= length ws)%nat ->
  st = Hanging \/ (st = Summary /\ reported_rows x).
Proof.
  intros Hac Hrun Hlen. unfold run_expanded in Hrun.
  assert (covered (start_run cancelled)) as Hc by (split; cbn; intros y Hy; [by apply elem_of_list_to_set in Hy|left; by apply elem_of_list_to_set]).
  assert (size (ex_remaining (start_run cancelled)) <= length ws)%nat as Hsz.
  { etrans; [|exact Hlen]. cbn [start_run ex_remaining]. rewrite <- (length_fmap row_id rows). apply list_to_set_size_le. }
  clear Hlen. revert Hc Hsz Hrun. generalize (start_run cancelled). induction ws as [|w ws IH]; intros x0 Hc Hsz; cbn [run_levels].
  - assert (ex_remaining x0 = ∅) as He by (apply leibniz_equiv, size_empty_inv; cbn [length] in Hsz; lia). rewrite bool_decide_eq_true_2 by done. intros [= <- <-]. right.
    split; [done|]. intros y Hy. left. destruct (proj2 Hc y Hy) as [Hr|]; [|done]. rewrite He in Hr. by apply elem_of_empty in Hr.
  - case_bool_decide as He.
    { intros [= <- <-]. right. split; [done|]. intros y Hy. left. destruct (proj2 Hc y Hy) as [Hr|]; [|done]. rewrite He in Hr. by apply elem_of_empty in Hr. }
    pose proof (some_row_ready num x0 Hac Hc He) as Hready. destruct (run_level w x0) as [x1 st1] eqn:E.
    pose proof (level_shrinks w x0 x1 st1 E) as [_ Hsh]. destruct st1.
    + apply IH; [by eapply level_covered|]. specialize (Hsh eq_refl Hc Hready). cbn in Hsz. lia.
    + intros [= <- <-]. right. split; [done|]. by eapply halt_reported.
    + exfalso. unfold run_level in E. destruct (ready_rows x0); [done|]. cbn [is_nil] in E. case_bool_decide; [|done].
      destruct (close_level _ _ _ _ _) eqn:Ec in E. unfold close_level in Ec. repeat case_match; by simplify_eq.
    + intros [= <- <-]. by left.
Qed.
End Run.
End Options.

(** ** Examples *)

(** Orders, their items and a report over the items; the items overwrite one table. *)
Definition sample_text (v : Value) : string := match v with VNumber (PosInt 1) => "1" | _ => "?" end.
Definition sample_exec_rows (uses_state : bool) : list Row :=
  [MkRow "orders" None RootRow [] [] uses_state false; MkRow "items" None (ChildRow "orders" "id") [] [] uses_state true;
   MkRow "report" None RootRow ["items"] [] uses_state false].
Definition sample_execute (on_error : OnError) (uses_state : bool) (ws : list LevelWorld) : Exec * Status :=
  run_expanded sample_text (fun _ _ => None) (fun _ => "refused") (fun _ _ => EmptyString) None "shop" on_error Declared false false
    (sample_exec_rows uses_state) false ws.
Definition one_table : Destinations := MkDestinations (fun _ => Ok "items") (fun _ => None) (fun _ => "items").
Definition order_of (key : Value) : Value := VObject [("id", key)].
Definition level_of (d : Destinations) (events : list Joined) : LevelWorld := MkLevelWorld d (fun _ => None) (fun _ => false) events (fun _ => Finished).
Definition captured_orders (keys : list Value) : LevelWorld := level_of one_table [JFinished 0 (Ok (MkDone [order_of <$> keys] 2))].
Definition wrote_rows : result Done CliError := Ok (MkDone [] 1).
(** Two orders: their items end in either order, are swapped in once, and the report follows. *)
Definition sample_worlds : list LevelWorld :=
  [captured_orders [VString "a"; VString "b"]; level_of one_table [JFinished 1 wrote_rows; JFinished 0 wrote_rows]; level_of one_table [JFinished 0 wrote_rows]].
Definition sample_trace : list Event :=
  [TStart 0 0 "orders" None; TEnd 0 0 true; TBegin 1 0 true; TStart 1 0 "items" (Some 0%nat); TStart 1 1 "items" (Some 0%nat); TEnd 1 1 true; TEnd 1 0 true;
   TCommit 1 0 true; TStart 2 0 "report" None; TEnd 2 0 true].
Lemma sample_run_traced : ex_trace (sample_execute Continue true sample_worlds).1 = sample_trace /\ (sample_execute Continue true sample_worlds).2 = Summary.
Proof. by vm_compute. Qed.
Lemma sample_rows_listed uses_state : listed_rows (sample_exec_rows uses_state).
Proof.
  split; [by apply (bool_decide_unpack _); vm_compute|]. intros r Hr. unfold sample_exec_rows in Hr. rewrite !elem_of_cons in Hr.
  by destruct Hr as [-> |[-> |[-> |Hr]]]; [..|by apply not_elem_of_nil in Hr].
Qed.
Lemma rows_wait_for_their_prerequisites_witness : TStart 1 1 "items" (Some 0%nat) ∈ sample_trace /\ TEnd 1 1 true ∈ take 8 sample_trace.
Proof.
  assert (TStart 1 1 "items" (Some 0%nat) ∈ sample_trace) as Hin by (by do 4 right; left). split; [done|].
  destruct (sample_execute Continue true sample_worlds) as [x st] eqn:E. pose proof sample_run_traced as [Ht _]. rewrite E in Ht. cbn [fst] in Ht.
  rewrite <- Ht in Hin. unfold sample_execute in E. revert Hin.
  apply (rows_wait_for_their_prerequisites _ _ _ _ _ _ _ _ _ _ _ _ _ x st (take 8 sample_trace) (drop 9 sample_trace) 2 0 "report" None "items" (sample_rows_listed true) E);
    [by rewrite Ht|]. exists (MkRow "report" None RootRow ["items"] [] true false). split; [by do 2 right; left|]. split; [done|]. by left.
Defined.
(** The run after its first level: the items of both orders are planned next. *)
Definition after_orders : Exec := (sample_execute Continue true (take 1 sample_worlds)).1.
Definition items_level : LevelWorld := level_of one_table [JFinished 1 wrote_rows; JFinished 0 wrote_rows].
Lemma destinations_swap_whole_witness :
  TBegin 1 0 true ∈ take 7 sample_trace /\
  (TStart 1 0 "items" (Some 0%nat) ∈ sample_trace /\ TEnd 1 0 true ∈ take 7 sample_trace) /\
  (TStart 1 1 "items" (Some 0%nat) ∈ sample_trace /\ TEnd 1 1 true ∈ take 7 sample_trace) /\
  TDiscard 1 0 ∉ sample_trace /\ (forall ok', TCommit 1 0 ok' ∉ take 7 sample_trace ++ drop 8 sample_trace).
Proof.
  destruct (sample_execute Continue true sample_worlds) as [x st] eqn:E. pose proof sample_run_traced as [Ht _]. rewrite E in Ht. cbn [fst] in Ht.
  destruct (destinations_swap_whole sample_text (fun _ _ => None) (fun _ => "refused") (fun _ _ => EmptyString) None "shop" Continue Declared false false
    (sample_exec_rows true) false (take 1 sample_worlds) items_level (drop 2 sample_worlds) after_orders x st (take 7 sample_trace) (drop 8 sample_trace) 0 true)
    as (H1 & H2 & H3 & H4).
  - apply sample_rows_listed.
  - by vm_compute.
  - exact E.
  - by rewrite Ht.
  - unfold unrefused. match goal with |- forall o, o ∈ ?l -> _ => assert (l = []) as -> by (by vm_compute) end. intros o Ho. destruct (not_elem_of_nil o Ho).
  - apply (bool_decide_unpack _). vm_compute. exact I.
  - intros k u v. discriminate.
  - assert (ex_level after_orders = 1%nat) as Hl by (by vm_compute). rewrite Hl, Ht in *. clear E Ht x st Hl.
    assert (forall i, (i < 2)%nat -> exists u, planned sample_text (fun _ => "refused") (fun _ _ => EmptyString) None "shop" Declared (sample_exec_rows true) after_orders !! i = Some u
      /\ row_overwrite (un_row u) = true /\ row_id (un_row u) = "items") as Hu.
    { intros [|[|i]] Hi; [eexists; split; [vm_compute; reflexivity|by split]..|lia]. }
    split; [exact H1|]. split; [|split; [|split; [exact H3|exact H4]]].
    + destruct (Hu 0%nat ltac:(lia)) as (u & Hp & Ho & Hr). rewrite <- Hr. apply (H2 0%nat u "items" Hp Ho); by vm_compute.
    + destruct (Hu 1%nat ltac:(lia)) as (u & Hp & Ho & Hr). rewrite <- Hr. apply (H2 1%nat u "items" Hp Ho); by vm_compute.
Defined.
Definition sample_row_number (id : string) : nat := if string_eqb id "orders" then 0 else if string_eqb id "items" then 1 else 2.
Lemma run_returns_its_summary_witness : exists x, sample_execute Continue true sample_worlds = (x, Summary) /\ reported_rows (sample_exec_rows true) x.
Proof.
  destruct (sample_execute Continue true sample_worlds) as [x st] eqn:E. pose proof sample_run_traced as [_ Hs]. rewrite E in Hs. cbn [snd] in Hs. subst st.
  exists x. split; [done|]. unfold sample_execute in E.
  destruct (run_returns_its_summary sample_text (fun _ _ => None) (fun _ => "refused") (fun _ _ => EmptyString) None "shop" Continue Declared false false
    (sample_exec_rows true) sample_row_number false sample_worlds x Summary) as [Hh|[_ H]]; [|exact E|cbn; lia|done|exact H].
  intros r p Hr Hp.
  assert (Forall (fun r => Forall (fun p => p ∈ row_id <$> sample_exec_rows true /\ (sample_row_number p < sample_row_number (row_id r))%nat) (prerequisites r))
    (sample_exec_rows true)) as H by (apply (bool_decide_unpack _); by vm_compute).
  rewrite Forall_forall in H. specialize (H r Hr). rewrite Forall_forall in H. by apply H.
Defined.

(** A refused invocation is no member of its group: the items of an order without a key are refused,
    and the others are swapped in, without the rows of that order. *)
Definition partial_run := sample_execute Continue true [captured_orders [VString "a"; Null]; level_of one_table [JFinished 0 wrote_rows]].
Example refused_sibling_is_swapped_without :
  (fun o => (oc_row o, oc_error o)) <$> ex_outcomes partial_run.1 = [("orders", None); ("items", Some "refused"); ("items", None)]
  /\ drop 2 (ex_trace partial_run.1) = [TBegin 1 0 true; TStart 1 0 "items" (Some 0%nat); TEnd 1 0 true; TCommit 1 0 true].
Proof. by vm_compute. Qed.
(** Orders 1 and the text 1 have different state keys but one key in the plan: when the first one's
    destination does not resolve, the second one's invocation is dropped too, without an outcome,
    and its group is swapped although nothing has written to it. *)
Definition some_tables : Destinations :=
  MkDestinations (fun u => match un_record u with Some (VObject [(_, VNumber _)]) => Err (CliConfig "no table") | _ => Ok "items" end) (fun _ => None) (fun _ => "items").
Definition mixed_run := sample_execute Continue true [captured_orders [VNumber (PosInt 1); VString "1"]; level_of some_tables [JFinished 0 wrote_rows; JFinished 1 wrote_rows]].
Example emptied_by_a_sibling_key :
  (fun o => (oc_row o, oc_error o)) <$> ex_outcomes mixed_run.1 = [("orders", None); ("items", Some "refused")] /\ ex_level mixed_run.1 = 2%nat
  /\ drop 2 (ex_trace mixed_run.1) = [TBegin 1 0 true; TCommit 1 0 true].
Proof. by vm_compute. Qed.
