(* ===== verification/Stage.v ===== *)
(** Transform stages: crates/core/src/stage.rs. A stage maps one record to any
    number of records, or a page to a page.

    The stages that are functions of the embedder ([Custom], [PageFn]) are
    functions here too. *)
From S2P Require Import Prelude Errors Float64 Json Text Drift Quality Contract WriteMode Transform.
From Stdlib Require Import Ascii.

Local Open Scope Z_scope.
Local Open Scope result_scope.

(** ** Paths *)

(** [struct CompiledPath]; a segment is a key. *)
Record CompiledPath := MkPath { normalised : string; segments : list string }.

(** [str::find(char)] as a split before the first of the characters. *)
Fixpoint split_at_char (p : ascii -> bool) (s : string) : string * string :=
  match s with
  | EmptyString => (EmptyString, EmptyString)
  | String c r => if p c then (EmptyString, s) else let '(a, b) := split_at_char p r in (String c a, b)
  end.
Definition is_dot_or_bracket (c : ascii) : bool := Ascii.eqb c "." || Ascii.eqb c "[".
Definition QUOTE : ascii := "'".
Definition DQUOTE : ascii := ascii_of_nat 34.

Definition path_err {A} (raw what : string) : result A FaucetError :=
  Err (Errors.Transform ("invalid path '" +:+ raw +:+ "': " +:+ what)).
Definition v1_syntax_err {A} (raw : string) : result A FaucetError :=
  path_err raw "only single-node paths are supported ('[*]', '..', '[?]' not allowed in this layer)".

(** One chunk of a path: a [.key] or a [['key']], with the rest of the text. *)
Definition dot_chunk (raw after_dot : string) : result (string * string) FaucetError :=
  if match after_dot with String "." _ => true | _ => false end then v1_syntax_err raw
  else
    let '(key, rest) := split_at_char is_dot_or_bracket after_dot in
    if is_empty_str key then path_err raw "empty segment after '.'" else Ok (key, rest).
Definition bracket_chunk (raw after_open : string) : result (string * string) FaucetError :=
  match after_open with
  | EmptyString => path_err raw "unterminated bracket"
  | String next after_quote =>
      if Ascii.eqb next "*" || Ascii.eqb next "?" then v1_syntax_err raw
      else if negb (Ascii.eqb next QUOTE || Ascii.eqb next DQUOTE) then
        path_err raw "bracket form requires a quoted key"
      else
        let '(key, close) := split_at_char (Ascii.eqb next) after_quote in
        match close with
        | EmptyString => path_err raw "unterminated quoted key"
        | String _ after_close_quote =>
            match after_close_quote with
            | String "]" rest => Ok (key, rest)
            | _ => path_err raw "expected ']' after quoted key"
            end
        end
  end.

(** The loop of [CompiledPath::compile]; every chunk takes at least one byte. *)
Fixpoint path_chunks (fuel : nat) (raw rest : string) : result (list string) FaucetError :=
  match fuel with
  | O => Ok []
  | S fuel =>
      match rest with
      | EmptyString => Ok []
      | String "." after_dot =>
          let? (key, rest) := dot_chunk raw after_dot in
          let? keys := path_chunks fuel raw rest in Ok (key :: keys)
      | String "[" after_open =>
          let? (key, rest) := bracket_chunk raw after_open in
          let? keys := path_chunks fuel raw rest in Ok (key :: keys)
      | _ => path_err raw ("unexpected character at '" +:+ rest +:+ "'")
      end
  end.
Definition compile_path (raw : string) : result CompiledPath FaucetError :=
  let normalised := match raw with String "$" _ => raw | _ => "$." +:+ raw end in
  let rest := str_drop 1 normalised in
  let? segments := path_chunks (S (String.length rest)) raw rest in
  if is_nil segments then path_err raw "empty (must address a key)"
  else Ok (MkPath normalised segments).

(** [last_segment], [parent_and_leaf], [resolve_segments], [resolve]. *)
Definition last_segment (p : CompiledPath) : string := default EmptyString (last (segments p)).
Definition parent_segments (p : CompiledPath) : list string := take (length (segments p) - 1) (segments p).
Fixpoint resolve_segments (v : Value) (segs : list string) : option Value :=
  match segs with
  | [] => Some v
  | k :: segs => match get v k with Some x => resolve_segments x segs | None => None end
  end.
Definition resolve_path (p : CompiledPath) (v : Value) : option Value := resolve_segments v (segments p).

(** [resolve_segments_mut]: the value with the object at the end of the path
    rewritten by [f]; [None] where there is no such object. *)
Fixpoint update_container (f : list (string * Value) -> result (list (string * Value)) FaucetError)
  (v : Value) (segs : list string) : result (option Value) FaucetError :=
  match v with
  | VObject m =>
      match segs with
      | [] => let? m := f m in Ok (Some (VObject m))
      | k :: segs =>
          match assoc k m with
          | Some x =>
              let? x := update_container f x segs in
              Ok match x with Some x => Some (VObject (assoc_insert k x m)) | None => None end
          | None => Ok None
          end
      end
  | _ => Ok None
  end.

(** ** Writing a path *)

(** The bracketed form of a list of keys. *)
Definition bracketed (keys : list string) : string := concat_all ((fun k => "['" +:+ k +:+ "']") <$> keys).
Fixpoint no_quote (s : string) : bool :=
  match s with EmptyString => true | String c s => negb (Ascii.eqb QUOTE c) && no_quote s end.

Lemma split_at_quote k rest : no_quote k = true -> split_at_char (Ascii.eqb QUOTE) (k +:+ String QUOTE rest) = (k, String QUOTE rest).
Proof.
  induction k as [|c k IH]; intros Hk; [done|]. apply andb_true_iff in Hk as [Hc%negb_true_iff Hk].
  change (String c k +:+ String QUOTE rest) with (String c (k +:+ String QUOTE rest)). cbn [split_at_char].
  by rewrite Hc, IH.
Qed.

Lemma path_chunks_bracketed raw keys fuel :
  forallb no_quote keys = true -> (length keys < fuel)%nat -> path_chunks fuel raw (bracketed keys) = Ok keys.
Proof.
  revert fuel. induction keys as [|k keys IH]; intros [|fuel] Hk Hf; try done; [cbn in Hf; lia|].
  apply andb_true_iff in Hk as [Hk Hks]. unfold bracketed. rewrite fmap_cons.
  assert (concat_all (("['" +:+ k +:+ "']") :: ((fun k => "['" +:+ k +:+ "']") <$> keys)) =
          String "[" (String QUOTE (k +:+ String QUOTE (String "]" (bracketed keys))))) as ->.
  { unfold concat_all. cbn [foldr]. rewrite !string_app_assoc. done. }
  cbn [path_chunks]. unfold bracket_chunk. rewrite split_at_quote by done.
  change (Ascii.eqb QUOTE "*" || Ascii.eqb QUOTE "?") with false. change (negb (Ascii.eqb QUOTE QUOTE || _)) with false.
  cbn [result_bind]. rewrite IH; [done|done|]. cbn in Hf. lia.
Qed.

Lemma bracketed_length keys : (length keys <= String.length (bracketed keys))%nat.
Proof.
  unfold bracketed. induction keys as [|k keys IH]; [done|]. rewrite fmap_cons. cbn [concat_all foldr].
  change (foldr String.append EmptyString ((fun k => "['" +:+ k +:+ "']") <$> keys)) with (concat_all ((fun k => "['" +:+ k +:+ "']") <$> keys)).
  rewrite !string_length_app. cbn [length String.length]. lia.
Qed.

(** Every list of keys can be written as a path. For any keys that hold no
    single quote (dots, brackets, spaces and empty keys included), the bracketed
    path compiles, and its segments are those keys. *)
Theorem bracketed_path_roundtrip keys :
  keys <> [] -> forallb no_quote keys = true ->
  compile_path ("$" +:+ bracketed keys) = Ok (MkPath ("$" +:+ bracketed keys) keys).
Proof.
  intros Hne Hk. unfold compile_path. change ("$" +:+ bracketed keys) with (String "$" (bracketed keys)). cbn [str_drop].
  rewrite path_chunks_bracketed; [|done|pose proof (bracketed_length keys); lia]. by destruct keys.
Qed.

Lemma bracketed_path_roundtrip_witness :
  let keys := ["a..b"; EmptyString; "x[*]"] in
  forallb no_quote keys = true /\
  compile_path "$['a..b']['']['x[*]']" = Ok (MkPath "$['a..b']['']['x[*]']" keys).
Proof.
  intros keys. split; [reflexivity|]. by apply (bracketed_path_roundtrip keys).
Defined.

(** ** Filter *)

Inductive FilterOp := OpEq | OpNe | OpExists | OpIn | OpNotIn.
Record FilterSpec := MkFilterSpec { fs_path : string; fs_op : FilterOp; fs_value : option Value }.
Record CompiledFilter := MkFilter { cf_path : CompiledPath; cf_op : FilterOp; cf_value : option Value }.
Definition op_str (op : FilterOp) : string :=
  match op with OpEq => "eq" | OpNe => "ne" | OpExists => "exists" | OpIn => "in" | OpNotIn => "not_in" end.

(** [CompiledFilter::compile]; the error of the path gets the stage's name. *)
Definition prefix_err {A} (stage : string) (r : result A FaucetError) : result A FaucetError :=
  match r with
  | Err (Errors.Transform msg) => Err (Errors.Transform (stage +:+ ": " +:+ msg))
  | _ => r
  end.
Definition check_filter_value (op : FilterOp) (value : option Value) : result unit FaucetError :=
  match op, value with
  | OpExists, Some _ => Err (Errors.Transform "filter: op 'exists' must not have a `value`")
  | OpEq, None | OpNe, None => Err (Errors.Transform ("filter: op '" +:+ op_str op +:+ "' requires a `value`"))
  | OpIn, Some (VArray _) | OpNotIn, Some (VArray _) => Ok tt
  | OpIn, _ | OpNotIn, _ => Err (Errors.Transform ("filter: op '" +:+ op_str op +:+ "' requires an array `value`"))
  | _, _ => Ok tt
  end.
Definition compile_filter (spec : FilterSpec) : result CompiledFilter FaucetError :=
  let? _ := check_filter_value (fs_op spec) (fs_value spec) in
  let? path := prefix_err "filter" (compile_path (fs_path spec)) in
  Ok (MkFilter path (fs_op spec) (fs_value spec)).

(** [float_is_int], [number_eq], [json_eq]: one number type. *)
Definition f64_to_i128 (f : f64) : Z :=
  match f with
  | SpecFloat.S754_finite s m e => let q := int_part (Zpos m) e in if s then - q else q
  | _ => 0
  end.
Definition float_is_int (f : f64) (i : Z) : bool :=
  f64_integral f && f64_lt (f64_abs f) (f64_of_Z (2 ^ 100)) && (f64_to_i128 f =? i) && SpecFloat.SFeqb (f64_of_Z i) f.
Definition num_int (n : Number) : option Z := option_or (num_i64 n) (num_u64 n).
Definition filter_number_eq (x y : Number) : bool :=
  match num_int x, num_int y with
  | Some a, Some b => a =? b
  | Some i, None => float_is_int (num_f64 y) i
  | None, Some i => float_is_int (num_f64 x) i
  | None, None => SpecFloat.SFeqb (num_f64 x) (num_f64 y)
  end.
Fixpoint filter_json_eq (a b : Value) {struct a} : bool :=
  match a, b with
  | VNumber x, VNumber y => filter_number_eq x y
  | VArray x, VArray y =>
      (fix all2 (x y : list Value) := match x, y with
         | [], [] => true
         | p :: x, q :: y => filter_json_eq p q && all2 x y
         | _, _ => false
         end) x y
  | VObject x, VObject y =>
      (zlen x =? zlen y) &&
      (fix all (x : list (string * Value)) := match x with
         | [] => true
         | (k, p) :: x => match assoc k y with Some q => filter_json_eq p q | None => false end && all x
         end) x
  | _, _ => json_eq a b
  end.

(** [CompiledFilter::evaluate]. *)
Definition as_array (v : option Value) : list Value := match v with Some (VArray l) => l | _ => [] end.
Definition evaluate_filter (f : CompiledFilter) (rec : Value) : bool :=
  let operand := default Null (cf_value f) in
  match cf_op f, resolve_path (cf_path f) rec with
  | OpEq, Some v => filter_json_eq v operand
  | OpEq, None => false
  | OpNe, Some v => negb (filter_json_eq v operand)
  | OpNe, None => true
  | OpExists, Some v => negb (is_null v)
  | OpExists, None => false
  | OpIn, Some v => existsb (filter_json_eq v) (as_array (cf_value f))
  | OpIn, None => false
  | OpNotIn, Some v => negb (existsb (filter_json_eq v) (as_array (cf_value f)))
  | OpNotIn, None => true
  end.

(** ** Explode *)

Inductive OnMissing := Passthrough | DropMissing | ErrorMissing.
Record ExplodeSpec := MkExplodeSpec {
  es_path : string; es_prefix : option string; es_separator : string; es_on_missing : OnMissing }.
Record CompiledExplode := MkExplode {
  ce_path : CompiledPath; ce_prefix : string; ce_separator : string; ce_on_missing : OnMissing }.

Definition compile_explode (spec : ExplodeSpec) : result CompiledExplode FaucetError :=
  let? path := prefix_err "explode" (compile_path (es_path spec)) in
  Ok (MkExplode path (default (last_segment path) (es_prefix spec)) (es_separator spec) (es_on_missing spec)).

(** [handle_missing], [merge_one], [apply]. *)
Definition handle_missing (e : CompiledExplode) (rec : Value) : result (list Value) FaucetError :=
  match ce_on_missing e with
  | Passthrough => Ok [rec]
  | DropMissing => Ok []
  | ErrorMissing => Err (Errors.Transform ("explode: path '" +:+ normalised (ce_path e) +:+ "' did not yield a non-empty array"))
  end.
Definition element_key (e : CompiledExplode) (k : string) : string :=
  if is_empty_str (ce_prefix e) then k else ce_prefix e +:+ ce_separator e +:+ k.
Fixpoint merge_fields (e : CompiledExplode) (fields parent : list (string * Value))
  : result (list (string * Value)) FaucetError :=
  match fields with
  | [] => Ok parent
  | (k, v) :: fields =>
      if contains_key (element_key e k) parent then
        Err (Errors.Transform ("explode produced duplicate key '" +:+ element_key e k +:+ "'"))
      else merge_fields e fields (assoc_insert (element_key e k) v parent)
  end.
Definition merge_element (e : CompiledExplode) (leaf : string) (element : Value) (parent : list (string * Value))
  : result (list (string * Value)) FaucetError :=
  match element with
  | VObject fields => merge_fields e fields (assoc_remove leaf parent)
  | other => Ok (assoc_insert leaf other parent)
  end.
Definition merge_one (e : CompiledExplode) (record element : Value) : result Value FaucetError :=
  let? r := update_container (merge_element e (last_segment (ce_path e)) element) record (parent_segments (ce_path e)) in
  match r with
  | Some v => Ok v
  | None => Err (Errors.Transform ("explode: parent container at '" +:+ normalised (ce_path e)
                                   +:+ "' unexpectedly missing during merge"))
  end.
Fixpoint try_map {A B} (f : A -> result B FaucetError) (l : list A) : result (list B) FaucetError :=
  match l with
  | [] => Ok []
  | x :: l => let? y := f x in let? ys := try_map f l in Ok (y :: ys)
  end.
Definition apply_explode (e : CompiledExplode) (rec : Value) : result (list Value) FaucetError :=
  match resolve_path (ce_path e) rec with
  | Some (VArray (_ :: _ as elements)) =>
      let leaf := last_segment (ce_path e) in
      let? emptied := update_container (fun m => Ok (assoc_insert leaf (VArray []) m)) rec (parent_segments (ce_path e)) in
      try_map (merge_one e (default rec emptied)) elements
  | _ => handle_missing e rec
  end.

(** ** CDC unwrap *)

Definition CDC_DEFAULT_MARKER_FIELD : string := "__op".
Definition CDC_UNCHANGED_TOAST_FIELD : string := "__unchanged_toast__".
Inductive CdcPartialRow := PartialFail | PartialPass.
Inductive CdcMissingImage := ImageFail | ImageDrop.
Record CdcUnwrapSpec := MkCdcUnwrapSpec {
  op_field : string; after_field : string; before_field : string; key_field : string; marker_field : string;
  delete_ops : list string; drop_ops : list string; on_missing_image : CdcMissingImage; cdc_key : list string;
  on_partial_row : CdcPartialRow }.
Definition CdcUnwrapSpec_default : CdcUnwrapSpec :=
  MkCdcUnwrapSpec "op" "after" "before" "document_key" CDC_DEFAULT_MARKER_FIELD ["d"; "delete"] ["ddl"; "truncate"]
    ImageFail [] PartialFail.

Section Cdc.
Context (debug_str : string -> string) (s : CdcUnwrapSpec).

(** [complete_partial_row]. *)
Fixpoint fill_columns (before : option (list (string * Value))) (cols : list string) (map : list (string * Value))
  : list (string * Value) * list string :=
  match cols with
  | [] => (map, [])
  | col :: cols =>
      match before ≫= assoc col with
      | Some v => fill_columns before cols (assoc_insert col v map)
      | None => let '(map, missing) := fill_columns before cols map in (map, col :: missing)
      end
  end.
Definition table_text (rec : Value) : string :=
  match get rec "schema" ≫= as_str, get rec "table" ≫= as_str with
  | Some schema, Some table => " on " +:+ schema +:+ "." +:+ table
  | None, Some table => " on " +:+ table
  | _, None => EmptyString
  end.
Definition partial_row_err (rec : Value) (op : string) (missing : list string) : FaucetError :=
  Errors.Transform ("cdc_unwrap: a change event (op " +:+ debug_str op +:+ ")" +:+ table_text rec
    +:+ " does not carry the current value of " +:+ join ", " missing
    +:+ " — the source did not re-send it (an unchanged out-of-line value) and the `" +:+ before_field s
    +:+ "` image has no copy, so an upsert would replace or null it. `ALTER TABLE … REPLICA IDENTITY FULL` on the source table prevents future partial rows but not this one: the change is already captured and the position does not advance past it, so every rerun fails here. Get past it with `on_partial_row: pass` for one run (an upsert sink then replaces or nulls these columns for the affected rows) or by resnapshotting the table; keep `on_partial_row: pass` only when the sink appends or merges column-wise").
Definition complete_partial_row (rec : Value) (map : list (string * Value)) (elided : option Value) (op : string)
  : result (list (string * Value)) FaucetError :=
  match elided with
  | Some (VArray cols) =>
      let '(map, missing) := fill_columns (get rec (before_field s) ≫= as_object) (omap as_str cols) map in
      match missing, on_partial_row s with
      | [], _ | _, PartialPass => Ok map
      | _, PartialFail => Err (partial_row_err rec op missing)
      end
  | _ => Ok map
  end.

(** [moved_key]. *)
Fixpoint old_key (before : list (string * Value)) (key : list string) (acc : list (string * Value))
  : option (list (string * Value)) :=
  match key with
  | [] => Some acc
  | k :: key => match assoc k before with
                | Some v => old_key before key (assoc_insert k v acc)
                | None => None
                end
  end.
Definition opt_json_eq (a b : option Value) : bool :=
  match a, b with Some a, Some b => json_eq a b | None, None => true | _, _ => false end.
Definition moved_key (rec : Value) (after : list (string * Value)) : option (list (string * Value)) :=
  if is_nil (cdc_key s) then None
  else match get rec (before_field s) with
       | Some (VObject before) =>
           match old_key before (cdc_key s) [] with
           | None => None
           | Some old =>
               if forallb (fun k => opt_json_eq (assoc k old) (assoc k after)) (cdc_key s) then None
               else Some (assoc_insert (marker_field s) (VString "d") old)
           end
       | _ => None
       end.

(** [CompiledCdcUnwrap::apply]. *)
Definition object_at (rec : Value) (field : string) : option (list (string * Value)) :=
  match get rec field with Some (VObject m) => Some m | _ => None end.
Definition missing_image (op : string) (is_delete : bool) : string :=
  if is_delete then
    "a delete event (op " +:+ debug_str op +:+ ") has no `" +:+ before_field s +:+ "` object and no `" +:+ key_field s
    +:+ "` object to take its key from"
  else
    "a change event (op " +:+ debug_str op +:+ ") has no `" +:+ after_field s
    +:+ "` object, so the new row is unknown — for mongodb-cdc set `full_document: update_lookup`, for a DynamoDB stream use the NEW_IMAGE or NEW_AND_OLD_IMAGES view type".
Definition apply_cdc (rec : Value) : result (list Value) FaucetError :=
  let op := default EmptyString (get rec (op_field s) ≫= as_str) in
  if mem op (drop_ops s) then Ok []
  else
    let is_delete := mem op (delete_ops s) in
    let row := if is_delete then option_or (object_at rec (before_field s)) (object_at rec (key_field s))
               else object_at rec (after_field s) in
    match row with
    | None =>
        match on_missing_image s with
        | ImageFail => Err (Errors.Transform ("cdc_unwrap: " +:+ missing_image op is_delete
                                              +:+ " (set `on_missing_image: drop` to skip such events)"))
        | ImageDrop => Ok []
        end
    | Some map =>
        let elided := assoc CDC_UNCHANGED_TOAST_FIELD map in
        let map := assoc_remove CDC_UNCHANGED_TOAST_FIELD map in
        let? map := (if is_delete then Ok map else complete_partial_row rec map elided op) in
        let map := assoc_insert (marker_field s) (VString (if is_delete then "d" else "u")) map in
        let moved := if is_delete then None else moved_key rec map in
        Ok (match moved with Some old => [VObject old] | None => [] end ++ [VObject map])
    end.
End Cdc.

(** ** Unpivot *)

Record UnpivotSpec := MkUnpivotSpec {
  id_fields : list string; key_name_of : string; value_name : string; up_columns : list string;
  up_from : option string; drop_nulls : bool; drop_if_empty : bool }.
Definition compile_unpivot (spec : UnpivotSpec) : result UnpivotSpec FaucetError :=
  if is_empty_str (trim (key_name_of spec)) || is_empty_str (trim (value_name spec)) then
    Err (Errors.Transform "unpivot: `key_name` and `value_name` must be non-empty")
  else Ok spec.

(** [CompiledUnpivot::apply]. *)
Definition id_columns (s : UnpivotSpec) (map : list (string * Value)) : list (string * Value) :=
  foldl (fun id f => match assoc f map with Some v => assoc_insert f v id | None => id end) [] (id_fields s).
Definition unpivot_cells (s : UnpivotSpec) (map : list (string * Value)) : list (string * Value) :=
  match up_from s with
  | Some field => match assoc field map with Some (VObject obj) => obj | _ => [] end
  | None =>
      let cols := if is_nil (up_columns s) then List.filter (fun k => negb (mem k (id_fields s))) map.*1
                  else up_columns s in
      omap (fun c => (fun v => (c, v)) <$> assoc c map) cols
  end.
Definition apply_unpivot (s : UnpivotSpec) (rec : Value) : list Value :=
  match rec with
  | VObject map =>
      let id := id_columns s map in
      let cells := List.filter (fun c => negb (drop_nulls s && is_null c.2)) (unpivot_cells s map) in
      let out := (fun c => VObject (assoc_insert (value_name s) c.2 (assoc_insert (key_name_of s) (VString c.1) id))) <$> cells in
      if is_nil out && negb (drop_if_empty s) then [rec] else out
  | _ => [rec]
  end.

(** ** Stages *)

Section Stages.
Context `{TransformEnv}.

Inductive TransformStage :=
| TMap (t : RecordTransform)
| TFilter (spec : FilterSpec)
| TExplode (spec : ExplodeSpec)
| TCdcUnwrap (spec : CdcUnwrapSpec)
| TCustom (f : Value -> list Value)
| TPageFn (f : list Value -> result (list Value) FaucetError).
Inductive CompiledStage :=
| SMap (t : CompiledTransform)
| SFilter (f : CompiledFilter)
| SExplode (e : CompiledExplode)
| SCdcUnwrap (c : CdcUnwrapSpec)
| SCustom (f : Value -> list Value)
| SPageFn (f : list Value -> result (list Value) FaucetError).

(** [UnpivotSpec::into_stage], [compile_stage]. *)
Definition unpivot_stage (spec : UnpivotSpec) : result TransformStage FaucetError :=
  let? compiled := compile_unpivot spec in Ok (TCustom (apply_unpivot compiled)).
Definition compile_stage (s : TransformStage) : result CompiledStage FaucetError :=
  match s with
  | TMap t => let? t := compile t in Ok (SMap t)
  | TFilter spec => let? f := compile_filter spec in Ok (SFilter f)
  | TExplode spec => let? e := compile_explode spec in Ok (SExplode e)
  | TCdcUnwrap spec => Ok (SCdcUnwrap spec)
  | TCustom f => Ok (SCustom f)
  | TPageFn f => Ok (SPageFn f)
  end.

(** [apply_one_stage]. *)
Definition apply_one_stage (rec : Value) (stage : CompiledStage) : result (list Value) FaucetError :=
  match stage with
  | SMap t => let? v := apply_all rec [t] in Ok [v]
  | SFilter f => Ok (if evaluate_filter f rec then [rec] else [])
  | SExplode e => apply_explode e rec
  | SCdcUnwrap c => apply_cdc debug_str c rec
  | SCustom f => Ok (f rec)
  | SPageFn _ => Err (Errors.Transform "PageFn is a page-level stage and cannot run in a per-record context; use apply_stages_to_page")
  end.

(** [apply_stages], [apply_stages_to_page]. *)
Definition flat_map_stage (stage : CompiledStage) (records : list Value) : result (list Value) FaucetError :=
  let? outs := try_map (fun r => apply_one_stage r stage) records in Ok (concat outs).
Fixpoint run_stages (acc : list Value) (stages : list CompiledStage) : result (list Value) FaucetError :=
  match stages with
  | [] => Ok acc
  | stage :: stages => let? acc := flat_map_stage stage acc in run_stages acc stages
  end.
Definition apply_stages (rec : Value) (stages : list CompiledStage) : result (list Value) FaucetError :=
  run_stages [rec] stages.
Fixpoint apply_stages_to_page (records : list Value) (stages : list CompiledStage) : result (list Value) FaucetError :=
  match stages with
  | [] => Ok records
  | SPageFn f :: stages => let? records := f records in apply_stages_to_page records stages
  | per_record :: stages => let? records := flat_map_stage per_record records in apply_stages_to_page records stages
  end.

(** ** A page of records is its records one by one *)

Lemma try_map_ok {A B} (f : A -> result B FaucetError) l ys :
  try_map f l = Ok ys <-> Forall2 (fun x y => f x = Ok y) l ys.
Proof.
  revert ys. induction l as [|x l IH]; intros ys; cbn [try_map].
  - split; [intros [= <-]; constructor|by inversion 1].
  - rewrite result_bind_ok. setoid_rewrite result_bind_ok. setoid_rewrite IH. split.
    + intros (y & Hy & ys' & Hys & [= <-]). by constructor.
    + inversion 1; subst. eexists. split; [done|]. by eexists.
Qed.

Lemma flat_map_stage_ok stage l out :
  flat_map_stage stage l = Ok out <-> exists outs, Forall2 (fun r o => apply_one_stage r stage = Ok o) l outs /\ out = concat outs.
Proof. unfold flat_map_stage. rewrite result_bind_ok. setoid_rewrite try_map_ok. naive_solver. Qed.

Definition per_record (s : CompiledStage) : bool := match s with SPageFn _ => false | _ => true end.

Lemma page_run records stages :
  forallb per_record stages = true -> apply_stages_to_page records stages = run_stages records stages.
Proof.
  revert records. induction stages as [|st l IH]; intros records; [done|]. cbn [forallb]. intros [Hs Hl]%andb_true_iff.
  destruct st; try done; cbn; (destruct (flat_map_stage _ _); cbn; [by apply IH|done]).
Qed.

Lemma flat_map_app stage a b out :
  flat_map_stage stage (a ++ b) = Ok out <->
  exists x y, flat_map_stage stage a = Ok x /\ flat_map_stage stage b = Ok y /\ out = x ++ y.
Proof.
  setoid_rewrite flat_map_stage_ok. split.
  - intros (outs & Hf & ->). apply Forall2_app_inv_l in Hf as (oa & ob & Ha & Hb & ->).
    exists (concat oa), (concat ob). rewrite concat_app. naive_solver.
  - intros (x & y & (oa & Ha & ->) & (ob & Hb & ->) & ->). exists (oa ++ ob). rewrite concat_app.
    split; [by apply Forall2_app|done].
Qed.

Lemma run_stages_app a b stages out :
  run_stages (a ++ b) stages = Ok out <->
  exists x y, run_stages a stages = Ok x /\ run_stages b stages = Ok y /\ out = x ++ y.
Proof.
  revert a b out. induction stages as [|st l IH]; intros a b out; cbn [run_stages]; [naive_solver|].
  setoid_rewrite result_bind_ok. setoid_rewrite flat_map_app. split.
  - intros (? & (x & y & Ha & Hb & ->) & Hr). apply IH in Hr as (x' & y' & Hx & Hy & ->).
    exists x', y'. naive_solver.
  - intros (x' & y' & (x & Ha & Hx) & (y & Hb & Hy) & ->). exists (x ++ y). split; [naive_solver|].
    apply IH. naive_solver.
Qed.

(** Running a page through the stages is running its records one by one. For
    stages without a page-level function, a page succeeds exactly when each of its
    records does, and gives the records' outputs one after the other, in order:
    what a record becomes does not depend on the page it arrived in. *)
Theorem page_is_records records stages out :
  forallb per_record stages = true ->
  apply_stages_to_page records stages = Ok out <->
  exists outs, Forall2 (fun r o => apply_stages r stages = Ok o) records outs /\ out = concat outs.
Proof.
  intros Hp. rewrite page_run by done. unfold apply_stages. clear Hp. revert out.
  induction records as [|r l IH]; intros out.
  - assert (run_stages [] stages = Ok []) as -> by (induction stages; [done|done]).
    split; [intros [= <-]; by exists []|]. intros (outs & Hf & ->). by inversion Hf.
  - change (r :: l) with ([r] ++ l). rewrite run_stages_app. setoid_rewrite IH. split.
    + intros (x & y & Hx & (outs & Hf & ->) & ->). exists (x :: outs). split; [by constructor|done].
    + intros (outs & Hf & ->). inversion Hf; subst. eexists _, _. split_and!; [done|by eexists|done].
Qed.
End Stages.

Lemma page_is_records_witness :
  let stages := [SCustom (H := blank_env) (apply_unpivot (MkUnpivotSpec ["id"] "k" "v" [] None false true))] in
  let r i := VObject [("id", of_u64 i); ("a", VBool true)] in
  forallb (per_record (H := blank_env)) stages = true /\
  apply_stages_to_page (H := blank_env) [r 1; r 2] stages =
  Ok [VObject [("id", of_u64 1); ("k", VString "a"); ("v", VBool true)];
      VObject [("id", of_u64 2); ("k", VString "a"); ("v", VBool true)]].
Proof.
  intros stages r. split; [reflexivity|]. apply (page_is_records (H := blank_env) [r 1; r 2] stages); [reflexivity|].
  exists [[VObject [("id", of_u64 1); ("k", VString "a"); ("v", VBool true)]];
          [VObject [("id", of_u64 2); ("k", VString "a"); ("v", VBool true)]]].
  split; [repeat constructor|reflexivity].
Defined.

(** ** Mirroring a table from its change events *)
Section Mirror.
Context (debug : string -> string) (s : CdcUnwrapSpec).
Notation row := (list (string * Value)).

(** A table, by the values of its key columns. *)
Definition row_key (r : row) : list (option Value) := (fun k => assoc k r) <$> cdc_key s.
Definition table := list (option Value) -> option row.
Definition put (k : list (option Value)) (r : option row) (t : table) : table :=
  fun k' => if decide (k' = k) then r else t k'.
(** Rows and tables are the same up to the order of fields. *)
Definition same_row (r r' : row) : Prop := forall k, assoc k r = assoc k r'.
Definition same_table (t u : table) : Prop := forall k, option_Forall2 same_row (t k) (u k).

(** What happened to the source table, and what a keyed sink with a delete marker
    does with one unwrapped row. *)
Inductive change := Inserted (new : row) | Updated (old new : row) | Deleted (old : row).
Definition apply_change (t : table) (c : change) : table :=
  match c with
  | Inserted new => put (row_key new) (Some new) t
  | Updated old new => put (row_key new) (Some new) (put (row_key old) None t)
  | Deleted old => put (row_key old) None t
  end.
Definition mirror_row (t : table) (v : Value) : table :=
  match v with
  | VObject m =>
      if bool_decide (assoc (marker_field s) m = Some (VString "d")) then put (row_key m) None t
      else put (row_key m) (Some (assoc_remove (marker_field s) m)) t
  | _ => t
  end.

(** A row of the source table: its key columns hold plain values (on floats and nested values,
    the comparison of [serde_json] is coarser than equality), and it has no column named as
    the marker or as the list of unsent columns. *)
Definition plain (v : Value) : bool :=
  match v with VNumber (Float _) | VArray _ | VObject _ => false | _ => true end.
Record source_row (r : row) : Prop := {
  sr_marker : assoc (marker_field s) r = None;
  sr_full : assoc CDC_UNCHANGED_TOAST_FIELD r = None;
  sr_key : Forall (fun k => exists v, assoc k r = Some v /\ plain v = true) (cdc_key s);
}.

(** The image [a] from after a change gives the row [new]: it leaves out, and lists, columns that
    were not sent again, and the image [b] from before has those. *)
Definition elided_cols (a : row) : list string :=
  match assoc CDC_UNCHANGED_TOAST_FIELD a with Some (VArray l) => omap as_str l | _ => [] end.
Definition gives (b : option row) (a new : row) : Prop :=
  NoDup a.*1 /\ CDC_UNCHANGED_TOAST_FIELD ∉ elided_cols a /\
  forall k, k <> CDC_UNCHANGED_TOAST_FIELD ->
    if decide (k ∈ elided_cols a) then is_Some (b ≫= assoc k) /\ assoc k new = b ≫= assoc k else assoc k new = assoc k a.
(** An image from before, or a key document, has at least the key columns of the row. *)
Definition keyed (b old : row) : Prop := forall k, k ∈ cdc_key s -> assoc k b = assoc k old.

(** The event a source emits for a change: an image from after, complete or to be completed from
    the one before; an image from before where the key moved; for a delete the image from
    before or else the key document. *)
Definition op_of (rec : Value) : string := default EmptyString (get rec (op_field s) ≫= as_str).
Definition event_of (c : change) (rec : Value) : Prop :=
  op_of rec ∉ drop_ops s /\
  match c with
  | Inserted new => op_of rec ∉ delete_ops s /\ source_row new /\ object_at rec (before_field s) = None /\
      exists a, get rec (after_field s) = Some (VObject a) /\ gives None a new
  | Updated old new => op_of rec ∉ delete_ops s /\ source_row old /\ source_row new /\
      (exists a, get rec (after_field s) = Some (VObject a) /\ gives (object_at rec (before_field s)) a new) /\
      match object_at rec (before_field s) with Some b => keyed b old | None => row_key new = row_key old end
  | Deleted old => op_of rec ∈ delete_ops s /\ source_row old /\
      exists b, NoDup b.*1 /\ keyed b old /\
        (get rec (before_field s) = Some (VObject b)
         \/ (object_at rec (before_field s) = None /\ get rec (key_field s) = Some (VObject b)))
  end.

Lemma assoc_insert_nodup k v (m : row) : NoDup m.*1 -> NoDup (assoc_insert k v m).*1.
Proof.
  intros Hm. destruct (decide (k ∈ m.*1)) as [Hin|Hn]; [|rewrite assoc_insert_fresh, fmap_app by (by apply assoc_none); apply NoDup_app; split_and!; [done| |apply NoDup_singleton]; intros x Hx ->%list_elem_of_singleton; done].
  assert ((assoc_insert k v m).*1 = m.*1) as ->; [|done]. clear Hm. induction m as [|[k' v'] m IH]; [by apply not_elem_of_nil in Hin|].
  cbn. case_decide as E; [done|]. cbn. rewrite IH; [done|]. rewrite fmap_cons in Hin. by apply elem_of_cons in Hin as [->|?].
Qed.
Lemma same_row_key r r' : (forall k, k ∈ cdc_key s -> assoc k r = assoc k r') -> row_key r = row_key r'.
Proof. intros H. unfold row_key. apply list_fmap_ext. intros i k Hk%list_elem_of_lookup_2. by apply H. Qed.
Lemma put_same k a b t u : option_Forall2 same_row a b -> same_table t u -> same_table (put k a t) (put k b u).
Proof. intros Hab Ht k'. unfold put. by case_decide. Qed.
Lemma same_row_refl r : same_row r r. Proof. done. Qed.

(** The elided columns are filled in from the image before. *)
Lemma fill_columns_spec b cols m : (forall k, k ∈ cols -> is_Some (b ≫= assoc k)) -> NoDup m.*1 ->
  exists m', fill_columns b cols m = (m', []) /\ NoDup m'.*1 /\ forall k, assoc k m' = if decide (k ∈ cols) then b ≫= assoc k else assoc k m.
Proof.
  revert m. induction cols as [|c cols IH]; intros m Hb Hm; cbn [fill_columns]; [exists m; split_and!; [done|done|]; intros k; by rewrite decide_False by apply not_elem_of_nil|].
  destruct (Hb c) as [v Hv]; [left|]. rewrite Hv. destruct (IH (assoc_insert c v m)) as (m' & -> & Hnd & Hm'); [intros k Hk; apply Hb; by right|by apply assoc_insert_nodup|].
  exists m'. split_and!; [done|done|]. intros k. rewrite Hm'. destruct (decide (k = c)) as [->|Hne].
  - rewrite assoc_insert_eq. repeat case_decide; try done; set_solver.
  - rewrite assoc_insert_ne by done. repeat case_decide; try done; set_solver.
Qed.
Lemma complete_spec rec a new op : gives (object_at rec (before_field s)) a new -> source_row new ->
  exists m, complete_partial_row debug s rec (assoc_remove CDC_UNCHANGED_TOAST_FIELD a) (assoc CDC_UNCHANGED_TOAST_FIELD a) op = Ok m
    /\ NoDup m.*1 /\ same_row m new.
Proof.
  intros (Ha & Ht & Hg) [Hmk Hf _]. set (m0 := assoc_remove CDC_UNCHANGED_TOAST_FIELD a).
  assert (NoDup m0.*1) as Hnd by (by apply assoc_remove_nodup).
  assert (get rec (before_field s) ≫= as_object = object_at rec (before_field s)) as Hb by (unfold object_at; by destruct (get rec _) as [[]|]).
  destruct (fill_columns_spec (object_at rec (before_field s)) (elided_cols a) m0) as (m & Hm & Hndm & Hlook); [|done|].
  { intros k Hk. specialize (Hg k ltac:(by intros ->)). rewrite decide_True in Hg by done. apply Hg. }
  assert (same_row m new) as Hsame.
  { intros k. rewrite Hlook. destruct (decide (k = CDC_UNCHANGED_TOAST_FIELD)) as [->|Hk].
    - rewrite decide_False by done. unfold m0. by rewrite assoc_remove_eq, Hf by done.
    - specialize (Hg k Hk). case_decide; [symmetry; apply Hg|]. unfold m0. by rewrite assoc_remove_ne. }
  exists m. split; [|done]. unfold complete_partial_row, elided_cols in *. rewrite Hb.
  destruct (assoc CDC_UNCHANGED_TOAST_FIELD a) as [[]|]; try (cbn in Hm; by injection Hm as <-). by rewrite Hm.
Qed.

(** What the sink does with an unwrapped row. *)
Lemma mirror_upsert t u m new : marker_field s ∉ cdc_key s -> source_row new -> NoDup m.*1 -> same_row m new -> same_table t u ->
  same_table (mirror_row t (VObject (assoc_insert (marker_field s) (VString "u") m))) (put (row_key new) (Some new) u).
Proof.
  intros Hk [Hmk _ _] Hnd Hm Ht. unfold mirror_row. rewrite assoc_insert_eq, bool_decide_eq_false_2 by done.
  rewrite (same_row_key _ new) by (intros k Hin; rewrite assoc_insert_ne by (by intros ->); apply Hm). apply put_same; [constructor|done]. intros k.
  destruct (decide (k = marker_field s)) as [->|Hne]; [by rewrite assoc_remove_eq, Hmk by (by apply assoc_insert_nodup)|].
  rewrite assoc_remove_ne, assoc_insert_ne by (done || by apply assoc_insert_nodup). apply Hm.
Qed.
Lemma mirror_delete t u m old : marker_field s ∉ cdc_key s -> keyed m old -> same_table t u ->
  same_table (mirror_row t (VObject (assoc_insert (marker_field s) (VString "d") m))) (put (row_key old) None u).
Proof.
  intros Hk Hm Ht. unfold mirror_row. rewrite assoc_insert_eq, bool_decide_eq_true_2 by done.
  rewrite (same_row_key _ old) by (intros k Hin; rewrite assoc_insert_ne by (by intros ->); by apply Hm). apply put_same; [constructor|done].
Qed.

Lemma plain_eq v w : plain v = true -> json_eq v w = true <-> v = w.
Proof.
  destruct v as [| |[]| | |]; try done; intros _; destruct w as [| |[]| | |]; cbn; try (split; congruence).
  - rewrite eqb_true_iff. split; congruence.
  - rewrite Z.eqb_eq. split; congruence.
  - rewrite Z.eqb_eq. split; congruence.
  - unfold string_eqb. rewrite bool_decide_eq_true. split; congruence.
Qed.

Lemma old_key_spec before keys acc :
  Forall (fun k => exists v, assoc k before = Some v) keys ->
  exists old, old_key before keys acc = Some old /\
    forall k, assoc k old = if decide (k ∈ keys) then assoc k before else assoc k acc.
Proof.
  revert acc. induction keys as [|k keys IH]; intros acc Hk; cbn [old_key].
  - exists acc. split; [done|]. intros k. rewrite decide_False by apply not_elem_of_nil. done.
  - apply Forall_cons in Hk as [[v Hv] Hk]. rewrite Hv. destruct (IH (assoc_insert k v acc) Hk) as (old & Ho & Ha).
    exists old. split; [done|]. intros k'. rewrite Ha. destruct (decide (k' = k)) as [->|Hne].
    + rewrite assoc_insert_eq. repeat case_decide; try done; set_solver.
    + rewrite assoc_insert_ne by done. repeat case_decide; try done; set_solver.
Qed.

(** The delete row of an update appears exactly when the key changed. *)
Lemma moved_key_spec rec b old new m :
  marker_field s ∉ cdc_key s -> cdc_key s <> [] -> object_at rec (before_field s) = Some b -> keyed b old -> source_row old -> same_row m new ->
  match moved_key s rec (assoc_insert (marker_field s) (VString "u") m) with
  | None => row_key new = row_key old
  | Some d => exists d0, d = assoc_insert (marker_field s) (VString "d") d0 /\ keyed d0 old
  end.
Proof.
  intros Hm Hne Hb Hkey [_ _ Ho] Hs. unfold moved_key. destruct (is_nil (cdc_key s)) eqn:En; [by destruct (cdc_key s)|].
  assert (get rec (before_field s) = Some (VObject b)) as -> by (unfold object_at in Hb; destruct (get rec _) as [[]|]; naive_solver).
  rewrite Forall_forall in Ho. destruct (old_key_spec b (cdc_key s) []) as (d & -> & Hd).
  { apply Forall_forall. intros k Hk. rewrite (Hkey k Hk). destruct (Ho k Hk) as (v & ? & _). eauto. }
  assert (keyed d old) as Hdo by (intros k Hk; rewrite Hd, decide_True by done; by apply Hkey).
  destruct (forallb _ (cdc_key s)) eqn:E; [|by exists d]. apply same_row_key. intros k Hk.
  rewrite forallb_forall in E. specialize (E k (proj1 (list_elem_of_In _ _) Hk)).
  rewrite (Hdo k Hk), assoc_insert_ne, Hs in E by (by intros ->). destruct (Ho k Hk) as (v & Hv & Hp). rewrite Hv in *.
  destruct (assoc k new) as [w|]; [|done]. cbn in E. apply plain_eq in E; [|done]. by subst.
Qed.

(** One event, unwrapped and written, is its change. *)
Lemma insert_mirrors rec new : marker_field s ∉ cdc_key s -> event_of (Inserted new) rec ->
  exists rows, apply_cdc debug s rec = Ok rows /\ forall t u, same_table t u -> same_table (foldl mirror_row t rows) (put (row_key new) (Some new) u).
Proof.
  intros Hm (Hdrop & Hop & Hn & Hb & a & Ha & Hg). unfold apply_cdc. fold (op_of rec). unfold mem.
  rewrite (bool_decide_eq_false_2 (op_of rec ∈ drop_ops s)), (bool_decide_eq_false_2 (op_of rec ∈ delete_ops s)) by done.
  unfold object_at at 1. rewrite Ha. rewrite <- Hb in Hg. destruct (complete_spec rec a new (op_of rec) Hg Hn) as (m & -> & Hnd & Hs). cbn [result_bind].
  assert (forall m', moved_key s rec m' = None) as ->.
  { intros m'. unfold moved_key, object_at in *. destruct (is_nil _); [done|]. by destruct (get rec (before_field s)) as [[]|]. }
  eexists. split; [done|]. intros t u Ht. cbn [foldl app]. by apply mirror_upsert.
Qed.
Lemma update_mirrors rec old new : marker_field s ∉ cdc_key s -> cdc_key s <> [] -> event_of (Updated old new) rec ->
  exists rows, apply_cdc debug s rec = Ok rows /\
    forall t u, same_table t u -> same_table (foldl mirror_row t rows) (put (row_key new) (Some new) (put (row_key old) None u)).
Proof.
  intros Hm Hne (Hdrop & Hop & Ho & Hn & (a & Ha & Hg) & Hbk). unfold apply_cdc. fold (op_of rec). unfold mem.
  rewrite (bool_decide_eq_false_2 (op_of rec ∈ drop_ops s)), (bool_decide_eq_false_2 (op_of rec ∈ delete_ops s)) by done.
  unfold object_at at 1. rewrite Ha. destruct (complete_spec rec a new (op_of rec) Hg Hn) as (m & -> & Hnd & Hs). cbn [result_bind].
  assert (row_key new = row_key old -> forall t u, same_table t u ->
    same_table (mirror_row t (VObject (assoc_insert (marker_field s) (VString "u") m))) (put (row_key new) (Some new) (put (row_key old) None u))) as Hstay.
  { intros Hk t u Ht k'. pose proof (mirror_upsert t u m new Hm Hn Hnd Hs Ht k') as Hu. rewrite <- Hk. unfold put in *. by repeat case_decide. }
  eexists. split; [done|]. intros t u Ht. destruct (object_at rec (before_field s)) as [b|] eqn:Hb.
  - pose proof (moved_key_spec rec b old new m Hm Hne Hb Hbk Ho Hs) as Hmoved. destruct (moved_key s rec _) as [d|]; cbn [foldl app]; [|by apply Hstay].
    destruct Hmoved as (d0 & -> & Hd0). apply mirror_upsert; [done..|]. by apply mirror_delete.
  - assert (moved_key s rec (assoc_insert (marker_field s) (VString "u") m) = None) as ->; [|by apply Hstay].
    unfold moved_key, object_at in *. destruct (is_nil _); [done|]. by destruct (get rec (before_field s)) as [[]|].
Qed.
Lemma delete_mirrors rec old : marker_field s ∉ cdc_key s -> event_of (Deleted old) rec ->
  exists rows, apply_cdc debug s rec = Ok rows /\ forall t u, same_table t u -> same_table (foldl mirror_row t rows) (put (row_key old) None u).
Proof.
  intros Hm (Hdrop & Hop & [Hmk Hf Ho] & b & Hnd & Hkey & Hwhere). unfold apply_cdc. fold (op_of rec). unfold mem.
  rewrite (bool_decide_eq_false_2 (op_of rec ∈ drop_ops s)), (bool_decide_eq_true_2 (op_of rec ∈ delete_ops s)) by done.
  assert (option_or (object_at rec (before_field s)) (object_at rec (key_field s)) = Some b) as ->.
  { destruct Hwhere as [Hb|[Hn Hb]]; [|rewrite Hn]; unfold object_at; by rewrite Hb. }
  cbn [result_bind]. eexists. split; [done|]. intros t u Ht. cbn [foldl app]. apply mirror_delete; [done| |done].
  intros k Hk. rewrite assoc_remove_ne; [by apply Hkey|done|]. intros ->. rewrite Forall_forall in Ho. destruct (Ho _ Hk) as (v & ? & _). congruence.
Qed.
Lemma event_mirrors c rec :
  marker_field s ∉ cdc_key s -> cdc_key s <> [] -> event_of c rec ->
  exists rows, apply_cdc debug s rec = Ok rows /\
    forall t u, same_table t u -> same_table (foldl mirror_row t rows) (apply_change u c).
Proof.
  intros Hm Hne Hev. destruct c as [new|old new|old]; [by apply insert_mirrors|by apply update_mirrors|by apply delete_mirrors].
Qed.
End Mirror.

(** C36: Unwrapped change events mirror the source table. For any sequence of inserts, updates
    (with or without a change of key) and deletes of rows with plain key values: when each
    event's image from after has every column, or lists the ones not sent again and the image
    from before has those, each update that moves a key has an image from before, and each
    delete one or a key document, unwrapping the page of events succeeds, and writing the
    resulting rows in order, by the configured key and with the delete marker, turns a copy of
    the table before the changes into a copy of the table after them; an update that moves a
    row to another key leaves nothing under the old key. *)
Theorem cdc_unwrap_mirrors `{TransformEnv} (s : CdcUnwrapSpec) (changes : list change) (events : list Value) (t : table) :
  marker_field s ∉ cdc_key s -> cdc_key s <> [] -> Forall2 (event_of s) changes events ->
  exists rows, apply_stages_to_page events [SCdcUnwrap s] = Ok rows /\
    same_table (foldl (mirror_row s) t rows) (foldl (apply_change s) t changes).
Proof.
  intros Hm Hne Hf.
  assert (forall u, same_table t u -> exists outs, Forall2 (fun r o => apply_cdc debug_str s r = Ok o) events outs /\
    same_table (foldl (mirror_row s) t (concat outs)) (foldl (apply_change s) u changes)) as Hall.
  { revert t. induction Hf as [|c rec changes events Hc Hf IH]; intros t u Ht; [by exists []|].
    destruct (event_mirrors debug_str s c rec Hm Hne Hc) as (o & Ho & Hs).
    destruct (IH (foldl (mirror_row s) t o) (apply_change s u c) (Hs t u Ht)) as (outs & Houts & Hso).
    exists (o :: outs). split; [by constructor|]. cbn [concat]. by rewrite foldl_app. }
  destruct (Hall t) as (outs & Houts & Hs); [intros k; by destruct (t k); constructor|]. exists (concat outs). split; [|done].
  cbn [apply_stages_to_page]. apply result_bind_ok. exists (concat outs). split; [|done].
  apply flat_map_stage_ok. by exists outs.
Qed.

(** An insert; an update whose image from after leaves out the column [v], which the image from
    before has, and which moves the key; an update without an image from before; a delete by
    its key document. *)
Definition demo_cdc : CdcUnwrapSpec := MkCdcUnwrapSpec "op" "after" "before" "document_key" "__op" ["d"] ["ddl"] ImageFail ["id"] PartialFail.
Definition demo_row (i : Z) (v w : string) : list (string * Value) := [("id", of_u64 i); ("v", VString v); ("w", VString w)].
Definition demo_event (op : string) (fields : list (string * list (string * Value))) : Value :=
  VObject (("op", VString op) :: ((fun f => (f.1, VObject f.2)) <$> fields)).
Definition demo_changes : list change :=
  [Inserted (demo_row 1 "a" "x"); Updated (demo_row 1 "a" "x") (demo_row 2 "a" "y"); Updated (demo_row 2 "a" "y") (demo_row 2 "b" "y"); Deleted (demo_row 2 "b" "y")].
Definition demo_events : list Value :=
  [demo_event "c" [("after", demo_row 1 "a" "x")];
   demo_event "u" [("before", demo_row 1 "a" "x"); ("after", [("id", of_u64 2); ("w", VString "y"); (CDC_UNCHANGED_TOAST_FIELD, VArray [VString "v"])])];
   demo_event "u" [("after", demo_row 2 "b" "y")];
   demo_event "d" [("document_key", [("id", of_u64 2)])]].
Lemma not_one (a b : string) : a <> b -> a ∉ [b].
Proof. by intros Hab ?%list_elem_of_singleton. Qed.
Lemma demo_source i v w : source_row demo_cdc (demo_row i v w).
Proof. split; [reflexivity|reflexivity|]. constructor; [|constructor]. exists (of_u64 i). split; reflexivity. Qed.
Lemma demo_gives b i v w : gives b (demo_row i v w) (demo_row i v w).
Proof.
  split_and!; [apply (bool_decide_unpack _); vm_compute; exact I|apply not_elem_of_nil|]. intros k _. by rewrite decide_False by apply not_elem_of_nil.
Qed.
Lemma demo_gives_elided : gives (Some (demo_row 1 "a" "x"))
  [("id", of_u64 2); ("w", VString "y"); (CDC_UNCHANGED_TOAST_FIELD, VArray [VString "v"])] (demo_row 2 "a" "y").
Proof.
  split_and!; [apply (bool_decide_unpack _); vm_compute; exact I|by apply not_one|]. change (elided_cols _) with ["v"]. intros k Hk.
  case_decide as Hv; [apply list_elem_of_singleton in Hv as ->; split; [by eexists|done]|]. rewrite list_elem_of_singleton in Hv.
  cbn. repeat case_decide; done.
Qed.
Lemma cdc_unwrap_mirrors_witness :
  exists rows, apply_stages_to_page (H := blank_env) demo_events [SCdcUnwrap (H := blank_env) demo_cdc] = Ok rows /\
    same_table (foldl (mirror_row demo_cdc) (fun _ => None) rows) (foldl (apply_change demo_cdc) (fun _ => None) demo_changes).
Proof.
  apply (cdc_unwrap_mirrors (H := blank_env) demo_cdc demo_changes demo_events (fun _ => None)); [by apply not_one|discriminate|].
  pose proof demo_source as Hs. repeat (apply Forall2_cons; split); [..|apply Forall2_nil; exact I]; (split; [by apply not_one|]).
  - split_and!; [by apply not_one|apply Hs|reflexivity|]. eexists. split; [reflexivity|]. apply demo_gives.
  - split_and!; [by apply not_one|apply Hs|apply Hs| |by intros k ->%list_elem_of_singleton]. eexists. split; [reflexivity|]. apply demo_gives_elided.
  - split_and!; [by apply not_one|apply Hs|apply Hs| |reflexivity]. eexists. split; [reflexivity|]. apply demo_gives.
  - split_and!; [by apply list_elem_of_singleton|apply Hs|]. exists [("id", of_u64 2)]. split_and!; [apply NoDup_singleton|by intros k ->%list_elem_of_singleton|].
    right. split; reflexivity.
Defined.
