(* ===== verification/ContentDiff.v ===== *)
(** Content verification: crates/core/src/diff.rs. Two sides are compared by
    digests of key ranges and, where those disagree, row by row.

    Timestamps are parsed by chrono and floats by the standard library's
    decimal conversions; both are parameters. *)
From S2P Require Import Prelude Errors Float64 Json Text Drift Quality Contract Shard TypedKey.
From Stdlib Require Import Floats.SpecFloat Ascii.
From Stdlib Require Import Sorting.Sorted.

Local Open Scope Z_scope.

(** ** Key ranges *)

(** [struct KeyRange], [ALL], [contains], [width]. *)
Record KeyRange := MkKeyRange { kr_lo : option Z; kr_hi : option Z }.
#[export] Instance KeyRange_eq_dec : EqDecision KeyRange.
Proof. solve_decision. Defined.
Definition ALL : KeyRange := MkKeyRange None None.
Definition range_contains (r : KeyRange) (k : Z) : bool :=
  match kr_lo r with Some lo => lo <=? k | None => true end
  && match kr_hi r with Some hi => k <? hi | None => true end.
Definition range_width (r : KeyRange) : option Z :=
  match kr_lo r, kr_hi r with
  | Some lo, Some hi => if lo <? hi then Some (hi - lo) else Some 0
  | _, _ => None
  end.

(** [KeyRange::to_shard]. *)
Definition to_shard (r : KeyRange) (key : string) : ShardSpec :=
  shard_new
    (match kr_lo r with Some v => i64_str v | None => "-inf" end +:+ ".." +:+
     match kr_hi r with Some v => i64_str v | None => "+inf" end)
    (pk_descriptor key (default 0 (kr_lo r)) (default 0 (kr_hi r))
       (is_none (kr_lo r)) (is_none (kr_hi r)) (is_none (kr_hi r))).

(** [KeyRange::bisect]. *)
Definition bisect (r : KeyRange) (obs : option (Z * Z)) : option (KeyRange * KeyRange) :=
  match option_or (kr_lo r) (fst <$> obs), option_or (kr_hi r) ((fun b => Z.min (b.2 + 1) I64_MAX) <$> obs) with
  | Some lo, Some hi =>
      if hi - lo <? 2 then None
      else let mid := cast_i64 (lo + (hi - lo) / 2) in
           Some (MkKeyRange (kr_lo r) (Some mid), MkKeyRange (Some mid) (kr_hi r))
  | _, _ => None
  end.

(** [plan_ranges]. *)
Definition range_of_bounds (b : PkShardBounds) : KeyRange :=
  MkKeyRange (if lo_unbounded b then None else Some (pk_lo b)) (if hi_unbounded b then None else Some (pk_hi b)).
Definition plan_ranges (min max target : Z) : list KeyRange :=
  range_of_bounds <$> omap from_spec (plan_pk_shards "k" min max target).

(** ** Canonical values *)

(** [struct Normalizer], its default and [for_key]. *)
Record Normalizer := MkNormalizer { float_tolerance : f64; timestamps : bool; numeric_strings : bool }.
Definition Normalizer_default : Normalizer := MkNormalizer f64_zero true false.
Definition for_key (n : Normalizer) : Normalizer := MkNormalizer (float_tolerance n) (timestamps n) true.

(** [f64::round]: half away from zero. *)
Definition f64_round (f : f64) : f64 :=
  match f with
  | S754_finite s m e =>
      if 0 <=? e then f
      else let q := (2 * Zpos m + 2 ^ (- e)) / 2 ^ (1 - e) in
           if q =? 0 then S754_zero s else f64_of_Z (if s then - q else q)
  | _ => f
  end.

(** [Normalizer::validate]; [show] prints the tolerance. *)
Definition normalizer_validate (show : f64 -> string) (n : Normalizer) : result unit FaucetError :=
  let t := float_tolerance n in
  if negb (f64_is_finite t) || f64_lt t f64_zero then
    Err (Config ("verify: float_tolerance must be a finite number >= 0, got " +:+ show t))
  else Ok tt.

(** [length_prefixed]. *)
Definition length_prefixed (s : string) : string := dec (Z.of_nat (String.length s)) +:+ ":" +:+ s.

(** [str::replacen(' ', "T", 1)]. *)
Fixpoint space_to_t (s : string) : string :=
  match s with
  | EmptyString => s
  | String c s => if Ascii.eqb c " " then String "T" s else String c (space_to_t s)
  end.

(** The text of a NUL byte followed by [null]. *)
Definition null_text : string := String "000" "null".
Definition UNIT_SEPARATOR : string := String "031" EmptyString.

(** [fnv1a_64] with its two bases. *)
Definition fnv1a_64 (text : string) (basis : Z) : Z := fnv1a basis text.
Definition FNV_BASIS_A : Z := 14695981039346656037.
Definition FNV_BASIS_B : Z := 9521211207457086692.

(** [str::strip_suffix('*')], [is_excluded]. *)
Fixpoint strip_star (s : string) : option string :=
  match s with
  | EmptyString => None
  | String "*" EmptyString => Some EmptyString
  | String c s => match strip_star s with Some p => Some (String c p) | None => None end
  end.
Definition is_excluded (name : string) (exclude : list string) : bool :=
  existsb (fun e => match strip_star e with Some prefix => starts_with prefix name | None => string_eqb e name end)
    exclude.

(** ** Canonical texts *)

(** What the code takes from chrono, and the two decimal conversions of
    floating-point numbers ([{:e}] and [str::parse::<f64>]). The chrono parsers
    answer UTC microseconds. *)
Class TextCodec := {
  exp_str : f64 -> string;
  parse_f64 : string -> option f64;
  parse_from_rfc3339 : string -> option Z;
  parse_naive_datetime : string -> option Z;
  parse_naive_date : string -> option Z;
}.

Section Canonical.
Context `{TextCodec}.

(** [parse_timestamp_micros]. *)
Definition looks_dated (s : string) : bool :=
  (10 <=? Z.of_nat (String.length s)) && all_digits (String.substring 0 4 s)
  && match String.get 4 s with Some c => Ascii.eqb c "-" | None => false end.
Definition parse_timestamp_micros (s : string) : option Z :=
  let s := trim s in
  if negb (looks_dated s) then None
  else match parse_from_rfc3339 s with
       | Some t => Some t
       | None =>
           let with_space := space_to_t s in
           match parse_from_rfc3339 with_space with
           | Some t => Some t
           | None => match parse_naive_datetime with_space with
                     | Some t => Some t
                     | None => parse_naive_date s
                     end
           end
       end.

(** [Normalizer::canonical_number]. *)
Definition canonical_number (n : Normalizer) (f : option f64) (i u : option Z) : string :=
  match i, u, f with
  | Some i, _, _ => "n" +:+ i64_str i
  | None, Some u, _ => "n" +:+ dec u
  | None, None, None => "n?"
  | None, None, Some f =>
      if f64_integral f && f64_le (f64_of_Z I64_MIN) f && f64_lt f (f64_of_Z I64_MAX)
      then "n" +:+ i64_str (f64_to_i64 f)
      else if f64_integral f && f64_le f64_zero f && f64_lt f (f64_of_Z U64_MAX)
      then "n" +:+ dec (f64_to_u64 f)
      else if f64_lt f64_zero (float_tolerance n)
      then "f" +:+ exp_str (f64_mul (f64_round (f64_div f (float_tolerance n))) (float_tolerance n))
      else "f" +:+ exp_str f
  end.

(** [Normalizer::canonical_string]. *)
Definition canonical_string (n : Normalizer) (s : string) : string :=
  match (if timestamps n then parse_timestamp_micros s else None) with
  | Some micros => "ts" +:+ i64_str micros
  | None =>
      if numeric_strings n then
        let t := trim s in
        match parse_i64 t with
        | Some i => "n" +:+ i64_str i
        | None =>
            match parse_f64 t with
            | Some f => if f64_is_finite f then canonical_number n (Some f) None None else "s" +:+ s
            | None => "s" +:+ s
            end
        end
      else "s" +:+ s
  end.

(** [Normalizer::canonical]. *)
Fixpoint canonical_value (n : Normalizer) (v : Value) : string :=
  match v with
  | Null => null_text
  | VBool b => if b then "t" else "f"
  | VNumber x => canonical_number n (Some (num_f64 x)) (num_i64 x) (num_u64 x)
  | VString s => canonical_string n s
  | VArray a => "[" +:+ concat_all (map (fun x => length_prefixed (canonical_value n x)) a) +:+ "]"
  | VObject o =>
      "{" +:+ concat_all (map (fun e => length_prefixed e.1 +:+ length_prefixed e.2)
                 (sort_by fst (map (fun e => (e.1, canonical_value n e.2)) o))) +:+ "}"
  end.
Definition canonical_text (n : Normalizer) (v : option Value) : string :=
  match v with None => null_text | Some v => canonical_value n v end.

(** [canonical_column], [number_of], [within_tolerance]. *)
Definition canonical_column (n : Normalizer) (name : string) (key : list string) (v : option Value) : string :=
  if mem name key then canonical_text (for_key n) v else canonical_text n v.
Definition number_of (n : Normalizer) (v : option Value) : option f64 :=
  match v with
  | Some (VNumber x) => Some (num_f64 x)
  | Some (VString s) =>
      if numeric_strings n then
        match parse_f64 (trim s) with
        | Some f => if f64_is_finite f then Some f else None
        | None => None
        end
      else None
  | _ => None
  end.
Definition within_tolerance (n : Normalizer) (a b : option Value) : bool :=
  if f64_le (float_tolerance n) f64_zero then false
  else match number_of n a, number_of n b with
       | Some x, Some y => f64_le (f64_abs (f64_sub x y)) (float_tolerance n)
       | _, _ => false
       end.

(** ** Row fingerprints and keys *)

(** [row_hash]. *)
Definition object_get (v : Value) (k : string) : option Value := as_object v ≫= assoc k.
Definition hashed_names (record : Value) (key : list string) (columns : option (list string))
  (exclude : list string) : list string :=
  let names := match columns with
               | Some cols => cols
               | None => match as_object record with
                         | Some o => (filter (fun e => is_null e.2 = false) o).*1
                         | None => []
                         end
               end in
  let names := foldl (fun names k => if mem k names then names else names ++ [k]) names key in
  dedup (sort_by id (List.filter (fun n => negb (is_excluded n exclude)) names)).
Definition row_text (record : Value) (key : list string) (columns : option (list string))
  (exclude : list string) (n : Normalizer) : string :=
  concat_all
    (map (fun name => name +:+ "=" +:+ canonical_column n name key (object_get record name) +:+ UNIT_SEPARATOR)
       (hashed_names record key columns exclude)).
Definition row_hash (record : Value) (key : list string) (columns : option (list string))
  (exclude : list string) (n : Normalizer) : Z :=
  let text := row_text record key columns exclude n in
  Z.lor (Z.shiftl (fnv1a_64 text FNV_BASIS_A) 64) (fnv1a_64 text FNV_BASIS_B).

(** [key_text], [key_int], [key_object]. *)
Definition key_text (record : Value) (key : list string) (n : Normalizer) : string :=
  concat_all (map (fun k => k +:+ "=" +:+ canonical_text (for_key n) (object_get record k) +:+ ";") key).
Definition key_int (record : Value) (key : list string) : option Z :=
  match key with
  | [k] => match get record k with
           | Some (VNumber x) => num_i64 x
           | Some (VString s) => parse_i64 (trim s)
           | _ => None
           end
  | _ => None
  end.
Definition key_object (record : Value) (key : list string) : Value :=
  VObject (foldl (fun m k => assoc_insert k (default Null (get record k)) m) [] key).

(** ** Differences *)

Inductive Side := Source | Destination.
Inductive DifferenceKind :=
| MissingInDest
| ExtraInDest
| Changed (columns : list string)
| Duplicate (side : Side) (count : Z).
Record Difference := MkDifference { diff_key : Value; diff_kind : DifferenceKind }.

Definition needs_upsert (d : Difference) : bool :=
  match diff_kind d with MissingInDest | Changed _ => true | _ => false end.
Definition needs_delete (d : Difference) : bool :=
  match diff_kind d with ExtraInDest => true | _ => false end.

Section Diff.
Context (key : list string) (columns : option (list string)) (exclude : list string) (n : Normalizer).

(** [changed_columns]. *)
Definition keys_of (v : Value) : list string := match as_object v with Some o => o.*1 | None => [] end.
Definition compared_names (a b : Value) : list string :=
  match columns with
  | Some cols => cols
  | None => foldl (fun set k => if mem k set then set else set ++ [k]) [] (keys_of a ++ keys_of b)
  end.
Definition column_differs (a b : Value) (name : string) : bool :=
  let x := get a name in
  let y := get b name in
  negb (string_eqb (canonical_column n name key x) (canonical_column n name key y))
  && negb (within_tolerance n x y).
Definition row_changed_columns (a b : Value) : list string :=
  sort_by id (List.filter (column_differs a b)
                (List.filter (fun c => negb (is_excluded c exclude)) (compared_names a b))).

(** [diff_rows]: the destination indexed by key text, the source counted, one
    pass over the source, the keys left over, ordered by key text. *)
Definition kt (r : Value) : string := key_text r key n.
Definition index_row (m : gmap string (Z * Value)) (d : Value) : gmap string (Z * Value) :=
  <[kt d := match m !! kt d with Some (c, e) => (c + 1, e) | None => (1, d) end]> m.
Definition index_dest (dest : list Value) : gmap string (Z * Value) := foldl index_row ∅ dest.
Definition count_row (m : gmap string Z) (s : Value) : gmap string Z := <[kt s := default 0 (m !! kt s) + 1]> m.
Definition source_counts (source : list Value) : gmap string Z := foldl count_row ∅ source.

Record diff_state := MkDiffState {
  by_key : gmap string (Z * Value);
  reported : gset string;
  found : list (string * Difference);
}.
Definition diff_step (counts : gmap string Z) (st : diff_state) (s : Value) : diff_state :=
  let k := kt s in
  let count := default 0 (counts !! k) in
  let report kind := found st ++ [(k, MkDifference (key_object s key) kind)] in
  if 1 <? count then
    if decide (k ∈ reported st) then st
    else MkDiffState (delete k (by_key st)) ({[k]} ∪ reported st) (report (Duplicate Source count))
  else
    let rest := delete k (by_key st) in
    match by_key st !! k with
    | None => MkDiffState rest (reported st) (report MissingInDest)
    | Some (c, d) =>
        if 1 <? c then MkDiffState rest (reported st) (report (Duplicate Destination c))
        else match row_changed_columns s d with
             | [] => MkDiffState rest (reported st) (found st)
             | cols => MkDiffState rest (reported st) (report (Changed cols))
             end
    end.
Definition leftover (e : string * (Z * Value)) : string * Difference :=
  (e.1, MkDifference (key_object e.2.2 key)
          (if 1 <? e.2.1 then Duplicate Destination e.2.1 else ExtraInDest)).
Definition diff_pairs (source dest : list Value) : list (string * Difference) :=
  let st := foldl (diff_step (source_counts source)) (MkDiffState (index_dest dest) ∅ []) source in
  sort_by fst (found st ++ (leftover <$> map_to_list (by_key st))).
Definition diff_rows (source dest : list Value) : list Difference := (diff_pairs source dest).*2.

(** ** What a difference is

    The specification reads the rows of one key text on either side. *)
Definition rows_at (k : string) (l : list Value) : list Value := filter (fun r => kt r = k) l.
Definition classify_key (src dst : list Value) : option Difference :=
  match src, dst with
  | [], [] => None
  | [], [d] => Some (MkDifference (key_object d key) ExtraInDest)
  | [], d :: _ => Some (MkDifference (key_object d key) (Duplicate Destination (zlen dst)))
  | [s], [] => Some (MkDifference (key_object s key) MissingInDest)
  | [s], [d] => match row_changed_columns s d with
                | [] => None
                | cols => Some (MkDifference (key_object s key) (Changed cols))
                end
  | [s], _ => Some (MkDifference (key_object s key) (Duplicate Destination (zlen dst)))
  | s :: _, _ => Some (MkDifference (key_object s key) (Duplicate Source (zlen src)))
  end.
Definition dest_entry (l : list Value) : option (Z * Value) :=
  match l with [] => None | d :: _ => Some (zlen l, d) end.

Lemma rows_at_snoc k l r : rows_at k (l ++ [r]) = rows_at k l ++ (if decide (kt r = k) then [r] else []).
Proof. unfold rows_at. by rewrite filter_app. Qed.

Lemma index_dest_lookup dest k : index_dest dest !! k = dest_entry (rows_at k dest).
Proof.
  unfold index_dest. induction dest as [|d l IH] using rev_ind; [done|].
  rewrite foldl_snoc, rows_at_snoc. unfold index_row at 1. case_decide as E.
  - subst k. rewrite lookup_insert_eq, IH. destruct (rows_at (kt d) l) as [|e l']; [done|].
    cbn [dest_entry app]. do 2 f_equal. rewrite !zlen_cons, zlen_app, zlen_cons, zlen_nil. lia.
  - rewrite lookup_insert_ne by done. by rewrite IH, app_nil_r.
Qed.

Lemma source_counts_lookup source k : default 0 (source_counts source !! k) = zlen (rows_at k source).
Proof.
  unfold source_counts. induction source as [|s l IH] using rev_ind; [done|].
  rewrite foldl_snoc, rows_at_snoc, zlen_app. unfold count_row at 1. case_decide as E.
  - subst k. by rewrite lookup_insert_eq, IH.
  - rewrite lookup_insert_ne, IH, zlen_nil by done. lia.
Qed.

(** After the pass over a prefix of the source: the keys of the prefix are
    settled as [classify_key] says, and the other keys are as indexed. *)
Record passed (source dest pre : list Value) (st : diff_state) : Prop := {
  passed_by_key k : by_key st !! k = if decide (k ∈ kt <$> pre) then None else dest_entry (rows_at k dest);
  passed_reported k : k ∈ reported st <-> k ∈ kt <$> pre /\ 1 < zlen (rows_at k source);
  passed_found k d : (k, d) ∈ found st <-> k ∈ kt <$> pre /\ classify_key (rows_at k source) (rows_at k dest) = Some d;
  passed_nodup : NoDup (found st).*1;
}.

Lemma rows_at_new k pre post s : kt s = k -> k ∉ kt <$> pre -> rows_at k (pre ++ s :: post) = s :: rows_at k post.
Proof.
  intros E Hk. unfold rows_at. rewrite filter_app, filter_cons_True by done.
  destruct (filter _ pre) as [|r l] eqn:Hf; [done|].
  assert (r ∈ filter (fun r => kt r = k) pre) as [Hr Hin]%list_elem_of_filter by (rewrite Hf; left).
  destruct Hk. rewrite <- Hr. by apply list_elem_of_fmap_2.
Qed.

Lemma rows_at_seen k pre post s : kt s = k -> k ∈ kt <$> pre -> 1 < zlen (rows_at k (pre ++ s :: post)).
Proof.
  intros E (r & -> & Hr)%list_elem_of_fmap. unfold rows_at. rewrite filter_app, zlen_app, filter_cons_True, zlen_cons by done.
  assert (r ∈ filter (fun r' => kt r' = kt r) pre) as Hf by (apply list_elem_of_filter; done).
  destruct (filter _ pre); [by apply not_elem_of_nil in Hf|]. rewrite zlen_cons.
  pose proof (zlen_nonneg l). pose proof (zlen_nonneg (filter (fun r' => kt r' = kt r) post)). lia.
Qed.

Lemma diff_step_new source dest st s l :
  by_key st !! kt s = dest_entry (rows_at (kt s) dest) -> kt s ∉ reported st ->
  rows_at (kt s) source = s :: l ->
  diff_step (source_counts source) st s =
  MkDiffState (delete (kt s) (by_key st))
    (if decide (1 < zlen (rows_at (kt s) source)) then {[kt s]} ∪ reported st else reported st)
    (found st ++ (match classify_key (rows_at (kt s) source) (rows_at (kt s) dest) with
                  | Some d => [(kt s, d)] | None => [] end)).
Proof.
  intros Hb Hr Hs. unfold diff_step. rewrite source_counts_lookup, Hb, Hs, zlen_cons.
  destruct l as [|s' l].
  - rewrite zlen_nil. change (1 <? 1 + 0) with false. cbv iota. rewrite decide_False by lia.
    destruct (rows_at (kt s) dest) as [|d [|d' l]]; cbn [dest_entry classify_key]; [done| |].
    + destruct (row_changed_columns s d); [by rewrite app_nil_r|done].
    + pose proof (zlen_nonneg l). rewrite !zlen_cons.
      by assert (1 <? 1 + (1 + zlen l) = true) as -> by lia.
  - pose proof (zlen_nonneg l). rewrite !zlen_cons.
    assert (1 <? 1 + (1 + zlen l) = true) as -> by lia. rewrite decide_False, decide_True by (done || lia).
    cbn [classify_key]. by rewrite !zlen_cons.
Qed.

Lemma passed_step source dest pre post s st :
  source = pre ++ s :: post -> passed source dest pre st ->
  passed source dest (pre ++ [s]) (diff_step (source_counts source) st s).
Proof.
  intros -> [Hb Hr Hf Hn]. set (source := pre ++ s :: post) in *.
  assert (forall k, k ∈ kt <$> (pre ++ [s]) <-> k ∈ kt <$> pre \/ k = kt s) as Hin
    by (intros k; rewrite fmap_app, elem_of_app; cbn; by rewrite list_elem_of_singleton).
  destruct (decide (kt s ∈ kt <$> pre)) as [Hseen|Hnew].
  - assert (1 < zlen (rows_at (kt s) source)) as Hc by by apply rows_at_seen.
    assert (forall k, k ∈ kt <$> (pre ++ [s]) <-> k ∈ kt <$> pre) as Hin'
      by (intros k; rewrite Hin; naive_solver).
    unfold diff_step. rewrite source_counts_lookup. assert (1 <? zlen (rows_at (kt s) source) = true) as -> by lia.
    rewrite decide_True by by apply Hr. split; [| | |done].
    + intros k. rewrite Hb. repeat case_decide; naive_solver.
    + intros k. by rewrite Hin'.
    + intros k d. by rewrite Hin'.
  - assert (rows_at (kt s) source = s :: rows_at (kt s) post) as Hs by by apply rows_at_new.
    rewrite (diff_step_new source dest st s (rows_at (kt s) post)); [| |naive_solver|done].
    2: { rewrite Hb. by rewrite decide_False. }
    split; cbn.
    + intros k. destruct (decide (k = kt s)) as [->|Hne].
      * rewrite lookup_delete_eq, decide_True by (rewrite Hin; tauto). done.
      * rewrite lookup_delete_ne, Hb by done. repeat case_decide; naive_solver.
    + intros k. rewrite Hin. case_decide; rewrite ?elem_of_union, ?elem_of_singleton, Hr; naive_solver.
    + intros k d. rewrite elem_of_app, Hf, Hin.
      assert ((k, d) ∈ (match classify_key (rows_at (kt s) source) (rows_at (kt s) dest) with
                        | Some d => [(kt s, d)] | None => [] end) <->
              k = kt s /\ classify_key (rows_at k source) (rows_at k dest) = Some d) as ->; [|tauto].
      destruct (classify_key _ _) as [d'|] eqn:Hc.
      * rewrite list_elem_of_singleton. split; [intros [= -> ->]; done|].
        intros [-> Heq]. congruence.
      * split; [intros []%not_elem_of_nil|]. intros [-> Heq]. congruence.
    + rewrite fmap_app. apply NoDup_app. split_and!; [done| |].
      * intros k ((k' & d) & -> & Hd)%list_elem_of_fmap. apply Hf in Hd as [Hk _].
        destruct (classify_key _ _); cbn; [|apply not_elem_of_nil].
        rewrite list_elem_of_singleton. cbn in *. congruence.
      * destruct (classify_key _ _); cbn; [apply NoDup_singleton|apply NoDup_nil_2].
Qed.

Lemma passed_all source dest :
  passed source dest source (foldl (diff_step (source_counts source)) (MkDiffState (index_dest dest) ∅ []) source).
Proof.
  assert (forall pre post st, source = pre ++ post -> passed source dest pre st ->
    passed source dest source (foldl (diff_step (source_counts source)) st post)) as Hfold.
  { intros pre post. revert pre. induction post as [|s post IH]; intros pre st Heq Hp; cbn [foldl].
    - by rewrite app_nil_r in Heq; subst.
    - apply (IH (pre ++ [s])); [by rewrite <- app_assoc|]. by apply passed_step with post. }
  apply (Hfold []); [done|]. split; cbn.
  - intros k. rewrite decide_False by apply not_elem_of_nil. apply index_dest_lookup.
  - intros k. rewrite elem_of_empty. split; [done|]. intros [[]%not_elem_of_nil _].
  - intros k d. split; [intros []%not_elem_of_nil|intros [[]%not_elem_of_nil _]].
  - apply NoDup_nil_2.
Qed.

Lemma key_object_get r k : k ∈ key -> get (key_object r key) k = Some (default Null (get r k)).
Proof.
  unfold key_object. cbn [get].
  assert (forall l m, assoc k (foldl (fun m k => assoc_insert k (default Null (get r k)) m) m l) =
    if decide (k ∈ l) then Some (default Null (get r k)) else assoc k m) as Hfold.
  { induction l as [|x l IH]; intros m; cbn [foldl].
    - rewrite decide_False by apply not_elem_of_nil. done.
    - rewrite IH. destruct (decide (k = x)) as [<-|Hne].
      + rewrite assoc_insert_eq. repeat case_decide; set_solver.
      + rewrite assoc_insert_ne by done. repeat case_decide; set_solver. }
  intros Hk. by rewrite Hfold, decide_True.
Qed.

Lemma object_get_eq v k : object_get v k = get v k.
Proof. by destruct v. Qed.

(** The key columns alone carry the key text. *)
Lemma kt_key_object r : kt (key_object r key) = kt r.
Proof.
  unfold kt, key_text. f_equal. apply map_ext_in. intros k Hk%list_elem_of_In.
  do 3 f_equal. rewrite !object_get_eq, key_object_get by done. by destruct (get r k).
Qed.

Lemma rows_at_kt k l r : r ∈ rows_at k l -> kt r = k.
Proof. by intros [? _]%list_elem_of_filter. Qed.

Lemma classify_key_kt k source dest d :
  classify_key (rows_at k source) (rows_at k dest) = Some d -> kt (diff_key d) = k.
Proof.
  pose proof (rows_at_kt k source) as Hs. pose proof (rows_at_kt k dest) as Hd.
  destruct (rows_at k source) as [|s [|s' src]], (rows_at k dest) as [|d0 [|d1 dst]]; cbn;
    [done| | | |destruct (row_changed_columns _ _); [done|]| | | |];
    intros [= <-]; cbn; rewrite kt_key_object; ((apply Hs; left) || (apply Hd; left)).
Qed.

Lemma diff_pairs_spec source dest k d :
  (k, d) ∈ diff_pairs source dest <-> classify_key (rows_at k source) (rows_at k dest) = Some d.
Proof.
  unfold diff_pairs. rewrite elem_of_sort_by, elem_of_app.
  destruct (passed_all source dest) as [Hb _ Hf _]. rewrite Hf. set (st := foldl _ _ _) in *.
  assert ((k, d) ∈ leftover <$> map_to_list (by_key st) <->
          k ∉ kt <$> source /\ classify_key [] (rows_at k dest) = Some d) as ->.
  { rewrite list_elem_of_fmap. split.
    - intros ((k' & c & r) & [= -> ->] & Hin%elem_of_map_to_list). rewrite Hb in Hin. case_decide; [done|].
      split; [done|]. cbn. destruct (rows_at k' dest) as [|e [|e' l]]; [done| |]; injection Hin as <- <-; [done|].
      pose proof (zlen_nonneg l). cbn [classify_key]. rewrite !zlen_cons. by assert (1 <? 1 + (1 + zlen l) = true) as -> by lia.
    - intros [Hk Hc]. destruct (rows_at k dest) as [|e l] eqn:Hr; [done|].
      exists (k, (zlen (e :: l), e)). split; [|apply elem_of_map_to_list; by rewrite Hb, decide_False, Hr].
      unfold leftover. cbn [fst snd]. f_equal. destruct l as [|e' l]; cbn [classify_key] in Hc; [by injection Hc as <-|].
      pose proof (zlen_nonneg l). rewrite !zlen_cons in *.
      assert (1 <? 1 + (1 + zlen l) = true) as -> by lia. by injection Hc as <-. }
  destruct (decide (k ∈ kt <$> source)) as [Hk|Hk]; [tauto|].
  assert (rows_at k source = []) as ->; [|tauto].
  destruct (rows_at k source) as [|r l] eqn:Hr; [done|]. destruct Hk.
  assert (r ∈ rows_at k source) as Hin by (rewrite Hr; left).
  apply list_elem_of_filter in Hin as [<- Hin]. by apply list_elem_of_fmap_2.
Qed.

Lemma diff_pairs_nodup source dest : NoDup (diff_pairs source dest).*1.
Proof.
  unfold diff_pairs. rewrite sort_by_perm, fmap_app.
  destruct (passed_all source dest) as [Hb _ Hf Hn]. set (st := foldl _ _ _) in *.
  assert ((leftover <$> map_to_list (by_key st)).*1 = (map_to_list (by_key st)).*1) as ->
    by (rewrite <- list_fmap_compose; by apply list_fmap_ext).
  apply NoDup_app. split_and!; [done| |apply NoDup_fst_map_to_list].
  intros k ((k' & d) & -> & [Hk _]%Hf)%list_elem_of_fmap ((k'' & e) & Heq & He%elem_of_map_to_list)%list_elem_of_fmap.
  cbn in Heq. subst k''. rewrite Hb, decide_True in He by done. done.
Qed.

Lemma diff_rows_keys source dest : (fun d => kt (diff_key d)) <$> diff_rows source dest = (diff_pairs source dest).*1.
Proof.
  unfold diff_rows. rewrite <- list_fmap_compose. apply list_fmap_ext. intros i [k d] Hi. cbn.
  apply list_elem_of_lookup_2, diff_pairs_spec in Hi. by eapply classify_key_kt.
Qed.

Lemma elem_of_diff_rows source dest d :
  d ∈ diff_rows source dest <->
  classify_key (rows_at (kt (diff_key d)) source) (rows_at (kt (diff_key d)) dest) = Some d.
Proof.
  unfold diff_rows. rewrite list_elem_of_fmap. split.
  - intros ((k & d') & -> & Hd%diff_pairs_spec). cbn. by rewrite (classify_key_kt _ _ _ _ Hd).
  - intros Hd%diff_pairs_spec. by exists (kt (diff_key d), d).
Qed.

Lemma diff_rows_nil source dest :
  diff_rows source dest = [] <-> forall k, classify_key (rows_at k source) (rows_at k dest) = None.
Proof.
  split.
  - intros Hnil k. destruct (classify_key _ _) as [d|] eqn:E; [|done].
    apply diff_pairs_spec, (list_elem_of_fmap_2 snd) in E. fold (diff_rows source dest) in E.
    rewrite Hnil in E. by apply not_elem_of_nil in E.
  - intros Hnone. destruct (diff_rows source dest) as [|d l] eqn:E; [done|].
    assert (d ∈ diff_rows source dest) as Hd by (rewrite E; left). apply elem_of_diff_rows in Hd.
    by rewrite Hnone in Hd.
Qed.

Lemma diff_rows_nodup source dest : NoDup (diff_rows source dest).
Proof.
  pose proof (diff_pairs_nodup source dest) as Hn. rewrite <- diff_rows_keys in Hn. by apply NoDup_fmap_1 in Hn.
Qed.

Lemma rows_at_filter (P : string -> bool) k l :
  rows_at k (filter (fun r => P (kt r) = true) l) = if P k then rows_at k l else [].
Proof.
  induction l as [|r l IH]; [by destruct (P k)|]. rewrite filter_cons. unfold rows_at in *.
  destruct (decide (kt r = k)) as [Hk|Hk].
  - rewrite (filter_cons_True _ r l) by done. rewrite Hk. destruct (P k); [|done].
    rewrite decide_True, filter_cons_True by done. by rewrite IH.
  - rewrite (filter_cons_False _ r l) by done. case_decide; [|done]. by rewrite filter_cons_False.
Qed.

(** Comparing the rows of some of the keys gives the differences of those keys. *)
Lemma diff_rows_filter (P : string -> bool) source dest :
  diff_rows (filter (fun r => P (kt r) = true) source) (filter (fun r => P (kt r) = true) dest) ≡ₚ
  filter (fun d => P (kt (diff_key d)) = true) (diff_rows source dest).
Proof.
  apply NoDup_Permutation; [apply diff_rows_nodup|apply NoDup_filter, diff_rows_nodup|].
  intros d. rewrite list_elem_of_filter, !elem_of_diff_rows, !rows_at_filter.
  destruct (P (kt (diff_key d))); cbn; naive_solver.
Qed.

Lemma column_differs_refl a name : column_differs a a name = false.
Proof. unfold column_differs, string_eqb. by rewrite bool_decide_true. Qed.

Lemma row_changed_columns_refl a : row_changed_columns a a = [].
Proof.
  apply sort_by_nil. induction (List.filter (fun c => negb (is_excluded c exclude)) (compared_names a a)); cbn [List.filter]; [done|].
  by rewrite column_differs_refl.
Qed.

(** Strictly increasing keys. *)
Definition text_lt (a b : string) : Prop := String.le a b /\ a <> b.

(** The keyed comparison reports exactly the keys that differ. Every reported
    difference is what the rows of its key on the two sides call for: a source
    key that repeats is one [Duplicate], an unrepeated source key is missing,
    repeated in the destination or changed, a destination key without source rows
    is extra or repeated; every key that calls for a difference is reported, once,
    and the report is ordered by key text. *)
Theorem diff_rows_exact source dest :
  StronglySorted text_lt ((fun d => kt (diff_key d)) <$> diff_rows source dest) /\
  forall d, d ∈ diff_rows source dest <->
    classify_key (rows_at (kt (diff_key d)) source) (rows_at (kt (diff_key d)) dest) = Some d.
Proof.
  split; [|apply elem_of_diff_rows]. rewrite diff_rows_keys.
  pose proof (diff_pairs_nodup source dest) as Hn.
  assert (StronglySorted (fun a b => String.le a.1 b.1) (diff_pairs source dest)) as Hs by apply sort_by_sorted.
  induction Hs as [|[k d] l Hl IH Hk]; cbn in *; [constructor|]. apply NoDup_cons in Hn as [Hnk Hn].
  constructor; [by apply IH|]. apply Forall_fmap. rewrite Forall_forall in *. intros [k' d'] Hin. split; [by apply (Hk (k', d'))|].
  cbn. intros ->. apply Hnk. by apply (list_elem_of_fmap_2 fst) in Hin.
Qed.
End Diff.

(** ** Digests *)

(** [struct ContentDigest], [same], [bounds_union]. *)
Record ContentDigest := MkContentDigest {
  cd_rows : Z;
  cd_sum : Z;
  cd_xor : Z;
  cd_key_min : option Z;
  cd_key_max : option Z;
}.
Definition ContentDigest_default : ContentDigest := MkContentDigest 0 0 0 None None.
Definition digest_same (a b : ContentDigest) : bool :=
  (cd_rows a =? cd_rows b) && (cd_sum a =? cd_sum b) && (cd_xor a =? cd_xor b).
Definition union_with_z (f : Z -> Z -> Z) (a b : option Z) : option Z :=
  match a, b with Some a, Some b => Some (f a b) | _, _ => option_or a b end.
Definition bounds_union (a b : ContentDigest) : option (Z * Z) :=
  match union_with_z Z.min (cd_key_min a) (cd_key_min b), union_with_z Z.max (cd_key_max a) (cd_key_max b) with
  | Some min, Some max => Some (min, max)
  | _, _ => None
  end.

(** [DigestAccumulator::add] and the digest of a list of rows. *)
Definition digest_add (d : ContentDigest) (hash : Z) (key : option Z) : ContentDigest :=
  MkContentDigest (wadd64 (cd_rows d) 1) ((cd_sum d + hash) mod 2 ^ 128) (Z.lxor (cd_xor d) hash)
    (match key with Some k => Some (from_option (fun m => Z.min m k) k (cd_key_min d)) | None => cd_key_min d end)
    (match key with Some k => Some (from_option (fun m => Z.max m k) k (cd_key_max d)) | None => cd_key_max d end).

(** [struct ServerDigest], [comparable], [same], [bounds_union]. *)
Record ServerDigest := MkServerDigest {
  sd_algorithm : string;
  sd_rows : Z;
  sd_digest : string;
  sd_key_min : option Z;
  sd_key_max : option Z;
}.
Definition sd_comparable (a b : ServerDigest) : bool := string_eqb (sd_algorithm a) (sd_algorithm b).
Definition sd_same (a b : ServerDigest) : bool :=
  sd_comparable a b && (sd_rows a =? sd_rows b) && string_eqb (sd_digest a) (sd_digest b).
Definition sd_bounds_union (a b : ServerDigest) : option (Z * Z) :=
  match union_with_z Z.min (sd_key_min a) (sd_key_min b), union_with_z Z.max (sd_key_max a) (sd_key_max b) with
  | Some min, Some max => Some (min, max)
  | _, _ => None
  end.

Lemma digest_add_comm d h k h' k' : digest_add (digest_add d h k) h' k' = digest_add (digest_add d h' k') h k.
Proof.
  unfold digest_add. cbn [cd_rows cd_sum cd_xor cd_key_min cd_key_max]. f_equal.
  - rewrite !Z.add_mod_idemp_l by lia. f_equal. lia.
  - rewrite !Z.lxor_assoc. f_equal. apply Z.lxor_comm.
  - destruct k, k', (cd_key_min d); cbn; f_equal; lia.
  - destruct k, k', (cd_key_max d); cbn; f_equal; lia.
Qed.

(** ** Reports *)

(** [struct VerifyReport], [tally], [equal], [differing_keys], [healed]. *)
Record VerifyReport := MkVerifyReport {
  ranges_compared : Z;
  ranges_differing : Z;
  rows_fetched_source : Z;
  rows_fetched_dest : Z;
  server_digests : bool;
  differences : list Difference;
  truncated : bool;
  differences_found : option Z;
  repaired_upserts : option Z;
  repaired_deletes : option Z;
}.
Definition VerifyReport_default : VerifyReport := MkVerifyReport 0 0 0 0 false [] false None None None.
Definition tally_one (t : Z * Z * Z * Z) (d : Difference) : Z * Z * Z * Z :=
  let '(missing, extra, changed, dup) := t in
  match diff_kind d with
  | MissingInDest => (missing + 1, extra, changed, dup)
  | ExtraInDest => (missing, extra + 1, changed, dup)
  | Changed _ => (missing, extra, changed + 1, dup)
  | Duplicate _ _ => (missing, extra, changed, dup + 1)
  end.
Definition tally (r : VerifyReport) : Z * Z * Z * Z := foldl tally_one (0, 0, 0, 0) (differences r).
Definition report_equal (r : VerifyReport) : bool := is_nil (differences r) && negb (truncated r).
Definition differing_keys (r : VerifyReport) : Z :=
  Z.max (default (zlen (differences r)) (differences_found r)) (zlen (differences r)).
Definition healed (r : VerifyReport) : bool :=
  let found := differing_keys r in
  if truncated r || (found =? 0) then false
  else found <=? wadd64 (default 0 (repaired_upserts r)) (default 0 (repaired_deletes r)).
End Canonical.

(** ** Bisection *)

Definition is_range (r : KeyRange) : Prop := from_option is_i64 True (kr_lo r) /\ from_option is_i64 True (kr_hi r).

(** A range without its unbounded sides, and the number of keys it spans. *)
Definition lo_end (r : KeyRange) : Z := default I64_MIN (kr_lo r).
Definition hi_end (r : KeyRange) : Z := default I64_MAX (kr_hi r).
Definition span (r : KeyRange) : Z := hi_end r - lo_end r.

Lemma bisect_spec r obs l h :
  is_range r -> from_option (fun b => is_i64 b.1 /\ is_i64 b.2) True obs -> bisect r obs = Some (l, h) ->
  exists mid, l = MkKeyRange (kr_lo r) (Some mid) /\ h = MkKeyRange (Some mid) (kr_hi r) /\
    is_i64 mid /\ lo_end r < mid < hi_end r.
Proof.
  intros [Hlo Hhi] Hobs. unfold bisect, lo_end, hi_end.
  destruct (option_or (kr_lo r) _) as [lo|] eqn:El; [|done].
  destruct (option_or (kr_hi r) _) as [hi|] eqn:Eh; [|done].
  destruct (Z.ltb_spec (hi - lo) 2); [done|]. intros [= <- <-].
  assert (is_i64 lo /\ default I64_MIN (kr_lo r) <= lo) as [].
  { unfold is_i64 in *. destruct (kr_lo r), obs as [[]|]; cbn in *; simplify_eq; split; lia. }
  assert (is_i64 hi /\ hi <= default I64_MAX (kr_hi r)) as [].
  { unfold is_i64, I64_MIN, I64_MAX in *. destruct (kr_hi r), obs as [[]|]; cbn in *; simplify_eq; split; lia. }
  assert (lo < lo + (hi - lo) / 2 < hi) as Hm by (split; [assert (1 <= (hi - lo) / 2) by (apply Z.div_le_lower_bound; lia); lia|
    assert ((hi - lo) / 2 < hi - lo) by (apply Z.div_lt; lia); lia]).
  exists (lo + (hi - lo) / 2). rewrite cast_i64_id by (unfold is_i64 in *; lia).
  split_and!; [done|done| |lia|lia]. unfold is_i64 in *. lia.
Qed.

Lemma bisect_tiles r mid k :
  lo_end r < mid < hi_end r -> is_i64 k ->
  range_contains r k = xorb (range_contains (MkKeyRange (kr_lo r) (Some mid)) k)
                            (range_contains (MkKeyRange (Some mid) (kr_hi r)) k).
Proof.
  unfold lo_end, hi_end, range_contains, is_i64, I64_MIN, I64_MAX. intros Hm Hk. cbn [kr_lo kr_hi].
  destruct (kr_lo r), (kr_hi r); cbn in *;
    repeat match goal with |- context [?a <=? ?b] => destruct (Z.leb_spec a b) | |- context [?a <? ?b] => destruct (Z.ltb_spec a b) end;
    cbn; done || lia.
Qed.
