(* ===== verification/Cursor.v ===== *)
(** Cursor bookmarks (crates/core/src/replication/cursor.rs): a read in cursor order
    that resumes at its last cursor value without losing or repeating a row.

    The text of numbers and strings (serde_json) is a parameter. The check of a
    query's comparison operator, [strict_comparison], is not modelled. *)
From S2P Require Import Prelude Errors Float64 Json Text Drift WriteMode ContentDiff.

Local Open Scope Z_scope.

Definition MAX_BOUNDARY_ROWS : nat := Z.to_nat 10000.

Record CursorBookmark := MkCursorBookmark {
  cb_value : Value;
  cb_boundary : option (list string);
}.
Definition initial_cursor (value : Value) : CursorBookmark := MkCursorBookmark value (Some []).

Section Bookmark.
Context (to_string : Value -> string).

(** [from_state], [to_value]. *)
Fixpoint boundary_strings (items : list Value) : result (list string) FaucetError :=
  match items with
  | [] => Ok []
  | VString s :: items => match boundary_strings items with Ok l => Ok (s :: l) | Err e => Err e end
  | other :: _ => Err (State ("cursor bookmark: boundary entries must be strings, found " +:+ to_string other))
  end.
Definition structured (o : list (string * Value)) : bool :=
  match assoc "value" o with
  | Some _ => forallb (fun e => string_eqb e.1 "value" || string_eqb e.1 "boundary") o
  | None => false
  end.
Definition cursor_from_state (state : Value) : result CursorBookmark FaucetError :=
  match state with
  | VObject o =>
      if structured o then
        let value := default Null (assoc "value" o) in
        let boundary := match assoc "boundary" o with
                        | None => Ok (Some [])
                        | Some Null => Ok None
                        | Some (VArray items) => match boundary_strings items with Ok l => Ok (Some l) | Err e => Err e end
                        | Some other => Err (State ("cursor bookmark: `boundary` must be an array or null, found " +:+ to_string other))
                        end in
        match boundary with
        | Err e => Err e
        | Ok boundary =>
            match value with
            | Null => Err (State "cursor bookmark: `value` must not be null")
            | _ => Ok (MkCursorBookmark value boundary)
            end
        end
      else Ok (initial_cursor state)
  | _ => Ok (initial_cursor state)
  end.
Definition cursor_to_value (b : CursorBookmark) : Value :=
  VObject [("value", cb_value b);
           ("boundary", match cb_boundary b with Some l => VArray (VString <$> l) | None => Null end)].
End Bookmark.

(** ** The tracker *)

Record CursorTracker := MkCursorTracker {
  ct_column : string;
  ct_start : Value;
  ct_start_boundary : option (gmap string nat);
  ct_value : Value;
  ct_boundary : option (gmap string nat);
  ct_boundary_rows : nat;
  ct_missing : nat;
}.
Definition add_one (m : gmap string nat) (fp : string) : gmap string nat := <[fp := S (default 0%nat (m !! fp))]> m.
Definition count (items : list string) : gmap string nat := foldl add_one ∅ items.
Definition tracker_new (column : string) (start : CursorBookmark) : CursorTracker :=
  let b := count <$> cb_boundary start in
  MkCursorTracker column (cb_value start) b (cb_value start) b
    (match b with Some m => sum_list (map_to_list m).*2 | None => 0%nat end) 0.

Section Tracker.
Context (fingerprint : Value -> string).

(** [row.get(column).filter(|v| !v.is_null())]. *)
Definition cursor_of (column : string) (row : Value) : option Value :=
  match get row column with Some Null | None => None | Some v => Some v end.

Definition refused (t : CursorTracker) (v : Value) (fp : string) : option (gmap string nat) :=
  if bool_decide (v = ct_start t) then
    match ct_start_boundary t with
    | Some b => match b !! fp with Some (S n) => Some (<[fp := n]> b) | _ => None end
    | None => None
    end
  else None.
Definition advance (t : CursorTracker) (v : Value) (fp : string) : CursorTracker :=
  if bool_decide (v = ct_value t) then
    match ct_boundary t with
    | Some b =>
        let rows := S (ct_boundary_rows t) in
        MkCursorTracker (ct_column t) (ct_start t) (ct_start_boundary t) (ct_value t)
          (if (MAX_BOUNDARY_ROWS <? rows)%nat then None else Some (add_one b fp)) rows (ct_missing t)
    | None => t
    end
  else MkCursorTracker (ct_column t) (ct_start t) (ct_start_boundary t) v (Some {[fp := 1%nat]}) 1 (ct_missing t).
Definition admit_row (t : CursorTracker) (row : Value) : bool * CursorTracker :=
  match cursor_of (ct_column t) row with
  | None => (true, MkCursorTracker (ct_column t) (ct_start t) (ct_start_boundary t) (ct_value t) (ct_boundary t)
                     (ct_boundary_rows t) (S (ct_missing t)))
  | Some v =>
      match refused t v (fingerprint row) with
      | Some b => (false, MkCursorTracker (ct_column t) (ct_start t) (Some b) (ct_value t) (ct_boundary t)
                            (ct_boundary_rows t) (ct_missing t))
      | None => (true, advance t v (fingerprint row))
      end
  end.

(** [bookmark]: every fingerprint as often as it was counted, sorted. *)
Definition spread (m : gmap string nat) : list string :=
  sort_by id (concat ((fun e => replicate e.2 e.1) <$> map_to_list m)).
Definition bookmark (t : CursorTracker) : CursorBookmark := MkCursorBookmark (ct_value t) (spread <$> ct_boundary t).

(** A read: the rows admitted, and the tracker after them. *)
Fixpoint read_rows (t : CursorTracker) (rows : list Value) : list Value * CursorTracker :=
  match rows with
  | [] => ([], t)
  | row :: rows =>
      let '(keep, t) := admit_row t row in
      let '(out, t) := read_rows t rows in
      (if keep then row :: out else out, t)
  end.
End Tracker.

(** [row_fingerprint]: two FNV-1a digests of the row's canonical text, which
    [canonical_json] writes. *)
Definition row_fingerprint (json_str : string -> string) (float_str : f64 -> string) (row : Value) : string :=
  let text := canonical_json json_str float_str row in
  hex_pad 16 (fnv1a_64 text FNV_BASIS_A) (hex_pad 16 (fnv1a_64 text FNV_BASIS_B) EmptyString).

(** ** Resuming *)

(** How often a fingerprint occurs. *)
Definition copies (fp : string) (l : list string) : nat := length (filter (fun x => x = fp) l).
Definition recorded (b : CursorBookmark) (fp : string) : nat :=
  match cb_boundary b with Some l => copies fp l | None => 0%nat end.

Lemma copies_cons fp x l : copies fp (x :: l) = ((if decide (x = fp) then 1 else 0) + copies fp l)%nat.
Proof. unfold copies. rewrite filter_cons. by destruct (decide (x = fp)). Qed.
Lemma copies_app fp a b : copies fp (a ++ b) = (copies fp a + copies fp b)%nat.
Proof. unfold copies. by rewrite filter_app, length_app. Qed.
Lemma copies_perm fp a b : a ≡ₚ b -> copies fp a = copies fp b.
Proof. unfold copies. by intros ->. Qed.

Lemma add_one_lookup m x fp :
  default 0%nat (add_one m x !! fp) = ((if decide (x = fp) then 1 else 0) + default 0%nat (m !! fp))%nat.
Proof.
  unfold add_one. destruct (decide (x = fp)) as [->|Hne]; [by rewrite lookup_insert_eq|by rewrite lookup_insert_ne].
Qed.

Lemma count_lookup l fp : default 0%nat (count l !! fp) = copies fp l.
Proof.
  unfold count. assert (forall m, default 0%nat (foldl add_one m l !! fp) = (default 0%nat (m !! fp) + copies fp l)%nat) as E.
  { induction l as [|x l IH]; intros m; cbn [foldl]; [unfold copies; cbn; lia|]. rewrite IH, add_one_lookup, copies_cons. lia. }
  rewrite E, lookup_empty. done.
Qed.

Lemma copies_replicate fp x n : copies fp (replicate n x) = if decide (x = fp) then n else 0%nat.
Proof. induction n as [|n IH]; cbn [replicate]; [by destruct (decide _)|]. rewrite copies_cons, IH. by destruct (decide _). Qed.

Lemma spread_copies m fp : copies fp (spread m) = default 0%nat (m !! fp).
Proof.
  unfold spread. rewrite (copies_perm _ _ _ (sort_by_perm id _)). induction m as [|k n m Hk IH] using map_ind; [done|].
  rewrite (copies_perm fp _ (concat ((fun e => replicate e.2 e.1) <$> ((k, n) :: map_to_list m)))).
  - rewrite fmap_cons. cbn [concat fst snd]. rewrite copies_app, copies_replicate, IH.
    destruct (decide (k = fp)) as [->|Hne]; [rewrite Hk, lookup_insert_eq; cbn; lia|by rewrite lookup_insert_ne].
  - by rewrite (map_to_list_insert m k n Hk).
Qed.

Section Resume.
Context (fingerprint : Value -> string) (col : string).

(** The rows at a cursor value, the others, and how often a fingerprint occurs. *)
Definition rows_at (v : Value) (rows : list Value) : list Value := filter (fun r => cursor_of col r = Some v) rows.
Definition rows_off (v : Value) (rows : list Value) : list Value := filter (fun r => cursor_of col r <> Some v) rows.
Definition held (fp : string) (v : Value) (rows : list Value) : nat := copies fp (fingerprint <$> rows_at v rows).

(** The rows of one cursor value come together, and those of the starting value
    first: what a query ordered by the cursor gives. *)
Fixpoint grouped (closed : list Value) (cur : Value) (rows : list Value) : Prop :=
  match rows with
  | [] => True
  | row :: rows =>
      match cursor_of col row with
      | None => grouped closed cur rows
      | Some c => if decide (c = cur) then grouped closed cur rows else c ∉ closed /\ grouped (cur :: closed) c rows
      end
  end.

Lemma held_cons fp v row rows :
  held fp v (row :: rows) = ((if decide (cursor_of col row = Some v /\ fingerprint row = fp) then 1 else 0) + held fp v rows)%nat.
Proof.
  unfold held, rows_at. rewrite filter_cons. destruct (decide (cursor_of col row = Some v)).
  - rewrite fmap_cons, copies_cons. destruct (decide (fingerprint row = fp)), (decide _); try done; tauto.
  - destruct (decide _); [tauto|done].
Qed.
Lemma rows_off_cons v row rows :
  rows_off v (row :: rows) = if decide (cursor_of col row = Some v) then rows_off v rows else row :: rows_off v rows.
Proof. unfold rows_off. rewrite filter_cons. by repeat destruct (decide _). Qed.

Definition still_refused (t : CursorTracker) (fp : string) : nat :=
  match ct_start_boundary t with Some m => default 0%nat (m !! fp) | None => 0%nat end.

Lemma advance_keeps t v fp :
  ct_column (advance t v fp) = ct_column t /\ ct_start (advance t v fp) = ct_start t /\ ct_start_boundary (advance t v fp) = ct_start_boundary t.
Proof. unfold advance. repeat case_match; done. Qed.

(** What one row does to the copies still to refuse. *)
Lemma admit_refuses t row keep t' :
  ct_column t = col -> admit_row fingerprint t row = (keep, t') ->
  ct_column t' = col /\ ct_start t' = ct_start t /\
  (cursor_of col row <> Some (ct_start t) -> keep = true /\ forall fp, still_refused t' fp = still_refused t fp) /\
  (cursor_of col row = Some (ct_start t) ->
     if keep then still_refused t (fingerprint row) = 0%nat /\ forall fp, still_refused t' fp = still_refused t fp
     else forall fp, still_refused t fp = ((if decide (fingerprint row = fp) then 1 else 0) + still_refused t' fp)%nat).
Proof.
  intros Hc. unfold admit_row. rewrite Hc. destruct (cursor_of col row) as [v|]; [|intros [= <- <-]; done].
  unfold refused. case_bool_decide as Hv; [subst v|].
  2: { intros [= <- <-]. destruct (advance_keeps t v (fingerprint row)) as (-> & -> & E). unfold still_refused. rewrite E.
       split_and!; [done..|intros [= ->]; done]. }
  destruct (ct_start_boundary t) as [m|] eqn:Em.
  - destruct (m !! fingerprint row) as [[|n]|] eqn:El; intros [= <- <-];
      try (destruct (advance_keeps t (ct_start t) (fingerprint row)) as (-> & -> & E); unfold still_refused; rewrite E, Em, ?El; done).
    cbn. split_and!; [done..|]. intros _ fp. unfold still_refused. rewrite Em. cbn.
    destruct (decide (fingerprint row = fp)) as [<-|Hne]; [by rewrite El, lookup_insert_eq|by rewrite lookup_insert_ne].
  - intros [= <- <-]. destruct (advance_keeps t (ct_start t) (fingerprint row)) as (-> & -> & E). unfold still_refused. by rewrite E, Em.
Qed.

(** A read refuses, at its starting value, the copies its bookmark recorded, and
    nothing else. *)
Lemma read_refuses t rows :
  ct_column t = col ->
  let '(out, t') := read_rows fingerprint t rows in
  rows_off (ct_start t) out = rows_off (ct_start t) rows /\
  forall fp, held fp (ct_start t) out = (held fp (ct_start t) rows - still_refused t fp)%nat.
Proof.
  revert t. induction rows as [|row rows IH]; intros t Hc; cbn [read_rows]; [done|].
  destruct (admit_row fingerprint t row) as [keep t1] eqn:Ha. destruct (admit_refuses t row keep t1 Hc Ha) as (Hc1 & Hs1 & Hoff & Hat).
  specialize (IH t1 Hc1). rewrite Hs1 in IH. destruct (read_rows fingerprint t1 rows) as [out t2]. destruct IH as [IH1 IH2].
  destruct (decide (cursor_of col row = Some (ct_start t))) as [E|E].
  - specialize (Hat E). rewrite (rows_off_cons _ row rows), decide_True by done. destruct keep.
    + destruct Hat as [Hz Hsame]. rewrite rows_off_cons, decide_True by done. split; [done|]. intros fp.
      rewrite !held_cons, IH2, Hsame. destruct (decide _) as [[_ <-]|]; lia.
    + split; [done|]. intros fp. rewrite held_cons, IH2, Hat.
      destruct (decide (fingerprint row = fp)), (decide _); try tauto; lia.
  - destruct (Hoff E) as [-> Hsame]. rewrite !rows_off_cons, !decide_False by done. rewrite IH1. split; [done|].
    intros fp. rewrite !held_cons, IH2, Hsame. destruct (decide _); [tauto|lia].
Qed.

(** The boundary counts the rows emitted at the current value; [acc] are the rows
    emitted so far, [base] what the bookmark had recorded at the starting value. *)
Record tracks (base : string -> nat) (closed acc : list Value) (t : CursorTracker) : Prop := {
  tracks_col : ct_column t = col;
  tracks_seen : forall r c, r ∈ acc -> cursor_of col r = Some c -> c = ct_value t \/ c ∈ closed;
  tracks_start : ct_start t = ct_value t \/ ct_start t ∈ closed;
  tracks_count : forall m fp, ct_boundary t = Some m ->
    default 0%nat (m !! fp) = (held fp (ct_value t) acc + if decide (ct_value t = ct_start t) then base fp else 0)%nat;
}.

Lemma held_app fp v a b : held fp v (a ++ b) = (held fp v a + held fp v b)%nat.
Proof. unfold held, rows_at. by rewrite filter_app, fmap_app, copies_app. Qed.

Lemma held_none fp v rows : (forall r, r ∈ rows -> cursor_of col r <> Some v) -> held fp v rows = 0%nat.
Proof.
  intros Hr. unfold held, rows_at. replace (filter (fun r => cursor_of col r = Some v) rows) with (@nil Value); [done|].
  symmetry. induction rows as [|r rows IH]; [done|]. rewrite filter_cons, decide_False; [|apply Hr; left].
  apply IH. intros r' H. apply Hr. by right.
Qed.

Lemma held_one fp v row c : cursor_of col row = c ->
  held fp v [row] = if decide (c = Some v /\ fingerprint row = fp) then 1%nat else 0%nat.
Proof. intros <-. rewrite held_cons. change (held fp v []) with 0%nat. by rewrite Nat.add_0_r. Qed.

Lemma advance_tracks base closed acc t row c :
  tracks base closed acc t -> cursor_of col row = Some c ->
  (if decide (c = ct_value t) then True else c ∉ closed) ->
  tracks base (if decide (c = ct_value t) then closed else ct_value t :: closed) (acc ++ [row]) (advance t c (fingerprint row)) /\
  ct_value (advance t c (fingerprint row)) = c.
Proof.
  intros [Hc Hs Hst Hm] Hrow Hg. unfold advance. case_bool_decide as Ev.
  - subst c. rewrite decide_True by done. destruct (ct_boundary t) as [m|] eqn:Eb.
    + split; [|done]. split; cbn; [done| |done|].
      * intros r c [Hr|Hr%list_elem_of_singleton]%elem_of_app Hc'; [eauto|subst r]. left. congruence.
      * intros m' fp Hm'. case_match; [done|]. injection Hm' as <-.
        rewrite add_one_lookup, (Hm m fp eq_refl), held_app, (held_one _ _ _ _ Hrow).
        destruct (decide (fingerprint row = fp)), (decide (Some (ct_value t) = Some (ct_value t) /\ _)); try tauto; lia.
    + split; [|done]. split; [done| |done|congruence].
      intros r c [Hr|Hr%list_elem_of_singleton]%elem_of_app Hc'; [eauto|subst r]. left. congruence.
  - destruct (decide (c = ct_value t)); [done|]. split; [|done]. split; cbn; [done| | |].
    + intros r c' [Hr|Hr%list_elem_of_singleton]%elem_of_app Hc'; [|left; congruence]. right. apply elem_of_cons. destruct (Hs r c' Hr Hc') as [->|]; auto.
    + right. apply elem_of_cons. destruct Hst as [->|]; auto.
    + intros m fp [= <-]. rewrite held_app, (held_one _ _ _ _ Hrow), held_none.
      2: { intros r Hr E. destruct (Hs r c Hr E); done. }
      rewrite (decide_False (P := c = ct_start t)) by (intros ->; destruct Hst; congruence || done).
      destruct (decide (Some c = Some c /\ fingerprint row = fp)) as [[_ <-]|Hn]; [by rewrite lookup_singleton_eq|]. rewrite lookup_singleton_ne; [done|]. intros E. apply Hn. by split.
Qed.

Lemma read_tracks base closed acc t rows :
  tracks base closed acc t -> grouped closed (ct_value t) rows ->
  exists closed', tracks base closed' (acc ++ (read_rows fingerprint t rows).1) (read_rows fingerprint t rows).2.
Proof.
  revert closed acc t. induction rows as [|row rows IH]; intros closed acc t Ht Hg; cbn [read_rows]; [exists closed; by rewrite app_nil_r|].
  cbn [grouped] in Hg. unfold admit_row. rewrite (tracks_col _ _ _ _ Ht). destruct (cursor_of col row) as [c|] eqn:Hrow.
  - assert (ct_value t = c \/ refused t c (fingerprint row) = None) as Hcur.
    { destruct (decide (c = ct_value t)); [by left|]. right. unfold refused. rewrite bool_decide_false; [done|]. intros ->.
      destruct Hg as [Hn _]. destruct (tracks_start _ _ _ _ Ht); done. }
    destruct (refused t c (fingerprint row)) as [b|].
    + destruct Hcur as [<-|]; [|done]. rewrite decide_True in Hg by done. set (t1 := MkCursorTracker _ _ _ _ _ _ _).
      assert (tracks base closed acc t1) as Ht1 by (destruct Ht; split; done).
      specialize (IH closed acc t1 Ht1 Hg). destruct (read_rows fingerprint t1 rows). exact IH.
    + destruct (advance_tracks base closed acc t row c Ht Hrow) as [Ht1 Ev]; [destruct (decide _); [done|apply Hg]|].
      set (t1 := advance t c (fingerprint row)) in *.
      assert (grouped (if decide (c = ct_value t) then closed else ct_value t :: closed) (ct_value t1) rows) as Hg1
        by (rewrite Ev; destruct (decide (c = ct_value t)) as [->|]; [done|apply Hg]).
      specialize (IH _ _ t1 Ht1 Hg1). destruct (read_rows fingerprint t1 rows). cbn in *. by rewrite <- app_assoc in IH.
  - set (t1 := MkCursorTracker _ _ _ _ _ _ _). assert (tracks base closed (acc ++ [row]) t1) as Ht1.
    { destruct Ht as [Hc Hs Hst Hm]. split; cbn; [done| |done|].
      - intros r c [Hr|Hr%list_elem_of_singleton]%elem_of_app Hc'; [eauto|congruence].
      - intros m fp Hb. rewrite held_app, (held_one _ _ _ _ Hrow), (Hm m fp Hb). destruct (decide (None = _ /\ _)) as [[]|]; [done|lia]. }
    specialize (IH closed (acc ++ [row]) t1 Ht1 Hg). destruct (read_rows fingerprint t1 rows). cbn in *. by rewrite <- app_assoc in IH.
Qed.
End Resume.

Lemma read_start fingerprint t rows : ct_start (read_rows fingerprint t rows).2 = ct_start t.
Proof.
  revert t. induction rows as [|row rows IH]; intros t; cbn [read_rows]; [done|].
  assert (ct_start (admit_row fingerprint t row).2 = ct_start t) as Ha.
  { unfold admit_row. destruct (cursor_of _ row); [|done]. destruct (refused _ _ _); [done|]. cbn. by destruct (advance_keeps t v (fingerprint row)) as (_ & ? & _). }
  destruct (admit_row fingerprint t row) as [keep t1]. cbn in Ha. specialize (IH t1). destruct (read_rows fingerprint t1 rows). cbn in *. congruence.
Qed.

(** C31: A resumed cursor read neither loses nor repeats a row. Let a read from any
    bookmark stop after any number of rows and a second one resume from its
    bookmark, over whatever rows the table then holds. Every row away from the
    boundary value is emitted. At the boundary value, each row (by fingerprint) is
    emitted as often as the table holds it beyond the copies already emitted there,
    by the first read or recorded before it; when more rows share the value than a
    bookmark tracks, every row at it is emitted again. *)
Theorem cursor_resume_exact (fingerprint : Value -> string) (col : string) (b0 : CursorBookmark) (rows1 rows2 : list Value) :
  grouped col [] (cb_value b0) rows1 ->
  let '(out1, t1) := read_rows fingerprint (tracker_new col b0) rows1 in
  let b1 := bookmark t1 in
  let '(out2, _) := read_rows fingerprint (tracker_new col b1) rows2 in
  let v := cb_value b1 in
  rows_off col v out2 = rows_off col v rows2 /\
  forall fp, held fingerprint col fp v out2 =
    (held fingerprint col fp v rows2 -
      match cb_boundary b1 with
      | Some _ => held fingerprint col fp v out1 + if decide (v = cb_value b0) then recorded b0 fp else 0
      | None => 0
      end)%nat.
Proof.
  intros Hg. assert (tracks fingerprint col (recorded b0) [] [] (tracker_new col b0)) as H0.
  { split; cbn; [done|by intros ? ? ?%elem_of_nil|by left|]. intros m fp Hm. unfold recorded. rewrite decide_True by done.
    destruct (cb_boundary b0) as [l|]; [|done]. injection Hm as <-. by rewrite count_lookup. }
  destruct (read_tracks fingerprint col _ _ _ _ rows1 H0 Hg) as (closed & Ht).
  assert (ct_start (read_rows fingerprint (tracker_new col b0) rows1).2 = cb_value b0) as Hstart by apply read_start.
  destruct (read_rows fingerprint (tracker_new col b0) rows1) as [out1 t1]. cbn [fst snd app] in Ht, Hstart.
  cbv zeta. pose proof (read_refuses fingerprint col (tracker_new col (bookmark t1)) rows2 eq_refl) as Hr.
  destruct (read_rows fingerprint (tracker_new col (bookmark t1)) rows2) as [out2 t2]. destruct Hr as [Hoff Hat].
  split; [done|]. intros fp. rewrite Hat. f_equal. unfold still_refused. cbn. destruct (ct_boundary t1) as [m|] eqn:Em; cbn; [|done].
  rewrite count_lookup, spread_copies, (tracks_count _ _ _ _ _ _ Ht m fp Em), Hstart. done.
Qed.

(** Of two equal rows at the boundary one was emitted before the first read
    stopped, and a third copy and another row arrived since. *)
Lemma cursor_resume_exact_witness :
  let row n := VObject [("c", VNumber (PosInt 7)); ("n", VNumber (PosInt n))] in
  let fingerprint := canonical_json id (fun _ => EmptyString) in
  let b0 := initial_cursor (VNumber (PosInt 0)) in
  let '(out1, t1) := read_rows fingerprint (tracker_new "c" b0) [row 1] in
  let '(out2, _) := read_rows fingerprint (tracker_new "c" (bookmark t1)) [row 1; row 1; row 2] in
  out1 = [row 1] /\ out2 = [row 1; row 2] /\ held fingerprint "c" (fingerprint (row 1)) (VNumber (PosInt 7)) out2 = 1%nat.
Proof.
  intros row fingerprint b0. assert (grouped "c" [] (cb_value b0) [row 1]) as Hg by (vm_compute; split; [by intros ?%elem_of_nil|done]).
  pose proof (cursor_resume_exact fingerprint "c" b0 [row 1] [row 1; row 1; row 2] Hg) as H. vm_compute in H |- *.
  split; [reflexivity|]. split; [reflexivity|]. exact (proj2 H (fingerprint (row 1))).
Defined.

(** A cursor bookmark reads back from its stored form. *)
Theorem cursor_bookmark_roundtrip to_string b :
  cb_value b <> Null -> cursor_from_state to_string (cursor_to_value b) = Ok b.
Proof.
  intros Hv. destruct b as [v bd]. cbn in Hv. unfold cursor_from_state, cursor_to_value. cbn [cb_value cb_boundary].
  assert (forall l, boundary_strings to_string (VString <$> l) = Ok l) as Hl.
  { induction l as [|s l IH]; [done|]. rewrite fmap_cons. cbn [boundary_strings]. by rewrite IH. }
  set (o := [("value", v); ("boundary", _)]).
  assert (structured o = true /\ assoc "value" o = Some v /\
    assoc "boundary" o = Some (match bd with Some l => VArray (VString <$> l) | None => Null end)) as (-> & -> & ->)
    by (split_and!; reflexivity).
  destruct bd as [l|]; cbn [default]; rewrite ?Hl; by destruct v.
Qed.

Lemma cursor_bookmark_roundtrip_witness :
  let b := MkCursorBookmark (VString "2024-01-01") (Some ["0a"; "0a"]) in
  cursor_from_state (fun _ => EmptyString) (cursor_to_value b) = Ok b.
Proof. apply cursor_bookmark_roundtrip. discriminate. Defined.
