(* ===== verification/Verify.v ===== *)
(** Content verification of a destination against its source:
    cli/src/verify/mod.rs and spec.rs. Key ranges are digested on both sides and
    bisected while they disagree; the ranges left are read and compared row by
    row, and a repair re-writes the keys that differ.

    The two sides are connectors, seen through the four calls the verifier makes;
    running a repair pass is a pipeline run of its own. Both are parameters. *)
From S2P Require Import Prelude Errors Float64 Json Text Drift Quality Contract Shard ContentDiff.

Local Open Scope Z_scope.
Local Open Scope result_scope.

(** ** The [verify:] block *)

Definition DEFAULT_RANGES : Z := 16.
Definition DEFAULT_LEAF_ROWS : Z := 1000.
Definition DEFAULT_MAX_DIFFERENCES : Z := 1000.

(** [struct VerifySpec]; of [destination], the connector type. *)
Record VerifySpec := MkVerifySpec {
  vs_key : list string;
  vs_columns : option (list string);
  vs_exclude : list string;
  vs_destination : option string;
  vs_ranges : Z;
  vs_leaf_rows : Z;
  vs_max_differences : Z;
  vs_max_rows_scanned : option Z;
  vs_normalize : Normalizer;
  vs_after_run : bool;
  vs_fail_on_difference : bool;
  vs_repair : bool;
  vs_allow_delete : bool;
}.
Definition VerifySpec_default : VerifySpec :=
  MkVerifySpec [] None ["_faucet_*"] None DEFAULT_RANGES DEFAULT_LEAF_ROWS DEFAULT_MAX_DIFFERENCES None
    Normalizer_default true true false false.

(** [VerifySpec::validate]. *)
Definition verify_validate (show : f64 -> string) (s : VerifySpec) : result unit FaucetError :=
  if vs_ranges s =? 0 then Err (Config "verify: `ranges` must be at least 1")
  else if vs_leaf_rows s =? 0 then Err (Config "verify: `leaf_rows` must be at least 1")
  else if vs_max_differences s =? 0 then Err (Config "verify: `max_differences` must be at least 1")
  else if match vs_columns s with Some [] => true | _ => false end then
    Err (Config "verify: `columns` must list at least one column when set (omit it to compare every column)")
  else if existsb (fun k => string_eqb (trim k) EmptyString) (vs_key s) then
    Err (Config "verify: `key` entries must not be empty")
  else if match vs_destination s with Some kind => string_eqb (trim kind) EmptyString | None => false end then
    Err (Config "verify: `destination.type` must name a source connector")
  else normalizer_validate show (vs_normalize s).

(** The two variants of [CliError] the verifier raises. *)
Inductive CliError := CliConfig (msg : string) | CliFaucet (e : FaucetError).
Definition lift {A} (r : result A FaucetError) : result A CliError :=
  match r with Ok a => Ok a | Err e => Err (CliFaucet e) end.

(** ** Helpers of [verify_node_guarded] *)

(** [key_is_integer], [inject_shard_key], [schema_columns], [range_of_shard]. *)
Definition key_is_integer (schema : Value) (key : string) : bool :=
  match get schema "properties" ≫= fun p => get p key with
  | None => true
  | Some prop =>
      match get prop "type" with
      | Some (VString t) => string_eqb t "integer"
      | Some (VArray ts) =>
          forallb (fun t => string_eqb t "integer")
            (List.filter (fun t => negb (string_eqb t "null")) (omap as_str ts))
      | _ => true
      end
  end.
Definition inject_shard_key (cfg : Value) (key : string) : Value :=
  match cfg with
  | VObject m => match assoc "shard" m with
                 | Some _ => cfg
                 | None => VObject (assoc_insert "shard" (VObject [("key", VString key)]) m)
                 end
  | _ => cfg
  end.
Definition schema_columns (schema : Value) (key exclude : list string) : list string :=
  let cols := match get schema "properties" ≫= as_object with Some p => p.*1 | None => [] end in
  sort_by id (List.filter (fun c => negb (mem c key) && negb (is_excluded c exclude)) cols).
Definition range_of_shard (spec : ShardSpec) : KeyRange :=
  match from_spec spec with
  | Some b => if is_whole spec then ALL else range_of_bounds b
  | None => ALL
  end.

(** [Display] for a range. *)
Definition range_str (r : KeyRange) : string :=
  match kr_lo r, kr_hi r with
  | None, None => "all"
  | Some lo, None => "[" +:+ i64_str lo +:+ ", +inf)"
  | None, Some hi => "(-inf, " +:+ i64_str hi +:+ ")"
  | Some lo, Some hi => "[" +:+ i64_str lo +:+ ", " +:+ i64_str hi +:+ ")"
  end.

(** ** The two sides *)

(** What the verifier calls on a [Source]. A source that was narrowed stays so:
    [fetch_all] and [stream_pages] read under the last shard applied to it. *)
Record RangeSource := MkRangeSource {
  rs_apply_shard : ShardSpec -> result unit FaucetError;
  rs_fetch_all : option ShardSpec -> result (list Value) FaucetError;
  rs_stream_pages : option ShardSpec -> Z -> list (result (list Value) FaucetError);
  rs_range_digest : KeyRange -> string -> list string -> result (option ServerDigest) FaucetError;
}.

Section Verify.
Context `{TextCodec} (display : FaucetError -> string).

(** [fetch_range]: the rows, whether they are all of them, and the shard the
    source is left under. *)
Definition read_err (side : string) (e : FaucetError) : CliError :=
  CliFaucet (Errors.Source ("verify: reading the " +:+ side +:+ ": " +:+ display e)).
Fixpoint read_pages (side : string) (limit : Z) (pages : list (result (list Value) FaucetError))
  (rows : list Value) : result (list Value * bool) CliError :=
  match pages with
  | [] => Ok (rows, true)
  | Err e :: _ => Err (read_err side e)
  | Ok page :: pages =>
      let rows := rows ++ page in
      if limit <? zlen rows then Ok (take (Z.to_nat limit) rows, false)
      else read_pages side limit pages rows
  end.
Definition fetch_range (src : RangeSource) (applied : option ShardSpec) (range : KeyRange) (key : list string)
  (side : string) (limit : option Z) : result (list Value * bool * option ShardSpec) CliError :=
  let? applied :=
    match key with
    | [k] => if is_none (kr_lo range) && is_none (kr_hi range) then Ok applied
             else match rs_apply_shard src (to_shard range k) with
                  | Ok _ => Ok (Some (to_shard range k))
                  | Err e => Err (CliConfig ("verify: narrowing the " +:+ side +:+ " to " +:+ range_str range
                                             +:+ ": " +:+ display e))
                  end
    | _ => Ok applied
    end in
  match limit with
  | None => match rs_fetch_all src applied with
            | Ok rows => Ok (rows, true, applied)
            | Err e => Err (read_err side e)
            end
  | Some limit =>
      let batch := Z.max 1 (Z.min limit 10000) in
      let? (rows, complete) := read_pages side limit (rs_stream_pages src applied batch) [] in
      Ok (rows, complete, applied)
  end.

(** ** The session *)

(** [struct Session], its fixed part and its state; [dest_keys] is written and
    never read. The shard either source was last narrowed to is that source's
    own state. *)
Record VerifyEnv := MkVerifyEnv {
  ve_source : RangeSource;
  ve_dest : RangeSource;
  ve_key : list string;
  ve_columns : option (list string);
  ve_exclude : list string;
  ve_norm : Normalizer;
  ve_max_rows : option Z;
  ve_server_columns : option (list string);
  ve_masking : option (Value -> Value);
}.
Record Session := MkSession {
  report : VerifyReport;
  source_rows : gmap string Value;
  dest_keys : gmap string Value;
  source_applied : option ShardSpec;
  dest_applied : option ShardSpec;
}.
Definition Session_new : Session := MkSession VerifyReport_default ∅ ∅ None None.

Definition set_report (f : VerifyReport -> VerifyReport) (s : Session) : Session :=
  MkSession (f (report s)) (source_rows s) (dest_keys s) (source_applied s) (dest_applied s).
Definition set_source_applied (a : option ShardSpec) (s : Session) : Session :=
  MkSession (report s) (source_rows s) (dest_keys s) a (dest_applied s).
Definition set_dest_applied (a : option ShardSpec) (s : Session) : Session :=
  MkSession (report s) (source_rows s) (dest_keys s) (source_applied s) a.

Definition add_compared (n : Z) (r : VerifyReport) : VerifyReport :=
  MkVerifyReport (wadd64 (ranges_compared r) n) (ranges_differing r) (rows_fetched_source r) (rows_fetched_dest r)
    (server_digests r) (differences r) (truncated r) (differences_found r) (repaired_upserts r) (repaired_deletes r).
Definition add_differing (r : VerifyReport) : VerifyReport :=
  MkVerifyReport (ranges_compared r) (wadd64 (ranges_differing r) 1) (rows_fetched_source r) (rows_fetched_dest r)
    (server_digests r) (differences r) (truncated r) (differences_found r) (repaired_upserts r) (repaired_deletes r).
Definition add_fetched (source dest : Z) (r : VerifyReport) : VerifyReport :=
  MkVerifyReport (ranges_compared r) (ranges_differing r) (wadd64 (rows_fetched_source r) source)
    (wadd64 (rows_fetched_dest r) dest)
    (server_digests r) (differences r) (truncated r) (differences_found r) (repaired_upserts r) (repaired_deletes r).
Definition set_server (b : bool) (r : VerifyReport) : VerifyReport :=
  MkVerifyReport (ranges_compared r) (ranges_differing r) (rows_fetched_source r) (rows_fetched_dest r)
    b (differences r) (truncated r) (differences_found r) (repaired_upserts r) (repaired_deletes r).
Definition set_truncated (r : VerifyReport) : VerifyReport :=
  MkVerifyReport (ranges_compared r) (ranges_differing r) (rows_fetched_source r) (rows_fetched_dest r)
    (server_digests r) (differences r) true (differences_found r) (repaired_upserts r) (repaired_deletes r).
Definition add_differences (ds : list Difference) (r : VerifyReport) : VerifyReport :=
  MkVerifyReport (ranges_compared r) (ranges_differing r) (rows_fetched_source r) (rows_fetched_dest r)
    (server_digests r) (differences r ++ ds) (truncated r) (differences_found r) (repaired_upserts r) (repaired_deletes r).

Section Session.
Context (e : VerifyEnv).

(** [over_budget], [budget_left]. *)
Definition fetched (s : Session) : Z := wadd64 (rows_fetched_source (report s)) (rows_fetched_dest (report s)).
Definition over_budget (s : Session) : bool :=
  match ve_max_rows e with Some cap => cap <=? fetched s | None => false end.
Definition budget_left (s : Session) : option Z :=
  (fun cap => Z.max 0 (cap - fetched s)) <$> ve_max_rows e.

(** [fetch_source], [fetch_dest]. *)
Definition fetch_source (s : Session) (range : KeyRange) : result (option (list Value) * Session) CliError :=
  let? (rows, complete, applied) :=
    fetch_range (ve_source e) (source_applied s) range (ve_key e) "source" (budget_left s) in
  let s := set_report (add_fetched (zlen rows) 0) (set_source_applied applied s) in
  if negb complete then Ok (None, set_report set_truncated s)
  else Ok (Some (match ve_masking e with Some m => m <$> rows | None => rows end), s).
Definition fetch_dest (s : Session) (range : KeyRange) : result (option (list Value) * Session) CliError :=
  let? (rows, complete, applied) :=
    fetch_range (ve_dest e) (dest_applied s) range (ve_key e) "destination" (budget_left s) in
  let s := set_report (add_fetched 0 (zlen rows)) (set_dest_applied applied s) in
  if negb complete then Ok (None, set_report set_truncated s)
  else Ok (Some rows, s).

(** [diff_leaf], [verify_full]. *)
Definition key_of (r : Value) : string := key_text r (ve_key e) (ve_norm e).
Definition keep_rows (differing : list string) (f : Value -> Value) (rows : list Value) (m : gmap string Value)
  : gmap string Value :=
  foldl (fun m r => if mem (key_of r) differing then <[key_of r := f r]> m else m) m rows.
Definition diff_of (src dst : list Value) : list Difference :=
  diff_rows (ve_key e) (ve_columns e) (ve_exclude e) (ve_norm e) src dst.
Definition record_diffs (s : Session) (src dst : list Value) : Session :=
  match diff_of src dst with
  | [] => s
  | diffs =>
      let differing := (fun d => key_of (diff_key d)) <$> diffs in
      let s := set_report add_differing s in
      MkSession (add_differences diffs (report s))
        (keep_rows differing id src (source_rows s))
        (keep_rows differing (fun r => key_object r (ve_key e)) dst (dest_keys s))
        (source_applied s) (dest_applied s)
  end.
Definition diff_leaf (s : Session) (range : KeyRange) : result Session CliError :=
  let? (src, s) := fetch_source s range in
  match src with
  | None => Ok s
  | Some src =>
      let? (dst, s) := fetch_dest s range in
      match dst with
      | None => Ok s
      | Some dst => Ok (record_diffs s src dst)
      end
  end.
Definition verify_full (s : Session) : result Session CliError :=
  diff_leaf (set_report (fun r =>
    MkVerifyReport 1 (ranges_differing r) (rows_fetched_source r) (rows_fetched_dest r) (server_digests r)
      (differences r) (truncated r) (differences_found r) (repaired_upserts r) (repaired_deletes r)) s) ALL.

(** [client_digest]. *)
Definition digest_rows (rows : list Value) : ContentDigest :=
  foldl (fun d r => digest_add d (row_hash r (ve_key e) (ve_columns e) (ve_exclude e) (ve_norm e))
                      (key_int r (ve_key e)))
    ContentDigest_default rows.
Definition client_digest (s : Session) (range : KeyRange) (is_source : bool)
  : result (option ContentDigest * Session) CliError :=
  let? (rows, s) := (if is_source then fetch_source s range else fetch_dest s range) in
  Ok (digest_rows <$> rows, s).

(** The body of the loop of [verify_ranges]: the digests of a range, and whether
    they agree, the larger row count and the observed bounds. [None] ends the
    loop (a side was cut short). *)
Definition vanished : CliError := CliFaucet (Errors.Source "range digest vanished").
Definition server_digest_of (src : RangeSource) (range : KeyRange) (key : string) (columns : list string)
  : result ServerDigest CliError :=
  let? d := lift (rs_range_digest src range key columns) in
  match d with Some d => Ok d | None => Err vanished end.
Definition compare_range (server : bool) (key : string) (columns : list string) (s : Session) (range : KeyRange)
  : result (option (bool * Z * option (Z * Z)) * Session) CliError :=
  if server then
    let? a := server_digest_of (ve_source e) range key columns in
    let? b := server_digest_of (ve_dest e) range key columns in
    Ok (Some (sd_same a b, Z.max (sd_rows a) (sd_rows b), sd_bounds_union a b), s)
  else
    let? (a, s) := client_digest s range true in
    let? (b, s) := client_digest s range false in
    match a, b with
    | Some a, Some b => Ok (Some (digest_same a b, Z.max (cd_rows a) (cd_rows b), bounds_union a b), s)
    | _, _ => Ok (None, s)
    end.

(** The loop of [verify_ranges]; the queue is a stack, its last element first.
    [Ok None] is out of fuel. *)
Fixpoint verify_loop (server : bool) (key : string) (columns : list string) (leaf_rows : Z) (fuel : nat)
  (queue : list KeyRange) (s : Session) : result (option Session) CliError :=
  match queue with
  | [] => Ok (Some s)
  | range :: queue =>
      match fuel with
      | O => Ok None
      | S fuel =>
          if over_budget s then Ok (Some (set_report set_truncated s))
          else
            let? (c, s) := compare_range server key columns (set_report (add_compared 1) s) range in
            match c with
            | None => Ok (Some s)
            | Some (same, rows, bounds) =>
                if same then verify_loop server key columns leaf_rows fuel queue s
                else match (if leaf_rows <? rows then bisect range bounds else None) with
                     | Some (lo, hi) => verify_loop server key columns leaf_rows fuel (lo :: hi :: queue) s
                     | None => let? s := diff_leaf s range in
                               verify_loop server key columns leaf_rows fuel queue s
                     end
            end
      end
  end.

(** [verify_ranges] up to the loop: the queue, and whether both backends digest
    with one algorithm ([None]: the whole datasets already agree). *)
Definition initial_queue (shards : list ShardSpec) : list KeyRange :=
  match range_of_shard <$> shards with [] => [ALL] | queue => rev queue end.
Definition whole_digests (key : string) (columns : list string) : result (option (ServerDigest * ServerDigest)) CliError :=
  match ve_server_columns e with
  | None => Ok None
  | Some _ =>
      let? a := lift (rs_range_digest (ve_source e) ALL key columns) in
      let? b := lift (rs_range_digest (ve_dest e) ALL key columns) in
      Ok match a, b with
         | Some a, Some b => if sd_comparable a b then Some (a, b) else None
         | _, _ => None
         end
  end.
Definition verify_ranges (leaf_rows : Z) (shards : list ShardSpec) (fuel : nat) (s : Session)
  : result (option Session) CliError :=
  match ve_key e with
  | [] => Ok (Some s)
  | key :: _ =>
      let columns := default [] (ve_server_columns e) in
      let? d := whole_digests key columns in
      match d with
      | None => verify_loop false key columns leaf_rows fuel (initial_queue shards) (set_report (set_server false) s)
      | Some (a, b) =>
          let s := set_report (add_compared 1) s in
          if sd_same a b then Ok (Some (set_report (set_server true) s))
          else verify_loop true key columns leaf_rows fuel (initial_queue shards)
                 (set_report (set_server true) (set_report add_differing s))
      end
  end.

(** ** Repair *)

(** The rows [repair_node] writes and the keys it deletes. *)
Definition no_source_row (k : string) : CliError :=
  CliConfig ("verify --repair: no source row was kept for differing key " +:+ k +:+ "; nothing was written").
Fixpoint repair_plan (allow_delete : bool) (rows : gmap string Value) (ds : list Difference)
  : result (list Value * list Value) CliError :=
  match ds with
  | [] => Ok ([], [])
  | d :: ds =>
      if needs_upsert d then
        match rows !! key_of (diff_key d) with
        | None => Err (no_source_row (key_of (diff_key d)))
        | Some row => let? (ups, dels) := repair_plan allow_delete rows ds in Ok (row :: ups, dels)
        end
      else
        let? (ups, dels) := repair_plan allow_delete rows ds in
        Ok (ups, if needs_delete d && allow_delete then diff_key d :: dels else dels)
  end.

(** [repair_node]; [run_repair] runs one keyed pass through the row's sink and
    answers the rows written. *)
Definition repair_node (sink_kind : string) (supports_upsert : bool)
  (run_repair : string -> list Value -> result Z CliError) (allow_delete : bool)
  (differences : list Difference) (rows : gmap string Value) : result (Z * Z) CliError :=
  if negb supports_upsert then
    Err (CliConfig ("verify --repair: sink '" +:+ sink_kind +:+ "' does not support keyed writes (write_mode: upsert), so differing keys cannot be re-synced through it"))
  else
    let? (ups, dels) := repair_plan allow_delete rows differences in
    let? written := (if is_nil ups then Ok 0 else run_repair "upsert" ups) in
    let? deleted := (if is_nil dels then Ok 0 else run_repair "delete" dels) in
    Ok (written, deleted).

(** The last part of [verify_node_guarded]: the repair covers every difference
    found, and [max_differences] caps what is reported. *)
Definition finish_report (sink_kind : string) (supports_upsert : bool)
  (run_repair : string -> list Value -> result Z CliError) (repair allow_delete : bool) (max_differences : Z)
  (s : Session) : result VerifyReport CliError :=
  let r := report s in
  let total := zlen (differences r) in
  let? r :=
    (if repair && negb (is_nil (differences r)) then
       let? (ups, dels) := repair_node sink_kind supports_upsert run_repair allow_delete (differences r) (source_rows s) in
       Ok (MkVerifyReport (ranges_compared r) (ranges_differing r) (rows_fetched_source r) (rows_fetched_dest r)
             (server_digests r) (differences r) (truncated r) (differences_found r) (Some ups) (Some dels))
     else Ok r) in
  Ok (if max_differences <? total then
        MkVerifyReport (ranges_compared r) (ranges_differing r) (rows_fetched_source r) (rows_fetched_dest r)
          (server_digests r) (take (Z.to_nat max_differences) (differences r)) (truncated r) (Some total)
          (repaired_upserts r) (repaired_deletes r)
      else r).

(** ** Facts *)

Lemma keep_rows_lookup differing f rows m k :
  keep_rows differing f rows m !! k =
  match last (rows_at (ve_key e) (ve_norm e) k rows) with
  | Some r => if mem k differing then Some (f r) else m !! k
  | None => m !! k
  end.
Proof.
  unfold keep_rows. revert m. induction rows as [|r rows IH] using rev_ind; intros m; [done|].
  rewrite foldl_snoc, rows_at_snoc. case_decide as Hk; [change (key_of r = k) in Hk|change (key_of r <> k) in Hk].
  - subst k. rewrite last_snoc. destruct (mem (key_of r) differing) eqn:Hm; [by rewrite lookup_insert_eq|].
    rewrite IH. by destruct (last _).
  - rewrite app_nil_r, <- IH. destruct (mem (key_of r) differing); [by rewrite lookup_insert_ne|done].
Qed.

Lemma filter_split {A} (P Q R : A -> bool) (l : list A) :
  (forall x, x ∈ l -> P x = Q x || R x) -> (forall x, x ∈ l -> Q x && R x = false) ->
  filter (fun x => P x = true) l ≡ₚ filter (fun x => Q x = true) l ++ filter (fun x => R x = true) l.
Proof.
  induction l as [|x l IH]; intros Hor Hand; [done|]. rewrite !filter_cons.
  specialize (IH ltac:(intros; apply Hor; by right) ltac:(intros; apply Hand; by right)).
  specialize (Hor x ltac:(left)). specialize (Hand x ltac:(left)).
  destruct (P x), (Q x), (R x); try done; cbn; rewrite ?decide_True, ?decide_False, IH by done; try done.
  by rewrite Permutation_middle.
Qed.

(** *** Weight: the ranges a queue can still give rise to *)
Definition range_weight (r : KeyRange) : nat := Z.to_nat (Z.max 1 (2 * span r - 1)).
Definition queue_weight (q : list KeyRange) : nat := sum_list_with range_weight q.

Lemma bisect_weight r obs l h :
  is_range r -> from_option (fun b => is_i64 b.1 /\ is_i64 b.2) True obs -> bisect r obs = Some (l, h) ->
  is_range l /\ is_range h /\ l <> ALL /\ h <> ALL /\ (range_weight l + range_weight h < range_weight r)%nat.
Proof.
  intros Hr Hobs Hb. destruct (bisect_spec _ _ _ _ Hr Hobs Hb) as (mid & -> & -> & Hmid & Hm).
  destruct Hr as [Hlo Hhi]. split_and!; try done; try (by destruct (kr_lo r)).
  unfold range_weight, span, lo_end, hi_end in *. cbn [kr_lo kr_hi default from_option id] in *. lia.
Qed.

(** *** The rows of a range *)

(** Where a range puts a key: NULL keys go with the range unbounded above. *)
Definition range_reads (r : KeyRange) (p : option Z) : bool :=
  match p with Some z => range_contains r z | None => is_none (kr_hi r) end.
Definition is_pos (p : option Z) : Prop := from_option is_i64 True p.

Lemma to_shard_reads ts r k p : is_range r -> shard_reads ts (to_shard r k) p = range_reads r p.
Proof.
  intros [Hlo Hhi]. unfold to_shard.
  assert (forall id a b c d f, is_i64 a -> is_i64 b ->
    shard_reads ts (shard_new id (pk_descriptor k a b c d f)) p = selects (MkPkShardBounds k a b c d f) p) as ->.
  { intros. by apply (shard_reads_bounds ts _ _ _ _ _ _ _ 0). }
  all: unfold is_i64, I64_MIN, I64_MAX in *; try (destruct (kr_lo r), (kr_hi r); cbn in *; lia).
  unfold selects, conditions, range_reads, range_contains.
  destruct (kr_lo r), (kr_hi r), p; cbn; rewrite ?andb_true_r, ?orb_false_r; done.
Qed.

Lemma bisect_reads r mid p :
  lo_end r < mid < hi_end r -> is_pos p ->
  range_reads r p = xorb (range_reads (MkKeyRange (kr_lo r) (Some mid)) p)
                         (range_reads (MkKeyRange (Some mid) (kr_hi r)) p).
Proof. destruct p; [|done]. cbn. apply bisect_tiles. Qed.

(** *** Sides that read their ranges faithfully *)
Section Honest.
Context (k : string) (ts : Value -> string) (pos : string -> option Z).

(** The rows of a side as the verifier compares them. *)
Definition masked (r : Value) : Value := match ve_masking e with Some m => m r | None => r end.
Definition rows_in (r : KeyRange) (l : list Value) : list Value :=
  filter (fun row => range_reads r (pos (key_of row)) = true) l.

(** A side that reads a narrowed range as the range predicate asks. [pos] is the
    integer key (none for NULL) of the rows of a key text. *)
Record honest_side (src : RangeSource) (shape : Value -> Value) (raw : list Value) : Prop := {
  honest_apply r : is_range r -> r <> ALL -> rs_apply_shard src (to_shard r k) = Ok tt;
  honest_whole : rs_fetch_all src None = Ok raw;
  honest_range r : is_range r -> r <> ALL ->
    rs_fetch_all src (Some (to_shard r k)) =
    Ok (filter (fun row => shard_reads ts (to_shard r k) (pos (key_of (shape row))) = true) raw);
}.

(** A side not yet narrowed reads [ALL] in full. *)
Definition ready (s : Session) (r : KeyRange) : Prop :=
  r = ALL -> source_applied s = None /\ dest_applied s = None.
Definition same_findings (s s' : Session) : Prop :=
  differences (report s') = differences (report s) /\ source_rows s' = source_rows s /\
  truncated (report s') = truncated (report s).

Lemma rows_in_shape r (shape : Value -> Value) (raw : list Value) :
  rows_in r (shape <$> raw) = shape <$> filter (fun row => range_reads r (pos (key_of (shape row))) = true) raw.
Proof.
  unfold rows_in. induction raw as [|x raw IH]; [done|]. rewrite fmap_cons, !filter_cons.
  case_decide; cbn; by rewrite IH.
Qed.

Lemma rows_in_ALL l : rows_in ALL l = l.
Proof. apply filter_all. intros x _. unfold range_reads. by destruct (pos (key_of x)). Qed.

Lemma fetch_range_ok src shape (raw : list Value) applied r side :
  honest_side src shape raw -> ve_key e = [k] -> is_range r -> (r = ALL -> applied = None) ->
  exists rows applied', fetch_range src applied r (ve_key e) side None = Ok (rows, true, applied') /\
    shape <$> rows = rows_in r (shape <$> raw) /\ (r = ALL -> applied' = None).
Proof.
  intros [Ha Hw Hr] Hkey Hrange Happ. unfold fetch_range. rewrite Hkey. destruct (decide (r = ALL)) as [->|Hne].
  - rewrite (Happ eq_refl). cbn. rewrite Hw. eexists _, _. split_and!; [done| |done]. by rewrite rows_in_ALL.
  - assert (is_none (kr_lo r) && is_none (kr_hi r) = false) as ->.
    { destruct r as [[] []]; try done. }
    rewrite Ha by done. cbn [result_bind]. rewrite Hr by done. eexists _, _. split_and!; [done| |done].
    rewrite rows_in_shape. f_equal. apply filter_ext_in. intros x _. by rewrite to_shard_reads.
Qed.

Lemma fetch_source_ok (raw : list Value) s r :
  honest_side (ve_source e) masked raw -> ve_key e = [k] -> ve_max_rows e = None -> is_range r -> ready s r ->
  exists s', fetch_source s r = Ok (Some (rows_in r (masked <$> raw)), s') /\ same_findings s s' /\ ready s' r.
Proof.
  intros Hh Hkey Hcap Hr Hready. unfold fetch_source, budget_left. rewrite Hcap.
  destruct (fetch_range_ok _ _ _ (source_applied s) r "source" Hh Hkey Hr) as (rows & a & Hf & Hrows & Ha);
    [intros E; by apply Hready in E as [? ?]|].
  cbn [fmap option_fmap option_map]. rewrite Hf. cbn. rewrite <- Hrows. unfold masked. eexists. split.
  - destruct (ve_masking e); [done|]. by rewrite list_fmap_id.
  - split; [done|]. intros E. specialize (Hready E). split; [by apply Ha|apply Hready].
Qed.

Lemma fetch_dest_ok raw s r :
  honest_side (ve_dest e) id raw -> ve_key e = [k] -> ve_max_rows e = None -> is_range r -> ready s r ->
  exists s', fetch_dest s r = Ok (Some (rows_in r raw), s') /\ same_findings s s' /\ ready s' r.
Proof.
  intros Hh Hkey Hcap Hr Hready. unfold fetch_dest, budget_left. rewrite Hcap.
  destruct (fetch_range_ok _ _ _ (dest_applied s) r "destination" Hh Hkey Hr) as (rows & a & Hf & Hrows & Ha);
    [intros E; by apply Hready in E as [? ?]|].
  cbn [fmap option_fmap option_map]. rewrite Hf. cbn. rewrite !list_fmap_id in Hrows. subst rows. eexists. split; [done|].
  split; [done|]. intros E. specialize (Hready E). split; [apply Hready|by apply Ha].
Qed.

Definition typed_bounds (a b : option Z) : Prop := is_pos a /\ is_pos b.

Lemma digest_rows_typed l :
  Forall (fun r => is_pos (key_int r (ve_key e))) l ->
  typed_bounds (cd_key_min (digest_rows l)) (cd_key_max (digest_rows l)).
Proof.
  unfold digest_rows. induction l as [|r l IH] using rev_ind; [done|]. intros [Hl Hr]%Forall_app.
  rewrite foldl_snoc. inversion_clear Hr as [|? ? Hk _]. destruct (IH Hl) as [Hmin Hmax]. split; cbn; unfold is_pos, is_i64 in *.
  - destruct (key_int r _); [|done]. cbn in *. destruct (cd_key_min _); cbn in *; lia.
  - destruct (key_int r _); [|done]. cbn in *. destruct (cd_key_max _); cbn in *; lia.
Qed.

Lemma union_typed a b c d :
  typed_bounds a b -> typed_bounds c d ->
  from_option (fun b => is_i64 b.1 /\ is_i64 b.2) True
    (match union_with_z Z.min a c, union_with_z Z.max b d with Some m, Some n => Some (m, n) | _, _ => None end).
Proof. intros [] []. unfold is_pos, is_i64 in *. destruct a, b, c, d; cbn in *; try done; lia. Qed.

Section Complete.
Context (raw D : list Value).
Notation S := (masked <$> raw) (only parsing).
Context (one_key : ve_key e = [k]) (no_cap : ve_max_rows e = None).
Context (honest_source : honest_side (ve_source e) masked raw) (honest_dest : honest_side (ve_dest e) id D).
Context (typed_rows : Forall (fun r => is_pos (pos (key_of r)) /\ is_pos (key_int r (ve_key e))) (S ++ D)).

(** The differences of the keys of a range. *)
Definition range_diffs (r : KeyRange) : list Difference := diff_of (rows_in r S) (rows_in r D).

(** Digests that tell the two sides of a range apart when they differ. *)
Definition client_faithful : Prop := forall r, is_range r ->
  digest_same (digest_rows (rows_in r S)) (digest_rows (rows_in r D)) = true -> range_diffs r = [].
Definition server_faithful (columns : list string) : Prop := forall r, is_range r -> exists a b,
  rs_range_digest (ve_source e) r k columns = Ok (Some a) /\
  rs_range_digest (ve_dest e) r k columns = Ok (Some b) /\
  typed_bounds (sd_key_min a) (sd_key_max a) /\ typed_bounds (sd_key_min b) (sd_key_max b) /\
  (sd_same a b = true -> range_diffs r = []).

Lemma rows_in_typed r l : l = S \/ l = D -> Forall (fun r => is_pos (key_int r (ve_key e))) (rows_in r l).
Proof.
  intros Hl. apply Forall_forall. intros x [_ Hx]%list_elem_of_filter. rewrite Forall_forall in typed_rows.
  apply typed_rows, elem_of_app. destruct Hl as [-> | ->]; tauto.
Qed.

Lemma same_findings_trans s s' s'' : same_findings s s' -> same_findings s' s'' -> same_findings s s''.
Proof. unfold same_findings. intuition congruence. Qed.

Lemma compare_range_ok (server : bool) columns s r :
  (if server then server_faithful columns else client_faithful) -> is_range r -> ready s r ->
  exists same rows bounds s', compare_range server k columns s r = Ok (Some (same, rows, bounds), s') /\
    same_findings s s' /\ ready s' r /\ (same = true -> range_diffs r = []) /\
    from_option (fun b => is_i64 b.1 /\ is_i64 b.2) True bounds.
Proof.
  intros Hf Hr Hready. unfold compare_range. destruct server.
  - destruct (Hf r Hr) as (a & b & Ha & Hb & Ta & Tb & Hsame). unfold server_digest_of. rewrite Ha, Hb. cbn.
    eexists _, _, _, _. split_and!; [done|done|done|done|by apply union_typed].
  - destruct (fetch_source_ok raw s r) as (s1 & Hs & Hfs & Hr1); try done.
    destruct (fetch_dest_ok D s1 r) as (s2 & Hd & Hfd & Hr2); try done.
    unfold client_digest. rewrite Hs. cbn [result_bind]. rewrite Hd. cbn.
    eexists _, _, _, _. split_and!; [done|..].
    + by apply same_findings_trans with s1.
    + done.
    + by apply Hf.
    + apply union_typed; apply digest_rows_typed, rows_in_typed; tauto.
Qed.

(** *** The state of the loop *)

Definition reads_any (q : list KeyRange) (p : option Z) : bool := existsb (fun r => range_reads r p) q.
Definition diff_pos (d : Difference) : option Z := pos (key_of (diff_key d)).

(** The ranges of the queue do not overlap. *)
Fixpoint disjoint_queue (q : list KeyRange) : Prop :=
  match q with
  | [] => True
  | r :: q => (forall p, is_pos p -> range_reads r p && reads_any q p = false) /\ disjoint_queue q
  end.

(** A difference that a repair rewrites has its source row at hand. *)
Definition row_kept (rows : gmap string Value) (d : Difference) : Prop :=
  needs_upsert d = true -> exists row, rows !! key_of (diff_key d) = Some row /\
    rows_at (ve_key e) (ve_norm e) (key_of (diff_key d)) S = [row].

(** What is settled when the queue [q] is still to be compared. *)
Record settled (q : list KeyRange) (s : Session) : Prop := {
  settled_diffs : differences (report s) ≡ₚ
    filter (fun d : Difference => negb (reads_any q (diff_pos d)) = true) (diff_of S D);
  settled_rows : Forall (row_kept (source_rows s)) (differences (report s));
  settled_complete : truncated (report s) = false;
}.

Lemma range_diffs_filter r :
  range_diffs r ≡ₚ filter (fun d => range_reads r (diff_pos d) = true) (diff_of S D).
Proof.
  pose proof (diff_rows_filter (ve_key e) (ve_columns e) (ve_exclude e) (ve_norm e)
    (fun t => range_reads r (pos t)) S D) as Hf.
  unfold kt in Hf. unfold range_diffs, diff_of, rows_in, diff_pos, key_of. exact Hf.
Qed.

Lemma rows_at_in r t l :
  rows_at (ve_key e) (ve_norm e) t (rows_in r l) =
  if range_reads r (pos t) then rows_at (ve_key e) (ve_norm e) t l else [].
Proof. exact (rows_at_filter (ve_key e) (ve_norm e) (fun t => range_reads r (pos t)) t l). Qed.

Lemma classify_row_in src dst d t :
  classify_key (ve_key e) (ve_columns e) (ve_exclude e) (ve_norm e)
    (rows_at (ve_key e) (ve_norm e) t src) (rows_at (ve_key e) (ve_norm e) t dst) = Some d ->
  exists row, row ∈ src ++ dst /\ key_of row = t.
Proof.
  intros Hc. assert (exists row, row ∈ rows_at (ve_key e) (ve_norm e) t src ++ rows_at (ve_key e) (ve_norm e) t dst) as [row Hrow].
  { destruct (rows_at _ _ t src) as [|x ?], (rows_at _ _ t dst) as [|y ?]; try done;
      [exists y|exists x|exists x]; apply elem_of_app; (by left; left) || (by right; left). }
  exists row. rewrite elem_of_app in *. destruct Hrow as [[Hk Hin]%list_elem_of_filter|[Hk Hin]%list_elem_of_filter]; tauto.
Qed.

Lemma diff_pos_typed d : d ∈ diff_of S D -> is_pos (diff_pos d).
Proof.
  intros Hd%elem_of_diff_rows. apply classify_row_in in Hd as (row & Hrow & Hk).
  rewrite Forall_forall in typed_rows. unfold diff_pos. change (kt _ _) with key_of in Hk. rewrite <- Hk. by apply typed_rows.
Qed.

Lemma upsert_row src dst d :
  classify_key (ve_key e) (ve_columns e) (ve_exclude e) (ve_norm e) src dst = Some d ->
  needs_upsert d = true -> exists row, src = [row].
Proof.
  destruct src as [|x [|x' src]], dst as [|y [|y' dst]]; cbn; try done; intros Hc Hu; simplify_eq; try done; by eexists.
Qed.

(** Comparing a range settles its keys. *)
Lemma settle_range r q s s' :
  disjoint_queue (r :: q) -> settled (r :: q) s ->
  differences (report s') = differences (report s) ++ range_diffs r ->
  source_rows s' = (if is_nil (range_diffs r) then source_rows s
                    else keep_rows ((fun d => key_of (diff_key d)) <$> range_diffs r) id (rows_in r S) (source_rows s)) ->
  truncated (report s') = truncated (report s) ->
  settled q s'.
Proof.
  intros [Hdis _] [Hd Hrows Ht] Hd' Hrows' Ht'. split; [| |by rewrite Ht'].
  - rewrite Hd', Hd, range_diffs_filter. symmetry. apply filter_split.
    + intros d Hin. cbn [reads_any existsb]. fold (reads_any q (diff_pos d)).
      pose proof (Hdis (diff_pos d) (diff_pos_typed d Hin)) as E.
      by destruct (range_reads r (diff_pos d)), (reads_any q (diff_pos d)).
    + intros d _. cbn [reads_any existsb]. fold (reads_any q (diff_pos d)). by destruct (range_reads r (diff_pos d)), (reads_any q (diff_pos d)).
  - rewrite Hd', Hrows'. apply Forall_app. split.
    + rewrite Hd in Hrows |- *. destruct (is_nil (range_diffs r)); [done|].
      rewrite Forall_forall in *. intros d Hin Hu. destruct (Hrows d Hin Hu) as (row & Hl & Hr).
      exists row. split; [|done]. rewrite keep_rows_lookup.
      apply list_elem_of_filter in Hin as [Hnr _]. cbn in Hnr. apply negb_true_iff, orb_false_iff in Hnr as [Hnr _].
      unfold diff_pos in Hnr. by rewrite rows_at_in, Hnr.
    + apply Forall_forall. intros d Hin Hu.
      destruct (is_nil (range_diffs r)) eqn:En; [apply is_nil_true in En; rewrite En in Hin; by apply not_elem_of_nil in Hin|].
      pose proof Hin as Hin'. unfold range_diffs, diff_of in Hin'. apply elem_of_diff_rows in Hin'.
      destruct (upsert_row _ _ _ Hin' Hu) as [row Hr]. change (kt _ _) with key_of in Hr.
      exists row. split.
      * rewrite keep_rows_lookup. rewrite Hr. cbn. unfold mem. rewrite bool_decide_true; [done|].
        apply list_elem_of_fmap. by exists d.
      * rewrite rows_at_in in Hr. by destruct (range_reads r (pos (key_of (diff_key d)))).
Qed.

Lemma settled_same q s s' : same_findings s s' -> settled q s -> settled q s'.
Proof. intros (Hd & Hr & Ht) [Sd Sr St]. split; congruence || (rewrite Hd, ?Hr; done). Qed.

Lemma diff_leaf_settles r q s :
  is_range r -> ready s r -> disjoint_queue (r :: q) -> settled (r :: q) s ->
  exists s', diff_leaf s r = Ok s' /\ settled q s'.
Proof.
  intros Hr Hready Hdis Hset. unfold diff_leaf.
  destruct (fetch_source_ok raw s r) as (s1 & -> & Hf1 & Hr1); try done. cbn [result_bind].
  destruct (fetch_dest_ok D s1 r) as (s2 & -> & Hf2 & Hr2); try done. cbn [result_bind].
  eexists. split; [done|]. apply (settled_same _ _ _ Hf1), (settled_same _ _ _ Hf2) in Hset.
  apply (settle_range r q s2); [done|done| | |]; unfold record_diffs; fold (range_diffs r);
    destruct (range_diffs r) as [|d ds] eqn:E; cbn; rewrite ?app_nil_r; done.
Qed.

Lemma same_range_settles r q s :
  disjoint_queue (r :: q) -> range_diffs r = [] -> settled (r :: q) s -> settled q s.
Proof. intros Hdis E Hset. apply (settle_range r q s); rewrite ?E; cbn; rewrite ?app_nil_r; done. Qed.

Lemma bisect_queue r obs lo hi q s :
  is_range r -> from_option (fun b => is_i64 b.1 /\ is_i64 b.2) True obs -> bisect r obs = Some (lo, hi) ->
  disjoint_queue (r :: q) -> settled (r :: q) s ->
  disjoint_queue (lo :: hi :: q) /\ settled (lo :: hi :: q) s.
Proof.
  intros Hr Hobs Hb [Hdis Hq] [Sd Sr St].
  destruct (bisect_spec _ _ _ _ Hr Hobs Hb) as (mid & -> & -> & Hmid & Hm).
  set (lo := MkKeyRange _ _) in *. set (hi := MkKeyRange (Some mid) _) in *.
  assert (forall p, is_pos p -> range_reads r p = xorb (range_reads lo p) (range_reads hi p)
    /\ range_reads lo p && range_reads hi p = false) as Htile.
  { intros p Hp. split; [by apply bisect_reads|]. destruct p as [z|]; [|done]. cbn.
    unfold range_contains. cbn. destruct (Z.ltb_spec z mid), (Z.leb_spec mid z); try lia; by rewrite ?andb_false_r. }
  split.
  - split; [|split; [|done]]; intros p Hp; specialize (Hdis p Hp); destruct (Htile p Hp) as [E1 E2];
      rewrite E1 in Hdis; cbn [reads_any existsb] in *; fold (reads_any q p) in *;
      by destruct (range_reads lo p), (range_reads hi p), (reads_any q p).
  - split; [|done|done]. rewrite Sd. apply reflexive_eq, filter_ext_in. intros d Hd%diff_pos_typed.
    destruct (Htile _ Hd) as [E1 E2]. cbn [reads_any existsb]. fold (reads_any q (diff_pos d)). rewrite E1.
    by destruct (range_reads lo (diff_pos d)), (range_reads hi (diff_pos d)), (reads_any q (diff_pos d)).
Qed.

(** The whole range is queued alone, before either side is narrowed. *)
Definition ALL_alone (q : list KeyRange) (s : Session) : Prop :=
  (q = [ALL] /\ source_applied s = None /\ dest_applied s = None) \/ ALL ∉ q.

Lemma ALL_alone_tail r q s : ALL_alone (r :: q) s -> ALL ∉ q.
Proof. intros [[[= _ ->] _]|Hn]; set_solver. Qed.

Lemma ALL_alone_ready r q s : ALL_alone (r :: q) s -> ready s r.
Proof. intros [[_ ?]|Hn] E; [done|]. subst r. destruct Hn. left. Qed.

Lemma range_weight_pos r : (1 <= range_weight r)%nat.
Proof. unfold range_weight. lia. Qed.

Lemma verify_loop_settles (server : bool) columns leaf fuel q s :
  (if server then server_faithful columns else client_faithful) ->
  Forall is_range q -> disjoint_queue q -> settled q s -> ALL_alone q s -> (queue_weight q <= fuel)%nat ->
  exists s', verify_loop server k columns leaf fuel q s = Ok (Some s') /\ settled [] s'.
Proof.
  intros Hfaith. revert q s. induction fuel as [|fuel IH]; intros [|r q] s Hrange Hdis Hset Halone Hw; cbn [verify_loop].
  1, 3: by exists s.
  - pose proof (range_weight_pos r). unfold queue_weight in Hw. cbn in Hw. lia.
  - pose proof (range_weight_pos r) as Hpos. change (queue_weight (r :: q)) with (range_weight r + queue_weight q)%nat in Hw.
    unfold over_budget. rewrite no_cap. inversion_clear Hrange as [|? ? Hr Hq].
    set (s0 := set_report (add_compared 1) s). pose proof (ALL_alone_tail _ _ _ Halone) as Htail.
    assert (settled (r :: q) s0) as Hset0 by by apply (settled_same (r :: q) s).
    assert (ready s0 r) as Hready by by apply (ALL_alone_ready r q s0).
    destruct (compare_range_ok server columns s0 r Hfaith Hr Hready)
      as (same & rows & bounds & s1 & -> & Hf1 & Hready1 & Hsame & Hb). cbn [result_bind].
    apply (settled_same _ _ _ Hf1) in Hset0. destruct same.
    + apply IH; try done; [apply Hdis| |by right|lia]. by apply (same_range_settles r); [|apply Hsame|].
    + destruct (if leaf <? rows then bisect r bounds else None) as [[lo hi]|] eqn:Hbis.
      * destruct (leaf <? rows); [|done].
        destruct (bisect_weight _ _ _ _ Hr Hb Hbis) as (Hlo & Hhi & Hnl & Hnh & Hlt).
        destruct (bisect_queue _ _ _ _ _ _ Hr Hb Hbis Hdis Hset0) as [Hdis' Hset'].
        apply IH; try done; [by rewrite !Forall_cons| |].
        -- right. set_solver.
        -- change (queue_weight (lo :: hi :: q)) with (range_weight lo + (range_weight hi + queue_weight q))%nat. lia.
      * destruct (diff_leaf_settles r q s1) as (s2 & -> & Hset2); try done. cbn [result_bind].
        apply IH; try done; [apply Hdis|by right|lia].
Qed.

(** *** The planned ranges *)

Definition readers_of (q : list KeyRange) (p : option Z) : nat := length (filter (fun r => range_reads r p = true) q).

Lemma readers_of_any q p : reads_any q p = false -> readers_of q p = 0%nat.
Proof.
  unfold readers_of. induction q as [|r q IH]; [done|]. cbn. intros [Hr Hq]%orb_false_iff.
  case_decide; [congruence|]. by apply IH.
Qed.

Lemma readers_of_disjoint q : (forall p, is_pos p -> (readers_of q p <= 1)%nat) -> disjoint_queue q.
Proof.
  unfold readers_of. induction q as [|r q IH]; [done|]. intros Hq. split.
  - intros p Hp. specialize (Hq p Hp). rewrite filter_cons in Hq. destruct (range_reads r p); [|done]. cbn in *.
    destruct (reads_any q p) eqn:E; [|done]. apply existsb_exists in E as (r' & Hin & Hr').
    apply list_elem_of_In in Hin. assert (r' ∈ filter (fun r => range_reads r p = true) q) as Hf
      by by apply list_elem_of_filter.
    destruct (filter _ q); [by apply not_elem_of_nil in Hf|]. rewrite decide_True in Hq by done. cbn in Hq. lia.
  - apply IH. intros p Hp. specialize (Hq p Hp). rewrite filter_cons in Hq. case_decide; cbn [length] in *; lia.
Qed.

Lemma range_of_shard_ok key lo hi target s :
  (forall z, lo = Some z \/ hi = Some z -> is_i64 z) -> s ∈ pk_shards_from_bounds key lo hi target ->
  is_range (range_of_shard s) /\ (forall p, range_reads (range_of_shard s) p = shard_reads ts s p) /\
  (range_of_shard s = ALL -> pk_shards_from_bounds key lo hi target = [s]).
Proof.
  intros Hb. unfold pk_shards_from_bounds.
  assert (s ∈ [whole] -> is_range (range_of_shard s) /\ (forall p, range_reads (range_of_shard s) p = shard_reads ts s p) /\
    (range_of_shard s = ALL -> [whole] = [s])) as Hwhole.
  { intros ->%list_elem_of_singleton. split_and!; [done| |done]. by intros []. }
  destruct lo as [min|], hi as [max|]; try done. intros Hin. unfold plan_pk_shards in *.
  set (n := Z.min _ _) in *. pose proof Hin as Hin'. apply pk_loop_shape in Hin as (j & a & b & size & -> & Ha & Hb').
  unfold range_of_shard. rewrite pk_from_spec, pk_not_whole by done. unfold range_of_bounds. cbn [lo_unbounded hi_unbounded pk_lo pk_hi].
  split_and!.
  - split; cbn; [by destruct (j =? 0)|by destruct (j =? n - 1)].
  - intros p. rewrite shard_reads_bounds by done. unfold selects, conditions, range_reads, range_contains.
    destruct (j =? 0), (j =? n - 1), p; cbn; rewrite ?andb_true_r, ?orb_false_r; done.
  - unfold ALL. destruct (Z.eqb_spec j 0) as [Hj|], (Z.eqb_spec j (n - 1)) as [Hn|]; try done. intros _. subst j.
    assert (n = 1) as Hn1 by lia. rewrite Hn1 in Hin' |- *. change (Z.to_nat 1) with 1%nat in *. cbn [pk_loop] in *.
    change (0 =? 1 - 1) with true in *. cbv iota in *. apply list_elem_of_singleton in Hin'. by rewrite Hin'.
Qed.

Lemma planned_queue key lo hi target :
  (forall z, lo = Some z \/ hi = Some z -> is_i64 z) ->
  let q := initial_queue (pk_shards_from_bounds key lo hi target) in
  Forall is_range q /\ (forall p, readers_of q p = 1%nat) /\ (q = [ALL] \/ ALL ∉ q).
Proof.
  intros Hb q. set (shards := pk_shards_from_bounds key lo hi target) in *.
  assert (q = rev (range_of_shard <$> shards)) as Hq.
  { unfold q, initial_queue. pose proof (pk_shards_read_once ts key lo hi target None Hb) as H1.
    fold shards in H1. by destruct shards. }
  assert (forall r, r ∈ q <-> r ∈ range_of_shard <$> shards) as Hin
    by (intros r; rewrite Hq, !list_elem_of_In; symmetry; apply in_rev).
  split_and!.
  - apply Forall_forall. intros r (s & -> & Hs)%Hin%list_elem_of_fmap. by eapply range_of_shard_ok.
  - intros p. rewrite <- (pk_shards_read_once ts key lo hi target p Hb). fold shards. unfold readers_of.
    rewrite Hq, <- (Permutation_rev (range_of_shard <$> shards)).
    assert (forall s, s ∈ shards -> range_reads (range_of_shard s) p = shard_reads ts s p) as Heq
      by (intros s Hs; by eapply range_of_shard_ok).
    clearbody shards. clear Hq Hin q. induction shards as [|s l IH]; [done|]. rewrite fmap_cons, !filter_cons, Heq by left.
    specialize (IH ltac:(intros; apply Heq; by right)). case_decide; cbn [length]; congruence.
  - destruct (decide (ALL ∈ q)) as [(s & Hs & Hin')%Hin%list_elem_of_fmap|]; [left|by right].
    assert (shards = [s]) as E by (by eapply range_of_shard_ok).
    rewrite Hq, E. cbn. by rewrite <- Hs.
Qed.

(** Every difference of the two sides is in the report, once, and a repair has
    the source rows it needs. *)
Record complete (s : Session) : Prop := {
  complete_diffs : differences (report s) ≡ₚ diff_of S D;
  complete_rows : Forall (row_kept (source_rows s)) (differences (report s));
  complete_scan : truncated (report s) = false;
}.

Lemma settled_complete_session s : settled [] s -> complete s.
Proof. intros [Hd Hr Ht]. split; [|done|done]. rewrite Hd. apply reflexive_eq, filter_all. done. Qed.

Lemma settled_start q s :
  (forall p, is_pos p -> readers_of q p = 1%nat) -> differences (report s) = [] -> truncated (report s) = false -> settled q s.
Proof.
  intros Hq Hd Ht. split; [|by rewrite Hd|done]. rewrite Hd.
  destruct (filter _ (diff_of S D)) as [|d l] eqn:E; [done|].
  assert (d ∈ filter (fun d : Difference => negb (reads_any q (diff_pos d)) = true) (diff_of S D)) as Hin by (rewrite E; left).
  apply list_elem_of_filter in Hin as [Hn%negb_true_iff%readers_of_any Hin]. by rewrite Hq in Hn by by apply diff_pos_typed.
Qed.

Lemma whole_digests_faithful columns :
  server_faithful columns -> exists d, whole_digests k columns = Ok d /\
    forall a b, d = Some (a, b) -> sd_same a b = true -> diff_of S D = [].
Proof.
  intros Hf. destruct (Hf ALL) as (a & b & Ha & Hb & _ & _ & Hsame); [done|].
  unfold whole_digests. destruct (ve_server_columns e); [|by eexists]. rewrite Ha, Hb. cbn.
  eexists. split; [done|]. destruct (sd_comparable a b); [|done]. intros ? ? [= <- <-] E.
  apply Hsame in E. unfold range_diffs in E. by rewrite !rows_in_ALL in E.
Qed.

(** The bisecting verification finds every difference and nothing else. On
    two sides that read their ranges as asked, and with digests that agree only
    where the rows do (computed by either backend or by streaming), the search over
    the ranges planned from any observed key bounds ends, and its report holds
    exactly the differences of a row-by-row comparison of the whole datasets. The
    fuel is the number of ranges bisection can visit. *)
Theorem verify_ranges_complete leaf lo hi target :
  (forall z, lo = Some z \/ hi = Some z -> is_i64 z) ->
  client_faithful ->
  (whole_digests k (default [] (ve_server_columns e)) = Ok None \/ server_faithful (default [] (ve_server_columns e))) ->
  let shards := pk_shards_from_bounds k lo hi target in
  exists s, verify_ranges leaf shards (queue_weight (initial_queue shards)) Session_new = Ok (Some s) /\ complete s.
Proof.
  intros Hb Hclient Hserver shards. destruct (planned_queue k lo hi target Hb) as (Hrange & Hread & Hall). fold shards in Hrange, Hread, Hall.
  set (q := initial_queue shards) in *. assert (disjoint_queue q) as Hdis by (apply readers_of_disjoint; intros; by rewrite Hread).
  assert (forall (server : bool) s, (if server then server_faithful (default [] (ve_server_columns e)) else client_faithful) ->
    differences (report s) = [] -> truncated (report s) = false -> source_applied s = None -> dest_applied s = None ->
    exists s', verify_loop server k (default [] (ve_server_columns e)) leaf (queue_weight q) q s = Ok (Some s') /\ complete s') as Hloop.
  { intros server s Hf Hd Ht Hsa Hda. destruct (verify_loop_settles server (default [] (ve_server_columns e)) leaf (queue_weight q) q s)
      as (s' & Hs' & Hset); try done; [by apply settled_start|by destruct Hall; [left|right]|].
    exists s'. split; [done|by apply settled_complete_session]. }
  unfold verify_ranges. rewrite one_key. destruct Hserver as [Hnone|Hf].
  - rewrite Hnone. cbn [result_bind]. by apply Hloop.
  - destruct (whole_digests_faithful _ Hf) as (d & -> & Hsame). cbn [result_bind]. destruct d as [[a b]|]; [|by apply Hloop].
    destruct (sd_same a b) eqn:E; [|by apply Hloop]. eexists. split; [done|].
    split; cbn; [by rewrite (Hsame a b)|done|done].
Qed.

(** The whole-dataset comparison is complete too, for any key. *)
Lemma verify_full_complete :
  exists s, verify_full Session_new = Ok s /\ complete s.
Proof.
  unfold verify_full. set (s0 := set_report _ Session_new).
  destruct (diff_leaf_settles ALL [] s0) as (s & Hs & Hset); try done.
  - split; [intros p _; apply andb_false_r|done].
  - apply settled_start; [|done|done]. intros p Hp. unfold readers_of. by rewrite filter_cons_True by by destruct p.
  - exists s. split; [done|]. by apply settled_complete_session.
Qed.

End Complete.
End Honest.

(** *** Repair *)
Section Repair.
Context (raw D : list Value).
Notation S := (masked <$> raw) (only parsing).

Definition diff_at (t : string) : option Difference :=
  classify_key (ve_key e) (ve_columns e) (ve_exclude e) (ve_norm e)
    (rows_at (ve_key e) (ve_norm e) t S) (rows_at (ve_key e) (ve_norm e) t D).

(** A keyed sink after an upsert pass and a delete pass: the rows of the written
    and deleted keys are gone and the written rows are in. *)
Definition keyed_write (ups dels dest : list Value) : list Value :=
  filter (fun r => key_of r ∉ key_of <$> (ups ++ dels)) dest ++ ups.

Lemma rows_at_unique (l : list Value) r :
  NoDup (key_of <$> l) -> r ∈ l -> rows_at (ve_key e) (ve_norm e) (key_of r) l = [r].
Proof.
  induction l as [|x l IH]; intros Hn Hin; [by apply not_elem_of_nil in Hin|].
  rewrite fmap_cons in Hn. apply NoDup_cons in Hn as [Hx Hn]. unfold rows_at in *. apply elem_of_cons in Hin as [->|Hin].
  - rewrite filter_cons_True by done. f_equal.
    destruct (filter _ l) as [|y l'] eqn:E; [done|]. destruct Hx.
    assert (y ∈ filter (fun r => kt (ve_key e) (ve_norm e) r = key_of x) l) as [Hy Hin]%list_elem_of_filter by (rewrite E; left).
    rewrite <- Hy. by apply list_elem_of_fmap_2.
  - rewrite filter_cons_False; [by apply IH|]. intros Hk. destruct Hx. change (key_of x = key_of r) in Hk.
    rewrite Hk. by apply list_elem_of_fmap_2.
Qed.

Lemma rows_at_absent (l : list Value) t :
  t ∉ key_of <$> l -> rows_at (ve_key e) (ve_norm e) t l = [].
Proof.
  intros Ht. destruct (rows_at _ _ t l) as [|y l'] eqn:E; [done|]. destruct Ht.
  assert (y ∈ rows_at (ve_key e) (ve_norm e) t l) as [Hy Hin]%list_elem_of_filter by (rewrite E; left).
  rewrite <- Hy. by apply (list_elem_of_fmap_2 key_of).
Qed.

Lemma rows_at_keyed_write ups dels dest t :
  rows_at (ve_key e) (ve_norm e) t (keyed_write ups dels dest) =
  (if decide (t ∈ key_of <$> (ups ++ dels)) then [] else rows_at (ve_key e) (ve_norm e) t dest)
  ++ rows_at (ve_key e) (ve_norm e) t ups.
Proof.
  unfold keyed_write. unfold rows_at at 1. rewrite filter_app. f_equal.
  pose proof (rows_at_filter (ve_key e) (ve_norm e) (fun u => bool_decide (u ∉ key_of <$> (ups ++ dels))) t dest) as Hf.
  unfold rows_at at 1 in Hf. destruct (decide (t ∈ _)) as [Hin|Hin].
  - rewrite bool_decide_false in Hf by tauto. rewrite <- Hf. f_equal. apply filter_ext_in. intros x _. by rewrite bool_decide_eq_true.
  - rewrite bool_decide_true in Hf by tauto. rewrite <- Hf. f_equal. apply filter_ext_in. intros x _. by rewrite bool_decide_eq_true.
Qed.

(** The plan writes the source row of every key to rewrite and deletes every key
    the source has not. *)
Lemma repair_plan_ok rows ds :
  Forall (row_kept raw rows) ds -> Forall (fun d => needs_upsert d || needs_delete d = true) ds ->
  exists ups dels, repair_plan true rows ds = Ok (ups, dels) /\
    key_of <$> ups = (fun d => key_of (diff_key d)) <$> filter (fun d => needs_upsert d = true) ds /\
    dels = diff_key <$> filter (fun d => needs_upsert d = false) ds /\
    (forall d, d ∈ ds -> needs_upsert d = true ->
      exists row, row ∈ ups /\ rows_at (ve_key e) (ve_norm e) (key_of (diff_key d)) S = [row]) /\
    zlen ups + zlen dels = zlen ds.
Proof.
  induction ds as [|d ds IH]; intros Hk Hn; [exists [], []; split_and!; try done; by intros d ?%not_elem_of_nil|].
  apply Forall_cons in Hk as [Hkd Hk], Hn as [Hnd Hn]. destruct (IH Hk Hn) as (ups & dels & E & Hu & Hd & Hr & Hz).
  cbn [repair_plan]. rewrite !filter_cons. destruct (needs_upsert d) eqn:Hup.
  - destruct (Hkd Hup) as (row & Hrow & Hat). rewrite Hrow, E. cbn [result_bind]. exists (row :: ups), dels.
    rewrite decide_True, decide_False by done. split_and!; try done.
    + rewrite !fmap_cons, Hu. f_equal.
      assert (row ∈ rows_at (ve_key e) (ve_norm e) (key_of (diff_key d)) S) as [Hkt _]%list_elem_of_filter by (rewrite Hat; left).
      done.
    + intros d' [->|Hin]%elem_of_cons Hup'; [exists row; split; [left|done]|].
      destruct (Hr d' Hin Hup') as (row' & ? & ?). exists row'. split; [by right|done].
    + rewrite !zlen_cons. lia.
  - rewrite E. cbn [result_bind]. cbn in Hnd. rewrite Hnd. cbn [andb]. exists ups, (diff_key d :: dels).
    rewrite decide_False, decide_True by done. split_and!; try done.
    + by rewrite fmap_cons, Hd.
    + intros d' [->|Hin]%elem_of_cons Hup'; [congruence|]. by apply Hr.
    + rewrite !zlen_cons. lia.
Qed.

Lemma diff_of_key d : d ∈ diff_of S D -> diff_at (key_of (diff_key d)) = Some d.
Proof. by intros ?%elem_of_diff_rows. Qed.

Lemma diff_keys_nodup ds : ds ≡ₚ diff_of S D -> NoDup ((fun d => key_of (diff_key d)) <$> ds).
Proof.
  intros Hd. pose proof (diff_pairs_nodup (ve_key e) (ve_columns e) (ve_exclude e) (ve_norm e) S D) as Hnd.
  rewrite <- diff_rows_keys in Hnd. by rewrite Hd.
Qed.

(** Which keys a plan touches, and the row it writes at a key. *)
Lemma written_keys ups (dels : list Value) ds t :
  key_of <$> ups = (fun d => key_of (diff_key d)) <$> filter (fun d => needs_upsert d = true) ds ->
  dels = diff_key <$> filter (fun d => needs_upsert d = false) ds ->
  t ∈ key_of <$> (ups ++ dels) <-> exists d, d ∈ ds /\ key_of (diff_key d) = t.
Proof.
  intros Hu ->. rewrite fmap_app, Hu, <- list_fmap_compose, elem_of_app, !list_elem_of_fmap.
  setoid_rewrite list_elem_of_filter. split; [naive_solver|].
  intros (d & Hd & <-). destruct (needs_upsert d) eqn:E; [left|right]; by exists d.
Qed.

Lemma repaired_key ups dels ds t :
  ds ≡ₚ diff_of S D -> Forall (fun d => needs_upsert d || needs_delete d = true) ds ->
  key_of <$> ups = (fun d => key_of (diff_key d)) <$> filter (fun d => needs_upsert d = true) ds ->
  dels = diff_key <$> filter (fun d => needs_upsert d = false) ds ->
  (forall d, d ∈ ds -> needs_upsert d = true ->
    exists row, row ∈ ups /\ rows_at (ve_key e) (ve_norm e) (key_of (diff_key d)) S = [row]) ->
  NoDup (key_of <$> ups) ->
  classify_key (ve_key e) (ve_columns e) (ve_exclude e) (ve_norm e)
    (rows_at (ve_key e) (ve_norm e) t S) (rows_at (ve_key e) (ve_norm e) t (keyed_write ups dels D)) = None.
Proof.
  intros Hd Hn Hu Hdel Hr Hnu. rewrite rows_at_keyed_write. pose proof (written_keys ups dels ds t Hu Hdel) as Hw.
  destruct (decide (t ∈ _)) as [(d & Hin & Ht)%Hw|Hnot].
  - pose proof Hin as Hat. rewrite Hd in Hat. apply diff_of_key in Hat. rewrite Ht in Hat. rewrite app_nil_l.
    destruct (needs_upsert d) eqn:E.
    + destruct (Hr d Hin E) as (row & Hrow & Hrows). rewrite Ht in Hrows. rewrite Hrows.
      assert (key_of row = t) as <-.
      { assert (row ∈ rows_at (ve_key e) (ve_norm e) t S) as [? _]%list_elem_of_filter by (rewrite Hrows; left). done. }
      rewrite rows_at_unique by done. cbn. by rewrite row_changed_columns_refl.
    + rewrite (rows_at_absent ups).
      * rewrite Forall_forall in Hn. specialize (Hn d Hin). rewrite E in Hn. unfold diff_at in Hat.
        destruct (rows_at _ _ t S) as [|x [|x' l]], (rows_at _ _ t D) as [|y [|y' l']]; cbn in Hat; try done;
          repeat case_match; simplify_eq; done.
      * rewrite Hu. intros (d' & Hd' & [Hup Hin']%list_elem_of_filter)%list_elem_of_fmap.
        rewrite Hd in Hin'. apply diff_of_key in Hin'. rewrite <- Hd' in Hin'. congruence.
  - rewrite (rows_at_absent ups), app_nil_r by (rewrite fmap_app in Hnot; set_solver).
    destruct (diff_at t) as [d|] eqn:E; [|done]. destruct Hnot. apply Hw. exists d.
    pose proof (classify_key_kt _ _ _ _ _ _ _ _ E) as Ht. split; [|done]. rewrite Hd. apply elem_of_diff_rows.
    by rewrite Ht.
Qed.

(** A repair heals. When a complete comparison found no repeated key, the
    repair plan exists (a source row was kept for every key to rewrite), its
    writes and deletes together are as many as the differences, and applying them
    to the destination leaves nothing that differs from the source. *)
Theorem repair_heals s :
  complete raw D s -> Forall (fun d => needs_upsert d || needs_delete d = true) (differences (report s)) ->
  exists ups dels, repair_plan true (source_rows s) (differences (report s)) = Ok (ups, dels) /\
    zlen ups + zlen dels = zlen (differences (report s)) /\
    diff_of S (keyed_write ups dels D) = [].
Proof.
  intros [Hd Hk _] Hn. destruct (repair_plan_ok _ _ Hk Hn) as (ups & dels & Hp & Hu & Hdel & Hr & Hz).
  exists ups, dels. split_and!; [done|done|]. apply diff_rows_nil. intros t. apply repaired_key with (differences (report s)); try done.
  rewrite Hu. eapply sublist_NoDup; [by apply diff_keys_nodup|]. apply fmap_sublist, sublist_filter.
Qed.
End Repair.
End Session.
End Verify.

(** ** A worked instance: one changed row and one extra row *)
Module VerifyDemo.
Definition plain_codec : TextCodec := {|
  exp_str := fun _ => EmptyString; parse_f64 := fun _ => None; parse_from_rfc3339 := fun _ => None;
  parse_naive_datetime := fun _ => None; parse_naive_date := fun _ => None |}.
#[local] Existing Instance plain_codec.
Definition row (id : Z) (v : string) : Value := VObject [("id", of_i64 id); ("v", VString v)].
Definition source : list Value := [row 1 "a"; row 2 "b"].
Definition dest : list Value := [row 1 "a"; row 2 "x"; row 3 "c"].
Definition pos (t : string) : option Z :=
  if string_eqb t "id=n1;" then Some 1 else if string_eqb t "id=n2;" then Some 2
  else if string_eqb t "id=n3;" then Some 3 else None.
Definition no_text : Value -> string := fun _ => EmptyString.
Definition table (rows : list Value) : RangeSource := {|
  rs_apply_shard := fun _ => Ok tt;
  rs_fetch_all := fun s => Ok match s with
    | None => rows
    | Some s => filter (fun r => shard_reads no_text s (pos (key_text r ["id"] Normalizer_default)) = true) rows
    end;
  rs_stream_pages := fun _ _ => [];
  rs_range_digest := fun _ _ _ => Ok None |}.
Definition env : VerifyEnv :=
  MkVerifyEnv (table source) (table dest) ["id"] None ["_faucet_*"] Normalizer_default None None None.
Definition full : Session := match verify_full (fun _ => EmptyString) env Session_new with Ok s => s | Err _ => Session_new end.

Lemma honest rows : honest_side env "id" no_text pos (table rows) id rows.
Proof. by split. Qed.

Definition part (b : bool) (r : Value) : list Value := if b then [r] else [].
Lemma rows_in_pos r row l z : pos (key_of env row) = Some z ->
  rows_in env pos r (row :: l) = part (range_contains r z) row ++ rows_in env pos r l.
Proof.
  intros E. unfold rows_in. rewrite filter_cons. assert (range_reads r (pos (key_of env row)) = range_contains r z) as -> by by rewrite E.
  by destruct (range_contains r z).
Qed.

Lemma faithful : client_faithful env pos source dest.
Proof.
  intros r _. unfold range_diffs. change (masked env <$> source) with source. unfold source, dest.
  rewrite !(rows_in_pos r (row 1 _) _ 1), !(rows_in_pos r (row 2 _) _ 2), (rows_in_pos r (row 3 _) _ 3) by (vm_compute; reflexivity).
  change (rows_in env pos r []) with (@nil Value).
  destruct (range_contains r 1), (range_contains r 2), (range_contains r 3); vm_compute; done.
Qed.
End VerifyDemo.
Import VerifyDemo.

Lemma verify_ranges_complete_witness :
  let shards := pk_shards_from_bounds "id" (Some 1) (Some 3) 2 in
  exists s, verify_ranges (H := plain_codec) (fun _ => EmptyString) env 1 shards (queue_weight (initial_queue shards)) Session_new
            = Ok (Some s) /\ complete (H := plain_codec) env source dest s.
Proof.
  apply (verify_ranges_complete (H := plain_codec) (fun _ => EmptyString) env "id" no_text pos source dest);
    [done|done|apply honest|apply honest| |intros z [[= <-]|[= <-]]; by vm_compute|apply faithful|by left].
  apply Forall_forall. intros r Hr. apply list_elem_of_In in Hr. cbn in Hr.
  by destruct Hr as [<-|[<-|[<-|[<-|[<-|[]]]]]]; vm_compute.
Defined.

Lemma repair_heals_witness :
  length (differences (report full)) = 2%nat /\
  exists ups dels, repair_plan (H := plain_codec) env true (source_rows full) (differences (report full)) = Ok (ups, dels) /\
    zlen ups + zlen dels = zlen (differences (report full)) /\
    diff_of (H := plain_codec) env (masked env <$> source) (keyed_write (H := plain_codec) env ups dels dest) = [].
Proof.
  split; [vm_compute; reflexivity|]. apply (repair_heals (H := plain_codec) env source dest full).
  - split; [by vm_compute| |by vm_compute]. apply Forall_forall. intros d Hd Hu.
    apply list_elem_of_In in Hd. vm_compute in Hd. destruct Hd as [<-|[<-|[]]]; [|done].
    exists (row 2 "b"). by vm_compute.
  - vm_compute. repeat constructor.
Defined.
