(* ===== verification/Budget.v ===== *)
(** Run budgets: crates/core/src/budget.rs, with the byte estimate of usage.rs.

    The wrapped sink is a parameter of each operation: the answer it gives when it
    is called. A call to it is awaited, and other tasks go on meanwhile: what they do
    to the shared state is a parameter too. The duration ceiling is a timer, which
    may fire at any moment, also while a write is awaited. *)
From S2P Require Import Prelude Errors Json Text Quality.

Local Open Scope Z_scope.

(** ** The specification and its merge *)

Record BudgetSpec := MkBudgetSpec {
  max_records : option Z;
  max_bytes : option Z;
  max_duration_secs : option Z;
  allowed_sinks : list string;
}.

(** [is_empty], [validate]. *)
Definition budget_is_empty (b : BudgetSpec) : bool :=
  is_none (max_records b) && is_none (max_bytes b) && is_none (max_duration_secs b) && is_nil (allowed_sinks b).
Definition is_zero (o : option Z) : bool := match o with Some z => z =? 0 | None => false end.
Definition zero_ceiling (name : string) : string :=
  "budget." +:+ name +:+ " must be greater than 0 (omit it for no ceiling)".
Definition budget_validate (b : BudgetSpec) : result unit string :=
  if is_zero (max_records b) then Err (zero_ceiling "max_records")
  else if is_zero (max_bytes b) then Err (zero_ceiling "max_bytes")
  else if is_zero (max_duration_secs b) then Err (zero_ceiling "max_duration_secs")
  else if existsb (fun s => string_eqb (trim s) EmptyString) (allowed_sinks b) then
    Err "budget.allowed_sinks contains an empty entry"
  else Ok tt.

(** [merge_with], [merge]. *)
Definition DENY_ALL_SINKS : string := "!none".
Definition min_opt (a b : option Z) : option Z :=
  match a, b with Some x, Some y => Some (Z.min x y) | x, None => x | None, y => y end.
Definition allows (kind_of : string -> option string) (list : list string) (entry : string) : bool :=
  mem entry list || match kind_of entry with Some k => mem k list | None => false end.
Definition merge_entry (kind_of : string -> option string) (a b both : list string) (entry : string) : list string :=
  if negb (string_eqb entry DENY_ALL_SINKS) && allows kind_of a entry && allows kind_of b entry && negb (mem entry both)
  then both ++ [entry] else both.
Definition merge_sinks (kind_of : string -> option string) (a b : list string) : list string :=
  match is_nil a, is_nil b with
  | true, true => []
  | false, true => a
  | true, false => b
  | false, false =>
      let both := foldl (merge_entry kind_of a b) [] (a ++ b) in
      if is_nil both then [DENY_ALL_SINKS] else both
  end.
Definition merge_with (kind_of : string -> option string) (a b : BudgetSpec) : BudgetSpec :=
  MkBudgetSpec (min_opt (max_records a) (max_records b)) (min_opt (max_bytes a) (max_bytes b))
    (min_opt (max_duration_secs a) (max_duration_secs b))
    (merge_sinks kind_of (allowed_sinks a) (allowed_sinks b)).
Definition merge (a b : BudgetSpec) : BudgetSpec := merge_with (fun _ => None) a b.

(** [sink_allowed]. *)
Definition sink_allowed (b : BudgetSpec) (sink_ref kind : string) : bool :=
  if existsb (fun s => string_eqb s DENY_ALL_SINKS) (allowed_sinks b) then false
  else is_nil (allowed_sinks b) || existsb (fun s => string_eqb s sink_ref || string_eqb s kind) (allowed_sinks b).

(** ** Verdicts and state *)

Inductive BudgetKind := BudgetRecords | BudgetBytes | BudgetDuration.
Definition kind_str (k : BudgetKind) : string :=
  match k with BudgetRecords => "max_records" | BudgetBytes => "max_bytes" | BudgetDuration => "max_duration_secs" end.
Record BudgetVerdict := MkVerdict { bv_kind : BudgetKind; bv_limit : Z; bv_actual : Z }.
Definition verdict_error (v : BudgetVerdict) : FaucetError := BudgetExceeded (kind_str (bv_kind v)) (bv_limit v) (bv_actual v).

(** [struct BudgetState] with the prepaid rows of the [BudgetSink] and the run's
    cancellation token. *)
Record BudgetState := MkBudgetState {
  bs_records : Z;
  bs_bytes : Z;
  bs_verdict : option BudgetVerdict;
  bs_prepaid : Z;
  bs_cancelled : bool;
}.
Definition BudgetState_new : BudgetState := MkBudgetState 0 0 None 0 false.
Definition set_verdict (v : BudgetVerdict) (s : BudgetState) : BudgetState :=
  MkBudgetState (bs_records s) (bs_bytes s) (option_or (bs_verdict s) (Some v)) (bs_prepaid s) (bs_cancelled s).
Definition cancel (s : BudgetState) : BudgetState :=
  MkBudgetState (bs_records s) (bs_bytes s) (bs_verdict s) (bs_prepaid s) true.
Definition set_prepaid (n : Z) (s : BudgetState) : BudgetState :=
  MkBudgetState (bs_records s) (bs_bytes s) (bs_verdict s) n (bs_cancelled s).

(** [usage::estimate_json_bytes], [estimate_page_bytes]. *)
Fixpoint digits_fuel (fuel : nat) (u : Z) : Z :=
  match fuel with
  | O => 1
  | S fuel => if u <? 10 then 1 else 1 + digits_fuel fuel (u / 10)
  end.
Definition digits_u64 (u : Z) : Z := digits_fuel 20 u.
Definition digits_i64 (i : Z) : Z := if i <? 0 then 1 + digits_u64 (- i) else digits_u64 i.
Fixpoint estimate_json_bytes (v : Value) : Z :=
  match v with
  | Null => 4
  | VBool b => if b then 4 else 5
  | VNumber n => match num_i64 n, num_u64 n with
                 | Some i, _ => digits_i64 i
                 | None, Some u => digits_u64 u
                 | None, None => 17
                 end
  | VString s => Z.of_nat (String.length s) + 2
  | VArray items => zsum (map estimate_json_bytes items) + 2 + Z.max 0 (zlen items - 1)
  | VObject m =>
      zsum (map (fun e => Z.of_nat (String.length e.1) + 3 + estimate_json_bytes e.2) m) + 2 + Z.max 0 (zlen m - 1)
  end.
Definition estimate_page_bytes (records : list Value) : Z := zsum (map estimate_json_bytes records).

(** ** The enforcing sink *)
Section Sink.
Context (spec : BudgetSpec).

(** [page_bytes], [refuse], [check_ceilings], [admit], [account]. *)
Definition page_bytes (records : list Value) : Z :=
  match max_bytes spec with Some _ => estimate_page_bytes records | None => 0 end.
Definition refuse (k : BudgetKind) (limit actual : Z) (s : BudgetState) : BudgetState * FaucetError :=
  let v := MkVerdict k limit actual in (cancel (set_verdict v s), verdict_error v).
Definition check_ceilings (n bytes : Z) (s : BudgetState) : BudgetState * option FaucetError :=
  let over_records := match max_records spec with
                      | Some max => let would := wadd64 (bs_records s) n in if max <? would then Some (max, would) else None
                      | None => None
                      end in
  match over_records with
  | Some (max, would) => let '(s, e) := refuse BudgetRecords max would s in (s, Some e)
  | None =>
      match max_bytes spec with
      | Some max => let would := wadd64 (bs_bytes s) bytes in
                    if max <? would then let '(s, e) := refuse BudgetBytes max would s in (s, Some e) else (s, None)
      | None => (s, None)
      end
  end.
Definition admit_rows (records : list Value) (s : BudgetState) : BudgetState * result Z FaucetError :=
  let n := zlen records in
  let bytes := page_bytes records in
  match bs_verdict s with
  | Some v => (s, Err (verdict_error v))
  | None =>
      if (n <=? bs_prepaid s) && (0 <? n) then (set_prepaid (bs_prepaid s - n) s, Ok bytes)
      else match check_ceilings n bytes (set_prepaid 0 s) with
           | (s, Some e) => (s, Err e)
           | (s, None) => (s, Ok bytes)
           end
  end.
Definition account (accepted bytes : Z) (s : BudgetState) : BudgetState :=
  MkBudgetState (wadd64 (bs_records s) accepted) (wadd64 (bs_bytes s) bytes) (bs_verdict s) (bs_prepaid s) (bs_cancelled s).

(** The check of [admit_page] and [write_batch_columnar]. *)
Definition room_for (n bytes : Z) (s : BudgetState) : BudgetState * result unit FaucetError :=
  match bs_verdict s with
  | Some v => (s, Err (verdict_error v))
  | None => match check_ceilings n bytes s with (s, Some e) => (s, Err e) | (s, None) => (s, Ok tt) end
  end.

(** Each operation asks for room, awaits the wrapped sink, [during] which the shared state may
    change, and ends with what [inner] answered. *)
Definition awaited {A B} (ask : BudgetState * result A FaucetError) (during : BudgetState -> BudgetState)
  (ended : A -> BudgetState -> BudgetState * result B FaucetError) : BudgetState * result B FaucetError :=
  match ask with (s, Err e) => (s, Err e) | (s, Ok a) => ended a (during s) end.

(** [admit_page]. *)
Definition end_admit (records : list Value) (inner : result unit FaucetError) (s : BudgetState) : BudgetState * result unit FaucetError :=
  match inner with Err e => (s, Err e) | Ok _ => (set_prepaid (zlen records) s, Ok tt) end.
Definition budget_admit_page (records : list Value) (during : BudgetState -> BudgetState) (inner : result unit FaucetError) (s : BudgetState)
  : BudgetState * result unit FaucetError :=
  awaited (room_for (zlen records) (page_bytes records) s) during (fun _ => end_admit records inner).

(** [write_batch], [write_batch_reported], [write_governed] and the two idempotent
    writes: [inner] answers the rows accepted. *)
Definition end_write (bytes : Z) (inner : result Z FaucetError) (s : BudgetState) : BudgetState * result Z FaucetError :=
  match inner with Err e => (s, Err e) | Ok n => (account n bytes s, Ok n) end.
Definition budget_write (records : list Value) (during : BudgetState -> BudgetState) (inner : result Z FaucetError) (s : BudgetState)
  : BudgetState * result Z FaucetError :=
  awaited (admit_rows records s) during (fun bytes => end_write bytes inner).

(** [write_batch_partial]: one outcome per row. *)
Definition accepted_rows (records : list Value) (outcomes : list bool) : list Value :=
  (filter (fun e => e.2 = true) (zip records outcomes)).*1.
Definition end_partial (records : list Value) (inner : result (list bool) FaucetError) (s : BudgetState)
  : BudgetState * result (list bool) FaucetError :=
  match inner with
  | Err e => (s, Err e)
  | Ok outcomes =>
      let ok := zlen (List.filter id outcomes) in
      (account ok (page_bytes (accepted_rows records outcomes)) s, Ok outcomes)
  end.
Definition budget_write_partial (records : list Value) (during : BudgetState -> BudgetState) (inner : result (list bool) FaucetError) (s : BudgetState)
  : BudgetState * result (list bool) FaucetError :=
  awaited (admit_rows records s) during (fun _ => end_partial records inner).

(** [write_batch_columnar]: the batch's row count and slice bytes. *)
Definition budget_write_columnar (n bytes : Z) (during : BudgetState -> BudgetState) (inner : result Z FaucetError) (s : BudgetState)
  : BudgetState * result Z FaucetError :=
  awaited (room_for n bytes s) during (fun _ => end_write bytes inner).

(** The task of [BudgetTimer::start], when it fires. *)
Definition timer_fires (s : BudgetState) : BudgetState :=
  match max_duration_secs spec with
  | Some secs => cancel (set_verdict (MkVerdict BudgetDuration secs secs) s)
  | None => s
  end.
End Sink.

(** ** Runs under a budget *)
Section Run.
Context (spec : BudgetSpec).

(** Rows and bytes offered do not take a counter past 64 bits. *)
Definition fits (n bytes : Z) : Prop :=
  0 <= n /\ 0 <= bytes /\
  from_option (fun max => max + n <= U64_MAX) True (max_records spec) /\
  from_option (fun max => max + bytes <= U64_MAX) True (max_bytes spec).
Definition row_fits (records : list Value) : Prop := fits (zlen records) (page_bytes spec records).

(** A sink accepts no more rows than it is given and answers a partial write with one outcome
    per row. *)
Definition accepts_at_most (n : Z) (inner : result Z FaucetError) : Prop :=
  forall k, inner = Ok k -> 0 <= k <= n.
Definition one_outcome_each (records : list Value) (inner : result (list bool) FaucetError) : Prop :=
  forall outcomes, inner = Ok outcomes -> length outcomes = length records.

(** The call that is awaited: an offered page, rows with the bytes they were admitted for, a
    columnar batch. *)
Inductive flight := FAdmit (page : list Value) | FRows (records : list Value) (bytes : Z) | FBatch (n bytes : Z).
(** The shared state, the part of an offered page that is still to be written, and the call
    that is awaited. *)
Notation config := (BudgetState * list Value * option flight)%type.

(** What a run may do with the sinks that share the state: offer a page and then
    write it in chunks, in order, each attempted again after a failure or not; with
    no page on offer, write rows whole (also to the dead-letter sink, whose own
    prepayment is never set) or a columnar batch. Each call is two steps, and the timer
    may fire at any moment. *)
Inductive budget_step : config -> config -> Prop :=
| step_offer page s s' r :
    row_fits page -> room_for spec (zlen page) (page_bytes spec page) s = (s', r) ->
    budget_step (s, [], None) (s', [], match r with Ok _ => Some (FAdmit page) | Err _ => None end)
| step_offered page inner s s' r :
    end_admit page inner s = (s', r) ->
    budget_step (s, [], Some (FAdmit page)) (s', match r with Ok _ => page | Err _ => [] end, None)
| step_write records rest owed s s' bytes :
    row_fits records -> owed = records ++ rest \/ (owed = [] /\ rest = []) -> admit_rows spec records s = (s', Ok bytes) ->
    budget_step (s, owed, None) (s', rest, Some (FRows records bytes))
| step_refused records rest owed owed' s s' e :
    row_fits records -> owed = records ++ rest \/ (owed = [] /\ rest = []) -> admit_rows spec records s = (s', Err e) ->
    owed' = rest \/ owed' = owed -> budget_step (s, owed, None) (s', owed', None)
| step_written records bytes rest owed' inner s s' r :
    accepts_at_most (zlen records) inner -> end_write bytes inner s = (s', r) ->
    owed' = rest \/ (is_ok r = false /\ owed' = records ++ rest) -> budget_step (s, rest, Some (FRows records bytes)) (s', owed', None)
| step_partly_written records bytes rest owed' inner s s' r :
    one_outcome_each records inner -> end_partial spec records inner s = (s', r) ->
    owed' = rest \/ (is_ok r = false /\ owed' = records ++ rest) -> budget_step (s, rest, Some (FRows records bytes)) (s', owed', None)
| step_batch n bytes s s' r :
    fits n bytes -> room_for spec n bytes s = (s', r) ->
    budget_step (s, [], None) (s', [], match r with Ok _ => Some (FBatch n bytes) | Err _ => None end)
| step_batched n bytes inner s s' r :
    accepts_at_most n inner -> end_write bytes inner s = (s', r) -> budget_step (s, [], Some (FBatch n bytes)) (s', [], None)
| step_timer s owed fl : budget_step (s, owed, fl) (timer_fires spec s, owed, fl).

(** The rows and bytes a call in flight was admitted for, and those it may still add. *)
Definition held (fl : option flight) : Z * Z :=
  match fl with
  | None => (0, 0) | Some (FAdmit page) => (zlen page, page_bytes spec page)
  | Some (FRows records bytes) => (zlen records, bytes) | Some (FBatch n bytes) => (n, bytes)
  end.
Definition flight_ok (fl : option flight) : Prop :=
  match fl with
  | None => True | Some (FAdmit page) => row_fits page
  | Some (FRows records bytes) => row_fits records /\ bytes = page_bytes spec records | Some (FBatch n bytes) => fits n bytes
  end.

(** The ceilings hold, with room for what an offered page still owes and for the call in
    flight; until there is a verdict, no more rows are prepaid than are owed. *)
Definition under (max : option Z) (have owed : Z) : Prop :=
  from_option (fun m => 0 <= have /\ have + owed <= m) True max.
Record within (p : config) : Prop := {
  within_prepaid : bs_verdict p.1.1 = None -> 0 <= bs_prepaid p.1.1 <= zlen p.1.2;
  within_records : under (max_records spec) (bs_records p.1.1) (zlen p.1.2 + (held p.2).1);
  within_bytes : under (max_bytes spec) (bs_bytes p.1.1) (page_bytes spec p.1.2 + (held p.2).2);
  within_flight : flight_ok p.2;
}.

Lemma zsum_nonneg l : Forall (fun z => 0 <= z) l -> 0 <= zsum l.
Proof. unfold zsum. induction 1; cbn; lia. Qed.

Lemma digits_pos f u : 0 <= digits_fuel f u.
Proof. revert u. induction f as [|f IH]; intros u; cbn; [lia|]. destruct (u <? 10); [lia|]. specialize (IH (u / 10)). lia. Qed.

Lemma estimate_nonneg v : 0 <= estimate_json_bytes v.
Proof.
  assert (forall u, 0 <= digits_u64 u) as Hd by (intros; apply digits_pos).
  induction v as [|[]|n| |l IH|m IH] using Value_nested_ind; cbn [estimate_json_bytes]; try lia.
  - destruct (num_i64 n) as [i|]; [unfold digits_i64; destruct (i <? 0); pose proof (Hd i); pose proof (Hd (- i)); lia|].
    destruct (num_u64 n) as [u|]; [apply Hd|lia].
  - assert (0 <= zsum (map estimate_json_bytes l)); [|lia]. apply zsum_nonneg. by apply Forall_map.
  - match goal with |- 0 <= zsum ?x + _ + _ => assert (0 <= zsum x) end; [|lia].
    apply zsum_nonneg, Forall_map, (Forall_impl _ _ _ IH). intros []. cbn. lia.
Qed.

Lemma page_bytes_nonneg l : 0 <= page_bytes spec l.
Proof.
  unfold page_bytes. destruct (max_bytes spec); [|lia]. apply zsum_nonneg, Forall_map, Forall_forall.
  intros v _. apply estimate_nonneg.
Qed.

Lemma page_bytes_nil : page_bytes spec [] = 0.
Proof. unfold page_bytes. by destruct (max_bytes spec). Qed.

Lemma page_bytes_app a b : page_bytes spec (a ++ b) = page_bytes spec a + page_bytes spec b.
Proof. unfold page_bytes, estimate_page_bytes. destruct (max_bytes spec); [|lia]. by rewrite map_app, zsum_app. Qed.

Lemma accepted_bytes records outcomes : page_bytes spec (accepted_rows records outcomes) <= page_bytes spec records.
Proof.
  unfold accepted_rows. revert outcomes. induction records as [|r l IH]; intros outcomes; [apply Z.le_refl|].
  destruct outcomes as [|o os].
  { change (page_bytes spec [] <= page_bytes spec (r :: l)). rewrite page_bytes_nil. apply page_bytes_nonneg. }
  change (zip (r :: l) (o :: os)) with ((r, o) :: zip l os). rewrite filter_cons. specialize (IH os).
  pose proof (page_bytes_app [r] l) as E. pose proof (page_bytes_nonneg [r]). cbn [app] in E.
  destruct o; [rewrite decide_True by done|rewrite decide_False by done; lia].
  rewrite fmap_cons. pose proof (page_bytes_app [r] (filter (fun e => e.2 = true) (zip l os)).*1) as E'. cbn [app] in E'.
  cbn [fst]. lia.
Qed.

Lemma accepted_count outcomes : zlen (List.filter id outcomes) <= zlen outcomes.
Proof. induction outcomes as [|[] l IH]; cbn [List.filter id]; [done|rewrite !zlen_cons; lia|rewrite zlen_cons; lia]. Qed.

(** A check that passes leaves the state and the room it asked for. *)
Lemma check_passes n bytes s s' :
  fits n bytes -> under (max_records spec) (bs_records s) 0 -> under (max_bytes spec) (bs_bytes s) 0 ->
  check_ceilings spec n bytes s = (s', None) ->
  s' = s /\ under (max_records spec) (bs_records s) n /\ under (max_bytes spec) (bs_bytes s) bytes.
Proof.
  unfold fits, under, check_ceilings, refuse. intros (Hn & Hb & Fr & Fb) Hr Hs.
  destruct (max_records spec) as [mr|], (max_bytes spec) as [mb|]; cbn in *;
    repeat match goal with |- context [?a <? ?b] => destruct (Z.ltb_spec a b); cbn end; try done; intros [= <-];
    rewrite ?wadd64_small in * by lia; split_and!; done || lia.
Qed.

Lemma check_refuses n bytes s s' e :
  check_ceilings spec n bytes s = (s', Some e) ->
  bs_records s' = bs_records s /\ bs_bytes s' = bs_bytes s /\ bs_prepaid s' = bs_prepaid s /\ bs_verdict s' <> None.
Proof.
  unfold check_ceilings, refuse, cancel, set_verdict.
  destruct (max_records spec) as [mr|], (max_bytes spec) as [mb|]; cbn;
    repeat match goal with |- context [?a <? ?b] => destruct (Z.ltb_spec a b); cbn end; try done;
    intros [= <- <-]; cbn; split_and!; try done; by destruct (bs_verdict s).
Qed.

Lemma under_weaken max have a b : under max have a -> 0 <= b <= a -> under max have b.
Proof. unfold under. destruct max; cbn; [lia|done]. Qed.

Lemma under_account max have owed n a :
  from_option (fun m => m <= U64_MAX) True max ->
  under max have (owed + a) -> 0 <= n <= a -> 0 <= owed -> under max (wadd64 have n) owed.
Proof. unfold under. destruct max; cbn; [|done]. intros ? [] ??. rewrite wadd64_small by lia. lia. Qed.

Lemma fits_max n bytes : fits n bytes ->
  from_option (fun m => m <= U64_MAX) True (max_records spec) /\ from_option (fun m => m <= U64_MAX) True (max_bytes spec).
Proof. unfold fits. destruct (max_records spec), (max_bytes spec); cbn; intros; split; done || lia. Qed.

Lemma within_nil s : within (s, [], None) -> bs_verdict s = None -> bs_prepaid s = 0.
Proof. intros [Hp _ _ _] Hv. specialize (Hp Hv). change (0 <= bs_prepaid s <= 0) in Hp. lia. Qed.
Lemma idle_room s owed : within (s, owed, None) ->
  under (max_records spec) (bs_records s) (zlen owed) /\ under (max_bytes spec) (bs_bytes s) (page_bytes spec owed).
Proof. intros [_ Hr Hb _]. cbn in Hr, Hb. rewrite Z.add_0_r in Hr, Hb. done. Qed.

(** Admitting rows to write, the first of those owed or with none owed: the counters
    stay, and when the rows are admitted there is room for them before the rest. *)
Lemma admit_rows_ok chunk rest s s' r :
  row_fits chunk -> within (s, chunk ++ rest, None) \/ (within (s, [], None) /\ rest = []) ->
  admit_rows spec chunk s = (s', r) ->
  bs_records s' = bs_records s /\ bs_bytes s' = bs_bytes s /\
  match r with
  | Ok bytes => bytes = page_bytes spec chunk /\ 0 <= bs_prepaid s' <= zlen rest /\
      under (max_records spec) (bs_records s) (zlen chunk + zlen rest) /\
      under (max_bytes spec) (bs_bytes s) (page_bytes spec chunk + page_bytes spec rest)
  | Err _ => bs_verdict s' <> None
  end.
Proof.
  intros Hfit Hw. unfold admit_rows. destruct (bs_verdict s) eqn:Hv; [intros [= <- <-]; split_and!; congruence|].
  pose proof (zlen_nonneg chunk). pose proof (zlen_nonneg rest).
  destruct (_ && _) eqn:E.
  - intros [= <- <-]. reflect_bools. destruct Hw as [Hw|[Hp _]]; [|apply within_nil in Hp; lia || done].
    destruct (idle_room _ _ Hw) as [Hr Hb]. pose proof (within_prepaid _ Hw Hv) as Hp. cbn in *.
    rewrite zlen_app in *. rewrite page_bytes_app in *. split_and!; done || lia.
  - clear E. destruct (check_ceilings _ _ _ _) as [t [e|]] eqn:E; intros [= <- <-].
    { by apply check_refuses in E as (-> & -> & _ & ?). }
    destruct Hw as [Hw|[Hw ->]]; destruct (idle_room _ _ Hw) as [Hr Hb].
    + rewrite zlen_app, page_bytes_app in *. pose proof (page_bytes_nonneg (chunk ++ rest)). rewrite page_bytes_app in *.
      eapply check_passes in E as (-> & _); [cbn; split_and!; done || lia|done|..]; eapply under_weaken; eauto; lia.
    + rewrite ?zlen_nil, ?page_bytes_nil, ?Z.add_0_r in *. eapply check_passes in E as (-> & ? & ?); [|done..]. cbn.
      by split_and!.
Qed.
(** Counters that stay, with a verdict or as much prepaid as allowed, and no more held. *)
Lemma within_same s s' owed fl owed' fl' :
  within (s, owed, fl) -> bs_records s' = bs_records s -> bs_bytes s' = bs_bytes s ->
  bs_verdict s' <> None \/ 0 <= bs_prepaid s' <= zlen owed' ->
  0 <= zlen owed' + (held fl').1 <= zlen owed + (held fl).1 -> 0 <= page_bytes spec owed' + (held fl').2 <= page_bytes spec owed + (held fl).2 ->
  flight_ok fl' -> within (s', owed', fl').
Proof.
  intros [_ Hr Hb _] E1 E2 E3 Hle Hle' Hok. split; cbn in *; rewrite ?E1, ?E2; [tauto|eapply under_weaken; eauto..|done].
Qed.
Lemma held_nonneg fl : flight_ok fl -> 0 <= (held fl).1 /\ 0 <= (held fl).2.
Proof.
  destruct fl as [[page|records bytes|n bytes]|]; cbn; [..|lia]; [intros _|intros [_ ->]|by intros (? & ? & _)];
    (split; [apply zlen_nonneg|apply page_bytes_nonneg]).
Qed.
(** A call in flight has ended, having added no more than it was admitted for. *)
Lemma within_ended s rest f n b : within (s, rest, Some f) ->
  from_option (fun m => m <= U64_MAX) True (max_records spec) -> from_option (fun m => m <= U64_MAX) True (max_bytes spec) ->
  0 <= n <= (held (Some f)).1 -> 0 <= b <= (held (Some f)).2 -> within (account n b s, rest, None).
Proof.
  intros [Hp Hr Hb _] Mr Mb Hn Hbn. pose proof (zlen_nonneg rest). pose proof (page_bytes_nonneg rest). cbn in Hr, Hb.
  split; [done|..|done]; cbn [fst snd account held bs_records bs_bytes]; rewrite Z.add_0_r; eapply under_account; eauto.
Qed.
Lemma flight_max f : flight_ok (Some f) ->
  from_option (fun m => m <= U64_MAX) True (max_records spec) /\ from_option (fun m => m <= U64_MAX) True (max_bytes spec).
Proof. destruct f; cbn; [eapply fits_max|intros [? _]; by eapply fits_max|apply fits_max]. Qed.
(** A call that failed gives its rows back or gives them up. *)
Lemma within_given_back s rest records bytes owed' : within (s, rest, Some (FRows records bytes)) ->
  owed' = rest \/ owed' = records ++ rest -> within (s, owed', None).
Proof.
  intros W Ho. pose proof (within_flight _ W) as [_ Hbytes]. cbn in Hbytes. pose proof (zlen_nonneg rest). pose proof (page_bytes_nonneg rest).
  pose proof (zlen_nonneg records). pose proof (page_bytes_nonneg records). pose proof (within_prepaid _ W) as Hp. cbn in Hp.
  assert (bs_verdict s <> None \/ 0 <= bs_prepaid s <= zlen rest) as Hv by (destruct (bs_verdict s); [by left|right; auto]).
  destruct Ho as [-> | ->]; (eapply within_same; [exact W|done|done|..|done]); cbn; rewrite ?zlen_app, ?page_bytes_app; subst; try lia.
  all: destruct Hv; [by left|right; lia].
Qed.

(** Asking for room with no page on offer and nothing in flight. *)
Lemma room_for_ok n bytes s s' r : fits n bytes -> within (s, [], None) -> room_for spec n bytes s = (s', r) ->
  match r with
  | Ok _ => s' = s /\ bs_verdict s = None /\ under (max_records spec) (bs_records s) n /\ under (max_bytes spec) (bs_bytes s) bytes
  | Err _ => within (s', [], None)
  end.
Proof.
  intros Hf W. unfold room_for. destruct (bs_verdict s) eqn:Hv; [by intros [= <- <-]|]. destruct (idle_room _ _ W) as [Hr Hb].
  rewrite zlen_nil in Hr. rewrite page_bytes_nil in Hb. destruct (check_ceilings _ _ _ _) as [t [e|]] eqn:C; intros [= <- <-].
  - apply check_refuses in C as (? & ? & _ & ?). eapply within_same; [exact W|done|done|by left|..|done]; cbn [held fst snd]; rewrite ?page_bytes_nil; unfold zlen; cbn [length]; lia.
  - by eapply check_passes in C as (-> & ? & ?).
Qed.
Lemma within_room f s : within (s, [], None) -> bs_verdict s = None -> flight_ok (Some f) ->
  under (max_records spec) (bs_records s) (held (Some f)).1 -> under (max_bytes spec) (bs_bytes s) (held (Some f)).2 -> within (s, [], Some f).
Proof. intros W Hv Hf Hr Hb. split; [apply W| | |done]; cbn [fst snd]; rewrite ?page_bytes_nil; done. Qed.
Lemma within_offered page inner s s' r : within (s, [], Some (FAdmit page)) -> end_admit page inner s = (s', r) ->
  within (s', match r with Ok _ => page | Err _ => [] end, None).
Proof.
  intros W. unfold end_admit. pose proof (zlen_nonneg page). pose proof (page_bytes_nonneg page). pose proof (within_prepaid _ W) as Hp. cbn in Hp.
  destruct inner as [u|e]; intros [= <- <-]; (eapply within_same; [exact W|done|done|..|done]); cbn [held fst snd set_prepaid bs_prepaid]; rewrite ?page_bytes_nil; unfold zlen in *; cbn [length] in *; try lia.
  destruct (bs_verdict s); [by left|right; auto].
Qed.

(** A step keeps the counters within the ceilings. *)
Lemma within_step p q : budget_step p q -> within p -> within q.
Proof.
  intros [page s s' r Hf E|page inner s s' r E|records rest owed s s' bytes Hf Ho E|records rest owed owed' s s' e Hf Ho E Ho'
         |records bytes rest owed' inner s s' r Ha E Ho'|records bytes rest owed' inner s s' r Ha E Ho'|n bytes s s' r Hf E|n bytes inner s s' r Ha E|s owed fl] W.
  - pose proof (room_for_ok _ _ _ _ _ Hf W E) as H. destruct r; [|done]. destruct H as (-> & ? & ? & ?). by apply within_room.
  - by eapply within_offered.
  - assert (within (s, records ++ rest, None) \/ (within (s, [], None) /\ rest = [])) as Hw by (destruct Ho as [-> |[-> ->]]; auto).
    destruct (admit_rows_ok _ _ _ _ _ Hf Hw E) as (Er & Eb & -> & Hp & Ur & Ub). rewrite (Z.add_comm (zlen records)) in Ur. rewrite (Z.add_comm (page_bytes spec records)) in Ub.
    split; cbn; rewrite ?Er, ?Eb; done.
  - assert (within (s, records ++ rest, None) \/ (within (s, [], None) /\ rest = [])) as Hw by (destruct Ho as [-> |[-> ->]]; auto).
    destruct (admit_rows_ok _ _ _ _ _ Hf Hw E) as (Er & Eb & Hv). pose proof (zlen_nonneg rest). pose proof (zlen_nonneg records).
    pose proof (page_bytes_nonneg rest). pose proof (page_bytes_nonneg records).
    eapply within_same; [exact W|done|done|by left|..|done]; cbn; destruct Ho' as [-> | ->], Ho as [-> |[-> ->]]; rewrite ?zlen_app, ?page_bytes_app, ?page_bytes_nil, ?zlen_nil; lia.
  - unfold end_write in E. destruct inner as [k|e]; injection E as <- <-; cbn [is_ok] in Ho'.
    + destruct Ho' as [-> |[? _]]; [|done]. destruct (flight_max _ (within_flight _ W)). pose proof (within_flight _ W) as [_ ->]. pose proof (page_bytes_nonneg records).
      apply (within_ended _ _ _ _ _ W); [done|done|by apply Ha|cbn; lia].
    + eapply within_given_back; [exact W|]. tauto.
  - unfold end_partial in E. destruct inner as [k|e]; injection E as <- <-; cbn [is_ok] in Ho'; [|eapply within_given_back; [exact W|]; tauto].
    destruct Ho' as [-> |[? _]]; [|done]. destruct (flight_max _ (within_flight _ W)). pose proof (within_flight _ W) as [_ Hbytes]. cbn in Hbytes.
    pose proof (page_bytes_nonneg (accepted_rows records k)). pose proof (accepted_bytes records k). pose proof (accepted_count k) as Hc.
    pose proof (zlen_nonneg (List.filter id k)). assert (zlen k = zlen records) as Hk by (unfold zlen; by rewrite (Ha k eq_refl)).
    apply (within_ended _ _ _ _ _ W); cbn; done || lia.
  - pose proof (room_for_ok _ _ _ _ _ Hf W E) as H. destruct r; [|done]. destruct H as (-> & ? & ? & ?). by apply within_room.
  - unfold end_write in E. destruct (flight_max _ (within_flight _ W)). pose proof (within_flight _ W) as (? & ? & _).
    destruct inner as [k|e]; injection E as <- <-; [apply (within_ended _ _ _ _ _ W); [done|done|by apply Ha|cbn; lia]|].
    pose proof (within_prepaid _ W) as Hp. cbn in Hp. eapply within_same; [exact W|done|done|destruct (bs_verdict s); [by left|right; auto]|..|done];
      cbn [held fst snd]; rewrite ?page_bytes_nil; unfold zlen; cbn [length]; lia.
  - pose proof (within_flight _ W) as Hfl. cbn [snd] in Hfl. pose proof (held_nonneg _ Hfl). pose proof (zlen_nonneg owed). pose proof (page_bytes_nonneg owed).
    unfold timer_fires. destruct (max_duration_secs spec); [|done]. eapply within_same; [exact W|done|done| |lia|lia|done]. left. cbn. by destruct (bs_verdict s).
Qed.

(** What the call in flight may still add to the counters. *)
Definition charged (fl : option flight) (s s' : BudgetState) : Prop :=
  exists n b, 0 <= n <= (held fl).1 /\ 0 <= b <= (held fl).2 /\ bs_records s' = wadd64 (bs_records s) n /\ bs_bytes s' = wadd64 (bs_bytes s) b.
Definition unchanged (s s' : BudgetState) : Prop := bs_records s' = bs_records s /\ bs_bytes s' = bs_bytes s.
Lemma charged_account fl n b s : 0 <= n <= (held fl).1 -> 0 <= b <= (held fl).2 -> charged fl s (account n b s).
Proof. intros. by exists n, b. Qed.
(** With a verdict no call begins. *)
Lemma step_after_verdict s owed fl s' owed' fl' v : flight_ok fl ->
  budget_step (s, owed, fl) (s', owed', fl') -> bs_verdict s = Some v ->
  bs_verdict s' = Some v /\ ((unchanged s s' /\ (fl' = fl \/ fl' = None)) \/ (is_Some fl /\ charged fl s s' /\ fl' = None)).
Proof.
  intros Hok H Hv. inversion H; subst; clear H;
    try (match goal with A : room_for _ _ _ _ = _ |- _ => unfold room_for in A; rewrite Hv in A; simplify_eq; (split; [done|left; split; [done|by right]]) end);
    try (match goal with A : admit_rows _ _ _ = _ |- _ => unfold admit_rows in A; rewrite Hv in A; simplify_eq; (split; [done|left; split; [done|by right]]) end).
  - match goal with A : end_admit _ ?i _ = _ |- _ => unfold end_admit in A; destruct i; simplify_eq end; (split; [done|left; split; [done|by right]]).
  - match goal with A : end_write _ ?i _ = _, B : accepts_at_most _ ?i |- _ => unfold end_write in A; destruct i as [k|]; simplify_eq; [pose proof (B k eq_refl)|] end;
      (split; [done|]); [right|left; split; [done|by right]]. destruct Hok as [_ ->]. pose proof (page_bytes_nonneg records).
    split_and!; [done| |done]. apply charged_account; cbn; done || lia.
  - match goal with A : end_partial _ _ ?i _ = _, B : one_outcome_each _ ?i |- _ => unfold end_partial in A; destruct i as [k|]; simplify_eq; [pose proof (B k eq_refl) as Hlen|] end;
      (split; [done|]); [right|left; split; [done|by right]]. destruct Hok as [_ ->].
    pose proof (page_bytes_nonneg (accepted_rows records k)). pose proof (accepted_bytes records k). pose proof (accepted_count k) as Hc.
    pose proof (zlen_nonneg (List.filter id k)). assert (zlen k = zlen records) as Hk by (unfold zlen; by rewrite Hlen).
    split_and!; [done| |done]. apply charged_account; cbn; done || lia.
  - match goal with A : end_write _ ?i _ = _, B : accepts_at_most _ ?i |- _ => unfold end_write in A; destruct i as [k|]; simplify_eq; [pose proof (B k eq_refl)|] end;
      (split; [done|]); [right|left; split; [done|by right]]. destruct Hok as (? & ? & _).
    split_and!; [done| |done]. apply charged_account; cbn; done || lia.
  - split; [|left; split; [|by left]]; unfold timer_fires; destruct (max_duration_secs spec); cbn; by rewrite ?Hv.
Qed.

Lemma within_run p q : rtc budget_step p q -> within p -> within q.
Proof. induction 1; eauto using within_step. Qed.
Lemma run_after_verdict p q v : rtc budget_step p q -> within p -> bs_verdict p.1.1 = Some v ->
  bs_verdict q.1.1 = Some v /\ (unchanged p.1.1 q.1.1 \/ (is_Some p.2 /\ charged p.2 p.1.1 q.1.1)).
Proof.
  intros Hrun. induction Hrun as [p|[[s o] f] [[s' o'] f'] q H _ IH]; [intros _ ?; split; [done|by left]|]. intros W Hv. cbn [fst snd] in *.
  destruct (step_after_verdict _ _ _ _ _ _ v (within_flight _ W) H Hv) as [Hv' Hs]. destruct (IH (within_step _ _ H W) Hv') as [Hq Hrest]. split; [done|].
  destruct Hs as [[[E1 E2] Hf]|(Hsome & (n & b & ? & ? & E1 & E2) & ->)].
  - destruct Hrest as [[E3 E4]|[Hsome (n & b & ? & ? & E3 & E4)]]; [left; split; congruence|right]. destruct Hf as [-> | ->]; [|by destruct Hsome].
    split; [done|]. exists n, b. split; [done|]. split; [done|]. split; congruence.
  - right. split; [done|]. destruct Hrest as [[E3 E4]|[[? ?] _]]; [|done]. exists n, b. split; [done|]. split; [done|]. split; congruence.
Qed.

End Run.

(** C37: A budget is never exceeded: whatever the sinks accept, retry or refuse and whenever the
    timer fires, also while a write is awaited, the rows and estimated bytes accepted stay
    within the ceilings; and once there is a verdict it stands, no write begins, and of what
    was in flight at that moment no more is added than it was admitted for: with nothing in
    flight, nothing. *)
Theorem budget_never_exceeded (spec : BudgetSpec) (s : BudgetState) (owed : list Value) (fl : option flight) :
  from_option is_u64 True (max_records spec) -> from_option is_u64 True (max_bytes spec) ->
  rtc (budget_step spec) (BudgetState_new, [], None) (s, owed, fl) ->
  from_option (fun max => bs_records s <= max) True (max_records spec) /\
  from_option (fun max => bs_bytes s <= max) True (max_bytes spec) /\
  (forall v s' owed' fl', bs_verdict s = Some v -> rtc (budget_step spec) (s, owed, fl) (s', owed', fl') ->
     bs_verdict s' = Some v /\ (unchanged s s' \/ (is_Some fl /\ charged spec fl s s'))).
Proof.
  intros Hmr Hmb Hrun. assert (within spec (s, owed, fl)) as W.
  { eapply within_run; [done|]. split; [done|change (under (max_records spec) 0 0)|cbn; rewrite page_bytes_nil|done];
      unfold under, is_u64 in *; [destruct (max_records spec)|destruct (max_bytes spec)]; cbn in *; done || lia. }
  pose proof (held_nonneg spec fl (within_flight _ _ W)). pose proof W as [_ Wr Wb _].
  cbn in Wr, Wb. unfold under in *. pose proof (zlen_nonneg owed). pose proof (page_bytes_nonneg spec owed).
  split_and!; [destruct (max_records spec); cbn in *; done || lia|destruct (max_bytes spec); cbn in *; done || lia|].
  intros v s' owed' fl' Hv Hlater. by apply (run_after_verdict spec (s, owed, fl) (s', owed', fl')).
Qed.

(** Three rows are offered under a ceiling of four and written in two chunks; the timer fires
    while the second is awaited, which is still counted, and the next page is refused. *)
Definition timed_spec : BudgetSpec := MkBudgetSpec (Some 4) None (Some 60) [].
Definition timed_out (n : Z) : BudgetState := MkBudgetState n 0 (Some (MkVerdict BudgetDuration 60 60)) 0 true.
Lemma budget_never_exceeded_witness :
  rtc (budget_step timed_spec) (BudgetState_new, [], None) (timed_out 2, [], Some (FRows [Null] 0)) /\
  rtc (budget_step timed_spec) (timed_out 2, [], Some (FRows [Null] 0)) (timed_out 3, [], None) /\
  bs_records (timed_out 2) <= 4 /\ charged timed_spec (Some (FRows [Null] 0)) (timed_out 2) (timed_out 3).
Proof.
  assert (forall l, zlen l <= 4 -> row_fits timed_spec l) as Hf.
  { intros l Hl. pose proof (zlen_nonneg l). unfold row_fits, fits. cbn. unfold U64_MAX. lia. }
  assert (rtc (budget_step timed_spec) (BudgetState_new, [], None) (timed_out 2, [], Some (FRows [Null] 0))) as Hrun.
  { eapply rtc_l; [eapply (step_offer timed_spec [Null; Null; Null] _ _ (Ok tt)); [by apply Hf|vm_compute; reflexivity]|].
    eapply rtc_l; [eapply (step_offered timed_spec [Null; Null; Null] (Ok tt)); vm_compute; reflexivity|].
    eapply rtc_l; [eapply (step_write timed_spec [Null; Null] [Null]); [by apply Hf|by left|vm_compute; reflexivity]|].
    eapply rtc_l; [eapply (step_written timed_spec [Null; Null] _ [Null] [Null] (Ok 2)); [by intros k [= <-]|vm_compute; reflexivity|by left]|].
    eapply rtc_l; [eapply (step_write timed_spec [Null] []); [by apply Hf|by left|vm_compute; reflexivity]|].
    eapply rtc_l; [apply step_timer|]. apply rtc_refl. }
  assert (rtc (budget_step timed_spec) (timed_out 2, [], Some (FRows [Null] 0)) (timed_out 3, [], None)) as Hend.
  { eapply rtc_l; [eapply (step_written timed_spec [Null] 0 [] [] (Ok 1)); [by intros k [= <-]|vm_compute; reflexivity|by left]|].
    eapply rtc_l; [eapply (step_offer timed_spec [Null; Null] _ _ (Err _)); [by apply Hf|vm_compute; reflexivity]|]. apply rtc_refl. }
  destruct (budget_never_exceeded timed_spec (timed_out 2) [] (Some (FRows [Null] 0))) as (Hr & _ & Hv); [split; done|exact I|exact Hrun|].
  split_and!; [exact Hrun|exact Hend|exact Hr|]. destruct (Hv _ _ _ _ eq_refl Hend) as [_ [[E _]|[_ Hc]]]; [discriminate E|exact Hc].
Defined.
(** A whole call of the sink is such steps: nothing or the timer happens while it is awaited. *)
Lemma write_is_its_steps spec records during inner s s' r : row_fits spec records -> accepts_at_most (zlen records) inner ->
  during = id \/ during = timer_fires spec -> budget_write spec records during inner s = (s', r) -> rtc (budget_step spec) (s, [], None) (s', [], None).
Proof.
  intros Hf Ha Hd. unfold budget_write, awaited. destruct (admit_rows spec records s) as [t [bytes|e]] eqn:A.
  - intros E. eapply rtc_l; [by eapply (step_write spec records [] []); [|by right|]|].
    assert (rtc (budget_step spec) (t, [], Some (FRows records bytes)) (during t, [], Some (FRows records bytes))) as Hmid.
    { destruct Hd as [-> | ->]; [apply rtc_refl|]. apply rtc_once, step_timer. }
    etransitivity; [exact Hmid|]. apply rtc_once. eapply (step_written spec records bytes [] []); [done|exact E|by left].
  - intros [= <- <-]. apply rtc_once. by eapply (step_refused spec records [] [] []); [|by right| |by left].
Qed.

(** ** Merging two budgets *)

Lemma mem_true k l : mem k l = true <-> k ∈ l.
Proof. unfold mem. apply bool_decide_eq_true. Qed.

Lemma elem_of_existsb_or l x y :
  existsb (fun s => string_eqb s x || string_eqb s y) l = true <-> x ∈ l \/ y ∈ l.
Proof.
  induction l as [|s l IH]; cbn; [rewrite !elem_of_nil; naive_solver|].
  rewrite !orb_true_iff, IH, !elem_of_cons. unfold string_eqb. rewrite !bool_decide_eq_true. naive_solver.
Qed.

Lemma elem_of_merge_entry kind_of a b acc e x :
  x ∈ merge_entry kind_of a b acc e <->
  x ∈ acc \/ (x = e /\ e <> DENY_ALL_SINKS /\ allows kind_of a e = true /\ allows kind_of b e = true).
Proof.
  unfold merge_entry, string_eqb. destruct (_ && _) eqn:E.
  - rewrite elem_of_app, list_elem_of_singleton. rewrite !andb_true_iff, !negb_true_iff, bool_decide_eq_false in E. tauto.
  - split; [tauto|]. intros [?|(-> & Hd & Ha & Hb)]; [done|]. rewrite Ha, Hb, bool_decide_eq_false_2 in E by done.
    cbn in E. apply negb_false_iff in E. by apply mem_true.
Qed.

Lemma elem_of_merge_fold kind_of a b l acc x :
  x ∈ foldl (merge_entry kind_of a b) acc l <->
  x ∈ acc \/ (x ∈ l /\ x <> DENY_ALL_SINKS /\ allows kind_of a x = true /\ allows kind_of b x = true).
Proof.
  revert acc. induction l as [|e l IH]; intros acc; cbn [foldl]; [rewrite elem_of_nil; naive_solver|].
  rewrite IH, elem_of_cons, elem_of_merge_entry. naive_solver.
Qed.

(** The lists [sink_allowed] accepts a sink by. *)
Lemma sink_allowed_spec b ref kind :
  sink_allowed b ref kind = true <->
  DENY_ALL_SINKS ∉ allowed_sinks b /\ (allowed_sinks b = [] \/ ref ∈ allowed_sinks b \/ kind ∈ allowed_sinks b).
Proof.
  unfold sink_allowed. set (l := allowed_sinks b).
  assert (existsb (fun s => string_eqb s DENY_ALL_SINKS) l = true <-> DENY_ALL_SINKS ∈ l) as Hd.
  { rewrite existsb_exists. unfold string_eqb. setoid_rewrite <- list_elem_of_In. setoid_rewrite bool_decide_eq_true. naive_solver. }
  destruct (existsb (fun s => string_eqb s DENY_ALL_SINKS) l); [naive_solver|].
  rewrite orb_true_iff, elem_of_existsb_or. destruct l; cbn; naive_solver.
Qed.

Lemma allows_spec kind_of l e :
  allows kind_of l e = true <-> e ∈ l \/ exists k, kind_of e = Some k /\ k ∈ l.
Proof. unfold allows. rewrite orb_true_iff, mem_true. destruct (kind_of e) eqn:E; [rewrite mem_true|]; naive_solver. Qed.

(** A list holds the refusing entry alone, the way a merge leaves it. *)
Definition deny_alone (l : list string) : Prop := DENY_ALL_SINKS ∈ l -> l = [DENY_ALL_SINKS].

Lemma merge_sinks_spec kind_of a b :
  a <> [] -> b <> [] ->
  merge_sinks kind_of a b <> [] /\ deny_alone (merge_sinks kind_of a b) /\
  forall x, x <> DENY_ALL_SINKS ->
    (x ∈ merge_sinks kind_of a b <-> x ∈ a ++ b /\ allows kind_of a x = true /\ allows kind_of b x = true).
Proof.
  intros Ha Hb. assert (merge_sinks kind_of a b = (let both := foldl (merge_entry kind_of a b) [] (a ++ b) in
      if is_nil both then [DENY_ALL_SINKS] else both)) as -> by (unfold merge_sinks; by destruct a, b).
  pose proof (fun x => elem_of_merge_fold kind_of a b (a ++ b) [] x) as Hx. setoid_rewrite elem_of_nil in Hx.
  destruct (foldl _ _ _) as [|e both]; cbn [is_nil]; split_and!; try done.
  - intros x Hd. rewrite list_elem_of_singleton. specialize (Hx x). rewrite elem_of_nil in Hx. tauto.
  - intros Hd%Hx. tauto.
  - intros x Hd. rewrite Hx. tauto.
Qed.

(** What a list must hold for a merge to keep a template or a kind both sides accept. *)
Lemma merged_accepts kind_of la lb ref kind :
  kind_of ref = Some kind -> kind_of kind = None \/ kind_of kind = Some kind ->
  (ref ∈ la ++ lb /\ allows kind_of la ref = true /\ allows kind_of lb ref = true) \/
  (kind ∈ la ++ lb /\ allows kind_of la kind = true /\ allows kind_of lb kind = true) <->
  (ref ∈ la \/ kind ∈ la) /\ (ref ∈ lb \/ kind ∈ lb).
Proof.
  intros Hk Hkk. assert (forall l, allows kind_of l ref = true <-> ref ∈ l \/ kind ∈ l) as Hr.
  { intros l. rewrite allows_spec, Hk. naive_solver. }
  assert (forall l, allows kind_of l kind = true <-> kind ∈ l) as Hkd.
  { intros l. rewrite allows_spec. destruct Hkk as [->| ->]; naive_solver. }
  rewrite !Hr, !Hkd, !elem_of_app. tauto.
Qed.

(** A merged budget is the conjunction of the two: each ceiling admits what both
    admit, and a sink is allowed exactly when both budgets allow it, whether a list
    names its template or its connector kind. *)
Theorem merge_is_conjunction (kind_of : string -> option string) (a b : BudgetSpec) (ref kind : string) :
  kind_of ref = Some kind -> kind_of kind = None \/ kind_of kind = Some kind ->
  ref <> DENY_ALL_SINKS -> kind <> DENY_ALL_SINKS ->
  deny_alone (allowed_sinks a) -> deny_alone (allowed_sinks b) ->
  sink_allowed (merge_with kind_of a b) ref kind = sink_allowed a ref kind && sink_allowed b ref kind /\
  forall n, from_option (fun m => n <= m) True (max_records (merge_with kind_of a b)) <->
            from_option (fun m => n <= m) True (max_records a) /\ from_option (fun m => n <= m) True (max_records b).
Proof.
  intros Hk Hkk Hr Hd Da Db. split; [|intros n; unfold merge_with; cbn; destruct (max_records a), (max_records b); cbn; lia || tauto].
  apply eq_true_iff_eq. rewrite andb_true_iff, !sink_allowed_spec. unfold merge_with. cbn [allowed_sinks].
  destruct (decide (allowed_sinks a = [])) as [->|Na].
  { destruct (allowed_sinks b); cbn; [naive_solver|]. set_solver. }
  destruct (decide (allowed_sinks b = [])) as [->|Nb].
  { destruct (allowed_sinks a); cbn; [naive_solver|]. set_solver. }
  destruct (merge_sinks_spec kind_of _ _ Na Nb) as (Nm & Dm & Hm).
  rewrite !(Hm ref), !(Hm kind), merged_accepts by done.
  assert (forall l, deny_alone l -> ref ∈ l \/ kind ∈ l -> DENY_ALL_SINKS ∉ l) as Hdeny.
  { intros l Dl Hl Hin. rewrite (Dl Hin), !list_elem_of_singleton in Hl. naive_solver. }
  split; [intros [_ [?|[]]]; naive_solver|]. intros [[_ [?|Ha]] [_ [?|Hb]]]; try done. split; [|tauto].
  apply Hdeny; [done|]. rewrite (Hm ref), (Hm kind), merged_accepts by done. done.
Qed.

(** Two budgets that name the same sinks by template and by kind. *)
Lemma merge_is_conjunction_witness :
  let kind_of := fun s => if string_eqb s "warehouse" then Some "postgres" else None in
  let a := MkBudgetSpec (Some 10) None None ["warehouse"; "s3"] in
  let b := MkBudgetSpec (Some 7) None None ["postgres"] in
  sink_allowed (merge_with kind_of a b) "warehouse" "postgres" = true.
Proof.
  intros kind_of a b.
  rewrite (proj1 (merge_is_conjunction kind_of a b "warehouse" "postgres" eq_refl (or_introl eq_refl)
    ltac:(done) ltac:(done) ltac:(unfold deny_alone; cbn; set_solver) ltac:(unfold deny_alone; cbn; set_solver))).
  vm_compute. reflexivity.
Defined.

(** A template that bears another connector's name: the merge keeps the name for the
    template's own kind, and it then admits sinks of the connector it names, which
    one of the two budgets refuses. *)
Example merge_admits_a_namesake :
  let kind_of := fun s => if string_eqb s "postgres" then Some "jsonl" else None in
  let a := MkBudgetSpec None None None ["postgres"] in
  let b := MkBudgetSpec None None None ["jsonl"] in
  sink_allowed b "other" "postgres" = false /\ sink_allowed (merge_with kind_of a b) "other" "postgres" = true.
Proof. vm_compute. done. Qed.
