(* ===== verification/Engine.v ===== *)
(** The effects of the engine: the backends a run talks to, the monad its code
    runs in, and the weakest-precondition rules the proofs use.

    A run owns no data: it calls a main sink, an optional dead-letter sink and a
    state store (the traits [Sink] and [StateStore] of crates/core/src/traits.rs
    and state.rs). All three are operations on one arbitrary environment type,
    so a theorem about a run holds for every behaviour of the backends: a call
    may succeed, fail, or fail after having taken effect.

    Time is a count of nanoseconds. A cancellation token fires at a given time
    or never. The process may die: before a call reaches the backend, or after
    the backend took the effect and before the engine saw the reply. *)
From S2P Require Import Prelude Errors Json Accounting Dlq Drift.

Local Open Scope Z_scope.

(** [struct StreamPage] (pipeline.rs). *)
Record StreamPage := MkStreamPage {
  sp_records : list Value;
  sp_bookmark : option Value;
}.

(** [RowOutcome]: one row of a partial write. *)
Definition RowOutcome : Type := result unit FaucetError.

Inductive target := Main | Dead.

#[export] Instance target_eq_dec : EqDecision target.
Proof. solve_decision. Defined.

(** What a run did, in order: the calls it made with their replies, and the
    pages it took from the source. *)
Inductive event : Type :=
| EPage (p : StreamPage)
| EGoverned (records envelopes : list Value)
| EWrite (t : target) (records : list Value) (r : result WriteReport FaucetError)
| EPartial (records : list Value) (r : result (list RowOutcome) FaucetError)
| EAdmit (records : list Value) (r : result unit FaucetError)
| EIdempotent (records : list Value) (scope token : string) (r : result WriteReport FaucetError)
| EToken (scope : string) (r : result (option string) FaucetError)
| EFlush (t : target) (r : result unit FaucetError)
| ESchema (r : result (option Value) FaucetError)
| EEvolve (e : SchemaEvolution) (r : result unit FaucetError)
| EGet (key : string) (r : result (option Value) FaucetError)
| EPut (key : string) (v : Value) (r : result unit FaucetError)
| EStart (bookmark : Value) (r : result unit FaucetError)
| EBeginOverwrite (r : result unit FaucetError)
| ECommitOverwrite (r : result unit FaucetError)
| EAbortOverwrite (r : result unit FaucetError)
| ECompleteRun (r : result unit FaucetError)
| EDelete (key : string) (r : result unit FaucetError)
| EClaim (key : string) (v : Value) (r : result bool FaucetError).

Section Engine.
Context {E : Type}.

(** A backend call: the reply, the time it took, and the environment after. *)
Definition backend (A : Type) : Type := E -> (result A FaucetError * Z) * E.

(** The methods of [trait Sink] the value path of the engine calls. *)
Record SinkOps := MkSinkOps {
  connector_name : string;
  supports_idempotent_writes : bool;
  dedups_by_key : bool;
  write_batch_is_replay_safe : bool;
  is_overwrite : bool;
  batch_atomicity : BatchAtomicity;
  write_batch_reported : list Value -> backend WriteReport;
  write_governed : list Value -> backend WriteReport;
  write_batch_partial : list Value -> backend (list RowOutcome);
  admit_page : list Value -> backend unit;
  write_batch_idempotent_reported : list Value -> string -> string -> backend WriteReport;
  last_committed_token : string -> backend (option string);
  flush : backend unit;
  current_schema : backend (option Value);
  evolve_schema : SchemaEvolution -> backend unit;
  begin_overwrite : backend unit;
  commit_overwrite : backend unit;
  abort_overwrite : backend unit;
  complete_run : backend unit;
}.

(** The methods of [trait StateStore] the engine calls. *)
Record StoreOps := MkStoreOps {
  store_get : string -> backend (option Value);
  store_put : string -> Value -> backend unit;
  store_delete : string -> backend unit;
  compare_and_put : string -> option Value -> Value -> backend bool;
}.

(** The state a run's code works on. *)
Record st := MkSt {
  env : E;
  clock : Z;
  crash_in : option nat;
  jitter_counter : Z;
  accounts : option RowAccounts;
  outcomes : BatchOutcomeCounters;
  trace : list event;
}.

Definition set_env (s : st) (e : E) : st :=
  MkSt e (clock s) (crash_in s) (jitter_counter s) (accounts s) (outcomes s) (trace s).
Definition set_clock (s : st) (t : Z) : st :=
  MkSt (env s) t (crash_in s) (jitter_counter s) (accounts s) (outcomes s) (trace s).
Definition set_crash (s : st) (c : option nat) : st :=
  MkSt (env s) (clock s) c (jitter_counter s) (accounts s) (outcomes s) (trace s).
Definition set_jitter (s : st) (j : Z) : st :=
  MkSt (env s) (clock s) (crash_in s) j (accounts s) (outcomes s) (trace s).
Definition set_accounts (s : st) (a : option RowAccounts) : st :=
  MkSt (env s) (clock s) (crash_in s) (jitter_counter s) a (outcomes s) (trace s).
Definition set_outcomes (s : st) (o : BatchOutcomeCounters) : st :=
  MkSt (env s) (clock s) (crash_in s) (jitter_counter s) (accounts s) o (trace s).
Definition log_event (s : st) (e : event) : st :=
  MkSt (env s) (clock s) (crash_in s) (jitter_counter s) (accounts s) (outcomes s)
    (trace s ++ [e]).

(** How a piece of engine code ends: a value, an error, or a dead process. *)
Inductive outcome (A : Type) : Type :=
| Val (a : A)
| Fault (e : FaucetError)
| Crashed.

Definition M (A : Type) : Type := st -> outcome A * st.

Definition ret {A} (a : A) : M A := fun s => (Val A a, s).
Definition throw {A} (e : FaucetError) : M A := fun s => (Fault A e, s).
Definition bind {A B} (m : M A) (k : A -> M B) : M B := fun s =>
  match m s with
  | (Val _ a, s) => k a s
  | (Fault _ e, s) => (Fault B e, s)
  | (Crashed _, s) => (Crashed B, s)
  end.
Definition lift {A} (r : result A FaucetError) : M A :=
  match r with Ok a => ret a | Err e => throw e end.
(** Observe an error instead of propagating it (no [?]). A dead process is not
    observable. *)
Definition attempt {A} (m : M A) : M (result A FaucetError) := fun s =>
  match m s with
  | (Val _ a, s) => (Val _ (Ok a), s)
  | (Fault _ e, s) => (Val _ (Err e), s)
  | (Crashed _, s) => (Crashed _, s)
  end.
(** [Result::map_err]. *)
Definition map_err {A} (f : FaucetError -> FaucetError) (m : M A) : M A := fun s =>
  match m s with
  | (Fault _ e, s) => (Fault A (f e), s)
  | r => r
  end.
Definition state_of : M st := fun s => (Val st s, s).
Definition modify (f : st -> st) : M unit := fun s => (Val unit tt, f s).

(** One backend call. [crash_in = Some 0]: the process dies before the call;
    [Some 1]: after the backend answered, before the engine resumes. *)
Definition call {A} (op : backend A) (ev : result A FaucetError -> event) : M A := fun s =>
  match crash_in s with
  | Some O => (Crashed A, s)
  | c =>
      let '((r, d), e) := op (env s) in
      let s1 := log_event (set_clock (set_env s e) (clock s + d)) (ev r) in
      match c with
      | Some (S O) => (Crashed A, set_crash s1 (Some O))
      | _ => let s2 := set_crash s1 (match c with Some n => Some (n - 2)%nat | None => None end) in
             match r with
             | Ok a => (Val A a, s2)
             | Err e => (Fault A e, s2)
             end
      end
  end.

(** A cancellation token: when it fires, if ever. *)
Definition token : Type := option Z.
Definition fires_by (t : option token) (now : Z) : bool :=
  match t with Some (Some at_) => at_ <=? now | _ => false end.

(** [token.is_cancelled()]. *)
Definition is_cancelled (t : option token) : M bool := fun s => (Val bool (fires_by t (clock s)), s).

(** ** Weakest preconditions *)

(** A predicate indifferent to time and randomness. *)
Definition stable (I : st -> Prop) : Prop :=
  forall s s', env s = env s' -> trace s = trace s' -> accounts s = accounts s' ->
    outcomes s = outcomes s' -> I s -> I s'.

Definition wp {A} (m : M A) (Q : outcome A -> st -> Prop) (s : st) : Prop := Q (m s).1 (m s).2.

End Engine.

Arguments SinkOps : clear implicits.
Arguments StoreOps : clear implicits.
Arguments st : clear implicits.
Arguments M : clear implicits.
Arguments Val {A} a.
Arguments Fault {A} e.
Arguments Crashed {A}.

Declare Scope engine_scope.
Delimit Scope engine_scope with engine.
Notation "'let*' x ':=' c 'in' k" := (bind c (fun x => k))
  (at level 10, x pattern, c at level 100, k at level 200) : engine_scope.
Notation "c ';;' k" := (bind c (fun _ => k)) (at level 100, right associativity) : engine_scope.

(** The default bodies of [trait Sink] (traits.rs), for a sink that supplies
    [write_batch] only. *)
Section Defaults.
Context {E : Type}.
Context (write_batch : list Value -> @backend E Z) (dedup_flag : bool).

Definition default_write_batch_reported (records : list Value) : @backend E WriteReport := fun e =>
  match write_batch records e with
  | ((Ok n, d), e) =>
      ((Ok (if dedup_flag then report_keyed (zlen records) n else report_accepted n), d), e)
  | ((Err x, d), e) => ((Err x, d), e)
  end.

Definition default_write_batch_partial (records : list Value) : @backend E (list RowOutcome) :=
  fun e =>
  match default_write_batch_reported records e with
  | ((Ok r, d), e) =>
      match report_check r (zlen records) with
      | Ok _ => ((Ok ((fun _ => Ok tt) <$> records), d), e)
      | Err x => ((Err x, d), e)
      end
  | ((Err x, d), e) => ((Err x, d), e)
  end.

(** [write_governed] delegates to [write_batch_reported]. *)
Definition default_write_governed (records : list Value) : @backend E WriteReport :=
  default_write_batch_reported records.

(** [admit_page] accepts, [last_committed_token] and [current_schema] answer
    [None], [flush] and the overwrite hooks do nothing. *)
Definition default_unit : @backend E unit := fun e => ((Ok tt, 0), e).
Definition default_none {A} : @backend E (option A) := fun e => ((Ok None, 0), e).

End Defaults.

(** ** Facts *)

Section Rules.
Context {E : Type}.
Implicit Types (s : st E).

Lemma wp_mono {A} (m : M E A) (Q R : outcome A -> st E -> Prop) s :
  wp m Q s -> (forall o s, Q o s -> R o s) -> wp m R s.
Proof. unfold wp. auto. Qed.

Lemma wp_true {A} (m : M E A) s : wp m (fun _ _ => True) s.
Proof. done. Qed.

Lemma wp_and {A} (m : M E A) (Q R : outcome A -> st E -> Prop) s :
  wp m Q s -> wp m R s -> wp m (fun o s => Q o s /\ R o s) s.
Proof. unfold wp. auto. Qed.

Lemma wp_ret {A} (a : A) (Q : outcome A -> st E -> Prop) s : Q (Val a) s -> wp (ret a) Q s.
Proof. done. Qed.

Lemma wp_throw {A} e (Q : outcome A -> st E -> Prop) s : Q (Fault e) s -> wp (throw e) Q s.
Proof. done. Qed.

Lemma wp_bind {A B} (m : M E A) (k : A -> M E B) (Q : outcome B -> st E -> Prop) s :
  wp m (fun o s => match o with
                   | Val a => wp (k a) Q s
                   | Fault e => Q (Fault e) s
                   | Crashed => Q Crashed s
                   end) s ->
  wp (bind m k) Q s.
Proof. unfold wp, bind. destruct (m s) as [[] ?]; done. Qed.

Lemma wp_lift {A} (r : result A FaucetError) (Q : outcome A -> st E -> Prop) s :
  match r with Ok a => Q (Val a) s | Err e => Q (Fault e) s end -> wp (lift r) Q s.
Proof. by destruct r. Qed.

Lemma wp_attempt {A} (m : M E A) (Q : outcome (result A FaucetError) -> st E -> Prop) s :
  wp m (fun o s => match o with
                   | Val a => Q (Val (Ok a)) s
                   | Fault e => Q (Val (Err e)) s
                   | Crashed => Q Crashed s
                   end) s ->
  wp (attempt m) Q s.
Proof. unfold wp, attempt. destruct (m s) as [[] ?]; done. Qed.

Lemma wp_map_err {A} f (m : M E A) (Q : outcome A -> st E -> Prop) s :
  wp m (fun o s => match o with
                   | Fault e => Q (Fault (f e)) s
                   | o => Q o s
                   end) s ->
  wp (map_err f m) Q s.
Proof. unfold wp, map_err. destruct (m s) as [[] ?]; done. Qed.

Lemma wp_state_of (Q : outcome (st E) -> st E -> Prop) s : Q (Val s) s -> wp state_of Q s.
Proof. done. Qed.

Lemma wp_modify f (Q : outcome unit -> st E -> Prop) s : Q (Val tt) (f s) -> wp (modify f) Q s.
Proof. done. Qed.

Lemma wp_is_cancelled t (Q : outcome bool -> st E -> Prop) s :
  Q (Val (fires_by t (clock s))) s -> wp (is_cancelled t) Q s.
Proof. done. Qed.

(** The rule for a backend call, for predicates that only look at the
    environment and the trace. *)
Lemma wp_call {A} (op : @backend E A) ev (Q : outcome A -> st E -> Prop) s :
  Q Crashed s ->
  (forall r d e s', op (env s) = ((r, d), e) -> env s' = e -> trace s' = trace s ++ [ev r] ->
     accounts s' = accounts s -> outcomes s' = outcomes s ->
     Q Crashed s' /\ match r with Ok a => Q (Val a) s' | Err x => Q (Fault x) s' end) ->
  wp (call op ev) Q s.
Proof.
  intros H0 H. unfold wp, call. destruct (op (env s)) as [[r d] e] eqn:Hop.
  destruct (crash_in s) as [[|[|n]]|]; [done|..]; destruct r as [a|x]; simpl;
    match goal with |- Q _ ?S => destruct (H _ _ _ S eq_refl) as [? ?] end; done.
Qed.

(** The defaults report one outcome per row, or an error. *)
Lemma default_partial_length (wb : list Value -> @backend E Z) k records e r d e' :
  default_write_batch_partial wb k records e = ((Ok r, d), e') -> length r = length records.
Proof.
  unfold default_write_batch_partial. destruct (default_write_batch_reported _ _ _ _) as [[[] ?] ?];
    [|done]. case_match; [|done]. intros. simplify_eq. by rewrite length_fmap.
Qed.

End Rules.

#[export] Hint Resolve wp_ret wp_throw : faucet.
