(* ===== verification/Wrapping.v ===== *)
(** A source with transform stages attached: crates/core/src/transforming_source.rs,
    and the page function of observability/transform.rs less its metrics.

    A stream of pages is the list of its items; an error is the last. The columnar
    path and the declared columns are left out. *)
From S2P Require Import Prelude Errors Float64 Json Accounting Text Contract Transform Stage Engine.

Local Open Scope Z_scope.
Local Open Scope result_scope.

Section Wrapping.
Context `{TransformEnv}.

(** [struct TransformingSource], less the source it wraps. *)
Record TransformingSource := MkTransformingSource { ts_stages : list CompiledStage; ts_row_accounts : option RowAccounts }.
(** [new], [with_row_accounts]. *)
Definition transforming_new (stages : list TransformStage) : result TransformingSource FaucetError :=
  let? compiled := try_map compile_stage stages in Ok (MkTransformingSource compiled None).
Definition with_row_accounts (s : TransformingSource) (a : RowAccounts) : TransformingSource := MkTransformingSource (ts_stages s) (Some a).

(** [instrumented_apply_stages]. *)
Definition instrumented_apply_stages (records : list Value) (stages : list CompiledStage) : result (list Value) FaucetError :=
  apply_stages_to_page records stages.

(** [fetch_with_context], [fetch_with_context_incremental], of what the wrapped source answers. *)
Definition transforming_fetch (s : TransformingSource) (inner : result (list Value) FaucetError) : result (list Value) FaucetError :=
  let? records := inner in instrumented_apply_stages records (ts_stages s).
Definition transforming_fetch_incremental (s : TransformingSource) (inner : result (list Value * option Value) FaucetError)
  : result (list Value * option Value) FaucetError :=
  let? ri := inner in
  let? transformed := instrumented_apply_stages ri.1 (ts_stages s) in
  Ok (transformed, ri.2).

(** The loop that cuts a grown page; the fuel is the number of rows left. *)
Fixpoint yield_chunks (fuel effective : nat) (rest : list Value) (bookmark : option Value) : list StreamPage :=
  match fuel, rest with
  | S fuel, _ :: _ =>
      let chunk := take effective rest in
      let rest := drop effective rest in
      MkStreamPage chunk (if is_nil rest then bookmark else None) :: yield_chunks fuel effective rest bookmark
  | _, _ => []
  end.
(** The pages one transformed page becomes. *)
Definition yield_page (batch_size : Z) (page : StreamPage) (out : list Value) : list StreamPage :=
  if is_nil out then [MkStreamPage [] (sp_bookmark page)]
  else if (batch_size =? 0) || is_some (sp_bookmark page) then [MkStreamPage out (sp_bookmark page)]
  else
    let effective := Z.max batch_size (zlen (sp_records page)) in
    if zlen out <=? effective then [MkStreamPage out (sp_bookmark page)]
    else yield_chunks (length out) (Z.to_nat effective) out (sp_bookmark page).
(** [stream_pages], with the row accounts as they are left. *)
Fixpoint transforming_pages (s : TransformingSource) (batch_size : Z) (pages : list (result StreamPage FaucetError))
  : list (result StreamPage FaucetError) * option RowAccounts :=
  match pages with
  | [] => ([], ts_row_accounts s)
  | Err e :: _ => ([Err e], ts_row_accounts s)
  | Ok page :: pages =>
      match instrumented_apply_stages (sp_records page) (ts_stages s) with
      | Err e => ([Err e], ts_row_accounts s)
      | Ok out =>
          let a := (fun a => add_transform a (zlen (sp_records page)) (zlen out)) <$> ts_row_accounts s in
          let '(items, a) := transforming_pages (MkTransformingSource (ts_stages s) a) batch_size pages in
          ((Ok <$> yield_page batch_size page out) ++ items, a)
      end
  end.

(** [is_filter]. *)
Definition is_filter (stage : CompiledStage) : bool := match stage with SFilter _ => true | _ => false end.

(** ** Positions survive the stages *)

(** The rows a reader of a stream holds when it sees each bookmark. *)
Fixpoint positions (before : list Value) (pages : list StreamPage) : list (list Value * Value) :=
  match pages with
  | [] => []
  | p :: pages =>
      let rows := before ++ sp_records p in
      match sp_bookmark p with Some b => [(rows, b)] | None => [] end ++ positions rows pages
  end.
Definition rows_of (pages : list StreamPage) : list Value := concat (sp_records <$> pages).

Lemma rows_of_app a b : rows_of (a ++ b) = rows_of a ++ rows_of b.
Proof. unfold rows_of. by rewrite fmap_app, concat_app. Qed.
Lemma positions_app before a b : positions before (a ++ b) = positions before a ++ positions (before ++ rows_of a) b.
Proof.
  revert before. induction a as [|p a IH]; intros before; [by rewrite app_nil_r|]. cbn [app positions]. rewrite IH, <- !app_assoc. by destruct (sp_bookmark p).
Qed.

Lemma yield_chunks_spec fuel effective rest : (0 < effective)%nat -> (length rest <= fuel)%nat ->
  let out := yield_chunks fuel effective rest None in
  rows_of out = rest /\ Forall (fun p => sp_bookmark p = None /\ (length (sp_records p) <= effective)%nat) out.
Proof.
  intros He. revert rest. induction fuel as [|fuel IH]; intros [|r rest] Hf; try done; [cbn in Hf; lia|].
  destruct effective as [|n]; [lia|]. cbn [yield_chunks]. destruct (IH (drop (S n) (r :: rest))) as [Hr Hl].
  { rewrite length_drop. cbn in *. lia. }
  split; [unfold rows_of in *; cbn [fmap list_fmap concat sp_records]; by rewrite Hr, take_drop|].
  constructor; [|done]. cbn [sp_bookmark sp_records]. split; [by destruct (is_nil _)|rewrite length_take; lia].
Qed.
Lemma no_positions before pages : Forall (fun p => sp_bookmark p = None) pages -> positions before pages = [].
Proof. intros Hf. revert before. induction Hf as [|p pages Hp _ IH]; intros before; [done|]. cbn. by rewrite Hp, IH. Qed.

(** One page: its rows, its bookmark with all of them before it, and no growth past the larger of the two sizes. *)
Lemma yield_page_spec batch_size page out : 0 <= batch_size ->
  let pages := yield_page batch_size page out in
  rows_of pages = out /\
  (forall before, positions before pages = match sp_bookmark page with Some b => [(before ++ out, b)] | None => [] end) /\
  Forall (fun p => match sp_bookmark p with
                   | Some _ => sp_bookmark p = sp_bookmark page /\ sp_records p = out
                   | None => batch_size = 0 \/ zlen (sp_records p) <= Z.max batch_size (zlen (sp_records page))
                   end) pages.
Proof.
  intros Hb. unfold yield_page. destruct (is_nil out) eqn:Hn.
  { destruct out; [|done]. split_and!; [done|intros before; cbn; by destruct (sp_bookmark page); rewrite ?app_nil_r|].
    constructor; [|done]. cbn. destruct (sp_bookmark page); [done|]. right. unfold zlen. cbn. lia. }
  assert (forall p, p = MkStreamPage out (sp_bookmark page) -> rows_of [p] = out /\
    (forall before, positions before [p] = match sp_bookmark page with Some b => [(before ++ out, b)] | None => [] end)) as Hone.
  { intros p ->. split; [unfold rows_of; cbn; by rewrite app_nil_r|]. intros before. cbn. by destruct (sp_bookmark page). }
  destruct ((batch_size =? 0) || is_some (sp_bookmark page)) eqn:Hw.
  { split_and!; [by apply Hone..|]. constructor; [|done]. cbn. apply orb_true_iff in Hw as [?%Z.eqb_eq|Hs]; destruct (sp_bookmark page); try done; by left. }
  apply orb_false_iff in Hw as [Hz%Z.eqb_neq Hs]. destruct (sp_bookmark page) as [b|] eqn:Eb; [done|].
  destruct (Z.leb_spec (zlen out) (Z.max batch_size (zlen (sp_records page)))).
  { split_and!; [by apply Hone..|]. constructor; [|done]. cbn. by right. }
  destruct (yield_chunks_spec (length out) (Z.to_nat (Z.max batch_size (zlen (sp_records page)))) out) as [Hr Hf]; [lia|done|].
  split_and!; [done| |].
  - intros before. apply no_positions. eapply Forall_impl; [exact Hf|]. by intros p [? _].
  - eapply Forall_impl; [exact Hf|]. intros p [-> Hl]. right. unfold zlen in *. lia.
Qed.

(** What one page becomes, for stages that run every record by itself. *)
Lemma apply_page records stages out : forallb per_record stages = true ->
  instrumented_apply_stages records stages = Ok out <-> run_stages records stages = Ok out.
Proof. intros Hp. unfold instrumented_apply_stages. by rewrite page_run. Qed.

Definition grown (batch_size : Z) (pages : list StreamPage) (stages : list CompiledStage) (p : StreamPage) : Prop :=
  exists page, page ∈ pages /\
    match sp_bookmark p with
    | Some _ => sp_bookmark p = sp_bookmark page /\ run_stages (sp_records page) stages = Ok (sp_records p)
    | None => batch_size = 0 \/ zlen (sp_records p) <= Z.max batch_size (zlen (sp_records page))
    end.

Lemma pages_transformed s batch_size pages all before before' : 0 <= batch_size -> forallb per_record (ts_stages s) = true ->
  run_stages (rows_of pages) (ts_stages s) = Ok all -> run_stages before (ts_stages s) = Ok before' ->
  exists outs, (transforming_pages s batch_size (Ok <$> pages)).1 = Ok <$> outs /\ rows_of outs = all /\
    Forall2 (fun i o => i.2 = o.2 /\ run_stages i.1 (ts_stages s) = Ok o.1) (positions before pages) (positions before' outs) /\
    Forall (grown batch_size pages (ts_stages s)) outs.
Proof.
  intros Hb Hp. revert s all before before' Hp. induction pages as [|page pages IH]; intros [stages acc] all before before' Hp Hall Hbef; cbn [ts_stages] in *.
  { exists []. split_and!; [done| |constructor|constructor]. assert (run_stages [] stages = Ok []) as E by (clear; induction stages; done).
    change (rows_of []) with (@nil Value) in Hall. rewrite E in Hall. by injection Hall as <-. }
  change (rows_of (page :: pages)) with (sp_records page ++ rows_of pages) in Hall. apply run_stages_app in Hall as (out & rest & Ho & Hr & ->).
  cbn [fmap list_fmap transforming_pages ts_stages]. rewrite (proj2 (apply_page _ _ _ Hp) Ho). destruct (yield_page_spec batch_size page out Hb) as (Hrows & Hpos & Hsz).
  assert (run_stages (before ++ sp_records page) stages = Ok (before' ++ out)) as Hbef' by (apply run_stages_app; eauto 10).
  set (s' := MkTransformingSource stages _). destruct (IH s' rest _ _ Hp Hr Hbef') as (outs & Eo & Er & Ep & Eg). change (ts_stages s') with stages in Ep, Eg. clearbody s'.
  destruct (transforming_pages s' batch_size (Ok <$> pages)) as [items a]. cbn [fst] in *. subst items.
  exists (yield_page batch_size page out ++ outs). rewrite fmap_app, rows_of_app, positions_app, Hrows, Er, Hpos. split_and!; [done|done| |].
  - cbn [positions]. destruct (sp_bookmark page); cbn [app]; [constructor; [done|]|]; exact Ep.
  - apply Forall_app. split; [|eapply Forall_impl; [exact Eg|]].
    + eapply Forall_impl; [exact Hsz|]. intros p Hsp. cbn beta in Hsp. exists page. split; [apply elem_of_cons; by left|]. destruct (sp_bookmark p); [|exact Hsp].
      destruct Hsp as [-> ->]. done.
    + intros p (q & Hq & Hx). exists q. split; [apply elem_of_cons; by right|done].
Qed.

(** C30: A wrapped source keeps the source's positions. For stages that run record by
    record, if the rows of a source's pages transform, the wrapped stream gives exactly
    what they become, in order; a reader that sees a bookmark then holds what the rows
    before it became, no more and no less, however the pages were cut; a page with a
    bookmark is the whole of what one source page became, and one without never grows
    past the larger of the batch size and its source page. *)
Theorem wrapped_positions_hold s batch_size pages all : 0 <= batch_size -> forallb per_record (ts_stages s) = true ->
  run_stages (rows_of pages) (ts_stages s) = Ok all ->
  exists outs, (transforming_pages s batch_size (Ok <$> pages)).1 = Ok <$> outs /\ rows_of outs = all /\
    Forall2 (fun i o => i.2 = o.2 /\ run_stages i.1 (ts_stages s) = Ok o.1) (positions [] pages) (positions [] outs) /\
    Forall (grown batch_size pages (ts_stages s)) outs.
Proof. intros Hb Hp Hall. apply pages_transformed; [done|done|done|]. clear. induction (ts_stages s); done. Qed.

(** A page that fails to transform ends the stream: what came before it was given out. *)
Theorem failed_page_ends_stream s batch_size pages outs page rest e :
  (transforming_pages s batch_size (Ok <$> pages)).1 = Ok <$> outs ->
  instrumented_apply_stages (sp_records page) (ts_stages s) = Err e ->
  (transforming_pages s batch_size ((Ok <$> pages) ++ Ok page :: rest)).1 = (Ok <$> outs) ++ [Err e].
Proof.
  revert s outs. induction pages as [|p pages IH]; intros [stages acc] outs; cbn [fmap list_fmap app transforming_pages ts_stages].
  { destruct outs; [|done]. intros _ ->. done. }
  destruct (instrumented_apply_stages (sp_records p) stages) as [out|err]; [|by destruct outs as [|? []]].
  match goal with |- context [transforming_pages ?x _ _] => specialize (IH x); set (s' := x) in * end. change (ts_stages s') with stages in IH. clearbody s'.
  destruct (transforming_pages s' batch_size (Ok <$> pages)) as [items a]. destruct (transforming_pages s' batch_size ((Ok <$> pages) ++ Ok page :: rest)) as [items' a'].
  cbn [fst] in *. intros Hok Hf. symmetry in Hok. apply fmap_app_inv in Hok as (o1 & o2 & E3 & E4 & ->). rewrite (IH o2) by done.
  by rewrite fmap_app, <- app_assoc, E3.
Qed.
End Wrapping.

(** Two copies of every row: a page without a bookmark is cut at its batch size, one with a bookmark is not. *)
Definition twice_source : TransformingSource (H := blank_env) := MkTransformingSource (H := blank_env) [SCustom (H := blank_env) (fun r => [r; r])] (Some RowAccounts_new).
Lemma wrapped_positions_hold_witness :
  let pages := [MkStreamPage [of_u64 1] None; MkStreamPage [of_u64 2] (Some (of_u64 9))] in
  (transforming_pages (H := blank_env) twice_source 1 (Ok <$> pages)).1 =
    Ok <$> [MkStreamPage [of_u64 1] None; MkStreamPage [of_u64 1] None; MkStreamPage [of_u64 2; of_u64 2] (Some (of_u64 9))] /\
  exists outs, (transforming_pages (H := blank_env) twice_source 1 (Ok <$> pages)).1 = Ok <$> outs /\ rows_of outs = [of_u64 1; of_u64 1; of_u64 2; of_u64 2] /\
    Forall2 (fun i o => i.2 = o.2 /\ run_stages (H := blank_env) i.1 (ts_stages twice_source) = Ok o.1) (positions [] pages) (positions [] outs) /\
    Forall (grown (H := blank_env) 1 pages (ts_stages twice_source)) outs.
Proof.
  intros pages. split; [vm_compute; reflexivity|].
  apply (wrapped_positions_hold (H := blank_env) twice_source 1 pages [of_u64 1; of_u64 1; of_u64 2; of_u64 2]); [lia|reflexivity|vm_compute; reflexivity].
Defined.
