(* ===== verification/Memory.v ===== *)
(** An in-memory environment: a sink that commits idempotent pages together with
    their watermark, a dead-letter sink and a one-key state store. A script of
    faults decides which calls fail, before or after they take effect. It
    implements the backends for concrete runs and shows that the contracts the
    engine relies on can be met. *)
From S2P Require Import Prelude Errors Json Accounting Dlq Drift Engine.

Local Open Scope Z_scope.

(** How the next call ends: normally, refused, or done with the reply lost. *)
Inductive fault := NoFault | Refused | ReplyLost.

Record mem := MkMem {
  m_rows : list Value;
  m_dead : list Value;
  m_mark : option string;
  m_state : option Value;
  m_pos : option Value;
  m_script : list fault;
}.

Definition mem0 (script : list fault) : mem := MkMem [] [] None None None script.

Definition set_script (m : mem) (s : list fault) : mem :=
  MkMem (m_rows m) (m_dead m) (m_mark m) (m_state m) (m_pos m) s.

(** A call with effect [eff] under the script. *)
Definition mem_op {A} (eff : mem -> A * mem) : @backend mem A := fun m =>
  match m_script m with
  | Refused :: s => ((Err (Sink "refused"), 1), set_script m s)
  | ReplyLost :: s => ((Err (HttpStatus 503 "url" "reply lost"), 1), (eff (set_script m s)).2)
  | s => let '(a, m') := eff (set_script m (tail s)) in ((Ok a, 1), m')
  end.

Definition mem_ask {A} (f : mem -> A) : @backend mem A := mem_op (fun m => (f m, m)).
Definition mem_nop : @backend mem unit := mem_ask (fun _ => tt).

Definition append_rows (rows : list Value) (m : mem) : mem :=
  MkMem (m_rows m ++ rows) (m_dead m) (m_mark m) (m_state m) (m_pos m) (m_script m).
Definition append_dead (rows : list Value) (m : mem) : mem :=
  MkMem (m_rows m) (m_dead m ++ rows) (m_mark m) (m_state m) (m_pos m) (m_script m).
Definition set_mark (t : string) (m : mem) : mem :=
  MkMem (m_rows m) (m_dead m) (Some t) (m_state m) (m_pos m) (m_script m).
Definition set_state (v : option Value) (m : mem) : mem :=
  MkMem (m_rows m) (m_dead m) (m_mark m) v (m_pos m) (m_script m).
Definition set_pos (v : Value) (m : mem) : mem :=
  MkMem (m_rows m) (m_dead m) (m_mark m) (m_state m) (Some v) (m_script m).

(** The main sink. [idempotent], [replay_safe] and [overwrite] are its flags, and
    [accepts] decides the outcome of each row of a partial write. *)
Definition mem_sink (idempotent replay_safe overwrite : bool) (accepts : Value -> RowOutcome) : SinkOps mem :=
  let write rows := mem_op (fun m => (report_accepted (zlen rows), append_rows rows m)) in
  MkSinkOps "memory" idempotent false replay_safe overwrite PerRow
    write write
    (fun rows => mem_op (fun m =>
       (accepts <$> rows, append_rows (filter (fun r => Is_true (is_ok (accepts r))) rows) m)))
    (fun _ => mem_nop)
    (fun rows _ token => mem_op (fun m =>
       (report_accepted (zlen rows), set_mark token (append_rows rows m))))
    (fun _ => mem_ask m_mark) mem_nop (mem_ask (fun _ => None)) (fun _ => mem_nop)
    mem_nop mem_nop mem_nop mem_nop.

(** The dead-letter sink. *)
Definition mem_dead : SinkOps mem :=
  let write rows := mem_op (fun m => (report_accepted (zlen rows), append_dead rows m)) in
  MkSinkOps "memory-dlq" false false false false PerRow
    write write
    (fun rows => mem_op (fun m => ((fun _ => Ok tt) <$> rows, append_dead rows m)))
    (fun _ => mem_nop)
    (fun rows _ _ => mem_op (fun m => (report_accepted (zlen rows), append_dead rows m)))
    (fun _ => mem_ask (fun _ => None)) mem_nop (mem_ask (fun _ => None)) (fun _ => mem_nop)
    mem_nop mem_nop mem_nop mem_nop.

(** The state store, of the one key a run uses. *)
Definition mem_store : StoreOps mem :=
  MkStoreOps (fun _ => mem_ask m_state)
    (fun _ v => mem_op (fun m => (tt, set_state (Some v) m)))
    (fun _ => mem_op (fun m => (tt, set_state None m)))
    (fun _ expected v => mem_op (fun m =>
       if decide (m_state m = expected) then (true, set_state (Some v) m) else (false, m))).

(** A run of engine code from an environment. *)
Definition start (m : mem) : st mem :=
  MkSt m 0 None 0 (Some RowAccounts_new) BatchOutcomeCounters_new [].

(** ** Facts *)

(** A call either took effect (and then may have lost its reply) or was refused. *)
Lemma mem_op_inv {A} (eff : mem -> A * mem) m r d m' :
  mem_op eff m = ((r, d), m') ->
  exists s, (m' = (eff (set_script m s)).2 /\ (forall a, r = Ok a -> a = (eff (set_script m s)).1)) \/
            (m' = set_script m s /\ is_ok r = false).
Proof.
  unfold mem_op. destruct (m_script m) as [|[] s]; intros H.
  - exists []. left. simpl in H. destruct (eff _); simplify_eq. split; [done|]. naive_solver.
  - exists s. left. simpl in H. destruct (eff _); simplify_eq. split; [done|]. naive_solver.
  - exists s. right. simplify_eq. done.
  - exists s. left. simplify_eq. split; [done|]. naive_solver.
Qed.
