(* ===== verification/Cleanup.v ===== *)
(** Scoped cleanup (crates/core/src/cleanup.rs and its place in [Pipeline::run],
    crates/core/src/pipeline.rs): the policy, the keys a run wrote, the store that holds
    a complete read's bookmarks back, and the delete after the run.

    The tracker sees the writes of a run in order, each with its reply and with the
    state of the source's read signal at the time. The sink's delete and the inner
    store's put are functions of an arbitrary environment. *)
From S2P Require Import Prelude Errors Float64 Json Text WriteMode Engine.

Local Open Scope Z_scope.

Definition DEFAULT_COMPLETE_READ_MAX_KEYS : Z := 1000000.
Definition DEFAULT_MAX_KEYS : Z := 100000.
Inductive CleanupTrigger := Always | CompleteRead.
Inductive ReadState := ReadPartial | ReadingAll | ReadComplete.
#[export] Instance CleanupTrigger_eq_dec : EqDecision CleanupTrigger.
Proof. solve_decision. Defined.
#[export] Instance ReadState_eq_dec : EqDecision ReadState.
Proof. solve_decision. Defined.
Record ReadCompleteness := MkReadCompleteness { rc_state : ReadState; rc_max_keys : option Z }.
Definition ReadCompleteness_new : ReadCompleteness := MkReadCompleteness ReadPartial None.
Definition with_max_keys (max_keys : Z) (r : ReadCompleteness) : ReadCompleteness := MkReadCompleteness (rc_state r) (Some (Z.max max_keys 1)).

Record CleanupPolicy := MkCleanupPolicy {
  cp_scope : list (string * Value);
  cp_key : list string;
  cp_max_keys : Z;
  cp_trigger : CleanupTrigger;
}.
Definition CleanupPolicy_new (scope : list (string * Value)) (key : list string) (max_keys : Z) : result CleanupPolicy FaucetError :=
  if is_nil scope then
    Err (Config "cleanup: the completeness claim (`complete_for`) must name at least one column — an empty scope would match every row in the destination")
  else if is_nil key then Err (Config "cleanup: requires a non-empty `key` so a written row can be told apart from a stale one")
  else if existsb (fun e => is_null e.2) scope then
    Err (Config "cleanup: the completeness claim contains a null value — an unresolved scope token would delete the wrong rows")
  else Ok (MkCleanupPolicy scope key (Z.max max_keys 1) Always).
Definition for_complete_read (key : list string) (max_keys : Z) : result CleanupPolicy FaucetError :=
  if is_nil key then
    Err (Config "cleanup: a complete-read cleanup requires a non-empty `key` so a written row can be told apart from a deleted one")
  else Ok (MkCleanupPolicy [] key (Z.max max_keys 1) CompleteRead).

(** ** The keys a run wrote *)

Record SeenKeys := MkSeenKeys { sk_keys : list KeyTuple; sk_seen : gset string; sk_overflowed : bool }.
Definition SeenKeys_new : SeenKeys := MkSeenKeys [] ∅ false.

Section Keys.
Context (json_str : string -> string) (float_str : f64 -> string).

Definition canonical_key_text (tuple : KeyTuple) : string :=
  "[" +:+ String.concat "," ((fun e => json_str (canonical_json json_str float_str e.2)) <$> tuple) +:+ "]".
(** The key columns of a row, unless one is missing or null. *)
Fixpoint tuple_of (obj : list (string * Value)) (key : list string) : option KeyTuple :=
  match key with
  | [] => Some []
  | k :: key =>
      match assoc k obj with
      | Some v => if is_null v then None else (fun t => (k, v) :: t) <$> tuple_of obj key
      | None => None
      end
  end.
Definition row_tuple (key : list string) (rec : Value) : option KeyTuple := obj ← as_object rec; tuple_of obj key.
Fixpoint record_rows (page : list Value) (key : list string) (max_keys : Z) (s : SeenKeys) : SeenKeys :=
  match page with
  | [] => s
  | rec :: page =>
      match row_tuple key rec with
      | None => record_rows page key max_keys s
      | Some tuple =>
          let canonical := canonical_key_text tuple in
          if bool_decide (canonical ∈ sk_seen s) then record_rows page key max_keys s
          else if max_keys <=? zlen (sk_keys s) then MkSeenKeys [] ∅ true
          else record_rows page key max_keys (MkSeenKeys (sk_keys s ++ [tuple]) ({[canonical]} ∪ sk_seen s) (sk_overflowed s))
      end
  end.
Definition record_page (page : list Value) (key : list string) (max_keys : Z) (s : SeenKeys) : SeenKeys :=
  if sk_overflowed s then s else record_rows page key max_keys s.
Definition overflow_error (max_keys : Z) : FaucetError :=
  Sink ("cleanup: this invocation wrote more than " +:+ dec max_keys
    +:+ " rows in the claimed scope, so the set of written keys could not be tracked. Nothing was deleted — a partial delete would remove rows the run actually wrote. Narrow the scope (a smaller `complete_for`), or raise the ceiling if the destination can take a delete of this size").

(** A write that passed through the tracker: [write_batch_partial] is counted whatever
    it answered, the others when they succeeded. *)
Record tracked_write := MkTracked { tw_records : list Value; tw_partial : bool; tw_ok : bool; tw_gate : option ReadState }.
Definition counted (w : tracked_write) : bool := (tw_partial w || tw_ok w) && negb (bool_decide (tw_gate w = Some ReadPartial)).
Definition tracker_write (policy : CleanupPolicy) (s : SeenKeys) (w : tracked_write) : SeenKeys :=
  if counted w then record_page (tw_records w) (cp_key policy) (cp_max_keys policy) s else s.
Definition tracker_run (policy : CleanupPolicy) (ws : list tracked_write) : SeenKeys := foldl (tracker_write policy) SeenKeys_new ws.

(** ** After the stream *)

(** The policy [Pipeline::run] applies: without the source's signal a complete-read
    policy never fires, and the source's own ceiling wins. *)
Definition effective_policy (policy : option CleanupPolicy) (complete_read : option ReadCompleteness) : option CleanupPolicy :=
  p ← policy;
  if bool_decide (cp_trigger p = CompleteRead) then
    s ← complete_read;
    Some (match rc_max_keys s with Some max => MkCleanupPolicy (cp_scope p) (cp_key p) max (cp_trigger p) | None => p end)
  else Some p.
Definition read_signal (policy : option CleanupPolicy) (read_completeness : option ReadCompleteness) : option ReadCompleteness :=
  p ← policy; if bool_decide (cp_trigger p = CompleteRead) then read_completeness else None.

Definition cleanup_supported (policy : option CleanupPolicy) (supports_cleanup : bool) (connector : string) : result unit FaucetError :=
  match policy with
  | Some _ => if supports_cleanup then Ok tt else Err (Config ("cleanup is configured but sink '" +:+ connector +:+ "' does not support scoped cleanup"))
  | None => Ok tt
  end.

Context {E : Type} (cleanup_scope : list (string * Value) -> list KeyTuple -> E -> result Z FaucetError * E) (inner_put : string -> Value -> E -> result unit FaucetError * E).

(** [CleanupTracker::finish]. *)
Definition tracker_finish (policy : CleanupPolicy) (s : SeenKeys) (e : E) : result Z FaucetError * E :=
  if sk_overflowed s then (Err (overflow_error (cp_max_keys policy)), e) else cleanup_scope (cp_scope policy) (sk_keys s) e.

(** [HoldingStateStore::release]: the held bookmarks in key order. *)
Fixpoint release_held (held : list (string * Value)) (e : E) : result unit FaucetError * E :=
  match held with
  | [] => (Ok tt, e)
  | (key, value) :: held =>
      match inner_put key value e with
      | (Ok _, e) => release_held held e
      | (Err x, e) => (Err x, e)
      end
  end.
Definition complete_read_overflow_error (max_keys : Z) : FaucetError :=
  Sink ("cleanup: the complete read wrote more than " +:+ dec max_keys
    +:+ " distinct keys, so it could not tell which destination rows are absent from the source. Nothing was deleted, and the run's position was saved so the next run resumes instead of reading the whole dataset again; destination rows of items deleted at the source are kept. Raise the source's complete-read key ceiling (DynamoDB: `resnapshot_max_keys`) or rebuild the destination with an overwrite snapshot to remove them").

(** What follows [run_stream_with] when a policy applies: [read_state] is the signal at
    the end, [holding] the bookmarks held back. *)
Definition after_stream {R} (policy : CleanupPolicy) (s : SeenKeys) (read_state : option ReadState) (holding : option (list (string * Value)))
  (cancelled : bool) (res : result R FaucetError) (e : E) : result R FaucetError * E :=
  match res with
  | Err x => (Err x, e)
  | Ok r =>
      if cancelled then (Ok r, e)
      else if match read_state with Some st => negb (bool_decide (st = ReadComplete)) | None => false end then (Ok r, e)
      else
        match tracker_finish policy s e with
        | (Ok _, e) =>
            match holding with
            | Some held => match release_held held e with (Ok _, e) => (Ok r, e) | (Err x, e) => (Err x, e) end
            | None => (Ok r, e)
            end
        | (Err x, e) =>
            match sk_overflowed s, holding with
            | true, Some held =>
                match release_held held e with
                | (Ok _, e) => (Err (complete_read_overflow_error (cp_max_keys policy)), e)
                | (Err x, e) => (Err x, e)
                end
            | _, _ => (Err x, e)
            end
        end
  end.
End Keys.

(** ** Holding bookmarks back *)

(** [HoldingStateStore] over an inner store that answers as a map: what it holds and the
    inner store. *)
Record holding := MkHolding { h_held : gmap string Value; h_inner : gmap string Value }.
Inductive store_op := OpPut (key : string) (v : Value) | OpDelete (key : string).
Definition holding_get (h : holding) (key : string) : option Value :=
  match h_held h !! key with Some v => Some v | None => h_inner h !! key end.
Definition holding_step (signal : ReadState) (h : holding) (op : store_op) : holding :=
  match op with
  | OpPut key v =>
      if bool_decide (signal = ReadPartial) then MkHolding (h_held h) (<[key := v]> (h_inner h))
      else MkHolding (<[key := v]> (h_held h)) (h_inner h)
  | OpDelete key => MkHolding (delete key (h_held h)) (delete key (h_inner h))
  end.
Definition holding_release (h : holding) : holding := MkHolding ∅ (h_held h ∪ h_inner h).

(** ** What is tracked *)

Section Exact.
Context (json_str : string -> string) (float_str : f64 -> string).
Notation canonical_key_text := (canonical_key_text json_str float_str).
(** The text of a row's key, and the keys of a list of rows. *)
Definition row_text (key : list string) (row : Value) : option string := canonical_key_text <$> row_tuple key row.
Definition texts (key : list string) (rows : list Value) : gset string := list_to_set (omap (row_text key) rows).
Definition tracked_rows (ws : list tracked_write) : list Value := concat (tw_records <$> List.filter counted ws).
(** Every row handed to the sink, whatever it answered; for a complete read, those since the read
    began. *)
Definition handed_rows (ws : list tracked_write) : list Value :=
  concat (tw_records <$> List.filter (fun w => negb (bool_decide (tw_gate w = Some ReadPartial))) ws).
(** The rows of writes that failed as a whole and were not handed over again since. *)
Definition unrepeated (ws : list tracked_write) : list Value :=
  foldl (fun p w => if tw_partial w || tw_ok w then filter (fun row => row ∉ tw_records w) p else p ++ tw_records w) [] ws.
(** Once a complete read has begun it does not turn back into a partial one. *)
Fixpoint gates_onward (ws : list tracked_write) : Prop :=
  match ws with
  | [] => True
  | w :: ws => (tw_gate w <> Some ReadPartial -> Forall (fun w' => tw_gate w' <> Some ReadPartial) ws) /\ gates_onward ws
  end.

(** Where every failed write was repeated, the rows counted are the rows handed over. *)
Lemma gates_onward_app a b : gates_onward (a ++ b) ->
  gates_onward a /\ gates_onward b /\ (Exists (fun w => tw_gate w <> Some ReadPartial) a -> Forall (fun w => tw_gate w <> Some ReadPartial) b).
Proof.
  induction a as [|w a IH]; cbn [app gates_onward]; [intros H; split_and!; [done|done|]; by intros []%Exists_nil|].
  intros [H1 H2]. destruct (IH H2) as (Ha & Hb & Hab). split_and!; [|done|done|].
  - intros Hw. by apply Forall_app in H1 as [? _].
  - intros [Hw|Hw]%Exists_cons; [|by apply Hab]. by apply Forall_app in H1 as [_ ?].
Qed.
Lemma handed_rows_app a b : handed_rows (a ++ b) = handed_rows a ++ handed_rows b.
Proof. unfold handed_rows. by rewrite List.filter_app, fmap_app, concat_app. Qed.
Lemma tracked_rows_app a b : tracked_rows (a ++ b) = tracked_rows a ++ tracked_rows b.
Proof. unfold tracked_rows. by rewrite List.filter_app, fmap_app, concat_app. Qed.
Lemma handed_or_pending ws row : gates_onward ws -> row ∈ handed_rows ws ->
  row ∈ tracked_rows ws \/ (row ∈ unrepeated ws /\ Exists (fun w => tw_gate w <> Some ReadPartial) ws).
Proof.
  induction ws as [|w ws IH] using rev_ind; intros Hg Hh; [by apply not_elem_of_nil in Hh|].
  apply gates_onward_app in Hg as (Hg & _ & Hnext). rewrite handed_rows_app in Hh. rewrite tracked_rows_app.
  unfold unrepeated. rewrite foldl_snoc. fold (unrepeated ws).
  assert (tw_gate w <> Some ReadPartial -> handed_rows [w] = tw_records w) as Hhand.
  { intros H. unfold handed_rows. cbn [List.filter]. rewrite bool_decide_eq_false_2 by done. cbn. by rewrite app_nil_r. }
  assert (tw_partial w || tw_ok w = true -> tw_gate w <> Some ReadPartial -> tracked_rows [w] = tw_records w) as Htrack.
  { intros H1 H2. unfold tracked_rows. cbn [List.filter]. unfold counted. rewrite H1, bool_decide_eq_false_2 by done. cbn. by rewrite app_nil_r. }
  apply elem_of_app in Hh as [Hh|Hh].
  - destruct (IH Hg Hh) as [Ht|[Hp Hex]]; [left; apply elem_of_app; by left|]. pose proof (Hnext Hex) as Hw. rewrite Forall_singleton in Hw.
    destruct (tw_partial w || tw_ok w) eqn:Ew.
    + destruct (decide (row ∈ tw_records w)) as [Hr|Hr]; [left; apply elem_of_app; right; by rewrite Htrack|right].
      split; [by apply list_elem_of_filter|]. apply Exists_app. by left.
    + right. split; [apply elem_of_app; by left|]. apply Exists_app. by left.
  - destruct (decide (tw_gate w = Some ReadPartial)) as [Hw|Hw].
    { unfold handed_rows in Hh. cbn [List.filter] in Hh. rewrite bool_decide_eq_true_2 in Hh by done. by apply not_elem_of_nil in Hh. }
    rewrite Hhand in Hh by done. destruct (tw_partial w || tw_ok w) eqn:Ew; [left; apply elem_of_app; right; by rewrite Htrack|].
    right. split; [apply elem_of_app; by right|]. apply Exists_app. right. by constructor.
Qed.
Lemma tracked_is_handed ws row : row ∈ tracked_rows ws -> row ∈ handed_rows ws.
Proof.
  unfold tracked_rows, handed_rows. rewrite !list_elem_of_In, !in_concat. intros (l & Hl & Hr). exists l. split; [|done]. revert Hl.
  rewrite <- !list_elem_of_In, !list_elem_of_fmap. intros (w & -> & Hw). exists w. split; [done|]. revert Hw. rewrite !list_elem_of_In, !List.filter_In.
  unfold counted. intros [? [_ ?]%andb_true_iff]. done.
Qed.
Lemma handed_texts key ws : unrepeated ws = [] -> gates_onward ws -> texts key (handed_rows ws) = texts key (tracked_rows ws).
Proof.
  intros Hu Hg. unfold texts. apply set_eq. intros t. rewrite !elem_of_list_to_set, !list_elem_of_omap.
  split; intros (row & Hr & Ht); exists row; (split; [|done]); [|by apply tracked_is_handed].
  destruct (handed_or_pending ws row Hg Hr) as [?|[H _]]; [done|]. rewrite Hu in H. by apply not_elem_of_nil in H.
Qed.

(** The tracker holds exactly the keys of the rows it counted, or has given up because
    there are more of them than its ceiling. *)
Definition tracks (key : list string) (max_keys : Z) (rows : list Value) (s : SeenKeys) : Prop :=
  if sk_overflowed s then max_keys < Z.of_nat (size (texts key rows))
  else sk_seen s = texts key rows /\ list_to_set (canonical_key_text <$> sk_keys s) = texts key rows /\
       length (sk_keys s) = size (texts key rows) /\ Z.of_nat (size (texts key rows)) <= max_keys.

Lemma texts_app key a b : texts key (a ++ b) = texts key a ∪ texts key b.
Proof. unfold texts. by rewrite omap_app, list_to_set_app_L. Qed.
Lemma texts_one key row : texts key [row] = match row_text key row with Some t => {[t]} | None => ∅ end.
Proof. unfold texts. cbn. destruct (row_text key row); set_solver. Qed.
Lemma texts_grow key a b : (size (texts key a) <= size (texts key (a ++ b)))%nat.
Proof. apply subseteq_size. rewrite texts_app. set_solver. Qed.

Lemma record_rows_tracks page key max_keys rows s : sk_overflowed s = false -> tracks key max_keys rows s ->
  tracks key max_keys (rows ++ page) (record_rows json_str float_str page key max_keys s).
Proof.
  revert rows s. induction page as [|rec page IH]; intros rows s Ho Hs; cbn [record_rows]; [by rewrite app_nil_r|].
  rewrite (cons_middle rec rows page), app_assoc. pose proof (texts_app key rows [rec]) as Happ. rewrite texts_one in Happ. unfold row_text in Happ.
  pose proof Hs as Hs'. unfold tracks in Hs'. rewrite Ho in Hs'. destruct Hs' as (Hseen & Hkeys & Hlen & Hmax).
  destruct (row_tuple key rec) as [tuple|]; cbn [fmap option_fmap option_map] in Happ.
  2: { apply IH; [done|]. unfold tracks in *. rewrite Ho in *. rewrite Happ, union_empty_r_L. done. }
  set (t := canonical_key_text tuple) in *. case_bool_decide as Hin.
  { apply IH; [done|]. unfold tracks in *. rewrite Ho in *. assert (texts key rows ∪ {[t]} = texts key rows) as Hsame by (rewrite <- Hseen; set_solver). by rewrite Happ, Hsame. }
  assert (t ∉ texts key rows) as Hnew by (by rewrite <- Hseen).
  assert (size (texts key (rows ++ [rec])) = S (size (texts key rows))) as Hsize by (rewrite Happ, size_union, size_singleton by set_solver; lia).
  destruct (Z.leb_spec max_keys (zlen (sk_keys s))) as [Hle|Hgt].
  - unfold tracks. cbn [sk_overflowed]. pose proof (texts_grow key (rows ++ [rec]) page). unfold zlen in Hle. lia.
  - apply IH; [done|]. unfold tracks. cbn [sk_overflowed sk_seen sk_keys]. rewrite Ho. split; [rewrite Happ, Hseen; set_solver|]. split; [|split].
    + rewrite fmap_app, list_to_set_app_L, Hkeys, Happ. fold t. cbn. set_solver.
    + rewrite length_app, Hsize, Hlen. cbn. lia.
    + rewrite Hsize. unfold zlen in Hgt. lia.
Qed.
Lemma tracker_write_tracks policy rows s w : tracks (cp_key policy) (cp_max_keys policy) rows s ->
  tracks (cp_key policy) (cp_max_keys policy) (rows ++ (if counted w then tw_records w else [])) (tracker_write json_str float_str policy s w).
Proof.
  intros Hs. unfold tracker_write. destruct (counted w); [|by rewrite app_nil_r]. unfold record_page. destruct (sk_overflowed s) eqn:Eo; [|by apply record_rows_tracks].
  unfold tracks in *. rewrite Eo in *. pose proof (texts_grow (cp_key policy) rows (tw_records w)). lia.
Qed.
Lemma tracker_run_tracks policy ws : 0 <= cp_max_keys policy -> tracks (cp_key policy) (cp_max_keys policy) (tracked_rows ws) (tracker_run json_str float_str policy ws).
Proof.
  intros Hmax. unfold tracker_run. induction ws as [|w ws IH] using rev_ind.
  - unfold tracks. cbn [tracker_run foldl SeenKeys_new sk_overflowed]. change (texts (cp_key policy) (tracked_rows [])) with (∅ : gset string). rewrite size_empty. done.
  - rewrite foldl_snoc. apply (tracker_write_tracks policy _ _ w) in IH. unfold tracked_rows in *. rewrite List.filter_app, fmap_app, concat_app. cbn [List.filter].
    destruct (counted w); cbn; rewrite ?app_nil_r in *; done.
Qed.

(** ** What is deleted *)

Definition in_scope (scope : list (string * Value)) (row : Value) : Prop := forall c v, (c, v) ∈ scope -> (as_object row ≫= assoc c) = Some v.
(** What a destination promises of its scoped delete: it adds nothing, deletes only rows
    in the scope whose key is not among the keys it is given, deletes all of those that
    have a key, and an error deletes nothing. *)
Record cleans {E} (cleanup_scope : list (string * Value) -> list KeyTuple -> E -> result Z FaucetError * E) (table : E -> list Value) (key : list string) : Prop := {
  cl_adds_nothing : forall sc ks e row, row ∈ table (cleanup_scope sc ks e).2 -> row ∈ table e;
  cl_only_missing : forall sc ks e row, row ∈ table e -> row ∉ table (cleanup_scope sc ks e).2 ->
    is_ok (cleanup_scope sc ks e).1 = true /\ in_scope sc row /\ forall t, row_text key row = Some t -> t ∉ canonical_key_text <$> ks;
  cl_all_missing : forall sc ks e row t, is_ok (cleanup_scope sc ks e).1 = true -> row ∈ table e -> in_scope sc row -> row_text key row = Some t ->
    t ∉ canonical_key_text <$> ks -> row ∉ table (cleanup_scope sc ks e).2;
}.
(** When the delete may run. *)
Definition may_delete {R} (res : result R FaucetError) (cancelled : bool) (read_state : option ReadState) : Prop :=
  is_ok res = true /\ cancelled = false /\ (read_state = None \/ read_state = Some ReadComplete).

Section Deletes.
Context {E : Type} (cleanup_scope : list (string * Value) -> list KeyTuple -> E -> result Z FaucetError * E) (inner_put : string -> Value -> E -> result unit FaucetError * E).
Context (table : E -> list Value) (Hput : forall k v e, table (inner_put k v e).2 = table e).

Lemma release_table held e : table (release_held inner_put held e).2 = table e.
Proof.
  revert e. induction held as [|[k v] held IH]; intros e; cbn [release_held]; [done|]. specialize (Hput k v e).
  destruct (inner_put k v e) as [[]]; cbn in *; [by rewrite IH|done].
Qed.
(** The table after the stream: untouched, or what the delete left of it. *)
Lemma after_stream_table {R} policy s read_state held cancelled (res : result R FaucetError) e r e' :
  after_stream cleanup_scope inner_put policy s read_state held cancelled res e = (r, e') ->
  table e' = table e /\ (is_ok r = true -> ~ may_delete res cancelled read_state) \/
  may_delete res cancelled read_state /\ sk_overflowed s = false /\
  table e' = table (cleanup_scope (cp_scope policy) (sk_keys s) e).2 /\ (is_ok r = true -> is_ok (cleanup_scope (cp_scope policy) (sk_keys s) e).1 = true).
Proof.
  unfold after_stream, may_delete. destruct res as [x|x]; [|intros [= <- <-]; left; done]. destruct cancelled; [intros [= <- <-]; left; naive_solver|].
  destruct (match read_state with Some st => _ | None => _ end) eqn:Eread.
  { intros [= <- <-]. left. split; [done|]. intros _ (_ & _ & [->| ->]); [done|]. by rewrite bool_decide_eq_true_2 in Eread. }
  assert (read_state = None \/ read_state = Some ReadComplete) as Hread by (destruct read_state as [st|]; [right; apply negb_false_iff, bool_decide_eq_true in Eread; by subst|by left]).
  unfold tracker_finish. destruct (sk_overflowed s) eqn:Eo.
  - destruct held as [held|]; [|intros [= <- <-]; by left]. pose proof (release_table held e) as Hr. destruct (release_held inner_put held e) as [[] e1]; intros [= <- <-]; by left.
  - intros H. right. split; [done|]. split; [done|]. destruct (cleanup_scope (cp_scope policy) (sk_keys s) e) as [[n|y] e1].
    + destruct held as [held|]; [|injection H as <- <-; done]. pose proof (release_table held e1) as Hr. destruct (release_held inner_put held e1) as [[] e2]; injection H as <- <-; done.
    + destruct held; injection H as <- <-; done.
Qed.
End Deletes.
End Exact.

(** The scoped delete removes exactly the rows whose key was not tracked. *)
Lemma cleanup_removes_the_untracked {E R} json_str float_str cleanup_scope inner_put (table : E -> list Value) policy ws read_state held cancelled
  (res : result R FaucetError) e r e' :
  0 <= cp_max_keys policy -> cleans json_str float_str cleanup_scope table (cp_key policy) -> (forall k v e, table (inner_put k v e).2 = table e) ->
  after_stream cleanup_scope inner_put policy (tracker_run json_str float_str policy ws) read_state held cancelled res e = (r, e') ->
  let written := texts json_str float_str (cp_key policy) (tracked_rows ws) in
  (forall row, row ∈ table e' -> row ∈ table e) /\
  (forall row, row ∈ table e -> row ∉ table e' ->
     may_delete res cancelled read_state /\ Z.of_nat (size written) <= cp_max_keys policy /\ in_scope (cp_scope policy) row /\
     forall t, row_text json_str float_str (cp_key policy) row = Some t -> t ∉ written) /\
  (is_ok r = true -> may_delete res cancelled read_state -> forall row t, row ∈ table e' -> in_scope (cp_scope policy) row ->
     row_text json_str float_str (cp_key policy) row = Some t -> t ∈ written).
Proof.
  intros Hmax Hcl Hput Hafter written. pose proof (tracker_run_tracks json_str float_str policy ws Hmax) as Ht. unfold tracks in Ht. fold written in Ht.
  apply after_stream_table with (table := table) in Hafter as [[Htab Hno]|(Hmay & Eo & Htab & Hok)]; [..|done].
  - rewrite Htab. split; [done|]. split; [done|]. intros Hr Hm. by destruct (Hno Hr).
  - rewrite Eo in Ht. destruct Ht as (_ & Hkeys & _ & Hsize). rewrite Htab.
    assert (forall t, t ∈ written <-> t ∈ canonical_key_text json_str float_str <$> sk_keys (tracker_run json_str float_str policy ws)) as Hw by (intros t; rewrite <- Hkeys; apply elem_of_list_to_set).
    split; [intros row; apply (cl_adds_nothing _ _ _ _ _ Hcl)|]. split.
    + intros row Hin Hout. destruct (cl_only_missing _ _ _ _ _ Hcl _ _ _ _ Hin Hout) as (_ & Hsc & Hk). split; [done|]. split; [done|]. split; [done|]. intros t Hrow. rewrite Hw. auto.
    + intros Hr _ row t Hin Hsc Hrow. destruct (decide (t ∈ written)) as [|Hn]; [done|]. exfalso. rewrite Hw in Hn.
      eapply (cl_all_missing _ _ _ _ _ Hcl); [by apply Hok| | | | |exact Hin]; eauto. by apply (cl_adds_nothing _ _ _ _ _ Hcl) in Hin.
Qed.

(** A destination that keeps its rows in a list. *)
Definition keeps (key : list string) (sc : list (string * Value)) (ks : list KeyTuple) (row : Value) : bool :=
  negb (forallb (fun p => bool_decide ((as_object row ≫= assoc p.1) = Some p.2)) sc) ||
  match row_text (fun s => s) (fun _ => EmptyString) key row with Some t => bool_decide (t ∈ canonical_key_text (fun s => s) (fun _ => EmptyString) <$> ks) | None => false end.
Definition list_cleanup (key : list string) (sc : list (string * Value)) (ks : list KeyTuple) (e : list Value) : result Z FaucetError * list Value :=
  (Ok (zlen e - zlen (List.filter (keeps key sc ks) e)), List.filter (keeps key sc ks) e).
Lemma list_cleanup_cleans key : cleans (fun s => s) (fun _ => EmptyString) (list_cleanup key) (fun e => e) key.
Proof.
  assert (forall sc row, forallb (fun p => bool_decide ((as_object row ≫= assoc p.1) = Some p.2)) sc = true <-> in_scope sc row) as Hsc.
  { intros sc row. rewrite forallb_forall. unfold in_scope. split.
    - intros H c v Hin%list_elem_of_In. specialize (H _ Hin). by apply bool_decide_eq_true in H.
    - intros H [c v] Hin. apply bool_decide_eq_true. by apply H, list_elem_of_In. }
  assert (forall sc ks e row, row ∈ (list_cleanup key sc ks e).2 <-> row ∈ e /\ keeps key sc ks row = true) as Hin'.
  { intros sc ks e row. cbn [list_cleanup snd]. by rewrite !list_elem_of_In, List.filter_In. }
  split; intros sc ks e row.
  - rewrite Hin'. tauto.
  - rewrite Hin'. intros Hin Hout. assert (keeps key sc ks row = false) as Hk by (destruct (keeps key sc ks row); tauto). unfold keeps in Hk. apply orb_false_iff in Hk as [H1 H2].
    apply negb_false_iff in H1. split; [done|]. split; [by apply Hsc|]. intros t Ht. rewrite Ht in H2. by apply bool_decide_eq_false in H2.
  - intros t _ _ H1%Hsc Ht Hn [_ Hk]%Hin'. unfold keeps in Hk. rewrite H1, Ht in Hk. cbn [negb orb] in Hk. by apply bool_decide_eq_true in Hk.
Qed.

(** ** Held bookmarks *)

(** The signal goes from partial to reading to complete within a run. *)
Fixpoint onward_only (read : bool) (ops : list (ReadState * store_op)) : Prop :=
  match ops with
  | [] => True
  | (s, _) :: ops => (read = true -> s <> ReadPartial) /\ onward_only (read || negb (bool_decide (s = ReadPartial))) ops
  end.
Definition holding_run (ops : list (ReadState * store_op)) (h : holding) : holding := foldl (fun h o => holding_step o.1 h o.2) h ops.
Definition plain_step (m : gmap string Value) (op : store_op) : gmap string Value := match op with OpPut k v => <[k := v]> m | OpDelete k => delete k m end.
Definition plain_run (ops : list (ReadState * store_op)) (m : gmap string Value) : gmap string Value := foldl (fun m o => plain_step m o.2) m ops.
(** Of a complete read the inner store sees the deletes alone. *)
Definition seen_inside (o : ReadState * store_op) : bool := bool_decide (o.1 = ReadPartial) || match o.2 with OpDelete _ => true | _ => false end.

(** To the run the store reads as one that had taken every write, while the store
    beneath has taken none of those of a complete read; releasing makes it up to date. *)
Theorem held_bookmarks_are_deferred ops m : onward_only false ops ->
  let h := holding_run ops (MkHolding ∅ m) in
  (forall key, holding_get h key = plain_run ops m !! key) /\ h_inner h = plain_run (List.filter seen_inside ops) m /\ h_inner (holding_release h) = plain_run ops m.
Proof.
  intros Hord. assert (forall read h p q, onward_only read ops -> (read = false -> h_held h = ∅) -> h_held h ∪ h_inner h = p -> h_inner h = q ->
    h_held (holding_run ops h) ∪ h_inner (holding_run ops h) = plain_run ops p /\ h_inner (holding_run ops h) = plain_run (List.filter seen_inside ops) q) as H.
  { clear Hord m. induction ops as [|[s op] ops IH]; intros read h p q Ho Hheld Hp Hq; [done|]. destruct Ho as [Hs Ho].
    cbn [holding_run plain_run foldl List.filter]. unfold seen_inside at 1. cbn [fst snd]. destruct op as [key v|key]; cbn [holding_step].
    - case_bool_decide as Es; cbn [orb].
      + eapply IH; [exact Ho| | |]; cbn [h_held h_inner]; [|rewrite <- Hp..|by subst].
        * intros Hr. apply Hheld. by destruct read.
        * destruct read; [by specialize (Hs eq_refl)|]. rewrite (Hheld eq_refl), !(left_id_L ∅ (∪)). done.
      + eapply IH; [exact Ho| | |]; cbn [h_held h_inner plain_step snd]; [by rewrite orb_true_r|rewrite <- Hp; by rewrite insert_union_l|done].
    - rewrite orb_true_r. eapply IH; [exact Ho| | |]; cbn [h_held h_inner plain_step snd]; [|rewrite <- Hp; by rewrite delete_union|by subst].
      intros Hr. rewrite Hheld; [apply delete_empty|]. by destruct read. }
  destruct (H false (MkHolding ∅ m) m m Hord) as [H1 H2]; [done|apply (left_id_L ∅ (∪))|done|]. split; [|split; [done|exact H1]].
  intros key. rewrite <- H1. unfold holding_get. rewrite lookup_union. destruct (h_held _ !! key), (h_inner _ !! key); done.
Qed.
