(* ===== verification/Reshape.v ===== *)
(** Reshaping transforms: crates/core/src/cross_join.rs and zip_columns.rs.

    A list of names in an error ([{:?}]) and the text of a value are parameters, and so
    is the evaluation of a JSONPath ([extract_records] over a third-party crate). *)
From S2P Require Import Prelude Errors Json Text StateKey Join.
From Stdlib Require Import Ascii.

Local Open Scope Z_scope.
Local Open Scope result_scope.

(** ** cross_join *)

Definition DEFAULT_MAX_PRODUCT : Z := 10000.
Inductive OnEmpty := SkipRow | OneRow.
Record CrossJoinSpec := MkCrossJoinSpec {
  cj_arrays : list string;
  cj_prefix : bool;
  cj_keep_parent : bool;
  cj_on_empty : OnEmpty;
  cj_drop_arrays : bool;
  cj_max_product : Z;
}.
Fixpoint first_repeated (seen l : list string) : option string :=
  match l with
  | [] => None
  | a :: l => if mem a seen then Some a else first_repeated (a :: seen) l
  end.
Definition cross_compile (spec : CrossJoinSpec) : result CrossJoinSpec FaucetError :=
  if (length (cj_arrays spec) <? 2)%nat then Err (Config "cross_join: `arrays` needs at least 2 fields (a single array is `explode`)")
  else if existsb (fun a => string_eqb (trim a) EmptyString) (cj_arrays spec) then Err (Config "cross_join: `arrays` entries must be non-empty field names")
  else match first_repeated [] (cj_arrays spec) with
       | Some a => Err (Config ("cross_join: duplicate array field `" +:+ a +:+ "`"))
       | None => if cj_max_product spec =? 0 then Err (Config "cross_join: `max_product` must be greater than 0") else Ok spec
       end.

Definition not_an_array (v : Value) : string :=
  match v with VObject _ => "an object" | VString _ => "a string" | VNumber _ => "a number" | _ => "a boolean" end.
(** The elements of one named array. *)
Definition element_set (obj : list (string * Value)) (name : string) : result (string * list Value) FaucetError :=
  match assoc name obj with
  | Some (VArray a) => Ok (name, a)
  | None | Some Null => Ok (name, [])
  | Some other => Err (Errors.Transform ("cross_join: field `" +:+ name +:+ "` is " +:+ not_an_array other +:+ " rather than an array"))
  end.
(** [checked_mul] over [usize]. *)
Definition checked_mul (a b : Z) : option Z := if a * b <? 2 ^ 64 then Some (a * b) else None.
Fixpoint product_size (acc : Z) (sets : list (string * list Value)) : option Z :=
  match sets with
  | [] => Some acc
  | (_, e) :: sets => acc ← checked_mul acc (zlen e); product_size acc sets
  end.
(** What every row of the product starts from. *)
Definition parent_fields (spec : CrossJoinSpec) (obj : list (string * Value)) : list (string * Value) :=
  if cj_keep_parent spec then List.filter (fun e => negb (cj_drop_arrays spec && mem e.1 (cj_arrays spec))) obj
  else if negb (cj_drop_arrays spec) then
    foldl (fun parent name => match assoc name obj with Some v => assoc_insert name v parent | None => parent end) [] (cj_arrays spec)
  else [].
Fixpoint spread_fields (row : list (string * Value)) (array_name : string) (fields : list (string * Value)) (prefix : bool) : result (list (string * Value)) FaucetError :=
  match fields with
  | [] => Ok row
  | (k, v) :: fields =>
      let key := if prefix then array_name +:+ "_" +:+ k else k in
      if negb (is_none (assoc key row)) then
        Err (Errors.Transform ("cross_join: field `" +:+ key +:+ "` of `" +:+ array_name +:+ "` would overwrite an existing column — set `prefix: true` or rename it first"))
      else spread_fields (assoc_insert key v row) array_name fields prefix
  end.
Definition merge_element (row : list (string * Value)) (array_name : string) (elem : Value) (prefix : bool) : result (list (string * Value)) FaucetError :=
  match elem with
  | VObject fields => spread_fields row array_name fields prefix
  | other => Ok (assoc_insert array_name other row)
  end.
(** One array crossed into the rows so far. *)
Definition cross_one (prefix : bool) (rows : list (list (string * Value))) (set : string * list Value) : result (list (list (string * Value))) FaucetError :=
  let? rows := results (fun base => results (fun elem => merge_element base set.1 elem prefix) set.2) rows in Ok (concat rows).
Fixpoint cross_all (prefix : bool) (rows : list (list (string * Value))) (sets : list (string * list Value)) : result (list (list (string * Value))) FaucetError :=
  match sets with
  | [] => Ok rows
  | set :: sets => let? rows := cross_one prefix rows set in cross_all prefix rows sets
  end.

Section Cross.
Context (debug_names : list string -> string) (spec : CrossJoinSpec).
Definition product_error : FaucetError :=
  Errors.Transform ("cross_join: record's cartesian product over " +:+ debug_names (cj_arrays spec) +:+ " exceeds max_product=" +:+ dec (cj_max_product spec)
    +:+ " — narrow the arrays or raise max_product").
Definition cross_join (rec : Value) : result (list Value) FaucetError :=
  match rec with
  | VObject obj =>
      let? sets := results (element_set obj) (cj_arrays spec) in
      let product sets :=
        match product_size 1 sets with
        | Some n => if n <=? cj_max_product spec then
                      let? rows := cross_all (cj_prefix spec) [parent_fields spec obj] sets in Ok (VObject <$> rows)
                    else Err product_error
        | None => Err product_error
        end in
      match cj_on_empty spec with
      | SkipRow => if existsb (fun s => is_nil s.2) sets then Ok [] else product sets
      | OneRow => product ((fun s => if is_nil s.2 then (s.1, [Null]) else s) <$> sets)
      end
  | _ => Ok [rec]
  end.
(** [into_stage]: a page, record by record. *)
Definition cross_join_page (page : list Value) : result (list Value) FaucetError := 
  let? rows := results cross_join page in Ok (concat rows).
End Cross.

(** ** The rows are the product *)

Definition ok_of {A} (r : result A FaucetError) : option A := match r with Ok a => Some a | Err _ => None end.
(** Every way to take one element of each array, the last array varying fastest. *)
Fixpoint combinations (sets : list (string * list Value)) : list (list (string * Value)) :=
  match sets with
  | [] => [[]]
  | (name, elems) :: sets => e ← elems; cons (name, e) <$> combinations sets
  end.
(** The row one combination makes. *)
Fixpoint merge_all (prefix : bool) (row : list (string * Value)) (combo : list (string * Value)) : option (list (string * Value)) :=
  match combo with
  | [] => Some row
  | (name, e) :: combo => row ← ok_of (merge_element row name e prefix); merge_all prefix row combo
  end.

Lemma ok_of_results {A B} (f : A -> result B FaucetError) l : ok_of (results f l) = mapM (fun x => ok_of (f x)) l.
Proof.
  induction l as [|x l IH]; [done|]. cbn [results mapM]. destruct (f x) as [y|e]; cbn; [|done]. rewrite <- IH. by destruct (results f l).
Qed.
Lemma ok_of_bind {A B} (r : result A FaucetError) (k : A -> result B FaucetError) : ok_of (let? x := r in k x) = (ok_of r ≫= fun x => ok_of (k x)).
Proof. by destruct r. Qed.
Lemma mapM_app {A B} (f : A -> option B) l k : mapM f (l ++ k) = (a ← mapM f l; b ← mapM f k; Some (a ++ b)).
Proof.
  induction l as [|x l IH]; cbn; [by destruct (mapM f k)|]. destruct (f x); cbn; [|done]. rewrite IH. destruct (mapM f l); cbn; [|done]. by destruct (mapM f k).
Qed.
Lemma mapM_fmap {A B C} (f : B -> option C) (g : A -> B) l : mapM f (g <$> l) = mapM (fun x => f (g x)) l.
Proof. induction l as [|x l IH]; [done|]. cbn. destruct (f (g x)); cbn; [|done]. by rewrite IH. Qed.
(** Mapping over a list of lists, and over what each element maps to. *)
Lemma mapM_flatten {A B C} (f : A -> option (list B)) (g : B -> option (list C)) l :
  (rows ← mapM f l; @concat C <$> mapM g (concat rows)) = (@concat C <$> mapM (fun a => bs ← f a; @concat C <$> mapM g bs) l).
Proof.
  induction l as [|x l IH]; [done|]. cbn [mapM]. destruct (f x) as [bs|]; cbn; [|done].
  destruct (mapM f l) as [rows|]; cbn in *.
  - rewrite mapM_app. destruct (mapM g bs) as [c|]; cbn; [|done]. destruct (mapM g (concat rows)) as [d|], (mapM _ l) as [d'|]; cbn in *; simplify_eq; rewrite ?concat_app; congruence.
  - destruct (mapM _ l) as [d'|]; cbn in *; [done|]. destruct (mapM g bs); done.
Qed.
Lemma cross_one_spec prefix base name elems cs : cs <> [] ->
  (bs ← mapM (fun e => ok_of (merge_element base name e prefix)) elems; @concat _ <$> mapM (fun b => mapM (merge_all prefix b) cs) bs) =
  mapM (merge_all prefix base) (e ← elems; cons (name, e) <$> cs).
Proof.
  intros Hcs. induction elems as [|e elems IH]; [done|]. cbn [mapM mbind list_bind]. rewrite mapM_app, mapM_fmap. cbn [merge_all].
  destruct (ok_of (merge_element base name e prefix)) as [row|]; cbn [mbind option_bind].
  - destruct (mapM (fun e => ok_of (merge_element base name e prefix)) elems) as [bs|]; cbn in *.
    + rewrite <- IH. destruct (mapM (merge_all prefix row) cs); cbn; [|done]. by destruct (mapM _ bs).
    + rewrite <- IH. by destruct (mapM (merge_all prefix row) cs).
  - by destruct cs as [|c cs].
Qed.
Definition all_inhabited (sets : list (string * list Value)) : Prop := Forall (fun s => s.2 <> []) sets.
Lemma combinations_inhabited sets : all_inhabited sets -> combinations sets <> [].
Proof.
  induction 1 as [|[n es] sets He _ IH]; [done|]. cbn in *. destruct es as [|e es]; [done|]. cbn. destruct (combinations sets); done.
Qed.
Lemma cross_all_spec prefix rows sets : all_inhabited sets ->
  ok_of (cross_all prefix rows sets) = @concat _ <$> mapM (fun base => mapM (merge_all prefix base) (combinations sets)) rows.
Proof.
  intros Hs. revert rows. induction Hs as [|[name elems] sets He Hs IH]; intros rows; cbn [cross_all combinations].
  - cbn. induction rows as [|r rows IH]; [done|]. cbn in *. destruct (mapM _ rows); cbn in *; [|done]. by injection IH as ->.
  - rewrite ok_of_bind. unfold cross_one. rewrite ok_of_bind, ok_of_results. cbn [fst snd ok_of].
    assert (forall base, mapM (merge_all prefix base) (e ← elems; cons (name, e) <$> combinations sets) =
      (bs ← mapM (fun e => ok_of (merge_element base name e prefix)) elems; @concat _ <$> mapM (fun b => mapM (merge_all prefix b) (combinations sets)) bs)) as Hone
      by (intros base; symmetry; apply cross_one_spec; by apply combinations_inhabited).
    rewrite (mapM_ext _ _ rows Hone), <- mapM_flatten.
    rewrite (mapM_ext _ (fun x => mapM (fun e => ok_of (merge_element x name e prefix)) elems) rows) by (intros x; apply ok_of_results).
    destruct (mapM _ rows) as [l|]; cbn; [|done]. apply IH.
Qed.
(** The guard computes the number of combinations. *)
Lemma product_size_spec acc sets : 0 <= acc -> all_inhabited sets ->
  match product_size acc sets with
  | Some n => n = acc * zlen (combinations sets)
  | None => 2 ^ 64 <= acc * zlen (combinations sets)
  end.
Proof.
  intros Ha Hs. revert acc Ha. induction Hs as [|[name elems] sets He Hs IH]; intros acc Ha; cbn [product_size combinations]; [unfold zlen; cbn [length]; lia|].
  assert (zlen (e ← elems; cons (name, e) <$> combinations sets) = zlen elems * zlen (combinations sets)) as ->.
  { clear He. induction elems as [|e elems IHe]; [done|]. cbn [mbind list_bind]. rewrite zlen_app, zlen_fmap, IHe. unfold zlen. cbn [length]. rewrite Nat2Z.inj_succ. ring. }
  assert (0 <= zlen elems) by (unfold zlen; lia). assert (1 <= zlen (combinations sets)) by (pose proof (combinations_inhabited sets Hs); destruct (combinations sets); [done|unfold zlen; cbn; lia]).
  unfold checked_mul. destruct (Z.ltb_spec (acc * zlen elems) (2 ^ 64)); cbn [mbind option_bind]; [|nia].
  specialize (IH (acc * zlen elems) ltac:(lia)). destruct (product_size _ sets); rewrite IH || rewrite Z.mul_assoc; lia.
Qed.

(** Spreading objects loses no column. *)
Lemma assoc_insert_same k v m : assoc k (assoc_insert k v m) = Some v.
Proof. induction m as [|[k' v'] m IH]; cbn; [by rewrite decide_True|]. destruct (decide (k = k')) as [->|]; cbn; [by rewrite decide_True|]. by rewrite decide_False. Qed.
Lemma assoc_insert_other k k' v m : k <> k' -> assoc k (assoc_insert k' v m) = assoc k m.
Proof. intros Hne. induction m as [|[k1 v1] m IH]; cbn; [by rewrite decide_False|]. destruct (decide (k' = k1)) as [->|]; cbn; [by rewrite !decide_False|]. destruct (decide (k = k1)); done. Qed.
Definition column (prefix : bool) (array_name k : string) : string := if prefix then array_name +:+ "_" +:+ k else k.
Lemma spread_keeps prefix name fields row out : spread_fields row name fields prefix = Ok out ->
  (forall k v, assoc k row = Some v -> assoc k out = Some v) /\ (forall k v, (k, v) ∈ fields -> assoc (column prefix name k) out = Some v).
Proof.
  revert row. induction fields as [|[k0 v0] fields IH]; intros row; cbn [spread_fields]; [intros [= <-]; split; [done|]; intros k v Hin; by apply not_elem_of_nil in Hin|].
  fold (column prefix name k0). destruct (assoc (column prefix name k0) row) eqn:Ea; [done|]. cbn [negb is_none]. intros H. destruct (IH _ H) as [H1 H2]. split.
  - intros k v Hk. apply H1. rewrite assoc_insert_other; [done|]. intros ->. congruence.
  - intros k v [[= -> ->]|Hin]%elem_of_cons; [|by apply H2]. apply H1, assoc_insert_same.
Qed.
Definition is_object (v : Value) : bool := match v with VObject _ => true | _ => false end.
Lemma merge_all_keeps prefix combo row out : merge_all prefix row combo = Some out -> Forall (fun p => is_object p.2 = true) combo ->
  (forall k v, assoc k row = Some v -> assoc k out = Some v) /\
  (forall name fields k v, (name, VObject fields) ∈ combo -> (k, v) ∈ fields -> assoc (column prefix name k) out = Some v).
Proof.
  revert row. induction combo as [|[name e] combo IH]; intros row; cbn [merge_all]; [intros [= <-] _; split; [done|]; intros ? ? ? ? Hin; by apply not_elem_of_nil in Hin|].
  intros H Ho. apply Forall_cons in Ho as [He Ho]. destruct e as [| | | | |fields]; try done. cbn [merge_element] in H.
  destruct (spread_fields row name fields prefix) as [row'|] eqn:Es; [|done]. cbn in H. destruct (spread_keeps _ _ _ _ _ Es) as [H1 H2]. destruct (IH _ H Ho) as [H3 H4]. split.
  - intros k v Hk. auto.
  - intros name' fields' k v [[= -> ->]|Hin]%elem_of_cons Hk; [auto|by eapply H4].
Qed.

(** The arrays of a record after [on_empty]: an empty one empties the product, or is one null. *)
Definition filled (spec : CrossJoinSpec) (sets : list (string * list Value)) : list (string * list Value) :=
  match cj_on_empty spec with
  | SkipRow => sets
  | OneRow => (fun s => if is_nil s.2 then (s.1, [Null]) else s) <$> sets
  end.

(** [cross_join] makes exactly the cartesian product. A record succeeds when its
    named fields are arrays, the combinations of their elements are no more than
    [max_product] and none of them would overwrite a column; its rows are then one per
    combination, in order, each the record's kept fields with the elements of the
    combination. When the elements are objects no column of any of them is lost. *)
Theorem cross_join_is_product debug_names spec obj : 1 <= cj_max_product spec < 2 ^ 64 ->
  ok_of (cross_join debug_names spec (VObject obj)) =
    (sets ← ok_of (results (element_set obj) (cj_arrays spec));
     let combos := combinations (filled spec sets) in
     if zlen combos <=? cj_max_product spec then fmap VObject <$> mapM (merge_all (cj_prefix spec) (parent_fields spec obj)) combos else None) /\
  forall combo out, merge_all (cj_prefix spec) (parent_fields spec obj) combo = Some out -> Forall (fun p => is_object p.2 = true) combo ->
    (forall k v, assoc k (parent_fields spec obj) = Some v -> assoc k out = Some v) /\
    (forall name fields k v, (name, VObject fields) ∈ combo -> (k, v) ∈ fields -> assoc (column (cj_prefix spec) name k) out = Some v).
Proof.
  intros Hmax. split; [|intros combo out; apply merge_all_keeps]. cbn [cross_join]. rewrite ok_of_bind. destruct (ok_of (results (element_set obj) (cj_arrays spec))) as [sets|]; cbn [mbind option_bind]; [|done].
  assert (forall sets, all_inhabited sets -> ok_of (match product_size 1 sets with
      | Some n => if n <=? cj_max_product spec then let? rows := cross_all (cj_prefix spec) [parent_fields spec obj] sets in Ok (VObject <$> rows) else Err (product_error debug_names spec)
      | None => Err (product_error debug_names spec) end) =
    (if zlen (combinations sets) <=? cj_max_product spec then fmap VObject <$> mapM (merge_all (cj_prefix spec) (parent_fields spec obj)) (combinations sets) else None)) as Hprod.
  { clear sets. intros sets Hs. pose proof (product_size_spec 1 sets ltac:(lia) Hs) as Hp. destruct (product_size 1 sets) as [n|].
    - replace n with (zlen (combinations sets)) by lia. destruct (_ <=? _); [|done]. rewrite ok_of_bind, cross_all_spec by done. cbn.
      destruct (mapM _ (combinations sets)); cbn; [by rewrite app_nil_r|done].
    - destruct (Z.leb_spec (zlen (combinations sets)) (cj_max_product spec)); [lia|done]. }
  unfold filled. destruct (cj_on_empty spec).
  - destruct (existsb (fun s => is_nil s.2) sets) eqn:Ee.
    + assert (combinations sets = []) as ->.
      { clear -Ee. induction sets as [|[n es] sets IH]; [done|]. cbn in *. destruct es as [|e es]; [done|]. cbn [is_nil orb] in Ee. rewrite (IH Ee). induction (e :: es); done. }
      destruct (Z.leb_spec (zlen (@nil (list (string * Value)))) (cj_max_product spec)) as [|Hz]; [done|]. unfold zlen in Hz. cbn in Hz. lia.
    + apply Hprod. apply Forall_forall. intros s Hs Hn. apply not_true_iff_false in Ee. apply Ee, existsb_exists. exists s. rewrite Hn. split; [by apply list_elem_of_In|done].
  - apply Hprod. apply Forall_forall. intros s (x & -> & _)%list_elem_of_fmap. destruct (snd x) eqn:Ex; cbn; [done|by rewrite Ex].
Qed.
Definition demo_cross : CrossJoinSpec := MkCrossJoinSpec ["a"; "b"] false true SkipRow true 10.
Lemma cross_join_is_product_witness :
  ok_of (cross_join (fun _ => EmptyString) demo_cross (VObject [("id", VString "r"); ("a", VArray [VString "1"; VString "2"]); ("b", VArray [VObject [("x", Null)]])])) =
    Some [VObject [("id", VString "r"); ("a", VString "1"); ("x", Null)]; VObject [("id", VString "r"); ("a", VString "2"); ("x", Null)]].
Proof.
  destruct (cross_join_is_product (fun _ => EmptyString) demo_cross [("id", VString "r"); ("a", VArray [VString "1"; VString "2"]); ("b", VArray [VObject [("x", Null)]])]) as [-> _]; [split; [cbn; lia|reflexivity]|].
  vm_compute. reflexivity.
Defined.

(** A scalar element lands under its array's name without a check: here it replaces the
    column [b] that an element of [a] brought, and the row is made without an error. *)
Example scalar_element_overwrites_a_column :
  cross_join (fun _ => EmptyString) demo_cross (VObject [("a", VArray [VObject [("b", VString "from a")]]); ("b", VArray [VString "scalar"])]) =
  Ok [VObject [("b", VString "scalar")]].
Proof. vm_compute. reflexivity. Qed.

(** ** zip_columns *)

Record ColumnGroupSpec := MkGroupSpec { cg_from : string; cg_header : string; cg_header_label : option string; cg_value : option string }.
Record ZipColumnsSpec := MkZipSpec { zc_columns_path : string; zc_rows_path : string; zc_groups : list ColumnGroupSpec }.
Definition blank (s : string) : bool := string_eqb (trim s) EmptyString.
(** [normalize_path]. *)
Definition normalize_path (path : string) : string := let p := trim path in if starts_with "$" p then p else "$." +:+ p.
Fixpoint compile_groups (i : Z) (groups : list ColumnGroupSpec) : result (list ColumnGroupSpec) FaucetError :=
  match groups with
  | [] => Ok []
  | g :: groups =>
      if blank (cg_from g) || blank (cg_header g) then Err (Config ("zip_columns: group " +:+ dec i +:+ " needs a non-empty `from` and `header`"))
      else if match cg_header_label g with Some l => blank l | None => false end || match cg_value g with Some v => blank v | None => false end then
        Err (Config ("zip_columns: group '" +:+ cg_from g +:+ "' has an empty `header_label` or `value`"))
      else let? rest := compile_groups (i + 1) groups in
           Ok (MkGroupSpec (trim (cg_from g)) (normalize_path (cg_header g)) (cg_header_label g) (cg_value g) :: rest)
  end.
Definition zip_compile (spec : ZipColumnsSpec) : result ZipColumnsSpec FaucetError :=
  let has_columns := negb (blank (zc_columns_path spec)) in
  if negb (Bool.eqb has_columns (is_nil (zc_groups spec))) then Err (Config "zip_columns: set exactly one of `columns_path` or `groups`")
  else if blank (zc_rows_path spec) then Err (Config "zip_columns: `rows_path` must not be empty")
  else let? groups := compile_groups 0 (zc_groups spec) in
       Ok (MkZipSpec (if has_columns then normalize_path (zc_columns_path spec) else EmptyString) (normalize_path (zc_rows_path spec)) groups).

(** [path_get] of this module. *)
Definition zip_path_get (root : Value) (path : string) : option Value := foldl (fun cur seg => c ← cur; get c seg) (Some root) (split_on "." path).
Definition column_candidates (matched : list Value) : list Value := match matched with [VArray inner] => inner | other => other end.
Definition is_array (v : Value) : bool := match v with VArray _ => true | _ => false end.
(** [ends_with] after [trim_end]; the letter in front keeps what the path starts with. *)
Definition ends_with_star (path : string) : bool :=
  match rev (String.list_ascii_of_string (trim ("x" +:+ path))) with "]"%char :: "*"%char :: "["%char :: _ => true | _ => false end.
Definition row_candidates (matched : list Value) (rows_path : string) : list Value :=
  match matched with
  | [VArray inner] => if negb (ends_with_star rows_path) && forallb is_array inner then inner else matched
  | _ => matched
  end.
(** A map collected from pairs. *)
Definition collect_map (names : list string) (values : list Value) : list (string * Value) := foldl (fun m p => assoc_insert p.1 p.2 m) [] (zip names values).

Section Zip.
Context (extract : Value -> string -> result (list Value) FaucetError) (value_str : Value -> string) (c : ZipColumnsSpec).

Fixpoint string_names (candidates : list Value) : result (list string) FaucetError :=
  match candidates with
  | [] => Ok []
  | VString s :: rest => let? names := string_names rest in Ok (s :: names)
  | other :: _ => Err (Errors.Transform ("zip_columns: column name at `" +:+ zc_columns_path c +:+ "` is not a string: " +:+ value_str other))
  end.
Fixpoint duplicate_column (seen : list (string * Z)) (i : Z) (names : list string) : option (string * Z * Z) :=
  match names with
  | [] => None
  | n :: names =>
      match List.find (fun p => string_eqb p.1 n) seen with
      | Some (_, first) => Some (n, first, i)
      | None => duplicate_column ((n, i) :: seen) (i + 1) names
      end
  end.
Definition column_names (rec : Value) : result (list string) FaucetError :=
  let? matched := extract rec (zc_columns_path c) in
  let? names := string_names (column_candidates matched) in
  if is_nil names then Err (Errors.Transform ("zip_columns: `columns_path` `" +:+ zc_columns_path c +:+ "` matched no column names"))
  else match duplicate_column [] 0 names with
       | Some (n, first, i) => Err (Errors.Transform ("zip_columns: duplicate column '" +:+ n +:+ "' at positions " +:+ dec first +:+ " and " +:+ dec i))
       | None => Ok names
       end.
Definition zip_row (columns : list string) (i : Z) (row : Value) : result Value FaucetError :=
  match row with
  | VArray values =>
      if (length values =? length columns)%nat then Ok (VObject (collect_map columns values))
      else Err (Errors.Transform ("zip_columns: row " +:+ dec i +:+ " has " +:+ dec (zlen values) +:+ " value(s) but there are " +:+ dec (zlen columns) +:+ " column(s)"))
  | _ => Err (Errors.Transform ("zip_columns: row " +:+ dec i +:+ " at `" +:+ zc_rows_path c +:+ "` is not an array"))
  end.
Fixpoint each_row (f : Z -> Value -> result Value FaucetError) (i : Z) (rows : list Value) : result (list Value) FaucetError :=
  match rows with
  | [] => Ok []
  | row :: rows => let? out := f i row in let? rest := each_row f (i + 1) rows in Ok (out :: rest)
  end.

Definition header_name (g : ColumnGroupSpec) (h : Value) : result string FaucetError :=
  match match cg_header_label g, h with Some label, VObject _ => zip_path_get h label | None, _ => Some h | Some _, _ => None end with
  | Some (VString s) => Ok s
  | _ => Err (Errors.Transform ("zip_columns: group '" +:+ cg_from g +:+ "': header at `" +:+ cg_header g +:+ "` is not a string: " +:+ value_str h))
  end.
Definition header_names (g : ColumnGroupSpec) (rec : Value) : result (list string) FaucetError :=
  let? matched := extract rec (cg_header g) in results (header_name g) (column_candidates matched).
Definition twice (prev from : string) : string :=
  if string_eqb prev from then "group '" +:+ prev +:+ "' names it twice" else "groups '" +:+ prev +:+ "' and '" +:+ from +:+ "' both name it".
Fixpoint claim_names (from : string) (owner : list (string * string)) (names : list string) : result (list (string * string)) FaucetError :=
  match names with
  | [] => Ok owner
  | n :: names =>
      match List.find (fun p => string_eqb p.1 n) owner with
      | Some (_, prev) => Err (Errors.Transform ("zip_columns: duplicate column '" +:+ n +:+ "': " +:+ twice prev from))
      | None => claim_names from ((n, from) :: owner) names
      end
  end.
Fixpoint group_headers (rec : Value) (owner : list (string * string)) (groups : list ColumnGroupSpec) : result (list (ColumnGroupSpec * list string)) FaucetError :=
  match groups with
  | [] => Ok []
  | g :: groups =>
      let? names := header_names g rec in
      let? owner := claim_names (cg_from g) owner names in
      let? rest := group_headers rec owner groups in
      Ok ((g, names) :: rest)
  end.
Definition cell_value (g : ColumnGroupSpec) (cell : Value) : Value :=
  match cg_value g with Some field => default Null (zip_path_get cell field) | None => cell end.
Fixpoint zip_groups (i : Z) (row : Value) (obj : list (string * Value)) (groups : list (ColumnGroupSpec * list string)) : result (list (string * Value)) FaucetError :=
  match groups with
  | [] => Ok obj
  | (g, names) :: groups =>
      match zip_path_get row (cg_from g) with
      | Some (VArray cells) =>
          if (length cells =? length names)%nat then
            zip_groups i row (foldl (fun m p => assoc_insert p.1 (cell_value g p.2) m) obj (zip names cells)) groups
          else Err (Errors.Transform ("zip_columns: row " +:+ dec i +:+ ", group '" +:+ cg_from g +:+ "': " +:+ dec (zlen cells) +:+ " cell(s) but " +:+ dec (zlen names) +:+ " header(s)"))
      | _ => Err (Errors.Transform ("zip_columns: row " +:+ dec i +:+ " has no `" +:+ cg_from g +:+ "` array (group '" +:+ cg_from g +:+ "')"))
      end
  end.
Definition zip_group_row (groups : list (ColumnGroupSpec * list string)) (i : Z) (row : Value) : result Value FaucetError :=
  if is_object row then let? obj := zip_groups i row [] groups in Ok (VObject obj)
  else Err (Errors.Transform ("zip_columns: row " +:+ dec i +:+ " at `" +:+ zc_rows_path c +:+ "` is not an object")).
Definition apply_groups (rec : Value) : result (list Value) FaucetError :=
  let? groups := group_headers rec [] (zc_groups c) in
  let? matched := extract rec (zc_rows_path c) in
  each_row (zip_group_row groups) 0 (column_candidates matched).
Definition zip_columns (rec : Value) : result (list Value) FaucetError :=
  if negb (is_nil (zc_groups c)) then apply_groups rec
  else
    let? columns := column_names rec in
    let? matched := extract rec (zc_rows_path c) in
    each_row (zip_row columns) 0 (row_candidates matched (zc_rows_path c)).
End Zip.

(** ** Cells keep their columns *)

(** A row holds, under each name, the cell at the name's position. *)
Definition aligned (f : Value -> Value) (names : list string) (cells : list Value) (fields : list (string * Value)) : Prop :=
  length cells = length names /\ forall j n v, names !! j = Some n -> cells !! j = Some v -> assoc n fields = Some (f v).
Lemma fold_insert_other f (ps : list (string * Value)) obj n : n ∉ ps.*1 -> assoc n (foldl (fun m p => assoc_insert p.1 (f p.2) m) obj ps) = assoc n obj.
Proof.
  revert obj. induction ps as [|[k v] ps IH]; intros obj Hn; [done|]. cbn in *. rewrite not_elem_of_cons in Hn. rewrite IH by tauto. apply assoc_insert_other. tauto.
Qed.
Lemma zip_names (names : list string) (cells : list Value) : length cells = length names -> (zip names cells).*1 = names.
Proof. intros H. apply fst_zip. lia. Qed.
Lemma fold_insert_aligned f names cells obj : NoDup names -> length cells = length names ->
  aligned f names cells (foldl (fun m p => assoc_insert p.1 (f p.2) m) obj (zip names cells)).
Proof.
  intros Hnd Hl. split; [done|]. revert cells obj Hl. induction names as [|n names IH]; intros cells obj Hl j x v Hj Hv; [done|]. apply NoDup_cons in Hnd as [Hn Hnd].
  destruct cells as [|c0 cells]; [done|]. cbn [zip zip_with foldl]. destruct j as [|j]; cbn in Hj, Hv.
  - simplify_eq. change (zip_with pair names cells) with (zip names cells). cbn [fst snd]. rewrite fold_insert_other; [apply assoc_insert_same|]. rewrite zip_names; [done|]. cbn in Hl. lia.
  - apply (IH Hnd cells _ ltac:(cbn in Hl; lia) j); done.
Qed.
Lemma find_owner {B} (n : string) (owner : list (string * B)) : List.find (fun p => string_eqb p.1 n) owner = None <-> n ∉ owner.*1.
Proof.
  induction owner as [|[k b] owner IH]; [split; [intros _; apply not_elem_of_nil|done]|]. cbn. unfold string_eqb in *. rewrite not_elem_of_cons, <- IH. case_bool_decide; naive_solver.
Qed.
Lemma duplicate_column_none seen i names : duplicate_column seen i names = None -> NoDup names /\ forall n, n ∈ names -> n ∉ seen.*1.
Proof.
  revert seen i. induction names as [|n names IH]; intros seen i; cbn [duplicate_column]; [intros _; split; [constructor|]; intros n Hn; by apply not_elem_of_nil in Hn|].
  destruct (List.find _ seen) as [[]|] eqn:Ef; [done|]. intros [Hnd Hs]%IH. apply find_owner in Ef. cbn in Hs. split.
  - apply NoDup_cons. split; [|done]. intros Hin. apply (Hs n Hin). left.
  - intros x [->|Hx]%elem_of_cons; [done|]. specialize (Hs x Hx). rewrite not_elem_of_cons in Hs. tauto.
Qed.
Lemma claim_names_ok from owner names owner' : claim_names from owner names = Ok owner' ->
  NoDup names /\ (forall n, n ∈ names -> n ∉ owner.*1) /\ forall n, n ∈ owner'.*1 <-> n ∈ owner.*1 \/ n ∈ names.
Proof.
  revert owner. induction names as [|n names IH]; intros owner; cbn [claim_names].
  - intros [= <-]. split; [constructor|]. split; [intros n Hn; by apply not_elem_of_nil in Hn|]. intros n. split; [by left|]. intros [|Hn]; [done|by apply not_elem_of_nil in Hn].
  - destruct (List.find _ owner) as [[]|] eqn:Ef; [done|]. intros (Hnd & Hs & Ho)%IH. apply find_owner in Ef. cbn in Hs, Ho. split; [|split].
    + apply NoDup_cons. split; [|done]. intros Hin. apply (Hs n Hin). left.
    + intros x [->|Hx]%elem_of_cons; [done|]. specialize (Hs x Hx). rewrite not_elem_of_cons in Hs. tauto.
    + intros x. rewrite Ho, !elem_of_cons. tauto.
Qed.
Lemma each_row_forall2 f i rows out : each_row f i rows = Ok out -> Forall2 (fun row o => exists i, f i row = Ok o) rows out.
Proof.
  revert i out. induction rows as [|r rows IH]; intros i out; cbn [each_row]; [intros [= <-]; constructor|].
  destruct (f i r) eqn:E; cbn; [|done]. destruct (each_row f (i + 1) rows) eqn:Er; cbn; [|done]. intros [= <-]. constructor; eauto.
Qed.

Section Aligned.
Context (extract : Value -> string -> result (list Value) FaucetError) (value_str : Value -> string) (c : ZipColumnsSpec).
Lemma group_headers_distinct rec owner groups gs : group_headers extract value_str rec owner groups = Ok gs ->
  NoDup (concat gs.*2) /\ (forall n, n ∈ concat gs.*2 -> n ∉ owner.*1) /\ gs.*1 = groups.
Proof.
  revert owner gs. induction groups as [|g groups IH]; intros owner gs; cbn [group_headers].
  { intros [= <-]. split; [constructor|]. split; [intros n Hn; by apply not_elem_of_nil in Hn|done]. }
  destruct (header_names _ _ g rec) as [names|]; cbn; [|done]. destruct (claim_names (cg_from g) owner names) as [owner'|] eqn:Ec; cbn; [|done].
  destruct (group_headers _ _ rec owner' groups) as [rest|] eqn:Er; cbn; [|done]. intros [= <-]. destruct (claim_names_ok _ _ _ _ Ec) as (H1 & H2 & H3). destruct (IH _ _ Er) as (H4 & H5 & H6).
  cbn. split; [|split].
  - apply NoDup_app. split; [done|]. split; [|done]. intros n Hn Hr. apply (H5 n Hr). apply H3. by right.
  - intros n [Hn|Hn]%elem_of_app; [auto|]. intros Ho. apply (H5 n Hn). apply H3. by left.
  - by rewrite H6.
Qed.
Lemma zip_groups_aligned i row obj groups fields : NoDup (concat groups.*2) -> zip_groups i row obj groups = Ok fields ->
  (forall n, n ∉ concat groups.*2 -> assoc n fields = assoc n obj) /\
  forall g names, (g, names) ∈ groups -> exists cells, zip_path_get row (cg_from g) = Some (VArray cells) /\ aligned (cell_value g) names cells fields.
Proof.
  revert obj. induction groups as [|[g names] groups IH]; intros obj Hnd; cbn [zip_groups]; [intros [= <-]; split; [done|]; intros ? ? Hin; by apply not_elem_of_nil in Hin|].
  cbn in Hnd. apply NoDup_app in Hnd as (Hn1 & Hdis & Hn2). destruct (zip_path_get row (cg_from g)) as [[| | | |cells|]|] eqn:Ep; try done.
  destruct (Nat.eqb_spec (length cells) (length names)) as [El|]; [|done]. intros H. destruct (IH _ Hn2 H) as [Hk Hg]. cbn. split.
  - intros n [Hx Hy]%not_elem_of_app. rewrite (Hk n Hy). apply fold_insert_other. by rewrite zip_names.
  - intros g' names' [[= -> ->]|Hin]%elem_of_cons; [|auto]. exists cells. split; [done|]. destruct (fold_insert_aligned (cell_value g) names cells obj Hn1 El) as [_ Ha].
    split; [done|]. intros j n v Hj Hv. rewrite Hk; [by eapply Ha|]. intros Hn. eapply Hdis; [|exact Hn]. by eapply list_elem_of_lookup_2.
Qed.
End Aligned.

(** [zip_columns] never misaligns: the columns of a record, or of all its groups, have
    distinct names, every row has as many cells as its header, and the row it makes holds
    under each name the cell at the name's position. *)
Theorem zip_columns_aligned extract value_str c rec out : zip_columns extract value_str c rec = Ok out ->
  if is_nil (zc_groups c) then
    exists columns rows, column_names extract value_str c rec = Ok columns /\ NoDup columns /\
      Forall2 (fun row o => exists cells fields, row = VArray cells /\ o = VObject fields /\ aligned id columns cells fields) rows out
  else
    exists groups rows, groups.*1 = zc_groups c /\ NoDup (concat groups.*2) /\
      Forall2 (fun row o => exists fields, o = VObject fields /\ forall g names, (g, names) ∈ groups ->
        exists cells, zip_path_get row (cg_from g) = Some (VArray cells) /\ aligned (cell_value g) names cells fields) rows out.
Proof.
  unfold zip_columns, apply_groups. destruct (is_nil (zc_groups c)); cbn [negb].
  - destruct (column_names extract value_str c rec) as [columns|] eqn:Ec; cbn; [|done]. destruct (extract rec (zc_rows_path c)) as [matched|]; cbn; [|done]. intros H%each_row_forall2.
    assert (NoDup columns) as Hnd.
    { unfold column_names in Ec. destruct (extract rec _); cbn [result_bind] in Ec; [|done]. destruct (string_names _ _ _) as [names|]; cbn [result_bind] in Ec; [|done]. destruct (is_nil names); [done|].
      destruct (duplicate_column [] 0 names) as [[[]]|] eqn:Ed; [done|]. injection Ec as <-. apply duplicate_column_none in Ed as [Hd _]. exact Hd. }
    eexists _, _. split; [done|]. split; [done|]. eapply Forall2_impl; [exact H|]. intros row o [i Hi]. unfold zip_row in Hi. destruct row as [| | | |cells|]; try done.
    destruct (Nat.eqb_spec (length cells) (length columns)) as [e|]; [|done]. injection Hi as <-. eexists _, _. split; [done|]. split; [done|]. exact (fold_insert_aligned id columns cells [] Hnd e).
  - destruct (group_headers _ _ rec [] (zc_groups c)) as [groups|] eqn:Eg; cbn; [|done]. destruct (extract rec (zc_rows_path c)) as [matched|]; cbn; [|done]. intros H%each_row_forall2.
    destruct (group_headers_distinct _ _ _ _ _ _ Eg) as (Hnd & _ & Hgs). eexists _, _. split; [exact Hgs|]. split; [done|]. eapply Forall2_impl; [exact H|]. intros row o [i Hi]. unfold zip_group_row in Hi.
    destruct (is_object row); [|done]. destruct (zip_groups i row [] groups) as [fields|] eqn:Ez; cbn in Hi; [|done]. injection Hi as <-. exists fields. split; [done|]. by apply (zip_groups_aligned i row [] groups fields Hnd Ez).
Qed.
