(* ===== verification/Tree.v ===== *)
(** The tree flattening transform: crates/core/src/tree.rs.

    A report is walked depth first; the fuel of the walk is what is left of
    [max_depth], and the fuel of a path its length, of which every step takes a part. *)
From S2P Require Import Prelude Errors Float64 Json Text WriteMode Join Transform Stage Reshape.
From Stdlib Require Import Ascii.

Local Open Scope Z_scope.
Local Open Scope result_scope.

Definition DEFAULT_MAX_DEPTH : Z := 64.
Record ColumnsSpec := MkColumnsSpec { tc_from : string; tc_header : option string; tc_header_label : option string; tc_value : string }.
Definition is_unset (c : ColumnsSpec) : bool := blank (tc_from c).
Record AncestorsSpec := MkAncestorsSpec { an_field : string; an_as_names : list string }.
Record TreeFlattenSpec := MkTreeFlattenSpec {
  tf_root : option string;
  tf_children : string;
  tf_leaf : string;
  tf_columns : ColumnsSpec;
  tf_groups : list ColumnsSpec;
  tf_ancestors : option AncestorsSpec;
  tf_path_as : option string;
  tf_path_sep : string;
  tf_drop_empty : bool;
  tf_emit_group_rows : bool;
  tf_max_depth : Z;
}.
Inductive LeafMode := NoChildren | HasField (field : string).

Fixpoint check_groups (i : Z) (groups : list ColumnsSpec) : result unit FaucetError :=
  match groups with
  | [] => Ok tt
  | g :: groups =>
      if is_unset g || match tc_header g with Some h => blank h | None => true end then
        Err (Errors.Transform ("tree_flatten: group " +:+ dec i +:+ " needs a non-empty `from` and `header`"))
      else check_groups (i + 1) groups
  end.
Definition tree_compile (spec : TreeFlattenSpec) : result LeafMode FaucetError :=
  if blank (tf_children spec) then Err (Errors.Transform "tree_flatten: `children` must be non-empty")
  else if is_nil (tf_groups spec) && is_unset (tf_columns spec) then Err (Errors.Transform "tree_flatten: `columns.from` must be non-empty")
  else if negb (is_nil (tf_groups spec)) && negb (is_unset (tf_columns spec)) then Err (Errors.Transform "tree_flatten: set exactly one of `columns` or `groups`")
  else
    let? _ := check_groups 0 (tf_groups spec) in
    if tf_max_depth spec =? 0 then Err (Errors.Transform "tree_flatten: `max_depth` must be greater than zero")
    else if string_eqb (tf_leaf spec) "has_no_children" then Ok NoChildren
    else match strip_prefix "has_field:" (tf_leaf spec) with
         | Some field => if blank field then Err (Errors.Transform "tree_flatten: `leaf: has_field:<name>` requires a field name") else Ok (HasField field)
         | None => Err (Errors.Transform ("tree_flatten: `leaf` must be `has_no_children` or `has_field:<name>`, got '" +:+ tf_leaf spec +:+ "'"))
         end.

(** ** Paths *)

Definition strip_or (p s : string) : string := default s (strip_prefix p s).
Definition as_array (v : Value) : option (list Value) := match v with VArray l => Some l | _ => None end.
Fixpoint tree_steps (fuel : nat) (cur : Value) (rest : string) : option Value :=
  match rest with
  | EmptyString => Some cur
  | String c after =>
      match fuel with
      | O => None
      | S fuel =>
          if Ascii.eqb c "[" then
            '(digits, close) ← split_once "]" after;
            idx ← parse_u64 (trim digits);
            a ← as_array cur;
            cur ← a !! Z.to_nat idx;
            tree_steps fuel cur (strip_or "." close)
          else
            let '(key, rest) := split_at_char is_dot_or_bracket rest in
            if is_empty_str key then None
            else cur ← get cur key; tree_steps fuel cur (strip_or "." rest)
      end
  end.
Definition tree_path_get (root : Value) (path : string) : option Value :=
  let rest := strip_or "." (strip_or "$" (trim path)) in tree_steps (String.length rest) root rest.

Section Tree.
Context (json_str : string -> string) (float_str : f64 -> string) (spec : TreeFlattenSpec) (leaf_mode : LeafMode).

Definition scalar_string (v : Value) : string :=
  match v with
  | VString s => s
  | Null => EmptyString
  | VBool b => bool_str b
  | VNumber n => number_str float_str n
  | other => canonical_json json_str float_str other
  end.
Definition is_empty_value (v : Value) : bool := match v with Null => true | VString s => is_empty_str s | _ => false end.
Definition cells_of (node : Value) (from : string) : option (list Value) := tree_path_get node from ≫= as_array.
Definition node_has_cells (node : Value) (from : string) : bool := match cells_of node from with Some (_ :: _) => true | _ => false end.
Definition header_label (c : ColumnsSpec) (el : Value) : string :=
  match tc_header_label c with
  | Some field => match tree_path_get el field with Some v => scalar_string v | None => scalar_string el end
  | None => scalar_string el
  end.

(** [column_sources]. *)
Fixpoint claim_labels (from : string) (owner : list (string * string)) (labels : list string) : result (list (string * string)) FaucetError :=
  match labels with
  | [] => Ok owner
  | n :: labels =>
      match List.find (fun p => string_eqb p.1 n) owner with
      | Some (_, prev) => Err (Errors.Transform ("tree_flatten: duplicate column '" +:+ n +:+ "': " +:+ twice prev from))
      | None => claim_labels from ((n, from) :: owner) labels
      end
  end.
Fixpoint group_sources (rec : Value) (owner : list (string * string)) (groups : list ColumnsSpec) : result (list (ColumnsSpec * list string)) FaucetError :=
  match groups with
  | [] => Ok []
  | g :: groups =>
      let header := default EmptyString (tc_header g) in
      match cells_of rec header with
      | None => Err (Errors.Transform ("tree_flatten: group '" +:+ tc_from g +:+ "': header `" +:+ header +:+ "` is not an array"))
      | Some els =>
          let labels := header_label g <$> els in
          let? owner := claim_labels (tc_from g) owner labels in
          let? rest := group_sources rec owner groups in
          Ok ((g, labels) :: rest)
      end
  end.
Definition column_sources (rec : Value) : result (list (ColumnsSpec * list string)) FaucetError :=
  if is_nil (tf_groups spec) then
    let c := tf_columns spec in
    Ok [(c, match tc_header c with
            | Some h => match cells_of rec h with Some els => header_label c <$> els | None => [] end
            | None => []
            end)]
  else group_sources rec [] (tf_groups spec).

Definition is_leaf (node : Value) (has_children : bool) : bool :=
  match leaf_mode with NoChildren => negb has_children | HasField f => negb (is_none (get node f)) end.

(** [emit_row]: the ancestors, the joined path and the cells of one node. *)
Definition ancestor_name (a : AncestorsSpec) (i : nat) : string := default ("ancestor_" +:+ dec (Z.of_nat i + 1)) (an_as_names a !! i).
Definition ancestor_columns (a : AncestorsSpec) (labels : list Value) : list (string * Value) :=
  foldl (fun row p => assoc_insert (ancestor_name a p.1) p.2 row) [] (zip (seq 0 (length labels)) labels).
Definition label_columns (labels : list Value) : list (string * Value) :=
  let row := match tf_ancestors spec with Some a => ancestor_columns a labels | None => [] end in
  match tf_path_as spec with Some col => assoc_insert col (VString (String.concat (tf_path_sep spec) (scalar_string <$> labels))) row | None => row end.
Definition cell_name (labels : list string) (i : nat) : string :=
  match labels !! i with Some s => if is_empty_str s then "col_" +:+ dec (Z.of_nat i) else s | None => "col_" +:+ dec (Z.of_nat i) end.
Definition tree_cell (c : ColumnsSpec) (cell : Value) : Value := default cell (tree_path_get cell (tc_value c)).
Fixpoint add_cells (c : ColumnsSpec) (labels : list string) (row_index : Z) (i : nat) (cells : list Value) (row : list (string * Value)) (all_empty : bool)
  : result (list (string * Value) * bool) FaucetError :=
  match cells with
  | [] => Ok (row, all_empty)
  | cell :: cells =>
      let value := tree_cell c cell in
      let name := cell_name labels i in
      if negb (is_none (assoc name row)) then
        Err (Errors.Transform ("tree_flatten: row " +:+ dec row_index +:+ ": duplicate column '" +:+ name +:+ "' (header labels repeat, or collide with an ancestor/path column)"))
      else add_cells c labels row_index (S i) cells (assoc_insert name value row) (all_empty && is_empty_value value)
  end.
Definition strict_cells (c : ColumnsSpec) (labels : list string) (row_index : Z) (cells : option (list Value)) : result (list Value) FaucetError :=
  if is_nil (tf_groups spec) then Ok (default [] cells)
  else match cells with
       | None => Err (Errors.Transform ("tree_flatten: row " +:+ dec row_index +:+ " has no `" +:+ tc_from c +:+ "` array (group '" +:+ tc_from c +:+ "')"))
       | Some l => if (length l =? length labels)%nat then Ok l
                   else Err (Errors.Transform ("tree_flatten: row " +:+ dec row_index +:+ ", group '" +:+ tc_from c +:+ "': " +:+ dec (zlen l) +:+ " cell(s) but " +:+ dec (zlen labels) +:+ " header(s)"))
       end.
Fixpoint add_sources (node : Value) (sources : list (ColumnsSpec * list string)) (row_index : Z) (row : list (string * Value)) (all_empty : bool)
  : result (list (string * Value) * bool) FaucetError :=
  match sources with
  | [] => Ok (row, all_empty)
  | (c, labels) :: sources =>
      let? cells := strict_cells c labels row_index (cells_of node (tc_from c)) in
      let? r := add_cells c labels row_index 0 cells row all_empty in
      add_sources node sources row_index r.1 r.2
  end.
Definition emit_row (node : Value) (ancestors : list Value) (sources : list (ColumnsSpec * list string)) (row_index : Z) : result (option Value) FaucetError :=
  let? r := add_sources node sources row_index (label_columns ancestors) true in
  Ok (if tf_drop_empty spec && r.2 then None else Some (VObject r.1)).

(** [walk] and its loop over the children. *)
Definition too_deep : FaucetError :=
  Errors.Transform ("tree_flatten: the tree is nested deeper than max_depth (" +:+ dec (tf_max_depth spec) +:+ ") — raise `max_depth` if the report is genuinely that deep").
Definition children_of (node : Value) : list Value := default [] (cells_of node (tf_children spec)).
Definition emits_row (sources : list (ColumnsSpec * list string)) (node : Value) : bool :=
  is_leaf node (negb (is_nil (children_of node))) || (tf_emit_group_rows spec && existsb (fun s => node_has_cells node (tc_from s.1)) sources).
Definition label_of (node : Value) : Value := default Null (a ← tf_ancestors spec; tree_path_get node (an_field a)).
Definition emit_into (sources : list (ColumnsSpec * list string)) (node : Value) (ancestors : list Value) (out : list Value) : result (list Value) FaucetError :=
  if emits_row sources node then let? row := emit_row node ancestors sources (zlen out) in Ok (match row with Some r => out ++ [r] | None => out end) else Ok out.
Fixpoint walk (sources : list (ColumnsSpec * list string)) (fuel : nat) (node : Value) (ancestors out : list Value) : result (list Value) FaucetError :=
  match fuel with
  | O => Err too_deep
  | S fuel =>
      let? out := emit_into sources node ancestors out in
      (fix walk_children (children out : list Value) : result (list Value) FaucetError :=
         match children with
         | [] => Ok out
         | child :: children => let? out := walk sources fuel child (ancestors ++ [label_of node]) out in walk_children children out
         end) (children_of node) out
  end.
Definition walk_roots (sources : list (ColumnsSpec * list string)) : list Value -> list Value -> result (list Value) FaucetError :=
  fix walk_roots (roots out : list Value) : result (list Value) FaucetError :=
    match roots with
    | [] => Ok out
    | node :: roots => let? out := walk sources (Z.to_nat (tf_max_depth spec)) node [] out in walk_roots roots out
    end.

Definition roots_of (rec : Value) : option (list Value) :=
  match tf_root spec with
  | Some path => match tree_path_get rec path with Some (VArray a) => Some a | Some v => Some [v] | None => None end
  | None => Some [rec]
  end.
(** [flatten]; [None] passes the record through. *)
Definition tree_flatten (rec : Value) : result (option (list Value)) FaucetError :=
  match rec with
  | VObject _ =>
      let? sources := column_sources rec in
      match roots_of rec with
      | None => Ok None
      | Some roots => let? rows := walk_roots sources roots [] in Ok (Some rows)
      end
  | _ => Ok None
  end.
Definition try_apply (rec : Value) : result (list Value) FaucetError := let? rows := tree_flatten rec in Ok (default [rec] rows).
Definition tree_apply (rec : Value) : list Value := match tree_flatten rec with Ok rows => default [rec] rows | Err _ => [rec] end.
End Tree.

(** ** The walk is the preorder *)

Section Preorder.
Context (json_str : string -> string) (float_str : f64 -> string) (spec : TreeFlattenSpec) (leaf_mode : LeafMode).
Notation label_of := (label_of spec).
Notation children_of := (children_of spec).
Notation emit_row := (emit_row json_str float_str spec).

(** The nodes of a tree with the labels above them, a node before its children. *)
Fixpoint preorder (fuel : nat) (node : Value) (ancestors : list Value) : option (list (Value * list Value)) :=
  match fuel with
  | O => None
  | S fuel => below ← mapM (fun child => preorder fuel child (ancestors ++ [label_of node])) (children_of node); Some ((node, ancestors) :: concat below)
  end.
(** The rows of one node: none or one. *)
Definition node_rows (sources : list (ColumnsSpec * list string)) (n : Value * list Value) : option (list Value) :=
  if emits_row spec leaf_mode sources n.1 then option_list <$> ok_of (emit_row n.1 n.2 sources 0) else Some [].

Lemma add_cells_index c labels i j k cells row b : ok_of (add_cells c labels i k cells row b) = ok_of (add_cells c labels j k cells row b).
Proof. revert k row b. induction cells as [|cell cells IH]; intros k row b; cbn [add_cells]; [done|]. destruct (negb _); [done|]. apply IH. Qed.
Lemma add_sources_index node sources i j row b : ok_of (add_sources spec node sources i row b) = ok_of (add_sources spec node sources j row b).
Proof.
  revert row b. induction sources as [|[c labels] sources IH]; intros row b; cbn [add_sources]; [done|]. rewrite !ok_of_bind.
  assert (ok_of (strict_cells spec c labels i (cells_of node (tc_from c))) = ok_of (strict_cells spec c labels j (cells_of node (tc_from c)))) as ->.
  { unfold strict_cells. destruct (is_nil _), (cells_of node (tc_from c)) as [l|]; try done. by destruct (_ =? _)%nat. }
  destruct (ok_of (strict_cells _ _ _ _ _)) as [cells|]; cbn; [|done]. rewrite !ok_of_bind, (add_cells_index c labels i j). destruct (ok_of (add_cells _ _ _ _ _ _ _)); cbn; [|done]. apply IH.
Qed.
Lemma emit_row_index node anc sources i j : ok_of (emit_row node anc sources i) = ok_of (emit_row node anc sources j).
Proof. unfold Tree.emit_row. rewrite !ok_of_bind, (add_sources_index node sources i j). done. Qed.
Lemma emit_into_rows sources node anc out : ok_of (emit_into json_str float_str spec leaf_mode sources node anc out) = (rows ← node_rows sources (node, anc); Some (out ++ rows)).
Proof.
  unfold emit_into, node_rows. cbn [fst snd]. destruct (emits_row _ _ _ _); [|cbn; by rewrite app_nil_r]. rewrite ok_of_bind, (emit_row_index node anc sources _ 0).
  destruct (ok_of _) as [[row|]|]; cbn; [done|by rewrite app_nil_r|done].
Qed.

Notation walk := (walk json_str float_str spec leaf_mode).
Notation rows_of_nodes sources ns := (@concat Value <$> mapM (node_rows sources) ns).
Lemma walk_all_spec sources (f : Value -> list Value -> result (list Value) FaucetError) (g : Value -> option (list (Value * list Value))) nodes out :
  (forall node out, ok_of (f node out) = (ns ← g node; rows ← rows_of_nodes sources ns; Some (out ++ rows))) ->
  ok_of ((fix go (nodes out : list Value) : result (list Value) FaucetError :=
     match nodes with [] => Ok out | node :: nodes => let? out := f node out in go nodes out end) nodes out) =
  (nss ← mapM g nodes; rows ← rows_of_nodes sources (concat nss); Some (out ++ rows)).
Proof.
  intros Hf. revert out. induction nodes as [|node nodes IH]; intros out; [cbn; by rewrite app_nil_r|]. rewrite ok_of_bind, Hf. cbn [mapM].
  destruct (g node) as [ns|]; cbn; [|done]. destruct (mapM g nodes) as [nss|] eqn:Em; cbn.
  - rewrite mapM_app. destruct (mapM (node_rows sources) ns) as [r1|]; cbn; [|done]. rewrite IH. cbn. destruct (mapM (node_rows sources) (concat nss)) as [r2|]; cbn; [|done]. by rewrite concat_app, app_assoc.
  - destruct (mapM (node_rows sources) ns) as [r1|]; cbn; [|done]. by rewrite IH.
Qed.
Lemma walk_spec sources fuel node anc out : ok_of (walk sources fuel node anc out) = (ns ← preorder fuel node anc; rows ← rows_of_nodes sources ns; Some (out ++ rows)).
Proof.
  revert node anc out. induction fuel as [|fuel IH]; intros node anc out; cbn [Tree.walk preorder]; [done|]. rewrite ok_of_bind, emit_into_rows.
  assert (forall out, ok_of ((fix go (children out : list Value) : result (list Value) FaucetError :=
     match children with [] => Ok out | child :: children => let? out := walk sources fuel child (anc ++ [label_of node]) out in go children out end) (children_of node) out) =
    (nss ← mapM (fun child => preorder fuel child (anc ++ [label_of node])) (children_of node); rows ← rows_of_nodes sources (concat nss); Some (out ++ rows))) as Hc.
  { intros o. apply (walk_all_spec sources (fun child o => walk sources fuel child (anc ++ [label_of node]) o)). intros child o'. apply IH. }
  destruct (mapM _ (children_of node)) as [nss|] eqn:Em; cbn in *.
  - destruct (node_rows sources (node, anc)) as [r0|]; cbn; [|done]. rewrite Hc. destruct (mapM (node_rows sources) (concat nss)); cbn; [|done]. by rewrite app_assoc.
  - destruct (node_rows sources (node, anc)) as [r0|]; cbn; [|done]. apply Hc.
Qed.
End Preorder.

(** [tree_flatten] lists the tree in preorder. A record with a root succeeds exactly
    when its headers can be read, no branch is deeper than [max_depth] and every node that
    makes a row can make it; its rows are then those of the leaves (and, when asked for,
    of the groups with cells) in the order of the tree, each with the labels of exactly
    the nodes above it. *)
Theorem tree_flatten_is_preorder json_str float_str spec leaf_mode obj :
  ok_of (tree_flatten json_str float_str spec leaf_mode (VObject obj)) =
  (sources ← ok_of (column_sources json_str float_str spec (VObject obj));
   match roots_of spec (VObject obj) with
   | None => Some None
   | Some roots =>
       trees ← mapM (fun root => preorder spec (Z.to_nat (tf_max_depth spec)) root []) roots;
       rows ← mapM (node_rows json_str float_str spec leaf_mode sources) (concat trees);
       Some (Some (concat rows))
   end).
Proof.
  cbn [tree_flatten]. rewrite ok_of_bind. destruct (ok_of (column_sources _ _ _ _)) as [sources|]; cbn [mbind option_bind]; [|done].
  destruct (roots_of spec (VObject obj)) as [roots|]; [|done]. rewrite ok_of_bind.
  pose proof (walk_all_spec json_str float_str spec leaf_mode sources (fun node out => walk json_str float_str spec leaf_mode sources (Z.to_nat (tf_max_depth spec)) node [] out)
    (fun root => preorder spec (Z.to_nat (tf_max_depth spec)) root []) roots [] ltac:(intros; apply walk_spec)) as H.
  etransitivity; [apply (f_equal (fun o => o ≫= fun rows => ok_of (Ok (Some rows) : result (option (list Value)) FaucetError)) H)|].
  destruct (mapM _ roots) as [trees|]; cbn; [|done]. by destruct (mapM _ (concat trees)).
Qed.

(** The fuel of a path is enough: more of it changes nothing. *)
Lemma strip_or_length s : (String.length (strip_or "." s) <= String.length s)%nat.
Proof. unfold strip_or. destruct s as [|c s]; cbn [strip_prefix]; [done|]. destruct (Ascii.eqb "." c); cbn; [|done]. by destruct s; cbn; lia. Qed.
Lemma split_at_length p s a b : split_at_char p s = (a, b) -> (String.length a + String.length b = String.length s)%nat.
Proof.
  revert a b. induction s as [|c s IH]; intros a b; cbn; [by intros [= <- <-]|]. destruct (p c); [by intros [= <- <-]|].
  destruct (split_at_char p s) as [a' b']. intros [= <- <-]. cbn. by rewrite (IH a' b').
Qed.
Lemma split_once_length sep s a b : split_once sep s = Some (a, b) -> (String.length b < String.length s)%nat.
Proof.
  revert a. induction s as [|c s IH]; intros a; cbn; [done|]. case_match; [intros [= <- <-]; lia|]. destruct (split_once sep s) as [[a' b']|]; [|done]. intros [= <- <-]. specialize (IH a' eq_refl). lia.
Qed.
Lemma tree_steps_fuel n m cur rest : (String.length rest <= n)%nat -> (String.length rest <= m)%nat -> tree_steps n cur rest = tree_steps m cur rest.
Proof.
  revert m cur rest. induction n as [|n IH]; intros m cur rest Hn Hm; destruct rest as [|c after]; try (cbn in Hn; lia); try (by destruct m).
  destruct m as [|m]; [cbn in Hm; lia|]. cbn [tree_steps]. cbn in Hn, Hm. destruct (Ascii.eqb c "[").
  - destruct (split_once "]" after) as [[digits close]|] eqn:Es; [|done]. apply split_once_length in Es. pose proof (strip_or_length close). cbn [mbind option_bind].
    destruct (parse_u64 (trim digits)); [|done]. cbn [mbind option_bind]. destruct (as_array cur) as [a|]; [|done]. cbn [mbind option_bind]. destruct (a !! _); [|done]. cbn [mbind option_bind]. apply IH; lia.
  - destruct (split_at_char is_dot_or_bracket (String c after)) as [key rest] eqn:Es. apply split_at_length in Es. cbn in Es. pose proof (strip_or_length rest).
    destruct key as [|k key]; [done|]. cbn [is_empty_str]. destruct (get cur _); [|done]. cbn in Es. cbn [mbind option_bind]. apply IH; lia.
Qed.

(** A small report: two sections, one of them with a subsection. *)
Definition demo_leaf (v : string) : Value := VObject [("cells", VArray [VString v])].
Definition demo_report : Value := VObject [("label", VString "top"); ("rows", VArray [demo_leaf "1"; VObject [("label", VString "sub"); ("rows", VArray [demo_leaf "2"])]])].
Definition demo_tree : TreeFlattenSpec :=
  MkTreeFlattenSpec None "rows" "has_no_children" (MkColumnsSpec "cells" None None "value") [] (Some (MkAncestorsSpec "label" ["l1"; "l2"])) None " > " false false 64.
(** The row of the upper leaf has no column for the level it lacks, where the
    documentation of [as_names] says missing levels are null. *)
Example missing_level_has_no_column :
  try_apply (fun s => s) (fun _ => EmptyString) demo_tree NoChildren demo_report =
  Ok [VObject [("l1", VString "top"); ("col_0", VString "1")]; VObject [("l1", VString "top"); ("l2", VString "sub"); ("col_0", VString "2")]].
Proof. vm_compute. reflexivity. Qed.
