(* ===== verification/Masking.v ===== *)
(** Masking of sensitive fields: crates/core/src/masking/{config,detect,hash,compile,mod}.rs.

    A policy names fields by dot-path or pattern and values by detector; each
    record is walked depth first and the first rule that matches a node rewrites
    it. The walk yields the rewritten node and the hits it adds. The regex and
    digest crates and serde_json's text of a float are the fields of [MaskLibs]:
    the three constant patterns of detect.rs are given as matchers.

    A byte stands for its character where the source matches ASCII characters
    and refuses any other: a longer character is refused at its first byte. *)
From S2P Require Import Prelude Errors Float64 Json Text StateKey TypedKey Contract WriteMode Transform.
From Stdlib Require Import Ascii.

Local Open Scope Z_scope.
Local Open Scope result_scope.

(** ** config.rs *)

Inductive Detector := Email | CreditCard | Ssn | Phone | Ipv4 | PhoneLoose.
#[export] Instance Detector_eq_dec : EqDecision Detector.
Proof. solve_decision. Defined.

(** [impl Display for Detector] and [detector_label]. *)
Definition detector_str (d : Detector) : string :=
  match d with
  | Email => "email" | CreditCard => "credit_card" | Ssn => "ssn"
  | Phone => "phone" | Ipv4 => "ipv4" | PhoneLoose => "phone_loose"
  end.
Definition detector_label (d : Detector) : string :=
  match d with
  | Email => "email" | CreditCard => "credit_card" | Ssn => "ssn"
  | Phone => "phone" | Ipv4 => "ipv4" | PhoneLoose => "phone_loose"
  end.

Inductive MaskAction :=
| Redact (mask : Value)
| Hash
| Tokenize (prefix : option string)
| Partial (keep_last : Z) (mask_char : option string).
Definition default_keep_last : Z := 4.
Definition default_mask : Value := VString "***".
Definition action_label_of (a : MaskAction) : string :=
  match a with Redact _ => "redact" | Hash => "hash" | Tokenize _ => "tokenize" | Partial _ _ => "partial" end.

Record MatchSpec := MkMatchSpec {
  ms_field_pattern : option string;
  ms_value_detector : option Detector;
  ms_fields : list string;
}.
Record MaskRule := MkMaskRule {
  mr_name : option string;
  mr_matcher : MatchSpec;
  mr_action : MaskAction;
  mr_applies_to : list string;
}.
Record MaskingSpec := MkMaskingSpec {
  sp_description : option string;
  sp_key : option string;
  sp_rules : list MaskRule;
}.

(** [name.clone().unwrap_or_else(|| format!("rule_{i}"))]. *)
Definition rule_label (rule : MaskRule) (i : Z) : string := default ("rule_" +:+ dec i) (mr_name rule).

Fixpoint unknown_from (known : string -> bool) (i : Z) (rules : list MaskRule) : list (string * string) :=
  match rules with
  | [] => []
  | rule :: rules =>
      ((fun t => (rule_label rule i, t)) <$> filter (fun t => known t = false) (mr_applies_to rule))
      ++ unknown_from known (i + 1) rules
  end.
Definition unknown_applies_to (spec : MaskingSpec) (known : string -> bool) : list (string * string) :=
  unknown_from known 0 (sp_rules spec).

(** ** Third-party code *)

Record MaskLibs (Regex : Type) := MkMaskLibs {
  regex_new : string -> result Regex string;
  is_match : Regex -> string -> bool;
  email_re : string -> bool;
  phone_re : string -> bool;
  ssn_captures : string -> option (string * string * string);
  float_str : f64 -> string;
  hmac_sha256 : string -> string -> list Z;
  sha256 : string -> list Z;
}.
Arguments MkMaskLibs {Regex}.
Arguments regex_new {Regex}.
Arguments is_match {Regex}.
Arguments email_re {Regex}.
Arguments phone_re {Regex}.
Arguments ssn_captures {Regex}.
Arguments float_str {Regex}.
Arguments hmac_sha256 {Regex}.
Arguments sha256 {Regex}.

(** ** detect.rs *)

Definition is_separator (c : ascii) : bool :=
  match c with " " | "." | "-" | "(" | ")" => true | _ => false end%char.

(** The loop of [is_phone]: the digits seen, or nothing on any other character. *)
Fixpoint phone_digits (rest : string) (digits : Z) : option Z :=
  match rest with
  | EmptyString => Some digits
  | String c rest =>
      if is_some (digit_value c) then phone_digits rest (digits + 1)
      else if is_separator c then phone_digits rest digits
      else None
  end.
Definition leads_with_1_9 (s : string) : bool :=
  match s with String c _ => (49 <=? byte_of c) && (byte_of c <=? 57) | EmptyString => false end.

Fixpoint loose_digits (i : nat) (value : string) (digits : Z) : option Z :=
  match value with
  | EmptyString => Some digits
  | String c value =>
      if is_some (digit_value c) then loose_digits (S i) value (digits + 1)
      else if Ascii.eqb c "+" && bool_decide (i = 0)%nat then loose_digits (S i) value digits
      else if is_separator c then loose_digits (S i) value digits
      else None
  end.
Definition is_phone_loose (value : string) : bool :=
  match loose_digits 0 value 0 with
  | Some digits => (10 <=? digits) && (digits <=? 15)
  | None => false
  end.

(** [part.parse::<u16>().unwrap_or(256)] of a part that is all digits. *)
Definition octet_value (part : string) : Z :=
  match parse_digits part 0 with Some n => if n <=? U16_MAX then n else 256 | None => 256 end.
Fixpoint ipv4_parts (octets : Z) (parts : list string) : bool :=
  match parts with
  | [] => octets =? 4
  | part :: parts =>
      let octets := octets + 1 in
      if 4 <? octets then false
      else if is_empty_str part || (3 <? Z.of_nat (String.length part)) || negb (all_digits part) then false
      else if (1 <? Z.of_nat (String.length part)) && starts_with "0" part then false
      else if 255 <? octet_value part then false
      else ipv4_parts octets parts
  end.
Definition is_ipv4 (value : string) : bool := ipv4_parts 0 (split_on DOT value).

(** [luhn_valid]: from the last digit on, every second digit doubled. *)
Definition luhn_value (double : bool) (d : Z) : Z :=
  if double then let v := d * 2 in if 9 <? v then v - 9 else v else d.
Fixpoint luhn_sum (double : bool) (digits : list Z) (sum : Z) : Z :=
  match digits with
  | [] => sum
  | d :: digits => luhn_sum (negb double) digits (sum + luhn_value double d)
  end.
Definition luhn_valid (digits : list Z) : bool := luhn_sum false (rev digits) 0 mod 10 =? 0.

(** The scan of [is_credit_card]: digits so far and whether a separator came last. *)
Fixpoint card_scan (value : string) (digits : list Z) (prev_sep : bool) : option (list Z * bool) :=
  match value with
  | EmptyString => Some (digits, prev_sep)
  | String c value =>
      match digit_value c with
      | Some d => card_scan value (digits ++ [d]) false
      | None =>
          if Ascii.eqb c " " || Ascii.eqb c "-" then
            if prev_sep then None else card_scan value digits true
          else None
      end
  end.
Fixpoint last_byte (s : string) : option ascii :=
  match s with
  | EmptyString => None
  | String c EmptyString => Some c
  | String _ s => last_byte s
  end.
Definition is_credit_card (value : string) : bool :=
  match card_scan value [] true with
  | None => false
  | Some (digits, prev_sep) =>
      if prev_sep && negb (is_nil digits)
         && (bool_decide (last_byte value = Some " "%char) || bool_decide (last_byte value = Some "-"%char)) then false
      else if (zlen digits <? 13) || (19 <? zlen digits) then false
      else luhn_valid digits
  end.

Definition matches_numbers (detector : Detector) : bool :=
  match detector with CreditCard | PhoneLoose => true | _ => false end.

(** ** hash.rs *)

Inductive Hasher := Keyed (key : string) | Unkeyed.
Definition from_key (key : option string) : Hasher := match key with Some k => Keyed k | None => Unkeyed end.
Fixpoint to_hex (bytes : list Z) : string :=
  match bytes with
  | [] => EmptyString
  | b :: bytes => String (hex_char (Z.shiftr b 4)) (String (hex_char (Z.land b 15)) (to_hex bytes))
  end.

Section Masking.
Context {Regex : Type} (L : MaskLibs Regex).

Definition is_ssn (value : string) : bool :=
  match ssn_captures L value with
  | None => false
  | Some (area, group, serial) =>
      negb (string_eqb area "000") && negb (string_eqb area "666") && negb (starts_with "9" area)
      && negb (string_eqb group "00") && negb (string_eqb serial "0000")
  end.
Definition is_phone (value : string) : bool :=
  match strip_prefix "+" value with
  | Some rest =>
      match phone_digits rest 0 with
      | Some digits => leads_with_1_9 rest && ((8 <=? digits) && (digits <=? 15))
      | None => false
      end
  | None => phone_re L value
  end.
Definition detects (detector : Detector) (value : string) : bool :=
  match detector with
  | Email => email_re L value
  | Ssn => is_ssn value
  | Phone => is_phone value
  | Ipv4 => is_ipv4 value
  | CreditCard => is_credit_card value
  | PhoneLoose => is_phone_loose value
  end.
Definition detects_value (detector : Detector) (value : Value) : bool :=
  match value with
  | VString s => detects detector s
  | VNumber _ =>
      if matches_numbers detector then
        match as_u64 value with Some u => detects detector (dec u) | None => false end
      else false
  | _ => false
  end.

Definition digest_hex (h : Hasher) (input : string) : string :=
  to_hex (match h with Keyed key => hmac_sha256 L key input | Unkeyed => sha256 L input end).
Definition token (h : Hasher) (input prefix : string) : string :=
  let full := digest_hex h input in
  prefix +:+ str_take (Nat.min 16 (String.length full)) full.

(** ** compile.rs *)

Record CompiledRule := MkCompiledRule {
  cr_label : string;
  cr_field_pattern : option Regex;
  cr_value_detector : option Detector;
  cr_fields : gset string;
  cr_action : MaskAction;
  cr_action_label : string;
}.
Record CompiledMasking := MkCompiledMasking {
  cm_rules : list CompiledRule;
  cm_hasher : Hasher;
  cm_needs_paths : bool;
  cm_stringify_numbers : bool;
}.
Definition config_err (msg : string) : FaucetError := Config ("masking: " +:+ msg).

Definition applies (rule : MaskRule) (sink_ids : option (list string)) : bool :=
  match sink_ids with
  | None => true
  | Some ids => is_nil (mr_applies_to rule) || existsb (fun t => mem t ids) (mr_applies_to rule)
  end.

Definition compile_rule (rule : MaskRule) (index : Z) : result CompiledRule FaucetError :=
  let ms := mr_matcher rule in
  if is_none (ms_field_pattern ms) && is_none (ms_value_detector ms) && is_nil (ms_fields ms) then
    Err (config_err ("rule " +:+ dec index +:+ ": `match` must set at least one of field_pattern / value_detector / fields"))
  else
    let? field_pattern :=
      match ms_field_pattern ms with
      | Some p => match regex_new L p with
                  | Ok re => Ok (Some re)
                  | Err e => Err (config_err ("rule " +:+ dec index +:+ ": invalid field_pattern regex '" +:+ p +:+ "': " +:+ e))
                  end
      | None => Ok None
      end in
    match mr_action rule with
    | Tokenize (Some EmptyString) =>
        Err (config_err ("rule " +:+ dec index +:+ ": tokenize prefix, when set, must be non-empty (omit it for no prefix)"))
    | _ =>
        Ok (MkCompiledRule (rule_label rule index) field_pattern (ms_value_detector ms)
              (list_to_set (ms_fields ms)) (mr_action rule) (action_label_of (mr_action rule)))
    end.

Fixpoint compile_rules (sink_ids : option (list string)) (i : Z) (rules : list MaskRule) : result (list CompiledRule) FaucetError :=
  match rules with
  | [] => Ok []
  | rule :: rules =>
      let? compiled := compile_rule rule i in
      let? rest := compile_rules sink_ids (i + 1) rules in
      Ok (if applies rule sink_ids then compiled :: rest else rest)
  end.

(** Whether some rule matches by name, or by value on numbers. *)
Definition names_fields (r : CompiledRule) : bool := is_some (cr_field_pattern r) || negb (bool_decide (cr_fields r = ∅)).
Definition retypes (r : CompiledRule) : bool :=
  match cr_value_detector r with Some d => matches_numbers d | None => false end.

Definition EMPTY_KEY : string :=
  "`key` is set but empty (did a secret or environment reference resolve to an empty string?) — a digest under an empty key can be recomputed by anyone; supply the key or remove `key` for an unkeyed digest".
Definition compile_scoped (spec : MaskingSpec) (sink_ids : option (list string)) : result CompiledMasking FaucetError :=
  if is_nil (sp_rules spec) then Err (config_err "at least one rule is required")
  else if match sp_key spec with Some k => is_empty_str (trim k) | None => false end then Err (config_err EMPTY_KEY)
  else
    let? rules := compile_rules sink_ids 0 (sp_rules spec) in
    Ok (MkCompiledMasking rules (from_key (sp_key spec)) (existsb names_fields rules) (existsb retypes rules)).
Definition compile (spec : MaskingSpec) : result CompiledMasking FaucetError := compile_scoped spec None.
Definition compile_for_sink (spec : MaskingSpec) (sink_ids : list string) : result CompiledMasking FaucetError :=
  compile_scoped spec (Some sink_ids).
Definition masking_is_empty (m : CompiledMasking) : bool := is_nil (cm_rules m).
Definition rule_count (m : CompiledMasking) : Z := zlen (cm_rules m).

(** Whether the rule's name matchers accept a path. *)
Definition name_hit (r : CompiledRule) (path : string) : bool :=
  bool_decide (path ∈ cr_fields r)
  || match cr_field_pattern r with Some re => is_match L re path | None => false end.
Definition rewrites_name (m : CompiledMasking) (name : string) : bool := existsb (fun r => name_hit r name) (cm_rules m).
Definition retypes_by_value (m : CompiledMasking) : bool := cm_stringify_numbers m.

(** [name_action_for]: the rules at one prefix ([None]: try the next prefix),
    and the loop over the dots of the column. *)
Fixpoint action_at (prefix : string) (leaf : bool) (rules : list CompiledRule) : option (option string) :=
  match rules with
  | [] => None
  | r :: rules =>
      if name_hit r prefix then Some (Some (cr_action_label r))
      else if leaf && is_some (cr_value_detector r) then Some None
      else action_at prefix leaf rules
  end.
Fixpoint find_dot (s : string) : option nat :=
  match s with
  | EmptyString => None
  | String c s => if Ascii.eqb c DOT then Some O else S <$> find_dot s
  end.
Fixpoint name_action_loop (fuel : nat) (rules : list CompiledRule) (column : string) (end_ : nat) : option string :=
  match fuel with
  | O => None
  | S fuel =>
      if (end_ <? String.length column)%nat then
        let end_ := match find_dot (str_drop end_ column) with
                    | Some i => (end_ + i)%nat
                    | None => String.length column
                    end in
        match action_at (str_take end_ column) (end_ =? String.length column)%nat rules with
        | Some answer => answer
        | None => name_action_loop fuel rules column (end_ + 1)
        end
      else None
  end.
Definition name_action_for (m : CompiledMasking) (column : string) : option string :=
  name_action_loop (S (String.length column)) (cm_rules m) column 0.

(** ** mod.rs *)

Record MaskHit := MkMaskHit { mh_rule : string; mh_action : string; mh_detector : option string }.
Record MaskingOutcome := MkMaskingOutcome { mo_records : list Value; mo_hits : list MaskHit }.

Definition UNTRACKED_PATH : string := "*".
Definition child_path (prefix key : string) : string :=
  if is_empty_str prefix then key else prefix +:+ "." +:+ key.
Definition hit (rule : CompiledRule) (detector : option string) : MaskHit :=
  MkMaskHit (cr_label rule) (cr_action_label rule) detector.

Definition scalar_to_string (v : Value) : option string :=
  match v with
  | VString s => Some s
  | VNumber n => Some (number_str (float_str L) n)
  | VBool b => Some (bool_str b)
  | _ => None
  end.

Definition partial (value : string) (keep_last : Z) (mask_char : string) : string :=
  let cs := chars value in
  let n := zlen cs in
  let revealed := if n <=? keep_last then 0 else keep_last in
  let masked_len := Z.to_nat (n - revealed) in
  concat_all (replicate masked_len mask_char) +:+ concat_all (drop masked_len cs).

Definition apply_scalar_action (action : MaskAction) (value : string) (hasher : Hasher) : string :=
  match action with
  | Hash => digest_hex hasher value
  | Tokenize prefix => token hasher value (default EmptyString prefix)
  | Partial keep_last mask_char => partial value keep_last (default "*" mask_char)
  | Redact _ => "***"
  end.

(** [first_match]: the rules in order, by name and then by value. *)
Fixpoint match_rules (node : Value) (path : string) (rules : list CompiledRule) : option (CompiledRule * option string) :=
  match rules with
  | [] => None
  | rule :: rules =>
      if negb (is_empty_str path) && match cr_field_pattern rule with Some re => is_match L re path | None => false end then
        Some (rule, None)
      else if negb (is_empty_str path) && bool_decide (path ∈ cr_fields rule) then Some (rule, None)
      else match cr_value_detector rule with
           | Some det => if detects_value det node then Some (rule, Some (detector_label det))
                         else match_rules node path rules
           | None => match_rules node path rules
           end
  end.
Definition first_match (node : Value) (path : string) (m : CompiledMasking) : option (CompiledRule * option string) :=
  match_rules node path (cm_rules m).

Fixpoint mask_leaves (rule : CompiledRule) (action : MaskAction) (hasher : Hasher) (node : Value) : Value * list MaskHit :=
  match node with
  | VObject map_ =>
      let rs := map (fun e => (e.1, mask_leaves rule action hasher e.2)) map_ in
      (VObject (map (fun r => (r.1, r.2.1)) rs), concat (map (fun r => r.2.2) rs))
  | VArray items =>
      let rs := map (mask_leaves rule action hasher) items in
      (VArray (map fst rs), concat (map snd rs))
  | leaf =>
      match scalar_to_string leaf with
      | Some s => (VString (apply_scalar_action action s hasher), [hit rule None])
      | None => (leaf, [])
      end
  end.

(** The path of a child: built only when some rule matches by name. *)
Definition sub_path (m : CompiledMasking) (path key : string) : string :=
  if cm_needs_paths m then child_path path key else UNTRACKED_PATH.

Fixpoint mask_node (m : CompiledMasking) (path : string) (node : Value) {struct node} : Value * list MaskHit :=
  let descend :=
    match node with
    | VObject map_ =>
        let rs := map (fun e => (e.1, mask_node m (sub_path m path e.1) e.2)) map_ in
        (VObject (map (fun r => (r.1, r.2.1)) rs), concat (map (fun r => r.2.2) rs))
    | VArray items =>
        let rs := (fix go i items := match items with
                                     | [] => []
                                     | v :: items => mask_node m (sub_path m path (dec i)) v :: go (i + 1) items
                                     end) 0 items in
        (VArray (map fst rs), concat (map snd rs))
    | VNumber n => (if cm_stringify_numbers m then VString (number_str (float_str L) n) else node, [])
    | _ => (node, [])
    end in
  if is_null node then (node, [])
  else match first_match node path m with
       | Some (rule, detector) =>
           match cr_action rule with
           | Redact mask => (mask, [hit rule detector])
           | action =>
               match scalar_to_string node with
               | Some s => (VString (apply_scalar_action action s (cm_hasher m)), [hit rule detector])
               | None => match node with
                         | VObject _ | VArray _ => mask_leaves rule action (cm_hasher m) node
                         | _ => descend
                         end
               end
           end
       | None => descend
       end.

Definition apply_masking (records : list Value) (masking : CompiledMasking) : MaskingOutcome :=
  let rs := mask_node masking EmptyString <$> records in
  MkMaskingOutcome (rs.*1) (concat rs.*2).

End Masking.
Arguments MkCompiledRule {Regex}.
Arguments MkCompiledMasking {Regex}.
Arguments cr_label {Regex}.
Arguments cr_field_pattern {Regex}.
Arguments cr_value_detector {Regex}.
Arguments cr_fields {Regex}.
Arguments cr_action {Regex}.
Arguments cr_action_label {Regex}.
Arguments cm_rules {Regex}.
Arguments cm_hasher {Regex}.
Arguments cm_needs_paths {Regex}.
Arguments cm_stringify_numbers {Regex}.
Arguments mask_node {Regex} L m path !node.

(** ** Places in a record *)

(** The child at a position, with the name the walk gives it. *)
Definition child (v : Value) (n : nat) : option (string * Value) :=
  match v with
  | VObject m => m !! n
  | VArray l => (fun x => (dec (Z.of_nat n), x)) <$> l !! n
  | _ => None
  end.
(** The value at a sequence of positions, with the names on the way. *)
Fixpoint locate (v : Value) (ns : list nat) : option (list string * Value) :=
  match ns with
  | [] => Some ([], v)
  | n :: ns => match child v n with
               | Some (k, c) => match locate c ns with
                                | Some (segs, w) => Some (k :: segs, w)
                                | None => None
                                end
               | None => None
               end
  end.
Definition is_scalar (v : Value) : bool :=
  match v with VBool _ | VNumber _ | VString _ => true | _ => false end.
(** A key a dot-path can carry: not empty and without a dot. *)
Definition plain_key (k : string) : Prop := k <> EmptyString /\ contains_char DOT k = false.

(** ** Dot-paths *)

Lemma str_drop_app a b : str_drop (String.length a) (a +:+ b) = b.
Proof. by induction a. Qed.
Lemma str_take_app a b : str_take (String.length a) (a +:+ b) = a.
Proof. induction a as [|c a IH]; [by destruct b|]. simpl. by rewrite IH. Qed.
Lemma str_take_all a : str_take (String.length a) a = a.
Proof. rewrite <- (str_take_app a EmptyString) at 3. by rewrite string_app_nil_r. Qed.

Lemma find_dot_app s t : contains_char DOT s = false -> find_dot (s +:+ t) = (fun i => String.length s + i)%nat <$> find_dot t.
Proof.
  induction s as [|c s IH]; intros H; [change (EmptyString +:+ t) with t; by destruct (find_dot t)|].
  change (String c s +:+ t) with (String c (s +:+ t)). cbn [find_dot contains_char String.length] in *.
  apply orb_false_iff in H as [Hc%bool_decide_eq_false H]. apply Ascii.eqb_neq in Hc as ->.
  rewrite IH by done. by destruct (find_dot t).
Qed.

Lemma find_dot_none s : contains_char DOT s = false -> find_dot s = None.
Proof. intros H. rewrite <- (string_app_nil_r s). by rewrite find_dot_app. Qed.

Lemma child_path_nonempty p k : k <> EmptyString -> is_empty_str (child_path p k) = false.
Proof. intros Hk. unfold child_path. destruct p; simpl; [by destruct k|done]. Qed.

(** The walk over the prefixes of a column, by segments. *)
Fixpoint action_over {Regex} (L : MaskLibs Regex) (rules : list (CompiledRule (Regex := Regex))) (path : string) (segs : list string) : option string :=
  match segs with
  | [] => None
  | k :: segs => match action_at L (child_path path k) (is_nil segs) rules with
                 | Some answer => answer
                 | None => action_over L rules (child_path path k) segs
                 end
  end.

Definition head_of (path : string) : string := if is_empty_str path then EmptyString else path +:+ ".".
Lemma head_child path k : head_of path +:+ k = child_path path k.
Proof. unfold head_of, child_path. destruct (is_empty_str path); [done|]. by rewrite string_app_assoc. Qed.

Lemma name_action_segments {Regex} (L : MaskLibs Regex) rules segs path fuel :
  Forall plain_key segs ->
  (String.length (join "." segs) < fuel)%nat ->
  name_action_loop L fuel rules (head_of path +:+ join "." segs) (String.length (head_of path)) = action_over L rules path segs.
Proof.
  revert path fuel. induction segs as [|k segs IH]; intros path [|fuel] Hs Hf; try lia.
  { cbn -[Nat.ltb]. rewrite string_app_nil_r, Nat.ltb_irrefl. done. }
  apply Forall_cons in Hs as [[Hk Hd] Hs]. cbn [name_action_loop action_over].
  assert (0 < String.length k)%nat by (destruct k; simpl; [done|lia]).
  rewrite str_drop_app. destruct segs as [|k' segs].
  - cbn [join is_nil]. rewrite find_dot_none by done.
    rewrite str_take_all, head_child, (proj2 (Nat.ltb_lt _ _)), Nat.eqb_refl by (rewrite <- head_child, string_length_app; lia).
    destruct (action_at _ _ _ _) eqn:Ha; [done|]. destruct fuel; [done|]. cbn [name_action_loop].
    by rewrite (proj2 (Nat.ltb_ge _ _)) by lia.
  - set (rest := join "." (k' :: segs)) in *. replace (join "." (k :: k' :: segs)) with (k +:+ "." +:+ rest) in * by done.
    rewrite find_dot_app by done. change (find_dot ("." +:+ rest)) with (Some 0%nat).
    cbn [fmap option_fmap option_map is_nil]. rewrite Nat.add_0_r, <- string_length_app, <- string_app_assoc, str_take_app, head_child.
    rewrite !string_length_app in *. change (String.length ".") with 1%nat in *.
    assert (String.length (head_of path) + String.length k = String.length (child_path path k))%nat as Hl by (by rewrite <- string_length_app, head_child).
    rewrite (proj2 (Nat.ltb_lt _ _)) by lia. rewrite (proj2 (Nat.eqb_neq _ _)) by lia.
    destruct (action_at _ _ _ _) eqn:Ha; [done|].
    specialize (IH (child_path path k) fuel Hs ltac:(lia)). unfold head_of in IH at 1 2. rewrite child_path_nonempty in IH by done.
    rewrite string_app_assoc, string_length_app in IH. exact IH.
Qed.

(** ** The walk *)

Section Walk.
Context {Regex : Type} (L : MaskLibs Regex).
Implicit Types (m : CompiledMasking (Regex := Regex)) (r : CompiledRule (Regex := Regex)).

(** What compiling a policy establishes. *)
Definition compiled_ok m : Prop :=
  cm_needs_paths m = existsb names_fields (cm_rules m) /\
  cm_stringify_numbers m = existsb retypes (cm_rules m) /\
  Forall (fun r => cr_action_label r = action_label_of (cr_action r)) (cm_rules m).

Lemma compile_rules_labels ids i rules l : compile_rules L ids i rules = Ok l ->
  Forall (fun r => cr_action_label r = action_label_of (cr_action r)) l.
Proof.
  revert i l. induction rules as [|rule rules IH]; intros i l; cbn [compile_rules]; [by intros [= <-]|].
  destruct (compile_rule L rule i) as [c|] eqn:Hc; [|done]. cbn [result_bind].
  destruct (compile_rules L ids (i + 1) rules) as [rest|] eqn:Hr; [|done]. cbn [result_bind]. intros [= <-].
  apply IH in Hr. destruct (applies rule ids); [|done]. constructor; [|done]. clear - Hc. unfold compile_rule in Hc.
  case_match; [done|]. destruct (match ms_field_pattern _ with Some _ => _ | None => _ end); [|done].
  cbn [result_bind] in Hc. case_all.
Qed.

Lemma compile_scoped_ok spec ids m : compile_scoped L spec ids = Ok m -> compiled_ok m.
Proof.
  unfold compile_scoped. do 2 (case_match; [done|]).
  destruct (compile_rules L ids 0 (sp_rules spec)) as [l|] eqn:Hl; [|done]. cbn [result_bind]. intros [= <-].
  split_and!; [done..|]. by eapply compile_rules_labels.
Qed.

(** The policy with its paths always tracked. *)
Definition tracked m := MkCompiledMasking (cm_rules m) (cm_hasher m) true (cm_stringify_numbers m).

Lemma name_hit_nameless r path : names_fields r = false -> name_hit L r path = false.
Proof.
  unfold names_fields, name_hit. intros [Hp Hf]%orb_false_iff. apply negb_false_iff, bool_decide_eq_true in Hf as ->.
  destruct (cr_field_pattern r); [done|]. by rewrite bool_decide_eq_false_2 by set_solver.
Qed.

Lemma match_rules_cons node path r rules : match_rules L node path (r :: rules) =
  if negb (is_empty_str path) && name_hit L r path then Some (r, None)
  else match cr_value_detector r with
       | Some d => if detects_value L d node then Some (r, Some (detector_label d)) else match_rules L node path rules
       | None => match_rules L node path rules
       end.
Proof.
  cbn [match_rules]. unfold name_hit. destruct (negb (is_empty_str path)); cbn [andb]; [|done].
  destruct (match cr_field_pattern r with Some _ => _ | None => _ end), (bool_decide (path ∈ cr_fields r)); done.
Qed.

Lemma match_rules_nameless node p q rules : existsb names_fields rules = false ->
  match_rules L node p rules = match_rules L node q rules.
Proof.
  induction rules as [|r rules IH]; [done|]. cbn [existsb]. intros [Hr Hs]%orb_false_iff.
  rewrite !match_rules_cons, !name_hit_nameless, !andb_false_r, IH by done. done.
Qed.

(** The elements of an array with their paths. *)
Lemma mask_items_imap (f : string -> Value -> Value * list MaskHit) items i :
  (fix go i items := match items with [] => [] | v :: items => f (dec i) v :: go (i + 1) items end) i items
  = imap (fun n v => f (dec (i + Z.of_nat n)) v) items.
Proof.
  revert i. induction items as [|v items IH]; intros i; [done|]. rewrite imap_cons, Z.add_0_r. f_equal. rewrite IH.
  apply imap_ext. intros n x _. simpl. do 2 f_equal. lia.
Qed.

(** Where no rule matches, a container is rewritten child by child. *)
Definition descend m (path : string) (node : Value) : Value * list MaskHit :=
  match node with
  | VObject map_ =>
      let rs := map (fun e => (e.1, mask_node L m (sub_path m path e.1) e.2)) map_ in
      (VObject (map (fun e => (e.1, e.2.1)) rs), concat (map (fun e => e.2.2) rs))
  | VArray items =>
      let rs := imap (fun n v => mask_node L m (sub_path m path (dec (Z.of_nat n))) v) items in
      (VArray (map fst rs), concat (map snd rs))
  | VNumber n => (if cm_stringify_numbers m then VString (number_str (float_str L) n) else node, [])
  | _ => (node, [])
  end.

Lemma mask_node_eq m path node : mask_node L m path node =
  if is_null node then (node, [])
  else match first_match L node path m with
       | Some (rule, detector) =>
           match cr_action rule with
           | Redact mask => (mask, [hit rule detector])
           | action =>
               match scalar_to_string L node with
               | Some s => (VString (apply_scalar_action L action s (cm_hasher m)), [hit rule detector])
               | None => mask_leaves L rule action (cm_hasher m) node
               end
           end
       | None => descend m path node
       end.
Proof.
  destruct node as [|b|x|s|items|map_]; cbn [mask_node is_null scalar_to_string descend]; [reflexivity|..];
    rewrite ?(mask_items_imap (fun k v => mask_node L m (sub_path m path k) v));
    destruct (first_match _ _ _ _) as [[rule det]|]; [destruct (cr_action rule)|..]; reflexivity.
Qed.

(** Without name rules the paths are never read. *)
Lemma mask_node_tracked m p q v : compiled_ok m -> cm_needs_paths m = false -> mask_node L m p v = mask_node L (tracked m) q v.
Proof.
  intros (Hn & _ & _) Hf. assert (existsb names_fields (cm_rules m) = false) as Hs by congruence. revert p q.
  induction v as [| | | |items IH|map_ IH] using Value_nested_ind; intros p q; rewrite !mask_node_eq; cbn [is_null];
    unfold first_match; change (cm_rules (tracked m)) with (cm_rules m); rewrite ?(match_rules_nameless _ p q) by done;
    try done; change (cm_hasher (tracked m)) with (cm_hasher m); destruct (match_rules _ _ _ _) as [[rule det]|]; try done; cbn [descend].
  - assert (imap (fun n v => mask_node L m (sub_path m p (dec (Z.of_nat n))) v) items
          = imap (fun n v => mask_node L (tracked m) (sub_path (tracked m) q (dec (Z.of_nat n))) v) items) as ->; [|done].
    apply imap_ext. intros n x Hx. rewrite Forall_forall in IH. apply IH. by eapply list_elem_of_lookup_2.
  - assert (map (fun e => (e.1, mask_node L m (sub_path m p e.1) e.2)) map_
          = map (fun e => (e.1, mask_node L (tracked m) (sub_path (tracked m) q e.1) e.2)) map_) as ->; [|done].
    apply map_ext_in. intros e He. f_equal. rewrite Forall_forall in IH. apply (IH e). by apply list_elem_of_In.
Qed.

Lemma mask_node_tracks m v : compiled_ok m -> mask_node L m EmptyString v = mask_node L (tracked m) EmptyString v.
Proof.
  intros Hm. destruct (cm_needs_paths m) eqn:Hp; [|by apply mask_node_tracked].
  assert (tracked m = m) as ->; [|done]. destruct m; unfold tracked; cbn in *; congruence.
Qed.

(** A rule's rewriting of the leaf at [ns]: a redaction replaced the leaf or a
    container of it, any other action rewrote the leaf's text. *)
Definition masked_by m r (ns : list nat) (segs : list string) (leaf out : Value) : Prop :=
  match cr_action r with
  | Redact mask => exists a b, ns = a ++ b /\ snd <$> locate out a = Some mask
  | action => exists s, scalar_to_string L leaf = Some s /\
                locate out ns = Some (segs, VString (apply_scalar_action L action s (cm_hasher m)))
  end.

Lemma scalar_text v : is_scalar v = true -> exists s, scalar_to_string L v = Some s.
Proof. destruct v; naive_solver. Qed.

Lemma locate_cons v n ns segs w : locate v (n :: ns) = Some (segs, w) <->
  exists k c segs', child v n = Some (k, c) /\ segs = k :: segs' /\ locate c ns = Some (segs', w).
Proof.
  cbn [locate]. destruct (child v n) as [[k c]|]; [|split; [done|by intros (? & ? & ? & ? & _)]]. split.
  - destruct (locate c ns) as [[ss x]|] eqn:Hl; [|done]. intros [= <- <-]. by exists k, c, ss.
  - by intros (? & ? & ss & [= <- <-] & -> & ->).
Qed.

Lemma lookup_map {A B} (f : A -> B) (l : list A) n : map f l !! n = f <$> l !! n.
Proof. apply list_lookup_fmap. Qed.

Lemma child_leaves r a h v n k c : child v n = Some (k, c) -> child (mask_leaves L r a h v).1 n = Some (k, (mask_leaves L r a h c).1).
Proof.
  destruct v as [| | | |l|map_]; try done; cbn [child mask_leaves fst].
  - rewrite !lookup_map. destruct (l !! n); [|done]. by intros [= <- <-].
  - rewrite !lookup_map. by intros ->.
Qed.
Lemma locate_leaves r a h v ns segs leaf s : locate v ns = Some (segs, leaf) -> scalar_to_string L leaf = Some s ->
  locate (mask_leaves L r a h v).1 ns = Some (segs, VString (apply_scalar_action L a s h)).
Proof.
  revert v segs. induction ns as [|n ns IH]; intros v segs.
  - intros [= <- ->] Hs. destruct leaf; naive_solver.
  - intros (k & c & segs' & Hc & -> & Hl)%locate_cons Hs. apply locate_cons. exists k, (mask_leaves L r a h c).1, segs'.
    split_and!; [by apply child_leaves|done|by apply IH].
Qed.

Lemma child_descend m path v n k c : child v n = Some (k, c) -> child (descend m path v).1 n = Some (k, (mask_node L m (sub_path m path k) c).1).
Proof.
  destruct v as [| | | |l|map_]; try done; cbn [child descend fst].
  - rewrite lookup_map, list_lookup_imap. destruct (l !! n); [|done]. by intros [= <- <-].
  - rewrite !lookup_map. by intros ->.
Qed.

(** A container no rule names is walked into. *)
Lemma child_mask m path v n k c : child v n = Some (k, c) -> first_match L v path m = None ->
  child (mask_node L m path v).1 n = Some (k, (mask_node L m (sub_path m path k) c).1).
Proof.
  intros Hc Hm. rewrite mask_node_eq, Hm. destruct v as [| | | |l|map_]; try done; cbn [is_null]; by apply child_descend.
Qed.

(** The prefix test of [name_action_for] is the walk's own. *)
Lemma action_at_match path rules node leaf answer : path <> EmptyString ->
  (leaf = false -> is_scalar node = false) ->
  action_at L path leaf rules = Some (Some answer) ->
  exists r, r ∈ rules /\ cr_action_label r = answer /\ match_rules L node path rules = Some (r, None).
Proof.
  intros Hp Hn. induction rules as [|r rules IH]; [done|]. cbn [action_at]. rewrite match_rules_cons.
  replace (is_empty_str path) with false by (by destruct path). cbn [negb andb].
  destruct (name_hit L r path); [intros [= <-]; exists r; split_and!; [set_solver|done..]|].
  destruct (leaf && is_some (cr_value_detector r)) eqn:Hd; [done|]. intros (r' & Hr & Ha & He)%IH.
  exists r'. split_and!; [set_solver|done|]. destruct (cr_value_detector r) as [d|]; [|done].
  rewrite andb_comm in Hd. cbn in Hd. specialize (Hn Hd). by destruct node.
Qed.
Lemma action_at_none path rules node : is_scalar node = false -> action_at L path false rules = None -> match_rules L node path rules = None.
Proof.
  intros Hn. induction rules as [|r rules IH]; [done|]. cbn [action_at]. rewrite match_rules_cons.
  destruct (name_hit L r path); [done|]. cbn [andb]. rewrite andb_false_r. intros H%IH. destruct (cr_value_detector r) as [d|]; [|done].
  rewrite H. by destruct node.
Qed.

Lemma locate_container v n ns segs w : locate v (n :: ns) = Some (segs, w) -> is_scalar v = false /\ is_null v = false.
Proof. intros (k & c & segs' & Hc & _)%locate_cons. by destruct v. Qed.

(** The node a name rule matches is rewritten, with every leaf below it. *)
Lemma masked_here m path v r ns segs leaf : is_null v = false -> first_match L v path m = Some (r, None) ->
  locate v ns = Some (segs, leaf) -> is_scalar leaf = true -> masked_by m r ns segs leaf (mask_node L m path v).1.
Proof.
  intros Hv Hm Hl Hs. rewrite mask_node_eq, Hv, Hm. destruct (scalar_text leaf Hs) as [s Es].
  assert (is_scalar v = true -> ns = [] /\ segs = [] /\ v = leaf) as Hb.
  { intros Hc. destruct ns as [|n ns]; [by injection Hl as <- <-|]. apply locate_container in Hl as [? _]. congruence. }
  unfold masked_by. destruct (cr_action r) as [mask| | |]; [by exists [], ns|..]; exists s; (split; [done|]);
    (destruct (scalar_to_string L v) as [s'|] eqn:Ev; [|by eapply locate_leaves]);
    (destruct Hb as (-> & -> & ->); [by destruct v|]); cbn; congruence.
Qed.
Lemma masked_by_child m r n ns k segs leaf out out' : child out n = Some (k, out') -> masked_by m r ns segs leaf out' ->
  masked_by m r (n :: ns) (k :: segs) leaf out.
Proof.
  intros Hc. unfold masked_by. destruct (cr_action r) as [mask| | |].
  { intros (a & b & -> & Hl). exists (n :: a), b. split; [done|]. cbn [locate]. rewrite Hc. by destruct (locate out' a) as [[? ?]|]. }
  all: intros (s & Es & Hl); exists s; split; [done|]; apply locate_cons; by exists k, out', segs.
Qed.

Lemma masked_below m path v ns segs leaf lbl : cm_needs_paths m = true ->
  locate v ns = Some (segs, leaf) -> is_scalar leaf = true -> Forall plain_key segs ->
  first_match L v path m = None -> action_over L (cm_rules m) path segs = Some lbl ->
  exists r, r ∈ cm_rules m /\ cr_action_label r = lbl /\ masked_by m r ns segs leaf (mask_node L m path v).1.
Proof.
  intros Hp. revert path v segs. induction ns as [|n ns IH]; intros path v segs Hl Hs Hk Hm Ha.
  { by injection Hl as <- <-. }
  apply locate_cons in Hl as (k & c & segs' & Hc & -> & Hl). apply Forall_cons in Hk as [[Hk _] Hks]. cbn [action_over] in Ha.
  pose proof (child_mask m path v n k c Hc Hm) as Hcm. unfold sub_path in Hcm. rewrite Hp in Hcm.
  assert (child_path path k <> EmptyString) as Hne by (intros E; pose proof (child_path_nonempty path k Hk); by rewrite E in *).
  assert (is_null c = false /\ (is_nil segs' = false -> is_scalar c = false) /\ (is_nil segs' = true -> ns = [])) as (Hnull & Hleaf & Hnil).
  { destruct ns as [|n' ns]; [injection Hl as <- <-; by destruct c|]. destruct (locate_container _ _ _ _ _ Hl).
    by apply locate_cons in Hl as (? & ? & ? & _ & -> & _). }
  destruct (action_at L (child_path path k) (is_nil segs') (cm_rules m)) as [answer|] eqn:Hat.
  - subst answer. destruct (action_at_match _ _ c _ _ Hne Hleaf Hat) as (r & Hr & <- & Hf). exists r. split_and!; [done..|].
    eapply masked_by_child; [exact Hcm|]. by apply masked_here.
  - destruct (is_nil segs') eqn:Hsg; [by destruct segs'|].
    destruct (IH (child_path path k) c segs' Hl Hs Hks) as (r & Hr & Hlbl & Hmb); [by apply action_at_none; auto|done|].
    exists r. split_and!; [done..|]. by eapply masked_by_child.
Qed.

Lemma root_unmatched v rules : is_scalar v = false -> match_rules L v EmptyString rules = None.
Proof.
  intros Hv. induction rules as [|r rules IH]; [done|]. rewrite match_rules_cons. cbn [is_empty_str negb andb].
  destruct (cr_value_detector r); [|done]. rewrite IH. by destruct v.
Qed.

Lemma name_action_column m segs : Forall plain_key segs ->
  name_action_for L m (join "." segs) = action_over L (cm_rules m) EmptyString segs.
Proof.
  intros Hs. unfold name_action_for. by rewrite <- (name_action_segments L _ segs EmptyString (S (String.length (join "." segs)))) by (done || lia).
Qed.

Lemma attested_masked m rec ns segs leaf lbl : compiled_ok m ->
  locate rec ns = Some (segs, leaf) -> is_scalar leaf = true -> Forall plain_key segs ->
  name_action_for L m (join "." segs) = Some lbl ->
  exists r, r ∈ cm_rules m /\ action_label_of (cr_action r) = lbl /\ masked_by m r ns segs leaf (mask_node L m EmptyString rec).1.
Proof.
  intros Hm Hl Hs Hk Ha. rewrite name_action_column in Ha by done. rewrite mask_node_tracks by done.
  destruct (masked_below (tracked m) EmptyString rec ns segs leaf lbl) as (r & Hr & Hlbl & Hmb); try done.
  { destruct ns as [|n ns]; [by injection Hl as <- <-|]. apply root_unmatched. by eapply locate_container. }
  exists r. split_and!; [done| |done]. destruct Hm as (_ & _ & Hlab). rewrite Forall_forall in Hlab. by rewrite <- Hlab.
Qed.

(** Where nothing matches on the way to a leaf, the leaf keeps its value. *)
Definition kept_as m (leaf : Value) : Value :=
  match leaf with VNumber n => if cm_stringify_numbers m then VString (number_str (float_str L) n) else leaf | _ => leaf end.

Lemma unmatched_rules node path rules : (path <> EmptyString -> Forall (fun r => name_hit L r path = false) rules) ->
  Forall (fun r => match cr_value_detector r with Some d => detects_value L d node | None => false end = false) rules ->
  match_rules L node path rules = None.
Proof.
  intros Hp Hd. induction rules as [|r rules IH]; [done|]. rewrite match_rules_cons. apply Forall_cons in Hd as [Hr Hd].
  assert (negb (is_empty_str path) && name_hit L r path = false) as ->.
  { destruct path; [done|]. assert (Forall (fun r => name_hit L r (String a path) = false) (r :: rules)) as [-> _]%Forall_cons by (by apply Hp). done. }
  assert (match_rules L node path rules = None) as ->; [|destruct (cr_value_detector r); [by rewrite Hr|done]].
  apply IH; [|done]. intros Hne. by apply Hp, Forall_cons in Hne as [_ ?].
Qed.
Lemma no_detector_on_container v rules : is_scalar v = false ->
  Forall (fun r : CompiledRule (Regex := Regex) => match cr_value_detector r with Some d => detects_value L d v | None => false end = false) rules.
Proof. intros Hv. apply Forall_forall. intros r _. destruct (cr_value_detector r); [|done]. by destruct v. Qed.

Lemma kept_below m path v ns segs leaf : cm_needs_paths m = true -> locate v ns = Some (segs, leaf) -> is_scalar leaf = true ->
  (forall a b, segs = a ++ b -> foldl child_path path a <> EmptyString -> Forall (fun r => name_hit L r (foldl child_path path a) = false) (cm_rules m)) ->
  Forall (fun r => match cr_value_detector r with Some d => detects_value L d leaf | None => false end = false) (cm_rules m) ->
  locate (mask_node L m path v).1 ns = Some (segs, kept_as m leaf).
Proof.
  intros Hp. revert path v segs. induction ns as [|n ns IH]; intros path v segs Hl Hs Hn Hd.
  - injection Hl as <- ->. rewrite mask_node_eq. replace (is_null leaf) with false by (by destruct leaf). unfold first_match.
    rewrite unmatched_rules; [by destruct leaf|intros Hne; by apply (Hn [] [])|done].
  - destruct (locate_container _ _ _ _ _ Hl) as [Hsc Hnull]. apply locate_cons in Hl as (k & c & segs' & Hc & -> & Hl).
    apply locate_cons. eexists k, _, segs'. split_and!; [|done|].
    + apply child_mask; [done|]. apply unmatched_rules; [intros Hne; by apply (Hn [] (k :: segs'))|by apply no_detector_on_container].
    + unfold sub_path. rewrite Hp. apply IH; [done..| |done]. intros a b -> Hne. by apply (Hn (k :: a) b).
Qed.
End Walk.

(** ** Luhn and partial reveals *)

Lemma luhn_sum_acc p l s : luhn_sum p l s = s + luhn_sum p l 0.
Proof.
  revert p s. induction l as [|d l IH]; intros p s; cbn [luhn_sum]; [lia|].
  rewrite IH, (IH _ (0 + _)). lia.
Qed.
Lemma luhn_sum_app p a b s : luhn_sum p (a ++ b) s = luhn_sum p a s + luhn_sum (if Nat.even (length a) then p else negb p) b 0.
Proof.
  revert p s. induction a as [|d a IH]; intros p s.
  - cbn. apply luhn_sum_acc.
  - cbn [app luhn_sum length]. rewrite IH, Nat.even_succ, <- Nat.negb_even. by destruct (Nat.even (length a)), p.
Qed.
Lemma luhn_value_inj p d d' : 0 <= d <= 9 -> 0 <= d' <= 9 -> (luhn_value p d - luhn_value p d') mod 10 = 0 -> d = d'.
Proof.
  unfold luhn_value. intros Hd Hd'. destruct p; [destruct (9 <? d * 2) eqn:E1, (9 <? d' * 2) eqn:E2|]; reflect_bools;
    intros H%Z.mod_divide; try lia; destruct H as [q H]; nia.
Qed.

(** The card detector's checksum catches every single wrong digit. *)
Theorem luhn_catches_one_digit a b d d' : 0 <= d <= 9 -> 0 <= d' <= 9 ->
  luhn_valid (a ++ d :: b) = true -> luhn_valid (a ++ d' :: b) = true -> d = d'.
Proof.
  intros Hd Hd'. unfold luhn_valid. rewrite !rev_app_distr. cbn [rev]. rewrite <- !app_assoc, !luhn_sum_app. cbn [luhn_sum app].
  set (p := if Nat.even (length (rev b)) then false else negb false). set (t := luhn_sum _ (rev a) 0).
  intros H1%Z.eqb_eq H2%Z.eqb_eq. apply (luhn_value_inj p); [done..|].
  apply Z.mod_divide in H1 as [q1 H1]; [|done]. apply Z.mod_divide in H2 as [q2 H2]; [|done].
  apply Z.mod_divide; [done|]. exists (q1 - q2). lia.
Qed.

(** [partial] shows a tail of at most [keep_last] characters, never the whole
    of a non-empty value, and one mask character for each hidden one. *)
Theorem partial_reveals_a_tail value keep_last mask_char : 0 <= keep_last -> value <> EmptyString ->
  exists hidden shown, chars value = hidden ++ shown /\ hidden <> [] /\ zlen shown <= keep_last /\
    partial value keep_last mask_char = concat_all (replicate (length hidden) mask_char) +:+ concat_all shown.
Proof.
  intros Hk Hv. unfold partial. set (cs := chars value). assert (cs <> []) as Hcs by (by destruct value).
  assert (0 < zlen cs) by (destruct cs; [done|rewrite zlen_cons; pose proof (zlen_nonneg cs); lia]).
  set (k := Z.to_nat _). assert (0 < k <= length cs)%nat as Hlen by (unfold k, zlen in *; destruct (_ <=? _) eqn:E; reflect_bools; lia).
  exists (take k cs), (drop k cs). split_and!; [by rewrite take_drop|destruct cs, k; done || lia| |by rewrite length_take_le by lia].
  unfold zlen. rewrite length_drop. unfold k, zlen in *. destruct (_ <=? _) eqn:E; reflect_bools; lia.
Qed.

(** ** What the pass guarantees *)

Lemma apply_masking_at {Regex} (L : MaskLibs Regex) records m i rec : records !! i = Some rec ->
  mo_records (apply_masking L records m) !! i = Some (mask_node L m EmptyString rec).1.
Proof. intros Hr. cbn. by rewrite !list_lookup_fmap, Hr. Qed.

(** The pass works row by row: it is the masking function of a run's specs. *)
Lemma apply_masking_rows {Regex} (L : MaskLibs Regex) records m :
  mo_records (apply_masking L records m) = (fun r => (mask_node L m EmptyString r).1) <$> records.
Proof. cbn. by rewrite <- list_fmap_compose. Qed.

(** C26: A column the policy layer is told is masked is masked: when
    [name_action_for] answers an action for a column of plain keys, every scalar
    at that column of every record of the page leaves the pass rewritten by a
    rule with that action — the leaf's text rewritten in place, or the leaf or a
    container of it replaced by the rule's redaction. *)
Theorem attested_columns_are_masked {Regex} (L : MaskLibs Regex) spec ids m records i rec out ns segs leaf lbl :
  compile_scoped L spec ids = Ok m ->
  records !! i = Some rec -> mo_records (apply_masking L records m) !! i = Some out ->
  locate rec ns = Some (segs, leaf) -> is_scalar leaf = true -> Forall plain_key segs ->
  name_action_for L m (join "." segs) = Some lbl ->
  exists r, r ∈ cm_rules m /\ action_label_of (cr_action r) = lbl /\ masked_by L m r ns segs leaf out.
Proof.
  intros Hm%compile_scoped_ok Hr Ho. rewrite (apply_masking_at _ _ _ _ _ Hr) in Ho. injection Ho as <-. by apply attested_masked.
Qed.

(** A leaf no rule classifies keeps its value, or the text of its number where
    the policy writes every number as text. *)
Theorem unclassified_leaves_are_kept {Regex} (L : MaskLibs Regex) spec ids m records i rec out ns segs leaf :
  compile_scoped L spec ids = Ok m ->
  records !! i = Some rec -> mo_records (apply_masking L records m) !! i = Some out ->
  locate rec ns = Some (segs, leaf) -> is_scalar leaf = true ->
  (forall a b, segs = a ++ b -> foldl child_path EmptyString a <> EmptyString ->
     Forall (fun r => name_hit L r (foldl child_path EmptyString a) = false) (cm_rules m)) ->
  Forall (fun r => match cr_value_detector r with Some d => detects_value L d leaf | None => false end = false) (cm_rules m) ->
  locate out ns = Some (segs, kept_as L m leaf).
Proof.
  intros Hm%compile_scoped_ok Hr Ho Hl Hs Hn Hd. rewrite (apply_masking_at _ _ _ _ _ Hr), mask_node_tracks in Ho by done. injection Ho as <-.
  by apply (kept_below L (tracked m)).
Qed.

(** ** Concrete policies *)

Definition sample_libs : MaskLibs string :=
  MkMaskLibs Ok string_eqb (contains_char "@") (fun _ => false) (fun _ => None) (fun _ => "0.5")
    (fun k s => [Z.of_nat (String.length k); Z.of_nat (String.length s)]) (fun s => [Z.of_nat (String.length s)]).
Definition field_rule (field : string) (a : MaskAction) : MaskRule := MkMaskRule None (MkMatchSpec None None [field]) a [].
Definition sample_policy : MaskingSpec :=
  MkMaskingSpec None (Some "k") [field_rule "user" Hash; MkMaskRule None (MkMatchSpec None (Some Email) []) (Redact default_mask) []].
Definition sample_masking : CompiledMasking (Regex := string) :=
  match compile_scoped sample_libs sample_policy None with Ok m => m | Err _ => MkCompiledMasking [] Unkeyed false false end.
Definition sample_record : Value :=
  VObject [("user", VObject [("ssn", VString "123-45-6789"); ("tags", VArray [VNumber (PosInt 7); Null])]); ("note", VString "a@b.co"); ("n", VNumber (PosInt 1))].

Example sample_masked :
  mo_records (apply_masking sample_libs [sample_record] sample_masking) =
  [VObject [("user", VObject [("ssn", VString "010b"); ("tags", VArray [VString "0101"; Null])]); ("note", VString "***"); ("n", VNumber (PosInt 1))]].
Proof. vm_compute. reflexivity. Qed.

Lemma attested_columns_are_masked_witness :
  exists r, r ∈ cm_rules sample_masking /\ action_label_of (cr_action r) = "hash" /\
    masked_by sample_libs sample_masking r [0; 1; 0]%nat ["user"; "tags"; "0"] (VNumber (PosInt 7))
      (mask_node sample_libs sample_masking EmptyString sample_record).1.
Proof.
  apply (attested_columns_are_masked sample_libs sample_policy None sample_masking [sample_record] 0 sample_record
           (mask_node sample_libs sample_masking EmptyString sample_record).1 [0; 1; 0]%nat ["user"; "tags"; "0"] (VNumber (PosInt 7)) "hash");
    try (vm_compute; reflexivity).
  repeat constructor; done.
Defined.

(** A key with a dot in it: the pass reads the whole key as one segment and
    leaves the value alone, and the policy layer is told the column is hashed. *)
Example dotted_key_counts_as_masked :
  let rec := VObject [("user.ssn", VString "123-45-6789")] in
  mo_records (apply_masking sample_libs [rec] sample_masking) = [rec] /\
  name_action_for sample_libs sample_masking "user.ssn" = Some "hash".
Proof. vm_compute. done. Qed.

(** Redaction keeps neither uniqueness nor non-null-ness. *)
Example redaction_collapses_values :
  let policy := MkMaskingSpec None None [field_rule "id" (Redact Null)] in
  (fun m => mo_records (apply_masking sample_libs [VObject [("id", VString "a")]; VObject [("id", VString "b")]] m))
    <$> result_ok (compile_scoped sample_libs policy None)
  = Some [VObject [("id", Null)]; VObject [("id", Null)]].
Proof. vm_compute. reflexivity. Qed.

(** The detectors on the cases of the source's tests. *)
Example detector_cases :
  is_credit_card "4111 1111 1111 1111" = true /\ is_credit_card "4111-1111-1111-1112" = false /\
  is_credit_card "4111 1111 1111 1111 " = false /\ is_credit_card "4111  111111111111" = false /\
  is_ipv4 "192.168.0.1" = true /\ is_ipv4 "256.1.1.1" = false /\ is_ipv4 "01.2.3.4" = false /\ is_ipv4 "1.2.3" = false /\
  is_phone sample_libs "+14155552671" = true /\ is_phone sample_libs "4155552671" = false /\
  is_phone_loose "4155552671" = true /\ is_phone_loose "41-55" = false /\
  partial "4111111111111111" 4 "*" = "************1111" /\ partial "abc" 4 "*" = "***" /\
  detects_value sample_libs CreditCard (VNumber (PosInt 4111111111111111)) = true.
Proof. vm_compute. done. Qed.
