(* ===== verification/Policy.v ===== *)
(** Data-flow policies: crates/core/src/policy/{spec,compile,evaluate,sink}.rs.

    Classifications label columns, rules say where a label may land, and
    [PolicySink] refuses or quarantines the rows of a page that break a rule. A
    [BTreeSet] is a [gset]; a [BTreeMap] a rule iterates is its entries in key
    order; the columns a record earns are collected in a [gmap] and read out by
    key. Metrics and log lines are left out. [{:?}] of a string is a parameter. *)
From S2P Require Import Prelude Errors Float64 Json Text StateKey TypedKey Contract WriteMode Transform Accounting Drift Dlq Engine Masking.
From Stdlib Require Import Ascii.

Local Open Scope Z_scope.
Local Open Scope result_scope.

(** ** spec.rs *)

Definition MASK_ACTIONS : list string := ["redact"; "hash"; "tokenize"; "partial"].
Record Classification := MkClassification {
  cl_label : string;
  cl_description : option string;
  cl_fields : list string;
  cl_field_pattern : option string;
  cl_value_detector : option Detector;
}.
Inductive RuntimeAction := ActFail | ActQuarantine.
#[export] Instance RuntimeAction_eq_dec : EqDecision RuntimeAction.
Proof. solve_decision. Defined.
Definition runtime_str (a : RuntimeAction) : string := match a with ActFail => "fail" | ActQuarantine => "quarantine" end.
Record RuleWhen := MkRuleWhen {
  rw_label : string;
  rw_sink_kind : list string;
  rw_sink : list (string * list string);
}.
Record PolicyRule := MkPolicyRule {
  pr_name : string;
  pr_description : option string;
  pr_when : RuleWhen;
  pr_require : list (string * list string);
  pr_mask : list string;
  pr_deny : bool;
  pr_on_runtime : RuntimeAction;
}.
Record PolicySpec := MkPolicySpec {
  pp_version : Z;
  pp_description : option string;
  pp_classifications : list Classification;
  pp_rules : list PolicyRule;
}.
Definition policy_default_version : Z := 1.
Definition mask_action_label (a : MaskAction) : string := action_label_of a.
Definition blank_name (s : string) : bool := is_empty_str (trim s).

(** [merge]. *)
Definition policy_merge (self other : PolicySpec) : result PolicySpec string :=
  match list_find (fun r => existsb (fun m => string_eqb (pr_name m) (pr_name r)) (pp_rules self) = true) (pp_rules other) with
  | Some (_, r) => Err ("rule '" +:+ pr_name r +:+ "' is declared by two policy sources")
  | None => Ok (MkPolicySpec (pp_version self) (option_or (pp_description self) (pp_description other))
                  (pp_classifications self ++ pp_classifications other) (pp_rules self ++ pp_rules other))
  end.
Definition has_value_detectors (s : PolicySpec) : bool := existsb (fun c => is_some (cl_value_detector c)) (pp_classifications s).

Definition rule_err (r : PolicyRule) (msg : string) : result unit string := Err ("rule '" +:+ pr_name r +:+ "': " +:+ msg).
Fixpoint check_require (r : PolicyRule) (require : list (string * list string)) : result unit string :=
  match require with
  | [] => Ok tt
  | (attr, allowed) :: require =>
      if blank_name attr then rule_err r "require has an empty attribute"
      else if is_nil allowed then rule_err r ("require." +:+ attr +:+ " lists no allowed values")
      else check_require r require
  end.
Fixpoint check_when_sink (r : PolicyRule) (sink : list (string * list string)) : result unit string :=
  match sink with
  | [] => Ok tt
  | (attr, allowed) :: sink =>
      if blank_name attr || is_nil allowed then rule_err r ("when.sink." +:+ attr +:+ " needs an attribute and at least one value")
      else check_when_sink r sink
  end.

(** The memo of [walk] and the columns it collects. *)
Notation NameLabels := (gmap string (gset string)).
Notation Columns := (gmap string (gset string * string)).

Section Policy.
Context {Regex : Type} (L : MaskLibs Regex) (debug_str : string -> string).

Fixpoint check_masks (r : PolicyRule) (mask : list string) : result unit string :=
  match mask with
  | [] => Ok tt
  | m :: mask =>
      if mem m MASK_ACTIONS then check_masks r mask
      else rule_err r ("mask action " +:+ debug_str m +:+ " is not one of " +:+ join ", " MASK_ACTIONS)
  end.

(** The two loops of [validate]. *)
Definition class_err (c : Classification) (msg : string) : string := "classification '" +:+ cl_label c +:+ "': " +:+ msg.
Fixpoint check_classifications (i : Z) (cs : list Classification) (labels : gset string) : result (gset string) string :=
  match cs with
  | [] => Ok labels
  | c :: cs =>
      if blank_name (cl_label c) then Err ("classifications[" +:+ dec i +:+ "]: label is empty")
      else if is_nil (cl_fields c) && is_none (cl_field_pattern c) && is_none (cl_value_detector c) then
        Err (class_err c "set fields, field_pattern, or value_detector")
      else
        let? _ := match cl_field_pattern c with
                  | Some p => match regex_new L p with
                              | Ok _ => Ok tt
                              | Err e => Err (class_err c ("invalid field_pattern: " +:+ e))
                              end
                  | None => Ok tt
                  end in
        match list_find (fun f => blank_name f = true) (cl_fields c) with
        | Some (_, f) => Err (class_err c ("fields contains an empty name " +:+ debug_str f))
        | None => check_classifications (i + 1) cs ({[cl_label c]} ∪ labels)
        end
  end.
Fixpoint check_rules (labels : gset string) (i : Z) (rules : list PolicyRule) (names : gset string) : result unit string :=
  match rules with
  | [] => Ok tt
  | r :: rules =>
      if blank_name (pr_name r) then Err ("rules[" +:+ dec i +:+ "]: name is empty")
      else if bool_decide (pr_name r ∈ names) then Err ("rule '" +:+ pr_name r +:+ "' is declared twice")
      else if negb (bool_decide (rw_label (pr_when r) ∈ labels)) then
        rule_err r ("label '" +:+ rw_label (pr_when r) +:+ "' has no classification")
      else if negb (pr_deny r) && is_nil (pr_require r) && is_nil (pr_mask r) then
        rule_err r "set `deny: true`, at least one `require` attribute, or a `mask` list (the column may reach the sink only masked)"
      else
        let? _ := check_require r (pr_require r) in
        let? _ := check_when_sink r (rw_sink (pr_when r)) in
        let? _ := check_masks r (pr_mask r) in
        check_rules labels (i + 1) rules ({[pr_name r]} ∪ names)
  end.
Definition policy_validate (s : PolicySpec) : result unit string :=
  if negb (pp_version s =? 1) then Err ("unsupported policy version " +:+ dec (pp_version s))
  else
    let? labels := check_classifications 0 (pp_classifications s) ∅ in
    check_rules labels 0 (pp_rules s) ∅.

(** ** compile.rs *)

Record CompiledClassification := MkCompiledClassification {
  cc_label : string;
  cc_fields : gset string;
  cc_field_pattern : option Regex;
  cc_value_detector : option Detector;
}.
Record CompiledPolicy := MkCompiledPolicy {
  cp_classifications : list CompiledClassification;
  cp_rules : list PolicyRule;
}.
Fixpoint compile_classifications (cs : list Classification) : result (list CompiledClassification) string :=
  match cs with
  | [] => Ok []
  | c :: cs =>
      let? re := match cl_field_pattern c with
                 | Some p => let? re := regex_new L p in Ok (Some re)
                 | None => Ok None
                 end in
      let? rest := compile_classifications cs in
      Ok (MkCompiledClassification (cl_label c) (list_to_set (cl_fields c)) re (cl_value_detector c) :: rest)
  end.
Definition policy_compile (s : PolicySpec) : result CompiledPolicy string :=
  let? _ := policy_validate s in
  let? cs := compile_classifications (pp_classifications s) in
  Ok (MkCompiledPolicy cs (pp_rules s)).
Definition quarantines (p : CompiledPolicy) : bool := existsb (fun r => bool_decide (pr_on_runtime r = ActQuarantine)) (cp_rules p).
Definition governs (p : CompiledPolicy) (label : string) : bool := existsb (fun r => string_eqb (rw_label (pr_when r)) label) (cp_rules p).
Definition value_detectors (p : CompiledPolicy) : list (string * Detector) :=
  omap (fun c => (fun d => (cc_label c, d)) <$> cc_value_detector c) (cp_classifications p).

Definition labels_where (p : CompiledPolicy) (f : CompiledClassification -> bool) : gset string :=
  list_to_set (cc_label <$> filter (fun c => f c = true) (cp_classifications p)).
(** [name.rsplit('.').next().unwrap_or(name)]. *)
Definition leaf_key (name : string) : string := default name (last (split_on DOT name)).
Definition labels_for_name (p : CompiledPolicy) (name : string) : gset string :=
  labels_where p (fun c =>
    bool_decide (name ∈ cc_fields c) || bool_decide (leaf_key name ∈ cc_fields c)
    || match cc_field_pattern c with Some re => is_match L re name | None => false end).
Definition labels_for_value (p : CompiledPolicy) (value : string) : gset string :=
  labels_where p (fun c => match cc_value_detector c with Some d => detects L d value | None => false end).
Definition labels_for_scalar (p : CompiledPolicy) (value : Value) : gset string :=
  labels_where p (fun c => match cc_value_detector c with Some d => detects_value L d value | None => false end).

(** ** evaluate.rs *)

Record SinkFacts := MkSinkFacts { sf_id : string; sf_kind : string; sf_attributes : gmap string string }.
Record ColumnFacts := MkColumnFacts {
  cf_name : string;
  cf_labels : gset string;
  cf_masked : option string;
  cf_conservative : bool;
  cf_via : option string;
}.
Inductive ViolationKind :=
| Denied
| MissingAttribute (attribute : string)
| AttributeNotAllowed (attribute value : string) (allowed : list string)
| Unmasked (allowed : list string).
Record Violation := MkViolation {
  vi_rule : string;
  vi_label : string;
  vi_column : string;
  vi_sink : string;
  vi_sink_kind : string;
  vi_kind : ViolationKind;
  vi_conservative : bool;
  vi_satisfied_by_mask : list string;
}.

(** [impl Display for Violation]. *)
Definition violation_what (v : Violation) : string :=
  let at_sink := "sink `" +:+ vi_sink v +:+ "` (" +:+ vi_sink_kind v +:+ ")" in
  match vi_kind v with
  | Denied => "label `" +:+ vi_label v +:+ "` may not reach " +:+ at_sink
  | MissingAttribute attribute =>
      "label `" +:+ vi_label v +:+ "` requires sink attribute `" +:+ attribute +:+ "`, which " +:+ at_sink +:+ " does not declare"
  | AttributeNotAllowed attribute value allowed =>
      "label `" +:+ vi_label v +:+ "` requires sink `" +:+ attribute +:+ "` in [" +:+ join ", " allowed +:+ "]; "
      +:+ at_sink +:+ " has `" +:+ value +:+ "`"
  | Unmasked allowed => "label `" +:+ vi_label v +:+ "` may reach " +:+ at_sink +:+ " only masked with " +:+ join " or " allowed
  end.
Definition violation_str (v : Violation) : string :=
  "rule `" +:+ vi_rule v +:+ "`: column `" +:+ vi_column v +:+ "`"
  +:+ (if vi_conservative v then " (may be present: opaque transform)" else EmptyString)
  +:+ " — " +:+ violation_what v
  +:+ (if is_nil (vi_satisfied_by_mask v) then EmptyString
       else "; masking it with " +:+ join " or " (vi_satisfied_by_mask v) +:+ " would satisfy the rule").

Definition rule_applies (rule : PolicyRule) (label : string) (sink : SinkFacts) : bool :=
  if negb (string_eqb (rw_label (pr_when rule)) label) then false
  else if negb (is_nil (rw_sink_kind (pr_when rule))) && negb (mem (sf_kind sink) (rw_sink_kind (pr_when rule))) then false
  else forallb (fun e : string * list string =>
         match sf_attributes sink !! e.1 with Some v => mem v e.2 | None => false end) (rw_sink (pr_when rule)).

(** The violations of one rule by one column. *)
Definition evaluate_column (sink : SinkFacts) (rule : PolicyRule) (col : ColumnFacts) : list Violation :=
  if negb (existsb (fun l => rule_applies rule l sink) (elements (cf_labels col))) then []
  else if match cf_masked col with Some action => mem action (pr_mask rule) | None => false end then []
  else
    let base kind := MkViolation (pr_name rule) (rw_label (pr_when rule)) (cf_name col) (sf_id sink) (sf_kind sink) kind
                       (cf_conservative col) (pr_mask rule) in
    if pr_deny rule then [base Denied]
    else if is_nil (pr_require rule) then [base (Unmasked (pr_mask rule))]
    else omap (fun e : string * list string =>
           match sf_attributes sink !! e.1 with
           | None => Some (base (MissingAttribute e.1))
           | Some v => if mem v e.2 then None else Some (base (AttributeNotAllowed e.1 v e.2))
           end) (pr_require rule).
Definition evaluate (policy : CompiledPolicy) (sink : SinkFacts) (columns : list ColumnFacts) : list Violation :=
  concat ((fun rule => concat (evaluate_column sink rule <$> columns)) <$> cp_rules policy).
Definition dlq_violations (policy : CompiledPolicy) (dlq : SinkFacts) (columns : list ColumnFacts) (quarantined : list Violation) : list Violation :=
  if is_nil quarantined then [] else evaluate policy dlq columns.

(** ** sink.rs: classification *)


(** [by_name], memoized in [names]. *)
Definition by_name (policy : CompiledPolicy) (path : string) (names : NameLabels) : gset string * NameLabels :=
  if is_empty_str path then (∅, names)
  else match names !! path with
       | Some labels => (labels, names)
       | None => let labels := labels_for_name policy path in (labels, <[path := labels]> names)
       end.

(** The scalar case of [walk]. *)
Definition walk_scalar (policy : CompiledPolicy) (path : string) (scalar : Value) (inherited : gset string)
    (st : Columns * NameLabels) : Columns * NameLabels :=
  let '(out, names) := st in
  if is_empty_str path then st
  else
    let '(labels, names) := by_name policy path names in
    let labels := labels ∪ inherited in
    let by_value := labels_for_scalar policy scalar in
    let via := if bool_decide (by_value = ∅) then "name" else if bool_decide (labels = ∅) then "value" else "name+value" in
    let labels := labels ∪ by_value in
    if bool_decide (labels = ∅) then (out, names)
    else
      let entry := default (∅, via) (out !! path) in
      (<[path := (entry.1 ∪ labels, entry.2)]> out, names).

Fixpoint walk (policy : CompiledPolicy) (path : string) (value : Value) (inherited : gset string)
    (st : Columns * NameLabels) {struct value} : Columns * NameLabels :=
  match value with
  | VObject map_ =>
      let '(mine, names) := by_name policy path st.2 in
      let labels := inherited ∪ mine in
      (fix go map_ st := match map_ with
                         | [] => st
                         | (k, v) :: map_ => go map_ (walk policy (child_path path k) v labels st)
                         end) map_ (st.1, names)
  | VArray items =>
      let '(mine, names) := by_name policy path st.2 in
      let labels := inherited ∪ mine in
      (fix go i items st := match items with
                            | [] => st
                            | v :: items => go (i + 1) items (walk policy (path +:+ "." +:+ dec i) v labels st)
                            end) 0 items (st.1, names)
  | Null => st
  | scalar => walk_scalar policy path scalar inherited st
  end.

(** [find_map]. *)
Fixpoint first_action (maskings : list (CompiledMasking (Regex := Regex))) (name : string) : option string :=
  match maskings with
  | [] => None
  | m :: maskings => match name_action_for L m name with Some a => Some a | None => first_action maskings name end
  end.
Definition columns_of (maskings : list (CompiledMasking (Regex := Regex))) (out : Columns) : list ColumnFacts :=
  (fun e : string * (gset string * string) => MkColumnFacts e.1 e.2.1 (first_action maskings e.1) false (Some e.2.2))
    <$> sort_by fst (map_to_list out).
Definition classify_cached (policy : CompiledPolicy) (record : Value) (maskings : list (CompiledMasking (Regex := Regex)))
    (names : NameLabels) : list ColumnFacts * NameLabels :=
  let '(out, names) := walk policy EmptyString record ∅ (∅, names) in
  (columns_of maskings out, names).
Definition classify_record_masked (policy : CompiledPolicy) (record : Value) (masking : option (CompiledMasking (Regex := Regex))) : list ColumnFacts :=
  (classify_cached policy record (option_list masking) ∅).1.
Definition classify_record (policy : CompiledPolicy) (record : Value) : list ColumnFacts := classify_record_masked policy record None.

(** ** sink.rs: [PolicySink] *)

Context {E : Type}.

Record PolicySink := MkPolicySink {
  ps_inner : SinkOps E;
  ps_policy : CompiledPolicy;
  ps_facts : SinkFacts;
  ps_masking : option (CompiledMasking (Regex := Regex));
  ps_later_masking : option (CompiledMasking (Regex := Regex));
  ps_dlq : option SinkFacts;
  ps_envelopes : bool;
}.
Definition PolicySink_new (inner : SinkOps E) (policy : CompiledPolicy) (facts : SinkFacts) : PolicySink :=
  MkPolicySink inner policy facts None None None false.
Definition for_dlq (inner : SinkOps E) (policy : CompiledPolicy) (dlq : SinkFacts) : PolicySink :=
  MkPolicySink inner policy dlq None None None true.
Definition with_dlq_destination (p : PolicySink) (dlq : SinkFacts) : PolicySink :=
  MkPolicySink (ps_inner p) (ps_policy p) (ps_facts p) (ps_masking p) (ps_later_masking p) (Some dlq) (ps_envelopes p).
Definition with_masking (p : PolicySink) (m : CompiledMasking) : PolicySink :=
  MkPolicySink (ps_inner p) (ps_policy p) (ps_facts p) (Some m) (ps_later_masking p) (ps_dlq p) (ps_envelopes p).
Definition with_later_masking (p : PolicySink) (m : CompiledMasking) : PolicySink :=
  MkPolicySink (ps_inner p) (ps_policy p) (ps_facts p) (ps_masking p) (Some m) (ps_dlq p) (ps_envelopes p).

Definition maskings_of (p : PolicySink) : list (CompiledMasking (Regex := Regex)) := option_list (ps_later_masking p) ++ option_list (ps_masking p).
Definition check_record (p : PolicySink) (record : Value) (names : NameLabels) : list ColumnFacts * list Violation * NameLabels :=
  let '(columns, names) := classify_cached (ps_policy p) record (maskings_of p) names in
  if is_nil columns then (columns, [], names)
  else (columns, evaluate (ps_policy p) (ps_facts p) columns, names).
Definition action_for (p : PolicySink) (violations : list Violation) : RuntimeAction :=
  foldl (fun action v =>
    match list_find (fun r => pr_name r = vi_rule v) (cp_rules (ps_policy p)) with
    | Some (_, rule) => if bool_decide (pr_on_runtime rule = ActFail) then ActFail else action
    | None => action
    end) ActQuarantine violations.

(** [Vec::swap_remove(0)] of a list known not to be empty is its head. *)
Definition screen_error (violations : list Violation) : FaucetError :=
  match violations with
  | first :: _ => PolicyViolation (vi_rule first) (vi_column first) (join "; " (violation_str <$> violations))
  | [] => PolicyViolation EmptyString EmptyString EmptyString
  end.
(** One record of [screen]: its first violation when the rules quarantine it. *)
Definition payload_of (p : PolicySink) (r : Value) : Value := if ps_envelopes p then default r (get r "payload") else r.
Definition screen_record (p : PolicySink) (r : Value) (names : NameLabels) : result (option Violation) FaucetError * NameLabels :=
  let '(columns, violations, names) := check_record p (payload_of p r) names in
  match violations with
  | [] => (Ok None, names)
  | first :: _ =>
      let action := if ps_envelopes p then ActFail else action_for p violations in
      let at_dlq := match action, ps_dlq p with
                    | ActQuarantine, Some dlq => dlq_violations (ps_policy p) dlq columns violations
                    | _, _ => []
                    end in
      match at_dlq, action with
      | _ :: _, _ => (Err (screen_error at_dlq), names)
      | [], ActFail => (Err (screen_error violations), names)
      | [], ActQuarantine => (Ok (Some first), names)
      end
  end.
Fixpoint screen_go (p : PolicySink) (i : nat) (records : list Value) (names : NameLabels) (offending : list (nat * Violation))
  : result (list (nat * Violation)) FaucetError :=
  match records with
  | [] => Ok offending
  | r :: records =>
      match screen_record p r names with
      | (Err e, _) => Err e
      | (Ok None, names) => screen_go p (S i) records names offending
      | (Ok (Some v), names) => screen_go p (S i) records names (offending ++ [(i, v)])
      end
  end.
Definition screen (p : PolicySink) (records : list Value) : result (list (nat * Violation)) FaucetError :=
  screen_go p 0 records ∅ [].

(** The violation as an error, with what the call cannot do about it. *)
Definition refuse (v : Violation) (suffix : string) : FaucetError :=
  PolicyViolation (vi_rule v) (vi_column v) (violation_str v +:+ suffix).
Definition NO_DLQ : string := " (quarantine needs a `dlq:` block; none is attached)".
Definition NO_PARTIAL : string := " (exactly-once pages cannot be partially quarantined)".
(** A whole-page call: any offending row refuses the page before the inner sink sees it. *)
Definition screened_page {A} (p : PolicySink) (suffix : string) (records : list Value) (inner : backend (E := E) A) : backend (E := E) A :=
  fun e => match screen p records with
           | Err err => ((Err err, 0), e)
           | Ok ((_, v) :: _) => ((Err (refuse v suffix), 0), e)
           | Ok [] => inner e
           end.
Definition policy_write_batch_reported (p : PolicySink) (records : list Value) : backend (E := E) WriteReport :=
  screened_page p NO_DLQ records (write_batch_reported (ps_inner p) records).
Definition policy_write_governed (p : PolicySink) (records : list Value) : backend (E := E) WriteReport :=
  screened_page p NO_DLQ records (write_governed (ps_inner p) records).
Definition screen_idempotent (p : PolicySink) (records : list Value) : result unit FaucetError :=
  let? offending := screen p records in
  match offending with
  | (_, v) :: _ => Err (refuse v NO_PARTIAL)
  | [] => Ok tt
  end.
Definition policy_write_batch_idempotent_reported (p : PolicySink) (records : list Value) (scope token : string) : backend (E := E) WriteReport :=
  fun e => match screen_idempotent p records with
           | Err err => ((Err err, 0), e)
           | Ok _ => write_batch_idempotent_reported (ps_inner p) records scope token e
           end.

(** [write_batch], [write_batch_idempotent] and [write_batch_columnar]: the inner
    call is given, and for the last the rows its batch decodes to. *)
Definition policy_write_batch (p : PolicySink) (records : list Value) (inner : backend (E := E) Z) : backend (E := E) Z :=
  screened_page p NO_DLQ records inner.
Definition policy_write_batch_idempotent (p : PolicySink) (records : list Value) (inner : backend (E := E) Z) : backend (E := E) Z :=
  fun e => match screen_idempotent p records with Err err => ((Err err, 0), e) | Ok _ => inner e end.
Definition policy_write_batch_columnar (p : PolicySink) (values : result (list Value) FaucetError) (inner : backend (E := E) Z) : backend (E := E) Z :=
  fun e => match values with
           | Err err => ((Err err, 0), e)
           | Ok values => screened_page p " (columnar pages cannot be partially quarantined)" values inner e
           end.

(** [write_batch_partial]: the quarantined rows answer their violation, the kept
    rows the inner sink's outcomes in order. *)
Definition keep_unquarantined (q : gmap nat Violation) (records : list Value) : list Value :=
  keep_at (fun i => is_none (q !! i)) 0 records.
Fixpoint merge_outcomes (q : gmap nat Violation) (i : nat) (n : nat) (inner : list RowOutcome) : list RowOutcome :=
  match n with
  | O => []
  | S n => match q !! i with
           | Some v => Err (refuse v EmptyString) :: merge_outcomes q (S i) n inner
           | None => match inner with
                     | o :: inner => o :: merge_outcomes q (S i) n inner
                     | [] => merge_outcomes q (S i) n []
                     end
           end
  end.
Definition policy_write_batch_partial (p : PolicySink) (records : list Value) : backend (E := E) (list RowOutcome) :=
  fun e => match screen p records with
  | Err err => ((Err err, 0), e)
  | Ok [] => write_batch_partial (ps_inner p) records e
  | Ok offending =>
      let quarantined : gmap nat Violation := list_to_map offending in
      let kept := keep_unquarantined quarantined records in
      let '((answer, d), e) := if is_nil kept then ((Ok [], 0), e) else write_batch_partial (ps_inner p) kept e in
      match answer with
      | Err err => ((Err err, d), e)
      | Ok inner =>
          if negb (length inner =? length kept)%nat then
            ((Err (outcome_count_mismatch (connector_name (ps_inner p)) (zlen inner) (zlen kept)), d), e)
          else ((Ok (merge_outcomes quarantined 0 (length records) inner), d), e)
      end
  end.

(** The decorated sink: every other method is the inner sink's. *)
Definition policy_ops (p : PolicySink) : SinkOps E :=
  let i := ps_inner p in
  MkSinkOps (connector_name i) (supports_idempotent_writes i) (dedups_by_key i) (write_batch_is_replay_safe i) (is_overwrite i)
    (batch_atomicity i) (policy_write_batch_reported p) (policy_write_governed p) (policy_write_batch_partial p) (admit_page i)
    (policy_write_batch_idempotent_reported p) (last_committed_token i) (flush i) (current_schema i) (evolve_schema i)
    (begin_overwrite i) (commit_overwrite i) (abort_overwrite i) (complete_run i).
End Policy.
Arguments MkCompiledClassification {Regex}.
Arguments MkCompiledPolicy {Regex}.
Arguments cp_rules {Regex}.
Arguments cp_classifications {Regex}.
Arguments walk {Regex} L policy path !value.

Section Facts.
Context {Regex : Type} (L : MaskLibs Regex).
Implicit Types (policy : CompiledPolicy (Regex := Regex)) (col : ColumnFacts) (rule : PolicyRule).

(** ** Evaluation *)

(** What a rule asks of a column that reaches the sink: a listed mask, or every
    required attribute with an allowed value. *)
Definition satisfied (sink : SinkFacts) rule col : Prop :=
  (exists l, l ∈ cf_labels col /\ rule_applies rule l sink = true) ->
  (exists a, cf_masked col = Some a /\ a ∈ pr_mask rule) \/
  (pr_deny rule = false /\ pr_require rule <> [] /\
   forall attr allowed, (attr, allowed) ∈ pr_require rule -> exists v, sf_attributes sink !! attr = Some v /\ v ∈ allowed).

Lemma concat_nil_iff {A} (l : list (list A)) : concat l = [] <-> forall x, x ∈ l -> x = [].
Proof.
  induction l as [|x l IH]; [set_solver|]. cbn [concat]. rewrite app_nil, IH. set_solver.
Qed.

Lemma evaluate_column_nil sink rule col : evaluate_column sink rule col = [] <-> satisfied sink rule col.
Proof.
  unfold evaluate_column, satisfied. destruct (existsb _ _) eqn:Hl; cbn [negb].
  - apply existsb_exists in Hl as (l & Hl%list_elem_of_In & Ha). apply elem_of_elements in Hl.
    destruct (match cf_masked col with Some _ => _ | None => _ end) eqn:Hm.
    { split; [|done]. intros _ _. left. destruct (cf_masked col) as [a|]; [|done]. exists a. unfold mem in Hm. by reflect_bools. }
    assert (~ exists a, cf_masked col = Some a /\ a ∈ pr_mask rule) as Hnm.
    { intros (a & Ea & Hin). rewrite Ea in Hm. unfold mem in Hm. by reflect_bools. }
    destruct (pr_deny rule); [split; [done|naive_solver]|]. destruct (pr_require rule) as [|q qs] eqn:Hq; [split; [done|naive_solver]|].
    cbn [is_nil]. rewrite omap_nil. split.
    + intros H _. right. split_and!; [done..|]. intros attr allowed Hin. apply H in Hin. cbn in Hin.
      destruct (sf_attributes sink !! attr) as [v|]; [|done]. exists v. unfold mem in Hin. case_bool_decide; done.
    + intros H. destruct H as [?|(_ & _ & H)]; [eauto|done|]. intros [attr allowed] (v & Ev & Hv)%H. cbn. rewrite Ev. unfold mem. by rewrite bool_decide_eq_true_2.
  - split; [|done]. intros _ (l & Hin & Ha). exfalso. apply elem_of_elements in Hin.
    apply (existsb_false_forall _ _ l) in Hl; [congruence|done].
Qed.

Lemma evaluate_nil policy sink cols : evaluate policy sink cols = [] <->
  forall rule col, rule ∈ cp_rules policy -> col ∈ cols -> satisfied sink rule col.
Proof.
  unfold evaluate. rewrite concat_nil_iff. setoid_rewrite list_elem_of_fmap. split.
  - intros H rule col Hr Hc. apply evaluate_column_nil. specialize (H _ (ex_intro _ rule (conj eq_refl Hr))). rewrite concat_nil_iff in H.
    apply H, list_elem_of_fmap. eauto.
  - intros H x (rule & -> & Hr). apply concat_nil_iff. intros y (col & -> & Hc)%list_elem_of_fmap. apply evaluate_column_nil. auto.
Qed.

(** ** The classification walk *)

Definition names_ok policy (names : NameLabels) : Prop := forall p l, names !! p = Some l -> l = labels_for_name L policy p.
Definition name_labels policy (path : string) : gset string := if is_empty_str path then ∅ else labels_for_name L policy path.

Lemma by_name_ok policy path names : names_ok policy names ->
  exists names', by_name L policy path names = (name_labels policy path, names') /\ names_ok policy names'.
Proof.
  intros Hn. unfold by_name, name_labels. destruct (is_empty_str path); [eauto|].
  destruct (names !! path) as [l|] eqn:Hl; [apply Hn in Hl as ->; eauto|]. eexists. split; [done|].
  intros p l. destruct (decide (p = path)) as [->|Hp].
  - intros H. rewrite lookup_insert_eq in H. by injection H.
  - rewrite lookup_insert_ne by done. apply Hn.
Qed.

Lemma walk_object policy path map_ inh st : walk L policy path (VObject map_) inh st =
  let '(mine, names) := by_name L policy path st.2 in
  foldl (fun st e => walk L policy (child_path path e.1) e.2 (inh ∪ mine) st) (st.1, names) map_.
Proof.
  cbn [walk]. destruct (by_name L policy path st.2) as [mine names]. generalize (st.1, names). clear st.
  induction map_ as [|[k v] map_ IH]; intros st; [done|]. apply IH.
Qed.
Lemma walk_array policy path items inh st : walk L policy path (VArray items) inh st =
  let '(mine, names) := by_name L policy path st.2 in
  foldl (fun st e => walk L policy (path +:+ "." +:+ dec (Z.of_nat e.2)) e.1 (inh ∪ mine) st) (st.1, names) (indexed 0 items).
Proof.
  cbn [walk]. destruct (by_name L policy path st.2) as [mine names]. generalize (st.1, names). clear st. change 0 with (Z.of_nat 0). generalize 0%nat.
  unfold indexed. induction items as [|v items IH]; intros i st; [done|]. cbn [length seq zip zip_with foldl]. rewrite <- IH. cbn [fst snd].
  by replace (Z.of_nat i + 1) with (Z.of_nat (S i)) by lia.
Qed.

(** The children of a container with the walk's paths. *)
Definition kids (path : string) (v : Value) : list (string * Value) :=
  match v with
  | VObject map_ => (fun e => (child_path path e.1, e.2)) <$> map_
  | VArray items => (fun e => (path +:+ "." +:+ dec (Z.of_nat e.2), e.1)) <$> indexed 0 items
  | _ => []
  end.
Definition is_container (v : Value) : bool := match v with VObject _ | VArray _ => true | _ => false end.
Lemma foldl_fmap' {A B C} (f : A -> C -> A) (g : B -> C) a l : foldl f a (g <$> l) = foldl (fun a b => f a (g b)) a l.
Proof. revert a. induction l as [|b l IH]; intros a; [done|]. apply IH. Qed.
Lemma walk_container policy path v inh st : is_container v = true -> walk L policy path v inh st =
  let '(mine, names) := by_name L policy path st.2 in
  foldl (fun st e => walk L policy e.1 e.2 (inh ∪ mine) st) (st.1, names) (kids path v).
Proof.
  destruct v; try done; intros _; rewrite ?walk_object, ?walk_array; destruct (by_name _ _ _ _); unfold kids; by rewrite foldl_fmap'.
Qed.
Lemma kids_forall (P : Value -> Prop) path v : is_container v = true ->
  match v with VObject m => Forall (fun e => P e.2) m | VArray l => Forall P l | _ => True end -> Forall (fun e => P e.2) (kids path v).
Proof.
  destruct v as [| | | |l|m]; try done; intros _ H; cbn [kids]; apply Forall_fmap, Forall_forall; rewrite Forall_forall in H.
  - intros [x i] Hx. cbn. apply H. unfold indexed in Hx. by apply elem_of_zip_l in Hx.
  - intros e He. by apply (H e).
Qed.

Lemma value_container_ind (P : Value -> Prop) : (forall v, is_container v = false -> P v) ->
  (forall v, is_container v = true -> (forall path, Forall (fun e => P e.2) (kids path v)) -> P v) -> forall v, P v.
Proof.
  intros Hs Hc v. induction v as [| | | |l IH|m IH] using Value_nested_ind; try (by apply Hs);
    (apply Hc; [done|]; intros path; by apply kids_forall).
Qed.

(** The memo changes nothing: two walks agree on the columns. *)
Definition agree policy (a b : Columns * NameLabels) : Prop := a.1 = b.1 /\ names_ok policy a.2 /\ names_ok policy b.2.
Lemma walk_scalar_agree policy path v inh a b : agree policy a b -> agree policy (walk_scalar L policy path v inh a) (walk_scalar L policy path v inh b).
Proof.
  destruct a as [out n1], b as [out' n2]. intros (Heq & H1 & H2). cbn in Heq, H1, H2. subst out'. unfold walk_scalar. destruct (is_empty_str path); [done|].
  destruct (by_name_ok policy path n1 H1) as (m1 & -> & Hm1), (by_name_ok policy path n2 H2) as (m2 & -> & Hm2). by destruct (bool_decide (_ = ∅)) in |- *.
Qed.
Lemma walk_agree policy v path inh a b : agree policy a b -> agree policy (walk L policy path v inh a) (walk L policy path v inh b).
Proof.
  revert path inh a b. induction v as [v Hv|v Hv IH] using value_container_ind; intros path inh a b Hab.
  { destruct v; try done; by apply walk_scalar_agree. }
  rewrite !walk_container by done. destruct Hab as (Heq & H1 & H2). rewrite Heq.
  destruct (by_name_ok policy path a.2 H1) as (m1 & -> & Hm1), (by_name_ok policy path b.2 H2) as (m2 & -> & Hm2).
  assert (agree policy (b.1, m1) (b.1, m2)) as Hab by done. revert Hab. generalize (b.1, m1) (b.1, m2). specialize (IH path).
  induction IH as [|e l He _ IHl]; intros x y Hxy; [done|]. apply IHl. by apply He.
Qed.

(** ** Every label is found *)

Definition covers (out : Columns) (path l : string) : Prop := exists ls via, out !! path = Some (ls, via) /\ l ∈ ls.
Lemma covers_scalar_mono policy path v inh st p l : covers st.1 p l -> covers (walk_scalar L policy path v inh st).1 p l.
Proof.
  destruct st as [out names]. cbn. intros (ls & via & Hp & Hl). unfold walk_scalar. destruct (is_empty_str path); [by exists ls, via|].
  destruct (by_name L policy path names) as [mine names']. destruct (bool_decide (_ = ∅)) in |- *; [by exists ls, via|]. unfold covers. cbn.
  destruct (decide (p = path)) as [->|Hne]; [|rewrite lookup_insert_ne by done; eauto].
  rewrite lookup_insert_eq, Hp. cbn. eexists _, _. split; [done|]. set_solver.
Qed.
Lemma covers_mono policy v path inh st p l : covers st.1 p l -> covers (walk L policy path v inh st).1 p l.
Proof.
  revert path inh st. induction v as [v Hv|v Hv IH] using value_container_ind; intros path inh st H.
  { destruct v; try done; by apply covers_scalar_mono. }
  rewrite walk_container by done. destruct (by_name L policy path st.2) as [mine names]. specialize (IH path).
  assert (covers (st.1, names).1 p l) as H' by done. revert H'. generalize (st.1, names). clear H.
  induction IH as [|e kl He _ IHl]; intros x Hx; [done|]. apply IHl. by apply He.
Qed.

Lemma covers_scalar policy path v inh st l : path <> EmptyString -> is_scalar v = true -> names_ok policy st.2 ->
  l ∈ name_labels policy path ∪ inh ∪ labels_for_scalar L policy v -> covers (walk L policy path v inh st).1 path l.
Proof.
  intros Hp Hs Hn Hl. replace (walk L policy path v inh st) with (walk_scalar L policy path v inh st) by (by destruct v).
  destruct st as [out names]. unfold walk_scalar. replace (is_empty_str path) with false by (by destruct path).
  destruct (by_name_ok policy path names Hn) as (names' & -> & _). rewrite bool_decide_eq_false_2 by set_solver. unfold covers. cbn.
  rewrite lookup_insert_eq. eexists _, _. split; [done|]. set_solver.
Qed.

Lemma walk_names_ok policy v path inh st : names_ok policy st.2 -> names_ok policy (walk L policy path v inh st).2.
Proof. intros H. destruct (walk_agree policy v path inh st st) as (_ & Hk & _); [done|exact Hk]. Qed.

Lemma foldl_covers policy inh kl n e st p l : kl !! n = Some e -> names_ok policy st.2 ->
  (forall st, names_ok policy st.2 -> covers (walk L policy e.1 e.2 inh st).1 p l) ->
  covers (foldl (fun st e => walk L policy e.1 e.2 inh st) st kl).1 p l.
Proof.
  intros Hn Hst He. revert n st Hn Hst. induction kl as [|x kl IH]; intros [|n] st Hn Hst; try done; cbn [foldl].
  - injection Hn as ->. specialize (He st Hst). revert He. generalize (walk L policy e.1 e.2 inh st). clear.
    induction kl as [|x kl IH]; intros st Hc; [done|]. cbn. apply IH. by apply covers_mono.
  - apply (IH n); [done|]. by apply walk_names_ok.
Qed.

Lemma kids_child path v n k c : is_empty_str path = false \/ (exists m, v = VObject m) -> child v n = Some (k, c) ->
  kids path v !! n = Some (child_path path k, c).
Proof.
  intros Hp. destruct v as [| | | |items|m]; try done; cbn [child kids].
  - destruct Hp as [Hp|[? ?]]; [|done]. rewrite list_lookup_fmap. unfold indexed. rewrite lookup_zip_with.
    destruct (items !! n) as [x|] eqn:Hx; [|done]. intros [= <- <-]. cbn. rewrite lookup_seq_lt by (by eapply lookup_lt_Some).
    cbn. unfold child_path. by rewrite Hp.
  - intros Hn. by rewrite list_lookup_fmap, Hn.
Qed.

Lemma covers_below policy ns v path inh st segs leaf l : names_ok policy st.2 ->
  locate v ns = Some (segs, leaf) -> is_scalar leaf = true -> Forall plain_key segs ->
  is_empty_str path = false \/ (exists m, v = VObject m) ->
  (l ∈ inh \/ l ∈ labels_for_scalar L policy leaf \/ exists a b, segs = a ++ b /\ l ∈ name_labels policy (foldl child_path path a)) ->
  covers (walk L policy path v inh st).1 (foldl child_path path segs) l.
Proof.
  revert v path inh st segs. induction ns as [|n ns IH]; intros v path inh st segs Hst Hl Hs Hk Hp Hlab.
  - injection Hl as <- ->. destruct Hp as [Hp|[m ->]]; [|done]. cbn [foldl]. apply covers_scalar; [by intros ->|done..|].
    destruct Hlab as [?|[?|([] & b & Hab & ?)]]; set_solver.
  - assert (is_container v = true) as Hv by (destruct (locate_container _ _ _ _ _ Hl); by destruct v).
    apply locate_cons in Hl as (k & c & segs' & Hc & -> & Hl). apply Forall_cons in Hk as [[Hk _] Hks].
    rewrite walk_container by done. destruct (by_name_ok policy path st.2 Hst) as (names & -> & Hn).
    eapply foldl_covers; [by apply kids_child|done|]. intros st' Hst'. cbn [fst snd foldl]. apply IH; try done.
    { left. by apply child_path_nonempty. }
    destruct Hlab as [?|[?|([|x a] & b & Hab & Ha)]]; [set_solver|by right; left|set_solver|].
    right; right. injection Hab as <- ->. by exists a, b.
Qed.

(** *** Exactly the labels a record earns *)

(** Within the node [v] at [path], the scalar [w] stands at [q], below the nodes at
    [above] (its own path last). *)
Inductive scalar_in : string -> Value -> list string -> string -> Value -> Prop :=
| scalar_here path w : is_scalar w = true -> scalar_in path w [path] path w
| scalar_below path v c cv above q w :
    (c, cv) ∈ kids path v -> scalar_in c cv above q w -> scalar_in path v (path :: above) q w.
(** The labels a name and a value earn: those of the classifications that list the name or its
    last segment or whose pattern matches it, and those whose detector finds the value. *)
Definition earned_by_name policy (name l : string) : Prop :=
  exists c, c ∈ cp_classifications policy /\ cc_label c = l /\
    (name ∈ cc_fields c \/ leaf_key name ∈ cc_fields c \/ exists re, cc_field_pattern c = Some re /\ is_match L re name = true).
Definition earned_by_value policy (w : Value) (l : string) : Prop :=
  exists c d, c ∈ cp_classifications policy /\ cc_label c = l /\ cc_value_detector c = Some d /\ detects_value L d w = true.
Definition earns policy (above : list string) (w : Value) (l : string) : Prop :=
  earned_by_value policy w l \/ exists a, a ∈ above /\ a <> EmptyString /\ earned_by_name policy a l.

Lemma labels_where_spec policy f l : l ∈ labels_where policy f <-> exists c, c ∈ cp_classifications policy /\ cc_label c = l /\ f c = true.
Proof.
  unfold labels_where. rewrite elem_of_list_to_set, list_elem_of_fmap. setoid_rewrite list_elem_of_filter. naive_solver.
Qed.
Lemma name_labels_spec policy a l : l ∈ name_labels policy a <-> a <> EmptyString /\ earned_by_name policy a l.
Proof.
  unfold name_labels, earned_by_name. destruct (is_empty_str a) eqn:Ha.
  { destruct a; [|done]. split; [set_solver|naive_solver]. }
  assert (a <> EmptyString) as Hne by (by destruct a). unfold labels_for_name. rewrite labels_where_spec. split.
  - intros (c & Hc & Hl & Hf). split; [done|]. exists c. split_and!; [done..|]. rewrite !orb_true_iff, !bool_decide_eq_true in Hf.
    destruct Hf as [[?|?]|Hf]; [by left|by right; left|]. destruct (cc_field_pattern c) as [re|]; [|done]. right; right. by exists re.
  - intros (_ & c & Hc & Hl & Hf). exists c. split_and!; [done..|]. rewrite !orb_true_iff, !bool_decide_eq_true.
    destruct Hf as [?|[?|(re & -> & ?)]]; auto.
Qed.
Lemma scalar_labels_spec policy w l : l ∈ labels_for_scalar L policy w <-> earned_by_value policy w l.
Proof.
  unfold labels_for_scalar, earned_by_value. rewrite labels_where_spec. split.
  - intros (c & Hc & Hl & Hf). destruct (cc_value_detector c) as [d|] eqn:Hd; [|done]. by exists c, d.
  - intros (c & d & Hc & Hl & Hd & Hf). exists c. by rewrite Hd.
Qed.

Definition reached policy path v (inh : gset string) (q l : string) : Prop :=
  exists above w, scalar_in path v above q w /\ q <> EmptyString /\ (l ∈ inh \/ earns policy above w l).
Lemma covers_scalar_iff policy path v inh st q l : names_ok policy st.2 -> is_scalar v = true ->
  covers (walk_scalar L policy path v inh st).1 q l <-> covers st.1 q l \/ reached policy path v inh q l.
Proof.
  intros Hn Hs. assert (reached policy path v inh q l <-> q = path /\ path <> EmptyString /\ l ∈ name_labels policy path ∪ inh ∪ labels_for_scalar L policy v) as ->.
  { rewrite !elem_of_union, name_labels_spec, scalar_labels_spec. unfold reached, earns. split.
    - intros (above & w & Hw & Hq & Hl). inversion Hw as [? ? Hs' | ? ? c cv ? ? ? Hc]; subst; [|destruct v; by try apply elem_of_nil in Hc].
      split_and!; [done..|]. destruct Hl as [?|[?|(a & ->%list_elem_of_singleton & ? & ?)]]; auto.
    - intros (-> & Hne & Hl). exists [path], v. split_and!; [by constructor|done|].
      destruct Hl as [[[? ?]|?]|?]; [right; right; exists path; by split; [apply list_elem_of_singleton|]|by left|by right; left]. }
  destruct st as [out names]. unfold walk_scalar. destruct (is_empty_str path) eqn:Hp.
  { destruct path; [|done]. cbn. naive_solver. }
  assert (path <> EmptyString) as Hne by (by destruct path). cbn in Hn.
  destruct (by_name_ok policy path names Hn) as (names' & -> & _). case_bool_decide as He; unfold covers; cbn.
  { split; [by left|]. intros [?|(_ & _ & Hl)]; [done|]. rewrite He in Hl. by apply elem_of_empty in Hl. }
  destruct (decide (q = path)) as [-> |Hq]; [|rewrite lookup_insert_ne by done; naive_solver].
  rewrite lookup_insert_eq. destruct (out !! path) as [[ls via]|] eqn:Ho; cbn [default fst snd].
  - split; [intros (? & ? & [= <- <-] & [Hl|Hl]%elem_of_union); eauto 6|].
    intros [(? & ? & [= <- <-] & Hl)|(_ & _ & Hl)]; eexists _, _; (split; [done|]); set_solver.
  - split; [intros (? & ? & [= <- <-] & [Hl|Hl]%elem_of_union); [by apply elem_of_empty in Hl|eauto]|].
    intros [(? & ? & [=] & _)|(_ & _ & Hl)]; eexists _, _; (split; [done|]); set_solver.
Qed.
Lemma foldl_covers_iff policy inh kl st q l :
  Forall (fun e => forall st, names_ok policy st.2 -> covers (walk L policy e.1 e.2 inh st).1 q l <-> covers st.1 q l \/ reached policy e.1 e.2 inh q l) kl ->
  names_ok policy st.2 ->
  covers (foldl (fun st e => walk L policy e.1 e.2 inh st) st kl).1 q l <-> covers st.1 q l \/ exists e, e ∈ kl /\ reached policy e.1 e.2 inh q l.
Proof.
  intros H. revert st. induction H as [|e kl He _ IH]; intros st Hst; cbn [foldl].
  { split; [by left|]. intros [?|(e & Hin & _)]; [done|]. by apply elem_of_nil in Hin. }
  rewrite IH by (by apply walk_names_ok). rewrite He by done. setoid_rewrite elem_of_cons. naive_solver.
Qed.
(** A walk collects exactly the labels the scalars of the value earn. *)
Lemma covers_iff policy v path inh st q l : names_ok policy st.2 ->
  covers (walk L policy path v inh st).1 q l <-> covers st.1 q l \/ reached policy path v inh q l.
Proof.
  revert path inh st. induction v as [v Hv|v Hv IH] using value_container_ind; intros path inh st Hst.
  { destruct (is_scalar v) eqn:Hs.
    - replace (walk L policy path v inh st) with (walk_scalar L policy path v inh st) by (by destruct v). by apply covers_scalar_iff.
    - assert (walk L policy path v inh st = st) as -> by (by destruct v). split; [by left|]. intros [?|(above & w & Hw & _)]; [done|].
      inversion Hw as [? ? Hs' | ? ? c cv ? ? ? Hc]; subst; [congruence|]. destruct v; by try apply elem_of_nil in Hc. }
  rewrite walk_container by done. destruct (by_name_ok policy path st.2 Hst) as (names & -> & Hn).
  rewrite foldl_covers_iff; [|eapply Forall_impl; [apply (IH path)|]; cbn; auto|done]. cbn [fst].
  assert ((exists e, e ∈ kids path v /\ reached policy e.1 e.2 (inh ∪ name_labels policy path) q l) <-> reached policy path v inh q l) as ->; [|done].
  unfold reached. split.
  - intros ([c cv] & Hin & above & w & Hw & Hq & Hl). exists (path :: above), w. split_and!; [by econstructor|done|].
    rewrite elem_of_union, name_labels_spec in Hl. destruct Hl as [[?|?]|[?|(a & ? & ?)]]; [by left|right; right; exists path; by split; [left|]|by right; left|].
    right; right. exists a. by split; [right|].
  - intros (above & w & Hw & Hq & Hl). inversion Hw as [? ? Hs | ? ? c cv above' ? ? Hc Hw']; subst; [by destruct w|].
    exists (c, cv). split; [done|]. exists above', w. split_and!; [done..|]. rewrite elem_of_union, name_labels_spec.
    destruct Hl as [?|[?|(a & [-> |Ha]%elem_of_cons & ?)]]; [by left; left|by right; left|by left; right|right; right; by exists a].
Qed.

(** Every scalar of a record becomes a column with all its labels. *)
Lemma foldl_child_join segs path : Forall plain_key segs -> segs <> [] -> foldl child_path path segs = child_path path (join "." segs).
Proof.
  revert path. induction segs as [|k segs IH]; intros path Hf Hn; [done|]. apply Forall_cons in Hf as [[Hk _] Hks]. destruct segs as [|k' segs]; [done|].
  cbn [foldl]. change (foldl child_path (child_path path k) (k' :: segs) = child_path path (k +:+ "." +:+ join "." (k' :: segs))).
  rewrite IH by done. unfold child_path at 1. rewrite child_path_nonempty by done. unfold child_path. destruct (is_empty_str path); [done|].
  by rewrite !string_app_assoc.
Qed.

Lemma elem_of_columns maskings (out : Columns) path ls via : out !! path = Some (ls, via) ->
  MkColumnFacts path ls (first_action L maskings path) false (Some via) ∈ columns_of L maskings out.
Proof.
  intros H. unfold columns_of. apply list_elem_of_fmap. exists (path, (ls, via)). split; [done|].
  apply elem_of_sort_by. by apply elem_of_map_to_list.
Qed.

Lemma labels_found policy m maskings names ns segs leaf l a b : names_ok policy names ->
  locate (VObject m) ns = Some (segs, leaf) -> is_scalar leaf = true -> Forall plain_key segs ->
  l ∈ labels_for_scalar L policy leaf \/ (segs = a ++ b /\ a <> [] /\ l ∈ labels_for_name L policy (join "." a)) ->
  exists col, col ∈ (classify_cached L policy (VObject m) maskings names).1 /\ cf_name col = join "." segs /\
    cf_masked col = first_action L maskings (join "." segs) /\ l ∈ cf_labels col.
Proof.
  intros Hn Hl Hs Hk Hlab. assert (segs <> []) as Hne.
  { destruct ns; [by injection Hl as <- <-|]. by apply locate_cons in Hl as (? & ? & ? & _ & -> & _). }
  destruct (covers_below policy ns (VObject m) EmptyString ∅ (∅, names) segs leaf l) as (ls & via & Hlook & Hin); try done; [by right; eexists| |].
  { destruct Hlab as [?|(-> & Ha & Hl')]; [by right; left|]. right; right. exists a, b. split; [done|].
    apply Forall_app in Hk as [Hka _]. rewrite foldl_child_join by done. unfold name_labels.
    change (child_path EmptyString (join "." a)) with (join "." a).
    destruct a as [|x a]; [done|]. apply Forall_cons in Hka as [[Hx _] _].
    assert (is_empty_str (join "." (x :: a)) = false) as -> by (pose proof (join_nonempty "." x a Hx); by destruct (join "." (x :: a))). done. }
  rewrite foldl_child_join in Hlook by done. change (child_path EmptyString (join "." segs)) with (join "." segs) in Hlook.
  unfold classify_cached. destruct (walk L policy EmptyString (VObject m) ∅ (∅, names)) as [out names'].
  eexists. split; [by apply (elem_of_columns maskings)|done].
Qed.
End Facts.

(** ** The decorated sink *)

Section SinkFacts.
Context {Regex E : Type} (L : MaskLibs Regex).
Implicit Types (p : PolicySink (Regex := Regex) (E := E)) (r : Value) (records : list Value).

(** What a row breaks at this sink. *)
Definition violations_of p r : list Violation := (check_record L p (payload_of p r) ∅).1.2.
Definition clean p r : bool := is_nil (violations_of p r).

Lemma names_ok_empty policy : names_ok (Regex := Regex) L policy ∅.
Proof. by intros q l H%lookup_empty_Some. Qed.

Lemma check_record_memo p r names : names_ok L (ps_policy p) names ->
  exists names', check_record L p r names = ((check_record L p r ∅).1, names') /\ names_ok L (ps_policy p) names'.
Proof.
  intros Hn. unfold check_record, classify_cached.
  destruct (walk_agree L (ps_policy p) r EmptyString ∅ (∅, names) (∅, ∅)) as (Heq & Hok & _); [by split_and!; [|done|apply names_ok_empty]|].
  destruct (walk L _ _ r ∅ (∅, names)) as [out n1], (walk L _ _ r ∅ (∅, ∅)) as [out' n2]. cbn in Heq, Hok. subst out'.
  destruct (is_nil (columns_of L (maskings_of p) out)); eauto.
Qed.

Lemma screen_record_memo p r names : names_ok L (ps_policy p) names ->
  exists names', screen_record L p r names = ((screen_record L p r ∅).1, names') /\ names_ok L (ps_policy p) names'.
Proof.
  intros Hn. unfold screen_record. destruct (check_record_memo p (payload_of p r) names Hn) as (names' & -> & Hok).
  destruct (check_record L p (payload_of p r) ∅) as [[columns violations] n]. cbn [fst]. exists names'. split; [|done]. by repeat case_match.
Qed.
Lemma screen_record_head p r names o : names_ok L (ps_policy p) names -> (screen_record L p r names).1 = Ok o -> o = head (violations_of p r).
Proof.
  intros Hn. destruct (screen_record_memo p r names Hn) as (names' & -> & _). cbn [fst]. unfold screen_record, violations_of.
  destruct (check_record L p (payload_of p r) ∅) as [[columns violations] n]. cbn [fst snd].
  destruct violations as [|v vs]; [by intros [= <-]|]. repeat case_match; try done; by intros [= <-].
Qed.

(** The rows [screen] reports, with their first violation. *)
Fixpoint marked p (i : nat) records : list (nat * Violation) :=
  match records with
  | [] => []
  | r :: records => match head (violations_of p r) with
                    | Some v => (i, v) :: marked p (S i) records
                    | None => marked p (S i) records
                    end
  end.
Lemma screen_go_marked p i records names offending off : names_ok L (ps_policy p) names ->
  screen_go L p i records names offending = Ok off -> off = offending ++ marked p i records.
Proof.
  revert i names offending. induction records as [|r records IH]; intros i names offending Hn; cbn [screen_go marked].
  { intros [= <-]. by rewrite app_nil_r. }
  pose proof (screen_record_head p r names) as Hh. destruct (screen_record_memo p r names Hn) as (names' & Heq & Hn'). rewrite Heq in Hh |- *.
  destruct (screen_record L p r ∅).1 as [o|e]; [|done]. rewrite <- (Hh o Hn eq_refl). destruct o as [v|]; intros H; apply IH in H as ->; try done.
  by rewrite <- app_assoc.
Qed.
Lemma screen_marked p records off : screen L p records = Ok off -> off = marked p 0 records.
Proof. intros H. by apply (screen_go_marked p 0 records ∅ []) in H; [|apply names_ok_empty]. Qed.

Lemma marked_nil p i records : marked p i records = [] -> Forall (fun r => clean p r = true) records.
Proof.
  revert i. induction records as [|r records IH]; intros i; cbn [marked]; [done|]. unfold clean.
  destruct (violations_of p r) eqn:Hv; cbn [head]; [|done]. intros H. constructor; [by rewrite Hv|]. by eapply IH.
Qed.
Lemma marked_before p i j records : (j < i)%nat -> (list_to_map (marked p i records) : gmap nat Violation) !! j = None.
Proof.
  revert i. induction records as [|r records IH]; intros i Hj; cbn [marked]; [done|].
  destruct (head _); cbn; [rewrite lookup_insert_ne by lia|]; apply IH; lia.
Qed.
Lemma marked_lookup p i j records : (list_to_map (marked p i records) : gmap nat Violation) !! (i + j)%nat = records !! j ≫= fun r => head (violations_of p r).
Proof.
  revert i j. induction records as [|r records IH]; intros i j; cbn [marked]; [done|]. destruct j as [|j].
  - rewrite Nat.add_0_r. cbn. destruct (head (violations_of p r)); cbn; [by rewrite lookup_insert_eq|apply marked_before; lia].
  - specialize (IH (S i) j). replace (i + S j)%nat with (S i + j)%nat by lia. change ((r :: records) !! S j) with (records !! j). rewrite <- IH.
    destruct (head (violations_of p r)); [|done]. cbn. by rewrite lookup_insert_ne by lia.
Qed.

Lemma keep_clean p (q : gmap nat Violation) i records : (forall j, q !! (i + j)%nat = records !! j ≫= fun r => head (violations_of p r)) ->
  keep_at (fun k => is_none (q !! k)) i records = List.filter (clean p) records.
Proof.
  revert i. induction records as [|r records IH]; intros i Hq; [done|]. cbn [keep_at List.filter].
  pose proof (Hq 0%nat) as H0. rewrite Nat.add_0_r in H0. rewrite H0. cbn. rewrite (IH (S i)) by (intros j; rewrite Nat.add_succ_comm; apply (Hq (S j))).
  unfold clean. by destruct (violations_of p r).
Qed.

Lemma merge_outcomes_spec (q : gmap nat Violation) {A} (rows : list A) i inner :
  length inner = length (keep_at (fun k => is_none (q !! k)) i rows) ->
  length (merge_outcomes q i (length rows) inner) = length rows /\
  keep_at (fun k => is_none (q !! k)) i (merge_outcomes q i (length rows) inner) = inner /\
  forall j v, (j < length rows)%nat -> q !! (i + j)%nat = Some v -> merge_outcomes q i (length rows) inner !! j = Some (Err (refuse v EmptyString)).
Proof.
  revert i inner. induction rows as [|x rows IH]; intros i inner Hlen; cbn [keep_at length merge_outcomes] in *.
  { destruct inner; [|done]. split_and!; [done..|lia]. }
  destruct (q !! i) as [v|] eqn:Hq; cbn [is_none] in Hlen.
  - destruct (IH (S i) inner Hlen) as (H1 & H2 & H3). cbn [length keep_at]. rewrite Hq. cbn [is_none]. split_and!; [congruence|done|].
    intros [|j] w Hj; [rewrite Nat.add_0_r, Hq; by intros [= ->]|]. rewrite <- Nat.add_succ_comm. apply H3. lia.
  - destruct inner as [|o inner]; [done|]. cbn [length] in Hlen. destruct (IH (S i) inner ltac:(lia)) as (H1 & H2 & H3).
    cbn [length keep_at]. rewrite Hq. cbn [is_none]. split_and!; [congruence|by rewrite H2|].
    intros [|j] w Hj; [rewrite Nat.add_0_r, Hq; done|]. rewrite <- Nat.add_succ_comm. apply H3. lia.
Qed.

Lemma screen_record_clean p r names : names_ok L (ps_policy p) names -> clean p r = true -> (screen_record L p r names).1 = Ok None.
Proof.
  intros Hn Hc. destruct (screen_record_memo p r names Hn) as (names' & -> & _). cbn [fst]. unfold clean, violations_of, screen_record in *.
  destruct (check_record L p (payload_of p r) ∅) as [[columns violations] n]. cbn [fst snd] in *. by destruct violations.
Qed.
Lemma screen_go_clean p i records names : names_ok L (ps_policy p) names -> forallb (clean p) records = true -> screen_go L p i records names [] = Ok [].
Proof.
  revert i names. induction records as [|r records IH]; intros i names Hn; [done|]. cbn [forallb screen_go]. intros [Hr Hc]%andb_true_iff.
  pose proof (screen_record_clean p r names Hn Hr) as Hh. destruct (screen_record_memo p r names Hn) as (names' & Heq & Hn').
  rewrite Heq in Hh |- *. cbn in Hh. rewrite Hh. by apply IH.
Qed.
Lemma screen_clean p records : forallb (clean p) records = true <-> screen L p records = Ok [].
Proof.
  split; [apply screen_go_clean, names_ok_empty|]. intros H%screen_marked. symmetry in H. apply marked_nil in H.
  induction H as [|r l Hr _ IH]; [done|]. cbn. by rewrite Hr.
Qed.

Lemma screened_page_spec {A} p suffix records (inner : backend (E := E) A) e :
  exists err, screened_page L p suffix records inner e = if forallb (clean p) records then inner e else ((Err err, 0), e).
Proof.
  unfold screened_page. destruct (forallb (clean p) records) eqn:Hc.
  { apply screen_clean in Hc as ->. by exists (Config EmptyString). }
  destruct (screen L p records) as [[|[i v] off]|err] eqn:Hs; [|by eexists..]. apply screen_clean in Hs. congruence.
Qed.
Lemma idempotent_spec p records scope token e :
  exists err, policy_write_batch_idempotent_reported L p records scope token e =
    if forallb (clean p) records then write_batch_idempotent_reported (ps_inner p) records scope token e else ((Err err, 0), e).
Proof.
  destruct (screened_page_spec p NO_PARTIAL records (write_batch_idempotent_reported (ps_inner p) records scope token) e) as [err H].
  exists err. rewrite <- H. unfold policy_write_batch_idempotent_reported, screen_idempotent, screened_page.
  by destruct (screen L p records) as [[|[i v] off]|].
Qed.
Lemma filter_all_clean p records : forallb (clean p) records = true -> List.filter (clean p) records = records.
Proof. induction records as [|r records IH]; [done|]. cbn. destruct (clean p r); [|done]. intros H. by rewrite IH. Qed.

(** The partial write when some row is quarantined. *)
Lemma partial_quarantine p records e off : screen L p records = Ok off -> forallb (clean p) records = false ->
  policy_write_batch_partial L p records e =
  let kept := List.filter (clean p) records in
  let quarantined : gmap nat Violation := list_to_map (marked p 0 records) in
  let '((answer, d), e) := if is_nil kept then ((Ok [], 0), e) else write_batch_partial (ps_inner p) kept e in
  match answer with
  | Err err => ((Err err, d), e)
  | Ok inner =>
      if negb (length inner =? length kept)%nat then
        ((Err (outcome_count_mismatch (connector_name (ps_inner p)) (zlen inner) (zlen kept)), d), e)
      else ((Ok (merge_outcomes quarantined 0 (length records) inner), d), e)
  end.
Proof.
  intros Hs Hc. unfold policy_write_batch_partial. destruct off as [|o off]; [apply screen_clean in Hs; congruence|].
  rewrite Hs. apply screen_marked in Hs. rewrite Hs. set (q := list_to_map (marked p 0 records) : gmap nat Violation). cbv zeta.
  by replace (keep_unquarantined q records) with (List.filter (clean p) records)
    by (symmetry; apply (keep_clean p q 0 records); intros j; apply (marked_lookup p 0 j records)).
Qed.
Lemma partial_env p records e : (policy_write_batch_partial L p records e).2 =
  match screen L p records with
  | Err _ => e
  | Ok _ => if is_nil (List.filter (clean p) records) && negb (forallb (clean p) records) then e
            else (write_batch_partial (ps_inner p) (List.filter (clean p) records) e).2
  end.
Proof.
  destruct (screen L p records) as [off|err] eqn:Hs; [|unfold policy_write_batch_partial; by rewrite Hs].
  destruct (forallb (clean p) records) eqn:Hc.
  - rewrite andb_false_r, filter_all_clean by done. unfold policy_write_batch_partial. by rewrite (proj1 (screen_clean p records) Hc).
  - rewrite (partial_quarantine _ _ _ _ Hs Hc), andb_true_r. cbv zeta. destruct (is_nil (List.filter (clean p) records)) eqn:Hk.
    { by destruct (List.filter (clean p) records). }
    destruct (write_batch_partial _ _ _) as [[[inner|err] d] e']; [|done]. by destruct (negb _).
Qed.
End SinkFacts.
Arguments violations_of {Regex E} L p r.
Arguments clean {Regex E} L p r.

(** *** What a rule says *)

(** A rule is about a label at a sink: the label is its own, and the sink's kind and declared
    attributes are among those it names. *)
Definition about_sink (sink : SinkFacts) (rule : PolicyRule) (l : string) : Prop :=
  rw_label (pr_when rule) = l /\ (rw_sink_kind (pr_when rule) = [] \/ sf_kind sink ∈ rw_sink_kind (pr_when rule)) /\
  forall attr vals, (attr, vals) ∈ rw_sink (pr_when rule) -> exists v, sf_attributes sink !! attr = Some v /\ v ∈ vals.
(** What a rule asks of a column: a listed mask, or (unless it denies) all the attributes it
    requires, of which there is one. *)
Definition permits (sink : SinkFacts) (rule : PolicyRule) (masked : option string) : Prop :=
  (exists a, masked = Some a /\ a ∈ pr_mask rule) \/
  (pr_deny rule = false /\ pr_require rule <> [] /\
   forall attr allowed, (attr, allowed) ∈ pr_require rule -> exists v, sf_attributes sink !! attr = Some v /\ v ∈ allowed).
(** No scalar of the row earns a label some rule about it does not permit at this sink. *)
Definition breaks_no_rule {Regex E} (L : MaskLibs Regex) (p : PolicySink (Regex := Regex) (E := E)) (r : Value) : Prop :=
  forall above q w l rule, scalar_in EmptyString (payload_of p r) above q w -> q <> EmptyString -> earns L (ps_policy p) above w l ->
    rule ∈ cp_rules (ps_policy p) -> about_sink (ps_facts p) rule l -> permits (ps_facts p) rule (first_action L (maskings_of p) q).

Lemma rule_applies_spec sink rule l : rule_applies rule l sink = true <-> about_sink sink rule l.
Proof.
  unfold rule_applies, about_sink, mem. destruct (string_eqb (rw_label (pr_when rule)) l) eqn:El; cbn [negb].
  2: { unfold string_eqb in El. apply bool_decide_eq_false in El. naive_solver. }
  unfold string_eqb in El. apply bool_decide_eq_true in El.
  assert (negb (is_nil (rw_sink_kind (pr_when rule))) && negb (bool_decide (sf_kind sink ∈ rw_sink_kind (pr_when rule))) = false <->
    rw_sink_kind (pr_when rule) = [] \/ sf_kind sink ∈ rw_sink_kind (pr_when rule)) as Hk.
  { rewrite andb_false_iff, !negb_false_iff, bool_decide_eq_true. destruct (rw_sink_kind (pr_when rule)); cbn; [tauto|]. naive_solver. }
  destruct (negb (is_nil _) && _); [split; [done|]; intros (_ & H & _); by apply Hk in H|]. rewrite forallb_forall. split.
  - intros H. split_and!; [done|by apply Hk|]. intros attr vals Hin%list_elem_of_In. specialize (H _ Hin). cbn in H.
    destruct (sf_attributes sink !! attr) as [v|]; [|done]. exists v. by apply bool_decide_eq_true in H.
  - intros (_ & _ & H) [attr vals] Hin%list_elem_of_In. destruct (H attr vals Hin) as (v & Ev & Hv). cbn. rewrite Ev. by apply bool_decide_eq_true_2.
Qed.
Lemma columns_of_spec {Regex} (L : MaskLibs Regex) maskings (out : Columns) col :
  col ∈ columns_of L maskings out <-> exists q ls via, out !! q = Some (ls, via) /\ col = MkColumnFacts q ls (first_action L maskings q) false (Some via).
Proof.
  unfold columns_of. rewrite list_elem_of_fmap. setoid_rewrite elem_of_sort_by. split.
  - intros ([q [ls via]] & -> & Hin%elem_of_map_to_list). by exists q, ls, via.
  - intros (q & ls & via & Ho & ->). exists (q, (ls, via)). split; [done|]. by apply elem_of_map_to_list.
Qed.
(** The row the sink finds clean is the row that breaks no rule. *)
Lemma clean_iff {Regex E} (L : MaskLibs Regex) (p : PolicySink (Regex := Regex) (E := E)) r : clean L p r = true <-> breaks_no_rule L p r.
Proof.
  unfold clean, violations_of, check_record, classify_cached.
  pose proof (fun q l => covers_iff L (ps_policy p) (payload_of p r) EmptyString ∅ (∅, ∅) q l (names_ok_empty L _)) as Hcov.
  destruct (walk L _ _ (payload_of p r) ∅ (∅, ∅)) as [out names]. cbn [fst] in Hcov.
  assert (forall q l, covers out q l <-> exists above w, scalar_in EmptyString (payload_of p r) above q w /\ q <> EmptyString /\ earns L (ps_policy p) above w l) as Hlab.
  { intros q l. rewrite Hcov. unfold covers, reached. split.
    - intros [(ls & via & H & _)|(above & w & ? & ? & [H|H])]; [by rewrite lookup_empty in H|by apply elem_of_empty in H|eauto].
    - intros (above & w & ? & ? & ?). right. exists above, w. split_and!; [done..|by right]. }
  trans (evaluate (ps_policy p) (ps_facts p) (columns_of L (maskings_of p) out) = []).
  { destruct (columns_of L (maskings_of p) out) as [|c cs] eqn:Hc; cbn [is_nil fst snd].
    - split; [|done]. intros _. apply evaluate_nil. intros rule col _ H. by apply elem_of_nil in H.
    - destruct (evaluate _ _ _); done. }
  rewrite evaluate_nil. unfold breaks_no_rule, satisfied, permits. split.
  - intros H above q w l rule Hw Hq He Hr Ha. destruct (proj2 (Hlab q l)) as (ls & via & Ho & Hl); [eauto|].
    apply (H rule (MkColumnFacts q ls (first_action L (maskings_of p) q) false (Some via)) Hr); [apply columns_of_spec; eauto|].
    exists l. split; [done|]. by apply rule_applies_spec.
  - intros H rule col Hr (q & ls & via & Ho & ->)%columns_of_spec (l & Hl & Ha). cbn in Hl |- *.
    destruct (proj1 (Hlab q l)) as (above & w & Hw & Hq & He); [by exists ls, via|]. eapply H; [done..|]. by apply rule_applies_spec.
Qed.

(** ** What the policy layer guarantees *)

(** C20: Whatever page is written through the policy sink, the wrapped sink sees
    only rows that break no rule. A whole-page write is the wrapped sink's own
    when every row is clean and otherwise fails with the sink untouched; a
    partial write hands the wrapped sink exactly the clean rows, in order, or
    nothing. And a row is clean exactly when no scalar in it (of its payload, for
    an envelope) earns a label, by its value or by the name of a node it stands
    below, that some rule about this sink does not permit: with a mask the rule
    lists, or, unless the rule denies, with every attribute it requires. *)
Theorem only_clean_rows_reach_the_sink {Regex E} (L : MaskLibs Regex) (p : PolicySink (Regex := Regex) (E := E)) records scope token e :
  let inner := ps_inner p in
  let all_clean := forallb (clean L p) records in
  let kept := List.filter (clean L p) records in
  (forall r, clean L p r = true <-> breaks_no_rule L p r) /\
  (exists err, write_governed (policy_ops L p) records e = if all_clean then write_governed inner records e else ((Err err, 0), e)) /\
  (exists err, write_batch_reported (policy_ops L p) records e = if all_clean then write_batch_reported inner records e else ((Err err, 0), e)) /\
  (exists err, write_batch_idempotent_reported (policy_ops L p) records scope token e =
     if all_clean then write_batch_idempotent_reported inner records scope token e else ((Err err, 0), e)) /\
  (write_batch_partial (policy_ops L p) records e).2 =
    match screen L p records with
    | Err _ => e
    | Ok _ => if is_nil kept && negb all_clean then e else (write_batch_partial inner kept e).2
    end.
Proof. cbv zeta. split_and!; [apply clean_iff|apply screened_page_spec..|apply idempotent_spec|apply partial_env]. Qed.

(** A partial write that answers does so row by row: a row that breaks a rule
    with its refusal, the clean rows with the wrapped sink's outcomes in order. *)
Theorem partial_write_answers_each_row {Regex E} (L : MaskLibs Regex) (p : PolicySink (Regex := Regex) (E := E)) records e outcomes d e' :
  forallb (clean L p) records = false -> policy_write_batch_partial L p records e = ((Ok outcomes, d), e') ->
  length outcomes = length records /\
  (forall i r v, records !! i = Some r -> head (violations_of L p r) = Some v -> outcomes !! i = Some (Err (refuse v EmptyString))) /\
  exists inner d', (List.filter (clean L p) records = [] /\ inner = [] \/
      write_batch_partial (ps_inner p) (List.filter (clean L p) records) e = ((Ok inner, d'), e')) /\
    keep_at (fun i => is_none ((list_to_map (marked L p 0 records) : gmap nat Violation) !! i)) 0 outcomes = inner.
Proof.
  intros Hc Hw. destruct (screen L p records) as [off|err] eqn:Hs; [|unfold policy_write_batch_partial in Hw; by rewrite Hs in Hw].
  rewrite (partial_quarantine _ _ _ _ _ Hs Hc) in Hw. cbv zeta in Hw. set (q := list_to_map (marked L p 0 records) : gmap nat Violation) in *.
  assert (keep_at (fun i => is_none (q !! i)) 0 records = List.filter (clean L p) records) as Hk
    by (apply (keep_clean L p q 0 records); intros j; apply (marked_lookup L p 0 j records)).
  destruct (if is_nil _ then _ else _) as [[[inner|err] d'] e''] eqn:Hi; [|done].
  destruct (length inner =? length (List.filter (clean L p) records))%nat eqn:Hlen; [|done]. cbn [negb] in Hw. injection Hw as <- <- <-.
  apply Nat.eqb_eq in Hlen. destruct (merge_outcomes_spec q records 0 inner) as (H1 & H2 & H3); [by rewrite Hk|].
  split_and!; [done| |].
  - intros i r v Hr Hv. apply H3; [by eapply lookup_lt_Some|]. pose proof (marked_lookup L p 0 i records) as Hq. rewrite Hr in Hq. exact (eq_trans Hq Hv).
  - exists inner, d'. split; [|done]. destruct (List.filter (clean L p) records); cbn [is_nil] in Hi; [left; split; [done|congruence]|by right].
Qed.

Lemma clean_satisfied {Regex E} (L : MaskLibs Regex) (p : PolicySink (Regex := Regex) (E := E)) r rule col :
  clean L p r = true -> rule ∈ cp_rules (ps_policy p) ->
  col ∈ (classify_cached L (ps_policy p) (payload_of p r) (maskings_of p) ∅).1 -> satisfied (ps_facts p) rule col.
Proof.
  unfold clean, violations_of, check_record. destruct (classify_cached _ _ _ _ _) as [columns names]. cbn [fst].
  destruct columns as [|c cs] eqn:Hcs; [by intros _ _ ?%elem_of_nil|]. rewrite <- Hcs. cbn. intros Hc Hr Hin.
  eapply evaluate_nil; [|done..]. subst columns. cbn in Hc. by destruct (evaluate _ _ _).
Qed.

(** C21: A rule that lets a label land only masked holds end to end, for a rule
    that lists masks and neither denies nor requires attributes, labels earned by
    name, and columns whose keys are plain (not empty, no dot in a key). A row
    masked by the policy's masking pass and admitted by the policy sink carries
    no such scalar in the clear: wherever a scalar still stands at a column whose
    name, or a prefix of it, earns the label, a masking rule with one of the
    actions the policy lists has rewritten it. Keys that hold a dot defeat this,
    see [dotted_key_passes_the_policy]. *)
Theorem labelled_values_land_masked {Regex E} (L : MaskLibs Regex) spec ids m (p : PolicySink (Regex := Regex) (E := E))
    rule rec out out_map ns segs leaf w l a b :
  compile_scoped L spec ids = Ok m -> ps_masking p = Some m -> ps_later_masking p = None -> ps_envelopes p = false ->
  out = (mask_node L m EmptyString rec).1 -> out = VObject out_map -> clean L p out = true ->
  rule ∈ cp_rules (ps_policy p) -> pr_deny rule = false -> pr_require rule = [] -> rule_applies rule l (ps_facts p) = true ->
  locate rec ns = Some (segs, leaf) -> is_scalar leaf = true -> locate out ns = Some (segs, w) -> is_scalar w = true -> Forall plain_key segs ->
  segs = a ++ b -> a <> [] -> l ∈ labels_for_name L (ps_policy p) (join "." a) ->
  exists r, r ∈ cm_rules m /\ action_label_of (cr_action r) ∈ pr_mask rule /\ masked_by L m r ns segs leaf out.
Proof.
  intros Hm Hpm Hpl Hpe Ho Hom Hcl Hr Hd Hq Ha Hl Hs Hw Hsw Hk Hab Hna Hlab.
  rewrite Hom in Hw.
  destruct (labels_found L (ps_policy p) out_map (maskings_of p) ∅ ns segs w l a b (names_ok_empty L _) Hw Hsw Hk) as (col & Hin & Hname & Hmask & Hcol); [by right|].
  destruct (clean_satisfied L p out rule col) as [(act & Eact & Hact)|(_ & Hne & _)]; try done.
  { unfold payload_of. by rewrite Hpe, Hom. } { by exists l. }
  rewrite Hmask in Eact. unfold maskings_of in Eact. rewrite Hpm, Hpl in Eact. change (option_list None ++ option_list (Some m)) with [m] in Eact. cbn [first_action] in Eact.
  assert (name_action_for L m (join "." segs) = Some act) as Hn by (destruct (name_action_for L m (join "." segs)); congruence).
  destruct (attested_masked L m rec ns segs leaf act (compile_scoped_ok L _ _ _ Hm) Hl Hs Hk Hn) as (r & Hin' & Hact' & Hmb).
  exists r. rewrite Ho, Hact'. done.
Qed.

(** Evaluation reports nothing exactly when every rule is satisfied by every column. *)
Theorem evaluate_exact {Regex} (policy : CompiledPolicy (Regex := Regex)) sink columns :
  evaluate policy sink columns = [] <->
  forall rule col, rule ∈ cp_rules policy -> col ∈ columns -> satisfied sink rule col.
Proof. apply evaluate_nil. Qed.

(** ** A concrete policy *)

Definition idle_backend {A} (a : A) : backend (E := list (list Value)) A := fun e => ((Ok a, 0), e).
Definition log_sink : SinkOps (list (list Value)) :=
  let w rows e := ((Ok (report_accepted (zlen rows)), 1), e ++ [rows]) in
  MkSinkOps "log" false false false false PerRow w w (fun rows e => ((Ok (replicate (length rows) (Ok tt)), 1), e ++ [rows]))
    (fun _ => idle_backend tt) (fun rows _ _ => w rows) (fun _ => idle_backend None) (idle_backend tt) (idle_backend None)
    (fun _ => idle_backend tt) (idle_backend tt) (idle_backend tt) (idle_backend tt) (idle_backend tt).
Definition pii_spec : PolicySpec :=
  MkPolicySpec 1 None
    [MkClassification "pii" None ["user"; "user.ssn"] None None; MkClassification "mail" None [] None (Some Email)]
    [MkPolicyRule "pii-masked" None (MkRuleWhen "pii" [] []) [] ["hash"; "redact"] false ActFail;
     MkPolicyRule "no-mail" None (MkRuleWhen "mail" [] []) [("residency", ["eu"])] [] false ActQuarantine].
Definition pii_policy : CompiledPolicy (Regex := string) :=
  match policy_compile sample_libs id pii_spec with Ok p => p | Err _ => MkCompiledPolicy [] [] end.
Definition pii_sink : PolicySink (Regex := string) (E := list (list Value)) :=
  with_masking (PolicySink_new log_sink pii_policy (MkSinkFacts "default" "log" ∅)) sample_masking.

Lemma labelled_values_land_masked_witness :
  exists r, r ∈ cm_rules sample_masking /\ action_label_of (cr_action r) ∈ ["hash"; "redact"] /\
    masked_by sample_libs sample_masking r [0; 0]%nat ["user"; "ssn"] (VString "123-45-6789")
      (mask_node sample_libs sample_masking EmptyString sample_record).1.
Proof.
  eapply (labelled_values_land_masked sample_libs sample_policy None sample_masking pii_sink
            (MkPolicyRule "pii-masked" None (MkRuleWhen "pii" [] []) [] ["hash"; "redact"] false ActFail)
            sample_record _ _ [0; 0]%nat ["user"; "ssn"] (VString "123-45-6789") (VString "010b") "pii" ["user"] ["ssn"]);
    try (vm_compute; reflexivity); try done.
  - apply list_elem_of_In. vm_compute. by left.
  - by repeat constructor.
Defined.

(** The masked row is written; the row with an address is answered with its
    refusal; a page with a raw label is refused whole. *)
Example policy_sink_runs :
  let masked := (mask_node sample_libs sample_masking EmptyString sample_record).1 in
  let mail := VObject [("to", VString "a@b.co")] in
  let '((answer, _), e) := write_batch_partial (policy_ops sample_libs pii_sink) [masked; mail] [] in
  e = [[masked]] /\
  match answer with Ok [Ok tt; Err (PolicyViolation "no-mail" "to" _)] => True | _ => False end /\
  (write_batch_partial (policy_ops sample_libs (PolicySink_new log_sink pii_policy (MkSinkFacts "default" "log" ∅)))
     [masked; sample_record] []).2 = [].
Proof. vm_compute. done. Qed.

(** A column whose key holds a dot passes the policy in the clear: the masking
    pass does not reach it and the policy layer is told it is hashed. *)
Example dotted_key_passes_the_policy :
  let rec := VObject [("user.ssn", VString "123-45-6789")] in
  labels_for_name sample_libs pii_policy "user.ssn" = {["pii"]} /\
  write_governed (policy_ops sample_libs pii_sink) (mo_records (apply_masking sample_libs [rec] sample_masking)) []
  = ((Ok (report_accepted 1), 1), [[rec]]).
Proof. vm_compute. done. Qed.
