(* ===== verification/Layers.v ===== *)
(** The layers around a destination: crates/core/src/governance.rs (the passes of a
    run, the builder that stacks the layers, the governed dead-letter sink),
    metadata.rs (the columns stamped on every row) and profiling/sink.rs.

    A layer's own state is kept beside the destination's environment: the budget's
    counters, the next row number, whether the metadata columns were seen to exist,
    the rows shown to the profiler. The masking, quality, contract and resilience
    settings a run only stores are types of their own; the clock's text is a function
    of the environment. *)
From S2P Require Import Prelude Errors Float64 Json Accounting Text Contract Transform Drift Dlq Budget Engine Masking Policy.

Local Open Scope Z_scope.
Local Open Scope result_scope.

(** ** metadata.rs *)

Inductive MetadataColumn := ExtractedAt | LoadedAt | MetaRunId | MetaSource | Sequence.
#[export] Instance MetadataColumn_eq_dec : EqDecision MetadataColumn.
Proof. solve_decision. Defined.
Definition column_suffix (c : MetadataColumn) : string :=
  match c with ExtractedAt => "extracted_at" | LoadedAt => "loaded_at" | MetaRunId => "run_id" | MetaSource => "source" | Sequence => "sequence" end.
Record MetadataColumnsSpec := MkMetadataColumnsSpec { mc_enabled : bool; mc_prefix : string; mc_columns : list MetadataColumn }.
Definition MetadataColumnsSpec_default : MetadataColumnsSpec := MkMetadataColumnsSpec true "_faucet" [].
Definition DEFAULT_COLUMNS : list MetadataColumn := [ExtractedAt; LoadedAt; MetaRunId; MetaSource].
Record CompiledMetadata := MkCompiledMetadata { cmd_prefix : string; cmd_columns : list MetadataColumn }.
Definition metadata_compile (spec : MetadataColumnsSpec) : result (option CompiledMetadata) FaucetError :=
  if negb (mc_enabled spec) then Ok None
  else if is_empty_str (trim (mc_prefix spec)) then Err (Config "metadata_columns: `prefix` must not be empty")
  else Ok (Some (MkCompiledMetadata (mc_prefix spec) (if is_nil (mc_columns spec) then DEFAULT_COLUMNS else mc_columns spec))).
Definition column_name (m : CompiledMetadata) (c : MetadataColumn) : string := cmd_prefix m +:+ "_" +:+ column_suffix c.
Record MetadataContext := MkMetadataContext { mx_run_id : string; mx_source : string }.

(** [inject], [stamp_with]: the rows with their columns, and the row number after them. *)
Definition column_value (ctx : MetadataContext) (now : string) (seq : Z) (c : MetadataColumn) : Value :=
  match c with
  | ExtractedAt | LoadedAt => VString now
  | MetaRunId => VString (mx_run_id ctx)
  | MetaSource => VString (mx_source ctx)
  | Sequence => of_u64 seq
  end.
Definition inject (m : CompiledMetadata) (ctx : MetadataContext) (now : string) (seq : Z) (map : list (string * Value)) : list (string * Value) :=
  foldl (fun map c => assoc_insert (column_name m c) (column_value ctx now seq c) map) map (cmd_columns m).
Fixpoint stamp_with (m : CompiledMetadata) (ctx : MetadataContext) (now : string) (seq : Z) (records : list Value) : list Value * Z :=
  match records with
  | [] => ([], seq)
  | VObject map :: records =>
      let '(out, next) := stamp_with m ctx now (wadd64 seq 1) records in
      (VObject (inject m ctx now seq map) :: out, next)
  | other :: records => let '(out, next) := stamp_with m ctx now seq records in (other :: out, next)
  end.

(** The columns [ensure_columns] finds missing in the destination's schema. *)
Definition missing_columns (m : CompiledMetadata) (schema : Value) : list ColumnChange :=
  let props := get schema "properties" ≫= as_object in
  let missing name := match props with Some p => negb (existsb (fun k => string_eqb (string_lower k) (string_lower name)) p.*1) | None => true end in
  (fun c => MkColumnChange (column_name m c) None
     (VObject [("type", VArray [VString (if bool_decide (c = Sequence) then "integer" else "string"); VString "null"])]))
  <$> List.filter (fun c => missing (column_name m c)) (cmd_columns m).
Definition cannot_add (names : list string) (connector : string) : FaucetError :=
  Config ("metadata_columns: the destination has no column " +:+ join ", " names +:+ " and sink '" +:+ connector
          +:+ "' cannot add columns; add them to the table or disable metadata_columns").

(** ** Layers over a destination *)

Record LayerState := MkLayerState { ly_budget : BudgetState; ly_dlq_prepaid : Z; ly_seq : Z; ly_ready : bool; ly_profiled : list Value }.
Definition set_ly_budget (b : BudgetState) (s : LayerState) : LayerState := MkLayerState b (ly_dlq_prepaid s) (ly_seq s) (ly_ready s) (ly_profiled s).
Definition set_ly_seq (n : Z) (s : LayerState) : LayerState := MkLayerState (ly_budget s) (ly_dlq_prepaid s) n (ly_ready s) (ly_profiled s).
Definition set_ly_ready (s : LayerState) : LayerState := MkLayerState (ly_budget s) (ly_dlq_prepaid s) (ly_seq s) true (ly_profiled s).
Definition observe_rows (records : list Value) (s : LayerState) : LayerState :=
  MkLayerState (ly_budget s) (ly_dlq_prepaid s) (ly_seq s) (ly_ready s) (ly_profiled s ++ records).

Section Layers.
Context {E : Type}.
Notation LE := (E * LayerState)%type.
Implicit Types (sink : SinkOps LE) (records : list Value).

(** One call after the other; the second only when the first answered. *)
Definition and_then {A B} (m : backend (E := LE) A) (k : A -> backend (E := LE) B) : backend (E := LE) B :=
  fun e => match m e with
           | ((Ok a, d), e) => let '((r, d'), e) := k a e in ((r, d + d'), e)
           | ((Err x, d), e) => ((Err x, d), e)
           end.
(** A step of the layer itself. *)
Definition here {A} (f : LayerState -> result A FaucetError * LayerState) : backend (E := LE) A :=
  fun e => let '(r, s) := f e.2 in ((r, 0), (e.1, s)).
Definition lift {A} (op : backend (E := E) A) : backend (E := LE) A :=
  fun e => let '(r, e') := op e.1 in (r, (e', e.2)).
Definition lift_ops (d : SinkOps E) : SinkOps LE :=
  MkSinkOps (connector_name d) (supports_idempotent_writes d) (dedups_by_key d) (write_batch_is_replay_safe d) (is_overwrite d)
    (batch_atomicity d) (fun r => lift (write_batch_reported d r)) (fun r => lift (write_governed d r)) (fun r => lift (write_batch_partial d r))
    (fun r => lift (admit_page d r)) (fun r a b => lift (write_batch_idempotent_reported d r a b)) (fun a => lift (last_committed_token d a))
    (lift (flush d)) (lift (current_schema d)) (fun ev => lift (evolve_schema d ev)) (lift (begin_overwrite d)) (lift (commit_overwrite d))
    (lift (abort_overwrite d)) (lift (complete_run d)).
(** The writes of a sink replaced, the other methods forwarded. *)
Definition with_writes sink (reported governed : list Value -> backend (E := LE) WriteReport) (partial : list Value -> backend (E := LE) (list RowOutcome))
    (admission : list Value -> backend (E := LE) unit) (idempotent : list Value -> string -> string -> backend (E := LE) WriteReport)
    (begin : backend (E := LE) unit) : SinkOps LE :=
  MkSinkOps (connector_name sink) (supports_idempotent_writes sink) (dedups_by_key sink) (write_batch_is_replay_safe sink) (is_overwrite sink)
    (batch_atomicity sink) reported governed partial admission idempotent (last_committed_token sink) (flush sink) (current_schema sink)
    (evolve_schema sink) begin (commit_overwrite sink) (abort_overwrite sink) (complete_run sink).

(** [BudgetSink]: admission, the inner call, the account of what it accepted. The main
    sink's and the dead-letter sink's have prepaid rows of their own and share the rest. *)
Definition budget_step {A} (dlq : bool) (f : BudgetState -> BudgetState * result A FaucetError) : backend (E := LE) A :=
  here (fun s =>
    if dlq then
      let main := bs_prepaid (ly_budget s) in
      let '(b, r) := f (set_prepaid (ly_dlq_prepaid s) (ly_budget s)) in
      (r, MkLayerState (set_prepaid main b) (bs_prepaid b) (ly_seq s) (ly_ready s) (ly_profiled s))
    else let '(b, r) := f (ly_budget s) in (r, set_ly_budget b s)).
Definition budgeted {A} (dlq : bool) (spec : BudgetSpec) records (inner : backend (E := LE) A) (spend : A -> Z -> BudgetState -> BudgetState) : backend (E := LE) A :=
  and_then (budget_step dlq (admit_rows spec records)) (fun bytes =>
  and_then inner (fun a =>
  budget_step dlq (fun b => (spend a bytes b, Ok a)))).
Definition spend_report (r : WriteReport) (bytes : Z) : BudgetState -> BudgetState := account (wr_accepted r) bytes.
Definition spend_outcomes (spec : BudgetSpec) records (outcomes : list RowOutcome) (_ : Z) : BudgetState -> BudgetState :=
  account (zlen (List.filter is_ok outcomes)) (page_bytes spec (accepted_rows records (is_ok <$> outcomes))).
Definition budget_admit (dlq : bool) (spec : BudgetSpec) sink records : backend (E := LE) unit :=
  and_then (budget_step dlq (fun b => match bs_verdict b with
                                  | Some v => (b, Err (verdict_error v))
                                  | None => match check_ceilings spec (zlen records) (page_bytes spec records) b with
                                            | (b, Some e) => (b, Err e)
                                            | (b, None) => (b, Ok tt)
                                            end
                                  end)) (fun _ =>
  and_then (admit_page sink records) (fun _ =>
  budget_step dlq (fun b => (set_prepaid (zlen records) b, Ok tt)))).
Definition budget_ops (dlq : bool) (spec : BudgetSpec) sink : SinkOps LE :=
  with_writes sink
    (fun r => budgeted dlq spec r (write_batch_reported sink r) spend_report)
    (fun r => budgeted dlq spec r (write_governed sink r) spend_report)
    (fun r => budgeted dlq spec r (write_batch_partial sink r) (spend_outcomes spec r))
    (budget_admit dlq spec sink)
    (fun r a b => budgeted dlq spec r (write_batch_idempotent_reported sink r a b) spend_report)
    (begin_overwrite sink).

(** [MetadataSink]; whether the destination can add columns is [evolves]. *)
Context (now_text : E -> string) (evolves : bool).
Definition ensure_columns (m : CompiledMetadata) sink : backend (E := LE) unit :=
  fun e => if ly_ready e.2 then ((Ok tt, 0), e)
           else and_then (and_then (current_schema sink) (fun schema =>
                  match schema with
                  | None => here (fun s => (Ok tt, s))
                  | Some schema =>
                      let additions := missing_columns m schema in
                      if is_nil additions then here (fun s => (Ok tt, s))
                      else if negb evolves then here (fun s => (Err (cannot_add (cc_name <$> additions) (connector_name sink)), s))
                      else evolve_schema sink (MkSchemaEvolution additions [] [])
                  end)) (fun _ => here (fun s => (Ok tt, set_ly_ready s))) e.
Definition stamp (m : CompiledMetadata) (ctx : MetadataContext) records : backend (E := LE) (list Value) :=
  fun e => let '(out, next) := stamp_with m ctx (now_text e.1) (ly_seq e.2) records in ((Ok out, 0), (e.1, set_ly_seq next e.2)).
Definition preview (m : CompiledMetadata) (ctx : MetadataContext) records : backend (E := LE) (list Value) :=
  fun e => ((Ok (stamp_with m ctx (now_text e.1) (ly_seq e.2) records).1, 0), e).
Definition stamped {A} (m : CompiledMetadata) (ctx : MetadataContext) sink records (inner : list Value -> backend (E := LE) A) : backend (E := LE) A :=
  and_then (ensure_columns m sink) (fun _ => and_then (stamp m ctx records) inner).
Definition metadata_ops (m : CompiledMetadata) (ctx : MetadataContext) sink : SinkOps LE :=
  with_writes sink
    (fun r => stamped m ctx sink r (write_batch_reported sink))
    (fun r => stamped m ctx sink r (write_governed sink))
    (fun r => stamped m ctx sink r (write_batch_partial sink))
    (fun r => and_then (preview m ctx r) (admit_page sink))
    (fun r a b => stamped m ctx sink r (fun rows => write_batch_idempotent_reported sink rows a b))
    (and_then (ensure_columns m sink) (fun _ => begin_overwrite sink)).

(** [ProfilingSink]. *)
Definition profiled {A} (inner : backend (E := LE) A) (seen : A -> list Value) : backend (E := LE) A :=
  and_then inner (fun a => here (fun s => (Ok a, observe_rows (seen a) s))).
Definition accepted_of records (outcomes : list RowOutcome) : list Value :=
  if forallb is_ok outcomes then records else accepted_rows records (is_ok <$> outcomes).
Definition profiling_ops sink : SinkOps LE :=
  with_writes sink
    (fun r => profiled (write_batch_reported sink r) (fun _ => r))
    (fun r => profiled (write_governed sink r) (fun _ => r))
    (fun r => profiled (write_batch_partial sink r) (accepted_of r))
    (admit_page sink)
    (fun r a b => profiled (write_batch_idempotent_reported sink r a b) (fun _ => r))
    (begin_overwrite sink).

(** ** governance.rs *)

Context {Regex : Type} (L : MaskLibs Regex).
Notation masking_t := (CompiledMasking (Regex := Regex)).
Notation policy_t := (CompiledPolicy (Regex := Regex)).

(** [DlqMaskingSink]. *)
Definition take_payload (envelope : Value) : Value := default Null (get envelope "payload").
Definition put_payload (envelope payload : Value) : Value :=
  match envelope with
  | VObject m => if is_some (assoc "payload" m) then VObject (assoc_insert "payload" payload m) else envelope
  | _ => envelope
  end.
Definition mask_envelopes (m : masking_t) records : list Value :=
  zip_with put_payload records (mo_records (apply_masking L (take_payload <$> records) m)).
Definition dlq_masking_ops (m : masking_t) sink : SinkOps LE :=
  with_writes sink
    (fun r => write_batch_reported sink (mask_envelopes m r))
    (write_governed sink)
    (fun r => write_batch_partial sink (mask_envelopes m r))
    (admit_page sink)
    (write_batch_idempotent_reported sink)
    (begin_overwrite sink).

Inductive Pass := PMasking | PQuality | PContract | PSchemaDrift | PPolicy | PBudget | PProfiling | PMetadata | PMetering | PResilience | PCancel | PDlq.
Definition all_passes : list Pass := [PMasking; PQuality; PContract; PSchemaDrift; PPolicy; PBudget; PProfiling; PMetadata; PMetering; PResilience; PCancel; PDlq].
Definition pass_str (p : Pass) : string :=
  match p with
  | PMasking => "masking" | PQuality => "quality" | PContract => "contract" | PSchemaDrift => "schema_drift" | PPolicy => "policy" | PBudget => "budget"
  | PProfiling => "profiling" | PMetadata => "metadata" | PMetering => "metering" | PResilience => "resilience" | PCancel => "cancel" | PDlq => "dlq"
  end.
Inductive SinkLayer := LPolicy | LProfiling | LOuterTap | LMetadata | LInnerTap | LBudget.
Definition SINK_LAYERS : list SinkLayer := [LPolicy; LProfiling; LOuterTap; LMetadata; LInnerTap; LBudget].
#[export] Instance Pass_eq_dec : EqDecision Pass.
Proof. solve_decision. Defined.
Record OptOut := MkOptOut { oo_pass : Pass; oo_reason : string }.
Record PolicyGovernance := MkPolicyGovernance { pg_policy : policy_t; pg_facts : SinkFacts; pg_masking : option masking_t }.
Record DlqGovernance := MkDlqGovernance { dg_sink : SinkOps LE; dg_facts : option SinkFacts; dg_masking : option masking_t }.
Definition dlq_new (sink : SinkOps LE) : DlqGovernance := MkDlqGovernance sink None None.
Definition dlq_with_facts (d : DlqGovernance) (facts : SinkFacts) : DlqGovernance := MkDlqGovernance (dg_sink d) (Some facts) (dg_masking d).
Definition dlq_with_masking (d : DlqGovernance) (m : masking_t) : DlqGovernance :=
  MkDlqGovernance (dg_sink d) (dg_facts d) (if masking_is_empty m then dg_masking d else Some m).

(** The shared budget counters live in the layer state; [gv_budget_state] says they were made. *)
Context {Quality Contract Resilience : Type}.
Record Governance := MkGovernance {
  gv_masking : option masking_t;
  gv_quality : option Quality;
  gv_contract : option Contract;
  gv_schema_drift : option SchemaDriftPolicy;
  gv_policy : option PolicyGovernance;
  gv_budget : option BudgetSpec;
  gv_budget_state : bool;
  gv_profiler : bool;
  gv_metadata : option (CompiledMetadata * MetadataContext);
  gv_usage_meter : bool;
  gv_resilience : option Resilience;
  gv_cancel : bool;
  gv_dlq : option DlqGovernance;
  gv_opt_outs : list OptOut;
  gv_sink_built : bool;
}.
(** The setters of [with_quality], [with_contract] and the like. *)
Definition set_gv_masking (v : option masking_t) (g : Governance) : Governance :=
  MkGovernance v (gv_quality g) (gv_contract g) (gv_schema_drift g) (gv_policy g) (gv_budget g) (gv_budget_state g) (gv_profiler g) (gv_metadata g) (gv_usage_meter g) (gv_resilience g) (gv_cancel g) (gv_dlq g) (gv_opt_outs g) (gv_sink_built g).
Definition set_gv_quality (v : option Quality) (g : Governance) : Governance :=
  MkGovernance (gv_masking g) v (gv_contract g) (gv_schema_drift g) (gv_policy g) (gv_budget g) (gv_budget_state g) (gv_profiler g) (gv_metadata g) (gv_usage_meter g) (gv_resilience g) (gv_cancel g) (gv_dlq g) (gv_opt_outs g) (gv_sink_built g).
Definition set_gv_contract (v : option Contract) (g : Governance) : Governance :=
  MkGovernance (gv_masking g) (gv_quality g) v (gv_schema_drift g) (gv_policy g) (gv_budget g) (gv_budget_state g) (gv_profiler g) (gv_metadata g) (gv_usage_meter g) (gv_resilience g) (gv_cancel g) (gv_dlq g) (gv_opt_outs g) (gv_sink_built g).
Definition set_gv_schema_drift (v : option SchemaDriftPolicy) (g : Governance) : Governance :=
  MkGovernance (gv_masking g) (gv_quality g) (gv_contract g) v (gv_policy g) (gv_budget g) (gv_budget_state g) (gv_profiler g) (gv_metadata g) (gv_usage_meter g) (gv_resilience g) (gv_cancel g) (gv_dlq g) (gv_opt_outs g) (gv_sink_built g).
Definition set_gv_policy (v : option PolicyGovernance) (g : Governance) : Governance :=
  MkGovernance (gv_masking g) (gv_quality g) (gv_contract g) (gv_schema_drift g) v (gv_budget g) (gv_budget_state g) (gv_profiler g) (gv_metadata g) (gv_usage_meter g) (gv_resilience g) (gv_cancel g) (gv_dlq g) (gv_opt_outs g) (gv_sink_built g).
Definition set_gv_budget (v : option BudgetSpec) (g : Governance) : Governance :=
  MkGovernance (gv_masking g) (gv_quality g) (gv_contract g) (gv_schema_drift g) (gv_policy g) v (gv_budget_state g) (gv_profiler g) (gv_metadata g) (gv_usage_meter g) (gv_resilience g) (gv_cancel g) (gv_dlq g) (gv_opt_outs g) (gv_sink_built g).
Definition set_gv_budget_state (v : bool) (g : Governance) : Governance :=
  MkGovernance (gv_masking g) (gv_quality g) (gv_contract g) (gv_schema_drift g) (gv_policy g) (gv_budget g) v (gv_profiler g) (gv_metadata g) (gv_usage_meter g) (gv_resilience g) (gv_cancel g) (gv_dlq g) (gv_opt_outs g) (gv_sink_built g).
Definition set_gv_profiler (v : bool) (g : Governance) : Governance :=
  MkGovernance (gv_masking g) (gv_quality g) (gv_contract g) (gv_schema_drift g) (gv_policy g) (gv_budget g) (gv_budget_state g) v (gv_metadata g) (gv_usage_meter g) (gv_resilience g) (gv_cancel g) (gv_dlq g) (gv_opt_outs g) (gv_sink_built g).
Definition set_gv_metadata (v : option (CompiledMetadata * MetadataContext)) (g : Governance) : Governance :=
  MkGovernance (gv_masking g) (gv_quality g) (gv_contract g) (gv_schema_drift g) (gv_policy g) (gv_budget g) (gv_budget_state g) (gv_profiler g) v (gv_usage_meter g) (gv_resilience g) (gv_cancel g) (gv_dlq g) (gv_opt_outs g) (gv_sink_built g).
Definition set_gv_usage_meter (v : bool) (g : Governance) : Governance :=
  MkGovernance (gv_masking g) (gv_quality g) (gv_contract g) (gv_schema_drift g) (gv_policy g) (gv_budget g) (gv_budget_state g) (gv_profiler g) (gv_metadata g) v (gv_resilience g) (gv_cancel g) (gv_dlq g) (gv_opt_outs g) (gv_sink_built g).
Definition set_gv_resilience (v : option Resilience) (g : Governance) : Governance :=
  MkGovernance (gv_masking g) (gv_quality g) (gv_contract g) (gv_schema_drift g) (gv_policy g) (gv_budget g) (gv_budget_state g) (gv_profiler g) (gv_metadata g) (gv_usage_meter g) v (gv_cancel g) (gv_dlq g) (gv_opt_outs g) (gv_sink_built g).
Definition set_gv_cancel (v : bool) (g : Governance) : Governance :=
  MkGovernance (gv_masking g) (gv_quality g) (gv_contract g) (gv_schema_drift g) (gv_policy g) (gv_budget g) (gv_budget_state g) (gv_profiler g) (gv_metadata g) (gv_usage_meter g) (gv_resilience g) v (gv_dlq g) (gv_opt_outs g) (gv_sink_built g).
Definition set_gv_dlq (v : option DlqGovernance) (g : Governance) : Governance :=
  MkGovernance (gv_masking g) (gv_quality g) (gv_contract g) (gv_schema_drift g) (gv_policy g) (gv_budget g) (gv_budget_state g) (gv_profiler g) (gv_metadata g) (gv_usage_meter g) (gv_resilience g) (gv_cancel g) v (gv_opt_outs g) (gv_sink_built g).
Definition set_gv_opt_outs (v : list OptOut) (g : Governance) : Governance :=
  MkGovernance (gv_masking g) (gv_quality g) (gv_contract g) (gv_schema_drift g) (gv_policy g) (gv_budget g) (gv_budget_state g) (gv_profiler g) (gv_metadata g) (gv_usage_meter g) (gv_resilience g) (gv_cancel g) (gv_dlq g) v (gv_sink_built g).
Definition set_gv_sink_built (v : bool) (g : Governance) : Governance :=
  MkGovernance (gv_masking g) (gv_quality g) (gv_contract g) (gv_schema_drift g) (gv_policy g) (gv_budget g) (gv_budget_state g) (gv_profiler g) (gv_metadata g) (gv_usage_meter g) (gv_resilience g) (gv_cancel g) (gv_dlq g) (gv_opt_outs g) v.

Definition gv_new : Governance := MkGovernance None None None None None None false false None false None false None [] false.

Definition gv_with_masking (m : masking_t) (g : Governance) : Governance := set_gv_masking (if masking_is_empty m then None else Some m) g.
Definition no_ceiling (b : BudgetSpec) : bool := negb (is_some (max_records b)) && negb (is_some (max_bytes b)) && negb (is_some (max_duration_secs b)).
Definition gv_with_budget (b : BudgetSpec) (g : Governance) : Governance :=
  if no_ceiling b then set_gv_budget_state false (set_gv_budget None g) else set_gv_budget_state true (set_gv_budget (Some b) g).
Definition turn_off (p : Pass) (g : Governance) : Governance :=
  match p with
  | PMasking => set_gv_masking None g
  | PQuality => set_gv_quality None g
  | PContract => set_gv_contract None g
  | PSchemaDrift => set_gv_schema_drift None g
  | PPolicy => set_gv_policy None g
  | PBudget => set_gv_budget_state false (set_gv_budget None g)
  | PProfiling => set_gv_profiler false g
  | PMetadata => set_gv_metadata None g
  | PMetering => set_gv_usage_meter false g
  | PResilience => set_gv_resilience None g
  | PCancel => set_gv_cancel false g
  | PDlq => set_gv_dlq None g
  end.
Definition without (p : Pass) (reason : string) (g : Governance) : Governance :=
  let g := turn_off p g in
  set_gv_opt_outs (List.filter (fun o => negb (bool_decide (oo_pass o = p))) (gv_opt_outs g) ++ [MkOptOut p reason]) g.
Definition opted_out (g : Governance) (p : Pass) : option string :=
  oo_reason <$> head (List.filter (fun o => bool_decide (oo_pass o = p)) (gv_opt_outs g)).
Definition is_active (g : Governance) (p : Pass) : bool :=
  match p with
  | PMasking => is_some (gv_masking g)
  | PQuality => is_some (gv_quality g)
  | PContract => is_some (gv_contract g)
  | PSchemaDrift => is_some (gv_schema_drift g)
  | PPolicy => is_some (gv_policy g)
  | PBudget => is_some (gv_budget g)
  | PProfiling => gv_profiler g
  | PMetadata => is_some (gv_metadata g)
  | PMetering => gv_usage_meter g
  | PResilience => is_some (gv_resilience g)
  | PCancel => gv_cancel g
  | PDlq => is_some (gv_dlq g)
  end.
Definition active_passes (g : Governance) : list Pass := List.filter (is_active g) all_passes.
Definition has_sink_layers (g : Governance) : bool := is_active g PBudget || is_active g PProfiling || is_active g PMetadata || is_active g PPolicy.

(** [GovernedSinkBuilder::build]. *)
Definition main_policy (g : Governance) (p : PolicyGovernance) sink : PolicySink (Regex := Regex) (E := LE) :=
  let ps := PolicySink_new sink (pg_policy p) (pg_facts p) in
  let ps := match gv_dlq g ≫= dg_facts with Some facts => with_dlq_destination ps facts | None => ps end in
  match pg_masking p with Some m => with_masking ps m | None => ps end.
Definition tap : Type := option (SinkOps LE -> SinkOps LE).
Definition wrap_layer (g : Governance) (inner outer : tap) (layer : SinkLayer) sink : option (SinkOps LE) :=
  match layer with
  | LBudget => if gv_budget_state g then (fun spec => budget_ops false spec sink) <$> gv_budget g else None
  | LInnerTap => (fun f => f sink) <$> inner
  | LMetadata => (fun mc => metadata_ops mc.1 mc.2 sink) <$> gv_metadata g
  | LOuterTap => (fun f => f sink) <$> outer
  | LProfiling => if gv_profiler g then Some (profiling_ops sink) else None
  | LPolicy => (fun p => policy_ops L (main_policy g p sink)) <$> gv_policy g
  end.
Definition add_layer (g : Governance) (inner outer : tap) (acc : SinkOps LE * list SinkLayer) (layer : SinkLayer) : SinkOps LE * list SinkLayer :=
  match wrap_layer g inner outer layer acc.1 with
  | Some sink => (sink, acc.2 ++ [layer])
  | None => acc
  end.
(** The sink, its layers from the outside in, and the duration of the timer that was started. *)
Record GovernedSink := MkGovernedSink { gs_sink : SinkOps LE; gs_layers : list SinkLayer; gs_budget : bool; gs_timer : option (option Z) }.
Definition build (g : Governance) (inner outer : tap) (destination : SinkOps LE) : GovernedSink * Governance :=
  let '(sink, layers) := foldl (add_layer g inner outer) (destination, []) (rev SINK_LAYERS) in
  (MkGovernedSink sink (rev layers) (gv_budget_state g)
     (if gv_budget_state g then max_duration_secs <$> gv_budget g else None),
   set_gv_sink_built true g).
(** [GovernedSink::finish]. *)
Definition governed_finish {A} (s : GovernedSink) (b : BudgetState) (r : result A FaucetError) : result A FaucetError :=
  match r, (if gs_budget s then bs_verdict b else None) with
  | Ok _, Some v => Err (verdict_error v)
  | _, _ => r
  end.

(** [govern_dlq]; the meter changes nothing it forwards. *)
Definition dlq_policy (p : PolicyGovernance) (facts : SinkFacts) (later : option masking_t) sink : PolicySink (Regex := Regex) (E := LE) :=
  let ps := for_dlq sink (pg_policy p) facts in
  let ps := match pg_masking p with Some m => with_masking ps m | None => ps end in
  match later with Some m => with_later_masking ps m | None => ps end.
Definition govern_dlq (dlq : DlqGovernance) (budget : option BudgetSpec) (policy : option PolicyGovernance) : SinkOps LE :=
  let sink := dg_sink dlq in
  let sink := match budget with Some spec => budget_ops true spec sink | None => sink end in
  let sink := match policy, dg_facts dlq with
              | Some p, Some facts => policy_ops L (dlq_policy p facts (dg_masking dlq) sink)
              | _, _ => sink
              end in
  match dg_masking dlq with Some m => dlq_masking_ops m sink | None => sink end.
Definition governed_dlq (g : Governance) : option (SinkOps LE) :=
  (fun dlq => govern_dlq dlq (if gv_budget_state g then gv_budget g else None) (gv_policy g)) <$> gv_dlq g.

(** ** What a page meets on its way *)

(** The three calls that write a page whole. *)
Inductive whole_page := Reported | Governed | Idempotent (scope token : string).
Definition write_whole {X} (k : whole_page) (sink : SinkOps X) (records : list Value) : backend (E := X) WriteReport :=
  match k with
  | Reported => write_batch_reported sink records
  | Governed => write_governed sink records
  | Idempotent scope token => write_batch_idempotent_reported sink records scope token
  end.

Notation stamping := (option (CompiledMetadata * MetadataContext)).
(** The environment after the destination was asked for its columns and, maybe, given some. *)
Definition settled (dest : SinkOps E) (meta : stamping) (e e1 : E) : Prop :=
  e1 = e \/ (is_some meta = true /\ (e1 = (current_schema dest e).2 \/
    exists additions, e1 = (evolve_schema dest (MkSchemaEvolution additions [] []) (current_schema dest e).2).2)).
Definition rows_for (meta : stamping) (e1 : E) (seq : Z) (records : list Value) : list Value * Z :=
  match meta with Some (m, ctx) => stamp_with m ctx (now_text e1) seq records | None => (records, seq) end.
Definition spent (bud : option BudgetSpec) (rows : list Value) (r : WriteReport) (b b' : BudgetState) : Prop :=
  match bud with
  | Some spec => exists b1 bytes, admit_rows spec rows b = (b1, Ok bytes) /\ b' = account (wr_accepted r) bytes b1
  | None => b' = b
  end.
Definition same_counts (b b' : BudgetState) : Prop := bs_records b' = bs_records b /\ bs_bytes b' = bs_bytes b.

(** Every row of the page was accepted, where a profiler watches. *)
Definition took_all (prof : bool) (r : WriteReport) (records : list Value) : Prop := prof = true -> wr_accepted r = Z.of_nat (length records).
(** [W] writes [base] behind a policy, a profiler, the metadata columns and a budget. *)
Definition lands (dest : SinkOps E) (base : list Value -> backend (E := E) WriteReport) (pol : list Value -> bool) (prof : bool) (meta : stamping)
    (bud : option BudgetSpec) (W : list Value -> backend (E := LE) WriteReport) : Prop :=
  forall records e s ans d e' s', W records (e, s) = ((ans, d), (e', s')) ->
  (pol records = false -> is_ok ans = false /\ e' = e /\ s' = s) /\
  match ans with
  | Ok r => pol records = true /\ exists e1 d1, settled dest meta e e1 /\
      let '(rows, next) := rows_for meta e1 (ly_seq s) records in
      base rows e1 = ((Ok r, d1), e') /\ spent bud rows r (ly_budget s) (ly_budget s') /\
      (took_all prof r records -> ly_profiled s' = ly_profiled s ++ (if prof then records else [])) /\ ly_seq s' = next
  | Err _ => ly_profiled s' = ly_profiled s /\ same_counts (ly_budget s) (ly_budget s')
  end.

Lemma lands_base dest k : lands dest (write_whole k dest) (fun _ => true) false None None (write_whole k (lift_ops dest)).
Proof.
  intros records e s ans d e' s' H. split; [done|].
  assert (exists y, write_whole k dest records e = ((ans, d), y) /\ e' = y /\ s' = s) as (y & Hw & -> & ->).
  { assert (write_whole k (lift_ops dest) records (e, s) = lift (write_whole k dest records) (e, s)) as E1 by (by destruct k). rewrite E1 in H. unfold lift in H. cbn [fst snd] in H.
    destruct (write_whole k dest records e) as [a y]. injection H as -> <- <-. by exists y. }
  destruct ans as [r|x]; [|done]. split; [done|]. exists e, d. split; [by left|]. cbn [rows_for spent]. split_and!; [done|done|by rewrite app_nil_r|done].
Qed.

Lemma admit_counts spec rows b b' r : admit_rows spec rows b = (b', r) -> same_counts b b'.
Proof.
  unfold admit_rows. destruct (bs_verdict b); [by intros [= <- <-]|]. destruct (_ && _); [by intros [= <- <-]|].
  unfold check_ceilings, Budget.refuse. destruct (max_records spec) as [mr|]; [destruct (mr <? _); [by intros [= <- <-]|]|].
  all: destruct (max_bytes spec) as [mb|]; [destruct (mb <? _)|]; by intros [= <- <-].
Qed.
Lemma lands_budget dest base W spec : lands dest base (fun _ => true) false None None W ->
  lands dest base (fun _ => true) false None (Some spec) (fun r => budgeted false spec r (W r) spend_report).
Proof.
  intros HW records e s ans d e' s' H. split; [done|]. unfold budgeted, and_then, budget_step, here in H. cbn [fst snd] in H.
  destruct (admit_rows spec records (ly_budget s)) as [b1 [bytes|x]] eqn:Ha; [|injection H as <- <- <- <-; split; [done|by eapply admit_counts]].
  destruct (W records (e, set_ly_budget b1 s)) as [[[r|x] dd] [e2 s2]] eqn:Hw; apply HW in Hw as [_ Hw]; cbn [fst snd] in *; injection H as <- <- <- <-.
  - destruct Hw as (_ & e1 & d1 & Hs & Hb & Hsp & Hp & Hq). split; [done|]. exists e1, d1. split; [done|]. cbn in *. split_and!; [done| |by intros Hk; rewrite Hp|done].
    exists b1, bytes. split; [done|]. by rewrite Hsp.
  - destruct Hw as [Hp Hc]. apply admit_counts in Ha as [? ?]. destruct Hc as [E1 E2]. cbn in *. split; [done|]. split; congruence.
Qed.

(** A sink that forwards its schema calls to the destination. *)
Definition forwards_schema (dest : SinkOps E) (sink : SinkOps LE) : Prop :=
  current_schema sink = lift (current_schema dest) /\ forall ev, evolve_schema sink ev = lift (evolve_schema dest ev).
Definition same_layers (s s' : LayerState) : Prop := ly_budget s' = ly_budget s /\ ly_profiled s' = ly_profiled s /\ ly_seq s' = ly_seq s.

Lemma ensure_spec dest sink m ctx e s r d e1 s1 : forwards_schema dest sink -> ensure_columns m sink (e, s) = ((r, d), (e1, s1)) ->
  settled dest (Some (m, ctx)) e e1 /\ same_layers s s1.
Proof.
  intros [Hc He]. unfold ensure_columns. cbn [fst snd]. destruct (ly_ready s); [intros [= <- <- <- <-]; split; [by left|done]|].
  unfold and_then. rewrite Hc. unfold lift, here. cbn [fst snd]. destruct (current_schema dest e) as [[[schema|x] d1] e2] eqn:Ec.
  2:{ cbn. intros [= <- <- <- <-]. split; [|done]. right. split; [done|]. left. by rewrite Ec. }
  destruct schema as [schema|]; cbn [fst snd].
  2:{ intros [= <- <- <- <-]. split; [|done]. right. split; [done|]. left. by rewrite Ec. }
  destruct (is_nil (missing_columns m schema)); [cbn; intros [= <- <- <- <-]; split; [|done]; right; split; [done|]; left; by rewrite Ec|].
  destruct (negb evolves); [cbn; intros [= <- <- <- <-]; split; [|done]; right; split; [done|]; left; by rewrite Ec|].
  rewrite He. unfold lift. cbn [fst snd]. destruct (evolve_schema dest _ e2) as [[[u|x] d2] e3] eqn:Ev; cbn; intros [= <- <- <- <-]; (split; [|done]);
    right; (split; [done|]); right; exists (missing_columns m schema); rewrite Ec; cbn [snd]; by rewrite Ev.
Qed.

Lemma lands_metadata dest base W bud sink m ctx : forwards_schema dest sink -> lands dest base (fun _ => true) false None bud W ->
  lands dest base (fun _ => true) false (Some (m, ctx)) bud (fun r => stamped m ctx sink r W).
Proof.
  intros Hf HW records e s ans d e' s' H. split; [done|]. unfold stamped, and_then at 1 in H.
  destruct (ensure_columns m sink (e, s)) as [[[[]|x] d1] [e1 s1]] eqn:He; apply (ensure_spec dest sink m ctx) in He as (Hset & Hb & Hp & Hq); try done.
  2:{ injection H as <- <- <- <-. rewrite Hp, Hb. done. }
  unfold and_then, stamp in H. cbn [fst snd] in H. destruct (stamp_with m ctx (now_text e1) (ly_seq s1) records) as [rows next] eqn:Est.
  destruct (W rows (e1, set_ly_seq next s1)) as [[a dd] [e2 s2]] eqn:Hw. apply HW in Hw as [_ Hw]. injection H as -> <- <- <-.
  destruct ans as [r|x]; cbn in Hw.
  - destruct Hw as (_ & e3 & d3 & [->|[? _]] & Hbase & Hsp & Hpr & Hsq); [|done]. split; [done|]. exists e1, d3. split; [done|]. cbn [rows_for]. rewrite <- Hq, Est.
    rewrite Hb in Hsp. rewrite Hp in Hpr. split_and!; [done|by destruct bud|by intros _; apply Hpr|done].
  - by rewrite Hp, Hb in Hw.
Qed.

Lemma lands_profiling dest base W meta bud : lands dest base (fun _ => true) false meta bud W ->
  lands dest base (fun _ => true) true meta bud (fun r => profiled (W r) (fun _ => r)).
Proof.
  intros HW records e s ans d e' s' H. split; [done|]. unfold profiled, and_then, here in H.
  destruct (W records (e, s)) as [[[r|x] dd] [e2 s2]] eqn:Hw; apply HW in Hw as [_ Hw]; cbn [fst snd] in H; injection H as <- <- <- <-; [|done].
  destruct Hw as (_ & e1 & d1 & Hs & Hx). split; [done|]. exists e1, d1. split; [done|]. destruct (rows_for meta e1 (ly_seq s) records) as [rows next].
  destruct Hx as (Hb & Hsp & Hp & Hq). rewrite app_nil_r in Hp. cbn. split_and!; [done|done| |done]. intros _. by rewrite Hp.
Qed.

(** The profiler is shown the whole page whatever the report says of it, also rows that were
    coalesced or skipped. *)
Lemma profiler_is_shown_the_page sink records e s r d e' s' : write_batch_reported sink records (e, s) = ((Ok r, d), (e', s')) ->
  (write_batch_reported (profiling_ops sink) records (e, s)).2 = (e', observe_rows records s').
Proof. intros H. cbn. unfold profiled, and_then. by rewrite H. Qed.
Lemma lands_policy dest base W prof meta bud (p : PolicySink (Regex := Regex) (E := LE)) W' : lands dest base (fun _ => true) prof meta bud W ->
  (forall records e, exists x, W' records e = if forallb (clean L p) records then W records e else ((Err x, 0), e)) ->
  lands dest base (forallb (clean L p)) prof meta bud W'.
Proof.
  intros HW HW' records e s ans d e' s' H. destruct (HW' records (e, s)) as [x Hx]. rewrite Hx in H.
  destruct (forallb (clean L p) records) eqn:Hc; [apply HW in H as [_ H]; split; [done|]; by destruct ans|].
  injection H as <- <- <- <-. done.
Qed.
Lemma policy_whole k (p : PolicySink (Regex := Regex) (E := LE)) records e :
  exists x, write_whole k (policy_ops L p) records e = if forallb (clean L p) records then write_whole k (ps_inner p) records e else ((Err x, 0), e).
Proof. destruct k; [apply screened_page_spec..|apply idempotent_spec]. Qed.

(** The policy does not look at the sink it wraps. *)
Lemma clean_main g p sink sink' records : forallb (clean L (main_policy g p sink)) records = forallb (clean L (main_policy g p sink')) records.
Proof. unfold main_policy. by destruct (gv_dlq g ≫= dg_facts), (pg_masking p). Qed.
Definition screens (g : Governance) (dest : SinkOps E) (records : list Value) : bool :=
  match gv_policy g with Some p => forallb (clean L (main_policy g p (lift_ops dest))) records | None => true end.
Definition budget_of (g : Governance) : option BudgetSpec := if gv_budget_state g then gv_budget g else None.
Definition layer_of (g : Governance) (layer : SinkLayer) : bool :=
  match layer with LPolicy => is_some (gv_policy g) | LProfiling => gv_profiler g | LMetadata => is_some (gv_metadata g) | LBudget => is_some (budget_of g) | _ => false end.

(** The stack without taps, from the destination out. *)
Definition with_budget_layer (g : Governance) (sink : SinkOps LE) : SinkOps LE := match budget_of g with Some spec => budget_ops false spec sink | None => sink end.
Definition with_metadata_layer (g : Governance) (sink : SinkOps LE) : SinkOps LE := match gv_metadata g with Some mc => metadata_ops mc.1 mc.2 sink | None => sink end.
Definition with_profiling_layer (g : Governance) (sink : SinkOps LE) : SinkOps LE := if gv_profiler g then profiling_ops sink else sink.
Definition with_policy_layer (g : Governance) (sink : SinkOps LE) : SinkOps LE := match gv_policy g with Some p => policy_ops L (main_policy g p sink) | None => sink end.
Lemma build_stack g dest : let built := (build g None None dest).1 in
  gs_sink built = with_policy_layer g (with_profiling_layer g (with_metadata_layer g (with_budget_layer g dest))) /\ gs_layers built = List.filter (layer_of g) SINK_LAYERS.
Proof.
  unfold build, with_policy_layer, with_profiling_layer, with_metadata_layer, with_budget_layer, layer_of, SINK_LAYERS, add_layer, wrap_layer, budget_of. cbn.
  destruct (gv_budget_state g), (gv_budget g), (gv_metadata g) as [[m ctx]|], (gv_profiler g), (gv_policy g); split; reflexivity.
Qed.

(** C27: What a page meets on its way to the destination, whichever layers a run configures
    and whichever whole-page call writes it. A row that breaks a policy rule fails the page
    with the destination and every layer untouched. Otherwise, when the call answers, the
    destination was given exactly these rows with the metadata columns stamped on, numbered
    on from the last row, after the budget had admitted them; what it accepted was counted,
    and when it accepted every row, the profiler saw exactly these rows, without the stamps. A
    call that fails counts nothing and shows the profiler nothing. *)
Theorem governed_write_lands g dest k :
  lands dest (write_whole k dest) (screens g dest) (gv_profiler g) (gv_metadata g) (budget_of g) (write_whole k (gs_sink (build g None None (lift_ops dest)).1)).
Proof.
  rewrite (proj1 (build_stack g (lift_ops dest))). set (s0 := lift_ops dest).
  assert (lands dest (write_whole k dest) (fun _ => true) false None (budget_of g) (write_whole k (with_budget_layer g s0)) /\ forwards_schema dest (with_budget_layer g s0)) as [H1 F1].
  { unfold with_budget_layer. pose proof (lands_base dest k) as Hb. destruct (budget_of g) as [spec|]; [|done]. split; [|done].
    pose proof (lands_budget dest _ _ spec Hb) as Hs. by destruct k. }
  assert (lands dest (write_whole k dest) (fun _ => true) false (gv_metadata g) (budget_of g) (write_whole k (with_metadata_layer g (with_budget_layer g s0)))) as H2.
  { unfold with_metadata_layer. destruct (gv_metadata g) as [[m ctx]|]; [|done]. pose proof (lands_metadata dest _ _ _ _ m ctx F1 H1) as Hs. by destruct k. }
  set (s2 := with_metadata_layer g _) in *.
  assert (lands dest (write_whole k dest) (fun _ => true) (gv_profiler g) (gv_metadata g) (budget_of g) (write_whole k (with_profiling_layer g s2))) as H3.
  { unfold with_profiling_layer. destruct (gv_profiler g); [|done]. pose proof (lands_profiling dest _ _ _ _ H2) as Hs. by destruct k. }
  set (s3 := with_profiling_layer g s2) in *. unfold with_policy_layer, screens. destruct (gv_policy g) as [p|]; [|done].
  intros records. rewrite (clean_main g p (lift_ops dest) s3). revert records. apply (lands_policy dest _ (write_whole k s3)); [done|]. intros records e.
  destruct (policy_whole k (main_policy g p s3) records e) as [x Hx]. exists x. rewrite Hx. unfold main_policy. by destruct (gv_dlq g ≫= dg_facts), (pg_masking p).
Qed.

(** ** The dead-letter sink *)

Definition dlq_rows (dlq : DlqGovernance) (envelopes : list Value) : list Value :=
  match dg_masking dlq with Some m => mask_envelopes m envelopes | None => envelopes end.
Definition dlq_screens (dlq : DlqGovernance) (policy : option PolicyGovernance) (rows : list Value) : bool :=
  match policy, dg_facts dlq with Some p, Some facts => forallb (clean L (dlq_policy p facts (dg_masking dlq) (dg_sink dlq))) rows | _, _ => true end.
Definition dlq_spent (budget : option BudgetSpec) (rows : list Value) (r : WriteReport) (s s' : LayerState) : Prop :=
  match budget with
  | Some spec => exists b1 bytes, admit_rows spec rows (set_prepaid (ly_dlq_prepaid s) (ly_budget s)) = (b1, Ok bytes) /\
      bs_records (ly_budget s') = wadd64 (bs_records b1) (wr_accepted r) /\ bs_bytes (ly_budget s') = wadd64 (bs_bytes b1) bytes /\
      bs_prepaid (ly_budget s') = bs_prepaid (ly_budget s)
  | None => s' = s
  end.

(** An envelope's payload is masked and nothing else of it changes. *)
Theorem envelopes_are_masked m envelopes i fields payload : envelopes !! i = Some (VObject fields) -> assoc "payload" fields = Some payload ->
  exists out, mask_envelopes m envelopes !! i = Some (VObject out) /\ assoc "payload" out = Some (mask_node L m EmptyString payload).1 /\
    forall k, k <> "payload" -> assoc k out = assoc k fields.
Proof.
  intros Hi Hp. exists (assoc_insert "payload" (mask_node L m EmptyString payload).1 fields). split_and!.
  - unfold mask_envelopes. rewrite apply_masking_rows, lookup_zip_with, Hi, !list_lookup_fmap, Hi. cbn. by rewrite Hp.
  - apply assoc_insert_eq.
  - intros k Hk. by apply assoc_insert_ne.
Qed.

Lemma dlq_budgeted_write dest spec rows e s ans d e' s' :
  write_batch_reported (budget_ops true spec (lift_ops dest)) rows (e, s) = ((ans, d), (e', s')) ->
  match ans with
  | Ok r => exists d1, write_batch_reported dest rows e = ((Ok r, d1), e') /\ dlq_spent (Some spec) rows r s s'
  | Err _ => same_counts (ly_budget s) (ly_budget s')
  end.
Proof.
  intros H. cbn [write_batch_reported budget_ops with_writes] in H. unfold budgeted, and_then, budget_step, here, lift_ops, lift in H. cbn [write_batch_reported fst snd] in H.
  destruct (admit_rows spec rows (set_prepaid (ly_dlq_prepaid s) (ly_budget s))) as [b1 [bytes|x]] eqn:Ha; cbn [fst snd] in H.
  2:{ injection H as <- <- <- <-. apply admit_counts in Ha. exact Ha. }
  destruct (write_batch_reported dest rows e) as [[[r|x] dd] e2] eqn:Hw; cbn in H; injection H as <- <- <- <-.
  - exists dd. split; [done|]. exists b1, bytes. done.
  - apply admit_counts in Ha. exact Ha.
Qed.

(** The envelopes that reach a governed dead-letter sink are masked by its rules, break
    no rule of the policy for that destination, and count against the run's budget;
    an envelope that breaks a rule fails the write with the sink untouched. *)
Theorem dead_letters_are_governed dest facts masking budget policy envelopes e s ans d e' s' :
  let dlq := MkDlqGovernance (lift_ops dest) facts masking in
  let rows := dlq_rows dlq envelopes in
  write_batch_reported (govern_dlq dlq budget policy) envelopes (e, s) = ((ans, d), (e', s')) ->
  (dlq_screens dlq policy rows = false -> is_ok ans = false /\ e' = e /\ s' = s) /\
  match ans with
  | Ok r => dlq_screens dlq policy rows = true /\ exists d1, write_batch_reported dest rows e = ((Ok r, d1), e') /\ dlq_spent budget rows r s s'
  | Err _ => same_counts (ly_budget s) (ly_budget s')
  end.
Proof.
  intros dlq rows H. set (b := match budget with Some spec => budget_ops true spec (lift_ops dest) | None => lift_ops dest end).
  set (p := match policy, facts with Some p, Some f => policy_ops L (dlq_policy p f masking b) | _, _ => b end).
  assert (write_batch_reported p rows (e, s) = ((ans, d), (e', s'))) as Hp by (unfold govern_dlq in H; cbn in H; unfold rows, dlq_rows; cbn; by destruct masking).
  assert (write_batch_reported b rows (e, s) = ((ans, d), (e', s')) -> match ans with
    | Ok r => exists d1, write_batch_reported dest rows e = ((Ok r, d1), e') /\ dlq_spent budget rows r s s'
    | Err _ => same_counts (ly_budget s) (ly_budget s') end) as Hb.
  { unfold b. destruct budget as [spec|]; [apply dlq_budgeted_write|]. cbn. unfold lift. cbn. destruct (write_batch_reported dest rows e) as [[a dd] e2].
    intros [= <- <- <- <-]. destruct a; [by eexists|done]. }
  unfold p in Hp. unfold dlq_screens. cbn [dg_facts dg_masking dg_sink dlq]. destruct policy as [pg|]; [|split; [done|]; specialize (Hb Hp); by destruct ans].
  destruct facts as [f|]; [|split; [done|]; specialize (Hb Hp); by destruct ans].
  destruct (screened_page_spec L (dlq_policy pg f masking b) NO_DLQ rows (write_batch_reported (ps_inner (dlq_policy pg f masking b)) rows) (e, s)) as [x Hx].
  change (write_batch_reported (policy_ops L ?q) rows (e, s)) with (screened_page L q NO_DLQ rows (write_batch_reported (ps_inner q) rows) (e, s)) in Hp. rewrite Hx in Hp.
  replace (forallb (clean L (dlq_policy pg f masking (lift_ops dest))) rows) with (forallb (clean L (dlq_policy pg f masking b)) rows)
    by (unfold dlq_policy; by destruct (pg_masking pg), masking).
  destruct (forallb _ rows); [|by injection Hp as <- <- <- <-].
  replace (ps_inner (dlq_policy pg f masking b)) with b in Hp by (unfold dlq_policy; by destruct (pg_masking pg), masking).
  split; [done|]. specialize (Hb Hp). by destruct ans.
Qed.

(** ** Turning a pass off *)

(** A pass that is turned off is off with its one reason on record, and no other pass is touched. *)
Theorem without_turns_off g p reason q :
  is_active (without p reason g) q = (if decide (q = p) then false else is_active g q) /\
  opted_out (without p reason g) q = (if decide (q = p) then Some reason else opted_out g q).
Proof.
  split.
  - unfold without. destruct (decide (q = p)) as [->|Hne]; destruct p; try done; by destruct q.
  - unfold opted_out, without. replace (gv_opt_outs (set_gv_opt_outs _ _)) with (List.filter (fun o => negb (bool_decide (oo_pass o = p))) (gv_opt_outs g) ++ [MkOptOut p reason])
      by (by destruct p). induction (gv_opt_outs g) as [|o l IH]; cbn [List.filter app].
    + cbn. destruct (decide (q = p)) as [->|Hne]; [by rewrite bool_decide_eq_true_2|by rewrite bool_decide_eq_false_2 by congruence].
    + destruct (bool_decide (oo_pass o = p)) eqn:Hp; cbn [negb].
      * rewrite IH. apply bool_decide_eq_true in Hp. destruct (decide (q = p)); [done|]. by rewrite bool_decide_eq_false_2 by congruence.
      * apply bool_decide_eq_false in Hp. cbn [List.filter app]. destruct (bool_decide (oo_pass o = q)) eqn:Hq; [|done].
        apply bool_decide_eq_true in Hq. rewrite decide_False by congruence. done.
Qed.
End Layers.

(** ** Stamps *)

Lemma prefix_inj a b c : a +:+ b = a +:+ c -> b = c.
Proof. induction a as [|x a IH]; [done|]. intros [= E]. by apply IH. Qed.
Lemma column_name_inj m c c' : column_name m c = column_name m c' -> c = c'.
Proof. unfold column_name. intros E%prefix_inj%prefix_inj. by destruct c, c'. Qed.
Lemma inject_lookup m ctx now seq map c : c ∈ cmd_columns m -> assoc (column_name m c) (inject m ctx now seq map) = Some (column_value ctx now seq c).
Proof.
  unfold inject. destruct m as [prefix columns]. set (m := MkCompiledMetadata prefix columns). change (cmd_columns m) with columns. clearbody m.
  induction columns as [|c' l IH] using rev_ind; [by intros ?%elem_of_nil|]. intros Hc. rewrite foldl_app. cbn [foldl].
  destruct (decide (c = c')) as [->|Hne]; [apply assoc_insert_eq|]. rewrite assoc_insert_ne by (intros E%column_name_inj; congruence).
  apply IH. apply elem_of_app in Hc as [?|?%list_elem_of_singleton]; congruence.
Qed.
Lemma inject_other m ctx now seq map k : (forall c, c ∈ cmd_columns m -> k <> column_name m c) -> assoc k (inject m ctx now seq map) = assoc k map.
Proof.
  unfold inject. destruct m as [prefix columns]. set (m := MkCompiledMetadata prefix columns). change (cmd_columns m) with columns. clearbody m.
  induction columns as [|c l IH] using rev_ind; [done|]. intros Hk. rewrite foldl_app. cbn [foldl]. rewrite assoc_insert_ne; [|apply Hk; set_solver].
  apply IH. intros c' Hc'. apply Hk. set_solver.
Qed.

(** Stamping keeps a row's own fields, gives object rows the run's columns and numbers
    them without gaps from where the last page stopped; other rows are passed on. *)
Theorem stamped_rows_are_numbered m ctx now seq records : Sequence ∈ cmd_columns m -> 0 <= seq -> seq + zlen records <= U64_MAX ->
  let '(out, next) := stamp_with m ctx now seq records in
  Forall2 (fun r o => match r with
                      | VObject map => exists n, seq <= n < next /\ o = VObject (inject m ctx now n map)
                      | _ => o = r
                      end) records out /\
  omap (fun o => match o with VObject map => assoc (column_name m Sequence) map | _ => None end) out = of_u64 <$> seqZ seq (next - seq) /\
  seq <= next <= seq + zlen records.
Proof.
  intros Hs. revert seq. induction records as [|r records IH]; intros seq H0 H1.
  { cbn. split_and!; [constructor|by rewrite Z.sub_diag|lia|unfold zlen; cbn; lia]. }
  assert (zlen (r :: records) = 1 + zlen records) as Hl by (unfold zlen; cbn [length]; lia).
  assert (0 <= zlen records) as Hn by (unfold zlen; lia). rewrite Hl in *.
  destruct r as [| | | | |map]; try (cbn [stamp_with]; specialize (IH seq H0 ltac:(lia)); destruct (stamp_with m ctx now seq records) as [out next];
    destruct IH as (Hf & Ho & Hr); split_and!; [by constructor|exact Ho|lia|lia]; fail).
  cbn [stamp_with]. rewrite wadd64_small by lia.
  specialize (IH (seq + 1) ltac:(lia) ltac:(lia)). destruct (stamp_with m ctx now (seq + 1) records) as [out next]. destruct IH as (Hf & Ho & Hr). split_and!; [| |lia|lia].
  - constructor; [exists seq; split; [lia|done]|]. eapply Forall2_impl; [exact Hf|]. intros [] o Hx; try done. destruct Hx as (n & ? & ->). exists n. split; [lia|done].
  - cbn [omap list_omap]. rewrite inject_lookup by done. rewrite (seqZ_cons seq) by lia. rewrite fmap_cons. cbn [column_value]. f_equal.
    etrans; [exact Ho|]. do 2 f_equal; lia.
Qed.
