(* ===== verification/Topology.v ===== *)
(** The shape of a topology (crates/core/src/topology.rs): nodes and edges, the checks
    of [Topology::validate], and what a run derives from the graph alone (ancestors,
    the origins of bookmarks, the modes of merges).

    A transform node is the page function its compiled stages compute
    ([apply_stages_to_page] of Stage.v). Where the source iterates over a hash set the
    order of the nodes is used: it decides only which of several errors is named. The
    text of a label list in an error ([{:?}]) is a parameter. *)
From S2P Require Import Prelude Errors Json Text Drift Engine Join.

Local Open Scope Z_scope.
Local Open Scope result_scope.

Record JoinNode := MkJoinNode { jn_config : JoinConfig; jn_build_edge : string; jn_probe_edge : string }.
(** What the graph reads of a source node. *)
Record SourceNode := MkSourceNode {
  sn_connector : string;
  sn_destructive : bool;
  sn_stream : list (result StreamPage FaucetError);
}.
Inductive NodeKind :=
| NSource (s : SourceNode)
| NTransform (f : list Value -> result (list Value) FaucetError)
| NTee (capacity : Z) (fanout : option Z)
| NMerge
| NJoin (j : JoinNode)
| NSink.
Definition kind_str (k : NodeKind) : string :=
  match k with
  | NSource _ => "source" | NTransform _ => "transform" | NTee _ _ => "tee" | NMerge => "merge" | NJoin _ => "join" | NSink => "sink"
  end.
Definition is_source (k : NodeKind) : bool := match k with NSource _ => true | _ => false end.
Definition is_sink (k : NodeKind) : bool := match k with NSink => true | _ => false end.
Record Node := MkNode { n_id : string; n_kind : NodeKind }.
Record Edge := MkEdge { e_from : string; e_to : string; e_label : option string }.
Record Topology := MkTopology { t_nodes : list Node; t_edges : list Edge }.

Definition topology_err {A} (msg : string) : result A FaucetError := Err (Config ("topology: " +:+ msg)).

(** ** Graph searches *)

(** [adj], [radj] and [rev] of the source: the neighbours in edge order. *)
Definition successors (es : list Edge) (v : string) : list string :=
  e_to <$> List.filter (fun e => string_eqb (e_from e) v) es.
Definition in_edges (es : list Edge) (v : string) : list Edge := List.filter (fun e => string_eqb (e_to e) v) es.
Definition predecessors (es : list Edge) (v : string) : list string := e_from <$> in_edges es v.

(** The loop of [ancestors_of] and [reaches_any]: a stack of nodes to look at and the
    nodes seen. [None] is out of fuel. *)
Fixpoint search (adj : string -> list string) (stop : string -> bool) (fuel : nat) (stack : list string) (seen : gset string)
  : option (bool * gset string) :=
  match stack with
  | [] => Some (false, seen)
  | n :: stack =>
      match fuel with
      | O => None
      | S fuel =>
          if stop n then Some (true, seen)
          else if bool_decide (n ∈ seen) then search adj stop fuel stack seen
          else search adj stop fuel (reverse (adj n) ++ stack) ({[n]} ∪ seen)
      end
  end.
(** Every node is expanded at most once and every edge pushes one entry. *)
Definition search_fuel (es : list Edge) : nat := S (2 * length es).
Definition ancestors_of (es : list Edge) (id : string) : gset string :=
  match search (predecessors es) (fun _ => false) (search_fuel es) (reverse (predecessors es id)) ∅ with
  | Some (_, seen) => seen
  | None => ∅
  end.
Definition reaches_any (adj : string -> list string) (es : list Edge) (targets : gset string) (start : string) : bool :=
  match search adj (fun n => bool_decide (n ∈ targets)) (search_fuel es) [start] ∅ with
  | Some (found, _) => found
  | None => false
  end.

(** [detect_cycle]: an iterative three-colour depth-first search. *)
Inductive Color := White | Gray | Black.
#[export] Instance Color_eq_dec : EqDecision Color.
Proof. solve_decision. Defined.
Inductive dfs_end := DfsDone (color : gmap string Color) | DfsCycle (through : string) | DfsFuel.
Fixpoint dfs (adj : string -> list string) (fuel : nat) (color : gmap string Color) (stack : list (string * nat)) : dfs_end :=
  match stack with
  | [] => DfsDone color
  | (node, idx) :: rest =>
      match fuel with
      | O => DfsFuel
      | S fuel =>
          match adj node !! idx with
          | Some next =>
              let stack := (node, S idx) :: rest in
              match default Black (color !! next) with
              | Gray => DfsCycle next
              | White => dfs adj fuel (<[next := Gray]> color) ((next, O) :: stack)
              | Black => dfs adj fuel color stack
              end
          | None => dfs adj fuel (<[node := Black]> color) rest
          end
      end
  end.
Fixpoint dfs_all (adj : string -> list string) (fuel : nat) (starts : list string) (color : gmap string Color) : dfs_end :=
  match starts with
  | [] => DfsDone color
  | s :: starts =>
      if decide (color !! s = Some White) then
        match dfs adj fuel (<[s := Gray]> color) [(s, O)] with
        | DfsDone color => dfs_all adj fuel starts color
        | other => other
        end
      else dfs_all adj fuel starts color
  end.
Definition node_ids (t : Topology) : list string := n_id <$> t_nodes t.
(** A node is pushed and popped once, and each of its edges is looked at once. *)
Definition dfs_fuel (t : Topology) : nat := S (sum_list ((fun v => S (S (length (successors (t_edges t) v)))) <$> node_ids t)).
Definition detect_cycle (t : Topology) : result unit FaucetError :=
  match dfs_all (successors (t_edges t)) (dfs_fuel t) (node_ids t) (list_to_map ((fun v => (v, White)) <$> node_ids t)) with
  | DfsDone _ => Ok tt
  | DfsCycle next => topology_err ("topology has a cycle through node '" +:+ next +:+ "'")
  | DfsFuel => topology_err EmptyString
  end.

(** ** [validate] *)

Fixpoint first_err {A} (check : A -> result unit FaucetError) (l : list A) : result unit FaucetError :=
  match l with
  | [] => Ok tt
  | a :: l => let? _ := check a in first_err check l
  end.
Fixpoint unique_ids (seen : list string) (ids : list string) : result unit FaucetError :=
  match ids with
  | [] => Ok tt
  | id :: ids => if mem id seen then topology_err ("duplicate node id '" +:+ id +:+ "'") else unique_ids (id :: seen) ids
  end.
Definition check_endpoints (ids : list string) (e : Edge) : result unit FaucetError :=
  if negb (mem (e_from e) ids) then topology_err ("edge references unknown 'from' node '" +:+ e_from e +:+ "'")
  else if negb (mem (e_to e) ids) then topology_err ("edge references unknown 'to' node '" +:+ e_to e +:+ "'")
  else Ok tt.
Definition arity (node_id kind : string) (in_ok out_ok : bool) (expected : string) : result unit FaucetError :=
  if in_ok && out_ok then Ok tt
  else topology_err (kind +:+ " '" +:+ node_id +:+ "' has the wrong edge arity (expected " +:+ expected +:+ ")").

Section Validate.
Context (debug_labels : list string -> string).

Definition in_labels (es : list Edge) (id : string) : list string := omap e_label (in_edges es id).
Definition want_label (node_id : string) (labels : list string) (want : string) : result unit FaucetError :=
  if mem want labels then Ok tt
  else topology_err ("join '" +:+ node_id +:+ "' has no incoming edge labelled '" +:+ want +:+ "' (known labels: " +:+ debug_labels labels +:+ ")").
Definition validate_join_edges (es : list Edge) (node_id : string) (j : JoinNode) : result unit FaucetError :=
  let labels := in_labels es node_id in
  let? _ := want_label node_id labels (jn_build_edge j) in
  let? _ := want_label node_id labels (jn_probe_edge j) in
  if string_eqb (jn_build_edge j) (jn_probe_edge j) then
    topology_err ("join '" +:+ node_id +:+ "' build_edge and probe_edge must differ")
  else Ok tt.

Definition check_kind (es : list Edge) (n : Node) : result unit FaucetError :=
  let i := length (predecessors es (n_id n)) in
  let o := length (successors es (n_id n)) in
  match n_kind n with
  | NSource s =>
      let? _ := arity (n_id n) "source" (i =? 0)%nat (o =? 1)%nat "0 in, exactly 1 out" in
      if sn_destructive s then
        topology_err ("source '" +:+ n_id n +:+ "' (" +:+ sn_connector s +:+ ") acknowledges messages as it is read past each page, and a graph polls its sources ahead of its sinks, so a failed or cancelled sink would lose messages that were already acked; run this source in a linear pipeline instead")
      else Ok tt
  | NTransform _ => arity (n_id n) "transform" (i =? 1)%nat (o =? 1)%nat "exactly 1 in, 1 out"
  | NTee _ fanout =>
      let? _ := arity (n_id n) "tee" (i =? 1)%nat (2 <=? o)%nat "exactly 1 in, 2+ out" in
      match fanout with
      | Some f => if f =? Z.of_nat o then Ok tt
                  else topology_err ("tee '" +:+ n_id n +:+ "' declares fanout " +:+ dec f +:+ " but has " +:+ dec (Z.of_nat o) +:+ " outgoing edges")
      | None => Ok tt
      end
  | NMerge => arity (n_id n) "merge" (2 <=? i)%nat (o =? 1)%nat "2+ in, exactly 1 out"
  | NJoin j =>
      let? _ := arity (n_id n) "join" (i =? 2)%nat (o =? 1)%nat "exactly 2 in, 1 out" in
      validate_join_edges es (n_id n) j
  | NSink => arity (n_id n) "sink" (i =? 1)%nat (o =? 0)%nat "exactly 1 in, 0 out"
  end.

Definition ids_where (p : NodeKind -> bool) (t : Topology) : list string := n_id <$> List.filter (fun n => p (n_kind n)) (t_nodes t).
Definition check_reachability (t : Topology) : result unit FaucetError :=
  let es := t_edges t in
  let sink_ids := list_to_set (ids_where is_sink t) in
  let source_ids := list_to_set (ids_where is_source t) in
  let? _ := first_err (fun src => if reaches_any (successors es) es sink_ids src then Ok tt
                                  else topology_err ("source '" +:+ src +:+ "' does not reach any sink node")) (ids_where is_source t) in
  first_err (fun sink => if reaches_any (predecessors es) es source_ids sink then Ok tt
                         else topology_err ("sink '" +:+ sink +:+ "' is not reachable from any source node")) (ids_where is_sink t).

(** [check_join_inputs]: the nodes feeding one side of a join. *)
Definition labelled (label : string) (e : Edge) : bool := bool_decide (e_label e = Some label).
Definition join_side (es : list Edge) (id label : string) : option (gset string) :=
  (fun e => {[e_from e]} ∪ ancestors_of es (e_from e)) <$> List.find (labelled label) (in_edges es id).
(** The smallest of the shared nodes is named. *)
Definition string_min (a b : string) : string := match String.compare a b with Gt => b | _ => a end.
Definition check_join (es : list Edge) (n : Node) : result unit FaucetError :=
  match n_kind n with
  | NJoin j =>
      match join_side es (n_id n) (jn_build_edge j), join_side es (n_id n) (jn_probe_edge j) with
      | Some build, Some probe =>
          match elements (build ∩ probe) with
          | [] => Ok tt
          | x :: xs =>
              topology_err ("join '" +:+ n_id n +:+ "' reads both its build and probe sides from node '" +:+ foldl string_min x xs
                +:+ "'; the join drains its build side before reading the probe side, so a shared upstream blocks once the probe channel fills and the run never ends. Feed the two sides from separate source nodes")
          end
      | _, _ => Ok tt
      end
  | _ => Ok tt
  end.

Definition validate (t : Topology) : result unit FaucetError :=
  if is_nil (t_nodes t) then topology_err "topology has no nodes"
  else
    let? _ := unique_ids [] (node_ids t) in
    let? _ := first_err (check_endpoints (node_ids t)) (t_edges t) in
    let? _ := first_err (check_kind (t_edges t)) (t_nodes t) in
    if is_nil (ids_where is_source t) then topology_err "topology has no source node"
    else if is_nil (ids_where is_sink t) then topology_err "topology has no sink node"
    else
      let? _ := detect_cycle t in
      let? _ := check_reachability t in
      first_err (check_join (t_edges t)) (t_nodes t).
End Validate.

(** ** What a run derives from the graph *)

(** [bookmark_origins]: the sources whose positions arrive on a node's pages. The memo
    of the source changes no result and is left out; the recursion is as deep as the
    longest path, so the number of nodes is enough fuel. *)
Definition kind_of (t : Topology) (id : string) : option NodeKind :=
  n_kind <$> List.find (fun n => string_eqb (n_id n) id) (t_nodes t).
Fixpoint bookmark_origins (t : Topology) (fuel : nat) (id : string) : gset string :=
  match fuel with
  | O => ∅
  | S fuel =>
      let from (es : list Edge) := ⋃ ((fun e => bookmark_origins t fuel (e_from e)) <$> es) in
      let inputs := in_edges (t_edges t) id in
      match kind_of t id with
      | Some (NSource _) => {[id]}
      | Some (NJoin j) => from (List.filter (labelled (jn_probe_edge j)) inputs)
      | _ => from inputs
      end
  end.

Inductive MergeMode := Passthrough | Gated | Strip.
Fixpoint pairwise_disjoint (l : list (gset string)) : bool :=
  match l with
  | [] => true
  | a :: l => forallb (fun b => bool_decide (a ## b)) l && pairwise_disjoint l
  end.
Definition merge_mode (inputs : list (gset string)) : MergeMode :=
  if pairwise_disjoint inputs then Passthrough
  else match inputs with
       | [] => Passthrough
       | first :: _ => if (size first =? 1)%nat && forallb (fun o => bool_decide (o = first)) inputs then Gated else Strip
       end.
Definition merge_mode_of (t : Topology) (id : string) : MergeMode :=
  merge_mode ((fun e => bookmark_origins t (length (t_nodes t)) (e_from e)) <$> in_edges (t_edges t) id).

(** [failed_upstream]: the smallest failed node among [upstream], with its error. *)
Definition failed_upstream (failed : list (string * string)) (upstream : gset string) : option (string * string) :=
  head (Drift.sort_by fst (List.filter (fun f => bool_decide (f.1 ∈ upstream)) failed)).

(** ** Searching *)

Section Search.
Context (src dst : Edge -> string) (es : list Edge).
Definition neighbours (n : string) : list string := dst <$> List.filter (fun e => string_eqb (src e) n) es.
Definition linked (a b : string) : Prop := b ∈ neighbours a.
Definition pending (seen : gset string) : nat := length (List.filter (fun e => negb (bool_decide (src e ∈ seen))) es).

Lemma pending_expand n seen : n ∉ seen -> pending seen = (length (neighbours n) + pending ({[n]} ∪ seen))%nat.
Proof.
  intros Hn. unfold pending, neighbours. rewrite length_fmap. induction es as [|e l IH]; [done|]. cbn [List.filter].
  unfold string_eqb in *. destruct (decide (src e = n)) as [->|Hne].
  - rewrite (bool_decide_eq_true_2 (n = n)), (bool_decide_eq_false_2 (n ∈ seen)), (bool_decide_eq_true_2 (n ∈ {[n]} ∪ seen)) by set_solver.
    cbn. by rewrite IH.
  - rewrite (bool_decide_eq_false_2 (src e = n)) by done.
    rewrite (bool_decide_ext (src e ∈ {[n]} ∪ seen) (src e ∈ seen)) by set_solver. destruct (bool_decide _); cbn; rewrite IH; lia.
Qed.

Lemma search_spec stop fuel stack seen :
  (length stack + pending seen <= fuel)%nat ->
  (forall u w, u ∈ seen -> linked u w -> w ∈ seen \/ w ∈ stack) ->
  exists found seen', search neighbours stop fuel stack seen = Some (found, seen') /\
  (forall x, x ∈ seen' -> x ∈ seen \/ exists s, s ∈ stack /\ rtc linked s x) /\
  (found = true -> exists s x, s ∈ stack /\ rtc linked s x /\ stop x = true) /\
  (found = false -> (forall x, x ∈ seen' -> x ∈ seen \/ stop x = false) /\ (forall x, x ∈ seen \/ x ∈ stack -> x ∈ seen') /\
                    (forall u w, u ∈ seen' -> linked u w -> w ∈ seen')).
Proof.
  revert stack seen. induction fuel as [|fuel IH]; intros [|n stack] seen Hf Hc; cbn [search length] in *.
  1,3: exists false, seen; repeat split; [auto|done|auto|set_solver|]; intros u w Hu Hw; destruct (Hc u w Hu Hw); set_solver.
  - lia.
  - destruct (stop n) eqn:Es.
    { exists true, seen. repeat split; [auto| |done|done|done]. intros _. exists n, n. set_solver. }
    case_bool_decide as Hn.
    + destruct (IH stack seen) as (f & seen' & -> & H1 & H2 & H3); [lia| |].
      { intros u w Hu Hw. destruct (Hc u w Hu Hw) as [|[->|]%elem_of_cons]; auto. }
      exists f, seen'. repeat split.
      * intros x Hx. destruct (H1 x Hx) as [|(s & Hin & Hr)]; [auto|]. right. exists s. split; [by right|done].
      * intros Hf'. destruct (H2 Hf') as (s & x & Hin & Hr). exists s, x. split; [by right|done].
      * by apply H3.
      * intros x [Hx|[->|Hx]%elem_of_cons]; apply H3; auto.
      * by apply H3.
    + rewrite (pending_expand n seen Hn) in Hf.
      destruct (IH (reverse (neighbours n) ++ stack) ({[n]} ∪ seen)) as (f & seen' & -> & H1 & H2 & H3).
      { rewrite length_app, length_reverse. lia. }
      { intros u w [->%elem_of_singleton|Hu]%elem_of_union Hw; [right; apply elem_of_app; left; by apply elem_of_reverse|].
        destruct (Hc u w Hu Hw) as [|[->|]%elem_of_cons]; set_solver. }
      assert (forall s x, s ∈ reverse (neighbours n) ++ stack -> rtc linked s x -> exists s', s' ∈ n :: stack /\ rtc linked s' x) as Hs.
      { intros s x [Hin|Hin]%elem_of_app Hx; [rewrite elem_of_reverse in Hin; exists n; split; [left|eapply rtc_l; [exact Hin|exact Hx]]|exists s; split; [by right|done]]. }
      exists f, seen'. repeat split.
      * intros x Hx. destruct (H1 x Hx) as [[->%elem_of_singleton|]%elem_of_union|(s & Hin & Hr)]; [right; exists n; split; [left|done]|auto|right; eauto].
      * intros Hf'. destruct (H2 Hf') as (s & x & Hin & Hr & Hst). destruct (Hs s x Hin Hr) as (s' & ? & ?). eauto.
      * intros x Hx. destruct H3 as [H3 _]; [done|]. destruct (H3 x Hx) as [[->%elem_of_singleton|]%elem_of_union|]; auto.
      * intros x Hx. destruct H3 as (_ & H3 & _); [done|]. apply H3. set_solver.
      * by apply H3.
Qed.
End Search.

Definition edge (es : list Edge) (a b : string) : Prop := exists e, e ∈ es /\ e_from e = a /\ e_to e = b.

Lemma elem_of_neighbours src dst es a b : b ∈ neighbours src dst es a <-> exists e, e ∈ es /\ src e = a /\ dst e = b.
Proof.
  unfold neighbours. rewrite list_elem_of_fmap. setoid_rewrite list_elem_of_In. setoid_rewrite List.filter_In. unfold string_eqb.
  setoid_rewrite bool_decide_eq_true. naive_solver.
Qed.
Lemma linked_successors es a b : linked e_from e_to es a b <-> edge es a b.
Proof. unfold linked. rewrite elem_of_neighbours. done. Qed.
Lemma linked_predecessors es a b : linked e_to e_from es a b <-> edge es b a.
Proof. unfold linked. rewrite elem_of_neighbours. unfold edge. naive_solver. Qed.
Lemma rtc_predecessors es a b : rtc (linked e_to e_from es) a b <-> rtc (edge es) b a.
Proof.
  split.
  - induction 1 as [|x y z H1 _ IH]; [done|]. eapply rtc_r; [exact IH|by apply linked_predecessors].
  - induction 1 as [|x y z H1 _ IH]; [done|]. eapply rtc_r; [exact IH|by apply linked_predecessors].
Qed.
Lemma rtc_successors es a b : rtc (linked e_from e_to es) a b <-> rtc (edge es) a b.
Proof.
  split; induction 1 as [|x y z H1 _ IH]; try done; (eapply rtc_l; [|exact IH]); by apply linked_successors.
Qed.

Lemma pending_le src es seen : (pending src es seen <= length es)%nat.
Proof. unfold pending. induction es as [|e l IH]; [done|]. cbn [List.filter]. destruct (negb _); cbn; lia. Qed.
Lemma neighbours_le src dst es n : (length (neighbours src dst es n) <= length es)%nat.
Proof. unfold neighbours. rewrite length_fmap. induction es as [|e l IH]; [done|]. cbn [List.filter]. destruct (string_eqb _ _); cbn; lia. Qed.

Lemma tc_last {A} (R : relation A) x z : tc R x z -> exists y, rtc R x y /\ R y z.
Proof.
  induction 1 as [x z H|x y z H _ (w & Hr & Hw)]; [by exists x|]. exists w. split; [by eapply rtc_l|done].
Qed.

(** [ancestors_of] is the nodes with a path to [id]. *)
Lemma ancestors_of_spec es id x : x ∈ ancestors_of es id <-> tc (edge es) x id.
Proof.
  unfold ancestors_of. change (predecessors es) with (neighbours e_to e_from es).
  destruct (search_spec e_to e_from es (fun _ => false) (search_fuel es) (reverse (neighbours e_to e_from es id)) ∅) as (f & seen & -> & H1 & H2 & H3).
  { unfold search_fuel. rewrite length_reverse. pose proof (pending_le e_to es ∅). pose proof (neighbours_le e_to e_from es id). lia. }
  { set_solver. }
  destruct f. { by destruct H2 as (? & ? & ? & ? & ?). } destruct H3 as (_ & Hin & Hcl); [done|]. split.
  - intros Hx. destruct (H1 x Hx) as [|(s & Hs & Hr)]; [set_solver|]. rewrite elem_of_reverse in Hs.
    apply rtc_predecessors in Hr. apply linked_predecessors in Hs. eapply tc_rtc_l; [exact Hr|by apply tc_once].
  - intros Hx. apply tc_last in Hx as (y & Hxy & Hy). assert (y ∈ seen) as Hys.
    { apply Hin. right. apply elem_of_reverse. by apply linked_predecessors. }
    clear Hy Hin. induction Hxy as [|a b c Hab _ IH]; [done|]. eapply Hcl; [by apply IH|by apply linked_predecessors].
Qed.

Lemma reaches_any_search src dst es targets start :
  reaches_any (neighbours src dst es) es targets start = true <-> exists x, x ∈ targets /\ rtc (linked src dst es) start x.
Proof.
  unfold reaches_any.
  destruct (search_spec src dst es (fun n => bool_decide (n ∈ targets)) (search_fuel es) [start] ∅) as (f & seen & -> & H1 & H2 & H3).
  { unfold search_fuel. cbn. pose proof (pending_le src es ∅). lia. }
  { set_solver. }
  split.
  - intros ->. destruct H2 as (s & x & ->%list_elem_of_singleton & Hr & Hx); [done|]. apply bool_decide_eq_true in Hx. eauto.
  - intros (x & Hx & Hr). destruct f; [done|]. destruct H3 as (Hno & Hin & Hcl); [done|].
    assert (x ∈ seen) as Hxs. { assert (start ∈ seen) as Hs by (apply Hin; set_solver). clear -Hr Hcl Hs. induction Hr; eauto. }
    destruct (Hno x Hxs) as [?|Hf]; [set_solver|]. by apply bool_decide_eq_false in Hf.
Qed.
Lemma reaches_forward es targets start : reaches_any (successors es) es targets start = true <-> exists x, x ∈ targets /\ rtc (edge es) start x.
Proof. change (successors es) with (neighbours e_from e_to es). rewrite reaches_any_search. by setoid_rewrite rtc_successors. Qed.
Lemma reaches_backward es targets start : reaches_any (predecessors es) es targets start = true <-> exists x, x ∈ targets /\ rtc (edge es) x start.
Proof. change (predecessors es) with (neighbours e_to e_from es). rewrite reaches_any_search. by setoid_rewrite rtc_predecessors. Qed.

(** ** Cycles *)

Lemma sum_list_cons n l : sum_list (n :: l) = (n + sum_list l)%nat.
Proof. done. Qed.

Section Dfs.
Context (adj : string -> list string) (ids : list string).
Context (ids_nodup : NoDup ids) (ids_closed : forall v w, v ∈ ids -> w ∈ adj v -> w ∈ ids).

Definition steps_to (a b : string) : Prop := b ∈ adj a.
(** A list in which every node comes before its neighbours. *)
Fixpoint ordered (l : list string) : Prop :=
  match l with
  | [] => True
  | v :: rest => (forall w, w ∈ adj v -> w ∈ rest) /\ ordered rest
  end.
(** The stack is a path, and the neighbours passed over are done but for the one above. *)
Fixpoint chain (done_ : list string) (above : option string) (stack : list (string * nat)) : Prop :=
  match stack with
  | [] => True
  | (v, i) :: rest =>
      v ∈ ids /\ (i <= length (adj v))%nat /\ (forall w, above = Some w -> w ∈ adj v) /\
      (forall k w, (k < i)%nat -> adj v !! k = Some w -> w ∈ done_ \/ above = Some w) /\ chain done_ (Some v) rest
  end.
Record searching (color : gmap string Color) (stack : list (string * nat)) (done_ : list string) : Prop := {
  sg_known : forall v, v ∈ ids -> is_Some (color !! v);
  sg_gray : forall v, color !! v = Some Gray <-> v ∈ stack.*1;
  sg_black : forall v, color !! v = Some Black <-> v ∈ done_;
  sg_ordered : ordered done_;
  sg_chain : chain done_ None stack;
  sg_nodup : NoDup (stack.*1);
}.

Definition white_weight (color : gmap string Color) (v : string) : nat :=
  if decide (color !! v = Some White) then S (S (length (adj v))) else 0%nat.
Definition frame_weight (f : string * nat) : nat := (S (length (adj f.1)) - f.2)%nat.
Definition weight (color : gmap string Color) (stack : list (string * nat)) : nat :=
  (sum_list (white_weight color <$> ids) + sum_list (frame_weight <$> stack))%nat.

Lemma white_weight_insert color v c : color !! v = Some White -> c <> White -> v ∈ ids ->
  (sum_list (white_weight (<[v := c]> color) <$> ids) + S (S (length (adj v))) = sum_list (white_weight color <$> ids))%nat.
Proof.
  intros Hw Hc. clear ids_closed. induction ids as [|x l IH]; intros Hv; [by apply not_elem_of_nil in Hv|].
  apply NoDup_cons in ids_nodup as [Hx Hnd]. rewrite !fmap_cons, !sum_list_cons. apply elem_of_cons in Hv as [<-|Hv].
  - assert (white_weight (<[v := c]> color) <$> l = white_weight color <$> l) as ->.
    { apply list_fmap_ext. intros i y Hy. unfold white_weight. rewrite lookup_insert_ne; [done|]. intros ->. apply Hx. by eapply list_elem_of_lookup_2. }
    unfold white_weight at 1 3. rewrite lookup_insert_eq, Hw, decide_False, decide_True by congruence. lia.
  - specialize (IH Hnd Hv). unfold white_weight at 1 3. rewrite lookup_insert_ne by (intros ->; done). lia.
Qed.
Lemma white_weight_other color v c : color !! v <> Some White -> c <> White -> sum_list (white_weight (<[v := c]> color) <$> ids) = sum_list (white_weight color <$> ids).
Proof.
  intros Hw Hc. f_equal. apply list_fmap_ext. intros i y _. unfold white_weight. destruct (decide (y = v)) as [->|].
  - by rewrite lookup_insert_eq, !decide_False by congruence.
  - by rewrite lookup_insert_ne by done.
Qed.

Lemma chain_mono done_ done' above stack : (forall v, v ∈ done_ -> v ∈ done') -> chain done_ above stack -> chain done' above stack.
Proof.
  intros Hd. revert above. induction stack as [|[v i] rest IH]; intros above; cbn [chain]; [done|].
  intros (H1 & H2 & H3 & H4 & H5). split_and!; auto. intros k w Hk Hw. destruct (H4 k w Hk Hw); auto.
Qed.
(** The nodes of a stack reach the node above it. *)
Lemma chain_reaches done_ above stack top v : chain done_ above stack -> above = Some top -> v ∈ stack.*1 -> tc steps_to v top.
Proof.
  revert above top. induction stack as [|[u i] rest IH]; intros above top; cbn [chain]; [intros _ _ H; by apply not_elem_of_nil in H|].
  intros (H1 & H2 & H3 & H4 & H5) -> [->|Hv]%elem_of_cons; [apply tc_once; by apply H3|].
  eapply tc_r; [by eapply IH|by apply H3].
Qed.

(** The three moves of the search keep the invariant. *)
Lemma searching_push color node idx rest done_ next :
  searching color ((node, idx) :: rest) done_ -> adj node !! idx = Some next -> color !! next = Some White ->
  searching (<[next := Gray]> color) ((next, 0%nat) :: (node, S idx) :: rest) done_.
Proof.
  intros [Hk Hg Hb Ho (Hin & Hle & Hab & Hpast & Hrest) Hnd] En Ec. pose proof (list_elem_of_lookup_2 _ _ _ En) as Hna.
  assert (next ∉ ((node, idx) :: rest).*1) as Hns by (rewrite <- Hg, Ec; done). assert (next ∉ done_) as Hnd' by (rewrite <- Hb, Ec; done).
  split.
  - intros v Hv. destruct (decide (v = next)) as [->|]; [rewrite lookup_insert_eq; eauto|rewrite lookup_insert_ne by done; auto].
  - intros v. destruct (decide (v = next)) as [->|]; [rewrite lookup_insert_eq; set_solver|]. rewrite lookup_insert_ne, Hg by done. set_solver.
  - intros v. destruct (decide (v = next)) as [->|]; [rewrite lookup_insert_eq; set_solver|]. by rewrite lookup_insert_ne, Hb.
  - done.
  - cbn [chain]. apply lookup_lt_Some in En as Hlt. split; [eauto|]. split; [lia|]. split; [done|]. split; [intros; lia|].
    split; [done|]. split; [lia|]. split; [by intros w [= <-]|]. split; [|done]. intros k w Hk' Hw. destruct (decide (k = idx)) as [->|]; [right; congruence|]. destruct (Hpast k w) as [|]; [lia|done|auto|done].
  - cbn in *. by constructor.
Qed.
Lemma searching_past color node idx rest done_ next :
  searching color ((node, idx) :: rest) done_ -> adj node !! idx = Some next -> color !! next = Some Black ->
  searching color ((node, S idx) :: rest) done_.
Proof.
  intros [Hk Hg Hb Ho (Hin & Hle & Hab & Hpast & Hrest) Hnd] En Ec. apply lookup_lt_Some in En as Hlt. split; [done..| |done].
  cbn [chain]. split_and!; [done|lia|done| |done]. intros k w Hk' Hw. destruct (decide (k = idx)) as [->|].
  - left. apply Hb. congruence.
  - apply (Hpast k w); [lia|done].
Qed.
Lemma searching_pop color node idx rest done_ :
  searching color ((node, idx) :: rest) done_ -> adj node !! idx = None -> searching (<[node := Black]> color) rest (node :: done_).
Proof.
  intros [Hk Hg Hb Ho (Hin & Hle & Hab & Hpast & Hrest) Hnd] En. apply lookup_ge_None in En. cbn in Hnd. apply NoDup_cons in Hnd as [Hn Hnd]. split.
  - intros v Hv. destruct (decide (v = node)) as [->|]; [rewrite lookup_insert_eq; eauto|rewrite lookup_insert_ne by done; auto].
  - intros v. destruct (decide (v = node)) as [->|]; [rewrite lookup_insert_eq; naive_solver|]. rewrite lookup_insert_ne, Hg by done. cbn. set_solver.
  - intros v. destruct (decide (v = node)) as [->|]; [rewrite lookup_insert_eq; set_solver|]. rewrite lookup_insert_ne, Hb by done. set_solver.
  - cbn [ordered]. split; [|done]. intros w Hw. apply list_elem_of_lookup_1 in Hw as [k Hw']. destruct (Hpast k w) as [|]; [|done..].
    apply lookup_lt_Some in Hw'. lia.
  - destruct rest as [|[u i] rest]; [done|]. cbn [chain] in Hrest |- *. destruct Hrest as (R1 & R2 & R3 & R4 & R5). split_and!; [done..|naive_solver| |].
    + intros k w Hk' Hw. destruct (R4 k w Hk' Hw) as [|[= <-]]; left; [by right|left].
    + eapply chain_mono; [|exact R5]. intros; by right.
  - done.
Qed.

Lemma dfs_spec fuel color stack done_ : searching color stack done_ -> (weight color stack <= fuel)%nat ->
  match dfs adj fuel color stack with
  | DfsDone color' => exists done', searching color' [] (done' ++ done_) /\ (forall v, v ∈ stack.*1 -> v ∈ done')
  | DfsCycle next => tc steps_to next next
  | DfsFuel => False
  end.
Proof.
  revert color stack done_. induction fuel as [|fuel IH]; intros color [|[node idx] rest] done_ Hs Hf; cbn [dfs].
  1,3: exists []; split; [done|intros v Hv; by apply not_elem_of_nil in Hv].
  all: destruct (sg_chain _ _ _ Hs) as (Hin & Hle & _ & _ & Hrest); unfold weight in Hf; rewrite fmap_cons in Hf;
    change (sum_list (frame_weight (node, idx) :: (frame_weight <$> rest))) with (S (length (adj node)) - idx + sum_list (frame_weight <$> rest))%nat in Hf.
  { lia. }
  destruct (adj node !! idx) as [next|] eqn:En.
  - pose proof (list_elem_of_lookup_2 _ _ _ En) as Hna. apply lookup_lt_Some in En as Hlt.
    destruct (sg_known _ _ _ Hs next) as [[] Ec]; [eauto|..]; rewrite Ec; cbn [default from_option id].
    + specialize (IH _ _ _ (searching_push _ _ _ _ _ _ Hs En Ec)).
      assert (weight (<[next := Gray]> color) ((next, 0%nat) :: (node, S idx) :: rest) <= fuel)%nat as Hw.
      { unfold weight. pose proof (white_weight_insert color next Gray Ec ltac:(done) ltac:(eauto)) as Hww. rewrite !fmap_cons, !sum_list_cons. unfold frame_weight at 1 2. cbn [fst snd]. lia. }
      specialize (IH Hw). destruct (dfs adj fuel _ _); [|done..]. destruct IH as (d & Hd & Hin'). exists d. split; [done|]. cbn in *. set_solver.
    + cbn in Hrest. apply (sg_gray _ _ _ Hs) in Ec. cbn in Ec. apply elem_of_cons in Ec as [->|Hr]; [by apply tc_once|].
      eapply tc_r; [by eapply chain_reaches|done].
    + specialize (IH _ _ _ (searching_past _ _ _ _ _ _ Hs En Ec)).
      assert (weight color ((node, S idx) :: rest) <= fuel)%nat as Hw. { unfold weight. rewrite !fmap_cons, !sum_list_cons. unfold frame_weight at 1. cbn [fst snd]. lia. }
      specialize (IH Hw). destruct (dfs adj fuel _ _); [|done..]. destruct IH as (d & Hd & Hin'). exists d. split; [done|]. cbn in *. set_solver.
  - specialize (IH _ _ _ (searching_pop _ _ _ _ _ Hs En)).
    assert (color !! node <> Some White) as Hnw. { assert (color !! node = Some Gray) as -> by (apply (sg_gray _ _ _ Hs); left). done. }
    assert (weight (<[node := Black]> color) rest <= fuel)%nat as Hw. { unfold weight. rewrite white_weight_other by done. lia. }
    specialize (IH Hw). destruct (dfs adj fuel _ _); [|done..]. destruct IH as (d & Hd & Hin'). exists (d ++ [node]). rewrite <- app_assoc. split; [done|].
    cbn. set_solver.
Qed.

Lemma weight_start color s done_ : searching color [] done_ -> s ∈ ids -> color !! s = Some White ->
  searching (<[s := Gray]> color) [(s, 0%nat)] done_ /\ (weight (<[s := Gray]> color) [(s, 0%nat)] <= sum_list (white_weight color <$> ids))%nat.
Proof.
  intros [Hk Hg Hb Ho Hc Hnd] Hs Ec. split; [split|].
  - intros v Hv. destruct (decide (v = s)) as [->|]; [rewrite lookup_insert_eq; eauto|rewrite lookup_insert_ne by done; auto].
  - intros v. cbn. destruct (decide (v = s)) as [->|]; [rewrite lookup_insert_eq; set_solver|]. rewrite lookup_insert_ne, Hg by done. set_solver.
  - intros v. destruct (decide (v = s)) as [->|]; [|by rewrite lookup_insert_ne, Hb]. rewrite lookup_insert_eq, <- Hb, Ec. done.
  - done.
  - cbn. split_and!; try done; try lia.
  - cbn. by apply NoDup_singleton.
  - unfold weight. pose proof (white_weight_insert color s Gray Ec ltac:(done) Hs). rewrite fmap_cons, sum_list_cons. unfold frame_weight at 1. cbn [fst snd fmap list_fmap].
    change (sum_list []) with 0%nat. lia.
Qed.

Lemma white_weight_total color : (sum_list (white_weight color <$> ids) <= sum_list ((fun v => S (S (length (adj v)))) <$> ids))%nat.
Proof.
  clear. induction ids as [|x l IH]; [done|]. rewrite !fmap_cons, !sum_list_cons. unfold white_weight at 1. case_decide; lia.
Qed.

Lemma dfs_all_spec fuel starts color done_ :
  (sum_list ((fun v => S (S (length (adj v)))) <$> ids) <= fuel)%nat -> (forall s, s ∈ starts -> s ∈ ids) ->
  searching color [] done_ -> (forall v, v ∈ ids -> v ∈ starts \/ v ∈ done_) ->
  match dfs_all adj fuel starts color with
  | DfsDone color' => exists done', ordered done' /\ forall v, v ∈ ids -> v ∈ done'
  | DfsCycle next => tc steps_to next next
  | DfsFuel => False
  end.
Proof.
  intros Hf. revert color done_. induction starts as [|s starts IH]; intros color done_ Hs Hd Hall; cbn [dfs_all].
  - exists done_. split; [apply (sg_ordered _ _ _ Hd)|]. intros v Hv. destruct (Hall v Hv) as [H|]; [by apply not_elem_of_nil in H|done].
  - case_decide as Ew.
    + destruct (weight_start color s done_ Hd ltac:(apply Hs; left) Ew) as [Hd' Hw].
      pose proof (dfs_spec fuel _ _ _ Hd') as Hdfs. pose proof (white_weight_total color).
      destruct (dfs adj fuel _ _) as [color'|next|]; [|apply Hdfs; lia..]. destruct Hdfs as (d & Hsd & Hin); [lia|].
      apply (IH color' (d ++ done_)); [intros; apply Hs; by right|done|]. intros v Hv. rewrite elem_of_app.
      destruct (Hall v Hv) as [[->|]%elem_of_cons|]; [right; left; apply Hin; left|auto..].
    + apply (IH color done_); [intros; apply Hs; by right|done|]. intros v Hv. destruct (Hall v Hv) as [[->|]%elem_of_cons|]; [|auto..].
      right. apply (sg_black _ _ _ Hd). destruct (sg_known _ _ _ Hd s Hv) as [[] Ec]; [congruence| |done].
      apply (sg_gray _ _ _ Hd) in Ec. by apply not_elem_of_nil in Ec.
Qed.

Lemma ordered_closed l v w : ordered l -> v ∈ l -> tc steps_to v w -> w ∈ l.
Proof.
  intros Ho Hv Ht. assert (forall a b, a ∈ l -> steps_to a b -> b ∈ l) as Hcl.
  { clear v w Hv Ht. induction l as [|x l IH]; intros a b Ha Hab; [by apply not_elem_of_nil in Ha|]. destruct Ho as [Hx Ho].
    apply elem_of_cons in Ha as [->|Ha]; right; [by apply Hx|by eapply IH]. }
  induction Ht; eauto.
Qed.
Lemma ordered_acyclic l v : ordered l -> v ∈ l -> ~ tc steps_to v v.
Proof.
  induction l as [|x l IH]; intros Ho Hv Ht; [by apply not_elem_of_nil in Hv|]. destruct Ho as [Hx Ho].
  destruct (decide (v ∈ l)) as [Hvl|Hvl]; [by eapply IH|]. apply elem_of_cons in Hv as [->|]; [|done]. apply Hvl.
  inversion Ht as [? ? H|? y ? H Hr]; subst; [by apply Hx|]. eapply ordered_closed; [done| |done]. by apply Hx.
Qed.
End Dfs.

Definition acyclic (es : list Edge) : Prop := forall v, ~ tc (edge es) v v.

Lemma searching_start adj ids : searching adj ids (list_to_map ((fun v => (v, White)) <$> ids)) [] [].
Proof.
  assert (forall v c, (list_to_map ((fun v => (v, White)) <$> ids) : gmap string Color) !! v = Some c -> c = White) as Hw.
  { intros v c Hc. apply elem_of_list_to_map_2, list_elem_of_fmap in Hc as (? & [= -> ->] & _). done. }
  split; try done.
  - intros v Hv. destruct (list_to_map _ !! v) eqn:E; [eauto|]. apply not_elem_of_list_to_map in E. destruct E.
    rewrite <- list_fmap_compose. apply list_elem_of_fmap. eauto.
  - intros v. split; [by intros ?%Hw|]. intros H. by apply not_elem_of_nil in H.
  - intros v. split; [by intros ?%Hw|]. intros H. by apply not_elem_of_nil in H.
  - constructor.
Qed.

(** The search accepts exactly the graphs without a cycle. *)
Lemma detect_cycle_spec t : NoDup (node_ids t) -> (forall e, e ∈ t_edges t -> e_from e ∈ node_ids t /\ e_to e ∈ node_ids t) ->
  (exists l, ordered (successors (t_edges t)) l /\ (forall v, v ∈ node_ids t -> v ∈ l)) /\ acyclic (t_edges t) /\ detect_cycle t = Ok tt \/
  (exists v, tc (edge (t_edges t)) v v /\ detect_cycle t = topology_err ("topology has a cycle through node '" +:+ v +:+ "'")).
Proof.
  intros Hnd He. unfold detect_cycle. change (successors (t_edges t)) with (neighbours e_from e_to (t_edges t)).
  assert (forall a b, tc (steps_to (neighbours e_from e_to (t_edges t))) a b <-> tc (edge (t_edges t)) a b) as Htc.
  { assert (forall a b, steps_to (neighbours e_from e_to (t_edges t)) a b <-> edge (t_edges t) a b) as Hs by apply linked_successors.
    intros a b. split; induction 1 as [? ? H|? ? ? H _ IH]; try (apply tc_once; by apply Hs); (eapply tc_l; [by apply Hs|exact IH]). }
  pose proof (dfs_all_spec (neighbours e_from e_to (t_edges t)) (node_ids t) Hnd) as Hd.
  specialize (Hd ltac:(intros v w _ (e & Hin & _ & <-)%elem_of_neighbours; by apply He)).
  specialize (Hd (dfs_fuel t) (node_ids t) (list_to_map ((fun v => (v, White)) <$> node_ids t)) []).
  specialize (Hd ltac:(unfold dfs_fuel; change (successors (t_edges t)) with (neighbours e_from e_to (t_edges t)); lia) ltac:(done) (searching_start _ _) ltac:(auto)).
  destruct (dfs_all _ _ _ _) as [color|next|]; [left|right|done].
  - destruct Hd as (l & Hl & Hall). split; [eauto|]. split; [|done]. intros v Hv. eapply (ordered_acyclic _ l v); [done| |by apply Htc].
    apply Hall. inversion Hv as [? ? (e & Hin & <- & _)|? ? ? (e & Hin & <- & _) _]; by apply He.
  - exists next. split; [by apply Htc|done].
Qed.

(** ** Validation *)

Lemma bind_ok (a b : result unit FaucetError) : (let? _ := a in b) = Ok tt <-> a = Ok tt /\ b = Ok tt.
Proof. destruct a as [[]|]; cbn; naive_solver. Qed.
Lemma first_err_ok {A} (check : A -> result unit FaucetError) l : first_err check l = Ok tt <-> forall a, a ∈ l -> check a = Ok tt.
Proof. induction l as [|a l IH]; cbn [first_err]; [set_solver|]. rewrite bind_ok, IH. set_solver. Qed.
Lemma unique_ids_ok seen ids : unique_ids seen ids = Ok tt <-> NoDup ids /\ forall x, x ∈ ids -> x ∉ seen.
Proof.
  revert seen. induction ids as [|x ids IH]; intros seen; cbn [unique_ids].
  - split; [|done]. intros _. split; [constructor|intros x Hx; by apply not_elem_of_nil in Hx].
  - unfold mem. case_bool_decide as Hx; [split; [done|]; intros [_ H]; by destruct (H x ltac:(left))|]. rewrite IH, NoDup_cons. set_solver.
Qed.
Lemma arity_ok id k a b x : arity id k a b x = Ok tt <-> a = true /\ b = true.
Proof. unfold arity. destruct a, b; naive_solver. Qed.
Lemma check_endpoints_ok ids e : check_endpoints ids e = Ok tt <-> e_from e ∈ ids /\ e_to e ∈ ids.
Proof. unfold check_endpoints, mem. repeat case_bool_decide; naive_solver. Qed.
Lemma if_err_ok (b : bool) (msg : string) : (if b then Ok tt else topology_err msg) = Ok tt <-> b = true.
Proof. destruct b; naive_solver. Qed.

(** What each kind of node asks of its edges. *)
Definition degrees_ok (es : list Edge) (n : Node) : Prop :=
  let i := length (predecessors es (n_id n)) in
  let o := length (successors es (n_id n)) in
  match n_kind n with
  | NSource s => i = 0%nat /\ o = 1%nat /\ sn_destructive s = false
  | NTransform _ => i = 1%nat /\ o = 1%nat
  | NTee _ fanout => i = 1%nat /\ (2 <= o)%nat /\ forall f, fanout = Some f -> f = Z.of_nat o
  | NMerge => (2 <= i)%nat /\ o = 1%nat
  | NJoin j => i = 2%nat /\ o = 1%nat /\ jn_build_edge j ∈ in_labels es (n_id n) /\ jn_probe_edge j ∈ in_labels es (n_id n) /\ jn_build_edge j <> jn_probe_edge j
  | NSink => i = 1%nat /\ o = 0%nat
  end.

(** An edge into [id] with a label. *)
Definition feeds (es : list Edge) (id label : string) (e : Edge) : Prop := e ∈ es /\ e_to e = id /\ e_label e = Some label.

Record well_formed (t : Topology) : Prop := {
  wf_ids : NoDup (node_ids t);
  wf_ends : forall e, e ∈ t_edges t -> e_from e ∈ node_ids t /\ e_to e ∈ node_ids t;
  wf_degrees : forall n, n ∈ t_nodes t -> degrees_ok (t_edges t) n;
  wf_source : exists n, n ∈ t_nodes t /\ is_source (n_kind n) = true;
  wf_sink : exists n, n ∈ t_nodes t /\ is_sink (n_kind n) = true;
  wf_acyclic : acyclic (t_edges t);
  wf_reaches : forall n, n ∈ t_nodes t -> is_source (n_kind n) = true ->
    exists k, k ∈ t_nodes t /\ is_sink (n_kind k) = true /\ rtc (edge (t_edges t)) (n_id n) (n_id k);
  wf_reached : forall k, k ∈ t_nodes t -> is_sink (n_kind k) = true ->
    exists n, n ∈ t_nodes t /\ is_source (n_kind n) = true /\ rtc (edge (t_edges t)) (n_id n) (n_id k);
  wf_joins : forall n j eb ep x, n ∈ t_nodes t -> n_kind n = NJoin j ->
    feeds (t_edges t) (n_id n) (jn_build_edge j) eb -> feeds (t_edges t) (n_id n) (jn_probe_edge j) ep ->
    rtc (edge (t_edges t)) x (e_from eb) -> rtc (edge (t_edges t)) x (e_from ep) -> False;
}.

Lemma elem_of_in_edges es id e : e ∈ in_edges es id <-> e ∈ es /\ e_to e = id.
Proof. unfold in_edges. rewrite !list_elem_of_In, List.filter_In. unfold string_eqb. by rewrite bool_decide_eq_true. Qed.
Lemma elem_of_in_labels es id l : l ∈ in_labels es id <-> exists e, feeds es id l e.
Proof. unfold in_labels, feeds. rewrite list_elem_of_omap. setoid_rewrite elem_of_in_edges. naive_solver. Qed.
Lemma elem_of_ids_where p t id : id ∈ ids_where p t <-> exists n, n ∈ t_nodes t /\ p (n_kind n) = true /\ n_id n = id.
Proof. unfold ids_where. rewrite list_elem_of_fmap. setoid_rewrite list_elem_of_In. setoid_rewrite List.filter_In. naive_solver. Qed.

Lemma check_kind_ok dbg es n : check_kind dbg es n = Ok tt <-> degrees_ok es n.
Proof.
  unfold check_kind, degrees_ok. destruct (n_kind n) as [s|f|c fanout| |j|]; rewrite ?bind_ok, ?arity_ok, ?Nat.eqb_eq, ?Nat.leb_le.
  - destruct (sn_destructive s); naive_solver.
  - done.
  - destruct fanout as [f|]; [destruct (Z.eqb_spec f (Z.of_nat (length (successors es (n_id n)))))|]; naive_solver.
  - done.
  - unfold validate_join_edges, want_label, mem, string_eqb. rewrite !bind_ok, !if_err_ok, !bool_decide_eq_true.
    case_bool_decide; naive_solver.
  - done.
Qed.

Lemma check_reachability_ok t : check_reachability t = Ok tt <->
  (forall n, n ∈ t_nodes t -> is_source (n_kind n) = true -> exists k, k ∈ t_nodes t /\ is_sink (n_kind k) = true /\ rtc (edge (t_edges t)) (n_id n) (n_id k)) /\
  (forall k, k ∈ t_nodes t -> is_sink (n_kind k) = true -> exists n, n ∈ t_nodes t /\ is_source (n_kind n) = true /\ rtc (edge (t_edges t)) (n_id n) (n_id k)).
Proof.
  unfold check_reachability. rewrite bind_ok, !first_err_ok. setoid_rewrite if_err_ok. setoid_rewrite reaches_forward. setoid_rewrite reaches_backward.
  setoid_rewrite elem_of_list_to_set. setoid_rewrite elem_of_ids_where. split; intros [H1 H2]; split.
  - intros n Hn Hs. destruct (H1 (n_id n)) as (x & (k & ? & ? & <-) & ?); eauto.
  - intros n Hn Hs. destruct (H2 (n_id n)) as (x & (k & ? & ? & <-) & ?); eauto.
  - intros ? (n & Hn & Hs & <-). destruct (H1 n Hn Hs) as (k & ? & ? & ?). exists (n_id k). eauto.
  - intros ? (n & Hn & Hs & <-). destruct (H2 n Hn Hs) as (k & ? & ? & ?). exists (n_id k). eauto.
Qed.

(** A join has one edge per label. *)
Lemma join_side_spec es id label x : (exists e, feeds es id label e) -> (forall e e', feeds es id label e -> feeds es id label e' -> e = e') ->
  exists s, join_side es id label = Some s /\ (x ∈ s <-> exists e, feeds es id label e /\ rtc (edge es) x (e_from e)).
Proof.
  intros [e0 He0] Hu. unfold join_side. destruct (List.find (labelled label) (in_edges es id)) as [e|] eqn:Ef.
  - apply List.find_some in Ef as [Hin Hl]. unfold labelled in Hl. apply bool_decide_eq_true in Hl.
    rewrite <- list_elem_of_In, elem_of_in_edges in Hin. assert (feeds es id label e) as He by (split_and!; naive_solver).
    eexists. split; [done|]. rewrite elem_of_union, elem_of_singleton, ancestors_of_spec. split.
    + intros Hx. exists e. split; [done|]. destruct Hx as [->|]; [done|by apply tc_rtc].
    + intros (e' & He' & Hr). rewrite (Hu e e' He He'). apply rtc_inv_r in Hr as [->|(y & Hr & Hy)]; [by left|]. right.
      eapply tc_rtc_l; [done|by apply tc_once].
  - destruct He0 as (Hin & Hto & Hl). pose proof (List.find_none _ _ Ef e0) as Hn. rewrite <- list_elem_of_In, elem_of_in_edges in Hn.
    specialize (Hn ltac:(done)). unfold labelled in Hn. by apply bool_decide_eq_false in Hn.
Qed.

Lemma join_edges_unique es n j l e e' : degrees_ok es n -> n_kind n = NJoin j -> l = jn_build_edge j \/ l = jn_probe_edge j ->
  feeds es (n_id n) l e -> feeds es (n_id n) l e' -> e = e'.
Proof.
  unfold degrees_ok. intros Hd Ek Hl He He'. rewrite Ek in Hd. destruct Hd as (Hi & _ & Hb & Hp & Hne).
  apply elem_of_in_labels in Hb as [eb Hb], Hp as [ep Hp].
  unfold predecessors in Hi. rewrite length_fmap in Hi. unfold feeds in *. rewrite !(and_assoc (_ ∈ _)), <- !elem_of_in_edges in *.
  destruct (in_edges es (n_id n)) as [|a [|b [|]]]; try done. rewrite !elem_of_cons in *.
  destruct He as [[->|[->|H]] E], He' as [[->|[->|H']] E']; try done; try (by apply not_elem_of_nil in H); try (by apply not_elem_of_nil in H');
  destruct Hb as [[->|[->|H]] Eb], Hp as [[->|[->|H']] Ep]; try (by apply not_elem_of_nil in H); try (by apply not_elem_of_nil in H'); destruct Hl as [-> | ->]; congruence.
Qed.

Lemma check_join_ok es n : degrees_ok es n -> check_join es n = Ok tt <->
  forall j eb ep x, n_kind n = NJoin j -> feeds es (n_id n) (jn_build_edge j) eb -> feeds es (n_id n) (jn_probe_edge j) ep ->
    rtc (edge es) x (e_from eb) -> rtc (edge es) x (e_from ep) -> False.
Proof.
  intros Hd. unfold check_join. destruct (n_kind n) as [| | | |j|] eqn:Ek; try (split; [by intros|done]).
  pose proof Hd as Hd'. unfold degrees_ok in Hd'. rewrite Ek in Hd'. destruct Hd' as (_ & _ & Hb & Hp & _).
  apply elem_of_in_labels in Hb, Hp.
  assert (forall x, exists s, join_side es (n_id n) (jn_build_edge j) = Some s /\ (x ∈ s <-> exists e, feeds es (n_id n) (jn_build_edge j) e /\ rtc (edge es) x (e_from e))) as Hsb.
  { intros x. apply join_side_spec; [done|]. intros e e'. eapply join_edges_unique; eauto. }
  assert (forall x, exists s, join_side es (n_id n) (jn_probe_edge j) = Some s /\ (x ∈ s <-> exists e, feeds es (n_id n) (jn_probe_edge j) e /\ rtc (edge es) x (e_from e))) as Hsp.
  { intros x. apply join_side_spec; [done|]. intros e e'. eapply join_edges_unique; eauto. }
  destruct (Hsb EmptyString) as (sb & Eb & _), (Hsp EmptyString) as (sp & Ep & _). rewrite Eb, Ep in *.
  destruct (elements (sb ∩ sp)) as [|y ys] eqn:Ee.
  - split; [|done]. intros _ j' eb ep x [= <-] Hfb Hfp Hrb Hrp. apply elements_empty_inv in Ee.
    destruct (Hsb x) as (? & [= <-] & Hxb), (Hsp x) as (? & [= <-] & Hxp). set_solver.
  - split; [done|]. intros H. exfalso. assert (y ∈ sb ∩ sp) as [Hyb Hyp]%elem_of_intersection by (apply elem_of_elements; rewrite Ee; left).
    destruct (Hsb y) as (? & [= <-] & Hxb), (Hsp y) as (? & [= <-] & Hxp). apply Hxb in Hyb as (eb & ? & ?). apply Hxp in Hyp as (ep & ? & ?). by eapply (H j eb ep y).
Qed.

Lemma validate_iff debug_labels t : validate debug_labels t = Ok tt <-> well_formed t.
Proof.
  unfold validate. destruct (is_nil (t_nodes t)) eqn:En.
  { split; [done|]. intros W. destruct (wf_source _ W) as (n & Hn & _). destruct (t_nodes t); [by apply not_elem_of_nil in Hn|done]. }
  rewrite !bind_ok, unique_ids_ok, !first_err_ok. setoid_rewrite check_endpoints_ok. setoid_rewrite check_kind_ok.
  assert (forall p, is_nil (ids_where p t) = false <-> exists n, n ∈ t_nodes t /\ p (n_kind n) = true) as Hnil.
  { intros p. destruct (ids_where p t) as [|x l] eqn:E; cbn; split; try done.
    - intros (n & Hn & Hp). assert (n_id n ∈ ids_where p t) as Hx by (apply elem_of_ids_where; eauto). rewrite E in Hx. by apply not_elem_of_nil in Hx.
    - intros _. assert (x ∈ ids_where p t) as (n & ? & ? & _)%elem_of_ids_where by (rewrite E; left). eauto. }
  split.
  - intros ((Hnd & _) & He & Hk & Hrest). destruct (is_nil (ids_where is_source t)) eqn:Es; [done|]. destruct (is_nil (ids_where is_sink t)) eqn:Ek; [done|].
    rewrite !bind_ok, check_reachability_ok, first_err_ok in Hrest. destruct Hrest as (Hc & [Hr1 Hr2] & Hj).
    destruct (detect_cycle_spec t Hnd He) as [(_ & Ha & _)|(v & _ & Ev)]; [|by rewrite Ev in Hc].
    split; try done; [by apply Hnil..|]. intros n j eb ep x Hn. pose proof (Hj n Hn) as Hjn. rewrite check_join_ok in Hjn by auto. apply Hjn.
  - intros [Hnd He Hk Hs Hsk Ha Hr1 Hr2 Hj]. apply Hnil in Hs as ->. apply Hnil in Hsk as ->.
    rewrite !bind_ok, check_reachability_ok, first_err_ok. split_and!; try done; [intros x _ Hx; by apply not_elem_of_nil in Hx| |].
    + destruct (detect_cycle_spec t Hnd He) as [(_ & _ & ->)|(v & Hv & _)]; [done|by destruct (Ha v)].
    + intros n Hn. apply check_join_ok; [auto|]. intros j eb ep x. by apply Hj.
Qed.

(** C11: [validate] accepts exactly the well-formed graphs: unique ids, edges between
    nodes of the graph, the degrees and labels of each kind of node, at least one
    source and one sink, no cycle, every source with a path to a sink and every sink
    with one from a source, and no node with paths into both sides of a join. *)
Theorem validate_exact debug_labels t : validate debug_labels t = Ok tt <-> well_formed t.
Proof. apply validate_iff. Qed.
