(* ===== verification/Merge.v ===== *)
(** The merge node (crates/core/src/topology.rs): [BookmarkGate] and the loop of
    [run_merge_node].

    The loop is given what [select_all] yields: pages and closings, each with the
    number of its input. The counters are [u64]s that count pages. *)
From S2P Require Import Prelude Errors Json Engine Topology.

Local Open Scope nat_scope.

Record BookmarkGate := MkGate {
  delivered : list nat;
  closed : list bool;
  released : nat;
  awaiting : list Value;
}.
Definition gate_new (inputs : nat) : BookmarkGate := MkGate (replicate inputs 0) (replicate inputs false) 0 [].

(** [release]: the loop pops while a position is below every live input's count. *)
Fixpoint release_loop (live_min released : nat) (awaiting : list Value) (out : option Value) : option Value * nat * list Value :=
  match awaiting with
  | [] => (out, released, [])
  | bm :: rest => if released <? live_min then release_loop live_min (S released) rest (Some bm) else (out, released, awaiting)
  end.
Definition live_counts (g : BookmarkGate) : list nat := (List.filter (fun p => negb p.2) (zip (delivered g) (closed g))).*1.
Definition min_of (l : list nat) : option nat := match l with [] => None | x :: l => Some (foldl Nat.min x l) end.
Definition release (g : BookmarkGate) : option Value * BookmarkGate :=
  let live_min := default (released g + length (awaiting g)) (min_of (live_counts g)) in
  let '(out, r, rest) := release_loop live_min (released g) (awaiting g) None in
  (out, MkGate (delivered g) (closed g) r rest).
Definition arrive (g : BookmarkGate) (input : nat) (bookmark : Value) : option Value * BookmarkGate :=
  let count := S (default 0 (delivered g !! input)) in
  let seen := released g + length (awaiting g) in
  release (MkGate (<[input := count]> (delivered g)) (closed g) (released g)
             (if seen <? count then awaiting g ++ [bookmark] else awaiting g)).
Definition close (g : BookmarkGate) (input : nat) : option Value * BookmarkGate :=
  release (MkGate (delivered g) (<[input := true]> (closed g)) (released g) (awaiting g)).

(** One turn of the loop: the page to forward, if any. *)
Definition merge_step (mode : MergeMode) (g : BookmarkGate) (ev : nat * option StreamPage) : option StreamPage * BookmarkGate :=
  match mode, ev with
  | Gated, (input, None) =>
      let '(out, g) := close g input in
      (match out with Some bm => Some (MkStreamPage [] (Some bm)) | None => None end, g)
  | _, (_, None) => (None, g)
  | Gated, (input, Some p) =>
      match sp_bookmark p with
      | Some bm => let '(out, g) := arrive g input bm in (Some (MkStreamPage (sp_records p) out), g)
      | None => (Some (MkStreamPage (sp_records p) None), g)
      end
  | Strip, (_, Some p) => (Some (MkStreamPage (sp_records p) None), g)
  | Passthrough, (_, Some p) => (Some p, g)
  end.
Fixpoint merge_run (mode : MergeMode) (g : BookmarkGate) (evs : list (nat * option StreamPage)) : list StreamPage * BookmarkGate :=
  match evs with
  | [] => ([], g)
  | ev :: evs =>
      let '(out, g) := merge_step mode g ev in
      let '(outs, g) := merge_run mode g evs in
      (option_list out ++ outs, g)
  end.

(** ** What arrives *)

Definition bookmarks_of (pages : list StreamPage) : list Value := omap sp_bookmark pages.
(** The pages input [i] delivered, and whether it closed. *)
Definition pages_from (i : nat) (evs : list (nat * option StreamPage)) : list StreamPage :=
  omap (fun ev => if decide (ev.1 = i) then ev.2 else None) evs.
Definition arrived (evs : list (nat * option StreamPage)) : list StreamPage := omap snd evs.

Definition has_closed (i : nat) (evs : list (nat * option StreamPage)) : bool := existsb (fun ev => (ev.1 =? i) && is_none ev.2) evs.

(** The inputs carry copies of one source's positions [bs]: each delivers them in
    order, and closes only after all of them. *)
Inductive copies (n : nat) (bs : list Value) : list (nat * option StreamPage) -> Prop :=
| copies_nil : copies n bs []
| copies_page evs i p : copies n bs evs -> i < n -> has_closed i evs = false ->
    (forall b, sp_bookmark p = Some b -> bs !! length (bookmarks_of (pages_from i evs)) = Some b) -> copies n bs (evs ++ [(i, Some p)])
| copies_close evs i : copies n bs evs -> i < n -> length (bookmarks_of (pages_from i evs)) = length bs -> copies n bs (evs ++ [(i, None)]).

Definition count_from (i : nat) evs : nat := length (bookmarks_of (pages_from i evs)).

(** ** Facts *)

Lemma release_loop_spec m r l out :
  release_loop m r l out =
  let k := Nat.min (m - r) (length l) in (match k with O => out | S k' => l !! k' end, r + k, drop k l).
Proof.
  revert r out. induction l as [|b l IH]; intros r out; cbn [release_loop length].
  - rewrite Nat.min_0_r. cbn. by rewrite Nat.add_0_r.
  - destruct (Nat.ltb_spec r m) as [Hlt|Hge].
    + rewrite IH. replace (m - r) with (S (m - S r)) by lia. cbn zeta. rewrite <- Nat.succ_min_distr.
      set (k := Nat.min (m - S r) (length l)). cbn [drop lookup list_lookup]. rewrite Nat.add_succ_r. by destruct k.
    + replace (m - r) with 0 by lia. cbn. by rewrite Nat.add_0_r.
Qed.

Lemma min_of_spec l m : min_of l = Some m <-> m ∈ l /\ forall x, x ∈ l -> m <= x.
Proof.
  destruct l as [|x l]; cbn [min_of]; [split; [done|intros [H _]; by apply not_elem_of_nil in H]|].
  assert (foldl Nat.min x l ∈ x :: l /\ forall y, y ∈ x :: l -> foldl Nat.min x l <= y) as [Hin Hle].
  { revert x. induction l as [|y l IH]; intros x; cbn [foldl]; [set_solver by lia|]. destruct (IH (Nat.min x y)) as [Hin Hle]. split.
    - apply elem_of_cons in Hin as [->|Hin]; [|by do 2 right]. destruct (Nat.min_spec x y) as [[_ ->]|[_ ->]]; set_solver.
    - pose proof (Hle (Nat.min x y) ltac:(left)). intros z [->|[->|Hz]%elem_of_cons]%elem_of_cons; [lia|lia|apply Hle; by right]. }
  split; [intros [= <-]; done|]. intros [Hm Hall]. f_equal. pose proof (Hall _ Hin). pose proof (Hle m Hm). lia.
Qed.

(** The counts of a gate after a sequence of events. *)
Lemma pages_from_app i evs ev : pages_from i (evs ++ [ev]) = pages_from i evs ++ (if decide (ev.1 = i) then option_list ev.2 else []).
Proof. unfold pages_from. rewrite omap_app. f_equal. cbn. case_decide; [|done]. by destruct (ev.2). Qed.


Lemma elem_of_live n (cnt : nat -> nat) (clo : nat -> bool) x :
  x ∈ (List.filter (fun p => negb p.2) (zip (cnt <$> seq 0 n) (clo <$> seq 0 n))).*1 <-> exists i, i < n /\ clo i = false /\ x = cnt i.
Proof.
  rewrite zip_with_fmap_l, zip_with_fmap_r, zip_with_diag. rewrite list_elem_of_fmap. setoid_rewrite list_elem_of_In. setoid_rewrite List.filter_In.
  setoid_rewrite <- list_elem_of_In. setoid_rewrite list_elem_of_fmap. setoid_rewrite elem_of_seq. split.
  - intros ([y c] & -> & (i & [= -> ->] & Hi) & Hc). exists i. cbn in *. apply negb_true_iff in Hc. split; [lia|done].
  - intros (i & Hi & Hc & ->). exists (cnt i, clo i). split; [done|]. split; [exists i; split; [done|lia]|]. cbn. by rewrite Hc.
Qed.

Lemma release_spec n bs cnt clo g m :
  delivered g = cnt <$> seq 0 n -> closed g = clo <$> seq 0 n -> released g <= m -> awaiting g = drop (released g) (take m bs) -> m <= length bs ->
  (forall i, i < n -> released g <= cnt i <= m) -> (forall i, i < n -> clo i = true -> cnt i = length bs) ->
  exists r, release g = (if released g <? r then bs !! (r - 1) else None, MkGate (delivered g) (closed g) r (drop r (take m bs))) /\
  released g <= r <= m /\ (forall i, i < n -> r <= cnt i) /\ (0 < n -> (forall i, i < n -> cnt i = length bs) -> r = length bs).
Proof.
  intros Hd Hc Hr Ha Hm Hcnt Hclo. assert (length (awaiting g) = m - released g) as Hlen by (rewrite Ha, length_drop, length_take; lia).
  unfold release. rewrite release_loop_spec, Hlen. cbn zeta. set (lm := default (released g + (m - released g)) (min_of (live_counts g))).
  assert (released g <= lm <= m /\ (forall i, i < n -> lm <= cnt i) /\ (0 < n -> (forall i, i < n -> cnt i = length bs) -> lm = length bs)) as (Hl1 & Hl2 & Hl3).
  { assert (forall x, x ∈ live_counts g <-> exists i, i < n /\ clo i = false /\ x = cnt i) as Hlive.
    { intros x. unfold live_counts. rewrite Hd, Hc. apply elem_of_live. }
    unfold lm. destruct (min_of (live_counts g)) as [x|] eqn:Em; cbn [default from_option id].
    - apply min_of_spec in Em as [Hx Hle]. apply Hlive in Hx as (i & Hi & Hci & ->). pose proof (Hcnt i Hi). split; [lia|]. split.
      + intros k Hk. destruct (clo k) eqn:Ek; [rewrite (Hclo k Hk Ek); lia|]. apply Hle, Hlive. eauto.
      + intros _ Hall. auto.
    - assert (forall i, i < n -> clo i = true) as Hall.
      { intros i Hi. destruct (clo i) eqn:E; [done|]. assert (cnt i ∈ live_counts g) as Hin by (apply Hlive; eauto).
        destruct (live_counts g); [by apply not_elem_of_nil in Hin|done]. }
      split; [lia|]. split.
      + intros i Hi. rewrite (Hclo i Hi) by auto. lia.
      + intros Hn _. pose proof (Hclo 0 Hn (Hall 0 Hn)). pose proof (Hcnt 0 Hn). lia. }
  replace (Nat.min (lm - released g) (m - released g)) with (lm - released g) by lia.
  exists lm. split; [|done]. replace (released g + (lm - released g)) with lm by lia. rewrite Ha, drop_drop. replace (released g + (lm - released g)) with lm by lia.
  f_equal. destruct (Nat.ltb_spec (released g) lm) as [Hlt|Hge].
  - destruct (lm - released g) as [|k] eqn:E; [lia|]. rewrite lookup_drop, lookup_take_lt by lia. f_equal. lia.
  - by replace (lm - released g) with 0 by lia.
Qed.

Record gate_at (n : nat) (bs : list Value) (evs : list (nat * option StreamPage)) (g : BookmarkGate) : Prop := {
  ga_delivered : delivered g = (fun i => count_from i evs) <$> seq 0 n;
  ga_closed : closed g = (fun i => has_closed i evs) <$> seq 0 n;
  ga_awaiting : exists m, released g <= m /\ awaiting g = drop (released g) (take m bs) /\ m <= length bs /\ (forall i, i < n -> count_from i evs <= m);
  ga_safe : forall i, i < n -> released g <= count_from i evs;
  ga_done : forall i, i < n -> has_closed i evs = true -> count_from i evs = length bs;
  ga_full : 0 < n -> (forall i, i < n -> count_from i evs = length bs) -> released g = length bs;
}.

Lemma count_from_app i evs ev : count_from i (evs ++ [ev]) = count_from i evs + (if decide (ev.1 = i) then length (bookmarks_of (option_list ev.2)) else 0).
Proof. unfold count_from, bookmarks_of. rewrite pages_from_app, omap_app, length_app. by case_decide. Qed.

Lemma insert_count n (f : nat -> nat) i x : i < n -> <[i := x]> (f <$> seq 0 n) = (fun k => if decide (k = i) then x else f k) <$> seq 0 n.
Proof.
  intros Hi. apply list_eq. intros k. rewrite list_lookup_fmap. destruct (decide (i = k)) as [->|Hne].
  - rewrite list_lookup_insert_eq by (by rewrite length_fmap, length_seq). rewrite lookup_seq_lt by done. cbn. by rewrite decide_True.
  - rewrite list_lookup_insert_ne, list_lookup_fmap by done. destruct (seq 0 n !! k) eqn:E; [|done]. apply lookup_seq in E as [-> _]. cbn. by rewrite decide_False.
Qed.

Lemma has_closed_app i evs ev : has_closed i (evs ++ [ev]) = has_closed i evs || ((ev.1 =? i) && is_none ev.2).
Proof. unfold has_closed. rewrite existsb_app. cbn. by rewrite orb_false_r. Qed.
Lemma insert_flag n (f : nat -> bool) i x : i < n -> <[i := x]> (f <$> seq 0 n) = (fun k => if decide (k = i) then x else f k) <$> seq 0 n.
Proof.
  intros Hi. apply list_eq. intros k. rewrite list_lookup_fmap. destruct (decide (i = k)) as [->|Hne].
  - rewrite list_lookup_insert_eq by (by rewrite length_fmap, length_seq). rewrite lookup_seq_lt by done. cbn. by rewrite decide_True.
  - rewrite list_lookup_insert_ne, list_lookup_fmap by done. destruct (seq 0 n !! k) eqn:E; [|done]. apply lookup_seq in E as [-> _]. cbn. by rewrite decide_False.
Qed.

Lemma gate_at_new n bs : gate_at n bs [] (gate_new n).
Proof.
  assert (forall A (x : A), replicate n x = (fun _ => x) <$> seq 0 n) as Hrep.
  { intros A x. apply list_eq. intros k. rewrite list_lookup_fmap. destruct (decide (k < n)).
    - by rewrite lookup_replicate_2, lookup_seq_lt by done.
    - rewrite (lookup_ge_None_2 (replicate n x)), lookup_seq_ge by (rewrite ?length_replicate; lia). done. }
  split; cbn; try (apply Hrep); try done; try lia.
  - exists 0. repeat split; try lia.
  - intros Hn Hall. by rewrite <- (Hall 0 Hn).
Qed.

(** Arrivals and closings of copies keep the gate in step; what is released is a
    position every input has delivered. *)
Lemma arrive_at n bs evs g i p b : gate_at n bs evs g -> i < n -> has_closed i evs = false -> sp_bookmark p = Some b -> bs !! count_from i evs = Some b ->
  let '(out, g') := arrive g i b in
  gate_at n bs (evs ++ [(i, Some p)]) g' /\ match out with Some x => 0 < released g' /\ bs !! (released g' - 1) = Some x | None => released g' = released g end.
Proof.
  intros [Hd Hc (m & Hrm & Ha & Hm & Hcm) Hs Hdn Hf] Hi Hopen Hb Hpos. pose proof (lookup_lt_Some _ _ _ Hpos) as Hlt.
  assert (forall k, count_from k (evs ++ [(i, Some p)]) = if decide (k = i) then S (count_from i evs) else count_from k evs) as Hcnt.
  { intros k. rewrite count_from_app. assert (length (bookmarks_of (option_list (Some p))) = 1) as Hone by (unfold bookmarks_of; cbn; by rewrite Hb).
    change ((i, Some p).2) with (Some p). rewrite Hone. cbn [fst].
    destruct (decide (i = k)) as [<-|]; [rewrite decide_True by done|rewrite (decide_False (P := k = i)) by congruence]; lia. }
  unfold arrive. assert (delivered g !! i = Some (count_from i evs)) as Ei by (rewrite Hd, list_lookup_fmap, lookup_seq_lt by done; done).
  rewrite Ei. cbn [default from_option id].
  assert (released g + length (awaiting g) = m) as Hseen by (rewrite Ha, length_drop, length_take; lia). rewrite Hseen.
  destruct (release_spec n bs (fun k => count_from k (evs ++ [(i, Some p)])) (fun k => has_closed k evs)
    (MkGate (<[i := S (count_from i evs)]> (delivered g)) (closed g) (released g) (if m <? S (count_from i evs) then awaiting g ++ [b] else awaiting g))
    (Nat.max m (S (count_from i evs)))) as (r & -> & Hr & Hrc & Hrf); cbn [delivered closed released awaiting].
  - rewrite Hd, insert_count by done. apply list_fmap_ext. intros ? k _. by rewrite Hcnt.
  - done.
  - lia.
  - pose proof (Hcm i Hi). destruct (Nat.ltb_spec m (S (count_from i evs))) as [Hlt'|Hge].
    + assert (count_from i evs = m) as Em by lia. rewrite Em in *. replace (Nat.max m (S m)) with (S m) by lia.
      rewrite (take_S_r _ _ _ Hpos), Ha, drop_app_le; [done|]. rewrite length_take. lia.
    + by replace (Nat.max m (S (count_from i evs))) with m by lia.
  - lia.
  - intros k Hk. rewrite Hcnt. pose proof (Hs k Hk). pose proof (Hcm k Hk). pose proof (Hs i Hi). case_decide; [subst|]; lia.
  - intros k Hk Hck. rewrite Hcnt. rewrite decide_False by congruence. auto.
  - split.
    + split; cbn [delivered closed released awaiting].
      * rewrite Hd, insert_count by done. apply list_fmap_ext. intros ? k _. by rewrite Hcnt.
      * rewrite Hc. apply list_fmap_ext. intros ? k _. rewrite has_closed_app. cbn. by rewrite andb_false_r, orb_false_r.
      * exists (Nat.max m (S (count_from i evs))). split_and!; [lia|done|lia|]. intros k Hk. rewrite Hcnt. pose proof (Hcm k Hk). case_decide; lia.
      * done.
      * intros k Hk Hck. rewrite has_closed_app in Hck. cbn in Hck. rewrite andb_false_r, orb_false_r in Hck. rewrite Hcnt, decide_False by congruence. auto.
      * done.
    + cbn [released] in *. destruct (Nat.ltb_spec (released g) r); [|lia]. destruct (bs !! (r - 1)) eqn:E; [split; [lia|done]|].
      apply lookup_ge_None in E. lia.
Qed.

Lemma close_at n bs evs g i : gate_at n bs evs g -> i < n -> count_from i evs = length bs ->
  let '(out, g') := close g i in
  gate_at n bs (evs ++ [(i, None)]) g' /\ match out with Some x => 0 < released g' /\ bs !! (released g' - 1) = Some x | None => released g' = released g end.
Proof.
  intros [Hd Hc (m & Hrm & Ha & Hm & Hcm) Hs Hdn Hf] Hi Hfull.
  assert (forall k, count_from k (evs ++ [(i, None)]) = count_from k evs) as Hcnt by (intros k; rewrite count_from_app; cbn; case_decide; lia).
  unfold close. destruct (release_spec n bs (fun k => count_from k evs) (fun k => if decide (k = i) then true else has_closed k evs)
    (MkGate (delivered g) (<[i := true]> (closed g)) (released g) (awaiting g)) m) as (r & -> & Hr & Hrc & Hrf); cbn [delivered closed released awaiting]; try done.
  - rewrite Hc, insert_flag by done. done.
  - intros k Hk. split; auto.
  - intros k Hk Hck. case_decide; [by subst|auto].
  - split.
    + split; cbn [delivered closed released awaiting].
      * rewrite Hd. apply list_fmap_ext. intros ? k _. by rewrite Hcnt.
      * rewrite Hc, insert_flag by done. apply list_fmap_ext. intros ? k _. rewrite has_closed_app. cbn. rewrite andb_true_r.
        destruct (decide (k = i)) as [->|]; [by rewrite Nat.eqb_refl, orb_true_r|]. destruct (Nat.eqb_spec i k); [congruence|]. by rewrite orb_false_r.
      * exists m. split_and!; [lia|done|done|]. intros k Hk. rewrite Hcnt. auto.
      * intros k Hk. rewrite Hcnt. auto.
      * intros k Hk Hck. rewrite Hcnt. rewrite has_closed_app in Hck. cbn in Hck. rewrite andb_true_r in Hck.
        destruct (Nat.eqb_spec i k) as [->|]; [done|]. rewrite orb_false_r in Hck. auto.
      * intros Hn Hall. apply Hrf; [done|]. intros k Hk. by rewrite <- (Hall k Hk), Hcnt.
    + cbn [released] in *. destruct (Nat.ltb_spec (released g) r); [|lia]. destruct (bs !! (r - 1)) eqn:E; [split; [lia|done]|].
      apply lookup_ge_None in E. lia.
Qed.

Lemma merge_run_app mode g evs ev : merge_run mode g (evs ++ [ev]) =
  let '(outs, g) := merge_run mode g evs in let '(out, g) := merge_step mode g ev in (outs ++ option_list out, g).
Proof.
  revert g. induction evs as [|e evs IH]; intros g; cbn [merge_run app].
  - destruct (merge_step mode g ev) as [out g']. by rewrite app_nil_r.
  - destruct (merge_step mode g e) as [out g1]. rewrite IH. destruct (merge_run mode g1 evs) as [outs g2].
    destruct (merge_step mode g2 ev) as [out' g3]. by rewrite app_assoc.
Qed.

Record merged (n : nat) (bs : list Value) (evs : list (nat * option StreamPage)) (outs : list StreamPage) (g : BookmarkGate) : Prop := {
  md_gate : gate_at n bs evs g;
  md_records : concat (sp_records <$> outs) = concat (sp_records <$> arrived evs);
  md_safe : forall b, b ∈ bookmarks_of outs -> exists k, bs !! k = Some b /\ forall i, i < n -> k < count_from i evs;
  md_last : last (bookmarks_of outs) = match released g with O => None | S k => bs !! k end;
}.

(** Forwarding one page with the bookmark the gate released. *)
Lemma merged_forward n bs evs outs g ev g' rows out :
  merged n bs evs outs g -> gate_at n bs (evs ++ [ev]) g' -> concat (sp_records <$> option_list ev.2) = rows ->
  match out with Some x => 0 < released g' /\ bs !! (released g' - 1) = Some x | None => released g' = released g end ->
  merged n bs (evs ++ [ev]) (outs ++ [MkStreamPage rows out]) g'.
Proof.
  intros [Hg Hr Hs Hl] Hg' Hrows Hout. assert (forall i, i < n -> count_from i evs <= count_from i (evs ++ [ev])) as Hmono by (intros; rewrite count_from_app; lia).
  split; [done| | |].
  - unfold arrived in *. rewrite omap_app, !fmap_app, !concat_app, Hr. f_equal. cbn. rewrite app_nil_r, <- Hrows. by destruct (ev.2).
  - intros b. unfold bookmarks_of. rewrite omap_app, elem_of_app. intros [Hb|Hb].
    + destruct (Hs b Hb) as (k & Hk & Hlt). exists k. split; [done|]. intros i Hi. pose proof (Hmono i Hi). specialize (Hlt i Hi). lia.
    + cbn in Hb. destruct out as [x|]; cbn in Hb; [|by apply not_elem_of_nil in Hb]. apply list_elem_of_singleton in Hb as ->. destruct Hout as [Hpos Hx].
      exists (released g' - 1). split; [done|]. intros i Hi. pose proof (ga_safe _ _ _ _ Hg' i Hi). lia.
  - unfold bookmarks_of in *. rewrite omap_app. cbn. destruct out as [x|]; cbn.
    + rewrite last_snoc. destruct Hout as [Hpos Hx]. destruct (released g'); [lia|]. rewrite <- Hx. f_equal. lia.
    + by rewrite app_nil_r, Hout.
Qed.

Lemma merged_run n bs evs : copies n bs evs -> let '(outs, g) := merge_run Gated (gate_new n) evs in merged n bs evs outs g.
Proof.
  induction 1 as [|evs i p Hc IH Hi Hopen Hpos|evs i Hc IH Hi Hfull].
  - split; [apply gate_at_new|done| |done]. intros b Hb. by apply not_elem_of_nil in Hb.
  - rewrite merge_run_app. destruct (merge_run Gated (gate_new n) evs) as [outs g]. cbn [merge_step].
    destruct (sp_bookmark p) as [b|] eqn:Eb.
    + pose proof (arrive_at n bs evs g i p b (md_gate _ _ _ _ _ IH) Hi Hopen Eb (Hpos b eq_refl)) as Ha. destruct (arrive g i b) as [out g']. destruct Ha as [Hg Ho].
      eapply merged_forward; [done|done|cbn; apply app_nil_r|done].
    + assert (gate_at n bs (evs ++ [(i, Some p)]) g) as Hg.
      { assert (forall k, count_from k (evs ++ [(i, Some p)]) = count_from k evs) as Hcnt.
        { intros k. rewrite count_from_app. assert (bookmarks_of (option_list (Some p)) = []) as E by (unfold bookmarks_of; cbn; by rewrite Eb).
          change ((i, Some p).2) with (Some p). rewrite E. case_decide; cbn; lia. }
        assert (forall k, has_closed k (evs ++ [(i, Some p)]) = has_closed k evs) as Hcl by (intros k; rewrite has_closed_app; cbn; by rewrite andb_false_r, orb_false_r).
        destruct (md_gate _ _ _ _ _ IH) as [H1 H2 (m & H3 & H3a & H3b & H3c) H4 H5 H6]. split.
        - rewrite H1. apply list_fmap_ext. intros. by rewrite Hcnt.
        - rewrite H2. apply list_fmap_ext. intros. by rewrite Hcl.
        - exists m. split_and!; try done. intros. rewrite Hcnt. auto.
        - intros. rewrite Hcnt. auto.
        - intros k Hk Hck. rewrite Hcl in Hck. rewrite Hcnt. auto.
        - intros Hn Hall. apply H6; [done|]. intros. rewrite <- Hcnt. auto. }
      eapply merged_forward; [done|done|cbn; apply app_nil_r|done].
  - rewrite merge_run_app. destruct (merge_run Gated (gate_new n) evs) as [outs g]. cbn [merge_step].
    pose proof (close_at n bs evs g i (md_gate _ _ _ _ _ IH) Hi Hfull) as Ha. destruct (close g i) as [out g']. destruct Ha as [Hg Ho].
    destruct out as [x|]; cbn [option_list].
    + eapply merged_forward; [done|done|done|done].
    + rewrite app_nil_r. destruct IH as [_ Hr Hs Hl]. split; [done| | |].
      * rewrite Hr. unfold arrived. rewrite omap_app. cbn. by rewrite app_nil_r.
      * intros b Hb. destruct (Hs b Hb) as (k & Hk & Hlt). exists k. split; [done|]. intros j Hj. rewrite count_from_app. specialize (Hlt j Hj). lia.
      * by rewrite Ho.
Qed.

(** C12: A gated merge never lets a position overtake the rows it covers. However the
    pages of its inputs interleave, when each input carries a copy of one source's
    positions and closes after the last of them, the merge forwards the rows of every
    page as they arrive, a position only when every input has delivered its own copy of
    that page, and once all have delivered everything, the last position. *)
Theorem gated_merge_safe n bs evs :
  copies n bs evs ->
  let '(outs, g) := merge_run Gated (gate_new n) evs in
  concat (sp_records <$> outs) = concat (sp_records <$> arrived evs) /\
  (forall b, b ∈ bookmarks_of outs -> exists k, bs !! k = Some b /\ forall i, i < n -> k < count_from i evs) /\
  (0 < n -> (forall i, i < n -> count_from i evs = length bs) -> last (bookmarks_of outs) = last bs).
Proof.
  intros Hc. pose proof (merged_run n bs evs Hc) as Hm. destruct (merge_run Gated (gate_new n) evs) as [outs g]. destruct Hm as [Hg Hr Hs Hl].
  split; [done|]. split; [done|]. intros Hn Hall. rewrite Hl, (ga_full _ _ _ _ Hg Hn Hall), last_lookup. by destruct (length bs) eqn:E; [apply nil_length_inv in E as ->|].
Qed.

Definition page_at (r b : string) : StreamPage := MkStreamPage [VString r] (Some (VString b)).

Lemma gated_merge_safe_witness :
  bookmarks_of (fst (merge_run Gated (gate_new 2) [(0, Some (page_at "a1" "p1")); (0, Some (page_at "a2" "p2")); (1, Some (page_at "b1" "p1")); (0, None); (1, Some (page_at "b2" "p2"))]))
    = [VString "p1"; VString "p2"] /\
  last (bookmarks_of (fst (merge_run Gated (gate_new 2) [(0, Some (page_at "a1" "p1")); (0, Some (page_at "a2" "p2")); (1, Some (page_at "b1" "p1")); (0, None); (1, Some (page_at "b2" "p2"))])))
    = Some (VString "p2").
Proof.
  split; [vm_compute; reflexivity|].
  pose proof (gated_merge_safe 2 [VString "p1"; VString "p2"] [(0, Some (page_at "a1" "p1")); (0, Some (page_at "a2" "p2")); (1, Some (page_at "b1" "p1")); (0, None); (1, Some (page_at "b2" "p2"))]) as Ht.
  destruct (merge_run _ _ _) as [outs g]. cbn [fst]. apply Ht; [|lia|].
  - change [(0, Some (page_at "a1" "p1")); (0, Some (page_at "a2" "p2")); (1, Some (page_at "b1" "p1")); (0, None); (1, Some (page_at "b2" "p2"))]
      with ((((([] ++ [(0, Some (page_at "a1" "p1"))]) ++ [(0, Some (page_at "a2" "p2"))]) ++ [(1, Some (page_at "b1" "p1"))]) ++ [(0, None)]) ++ [(1, Some (page_at "b2" "p2"))]).
    repeat first [apply copies_nil | apply copies_close; [|lia|reflexivity] | apply copies_page; [|lia|reflexivity|intros b [= <-]; reflexivity]].
  - intros [|[|i]] Hi; [reflexivity..|lia].
Defined.

(** An input that closes because its branch failed has not delivered everything: its
    closing releases positions whose copies it never delivered. *)
Example failed_branch_releases_position :
  bookmarks_of (fst (merge_run Gated (gate_new 2) [(0, Some (page_at "a1" "p1")); (0, Some (page_at "a2" "p2")); (1, Some (page_at "b1" "p1")); (1, None)])) = [VString "p1"; VString "p2"].
Proof. reflexivity. Qed.
