(* ===== verification/Network.v ===== *)
(** A topology at work (crates/core/src/topology.rs): the nodes as processes and the
    edges as bounded channels.

    A state holds, per node, where it is in its loop, and per edge (by its position in
    the list of edges) the pages in the channel. An action is one turn of one node: a
    receive with what it does to the page, one send of a broadcast, or an end. A sender
    is closed when its node has ended (with its failure already recorded, as
    [track_failure] orders it) and a receiver is dropped when its node has ended. A
    sink node stands for [run_stream] over its input: it takes pages one at a time, and
    may fail at any point. Any node may fail (its connector, a panic) or, after a
    cancellation, stop. *)
From S2P Require Import Prelude Errors Float64 Json Engine Join Topology Merge.

Local Open Scope nat_scope.

Inductive phase :=
| Reading
| Sending (page : StreamPage) (todo : list nat)
| Ended (err : option FaucetError).
Inductive local :=
| LSource (rest : list (result StreamPage FaucetError))
| LTransform
| LTee
| LMerge (open : list nat) (g : BookmarkGate)
| LJoin (building : bool) (j : HashJoin)
| LSink (taken : list StreamPage).
Record proc := MkProc { p_phase : phase; p_outs : list nat; p_local : local }.
Record net := MkNet { procs : gmap string proc; queues : list (list StreamPage); cancelled : bool }.

Definition set_proc (v : string) (p : proc) (s : net) : net := MkNet (<[v := p]> (procs s)) (queues s) (cancelled s).
Definition set_queue (e : nat) (q : list StreamPage) (s : net) : net := MkNet (procs s) (<[e := q]> (queues s)) (cancelled s).
Definition queue (s : net) (e : nat) : list StreamPage := default [] (queues s !! e).
Definition ended (s : net) (v : string) : bool :=
  match procs s !! v with Some (MkProc (Ended _) _ _) => true | Some _ => false | None => true end.

Section Network.
Context (json_str : string -> string) (float_str : f64 -> string) (display : FaucetError -> string).
Context (t : Topology) (default_capacity : nat).

Definition edge_at (e : nat) : option Edge := t_edges t !! e.
(** The edges of a node by position, in edge order. *)
Definition out_idx (v : string) : list nat :=
  List.filter (fun e => match edge_at e with Some x => string_eqb (e_from x) v | None => false end) (seq 0 (length (t_edges t))).
Definition in_idx (v : string) : list nat :=
  List.filter (fun e => match edge_at e with Some x => string_eqb (e_to x) v | None => false end) (seq 0 (length (t_edges t))).
Definition producer (e : nat) : string := default EmptyString (e_from <$> edge_at e).
Definition consumer (e : nat) : string := default EmptyString (e_to <$> edge_at e).

(** A tee's edges have its capacity, the others the default; at least one page. *)
Definition capacity (e : nat) : nat :=
  Nat.max 1 (match kind_of t (producer e) with Some (NTee c _) => Z.to_nat c | _ => default_capacity end).

(** The nodes that failed, with the text of their errors. *)
Definition failures (s : net) : list (string * string) :=
  omap (fun p => match p_phase p.2 with Ended (Some e) => Some (p.1, display e) | _ => None end) (map_to_list (procs s)).
Definition failed_into (s : net) (v : string) : option (string * string) :=
  failed_upstream (failures s) (ancestors_of (t_edges t) v).

(** What a receive finds: a page, the end of the stream, or nothing yet. *)
Inductive received := Page (p : StreamPage) (rest : list StreamPage) | EndOfStream | Blocked.
Definition recv (s : net) (e : nat) : received :=
  match queue s e with
  | p :: rest => Page p rest
  | [] => if ended s (producer e) then EndOfStream else Blocked
  end.

(** [take_by_label]. *)
Definition edge_labelled (v label : string) : nat :=
  default 0 (head (List.filter (fun e => match edge_at e with Some x => labelled label x | None => false end) (in_idx v))).

(** [broadcast] begins with every live output to send to. *)
Definition broadcast (page : StreamPage) (p : proc) : proc := MkProc (Sending page (p_outs p)) (p_outs p) (p_local p).
Definition finish (err : option FaucetError) (p : proc) : proc := MkProc (Ended err) (p_outs p) (p_local p).
Definition with_local (l : local) (p : proc) : proc := MkProc (p_phase p) (p_outs p) l.

(** One send of a broadcast, and its end. *)
Definition send_turn (s : net) (v : string) (p : proc) (page : StreamPage) (todo : list nat) : option net :=
  match todo with
  | [] => Some (set_proc v (MkProc (if is_nil (p_outs p) then Ended None else Reading) (p_outs p) (p_local p)) s)
  | e :: todo =>
      if ended s (consumer e) then
        Some (set_proc v (MkProc (Sending page todo) (List.filter (fun x => negb (x =? e)) (p_outs p)) (p_local p)) s)
      else if length (queue s e) <? capacity e then
        Some (set_queue e (queue s e ++ [page]) (set_proc v (MkProc (Sending page todo) (p_outs p) (p_local p)) s))
      else None
  end.

(** [run_transform_node], [run_tee_node]: the one input. *)
Definition single_input (v : string) : nat := default 0 (head (in_idx v)).
Definition pipe_turn (f : list Value -> result (list Value) FaucetError) (s : net) (v : string) (p : proc) : option net :=
  let e := single_input v in
  match recv s e with
  | Page page rest =>
      Some (set_queue e rest (set_proc v (match f (sp_records page) with
                                          | Ok rows => broadcast (MkStreamPage rows (sp_bookmark page)) p
                                          | Err err => finish (Some err) p
                                          end) s))
  | EndOfStream => Some (set_proc v (finish None p) s)
  | Blocked => None
  end.

(** [run_merge_node]: [pick] is the input [select_all] polls. *)
Definition position (e : nat) (v : string) : nat := length (List.filter (fun x => x <? e) (in_idx v)).
Definition merge_turn (s : net) (v : string) (p : proc) (open : list nat) (g : BookmarkGate) (pick : nat) : option net :=
  match open with
  | [] => Some (set_proc v (finish None p) s)
  | _ =>
      if bool_decide (pick ∈ open) then
        match recv s pick with
        | Page page rest =>
            let '(out, g) := merge_step (merge_mode_of t v) g (position pick v, Some page) in
            let p := with_local (LMerge open g) p in
            Some (set_queue pick rest (set_proc v (match out with Some page => broadcast page p | None => p end) s))
        | EndOfStream =>
            let '(out, g) := merge_step (merge_mode_of t v) g (position pick v, None) in
            let p := with_local (LMerge (List.filter (fun x => negb (x =? pick)) open) g) p in
            Some (set_proc v (match out with Some page => broadcast page p | None => p end) s)
        | Blocked => None
        end
      else None
  end.

(** [run_join_node]. *)
Definition incomplete_build (v : string) (f : string * string) : FaucetError :=
  Source ("join '" +:+ v +:+ "': build-side node '" +:+ f.1 +:+ "' failed, so its hash table is incomplete and nothing was probed: " +:+ f.2).
Definition build_upstream (e : nat) : gset string := {[producer e]} ∪ ancestors_of (t_edges t) (producer e).
Definition build_turn (s : net) (v : string) (p : proc) (n : JoinNode) (j : HashJoin) : option net :=
  let e := edge_labelled v (jn_build_edge n) in
  match recv s e with
  | Page page rest =>
      let '(r, j) := add_build_page json_str float_str j (sp_records page) in
      let p := with_local (LJoin true j) p in
      Some (set_queue e rest (set_proc v (match r with Ok _ => p | Err err => finish (Some err) p end) s))
  | EndOfStream =>
      match failed_upstream (failures s) (build_upstream e) with
      | Some f => Some (set_proc v (finish (Some (incomplete_build v f)) p) s)
      | None => Some (set_proc v (with_local (LJoin false j) p) s)
      end
  | Blocked => None
  end.
Definition probe_turn (s : net) (v : string) (p : proc) (n : JoinNode) (j : HashJoin) : option net :=
  let e := edge_labelled v (jn_probe_edge n) in
  match recv s e with
  | Page page rest =>
      let '(r, j) := probe_page json_str float_str j (sp_records page) in
      let p := with_local (LJoin false j) p in
      Some (set_queue e rest (set_proc v (match r with
                                          | Ok rows => broadcast (MkStreamPage rows (sp_bookmark page)) p
                                          | Err err => finish (Some err) p
                                          end) s))
  | EndOfStream => Some (set_proc v (finish None p) s)
  | Blocked => None
  end.

(** [run_source_node], [run_sink_node]. *)
Definition source_turn (s : net) (v : string) (p : proc) (rest : list (result StreamPage FaucetError)) : option net :=
  Some (set_proc v (match rest with
                    | [] => finish None p
                    | Err e :: rest => finish (Some e) (with_local (LSource rest) p)
                    | Ok page :: rest => broadcast page (with_local (LSource rest) p)
                    end) s).
Definition partial_input (v : string) (f : string * string) : FaucetError :=
  Source ("upstream node '" +:+ f.1 +:+ "' failed, so sink '" +:+ v +:+ "' did not receive its complete input: " +:+ f.2).
Definition sink_turn (s : net) (v : string) (p : proc) (taken : list StreamPage) : option net :=
  let e := single_input v in
  match recv s e with
  | Page page rest => Some (set_queue e rest (set_proc v (with_local (LSink (taken ++ [page])) p) s))
  | EndOfStream => Some (set_proc v (finish (partial_input v <$> failed_into s v) p) s)
  | Blocked => None
  end.

(** A turn of node [v]; [None] when it has ended or must wait. *)
Definition turn (s : net) (v : string) (pick : nat) : option net :=
  p ← procs s !! v;
  match p_phase p with
  | Ended _ => None
  | Sending page todo => send_turn s v p page todo
  | Reading =>
      match kind_of t v, p_local p with
      | Some (NSource _), LSource rest => source_turn s v p rest
      | Some (NTransform f), LTransform => pipe_turn f s v p
      | Some (NTee _ _), LTee => pipe_turn Ok s v p
      | Some NMerge, LMerge open g => merge_turn s v p open g pick
      | Some (NJoin n), LJoin true j => build_turn s v p n j
      | Some (NJoin n), LJoin false j => probe_turn s v p n j
      | Some NSink, LSink taken => sink_turn s v p taken
      | _, _ => None
      end
  end.

Inductive action := Turn (v : string) (pick : nat) | Fail (v : string) (err : FaucetError) | Cancel | Stop (v : string).
Definition end_with (err : option FaucetError) (s : net) (v : string) : option net :=
  p ← procs s !! v;
  match p_phase p with Ended _ => None | _ => Some (set_proc v (finish err p) s) end.
Definition act (s : net) (a : action) : option net :=
  match a with
  | Turn v pick => turn s v pick
  | Fail v err => end_with (Some err) s v
  | Cancel => if cancelled s then None else Some (MkNet (procs s) (queues s) true)
  | Stop v => if cancelled s then end_with None s v else None
  end.
Fixpoint acts (s : net) (l : list action) : option net :=
  match l with
  | [] => Some s
  | a :: l => s ← act s a; acts s l
  end.

(** The channels and processes [run_attributed] starts. *)
Definition local_of (n : Node) : local :=
  match n_kind n with
  | NSource s => LSource (sn_stream s)
  | NTransform _ => LTransform
  | NTee _ _ => LTee
  | NMerge => LMerge (in_idx (n_id n)) (gate_new (length (in_idx (n_id n))))
  | NJoin j => LJoin true (HashJoin_new (jn_config j))
  | NSink => LSink []
  end.
Definition start : net :=
  MkNet (list_to_map ((fun n => (n_id n, MkProc Reading (out_idx (n_id n)) (local_of n))) <$> t_nodes t)) (replicate (length (t_edges t)) []) false.
Definition all_ended (s : net) : bool := forallb (ended s) (node_ids t).
Definition enabled (s : net) : list (string * nat) :=
  List.filter (fun x => negb (is_none (turn s x.1 x.2))) (v ← node_ids t; pair v <$> (0 :: in_idx v)).
End Network.
