(* ===== verification/Liveness.v ===== *)
(** A topology run neither runs for ever nor gets stuck: every sequence of turns is
    bounded, and until every node has ended some node can take a turn, provided the
    joins of the graph do not wait for each other in a circle. *)
From S2P Require Import Prelude Errors Float64 Json Engine Join Topology Merge Network.

Local Open Scope nat_scope.

(** What of a node's local state decides which turns it can take. *)
Definition shape (l : local) : local :=
  match l with
  | LMerge open _ => LMerge open (gate_new 0)
  | LJoin building _ => LJoin building (HashJoin_new JoinConfig_default)
  | LSink _ => LSink []
  | other => other
  end.

Section Liveness.
Context (json_str : string -> string) (float_str : f64 -> string) (display : FaucetError -> string).
Context (t : Topology) (default_capacity : nat) (wf : well_formed t).
Local Notation turn := (turn json_str float_str display t default_capacity).
Local Notation act := (act json_str float_str display t default_capacity).
Local Notation acts := (acts json_str float_str display t default_capacity).
Local Notation in_idx := (in_idx t).
Local Notation out_idx := (out_idx t).
Local Notation producer := (producer t).
Local Notation consumer := (consumer t).
Local Notation capacity := (capacity t default_capacity).
Local Notation build_edge v j := (edge_labelled t v (jn_build_edge j)).
Local Notation probe_edge v j := (edge_labelled t v (jn_probe_edge j)).

(** ** Turns *)

Inductive turned (s : net) (v : string) (p : proc) : net -> Prop :=
| T_end err outs l : turned s v p (set_proc v (MkProc (Ended err) outs l) s)
| T_end_pop e x rest err outs l : queue s e = x :: rest -> e ∈ in_idx v -> turned s v p (set_queue e rest (set_proc v (MkProc (Ended err) outs l) s))
| T_drop page e todo : p_phase p = Sending page (e :: todo) -> ended s (consumer e) = true ->
    turned s v p (set_proc v (MkProc (Sending page todo) (List.filter (fun x => negb (x =? e)) (p_outs p)) (p_local p)) s)
| T_push page e todo : p_phase p = Sending page (e :: todo) ->
    turned s v p (set_queue e (queue s e ++ [page]) (set_proc v (MkProc (Sending page todo) (p_outs p) (p_local p)) s))
| T_back page : p_phase p = Sending page [] -> turned s v p (set_proc v (MkProc Reading (p_outs p) (p_local p)) s)
| T_pop e x rest ph l : p_phase p = Reading -> queue s e = x :: rest -> e ∈ in_idx v -> shape l = shape (p_local p) ->
    ph = Reading \/ (exists page, ph = Sending page (p_outs p)) -> turned s v p (set_queue e rest (set_proc v (MkProc ph (p_outs p) l) s))
| T_emit page rest page' : p_phase p = Reading -> p_local p = LSource (Ok page :: rest) ->
    turned s v p (set_proc v (MkProc (Sending page' (p_outs p)) (p_outs p) (LSource rest)) s)
| T_close e open g g' ph : p_phase p = Reading -> p_local p = LMerge open g -> e ∈ open -> queue s e = [] -> ended s (producer e) = true ->
    ph = Reading \/ (exists page, ph = Sending page (p_outs p)) ->
    turned s v p (set_proc v (MkProc ph (p_outs p) (LMerge (List.filter (fun x => negb (x =? e)) open) g')) s)
| T_built n j : p_phase p = Reading -> kind_of t v = Some (NJoin n) -> p_local p = LJoin true j ->
    queue s (build_edge v n) = [] -> ended s (producer (build_edge v n)) = true ->
    turned s v p (set_proc v (MkProc Reading (p_outs p) (LJoin false j)) s).

(** ** Edges by position *)

Lemma elem_of_out_idx e v : e ∈ out_idx v <-> exists x, t_edges t !! e = Some x /\ e_from x = v.
Proof.
  unfold Network.out_idx, edge_at. rewrite list_elem_of_In, List.filter_In, <- list_elem_of_In, elem_of_seq. unfold string_eqb. split.
  - intros [_ H]. destruct (t_edges t !! e) as [x|]; [|done]. apply bool_decide_eq_true in H. eauto.
  - intros (x & Hx & <-). rewrite Hx. split; [|by apply bool_decide_eq_true]. apply lookup_lt_Some in Hx. lia.
Qed.
Lemma elem_of_in_idx e v : e ∈ in_idx v <-> exists x, t_edges t !! e = Some x /\ e_to x = v.
Proof.
  unfold Network.in_idx, edge_at. rewrite list_elem_of_In, List.filter_In, <- list_elem_of_In, elem_of_seq. unfold string_eqb. split.
  - intros [_ H]. destruct (t_edges t !! e) as [x|]; [|done]. apply bool_decide_eq_true in H. eauto.
  - intros (x & Hx & <-). rewrite Hx. split; [|by apply bool_decide_eq_true]. apply lookup_lt_Some in Hx. lia.
Qed.
Lemma producer_out e v : e ∈ out_idx v -> producer e = v.
Proof. intros (x & Hx & <-)%elem_of_out_idx. unfold Network.producer, edge_at. by rewrite Hx. Qed.
Lemma consumer_in e v : e ∈ in_idx v -> consumer e = v.
Proof. intros (x & Hx & <-)%elem_of_in_idx. unfold Network.consumer, edge_at. by rewrite Hx. Qed.
Lemma out_is_in e v : e ∈ out_idx v -> e ∈ in_idx (consumer e).
Proof. intros (x & Hx & _)%elem_of_out_idx. apply elem_of_in_idx. exists x. unfold Network.consumer, edge_at. by rewrite Hx. Qed.
Lemma in_is_out e v : e ∈ in_idx v -> e ∈ out_idx (producer e).
Proof. intros (x & Hx & _)%elem_of_in_idx. apply elem_of_out_idx. exists x. unfold Network.producer, edge_at. by rewrite Hx. Qed.
Lemma idx_edge e v : e ∈ in_idx v -> edge (t_edges t) (producer e) v.
Proof.
  intros (x & Hx & <-)%elem_of_in_idx. exists x. unfold Network.producer, edge_at. rewrite Hx. split; [by eapply list_elem_of_lookup_2|done].
Qed.
Lemma in_idx_length v : length (in_idx v) = length (predecessors (t_edges t) v).
Proof.
  unfold predecessors, in_edges. rewrite length_fmap. unfold Network.in_idx, edge_at.
  induction (t_edges t) as [|x l IH] using rev_ind; [done|]. rewrite length_app. cbn [length]. rewrite Nat.add_1_r, seq_S, !List.filter_app, !length_app. cbn [List.filter].
  rewrite lookup_app_r, Nat.sub_diag by done. cbn. f_equal; [|by destruct (string_eqb _ _)]. rewrite <- IH. f_equal.
  apply List.filter_ext_in. intros e He. apply List.in_seq in He. by rewrite lookup_app_l by lia.
Qed.

Lemma edge_labelled_spec v l : l ∈ in_labels (t_edges t) v ->
  exists x, edge_labelled t v l ∈ in_idx v /\ t_edges t !! edge_labelled t v l = Some x /\ feeds (t_edges t) v l x.
Proof.
  intros (x & Hin & Hto & Hl)%elem_of_in_labels. unfold edge_labelled, edge_at.
  set (f := fun e => match t_edges t !! e with Some x => labelled l x | None => false end).
  assert (exists e rest, List.filter f (in_idx v) = e :: rest) as (e & rest & E).
  { apply list_elem_of_lookup_1 in Hin as [e He]. assert (e ∈ List.filter f (in_idx v)) as Hf.
    { apply list_elem_of_In, List.filter_In. split; [apply list_elem_of_In, elem_of_in_idx; eauto|]. unfold f, labelled. rewrite He. by apply bool_decide_eq_true. }
    destruct (List.filter f (in_idx v)); [by apply not_elem_of_nil in Hf|eauto]. }
  rewrite E. cbn [head default from_option id]. assert (e ∈ List.filter f (in_idx v)) as Hf by (rewrite E; left).
  apply list_elem_of_In, List.filter_In in Hf as [Hi Hf]. apply list_elem_of_In in Hi. pose proof Hi as (y & Hy & Hyt)%elem_of_in_idx.
  exists y. unfold f, labelled in Hf. rewrite Hy in Hf. apply bool_decide_eq_true in Hf. split_and!; try done. split_and!; try done. by eapply list_elem_of_lookup_2.
Qed.

Lemma kind_of_node n : n ∈ t_nodes t -> kind_of t (n_id n) = Some (n_kind n).
Proof.
  intros Hn. pose proof (wf_ids _ wf) as Hnd. unfold kind_of, node_ids in *. induction (t_nodes t) as [|x l IH]; [by apply not_elem_of_nil in Hn|].
  rewrite fmap_cons in Hnd. apply NoDup_cons in Hnd as [Hx Hnd]. cbn [List.find]. unfold string_eqb.
  apply elem_of_cons in Hn as [->|Hn]; [by rewrite bool_decide_eq_true_2 by done|]. rewrite bool_decide_eq_false_2; [auto|].
  intros E. apply Hx. rewrite E. apply list_elem_of_fmap. eauto.
Qed.
Lemma node_of v k : kind_of t v = Some k -> exists n, n ∈ t_nodes t /\ n_id n = v /\ n_kind n = k.
Proof.
  unfold kind_of. destruct (List.find _ _) as [n|] eqn:E; [|done]. intros [= <-]. apply List.find_some in E as [Hin Hid].
  unfold string_eqb in Hid. apply bool_decide_eq_true in Hid. exists n. split; [by apply list_elem_of_In|done].
Qed.
Lemma degrees_of v k : kind_of t v = Some k -> degrees_ok (t_edges t) (MkNode v k).
Proof. intros (n & Hn & <- & <-)%node_of. destruct n. by apply (wf_degrees _ wf). Qed.
Lemma single_input_in v : length (predecessors (t_edges t) v) = 1 -> in_idx v = [single_input t v].
Proof. rewrite <- in_idx_length. unfold single_input. destruct (in_idx v) as [|e [|]]; try done. Qed.
Lemma build_edge_in v n : kind_of t v = Some (NJoin n) -> build_edge v n ∈ in_idx v.
Proof. intros Hk. pose proof (degrees_of v _ Hk) as (_ & _ & Hb & _). apply edge_labelled_spec in Hb as (x & ? & _). done. Qed.
Lemma probe_edge_in v n : kind_of t v = Some (NJoin n) -> probe_edge v n ∈ in_idx v.
Proof. intros Hk. pose proof (degrees_of v _ Hk) as (_ & _ & _ & Hb & _). apply edge_labelled_spec in Hb as (x & ? & _). done. Qed.
(** The two inputs of a join. *)
Lemma join_inputs v n e : kind_of t v = Some (NJoin n) -> e ∈ in_idx v -> e = build_edge v n \/ e = probe_edge v n.
Proof.
  intros Hk He. pose proof (degrees_of v _ Hk) as (Hi & _ & Hb & Hp & Hne). cbn [n_id] in *. rewrite <- in_idx_length in Hi.
  apply edge_labelled_spec in Hb as (x & Hbi & Hbx & _ & _ & Hbl). apply edge_labelled_spec in Hp as (y & Hpi & Hpy & _ & _ & Hpl).
  assert (build_edge v n <> probe_edge v n) as Hd. { intros E. rewrite E in Hbx. congruence. }
  destruct (in_idx v) as [|a [|b [|]]]; try done. clear -He Hbi Hpi Hd. set_solver.
Qed.

(** ** The invariant *)

Definition dead (s : net) (e : nat) : Prop := queue s e = [] /\ ended s (producer e) = true.
Definition local_fits (s : net) (v : string) (k : NodeKind) (l : local) : Prop :=
  match k, l with
  | NSource _, LSource _ | NTransform _, LTransform | NTee _ _, LTee | NSink, LSink _ => True
  | NMerge, LMerge open _ => open ⊆ in_idx v /\ forall e, e ∈ in_idx v -> e ∉ open -> dead s e
  | NJoin n, LJoin building _ => building = false -> dead s (build_edge v n)
  | _, _ => False
  end.
Record fits (s : net) (v : string) (k : NodeKind) (p : proc) : Prop := {
  ft_outs : p_outs p `sublist_of` out_idx v;
  ft_todo : forall page todo, p_phase p = Sending page todo -> todo `sublist_of` out_idx v;
  ft_local : local_fits s v k (p_local p);
}.
Record net_ok (s : net) : Prop := {
  ok_queues : length (queues s) = length (t_edges t);
  ok_procs : forall v k, kind_of t v = Some k -> exists p, procs s !! v = Some p /\ (ended s v = false -> fits s v k p);
  ok_known : forall v, is_Some (procs s !! v) -> is_Some (kind_of t v);
}.

Lemma filter_sublist {A} (f : A -> bool) (l k : list A) : l `sublist_of` k -> List.filter f l `sublist_of` k.
Proof. intros H. transitivity l; [|done]. clear. induction l as [|x l IH]; cbn; [done|]. destruct (f x); by constructor. Qed.
Lemma sublist_in {A} (l k : list A) x : l `sublist_of` k -> x ∈ l -> x ∈ k.
Proof. intros H Hx. by eapply elem_of_submseteq; [|apply sublist_submseteq]. Qed.

Lemma turn_turned s v i s' p : net_ok s -> procs s !! v = Some p -> turn s v i = Some s' -> ended s v = false /\ turned s v p s'.
Proof.
  intros Hok Hp. destruct (ok_known _ Hok v ltac:(eauto)) as [k Hk]. destruct (ok_procs _ Hok v k Hk) as (p' & Hp' & Hf). assert (p' = p) as -> by congruence.
  unfold Network.turn, ended. rewrite Hp. cbn [mbind option_bind]. destruct p as [ph outs l]. cbn [p_phase p_outs p_local].
  unfold ended in Hf. rewrite Hp in Hf. destruct ph as [|page todo|err]; [| |done].
  - pose proof (ft_local _ _ _ _ (Hf eq_refl)) as Hl. cbn [p_local] in Hl. intros Ht. split; [done|]. rewrite Hk in Ht. pose proof (degrees_of v k Hk) as Hdeg.
    destruct k as [src|f|c fo| |n|], l; try done; cbn [local_fits] in Hl.
    + unfold source_turn in Ht. injection Ht as <-. destruct rest as [|[page|err] rest]; cbn; [apply T_end|by apply (T_emit s v (MkProc Reading outs (LSource (Ok page :: rest))) page rest page)|apply T_end].
    + unfold pipe_turn, recv in Ht. pose proof (single_input_in v (proj1 Hdeg)) as Hs. destruct (queue s (single_input t v)) as [|x rest] eqn:Eq.
      * destruct (ended s _); simplify_eq. apply T_end.
      * injection Ht as <-. destruct (f (sp_records x)); [eapply (T_pop _ _ (MkProc Reading outs _))|eapply T_end_pop]; eauto; rewrite Hs; left.
    + unfold pipe_turn, recv in Ht. pose proof (single_input_in v (proj1 Hdeg)) as Hs. destruct (queue s (single_input t v)) as [|x rest] eqn:Eq.
      * destruct (ended s _); simplify_eq. apply T_end.
      * injection Ht as <-. eapply (T_pop _ _ (MkProc Reading outs _)); eauto. rewrite Hs. left.
    + unfold merge_turn, recv in Ht. destruct open as [|o os] eqn:Eo; [injection Ht as <-; apply T_end|]. rewrite <- Eo in *. case_bool_decide as Hpick; [|done].
      destruct (queue s i) as [|x rest] eqn:Eq.
      * destruct (ended s (producer i)) eqn:Ee; [|done]. destruct (merge_step _ _ _) as [out g']. injection Ht as <-.
        destruct out as [page|]; (eapply (T_close s v (MkProc Reading outs (LMerge open g)) i open g g'); [done|done|done|done|done|]); eauto.
      * destruct (merge_step _ _ _) as [out g']. injection Ht as <-. destruct Hl as [Hl _].
        destruct out as [page|]; (eapply (T_pop s v (MkProc Reading outs (LMerge open g))); [done|done|by apply Hl|done|]); eauto.
    + destruct building.
      * unfold build_turn, recv in Ht. pose proof (build_edge_in v n Hk) as Hb. destruct (queue s (build_edge v n)) as [|x rest] eqn:Eq.
        -- destruct (ended s (producer (build_edge v n))) eqn:Ee; [|done]. destruct (failed_upstream _ _); injection Ht as <-; [apply T_end|by eapply (T_built s v (MkProc Reading outs (LJoin true j)))].
        -- destruct (add_build_page _ _ _ _) as [r j']. injection Ht as <-. destruct r; [eapply (T_pop s v (MkProc Reading outs (LJoin true j)))|eapply T_end_pop]; eauto.
      * unfold probe_turn, recv in Ht. pose proof (probe_edge_in v n Hk) as Hb. destruct (queue s (probe_edge v n)) as [|x rest] eqn:Eq.
        -- destruct (ended s _); simplify_eq. apply T_end.
        -- destruct (probe_page _ _ _ _) as [r j']. injection Ht as <-. destruct r; [eapply (T_pop s v (MkProc Reading outs (LJoin false j)))|eapply T_end_pop]; eauto.
    + unfold sink_turn, recv in Ht. pose proof (single_input_in v (proj1 Hdeg)) as Hs. destruct (queue s (single_input t v)) as [|x rest] eqn:Eq.
      * destruct (ended s _); simplify_eq. apply T_end.
      * injection Ht as <-. eapply (T_pop s v (MkProc Reading outs (LSink taken))); eauto. rewrite Hs. left.
  - intros Ht. split; [done|]. unfold send_turn in Ht. destruct todo as [|e todo]; cbn [p_outs p_local] in Ht.
    + injection Ht as <-. destruct (is_nil outs); [apply T_end|by eapply T_back].
    + destruct (ended s (consumer e)) eqn:Ee; [injection Ht as <-; by eapply (T_drop _ _ (MkProc _ _ _))|].
      destruct (_ <? _); [|done]. injection Ht as <-. by eapply (T_push _ _ (MkProc _ _ _)).
Qed.

(** What a turn leaves of the rest of the network. *)
Record framed (s : net) (v : string) (s' : net) : Prop := {
  fr_procs : forall u, u <> v -> procs s' !! u = procs s !! u;
  fr_self : is_Some (procs s' !! v);
  fr_queues : length (queues s') = length (queues s);
  fr_dead : forall e, dead s e -> dead s' e;
}.
Lemma queue_set_eq s e q : e < length (queues s) -> queue (set_queue e q s) e = q.
Proof. intros He. unfold queue, set_queue. cbn [queues]. by rewrite list_lookup_insert_eq. Qed.
Lemma queue_set_ne s e q x : x <> e -> queue (set_queue e q s) x = queue s x.
Proof. intros He. unfold queue, set_queue. cbn [queues]. by rewrite list_lookup_insert_ne. Qed.
Lemma ended_ne s s' v u : u <> v -> procs s' !! u = procs s !! u -> ended s' u = ended s u.
Proof. intros _ E. unfold ended. by rewrite E. Qed.

Lemma turned_framed s v p s' : net_ok s -> procs s !! v = Some p -> ended s v = false -> turned s v p s' -> framed s v s'.
Proof.
  intros Hok Hp Hv Ht.
  assert (forall q, forall u, u <> v -> procs (set_proc v q s) !! u = procs s !! u) as Hne by (intros q u Hu; by apply lookup_insert_ne).
  assert (forall q, is_Some (procs (set_proc v q s) !! v)) as Hself by (intros q; unfold set_proc; cbn; rewrite lookup_insert_eq; eauto).
  assert (forall q e, ended s (producer e) = true -> ended (set_proc v q s) (producer e) = true) as Hend.
  { intros q e He. assert (producer e <> v) as Hd by congruence. by rewrite (ended_ne s _ v (producer e) Hd (Hne q _ Hd)). }
  assert (forall q, framed s v (set_proc v q s)) as Hset.
  { intros q. split; [apply Hne|apply Hself|done|]. intros e [Hq He]. split; [done|auto]. }
  assert (forall q e x rest, queue s e = x :: rest -> framed s v (set_queue e rest (set_proc v q s))) as Hpop.
  { intros q e x rest Eq. split; [apply Hne|apply Hself|by apply length_insert|]. intros e' [Hq He]. split; [|by apply Hend].
    rewrite queue_set_ne; [done|]. intros ->. congruence. }
  destruct Ht; try apply Hset; try by eapply Hpop.
  destruct (ok_known _ Hok v ltac:(eauto)) as [k Hk]. destruct (ok_procs _ Hok v k Hk) as (p' & Hp' & Hf). assert (p' = p) as -> by congruence.
  pose proof (ft_todo _ _ _ _ (Hf Hv) page (e :: todo) H) as Hs. split; [apply Hne|apply Hself|by apply length_insert|].
  intros e' [Hq He]. split; [|by apply Hend]. rewrite queue_set_ne; [done|]. intros ->.
  rewrite (producer_out e v) in He by (eapply sublist_in; [done|left]). congruence.
Qed.

Lemma local_fits_mono s s' v k l : (forall e, dead s e -> dead s' e) -> local_fits s v k l -> local_fits s' v k l.
Proof. intros Hd. destruct k, l; cbn; try done; [intros [Ho H]; split; [done|]; intros e He Hn; by apply Hd, H|]. intros H E. by apply Hd, H. Qed.
Lemma local_fits_shape s v k l l' : shape l = shape l' -> local_fits s v k l -> local_fits s v k l'.
Proof. destruct k, l, l'; cbn; try done; intros [=]; by subst. Qed.

Lemma framed_ok s v s' : net_ok s -> framed s v s' -> (forall k p, kind_of t v = Some k -> procs s' !! v = Some p -> ended s' v = false -> fits s' v k p) -> is_Some (kind_of t v) -> net_ok s'.
Proof.
  intros Hok Hfr Hv Hkv. split.
  - rewrite (fr_queues _ _ _ Hfr). apply (ok_queues _ Hok).
  - intros u k Hk. destruct (decide (u = v)) as [->|Hne].
    + destruct (fr_self _ _ _ Hfr) as [p Hp]. exists p. split; [done|]. by apply Hv.
    + destruct (ok_procs _ Hok u k Hk) as (p & Hp & Hf). exists p. rewrite (fr_procs _ _ _ Hfr) by done. split; [done|].
      rewrite (ended_ne s s' v) by (done || by apply (fr_procs _ _ _ Hfr)). intros He. destruct (Hf He) as [H1 H2 H3]. split; [done|done|].
      eapply local_fits_mono; [apply (fr_dead _ _ _ Hfr)|done].
  - intros u Hu. destruct (decide (u = v)) as [->|Hne]; [done|]. apply (ok_known _ Hok). by rewrite <- (fr_procs _ _ _ Hfr).
Qed.

Lemma filter_out (e x : nat) l : x ∈ List.filter (fun y => negb (y =? e)) l <-> x ∈ l /\ x <> e.
Proof. rewrite !list_elem_of_In, List.filter_In. destruct (Nat.eqb_spec x e); naive_solver. Qed.

Lemma sending_fits s v k ph outs l : outs `sublist_of` out_idx v -> ph = Reading \/ (exists page, ph = Sending page outs) -> local_fits s v k l ->
  fits s v k (MkProc ph outs l).
Proof. intros Ho Hph Hl. split; [done| |done]. intros page todo E. cbn in E. destruct Hph as [->|[? ->]]; [done|]. by injection E as <- <-. Qed.

Lemma tail_sublist {A} (x : A) l k : x :: l `sublist_of` k -> l `sublist_of` k.
Proof. intros H. etrans; [|exact H]. by constructor. Qed.

(** A node that has not ended fits its place again after its turn. *)
Lemma turned_fits s v p s' k p' : net_ok s -> procs s !! v = Some p -> ended s v = false -> turned s v p s' ->
  kind_of t v = Some k -> procs s' !! v = Some p' -> ended s' v = false -> fits s' v k p'.
Proof.
  intros Hok Hp Hv Ht Hk. pose proof (turned_framed _ _ _ _ Hok Hp Hv Ht) as Hfr. pose proof (fr_dead _ _ _ Hfr) as Hd. clear Hfr.
  destruct (ok_procs _ Hok v k Hk) as (q & Hq & Hf). assert (q = p) as -> by congruence. destruct (Hf Hv) as [Ho Htodo Hl]. clear Hf Hq.
  pose proof (local_fits_mono _ _ _ _ _ Hd Hl) as Hl'.
  assert (forall q, procs (set_proc v q s) !! v = Some q) as Hset by (intros q; apply lookup_insert_eq).
  intros Hp' He. destruct Ht; unfold ended in He; cbn [set_queue procs] in Hp', He; rewrite Hset in Hp', He; injection Hp' as <-; try done.
  - split; [by apply filter_sublist| |done]. intros ? ? [= <- <-]. exact (tail_sublist _ _ _ (Htodo _ _ H)).
  - split; [done| |done]. intros ? ? [= <- <-]. exact (tail_sublist _ _ _ (Htodo _ _ H)).
  - apply sending_fits; eauto. by eapply local_fits_shape.
  - apply sending_fits; eauto. rewrite H0 in Hl'. destruct k; done.
  - apply sending_fits; eauto. rewrite H0 in Hl'. destruct k; try done. destruct Hl' as [Hin Hout]. split; [intros x [Hx _]%filter_out; auto|].
    intros x Hx Hn. rewrite filter_out in Hn. destruct (decide (x = e)) as [->|]; [by apply Hd|]. apply Hout; [done|]. tauto.
  - apply sending_fits; eauto. rewrite Hk in H0. injection H0 as ->. intros _. by apply Hd.
Qed.
Lemma turned_ok s v p s' : net_ok s -> procs s !! v = Some p -> ended s v = false -> turned s v p s' -> net_ok s'.
Proof.
  intros Hok Hp Hv Ht. eapply framed_ok; [done|by eapply turned_framed| |by apply (ok_known _ Hok); eauto].
  intros k p' Hk Hp'. by eapply turned_fits.
Qed.
Lemma end_with_turned err s v s' : end_with err s v = Some s' -> exists p, procs s !! v = Some p /\ ended s v = false /\ turned s v p s'.
Proof.
  unfold end_with. destruct (procs s !! v) as [p|] eqn:E; [|done]. cbn. intros H. exists p. split; [done|]. unfold ended. rewrite E.
  destruct p as [[| |] outs l]; simplify_eq/=; (split; [done|apply T_end]).
Qed.
(** Every action but a cancellation is the turn of a node that had not ended. *)
Lemma act_turned s a s' : net_ok s -> act s a = Some s' ->
  (exists v p, procs s !! v = Some p /\ ended s v = false /\ turned s v p s') \/ cancelled s = false /\ s' = MkNet (procs s) (queues s) true.
Proof.
  intros Hok. destruct a as [v i|v err| |v]; cbn [Network.act].
  - intros Ht. left. destruct (procs s !! v) as [p|] eqn:Ep; [|unfold Network.turn in Ht; by rewrite Ep in Ht]. exists v, p. split; [done|by eapply turn_turned].
  - intros Ht. left. exists v. by eapply end_with_turned.
  - destruct (cancelled s); [done|]. intros [= <-]. by right.
  - destruct (cancelled s); [|done]. intros Ht. left. exists v. by eapply end_with_turned.
Qed.
Lemma act_ok s a s' : net_ok s -> act s a = Some s' -> net_ok s'.
Proof.
  intros Hok [(v & p & Hp & Hv & Ht)|[_ ->]]%(act_turned _ _ _ Hok); [by eapply turned_ok|]. destruct Hok as [H1 H2 H3]. split; [exact H1| |exact H3].
  intros v k Hk. destruct (H2 v k Hk) as (p & Hp & Hf). exists p. split; [done|]. intros He. destruct (Hf He) as [Ho Htodo Hl]. by split.
Qed.

Lemma start_ok : net_ok (start t).
Proof.
  assert (forall n, n ∈ t_nodes t -> procs (start t) !! n_id n = Some (MkProc Reading (out_idx (n_id n)) (local_of t n))) as Hn.
  { intros n Hn. unfold start. cbn [procs]. apply elem_of_list_to_map_1.
    - rewrite <- list_fmap_compose. apply (wf_ids _ wf).
    - apply list_elem_of_fmap. eauto. }
  split.
  - by apply length_replicate.
  - intros v k (n & Hin & <- & <-)%node_of. eexists. split; [by apply Hn|]. intros _. apply sending_fits; [done|by left|].
    unfold local_of. destruct (n_kind n); done.
  - intros v [p Hp]. unfold start in Hp. cbn [procs] in Hp. apply elem_of_list_to_map_2, list_elem_of_fmap in Hp as (n & [= -> _] & Hin).
    rewrite (kind_of_node n Hin). eauto.
Qed.
Lemma acts_ok l s s' : net_ok s -> acts s l = Some s' -> net_ok s'.
Proof.
  revert s. induction l as [|a l IH]; intros s Hok; cbn [Network.acts]; [by intros [= <-]|].
  destruct (act s a) as [s1|] eqn:Ea; [|done]. cbn. apply IH. by eapply act_ok.
Qed.

(** ** Every run is bounded *)

Lemma sum_ext {A} (l : list A) (f g : A -> nat) : (forall x, x ∈ l -> f x = g x) -> sum_list_with f l = sum_list_with g l.
Proof. induction l as [|x l IH]; intros H; [done|]. cbn. rewrite H, IH by set_solver. done. Qed.
Lemma sum_move {A} (l : list A) (f g : A -> nat) (a : A) : NoDup l -> a ∈ l -> (forall x, x <> a -> f x = g x) ->
  sum_list_with f l + g a = sum_list_with g l + f a.
Proof.
  intros Hnd Ha Hfg. induction l as [|x l IH]; [by apply not_elem_of_nil in Ha|]. apply NoDup_cons in Hnd as [Hx Hnd]. cbn.
  apply elem_of_cons in Ha as [->|Ha].
  - rewrite (sum_ext l f g); [lia|]. intros y Hy. apply Hfg. by intros ->.
  - rewrite Hfg by (intros ->; done). specialize (IH Hnd Ha). lia.
Qed.
Lemma sum_sublist {A} (f : A -> nat) l k : l `sublist_of` k -> sum_list_with f l <= sum_list_with f k.
Proof. induction 1; cbn; lia. Qed.
Lemma consumer_successor e v : e ∈ out_idx v -> consumer e ∈ successors (t_edges t) v.
Proof.
  intros (x & Hx & <-)%elem_of_out_idx. unfold Network.consumer, edge_at. rewrite Hx. apply list_elem_of_fmap. exists x. split; [done|].
  apply list_elem_of_In, List.filter_In. split; [by eapply list_elem_of_In, list_elem_of_lookup_2|]. unfold string_eqb. by apply bool_decide_eq_true.
Qed.

(** A weight for the pages that wait for a node: more than all the work one of them
    makes, for the node itself and downstream. *)
Definition onward (W : string -> nat) (es : list nat) : nat := sum_list_with (fun e => S (W (consumer e))) es.
Lemma onward_cons W e es : onward W (e :: es) = S (W (consumer e)) + onward W es.
Proof. done. Qed.
Lemma weights : exists W, forall v, v ∈ node_ids t -> 2 + onward W (out_idx v) <= W v.
Proof.
  destruct (detect_cycle_spec t (wf_ids _ wf) (wf_ends _ wf)) as [((l & Ho & Hl) & _)|(v & Hv & _)]; [|by destruct (wf_acyclic _ wf v)].
  enough (exists W, forall v, v ∈ l -> 2 + onward W (out_idx v) <= W v) as [W HW] by (exists W; auto). clear Hl.
  induction l as [|x l IH]; [exists (fun _ => 0); intros v Hv; by apply not_elem_of_nil in Hv|]. destruct Ho as [Hx Ho]. destruct (IH Ho) as [W HW].
  destruct (decide (x ∈ l)) as [Hin|Hni]; [exists W; intros v [->|]%elem_of_cons; auto|].
  exists (fun v => if decide (v = x) then 2 + onward W (out_idx x) else W v).
  assert (forall v, (forall w, w ∈ successors (t_edges t) v -> w ∈ l) ->
    onward (fun v => if decide (v = x) then 2 + onward W (out_idx x) else W v) (out_idx v) = onward W (out_idx v)) as Hsame.
  { intros v Hv. apply sum_ext. intros e He%consumer_successor%Hv. rewrite decide_False; [done|]. intros E. by rewrite E in He. }
  intros v [->|Hv]%elem_of_cons.
  - rewrite decide_True by done. by rewrite Hsame.
  - rewrite decide_False by (intros ->; done). rewrite Hsame; [auto|]. intros w Hw. eapply ordered_closed; [done|exact Hv|by apply tc_once].
Qed.

Section Potential.
Context (W : string -> nat) (HW : forall v, v ∈ node_ids t -> 2 + onward W (out_idx v) <= W v).

Definition local_work (v : string) (l : local) : nat :=
  match l with
  | LSource rest => length rest * W v
  | LMerge open _ => length open * W v
  | LJoin true _ => 1
  | _ => 0
  end.
Definition work (v : string) (p : option proc) : nat :=
  match p with
  | Some (MkProc Reading _ l) => 1 + local_work v l
  | Some (MkProc (Sending _ todo) _ l) => 2 + onward W todo + local_work v l
  | _ => 0
  end.
Definition waiting (s : net) (e : nat) : nat := length (queue s e) * W (consumer e).
Definition potential (s : net) : nat :=
  sum_list_with (fun v => work v (procs s !! v)) (node_ids t) + sum_list_with (waiting s) (seq 0 (length (t_edges t))).

Lemma idx_bound e v : e ∈ in_idx v \/ e ∈ out_idx v -> e ∈ seq 0 (length (t_edges t)).
Proof. rewrite elem_of_in_idx, elem_of_out_idx, elem_of_seq. intros [(x & Hx & _)|(x & Hx & _)]; apply lookup_lt_Some in Hx; lia. Qed.

Lemma potential_proc s v p q : v ∈ node_ids t -> procs s !! v = Some p ->
  potential (set_proc v q s) + work v (Some p) = potential s + work v (Some q).
Proof.
  intros Hv Hp. unfold potential. change (waiting (set_proc v q s)) with (waiting s).
  pose proof (sum_move (node_ids t) (fun u => work u (procs (set_proc v q s) !! u)) (fun u => work u (procs s !! u)) v (wf_ids _ wf) Hv) as Hm.
  assert (procs (set_proc v q s) !! v = Some q) as Eq by apply lookup_insert_eq. cbn beta in Hm. rewrite Hp, Eq in Hm.
  rewrite (Nat.add_comm _ (sum_list_with (waiting s) _)), (Nat.add_comm (sum_list_with _ (node_ids t)) (sum_list_with (waiting s) _)).
  rewrite <- !Nat.add_assoc. f_equal. apply Hm. intros u Hu. unfold set_proc. cbn [procs]. by rewrite lookup_insert_ne.
Qed.
Lemma potential_queue s e q : length (queues s) = length (t_edges t) -> e ∈ seq 0 (length (t_edges t)) ->
  potential (set_queue e q s) + length (queue s e) * W (consumer e) = potential s + length q * W (consumer e).
Proof.
  intros Hlen He. unfold potential. change (procs (set_queue e q s)) with (procs s). rewrite <- !Nat.add_assoc. f_equal.
  pose proof (sum_move (seq 0 (length (t_edges t))) (waiting (set_queue e q s)) (waiting s) e (NoDup_seq _ _) He) as Hm.
  assert (waiting (set_queue e q s) e = length q * W (consumer e)) as Eq by (unfold waiting; rewrite queue_set_eq; [done|]; rewrite Hlen; apply elem_of_seq in He; lia).
  rewrite Eq in Hm. apply Hm.
  intros x Hx. unfold waiting. by rewrite queue_set_ne.
Qed.

Lemma work_shape v l l' : shape l = shape l' -> local_work v l = local_work v l'.
Proof. destruct l, l'; cbn; try done; intros [=]; by subst. Qed.
Lemma work_outs v ph outs l : v ∈ node_ids t -> outs `sublist_of` out_idx v -> ph = Reading \/ (exists page, ph = Sending page outs) ->
  work v (Some (MkProc ph outs l)) <= W v + local_work v l.
Proof. intros Hv Ho Hph. pose proof (HW v Hv) as Hw. pose proof (sum_sublist (fun e => S (W (consumer e))) _ _ Ho) as Hs. unfold onward in *. destruct Hph as [->|[page ->]]; cbn; unfold onward; lia. Qed.
Lemma work_live s v p : procs s !! v = Some p -> ended s v = false -> 1 <= work v (Some p).
Proof. unfold ended. intros ->. destruct p as [[| |] outs l]; cbn; lia || done. Qed.
Lemma filter_shorter (e : nat) l : e ∈ l -> length (List.filter (fun x => negb (x =? e)) l) < length l.
Proof.
  assert (forall l, length (List.filter (fun x => negb (x =? e)) l) <= length l) as Hle by (intros k; induction k as [|x k IH]; cbn; [done|]; destruct (x =? e); cbn; lia).
  induction l as [|x l IH]; intros He; [by apply not_elem_of_nil in He|]. cbn. destruct (Nat.eqb_spec x e) as [|Hne]; cbn; [specialize (Hle l); lia|].
  apply elem_of_cons in He as [|He]; [by subst|]. specialize (IH He). lia.
Qed.

(** A turn leaves less to do. *)
Lemma turned_decreases s v p s' : net_ok s -> procs s !! v = Some p -> ended s v = false -> turned s v p s' -> potential s' < potential s.
Proof.
  intros Hok Hp Hv Ht. destruct (ok_known _ Hok v ltac:(eauto)) as [k Hk]. destruct (ok_procs _ Hok v k Hk) as (q & Hq & Hf). assert (q = p) as -> by congruence.
  destruct (Hf Hv) as [Ho Htodo _]. assert (v ∈ node_ids t) as Hin by (apply node_of in Hk as (n & ? & <- & _); apply list_elem_of_fmap; eauto).
  pose proof (work_live s v p Hp Hv) as Hlive. pose proof (fun q => potential_proc s v p q Hin Hp) as Hset.
  pose proof (fun e q r => potential_queue (set_proc v q s) e r (ok_queues _ Hok)) as Hqueue.
  assert (forall e x rest q, queue s e = x :: rest -> e ∈ in_idx v -> potential (set_queue e rest (set_proc v q s)) + W v = potential (set_proc v q s)) as Hpop.
  { intros e x rest q' Eq He. specialize (Hqueue e q' rest (idx_bound e v ltac:(auto))). change (queue (set_proc v q' s) e) with (queue s e) in Hqueue.
    rewrite Eq, (consumer_in e v He) in Hqueue. cbn [length] in Hqueue. lia. }
  destruct p as [ph outs l]. cbn [p_phase p_outs p_local] in *. destruct Ht as [| | page e todo Eph|page e todo Eph|page Eph|e x rest ph' l' Eph Eq He Hsh Hph|page rest page' Eph El|e open g g' ph' Eph El He Eq Hend Hph|n j Eph _ El _ _]; cbn [p_phase p_outs p_local] in *; subst.
  - specialize (Hset (MkProc (Ended err) outs0 l0)). cbn in *. lia.
  - specialize (Hset (MkProc (Ended err) outs0 l0)). erewrite <- Hpop in Hset by done. cbn in *. lia.
  - specialize (Hset (MkProc (Sending page todo) (List.filter (fun x => negb (x =? e)) outs) l)). cbn [work length] in *. rewrite onward_cons in Hset. lia.
  - specialize (Hset (MkProc (Sending page todo) outs l)). assert (e ∈ out_idx v) as Hout by (eapply sublist_in; [by eapply Htodo|left]).
    specialize (Hqueue e (MkProc (Sending page todo) outs l) (queue s e ++ [page]) (idx_bound e v ltac:(auto))).
    change (queue (set_proc v (MkProc (Sending page todo) outs l) s) e) with (queue s e) in Hqueue. rewrite length_app in Hqueue. cbn [work length] in *. rewrite onward_cons in Hset. lia.
  - specialize (Hset (MkProc Reading outs l)). cbn in *. lia.
  - specialize (Hset (MkProc ph' outs l')). pose proof (work_outs v ph' outs l' Hin Ho Hph). erewrite <- Hpop in Hset by done.
    rewrite (work_shape v l' l Hsh) in *. cbn [work] in *. lia.
  - specialize (Hset (MkProc (Sending page' outs) outs (LSource rest))). pose proof (work_outs v (Sending page' outs) outs (LSource rest) Hin Ho ltac:(eauto)).
    cbn [work local_work length] in *. lia.
  - set (open' := List.filter (fun x => negb (x =? e)) open) in *. specialize (Hset (MkProc ph' outs (LMerge open' g'))).
    pose proof (work_outs v ph' outs (LMerge open' g') Hin Ho Hph). pose proof (filter_shorter e open He). cbn [local_work] in *.
    assert (length open' * W v + W v <= length open * W v) by (fold open' in H0; nia). change (work v (Some (MkProc Reading outs (LMerge open g)))) with (1 + length open * W v) in Hset. lia.
  - specialize (Hset (MkProc Reading outs (LJoin false j))). cbn in *. lia.
Qed.

(** The number of actions a run can still take. *)
Lemma acts_bounded l s s' : net_ok s -> acts s l = Some s' -> length l <= potential s + (if cancelled s then 0 else 1).
Proof.
  revert s. induction l as [|a l IH]; intros s Hok; cbn [Network.acts length]; [lia|].
  destruct (act s a) as [s1|] eqn:Ea; [|done]. cbn [mbind option_bind]. intros Hl. specialize (IH s1 (act_ok _ _ _ Hok Ea) Hl).
  apply (act_turned _ _ _ Hok) in Ea as [(v & p & Hp & Hv & Ht)|[Ec ->]].
  - assert (cancelled s1 = cancelled s) as <- by by destruct Ht. apply turned_decreases in Ht; [lia|done..].
  - rewrite Ec. change (potential (MkNet (procs s) (queues s) true)) with (potential s) in IH. cbn in IH. lia.
Qed.
End Potential.

(** ** No run gets stuck *)

(** Join [j] waits for join [j'] when a node feeds the build side of [j] and the probe
    side of [j']: it may be blocked sending to [j'], which builds, and then [j]'s build
    side never ends. *)
Definition waits (j j' : string) : Prop := exists n n' x, kind_of t j = Some (NJoin n) /\ kind_of t j' = Some (NJoin n') /\
  rtc (edge (t_edges t)) x (producer (build_edge j n)) /\ rtc (edge (t_edges t)) x (producer (probe_edge j' n')).

Lemma producer_node e v : e ∈ in_idx v -> producer e ∈ node_ids t.
Proof. intros (x & Hin & <- & _)%idx_edge. by apply (wf_ends _ wf). Qed.
Lemma consumer_node e v : e ∈ out_idx v -> consumer e ∈ node_ids t.
Proof. intros He%out_is_in. pose proof (idx_edge _ _ He) as (x & Hin & _ & <-). by apply (wf_ends _ wf). Qed.
Lemma node_kind v : v ∈ node_ids t -> is_Some (kind_of t v).
Proof. intros (n & -> & Hn)%list_elem_of_fmap. rewrite (kind_of_node n Hn). eauto. Qed.

Section Stuck.
Context (s : net) (Hok : net_ok s).
Context (Hstuck : forall v i, v ∈ node_ids t -> i ∈ 0 :: in_idx v -> turn s v i = None).

(** A node that has not ended waits for room in an output, or for an input whose
    producer has not ended. *)
Definition blocked_on (v : string) (e : nat) : Prop := e ∈ out_idx v /\ queue s e <> [] /\ ended s (consumer e) = false.
Definition starved (e : nat) : Prop := queue s e = [] /\ ended s (producer e) = false.
Definition starving (v : string) : Prop :=
  exists e, e ∈ in_idx v /\ starved e /\
  forall e', e' ∈ in_idx v -> queue s e' <> [] -> exists n, kind_of t v = Some (NJoin n) /\ e = build_edge v n /\ e' = probe_edge v n.

Lemma recv_blocked e : recv t s e = Blocked -> starved e.
Proof. unfold recv, starved. destruct (queue s e); [|done]. by destruct (ended s _). Qed.
Lemma single_starving v : length (predecessors (t_edges t) v) = 1 -> recv t s (single_input t v) = Blocked -> starving v.
Proof.
  intros Hs%single_input_in Hr%recv_blocked. exists (single_input t v). rewrite Hs. split; [left|]. split; [done|].
  intros e' ->%list_elem_of_singleton Hq. by destruct Hr.
Qed.
Lemma stuck_node v : v ∈ node_ids t -> ended s v = false -> (exists e, blocked_on v e) \/ starving v.
Proof.
  intros Hv He. destruct (node_kind v Hv) as [k Hk]. destruct (ok_procs _ Hok v k Hk) as (p & Hp & Hf). destruct (Hf He) as [Ho Htodo Hl].
  pose proof (fun i => Hstuck v i Hv) as Hno. unfold Network.turn in Hno. rewrite Hp in Hno. cbn [mbind option_bind] in Hno.
  unfold ended in He. rewrite Hp in He. destruct p as [ph outs l]. cbn [p_phase p_outs p_local] in *. pose proof (degrees_of v k Hk) as Hdeg.
  destruct ph as [|page todo|]; [right| |done].
  - rewrite Hk in Hno. pose proof (Hno 0 ltac:(left)) as H0. destruct k as [src|f|c fo| |n|], l; try done; cbn [local_fits] in Hl.
    + apply (single_starving v (proj1 Hdeg)). unfold pipe_turn in H0. by destruct (recv _ _ _).
    + apply (single_starving v (proj1 Hdeg)). unfold pipe_turn in H0. by destruct (recv _ _ _).
    + destruct open as [|o os] eqn:Eo; [done|]. rewrite <- Eo in *. assert (forall i, i ∈ open -> starved i) as Hall.
      { intros i Hi. destruct Hl as [Hin _]. specialize (Hno i ltac:(right; auto)). unfold merge_turn in Hno. rewrite Eo in Hno at 1. rewrite bool_decide_eq_true_2 in Hno by done.
        apply recv_blocked. destruct (recv t s i); [by destruct (merge_step _ _ _)..|done]. }
      exists o. destruct Hl as [Hin Hout]. assert (o ∈ open) as Hoo by (rewrite Eo; left). split; [auto|]. split; [auto|].
      intros e' He' Hq. destruct (decide (e' ∈ open)) as [Hi|Hi]; [by destruct (Hall e' Hi)|by destruct (Hout e' He' Hi)].
    + destruct building.
      * exists (build_edge v n). split; [by apply build_edge_in|]. split.
        { apply recv_blocked. unfold build_turn in H0. destruct (recv _ _ _); [by destruct (add_build_page _ _ _ _)|by destruct (failed_upstream _ _)|done]. }
        intros e' He' Hq. exists n. split; [done|]. split; [done|]. destruct (join_inputs v n e' Hk He') as [->|]; [|done]. exfalso.
        unfold build_turn, recv in H0. destruct (queue s (build_edge v n)); [done|]. by destruct (add_build_page _ _ _ _).
      * exists (probe_edge v n). split; [by apply probe_edge_in|]. unfold probe_turn in H0. destruct (recv _ _ _) eqn:Er; [by destruct (probe_page _ _ _ _)|done|].
        apply recv_blocked in Er. split; [done|]. intros e' He' Hq. exfalso. destruct (join_inputs v n e' Hk He') as [->| ->]; [by destruct Hl|by destruct Er].
    + apply (single_starving v (proj1 Hdeg)). unfold sink_turn in H0. by destruct (recv _ _ _).
  - left. specialize (Hno 0 ltac:(left)). unfold send_turn in Hno. destruct todo as [|e todo]; [done|]. exists e. cbn [p_outs p_local] in Hno.
    destruct (ended s (consumer e)) eqn:Ee; [done|]. split; [eapply sublist_in; [by eapply Htodo|left]|]. split; [|done]. intros Eq. rewrite Eq in Hno. cbn [length] in Hno.
    destruct (Nat.ltb_spec 0 (capacity e)) as [|Hc]; [done|]. unfold Network.capacity in Hc. lia.
Qed.

Lemma weight_drop W v e : (forall v, v ∈ node_ids t -> 2 + onward W (out_idx v) <= W v) -> v ∈ node_ids t -> e ∈ out_idx v -> W (consumer e) < W v.
Proof.
  intros HW Hv He. specialize (HW v Hv). enough (S (W (consumer e)) <= onward W (out_idx v)) by lia. unfold onward.
  change (S (W (consumer e))) with ((fun e => S (W (consumer e))) e). by apply sum_list_with_in.
Qed.
Lemma weight_top (W : string -> nat) v : v ∈ node_ids t -> W v <= sum_list_with W (node_ids t).
Proof. apply sum_list_with_in. Qed.

(** Downstream of a full edge there is a join that builds and is not being fed. *)
Definition jammed (j : string) (n : JoinNode) : Prop := kind_of t j = Some (NJoin n) /\ starved (build_edge j n).
Lemma blocked_downstream W v e : (forall v, v ∈ node_ids t -> 2 + onward W (out_idx v) <= W v) -> v ∈ node_ids t -> blocked_on v e ->
  exists j n, jammed j n /\ rtc (edge (t_edges t)) v (producer (probe_edge j n)).
Proof.
  intros HW. remember (W v) as m eqn:Em. revert v e Em. induction (lt_wf m) as [m _ IH]. intros v e -> Hv (He & Hq & Hc).
  pose proof (consumer_node e v He) as Hw. pose proof (out_is_in e v He) as Hin.
  destruct (stuck_node (consumer e) Hw Hc) as [[e' Hb]|(e0 & _ & Hs & Hjoin)].
  - destruct (IH (W (consumer e)) (weight_drop W v e HW Hv He) (consumer e) e' eq_refl Hw Hb) as (j & n & Hj & Hr). exists j, n. split; [done|].
    eapply rtc_l; [|exact Hr]. rewrite <- (producer_out e v He) at 1. by apply idx_edge.
  - destruct (Hjoin e Hin Hq) as (n & Hk & -> & Eq). exists (consumer e), n. split; [done|]. rewrite <- Eq, (producer_out e v He). done.
Qed.
Lemma starving_upstream v : v ∈ node_ids t -> ended s v = false -> exists u e, rtc (edge (t_edges t)) u v /\ u ∈ node_ids t /\ blocked_on u e.
Proof.
  destruct weights as [W HW]. pose proof (fun v => weight_top W v) as Htop. remember (sum_list_with W (node_ids t) - W v) as m eqn:Em. revert v Em. induction (lt_wf m) as [m _ IH]. intros v -> Hv Hl.
  destruct (stuck_node v Hv Hl) as [[e Hb]|(e & He & [Hq Hp] & _)]; [by exists v, e|]. pose proof (producer_node e v He) as Hpn.
  pose proof (weight_drop W (producer e) e HW Hpn (in_is_out e v He)) as Hd. rewrite (consumer_in e v He) in Hd. pose proof (Htop _ Hpn).
  destruct (IH (sum_list_with W (node_ids t) - W (producer e)) ltac:(lia) (producer e) eq_refl Hpn Hp) as (u & e' & Hr & Hu & Hb). exists u, e'.
  split; [|done]. eapply rtc_r; [exact Hr|by apply idx_edge].
Qed.

Lemma jammed_waits j n : jammed j n -> exists j' n', jammed j' n' /\ waits j j'.
Proof.
  intros [Hk [Hq He]]. pose proof (build_edge_in j n Hk) as Hin. destruct (starving_upstream (producer (build_edge j n))) as (u & e & Hr & Hu & Hb); [by eapply producer_node|done|].
  destruct weights as [W HW]. destruct (blocked_downstream W u e HW Hu Hb) as (j' & n' & [Hk' Hs'] & Hr'). exists j', n'. split; [done|]. exists n, n', u. done.
Qed.
(** A jammed join starts a chain of joins, each waiting for the next, longer than there
    are nodes. *)
Lemma jammed_circle j n : jammed j n -> exists c, tc waits c c.
Proof.
  intros Hj. assert (forall m (seen : gset string), size (list_to_set (node_ids t) ∖ seen : gset string) <= m -> forall j n, jammed j n -> (forall x, x ∈ seen -> tc waits x j) -> exists c, tc waits c c) as H.
  { clear j n Hj. induction m as [|m IH]; intros seen Hm j n Hj Hseen; destruct (decide (j ∈ seen)) as [Hin|Hni]; eauto.
    - assert (j ∈ node_ids t) as Hn by (destruct Hj as [(x & ? & <- & _)%node_of _]; apply list_elem_of_fmap; eauto).
      assert (size (list_to_set (node_ids t) ∖ seen : gset string) <> 0); [|lia]. rewrite size_empty_iff. set_solver.
    - destruct (jammed_waits j n Hj) as (j' & n' & Hj' & Hw). apply (IH ({[j]} ∪ seen)) with j' n'; [|done|].
      + assert (j ∈ node_ids t) as Hn by (destruct Hj as [(x & ? & <- & _)%node_of _]; apply list_elem_of_fmap; eauto).
        enough (size (list_to_set (node_ids t) ∖ ({[j]} ∪ seen) : gset string) < size (list_to_set (node_ids t) ∖ seen : gset string)) by lia.
        apply subset_size. set_solver.
      + intros x [->%elem_of_singleton|Hx]%elem_of_union; [by apply tc_once|]. eapply tc_r; [by apply Hseen|done]. }
  eapply (H _ ∅); [done|exact Hj|set_solver].
Qed.
Lemma stuck_all_ended : (forall j, ~ tc waits j j) -> all_ended t s = true.
Proof.
  intros Hac. unfold all_ended. apply forallb_forall. intros v Hv%list_elem_of_In. destruct (ended s v) eqn:E; [done|]. exfalso.
  destruct (starving_upstream v Hv E) as (u & e & _ & Hu & Hb). destruct weights as [W HW]. destruct (blocked_downstream W u e HW Hu Hb) as (j & n & Hj & _).
  destruct (jammed_circle j n Hj) as [c Hc]. by destruct (Hac c).
Qed.
End Stuck.
End Liveness.

(** With one join there is nothing for it to wait for. *)
Lemma one_join_no_circle t : well_formed t -> (forall j j' n n', kind_of t j = Some (NJoin n) -> kind_of t j' = Some (NJoin n') -> j = j') ->
  forall j, ~ tc (waits t) j j.
Proof.
  intros wf Hone j Ht. assert (exists j', waits t j j') as (j' & n & n' & x & Hk & Hk' & Hb & Hp) by (inversion Ht; eauto).
  assert (j' = j) as -> by eauto. assert (n' = n) as -> by congruence. pose proof (degrees_of t wf j _ Hk) as (_ & _ & Hlb & Hlp & _).
  destruct (edge_labelled_spec t j _ Hlb) as (eb & _ & Eb & Hfb). destruct (edge_labelled_spec t j _ Hlp) as (ep & _ & Ep & Hfp).
  destruct (node_of t j _ Hk) as (m & Hm & <- & Hkm). unfold producer, edge_at in *. rewrite Eb in Hb. rewrite Ep in Hp.
  eapply (wf_joins _ wf m n eb ep x); eauto.
Qed.

(** C8: A run of a topology that [validate] accepts, and in which no joins wait for each
    other in a circle, always completes. There is a bound on the number of actions of
    every run, whatever the order in which nodes take their turns, fail or are stopped;
    and as long as a node has not ended some node can take a turn, so a run that can go
    no further has ended everywhere. *)
Theorem topology_run_completes json_str float_str display debug_labels t default_capacity :
  validate debug_labels t = Ok tt -> (forall j, ~ tc (waits t) j j) ->
  exists bound, forall l s, acts json_str float_str display t default_capacity (start t) l = Some s ->
    length l <= bound /\ (enabled json_str float_str display t default_capacity s = [] -> all_ended t s = true).
Proof.
  intros wf%validate_iff Hno. destruct (weights t wf) as [W HW]. eexists. intros l s Hl. split.
  - eapply (acts_bounded _ _ _ _ _ wf W HW); [by apply start_ok|done].
  - intros He. eapply (stuck_all_ended json_str float_str display t default_capacity wf); [eapply acts_ok; [exact wf|by apply start_ok|exact Hl]| |done].
    intros v i Hv Hi. destruct (turn _ _ _ _ _ _ _ _) eqn:E; [|done]. exfalso. eapply (not_elem_of_nil (v, i)). rewrite <- He. unfold enabled.
    apply list_elem_of_In, List.filter_In. cbn [fst snd]. rewrite E. split; [|done]. apply list_elem_of_In, list_elem_of_bind. exists v. split; [|done].
    apply list_elem_of_fmap. eauto.
Qed.

(** ** Examples *)

Definition one_page : StreamPage := MkStreamPage [] None.
Definition two_pages (c : string) : NodeKind := NSource (MkSourceNode c false [Ok one_page; Ok one_page]).
Definition a_join : NodeKind := NJoin (MkJoinNode JoinConfig_default "build" "probe").
Definition joined : Topology := MkTopology
  [MkNode "s1" (two_pages "a"); MkNode "s2" (two_pages "b"); MkNode "j" a_join; MkNode "k" NSink]
  [MkEdge "s1" "j" (Some "build"); MkEdge "s2" "j" (Some "probe"); MkEdge "j" "k" None].
Lemma topology_run_completes_witness :
  validate (fun _ => EmptyString) joined = Ok tt /\
  exists bound, forall l s, acts (fun s => s) (fun _ => EmptyString) (fun _ => EmptyString) joined 1 (start joined) l = Some s ->
    length l <= bound /\ (enabled (fun s => s) (fun _ => EmptyString) (fun _ => EmptyString) joined 1 s = [] -> all_ended joined s = true).
Proof.
  assert (validate (fun _ => EmptyString) joined = Ok tt) as Hv by (vm_compute; reflexivity). split; [exact Hv|].
  eapply topology_run_completes; [exact Hv|]. apply one_join_no_circle; [by eapply validate_iff|].
  assert (forall j n, kind_of joined j = Some (NJoin n) -> j = "j") as H.
  { intros j n (m & Hm & <- & Hk)%node_of. cbn in Hm. rewrite !elem_of_cons in Hm. destruct Hm as [->|[->|[->|[->|Hm]]]]; try done. by apply not_elem_of_nil in Hm. }
  intros j j' n n' Hj Hj'. by rewrite (H j n Hj), (H j' n' Hj').
Defined.

(** Two sources, each teed into the build side of one join and the probe side of the
    other. No node feeds both sides of one join, so [validate] accepts the graph. *)
Definition crossed : Topology := MkTopology
  [MkNode "s1" (two_pages "a"); MkNode "s2" (two_pages "b"); MkNode "t1" (NTee 1 None); MkNode "t2" (NTee 1 None);
   MkNode "j1" a_join; MkNode "j2" a_join; MkNode "k1" NSink; MkNode "k2" NSink]
  [MkEdge "s1" "t1" None; MkEdge "s2" "t2" None;
   MkEdge "t1" "j1" (Some "build"); MkEdge "t1" "j2" (Some "probe");
   MkEdge "t2" "j2" (Some "build"); MkEdge "t2" "j1" (Some "probe");
   MkEdge "j1" "k1" None; MkEdge "j2" "k2" None].
Definition into_the_jam : list action :=
  (fun v => Turn v 0) <$> (replicate 4 "s1" ++ replicate 4 "s2" ++ ["t1"] ++ replicate 3 "s1" ++ replicate 4 "t1" ++
                           ["t2"] ++ replicate 3 "s2" ++ replicate 4 "t2" ++ ["j1"; "t1"; "j1"; "j2"; "t2"; "j2"]).
(** Each join waits for the other: a run of the accepted graph reaches a state in which
    nodes are left and none of them can move. *)
Example crossed_joins_jam :
  validate (fun _ => EmptyString) crossed = Ok tt /\
  exists s, acts (fun s => s) (fun _ => EmptyString) (fun _ => EmptyString) crossed 1 (start crossed) into_the_jam = Some s /\
    enabled (fun s => s) (fun _ => EmptyString) (fun _ => EmptyString) crossed 1 s = [] /\ all_ended crossed s = false.
Proof.
  split; [vm_compute; reflexivity|].
  destruct (acts _ _ _ _ _ _ _) as [s|] eqn:E; [|vm_compute in E; discriminate]. exists s. split; [done|].
  vm_compute in E. injection E as <-. split; vm_compute; reflexivity.
Qed.
