(* ===== verification/FileStore.v ===== *)
(** The file state store (crates/core/src/state.rs, [FileStateStore]) over a file
    system that may fail, or die, at any call.

    A directory is a map from names to inodes. Directory changes are journalled:
    until the directory is synced, the death of the machine keeps a prefix of them.
    The root directory itself is an entry of its parent, which the store never syncs:
    one it has just made may be gone after the death of the machine.
    A file's bytes are durable once the file is synced; until then the death of the
    machine may leave anything in it. The script [faults] says how each call ends.
    JSON text, the digest of long keys and the encryption are parameters. Other
    processes are not modelled: an OS lock is free when it is asked for. *)
From S2P Require Import Prelude Errors Json Text StateKey StateFile Drift Engine.
From Stdlib Require Import Ascii.

Local Open Scope Z_scope.

(** ** The file system *)

Inductive io_error := NotFound | IoOther.
(** How a call ends: normally, refused, done but reported as failed, and with the
    death of the machine before or after its effect. *)
Inductive io_fault := Works | Refuses | LosesReply | DiesFirst | DiesAfter.

Record file := MkFile { f_data : string; f_synced : bool }.
Notation dir := (gmap string nat).
Inductive dirop := Link (n : string) (i : nat) | Unlink (n : string) | Rename (a b : string).
Definition apply_dirop (v : dir) (o : dirop) : dir :=
  match o with
  | Link n i => <[n := i]> v
  | Unlink n => delete n v
  | Rename a b => match v !! a with Some i => <[b := i]> (delete a v) | None => v end
  end.

(** The root directory: not there, made and not yet known to be durable, durable. *)
Inductive root_state := RootAbsent | RootFresh | RootDurable.
(** The state directory, with the store's in-process cell ([migrated]) and the
    process-wide counter of temporary names. *)
Record disk := MkDisk {
  inodes : gmap nat file;
  durable : dir;
  journal : list dirop;
  next_inode : nat;
  root_at : root_state;
  migrated : bool;
  temp_seq : Z;
  faults : list io_fault;
}.
Definition root_exists (d : disk) : bool := match root_at d with RootAbsent => false | _ => true end.
Arguments root_exists : simpl never.
Definition names (d : disk) : dir := foldl apply_dirop (durable d) (journal d).
Definition set_inodes (d : disk) (f : gmap nat file) : disk :=
  MkDisk f (durable d) (journal d) (next_inode d) (root_at d) (migrated d) (temp_seq d) (faults d).
Definition set_faults (d : disk) (f : list io_fault) : disk :=
  MkDisk (inodes d) (durable d) (journal d) (next_inode d) (root_at d) (migrated d) (temp_seq d) f.
Definition journalled (d : disk) (o : dirop) : disk :=
  MkDisk (inodes d) (durable d) (journal d ++ [o]) (next_inode d) (root_at d) (migrated d) (temp_seq d) (faults d).
Definition set_migrated (d : disk) : disk :=
  MkDisk (inodes d) (durable d) (journal d) (next_inode d) (root_at d) true (temp_seq d) (faults d).
Definition bump_seq (d : disk) : disk :=
  MkDisk (inodes d) (durable d) (journal d) (next_inode d) (root_at d) (migrated d) (wadd64 (temp_seq d) 1) (faults d).

(** Code over the disk ends as engine code does. *)
Definition D (A : Type) : Type := disk -> outcome A * disk.
#[export] Instance D_ret : MRet D := fun A a d => (Val a, d).
#[export] Instance D_bind : MBind D := fun A B k m d =>
  match m d with
  | (Val a, d) => k a d
  | (Fault e, d) => (Fault e, d)
  | (Crashed, d) => (Crashed, d)
  end.
Definition fail {A} (e : FaucetError) : D A := fun d => (Fault e, d).
Definition of_result {A} (r : result A FaucetError) : D A := match r with Ok a => mret a | Err e => fail e end.
(** An [async] block whose error is kept in a variable. *)
Definition caught {A} (m : D A) : D (result A FaucetError) := fun d =>
  match m d with
  | (Val a, d) => (Val (Ok a), d)
  | (Fault e, d) => (Val (Err e), d)
  | (Crashed, d) => (Crashed, d)
  end.

Definition effect (A : Type) : Type := disk -> result A io_error * disk.
Definition syscall {A} (eff : effect A) : D (result A io_error) := fun d =>
  let d0 := set_faults d (tail (faults d)) in
  match faults d with
  | Refuses :: _ => (Val (Err IoOther), d0)
  | LosesReply :: _ => (Val (Err IoOther), (eff d0).2)
  | DiesFirst :: _ => (Crashed, d0)
  | DiesAfter :: _ => (Crashed, (eff d0).2)
  | _ => let '(r, d1) := eff d0 in (Val r, d1)
  end.

(** [create_dir_all]. *)
Definition fs_mkdir : effect unit := fun d =>
  (Ok tt, MkDisk (inodes d) (durable d) (journal d) (next_inode d) (match root_at d with RootAbsent => RootFresh | at_ => at_ end)
            (migrated d) (temp_seq d) (faults d)).
Definition new_file (n : string) (d : disk) : disk :=
  MkDisk (<[next_inode d := MkFile EmptyString false]> (inodes d)) (durable d) (journal d ++ [Link n (next_inode d)])
    (S (next_inode d)) (root_at d) (migrated d) (temp_seq d) (faults d).
(** [File::create]: truncates a file that exists. *)
Definition fs_create (n : string) : effect nat := fun d =>
  if root_exists d then
    match names d !! n with
    | Some i => (Ok i, set_inodes d (<[i := MkFile EmptyString false]> (inodes d)))
    | None => (Ok (next_inode d), new_file n d)
    end
  else (Err NotFound, d).
(** [OpenOptions] of the lock file: created, never truncated. *)
Definition fs_open (n : string) : effect unit := fun d =>
  if root_exists d then
    match names d !! n with Some _ => (Ok tt, d) | None => (Ok tt, new_file n d) end
  else (Err NotFound, d).
Definition fs_write (i : nat) (bytes : string) : effect unit := fun d =>
  (Ok tt, set_inodes d (<[i := MkFile bytes false]> (inodes d))).
Definition fs_sync (i : nat) : effect unit := fun d =>
  (Ok tt, set_inodes d (alter (fun f => MkFile (f_data f) true) i (inodes d))).
Definition fs_rename (a b : string) : effect unit := fun d =>
  match names d !! a with Some _ => (Ok tt, journalled d (Rename a b)) | None => (Err NotFound, d) end.
Definition fs_remove (n : string) : effect unit := fun d =>
  match names d !! n with Some _ => (Ok tt, journalled d (Unlink n)) | None => (Err NotFound, d) end.
Definition fs_open_dir : effect unit := fun d => (if root_exists d then Ok tt else Err NotFound, d).
Definition fs_sync_dir : effect unit := fun d =>
  (Ok tt, MkDisk (inodes d) (names d) [] (next_inode d) (root_at d) (migrated d) (temp_seq d) (faults d)).
Definition content (d : disk) (v : dir) (n : string) : option string := v !! n ≫= fun i => f_data <$> inodes d !! i.
Definition fs_read (n : string) : effect string := fun d =>
  (match content d (names d) n with Some bytes => Ok bytes | None => Err NotFound end, d).
Definition fs_list : effect (list string) := fun d =>
  (if root_exists d then Ok (map_to_list (names d)).*1 else Err NotFound, d).
Definition fs_next : effect unit := fun d => (Ok tt, d).
Definition fs_exists (n : string) : effect bool := fun d => (Ok (bool_decide (is_Some (names d !! n))), d).
Definition fs_root_exists : effect bool := fun d => (Ok (root_exists d), d).

(** ** The store *)

(** What the store is built with: its root, the process token of temporary names,
    serde_json, SHA-256, the text of an I/O error and, when state is encrypted, the
    sealing of bytes for a key. *)
Class StoreEnv := {
  root : string;
  proc_token : string;
  digest : string -> string;
  debug_char : string -> Z -> string;
  io_text : io_error -> string;
  to_vec : Value -> string;
  from_slice : string -> result Value string;
  display : FaucetError -> string;
  encryption : option ((string -> string -> string) * (string -> string -> result string FaucetError));
}.

Section Store.
Context `{StoreEnv}.
Implicit Types (key : string) (value : Value).

(** [str::strip_suffix]. *)
Fixpoint strip_suffix (suf s : string) : option string :=
  if string_eqb s suf then Some EmptyString
  else match s with String c s => String c <$> strip_suffix suf s | EmptyString => None end.

Definition stem_of key : string := safe_filename digest key.
Definition entry_path key : string := stem_of key +:+ ".json".
Definition temp_path key (seq : Z) : string := stem_of key +:+ "." +:+ proc_token +:+ "." +:+ dec seq +:+ ".json.tmp".
Definition lock_path key : string := stem_of key +:+ ".json.lock".
Definition key_sidecar key : option string :=
  if contains_char TILDE (stem_of key) then Some (stem_of key +:+ ".key") else None.
Definition full (n : string) : string := root +:+ "/" +:+ n.

Definition or_fail {A} (m : D (result A io_error)) (what : string) : D A :=
  r ← m; match r with
         | Ok a => mret a
         | Err e => fail (State (what +:+ ": " +:+ io_text e))
         end.

Definition ensure_root : D unit := or_fail (syscall fs_mkdir) ("failed to create state dir " +:+ root).

(** [write_synced], [sync_dir]. *)
Definition write_synced (n bytes : string) : D unit :=
  i ← or_fail (syscall (fs_create n)) ("failed to write state key file " +:+ full n);
  _ ← or_fail (syscall (fs_write i bytes)) ("failed to write state key file " +:+ full n);
  _ ← or_fail (syscall (fs_sync i)) ("failed to fsync state key file " +:+ full n);
  mret tt.
Definition sync_dir : D unit :=
  _ ← or_fail (syscall fs_open_dir) ("failed to open state dir " +:+ root +:+ " for fsync");
  or_fail (syscall fs_sync_dir) ("failed to fsync state dir " +:+ root).

(** [read_entry]: sealed bytes are opened or refused, then parsed. *)
Definition is_encrypted (bytes : string) : bool := starts_with "FCT1" bytes.
Definition open_bytes key (n bytes : string) : result string FaucetError :=
  if is_encrypted bytes then
    match encryption with
    | Some (_, decrypt_bound) =>
        match decrypt_bound bytes key with
        | Ok plain => Ok plain
        | Err e => Err (State ("state file " +:+ full n +:+ " could not be decrypted: " +:+ display e))
        end
    | None => Err (State ("state file " +:+ full n +:+ " is encrypted but no `encryption` block is configured on the file state store — add `state.config.encryption` with the original key"))
    end
  else Ok bytes.
Definition parse_entry key (n bytes : string) : result Value FaucetError :=
  match open_bytes key n bytes with
  | Err e => Err e
  | Ok bytes => match from_slice bytes with
                | Ok v => Ok v
                | Err e => Err (State ("failed to parse state file " +:+ full n +:+ ": " +:+ e))
                end
  end.
Definition read_entry key (n : string) : D (option Value) :=
  r ← syscall (fs_read n);
  match r with
  | Ok bytes => v ← of_result (parse_entry key n bytes); mret (Some v)
  | Err NotFound => mret None
  | Err e => fail (State ("failed to read state file " +:+ full n +:+ ": " +:+ io_text e))
  end.

(** [migrate_legacy_names]: which files of the directory have another name now, and
    the renaming of one. *)
Definition list_failed : string := "failed to list state dir " +:+ root.
Fixpoint legacy_files (entries : list string) : D (list (string * string)) :=
  match entries with
  | [] => _ ← or_fail (syscall fs_next) list_failed; mret []
  | n :: entries =>
      _ ← or_fail (syscall fs_next) list_failed;
      l ← legacy_files entries;
      mret (match strip_suffix ".json" n ≫= key_from_filename debug_char with
            | Some key => if string_eqb (entry_path key) n then l else (key, n) :: l
            | None => l
            end)
  end.
Definition rename_legacy (key from : string) : D unit :=
  _ ← match key_sidecar key with Some n => write_synced n key | None => mret tt end;
  exists_ ← syscall (fs_exists (entry_path key));
  match exists_ with
  | Ok true => _ ← syscall (fs_remove from); mret tt
  | _ =>
      r ← syscall (fs_rename from (entry_path key));
      match r with
      | Ok _ | Err NotFound => mret tt
      | Err e => fail (State ("failed to rename legacy state file " +:+ full from +:+ " to " +:+ full (entry_path key) +:+ ": " +:+ io_text e))
      end
  end.
Fixpoint rename_all (l : list (string * string)) : D unit :=
  match l with
  | [] => mret tt
  | (key, from) :: l => _ ← rename_legacy key from; rename_all l
  end.
Definition migrate_names : D unit :=
  r ← syscall fs_list;
  match r with
  | Err NotFound => mret tt
  | Err e => fail (State (list_failed +:+ ": " +:+ io_text e))
  | Ok entries => renames ← legacy_files entries; rename_all renames
  end.
(** [OnceCell::get_or_try_init]: a failed migration is tried again. *)
Definition migration_done : D unit := fun d => (Val tt, set_migrated d).
Definition migrate_legacy_names : D unit := fun d =>
  if migrated d then (Val tt, d)
  else (_ ← migrate_names; migration_done) d.

(** [put_unlocked]: temporary file, fsync, rename, directory fsync. *)
Definition sealed key value : string :=
  match encryption with Some (encrypt_bound, _) => encrypt_bound (to_vec value) key | None => to_vec value end.
Definition temp_name key : D string := fun d => (Val (temp_path key (temp_seq d)), bump_seq d).
Definition commit_temp (tmp final bytes : string) : D unit :=
  i ← or_fail (syscall (fs_create tmp)) ("failed to create temp state file " +:+ full tmp);
  _ ← or_fail (syscall (fs_write i bytes)) ("failed to write temp state file " +:+ full tmp);
  _ ← or_fail (syscall (fs_sync i)) ("failed to fsync temp state file " +:+ full tmp);
  or_fail (syscall (fs_rename tmp final)) ("failed to commit state file " +:+ full final).
Definition put_unlocked key value : D unit :=
  _ ← ensure_root;
  _ ← migrate_legacy_names;
  tmp ← temp_name key;
  _ ← match key_sidecar key with Some n => write_synced n key | None => mret tt end;
  written ← caught (commit_temp tmp (entry_path key) (sealed key value));
  match written with
  | Err e => _ ← syscall (fs_remove tmp); fail e
  | Ok _ => sync_dir
  end.

(** The trait's operations. *)
Definition file_get key : D (option Value) :=
  _ ← of_result (validate_state_key debug_char key);
  _ ← migrate_legacy_names;
  read_entry key (entry_path key).
Definition file_put key value : D unit :=
  _ ← of_result (validate_state_key debug_char key);
  put_unlocked key value.
(** [acquire_lock_file] and [LockFile::remove], uncontended. *)
Definition acquire_lock_file (n : string) : D unit :=
  _ ← or_fail (syscall (fs_open n)) ("failed to create state lock " +:+ full n);
  _ ← or_fail (syscall fs_next) ("failed to lock state lock " +:+ full n);
  _ ← or_fail (syscall fs_next) "failed to stat state lock";
  or_fail (syscall fs_next) ("failed to stat state lock " +:+ full n).
Definition remove_ignoring (what n : string) : D bool :=
  r ← syscall (fs_remove n);
  match r with
  | Ok _ => mret true
  | Err NotFound => mret false
  | Err e => fail (State (what +:+ " " +:+ full n +:+ ": " +:+ io_text e))
  end.
Definition file_delete key : D unit :=
  _ ← of_result (validate_state_key debug_char key);
  _ ← migrate_legacy_names;
  there ← syscall fs_root_exists;
  let held := match there with Ok b => b | Err _ => false end in
  _ ← (if held then acquire_lock_file (lock_path key) else mret tt);
  removed ← remove_ignoring "failed to delete state file" (entry_path key);
  removed' ← match key_sidecar key with
             | Some n => remove_ignoring "failed to delete state file" n
             | None => mret false
             end;
  _ ← (if removed || removed' then sync_dir else mret tt);
  if held then _ ← remove_ignoring "failed to delete state lock" (lock_path key); mret tt else mret tt.
Definition file_compare_and_put key (expected : option Value) value : D bool :=
  _ ← of_result (validate_state_key debug_char key);
  _ ← ensure_root;
  _ ← acquire_lock_file (lock_path key);
  current ← file_get key;
  if bool_decide (current = expected) then _ ← file_put key value; mret true else mret false.

(** [list]. *)
Fixpoint listed_keys (prefix : string) (entries : list string) : D (list string) :=
  match entries with
  | [] => _ ← or_fail (syscall fs_next) list_failed; mret []
  | n :: entries =>
      _ ← or_fail (syscall fs_next) list_failed;
      key ← match strip_suffix ".json" n with
            | None => mret None
            | Some stem =>
                if contains_char TILDE stem then
                  r ← syscall (fs_read (stem +:+ ".key"));
                  mret (match r with
                        | Ok k => match validate_state_key debug_char k with Ok _ => Some k | Err _ => None end
                        | Err _ => None
                        end)
                else mret (key_from_filename debug_char stem)
            end;
      l ← listed_keys prefix entries;
      mret (match key with Some k => if starts_with prefix k then k :: l else l | None => l end)
  end.
Definition file_list (prefix : string) : D (list string) :=
  _ ← migrate_legacy_names;
  r ← syscall fs_list;
  match r with
  | Err NotFound => mret []
  | Err e => fail (State (list_failed +:+ ": " +:+ io_text e))
  | Ok entries => keys ← listed_keys prefix entries; mret (dedup (sort_by id keys))
  end.
End Store.
