(* ===== verification/Durability.v ===== *)
(** What the file state store promises across failures: a stored value is durable
    once [put] returns into a directory that is, and a [put] that fails or dies half-way leaves the old or
    the new value, never a torn one. *)
From S2P Require Import Prelude Errors Json Text StateKey StateFile Engine FileStore.
From Stdlib Require Import Ascii.

Local Open Scope Z_scope.

(** ** What the death of the machine leaves *)

(** The directory as of a prefix of the journal. *)
Definition view (d : disk) (v : dir) : Prop :=
  exists k, v = foldl apply_dirop (durable d) (take k (journal d)).

(** After the machine died: a view of the directory, the bytes of synced files, and
    anything in the others; a new process, without faults. A root directory that was
    not durable may be gone, with all that is in it. *)
Definition after_death (d : disk) (v : dir) (junk : nat -> string) (at_ : root_state) : disk :=
  MkDisk (map_imap (fun i f => Some (if f_synced f then f else MkFile (junk i) false)) (inodes d)) v [] (next_inode d) at_ false 0 [].
Definition survived (s : root_state) : root_state := match s with RootAbsent => RootAbsent | _ => RootDurable end.
Definition recovers (d d' : disk) : Prop :=
  exists v junk, (view d v /\ d' = after_death d v junk (survived (root_at d)))
    \/ (v = ∅ /\ root_at d <> RootDurable /\ d' = after_death d v junk RootAbsent).

Section Durability.
Context `{StoreEnv}.

(** What a store without faults answers. *)
Definition loads (d : disk) (key : string) : outcome (option Value) := (file_get key (set_faults d [])).1.

(** The files that hold values. *)
Definition entry (n : string) : Prop := exists stem, n = stem +:+ ".json".
Definition current_name (n : string) : Prop :=
  forall stem key, n = stem +:+ ".json" -> key_from_filename debug_char stem = Some key -> entry_path key = n.

Record wf (d : disk) : Prop := {
  wf_fresh : forall v n i, view d v -> v !! n = Some i -> (i < next_inode d)%nat;
  wf_synced : forall v n i, view d v -> entry n -> v !! n = Some i -> exists data, inodes d !! i = Some (MkFile data true);
  wf_apart : forall m i, ~ entry m -> names d !! m = Some i -> forall v n, view d v -> entry n -> v !! n <> Some i;
  wf_own : forall v m m' i, view d v -> ~ entry m -> v !! m = Some i -> v !! m' = Some i -> m = m';
  wf_current : forall v n, view d v -> is_Some (v !! n) -> current_name n;
}.

(** A disk that gives the same readings of a file, now and after a death. *)
Definition keeps (n : string) (d d' : disk) : Prop :=
  (forall v', view d' v' -> exists v, view d v /\ content d' v' n = content d v n) /\
  content d' (names d') n = content d (names d) n.
Definition quiet (d d' : disk) : Prop := wf d' /\ forall n, entry n -> keeps n d d'.

Lemma quiet_refl d : wf d -> quiet d d.
Proof. intros W. split; [done|]. intros n _. split; [eauto|done]. Qed.

Lemma keeps_trans n a b c : keeps n a b -> keeps n b c -> keeps n a c.
Proof.
  intros [H1 E1] [H2 E2]. split; [|congruence]. intros v Hv. destruct (H2 v Hv) as (v1 & Hv1 & E).
  destruct (H1 v1 Hv1) as (v0 & ? & ?). exists v0. split; [done|congruence].
Qed.

Lemma quiet_trans a b c : quiet a b -> quiet b c -> quiet a c.
Proof. intros [_ H1] [W H2]. split; [done|]. eauto using keeps_trans. Qed.

Lemma view_names d : view d (names d).
Proof. exists (length (journal d)). by rewrite firstn_all. Qed.

Lemma view_journalled d o v : view (journalled d o) v <-> view d v \/ v = apply_dirop (names d) o.
Proof.
  unfold view, names. cbn [journalled durable journal]. split.
  - intros [k ->]. destruct (decide (k <= length (journal d))%nat).
    + left. exists k. by rewrite take_app_le.
    + right. rewrite take_ge by (rewrite length_app; cbn; lia). by rewrite foldl_app.
  - intros [[k ->]| ->].
    + destruct (decide (k <= length (journal d))%nat).
      * exists k. by rewrite take_app_le.
      * exists (length (journal d)). rewrite take_app_le, !take_ge by lia. done.
    + exists (S (length (journal d))). rewrite take_ge by (rewrite length_app; cbn; lia). by rewrite foldl_app.
Qed.

Lemma names_journalled d o : names (journalled d o) = apply_dirop (names d) o.
Proof. unfold names. cbn. by rewrite foldl_app. Qed.

(** Fields that play no part. *)
Lemma quiet_same d d' :
  wf d -> inodes d' = inodes d -> durable d' = durable d -> journal d' = journal d -> next_inode d' = next_inode d -> quiet d d'.
Proof.
  intros [W1 W2 W3 W4 W5] E1 E2 E3 E4. assert (forall v, view d' v <-> view d v) as Hv by (intros; unfold view; by rewrite E2, E3).
  assert (names d' = names d) as En by (unfold names; by rewrite E2, E3).
  split.
  - split; try setoid_rewrite Hv; rewrite ?En, ?E1, ?E4; eauto.
  - intros n _. unfold keeps, content. rewrite En, E1. split; [|done]. intros v' Hv'%Hv. eauto.
Qed.

(** A file that no value is read from: its bytes are free. *)
Lemma quiet_inode d n i f :
  wf d -> ~ entry n -> names d !! n = Some i -> quiet d (set_inodes d (<[i := f]> (inodes d))).
Proof.
  intros W Hn Hi. assert (forall v m, view d v -> entry m -> v !! m <> Some i) as Hloose by (eapply wf_apart; eauto).
  split.
  - destruct W as [W1 W2 W3 W4 W5]. split; [exact W1| |exact W3|exact W4|exact W5].
    intros v m j Hv Hm Hj. cbn. rewrite lookup_insert_ne by (intros ->; by eapply Hloose). eauto.
  - intros m Hm. assert (forall v, view d v -> content (set_inodes d (<[i := f]> (inodes d))) v m = content d v m) as Hc.
    { intros v Hv. unfold content. cbn. destruct (v !! m) as [j|] eqn:Ej; cbn; [|done].
      by rewrite lookup_insert_ne by (intros ->; by eapply Hloose). }
    split; [intros v Hv; exists v; auto|]. apply Hc, view_names.
Qed.

(** A new file under a name no value is read from. *)
Lemma quiet_new_file d n : wf d -> ~ entry n -> names d !! n = None -> quiet d (new_file n d).
Proof.
  intros W Hn Hnone. set (i := next_inode d).
  assert (forall v, view (new_file n d) v <-> view d v \/ v = <[n := i]> (names d)) as Hv
    by (intros v; apply (view_journalled d (Link n i))).
  assert (names (new_file n d) = <[n := i]> (names d)) as En by apply (names_journalled d (Link n i)).
  assert (forall v m j, view d v -> v !! m = Some j -> j <> i) as Hlt
    by (intros v m j Hvv Hj ->; pose proof (wf_fresh d W _ _ _ Hvv Hj); unfold i in *; lia).
  assert (forall v, view (new_file n d) v -> exists v0, view d v0 /\ forall m, m <> n -> v !! m = v0 !! m) as Hold.
  { intros v [Hvv| ->]%Hv; [by exists v|]. exists (names d). split; [apply view_names|]. intros m Hm. by rewrite lookup_insert_ne. }
  split; [split|].
  - intros v m j Hvv Hj. cbn. destruct (decide (m = n)) as [->|Hm].
    + apply Hv in Hvv as [Hvv| ->]; [pose proof (wf_fresh d W _ _ _ Hvv Hj); lia|]. rewrite lookup_insert_eq in Hj. injection Hj as <-. unfold i. lia.
    + destruct (Hold v Hvv) as (v0 & Hv0 & E). rewrite E in Hj by done. pose proof (wf_fresh d W _ _ _ Hv0 Hj). lia.
  - intros v m j Hvv Hm Hj. destruct (Hold v Hvv) as (v0 & Hv0 & E). rewrite E in Hj by (by intros ->). cbn.
    rewrite lookup_insert_ne; [by eapply wf_synced|]. by apply not_eq_sym, (Hlt v0 m).
  - intros m j Hm Hj v e Hvv He Hej. rewrite En in Hj. destruct (Hold v Hvv) as (v0 & Hv0 & E). rewrite E in Hej by (by intros ->).
    destruct (decide (m = n)) as [->|Hmn]; [rewrite lookup_insert_eq in Hj; injection Hj as <-; by eapply Hlt|].
    rewrite lookup_insert_ne in Hj by done. by eapply (wf_apart d W m j).
  - intros v m m' j [Hvv| ->]%Hv Hm Hj Hj'; [by eapply (wf_own d W v)|].
    assert (forall a, names d !! a <> Some i) as Hno by (intros a Ha; by eapply (Hlt _ a i (view_names d))).
    destruct (decide (m = n)) as [->|Hmn], (decide (m' = n)) as [->|Hmn']; rewrite ?lookup_insert_eq, ?lookup_insert_ne in * by done; try done;
      simplify_eq; [by apply Hno in Hj'|by apply Hno in Hj|by eapply (wf_own d W), Hj'; [apply view_names|..]].
  - intros v m Hvv Hm. destruct (decide (m = n)) as [->|Hmn]; [intros stem key ->; exfalso; apply Hn; by eexists|].
    destruct (Hold v Hvv) as (v0 & Hv0 & E). rewrite E in Hm by done. by eapply wf_current.
  - intros m Hm. assert (m <> n) as Hmn by (by intros ->).
    assert (forall v0 v, view d v0 -> v !! m = v0 !! m -> content (new_file n d) v m = content d v0 m) as Hc.
    { intros v0 v Hv0 E. unfold content. rewrite E. destruct (v0 !! m) as [j|] eqn:Ej; cbn; [|done].
      rewrite lookup_insert_ne; [done|]. by apply not_eq_sym, (Hlt v0 m). }
    split; [intros v Hvv; destruct (Hold v Hvv) as (v0 & Hv0 & E); exists v0; auto|].
    apply Hc; [apply view_names|]. rewrite En, lookup_insert_ne by done. done.
Qed.

(** Removing such a file. *)
Lemma quiet_unlink d n : wf d -> ~ entry n -> quiet d (journalled d (Unlink n)).
Proof.
  intros W Hn.
  assert (forall v, view (journalled d (Unlink n)) v -> exists v0, view d v0 /\ forall m i, v !! m = Some i -> v0 !! m = Some i) as Hold.
  { intros v [Hv| ->]%view_journalled; [by exists v|]. exists (names d). split; [apply view_names|].
    cbn [apply_dirop]. intros m i [_ Hm]%lookup_delete_Some. done. }
  split; [split|].
  - intros v m i Hv Hi. destruct (Hold v Hv) as (v0 & Hv0 & E). by eapply (wf_fresh d W v0), E.
  - intros v m i Hv Hm Hi. destruct (Hold v Hv) as (v0 & Hv0 & E). by eapply (wf_synced d W v0), E.
  - intros m i Hm Hi v e Hv He Hei. rewrite names_journalled in Hi. cbn [apply_dirop] in Hi. apply lookup_delete_Some in Hi as [_ Hi].
    destruct (Hold v Hv) as (v0 & Hv0 & E). eapply (wf_apart d W m i Hm Hi v0 e); auto.
  - intros v m m' i Hv Hm Hi Hi'. destruct (Hold v Hv) as (v0 & Hv0 & E). by eapply (wf_own d W v0), E; [| |apply E|].
  - intros v m Hv [i Hi]. destruct (Hold v Hv) as (v0 & Hv0 & E). eapply (wf_current d W v0); [done|]. eexists. by apply E.
  - intros m Hm. assert (m <> n) by (by intros ->). split.
    + intros v [Hv| ->]%view_journalled; [by exists v|]. exists (names d). split; [apply view_names|].
      unfold content. cbn. by rewrite lookup_delete_ne.
    + rewrite names_journalled. unfold content. cbn. by rewrite lookup_delete_ne.
Qed.

(** Syncing the directory or a file. *)
Lemma quiet_sync_dir d : wf d -> quiet d (fs_sync_dir d).2.
Proof.
  intros W. assert (forall v, view (fs_sync_dir d).2 v <-> v = names d) as Hv.
  { intros v. unfold view. cbn. split; [intros [k ->]; by rewrite take_nil|intros ->; by exists 0%nat]. }
  split; [split|]; try (intros v m ? ? ->%Hv || intros v m ? ->%Hv || intros v m ->%Hv).
  - intros E. by eapply (wf_fresh d W), E; apply view_names.
  - intros He Hi. by eapply (wf_synced d W), Hi; [apply view_names|].
  - intros m i Hm Hi v e ->%Hv. apply (wf_apart d W m i Hm Hi). apply view_names.
  - intros Hm Hi. by eapply (wf_own d W), Hi; [apply view_names|].
  - apply (wf_current d W), view_names.
  - intros n _. split; [|done]. intros v ->%Hv. exists (names d). split; [apply view_names|done].
Qed.

Lemma quiet_fs_sync d i : wf d -> quiet d (fs_sync i d).2.
Proof.
  intros W. cbn. assert (forall v n, content (set_inodes d (alter (fun f => MkFile (f_data f) true) i (inodes d))) v n = content d v n) as Hc.
  { intros v n. unfold content. cbn. destruct (v !! n) as [j|]; cbn; [|done].
    destruct (decide (i = j)) as [->|Hj]; [rewrite lookup_alter_eq; by destruct (inodes d !! j)|by rewrite lookup_alter_ne]. }
  split; [|intros n _; split; [intros v Hv; by exists v|apply Hc]].
  destruct W as [W1 W2 W3 W4 W5]. split; [exact W1| |exact W3|exact W4|exact W5].
  intros v n j Hv Hn Hj. destruct (W2 v n j Hv Hn Hj) as [data Hd]. cbn. exists data.
  destruct (decide (i = j)) as [->|Hij]; [by rewrite lookup_alter_eq, Hd|by rewrite lookup_alter_ne].
Qed.

(** ** Storing one value *)

(** The value's file holds [bytes], and after a death it holds them or what it might
    have held before; every other value is as before. *)
Definition stored (final bytes : string) (d d' : disk) : Prop :=
  wf d' /\ content d' (names d') final = Some bytes /\
  (forall v', view d' v' -> content d' v' final = Some bytes \/ exists v, view d v /\ content d' v' final = content d v final) /\
  forall n, entry n -> n <> final -> keeps n d d'.

Lemma stored_quiet final bytes a b c : entry final -> stored final bytes a b -> quiet b c -> stored final bytes a c.
Proof.
  intros He (W & Hb & Hv & Hk) [Wc Hq]. destruct (Hq final He) as [Q1 Q2]. split_and!; [done|congruence| |eauto using keeps_trans].
  intros v Hvv. destruct (Q1 v Hvv) as (v0 & Hv0 & E). rewrite E. auto.
Qed.

Lemma quiet_stored final bytes a b c : entry final -> quiet a b -> stored final bytes b c -> stored final bytes a c.
Proof.
  intros He [Wb Hq] (W & Hb & Hv & Hk). split_and!; [done|done| |eauto using keeps_trans].
  intros v Hvv. destruct (Hv v Hvv) as [?|(v0 & Hv0 & E)]; [by left|right]. destruct (Hq final He) as [Q1 _].
  destruct (Q1 v0 Hv0) as (v1 & ? & ?). exists v1. split; [done|congruence].
Qed.

(** The rename of a synced temporary file. *)
Lemma rename_stores d tmp final bytes i :
  wf d -> ~ entry tmp -> entry final -> current_name final ->
  names d !! tmp = Some i -> inodes d !! i = Some (MkFile bytes true) ->
  stored final bytes d (journalled d (Rename tmp final)).
Proof.
  intros W Ht Hf Hcur Hi Hd. set (w := <[final := i]> (delete tmp (names d))).
  assert (forall v, view (journalled d (Rename tmp final)) v <-> view d v \/ v = w) as Hv.
  { intros v. rewrite view_journalled. cbn. by rewrite Hi. }
  assert (names (journalled d (Rename tmp final)) = w) as En by (rewrite names_journalled; cbn; by rewrite Hi).
  assert (forall m j, w !! m = Some j -> (m = final /\ j = i) \/ (m <> tmp /\ m <> final /\ names d !! m = Some j)) as Hw.
  { intros m j [[<- <-]|[Hm [? Hj]%lookup_delete_Some]]%lookup_insert_Some; [by left|right; auto]. }
  split_and!; [split|..].
  - intros v m j [Hvv| ->]%Hv Hj; [by eapply (wf_fresh d W)|]. apply Hw in Hj as [[-> ->]|(_ & _ & Hj)]; eapply (wf_fresh d W); eauto using view_names.
  - intros v m j [Hvv| ->]%Hv Hm Hj; [by eapply (wf_synced d W)|]. apply Hw in Hj as [[-> ->]|(_ & _ & Hj)]; [by exists bytes|].
    eapply (wf_synced d W); eauto using view_names.
  - intros m j Hm Hj v e Hvv He Hej. rewrite En in Hj. apply Hw in Hj as [[-> ->]|(Hmt & _ & Hj)]; [done|].
    apply Hv in Hvv as [Hvv| ->]; [by eapply (wf_apart d W m j)|]. apply Hw in Hej as [[-> ->]|(_ & _ & Hej)];
      [by apply Hmt, (wf_own d W _ _ _ _ (view_names d) Hm Hj)|]. by eapply (wf_apart d W m j Hm Hj _ e (view_names d)).
  - intros v m m' j [Hvv| ->]%Hv Hm Hj Hj'; [by eapply (wf_own d W v)|]. apply Hw in Hj as [[-> ->]|(Hmt & _ & Hj)]; [done|].
    apply Hw in Hj' as [[-> ->]|(_ & _ & Hj')]; [by destruct (Hmt (wf_own d W _ _ _ _ (view_names d) Hm Hj Hi))|].
    by eapply (wf_own d W), Hj'; [apply view_names|..].
  - intros v m [Hvv| ->]%Hv [j Hj]; [by eapply (wf_current d W)|]. apply Hw in Hj as [[-> ->]|(_ & _ & Hj)]; [done|].
    eapply (wf_current d W); [apply view_names|by eexists].
  - rewrite En. unfold content, w. rewrite lookup_insert_eq. cbn. by rewrite Hd.
  - intros v [Hvv| ->]%Hv; [right; by exists v|left]. unfold content, w. rewrite lookup_insert_eq. cbn. by rewrite Hd.
  - intros n He Hn. assert (w !! n = names d !! n) as Ew by (unfold w; rewrite lookup_insert_ne, lookup_delete_ne by (done || by intros ->); done).
    split; [|rewrite En; unfold content; by rewrite Ew]. intros v [Hvv| ->]%Hv; [by exists v|]. exists (names d).
    split; [apply view_names|]. unfold content. by rewrite Ew.
Qed.

(** ** Programs *)

Definition triple {A} (P : disk -> Prop) (m : D A) (Q : outcome A -> disk -> Prop) : Prop :=
  forall d, P d -> Q (m d).1 (m d).2.

Lemma D_bind_eq {A B} (m : D A) (k : A -> D B) d :
  (m ≫= k : D B) d = match m d with
                     | (Val a, d) => k a d
                     | (Fault e, d) => (Fault e, d)
                     | (Crashed, d) => (Crashed, d)
                     end.
Proof. done. Qed.

Lemma triple_bind {A B} P (m : D A) (k : A -> D B) R Q :
  triple P m R -> (forall a, triple (R (Val a)) (k a) Q) ->
  (forall e d, R (Fault e) d -> Q (Fault e) d) -> (forall d, R Crashed d -> Q Crashed d) ->
  triple P (m ≫= k) Q.
Proof.
  intros Hm Hk Hf Hc d HP. unfold mbind, D_bind. specialize (Hm d HP). destruct (m d) as [[a|e|] d']; cbn in *; [|auto..].
  by apply (Hk a d').
Qed.

Lemma triple_fact {A} (F : Prop) P (m : D A) Q : (F -> triple P m Q) -> triple (fun d => P d /\ F) m Q.
Proof. intros Hm d [HP HF]. by apply Hm. Qed.

Lemma triple_or_fail {A} (eff : effect A) t (P : disk -> Prop) (R : result A io_error -> disk -> Prop) :
  (forall d f, P d -> P (set_faults d f)) -> (forall d, P d -> R (eff d).1 (eff d).2) ->
  triple P (or_fail (syscall eff) t)
    (fun o d => match o with Val a => R (Ok a) d | _ => P d \/ exists r, R r d end).
Proof.
  intros Hf He d HP. unfold or_fail, mbind, D_bind, syscall. pose proof (Hf d (tail (faults d)) HP) as HP0.
  pose proof (He _ HP0) as HR. destruct (eff (set_faults d (tail (faults d)))) as [r d1] eqn:E. cbn in HR.
  destruct (faults d) as [|[] fs]; cbn in *; rewrite ?E; cbn; try (by left); try (by right; eexists);
    destruct r; cbn; eauto.
Qed.

(** A program that never changes a reading. *)
Definition hush {A} (m : D A) : Prop := forall d, wf d -> quiet d (m d).2.

Lemma hush_bind {A B} (m : D A) (k : A -> D B) : hush m -> (forall a, hush (k a)) -> hush (m ≫= k).
Proof.
  intros Hm Hk d W. unfold mbind, D_bind. specialize (Hm d W). destruct (m d) as [[a|e|] d']; cbn in *; [|done..].
  eapply quiet_trans; [done|]. apply Hk, Hm.
Qed.
Lemma hush_ret {A} (a : A) : hush (mret a).
Proof. intros d W. by apply quiet_refl. Qed.
Lemma hush_fail {A} e : hush (@fail A e).
Proof. intros d W. by apply quiet_refl. Qed.
Lemma hush_of_result {A} (r : result A FaucetError) : hush (of_result r).
Proof. destruct r; [apply hush_ret|apply hush_fail]. Qed.
Lemma hush_syscall {A} (eff : effect A) : (forall d, wf d -> quiet d (eff d).2) -> hush (syscall eff).
Proof.
  intros He d W. unfold syscall. assert (quiet d (set_faults d (tail (faults d)))) as Q by (by apply quiet_same).
  assert (quiet d (eff (set_faults d (tail (faults d)))).2) as Q' by (eapply quiet_trans; [done|apply He, Q]).
  destruct (faults d) as [|[] fs]; cbn in *; try done; by destruct (eff _).
Qed.
Lemma hush_or_fail {A} (m : D (result A io_error)) t : hush m -> hush (or_fail m t).
Proof. intros Hm. apply hush_bind; [done|]. intros []; [apply hush_ret|apply hush_fail]. Qed.

(** What a file system without faults of its own does to names no value is read from. *)
Lemma create_quiet n d : wf d -> ~ entry n ->
  quiet d (fs_create n d).2 /\ forall i, (fs_create n d).1 = Ok i -> names (fs_create n d).2 !! n = Some i.
Proof.
  intros W Hn. unfold fs_create. destruct (root_exists d); [|split; [by apply quiet_refl|done]].
  destruct (names d !! n) as [i|] eqn:Hi; cbn.
  - split; [by eapply quiet_inode|]. intros j [= <-]. done.
  - split; [by apply quiet_new_file|]. intros j [= <-].
    change (names (journalled d (Link n (next_inode d))) !! n = Some (next_inode d)). rewrite names_journalled. apply lookup_insert_eq.
Qed.

Lemma remove_quiet n d : wf d -> ~ entry n -> quiet d (fs_remove n d).2.
Proof. intros W Hn. unfold fs_remove. destruct (names d !! n); [by apply quiet_unlink|by apply quiet_refl]. Qed.
Lemma open_quiet n d : wf d -> ~ entry n -> quiet d (fs_open n d).2.
Proof.
  intros W Hn. unfold fs_open. destruct (root_exists d); [|by apply quiet_refl].
  destruct (names d !! n) eqn:E; [by apply quiet_refl|by apply quiet_new_file].
Qed.

Lemma quiet_faults d0 d f : quiet d0 d -> quiet d0 (set_faults d f).
Proof. intros Q. eapply quiet_trans; [done|]. apply quiet_same; try done. apply Q. Qed.

(** Filling a file no value is read from, up to its sync. *)
Lemma fill_triple {B} n bytes t1 t2 t3 (k : D B) d0 (Q : outcome B -> disk -> Prop) :
  ~ entry n -> (forall e d, quiet d0 d -> Q (Fault e) d) -> (forall d, quiet d0 d -> Q Crashed d) ->
  (forall i, triple (fun d => quiet d0 d /\ names d !! n = Some i /\ inodes d !! i = Some (MkFile bytes true)) k Q) ->
  triple (quiet d0)
    (i ← or_fail (syscall (fs_create n)) t1; _ ← or_fail (syscall (fs_write i bytes)) t2; _ ← or_fail (syscall (fs_sync i)) t3; k) Q.
Proof.
  intros Hn Hf Hc Hk. eapply triple_bind.
  { apply (triple_or_fail (fs_create n) t1 (quiet d0) (fun r d => quiet d0 d /\ forall i, r = Ok i -> names d !! n = Some i));
      [intros; by apply quiet_faults|]. intros d Q0. destruct (create_quiet n d) as [Q1 E]; [apply Q0|done|]. eauto using quiet_trans. }
  2: intros e d [?|(r & ? & _)]; auto. 2: intros d [?|(r & ? & _)]; auto.
  intros i. eapply triple_bind.
  { apply (triple_or_fail (fs_write i bytes) t2 (fun d => quiet d0 d /\ forall j, Ok i = Ok j -> names d !! n = Some j)
      (fun _ d => quiet d0 d /\ names d !! n = Some i /\ exists b, inodes d !! i = Some (MkFile bytes b))).
    - intros d f [Q0 Hi]. split; [by apply quiet_faults|]. exact Hi.
    - intros d [Q0 Hi]. specialize (Hi i eq_refl). cbn. split_and!; [|done|rewrite lookup_insert_eq; by eexists].
      eapply quiet_trans; [done|]. eapply quiet_inode; [apply Q0|done..]. }
  2: intros e d [[? _]|(r & ? & _)]; auto. 2: intros d [[? _]|(r & ? & _)]; auto.
  intros u. eapply triple_bind.
  { apply (triple_or_fail (fs_sync i) t3 (fun d => quiet d0 d /\ names d !! n = Some i /\ exists b, inodes d !! i = Some (MkFile bytes b))
      (fun _ d => quiet d0 d /\ names d !! n = Some i /\ inodes d !! i = Some (MkFile bytes true))).
    - intros d f (Q0 & Hi & Hb). split_and!; [by apply quiet_faults|done|done].
    - intros d (Q0 & Hi & [b Hb]). split_and!; [eapply quiet_trans; [done|]; apply quiet_fs_sync, Q0|done|]. cbn. by rewrite lookup_alter_eq, Hb. }
  2: intros e d [(? & _)|(r & ? & _)]; auto. 2: intros d [(? & _)|(r & ? & _)]; auto.
  intros u'. apply Hk.
Qed.

(** ** Names *)

Lemma not_entry a suf : String.length suf = 4%nat -> suf <> "json" -> ~ entry (a +:+ suf).
Proof.
  intros Hl Hs [b E]. change ".json" with ("." +:+ "json") in E. rewrite <- string_app_assoc in E.
  by apply string_app_inj in E as [_ ?].
Qed.
Lemma temp_not_entry key seq : ~ entry (temp_path key seq).
Proof.
  unfold temp_path. change ".json.tmp" with (".json" +:+ ".tmp"). rewrite <- !string_app_assoc. by apply not_entry.
Qed.
Lemma lock_not_entry key : ~ entry (lock_path key).
Proof. unfold lock_path. change ".json.lock" with (".json." +:+ "lock"). rewrite <- !string_app_assoc. by apply not_entry. Qed.
Lemma sidecar_not_entry key n : key_sidecar key = Some n -> ~ entry n.
Proof. unfold key_sidecar. destruct (contains_char _ _); [|done]. intros [= <-]. by apply not_entry. Qed.
Lemma entry_path_entry key : entry (entry_path key).
Proof. by eexists. Qed.

Lemma strip_suffix_some suf s p : strip_suffix suf s = Some p -> s = p +:+ suf.
Proof.
  revert p. induction s as [|c s IH]; intros p; cbn [strip_suffix]; unfold string_eqb; case_bool_decide as E.
  - intros [= <-]. by subst.
  - done.
  - intros [= <-]. done.
  - destruct (strip_suffix suf s) as [q|]; [|done]. intros [= <-]. exact (f_equal (String c) (IH q eq_refl)).
Qed.

Lemma entry_path_current key : validate_state_key debug_char key = Ok tt -> current_name (entry_path key).
Proof.
  intros V stem k E Hk. unfold entry_path in *. apply string_app_inj in E as [<- _]; [|done].
  assert (contains_char TILDE (stem_of key) = false) as Ht
    by (unfold key_from_filename in Hk; by destruct (contains_char TILDE (stem_of key))).
  unfold stem_of in *. rewrite (stem_decodes _ _ _ V Ht) in Hk. by injection Hk as <-.
Qed.

(** ** The operations *)

Lemma write_synced_hush n bytes : ~ entry n -> hush (write_synced n bytes).
Proof.
  intros Hn d W. apply (fill_triple n bytes _ _ _ (mret tt) d (fun _ => quiet d)); auto; [|by apply quiet_refl].
  intros i d' (Q & _). apply Q.
Qed.
Lemma sidecar_hush key : hush (match key_sidecar key with Some n => write_synced n key | None => mret tt end).
Proof. destruct (key_sidecar key) eqn:E; [eauto using write_synced_hush, sidecar_not_entry|apply hush_ret]. Qed.
Lemma ensure_root_hush : hush ensure_root.
Proof. apply hush_or_fail, hush_syscall. intros d W. by apply quiet_same. Qed.
Lemma ask_hush {A} (f : disk -> result A io_error) : hush (syscall (fun d => (f d, d))).
Proof. apply hush_syscall. intros d W. by apply quiet_refl. Qed.
Lemma sync_dir_hush : hush sync_dir.
Proof.
  apply hush_bind; [apply hush_or_fail, ask_hush|]. intros ?. apply hush_or_fail, hush_syscall, quiet_sync_dir.
Qed.
Lemma remove_hush n : ~ entry n -> hush (syscall (fs_remove n)).
Proof. intros Hn. apply hush_syscall. intros d W. by apply remove_quiet. Qed.

(** The same, with a property of the value returned. *)
Definition quietly {A} (X : A -> Prop) (m : D A) : Prop :=
  forall d, wf d -> quiet d (m d).2 /\ forall a, (m d).1 = Val a -> X a.

Lemma quietly_bind {A B} (Y : A -> Prop) (X : B -> Prop) (m : D A) (k : A -> D B) :
  quietly Y m -> (forall a, Y a -> quietly X (k a)) -> quietly X (m ≫= k).
Proof.
  intros Hm Hk d W. unfold mbind, D_bind. destruct (Hm d W) as [Q HY]. destruct (m d) as [[a|e|] d1]; cbn in *; [|done..].
  destruct (Hk a (HY a eq_refl) d1 (proj1 Q)) as [Q1 HX]. split; [by eapply quiet_trans|done].
Qed.
Lemma quietly_ret {A} (X : A -> Prop) a : X a -> quietly X (mret a).
Proof. intros HX d W. split; [by apply quiet_refl|]. by intros b [= <-]. Qed.
Lemma hush_quietly {A} (m : D A) : hush m <-> quietly (fun _ => True) m.
Proof. split; [intros Hm d W; split; [by apply Hm|done]|intros Hm d W; by apply Hm]. Qed.

(** Where every name is current the migration renames nothing. *)
Lemma legacy_files_none entries : Forall current_name entries -> quietly (fun l => l = []) (legacy_files entries).
Proof.
  assert (quietly (fun _ => True) (or_fail (syscall fs_next) list_failed)) as Hnext by (apply hush_quietly, hush_or_fail, ask_hush).
  induction 1 as [|n entries Hn _ IH]; cbn [legacy_files]; (eapply quietly_bind; [exact Hnext|]); intros u _; [by apply quietly_ret|].
  eapply quietly_bind; [exact IH|]. intros l ->. apply quietly_ret.
  destruct (strip_suffix ".json" n) as [stem|] eqn:Es; [cbn|done]. destruct (key_from_filename debug_char stem) as [key|] eqn:Ek; [|done].
  unfold string_eqb. rewrite bool_decide_true; [done|]. apply (Hn stem); [by apply strip_suffix_some|done].
Qed.

Lemma list_current : quietly (fun r => forall l, r = Ok l -> Forall current_name l) (syscall fs_list).
Proof.
  intros d W. split; [by apply (ask_hush (fun d => if root_exists d then Ok (map_to_list (names d)).*1 else Err NotFound))|].
  intros r E l ->. apply Forall_forall. intros n Hn. eapply (wf_current d W); [apply view_names|]. revert E. unfold syscall.
  unfold fs_list, root_exists. destruct (faults d) as [|[] ?]; cbn; destruct (root_at d); intros E; simplify_eq;
    apply list_elem_of_fmap in Hn as ([m i] & -> & Hm%elem_of_map_to_list); by eexists.
Qed.

Lemma migrate_hush : hush migrate_legacy_names.
Proof.
  intros d W. unfold migrate_legacy_names. destruct (migrated d); [by apply quiet_refl|]. revert d W. apply hush_quietly.
  eapply (quietly_bind (fun _ => True)).
  - eapply quietly_bind; [apply list_current|]. intros [l|[]] Hl; [|by apply quietly_ret|by apply hush_quietly, hush_fail].
    eapply quietly_bind; [apply legacy_files_none; auto|]. intros r ->. by apply quietly_ret.
  - intros u _. apply hush_quietly. intros d W. by apply quiet_same.
Qed.

(** ** Writing a value *)

Lemma commit_triple tmp final bytes d0 :
  ~ entry tmp -> entry final -> current_name final ->
  triple (quiet d0) (commit_temp tmp final bytes)
    (fun o d => match o with Val _ => stored final bytes d0 d | _ => quiet d0 d \/ stored final bytes d0 d end).
Proof.
  intros Ht Hf Hc. apply fill_triple; [done|by left|by left|]. intros i d HP.
  pose proof (triple_or_fail (fs_rename tmp final) ("failed to commit state file " +:+ full final)
    (fun d => quiet d0 d /\ names d !! tmp = Some i /\ inodes d !! i = Some (MkFile bytes true)) (fun _ => stored final bytes d0)) as Htr.
  refine (_ (Htr _ _ d HP)).
  - destruct (or_fail _ _ d) as [[] d1]; cbn; [done|..]; intros [[? _]|[_ ?]]; auto.
  - intros d' f (Q & Hi & Hd). split; [by apply quiet_faults|done].
  - clear d HP. intros d (Q & Hi & Hd). unfold fs_rename. rewrite Hi. eapply quiet_stored; [done|exact Q|].
    eapply rename_stores; eauto. apply Q.
Qed.

Lemma hush_triple {A} (m : D A) d0 : hush m -> triple (quiet d0) m (fun _ => quiet d0).
Proof. intros Hm d Q. eapply quiet_trans; [done|]. apply Hm, Q. Qed.

Lemma sync_triple final bytes d0 : entry final ->
  triple (stored final bytes d0) sync_dir (fun o d => stored final bytes d0 d /\ (o = Val tt -> journal d = [])).
Proof.
  intros He d Hs. split; [eapply stored_quiet; [done..|]; apply sync_dir_hush, Hs|].
  unfold sync_dir. rewrite D_bind_eq.
  destruct (or_fail (syscall fs_open_dir) _ d) as [[u|e|] d1]; cbn; [|done..].
  unfold or_fail, mbind, D_bind, syscall. destruct (faults d1) as [|[] ?]; cbn; done.
Qed.

(** The whole of [put]: what it stored when it returns, and what it may have stored
    when it fails or dies. *)
Lemma put_triple key value d0 :
  validate_state_key debug_char key = Ok tt ->
  let final := entry_path key in let bytes := sealed key value in
  triple (quiet d0) (file_put key value)
    (fun o d => match o with
                | Val _ => stored final bytes d0 d /\ journal d = []
                | _ => quiet d0 d \/ stored final bytes d0 d
                end).
Proof.
  intros V final bytes. pose proof (entry_path_entry key) as He.
  unfold file_put. rewrite V. change (of_result (Ok tt)) with (mret tt : D unit).
  apply (triple_bind _ _ _ (fun o d => quiet d0 d /\ o = Val tt)); [by intros d Q| |by intros ? ? []|by intros ? []].
  intros u. apply triple_fact. intros _. unfold put_unlocked.
  eapply triple_bind; [apply hush_triple, ensure_root_hush| |by left|by left]. intros ?.
  eapply triple_bind; [apply hush_triple, migrate_hush| |by left|by left]. intros ?.
  eapply (triple_bind _ _ _ (fun o d => quiet d0 d /\ exists seq, o = Val (temp_path key seq))).
  { intros d Q. cbn. split; [|by eexists]. eapply quiet_trans; [exact Q|]. apply quiet_same; try done. apply Q. }
  2: by intros e d [_ []]. 2: by intros d [_ []].
  intros tmp. apply triple_fact. intros [seq [= ->]]. pose proof (temp_not_entry key seq) as Ht.
  eapply triple_bind; [apply hush_triple, sidecar_hush| |by left|by left]. intros ?.
  eapply (triple_bind _ _ _ (fun o d => match o with
      | Val (Ok _) => stored final bytes d0 d | _ => quiet d0 d \/ stored final bytes d0 d end)).
  { intros d Q. unfold caught. pose proof (commit_triple (temp_path key seq) final bytes d0 Ht He (entry_path_current key V) d Q) as Hc.
    destruct (commit_temp _ _ _ d) as [[]]; exact Hc. }
  2: auto. 2: auto.
  intros [[]|e].
  - intros d Hs. destruct (sync_triple final bytes d0 He d Hs) as [Hs' Hj]. destruct (sync_dir d) as [[[]| |]]; cbn in *; auto.
  - intros d Hd. pose proof (remove_hush (temp_path key seq) Ht d) as Hr. unfold mbind, D_bind.
    assert (quiet d0 (syscall (fs_remove (temp_path key seq)) d).2 \/ stored final bytes d0 (syscall (fs_remove (temp_path key seq)) d).2) as Hres.
    { destruct Hd as [Q|Hs]; [left; eapply quiet_trans; [exact Q|]; apply Hr, Q|right; eapply stored_quiet; [done|exact Hs|]; apply Hr, Hs]. }
    destruct (syscall _ d) as [[]]; exact Hres.
Qed.

(** ** Reading back *)

Definition load_of (key : string) (c : option string) : outcome (option Value) :=
  match c with
  | None => Val None
  | Some bytes => match parse_entry key (entry_path key) bytes with Ok v => Val (Some v) | Err e => Fault e end
  end.

Lemma faultless {A} (eff : effect A) d : faults d = [] -> syscall eff d = let '(r, d') := eff d in (Val r, d').
Proof.
  intros Hf. unfold syscall. rewrite Hf. cbn. replace (set_faults d []) with d; [done|]. destruct d. cbn in *. by rewrite Hf.
Qed.
Lemma faultless_next t d : faults d = [] -> or_fail (syscall fs_next) t d = (Val tt, d).
Proof. intros Hf. unfold or_fail. by rewrite D_bind_eq, faultless. Qed.

Lemma legacy_files_faultless entries d :
  faults d = [] -> Forall current_name entries -> legacy_files entries d = (Val [], d).
Proof.
  intros Hf. induction 1 as [|n entries Hn _ IH]; cbn [legacy_files]; rewrite D_bind_eq, faultless_next by done; [done|].
  rewrite D_bind_eq, IH. cbn.
  destruct (strip_suffix ".json" n) as [stem|] eqn:Es; [cbn|done]. destruct (key_from_filename debug_char stem) as [key|] eqn:Ek; [|done].
  unfold string_eqb. rewrite bool_decide_true; [done|]. apply (Hn stem); [by apply strip_suffix_some|done].
Qed.

Lemma migrate_faultless d : wf d -> faults d = [] ->
  exists d', migrate_legacy_names d = (Val tt, d') /\ faults d' = [] /\ inodes d' = inodes d /\ names d' = names d.
Proof.
  intros W Hf. unfold migrate_legacy_names. destruct (migrated d) eqn:Hm; [by exists d|].
  exists (set_migrated d). split; [|done]. unfold migrate_names. rewrite !D_bind_eq, faultless by done. unfold fs_list.
  destruct (root_exists d); [|done]. rewrite D_bind_eq, legacy_files_faultless; [done|done|].
  apply Forall_forall. intros n ([m i] & -> & Hm'%elem_of_map_to_list)%list_elem_of_fmap.
  eapply (wf_current d W); [apply view_names|by eexists].
Qed.

Lemma loads_content d key :
  wf d -> validate_state_key debug_char key = Ok tt -> loads d key = load_of key (content d (names d) (entry_path key)).
Proof.
  intros W V. unfold loads, file_get. rewrite V. cbn [of_result]. rewrite D_bind_eq. cbn.
  destruct (migrate_faultless (set_faults d [])) as (d' & E & Hf & Hi & Hn); [apply (quiet_faults d d []), quiet_refl, W|done|].
  rewrite D_bind_eq, E. unfold read_entry. rewrite D_bind_eq, faultless by done. unfold fs_read.
  replace (content d' (names d') (entry_path key)) with (content d (names d) (entry_path key)) by (unfold content; by rewrite Hi, Hn).
  unfold load_of. destruct (content d (names d) (entry_path key)) as [bytes|]; [|done].
  destruct (parse_entry _ _ bytes); done.
Qed.

(** A disk after the machine died: a view of the directory as it was, or none. *)
Lemma after_death_wf d v junk at_ : wf d -> view d v \/ v = ∅ -> wf (after_death d v junk at_).
Proof.
  intros W Hv0. set (d' := after_death _ _ _ _).
  assert (forall w, view d' w -> w = v) as Hw by (intros w [k ->]; cbn; by rewrite take_nil).
  assert (names d' = v) as En by done.
  assert (forall n i, v !! n = Some i -> view d v) as Hv by (intros n i Hi; destruct Hv0 as [?| ->]; [done|by rewrite lookup_empty in Hi]).
  split.
  - intros w n i ->%Hw Hi. by eapply (wf_fresh d W v), Hi; eapply Hv.
  - intros w n i ->%Hw Hn Hi. destruct (wf_synced d W v n i (Hv _ _ Hi) Hn Hi) as [data Hd]. exists data. cbn. by rewrite map_lookup_imap, Hd.
  - intros m i Hm Hi w n ->%Hw Hn Hni. rewrite En in Hi. apply Hm. by rewrite (wf_own d W v m n i (Hv _ _ Hi) Hm Hi Hni).
  - intros w m m' i ->%Hw Hm Hi. apply (wf_own d W); [by eapply Hv|done|done].
  - intros w n ->%Hw [i Hi]. apply (wf_current d W v); [by eapply Hv|by eexists].
Qed.
Lemma after_death_content d v junk at_ n : wf d -> view d v -> entry n ->
  content (after_death d v junk at_) (names (after_death d v junk at_)) n = content d v n.
Proof.
  intros W Hv Hn. change (names (after_death d v junk at_)) with v. unfold content. destruct (v !! n) as [i|] eqn:Hi; cbn [mbind option_bind]; [|done].
  destruct (wf_synced d W v n i Hv Hn Hi) as [data Hd]. cbn [after_death inodes]. by rewrite map_lookup_imap, Hd.
Qed.
Lemma recovers_spec d d' : wf d -> recovers d d' ->
  wf d' /\ ((exists v, view d v /\ forall n, entry n -> content d' (names d') n = content d v n)
            \/ (root_at d <> RootDurable /\ forall n, content d' (names d') n = None)).
Proof.
  intros W (v & junk & [[Hv ->]|(-> & Hr & ->)]); (split; [apply after_death_wf; auto|]).
  - left. exists v. split; [done|]. intros n Hn. by apply after_death_content.
  - right. split; [done|]. intros n. unfold content. change (names _) with (∅ : dir). by rewrite lookup_empty.
Qed.

Lemma recovers_view d v : view d v -> wf d ->
  exists d1, recovers d d1 /\ wf d1 /\ forall n, entry n -> content d1 (names d1) n = content d v n.
Proof.
  intros Hv W. exists (after_death d v (fun _ => EmptyString) (survived (root_at d))). split_and!.
  - exists v, (fun _ => EmptyString). by left.
  - apply after_death_wf; auto.
  - intros n Hn. by apply after_death_content.
Qed.
Lemma recovers_nothing d : root_at d <> RootDurable -> wf d -> exists d1, recovers d d1 /\ wf d1 /\ forall n, content d1 (names d1) n = None.
Proof.
  intros Hr W. set (d1 := after_death d ∅ (fun _ => EmptyString) RootAbsent). exists d1.
  assert (recovers d d1) as Hrec by (exists ∅, (fun _ => EmptyString); by right). split_and!; [done|apply after_death_wf; auto|].
  intros n. unfold content. change (names d1) with (∅ : dir). by rewrite lookup_empty.
Qed.

(** *** The root directory stays as durable as it is *)
Definition anchored {A} (m : D A) : Prop := forall d, root_at d = RootDurable <-> root_at (m d).2 = RootDurable.
Lemma anchored_bind {A B} (m : D A) (k : A -> D B) : anchored m -> (forall a, anchored (k a)) -> anchored (m ≫= k).
Proof. intros Hm Hk d. unfold mbind, D_bind. rewrite (Hm d). destruct (m d) as [[a|e|] d1]; cbn; [apply Hk|done..]. Qed.
Lemma anchored_ret {A} (a : A) : anchored (mret a). Proof. done. Qed.
Lemma anchored_fail {A} e : anchored (@fail A e). Proof. done. Qed.
Lemma anchored_of_result {A} (r : result A FaucetError) : anchored (of_result r). Proof. by destruct r. Qed.
Lemma anchored_syscall {A} (eff : effect A) : (forall d, root_at d = RootDurable <-> root_at (eff d).2 = RootDurable) -> anchored (syscall eff).
Proof.
  intros He d. unfold syscall. specialize (He (set_faults d (tail (faults d)))). destruct (faults d) as [|[] ?]; cbn in *; try done; by destruct (eff _).
Qed.
Lemma anchored_or_fail {A} (m : D (result A io_error)) t : anchored m -> anchored (or_fail m t).
Proof. intros Hm. apply anchored_bind; [done|]. by intros []. Qed.
Lemma anchored_caught {A} (m : D A) : anchored m -> anchored (caught m).
Proof. intros Hm d. rewrite (Hm d). unfold caught. by destruct (m d) as [[] ?]. Qed.
Ltac anchor :=
  repeat first [ apply anchored_or_fail | apply anchored_bind; [|intros ?] | apply anchored_ret | apply anchored_fail | apply anchored_of_result
               | apply anchored_caught ].
Ltac anchor_call := apply anchored_syscall; intros d; cbn; repeat case_match; cbn in *; (done || congruence || naive_solver).
Lemma write_synced_anchored n bytes : anchored (write_synced n bytes).
Proof. unfold write_synced, fs_create. anchor; anchor_call. Qed.
Lemma sidecar_anchored key : anchored (match key_sidecar key with Some n => write_synced n key | None => mret tt end).
Proof. destruct (key_sidecar key); [apply write_synced_anchored|apply anchored_ret]. Qed.
Lemma remove_anchored n : anchored (syscall (fs_remove n)).
Proof. unfold fs_remove. anchor_call. Qed.
Lemma rename_anchored a b : anchored (syscall (fs_rename a b)).
Proof. unfold fs_rename. anchor_call. Qed.
Lemma rename_legacy_anchored key from : anchored (rename_legacy key from).
Proof.
  apply anchored_bind; [apply sidecar_anchored|]. intros _. apply anchored_bind; [anchor_call|].
  intros [[]|]; (apply anchored_bind; [apply remove_anchored || apply rename_anchored|]); try done; by intros [|[]].
Qed.
Lemma rename_all_anchored l : anchored (rename_all l).
Proof. induction l as [|[key from] l IH]; [done|]. apply anchored_bind; [apply rename_legacy_anchored|]. by intros _. Qed.
Lemma legacy_files_anchored l : anchored (legacy_files l).
Proof. induction l as [|n l IH]; cbn [legacy_files]; anchor; try exact IH; anchor_call. Qed.
Lemma migrate_anchored : anchored migrate_legacy_names.
Proof.
  intros d. unfold migrate_legacy_names. destruct (migrated d); [done|]. revert d. change (anchored (_ ← migrate_names; migration_done)).
  apply anchored_bind; [|by intros ? d]. unfold migrate_names. anchor; [anchor_call|]. destruct a as [l|[]]; anchor; [apply legacy_files_anchored|apply rename_all_anchored].
Qed.
Lemma commit_anchored tmp final bytes : anchored (commit_temp tmp final bytes).
Proof. unfold commit_temp, fs_create. anchor; try apply rename_anchored; anchor_call. Qed.
Lemma put_anchored key value : anchored (file_put key value).
Proof.
  apply anchored_bind; [apply anchored_of_result|]. intros _. unfold put_unlocked.
  apply anchored_bind; [apply anchored_or_fail, anchored_syscall; intros d; cbn; by destruct (root_at d)|]. intros _.
  apply anchored_bind; [apply migrate_anchored|]. intros _. apply anchored_bind; [by intros d|]. intros tmp.
  apply anchored_bind; [apply sidecar_anchored|]. intros _. apply anchored_bind; [apply anchored_caught, commit_anchored|].
  intros [u|e]; [unfold sync_dir; anchor; anchor_call|]. apply anchored_bind; [apply remove_anchored|done].
Qed.

(** What serde_json and the sealing are known to give for a value. *)
Record codec_laws (key : string) (value : Value) : Prop := {
  json_back : from_slice (to_vec value) = Ok value;
  json_plain : is_encrypted (to_vec value) = false;
  seal_back : forall seal open, encryption = Some (seal, open) ->
    is_encrypted (seal (to_vec value) key) = true /\ open (seal (to_vec value) key) key = Ok (to_vec value);
}.

Lemma parse_sealed key value : codec_laws key value -> load_of key (Some (sealed key value)) = Val (Some value).
Proof.
  intros [Hj Hp Hs]. unfold load_of, parse_entry, open_bytes, sealed. destruct encryption as [[seal open]|].
  - destruct (Hs seal open eq_refl) as [-> ->]. by rewrite Hj.
  - by rewrite Hp, Hj.
Qed.

(** A reading after a death, from one of the views before. *)
Lemma loads_view d d2 key v :
  wf d -> wf d2 -> validate_state_key debug_char key = Ok tt -> view d v ->
  content d2 (names d2) (entry_path key) = content d v (entry_path key) ->
  exists d1, recovers d d1 /\ loads d2 key = loads d1 key.
Proof.
  intros W W2 V Hv E. destruct (recovers_view d v Hv W) as (d1 & Hr & W1 & Hc). exists d1. split; [done|].
  rewrite !loads_content, E, Hc by (done || apply entry_path_entry). done.
Qed.
End Durability.

(** The keys in use have files of their own. *)
Definition distinct_files `{StoreEnv} (k1 k2 : string) : Prop := k1 <> k2 -> digest k1 <> digest k2.

Lemma other_entry `{StoreEnv} key k :
  hex_digest digest -> validate_state_key debug_char key = Ok tt -> validate_state_key debug_char k = Ok tt ->
  distinct_files k key -> k <> key -> entry_path k <> entry_path key.
Proof.
  intros Hdg V Vk Hd Hk E. unfold entry_path in E. apply string_app_inj in E as [E _]; [|done].
  apply Hk, (stem_inj digest Hdg); [by eapply valid_key_bytes|by eapply valid_key_bytes| |unfold stem_of in E; by rewrite E].
  intros Ed. by destruct (Hd Hk).
Qed.

(** A [put] on a disk, the machine's death some time later, and the store opened again. *)
Section Reopened.
Context `{StoreEnv} (d d' d2 : disk) (key : string) (value : Value) (o : outcome unit).
Context (W : wf d) (V : validate_state_key debug_char key = Ok tt) (Hput : file_put key value d = (o, d')).
Let bytes := sealed key value.
Lemma put_result : match o with
  | Val _ => stored (entry_path key) bytes d d' /\ journal d' = []
  | _ => quiet d d' \/ stored (entry_path key) bytes d d'
  end.
Proof. pose proof (put_triple key value d V d (quiet_refl d W)) as Ht. by rewrite Hput in Ht. Qed.
Lemma put_wf : wf d'.
Proof. pose proof put_result as Ht. destruct o; [apply Ht|destruct Ht as [[]|[]]; done..]. Qed.
Lemma put_root : root_at d = RootDurable <-> root_at d' = RootDurable.
Proof. pose proof (put_anchored key value d) as Ha. by rewrite Hput in Ha. Qed.
(** The root directory is gone: the store is as if it had been so before the [put]. *)
Lemma put_lost : root_at d' <> RootDurable -> wf d2 -> (forall n, content d2 (names d2) n = None) ->
  root_at d <> RootDurable /\ forall k, validate_state_key debug_char k = Ok tt -> exists d1, recovers d d1 /\ loads d2 k = loads d1 k.
Proof.
  intros Hr W2 Hn. assert (root_at d <> RootDurable) as Hd by (by rewrite put_root). split; [done|]. intros k Vk.
  destruct (recovers_nothing d Hd W) as (d1 & Hrec & W1 & Hn1). exists d1. split; [done|]. by rewrite !loads_content, Hn, Hn1 by done.
Qed.
(** The root directory is there, with the view [v] of it. *)
Context (v : dir) (Hv : view d' v) (W2 : wf d2) (Hread : forall n, entry n -> content d2 (names d2) n = content d' v n).
Lemma put_now : o = Val tt -> v = names d'.
Proof. intros Ho. pose proof put_result as Ht. rewrite Ho in Ht. destruct Ht as [_ Hj]. destruct Hv as [k ->]. unfold names. by rewrite Hj, take_nil. Qed.
Lemma put_other k : validate_state_key debug_char k = Ok tt -> keeps (entry_path k) d d' ->
  (exists d1, recovers d d1 /\ loads d2 k = loads d1 k) /\ (o = Val tt -> loads d2 k = loads d k).
Proof.
  intros Vk [K1 K2]. pose proof (Hread _ (entry_path_entry k)) as E. split.
  - destruct (K1 v Hv) as (v0 & Hv0 & E0). apply (loads_view d d2 k v0); [done..|congruence].
  - intros Ho. rewrite !loads_content, E, put_now, K2 by done. done.
Qed.
Lemma put_own : codec_laws key value ->
  loads d2 key = Val (Some value) \/ (o <> Val tt /\ exists d1, recovers d d1 /\ loads d2 key = loads d1 key).
Proof.
  intros Hc. pose proof put_result as Ht. pose proof (Hread _ (entry_path_entry key)) as E.
  assert (forall c, content d2 (names d2) (entry_path key) = c -> loads d2 key = load_of key c) as Hl by (intros c <-; by apply loads_content).
  assert (o = Val tt \/ o <> Val tt) as [Ho|Ho] by (destruct o as [[]| |]; auto).
  - left. rewrite (Hl _ E), (put_now Ho). rewrite Ho in Ht. destruct Ht as [(_ & -> & _) _]. by apply parse_sealed.
  - assert (quiet d d' \/ stored (entry_path key) bytes d d') as [[_ Q]|(_ & _ & Hs & _)] by (destruct o as [[]| |]; [by destruct Ho|done..]).
    + right. split; [done|]. by apply put_other; [|apply Q, entry_path_entry].
    + destruct (Hs v Hv) as [Eb|(v0 & Hv0 & E0)]; [left; rewrite (Hl _ E), Eb; by apply parse_sealed|right].
      split; [done|]. apply (loads_view d d2 key v0); [done..|congruence].
Qed.
Lemma put_keeps k : entry_path k <> entry_path key -> keeps (entry_path k) d d'.
Proof.
  intros Hn. assert (forall s, quiet d s \/ stored (entry_path key) bytes d s -> keeps (entry_path k) d s) as Hkeep.
  { intros s0 [[_ Q]|(_ & _ & _ & Hs)]; [by apply Q, entry_path_entry|by apply Hs; [apply entry_path_entry|]]. }
  apply Hkeep. pose proof put_result as Ht. destruct o; [right; apply Ht|done..].
Qed.
End Reopened.

(** C28: [put] on the file store is atomic, and durable where its directory is. Let the machine
    die at any point of a [put], or some time after it returned: when the store is opened
    again, the key holds the new value or what it could have held without the [put], never
    anything else, and certainly the new value when [put] had returned and the root directory
    itself was durable before it; every other key holds what it could have held without the
    [put]. *)
Theorem file_put_atomic `{StoreEnv} (d d' d2 : disk) (key : string) (value : Value) (o : outcome unit) :
  wf d -> hex_digest digest -> validate_state_key debug_char key = Ok tt -> codec_laws key value ->
  file_put key value d = (o, d') -> recovers d' d2 ->
  wf d2 /\
  (loads d2 key = Val (Some value) \/
    ((o = Val tt -> root_at d <> RootDurable) /\ exists d1, recovers d d1 /\ loads d2 key = loads d1 key)) /\
  forall k, validate_state_key debug_char k = Ok tt -> distinct_files k key -> k <> key ->
    (exists d1, recovers d d1 /\ loads d2 k = loads d1 k) /\ (o = Val tt -> root_at d = RootDurable -> loads d2 k = loads d k).
Proof.
  intros W Hdg V Hc Hput Hrec. pose proof (put_wf d d' key value o W V Hput) as W'.
  destruct (recovers_spec d' d2 W' Hrec) as (W2 & [(v & Hv & Hread)|[Hr Hn]]); (split; [done|]).
  - split.
    + destruct (put_own d d' d2 key value o W V Hput v Hv W2 Hread Hc) as [?|[Ho ?]]; [by left|right]. by split.
    + intros k Vk Hd Hk. pose proof (other_entry key k Hdg V Vk Hd Hk) as Hn.
      destruct (put_other d d' d2 key value o W V Hput v Hv W2 Hread k Vk) as [? ?]; [exact (put_keeps d d' key value o W V Hput k Hn)|]. auto.
  - destruct (put_lost d d' d2 key value o W Hput Hr W2 Hn) as [Hd Hl]. split; [right; split; auto|]. intros k Vk _ _. split; [by apply Hl|by intros _ ?].
Qed.


(** A store without encryption whose JSON text is a number, for examples. *)
#[local] Instance demo_store : StoreEnv := {|
  root := "state"; proc_token := "0"; digest := toy_digest; debug_char := fun _ _ => EmptyString;
  io_text := fun _ => "io"; to_vec := fun v => match v with Null => "null" | _ => "1" end;
  from_slice := fun s => if string_eqb s "null" then Ok Null else if string_eqb s "1" then Ok (VNumber (PosInt 1)) else Err "expected value";
  display := fun _ => "error"; encryption := None |}.

Definition fresh_disk (at_ : root_state) (f : list io_fault) : disk := MkDisk ∅ ∅ [] 0 at_ false 0 f.
Notation empty_disk := (fresh_disk RootDurable).

Lemma fresh_disk_wf at_ f : wf (fresh_disk at_ f).
Proof.
  assert (forall v, view (fresh_disk at_ f) v -> v = ∅) as Hv by (intros v [k ->]; cbn; by rewrite take_nil).
  split; [intros v n i ->%Hv|intros v n i ->%Hv _|intros m i _|intros v m m' i ->%Hv _|intros v n ->%Hv []]; try done; by rewrite lookup_empty.
Qed.

(** In a directory that is durable a returned [put] is too; a machine that dies right after the
    rename of the temporary file may come back without the new value. *)
Lemma file_put_atomic_witness :
  let r := file_put "orders" (VNumber (PosInt 1)) (empty_disk []) in
  let died := file_put "orders" (VNumber (PosInt 1)) (empty_disk [Works; Works; Works; Works; Works; Works; DiesAfter]) in
  r.1 = Val tt /\ died.1 = Crashed /\
  (forall d2, recovers r.2 d2 -> loads d2 "orders" = Val (Some (VNumber (PosInt 1)))) /\
  forall d2, recovers died.2 d2 -> loads d2 "orders" = Val (Some (VNumber (PosInt 1))) \/
    exists d1, recovers (empty_disk [Works; Works; Works; Works; Works; Works; DiesAfter]) d1 /\ loads d2 "orders" = loads d1 "orders".
Proof.
  intros r died. split_and!; [vm_compute; reflexivity..| |]; intros d2 Hr.
  - destruct (file_put_atomic (empty_disk []) r.2 d2 "orders" (VNumber (PosInt 1)) r.1 (fresh_disk_wf _ _) toy_digest_hex) as (_ & [?|[Ho _]] & _);
      [vm_compute; reflexivity|split; [vm_compute; reflexivity|vm_compute; reflexivity|done]|apply surjective_pairing|exact Hr|done|].
    destruct Ho; [vm_compute; reflexivity|reflexivity].
  - destruct (file_put_atomic (empty_disk [Works; Works; Works; Works; Works; Works; DiesAfter]) died.2 d2 "orders" (VNumber (PosInt 1)) died.1 (fresh_disk_wf _ _) toy_digest_hex) as (_ & [?|[_ ?]] & _);
      [vm_compute; reflexivity|split; [vm_compute; reflexivity|vm_compute; reflexivity|done]|apply surjective_pairing|exact Hr|by left|by right].
Defined.

(** The first [put] makes the root directory, and nothing syncs the directory that holds it: the
    value can be lost with it after [put] has returned. *)
Example first_put_can_be_lost :
  let put := file_put "orders" Null (fresh_disk RootAbsent []) in
  put.1 = Val tt /\ exists d2, recovers put.2 d2 /\ loads d2 "orders" = Val None.
Proof.
  split; [vm_compute; reflexivity|]. eexists. split.
  - exists ∅, (fun _ => EmptyString). right. split_and!; [done|by vm_compute|reflexivity].
  - vm_compute. reflexivity.
Qed.

(** A delete whose directory fsync fails reports the failure; the retry finds no
    file, syncs nothing and reports success, and the death of the machine may bring
    the value back. *)
Example retried_delete_is_not_durable :
  let put := file_put "orders" Null (empty_disk []) in
  let failed := file_delete "orders" (set_faults put.2 [Works; Works; Works; Works; Works; Works; Works; Refuses]) in
  let again := file_delete "orders" (set_faults failed.2 []) in
  (exists e, failed.1 = Fault e) /\ again.1 = Val tt /\
  exists d2, recovers again.2 d2 /\ loads d2 "orders" = Val (Some Null).
Proof.
  split; [eexists; vm_compute; reflexivity|]. split; [vm_compute; reflexivity|]. eexists. split.
  - exists (durable (file_delete "orders" (set_faults (file_delete "orders" (set_faults (file_put "orders" Null (empty_disk [])).2
      [Works; Works; Works; Works; Works; Works; Works; Refuses])).2 [])).2), (fun _ => EmptyString).
    left. split; [by exists 0%nat|reflexivity].
  - vm_compute. reflexivity.
Qed.

(** The name of a long key is kept in a side file that every [put] rewrites in
    place: a death right after the truncation leaves a key that can be read but is
    no longer listed. *)
Example torn_sidecar_hides_key :
  let key := Nat.iter 60 (String "A"%char) EmptyString in
  let put := file_put key Null (empty_disk []) in
  let died := file_put key Null (set_faults put.2 [Works; DiesAfter]) in
  (file_list EmptyString put.2).1 = Val [key] /\
  exists d2, recovers died.2 d2 /\ loads d2 key = Val (Some Null) /\ (file_list EmptyString d2).1 = Val [].
Proof.
  intros key put died. split; [vm_compute; reflexivity|]. eexists. split.
  - exists (names died.2), (fun _ => EmptyString). left. split; [apply view_names|reflexivity].
  - split; vm_compute; reflexivity.
Qed.
