(* ===== verification/Governance.v ===== *)
(** The per-page governance passes and the governed writers
    (crates/core/src/governance/{apply,page,write}.rs): masking, quality,
    contract and schema drift in their order, the envelopes they build, and the
    gateway every write goes through.

    The passes themselves are supplied by the run's specs. What the page loop
    relies on is stated by two classes, [QualityPass] and [ContractPass], which
    the passes of Quality.v and Contract.v satisfy. One-shot warning latches only steer
    logging and are left out. *)
From S2P Require Import Prelude Errors Json Text Accounting Dlq Drift Schema Quality Contract Engine.
From S2P Require Import Memory.

Local Open Scope Z_scope.
Local Open Scope result_scope.

(** ** The interface of the record passes *)

Class QualityPass (f : list Value -> result QualityOutcome FaucetError) : Prop :=
  quality_pass_split : forall l o, f l = Ok o -> split_of l (qo_survivors o) (qo_quarantined o).

Class ContractPass (f : list Value -> result ContractOutcome FaucetError) : Prop :=
  contract_pass_splits : forall l o, f l = Ok o ->
    contract_split_of l (co_survivors o) (co_quarantined o).

#[export] Instance apply_quality_is_pass {Path Regex Validator} resolve is_match schema_check to_json
  fmt_rate fmt_f64 canonical_json decimal_cmp (q : @CompiledQuality Path Regex Validator) :
  QualityPass (fun l => apply_quality resolve is_match schema_check to_json fmt_rate fmt_f64
                          canonical_json decimal_cmp l q).
Proof. intros l o. apply apply_quality_inv. Qed.

#[export] Instance apply_contract_is_pass {Regex} is_match regex_str fmt (c : @CompiledContract Regex) :
  ContractPass (fun l => apply_contract is_match regex_str fmt l c).
Proof. intros l o. apply apply_contract_split. Qed.

(** ** apply.rs *)

(** [struct GovernanceSpecs]. *)
Record GovernanceSpecs := MkSpecs {
  gs_masking : option (Value -> Value);
  gs_quality : option (list Value -> result QualityOutcome FaucetError);
  gs_contract : option (string * (list Value -> result ContractOutcome FaucetError));
  gs_schema_drift : option SchemaDriftPolicy;
  gs_pipeline : string;
  gs_row : string;
  gs_sink_name : string;
  gs_has_dlq : bool;
}.

(** [struct GovernanceState]: the destination schema, once the sink reports one. *)
Definition GovernanceState : Type := option (option Value).

(** [struct GovernanceOutcome]. *)
Record GovernanceOutcome := MkGovernanceOutcome {
  go_records : list Value;
  go_envelopes : list Value;
  go_deferred_abort : option FaucetError;
}.

Section Governance.
Context {E : Type}.
(** Error text and the installed redactor. *)
Context (display : FaucetError -> string) (redact : string -> string).

Definition envelope (specs : GovernanceSpecs) (ts : Z) (rec : Value) (err : FaucetError)
    (reason : DlqReason) (page_index : nat) : Value :=
  build_envelope display redact ts rec err reason (gs_sink_name specs) (gs_pipeline specs)
    (gs_row specs) (Z.of_nat page_index).

(** Masking, first. *)
Definition masking_pass (specs : GovernanceSpecs) (records : list Value) : list Value :=
  match gs_masking specs with Some m => m <$> records | None => records end.

(** Quality: survivors, envelopes, and the survivors' page positions. *)
Definition quality_stage (specs : GovernanceSpecs) (ts : Z) (records : list Value) :
    result (list Value * list Value * list nat) FaucetError :=
  let page_len := length records in
  match gs_quality specs with
  | Some q =>
      let? outcome := q records in
      let quarantined_idx := quarantined_at (qo_quarantined outcome) in
      Ok (qo_survivors outcome,
          (fun qr => envelope specs ts (qr_record qr) (QualityFailure (qr_check qr) (qr_message qr))
                       Dlq.Quality (qr_page_index qr)) <$> qo_quarantined outcome,
          filter (fun i => i ∉ quarantined_idx) (seq 0 page_len))
  | None => Ok (records, [], seq 0 page_len)
  end.

(** Contract: positions are translated through [page_indices]. *)
Definition contract_stage (specs : GovernanceSpecs) (ts : Z) (records : list Value)
    (page_indices : list nat) : result (list Value * list Value * list nat) FaucetError :=
  match gs_contract specs with
  | Some (version, c) =>
      let? outcome := c records in
      let quarantined := breached_at (co_quarantined outcome) in
      Ok (co_survivors outcome,
          (fun vr => let i := cv_page_index (vr_violation vr) in
                     envelope specs ts (vr_record vr)
                       (ContractViolation version (describe (vr_violation vr)))
                       Dlq.Contract (default i (page_indices !! i))) <$> co_quarantined outcome,
          (filter (fun p => p.2 ∉ quarantined) (indexed 0 page_indices)).*1)
  | None => Ok (records, [], page_indices)
  end.

(** [exhibits] of [quarantine_drift_rows]. *)
Definition exhibits_drift (diff : SchemaDiff) (rec : Value) : bool :=
  let present_cols := cc_name <$> additions diff in
  let typed_cols := omap (fun c => (fun dest => (cc_name c, dest)) <$> cc_from c)
                      (widenings diff ++ incompatible_changes diff) in
  match as_object rec with
  | Some m =>
      existsb (fun e => bool_decide (e.1 ∈ present_cols)) m
      || existsb (fun c : string * Value =>
           match assoc c.1 m with Some v => negb (value_fits c.2 c.1 v) | None => false end) typed_cols
      || existsb (fun c => match assoc c m with Some _ => false | None => true end)
           (droppable_required diff)
  | None => false
  end.

Definition drift_error (diff : SchemaDiff) : FaucetError :=
  SchemaDrift (changed_columns diff) "row exhibits schema drift (on_drift=quarantine)".

Fixpoint quarantine_go (specs : GovernanceSpecs) (ts : Z) (diff : SchemaDiff)
    (page_indices : list nat) (idx : nat) (records : list Value) : list Value * list Value :=
  match records with
  | [] => ([], [])
  | rec :: records =>
      let '(kept, envs) := quarantine_go specs ts diff page_indices (S idx) records in
      if exhibits_drift diff rec then
        (kept, envelope specs ts rec (drift_error diff) SchemaDriftReason
                 (default idx (page_indices !! idx)) :: envs)
      else (rec :: kept, envs)
  end.

Definition quarantine_drift_rows (specs : GovernanceSpecs) (ts : Z) (diff : SchemaDiff)
    (page_indices : list nat) (records : list Value) : list Value * list Value :=
  quarantine_go specs ts diff page_indices 0 records.

(** [on_drift: ignore] drops the fields the destination lacks. *)
Definition trim_fields (dest : Value) (rec : Value) : Value :=
  match rec with
  | VObject map => VObject (filter (fun e => e.1 ∈ (props_of dest).*1) map)
  | other => other
  end.

(** The evolution asked of the sink. *)
Definition evolution_of (policy : SchemaDriftPolicy) (diff : SchemaDiff) : SchemaEvolution :=
  MkSchemaEvolution (additions diff)
    (filter (fun c => Is_true (match cc_from c with Some f => base_widened f (cc_to c) | None => false end))
       (widenings diff))
    ((if relax_nullability_on_missing policy then droppable_required diff else [])
     ++ (cc_name <$> filter (fun c => Is_true (match cc_from c with
                                               | Some f => adds_null f (cc_to c) | None => false end))
           (widenings diff))).

Local Open Scope engine_scope.

Context (sink : SinkOps E).

Definition ask_schema : M E (option Value) := call (current_schema sink) ESchema.

(** [apply_drift_policy]: records, envelopes, deferred abort, schema cache. *)
Definition apply_drift_policy (specs : GovernanceSpecs) (policy : SchemaDriftPolicy)
    (diff : SchemaDiff) (dest : Value) (ts : Z) (records : list Value) (page_indices : list nat)
    (cache : GovernanceState) :
    M E (list Value * list Value * option FaucetError * GovernanceState) :=
  match on_drift policy with
  | Drift.Warn => ret (records, [], None, cache)
  | Drift.Fail =>
      ret (records, [], Some (SchemaDrift (changed_columns diff) "schema drift detected (on_drift=fail)"),
           cache)
  | Drift.Ignore => ret (trim_fields dest <$> records, [], None, cache)
  | Drift.Quarantine =>
      let '(kept, envs) := quarantine_drift_rows specs ts diff page_indices records in
      ret (kept, envs, None, cache)
  | Drift.Evolve =>
      let evolution := evolution_of policy diff in
      let* cache :=
        if evolution_is_empty evolution then ret cache
        else
          call (evolve_schema sink evolution) (EEvolve evolution) ;;
          let* fresh := ask_schema in
          ret (Some fresh) in
      match incompatible_changes diff with
      | [] => ret (records, [], None, cache)
      | incompatible =>
          match on_incompatible policy with
          | IncompatibleFail =>
              ret (records, [], Some (SchemaDrift (cc_name <$> incompatible)
                "incompatible type change cannot be auto-evolved (on_incompatible=fail)"), cache)
          | IncompatibleQuarantine =>
              let '(kept, envs) := quarantine_drift_rows specs ts
                (MkSchemaDiff [] [] incompatible []) page_indices records in
              ret (kept, envs, None, cache)
          end
      end
  end.

(** The schema-drift pass of [apply_governance]. *)
Definition drift_stage (specs : GovernanceSpecs) (ts : Z) (records : list Value)
    (page_indices : list nat) (cache : GovernanceState) :
    M E (list Value * list Value * option FaucetError * GovernanceState) :=
  match gs_schema_drift specs, records with
  | Some policy, _ :: _ =>
      let* cache := match cache with
                    | Some (Some _) => ret cache
                    | _ => let* s := ask_schema in ret (Some s)
                    end in
      match cache with
      | Some (Some dest) =>
          let diff := diff_schema dest (infer_page_schema dest records) (allow_widening policy) in
          if diff_is_empty diff then ret (records, [], None, cache)
          else apply_drift_policy specs policy diff dest ts records page_indices cache
      | _ => ret (records, [], None, cache)
      end
  | _, _ => ret (records, [], None, cache)
  end.

(** [apply_governance]. *)
Definition apply_governance (records : list Value) (specs : GovernanceSpecs) (cache : GovernanceState) :
    M E (GovernanceOutcome * GovernanceState) :=
  let* s := state_of in
  let ts := now_ms (clock s) in
  let records := masking_pass specs records in
  let* (records, quality_envelopes, page_indices) := lift (quality_stage specs ts records) in
  let* (records, contract_envelopes, page_indices) :=
    lift (contract_stage specs ts records page_indices) in
  let* (records, drift_envelopes, drift_abort, cache) :=
    drift_stage specs ts records page_indices cache in
  match gs_has_dlq specs, drift_abort with
  | false, Some e => throw e
  | _, _ =>
      ret (MkGovernanceOutcome records (quality_envelopes ++ contract_envelopes ++ drift_envelopes)
             drift_abort, cache)
  end.

(** ** write.rs: the write gateway *)

Definition gateway_reported (page : list Value) : M E WriteReport :=
  call (write_governed sink page) (EWrite Main page).
Definition gateway_partial (page : list Value) : M E (list RowOutcome) :=
  call (write_batch_partial sink page) (EPartial page).
Definition gateway_admit (page : list Value) : M E unit :=
  call (admit_page sink page) (EAdmit page).
Definition gateway_idempotent (page : list Value) (scope token : string) : M E WriteReport :=
  call (write_batch_idempotent_reported sink page scope token) (EIdempotent page scope token).

(** [dlq]: every envelope must land. *)
Definition gateway_dlq (dlq_sink : SinkOps E) (envelopes : list Value) : M E Z :=
  let offered := zlen envelopes in
  let* report := call (write_batch_reported dlq_sink envelopes) (EWrite Dead envelopes) in
  if sadd64 (wr_accepted report) (wr_coalesced report) <? offered then
    throw (RowsUnaccounted offered (wr_accepted report))
  else ret (wr_accepted report).

(** [dlq_write_error]: a refusal keeps its type. *)
Definition dlq_write_error (context : string) (e : FaucetError) : FaucetError :=
  match e with
  | PolicyViolation _ _ _ | BudgetExceeded _ _ _ | RowsUnaccounted _ _ => e
  | e => Sink (context +:+ ": " +:+ display e)
  end.

Definition flush_dlq (dlq_sink : SinkOps E) : M E unit :=
  map_err (fun e => Sink ("DLQ sink flush failed: " +:+ display e))
    (call (flush dlq_sink) (EFlush Dead)).

(** [abort_with_envelopes]. *)
Definition abort_with_envelopes (dlq_sink : SinkOps E) (envelopes : list Value) (stats : DlqStats) :
    M E DlqStats :=
  match envelopes with
  | [] => ret stats
  | _ =>
      map_err (dlq_write_error "DLQ sink write failed") (gateway_dlq dlq_sink envelopes) ;;
      flush_dlq dlq_sink ;;
      ret (MkDlqStats (records_dlq stats + zlen envelopes) (pages_with_failures stats + 1))
  end.

End Governance.

(** An envelope that carries row [i] of page [l] and says so. *)
Definition env_for (l : list Value) (e : Value) (i : nat) : Prop :=
  exists u x, unwrap_envelope e = Ok u /\ ue_payload u = x /\ l !! i = Some x /\
              ue_record_index u = Some (Z.of_nat i).

(** Where a page stands between passes: the rows [q] are in [envs], one envelope
    each, and the others are in [r] with their page positions in [idx]. *)
Definition staged (l r envs : list Value) (idx : list nat) : Prop :=
  exists q, NoDup q /\ Forall2 (env_for l) envs q /\
            r = (rows_without q l).*1 /\ idx = (rows_without q l).*2.

(** The specs' record passes keep what they promise. *)
Definition specs_lawful (specs : GovernanceSpecs) : Prop :=
  match gs_quality specs with Some q => QualityPass q | None => True end /\
  match gs_contract specs with Some (_, c) => ContractPass c | None => True end.

(** What the sink gets of the rows kept: the rows, or under [on_drift: ignore]
    the rows without the fields the destination lacks. *)
Definition written_form (specs : GovernanceSpecs) (kept written : list Value) : Prop :=
  written = kept \/
  (exists policy dest, gs_schema_drift specs = Some policy /\ on_drift policy = Drift.Ignore /\
     written = trim_fields dest <$> kept).

(** The drift pass on a staged page. *)
Definition drift_post {E} (l envs : list Value) (specs : GovernanceSpecs)
    (o : outcome (list Value * list Value * option FaucetError * GovernanceState)) (s : st E) : Prop :=
  match o with
  | Val (r', envs', _, _) =>
      exists kept idx', staged l kept (envs ++ envs') idx' /\ written_form specs kept r'
  | _ => True
  end.

(** ** Facts *)

Lemma filter_fst {A B} (P : A -> Prop) `{!forall x, Decision (P x)} (l : list (A * B)) :
  (filter (fun y => P y.1) l).*1 = filter P l.*1.
Proof.
  induction l as [|y l IH]; [done|]. rewrite fmap_cons, !filter_cons.
  repeat case_decide; [|done..]. by rewrite fmap_cons, IH.
Qed.

Lemma indexed_fmap {A B} (f : A -> B) i (l : list A) :
  indexed i (f <$> l) = prod_map f id <$> indexed i l.
Proof. revert i. induction l as [|x l IH]; intros i; [done|]. unfold indexed in *. simpl. f_equal. apply IH. Qed.

Lemma rows_without_fmap {A B} (f : A -> B) q (l : list A) :
  (rows_without q (f <$> l)).*1 = f <$> (rows_without q l).*1.
Proof.
  unfold rows_without. rewrite indexed_fmap. induction (indexed 0 l) as [|[x n] r IH]; [done|].
  rewrite fmap_cons, !filter_cons. simpl. case_decide; [|done]. rewrite !fmap_cons. simpl. by rewrite IH.
Qed.

Lemma rows_without_NoDup {A} q (l : list A) : NoDup (rows_without q l).*2.
Proof. rewrite rows_without_snd. apply NoDup_filter, NoDup_seq. Qed.

Lemma rows_without_more {A} q q' (l : list A) :
  filter (fun p => p.2 ∉ q') (rows_without q l) = rows_without (q ++ q') l.
Proof.
  unfold rows_without. rewrite list_filter_filter. apply list_filter_iff. intros [x n]. simpl.
  rewrite elem_of_app. tauto.
Qed.

Lemma elem_of_rows_without {A} q (l : list A) x n :
  (x, n) ∈ rows_without q l <-> n ∉ q /\ l !! n = Some x.
Proof.
  unfold rows_without. rewrite list_elem_of_filter, elem_of_indexed. rewrite Nat.sub_0_r. simpl.
  intuition lia.
Qed.

(** Taking out positions [ps] of the rows left takes out the page positions they
    stand for. *)
Lemma remove_positions {A} (R : list (A * nat)) ps qs :
  NoDup R.*2 -> Forall2 (fun p n => R.*2 !! p = Some n) ps qs ->
  (rows_without ps R).*1 = filter (fun r => r.2 ∉ qs) R.
Proof.
  intros Hn Hf. rewrite <- (indexed_fst 0 R) at 2. rewrite <- filter_fst.
  f_equal. apply filter_ext_in. intros [r i] [_ Hi]%elem_of_indexed. rewrite Nat.sub_0_r in Hi. simpl.
  assert (R.*2 !! i = Some r.2) as Hi2 by (rewrite list_lookup_fmap, Hi; done).
  split; intros Hnot Hin; apply Hnot; apply list_elem_of_lookup in Hin as [k Hk].
  - apply (Forall2_lookup_r _ _ _ _ _ Hf) in Hk as (p & Hp & Hlk).
    assert (p = i) as -> by (by eapply NoDup_lookup). by eapply list_elem_of_lookup_2.
  - apply (Forall2_lookup_l _ _ _ _ _ Hf) in Hk as (n & Hp & Hlk).
    assert (n = r.2) as -> by congruence. by eapply list_elem_of_lookup_2.
Qed.

Section Stages.
Context (display : FaucetError -> string) (redact : string -> string).
Context (specs : GovernanceSpecs) (clk : Z).

Lemma envelope_for l x err reason i :
  l !! i = Some x -> env_for l (envelope display redact specs (now_ms clk) x err reason i) i.
Proof.
  intros Hx. eexists _, x. unfold envelope. rewrite unwrap_build_envelope by apply now_ms_range.
  done.
Qed.

Lemma quality_stage_staged l r envs idx :
  specs_lawful specs -> quality_stage display redact specs (now_ms clk) l = Ok (r, envs, idx) ->
  staged l r envs idx.
Proof.
  intros [Hq _] H. unfold quality_stage in H. destruct (gs_quality specs) as [f|].
  - destruct (f l) as [o|] eqn:Ho; [|done]. simplify_eq/=. apply Hq in Ho as (Hs & Hn & Hf).
    exists (quarantined_at (qo_quarantined o)). split; [done|]. split; [|by rewrite rows_without_snd].
    unfold quarantined_at. apply Forall2_fmap. apply Forall_Forall2_diag.
    eapply Forall_impl; [exact Hf|]. intros qr Hr. by apply envelope_for.
  - simplify_eq/=. exists []. split; [constructor|]. split; [constructor|].
    rewrite rows_without_nil, rows_without_snd. split; [done|]. symmetry. apply filter_all. set_solver.
Qed.

Lemma contract_stage_staged l r envs idx r' envs' idx' :
  specs_lawful specs -> staged l r envs idx ->
  contract_stage display redact specs (now_ms clk) r idx = Ok (r', envs', idx') ->
  staged l r' (envs ++ envs') idx'.
Proof.
  intros [_ Hc] (q & Hn & Hf & -> & ->) H. unfold contract_stage in H.
  destruct (gs_contract specs) as [[version f]|];
    [|simplify_eq; rewrite app_nil_r; by exists q].
  destruct (f _) as [o|] eqn:Ho; [|done]. simplify_eq/=. apply Hc in Ho as (Hs & Hpn & Hpf).
  set (R := rows_without q l) in *. set (ps := breached_at (co_quarantined o)) in *.
  set (at_ := fun vr : ViolatingRecord => cv_page_index (vr_violation vr)) in *.
  set (qs := (fun vr => default 0%nat (R.*2 !! at_ vr)) <$> co_quarantined o).
  assert (forall vr, vr ∈ co_quarantined o -> exists n, R !! at_ vr = Some (vr_record vr, n)) as HR.
  { intros vr Hin. rewrite Forall_forall in Hpf. apply Hpf in Hin.
    rewrite list_lookup_fmap in Hin. unfold at_.
    destruct (R !! cv_page_index (vr_violation vr)) as [[x n]|]; [|done]. simplify_eq/=. by eexists. }
  assert (Forall2 (fun p n => R.*2 !! p = Some n) ps qs) as Hqs.
  { unfold ps, breached_at, qs. apply Forall2_fmap, Forall_Forall2_diag, Forall_forall. intros vr Hin.
    destruct (HR vr Hin) as [n Hvr]. fold (at_ vr). rewrite list_lookup_fmap, Hvr. done. }
  assert (forall n, n ∈ qs -> n ∈ R.*2) as Hsub.
  { intros n [k Hk]%list_elem_of_lookup. apply (Forall2_lookup_r _ _ _ _ _ Hqs) in Hk as (p & _ & Hp).
    by eapply list_elem_of_lookup_2. }
  exists (q ++ qs). split; [|split; [|split]].
  - apply NoDup_app. split; [done|]. split.
    + intros n Hin Hin'%Hsub. unfold R in Hin'. rewrite rows_without_snd, list_elem_of_filter in Hin'.
      by destruct Hin'.
    + apply NoDup_alt. intros i j n Hi Hj.
      apply (Forall2_lookup_r _ _ _ _ _ Hqs) in Hi as (p & Hp & Hp').
      apply (Forall2_lookup_r _ _ _ _ _ Hqs) in Hj as (p2 & Hp2 & Hp2').
      assert (p = p2) as <- by (apply (NoDup_lookup R.*2 p p2 n); [apply rows_without_NoDup|done..]).
      by eapply NoDup_lookup.
  - apply Forall2_app; [done|]. unfold qs. apply Forall2_fmap, Forall_Forall2_diag, Forall_forall.
    intros vr Hin. destruct (HR vr Hin) as [n Hvr]. fold (at_ vr).
    rewrite list_lookup_fmap, Hvr. simpl. apply envelope_for.
    apply list_elem_of_lookup_2 in Hvr. by apply elem_of_rows_without in Hvr as [_ ?].
  - rewrite Hs, rows_without_fmap, (remove_positions R ps qs) by (done || apply rows_without_NoDup).
    unfold R. by rewrite rows_without_more.
  - change (filter (fun p => p.2 ∉ ps) (indexed 0 R.*2)) with (rows_without ps R.*2).
    rewrite rows_without_fmap, (remove_positions R ps qs) by (done || apply rows_without_NoDup).
    unfold R. by rewrite rows_without_more.
Qed.

(** The drift half: rows that exhibit drift leave with their page position. *)
Lemma quarantine_go_spec diff l R k idx kept envs :
  NoDup R.*2 -> (forall x n, (x, n) ∈ R -> l !! n = Some x) ->
  (forall j, (j < length R)%nat -> R.*2 !! j = idx !! (k + j)%nat) ->
  quarantine_go display redact specs (now_ms clk) diff idx k R.*1 = (kept, envs) ->
  exists qs, Forall2 (env_for l) envs qs /\ sublist qs R.*2 /\
    kept = (filter (fun r => r.2 ∉ qs) R).*1.
Proof.
  revert k kept envs. induction R as [|[x n] R IH]; intros k kept envs Hn Hl Hidx H; simpl in H.
  { simplify_eq. exists []. repeat split; constructor. }
  apply NoDup_cons in Hn as [Hni Hn]. simpl in Hni.
  destruct (quarantine_go _ _ _ _ _ idx (S k) _) as [kept' envs'] eqn:Hgo.
  destruct (IH (S k) kept' envs' Hn) as (qs & Hf & Hsub & Hkept); [|..|done|].
  { intros. apply Hl. by right. }
  { intros j Hj. specialize (Hidx (S j) ltac:(simpl; lia)).
    change (R.*2 !! j = idx !! (k + S j)%nat) in Hidx. rewrite Hidx. f_equal. lia. }
  assert (idx !! k = Some n) as Hk
    by (specialize (Hidx 0%nat ltac:(simpl; lia)); simpl in Hidx; by rewrite Nat.add_0_r in Hidx).
  assert (n ∉ qs) as Hnq by (intros Hin; apply Hni; by eapply elem_of_sublist).
  destruct (exhibits_drift _ _) eqn:He; simplify_eq/=.
  - exists (n :: qs). split; [constructor; [|done]|split; [by constructor|]].
    + rewrite Hk. apply envelope_for, Hl. by left.
    + rewrite filter_cons_False by (simpl; set_solver). f_equal. apply filter_ext_in.
      intros [y m] Hin. simpl. rewrite not_elem_of_cons. assert (m <> n); [|tauto].
      intros ->. apply Hni, list_elem_of_fmap. by exists (y, n).
  - exists qs. split; [done|]. split; [by constructor|].
    rewrite filter_cons_True by done. done.
Qed.

Lemma quarantine_staged l r envs idx diff kept envs' :
  staged l r envs idx ->
  quarantine_drift_rows display redact specs (now_ms clk) diff idx r = (kept, envs') ->
  exists idx', staged l kept (envs ++ envs') idx'.
Proof.
  intros (q & Hn & Hf & -> & ->) H.
  destruct (quarantine_go_spec diff l (rows_without q l) 0 _ _ _ (rows_without_NoDup q l)
    ltac:(intros x n Hin; by apply elem_of_rows_without in Hin as [_ ?]) ltac:(done) H)
    as (qs & Hqf & Hsub & ->).
  rewrite rows_without_more. eexists. exists (q ++ qs). split; [|split; [by apply Forall2_app|done]].
  apply NoDup_app. split; [done|]. split.
  - intros n Hin Hin'. apply (elem_of_sublist _ _ _ Hin') in Hsub.
    rewrite rows_without_snd, list_elem_of_filter in Hsub. by destruct Hsub.
  - exact (sublist_NoDup qs _ (rows_without_NoDup q l) Hsub).
Qed.

End Stages.

Lemma staged_length l r envs idx : staged l r envs idx -> (length r + length envs = length l)%nat.
Proof.
  intros (q & Hn & Hf & -> & _). rewrite (Forall2_length _ _ _ Hf), length_fmap.
  rewrite <- (length_fmap snd), rows_without_snd.
  assert (q ≡ₚ filter (fun i => i ∈ q) (seq 0 (length l))) as Hp.
  { apply NoDup_Permutation; [done|apply NoDup_filter, NoDup_seq|]. intros i.
    rewrite list_elem_of_filter, elem_of_seq. split; [|tauto]. intros Hi. split; [done|].
    apply list_elem_of_lookup in Hi as [k Hk].
    apply (Forall2_lookup_r _ _ _ _ _ Hf) in Hk as (e & _ & u & x & _ & _ & Hx%lookup_lt_Some & _). lia. }
  rewrite (Permutation_length Hp) at 1. rewrite Nat.add_comm, <- length_app.
  transitivity (length (seq 0 (length l))); [|apply length_seq].
  apply Permutation_length, filter_app_complement.
Qed.

Section GovernFacts.
Context {E : Type}.
Context (display : FaucetError -> string) (redact : string -> string).
Context (sink : SinkOps E).

Lemma apply_drift_policy_post specs policy diff dest clk l r envs idx cache s :
  gs_schema_drift specs = Some policy -> staged l r envs idx ->
  wp (apply_drift_policy display redact sink specs policy diff dest (now_ms clk) r idx cache)
    (drift_post l envs specs) s.
Proof.
  intros Hp Hs.
  assert (forall a c (s : st E), drift_post l envs specs (Val (r, [], a, c)) s) as Hkeep.
  { intros. exists r, idx. rewrite app_nil_r. split; [done|by left]. }
  assert (forall d kept envs' a c (s : st E),
    quarantine_drift_rows display redact specs (now_ms clk) d idx r = (kept, envs') ->
    drift_post l envs specs (Val (kept, envs', a, c)) s) as Hq.
  { intros d kept envs' a c s' H. destruct (quarantine_staged _ _ _ _ _ _ _ _ _ _ _ Hs H) as [idx' ?].
    exists kept, idx'. split; [done|by left]. }
  unfold apply_drift_policy. destruct (on_drift policy) eqn:Hod; try (by apply wp_ret).
  - apply wp_bind. eapply wp_mono with (Q := fun _ _ => True); [done|].
    intros [c| |] s' _; [|done..]. destruct (incompatible_changes diff); [by apply wp_ret|].
    destruct (on_incompatible policy); [by apply wp_ret|].
    destruct (quarantine_drift_rows _ _ _ _ _ _ _) eqn:H. apply wp_ret. by eapply Hq.
  - apply wp_ret. exists r, idx. rewrite app_nil_r. split; [done|]. right. eauto.
  - destruct (quarantine_drift_rows _ _ _ _ _ _ _) eqn:H. apply wp_ret. by eapply Hq.
Qed.

Lemma drift_stage_post specs clk l r envs idx cache s :
  staged l r envs idx ->
  wp (drift_stage display redact sink specs (now_ms clk) r idx cache)
    (drift_post l envs specs) s.
Proof.
  intros Hs.
  assert (forall a c (s : st E), drift_post l envs specs (Val (r, [], a, c)) s) as Hkeep.
  { intros. exists r, idx. rewrite app_nil_r. split; [done|by left]. }
  unfold drift_stage. destruct (gs_schema_drift specs) as [policy|] eqn:Hp; [|by apply wp_ret].
  destruct r as [|x r]; [by apply wp_ret|].
  apply wp_bind. eapply wp_mono with (Q := fun _ _ => True); [done|].
  intros [c| |] s' _; [|done..]. destruct c as [[dest|]|]; try (by apply wp_ret).
  case_match; [by apply wp_ret|]. by apply apply_drift_policy_post.
Qed.

Lemma apply_governance_staged records specs cache s :
  specs_lawful specs ->
  wp (apply_governance display redact sink records specs cache)
    (fun o _ => match o with
                | Val (out, _) => exists kept idx,
                    staged (masking_pass specs records) kept (go_envelopes out) idx /\
                    written_form specs kept (go_records out)
                | _ => True
                end) s.
Proof.
  intros Hl. unfold apply_governance. apply wp_bind, wp_state_of, wp_bind, wp_lift.
  destruct (quality_stage _ _ _ _ _) as [[[r1 e1] i1]|] eqn:Hq; [|done].
  apply quality_stage_staged in Hq; [|done]. apply wp_bind, wp_lift.
  destruct (contract_stage _ _ _ _ _ _) as [[[r2 e2] i2]|] eqn:Hc; [|done].
  eapply contract_stage_staged in Hc; [|done..]. apply wp_bind.
  eapply wp_mono; [by apply drift_stage_post|].
  intros [[[[r3 e3] ab] c]| |] s'; [|done..]. intros (kept & idx & Hs & Hw).
  rewrite <- app_assoc in Hs. repeat case_match; (apply wp_ret || apply wp_throw); simpl; eauto.
Qed.

(** C5: governing a page loses and duplicates nothing. Whatever the configured
    passes and whatever the sink answers, a page that comes out of
    [apply_governance] is split in two: each envelope carries one row of the
    masked page together with that row's true page position, no position
    twice, and the rows to write are exactly the other rows in page order
    (under [on_drift: ignore] without the fields the destination lacks). *)
Theorem governance_conserves_rows records specs cache s out cache' s' :
  specs_lawful specs ->
  apply_governance display redact sink records specs cache s = (Val (out, cache'), s') ->
  exists kept idx,
    staged (masking_pass specs records) kept (go_envelopes out) idx /\
    written_form specs kept (go_records out) /\
    (length (go_records out) + length (go_envelopes out) = length records)%nat.
Proof.
  intros Hl H. pose proof (apply_governance_staged records specs cache s Hl) as Hw.
  unfold wp in Hw. rewrite H in Hw. simpl in Hw. destruct Hw as (kept & idx & Hs & Hw).
  exists kept, idx. split; [done|]. split; [done|]. pose proof (staged_length _ _ _ _ Hs) as Hlen.
  assert (length (masking_pass specs records) = length records) as Hm
    by (unfold masking_pass; case_match; by rewrite ?length_fmap).
  destruct Hw as [->|(p & d & _ & _ & ->)]; rewrite ?length_fmap; lia.
Qed.

End GovernFacts.

(** A page with a null key and a duplicate, under two quality rules. *)
Definition demo_specs : GovernanceSpecs :=
  MkSpecs None (Some (fun l => apply_quality demo_resolve (fun _ _ => true) (fun _ _ => Ok tt)
    (fun _ => EmptyString) (fun _ => EmptyString) (fun _ => EmptyString) demo_canonical (fun _ _ => None)
    l demo_quality)) None None "pipe" "row" "memory" true.
Definition demo_page : list Value := [demo_row 1; VObject [("id", Null)]; demo_row 1; demo_row 2].

Lemma governance_conserves_rows_witness :
  exists out c s',
    apply_governance (fun _ => EmptyString) id       (mem_sink false false false (fun _ => Ok tt)) demo_page demo_specs None (start (mem0 []))
    = (Val (out, c), s') /\
    exists kept idx, staged demo_page kept (go_envelopes out) idx /\ written_form demo_specs kept (go_records out) /\
      (length (go_records out) + length (go_envelopes out) = 4)%nat.
Proof.
  eexists _, _, _. split; [vm_compute; reflexivity|].
  apply (governance_conserves_rows (fun _ => EmptyString) id     (mem_sink false false false (fun _ => Ok tt)) demo_page demo_specs None (start (mem0 [])) _ None (start (mem0 []))).
  - split; [apply apply_quality_is_pass|exact I].
  - vm_compute. reflexivity.
Defined.

(** ** What quarantining drifted rows leaves *)

Lemma quarantine_kept display redact specs ts diff idx k records :
  (quarantine_go display redact specs ts diff idx k records).1 =
  filter (fun r => exhibits_drift diff r = false) records.
Proof.
  revert k. induction records as [|r records IH]; intros k; [done|]. cbn [quarantine_go].
  specialize (IH (S k)). destruct (quarantine_go _ _ _ _ _ _ (S k) records) as [kept envs]. cbn [fst] in IH. subst kept.
  destruct (exhibits_drift diff r) eqn:He; [by rewrite filter_cons_False by congruence|by rewrite filter_cons_True].
Qed.

(** A row that does not exhibit the page's drift. *)
Lemma not_exhibits diff o :
  exhibits_drift diff (VObject o) = false ->
  (forall c, c ∈ additions diff -> cc_name c ∉ o.*1) /\
  (forall c dest v, c ∈ widenings diff ++ incompatible_changes diff -> cc_from c = Some dest ->
     assoc (cc_name c) o = Some v -> value_fits dest (cc_name c) v = true).
Proof.
  unfold exhibits_drift. cbn [as_object]. intros [[Ha Ht]%orb_false_iff _]%orb_false_iff. split.
  - intros c Hc ([k v] & Hk & Hin)%list_elem_of_fmap.
    pose proof (existsb_false_forall _ _ _ Ha Hin) as Hf. apply bool_decide_eq_false in Hf. apply Hf. cbn [fst] in *.
    rewrite <- Hk. by apply list_elem_of_fmap_2.
  - intros c dest v Hc Hd Hv.
    assert ((cc_name c, dest) ∈ omap (fun c => (fun dest => (cc_name c, dest)) <$> cc_from c)
      (widenings diff ++ incompatible_changes diff)) as Hin.
    { apply list_elem_of_omap. exists c. by rewrite Hd. }
    pose proof (existsb_false_forall _ _ _ Ht Hin) as Hf. cbn [fst snd] in Hf. rewrite Hv in Hf.
    by apply negb_false_iff in Hf.
Qed.

(** Rows the quarantine keeps fit every column they carry. *)
Lemma kept_rows_fit dest allow records o name v :
  Forall value_wf records -> (forall name d, (name, d) ∈ props_of dest -> number_takes_integer d) ->
  VObject o ∈ records ->
  exhibits_drift (diff_schema dest (infer_page_schema dest records) allow) (VObject o) = false ->
  assoc name o = Some v -> exists d, assoc name (props_of dest) = Some d /\ value_ok d v.
Proof.
  intros Hwf Hni Ho Hex Hv. apply not_exhibits in Hex as [Hadd Htyped].
  assert (name ∈ (props_of (infer_page_schema dest records)).*1) as (f & Hf)%elem_of_fst
    by (apply page_keys; by exists o, v).
  pose proof (classified_in dest _ allow _ Hf) as Hcl. unfold classify_column in Hcl.
  destruct (assoc name (props_of dest)) as [d|] eqn:Hd.
  2: { exfalso. apply (Hadd _ Hcl). apply assoc_keys. by eexists. }
  exists d. split; [done|]. destruct (fits d f) eqn:Hfit.
  - eapply page_fits_rows; [exact Hf|done|by eapply Hni, assoc_in|done|done|done|].
    rewrite Forall_forall in Hwf. pose proof (Hwf _ Ho) as [_ Hall]. rewrite foldr_and, Forall_forall in Hall.
    exact (Hall (name, v) (assoc_in _ _ _ Hv)).
  - apply (value_fits_ok d name). destruct (allow && _);
      (refine (Htyped (MkColumnChange name (Some d) (without_also_accepted d f)) d v _ eq_refl Hv); apply elem_of_app; first [left; exact Hcl|right; exact Hcl]).
Qed.

(** Quarantine does what it is for: when drifted rows are quarantined, the
    rows kept no longer drift. The page inferred from them alone differs from the
    destination in nothing, provided some row is left and every kept row carries
    the destination's required columns. (A destination column that lists [number]
    among its extra types must take integers too.) *)
Theorem quarantine_clears_drift display redact specs ts dest allow idx records kept envs :
  Forall value_wf records -> (forall name d, (name, d) ∈ props_of dest -> number_takes_integer d) ->
  quarantine_drift_rows display redact specs ts
    (diff_schema dest (infer_page_schema dest records) allow) idx records = (kept, envs) ->
  (exists o, VObject o ∈ kept) ->
  (forall o name d, VObject o ∈ kept -> (name, d) ∈ props_of dest -> ~ nullable d -> is_Some (assoc name o)) ->
  diff_is_empty (diff_schema dest (infer_page_schema dest kept) allow) = true.
Proof.
  intros Hwf Hni Hq [o0 Ho0] Hreq.
  assert (kept = filter (fun r => exhibits_drift (diff_schema dest (infer_page_schema dest records) allow) r = false) records)
    as Hk by (rewrite <- (quarantine_kept display redact specs ts _ idx 0); unfold quarantine_drift_rows in Hq; by rewrite Hq).
  assert (forall o name v, VObject o ∈ kept -> assoc name o = Some v ->
    exists d, assoc name (props_of dest) = Some d /\ value_ok d v) as Hfit.
  { intros o name v Ho. rewrite Hk, list_elem_of_filter in Ho. destruct Ho as [Hex Ho]. by eapply kept_rows_fit. }
  clear Hk Hq Hwf Hni. apply diff_empty_iff. split.
  - intros [name f] Hf. assert (exists o v, VObject o ∈ kept /\ assoc name o = Some v) as (o & v & Ho & Hv)
      by (eapply page_keys, elem_of_fst; by exists f).
    destruct (Hfit o name v Ho Hv) as (d & Hd & _). apply classify_fits_iff. exists d. split; [done|].
    eapply rows_fit_page; [exact Hf|done| |].
    + intros o' v' Ho' Hv'. destruct (Hfit o' name v' Ho' Hv') as (d' & Hd' & Hok). congruence.
    + intros o' Ho' Hv'. destruct (decide (nullable d)) as [|Hn]; [done|].
      destruct (Hreq o' name d Ho' (assoc_in _ _ _ Hd) Hn) as [? ?]. congruence.
  - intros [name d] Hd Habs. apply type_set_nullable. destruct (decide (nullable d)) as [|Hn]; [done|exfalso].
    destruct (Hreq o0 name d Ho0 Hd Hn) as [v Hv]. cbn [fst] in Habs.
    assert (name ∈ (props_of (infer_page_schema dest kept)).*1) as [x Hx]%assoc_keys
      by (apply page_keys; by exists o0, v).
    congruence.
Qed.

(** A page where one row has a fraction in an integer column. *)
Definition drift_dest : Value :=
  VObject [("type", VString "object"); ("properties", VObject
    [("id", VObject [("type", VString "integer")]);
     ("note", VObject [("type", VArray [VString "string"; VString "null"])])])].
Definition drift_page : list Value :=
  [VObject [("id", VNumber (PosInt 1)); ("note", VString "a")];
   VObject [("id", VNumber (Float (SpecFloat.S754_finite false 3 (-1))))];
   VObject [("id", VNumber (PosInt 2)); ("extra", VBool true)];
   VObject [("id", VNumber (PosInt 3))]].

Lemma quarantine_clears_drift_witness :
  let q := quarantine_drift_rows (fun _ => EmptyString) id demo_specs 0
    (diff_schema drift_dest (infer_page_schema drift_dest drift_page) false) (seq 0 4) drift_page in
  length q.1 = 2%nat /\ length q.2 = 2%nat /\
  diff_is_empty (diff_schema drift_dest (infer_page_schema drift_dest q.1) false) = true.
Proof.
  intros q. split; [vm_compute; reflexivity|]. split; [vm_compute; reflexivity|].
  apply (quarantine_clears_drift (fun _ => EmptyString) id demo_specs 0 drift_dest false (seq 0 4) drift_page q.1 q.2).
  - repeat constructor; set_solver.
  - intros name d Hd. assert (also_accepts d = []) as Ha.
    { change (props_of drift_dest) with [("id", VObject [("type", VString "integer")]);
        ("note", VObject [("type", VArray [VString "string"; VString "null"])])] in Hd.
      apply elem_of_cons in Hd as [[= -> ->]|Hd]; [done|]. by apply list_elem_of_singleton in Hd as [= -> ->]. }
    unfold number_takes_integer. rewrite Ha. by intros ?%not_elem_of_nil.
  - apply surjective_pairing.
  - exists [("id", VNumber (PosInt 1)); ("note", VString "a")]. vm_compute. left.
  - intros o name d Ho Hd Hn.
    change (props_of drift_dest) with [("id", VObject [("type", VString "integer")]);
      ("note", VObject [("type", VArray [VString "string"; VString "null"])])] in Hd.
    apply elem_of_cons in Hd as [[= -> ->]|Hd].
    + assert (q.1 = [VObject [("id", VNumber (PosInt 1)); ("note", VString "a")]; VObject [("id", VNumber (PosInt 3))]])
        as Hq by (vm_compute; reflexivity).
      rewrite Hq in Ho. apply elem_of_cons in Ho as [[= ->]|Ho]; [by eexists|].
      apply list_elem_of_singleton in Ho as [= ->]. by eexists.
    + apply list_elem_of_singleton in Hd as [= -> ->]. exfalso. apply Hn. right. left.
Defined.

(** The required-column condition is not vacuous: a row that omits a required
    column is kept when another row of the page carries it. *)
Example omitting_row_is_kept :
  let page := [VObject [("id", VNumber (PosInt 1))]; VObject []] in
  let diff := diff_schema drift_dest (infer_page_schema drift_dest page) false in
  diff_is_empty diff = false /\
  quarantine_drift_rows (fun _ => EmptyString) id demo_specs 0 diff (seq 0 2) page = (page, []) /\
  (quarantine_drift_rows (fun _ => EmptyString) id demo_specs 0
     (diff_schema drift_dest (infer_page_schema drift_dest [VObject []]) false) [0%nat] [VObject []]).1 = [].
Proof. split_and!; vm_compute; reflexivity. Qed.
