(* ===== verification/StateVersion.v ===== *)
(** Versioned pipeline state: the resolving and writing half of
    crates/core/src/state_version.rs (the envelope itself is StateEnvelope.v). *)
From S2P Require Import Prelude Errors Json Text StateEnvelope Idempotency Engine.

Local Open Scope Z_scope.
Local Open Scope result_scope.

(** [struct ResolvedState]. *)
Record ResolvedState := MkResolved {
  rs_data : Value;
  migrated_from : option Z;
  rs_legacy : bool;
}.

(** [migrate_payload]: the bookmark alone is migrated, inside an exactly-once
    wrapper when there is one. *)
Definition migrate_payload (data : Value) (migrate : Value -> result Value FaucetError) :
    result Value FaucetError :=
  if is_eo_envelope data then
    let '(bookmark, seq) := unwrap_state data in
    match bookmark with
    | Some b => let? m := migrate b in Ok (wrap_state (Some m) seq)
    | None => Ok (wrap_state None seq)
    end
  else if is_null data then Ok data
  else migrate data.

Section Resolve.
(** [Display] of an error, for the refusal's text. *)
Context (display : FaucetError -> string).

(** [resolve_with]; [resolve_for_source] passes the source's name, shape version
    and migration. *)
Definition resolve_with (key : string) (stored : Value) (owner : string) (expected : Z)
    (migrate : Z -> Value -> result Value FaucetError) : result ResolvedState FaucetError :=
  let state := parse_stored stored in
  let legacy := is_legacy state in
  match check_compat state owner expected with
  | Current => Ok (MkResolved (ss_data state) None legacy)
  | Incompatible found expected => Err (incompatible key found expected)
  | Migrate from to =>
      let? data := migrate_payload (ss_data state) (fun bm =>
        match migrate from bm with
        | Ok v => Ok v
        | Err e => Err (incompatible key
            ("'" +:+ owner +:+ "' state schema " +:+ dec from)
            ("'" +:+ owner +:+ "' state schema " +:+ dec to +:+ " (migration failed: "
             +:+ display e +:+ ")"))
        end) in
      Ok (MkResolved data (Some from) legacy)
  end.

End Resolve.

Definition encode_for_write (owner : string) (schema : Z) (data : Value) (legacy : bool) : Value :=
  if legacy then data else wrap_versioned owner schema data.

Record StateCodec := MkCodec { sc_owner : string; sc_schema : Z; sc_legacy : bool }.

(** [StateCodec::encode]. *)
Definition encode (c : StateCodec) (value : Value) : Value :=
  encode_for_write (sc_owner c) (sc_schema c) value (sc_legacy c).

(** [struct VersionedStateStore] over an inner store: its [stored], and the
    [StateStore] methods the engine calls. *)
Record VersionedStateStore (E : Type) := MkVersioned {
  vs_inner : StoreOps E;
  vs_key : string;
  vs_codec : StateCodec;
}.
Arguments MkVersioned {E}.
Arguments vs_inner {E}.
Arguments vs_key {E}.
Arguments vs_codec {E}.

Definition vs_stored {E} (v : VersionedStateStore E) (key : string) (value : Value) : Value :=
  if string_eqb key (vs_key v) then encode (vs_codec v) value else value.

Definition versioned_store {E} (v : VersionedStateStore E) : StoreOps E :=
  MkStoreOps (store_get (vs_inner v))
    (fun key value => store_put (vs_inner v) key (vs_stored v key value))
    (store_delete (vs_inner v))
    (fun key expected new => compare_and_put (vs_inner v) key expected (vs_stored v key new)).

(** A codec writes what its own source reads back: envelopes always, bare values
    only where they cannot be taken for an envelope or an older shape. *)
Definition codec_faithful (c : StateCodec) (data : Value) : Prop :=
  is_u32 (sc_schema c) /\ (sc_legacy c = true -> parse_stored data = MkStoredState 0 None 0 data /\ sc_schema c = 0).

(** ** Facts *)

Lemma check_compat_current owner schema data f :
  f <= STATE_FORMAT -> check_compat (MkStoredState f (Some owner) schema data) owner schema = Current.
Proof.
  intros Hf. unfold check_compat; simpl. rewrite (proj2 (Z.ltb_ge _ _)) by lia.
  unfold string_eqb. rewrite bool_decide_true by done. simpl. by rewrite Z.ltb_irrefl.
Qed.

Lemma check_compat_older owner from to data :
  from < to -> check_compat (MkStoredState STATE_FORMAT (Some owner) from data) owner to = Migrate from to.
Proof.
  intros Hf. unfold check_compat; simpl. unfold string_eqb. rewrite bool_decide_true by done. simpl.
  rewrite (proj2 (Z.ltb_ge _ _)) by lia. by rewrite (proj2 (Z.ltb_lt _ _)) by lia.
Qed.

Lemma resolve_encode display key c data migrate :
  codec_faithful c data ->
  resolve_with display key (encode c data) (sc_owner c) (sc_schema c) migrate
  = Ok (MkResolved data None (sc_legacy c)).
Proof.
  intros [Hu Hl]. unfold encode, encode_for_write, resolve_with.
  destruct (sc_legacy c) eqn:Hc.
  - destruct (Hl eq_refl) as [-> ->]. done.
  - rewrite parse_wrap_versioned by done. by rewrite check_compat_current.
Qed.

(** What a state codec writes, the source it belongs to reads back: resolving
    an encoded value under the same owner and shape version returns the value
    unchanged and runs no migration. A codec that writes bare values (for a
    cluster with older members) has this for shape version 0 and for values
    that do not themselves look like an envelope. *)
Theorem resolve_encode_roundtrip display key c data migrate :
  codec_faithful c data ->
  resolve_with display key (encode c data) (sc_owner c) (sc_schema c) migrate
  = Ok (MkResolved data None (sc_legacy c)).
Proof. apply resolve_encode. Qed.

Lemma resolve_encode_roundtrip_witness :
  resolve_with (fun _ => EmptyString) "k"
    (encode (MkCodec "mongodb-cdc" 1 false) (VString "token")) "mongodb-cdc" 1 (fun _ _ => Err (Config ""))
  = Ok (MkResolved (VString "token") None false).
Proof.
  apply (resolve_encode_roundtrip (fun _ => EmptyString) "k" (MkCodec "mongodb-cdc" 1 false)).
  split; [vm_compute; split; congruence|done].
Defined.

(** A migration rewrites the bookmark and nothing else. State stored under an
    older shape version resolves to the migrated bookmark inside the same
    exactly-once wrapper with the same sequence number; if the migration fails
    the read is refused with [StateIncompatible]. *)
Theorem migration_keeps_sequence display key owner from to bm seq migrate :
  is_u32 from -> from < to -> bm <> Null ->
  resolve_with display key (wrap_versioned owner from (wrap_state (Some bm) seq)) owner to migrate
  = match migrate from bm with
    | Ok m => Ok (MkResolved (wrap_state (Some m) seq) (Some from) false)
    | Err e => Err (StateIncompatible key ("'" +:+ owner +:+ "' state schema " +:+ dec from)
                 ("'" +:+ owner +:+ "' state schema " +:+ dec to +:+ " (migration failed: "
                  +:+ display e +:+ ")"))
    end.
Proof.
  intros Hu Hlt Hbm. unfold resolve_with. rewrite parse_wrap_versioned by done.
  rewrite check_compat_older by done. unfold ss_data, migrate_payload.
  rewrite is_eo_wrap_state, unwrap_wrap_state by congruence. simpl.
  by destruct (migrate from bm).
Qed.

Lemma migration_keeps_sequence_witness :
  resolve_with (fun _ => EmptyString) "k"
    (wrap_versioned "o" 0 (wrap_state (Some (VString "a")) 7)) "o" 2 (fun _ _ => Ok (VString "b"))
  = Ok (MkResolved (wrap_state (Some (VString "b")) 7) (Some 0) false).
Proof.
  apply (migration_keeps_sequence (fun _ => EmptyString) "k" "o" 0 2 (VString "a") 7 (fun _ _ => Ok (VString "b")));
    [vm_compute; split; congruence|lia|congruence].
Defined.

(** State this release or connector cannot read is refused, never guessed: an
    envelope of a newer format, of another owner, or of a newer shape version
    makes [resolve_with] fail with [StateIncompatible] for the key, whatever
    migration the source offers. *)
Theorem foreign_state_refused display key stored owner expected migrate :
  STATE_FORMAT < ss_format (parse_stored stored) \/
  (exists o, ss_owner (parse_stored stored) = Some o /\ o <> owner) \/
  expected < ss_schema (parse_stored stored) ->
  exists found exp, resolve_with display key stored owner expected migrate
                    = Err (StateIncompatible key found exp).
Proof.
  intros H. unfold resolve_with.
  assert (exists f e, check_compat (parse_stored stored) owner expected = Incompatible f e)
    as (f & e & ->); [|by eauto].
  unfold check_compat. destruct H as [H|[(o & -> & H)|H]].
  - rewrite (proj2 (Z.ltb_lt _ _) H). eauto.
  - unfold string_eqb. rewrite (bool_decide_false _ H). simpl. case_match; eauto.
  - repeat case_match; try (by do 2 eexists); reflect_bools; lia.
Qed.

Lemma foreign_state_refused_witness :
  exists found exp, resolve_with (fun _ => EmptyString) "k" (wrap_versioned "mysql-cdc" 0 Null)
    "postgres-cdc" 0 (fun _ v => Ok v) = Err (StateIncompatible "k" found exp).
Proof. apply foreign_state_refused. right. left. exists "mysql-cdc". split; [reflexivity|congruence]. Defined.
