(* ===== verification/Resilience.v ===== *)
(** Retries and the circuit breaker (crates/core/src/resilience/{policy,execute,
    breaker}.rs and retry.rs). *)
From S2P Require Import Prelude Errors Float64 Dlq Engine.

Local Open Scope Z_scope.
Local Open Scope engine_scope.

(** ** resilience/breaker.rs *)

Record CircuitBreaker := MkBreaker { br_threshold : Z; br_consecutive : Z }.

Definition breaker_new (threshold : Z) : CircuitBreaker := MkBreaker (Z.max threshold 1) 0.
Definition record_success (b : CircuitBreaker) : CircuitBreaker := MkBreaker (br_threshold b) 0.
Definition record_failure (b : CircuitBreaker) : CircuitBreaker * bool :=
  let c := sadd32 (br_consecutive b) 1 in
  (MkBreaker (br_threshold b) c, br_threshold b <=? c).

(** A breaker fed a history: [true] is a success. *)
Fixpoint breaker_run (b : CircuitBreaker) (h : list bool) : CircuitBreaker :=
  match h with
  | [] => b
  | true :: h => breaker_run (record_success b) h
  | false :: h => breaker_run (record_failure b).1 h
  end.

(** Failures since the last success, newest event first. *)
Fixpoint leading_failures (h : list bool) : Z :=
  match h with
  | false :: h => 1 + leading_failures h
  | _ => 0
  end.

(** ** resilience/policy.rs *)

Inductive BackoffKind := BackoffNone | Fixed | Exponential.

Definition delay (k : BackoffKind) (base max attempt : Z) : Z :=
  match k with
  | BackoffNone => 0
  | Fixed => Z.min base max
  | Exponential => Z.min (dur_smul base (spow2_32 attempt)) max
  end.

Record RetryPolicy := MkRetryPolicy {
  max_attempts : Z;
  backoff : BackoffKind;
  rp_base : Z;
  rp_max : Z;
  jitter : bool;
  retry_on : RetryClassSet;
}.

(** [RetryPolicy::is_retriable]. *)
Definition policy_is_retriable (p : RetryPolicy) (e : FaucetError) : bool :=
  match classify e with Some c => contains (retry_on p) c | None => false end.

Record CircuitBreakerConfig := MkBreakerConfig { consecutive_failures : Z; cb_cooldown : Z }.

Inductive PoisonAction := PoisonDlq | PoisonDrop | PoisonFail.

Record PoisonPolicy := MkPoison { max_row_attempts : Z; poison_action : PoisonAction }.

Record ResiliencePolicy := MkResilience {
  rs_retry : RetryPolicy;
  circuit_breaker : option CircuitBreakerConfig;
  poison : option PoisonPolicy;
}.

(** ** retry.rs: jitter *)

Definition MAX_BACKOFF : Z := 60 * 1000000000.

(** The splitmix64 finaliser. *)
Definition decorrelate (nanos counter : Z) : Z :=
  let x := Z.lxor nanos (wmul64 counter 11400714819323198485) in
  let x := Z.lxor x (Z.shiftr x 30) in
  let x := wmul64 x 13787848793156543929 in
  let x := Z.lxor x (Z.shiftr x 27) in
  let x := wmul64 x 10723151780598845931 in
  let x := Z.lxor x (Z.shiftr x 31) in
  x mod 1000000000.

Definition jitter_factor (nanos : Z) : f64 :=
  f64_add f64_half (f64_div (f64_of_Z nanos) (f64_of_Z 1000000000)).

Section Retry.
Context {E : Type}.

(** The clock's sub-second part and a process-wide counter. *)
Definition pseudo_random_factor : M E f64 := fun s =>
  let nanos := if clock s <? 0 then 0 else clock s mod 1000000000 in
  (Val (jitter_factor (decorrelate nanos (jitter_counter s))),
   set_jitter s (wadd64 (jitter_counter s) 1)).

Definition apply_jitter (d : Z) : M E Z :=
  let* f := pseudo_random_factor in
  ret (f64_to_u64 (f64_mul (f64_of_Z (dur_nanos64 d)) f)).

Definition backoff_with_jitter (base attempt : Z) : M E Z :=
  let exp := Z.min (dur_smul base (spow2_32 attempt)) MAX_BACKOFF in
  let* f := pseudo_random_factor in
  ret (f64_to_u64 (f64_mul (f64_of_Z (dur_nanos64 exp)) f)).

(** ** resilience/execute.rs *)

(** [false] as soon as the token fires; the token wins a tie. *)
Definition cancellable_sleep (wait : Z) (cancel : option token) : M E bool := fun s =>
  match cancel with
  | Some (Some at_) =>
      if at_ <=? clock s + wait then (Val false, set_clock s (Z.max (clock s) at_))
      else (Val true, set_clock s (clock s + wait))
  | _ => (Val true, set_clock s (clock s + wait))
  end.

(** How long to wait before the next attempt. *)
Definition retry_wait (policy : RetryPolicy) (e : FaucetError) (attempt : Z) : M E Z :=
  match e with
  | RateLimited stated => ret stated
  | _ =>
      let base := delay (backoff policy) (rp_base policy) (rp_max policy) attempt in
      if jitter policy then apply_jitter base else ret base
  end.

Section Runner.
Context {A : Type}.
Context (policy : RetryPolicy) (cancel : option token) (rate_limit_retries : option nat).
(** The operation, told how many times it was called before. *)
Context (op : nat -> M E A).

(** One attempt with the retries its own rate-limit budget pays for; [rl_left] is
    [budget - rate_limited], which the loop's guard tests for zero. [settle_err]
    is the rest of the loop body for any other error. *)
Fixpoint limited (settle_err : FaucetError -> nat -> M E A) (rl_left calls : nat) : M E A :=
  let* outcome := attempt (op calls) in
  match rate_limit_retries, outcome with
  | Some _, Err (RateLimited wait) =>
      match rl_left with
      | O => lift outcome
      | S rl_left =>
          let* slept := cancellable_sleep wait cancel in
          if slept then limited settle_err rl_left (S calls) else lift outcome
      end
  | _, Ok v => ret v
  | _, Err e => settle_err e calls
  end.

(** The retry loop. [retries] is [max_attempts - 1 - attempt], which the loop's
    guard tests for zero. *)
Fixpoint attempts (retries : nat) (attempt_ : Z) (calls : nat) : M E A :=
  limited (fun e calls =>
    if policy_is_retriable policy e then
      match retries with
      | O => throw e
      | S retries =>
          let* wait := retry_wait policy e attempt_ in
          let* slept := if wait =? 0 then ret true else cancellable_sleep wait cancel in
          if slept then attempts retries (attempt_ + 1) (S calls) else throw e
      end
    else throw e) (default 0%nat rate_limit_retries) calls.

Definition run_with_policy : M E A :=
  attempts (Z.to_nat (Z.max (max_attempts policy) 1) - 1) 0 0.

End Runner.

(** [execute_with_policy] and its metered and recorded variants (metrics have no
    effect on the outcome). *)
Definition execute_with_policy {A} (policy : RetryPolicy) (cancel : option token) (op : M E A) :
    M E A := run_with_policy policy cancel None (fun _ => op).

(** retry.rs: the legacy entry point. *)
Definition execute_with_retry {A} (max_retries base_backoff : Z) (op : M E A) : M E A :=
  execute_with_policy
    (MkRetryPolicy (sadd32 max_retries 1) Exponential base_backoff MAX_BACKOFF true
       RetryClassSet_default) None op.

End Retry.

(** The reference: the first outcome that settles the call, among at most
    [n + 1]. *)
Fixpoint first_settled {A} (p : RetryPolicy) (outs : nat -> result A FaucetError) (n i : nat) :
    result A FaucetError :=
  match outs i, n with
  | Err e, S n => if policy_is_retriable p e then first_settled p outs n (S i) else Err e
  | r, _ => r
  end.

(** May the runner call again after this error? *)
Definition may_retry (policy : RetryPolicy) (budget : option nat) (e : FaucetError) : bool :=
  policy_is_retriable policy e ||
  match budget, e with Some _, RateLimited _ => true | _, _ => false end.

(** A concrete policy and state, for the witnesses. *)
Definition policy3 : RetryPolicy := MkRetryPolicy 3 BackoffNone 0 0 false RetryClassSet_default.
Definition st0 : st unit := MkSt tt 0 None 0 None BatchOutcomeCounters_new [].

(** ** Facts *)

Lemma delay_capped k base max attempt : 0 <= max -> delay k base max attempt <= max.
Proof. destruct k; simpl; lia. Qed.

Lemma delay_mono k base max a b :
  0 <= base -> 0 <= a <= b -> delay k base max a <= delay k base max b.
Proof.
  intros Hb Hab. destruct k; simpl; [lia|lia|].
  assert (spow2_32 a <= spow2_32 b).
  { unfold spow2_32, U32_MAX.
    assert (a < 32 -> 2 ^ a <= 2 ^ 31) by (intros; apply Z.pow_le_mono_r; lia).
    assert (2 ^ a <= 2 ^ b) by (apply Z.pow_le_mono_r; lia).
    repeat case_match; reflect_bools; lia. }
  unfold dur_smul. nia.
Qed.

Lemma breaker_run_app b h k : breaker_run b (h ++ k) = breaker_run (breaker_run b h) k.
Proof. revert b. induction h as [|[] h IH]; simpl; auto. Qed.

Lemma leading_failures_range h : 0 <= leading_failures h <= zlen h.
Proof.
  induction h as [|[] h IH]; cbn [leading_failures]; rewrite ?zlen_cons; [done|..];
    pose proof (zlen_nonneg h); lia.
Qed.

(** The counter is the run of failures that ends the history. *)
Lemma breaker_run_spec t h :
  zlen h <= U32_MAX ->
  breaker_run (breaker_new t) h = MkBreaker (Z.max t 1) (leading_failures (rev h)).
Proof.
  induction h as [|x h IH] using rev_ind; intros Hl; [done|].
  rewrite breaker_run_app, rev_app_distr, IH by zlen_lia.
  destruct x; simpl; [done|]. unfold record_failure; simpl. f_equal. unfold sadd32.
  pose proof (leading_failures_range (rev h)). zlen_lia.
Qed.

Section RetryFacts.
Context {E : Type}.
Implicit Types (s : st E).

(** Sleeping and drawing jitter return a value and touch only time and the
    jitter counter. *)
Lemma wp_sleep w c (I : st E -> Prop) s :
  stable I -> I s -> wp (cancellable_sleep w c) (fun o s => (exists b, o = Val b) /\ I s) s.
Proof.
  intros HI Hs. unfold wp, cancellable_sleep.
  repeat case_match; (split; [by eexists|]); (eapply HI; [..|exact Hs]); done.
Qed.

Lemma wp_retry_wait p e a (I : st E -> Prop) s :
  stable I -> I s -> wp (retry_wait p e a) (fun o s => (exists d, o = Val d) /\ I s) s.
Proof.
  intros HI Hs. unfold retry_wait. repeat case_match; try (apply wp_ret; by eauto).
  all: (split; [by eexists|]); (eapply HI; [..|exact Hs]); done.
Qed.

Section Rule.
Context {A : Type} (policy : RetryPolicy) (cancel : option token) (budget : option nat).
Context (op : nat -> M E A).

Context (I : nat -> st E -> Prop) (Q : outcome A -> st E -> Prop).
Context (HI : forall n, stable (I n)) (HQ : forall e, stable (Q (Fault e))).
Context (Hop : forall n s, I n s ->
  wp (op n) (fun o s => match o with
                        | Fault e => Q (Fault e) s /\ (may_retry policy budget e = true -> I (S n) s)
                        | o => Q o s
                        end) s).

Lemma stable_and (P R : st E -> Prop) : stable P -> stable R -> stable (fun s => P s /\ R s).
Proof. intros HP HR s s' ? ? ? ? [? ?]. split; [eapply HP|eapply HR]; eauto. Qed.

Lemma wp_limited settle_err rl calls s :
  (forall e n s, policy_is_retriable policy e = true -> I (S n) s -> Q (Fault e) s ->
     wp (settle_err e n) Q s) ->
  (forall e n s, policy_is_retriable policy e = false -> Q (Fault e) s -> wp (settle_err e n) Q s) ->
  I calls s -> wp (limited cancel budget op settle_err rl calls) Q s.
Proof.
  intros Hy Hn. revert calls s. induction rl as [|rl IH]; intros calls s Hs; simpl;
    apply wp_bind, wp_attempt; (eapply wp_mono; [exact (Hop _ _ Hs)|]);
    intros [v|e|] s' Ho; simpl; try done; try (destruct budget; by apply wp_ret);
    destruct Ho as [Hf Hi].
  all: assert (wp (settle_err e calls) Q s') as Hse
    by (unfold may_retry in Hi; destruct (policy_is_retriable policy e) eqn:?; auto).
  all: unfold may_retry in Hi.
  all: destruct budget, e; try done.
  apply wp_bind. eapply wp_mono;
    [apply wp_sleep; [exact (stable_and _ _ (HI (S calls)) (HQ (RateLimited wait)))|split; [apply Hi; by rewrite orb_true_r|done]]|].
  intros o s'' [[[] ->] [? ?]]; eauto.
Qed.

Lemma wp_attempts n k calls s : I calls s -> wp (attempts policy cancel budget op n k calls) Q s.
Proof.
  revert k calls s. induction n as [|n IH]; intros k calls s Hs; simpl;
    (apply wp_limited; [| |done]); intros e m s' Hr; rewrite Hr; try (by intros; apply wp_throw).
  intros Hi Hf. pose proof (stable_and _ _ (HI (S m)) (HQ e)) as Hst.
  apply wp_bind. eapply wp_mono; [exact (wp_retry_wait _ _ _ _ _ Hst (conj Hi Hf))|].
  intros o s1 [[d ->] Hs1]. apply wp_bind. destruct (d =? 0).
  { apply wp_ret. simpl. apply IH, Hs1. }
  eapply wp_mono; [exact (wp_sleep _ _ _ _ Hst Hs1)|].
  intros o s2 [[[] ->] [? ?]]; [by apply IH|by apply wp_throw].
Qed.

Lemma wp_run_with_policy s : I 0%nat s -> wp (run_with_policy policy cancel budget op) Q s.
Proof. apply wp_attempts. Qed.

End Rule.
End RetryFacts.

Section Bound.
Context {E A : Type} (policy : RetryPolicy) (cancel : option token) (budget : option nat).
Context (op op' : nat -> M E A).

Lemma limited_ext se se' rl calls s :
  (forall n s, (calls <= n <= calls + rl)%nat -> op n s = op' n s) ->
  (forall e n s, (calls <= n <= calls + rl)%nat -> se e n s = se' e n s) ->
  limited cancel budget op se rl calls s = limited cancel budget op' se' rl calls s.
Proof.
  revert calls s. induction rl as [|rl IH]; intros calls s Hop Hse; simpl;
    unfold bind, attempt; rewrite <- Hop by lia; destruct (op calls s) as [[v|e|] s1];
    destruct budget; try done; destruct e; try (apply Hse; lia); try done.
  destruct (cancellable_sleep wait cancel s1) as [[[]|?|] s2]; try done.
  apply IH; intros; [apply Hop|apply Hse]; lia.
Qed.

Lemma attempts_ext r k calls s :
  (forall n s, (calls <= n < calls + S r * S (default 0 budget))%nat -> op n s = op' n s) ->
  attempts policy cancel budget op r k calls s = attempts policy cancel budget op' r k calls s.
Proof.
  revert k calls s. induction r as [|r IH]; intros k calls s Hop; simpl;
    (apply limited_ext; [intros; apply Hop; lia|]); intros e n s1 Hn;
    destruct (policy_is_retriable policy e); try done.
  unfold bind. destruct (retry_wait policy e k s1) as [[d|?|] s2]; try done.
  destruct (d =? 0); simpl; [apply IH; intros; apply Hop; lia|].
  destruct (cancellable_sleep d cancel s2) as [[[]|?|] s3]; try done.
  apply IH; intros; apply Hop; lia.
Qed.

(** C34: a call under a retry policy reaches its operation at most
    [max(1, max_attempts)] times, times one more than the separate rate-limit
    budget where there is one: operations that agree on that many calls cannot
    be told apart by the runner, whatever they would do on a later call. *)
Theorem retry_attempts_bounded s :
  (forall n s, (n < Z.to_nat (Z.max 1 (max_attempts policy)) * S (default 0 budget))%nat ->
     op n s = op' n s) ->
  run_with_policy policy cancel budget op s = run_with_policy policy cancel budget op' s.
Proof.
  intros H. apply attempts_ext. intros n s' Hn. apply H.
  replace (Z.to_nat (Z.max 1 (max_attempts policy)))
    with (S (Z.to_nat (Z.max (max_attempts policy) 1) - 1)) by lia. lia.
Qed.

End Bound.

Lemma retry_attempts_bounded_witness :
  run_with_policy policy3 None (Some 1%nat) (fun n => if (n <? 6)%nat then throw (HttpStatus 503 "" "") else ret 7) st0
  = run_with_policy policy3 None (Some 1%nat) (fun n => if (n <? 6)%nat then throw (HttpStatus 503 "" "") else ret 8) st0.
Proof.
  apply retry_attempts_bounded. intros n s Hn. change (n < 6)%nat in Hn.
  by rewrite (proj2 (Nat.ltb_lt n 6) Hn).
Defined.

Lemma attempts_reference {E A} policy (outs : nat -> result A FaucetError) r k i (s : st E) :
  (attempts policy None None (fun n => lift (outs n)) r k i s).1 =
  match first_settled policy outs r i with Ok v => Val v | Err e => Fault e end.
Proof.
  revert k i s. induction r as [|r IH]; intros k i s; simpl; unfold bind, attempt;
    destruct (outs i) as [v|e]; simpl; try done; destruct (policy_is_retriable policy e); try done.
  unfold bind. destruct (wp_retry_wait policy e k (fun _ => True) s) as [[d Hd] _]; [done|done|].
  destruct (retry_wait policy e k s) as [o s1]. simpl in Hd. subst o.
  destruct (d =? 0); simpl; apply IH.
Qed.

(** Without cancellation and without a separate rate-limit budget, a call
    under a retry policy returns: its result is the first outcome of the
    operation that is a success or an error the policy does not retry, or the
    outcome of attempt [max(1, max_attempts)] if none of the earlier ones is.
    In particular an error outside the policy's classes is never retried. *)
Theorem retry_returns_first_settled {E A} policy (outs : nat -> result A FaucetError) (s : st E) :
  (run_with_policy policy None None (fun n => lift (outs n)) s).1 =
  match first_settled policy outs (Z.to_nat (Z.max (max_attempts policy) 1) - 1) 0 with
  | Ok v => Val v
  | Err e => Fault e
  end.
Proof. apply attempts_reference. Qed.

(** The breaker reports open on a failure exactly when that failure ends a
    run of at least [max(1, threshold)] consecutive failures, for every history
    of fewer than 2^32 events. *)
Theorem breaker_opens_iff t h :
  zlen h < U32_MAX ->
  (record_failure (breaker_run (breaker_new t) h)).2 = true <->
  Z.max t 1 <= leading_failures (rev (h ++ [false])).
Proof.
  intros Hl. rewrite breaker_run_spec by lia. rewrite rev_app_distr. simpl rev. cbn [leading_failures app].
  unfold record_failure, sadd32; simpl. pose proof (leading_failures_range (rev h)) as Hr.
  rewrite Z.leb_le. zlen_lia.
Qed.

Lemma breaker_opens_iff_witness :
  (record_failure (breaker_run (breaker_new 2) [false; true; false])).2 = true.
Proof. apply breaker_opens_iff; vm_compute; congruence. Defined.
