(* ===== verification/Hoare.v ===== *)
(** A Hoare logic over what is observed of a run.

    An observation is a function of the environment and the trace: the
    environment itself, or the state of a monitor that reads the trace event by
    event. [hoare obs good P m R F] says: started where the observation satisfies
    [P], the code [m] either returns [a] with the observation in [R a], or fails
    with [e] and the observation in [F e], or the process dies with the
    observation in [good]. *)
From S2P Require Import Prelude Errors Json Accounting Dlq Engine Resilience.

Local Open Scope Z_scope.

(** What can be observed: nothing but the environment and the trace. *)
Class Observable {E S : Type} (obs : st E -> S) : Prop :=
  observed : forall s s', env s = env s' -> trace s = trace s' -> obs s = obs s'.

Section Hoare.
Context {E S : Type} (obs : st E -> S) (good : S -> Prop).

Definition hoare {A} (P : S -> Prop) (m : M E A) (R : A -> S -> Prop) (F : FaucetError -> S -> Prop) :
    Prop :=
  forall s, P (obs s) ->
    wp m (fun o s' => match o with
                      | Val a => R a (obs s')
                      | Fault e => F e (obs s')
                      | Crashed => good (obs s')
                      end) s.

End Hoare.

(** Code that makes no call. *)
Definition quiet {E A} (m : M E A) : Prop :=
  forall s, env (m s).2 = env s /\ trace (m s).2 = trace s /\ (m s).1 <> Crashed.

(** Every call [m] makes has a record in [ok]. *)
Definition emits {E A} (ok : event -> Prop) (m : M E A) : Prop :=
  forall s, exists evs, trace (m s).2 = trace s ++ evs /\ Forall ok evs.

(** A monitor over the trace. *)
Section Monitor.
Context {E S : Type} (step : S -> event -> S) (init : S).
Definition mon_of (tr : list event) : S := fold_left step tr init.
Definition mon (s : st E) : S := mon_of (trace s).
End Monitor.

(** ** Facts *)

#[export] Instance mon_observation {E S} (step : S -> event -> S) init :
  Observable (mon (E := E) step init).
Proof. intros s s' _ H. unfold mon. by rewrite H. Qed.

#[export] Instance env_observation {E} : Observable (@env E).
Proof. by intros s s' ? _. Qed.

Section Rules.
Context {E S : Type} (obs : st E -> S) `{Hobs : !Observable obs} (good : S -> Prop).
Notation hoare := (hoare (E := E) obs good).

Lemma hoare_conseq {A} (P P' : S -> Prop) (m : M E A) (R R' : A -> S -> Prop) (F F' : FaucetError -> S -> Prop) :
  hoare P m R F -> (forall x, P' x -> P x) -> (forall a x, R a x -> R' a x) ->
  (forall e x, F e x -> F' e x) -> hoare P' m R' F'.
Proof.
  clear Hobs. intros H HP HR HF s Hs. eapply wp_mono; [apply H, HP, Hs|]. intros [] s'; auto.
Qed.

Lemma hoare_pre {A} (P P' : S -> Prop) (m : M E A) R F :
  hoare P m R F -> (forall x, P' x -> P x) -> hoare P' m R F.
Proof. clear Hobs. intros. by eapply hoare_conseq. Qed.

Lemma hoare_ret {A} (P : S -> Prop) (a : A) (R : A -> S -> Prop) F :
  (forall x, P x -> R a x) -> hoare P (ret a) R F.
Proof. clear Hobs. intros H s Hs. apply wp_ret. auto. Qed.

Lemma hoare_throw {A} (P : S -> Prop) e (R : A -> S -> Prop) (F : FaucetError -> S -> Prop) :
  (forall x, P x -> F e x) -> hoare P (throw e) R F.
Proof. clear Hobs. intros H s Hs. apply wp_throw. auto. Qed.

Lemma hoare_bind {A B} (P : S -> Prop) (m : M E A) (k : A -> M E B) Q R F :
  hoare P m Q F -> (forall a, hoare (Q a) (k a) R F) -> hoare P (bind m k) R F.
Proof.
  clear Hobs. intros Hm Hk s Hs. apply wp_bind. eapply wp_mono; [exact (Hm s Hs)|].
  intros [] s'; [apply Hk|auto..].
Qed.

Lemma hoare_bind_ret {A B} (P : S -> Prop) (a : A) (k : A -> M E B) R F :
  hoare P (k a) R F -> hoare P (bind (ret a) k) R F.
Proof. done. Qed.

Lemma hoare_lift {A} (P : S -> Prop) (r : result A FaucetError) (R : A -> S -> Prop) F :
  (forall x, P x -> match r with Ok a => R a x | Err e => F e x end) -> hoare P (lift r) R F.
Proof. clear Hobs. intros H s Hs. apply wp_lift. specialize (H _ Hs). by destruct r. Qed.

Lemma hoare_attempt {A} (P : S -> Prop) (m : M E A) (R : result A FaucetError -> S -> Prop) F :
  hoare P m (fun a => R (Ok a)) (fun e => R (Err e)) -> hoare P (attempt m) R F.
Proof. clear Hobs. intros H s Hs. apply wp_attempt. eapply wp_mono; [exact (H s Hs)|]. by intros []. Qed.

Lemma hoare_map_err {A} f (P : S -> Prop) (m : M E A) R (F : FaucetError -> S -> Prop) :
  hoare P m R (fun e => F (f e)) -> hoare P (map_err f m) R F.
Proof. clear Hobs. intros H s Hs. apply wp_map_err. eapply wp_mono; [exact (H s Hs)|]. by intros []. Qed.

(** A fact that holds whatever the observation can be taken out of it. *)
Lemma hoare_pure {A} (p : Prop) (P : S -> Prop) (m : M E A) R F :
  (p -> hoare P m R F) -> hoare (fun x => p /\ P x) m R F.
Proof. clear Hobs. intros H s [Hp Hs]. by apply H. Qed.

Lemma hoare_ex {A B} (P : B -> S -> Prop) (m : M E A) R F :
  (forall b, hoare (P b) m R F) -> hoare (fun x => exists b, P b x) m R F.
Proof. clear Hobs. intros H s [b Hs]. by apply (H b). Qed.

Lemma stable_obs (P : S -> Prop) : stable (fun s : st E => P (obs s)).
Proof. intros s s' He Ht _ _ H. by rewrite (Hobs s s' He Ht) in H. Qed.

Lemma hoare_quiet {A} (P : S -> Prop) (m : M E A) :
  quiet m -> hoare P m (fun _ => P) (fun _ => P).
Proof.
  intros Hq s Hs. unfold wp. destruct (Hq s) as (He & Ht & Hc).
  rewrite <- (Hobs _ _ He Ht) in Hs. by destruct (m s) as [[] ?].
Qed.

(** A retried operation: attempt [n] starts in [P n], and a failure leaves
    [P (S n)]. *)
Lemma hoare_retry_n {A} (P : nat -> S -> Prop) policy cancel budget (op : nat -> M E A) R F :
  (forall n, hoare (P n) (op n) R (fun e x => F e x /\ P (Datatypes.S n) x)) ->
  hoare (P 0%nat) (run_with_policy policy cancel budget op) R F.
Proof.
  intros H s Hs.
  apply (wp_run_with_policy policy cancel budget op (fun n s => P n (obs s))
    (fun o s' => match o with Val a => R a (obs s') | Fault e => F e (obs s') | Crashed => good (obs s') end)).
  - intros n. apply stable_obs.
  - intros e. apply (stable_obs (F e)).
  - intros n s1 Hs1. eapply wp_mono; [exact (H n s1 Hs1)|]. intros [] s2; tauto.
  - done.
Qed.

Lemma hoare_retry {A} (P : S -> Prop) policy cancel budget (op : nat -> M E A) R F :
  (forall n, hoare P (op n) R (fun e x => F e x /\ P x)) ->
  hoare P (run_with_policy policy cancel budget op) R F.
Proof. apply (hoare_retry_n (fun _ => P)). Qed.

Lemma hoare_sleep (P : S -> Prop) w c F : hoare P (cancellable_sleep w c) (fun _ => P) F.
Proof.
  intros s Hs. eapply wp_mono; [exact (wp_sleep w c _ s (stable_obs P) Hs)|].
  intros o s' [[b ->] H]. done.
Qed.

Lemma quiet_state_of : quiet (@state_of E).
Proof. done. Qed.

Lemma quiet_modify (f : st E -> st E) :
  (forall s, env (f s) = env s /\ trace (f s) = trace s) -> quiet (modify f).
Proof. intros H s. destruct (H s). done. Qed.

End Rules.

(** The rules that see a call, for a monitor of the trace. *)
Section MonitorRules.
Context {E S : Type} (step : S -> event -> S) (init : S) (good : S -> Prop).
Notation mon := (mon (E := E) step init).
Notation hoare := (hoare mon good).

Lemma mon_log (s s' : st E) e : trace s' = trace s ++ [e] -> mon s' = step (mon s) e.
Proof. intros H. unfold Hoare.mon, mon_of. by rewrite H, fold_left_app. Qed.

Lemma hoare_log (P : S -> Prop) e (R : unit -> S -> Prop) F :
  (forall x, P x -> R tt (step x e)) -> hoare P (modify (fun s => log_event s e)) R F.
Proof. intros H s Hs. apply wp_modify. rewrite (mon_log s (log_event s e) e eq_refl). auto. Qed.

Lemma hoare_call {A} (P : S -> Prop) (op : @backend E A) ev (R : A -> S -> Prop) F :
  (forall x, P x -> good x) ->
  (forall x r, P x -> good (step x (ev r)) /\
     match r with Ok a => R a (step x (ev r)) | Err e => F e (step x (ev r)) end) ->
  hoare P (call op ev) R F.
Proof.
  intros Hg H s Hs. apply wp_call; [auto|].
  intros r d e s' _ _ Ht _ _. rewrite (mon_log s s' _ Ht).
  destruct (H (mon s) r Hs). by destruct r.
Qed.

End MonitorRules.

(** The same for the environment. *)
Section EnvRules.
Context {E : Type} (good : E -> Prop).
Notation hoare := (hoare (E := E) env good).

Lemma hoare_env_log (P : E -> Prop) e F : hoare P (modify (fun s => log_event s e)) (fun _ => P) F.
Proof. by intros s Hs. Qed.

Lemma hoare_env_call {A} (P : E -> Prop) (op : @backend E A) ev (R : A -> E -> Prop) F :
  (forall x, P x -> good x) ->
  (forall x r d x', P x -> op x = ((r, d), x') ->
     good x' /\ match r with Ok a => R a x' | Err e => F e x' end) ->
  hoare P (call op ev) R F.
Proof.
  intros Hg H s Hs. apply wp_call; [auto|].
  intros r d e s' Hop <- _ _ _. destruct (H _ _ _ _ Hs Hop). by destruct r.
Qed.

End EnvRules.

(** What code may call: read off its structure. *)
Section Emits.
Context {E : Type} (ok : event -> Prop).
Notation emits := (emits (E := E) ok).

Lemma emits_none {A} (m : M E A) : (forall s, trace (m s).2 = trace s) -> emits m.
Proof. intros H s. exists []. rewrite app_nil_r. auto. Qed.

Lemma emits_ret {A} (a : A) : emits (ret a).
Proof. by apply emits_none. Qed.

Lemma emits_throw {A} e : emits (@throw E A e).
Proof. by apply emits_none. Qed.

Lemma emits_lift {A} (r : result A FaucetError) : emits (lift r).
Proof. by apply emits_none; intros s; destruct r. Qed.

Lemma emits_state_of : emits state_of.
Proof. by apply emits_none. Qed.

Lemma emits_is_cancelled t : emits (is_cancelled t).
Proof. by apply emits_none. Qed.

Lemma emits_log e : ok e -> emits (modify (fun s => log_event s e)).
Proof. intros H s. exists [e]. simpl. auto. Qed.

Lemma emits_bind {A B} (m : M E A) (k : A -> M E B) :
  emits m -> (forall a, emits (k a)) -> emits (bind m k).
Proof.
  intros Hm Hk s. unfold bind. destruct (Hm s) as (e1 & H1 & F1).
  destruct (m s) as [[a|e|] s1]; simpl in *; [|by exists e1..].
  destruct (Hk a s1) as (e2 & H2 & F2). exists (e1 ++ e2).
  rewrite H2, H1, app_assoc. split; [done|by apply Forall_app].
Qed.

Lemma emits_attempt {A} (m : M E A) : emits m -> emits (attempt m).
Proof. intros H s. unfold attempt. specialize (H s). by destruct (m s) as [[] ?]. Qed.

Lemma emits_map_err {A} f (m : M E A) : emits m -> emits (map_err f m).
Proof. intros H s. unfold map_err. specialize (H s). by destruct (m s) as [[] ?]. Qed.

Lemma emits_call {A} (op : @backend E A) ev : (forall r, ok (ev r)) -> emits (call op ev).
Proof.
  intros H s. unfold call. destruct (op (env s)) as [[r d] e].
  destruct (crash_in s) as [[|[|n]]|]; [exists []; by rewrite app_nil_r|..]; exists [ev r];
    by destruct r; simpl; auto.
Qed.

Lemma emits_retry {A} policy cancel budget (op : nat -> M E A) :
  (forall n, emits (op n)) -> emits (run_with_policy policy cancel budget op).
Proof.
  intros H s0. set (I := fun s : st E => exists evs, trace s = trace s0 ++ evs /\ Forall ok evs).
  assert (stable I) as HI by (intros s s' _ Ht _ _; unfold I; by rewrite Ht).
  assert (wp (run_with_policy policy cancel budget op) (fun _ => I) s0) as Hw; [|exact Hw].
  apply (wp_run_with_policy policy cancel budget op (fun _ => I) (fun _ => I)); [done|done| |].
  - intros n s (e1 & H1 & F1). destruct (H n s) as (e2 & H2 & F2). unfold wp.
    assert (I (op n s).2) as Hi.
    { exists (e1 ++ e2). rewrite H2, H1, app_assoc. split; [done|by apply Forall_app]. }
    by destruct (op n s) as [[] ?].
  - exists []. by rewrite app_nil_r.
Qed.

(** Code whose calls keep an invariant of a monitor keeps it. *)
Lemma emits_hoare {S A} (step : S -> event -> S) init good (I : S -> Prop) (m : M E A) :
  emits m -> (forall x e, I x -> ok e -> I (step x e)) -> (forall x, I x -> good x) ->
  hoare (mon step init) good I m (fun _ => I) (fun _ => I).
Proof.
  intros Hm Hstep Hgood s Hs. destruct (Hm s) as (evs & Ht & Hok).
  assert (I (mon step init (m s).2)) as Hi.
  { unfold mon, mon_of in *. rewrite Ht, fold_left_app. revert Hs Hok.
    generalize (fold_left step (trace s) init). clear Ht.
    induction evs as [|e evs IH]; intros x Hx Hok; [done|]. inversion Hok; subst. simpl. auto. }
  unfold wp. destruct (m s) as [[] ?]; simpl in *; auto.
Qed.

End Emits.

(** Reads [emits] off the structure of the code; what is left are the calls
    whose record needs an argument. *)
Create HintDb emits.
Ltac emits_auto :=
  repeat first
    [ progress intros
    | solve [auto 2 with emits nocore]
    | apply emits_ret | apply emits_throw | apply emits_lift | apply emits_state_of
    | apply emits_is_cancelled
    | apply emits_call; done
    | apply emits_log; done
    | apply emits_retry
    | apply emits_attempt | apply emits_map_err
    | apply emits_bind
    | progress (cbv beta iota zeta)
    | match goal with
      | |- emits _ (match ?x with _ => _ end) => destruct x eqn:?
      | |- emits _ (let '(_, _) := ?x in _) => destruct x eqn:?
      end ].
