(* ===== verification/RunStream.v ===== *)
(** The streaming run: [run_stream_with] of crates/core/src/pipeline.rs.

    A run takes pages from a source stream, governs each page, writes it to the
    main sink (with a dead-letter sink, under the exactly-once protocol, or
    plainly), flushes, and persists the page's bookmark. The source stream is a
    list of items with the time each takes to arrive, and the time the end of
    the stream takes. Metrics, spans and log lines have no effect on a run and
    are left out. *)
From S2P Require Import Prelude Errors Json Text Accounting StateKey Idempotency Dlq Drift Adaptive.
From S2P Require Import Quality Contract Engine Governance Resilience.

Local Open Scope Z_scope.
Local Open Scope engine_scope.

(** [struct DlqConfig]. *)
Record DlqConfig (E : Type) := MkDlqConfig {
  dc_sink : SinkOps E;
  dc_on_batch_error : OnBatchError;
  dc_max_failures_per_page : option Z;
  dc_max_failures_total : option Z;
}.
Arguments MkDlqConfig {E}.
Arguments dc_sink {E}.
Arguments dc_on_batch_error {E}.
Arguments dc_max_failures_per_page {E}.
Arguments dc_max_failures_total {E}.

(** [struct RunStreamOptions] with the flags of [StreamExtras]. A configured
    quality or contract pass comes with the answer of its [requires_dlq]. *)
Record RunStreamOptions (E : Type) := MkOptions {
  ro_state_store : option (StoreOps E);
  ro_state_key : option string;
  ro_pipeline_name : option string;
  ro_row : option string;
  ro_dlq : option (DlqConfig E);
  ro_masking : option (Value -> Value);
  ro_quality : option ((list Value -> result QualityOutcome FaucetError) * bool);
  ro_contract : option (string * (list Value -> result ContractOutcome FaucetError) * bool);
  ro_schema_drift : option SchemaDriftPolicy;
  ro_adaptive : option AdaptiveBatchConfig;
  ro_cancel : option token;
  ro_delivery : DeliveryMode;
  ro_start_seq : Z;
  ro_replay : option ReplayGuarantee;
  ro_resilience : option ResiliencePolicy;
  ro_source_drains : bool;
}.
Arguments MkOptions {E}.
Arguments ro_state_store {E}.
Arguments ro_state_key {E}.
Arguments ro_pipeline_name {E}.
Arguments ro_row {E}.
Arguments ro_dlq {E}.
Arguments ro_masking {E}.
Arguments ro_quality {E}.
Arguments ro_contract {E}.
Arguments ro_schema_drift {E}.
Arguments ro_adaptive {E}.
Arguments ro_cancel {E}.
Arguments ro_delivery {E}.
Arguments ro_start_seq {E}.
Arguments ro_replay {E}.
Arguments ro_resilience {E}.
Arguments ro_source_drains {E}.

(** [struct PipelineResult]. *)
Record PipelineResult := MkResult {
  pr_records_written : Z;
  pr_bookmark : option Value;
  pr_dlq : option DlqStats;
}.

(** The variables the page loop carries from page to page. *)
Record loop_state := MkLoop {
  records_written : Z;
  last_bookmark : option Value;
  dlq_stats : DlqStats;
  controller : option AimdController;
  breaker : option (CircuitBreaker * Z);
  next_seq : Z;
  gov_state : GovernanceState;
}.

(** What the chunks of a dead-letter page add up to. *)
Record dlq_page := MkDlqPage {
  dp_envelopes : list Value;
  dp_success : Z;
  dp_account : PageAccount;
  dp_controller : option AimdController;
}.

Definition EO_WITH_DLQ : string :=
  "delivery: exactly_once (atomic watermark) is not compatible with a DLQ in this version".
Definition EO_WITH_OVERWRITE : string :=
  "delivery: exactly_once (atomic watermark) is not compatible with write_mode: overwrite".

(** [dominant_governance_reason]. *)
Definition GOVERNANCE_REASONS : list DlqReason := [Dlq.Quality; Dlq.Contract; SchemaDriftReason].
Definition reason_count (envelopes : list Value) (r : DlqReason) : nat :=
  length (filter (fun e => get e "reason" ≫= as_str = Some (reason_str r)) envelopes).
Definition dominant_governance_reason (envelopes : list Value) : DlqReason :=
  fold_left (fun best r => if (reason_count envelopes best <? reason_count envelopes r)%nat then r else best)
    [Dlq.Contract; SchemaDriftReason] Dlq.Quality.

Section RunStream.
Context {E : Type}.
Context (display : FaucetError -> string) (redact : string -> string) (to_json : Value -> string).
Context (debug_char : string -> Z -> string).
Context (sink : SinkOps E) (options : RunStreamOptions E).

(** ** The run's settings *)

Definition pipeline_name : string := default "unnamed" (ro_pipeline_name options).
Definition row : string := default EmptyString (ro_row options).
Definition scope : string := default EmptyString (ro_state_key options).
Definition retry_policy : option RetryPolicy := rs_retry <$> ro_resilience options.
Definition poison_policy : option PoisonPolicy := ro_resilience options ≫= poison.
Definition cancel : option token := ro_cancel options.
Definition defer_bookmarks : bool := is_overwrite sink.
Definition adaptive_cfg : option AdaptiveBatchConfig :=
  ro_adaptive options ≫= fun c => if ab_enabled c then Some c else None.

Definition specs : GovernanceSpecs :=
  MkSpecs (ro_masking options) (fst <$> ro_quality options) (fst <$> ro_contract options)
    (ro_schema_drift options) pipeline_name row (connector_name sink)
    (match ro_dlq options with Some _ => true | None => false end).

(** Refusals before the loop: quarantine without a dead-letter sink, a bad state
    key. *)
Definition preflight : result unit FaucetError :=
  let no_dlq := match ro_dlq options with Some _ => false | None => true end in
  if match ro_quality options with Some (_, r) => r | None => false end && no_dlq then
    Err (Config "quality: on_failure 'quarantine'/'quarantine_batch' requires a DLQ sink")
  else if match ro_contract options with Some (_, r) => r | None => false end && no_dlq then
    Err (Config "contract: on_breach 'quarantine' requires a DLQ sink")
  else if match ro_schema_drift options with Some p => drift_requires_dlq p | None => false end && no_dlq
  then Err (Config "schema: on_drift 'quarantine' (or on_incompatible 'quarantine') requires a DLQ sink")
  else match ro_state_key options with
       | Some key => validate_state_key debug_char key
       | None => Ok tt
       end.

(** Which effectively-once mechanism the run uses, if one was asked for. *)
Definition select_mechanism : result (option EffectivelyOnceMechanism) FaucetError :=
  match ro_delivery options with
  | AtLeastOnce => Ok None
  | ExactlyOnce =>
      let replay_ok := match ro_replay options with
                       | None | Some Deterministic => true
                       | Some NonDeterministic => false
                       end in
      if supports_idempotent_writes sink && replay_ok then
        match ro_state_store options, ro_state_key options with
        | Some _, Some _ =>
            match ro_dlq options with
            | Some _ => Err (Config EO_WITH_DLQ)
            | None => if is_overwrite sink then Err (Config EO_WITH_OVERWRITE)
                      else Ok (Some AtomicWatermark)
            end
        | _, _ => Err (Config "delivery: exactly_once (atomic watermark) requires a state store")
        end
      else if dedups_by_key sink then Ok (Some KeyedUpsert)
      else if supports_idempotent_writes sink then
        Err (Config ("delivery: exactly_once — the source does not replay deterministically from a bookmark, so the atomic-watermark mechanism cannot be used; configure `write_mode: upsert` with a `key` on sink '"
          +:+ connector_name sink +:+ "' for keyed-upsert effectively-once instead"))
      else
        Err (Config ("delivery: exactly_once requires an idempotent (atomic-watermark) sink or a sink configured to dedup by key (`write_mode: upsert` + `key`), but '"
          +:+ connector_name sink +:+ "' provides neither"))
  end.

(** ** Small steps of the loop body *)

(** [with_retry!]. *)
Definition with_retry {A} (op : nat -> M E A) : M E A :=
  match retry_policy with
  | Some p => run_with_policy p cancel None op
  | None => op 0%nat
  end.

(** [with_retry_write!]: a plain write is retried only where a replay converges. *)
Definition with_retry_write {A} (op : M E A) : M E A :=
  match retry_policy with
  | Some _ => if write_batch_is_replay_safe sink then with_retry (fun _ => op) else op
  | None => op
  end.

Definition record_batch (o : BatchOutcome) : M E unit :=
  modify (fun s => set_outcomes s (record_outcome (outcomes s) o)).

(** [outcomes.observe(result)?]. *)
Definition observe_write {A} (m : M E A) : M E A :=
  let* r := attempt m in
  match r with
  | Ok v => record_batch Committed ;; ret v
  | Err e => record_batch Failed ;; throw e
  end.

(** [account.settle(..)?]. *)
Definition settle_page (a : PageAccount) : M E unit := fun s =>
  let '(c, r) := settle a (accounts s) in lift r (set_accounts s c).

Definition flush_main : M E unit := call (flush sink) (EFlush Main).

Definition put_state (v : Value) : M E unit :=
  match ro_state_store options, ro_state_key options with
  | Some store, Some key => with_retry (fun _ => call (store_put store key v) (EPut key v))
  | _, _ => ret tt
  end.

Definition elapsed_since (t0 : Z) : M E Z := fun s => (Val (clock s - t0), s).

(** [controller.get_or_insert_with(..)]. *)
Definition controller_for (cfg : AdaptiveBatchConfig) (page_len : nat) (c : option AimdController) :
    AimdController :=
  match c with Some a => a | None => aimd_new cfg (Z.of_nat page_len) end.

(** [ctrl.current().max(1).min(remaining)]. *)
Definition chunk_size (a : AimdController) (remaining : nat) : nat :=
  Z.to_nat (Z.min (Z.max (Adaptive.current a) 1) (Z.of_nat remaining)).

(** ** The dead-letter path *)

Section DlqPath.
Context (dlq_cfg : DlqConfig E).

(** The outcomes of one chunk, and whether they were made up from one outer
    error ([on_batch_error: dlq_all]). *)
Definition write_chunk (chunk : list Value) : M E (list RowOutcome * bool) :=
  let* r := attempt (with_retry_write (gateway_partial sink chunk)) in
  match r with
  | Ok o =>
      if (length o =? length chunk)%nat then ret (o, false)
      else
        record_batch Failed ;;
        throw (outcome_count_mismatch (connector_name sink) (zlen o) (zlen chunk))
  | Err e =>
      match e with
      | BudgetExceeded _ _ _ | PolicyViolation _ _ _ | RowsUnaccounted _ _ =>
          record_batch Failed ;; throw e
      | _ =>
          match dc_on_batch_error dlq_cfg with
          | Propagate => record_batch Failed ;; throw e
          | DlqAllRows => ret ((fun _ => Err (Sink (display e))) <$> chunk, true)
          end
      end
  end.

(** Positions whose row failed with an error the retry policy retries. *)
Definition failing_rows (o : list RowOutcome) : list nat :=
  omap (fun p : RowOutcome * nat =>
          match p.1, retry_policy with
          | Err e, Some pol => if policy_is_retriable pol e then Some p.2 else None
          | _, _ => None
          end) (indexed 0 o).

(** [chunk.select(&failing)]. *)
Definition select (chunk : list Value) (idx : list nat) : list Value := omap (fun i => chunk !! i) idx.

(** [chunk_outcomes[j] = o] for each retried row. *)
Fixpoint replace_outcomes (o : list RowOutcome) (failing : list nat) (retried : list RowOutcome) :
    list RowOutcome :=
  match failing, retried with
  | j :: failing, r :: retried => replace_outcomes (<[j := r]> o) failing retried
  | _, _ => o
  end.

(** The poison-pill loop: resubmit the rows that still fail, [left] more times. *)
Fixpoint poison_retry (left_ : nat) (chunk : list Value) (o : list RowOutcome) : M E (list RowOutcome) :=
  match left_ with
  | O => ret o
  | S left_ =>
      match failing_rows o with
      | [] => ret o
      | failing =>
          let subset := select chunk failing in
          let* r := attempt (gateway_partial sink subset) in
          match r with
          | Ok r =>
              if (length r =? length subset)%nat then
                poison_retry left_ chunk (replace_outcomes o failing r)
              else
                record_batch Failed ;;
                throw (outcome_count_mismatch (connector_name sink) (zlen r) (zlen subset))
          | Err e => record_batch Failed ;; throw e
          end
      end
  end.

Definition poisoned (chunk : list Value) (o : list RowOutcome) (synthesized : bool) :
    M E (list RowOutcome) :=
  match poison_policy, synthesized with
  | Some pp, false => poison_retry (Z.to_nat (max_row_attempts pp) - 1) chunk o
  | _, _ => ret o
  end.

Definition row_envelope (ts : Z) (rec : Value) (err : FaucetError) (synthesized : bool) (i : nat) : Value :=
  build_envelope display redact ts rec err (if synthesized then DlqAll else Partial)
    (connector_name sink) pipeline_name row (Z.of_nat i).

(** What a row that still fails becomes. *)
Definition terminal_action : PoisonAction :=
  match poison_policy with Some pp => poison_action pp | None => PoisonDlq end.

(** One pass over the chunk's outcomes: successes, envelopes, dropped rows. *)
Fixpoint sort_rows (ts : Z) (synthesized : bool) (at_ : nat) (chunk : list Value) (o : list RowOutcome) :
    result (Z * list Value * Z) FaucetError :=
  match chunk, o with
  | rec :: chunk, Ok _ :: o =>
      result_bind (sort_rows ts synthesized (S at_) chunk o) (fun '(s, envs, d) => Ok (s + 1, envs, d))
  | rec :: chunk, Err e :: o =>
      match terminal_action with
      | PoisonFail => Err (Sink ("poison-pill row failed permanently: " +:+ display e))
      | PoisonDrop =>
          result_bind (sort_rows ts synthesized (S at_) chunk o) (fun '(s, envs, d) => Ok (s, envs, d + 1))
      | PoisonDlq =>
          result_bind (sort_rows ts synthesized (S at_) chunk o) (fun '(s, envs, d) =>
            Ok (s, row_envelope ts rec e synthesized at_ :: envs, d))
      end
  | _, _ => Ok (0, [], 0)
  end.

(** One chunk, from the write to the controller's observation. *)
Definition dlq_chunk (offset : nat) (chunk : list Value) (p : dlq_page) : M E dlq_page :=
  let* s0 := state_of in
  let* (o, synthesized) := write_chunk chunk in
  let* latency := elapsed_since (clock s0) in
  let* o := poisoned chunk o synthesized in
  let* s1 := state_of in
  match sort_rows (now_ms (clock s1)) synthesized offset chunk o with
  | Err e => record_batch Failed ;; throw e
  | Ok (success, envs, dropped) =>
      let errors := zlen envs in
      record_batch (if synthesized then OutcomeDlqAll
                    else if (0 <? errors) || (0 <? dropped) then OutcomeDlqPartial else Committed) ;;
      ret (MkDlqPage (dp_envelopes p ++ envs) (wadd64 (dp_success p) success)
             (add_dropped (add_failed (dp_account p) errors) dropped)
             ((fun a => (observe a (MkObservation (zlen chunk) errors latency)).1)
                <$> dp_controller p))
  end.

(** The chunks of a page, each of the size the controller asks for. *)
Fixpoint dlq_chunks (fuel : nat) (governed : list Value) (offset : nat) (p : dlq_page) : M E dlq_page :=
  match fuel with
  | O => ret p
  | S fuel =>
      if (offset <? length governed)%nat then
        let remaining := (length governed - offset)%nat in
        let '(size, c) :=
          match adaptive_cfg with
          | Some cfg =>
              let a := controller_for cfg (length governed) (dp_controller p) in
              (chunk_size a remaining, Some a)
          | None => (remaining, dp_controller p)
          end in
        let chunk := slice offset size governed in
        let* p := dlq_chunk offset chunk
                    (MkDlqPage (dp_envelopes p) (dp_success p) (dp_account p) c) in
        dlq_chunks fuel governed (offset + size) p
      else ret p
  end.

(** The circuit breaker after a page: its new state and the error it raises. *)
Definition breaker_after (b : option (CircuitBreaker * Z)) (records_len success : Z) :
    option (CircuitBreaker * Z) * option FaucetError :=
  match b with
  | Some (b, cooldown) =>
      if (0 <? records_len) && (success =? 0) then
        let '(b', opened) := record_failure b in
        (Some (b', cooldown), if opened then Some (CircuitOpen (br_consecutive b') cooldown) else None)
      else if 0 <? success then (Some (record_success b, cooldown), None)
      else (Some (b, cooldown), None)
  | None => (None, None)
  end.

(** The two failure budgets. *)
Definition budget_error (page_failures new_total : Z) : option FaucetError :=
  match dc_max_failures_per_page dlq_cfg with
  | Some limit =>
      if limit <? page_failures then
        Some (Sink ("DLQ per-page budget exceeded: " +:+ dec page_failures +:+ " > " +:+ dec limit))
      else match dc_max_failures_total dlq_cfg with
           | Some limit =>
               if limit <? new_total then
                 Some (Sink ("DLQ total budget exceeded: " +:+ dec new_total +:+ " > " +:+ dec limit))
               else None
           | None => None
           end
  | None =>
      match dc_max_failures_total dlq_cfg with
      | Some limit =>
          if limit <? new_total then
            Some (Sink ("DLQ total budget exceeded: " +:+ dec new_total +:+ " > " +:+ dec limit))
          else None
      | None => None
      end
  end.

(** Writing the page's envelopes; errors here are fatal. *)
Definition write_envelopes (envelopes : list Value) (stats : DlqStats) : M E DlqStats :=
  match envelopes with
  | [] => ret stats
  | _ =>
      let write := gateway_dlq (dc_sink dlq_cfg) envelopes in
      map_err (dlq_write_error display "DLQ sink write failed")
        (match retry_policy with
         | Some _ => if write_batch_is_replay_safe (dc_sink dlq_cfg)
                     then with_retry (fun _ => write) else write
         | None => write
         end) ;;
      ret (MkDlqStats (records_dlq stats + zlen envelopes) (pages_with_failures stats + 1))
  end.

(** The checkpoint of a dead-letter page: main flush, dead-letter flush, state. *)
Definition dlq_checkpoint (bookmark : option Value) (l : loop_state) : M E loop_state :=
  match bookmark with
  | Some b =>
      (if defer_bookmarks then ret tt else with_retry (fun _ => flush_main)) ;;
      map_err (fun e => Sink ("DLQ sink flush failed: " +:+ display e))
        (with_retry (fun _ => call (flush (dc_sink dlq_cfg)) (EFlush Dead))) ;;
      (if defer_bookmarks then ret tt else put_state b) ;;
      ret (MkLoop (records_written l) (Some b) (dlq_stats l) (controller l) (breaker l) (next_seq l)
             (gov_state l))
  | None => ret l
  end.

(** The whole dead-letter branch of the loop body. *)
Definition dlq_path (governed envelopes : list Value) (account : PageAccount) (bookmark : option Value)
    (l : loop_state) : M E loop_state :=
  (match adaptive_cfg, governed with
   | Some _, _ :: _ => gateway_admit sink governed
   | _, _ => ret tt
   end) ;;
  let* p := dlq_chunks (length governed) governed 0 (MkDlqPage [] 0 account (controller l)) in
  let all_envelopes := envelopes ++ dp_envelopes p in
  let page_failures := zlen all_envelopes in
  let '(b, circuit_error) := breaker_after (breaker l) (zlen governed) (dp_success p) in
  let new_total := records_dlq (dlq_stats l) + page_failures in
  let budget := budget_error page_failures new_total in
  let* stats := write_envelopes all_envelopes (dlq_stats l) in
  settle_page (add_accepted (dp_account p) (dp_success p)) ;;
  let* l := dlq_checkpoint bookmark
              (MkLoop (wadd64 (records_written l) (dp_success p)) (last_bookmark l) stats
                 (dp_controller p) b (next_seq l) (gov_state l)) in
  match budget, circuit_error with
  | Some e, _ => throw e
  | None, Some e => throw e
  | None, None => ret l
  end.

End DlqPath.

(** ** The exactly-once path *)

(** [eo_write_once]: every attempt after the first asks the sink whether the page
    already committed. *)
Definition eo_write_once (page : list Value) (token : string) (seq : Z) (attempt_ : nat) :
    M E WriteReport :=
  let* committed :=
    match attempt_ with
    | O => ret None
    | S _ => call (last_committed_token sink scope) (EToken scope)
    end in
  match committed ≫= parse_token with
  | Some c =>
      if seq <=? c then ret (report_accepted (zlen page))
      else gateway_idempotent sink page scope token
  | None => gateway_idempotent sink page scope token
  end.

(** The watermark branch for a page that carries a bookmark. *)
Definition eo_bookmarked (committed_seq : Z) (governed : list Value) (account : PageAccount)
    (bookmark : Value) (l : loop_state) : M E loop_state :=
  let seq := wadd64 (next_seq l) 1 in
  let token := format_token_with_bookmark to_json seq (Some bookmark) in
  let* (written, account) :=
    if seq <=? committed_seq then
      ret (records_written l, add_accepted account (zlen governed))
    else
      let* report := observe_write (with_retry (eo_write_once governed token seq)) in
      ret (wadd64 (records_written l) (wr_accepted report), add_report account report) in
  settle_page account ;;
  with_retry (fun _ => flush_main) ;;
  put_state (wrap_state (Some bookmark) seq) ;;
  ret (MkLoop written (Some bookmark) (dlq_stats l) (controller l) (breaker l) seq (gov_state l)).

(** The whole exactly-once branch of the loop body. *)
Definition eo_path (committed_seq : Z) (governed : list Value) (account : PageAccount)
    (bookmark : option Value) (l : loop_state) : M E loop_state :=
  match bookmark with
  | Some b => eo_bookmarked committed_seq governed account b l
  | None =>
      match governed with
      | [] => ret l
      | _ =>
          let* report := observe_write (with_retry_write (gateway_reported sink governed)) in
          settle_page (add_report account report) ;;
          ret (MkLoop (wadd64 (records_written l) (wr_accepted report)) (last_bookmark l) (dlq_stats l)
                 (controller l) (breaker l) (next_seq l) (gov_state l))
      end
  end.

(** ** The plain path *)

(** The adaptive chunks of a plain page. *)
Fixpoint plain_chunks (fuel : nat) (governed : list Value) (offset : nat) (a : AimdController)
    (account : PageAccount) (written : Z) : M E (AimdController * PageAccount * Z) :=
  match fuel with
  | O => ret (a, account, written)
  | S fuel =>
      if (offset <? length governed)%nat then
        let size := chunk_size a (length governed - offset) in
        let chunk := slice offset size governed in
        let* s0 := state_of in
        let* report := observe_write (with_retry_write (gateway_reported sink chunk)) in
        let* latency := elapsed_since (clock s0) in
        plain_chunks fuel governed (offset + size)
          (observe a (MkObservation (zlen chunk) 0 latency)).1
          (add_report account report) (wadd64 written (wr_accepted report))
      else ret (a, account, written)
  end.

(** The write of a plain page: controller, account and rows written. *)
Definition plain_write (governed : list Value) (account : PageAccount) (l : loop_state) :
    M E (option AimdController * PageAccount * Z) :=
  match governed with
  | [] => ret (controller l, account, records_written l)
  | _ =>
      match adaptive_cfg with
      | Some cfg =>
          gateway_admit sink governed ;;
          let a := controller_for cfg (length governed) (controller l) in
          let* (a, account, written) :=
            plain_chunks (length governed) governed 0 a account (records_written l) in
          ret (Some a, account, written)
      | None =>
          let* report := observe_write (with_retry_write (gateway_reported sink governed)) in
          ret (controller l, add_report account report,
               wadd64 (records_written l) (wr_accepted report))
      end
  end.

(** The whole plain branch of the loop body. *)
Definition plain_path (governed : list Value) (account : PageAccount) (bookmark : option Value)
    (l : loop_state) : M E loop_state :=
  let* (c, account, written) := plain_write governed account l in
  settle_page account ;;
  match bookmark with
  | Some b =>
      (if defer_bookmarks then ret tt else with_retry (fun _ => flush_main)) ;;
      (if defer_bookmarks then ret tt else put_state b) ;;
      ret (MkLoop written (Some b) (dlq_stats l) c (breaker l) (next_seq l) (gov_state l))
  | None =>
      ret (MkLoop written (last_bookmark l) (dlq_stats l) c (breaker l) (next_seq l) (gov_state l))
  end.

(** ** The loop *)

(** One page: governance, a deferred drift abort, then one of the three paths.
    The page and what governance made of it are noted in the trace. *)
Definition process_page (exactly_once : bool) (committed_seq : Z) (page : StreamPage) (l : loop_state) :
    M E loop_state :=
  modify (fun s => log_event s (EPage page)) ;;
  let account := PageAccount_new (zlen (sp_records page)) in
  let* (gov, cache) := apply_governance display redact sink
                         (sp_records page) specs (gov_state l) in
  modify (fun s => log_event s (EGoverned (go_records gov) (go_envelopes gov))) ;;
  let l := MkLoop (records_written l) (last_bookmark l) (dlq_stats l) (controller l) (breaker l)
             (next_seq l) cache in
  let account := set_quarantined account (zlen (go_envelopes gov)) in
  match go_deferred_abort gov with
  | Some e =>
      (match ro_dlq options with
       | Some dlq_cfg =>
           abort_with_envelopes display (dc_sink dlq_cfg) (go_envelopes gov) (dlq_stats l) ;; ret tt
       | None => ret tt
       end) ;;
      throw e
  | None =>
      match ro_dlq options with
      | Some dlq_cfg => dlq_path dlq_cfg (go_records gov) (go_envelopes gov) account (sp_bookmark page) l
      | None =>
          if exactly_once then eo_path committed_seq (go_records gov) account (sp_bookmark page) l
          else plain_path (go_records gov) account (sp_bookmark page) l
      end
  end.

(** Waiting for the next item of the source, raced against the token unless the
    source drains by itself. [false]: the token fired first. *)
Definition await_item (delay : Z) : M E bool :=
  if ro_source_drains options then
    (fun s => (Val true, set_clock s (clock s + delay)))
  else cancellable_sleep delay cancel.

(** The page loop: the state it leaves and whether it was cancelled. *)
Fixpoint page_loop (exactly_once : bool) (committed_seq : Z)
    (pages : list (Z * result StreamPage FaucetError)) (eos_delay : Z) (l : loop_state) :
    M E (loop_state * bool) :=
  match pages with
  | [] =>
      let* arrived := await_item eos_delay in
      if arrived then
        let* fired := is_cancelled cancel in
        ret (l, ro_source_drains options && fired)
      else ret (l, true)
  | (delay, item) :: pages =>
      let* arrived := await_item delay in
      if arrived then
        match item with
        | Err e => throw e
        | Ok page =>
            match sp_records page, sp_bookmark page with
            | [], None => page_loop exactly_once committed_seq pages eos_delay l
            | _, _ =>
                let* l := process_page exactly_once committed_seq page l in
                page_loop exactly_once committed_seq pages eos_delay l
            end
        end
      else ret (l, true)
  end.

(** ** Ending the run *)

(** The error unwind: flush the dead-letter sink, then the main sink (not under
    overwrite), ignore what they answer, raise the original error. *)
Definition unwind (e : FaucetError) : M E PipelineResult :=
  (match ro_dlq options with
   | Some dlq_cfg => let* _ := attempt (call (flush (dc_sink dlq_cfg)) (EFlush Dead)) in ret tt
   | None => ret tt
   end) ;;
  (if defer_bookmarks then ret tt else let* _ := attempt flush_main in ret tt) ;;
  throw e.

(** The normal end: flush the dead-letter sink, then the main sink unless a
    cancelled overwrite must leave the destination alone. *)
Definition finish (l : loop_state) (cancelled : bool) : M E PipelineResult :=
  (match ro_dlq options with
   | Some dlq_cfg => flush_dlq display (dc_sink dlq_cfg)
   | None => ret tt
   end) ;;
  (if cancelled && is_overwrite sink then ret tt else flush_main) ;;
  ret (MkResult (records_written l) (last_bookmark l)
         (match ro_dlq options with Some _ => Some (dlq_stats l) | None => None end)).

Definition initial_loop : loop_state :=
  MkLoop 0 None DlqStats_default None
    (match ro_resilience options ≫= circuit_breaker with
     | Some cb => Some (breaker_new (consecutive_failures cb), cb_cooldown cb)
     | None => None
     end) (ro_start_seq options) None.

(** The run after its gates: the committed sequence, the loop, the end. *)
Definition run_loop (exactly_once : bool) (pages : list (Z * result StreamPage FaucetError))
    (eos_delay : Z) : M E PipelineResult :=
  let* committed_seq :=
    if exactly_once then
      let* t := call (last_committed_token sink scope) (EToken scope) in
      ret (default 0 (t ≫= parse_token))
    else ret 0 in
  (match adaptive_cfg with Some cfg => lift (validate cfg) | None => ret tt end) ;;
  let* r := attempt (page_loop exactly_once committed_seq pages eos_delay initial_loop) in
  match r with
  | Err e => unwind e
  | Ok (l, cancelled) => finish l cancelled
  end.

(** [run_stream_with]. *)
Definition run_stream_with (pages : list (Z * result StreamPage FaucetError)) (eos_delay : Z) :
    M E PipelineResult :=
  lift preflight ;;
  let* mechanism := lift select_mechanism in
  run_loop (match mechanism with Some AtomicWatermark => true | _ => false end) pages eos_delay.

End RunStream.
