(* ===== verification/RunRules.v ===== *)
(** The Hoare rules of the page loop's small steps, for any monitor of the
    trace: retries, recorded outcomes, settlement, governance, waiting. *)
From S2P Require Import Prelude Errors Json Text Accounting StateKey Idempotency Dlq Drift Adaptive.
From S2P Require Import Quality Contract Engine Governance Resilience Hoare RunStream.

Local Open Scope Z_scope.

(** Questions about the schema and about admission, which write nothing. *)
Definition asks (e : event) : bool :=
  match e with ESchema _ | EEvolve _ _ | EAdmit _ _ => true | _ => false end.

(** A monitor that lets them pass. *)
Class Ignores {S : Type} (step : S -> event -> S) : Prop :=
  ignored : forall x e, asks e = true -> step x e = x.

Section RunRules.
Context {E S : Type} (step : S -> event -> S) `{Hign : !Ignores step} (init : S) (good : S -> Prop).
Context (display : FaucetError -> string) (redact : string -> string) (to_json : Value -> string).
Context (sink : SinkOps E) (options : RunStreamOptions E).

Notation hoare := (hoare (E := E) (mon step init) good).
Notation fail := (fun (_ : FaucetError) => good).

(** [with_retry] and [with_retry_write] around an operation that keeps its
    precondition when it fails. *)
Lemma hoare_with_retry {A} (P : S -> Prop) (op : nat -> M E A) R F :
  (forall n, hoare P (op n) R (fun e x => F e x /\ P x)) -> hoare P (with_retry options op) R F.
Proof.
  intros H. unfold with_retry. case_match; [by apply hoare_retry; [apply _|]|].
  eapply hoare_conseq; [apply H|done..|naive_solver].
Qed.

Lemma hoare_with_retry_write {A} (P : S -> Prop) (op : M E A) R F :
  hoare P op R (fun e x => F e x /\ P x) -> hoare P (with_retry_write sink options op) R F.
Proof.
  intros H. unfold with_retry_write. repeat case_match; [by apply hoare_with_retry|..];
    (eapply hoare_conseq; [apply H|done..|naive_solver]).
Qed.

Lemma hoare_record_batch (P : S -> Prop) o F : hoare P (record_batch o) (fun _ => P) F.
Proof. intros s Hs. unfold record_batch. apply wp_modify. done. Qed.

Lemma hoare_observe_write {A} (P : S -> Prop) (m : M E A) R F :
  hoare P m R F -> hoare P (observe_write m) R F.
Proof.
  intros H. unfold observe_write.
  eapply hoare_bind with (Q := fun r => match r with Ok a => R a | Err e => F e end);
    [apply hoare_attempt; exact H|].
  intros [v|e]; (eapply hoare_bind; [apply hoare_record_batch|]); intros ?;
    [by apply hoare_ret|by apply hoare_throw].
Qed.

Lemma quiet_settle a : quiet (@settle_page E a).
Proof.
  intros s. unfold settle_page. destruct (settle a (accounts s)) as [c [[]|e]]; done.
Qed.

Lemma hoare_still {A} (P : S -> Prop) (m : M E A) :
  quiet m -> (forall x, P x -> good x) -> hoare P m (fun _ => P) fail.
Proof. intros Hq H. eapply hoare_conseq; [exact (hoare_quiet _ _ P m Hq)|done|done|auto]. Qed.

Lemma hoare_settle (P : S -> Prop) a :
  (forall x, P x -> good x) -> hoare P (settle_page a) (fun _ => P) fail.
Proof. apply hoare_still, quiet_settle. Qed.

Lemma hoare_await P d : hoare P (await_item options d) (fun _ => P) fail.
Proof. unfold await_item. destruct (ro_source_drains options); [intros s Hs; exact Hs|apply hoare_sleep, _]. Qed.

(** A call whose record the monitor ignores. *)
Lemma hoare_unseen {A} (P : S -> Prop) (op : @backend E A) ev :
  (forall x, P x -> good x) -> (forall x r, step x (ev r) = x) ->
  hoare P (call op ev) (fun _ => P) fail.
Proof. intros Hg He. apply hoare_call; [done|]. intros x r Hx. rewrite He. destruct r; auto. Qed.

Lemma hoare_asks {A} (P : S -> Prop) (op : @backend E A) ev :
  (forall x, P x -> good x) -> (forall r, asks (ev r) = true) ->
  hoare P (call op ev) (fun _ => P) fail.
Proof using Hign. intros Hg He. apply hoare_unseen; [done|]. intros. by apply ignored. Qed.

Lemma hoare_admit (P : S -> Prop) page :
  (forall x, P x -> good x) -> hoare P (gateway_admit sink page) (fun _ => P) fail.
Proof using Hign. intros H. by apply hoare_asks. Qed.

Lemma hoare_drift_policy (P : S -> Prop) sp policy diff dest ts records idx cache :
  (forall x, P x -> good x) ->
  hoare P (apply_drift_policy display redact sink sp policy diff dest ts records idx cache)
    (fun _ => P) fail.
Proof using Hign.
  intros Hg. unfold apply_drift_policy.
  destruct (on_drift policy); try (by apply hoare_ret).
  - eapply hoare_bind with (Q := fun _ => P).
    + destruct (evolution_is_empty _); [by apply hoare_ret|].
      eapply hoare_bind; [by apply hoare_asks|]. intros ?.
      eapply hoare_bind; [by apply hoare_asks|]. intros ?. by apply hoare_ret.
    + intros c. destruct (incompatible_changes diff); [by apply hoare_ret|].
      destruct (on_incompatible policy); [by apply hoare_ret|].
      destruct (quarantine_drift_rows _ _ _ _ _ _ _). by apply hoare_ret.
  - destruct (quarantine_drift_rows _ _ _ _ _ _ _). by apply hoare_ret.
Qed.

(** Governance only asks the sink about its schema. *)
Lemma hoare_governance (P : S -> Prop) records cache :
  (forall x, P x -> good x) ->
  hoare P (apply_governance display redact sink records
             (specs sink options) cache) (fun _ => P) fail.
Proof using Hign.
  intros Hg. unfold apply_governance.
  eapply hoare_bind; [apply hoare_still; [apply quiet_state_of|done]|]. intros s.
  eapply hoare_bind with (Q := fun _ => P).
  { apply hoare_lift. intros x Hx. case_match; auto. }
  intros [[r e] idx]. eapply hoare_bind with (Q := fun _ => P).
  { apply hoare_lift. intros x Hx. case_match; auto. }
  intros [[r' e'] idx']. eapply hoare_bind with (Q := fun _ => P).
  - unfold drift_stage. destruct (gs_schema_drift _) as [policy|]; [|by apply hoare_ret].
    destruct r' as [|v vs]; [by apply hoare_ret|].
    eapply hoare_bind with (Q := fun _ => P).
    { destruct cache as [[]|]; [by apply hoare_ret|..];
        (eapply hoare_bind; [by apply hoare_asks|intros ?; by apply hoare_ret]). }
    intros [[dest|]|]; [|by apply hoare_ret..].
    destruct (diff_is_empty _); [by apply hoare_ret|by apply hoare_drift_policy].
  - intros [[[r2 e2] ab] c]. destruct (gs_has_dlq _), ab; (by apply hoare_ret) || (apply hoare_throw; auto).
Qed.

(** The page loop keeps what the processing of a page keeps. *)
Lemma hoare_page_loop (I : S -> Prop) eo committed pages eos l :
  (forall x, I x -> good x) ->
  (forall page l, hoare I (process_page display redact to_json sink options eo committed page l) (fun _ => I) fail) ->
  hoare I (page_loop display redact to_json sink options eo committed pages eos l) (fun _ => I) fail.
Proof.
  intros Hg Hp. revert l. induction pages as [|[d item] pages IH]; intros l; simpl;
    (eapply hoare_bind; [apply hoare_await|]); intros [];
    try (by apply hoare_ret).
  - eapply hoare_bind; [by apply hoare_still|]. intros fired. by apply hoare_ret.
  - destruct item as [page|e]; [|by apply hoare_throw].
    assert (hoare I (bind (process_page display redact to_json sink options eo committed page l)
      (fun l => page_loop display redact to_json sink options eo committed pages eos l)) (fun _ => I) fail)
      by (eapply hoare_bind; [apply Hp|done]).
    destruct (sp_records page), (sp_bookmark page); done.
Qed.

End RunRules.
