(* ===== verification/Checkpoint.v ===== *)
(** Checkpoint safety of a run: a bookmark is offered to the state store only
    when everything written is durable. Which rows it covers is Coverage.v's.

    [checkpoints_ok] reads a trace and checks every state write in it: no write
    to the main or to the dead-letter sink is still unflushed, the value is the
    bookmark of the page being processed, and every governed row (or, with a
    dead-letter sink, every governance envelope) so far was acknowledged. *)
From S2P Require Import Prelude Errors Json Text Accounting StateKey Idempotency Dlq Drift Adaptive.
From S2P Require Import Quality Contract Engine Memory Governance Resilience Hoare RunStream RunRules.

Local Open Scope Z_scope.

Inductive run_mode := PlainMode | WatermarkMode | DlqMode.

Record monitor := MkMon {
  mn_main_dirty : bool;
  mn_dead_dirty : bool;
  mn_page : option StreamPage;
  mn_owed : list Value;
  mn_unsent : list Value;
  mn_owed_dead : list Value;
  mn_ok : bool;
}.
Definition mon0 : monitor := MkMon false false None [] [] [] true.

(** The rest of a list after a prefix. *)
Fixpoint strip (p l : list Value) : option (list Value) :=
  match p, l with
  | [], l => Some l
  | x :: p, y :: l => if decide (x = y) then strip p l else None
  | _ :: _, [] => None
  end.

(** The value a page's bookmark is stored as. *)
Definition stored_as (mode : run_mode) (b v : Value) : bool :=
  match mode with
  | WatermarkMode => bool_decide (v = wrap_state (Some b) (default 0 (get v EO_SEQ ≫= as_u64)))
  | _ => bool_decide (v = b)
  end.

(** May this value be stored now? *)
Definition put_ok (mode : run_mode) (m : monitor) (v : Value) : bool :=
  negb (mn_main_dirty m) && negb (mn_dead_dirty m)
  && match mn_page m with
     | Some p => match sp_bookmark p with Some b => stored_as mode b v | None => false end
     | None => false
     end
  && match mode with
     | PlainMode => bool_decide (mn_owed m = [])
     | DlqMode => bool_decide (mn_owed_dead m = [])
     | WatermarkMode => true
     end.

(** A submission of [rows] to the main sink; under [single] it must be the next
    rows never submitted before. *)
Definition submit (single : bool) (m : monitor) (rows : list Value) : monitor :=
  match single, strip rows (mn_unsent m) with
  | true, Some rest =>
      MkMon true (mn_dead_dirty m) (mn_page m) (mn_owed m) rest (mn_owed_dead m) (mn_ok m)
  | true, None =>
      MkMon true (mn_dead_dirty m) (mn_page m) (mn_owed m) (mn_unsent m) (mn_owed_dead m) false
  | false, _ =>
      MkMon true (mn_dead_dirty m) (mn_page m) (mn_owed m) (mn_unsent m) (mn_owed_dead m) (mn_ok m)
  end.

(** The acknowledgement of [rows] on the plain path: the next rows owed. *)
Definition acknowledge (mode : run_mode) (m : monitor) (rows : list Value) : monitor :=
  match mode, strip rows (mn_owed m) with
  | PlainMode, Some rest =>
      MkMon (mn_main_dirty m) (mn_dead_dirty m) (mn_page m) rest (mn_unsent m) (mn_owed_dead m) (mn_ok m)
  | PlainMode, None =>
      MkMon (mn_main_dirty m) (mn_dead_dirty m) (mn_page m) (mn_owed m) (mn_unsent m) (mn_owed_dead m) false
  | _, _ => m
  end.

Definition mstep (mode : run_mode) (single : bool) (m : monitor) (e : event) : monitor :=
  match e with
  | EPage p =>
      MkMon (mn_main_dirty m) (mn_dead_dirty m) (Some p) (mn_owed m) (mn_unsent m) (mn_owed_dead m)
        (mn_ok m)
  | EGoverned r envs =>
      MkMon (mn_main_dirty m) (mn_dead_dirty m) (mn_page m) (mn_owed m ++ r) (mn_unsent m ++ r)
        (mn_owed_dead m ++ envs) (mn_ok m)
  | EWrite Main rows (Ok _) => acknowledge mode (submit single m rows) rows
  | EWrite Main rows (Err _) | EPartial rows _ => submit single m rows
  | EIdempotent _ _ _ _ =>
      MkMon true (mn_dead_dirty m) (mn_page m) (mn_owed m) (mn_unsent m) (mn_owed_dead m) (mn_ok m)
  | EWrite Dead rows (Ok r) =>
      MkMon (mn_main_dirty m) true (mn_page m) (mn_owed m) (mn_unsent m)
        (if (zlen rows <=? sadd64 (wr_accepted r) (wr_coalesced r))
            && match strip (mn_owed_dead m) rows with Some _ => true | None => false end
         then [] else mn_owed_dead m) (mn_ok m)
  | EWrite Dead _ (Err _) =>
      MkMon (mn_main_dirty m) true (mn_page m) (mn_owed m) (mn_unsent m) (mn_owed_dead m) (mn_ok m)
  | EFlush Main (Ok _) =>
      MkMon false (mn_dead_dirty m) (mn_page m) (mn_owed m) (mn_unsent m) (mn_owed_dead m) (mn_ok m)
  | EFlush Dead (Ok _) =>
      MkMon (mn_main_dirty m) false (mn_page m) (mn_owed m) (mn_unsent m) (mn_owed_dead m) (mn_ok m)
  | EPut _ v _ =>
      MkMon (mn_main_dirty m) (mn_dead_dirty m) (mn_page m) (mn_owed m) (mn_unsent m) (mn_owed_dead m)
        (mn_ok m && put_ok mode m v)
  | _ => m
  end.

Definition checkpoints_ok (mode : run_mode) (tr : list event) : bool :=
  mn_ok (mon_of (mstep mode false) mon0 tr).

(** Every row is submitted to the main sink at most once, in order. *)
Definition submits_once (mode : run_mode) (tr : list event) : bool :=
  mn_ok (mon_of (mstep mode true) mon0 tr).

(** The mode of a run with these options. *)
Definition mode_of {E} (sink : SinkOps E) (options : RunStreamOptions E) : run_mode :=
  match ro_dlq options with
  | Some _ => DlqMode
  | None =>
      match select_mechanism sink options with
      | Ok (Some AtomicWatermark) => WatermarkMode
      | _ => PlainMode
      end
  end.

(** Monitor states of interest. *)
Definition good (x : monitor) : Prop := mn_ok x = true.
Definition at_page (mode : run_mode) (single : bool) (pg : option StreamPage) (ow us od : list Value)
    (x : monitor) : Prop :=
  mn_ok x = true /\ mn_page x = pg /\
  (mode = PlainMode -> mn_owed x = ow) /\ (single = true -> mn_unsent x = us) /\
  (mode = DlqMode -> mn_owed_dead x = od) /\ (mode <> DlqMode -> mn_dead_dirty x = false).
Definition main_clean (P : monitor -> Prop) (x : monitor) : Prop := P x /\ mn_main_dirty x = false.
Definition all_clean (P : monitor -> Prop) (x : monitor) : Prop :=
  P x /\ mn_main_dirty x = false /\ mn_dead_dirty x = false.
Definition idle (mode : run_mode) (single : bool) (x : monitor) : Prop :=
  exists pg, at_page mode single pg [] [] [] x.

(** ** Facts *)

Lemma strip_app p l : strip p (p ++ l) = Some l.
Proof. induction p as [|x p IH]; simpl; [done|]. by rewrite decide_True. Qed.

Lemma strip_self p : strip p p = Some [].
Proof. rewrite <- (app_nil_r p) at 2. apply strip_app. Qed.

Lemma at_page_good mode single pg ow us od x : at_page mode single pg ow us od x -> good x.
Proof. by intros (? & _). Qed.

#[local] Hint Resolve at_page_good : faucet.

#[local] Instance mstep_ignores mode single : Ignores (mstep mode single).
Proof. by intros x []. Qed.

Section CheckpointFacts.
Context {E : Type}.
Context (display : FaucetError -> string) (redact : string -> string) (to_json : Value -> string).
Context (debug_char : string -> Z -> string).
Context (sink : SinkOps E) (options : RunStreamOptions E).
Context (mode : run_mode) (single : bool).

Notation hoare := (hoare (E := E) (mon (mstep mode single) mon0) good).
Notation fail := (fun (_ : FaucetError) => good).

(** ** Flushes and state writes *)

Lemma hoare_flush_main pg ow us od :
  hoare (at_page mode single pg ow us od) (with_retry options (fun _ => flush_main sink))
    (fun _ => main_clean (at_page mode single pg ow us od)) fail.
Proof.
  apply hoare_with_retry. intros _. apply hoare_call; [eauto with faucet|].
  intros [] r (?&?&?&?&?&?); simpl in *. unfold main_clean, at_page, good.
  destruct r; simpl; naive_solver.
Qed.

Lemma hoare_put_state pg b v :
  sp_bookmark pg = Some b -> stored_as mode b v = true ->
  hoare (all_clean (at_page mode single (Some pg) [] [] [])) (put_state options v)
    (fun _ => at_page mode single (Some pg) [] [] []) fail.
Proof.
  intros Hb Hv. unfold put_state.
  assert (forall x, all_clean (at_page mode single (Some pg) [] [] []) x -> put_ok mode x v = true) as Hok.
  { intros [] ((?&Hp&Ho&_&Hd&_)&?&?). simpl in *. subst. unfold put_ok; simpl. rewrite Hb, Hv. simpl.
    destruct mode; [by rewrite Ho|done|by rewrite Hd]. }
  repeat case_match; try (apply hoare_ret; by intros ? [? _]).
  apply hoare_with_retry. intros _. apply hoare_call; [intros ? [? _]; eauto with faucet|].
  intros x r Hx. specialize (Hok x Hx). destruct Hx as ((H1&?&?&?&?&?)&?&?).
  unfold good, at_page, all_clean. simpl. rewrite H1, Hok. simpl. destruct r; naive_solver.
Qed.

(** Where single submission is claimed: the sink's plain write does not replay,
    no poison-pill resubmission, no watermark. *)
Context (Hsingle : single = true ->
  write_batch_is_replay_safe sink = false /\ poison_policy options = None /\ mode <> WatermarkMode).

(** ** The plain path *)

Lemma submit_ok chunk rest x :
  (single = true -> mn_unsent x = chunk ++ rest) ->
  mn_ok (submit single x chunk) = mn_ok x /\ mn_page (submit single x chunk) = mn_page x /\
  mn_owed (submit single x chunk) = mn_owed x /\
  (single = true -> mn_unsent (submit single x chunk) = rest) /\
  mn_owed_dead (submit single x chunk) = mn_owed_dead x /\
  mn_dead_dirty (submit single x chunk) = mn_dead_dirty x.
Proof.
  clear Hsingle. intros H. unfold submit. destruct single; [|done]. by rewrite (H eq_refl), strip_app.
Qed.

Lemma hoare_write_chunk pg chunk rest od :
  hoare (at_page mode single pg (chunk ++ rest) (chunk ++ rest) od)
    (with_retry_write sink options (gateway_reported sink chunk))
    (fun _ => at_page mode single pg rest rest od) fail.
Proof.
  assert (forall x, at_page mode single pg (chunk ++ rest) (chunk ++ rest) od x ->
    at_page mode single pg (chunk ++ rest) rest od (submit single x chunk)) as Hsub.
  { intros x (?&?&?&Hu&?&?). unfold at_page. destruct (submit_ok chunk rest x Hu) as (->&->&->&?&->&->). done. }
  assert (forall x, at_page mode single pg (chunk ++ rest) rest od x ->
    at_page mode single pg rest rest od (acknowledge mode x chunk)) as Hack.
  { intros x (?&?&Ho&?&?&?). unfold acknowledge. destruct mode; [|done..].
    rewrite (Ho eq_refl), strip_app. done. }
  assert (hoare (at_page mode single pg (chunk ++ rest) (chunk ++ rest) od) (gateway_reported sink chunk)
    (fun _ => at_page mode single pg rest rest od) fail) as Hbare.
  { apply hoare_call; [eauto with faucet|]. intros x [r|e] Hx; cbn [mstep];
      [|apply Hsub in Hx; split; by eapply at_page_good].
    apply Hsub, Hack in Hx. split; [by eapply at_page_good|done]. }
  unfold with_retry_write. destruct (retry_policy options); [|done].
  destruct (write_batch_is_replay_safe sink) eqn:Hr; [|done].
  apply hoare_with_retry. intros _. apply hoare_call; [eauto with faucet|].
  intros x [rep|err] Hx; cbn [mstep];
    [apply Hsub, Hack in Hx; split; [by eapply at_page_good|done]|].
  assert (single = false) as Hs by (destruct single; naive_solver).
  pose proof (Hsub x Hx) as (?&?&?&?&?&?). unfold good. split; [done|]. split; [done|].
  split_and!; try done. by rewrite Hs.
Qed.

Lemma chunk_size_bounds a n : (0 < n -> 1 <= chunk_size a n <= n)%nat.
Proof. unfold chunk_size. lia. Qed.

Lemma drop_slice {A} (l : list A) i n : drop i l = slice i n l ++ drop (i + n) l.
Proof. symmetry. apply slice_app_drop. Qed.

Lemma hoare_plain_chunks pg governed od fuel i a acc w :
  (length governed <= i + fuel)%nat ->
  hoare (at_page mode single pg (drop i governed) (drop i governed) od)
    (plain_chunks sink options fuel governed i a acc w) (fun _ => at_page mode single pg [] [] od) fail.
Proof.
  revert i a acc w. induction fuel as [|fuel IH]; intros i a acc w Hf; simpl.
  { apply hoare_ret. intros x. by rewrite drop_ge by lia. }
  destruct (Nat.ltb_spec i (length governed)) as [Hi|Hi].
  2: { apply hoare_ret. intros x. by rewrite drop_ge by lia. }
  pose proof (chunk_size_bounds a (length governed - i) ltac:(lia)) as Hc.
  set (size := chunk_size a _) in *. rewrite (drop_slice governed i size).
  eapply hoare_bind; [apply hoare_still; [apply quiet_state_of|eauto with faucet]|]. intros s0.
  eapply hoare_bind; [apply hoare_observe_write, hoare_write_chunk|]. intros report.
  eapply hoare_bind; [apply hoare_still; [done|eauto with faucet]|]. intros lat. apply IH. lia.
Qed.

Lemma hoare_plain_write pg governed od acc l :
  hoare (at_page mode single pg governed governed od) (plain_write sink options governed acc l)
    (fun _ => at_page mode single pg [] [] od) fail.
Proof.
  unfold plain_write. destruct governed as [|v vs]; [by apply hoare_ret|].
  set (governed := v :: vs). destruct (adaptive_cfg options) as [cfg|].
  - eapply hoare_bind; [apply hoare_admit; [apply _|eauto with faucet]|]. intros ?.
    eapply hoare_bind; [apply (hoare_plain_chunks pg governed od _ 0); lia|].
    intros [[? ?] ?]. by apply hoare_ret.
  - pose proof (hoare_write_chunk pg governed [] od) as H. rewrite app_nil_r in H.
    eapply hoare_bind; [apply hoare_observe_write, H|intros r; by apply hoare_ret].
Qed.

(** Flush, then store: what follows the write of a page without a dead-letter
    sink. *)
Lemma hoare_plain_path pg governed acc l :
  mode = PlainMode ->
  hoare (at_page mode single (Some pg) governed governed []) (plain_path sink options governed acc (sp_bookmark pg) l)
    (fun _ => at_page mode single (Some pg) [] [] []) fail.
Proof.
  intros Hm. unfold plain_path.
  eapply hoare_bind; [apply hoare_plain_write|]. intros [[c acc'] w].
  eapply hoare_bind; [apply hoare_settle; eauto with faucet|]. intros ?.
  destruct (sp_bookmark pg) as [b|] eqn:Hb; [|by apply hoare_ret].
  destruct (defer_bookmarks sink).
  - do 2 apply hoare_bind_ret. by apply hoare_ret.
  - eapply hoare_bind; [apply hoare_flush_main|]. intros ?.
    assert (stored_as mode b b = true) as Hst by (subst mode; by apply bool_decide_eq_true).
    eapply hoare_bind with (Q := fun _ => at_page mode single (Some pg) [] [] []); [|intros ?; by apply hoare_ret].
    eapply hoare_pre; [exact (hoare_put_state pg b b Hb Hst)|].
    intros x [Hx ?]. split; [done|]. split; [done|]. apply Hx. by subst.
Qed.

(** ** The exactly-once path *)

Lemma hoare_eo_write_once pg page token seq n :
  mode = WatermarkMode ->
  hoare (at_page mode single pg [] [] []) (eo_write_once sink options page token seq n)
    (fun _ => at_page mode single pg [] [] []) (fun _ x => good x /\ at_page mode single pg [] [] [] x).
Proof.
  intros Hm. unfold eo_write_once.
  assert (hoare (at_page mode single pg [] [] []) (gateway_idempotent sink page (scope options) token)
    (fun _ => at_page mode single pg [] [] []) (fun _ x => good x /\ at_page mode single pg [] [] [] x)) as Hw.
  { apply hoare_call; [eauto with faucet|]. intros [] r (?&?&?&?&?&?); simpl in *.
    unfold good, at_page. destruct r; simpl; naive_solver. }
  eapply hoare_bind with (Q := fun _ => at_page mode single pg [] [] []).
  - destruct n; [by apply hoare_ret|]. apply hoare_call; [eauto with faucet|].
    intros x [] Hx; simpl; split; eauto with faucet.
  - intros c. repeat case_match; try apply Hw. by apply hoare_ret.
Qed.

Lemma hoare_eo_path committed pg governed acc l :
  mode = WatermarkMode ->
  hoare (at_page mode single (Some pg) [] [] [])
    (eo_path to_json sink options committed governed acc (sp_bookmark pg) l)
    (fun _ => at_page mode single (Some pg) [] [] []) fail.
Proof.
  intros Hm. unfold eo_path. destruct (sp_bookmark pg) as [b|] eqn:Hb.
  - unfold eo_bookmarked. set (seq := wadd64 (next_seq l) 1).
    eapply hoare_bind with (Q := fun _ => at_page mode single (Some pg) [] [] []).
    { case_match; [by apply hoare_ret|].
      eapply hoare_bind with (Q := fun _ => at_page mode single (Some pg) [] [] []); [|intros r; by apply hoare_ret].
      apply hoare_observe_write, hoare_with_retry. intros n. by apply hoare_eo_write_once. }
    intros [w acc']. eapply hoare_bind; [apply hoare_settle; eauto with faucet|]. intros ?.
    eapply hoare_bind; [apply hoare_flush_main|]. intros ?.
    assert (stored_as mode b (wrap_state (Some b) seq) = true) as Hst
      by (subst mode; by apply bool_decide_eq_true).
    eapply hoare_bind with (Q := fun _ => at_page mode single (Some pg) [] [] []); [|intros ?; by apply hoare_ret].
    eapply hoare_pre; [exact (hoare_put_state pg b _ Hb Hst)|].
    intros x [Hx ?]. split; [done|]. split; [done|]. apply Hx. by subst.
  - destruct governed as [|v vs]; [by apply hoare_ret|].
    eapply hoare_bind with (Q := fun _ => at_page mode single (Some pg) [] [] []).
    { apply hoare_observe_write. eapply hoare_pre; [apply (hoare_write_chunk (Some pg) (v :: vs) [] [])|].
      intros x (?&?&?&?&?&?). split_and!; try done; intros; subst; naive_solver. }
    intros r. eapply hoare_bind; [apply hoare_settle; eauto with faucet|]. intros ?. by apply hoare_ret.
Qed.

(** ** The dead-letter path *)

(** Rows not tracked one by one may be anything. *)
Lemma at_page_any pg ow us us' od x :
  single = false -> at_page mode single pg ow us od x -> at_page mode single pg ow us' od x.
Proof. clear Hsingle. intros Hs (?&?&?&?&?&?). split_and!; try done. by rewrite Hs. Qed.

Lemma hoare_partial pg ow od chunk rest :
  hoare (at_page mode single pg ow (chunk ++ rest) od) (gateway_partial sink chunk)
    (fun _ => at_page mode single pg ow rest od)
    (fun _ x => good x /\ at_page mode single pg ow rest od x).
Proof.
  clear Hsingle. apply hoare_call; [eauto with faucet|]. intros x r (?&?&?&Hu&?&?). cbn [mstep].
  destruct (submit_ok chunk rest x Hu) as (E1&E2&E3&?&E4&E5).
  assert (at_page mode single pg ow rest od (submit single x chunk)) as Hp
    by (unfold at_page; rewrite E1, E2, E3, E4, E5; done).
  pose proof (at_page_good _ _ _ _ _ _ _ Hp). by destruct r.
Qed.

Lemma hoare_write_dlq_chunk dlq pg ow od chunk rest :
  hoare (at_page mode single pg ow (chunk ++ rest) od) (write_chunk display sink options dlq chunk)
    (fun _ => at_page mode single pg ow rest od) fail.
Proof.
  unfold write_chunk.
  eapply hoare_bind with (Q := fun _ => at_page mode single pg ow rest od).
  { apply hoare_attempt.
    assert (hoare (at_page mode single pg ow (chunk ++ rest) od) (gateway_partial sink chunk)
      (fun _ => at_page mode single pg ow rest od) (fun _ => at_page mode single pg ow rest od)) as Hbare
      by (eapply hoare_conseq; [apply hoare_partial|done|done|by intros ? ? [? ?]]).
    unfold with_retry_write. destruct (retry_policy options); [|done].
    destruct (write_batch_is_replay_safe sink) eqn:Hr; [|done].
    assert (single = false) as Hs by (destruct single; naive_solver).
    apply hoare_with_retry. intros _. eapply hoare_conseq; [apply hoare_partial|done|done|].
    intros e x [_ Hx]. split; [done|]. by eapply at_page_any. }
  intros [o|e].
  - destruct (_ =? _)%nat; [by apply hoare_ret|].
    eapply hoare_bind; [apply hoare_record_batch|]; intros ?. apply hoare_throw. eauto with faucet.
  - assert (hoare (at_page mode single pg ow rest od)
      (bind (record_batch Failed) (fun _ => throw e)) (fun _ : list RowOutcome * bool => at_page mode single pg ow rest od) fail)
      as Herr by (eapply hoare_bind; [apply hoare_record_batch|]; intros ?; apply hoare_throw; eauto with faucet).
    destruct e; try exact Herr; (destruct (dc_on_batch_error dlq); [exact Herr|by apply hoare_ret]).
Qed.

Lemma hoare_poison pg ow us od n chunk o :
  single = false ->
  hoare (at_page mode single pg ow us od) (poison_retry sink options n chunk o)
    (fun _ => at_page mode single pg ow us od) fail.
Proof.
  intros Hs. revert o. induction n as [|n IH]; intros o; simpl; [by apply hoare_ret|].
  destruct (failing_rows options o) as [|j js]; [by apply hoare_ret|].
  eapply hoare_bind with (Q := fun _ => at_page mode single pg ow us od).
  { apply hoare_attempt. eapply hoare_conseq; [apply (hoare_partial pg ow od _ us)|..].
    - intros x Hx. by eapply at_page_any.
    - done.
    - by intros ? ? [? ?]. }
  intros [r|e]; [destruct (_ =? _)%nat; [apply IH|]|];
    (eapply hoare_bind; [apply hoare_record_batch|]); intros ?; apply hoare_throw; eauto with faucet.
Qed.

Lemma hoare_dlq_chunk dlq pg ow od i chunk rest p :
  hoare (at_page mode single pg ow (chunk ++ rest) od) (dlq_chunk display redact sink options dlq i chunk p)
    (fun _ => at_page mode single pg ow rest od) fail.
Proof.
  unfold dlq_chunk.
  eapply hoare_bind; [apply hoare_still; [apply quiet_state_of|eauto with faucet]|]. intros s0.
  eapply hoare_bind; [apply hoare_write_dlq_chunk|]. intros [o syn].
  eapply hoare_bind; [apply hoare_still; [done|eauto with faucet]|]. intros lat.
  eapply hoare_bind with (Q := fun _ => at_page mode single pg ow rest od).
  { unfold poisoned. destruct (poison_policy options) eqn:Hp; [|by apply hoare_ret].
    destruct syn; [by apply hoare_ret|]. apply hoare_poison. destruct single; naive_solver. }
  intros o'. eapply hoare_bind; [apply hoare_still; [apply quiet_state_of|eauto with faucet]|]. intros s1.
  destruct (sort_rows _ _ _ _ _ _ _ _ _) as [[[su envs] dr]|e];
    (eapply hoare_bind; [apply hoare_record_batch|]); intros ?;
    [by apply hoare_ret|apply hoare_throw; eauto with faucet].
Qed.

Lemma hoare_dlq_chunks dlq pg ow od fuel governed i p :
  (length governed <= i + fuel)%nat ->
  hoare (at_page mode single pg ow (drop i governed) od)
    (dlq_chunks display redact sink options dlq fuel governed i p)
    (fun _ => at_page mode single pg ow [] od) fail.
Proof.
  revert i p. induction fuel as [|fuel IH]; intros i p Hf; simpl.
  { apply hoare_ret. intros x. by rewrite drop_ge by lia. }
  destruct (Nat.ltb_spec i (length governed)) as [Hi|Hi].
  2: { apply hoare_ret. intros x. by rewrite drop_ge by lia. }
  assert (exists size c, (match adaptive_cfg options with Some cfg => _ | None => _ end) = (size, c) /\
    (1 <= size <= length governed - i)%nat) as (size & c & -> & Hsz).
  { destruct (adaptive_cfg options); do 2 eexists; (split; [reflexivity|]); [apply chunk_size_bounds|]; lia. }
  rewrite (drop_slice governed i size).
  eapply hoare_bind; [apply hoare_dlq_chunk|]. intros p'. apply IH. lia.
Qed.

(** The dead-letter write settles the envelopes owed; a short or failed write
    leaves them owed. *)
Lemma hoare_gateway_dlq (dlq_sink : SinkOps E) pg ow us od more :
  mode = DlqMode ->
  hoare (at_page mode single pg ow us od) (gateway_dlq dlq_sink (od ++ more))
    (fun _ => at_page mode single pg ow us []) (fun _ x => good x /\ at_page mode single pg ow us od x).
Proof.
  intros Hm. unfold gateway_dlq.
  eapply hoare_bind with (Q := fun r => if sadd64 (wr_accepted r) (wr_coalesced r) <? zlen (od ++ more)
                                        then at_page mode single pg ow us od else at_page mode single pg ow us []).
  - apply hoare_call; [eauto with faucet|]. intros [] r (?&?&?&?&Hd&?); simpl in *.
    destruct r as [rep|e]; [|unfold good, at_page; simpl; naive_solver].
    rewrite (Hd Hm), strip_app, andb_true_r. split; [done|].
    rewrite Z.leb_antisym. destruct (_ <? _); unfold at_page; simpl; naive_solver.
  - intros r. case_match; [apply hoare_throw|by apply hoare_ret].
    intros x Hx. split; [|done]. eauto with faucet.
Qed.

Lemma hoare_write_envelopes dlq pg ow us od more stats :
  mode = DlqMode ->
  hoare (at_page mode single pg ow us od) (write_envelopes display options dlq (od ++ more) stats)
    (fun _ => at_page mode single pg ow us []) fail.
Proof.
  intros Hm. unfold write_envelopes. destruct (od ++ more) as [|e es] eqn:Hod.
  { apply app_eq_nil in Hod as [-> ->]. by apply hoare_ret. }
  rewrite <- Hod. eapply hoare_bind with (Q := fun _ => at_page mode single pg ow us []);
    [apply hoare_map_err|intros ?; by apply hoare_ret].
  assert (hoare (at_page mode single pg ow us od) (gateway_dlq (dc_sink dlq) (od ++ more))
    (fun _ => at_page mode single pg ow us []) fail) as Hbare
    by (eapply hoare_conseq; [by apply hoare_gateway_dlq|done|done|by intros ? ? [? ?]]).
  repeat case_match; try apply Hbare. apply hoare_with_retry. intros _. by apply hoare_gateway_dlq.
Qed.

Lemma hoare_dlq_checkpoint dlq pg l :
  mode = DlqMode ->
  hoare (at_page mode single (Some pg) [] [] []) (dlq_checkpoint display sink options dlq (sp_bookmark pg) l)
    (fun _ => at_page mode single (Some pg) [] [] []) fail.
Proof.
  intros Hm. unfold dlq_checkpoint. destruct (sp_bookmark pg) as [b|] eqn:Hb; [|by apply hoare_ret].
  assert (forall P : monitor -> Prop, (forall x, P x -> at_page mode single (Some pg) [] [] [] x) ->
    (forall x, P x -> P (mstep mode single x (EFlush Dead (Ok tt)))) ->
    (forall x e, P x -> P (mstep mode single x (EFlush Dead (Err e)))) ->
    hoare P (map_err (fun e => Sink ("DLQ sink flush failed: " +:+ display e))
      (with_retry options (fun _ => call (flush (dc_sink dlq)) (EFlush Dead))))
    (fun _ x => P x /\ mn_dead_dirty x = false) fail) as Hf.
  { intros P HP Hok Herr. apply hoare_map_err, hoare_with_retry. intros _.
    apply hoare_call; [eauto with faucet|]. intros x [[]|e] Hx; simpl; [|split; eauto with faucet].
    split; [eapply at_page_good, HP, Hok, Hx|]. split; [by apply Hok|done]. }
  destruct (defer_bookmarks sink).
  - apply hoare_bind_ret. eapply hoare_bind.
    { apply (Hf (at_page mode single (Some pg) [] [] [])); [done|..]; intros []; unfold at_page; simpl; naive_solver. }
    intros ?. apply hoare_bind_ret, hoare_ret. by intros x [? _].
  - eapply hoare_bind; [apply hoare_flush_main|]. intros ?.
    eapply hoare_bind.
    { apply (Hf (main_clean (at_page mode single (Some pg) [] [] []))); [by intros x [? _]|..];
        intros []; unfold main_clean, at_page; simpl; naive_solver. }
    intros ?. assert (stored_as mode b b = true) as Hst by (subst mode; by apply bool_decide_eq_true).
    eapply hoare_bind with (Q := fun _ => at_page mode single (Some pg) [] [] []); [|intros ?; by apply hoare_ret].
    eapply hoare_pre; [exact (hoare_put_state pg b b Hb Hst)|].
    intros x [[Hx ?] ?]. by split.
Qed.

Lemma hoare_dlq_path dlq pg governed envs acc l :
  mode = DlqMode ->
  hoare (at_page mode single (Some pg) governed governed envs)
    (dlq_path display redact sink options dlq governed envs acc (sp_bookmark pg) l)
    (fun _ => at_page mode single (Some pg) [] [] []) fail.
Proof.
  intros Hm. unfold dlq_path.
  eapply hoare_bind with (Q := fun _ => at_page mode single (Some pg) governed governed envs).
  { repeat case_match; try (by apply hoare_ret). apply hoare_admit; [apply _|eauto with faucet]. }
  intros ?. eapply hoare_bind; [apply (hoare_dlq_chunks dlq (Some pg) governed envs (length governed) governed 0); lia|].
  intros p.
  destruct (breaker_after _ _ _) as [b ce].
  eapply hoare_bind; [by apply hoare_write_envelopes|]. intros stats.
  eapply hoare_bind; [apply hoare_settle; eauto with faucet|]. intros ?.
  eapply hoare_bind with (Q := fun _ => at_page mode single (Some pg) [] [] []).
  { eapply hoare_pre; [by apply hoare_dlq_checkpoint|].
    intros x (?&?&?&?&?&?). split_and!; try done. by intros; subst. }
  intros l'. repeat case_match; try (by apply hoare_ret); apply hoare_throw; eauto with faucet.
Qed.

(** ** The loop *)

Lemma hoare_abort (P : monitor -> Prop) (dlq_sink : SinkOps E) envs stats :
  (forall x, P x -> good x) ->
  (forall x e, P x -> P (mstep mode single x (EFlush Dead e))) ->
  (forall x r, P x -> P (mstep mode single x (EWrite Dead envs r))) ->
  hoare P (abort_with_envelopes display dlq_sink envs stats) (fun _ => P) fail.
Proof.
  intros Hg Hf Hw. unfold abort_with_envelopes. destruct envs as [|e es]; [by apply hoare_ret|].
  eapply hoare_bind with (Q := fun _ => P).
  { apply hoare_map_err. unfold gateway_dlq. eapply hoare_bind with (Q := fun _ => P).
    - apply hoare_call; [done|]. intros x r Hx. specialize (Hw x r Hx). destruct r; auto.
    - intros r. case_match; [apply hoare_throw; auto|by apply hoare_ret]. }
  intros ?. eapply hoare_bind with (Q := fun _ => P); [|intros ?; by apply hoare_ret].
  unfold flush_dlq. apply hoare_map_err, hoare_call; [done|].
  intros x r Hx. specialize (Hf x r Hx). destruct r; auto.
Qed.

(** The mode this run is in. *)
Context (exactly_once : bool).
Context (Hmode : mode = match ro_dlq options with
                        | Some _ => DlqMode
                        | None => if exactly_once then WatermarkMode else PlainMode
                        end).

Lemma hoare_process committed page l :
  hoare (idle mode single)
    (process_page display redact to_json sink options exactly_once
       committed page l)
    (fun _ => idle mode single) fail.
Proof.
  unfold process_page.
  eapply hoare_bind with (Q := fun _ => at_page mode single (Some page) [] [] []).
  { apply hoare_log. intros [] (pg & ?&?&?&?&?&?). done. }
  intros ?. eapply hoare_bind; [apply hoare_governance; [apply _|eauto with faucet]|]. intros [gov cache].
  eapply hoare_bind with (Q := fun _ => at_page mode single (Some page) (go_records gov) (go_records gov) (go_envelopes gov)).
  { apply hoare_log. intros [] (?&?&Ho&Hu&Hd&?). simpl in *. unfold at_page; simpl.
    split_and!; try done; intros; [by rewrite Ho|by rewrite Hu|by rewrite Hd]. }
  intros ?. assert (forall pg x, at_page mode single pg [] [] [] x -> idle mode single x) as Hidle by (intros; by eexists).
  destruct (go_deferred_abort gov) as [e|].
  - eapply hoare_bind with (Q := fun _ => good); [|intros ?; by apply hoare_throw].
    destruct (ro_dlq options) as [dlq|]; [|apply hoare_ret; eauto with faucet].
    eapply hoare_bind with (Q := fun _ => good); [|intros ?; by apply hoare_ret].
    eapply hoare_pre; [apply (hoare_abort good); [done|..]|eauto with faucet].
    + by intros [] [].
    + by intros [] [].
  - destruct (ro_dlq options) as [dlq|].
    + eapply hoare_conseq; [by apply hoare_dlq_path|done|intros ? ?; apply Hidle|done].
    + destruct exactly_once.
      * assert (single <> true) as Hns by (intros Hs; by destruct (Hsingle Hs) as (_ & _ & [])).
        eapply hoare_conseq; [by apply hoare_eo_path| |intros ? ?; apply Hidle|done].
        intros x (?&?&?&?&?&?). split_and!; try done; by intros; congruence.
      * eapply hoare_conseq; [by apply hoare_plain_path| |intros ? ?; apply Hidle|done].
        intros x (?&?&?&?&?&?). split_and!; try done; by intros; subst.
Qed.

Lemma idle_good x : idle mode single x -> good x.
Proof. intros [pg ?]. eauto with faucet. Qed.

(** Everything written is flushed; a run that may leave staging alone excepted. *)
Definition flushed (x : monitor) : Prop :=
  good x /\ mn_dead_dirty x = false /\ (is_overwrite sink = false -> mn_main_dirty x = false).

Lemma hoare_finish l c :
  hoare (idle mode single) (finish display sink options l c) (fun _ => flushed) fail.
Proof.
  clear Hsingle. unfold finish.
  eapply hoare_bind with (Q := fun _ x => good x /\ mn_dead_dirty x = false).
  { destruct (ro_dlq options).
    - apply hoare_map_err, hoare_call; [apply idle_good|].
      intros [] [] (?&?&?&?&?&?&?); done.
    - apply hoare_ret. intros x (?&?&?&?&?&?&Hd). split; [done|]. apply Hd. rewrite Hmode. by destruct exactly_once. }
  intros ?. eapply hoare_bind with (Q := fun _ => flushed); [|intros ?; by apply hoare_ret].
  destruct (is_overwrite sink) eqn:Ho; [|rewrite andb_false_r].
  - destruct (c && true); [apply hoare_ret; intros x []; by split_and!; [..|congruence]|].
    apply hoare_call; [by intros x []|]. intros [] [] []; repeat split; congruence || done.
  - apply hoare_call; [by intros x []|]. intros [] [] []; by repeat split.
Qed.

Lemma hoare_run_loop pages eos :
  hoare (idle mode single)
    (run_loop display redact to_json sink options exactly_once pages eos)
    (fun _ => flushed) fail.
Proof.
  unfold run_loop. pose proof idle_good as Hg.
  eapply hoare_bind with (Q := fun _ => idle mode single).
  { destruct exactly_once; [|by apply hoare_ret]. eapply hoare_bind; [by apply hoare_unseen|].
    intros t. by apply hoare_ret. }
  intros committed. eapply hoare_bind with (Q := fun _ => idle mode single).
  { destruct (adaptive_cfg options) as [cfg|]; [|by apply hoare_ret]. apply hoare_lift.
    intros x Hx. destruct (validate cfg); auto. }
  intros ?. eapply hoare_bind with (Q := fun r x => match r with Ok _ => idle mode single x | Err _ => good x end).
  { apply hoare_attempt, hoare_page_loop; [done|intros; apply hoare_process]. }
  intros [[l c]|e]; [apply hoare_finish|].
  assert (forall t (snk : SinkOps E), hoare good (attempt (call (flush snk) (EFlush t))) (fun _ => good) fail) as Hflush.
  { intros t snk. apply hoare_attempt, hoare_call; [done|]. by intros [] [] ?; destruct t. }
  unfold unwind. eapply hoare_bind with (Q := fun _ => good).
  { destruct (ro_dlq options); [|by apply hoare_ret].
    eapply hoare_bind; [apply Hflush|]. intros ?; by apply hoare_ret. }
  intros ?. eapply hoare_bind with (Q := fun _ => good); [|intros ?; by apply hoare_throw].
  destruct (defer_bookmarks sink); [by apply hoare_ret|].
  eapply hoare_bind; [apply Hflush|]. intros ?; by apply hoare_ret.
Qed.

End CheckpointFacts.

(** A whole run keeps the monitor good, and ends flushed when it returns. *)
Lemma run_monitored {E} display redact to_json debug_char
  (sink : SinkOps E) options single pages eos e t c j a o :
  (single = true -> write_batch_is_replay_safe sink = false /\ poison_policy options = None /\
     mode_of sink options <> WatermarkMode) ->
  let r := run_stream_with display redact to_json debug_char sink options pages eos
              (MkSt e t c j a o []) in
  let x := mon_of (mstep (mode_of sink options) single) mon0 (trace r.2) in
  good x /\ (forall v, r.1 = Val v -> flushed sink x).
Proof.
  set (mode := mode_of sink options). intros Hsingle.
  assert (hoare (mon (mstep mode single) mon0) good (idle mode single)
    (run_stream_with display redact to_json debug_char sink options pages eos)
    (fun _ => flushed sink) (fun _ => good)) as H.
  { unfold run_stream_with. eapply hoare_bind with (Q := fun _ => idle mode single).
    { apply hoare_lift. intros x Hx. case_match; [done|by eapply idle_good]. }
    intros ?. eapply hoare_bind with (Q := fun m x => idle mode single x /\ select_mechanism sink options = Ok m).
    { apply hoare_lift. intros x Hx. case_match; [done|by eapply idle_good]. }
    intros m. intros s [Hs Hm].
    apply hoare_run_loop; [done|done| |exact Hs].
    unfold mode, mode_of. rewrite Hm. by destruct (ro_dlq options), m as [[]|]. }
  specialize (H (MkSt e t c j a o [])). unfold wp in H.
  assert (idle mode single (mon (mstep mode single) mon0 (MkSt e t c j a o []))) as H0 by (by exists None).
  specialize (H H0). destruct (run_stream_with _ _ _ _ _ _ _ _ _) as [[] s]; simpl in *.
  - split; [by destruct H|]. intros ? _. exact H.
  - by split.
  - by split.
Qed.

(** Every state write happens with all earlier writes flushed, stores the
    bookmark of the page in progress, and comes after every governance envelope
    so far was acknowledged. *)
Lemma checkpoints_flushed {E} display redact to_json debug_char
  (sink : SinkOps E) options pages eos e t c j a o :
  checkpoints_ok (mode_of sink options)
    (trace (run_stream_with display redact to_json debug_char sink options pages eos
              (MkSt e t c j a o [])).2) = true.
Proof. by apply (run_monitored _ _ _ _ sink options false). Qed.

(** C7: a run never submits a row twice to a sink whose plain writes are not
    replay-safe. Whatever the sink answers and whatever the retry policy, when
    no poison-pill policy resubmits failed rows and the run does not use the
    watermark protocol, the rows the main sink is offered over the run are the
    governed rows in order, each offered at most once. *)
Theorem unsafe_sink_never_resubmitted {E} display redact to_json debug_char
  (sink : SinkOps E) options pages eos e t c j a o :
  write_batch_is_replay_safe sink = false -> poison_policy options = None ->
  mode_of sink options <> WatermarkMode ->
  submits_once (mode_of sink options)
    (trace (run_stream_with display redact to_json debug_char sink options pages eos
              (MkSt e t c j a o [])).2) = true.
Proof. intros. by apply (run_monitored _ _ _ _ sink options true). Qed.

(** A run that returns a result has flushed everything it wrote. Without
    overwrite, after the last write to the main sink there is a successful
    flush of it, and after the last write to the dead-letter sink one of that. *)
Theorem completed_run_is_flushed {E} display redact to_json debug_char
  (sink : SinkOps E) options pages eos e t c j a o v s :
  is_overwrite sink = false ->
  run_stream_with display redact to_json debug_char sink options pages eos
    (MkSt e t c j a o []) = (Val v, s) ->
  let x := mon_of (mstep (mode_of sink options) false) mon0 (trace s) in
  mn_main_dirty x = false /\ mn_dead_dirty x = false.
Proof.
  intros Ho Hr x.
  destruct (run_monitored display redact to_json debug_char sink options false pages eos
    e t c j a o) as [_ H]; [done|]. rewrite Hr in H. destruct (H v eq_refl) as (_ & ? & Hm). auto.
Qed.

(** A run with retries whose second write is refused. *)
Definition demo_options : RunStreamOptions mem :=
  MkOptions (Some mem_store) (Some "orders") None None None None None None None None None AtLeastOnce 0 None
    (Some (MkResilience policy3 None None)) false.
Definition demo_stream : list (Z * result StreamPage FaucetError) :=
  [(1, Ok (MkStreamPage [VString "a"; VString "b"] (Some (VString "1"))));
   (1, Ok (MkStreamPage [VString "c"] (Some (VString "2"))))].
Definition demo_unsafe : SinkOps mem := mem_sink false false false (fun _ => Ok tt).

Lemma unsafe_sink_never_resubmitted_witness :
  submits_once PlainMode
    (trace (run_stream_with (fun _ => EmptyString) id (fun _ => EmptyString) (fun _ _ => EmptyString)
       demo_unsafe demo_options demo_stream 1
       (MkSt (mem0 [NoFault; NoFault; NoFault; ReplyLost]) 0 None 0 None BatchOutcomeCounters_new [])).2) = true.
Proof.
  apply (unsafe_sink_never_resubmitted (fun _ => EmptyString) id (fun _ => EmptyString) (fun _ _ => EmptyString)
    demo_unsafe demo_options demo_stream 1);
    [reflexivity|reflexivity|vm_compute; congruence].
Defined.

Lemma completed_run_is_flushed_witness :
  exists v s,
    run_stream_with (fun _ => EmptyString) id (fun _ => EmptyString) (fun _ _ => EmptyString)
       demo_unsafe demo_options demo_stream 1
       (MkSt (mem0 []) 0 None 0 None BatchOutcomeCounters_new []) = (Val v, s) /\
    pr_records_written v = 3 /\
    mn_main_dirty (mon_of (mstep PlainMode false) mon0 (trace s)) = false /\
    mn_dead_dirty (mon_of (mstep PlainMode false) mon0 (trace s)) = false.
Proof.
  eexists _, _. split; [vm_compute; reflexivity|]. split; [reflexivity|].
  apply (completed_run_is_flushed (fun _ => EmptyString) id (fun _ => EmptyString) (fun _ _ => EmptyString)
       demo_unsafe demo_options demo_stream 1
       (mem0 []) 0 None 0 None BatchOutcomeCounters_new (MkResult 3 (Some (VString "2")) None)); [reflexivity|].
  vm_compute. reflexivity.
Defined.
