(* ===== verification/DlqRows.v ===== *)
(** Row conservation on the dead-letter path of the page loop: each row of a page
    is accepted by the sink, carried by one envelope, or dropped by the poison
    policy, and the page's account says so. Which rows the sink accepted is read
    off the answers it gave, as the trace records them. *)
From S2P Require Import Prelude Errors Json Text Accounting StateKey Idempotency Dlq Drift Adaptive.
From S2P Require Import Quality Contract Engine Memory Governance Resilience Hoare RunStream.

Local Open Scope Z_scope.

(** What has become of the first [n] rows of page [l]: the rows [q] are in the
    envelopes, one each; the others were accepted or dropped. The other fields
    of the account are as in [acct]. *)
Definition sorted_rows (l : list Value) (acct : PageAccount) (n : nat) (p : dlq_page) : Prop :=
  exists q,
    NoDup q /\ Forall (fun i => i < n)%nat q /\ Forall2 (env_for l) (dp_envelopes p) q /\
    0 <= dp_success p /\ 0 <= pa_dropped (dp_account p) /\
    pa_failed (dp_account p) = zlen (dp_envelopes p) /\
    dp_success p + zlen (dp_envelopes p) + pa_dropped (dp_account p) = Z.of_nat n /\
    pa_offered (dp_account p) = pa_offered acct /\ pa_accepted (dp_account p) = pa_accepted acct /\
    pa_coalesced (dp_account p) = pa_coalesced acct /\ pa_skipped (dp_account p) = pa_skipped acct /\
    pa_quarantined (dp_account p) = pa_quarantined acct.

(** What a sink's answer to a partial write says of the rows it was offered. *)
Definition accepted_of (rows : list Value) (o : list RowOutcome) : list Value :=
  omap (fun p : Value * RowOutcome => match p.2 with Ok _ => Some p.1 | Err _ => None end) (zip rows o).
Definition failed_of (rows : list Value) (o : list RowOutcome) : list Value :=
  omap (fun p : Value * RowOutcome => match p.2 with Ok _ => None | Err _ => Some p.1 end) (zip rows o).

(** The rows the sink accepted, and those it refused at some time, over a trace. *)
Definition accepted_in (e : event) : list Value :=
  match e with EPartial rows (Ok o) => accepted_of rows o | _ => [] end.
Definition refused_in (e : event) : list Value :=
  match e with EPartial rows (Ok o) => failed_of rows o | EPartial rows (Err _) => rows | _ => [] end.
Definition accepted_rows (tr : list event) : list Value := tr ≫= accepted_in.
Definition refused_rows (tr : list event) : list Value := tr ≫= refused_in.

Definition is_partial (e : event) : Prop := match e with EPartial _ _ => True | _ => False end.

(** The rows a list of envelopes carries. *)
Definition payloads (envs : list Value) : list Value := omap (fun e => get e "payload") envs.

(** Since the trace was [tr0] there were only partial writes; the sink accepted
    the rows [A] and answered each row of [R] with an error. *)
Definition submitted {E} (tr0 : list event) (A R : list Value) (s : st E) : Prop :=
  exists evs, trace s = tr0 ++ evs /\ Forall is_partial evs /\
    accepted_rows evs ≡ₚ A /\ R ⊆ refused_rows evs.

(** Where each of the rows [done] of a page is: accepted by the sink, the payload
    of one of [envs], or among the rows [lost] the poison policy dropped; a row
    is in an envelope or dropped only if the sink refused it, and only the drop
    action of a poison policy drops any. *)
Definition placed {E} (options : RunStreamOptions E) (done : list Value) (evs : list event)
    (envs lost : list Value) : Prop :=
  accepted_rows evs ++ payloads envs ++ lost ≡ₚ done /\
  payloads envs ++ lost ⊆ refused_rows evs /\
  (terminal_action options <> PoisonDrop -> lost = []).

(** The page's counters name them. *)
Definition counted_rows (evs : list event) (lost : list Value) (p : dlq_page) : Prop :=
  dp_success p = zlen (accepted_rows evs) /\ pa_dropped (dp_account p) = zlen lost.

(** The account of a page as the loop hands it to the dead-letter path: [k] rows
    left to write, the others already in envelopes. *)
Definition fresh_account (a : PageAccount) (k : nat) : Prop :=
  pa_accepted a = 0 /\ pa_coalesced a = 0 /\ pa_skipped a = 0 /\ pa_failed a = 0 /\ pa_dropped a = 0 /\
  0 <= pa_quarantined a /\ pa_offered a = Z.of_nat k + pa_quarantined a.

(** ** Facts *)

Lemma accepted_of_cons x rows r o :
  accepted_of (x :: rows) (r :: o) = match r with Ok _ => x :: accepted_of rows o | Err _ => accepted_of rows o end.
Proof. by destruct r. Qed.

Lemma failed_of_cons x rows r o :
  failed_of (x :: rows) (r :: o) = match r with Ok _ => failed_of rows o | Err _ => x :: failed_of rows o end.
Proof. by destruct r. Qed.

Lemma accepted_failed rows o :
  length o = length rows -> accepted_of rows o ++ failed_of rows o ≡ₚ rows.
Proof.
  revert o. induction rows as [|x rows IH]; intros [|r o] Ho; simplify_eq/=; [done|].
  rewrite accepted_of_cons, failed_of_cons. specialize (IH o Ho).
  destruct r; simpl; [by rewrite IH|]. by rewrite <- Permutation_middle, IH.
Qed.

(** One more row accepted, or one more refusal of a row already refused. *)
Lemma accepted_of_insert rows o j x r e :
  rows !! j = Some x -> o !! j = Some (Err e) ->
  accepted_of rows (<[j := r]> o) ≡ₚ accepted_of [x] [r] ++ accepted_of rows o /\
  failed_of rows (<[j := r]> o) ⊆ failed_of rows o.
Proof.
  revert o j. induction rows as [|y rows IH]; intros [|r' o] [|j] Hx Ho; simplify_eq/=.
  - rewrite !accepted_of_cons, !failed_of_cons. destruct r; simpl; (split; [done|]); set_solver.
  - destruct (IH o j Hx Ho) as [IH1 IH2].
    rewrite !accepted_of_cons, !failed_of_cons. destruct r'; simpl; (split; [|set_solver]).
    + rewrite IH1. destruct r; simpl; [apply Permutation_swap|done].
    + rewrite IH1. by destruct r.
Qed.

Lemma accepted_rows_app a b : accepted_rows (a ++ b) = accepted_rows a ++ accepted_rows b.
Proof. apply bind_app. Qed.

Lemma refused_rows_app a b : refused_rows (a ++ b) = refused_rows a ++ refused_rows b.
Proof. apply bind_app. Qed.

Section DlqRows.
Context {E : Type}.
Context (display : FaucetError -> string) (redact : string -> string).
Context (sink : SinkOps E) (options : RunStreamOptions E) (dlq : DlqConfig E).

Lemma replace_outcomes_length o failing r : length (replace_outcomes o failing r) = length o.
Proof.
  revert o r. induction failing as [|j failing IH]; intros o [|x r]; simpl; [done..|].
  by rewrite IH, length_insert.
Qed.

(** Resubmitted rows: what the answer accepts is added to what was accepted. *)
Lemma replace_outcomes_rows rows o failing r :
  length o = length rows -> NoDup failing -> Forall (fun j => exists e, o !! j = Some (Err e)) failing ->
  accepted_of rows (replace_outcomes o failing r)
    ≡ₚ accepted_of rows o ++ accepted_of (select rows failing) r /\
  failed_of rows (replace_outcomes o failing r) ⊆ failed_of rows o.
Proof.
  revert o r. induction failing as [|j failing IH]; intros o r Ho Hnd Hf.
  { simpl. by rewrite app_nil_r. }
  inversion Hnd as [|? ? Hj Hnd']; subst. inversion Hf as [|? ? [e He] Hf']; subst.
  destruct (lookup_lt_is_Some_2 rows j) as [x Hx]; [rewrite <- Ho; by eapply lookup_lt_Some|].
  unfold select. simpl. rewrite Hx. fold (select rows failing).
  destruct r as [|r0 r]; simpl; [by rewrite app_nil_r|].
  destruct (accepted_of_insert rows o j x r0 e Hx He) as [Ha Hb].
  destruct (IH (<[j := r0]> o) r) as [IH1 IH2]; [by rewrite length_insert|done| |].
  { rewrite Forall_forall in Hf' |- *. intros i Hi. destruct (Hf' i Hi) as [e' ?]. exists e'.
    rewrite list_lookup_insert_ne; [done|]. by intros ->. }
  split; [|set_solver]. rewrite IH1, Ha, accepted_of_cons. destruct r0; simpl; [|done].
  apply Permutation_middle.
Qed.

(** [failing_rows] with the first row at position [i]. *)
Definition failing_from (i : nat) (o : list RowOutcome) : list nat :=
  omap (fun p : RowOutcome * nat =>
          match p.1, retry_policy options with
          | Err e, Some pol => if policy_is_retriable pol e then Some p.2 else None
          | _, _ => None
          end) (indexed i o).

Lemma failing_from_cons i r o :
  failing_from i (r :: o) = failing_from (S i) o \/
  exists e, r = Err e /\ failing_from i (r :: o) = i :: failing_from (S i) o.
Proof.
  unfold failing_from, indexed. simpl. destruct r as [u|e]; [by left|].
  destruct (retry_policy options) as [pol|]; [|by left].
  destruct (policy_is_retriable pol e); [right; by exists e|by left].
Qed.

Lemma failing_rows_are_errors o :
  NoDup (failing_rows options o) /\
  Forall (fun j => exists e, o !! j = Some (Err e)) (failing_rows options o).
Proof.
  assert (forall i, NoDup (failing_from i o) /\
    Forall (fun j => exists k e, j = (i + k)%nat /\ o !! k = Some (Err e)) (failing_from i o)) as H.
  { induction o as [|r o IH]; intros i; [split; constructor|]. destruct (IH (S i)) as [Hnd Hf].
    assert (Forall (fun j => exists k e, j = (i + k)%nat /\ (r :: o) !! k = Some (Err e)) (failing_from (S i) o)) as Hf'.
    { eapply Forall_impl; [exact Hf|]. intros j (k & e & -> & He). exists (S k), e. split; [lia|done]. }
    destruct (failing_from_cons i r o) as [-> |[e [-> ->]]]; [exact (conj Hnd Hf')|]. split.
    - constructor; [|done]. intros Hin. rewrite Forall_forall in Hf.
      destruct (Hf _ Hin) as (k & ? & ? & ?). lia.
    - constructor; [|done]. exists 0%nat, e. split; [lia|done]. }
  destruct (H 0%nat) as [Hnd Hf]. split; [exact Hnd|]. eapply Forall_impl; [exact Hf|].
  intros j (k & e & -> & He). by exists e.
Qed.

(** More submissions. *)
Lemma submitted_call tr0 A R rows (s s' : st E) r :
  submitted tr0 A R s -> trace s' = trace s ++ [EPartial rows r] ->
  submitted tr0 (A ++ accepted_in (EPartial rows r)) (R ++ refused_in (EPartial rows r)) s'.
Proof.
  intros (evs & Ht & Hp & Ha & Hr) Ht'. exists (evs ++ [EPartial rows r]). split_and!.
  - by rewrite Ht', Ht, app_assoc.
  - apply Forall_app. split; [done|]. by repeat constructor.
  - rewrite accepted_rows_app, Ha. simpl. by rewrite app_nil_r.
  - rewrite refused_rows_app. simpl. rewrite app_nil_r. set_solver.
Qed.

Lemma submitted_stable tr0 A R : stable (@submitted E tr0 A R).
Proof. intros s s' _ Ht _ _ (evs & H). exists evs. by rewrite Ht in H. Qed.

Lemma submitted_weaken tr0 A A' R R' (s : st E) :
  A ≡ₚ A' -> R' ⊆ R -> submitted tr0 A R s -> submitted tr0 A' R' s.
Proof. intros HA HR (evs & ? & ? & ? & ?). exists evs. split_and!; try done; [by rewrite <- HA|set_solver]. Qed.

Lemma wp_partial tr0 A R rows s :
  submitted tr0 A R s ->
  wp (gateway_partial sink rows)
    (fun r s' => match r with
                 | Val o => submitted tr0 (A ++ accepted_of rows o) (R ++ failed_of rows o) s'
                 | Fault e => submitted tr0 A (R ++ rows) s'
                 | Crashed => True
                 end) s.
Proof.
  intros Hs. apply wp_call; [done|]. intros r d e s' _ _ Ht _ _. split; [done|].
  pose proof (submitted_call _ _ _ _ _ _ _ Hs Ht) as H. destruct r; [exact H|].
  simpl in H. by rewrite app_nil_r in H.
Qed.
(** The outcomes of a chunk are one per row, and say what the sink answered. *)
Lemma wp_poisoned tr0 chunk o syn s :
  length o = length chunk -> submitted tr0 (accepted_of chunk o) (failed_of chunk o) s ->
  wp (poisoned sink options chunk o syn)
    (fun r s' => match r with
                 | Val o' => length o' = length chunk /\
                             submitted tr0 (accepted_of chunk o') (failed_of chunk o') s'
                 | _ => True
                 end) s.
Proof.
  intros Ho Hs. unfold poisoned. destruct (poison_policy options) as [pp|]; [|by apply wp_ret].
  destruct syn; [by apply wp_ret|].
  generalize (Z.to_nat (max_row_attempts pp) - 1)%nat as n. intros n. revert o s Ho Hs.
  induction n as [|n IH]; intros o s Ho Hs; cbn [poison_retry]; [by apply wp_ret|].
  destruct (failing_rows_are_errors o) as [Hnd Herr].
  destruct (failing_rows options o) as [|j js] eqn:Hf; [by apply wp_ret|]. remember (j :: js) as failing eqn:Hj. clear Hj.
  apply wp_bind, wp_attempt. eapply wp_mono; [by apply (wp_partial tr0)|]. clear s Hs.
  intros [r|e|] s Hs; [|done..]. destruct (_ =? _)%nat; [|done].
  destruct (replace_outcomes_rows chunk o failing r Ho Hnd Herr) as [Ha Hb].
  apply IH; [by rewrite replace_outcomes_length|]. eapply submitted_weaken; [symmetry; exact Ha| |exact Hs]. set_solver.
Qed.

Lemma wp_write_chunk chunk s :
  wp (write_chunk display sink options dlq chunk)
    (fun r s' => match r with
                 | Val (o, _) => length o = length chunk /\
                                 submitted (trace s) (accepted_of chunk o) (failed_of chunk o) s'
                 | _ => True
                 end) s.
Proof.
  set (tr0 := trace s). assert (submitted tr0 [] [] s) as H0 by (exists []; rewrite app_nil_r; done).
  assert (wp (with_retry_write sink options (gateway_partial sink chunk))
    (fun r s' => match r with
                 | Val o => submitted tr0 (accepted_of chunk o) (failed_of chunk o) s'
                 | Fault _ => submitted tr0 [] chunk s'
                 | Crashed => True
                 end) s) as Hw.
  { assert (forall s, submitted tr0 [] [] s -> wp (gateway_partial sink chunk)
      (fun r s' => match r with
                   | Val o => submitted tr0 (accepted_of chunk o) (failed_of chunk o) s'
                   | Fault _ => submitted tr0 [] chunk s'
                   | Crashed => True
                   end) s) as Hbare by (intros; by apply (wp_partial tr0 [] [])).
    unfold with_retry_write. destruct (retry_policy options) eqn:Hr; [|auto].
    destruct (write_batch_is_replay_safe sink); [|auto]. unfold with_retry. rewrite Hr.
    eapply (wp_run_with_policy _ _ _ _ (fun _ => submitted tr0 [] [])); [..|done].
    - intros _. apply submitted_stable.
    - intros e. apply (submitted_stable tr0 [] chunk).
    - intros _ s1 Hs1. eapply wp_mono; [by apply Hbare|]. intros [] s2 H2; try done.
      split; [done|]. intros _. eapply submitted_weaken; [done| |exact H2]. set_solver. }
  unfold write_chunk. apply wp_bind, wp_attempt. eapply wp_mono; [exact Hw|]. clear H0 Hw.
  intros [o|e|] s' Hs'; [|..|done].
  { destruct (Nat.eqb_spec (length o) (length chunk)); [by apply wp_ret|done]. }
  assert (accepted_of chunk ((fun _ => Err (Sink (display e))) <$> chunk) = [] /\
    failed_of chunk ((fun _ => Err (Sink (display e))) <$> chunk) = chunk) as [Ha Hf].
  { clear. induction chunk as [|x chunk [IH1 IH2]]; [done|].
    by rewrite fmap_cons, accepted_of_cons, failed_of_cons, IH1, IH2. }
  destruct e; try done; (destruct (dc_on_batch_error dlq); [done|]); apply wp_ret;
    rewrite Ha, Hf, length_fmap; done.
Qed.

Lemma sort_rows_spec l ts syn at_ chunk o a envs d :
  length o = length chunk ->
  (forall i x, chunk !! i = Some x -> l !! (at_ + i)%nat = Some x) ->
  sort_rows display redact sink options (now_ms ts) syn at_ chunk o = Ok (a, envs, d) ->
  0 <= a /\ 0 <= d /\ a + zlen envs + d = zlen chunk /\
  exists q, NoDup q /\ Forall (fun i => at_ <= i < at_ + length chunk)%nat q /\ Forall2 (env_for l) envs q.
Proof.
  revert at_ o a envs d. induction chunk as [|x chunk IH]; intros at_ [|r o] a envs d Ho Hl Hs; try done.
  { simplify_eq/=. split_and!; [lia|lia|done|]. exists []. repeat constructor. }
  assert (forall i y, chunk !! i = Some y -> l !! (S at_ + i)%nat = Some y) as Hl'.
  { intros i y Hy. replace (S at_ + i)%nat with (at_ + S i)%nat by lia. by apply Hl. }
  assert (forall q, Forall (fun i => S at_ <= i < S at_ + length chunk)%nat q ->
    Forall (fun i => at_ <= i < at_ + length (x :: chunk))%nat q) as Hq.
  { intros q Hq. eapply Forall_impl; [exact Hq|]. simpl. lia. }
  simpl in Hs, Ho. destruct r as [u|e]; [|destruct (terminal_action options)]; try done;
    (destruct (sort_rows _ _ _ _ _ _ (S at_) _ _) as [[[a' envs'] d']|] eqn:Hrec; [|done]);
    simplify_eq/=; apply IH in Hrec as (Ha & Hd & Hsum & q & Hnd & Hrange & Hfor); try done; try lia;
    rewrite ?zlen_cons; split_and!; try zlen_lia.
  - exists q. auto.
  - exists (at_ :: q). split_and!.
    + constructor; [|done]. intros Hin. rewrite Forall_forall in Hrange. apply Hrange in Hin. lia.
    + constructor; [simpl; lia|auto].
    + constructor; [|done]. unfold row_envelope, env_for. eexists _, x.
      rewrite unwrap_build_envelope by apply now_ms_range. split_and!; try done.
      replace at_ with (at_ + 0)%nat at 1 by lia. by apply Hl.
  - exists q. auto.
Qed.

(** Accepted rows are counted, failed ones enveloped or dropped. *)
Lemma sort_rows_places ts syn at_ chunk o a envs d :
  length o = length chunk ->
  sort_rows display redact sink options ts syn at_ chunk o = Ok (a, envs, d) ->
  a = zlen (accepted_of chunk o) /\
  exists lost, payloads envs ++ lost ≡ₚ failed_of chunk o /\ d = zlen lost /\
    (terminal_action options <> PoisonDrop -> lost = []).
Proof.
  revert at_ o a envs d. induction chunk as [|x chunk IH]; intros at_ [|r o] a envs d Ho Hs; try done.
  { simplify_eq/=. split; [done|]. by exists []. }
  simpl in Hs, Ho. rewrite accepted_of_cons, failed_of_cons.
  destruct r as [u|e]; [|destruct (terminal_action options) eqn:Ht]; try done;
    (destruct (sort_rows _ _ _ _ _ _ (S at_) _ _) as [[[a' envs'] d']|] eqn:Hrec; [|done]);
    simplify_eq/=; apply IH in Hrec as (-> & lost & Hl & -> & Hd); try lia; rewrite ?zlen_cons.
  - split; [lia|]. by exists lost.
  - split; [done|]. exists lost. split_and!; [|done|exact Hd]. rewrite <- Hl. done.
  - split; [done|]. exists (x :: lost). split_and!; [|rewrite zlen_cons; lia|done].
    by rewrite <- Permutation_middle, Hl.
Qed.

Lemma lookup_slice {A} (l : list A) a n i x : slice a n l !! i = Some x -> l !! (a + i)%nat = Some x.
Proof. unfold slice. intros H. apply lookup_take_Some in H as [H _]. by rewrite lookup_drop in H. Qed.

(** The totals of a page after one more chunk. *)
Lemma sorted_rows_chunk l acct n size p ts syn o a envs d c :
  is_u64 (zlen l) -> (n + size <= length l)%nat -> sorted_rows l acct n p ->
  length o = length (slice n size l) ->
  sort_rows display redact sink options (now_ms ts) syn n (slice n size l) o = Ok (a, envs, d) ->
  sorted_rows l acct (n + size)
    (MkDlqPage (dp_envelopes p ++ envs) (wadd64 (dp_success p) a)
       (add_dropped (add_failed (dp_account p) (zlen envs)) d) c).
Proof.
  intros Hl Hn (q & Hnd & Hlt & Hfor & Hs & Hd & Hf & Hsum & Hacc) Ho Hsort.
  apply (sort_rows_spec l) in Hsort as (Ha & Hd' & Hsum' & q' & Hnd' & Hr' & Hfor'); [|done|apply lookup_slice].
  unfold is_u64 in Hl. rewrite (length_slice n size l Hn) in Hr'.
  assert (zlen (slice n size l) = Z.of_nat size) as Hsz by (unfold zlen; by rewrite length_slice).
  pose proof (zlen_nonneg envs). pose proof (zlen_nonneg (dp_envelopes p)).
  assert (Z.of_nat n + Z.of_nat size <= U64_MAX) by (unfold zlen in Hl; lia).
  exists (q ++ q'). simpl. rewrite Forall_app, zlen_app. unwrap64. split_and!; try tauto; try lia.
  - apply NoDup_app. split_and!; [done| |done]. intros i Hi Hi'.
    rewrite Forall_forall in Hlt, Hr'. apply Hlt in Hi. apply Hr' in Hi'. lia.
  - eapply Forall_impl; [exact Hlt|]. simpl. lia.
  - eapply Forall_impl; [exact Hr'|]. simpl. lia.
  - by apply Forall2_app.
Qed.

Lemma placed_app done chunk evs evs' envs envs' lost lost' :
  placed options done evs envs lost -> placed options chunk evs' envs' lost' ->
  placed options (done ++ chunk) (evs ++ evs') (envs ++ envs') (lost ++ lost').
Proof.
  intros (H1 & H2 & H3) (H1' & H2' & H3'). unfold placed, payloads in *.
  rewrite omap_app, accepted_rows_app, refused_rows_app. split_and!.
  - rewrite <- H1, <- H1'. solve_Permutation.
  - set_solver.
  - intros Ht. by rewrite (H3 Ht), (H3' Ht).
Qed.

Lemma counted_app done chunk evs evs' p envs envs' lost lost' a d c :
  placed options done evs envs lost -> placed options chunk evs' envs' lost' ->
  is_u64 (zlen done + zlen chunk) ->
  a = zlen (accepted_rows evs') -> d = zlen lost' ->
  counted_rows evs lost p ->
  counted_rows (evs ++ evs') (lost ++ lost')
    (MkDlqPage (dp_envelopes p ++ envs') (wadd64 (dp_success p) a)
       (add_dropped (add_failed (dp_account p) (zlen envs')) d) c).
Proof.
  intros (H1 & _) (H2 & _) Hu -> -> [Hs Hd]. unfold counted_rows. simpl.
  rewrite Hs, Hd, accepted_rows_app, !zlen_app.
  apply Permutation_length in H1, H2. rewrite !length_app in H1, H2. unfold is_u64, zlen in *.
  unwrap64. split; lia.
Qed.

(** The rows of a page sorted so far, with the events since [tr0]. *)
Definition sorted_since (tr0 : list event) (l : list Value) (acct : PageAccount) (n : nat) (p : dlq_page)
    (s : st E) : Prop :=
  (is_u64 (zlen l) -> sorted_rows l acct n p) /\
  exists evs lost, trace s = tr0 ++ evs /\ Forall is_partial evs /\
    placed options (take n l) evs (dp_envelopes p) lost /\ (is_u64 (zlen l) -> counted_rows evs lost p).

(** One chunk moves its rows into the page's totals. *)
Lemma wp_dlq_chunk tr0 l acct n size p s :
  (n + size <= length l)%nat -> sorted_since tr0 l acct n p s ->
  wp (dlq_chunk display redact sink options dlq n (slice n size l) p)
    (fun r s' => match r with Val p' => sorted_since tr0 l acct (n + size) p' s' | _ => True end) s.
Proof.
  intros Hn [Hsorted (evs & lost & Htr & Hpart & Hplaced & Hcount)]. unfold dlq_chunk.
  apply wp_bind, wp_state_of, wp_bind. eapply wp_mono; [apply wp_write_chunk|].
  intros [[o syn]| |] s1; [|done..]. intros [Ho Hsub]. apply wp_bind; unfold wp at 1; simpl; apply wp_bind.
  eapply wp_mono; [by apply wp_poisoned|]. clear Hsub. intros [o'| |] s2; [|done..]. intros [Ho' Hsub].
  apply wp_bind, wp_state_of.
  destruct (sort_rows _ _ _ _ _ _ _ _ _) as [[[a envs] d]|e] eqn:Hsort; [|done].
  apply wp_bind, wp_modify, wp_ret. split; [intros Hl; eapply sorted_rows_chunk; eauto|].
  apply sort_rows_places in Hsort as (Ha & lost' & Hlost & Hd & Hdrop); [|done].
  destruct Hsub as (evs' & Ht' & Hp' & Hacc & Href).
  assert (placed options (slice n size l) evs' envs lost') as Hplaced'.
  { split_and!; [|intros x Hx; apply Href; by rewrite <- Hlost|done].
    rewrite Hlost, Hacc. by apply accepted_failed. }
  exists (evs ++ evs'), (lost ++ lost').
  replace (take (n + size) l) with (take n l ++ slice n size l)
    by (unfold slice; by rewrite take_take_drop).
  split_and!; [by rewrite app_assoc, <- Htr|by apply Forall_app|by apply placed_app|].
  intros Hl. eapply (counted_app (take n l) (slice n size l)); try done; [| |by apply Hcount].
  - unfold is_u64, zlen in *. rewrite length_take, length_slice by lia. lia.
  - rewrite Ha. unfold zlen. by rewrite Hacc.
Qed.

Lemma wp_dlq_chunks tr0 l acct fuel n p s :
  (n <= length l <= n + fuel)%nat -> sorted_since tr0 l acct n p s ->
  wp (dlq_chunks display redact sink options dlq fuel l n p)
    (fun r s' => match r with Val p' => sorted_since tr0 l acct (length l) p' s' | _ => True end) s.
Proof.
  revert n p s. induction fuel as [|fuel IH]; intros n p s Hn Hp; simpl.
  { apply wp_ret. by replace (length l) with n by lia. }
  destruct (Nat.ltb_spec n (length l)); [|apply wp_ret; by replace (length l) with n by lia].
  destruct (match adaptive_cfg options with Some cfg => _ | None => _ end) as [size c] eqn:Hsize.
  assert (1 <= size <= length l - n)%nat as Hb.
  { destruct (adaptive_cfg options); simplify_eq; [unfold chunk_size|]; lia. }
  apply wp_bind. eapply wp_mono; [apply (wp_dlq_chunk tr0 l acct); [lia|exact Hp]|].
  intros [p'| |] s' Hp'; [|done..]. apply IH; [lia|done].
Qed.

(** A whole page. *)
Lemma wp_dlq_page governed acct c s :
  pa_failed acct = 0 -> pa_dropped acct = 0 ->
  wp (dlq_chunks display redact sink options dlq (length governed) governed 0 (MkDlqPage [] 0 acct c))
    (fun r s' => match r with
                 | Val p => (is_u64 (zlen governed) -> sorted_rows governed acct (length governed) p) /\
                     exists evs lost, trace s' = trace s ++ evs /\ Forall is_partial evs /\
                       placed options governed evs (dp_envelopes p) lost /\
                       (is_u64 (zlen governed) -> counted_rows evs lost p)
                 | _ => True
                 end) s.
Proof.
  intros Hf Hd. eapply wp_mono; [apply (wp_dlq_chunks (trace s) governed acct); [lia|]|].
  - split.
    + intros Hu. exists []. simpl. rewrite Hf, Hd. split_and!; try done; try lia; by constructor.
    + exists [], []. rewrite app_nil_r. by split_and!.
  - intros [p| |] s'; [|done..]. unfold sorted_since. by rewrite firstn_all.
Qed.

(** C4: the dead-letter path accounts for every row. When the chunks of a page
    of governed rows have been processed, however the sink answered, however the
    controller sized the chunks and whatever the retry and poison policies did:
    the rows the sink's own answers accepted, the payloads of the envelopes and
    the rows the poison policy dropped are together the governed rows, each
    once; every enveloped or dropped row is one the sink refused, and only the
    drop action drops any; each envelope names the position of its row; the
    page's account counts exactly these rows, and settling it succeeds with
    nothing missing. *)
Theorem dlq_page_accounts_every_row governed acct c s p s' counters :
  is_u64 (zlen governed + pa_quarantined acct) -> fresh_account acct (length governed) ->
  dlq_chunks display redact sink options dlq (length governed) governed 0 (MkDlqPage [] 0 acct c) s
  = (Val p, s') ->
  (exists evs lost, trace s' = trace s ++ evs /\ placed options governed evs (dp_envelopes p) lost /\
     counted_rows evs lost p) /\
  sorted_rows governed acct (length governed) p /\
  (settle (add_accepted (dp_account p) (dp_success p)) counters).2 = Ok tt /\
  named (add_accepted (dp_account p) (dp_success p)) = pa_offered acct.
Proof.
  intros Hu (Ha & Hco & Hsk & Hf & Hd & Hq & Hof) Hrun. unfold is_u64 in Hu.
  pose proof (zlen_nonneg governed) as Hnn.
  assert (is_u64 (zlen governed)) as Hug by (unfold is_u64; lia).
  pose proof (wp_dlq_page governed acct c s Hf Hd) as Hw.
  unfold wp in Hw. rewrite Hrun in Hw. simpl in Hw. destruct Hw as [Hs (evs & lost & Ht & _ & Hp & Hc)].
  specialize (Hs Hug). specialize (Hc Hug). split; [by exists evs, lost|]. split; [done|].
  destruct Hs as (q & _ & _ & _ & Hs0 & Hd0 & Hf' & Hsum & Hoff & Hac & Hco' & Hsk' & Hqu).
  pose proof (zlen_nonneg (dp_envelopes p)).
  assert (named (add_accepted (dp_account p) (dp_success p)) = pa_offered acct) as Hnamed.
  { unfold named. simpl. rewrite Hac, Hco', Hsk', Hqu, Hf', Ha, Hco, Hsk. unfold zlen in *. unwrap64. lia. }
  split; [|done]. apply settle_ok_iff; [|rewrite Hnamed; simpl].
  - unfold account_wf. rewrite Hnamed. simpl. rewrite Hac, Hco', Hsk', Hqu, Hf', Ha, Hco, Hsk.
    unfold zlen in *. unwrap64. split_and!; lia.
  - rewrite Hoff. lia.
Qed.

End DlqRows.

(** A sink that refuses one row of three, and a dead-letter sink behind it. *)
Definition picky_sink : SinkOps mem :=
  mem_sink false false false (fun r => if decide (r = VString "bad") then Err (Sink "no") else Ok tt).
Definition demo_dlq : DlqConfig mem := MkDlqConfig mem_dead Propagate None None.
Definition dlq_options : RunStreamOptions mem :=
  MkOptions (Some mem_store) (Some "orders") None None (Some demo_dlq) None None None None None None AtLeastOnce
    0 None None false.

Lemma dlq_page_accounts_every_row_witness :
  exists p s', dlq_chunks (fun _ => EmptyString) id picky_sink dlq_options demo_dlq 3
      [VString "a"; VString "bad"; VString "c"] 0 (MkDlqPage [] 0 (PageAccount_new 3) None) (start (mem0 []))
    = (Val p, s') /\ dp_success p = 2 /\
    (exists evs lost, trace s' = [] ++ evs /\
       placed dlq_options [VString "a"; VString "bad"; VString "c"] evs (dp_envelopes p) lost /\
       counted_rows evs lost p) /\
    sorted_rows [VString "a"; VString "bad"; VString "c"] (PageAccount_new 3) 3 p /\
    (settle (add_accepted (dp_account p) (dp_success p)) None).2 = Ok tt /\
    named (add_accepted (dp_account p) (dp_success p)) = 3.
Proof.
  eexists _, _. split; [vm_compute; reflexivity|]. split; [reflexivity|].
  eapply (dlq_page_accounts_every_row (fun _ => EmptyString) id picky_sink dlq_options demo_dlq
    [VString "a"; VString "bad"; VString "c"] (PageAccount_new 3) None (start (mem0 [])) _ _ None).
  - unfold is_u64, U64_MAX. vm_compute. split; congruence.
  - unfold fresh_account. simpl. split_and!; lia.
  - vm_compute. reflexivity.
Defined.
