(* ===== verification/Coverage.v ===== *)
(** Which rows a checkpoint covers: a second monitor of the trace, the ledger.

    Every row governance lets through is owed from the moment it is governed
    (with a dead-letter sink, so is the payload of every governance envelope).
    It is struck off when the main sink acknowledges it, row by row for a partial
    write, or when the dead-letter sink acknowledges the envelope that carries
    it. [rows_covered] checks every state write of a trace against the ledger. *)
From S2P Require Import Prelude Errors Json Text Accounting StateKey Idempotency Dlq Drift Adaptive.
From S2P Require Import Quality Contract Engine Memory Governance Resilience Hoare RunStream RunRules.
From S2P Require Import Checkpoint DlqRows.

Local Open Scope Z_scope.

(** The rows owed, those the main sink refused at some time, the highest
    sequence number the sink reported as committed, and whether every state
    write so far was covered. *)
Record ledger := MkLedger {
  lg_owed : list Value;
  lg_refused : list Value;
  lg_token : Z;
  lg_ok : bool;
}.
Definition ledger0 : ledger := MkLedger [] [] 0 true.

(** Strike rows off, one occurrence each. *)
Fixpoint take_out (x : Value) (l : list Value) : list Value :=
  match l with
  | [] => []
  | y :: l => if decide (x = y) then l else y :: take_out x l
  end.
Definition strike (rows owed : list Value) : list Value :=
  fold_left (fun o x => take_out x o) rows owed.
Definition struck (x : ledger) (rows : list Value) : ledger :=
  MkLedger (strike rows (lg_owed x)) (lg_refused x) (lg_token x) (lg_ok x).
Definition refuse (x : ledger) (rows : list Value) : ledger :=
  MkLedger (lg_owed x) (lg_refused x ++ rows) (lg_token x) (lg_ok x).

(** The sequence number of a watermark envelope. *)
Definition seq_of (v : Value) : Z := default 0 (get v EO_SEQ ≫= as_u64).

(** The page of this state write was committed by the sink before: the sink
    reported its sequence number, or a higher one. *)
Definition already_committed (mode : run_mode) (x : ledger) (v : Value) : bool :=
  match mode with WatermarkMode => seq_of v <=? lg_token x | _ => false end.

(** Nothing is owed; where the poison policy drops rows, nothing but rows the
    sink refused. *)
Definition settled (drops : bool) (x : ledger) : Prop :=
  if drops then lg_owed x ⊆ lg_refused x else lg_owed x = [].
#[global] Instance settled_decision drops x : Decision (settled drops x).
Proof. unfold settled. destruct drops; apply _. Defined.

Definition lstep (mode : run_mode) (drops : bool) (x : ledger) (e : event) : ledger :=
  match e with
  | EGoverned r envs =>
      MkLedger (lg_owed x ++ r ++ match mode with DlqMode => payloads envs | _ => [] end)
        (lg_refused x) (lg_token x) (lg_ok x)
  | EWrite Main rows (Ok _) | EIdempotent rows _ _ (Ok _) => struck x rows
  | EPartial rows r => refuse (struck x (accepted_in e)) (refused_in e)
  | EWrite Dead envs (Ok r) =>
      if zlen envs <=? sadd64 (wr_accepted r) (wr_coalesced r) then struck x (payloads envs) else x
  | EToken _ (Ok t) =>
      MkLedger (lg_owed x) (lg_refused x) (Z.max (lg_token x) (default 0 (t ≫= parse_token))) (lg_ok x)
  | EPut _ v _ =>
      MkLedger (if already_committed mode x v then [] else lg_owed x) (lg_refused x) (lg_token x)
        (lg_ok x && (already_committed mode x v || bool_decide (settled drops x)))
  | _ => x
  end.

(** May this run's poison policy drop rows? *)
Definition drops_rows {E} (options : RunStreamOptions E) : bool :=
  match ro_dlq options, terminal_action options with Some _, PoisonDrop => true | _, _ => false end.

Definition rows_covered (mode : run_mode) (drops : bool) (tr : list event) : bool :=
  lg_ok (mon_of (lstep mode drops) ledger0 tr).

(** Ledger states of interest: what is owed, up to order. *)
Definition lgood (x : ledger) : Prop := lg_ok x = true.
Definition owes (ow rf : list Value) (tk : Z) (x : ledger) : Prop :=
  lg_ok x = true /\ lg_owed x ≡ₚ ow /\ rf ⊆ lg_refused x /\ tk <= lg_token x.
Definition at_rest (drops : bool) (tk : Z) (x : ledger) : Prop :=
  lg_ok x = true /\ settled drops x /\ tk <= lg_token x.

(** ** Facts *)

Lemma take_out_perm x l : x ∈ l -> l ≡ₚ x :: take_out x l.
Proof.
  induction l as [|y l IH]; intros H; simpl; [by apply elem_of_nil in H|].
  destruct (decide (x = y)) as [-> |Hne]; [done|].
  apply elem_of_cons in H as [?|H]; [done|]. rewrite (IH H) at 1. apply Permutation_swap.
Qed.

Lemma strike_perm rows rest owed : owed ≡ₚ rows ++ rest -> strike rows owed ≡ₚ rest.
Proof.
  revert owed. induction rows as [|x rows IH]; intros owed H; simpl in *; [done|].
  apply IH, (Permutation_cons_inv (a := x)). rewrite <- H. symmetry. apply take_out_perm.
  rewrite H. apply elem_of_cons. by left.
Qed.

Lemma strike_app a b owed : strike (a ++ b) owed = strike b (strike a owed).
Proof. apply fold_left_app. Qed.

Lemma owes_good ow rf tk x : owes ow rf tk x -> lgood x.
Proof. by intros (? & _). Qed.
Lemma at_rest_good drops tk x : at_rest drops tk x -> lgood x.
Proof. by intros (? & _). Qed.
#[local] Hint Resolve owes_good at_rest_good : faucet.

Lemma owes_struck rows rest rf tk x : owes (rows ++ rest) rf tk x -> owes rest rf tk (struck x rows).
Proof. intros (? & ? & ? & ?). split_and!; try done. by apply strike_perm. Qed.

Lemma owes_perm ow ow' rf tk x : ow ≡ₚ ow' -> owes ow rf tk x -> owes ow' rf tk x.
Proof. intros H (? & ? & ? & ?). split_and!; try done. by rewrite <- H. Qed.

#[local] Instance lstep_ignores mode drops : Ignores (lstep mode drops).
Proof. by intros x []. Qed.

(** Only a state write can spoil a ledger. *)
Definition no_put (e : event) : Prop := match e with EPut _ _ _ => False | _ => True end.
Lemma lstep_good mode drops x e : no_put e -> lgood x -> lgood (lstep mode drops x e).
Proof. intros He Hx. unfold lgood in *. destruct e as [| |[] ? []| | |? ? ? []|? []| | | | | | | | | | | |]; simpl; try done; by case_match. Qed.

(** Partial writes strike off what the sink accepted and note what it refused. *)
Lemma lstep_partials mode drops evs x :
  Forall is_partial evs ->
  fold_left (lstep mode drops) evs x =
  MkLedger (strike (accepted_rows evs) (lg_owed x)) (lg_refused x ++ refused_rows evs) (lg_token x) (lg_ok x).
Proof.
  intros H. revert x. induction H as [|e evs He H IH]; intros x; simpl.
  { rewrite app_nil_r. by destruct x. }
  rewrite IH. destruct e; try done. simpl. by rewrite strike_app, app_assoc.
Qed.

Section CoverageFacts.
Context {E : Type}.
Context (display : FaucetError -> string) (redact : string -> string) (to_json : Value -> string).
Context (sink : SinkOps E) (options : RunStreamOptions E).
Context (mode : run_mode) (drops : bool).

Notation hoare := (hoare (E := E) (mon (lstep mode drops) ledger0) lgood).
Notation fail := (fun (_ : FaucetError) => lgood).

(** A call that is not a state write, from any good state. *)
Lemma hoare_harmless {A} (m : M E A) : emits no_put m -> hoare lgood m (fun _ => lgood) fail.
Proof. intros H. apply (emits_hoare no_put); [done| |done]. intros. by apply lstep_good. Qed.

(** A flush leaves the ledger alone. *)
Lemma hoare_flush (P : ledger -> Prop) t (snk : SinkOps E) :
  (forall x, P x -> lgood x) ->
  hoare P (with_retry options (fun _ => call (flush snk) (EFlush t))) (fun _ => P) fail.
Proof.
  intros Hg. apply hoare_with_retry. intros _. apply hoare_call; [done|].
  intros x [] Hx; simpl; auto.
Qed.

(** A state write of a covered value. *)
Lemma hoare_covered_put v tk :
  hoare (fun x => at_rest drops tk x \/ (lgood x /\ tk <= lg_token x /\ already_committed mode x v = true /\
                    ro_state_store options <> None /\ ro_state_key options <> None))
    (put_state options v) (fun _ => at_rest drops tk) fail.
Proof.
  unfold put_state.
  destruct (ro_state_store options) as [store|]; [|apply hoare_ret; by intros x [?|(_ & _ & _ & [] & _)]].
  destruct (ro_state_key options) as [key|]; [|apply hoare_ret; by intros x [?|(_ & _ & _ & _ & [])]].
  eapply hoare_pre with (P := fun x => lgood x /\ tk <= lg_token x /\ (settled drops x \/ already_committed mode x v = true));
    [|intros x [(?&?&?)|(?&?&?&_)]; auto].
  apply hoare_with_retry. intros _. apply hoare_call; [by intros x (? & _)|].
  intros x r (Hx & Ht & Hs). unfold lgood in *. simpl.
  assert (at_rest drops tk (lstep mode drops x (EPut key v r))) as Hrest.
  { unfold at_rest. simpl. rewrite Hx. destruct (already_committed mode x v) eqn:Ha; simpl.
    - split_and!; [done| |done]. unfold settled. simpl. destruct drops; [apply list_subseteq_nil|done].
    - destruct Hs as [Hs|]; [|done]. by rewrite bool_decide_eq_true_2. }
  simpl in Hrest. destruct Hrest as (H1 & H2 & H3). split; [done|]. destruct r; [done|].
  split; [done|]. split_and!; [done..|]. by left.
Qed.

(** ** The plain path *)

Lemma hoare_write_rows chunk rest rf tk :
  hoare (owes (chunk ++ rest) rf tk) (with_retry_write sink options (gateway_reported sink chunk))
    (fun _ => owes rest rf tk) fail.
Proof.
  apply hoare_with_retry_write, hoare_call; [eauto with faucet|].
  intros x [r|e] Hx; simpl.
  - apply owes_struck in Hx. split; [by eapply owes_good|done].
  - split; [by eapply owes_good|]. split; [by eapply owes_good|done].
Qed.

Lemma hoare_plain_chunk_rows governed rf tk fuel i a acc w :
  (length governed <= i + fuel)%nat ->
  hoare (owes (drop i governed) rf tk)
    (plain_chunks sink options fuel governed i a acc w) (fun _ => owes [] rf tk) fail.
Proof.
  revert i a acc w. induction fuel as [|fuel IH]; intros i a acc w Hf; simpl.
  { apply hoare_ret. intros x. by rewrite drop_ge by lia. }
  destruct (Nat.ltb_spec i (length governed)) as [Hi|Hi].
  2: { apply hoare_ret. intros x. by rewrite drop_ge by lia. }
  pose proof (chunk_size_bounds a (length governed - i) ltac:(lia)) as Hc.
  set (size := chunk_size a _) in *. rewrite (drop_slice governed i size).
  eapply hoare_bind; [apply hoare_still; [apply quiet_state_of|eauto with faucet]|]. intros s0.
  eapply hoare_bind; [apply hoare_observe_write, hoare_write_rows|]. intros report.
  eapply hoare_bind; [apply hoare_still; [done|eauto with faucet]|]. intros lat. apply IH. lia.
Qed.

Lemma hoare_plain_rows governed rf tk acc l :
  hoare (owes governed rf tk) (plain_write sink options governed acc l) (fun _ => owes [] rf tk) fail.
Proof.
  unfold plain_write. destruct governed as [|v vs]; [by apply hoare_ret|].
  set (governed := v :: vs). destruct (adaptive_cfg options) as [cfg|].
  - eapply hoare_bind; [apply hoare_admit; [apply _|eauto with faucet]|]. intros ?.
    eapply hoare_bind; [apply (hoare_plain_chunk_rows governed rf tk _ 0); lia|].
    intros [[? ?] ?]. by apply hoare_ret.
  - pose proof (hoare_write_rows governed [] rf tk) as H. rewrite app_nil_r in H.
    eapply hoare_bind; [apply hoare_observe_write, H|intros r; by apply hoare_ret].
Qed.

Lemma owes_nil_at_rest rf tk x : owes [] rf tk x -> at_rest drops tk x.
Proof.
  intros (? & H & ? & ?). apply Permutation_nil_r in H. split_and!; [done| |done].
  unfold settled. rewrite H. destruct drops; [apply list_subseteq_nil|done].
Qed.

Lemma hoare_plain_covered governed rf tk acc b l :
  hoare (owes governed rf tk) (plain_path sink options governed acc b l) (fun _ => at_rest drops tk) fail.
Proof.
  unfold plain_path. eapply hoare_bind; [apply hoare_plain_rows|]. intros [[c acc'] w].
  eapply hoare_bind; [apply hoare_settle; eauto with faucet|]. intros ?.
  destruct b as [b|]; [|apply hoare_ret; intros x; apply owes_nil_at_rest].
  destruct (defer_bookmarks sink).
  - do 2 apply hoare_bind_ret. apply hoare_ret. intros x; apply owes_nil_at_rest.
  - eapply hoare_bind; [apply hoare_flush; eauto with faucet|]. intros ?.
    eapply hoare_bind with (Q := fun _ => at_rest drops tk); [|intros ?; by apply hoare_ret].
    eapply hoare_pre; [apply hoare_covered_put|]. intros x Hx. left. by eapply owes_nil_at_rest.
Qed.

(** ** The exactly-once path *)

Lemma hoare_eo_rows page rf tk token seq n :
  hoare (owes page rf tk) (eo_write_once sink options page token seq n)
    (fun _ x => owes [] rf tk x \/ (lgood x /\ tk <= lg_token x /\ seq <= lg_token x))
    (fun _ x => lgood x /\ owes page rf tk x).
Proof.
  unfold eo_write_once.
  assert (forall tk', tk <= tk' -> hoare (owes page rf tk') (gateway_idempotent sink page (scope options) token)
    (fun _ x => owes [] rf tk x \/ (lgood x /\ tk <= lg_token x /\ seq <= lg_token x))
    (fun _ x => lgood x /\ owes page rf tk x)) as Hw.
  { intros tk' Htk. apply hoare_call; [eauto with faucet|]. intros x [r|e] (Hx & Ho & Hr & Ht); simpl.
    - split; [done|]. left. apply owes_struck. rewrite app_nil_r. split_and!; try done. lia.
    - split; [done|]. split; [done|]. split_and!; try done. lia. }
  eapply hoare_bind with (Q := fun t => owes page rf (match t ≫= parse_token with Some c => Z.max tk c | None => tk end)).
  - destruct n; [by apply hoare_ret|]. apply hoare_call; [eauto with faucet|].
    intros x [t|e] (?&?&?&?); simpl; [|split; [done|]; split; [done|]; by split_and!].
    split; [done|]. split_and!; try done. simpl. destruct (t ≫= parse_token); simpl; lia.
  - intros c. destruct (c ≫= parse_token) as [c'|]; simpl; [|apply Hw; lia].
    destruct (Z.leb_spec seq c'); [|apply Hw; lia].
    apply hoare_ret. intros x (?&?&?&?). right. split_and!; [done|lia|lia].
Qed.

Lemma hoare_eo_covered committed governed rf acc b l :
  mode = WatermarkMode -> ro_state_store options <> None -> ro_state_key options <> None ->
  hoare (owes governed rf committed) (eo_path to_json sink options committed governed acc b l)
    (fun _ => at_rest drops committed) fail.
Proof.
  intros Hm Hst Hk. unfold eo_path. destruct b as [b|].
  - unfold eo_bookmarked. set (seq := wadd64 (next_seq l) 1).
    set (ready := fun x => at_rest drops committed x \/ (lgood x /\ committed <= lg_token x /\ seq <= lg_token x)).
    assert (forall x, ready x -> lgood x) as Hg by (intros x [Hx|(Hx & _)]; eauto with faucet).
    eapply hoare_bind with (Q := fun _ => ready).
    { destruct (Z.leb_spec seq committed).
      - apply hoare_ret. intros x (?&?&?&?). right. split_and!; [done|lia|lia].
      - eapply hoare_bind with (Q := fun _ => ready); [|intros r; by apply hoare_ret].
        apply hoare_observe_write, hoare_with_retry. intros n.
        eapply hoare_conseq; [apply hoare_eo_rows|done| |done].
        intros r x [Hx|Hx]; [left; by eapply owes_nil_at_rest|by right]. }
    intros [w acc']. eapply hoare_bind; [by apply hoare_settle|]. intros ?.
    eapply hoare_bind; [by apply hoare_flush|]. intros ?.
    eapply hoare_bind with (Q := fun _ => at_rest drops committed); [|intros ?; by apply hoare_ret].
    eapply hoare_pre; [apply hoare_covered_put|]. intros x [?|(?&?&?)]; [by left|right].
    split_and!; try done. rewrite Hm. apply Z.leb_le. done.
  - destruct governed as [|v vs]; [apply hoare_ret; intros x; apply owes_nil_at_rest|].
    eapply hoare_bind with (Q := fun _ => owes [] rf committed).
    { pose proof (hoare_write_rows (v :: vs) [] rf committed) as H. rewrite app_nil_r in H.
      by apply hoare_observe_write. }
    intros r. eapply hoare_bind; [apply hoare_settle; eauto with faucet|]. intros ?.
    apply hoare_ret. intros x; apply owes_nil_at_rest.
Qed.

(** ** The dead-letter path *)

Lemma emits_chunks dlq fuel governed i p :
  emits is_partial (dlq_chunks display redact sink options dlq fuel governed i p).
Proof.
  assert (forall chunk, emits is_partial (gateway_partial sink chunk)) as Hg
    by (intros; by apply emits_call).
  assert (forall o, emits is_partial (record_batch (E := E) o)) as Hb by (intros; by apply emits_none).
  assert (forall chunk, emits is_partial (write_chunk display sink options dlq chunk)) as Hw.
  { intros chunk. unfold write_chunk, with_retry_write, with_retry. emits_auto; auto. }
  assert (forall n chunk o, emits is_partial (poison_retry sink options n chunk o)) as Hp.
  { induction n as [|n IH]; intros chunk o; simpl; emits_auto; auto. }
  revert i p. induction fuel as [|fuel IH]; intros i p; simpl; [apply emits_ret|].
  unfold dlq_chunk, poisoned. emits_auto; auto; by apply emits_none.
Qed.

(** A page's chunks strike off what the sink accepted: what is left are the
    payloads of the envelopes and the rows dropped. *)
Lemma hoare_chunk_rows dlq governed base rf tk acct c :
  pa_failed acct = 0 -> pa_dropped acct = 0 ->
  hoare (owes (governed ++ base) rf tk)
    (dlq_chunks display redact sink options dlq (length governed) governed 0 (MkDlqPage [] 0 acct c))
    (fun p x => exists lost, (terminal_action options <> PoisonDrop -> lost = []) /\
       owes (payloads (dp_envelopes p) ++ lost ++ base) (rf ++ lost) tk x) fail.
Proof.
  intros Hf Hd s (Hok & How & Hrf & Htk).
  eapply wp_mono; [apply wp_and; [apply (wp_dlq_page display redact sink options dlq governed acct c s Hf Hd)|]|].
  { destruct (emits_chunks dlq (length governed) governed 0 (MkDlqPage [] 0 acct c) s) as (evs & Ht & Hp).
    instantiate (1 := fun _ s' => lgood (mon (lstep mode drops) ledger0 s')).
    unfold wp, mon, mon_of. rewrite Ht, fold_left_app, lstep_partials by done. exact Hok. }
  intros [p|e|] s' [H Hg]; [|done..]. destruct H as [_ (evs & lost & Ht & Hp & (H1 & H2 & H3) & _)].
  exists lost. split; [done|]. unfold mon, mon_of. rewrite Ht, fold_left_app, lstep_partials by done.
  split_and!; simpl; [exact Hok| | |exact Htk].
  - apply strike_perm. etransitivity; [exact How|]. rewrite <- H1. solve_Permutation.
  - intros x Hx. apply elem_of_app in Hx as [Hx|Hx]; apply elem_of_app; [left; by apply Hrf|right].
    apply H2, elem_of_app. by right.
Qed.

(** Acknowledged envelopes strike off their payloads. *)
Lemma hoare_write_payloads dlq envs ow rf tk stats :
  hoare (owes (payloads envs ++ ow) rf tk) (write_envelopes display options dlq envs stats)
    (fun _ => owes ow rf tk) fail.
Proof.
  unfold write_envelopes. destruct envs as [|e es]; [by apply hoare_ret|]. set (envs := e :: es).
  eapply hoare_bind with (Q := fun _ => owes ow rf tk); [apply hoare_map_err|intros ?; by apply hoare_ret].
  assert (hoare (owes (payloads envs ++ ow) rf tk) (gateway_dlq (dc_sink dlq) envs)
    (fun _ => owes ow rf tk) (fun _ x => lgood x /\ owes (payloads envs ++ ow) rf tk x)) as Hw.
  { unfold gateway_dlq.
    eapply hoare_bind with (Q := fun r => if sadd64 (wr_accepted r) (wr_coalesced r) <? zlen envs
      then owes (payloads envs ++ ow) rf tk else owes ow rf tk).
    - apply hoare_call; [eauto with faucet|]. intros x [r|err] Hx; cbn [lstep];
        [|split; [by eapply owes_good|]; split; [by eapply owes_good|done]].
      rewrite Z.leb_antisym. destruct (_ <? _); simpl; [split; [by eapply owes_good|done]|].
      apply owes_struck in Hx. split; [by eapply owes_good|done].
    - intros r. case_match; [apply hoare_throw|by apply hoare_ret].
      intros x Hx. split; [by eapply owes_good|done]. }
  repeat case_match; try (eapply hoare_conseq; [exact Hw|done|done|by intros ? ? [? ?]]).
  by apply hoare_with_retry.
Qed.

Lemma hoare_dlq_checkpoint_covered dlq b tk l :
  hoare (at_rest drops tk) (dlq_checkpoint display sink options dlq b l) (fun _ => at_rest drops tk) fail.
Proof.
  unfold dlq_checkpoint. destruct b as [b|]; [|by apply hoare_ret].
  assert (hoare (at_rest drops tk) (map_err (fun e => Sink ("DLQ sink flush failed: " +:+ display e))
      (with_retry options (fun _ => call (flush (dc_sink dlq)) (EFlush Dead))))
    (fun _ => at_rest drops tk) fail) as Hf by (apply hoare_map_err, hoare_flush; eauto with faucet).
  destruct (defer_bookmarks sink).
  - apply hoare_bind_ret. eapply hoare_bind; [exact Hf|]. intros ?. apply hoare_bind_ret. by apply hoare_ret.
  - eapply hoare_bind; [apply hoare_flush; eauto with faucet|]. intros ?.
    eapply hoare_bind; [exact Hf|]. intros ?.
    eapply hoare_bind with (Q := fun _ => at_rest drops tk); [|intros ?; by apply hoare_ret].
    eapply hoare_pre; [apply hoare_covered_put|]. by left.
Qed.

(** What is left owed between pages. *)
Context (Hdrops : drops = drops_rows options).
Definition leftover (ow rf : list Value) : Prop := if drops then ow ⊆ rf else ow = [].

Lemma at_rest_owes ow rf tk x : leftover ow rf -> owes ow rf tk x -> at_rest drops tk x.
Proof.
  intros Hl (Hx & Ho & Hr & Ht). split_and!; [done| |done]. unfold leftover, settled in *.
  destruct drops; [|subst; by apply Permutation_nil_r in Ho].
  intros y Hy. rewrite Ho in Hy. by apply Hr, Hl.
Qed.

Lemma hoare_dlq_covered dlq governed envs ow rf tk acc b l :
  ro_dlq options = Some dlq -> pa_failed acc = 0 -> pa_dropped acc = 0 -> leftover ow rf ->
  hoare (owes (governed ++ payloads envs ++ ow) rf tk)
    (dlq_path display redact sink options dlq governed envs acc b l) (fun _ => at_rest drops tk) fail.
Proof.
  intros Hdlq Hf Hd Hl. unfold dlq_path.
  eapply hoare_bind with (Q := fun _ => owes (governed ++ payloads envs ++ ow) rf tk).
  { repeat case_match; try (by apply hoare_ret). apply hoare_admit; [apply _|eauto with faucet]. }
  intros ?. eapply hoare_bind; [by apply hoare_chunk_rows|]. intros p.
  destruct (breaker_after _ _ _) as [br ce]. apply hoare_ex. intros lost. apply hoare_pure. intros Hlost.
  assert (leftover (lost ++ ow) (rf ++ lost)) as Hl'.
  { unfold leftover in *. rewrite Hdrops in *. unfold drops_rows in *. rewrite Hdlq in *.
    destruct (terminal_action options) eqn:Ht; try (by rewrite Hlost, Hl).
    intros x Hx. apply elem_of_app in Hx as [?|?]; apply elem_of_app; [by right|left; by apply Hl]. }
  eapply hoare_bind with (Q := fun _ => owes (lost ++ ow) (rf ++ lost) tk).
  { eapply hoare_pre; [apply hoare_write_payloads|]. intros x. apply owes_perm.
    unfold payloads. rewrite omap_app. solve_Permutation. }
  intros stats. eapply hoare_bind; [apply hoare_settle; eauto with faucet|]. intros ?.
  eapply hoare_bind with (Q := fun _ => at_rest drops tk).
  { eapply hoare_pre; [apply hoare_dlq_checkpoint_covered|]. intros x. by apply at_rest_owes. }
  intros l'. repeat case_match; try (by apply hoare_ret); apply hoare_throw; eauto with faucet.
Qed.

(** ** The loop *)

Context (exactly_once : bool).
Context (Hmode : mode = match ro_dlq options with
                        | Some _ => DlqMode
                        | None => if exactly_once then WatermarkMode else PlainMode
                        end).
Context (Hstore : exactly_once = true -> ro_state_store options <> None /\ ro_state_key options <> None).

Lemma hoare_process_covered committed page l :
  hoare (at_rest drops committed)
    (process_page display redact to_json sink options exactly_once committed page l)
    (fun _ => at_rest drops committed) fail.
Proof.
  unfold process_page.
  eapply hoare_bind with (Q := fun _ => at_rest drops committed); [by apply hoare_log|].
  intros ?. eapply hoare_bind; [apply hoare_governance; [apply _|eauto with faucet]|]. intros [gov cache].
  eapply hoare_bind with (Q := fun _ x => exists ow rf, leftover ow rf /\
    owes (go_records gov ++ (match mode with DlqMode => payloads (go_envelopes gov) | _ => [] end) ++ ow) rf committed x).
  { apply hoare_log. intros x (Hx & Hs & Ht). exists (lg_owed x), (lg_refused x). split; [exact Hs|].
    split_and!; [done| |done|done]. simpl. solve_Permutation. }
  intros ?. apply hoare_ex. intros ow. apply hoare_ex. intros rf. apply hoare_pure. intros Hl.
  destruct (go_deferred_abort gov) as [e|].
  - eapply hoare_pre with (P := lgood); [|eauto with faucet].
    eapply hoare_bind with (Q := fun _ => lgood); [|intros ?; by apply hoare_throw].
    apply hoare_harmless. unfold abort_with_envelopes, gateway_dlq, flush_dlq. emits_auto.
  - destruct (ro_dlq options) as [dlq|] eqn:Hdlq; [eapply hoare_pre; [by apply hoare_dlq_covered|]; intros x; by rewrite Hmode|].
    assert (ow = []) as ->.
    { unfold leftover in Hl. rewrite Hdrops in Hl. unfold drops_rows in Hl. by rewrite Hdlq in Hl. }
    destruct exactly_once.
    + destruct (Hstore eq_refl). eapply hoare_pre; [by apply hoare_eo_covered|].
      intros x. rewrite Hmode. simpl. by rewrite app_nil_r.
    + eapply hoare_pre; [apply hoare_plain_covered|]. intros x. rewrite Hmode. simpl. by rewrite app_nil_r.
Qed.

Lemma hoare_run_covered pages eos :
  hoare (fun x => at_rest drops 0 x)
    (run_loop display redact to_json sink options exactly_once pages eos) (fun _ => lgood) fail.
Proof.
  unfold run_loop.
  eapply hoare_bind with (Q := at_rest drops).
  { destruct exactly_once; [|by apply hoare_ret].
    eapply hoare_bind with (Q := fun t => at_rest drops (default 0 (t ≫= parse_token))); [|intros t; by apply hoare_ret].
    apply hoare_call; [eauto with faucet|]. intros x [t|e] (?&?&?); simpl; [|done].
    split; [done|]. split_and!; [done..|]. simpl. lia. }
  intros committed. eapply hoare_bind with (Q := fun _ => at_rest drops committed).
  { destruct (adaptive_cfg options) as [cfg|]; [|by apply hoare_ret]. apply hoare_lift.
    intros x Hx. destruct (validate cfg); eauto with faucet. }
  intros ?. eapply hoare_bind with (Q := fun _ => lgood).
  { apply hoare_attempt. eapply hoare_conseq; [apply hoare_page_loop with (I := at_rest drops committed); [eauto with faucet|intros; apply hoare_process_covered]|done| |done]. intros a1 x Hx. exact (at_rest_good _ _ _ Hx). }
  assert (emits no_put (flush_main sink)) as Hf by (by apply emits_call).
  intros [[l c]|e]; apply hoare_harmless; [unfold finish, flush_dlq|unfold unwind]; emits_auto; auto.
Qed.

End CoverageFacts.

(** A whole run keeps its ledger good. *)
Lemma run_covered {E} display redact to_json debug_char
  (sink : SinkOps E) options pages eos e t c j a o :
  rows_covered (mode_of sink options) (drops_rows options)
    (trace (run_stream_with display redact to_json debug_char sink options pages eos
              (MkSt e t c j a o [])).2) = true.
Proof.
  set (mode := mode_of sink options). set (drops := drops_rows options).
  assert (hoare (mon (lstep mode drops) ledger0) lgood (at_rest drops 0)
    (run_stream_with display redact to_json debug_char sink options pages eos)
    (fun _ => lgood) (fun _ => lgood)) as H.
  { unfold run_stream_with. eapply hoare_bind with (Q := fun _ => at_rest drops 0).
    { apply hoare_lift. intros x Hx. case_match; [done|by eapply at_rest_good]. }
    intros ?. eapply hoare_bind with (Q := fun m x => select_mechanism sink options = Ok m /\ at_rest drops 0 x).
    { apply hoare_lift. intros x Hx. case_match; [done|by eapply at_rest_good]. }
    intros m. apply hoare_pure. intros Hm. apply hoare_run_covered; [done|..].
    - unfold mode, mode_of. rewrite Hm. by destruct (ro_dlq options), m as [[]|].
    - intros Hw. assert (m = Some AtomicWatermark) as -> by (by destruct m as [[]|]).
      unfold select_mechanism in Hm. by repeat case_match. }
  specialize (H (MkSt e t c j a o [])). unfold wp in H. unfold rows_covered.
  assert (at_rest drops 0 (mon (lstep mode drops) ledger0 (MkSt e t c j a o []))) as H0.
  { split_and!; [done| |done]. unfold settled. by destruct drops. }
  specialize (H H0). by destruct (run_stream_with _ _ _ _ _ _ _ _ _) as [[] s].
Qed.

(** C3: a run persists a bookmark only when it is safe to resume from. For every
    behaviour of the sink, the dead-letter sink and the state store, every
    source stream, retry policy and cancellation time, and wherever the process
    may die, every state write in the run's trace
    - happens with all earlier writes flushed and stores the bookmark of the
      page in progress;
    - comes when no governed row of any page so far is still owed: each was
      acknowledged by the sink (on the dead-letter path row by row, as the
      answers to the partial writes say), or is the payload of an envelope the
      dead-letter sink acknowledged, or was refused by the sink and dropped by
      the poison policy's drop action; or, under the watermark protocol, the
      sink itself had reported the page's sequence number (or a higher one) as
      committed;
    - with a dead-letter sink, comes after every governance envelope so far was
      acknowledged, which covers the rows governance quarantined. *)
Theorem checkpoint_after_durable {E} display redact to_json debug_char
  (sink : SinkOps E) options pages eos e t c j a o :
  let tr := trace (run_stream_with display redact to_json debug_char sink options pages eos
                     (MkSt e t c j a o [])).2 in
  checkpoints_ok (mode_of sink options) tr = true /\
  rows_covered (mode_of sink options) (drops_rows options) tr = true.
Proof. split; [apply checkpoints_flushed|apply run_covered]. Qed.
