(* ===== verification/CleanupRun.v ===== *)
(** Scoped cleanup after a streaming run: the writes the tracker saw are those of
    the run's trace, and a run that returned a result has handed the rows of every
    failed write over again, so the rows it counted are the rows it was handed. *)
From S2P Require Import Prelude Errors Float64 Json Text Accounting StateKey WriteMode Idempotency Dlq Drift Adaptive.
From S2P Require Import Quality Contract Engine Memory Cleanup Governance Resilience Hoare RunStream RunRules.
From S2P Require Import Checkpoint DlqRows Coverage.

Local Open Scope Z_scope.

(** The writes of a run to its main sink: the rows, whether the write answers row by
    row, and whether it was accepted as a whole. *)
Definition main_write (e : event) : option (list Value * bool * bool) :=
  match e with
  | EWrite Main rows r => Some (rows, false, is_ok r)
  | EPartial rows r => Some (rows, true, is_ok r)
  | EIdempotent rows _ _ r => Some (rows, false, is_ok r)
  | _ => None
  end.
Definition as_write (w : tracked_write) : list Value * bool * bool := (tw_records w, tw_partial w, tw_ok w).
(** The tracker saw the writes of this trace, each with some state of the read signal. *)
Definition tracked_trace (ws : list tracked_write) (tr : list event) : Prop := as_write <$> ws = omap main_write tr.

(** [unrepeated] read off the trace. *)
Definition pending_step (p : list Value) (e : event) : list Value :=
  match main_write e with
  | Some (rows, partial, ok) => if partial || ok then filter (fun row => row ∉ rows) p else p ++ rows
  | None => p
  end.
Definition harmless (e : event) : Prop := match e with EWrite Main _ _ | EIdempotent _ _ _ _ => False | _ => True end.

(** What became of the run, as [Pipeline::run] sees it. *)
Definition outcome_result {A} (o : outcome A) : option (result A FaucetError) :=
  match o with Val a => Some (Ok a) | Fault e => Some (Err e) | Crashed => None end.

(** ** Facts *)

Lemma pending_unrepeated ws tr : tracked_trace ws tr -> unrepeated ws = mon_of pending_step [] tr.
Proof.
  unfold tracked_trace, unrepeated, mon_of. generalize (@nil Value) as p. revert ws.
  induction tr as [|e tr IH]; intros ws p Hw; simpl in Hw.
  { apply fmap_nil_inv in Hw as ->. done. }
  simpl. unfold pending_step at 2. destruct (main_write e) as [[[rows pa] ok]|]; [|by apply IH].
  destruct ws as [|w ws]; [done|]. rewrite fmap_cons in Hw. injection Hw as <- <- <- Hw. simpl. by apply IH.
Qed.

#[local] Instance pending_ignores : Ignores pending_step.
Proof. by intros x []. Qed.

Section Repeated.
Context {E : Type}.
Context (display : FaucetError -> string) (redact : string -> string) (to_json : Value -> string).
Context (sink : SinkOps E) (options : RunStreamOptions E).
Notation anything := (fun _ : list Value => True).
Notation hoare := (hoare (E := E) (mon pending_step []) anything).
Notation fail := (fun (_ : FaucetError) => anything).
Notation none := (fun p : list Value => p = []).

Lemma hoare_any {A} (P : list Value -> Prop) (m : M E A) : hoare P m (fun _ => anything) fail.
Proof. intros s _. eapply wp_mono; [apply wp_true|]. by intros []. Qed.

(** Code that makes no whole write leaves nothing pending. *)
Lemma hoare_no_write {A} (m : M E A) : emits harmless m -> hoare none m (fun _ => none) fail.
Proof.
  intros H. eapply hoare_conseq; [apply (emits_hoare harmless pending_step [] anything none m H); [|done]|done|done|done].
  intros x e -> He. unfold pending_step. destruct e as [| |[] ? ?| | | | | | | | | | | | | | | |]; done.
Qed.

Lemma hoare_repeat_write chunk :
  hoare none (with_retry_write sink options (gateway_reported sink chunk)) (fun _ => none) fail.
Proof.
  eapply hoare_pre with (P := fun p => p ⊆ chunk); [|intros p ->; apply list_subseteq_nil].
  apply hoare_with_retry_write, hoare_call; [done|]. intros p r Hp. split; [done|]. unfold pending_step. simpl.
  destruct r as [rep|e]; simpl; [|split; [done|]; intros x [?|?]%elem_of_app; auto].
  apply elem_of_nil_inv. intros x [Hn Hx]%list_elem_of_filter. by apply Hn, Hp.
Qed.

Lemma emits_mono {A} (ok ok' : event -> Prop) (m : M E A) :
  (forall e, ok e -> ok' e) -> emits ok m -> emits ok' m.
Proof. intros H Hm s. destruct (Hm s) as (evs & ? & ?). exists evs. split; [done|]. by eapply Forall_impl. Qed.

Lemma emits_put v : emits harmless (put_state options v).
Proof. unfold put_state, with_retry. emits_auto. Qed.

Lemma hoare_repeat_chunks fuel governed i a acc w :
  hoare none (plain_chunks sink options fuel governed i a acc w) (fun _ => none) fail.
Proof.
  revert i a acc w. induction fuel as [|fuel IH]; intros i a acc w; simpl; [by apply hoare_ret|].
  destruct (_ <? _)%nat; [|by apply hoare_ret].
  eapply hoare_bind; [apply hoare_still; [apply quiet_state_of|done]|]. intros s0.
  eapply hoare_bind; [apply hoare_observe_write, hoare_repeat_write|]. intros report.
  eapply hoare_bind; [by apply hoare_still|]. intros lat. apply IH.
Qed.

Lemma hoare_repeat_plain governed acc b l :
  hoare none (plain_path sink options governed acc b l) (fun _ => none) fail.
Proof.
  unfold plain_path. eapply hoare_bind with (Q := fun _ => none).
  - unfold plain_write. destruct governed as [|v vs]; [by apply hoare_ret|]. destruct (adaptive_cfg options).
    + eapply hoare_bind; [apply hoare_admit; [apply _|done]|]. intros ?.
      eapply hoare_bind; [apply hoare_repeat_chunks|]. intros [[? ?] ?]. by apply hoare_ret.
    + eapply hoare_bind; [apply hoare_observe_write, hoare_repeat_write|]. intros r. by apply hoare_ret.
  - intros [[c acc'] w]. eapply hoare_bind; [by apply hoare_settle|]. intros ?.
    apply hoare_no_write. pose proof emits_put. unfold with_retry, flush_main. emits_auto; auto.
Qed.

Lemma repeats_dlq_path dlq governed envs acc b l :
  emits harmless (dlq_path display redact sink options dlq governed envs acc b l).
Proof.
  unfold dlq_path. pose proof emits_put as Hp.
  assert (forall fuel governed i p, emits harmless (dlq_chunks display redact sink options dlq fuel governed i p)) as Hc
    by (intros; eapply emits_mono; [|apply emits_chunks]; by intros []).
  assert (forall a, emits harmless (@settle_page E a)) as Hs.
  { intros a. apply emits_none. intros s. unfold settle_page. by destruct (settle a (accounts s)) as [c [[]|e]]. }
  unfold write_envelopes, dlq_checkpoint, flush_main, with_retry, gateway_dlq, gateway_admit. emits_auto; auto.
Qed.

Lemma hoare_repeat_page page l :
  hoare none (process_page display redact to_json sink options false 0 page l) (fun _ => none) fail.
Proof.
  unfold process_page. eapply hoare_bind with (Q := fun _ => none); [by apply hoare_log|].
  intros ?. eapply hoare_bind; [apply hoare_governance; [apply _|done]|]. intros [gov cache].
  eapply hoare_bind with (Q := fun _ => none); [by apply hoare_log|]. intros ?.
  destruct (go_deferred_abort gov) as [e|].
  - eapply hoare_bind; [apply hoare_any|]. intros ?. by apply hoare_throw.
  - destruct (ro_dlq options); [apply hoare_no_write, repeats_dlq_path|apply hoare_repeat_plain].
Qed.

Lemma hoare_repeat_run pages eos :
  hoare none (run_loop display redact to_json sink options false pages eos) (fun _ => none) fail.
Proof.
  unfold run_loop. apply hoare_bind_ret. eapply hoare_bind with (Q := fun _ => none).
  { apply hoare_no_write. emits_auto. }
  intros ?. eapply hoare_bind with (Q := fun r p => is_ok r = true -> p = []).
  { apply hoare_attempt. eapply hoare_conseq; [apply hoare_page_loop with (I := none); [done|intros; apply hoare_repeat_page]|done|done|done]. }
  intros [[l c]|e].
  - eapply hoare_pre; [apply hoare_no_write|by intros p Hp; apply Hp]. unfold finish, flush_dlq, flush_main. emits_auto.
  - unfold unwind. eapply hoare_bind; [apply hoare_any|]. intros ?. eapply hoare_bind; [apply hoare_any|]. intros ?. by apply hoare_throw.
Qed.

End Repeated.

(** A run that returned a result outside the watermark protocol repeated every
    write that failed as a whole. *)
Lemma returned_run_repeats {E} display redact to_json debug_char (sink : SinkOps E) options pages eos e t c j a o v s ws :
  mode_of sink options <> WatermarkMode ->
  run_stream_with display redact to_json debug_char sink options pages eos (MkSt e t c j a o []) = (Val v, s) ->
  tracked_trace ws (trace s) -> unrepeated ws = [].
Proof.
  intros Hm Hrun Hws. rewrite (pending_unrepeated ws (trace s) Hws).
  assert (hoare (mon pending_step []) (fun _ => True) (fun p => p = [])
    (run_stream_with display redact to_json debug_char sink options pages eos)
    (fun _ p => p = []) (fun _ _ => True)) as H.
  { unfold run_stream_with. eapply hoare_bind with (Q := fun _ p => p = []).
    { apply hoare_lift. intros p Hp. by case_match. }
    intros ?. eapply hoare_bind with (Q := fun m p => select_mechanism sink options = Ok m /\ p = []).
    { apply hoare_lift. intros p Hp. by case_match. }
    intros m. apply hoare_pure. intros Hsel.
    assert ((match m with Some AtomicWatermark => true | _ => false end) = false) as ->; [|apply hoare_repeat_run].
    destruct m as [[]|]; try done. unfold mode_of in Hm. rewrite Hsel in Hm. destruct (ro_dlq options) eqn:Hd; [|done].
    unfold select_mechanism in Hsel. rewrite Hd in Hsel. by repeat case_match. }
  specialize (H (MkSt e t c j a o []) eq_refl). unfold wp in H. by rewrite Hrun in H.
Qed.

(** C19: The scoped delete removes exactly the rows the run was not given. Take any
    run of the page loop outside the watermark protocol, whatever its sink
    answered, with the writes the tracker saw. The destination loses a row only
    after a run that returned a result, was not cancelled and, for a complete
    read, read everything; only a row of the claimed scope whose key none of the
    rows handed to the sink has, however the sink answered for them (for a complete
    read: those handed over since the read began), and only when no more keys were
    handed over than the ceiling. When such a run and its delete return without an
    error, no row with a key is left in the scope but those handed to the sink. *)
Theorem cleanup_removes_exactly_the_missing {E T} display redact to_json debug_char (sink : SinkOps E) options pages eos
  e t c j a o out s res ws json_str float_str cleanup_scope inner_put (table : T -> list Value) policy read_state held cancelled d r d' :
  mode_of sink options <> WatermarkMode ->
  run_stream_with display redact to_json debug_char sink options pages eos (MkSt e t c j a o []) = (out, s) ->
  outcome_result out = Some res -> tracked_trace ws (trace s) -> gates_onward ws ->
  0 <= cp_max_keys policy -> cleans json_str float_str cleanup_scope table (cp_key policy) ->
  (forall k v d, table (inner_put k v d).2 = table d) ->
  after_stream cleanup_scope inner_put policy (tracker_run json_str float_str policy ws) read_state held cancelled res d = (r, d') ->
  let written := texts json_str float_str (cp_key policy) (handed_rows ws) in
  (forall row, row ∈ table d' -> row ∈ table d) /\
  (forall row, row ∈ table d -> row ∉ table d' ->
     may_delete res cancelled read_state /\ Z.of_nat (size written) <= cp_max_keys policy /\ in_scope (cp_scope policy) row /\
     forall k, row_text json_str float_str (cp_key policy) row = Some k -> k ∉ written) /\
  (is_ok r = true -> may_delete res cancelled read_state -> forall row k, row ∈ table d' -> in_scope (cp_scope policy) row ->
     row_text json_str float_str (cp_key policy) row = Some k -> k ∈ written).
Proof.
  intros Hm Hrun Hres Hws Hg Hmax Hcl Hput Hafter written.
  destruct (cleanup_removes_the_untracked json_str float_str cleanup_scope inner_put table policy ws read_state held cancelled res d r d'
    Hmax Hcl Hput Hafter) as (H1 & H2 & H3).
  assert (is_ok res = true -> written = texts json_str float_str (cp_key policy) (tracked_rows ws)) as Heq.
  { intros Hok. destruct out as [v|x|]; simpl in Hres; simplify_eq. apply handed_texts; [|done].
    by eapply (returned_run_repeats display redact to_json debug_char sink options). }
  split; [done|]. split.
  - intros row Hin Hout. destruct (H2 row Hin Hout) as (Hmay & H4 & H5 & H6). rewrite Heq by apply Hmay. done.
  - intros Hr Hmay row k Hin Hsc Ht. rewrite Heq by apply Hmay. by eapply H3.
Qed.

(** A destination with two rows of the scope and one outside it. The run writes the
    first of them, with the reply to its first attempt lost; the second is removed. *)
Definition demo_row (id c : string) : Value := VObject [("c", VString c); ("id", VString id)].
Definition demo_policy : CleanupPolicy := MkCleanupPolicy [("c", VString "1")] ["id"] 10 Always.
Definition demo_writes : list tracked_write := [MkTracked [demo_row "a" "1"] false false None; MkTracked [demo_row "a" "1"] false true None].
Definition demo_table : list Value := [demo_row "a" "1"; demo_row "b" "1"; demo_row "b" "2"].
Definition demo_run : outcome PipelineResult * st mem :=
  run_stream_with (fun _ => EmptyString) id (fun _ => EmptyString) (fun _ _ => EmptyString)
    (mem_sink false true false (fun _ => Ok tt)) demo_options [(1, Ok (MkStreamPage [demo_row "a" "1"] (Some (VString "1"))))] 1
    (MkSt (mem0 [ReplyLost]) 0 None 0 None BatchOutcomeCounters_new []).
Definition demo_result : PipelineResult := MkResult 1 (Some (VString "1")) None.
Definition demo_after : result PipelineResult FaucetError * list Value :=
  after_stream (list_cleanup ["id"]) (fun _ _ e => (Ok tt, e)) demo_policy (tracker_run (fun s => s) (fun _ => EmptyString) demo_policy demo_writes)
    None None false (Ok demo_result) demo_table.

Lemma cleanup_removes_exactly_the_missing_witness :
  demo_after = (Ok demo_result, [demo_row "a" "1"; demo_row "b" "2"]) /\
  let written := texts (fun s => s) (fun _ => EmptyString) ["id"] (handed_rows demo_writes) in
  (forall row, row ∈ demo_after.2 -> row ∈ demo_table) /\
  (forall row, row ∈ demo_table -> row ∉ demo_after.2 ->
     may_delete (Ok demo_result : result PipelineResult FaucetError) false None /\ Z.of_nat (size written) <= 10 /\ in_scope (cp_scope demo_policy) row /\
     forall k, row_text (fun s => s) (fun _ => EmptyString) ["id"] row = Some k -> k ∉ written) /\
  (is_ok demo_after.1 = true -> may_delete (Ok demo_result : result PipelineResult FaucetError) false None -> forall row k, row ∈ demo_after.2 ->
     in_scope (cp_scope demo_policy) row -> row_text (fun s => s) (fun _ => EmptyString) ["id"] row = Some k -> k ∈ written).
Proof.
  split; [vm_compute; reflexivity|].
  apply (cleanup_removes_exactly_the_missing (fun _ => EmptyString) id (fun _ => EmptyString) (fun _ _ => EmptyString)
    (mem_sink false true false (fun _ => Ok tt)) demo_options [(1, Ok (MkStreamPage [demo_row "a" "1"] (Some (VString "1"))))] 1
    (mem0 [ReplyLost]) 0 None 0 None BatchOutcomeCounters_new demo_run.1 demo_run.2 (Ok demo_result) demo_writes
    (fun s => s) (fun _ => EmptyString) (list_cleanup ["id"]) (fun _ _ e => (Ok tt, e)) (fun e => e) demo_policy None None false demo_table).
  - vm_compute. discriminate.
  - vm_compute. reflexivity.
  - vm_compute. reflexivity.
  - vm_compute. reflexivity.
  - cbn. by repeat constructor.
  - cbn. lia.
  - apply list_cleanup_cleans.
  - done.
  - exact (surjective_pairing demo_after).
Defined.
