(* ===== verification/Endings.v ===== *)
(** How a streaming run ends: the error unwind, the final flushes, the reason a
    page of quarantined rows is counted under; with two concrete behaviours
    worth knowing. *)
From S2P Require Import Prelude Errors Json Text Accounting StateKey Idempotency Dlq Drift Adaptive.
From S2P Require Import Quality Contract Engine Memory Governance Resilience Hoare RunStream.
From S2P Require Import Checkpoint DlqRows.

Local Open Scope Z_scope.

(** The flushes a failed run owes: dead-letter sink first, then the main sink
    unless it is staging an overwrite. *)
Definition unwind_flushes {E} (sink : SinkOps E) (options : RunStreamOptions E) (evs : list event) : Prop :=
  exists d m, evs = match ro_dlq options with Some _ => [EFlush Dead d] | None => [] end
                    ++ (if is_overwrite sink then [] else [EFlush Main m]).

(** One page of envelopes with these reasons. *)
Definition envelopes_with (reasons : list DlqReason) : list Value :=
  (fun r => VObject [("reason", VString (reason_str r))]) <$> reasons.

(** No governance reason occurs more often on the page than [r]. *)
Definition most_frequent (envelopes : list Value) (r : DlqReason) : Prop :=
  Forall (fun r' => (reason_count envelopes r' <= reason_count envelopes r)%nat) GOVERNANCE_REASONS.

(** A page without a bookmark to a dead-letter run whose second call, the final
    dead-letter flush, fails: the calls are the partial write and that flush. *)
Definition unflushed_run : outcome PipelineResult * st mem :=
  run_stream_with (fun _ => EmptyString) id (fun _ => EmptyString) (fun _ _ => EmptyString)
    picky_sink dlq_options
    [(1, Ok (MkStreamPage [VString "a"; VString "c"] None))] 1 (start (mem0 [NoFault; Refused])).

(** ** Facts *)

Lemma unwind_spec {E} (sink : SinkOps E) options e s :
  crash_in s = None ->
  exists s2 evs, unwind sink options e s = (Fault e, s2) /\
    trace s2 = trace s ++ evs /\ unwind_flushes sink options evs.
Proof.
  intros Hc. unfold unwind, unwind_flushes, defer_bookmarks, bind, attempt, flush_main, call.
  destruct (ro_dlq options) as [dlq|].
  - rewrite Hc. destruct (flush (dc_sink dlq) (env s)) as [[r d] x].
    destruct (is_overwrite sink).
    + destruct r; cbn; eexists _, _; (split; [reflexivity|]); cbn; (split; [reflexivity|]);
        eexists _, (Ok tt); reflexivity.
    + destruct (flush sink x) as [[r' d'] x'] eqn:Hm.
      destruct r; cbn; rewrite Hm; destruct r'; cbn;
        eexists _, _; (split; [reflexivity|]); cbn; rewrite <- ?app_assoc; (split; [reflexivity|]);
        eexists _, _; reflexivity.
  - destruct (is_overwrite sink); cbn.
    + eexists _, []. rewrite app_nil_r. repeat (split; [reflexivity|]). by exists (Ok tt), (Ok tt).
    + rewrite Hc. destruct (flush sink (env s)) as [[[] d'] x']; cbn;
        eexists _, _; (split; [reflexivity|]); cbn; (split; [reflexivity|]); exists (Ok tt); by eexists.
Qed.

(** A failed run reports its own error. When the page loop of a run ends in
    an error, the run still flushes the dead-letter sink and (without overwrite)
    the main sink, in that order and nothing else, and then returns the original
    error whatever the flushes answered. *)
Theorem failed_run_flushes_and_keeps_error {E} display redact to_json
  (sink : SinkOps E) options pages eos s e s1 :
  adaptive_cfg options = None ->
  page_loop display redact to_json sink options false 0 pages eos
    (initial_loop options) s = (Fault e, s1) ->
  crash_in s1 = None ->
  exists s2 evs,
    run_loop display redact to_json sink options false pages eos s = (Fault e, s2) /\
    trace s2 = trace s1 ++ evs /\ unwind_flushes sink options evs.
Proof.
  intros Ha Hloop Hc. destruct (unwind_spec sink options e s1 Hc) as (s2 & evs & Hu & Ht & Hf).
  exists s2, evs. split; [|done]. unfold run_loop. rewrite Ha.
  unfold bind at 1. cbn [ret]. unfold bind at 1. cbn [ret].
  unfold bind, attempt. by rewrite Hloop.
Qed.

Lemma failed_run_flushes_and_keeps_error_witness :
  exists s2 evs,
    run_loop (fun _ => EmptyString) id (fun _ => EmptyString) picky_sink
      dlq_options false [(1, Err (Source "gone"))] 1 (start (mem0 [])) = (Fault (Source "gone"), s2) /\
    trace s2 = [] ++ evs /\ unwind_flushes picky_sink dlq_options evs.
Proof.
  apply (failed_run_flushes_and_keeps_error (fun _ => EmptyString) id (fun _ => EmptyString) picky_sink dlq_options [(1, Err (Source "gone"))] 1 (start (mem0 [])) (Source "gone")
    (set_clock (start (mem0 [])) 1)); reflexivity.
Defined.

(** ** Concrete behaviours *)

(** A run that processed its pages but whose final dead-letter flush fails
    returns without flushing the main sink: rows written to it since the last
    checkpoint stay unflushed. *)
Example dlq_flush_failure_skips_main_flush :
  unflushed_run.1 = Fault (Sink "DLQ sink flush failed: ") /\
  m_rows (env unflushed_run.2) = [VString "a"; VString "c"] /\
  mn_main_dirty (mon_of (mstep DlqMode false) mon0 (trace unflushed_run.2)) = true /\
  existsb (fun e => match e with EFlush Main _ => true | _ => false end) (trace unflushed_run.2) = false.
Proof. vm_compute. repeat split. Qed.

(** With as many contract as drift envelopes on a page, the reason is the
    contract's, although [ALL] lists drift before it. *)
Example tie_goes_to_contract :
  dominant_governance_reason (envelopes_with [Dlq.Contract; SchemaDriftReason]) = Dlq.Contract /\
  dominant_governance_reason (envelopes_with [SchemaDriftReason; Dlq.Contract]) = Dlq.Contract.
Proof. vm_compute. repeat split. Qed.

(** The reason a page is counted under is one that occurs most often. *)
Theorem dominant_reason_is_maximal envelopes :
  most_frequent envelopes (dominant_governance_reason envelopes).
Proof.
  unfold most_frequent, GOVERNANCE_REASONS, dominant_governance_reason. simpl.
  destruct (Nat.ltb_spec (reason_count envelopes Dlq.Quality) (reason_count envelopes Dlq.Contract));
    repeat constructor; case_match; rewrite ?Nat.ltb_lt, ?Nat.ltb_ge in *; lia.
Qed.
