(* ===== verification/Pipeline.v ===== *)
(** [Pipeline::run] of crates/core/src/pipeline.rs: resume, the streaming run,
    the overwrite lifecycle, and completion; with the start-of-run key migration
    of crates/core/src/state_key.rs.

    The value path only: the native and columnar transfer paths, scoped cleanup,
    schema hand-over and lag polling are left out, so a [Pipeline] here is one
    whose source offers no native format and no columnar stream and which has no
    cleanup policy. *)
From S2P Require Import Prelude Errors Json Text Accounting StateKey StateEnvelope Idempotency Dlq.
From S2P Require Import Drift Adaptive Quality Contract Engine Governance StateVersion Resilience.
From S2P Require Import RunStream.

Local Open Scope Z_scope.
Local Open Scope engine_scope.

(** The methods of [trait Source] the value path calls. [stream_pages] lists what
    the source yields from the moment it is started, with each item's delay, and
    the delay of the end of the stream. *)
Record SourceOps (E : Type) := MkSourceOps {
  src_connector_name : string;
  src_state_key : option string;
  src_legacy_state_keys : list string;
  src_state_schema : Z;
  src_migrate_state : Z -> Value -> result Value FaucetError;
  src_replay_guarantee : ReplayGuarantee;
  src_consumes_destructively : bool;
  src_set_cancel : bool;
  apply_start_bookmark : Value -> @backend E unit;
  stream_pages : E -> list (Z * result StreamPage FaucetError) * Z;
}.
Arguments MkSourceOps {E}.
Arguments src_connector_name {E}.
Arguments src_state_key {E}.
Arguments src_legacy_state_keys {E}.
Arguments src_state_schema {E}.
Arguments src_migrate_state {E}.
Arguments src_replay_guarantee {E}.
Arguments src_consumes_destructively {E}.
Arguments src_set_cancel {E}.
Arguments apply_start_bookmark {E}.
Arguments stream_pages {E}.

(** [struct Pipeline], less the borrowed source and sink. *)
Record Pipeline (E : Type) := MkPipeline {
  p_state_store : option (StoreOps E);
  p_name : option string;
  p_row : option string;
  p_dlq : option (DlqConfig E);
  p_allow_dlq_all_duplicates : bool;
  p_masking : option (Value -> Value);
  p_quality : option ((list Value -> result QualityOutcome FaucetError) * bool);
  p_contract : option (string * (list Value -> result ContractOutcome FaucetError) * bool);
  p_schema_drift : option SchemaDriftPolicy;
  p_adaptive : option AdaptiveBatchConfig;
  p_cancel : option token;
  p_delivery : DeliveryMode;
  p_resilience : option ResiliencePolicy;
  p_legacy_state_writes : bool;
  p_suppress_overwrite_lifecycle : bool;
}.
Arguments MkPipeline {E}.
Arguments p_state_store {E}.
Arguments p_name {E}.
Arguments p_row {E}.
Arguments p_dlq {E}.
Arguments p_allow_dlq_all_duplicates {E}.
Arguments p_masking {E}.
Arguments p_quality {E}.
Arguments p_contract {E}.
Arguments p_schema_drift {E}.
Arguments p_adaptive {E}.
Arguments p_cancel {E}.
Arguments p_delivery {E}.
Arguments p_resilience {E}.
Arguments p_legacy_state_writes {E}.
Arguments p_suppress_overwrite_lifecycle {E}.

(** [enum KeyMigration]. *)
Inductive KeyMigration := KeyCurrent | KeyFresh | KeyMoved (from : string).

Section KeyMigration.
Context {E : Type} (store : StoreOps E) (key : string).

(** The search of [migrate_state_key] through the candidates. *)
Fixpoint migrate_candidates (candidates : list string) : M E KeyMigration :=
  match candidates with
  | [] => ret KeyFresh
  | old :: rest =>
      if string_eqb old key then migrate_candidates rest
      else
        let* v := call (store_get store old) (EGet old) in
        match v with
        | None => migrate_candidates rest
        | Some value =>
            let* claimed := call (compare_and_put store key None value) (EClaim key value) in
            if claimed then
              let* _ := attempt (call (store_delete store old) (EDelete old)) in
              ret (KeyMoved old)
            else ret KeyCurrent
        end
  end.

(** [migrate_state_key]. *)
Definition migrate_state_key (candidates : list string) : M E KeyMigration :=
  match candidates with
  | [] => ret KeyFresh
  | _ =>
      let* v := call (store_get store key) (EGet key) in
      match v with
      | Some _ => ret KeyCurrent
      | None => migrate_candidates candidates
      end
  end.

End KeyMigration.

Section Run.
Context {E : Type}.
Context (display : FaucetError -> string) (redact : string -> string) (to_json : Value -> string).
Context (from_json : string -> option Value) (debug_char : string -> Z -> string).
Context (source : SourceOps E) (sink : SinkOps E) (p : Pipeline E).

Definition start_from (bm : Value) : M E unit :=
  call (apply_start_bookmark source bm) (EStart bm).

Definition codec : StateCodec :=
  MkCodec (src_connector_name source) (src_state_schema source) (p_legacy_state_writes p).

(** The run's store: the bookmark's key goes through the versioned envelope. *)
Definition run_store : option (StoreOps E) :=
  match p_state_store p, src_state_key source with
  | Some store, Some key => Some (versioned_store (MkVersioned store key codec))
  | store, _ => store
  end.

(** A bare-writing codec cannot carry a shape version. *)
Definition codec_check : result unit FaucetError :=
  if sc_legacy codec && (0 <? sc_schema codec) then
    Err (incompatible (default EmptyString (src_state_key source))
      ("a reader that predates versioned state (bare '" +:+ sc_owner codec +:+ "' bookmarks)")
      ("'" +:+ sc_owner codec +:+ "' state schema " +:+ dec (sc_schema codec)))
  else Ok tt.

(** Resume from the state store: the start sequence. *)
Definition resume_from_store : M E Z :=
  match run_store, src_state_key source with
  | Some store, Some key =>
      lift (validate_state_key debug_char key) ;;
      let* stored := call (store_get store key) (EGet key) in
      match stored with
      | None => ret 0
      | Some stored =>
          let* resolved := lift (resolve_with display key stored (src_connector_name source)
                                   (src_state_schema source) (src_migrate_state source)) in
          match p_delivery p with
          | ExactlyOnce =>
              let '(bookmark, seq) := unwrap_state (rs_data resolved) in
              match bookmark with
              | Some bm => start_from bm ;; ret seq
              | None => ret seq
              end
          | AtLeastOnce => start_from (rs_data resolved) ;; ret 0
          end
      end
  | _, _ => ret 0
  end.

(** Sink-anchored resume: a committed watermark ahead of the store moves the
    source to the bookmark it carries. *)
Definition resume_from_sink (start_seq : Z) : M E Z :=
  match p_delivery p, supports_idempotent_writes sink, src_replay_guarantee source,
        src_state_key source with
  | ExactlyOnce, true, Deterministic, Some key =>
      let* t := call (last_committed_token sink key) (EToken key) in
      match t ≫= parse_token_parts from_json with
      | Some (sink_seq, Some bm) =>
          if start_seq <? sink_seq then start_from bm ;; ret sink_seq else ret start_seq
      | _ => ret start_seq
      end
  | _, _, _, _ => ret start_seq
  end.

(** The [RunStreamOptions] of the run. *)
Definition options_of (start_seq : Z) : RunStreamOptions E :=
  let '(store, key) := match run_store, src_state_key source with
                       | Some store, Some key => (Some store, Some key)
                       | _, _ => (None, None)
                       end in
  MkOptions store key (Some (default "unnamed" (p_name p))) (Some (default EmptyString (p_row p)))
    (p_dlq p) (p_masking p) (p_quality p) (p_contract p) (p_schema_drift p) (p_adaptive p)
    (p_cancel p) (p_delivery p) start_seq (Some (src_replay_guarantee source)) (p_resilience p)
    (match p_cancel p with Some _ => src_set_cancel source | None => false end).

Definition overwriting : bool := is_overwrite sink && negb (p_suppress_overwrite_lifecycle p).

(** The end of an overwrite: swap and only then the bookmark, or discard. *)
Definition finalize_overwrite (r : result PipelineResult FaucetError) : M E unit :=
  let* cancelled := is_cancelled (p_cancel p) in
  match r, cancelled with
  | Ok res, false =>
      call (commit_overwrite sink) ECommitOverwrite ;;
      match run_store, src_state_key source, pr_bookmark res with
      | Some store, Some key, Some bm => call (store_put store key bm) (EPut key bm)
      | _, _, _ => ret tt
      end
  | _, _ =>
      let* _ := attempt (call (abort_overwrite sink) EAbortOverwrite) in ret tt
  end.

(** From the checks to the resumed position: the start sequence. *)
Definition resume : M E Z :=
  (match p_dlq p with
   | Some dlq => lift (check_dlq_all_policy (connector_name sink) (batch_atomicity sink)
                         (dedups_by_key sink) (dc_on_batch_error dlq) (p_allow_dlq_all_duplicates p))
   | None => ret tt
   end) ;;
  (match p_state_store p, src_state_key source with
   | Some store, Some key =>
       let* _ := migrate_state_key store key (src_legacy_state_keys source) in ret tt
   | _, _ => ret tt
   end) ;;
  lift codec_check ;;
  let* start_seq := resume_from_store in
  resume_from_sink start_seq.

(** The body of [run] inside its span. *)
Definition run_body : M E PipelineResult :=
  let* start_seq := resume in
  let* s := state_of in
  let '(pages, eos) := stream_pages source (env s) in
  (if overwriting then call (begin_overwrite sink) EBeginOverwrite else ret tt) ;;
  let* r := attempt (run_stream_with display redact to_json debug_char sink
                       (options_of start_seq) pages eos) in
  (if overwriting then finalize_overwrite r else ret tt) ;;
  lift r.

(** [Pipeline::run]. *)
Definition run : M E PipelineResult :=
  if is_overwrite sink && src_consumes_destructively source then
    throw (Config ("write_mode: overwrite cannot read from source '" +:+ src_connector_name source
      +:+ "': it removes each page from its backend once the page is written into the staging copy, and a failed or cancelled run discards staging, losing those records for good"))
  else
    let* res := run_body in
    let* cancelled := is_cancelled (p_cancel p) in
    if cancelled then ret res else call (complete_run sink) ECompleteRun ;; ret res.

End Run.
