(* ===== verification/Resume.v ===== *)
(** How a topology resumes and finishes (crates/core/src/topology.rs): the resume plan
    over the positions its sinks committed, the pages a sink that is ahead skips, the
    end of the overwriting sinks, and the report of a run.

    [position_le] and [record_covered] are the source's; the trait's default answers are
    functions that return [None]. The text of a position in an error is a parameter. *)
From S2P Require Import Prelude Errors Json Text StateEnvelope Idempotency Engine TypedKey StateVersion Pipeline Topology.

Local Open Scope Z_scope.
Local Open Scope engine_scope.

(** ** The resume point *)

(** [start_bookmark]: only a position all the sinks agree on. *)
Definition start_bookmark (sink_bookmarks : list Value) (source_count : Z) : option Value :=
  match sink_bookmarks with
  | [] => None
  | first :: _ =>
      if negb (source_count =? 1) then None
      else if existsb (fun v => negb (value_eqb v first)) sink_bookmarks then None
      else Some first
  end.

(** [eo_start_bookmark]: the first of the smallest sequence. *)
Definition lower (best x : Z * option Value) : Z * option Value := if x.1 <? best.1 then x else best.
Definition eo_start_bookmark (ranked : list (Z * option Value)) (source_count : Z) : option Value :=
  match ranked with
  | [] => None
  | first :: rest => if negb (source_count =? 1) then None else (foldl lower first rest).2
  end.

Record SinkResume := MkSinkResume { start_seq : Z; skip_through : option Value }.
Record ResumePlan := MkResumePlan { rp_start : option Value; rp_sinks : list (string * SinkResume) }.
Definition ResumePlan_default : ResumePlan := MkResumePlan None [].

Definition quote_mark : string := String (Ascii.ascii_of_nat 34) EmptyString.
(** What a sink committed: its id, its position and its sequence. *)
Definition committed : Type := string * option Value * Z.

Section Positions.
Context (to_json : Value -> string).
Context (position_le : Value -> Value -> option bool) (record_covered : Value -> Value -> option bool) (connector : string).

(** The default [position_min]. *)
Definition position_min (positions : list Value) : option Value :=
  match positions with
  | [] => None
  | first :: _ =>
      if forallb (fun p => value_eqb p first) positions then Some first
      else List.find (fun cand => forallb (fun other => bool_decide (position_le cand other = Some true)) positions) positions
  end.

Definition own_resume (skip : option Value -> option Value) (positions : list committed) : list (string * SinkResume) :=
  (fun '(id, bm, seq) => (id, MkSinkResume seq (skip bm))) <$> positions.
Definition no_skip (_ : option Value) : option Value := None.
Definition skip_unless (start : option Value) (bm : option Value) : option Value :=
  b ← bm; if bool_decide (Some b = start) then None else Some b.

Definition committed_text (p : committed) : string :=
  let '(id, bm, seq) := p in
  match bm with
  | Some bm => "'" +:+ id +:+ "' at seq " +:+ dec seq +:+ " (" +:+ to_json bm +:+ ")"
  | None => "'" +:+ id +:+ "' with no committed position"
  end.
Definition cannot_order (pipeline : string) (positions : list committed) : FaucetError :=
  State ("topology exactly-once: the sink nodes committed different positions (" +:+ String.concat ", " (committed_text <$> positions)
    +:+ "), and the source '" +:+ connector +:+ "' cannot order its positions (Source::position_le), so no resume point avoids both lost and duplicated records; resuming by page count is unsafe because a replay need not produce the same pages. To recover, either delete every sink node's state ("
    +:+ String.concat ", " ((fun p : committed => "'" +:+ render (invocation pipeline p.1.1) +:+ "'") <$> positions)
    +:+ ") and its commit-token watermark row under the same scope, then rerun to replay from the start (each sink re-writes what it already holds), or reset only the sinks that are ahead to the furthest-behind sink's position and accept duplicates in between; a source that implements Source::position_le resumes automatically. See the topology cookbook, " +:+ quote_mark +:+ "Exactly-once delivery" +:+ quote_mark).

(** [plan_exactly_once], for a source that is known. *)
Definition plan_exactly_once (positions : list committed) (source_count : Z) (pipeline : string) : result ResumePlan FaucetError :=
  if negb (source_count =? 1) then Ok (MkResumePlan None (own_resume no_skip positions))
  else
    let known := omap (fun p : committed => p.1.2) positions in
    let all_known := (length known =? length positions)%nat in
    if all_known && (match known with [] => true | first :: _ => forallb (fun b => value_eqb b first) known end) then
      Ok (MkResumePlan (head known) (own_resume no_skip positions))
    else
      let ordering := match known with [] => false | b :: _ => bool_decide (is_Some (position_le b b)) end in
      let start := if all_known then position_min known else None in
      if ordering && (bool_decide (is_Some start) || negb all_known) then
        Ok (MkResumePlan start (own_resume (skip_unless start) positions))
      else if forallb (fun p : committed => is_none p.1.2 && (p.2 =? 0)) positions then Ok (MkResumePlan None (own_resume no_skip positions))
      else Err (cannot_order pipeline positions).

(** ** The pages a sink skips *)

Inductive PageCoverage := Committed | Straddles | Past.
#[export] Instance PageCoverage_eq_dec : EqDecision PageCoverage.
Proof. solve_decision. Defined.
Definition covered_page (page : StreamPage) (through : Value) : PageCoverage :=
  match sp_bookmark page with
  | None => Straddles
  | Some bm =>
      if bool_decide (position_le bm through = Some true) then Committed
      else if bool_decide (position_le through bm = Some true) then Past
      else Straddles
  end.
Definition undecidable (sink_id : string) : FaucetError :=
  State ("topology exactly-once: a replayed page straddles the position sink '" +:+ sink_id +:+ "' already committed, and source '" +:+ connector
    +:+ "' cannot tell from a record reaching it whether it was delivered — a transform removed the source's position fields (`topic` / `partition` / `offset` for kafka, `lsn` for postgres-cdc / mysql-cdc / mssql-cdc). Keep those fields until the sink, or write with `write_mode: upsert` + `key`").
Definition trim_covered (records : list Value) (through : Value) (keyed : bool) (sink_id : string) : result (list Value) FaucetError :=
  let kept := List.filter (fun r => match record_covered r through with Some covered => negb covered | None => true end) records in
  if existsb (fun r => is_none (record_covered r through)) records && negb keyed then Err (undecidable sink_id) else Ok kept.

(** The pages [run_sink_node] hands to [run_stream], from those it receives. *)
Fixpoint sink_pages (keyed : bool) (sink_id : string) (through : option Value) (pages : list StreamPage) : list (result StreamPage FaucetError) :=
  match pages with
  | [] => []
  | page :: pages =>
      match through with
      | None => Ok page :: sink_pages keyed sink_id through pages
      | Some position =>
          match covered_page page position with
          | Committed => sink_pages keyed sink_id through pages
          | coverage =>
              match trim_covered (sp_records page) position keyed sink_id with
              | Err e => [Err e]
              | Ok records =>
                  Ok (MkStreamPage records (sp_bookmark page)) ::
                    sink_pages keyed sink_id (if decide (coverage = Past) then None else through) pages
              end
          end
      end
  end.
End Positions.

(** ** Reading what the sinks committed *)

Section Resume.
Context {E : Type} (display : FaucetError -> string) (to_json : Value -> string) (from_json : string -> option Value).
Context (position_le : Value -> Value -> option bool) (source : option (SourceOps E)) (pipeline : string).

Definition sink_key (id : string) : string := render (invocation pipeline id).
Fixpoint read_stored (store : StoreOps E) (ids : list string) : M E (list (option Value)) :=
  match ids with
  | [] => ret []
  | id :: ids =>
      let* v := call (store_get store (sink_key id)) (EGet (sink_key id)) in
      let* value := match v, source with
                    | None, _ => ret None
                    | Some v, Some src =>
                        let* r := lift (resolve_with display (sink_key id) v (src_connector_name src) (src_state_schema src) (src_migrate_state src)) in
                        ret (Some (rs_data r))
                    | Some v, None => ret (Some (peel_versioned v))
                    end in
      let* rest := read_stored store ids in
      ret (value :: rest)
  end.
(** The stored position, unless the sink's own commit token is ahead of it. *)
Definition read_committed (id : string) (sink : option (SinkOps E)) (value : option Value) : M E committed :=
  let '(bm, seq) := match value with Some v => unwrap_state v | None => (None, 0) end in
  match sink, source with
  | Some sink, Some src =>
      if supports_idempotent_writes sink && bool_decide (src_replay_guarantee src = Deterministic) then
        let* t := call (last_committed_token sink (sink_key id)) (EToken (sink_key id)) in
        match t ≫= parse_token_parts from_json with
        | Some (token_seq, Some token_bm) => ret (if seq <? token_seq then (id, Some token_bm, token_seq) else (id, bm, seq))
        | _ => ret (id, bm, seq)
        end
      else ret (id, bm, seq)
  | _, _ => ret (id, bm, seq)
  end.
Fixpoint read_positions (sinks : list (string * option (SinkOps E))) (stored : list (option Value)) : M E (list committed) :=
  match sinks, stored with
  | (id, sink) :: sinks, value :: stored =>
      let* p := read_committed id sink value in
      let* ps := read_positions sinks stored in
      ret (p :: ps)
  | _, _ => ret []
  end.
Definition compute_resume (store : option (StoreOps E)) (sinks : list (string * option (SinkOps E))) (source_count : Z) (delivery : DeliveryMode)
  : M E ResumePlan :=
  match store, sinks with
  | None, _ | _, [] => ret ResumePlan_default
  | Some store, _ =>
      let* stored := read_stored store sinks.*1 in
      match delivery with
      | AtLeastOnce =>
          if existsb is_none stored then ret ResumePlan_default
          else ret (MkResumePlan (start_bookmark (omap id stored) source_count) [])
      | ExactlyOnce =>
          let* positions := read_positions sinks stored in
          lift (plan_exactly_once to_json position_le (match source with Some s => src_connector_name s | None => "unknown" end) positions source_count pipeline)
      end
  end.
End Resume.

(** ** The end of a run *)

Inductive NodeOutcome :=
| SinkOutcome (node_id : string) (records : Z) (bookmark : option Value) (overwrites : bool) (deferred : option string)
| SourceOutcome (node_id : string) (records : Z)
| OtherOutcome.
(** The calls of [finish_sinks], each on one sink or its deferred state; what they
    answer depends on the calls before. *)
Inductive finish_call := Commit (id : string) | PutBookmark (id key : string) (bm : Value) | AbortOverwrite (id : string) | CompleteRun (id : string).
Record ending := MkEnding { en_id : string; en_overwrites : bool; en_deferred : option string; en_bookmark : option Value }.
Definition endings (outcomes : list NodeOutcome) : list ending :=
  omap (fun o => match o with SinkOutcome id _ bm ow d => Some (MkEnding id ow d bm) | _ => None end) outcomes.

Section Finish.
Context (answer : list finish_call -> finish_call -> result unit FaucetError).

(** [abort_quietly] on every overwriting sink. *)
Definition abort_all (sinks : list ending) : list finish_call :=
  (fun f => AbortOverwrite (en_id f)) <$> List.filter en_overwrites sinks.
Definition commit_one (log : list finish_call) (f : ending) : result unit FaucetError * list finish_call :=
  let log' := log ++ [Commit (en_id f)] in
  match answer log (Commit (en_id f)) with
  | Err e => (Err e, log')
  | Ok _ =>
      match en_deferred f, en_bookmark f with
      | Some key, Some bm => (answer log' (PutBookmark (en_id f) key bm), log' ++ [PutBookmark (en_id f) key bm])
      | _, _ => (Ok tt, log')
      end
  end.
Fixpoint commit_all (log : list finish_call) (sinks : list ending) : result unit FaucetError * list finish_call :=
  match sinks with
  | [] => (Ok tt, log)
  | f :: sinks =>
      if en_overwrites f then
        match commit_one log f with
        | (Ok _, log) => commit_all log sinks
        | (Err e, log) => (Err e, log ++ abort_all sinks)
        end
      else commit_all log sinks
  end.
Fixpoint complete_all (log : list finish_call) (sinks : list ending) : result unit FaucetError * list finish_call :=
  match sinks with
  | [] => (Ok tt, log)
  | f :: sinks =>
      match answer log (CompleteRun (en_id f)) with
      | Ok _ => complete_all (log ++ [CompleteRun (en_id f)]) sinks
      | Err e => (Err e, log ++ [CompleteRun (en_id f)])
      end
  end.
Definition finish_sinks (outcomes : list NodeOutcome) (complete : bool) : result unit FaucetError * list finish_call :=
  let sinks := endings outcomes in
  if negb complete then (Ok tt, abort_all sinks)
  else match commit_all [] sinks with
       | (Ok _, log) => complete_all log sinks
       | failed => failed
       end.
End Finish.

Record TopologyResult := MkTopologyResult {
  records_written : Z;
  per_sink : gmap string Z;
  tr_bookmarks : gmap string (option Value);
  tr_errors : list string;
}.
Definition aggregate_one (acc : TopologyResult * gmap string Z) (o : NodeOutcome) : TopologyResult * gmap string Z :=
  let '(r, per_source) := acc in
  match o with
  | SinkOutcome id n bm _ _ => (MkTopologyResult (records_written r + n) (<[id := n]> (per_sink r)) (<[id := bm]> (tr_bookmarks r)) (tr_errors r), per_source)
  | SourceOutcome id n => (r, <[id := n]> per_source)
  | OtherOutcome => (r, per_source)
  end.
Definition aggregate (outcomes : list NodeOutcome) : TopologyResult * gmap string Z :=
  foldl aggregate_one (MkTopologyResult 0 ∅ ∅ [], ∅) outcomes.

Inductive NodeErrorKind := KCircuitOpen | KOther.
Definition NodeErrorKind_classify (e : FaucetError) : NodeErrorKind := match e with CircuitOpen _ _ => KCircuitOpen | _ => KOther end.
Record NodeReport := MkNodeReport {
  nr_id : string;
  nr_kind : string;
  nr_records : Z;
  nr_bookmark : option Value;
  nr_error : option string;
  nr_error_kind : option NodeErrorKind;
}.
Definition node_failure : Type := string * string * NodeErrorKind.
Definition upstream_failed (f : node_failure) : string :=
  "upstream node '" +:+ f.1.1 +:+ "' failed, so this sink did not receive its complete input: " +:+ f.1.2.
Definition report (sinks : TopologyResult) (per_source : gmap string Z) (errors : list node_failure) (ancestors : string -> gset string) (n : string * string) : NodeReport :=
  let '(id, kind) := n in
  let own := List.find (fun f : node_failure => string_eqb f.1.1 id) errors in
  let upstream := if is_none own && string_eqb kind "sink" then List.find (fun f : node_failure => bool_decide (f.1.1 ∈ ancestors id)) errors else None in
  let '(error, error_kind) := match own, upstream with
                              | Some f, _ => (Some f.1.2, Some f.2)
                              | None, Some f => (Some (upstream_failed f), Some f.2)
                              | None, None => (None, None)
                              end in
  MkNodeReport id kind (match per_sink sinks !! id with Some n => n | None => default 0 (per_source !! id) end)
    (mjoin (tr_bookmarks sinks !! id)) error error_kind.
Definition reports (order : list (string * string)) (sinks : TopologyResult) (per_source : gmap string Z) (errors : list node_failure) (ancestors : string -> gset string) : list NodeReport :=
  report sinks per_source errors ancestors <$> order.

(** ** A replay gives every sink the rest *)

Section Replay.
Context (to_json : Value -> string) (position_le : Value -> Value -> option bool) (record_covered : Value -> Value -> option bool) (connector : string).
(** The changes of the source, each as the rows it becomes at a sink, and the positions
    between them: [pos i] is after the first [i] changes. *)
Context (log : list (list Value)) (pos : nat -> Value).

(** What the source answers about its own positions and about the rows it delivered. *)
Record orders : Prop := {
  or_le : forall i j, (i <= length log)%nat -> (j <= length log)%nat -> position_le (pos i) (pos j) = Some (bool_decide (i <= j)%nat);
  or_covered : forall i k rows r, log !! i = Some rows -> r ∈ rows -> (k <= length log)%nat -> record_covered r (pos k) = Some (bool_decide (i < k)%nat);
}.
(** Changes [a] to [b]. *)
Definition slice (a b : nat) : list Value := concat (take (b - a) (drop a log)).
(** A stream of pages from change [a] to change [c], cut anywhere; a page may carry the
    position of its end. *)
Inductive cut : nat -> nat -> list StreamPage -> Prop :=
| cut_end a : (a <= length log)%nat -> cut a a []
| cut_page a b c bm pages : (a <= b)%nat -> bm = None \/ bm = Some (pos b) -> cut b c pages -> cut a c (MkStreamPage (slice a b) bm :: pages).

Context (Hord : orders).
Notation sink_pages := (sink_pages position_le record_covered connector).

Lemma cut_bounds a c pages : cut a c pages -> (a <= c <= length log)%nat.
Proof. induction 1; lia. Qed.
Lemma slice_app a b c : (a <= b <= c)%nat -> slice a c = slice a b ++ slice b c.
Proof.
  intros H. unfold slice. rewrite <- concat_app. f_equal. replace (c - a)%nat with ((b - a) + (c - b))%nat by lia.
  rewrite <- take_take_drop, drop_drop. do 3 f_equal. lia.
Qed.
Lemma slice_empty a b : (b <= a)%nat -> slice a b = [].
Proof. intros H. unfold slice. by replace (b - a)%nat with 0%nat by lia. Qed.
Lemma slice_elem r a b : r ∈ slice a b -> exists i rows, (a <= i < b)%nat /\ log !! i = Some rows /\ r ∈ rows.
Proof.
  unfold slice. rewrite list_elem_of_In, List.in_concat. intros (rows & Hin & Hr). apply list_elem_of_In in Hr, Hin. apply list_elem_of_lookup_1 in Hin as [i Hi].
  apply lookup_take_Some in Hi as [Hi Hlt]. rewrite lookup_drop in Hi. exists (a + i)%nat, rows. split; [lia|done].
Qed.
Lemma filter_drops {A} (f : A -> bool) l : (forall x, x ∈ l -> f x = false) -> List.filter f l = [].
Proof. induction l as [|x l IH]; intros H; [done|]. cbn. rewrite H by left. apply IH. intros y Hy. apply H. by right. Qed.
(** Trimming a slice at a position. *)
Lemma trim_slice k a b keyed id : (k <= length log)%nat -> (a <= b)%nat ->
  trim_covered record_covered connector (slice a b) (pos k) keyed id = Ok (slice (Nat.max a k) b).
Proof.
  intros Hk Hab. unfold trim_covered.
  assert (existsb (fun r => is_none (record_covered r (pos k))) (slice a b) = false) as ->.
  { apply not_true_is_false. intros (r & Hr & Hn)%existsb_exists. apply list_elem_of_In, slice_elem in Hr as (i & rows & _ & Hi & Hin).
    by rewrite (or_covered Hord i k rows r Hi Hin Hk) in Hn. }
  cbn [andb]. f_equal.
  assert (forall a b, (forall i, (a <= i < b)%nat -> (k <= i)%nat) -> List.filter (fun r => match record_covered r (pos k) with Some covered => negb covered | None => true end) (slice a b) = slice a b) as Hkeep.
  { intros x y Hi. apply List.forallb_filter_id. apply forallb_forall. intros r (i & rows & Hxy & Hrows & Hin)%list_elem_of_In%slice_elem.
    rewrite (or_covered Hord i k rows r Hrows Hin Hk), bool_decide_eq_false_2; [done|]. specialize (Hi i Hxy). lia. }
  assert (forall a b, (forall i, (a <= i < b)%nat -> (i < k)%nat) -> List.filter (fun r => match record_covered r (pos k) with Some covered => negb covered | None => true end) (slice a b) = []) as Hdrop.
  { intros x y Hi. apply filter_drops. intros r (i & rows & Hxy & Hrows & Hin)%slice_elem.
    rewrite (or_covered Hord i k rows r Hrows Hin Hk), bool_decide_eq_true_2; [done|]. by apply Hi. }
  destruct (decide (k <= a)%nat); [rewrite Nat.max_l by lia; apply Hkeep; lia|]. rewrite Nat.max_r by lia.
  destruct (decide (b <= k)%nat); [rewrite (slice_empty k b) by lia; apply Hdrop; lia|].
  rewrite (slice_app a k b) by lia. rewrite List.filter_app, (Hdrop a k), (Hkeep k b) by (intros; lia). done.
Qed.

(** What a sink at position [k] is given of a replay from [a] to [c]. *)
Definition rows_of (pages : list (result StreamPage FaucetError)) : option (list Value) :=
  @concat Value <$> mapM (fun r => match r with Ok p => Some (sp_records p) | Err _ => None end) pages.
Lemma rows_of_cons p pages rows : rows_of pages = Some rows -> rows_of (Ok p :: pages) = Some (sp_records p ++ rows).
Proof. unfold rows_of. cbn. destruct (mapM _ pages); cbn; [|done]. by intros [= <-]. Qed.
Lemma untouched keyed id a c pages : cut a c pages -> rows_of (sink_pages keyed id None pages) = Some (slice a c).
Proof.
  induction 1 as [a Ha|a b c bm pages Hab _ Hc IH]; [by rewrite slice_empty|]. cbn [Resume.sink_pages]. rewrite (slice_app a b c) by (apply cut_bounds in Hc; lia).
  by erewrite rows_of_cons; [|exact IH].
Qed.
Lemma replay_trimmed keyed id k a c pages : (k <= length log)%nat -> cut a c pages -> rows_of (sink_pages keyed id (Some (pos k)) pages) = Some (slice (Nat.max a k) c).
Proof.
  intros Hk. induction 1 as [a Ha|a b c bm pages Hab Hbm Hc IH]; [by rewrite slice_empty by lia|]. pose proof (cut_bounds _ _ _ Hc) as Hb.
  cbn [Resume.sink_pages]. unfold covered_page. cbn [sp_bookmark sp_records]. destruct Hbm as [->| ->].
  - rewrite trim_slice by lia. erewrite rows_of_cons; [|exact IH]. cbn [sp_records]. f_equal. destruct (decide (b <= k)%nat).
    + rewrite (slice_empty _ b) by lia. by rewrite !Nat.max_r by lia.
    + rewrite (Nat.max_l b) by lia. symmetry. apply slice_app. lia.
  - rewrite !(or_le Hord) by lia. destruct (decide (b <= k)%nat).
    + rewrite (bool_decide_eq_true_2 (b <= k)%nat), bool_decide_eq_true_2 by done. rewrite IH. by rewrite !Nat.max_r by lia.
    + rewrite (bool_decide_eq_false_2 (b <= k)%nat), bool_decide_eq_false_2 by (done || lia).
      rewrite (bool_decide_eq_true_2 (k <= b)%nat), bool_decide_eq_true_2 by (done || lia). rewrite trim_slice by lia. rewrite decide_True by done.
      erewrite rows_of_cons; [|by apply untouched]. cbn [sp_records]. f_equal. symmetry. apply slice_app. lia.
Qed.

(** ** The plan *)

(** A sink has committed the first [k] changes. *)
Definition at_position (p : committed) (k : nat) : Prop := (k <= length log)%nat /\ (p.1.2 = Some (pos k) \/ p.1.2 = None /\ k = 0%nat).
Definition starts_at (start : option Value) (i : nat) : Prop := match start with Some p => p = pos i | None => i = 0%nat end.

Lemma pos_inj i j : (i <= length log)%nat -> (j <= length log)%nat -> pos i = pos j -> i = j.
Proof.
  intros Hi Hj E. pose proof (or_le Hord i j Hi Hj) as H1. pose proof (or_le Hord j i Hj Hi) as H2. pose proof (or_le Hord j j Hj Hj) as H3. rewrite E in H1, H2.
  rewrite H3 in H1, H2. rewrite bool_decide_eq_true_2 in H1, H2 by done. injection H1 as H1. injection H2 as H2. symmetry in H1, H2. apply bool_decide_eq_true in H1, H2. lia.
Qed.
(** Of positions the source orders, one is the earliest. *)
Lemma position_min_earliest known m : position_min position_le known = Some m ->
  m ∈ known /\ forall k i, (k <= length log)%nat -> (i <= length log)%nat -> pos k ∈ known -> m = pos i -> (i <= k)%nat.
Proof.
  unfold position_min. destruct known as [|first rest] eqn:Ek; [done|]. rewrite <- Ek. destruct (forallb _ known) eqn:Eq.
  - intros [= <-]. split; [rewrite Ek; left|]. intros k i Hk Hi Hin ->. rewrite forallb_forall in Eq. apply list_elem_of_In, Eq, value_eqb_eq in Hin. by apply pos_inj in Hin as ->.
  - intros [Hin Hall]%List.find_some. apply list_elem_of_In in Hin. split; [done|]. intros k i Hk Hi Hp ->. rewrite forallb_forall in Hall. apply list_elem_of_In, Hall in Hp.
    apply bool_decide_eq_true in Hp. rewrite (or_le Hord) in Hp by done. injection Hp as Hp. by apply bool_decide_eq_true in Hp.
Qed.
Lemma position_min_exists known : known <> [] -> (forall b, b ∈ known -> exists k, b = pos k /\ (k <= length log)%nat) -> is_Some (position_min position_le known).
Proof.
  intros Hne Hk. assert (exists m, pos m ∈ known /\ (m <= length log)%nat /\ forall b, b ∈ known -> position_le (pos m) b = Some true) as (m & Hm & Hml & Hmin).
  { induction known as [|b rest IH]; [done|]. destruct (Hk b ltac:(left)) as (k & -> & Hkl). destruct rest as [|b' rest'] eqn:Er.
    - exists k. split; [left|]. split; [done|]. intros ? ->%list_elem_of_singleton. rewrite (or_le Hord), bool_decide_eq_true_2 by done. done.
    - rewrite <- Er in *. destruct IH as (m & Hm & Hml & Hmin); [by rewrite Er|intros; apply Hk; by right|]. destruct (decide (k <= m)%nat).
      + exists k. split; [left|]. split; [done|]. intros c [->|Hc]%elem_of_cons; [by rewrite (or_le Hord), bool_decide_eq_true_2 by done|].
        destruct (Hk c ltac:(by right)) as (j & -> & Hj). pose proof (Hmin _ Hc) as Hmc. rewrite (or_le Hord) in Hmc by done. injection Hmc as Hmc. apply bool_decide_eq_true in Hmc.
        rewrite (or_le Hord), bool_decide_eq_true_2 by (done || lia). done.
      + exists m. split; [by right|]. split; [done|]. intros c [->|Hc]%elem_of_cons; [|auto]. rewrite (or_le Hord), bool_decide_eq_true_2 by (done || lia). done. }
  unfold position_min. destruct known as [|first rest] eqn:Ek; [done|]. rewrite <- Ek in *. destruct (forallb _ known); [eauto|].
  destruct (List.find _ known) as [x|] eqn:Ef; [eauto|]. exfalso. apply list_elem_of_In in Hm. pose proof (List.find_none _ _ Ef _ Hm) as Hf. cbn beta in Hf.
  apply not_true_iff_false in Hf. apply Hf. apply forallb_forall. intros b Hb%list_elem_of_In. apply bool_decide_eq_true. auto.
Qed.

Notation plan_of := (plan_exactly_once to_json position_le connector).
Lemma omap_full {A B} (f : A -> option B) l x : length (omap f l) = length l -> x ∈ l -> f x <> None.
Proof.
  assert (forall l, length (omap f l) <= length l)%nat as Hle by (intros k; induction k as [|y k IH]; cbn; [done|]; destruct (f y); cbn; lia).
  induction l as [|y l IH]; intros El Hx; [by apply not_elem_of_nil in Hx|]. cbn in El. specialize (Hle l).
  destruct (f y) eqn:Ef; cbn in El; [|lia]. apply elem_of_cons in Hx as [->|Hx]; [congruence|auto].
Qed.
(** The position a resumed sink skips to is its own, and the replay starts at or before it. *)
Definition resumes (start skip : option Value) (k : nat) : Prop := forall i, (i <= length log)%nat -> starts_at start i ->
  match skip with None => i = k | Some p => p = pos k /\ (i <= k)%nat end.
Lemma plan_resumes positions pipeline plan p k : plan_of positions 1 pipeline = Ok plan -> p ∈ positions -> at_position p k ->
  exists skip, (p.1.1, MkSinkResume p.2 skip) ∈ rp_sinks plan /\ resumes (rp_start plan) skip k.
Proof.
  intros Hplan Hp [Hk Hpk]. unfold plan_exactly_once in Hplan. cbn [Z.eqb negb Pos.eqb] in Hplan.
  set (known := omap (fun p : committed => p.1.2) positions) in *.
  assert (forall b, p.1.2 = Some b -> b ∈ known) as Hknown by (intros b Hb; apply list_elem_of_omap; eauto).
  assert (forall skip, (p.1.1, MkSinkResume p.2 (skip p.1.2)) ∈ own_resume skip positions) as Hown.
  { intros skip. apply list_elem_of_fmap. exists p. destruct p as [[id bm] seq]. done. }
  assert ((length known = length positions) -> p.1.2 <> None) as Hall by (intros El; by eapply (omap_full (fun p : committed => p.1.2) positions)).
  destruct (_ && _) eqn:Eall in Hplan; [|destruct (_ && _) eqn:Eord in Hplan; [|destruct (forallb _ positions) eqn:Enone; [|done]]]; injection Hplan as <-; cbn [rp_start rp_sinks].
  - exists None. split; [apply (Hown no_skip)|]. apply andb_true_iff in Eall as [El Eeq]. apply Nat.eqb_eq in El. intros i Hi Hs.
    destruct Hpk as [Hpk|[Hpk _]]; [|by destruct (Hall El)]. specialize (Hknown _ Hpk). destruct known as [|first rest]; [by apply not_elem_of_nil in Hknown|]. cbn in Hs. subst first.
    rewrite forallb_forall in Eeq. apply list_elem_of_In, Eeq, value_eqb_eq, pos_inj in Hknown; done.
  - apply andb_true_iff in Eord as [_ Eor]. eexists. split; [apply Hown|]. intros i Hi Hs. destruct (length known =? length positions)%nat eqn:El.
    + apply Nat.eqb_eq in El. destruct Hpk as [Hpk|[Hpk _]]; [|by destruct (Hall El)]. rewrite Hpk. cbn [skip_unless mbind option_bind]. cbn [negb orb] in Eor. rewrite orb_false_r in Eor. apply bool_decide_eq_true in Eor as [m Em].
      rewrite Em in *. cbn in Hs. subst m. apply position_min_earliest in Em as [_ Hmin]. case_bool_decide as Ek; [injection Ek as Ek; symmetry; by apply pos_inj|]. split; [done|]. eapply Hmin; eauto.
    + cbn in Hs. subst i. destruct Hpk as [Hpk|[Hpk ->]]; rewrite Hpk; cbn; [split; [done|lia]|done].
  - exists None. split; [apply (Hown no_skip)|]. intros i Hi Hs. cbn in Hs. subst i. rewrite forallb_forall in Enone. apply list_elem_of_In, Enone, andb_true_iff in Hp as [Hn _].
    destruct Hpk as [Hpk|[_ ->]]; [by rewrite Hpk in Hn|done].
Qed.
Lemma plan_exists positions pipeline : (forall p, p ∈ positions -> exists k, at_position p k /\ (p.1.2 = None -> p.2 = 0)) ->
  exists plan, plan_of positions 1 pipeline = Ok plan.
Proof.
  intros Hpos. destruct (plan_of positions 1 pipeline) as [plan|e] eqn:Hplan; [eauto|]. exfalso.
  unfold plan_exactly_once in Hplan. cbn [Z.eqb negb Pos.eqb] in Hplan. set (known := omap (fun p : committed => p.1.2) positions) in *.
  destruct (_ && _) eqn:Eall in Hplan; [done|]. destruct (_ && _) eqn:Eord in Hplan; [done|]. destruct (forallb _ positions) eqn:En; [done|]. clear Hplan Eall.
  assert (forall b, b ∈ known -> exists k, b = pos k /\ (k <= length log)%nat) as Hk.
  { intros b (p & Hp & Hb)%list_elem_of_omap. destruct (Hpos p Hp) as (k & [Hk [Hpk|[Hpk _]]] & _); [|congruence]. exists k. split; [congruence|done]. }
  destruct known as [|b known'] eqn:Ek.
  - apply not_true_iff_false in En. apply En. apply forallb_forall. intros p Hp%list_elem_of_In. destruct (Hpos p Hp) as (k & _ & Hseq).
    destruct (p.1.2) as [b|] eqn:Eb; [|by rewrite Hseq]. assert (b ∈ []) as Hb by (rewrite <- Ek; apply list_elem_of_omap; eauto). by apply not_elem_of_nil in Hb.
  - rewrite <- Ek in *. destruct (Hk b ltac:(rewrite Ek; left)) as (k & -> & Hkl). 
    rewrite (bool_decide_eq_true_2 (is_Some (position_le (pos k) (pos k)))) in Eord by (rewrite (or_le Hord) by done; eauto). cbn [andb] in Eord. destruct (length known =? length positions)%nat; [|by rewrite orb_true_r in Eord].
    rewrite bool_decide_eq_true_2 in Eord; [done|]. apply position_min_exists; [by rewrite Ek|done].
Qed.
End Replay.

(** C9: Exactly-once resume of a graph whose sinks stopped at different positions. For a
    source that totally orders its positions ([position_le] answers for any two) and whose
    [record_covered] tells exactly which rows a position covers, and sinks each of which
    stopped at a position of that source (or never committed: sequence zero), the plan
    exists; and whatever pages the replay from its start is cut into, and wherever
    it stops, each sink is given exactly the rows of the changes after its own position,
    each once and in order, under its own token sequence. *)
Theorem resumed_sinks_get_the_rest to_json position_le record_covered connector log pos positions pipeline :
  orders position_le record_covered log pos ->
  (forall p, p ∈ positions -> exists k, at_position log pos p k /\ (p.1.2 = None -> p.2 = 0)) ->
  exists plan, plan_exactly_once to_json position_le connector positions 1 pipeline = Ok plan /\
  forall p k, p ∈ positions -> at_position log pos p k ->
    exists skip, (p.1.1, MkSinkResume p.2 skip) ∈ rp_sinks plan /\
    forall keyed i c pages, starts_at pos (rp_start plan) i -> cut log pos i c pages ->
      rows_of (sink_pages position_le record_covered connector keyed p.1.1 skip pages) = Some (slice log k c).
Proof.
  intros Hord Hpos. destruct (plan_exists to_json position_le record_covered connector log pos Hord positions pipeline Hpos) as [plan Hplan].
  exists plan. split; [done|]. intros p k Hp Hk. destruct (plan_resumes to_json position_le record_covered connector log pos Hord positions pipeline plan p k Hplan Hp Hk) as (skip & Hin & Hres).
  exists skip. split; [done|]. intros keyed i c pages Hs Hc. pose proof (cut_bounds _ _ _ _ _ Hc) as Hb. specialize (Hres i ltac:(lia) Hs).
  destruct skip as [x|]; [|subst i; by apply untouched with pos]. destruct Hres as [-> Hle]. destruct Hk as [Hk _].
  rewrite (replay_trimmed position_le record_covered connector log pos Hord keyed p.1.1 k i c pages Hk Hc). by rewrite Nat.max_r.
Qed.

(** Three changes, counted by the length of an array; one sink committed one of them,
    another two. *)
Definition count_pos (i : nat) : Value := VArray (replicate i Null).
Definition count_le (a b : Value) : option bool :=
  match a, b with VArray x, VArray y => Some (bool_decide (length x <= length y)%nat) | _, _ => None end.
Definition count_covered (r p : Value) : option bool :=
  match r, p with VArray x, VArray y => Some (bool_decide (length x < length y)%nat) | _, _ => None end.
Definition count_log : list (list Value) := [[count_pos 0]; [count_pos 1]; [count_pos 2]].
Lemma resumed_sinks_get_the_rest_witness :
  exists plan, plan_exactly_once (fun _ => EmptyString) count_le "counter" [("a", Some (count_pos 1), 1); ("b", Some (count_pos 2), 2)] 1 "p" = Ok plan /\
  forall p k, p ∈ [("a", Some (count_pos 1), 1); ("b", Some (count_pos 2), 2)] -> at_position count_log count_pos p k ->
    exists skip, (p.1.1, MkSinkResume p.2 skip) ∈ rp_sinks plan /\
    forall keyed i c pages, starts_at count_pos (rp_start plan) i -> cut count_log count_pos i c pages ->
      rows_of (sink_pages count_le count_covered "counter" keyed p.1.1 skip pages) = Some (slice count_log k c).
Proof.
  apply (resumed_sinks_get_the_rest (fun _ => EmptyString) count_le count_covered "counter" count_log count_pos).
  - split.
    + intros i j _ _. cbn. by rewrite !length_replicate.
    + intros i k rows r Hi Hr _. destruct i as [|[|[|i]]]; cbn in Hi; simplify_eq; apply list_elem_of_singleton in Hr as ->; cbn; by rewrite length_replicate.
  - intros p Hp. rewrite !elem_of_cons in Hp. destruct Hp as [->|[->|Hp]]; [exists 1%nat|exists 2%nat|by apply not_elem_of_nil in Hp];
      (split; [split; [cbn; lia|by left]|done]).
Defined.

(** ** Overwrites are settled together *)

Section Settle.
Context (answer : list finish_call -> finish_call -> result unit FaucetError).
Definition every (Q : list finish_call -> finish_call -> Prop) (log : list finish_call) : Prop := forall pre c post, log = pre ++ c :: post -> Q pre c.
(** The call was made and answered without an error. *)
Definition accepted (log : list finish_call) (c : finish_call) : Prop := exists pre post, log = pre ++ c :: post /\ answer pre c = Ok tt.
(** Every call so far succeeded and none discarded a sink's staging. *)
Definition undisturbed : list finish_call -> Prop :=
  every (fun pre c => answer pre c = Ok tt /\ forall id, c <> AbortOverwrite id).
(** What precedes each call: a commit no failed call and no discarded sink, a bookmark
    its sink's accepted commit, a completion the accepted commits of all the sinks and no
    failed call; and a sink is committed or discarded, once. *)
Definition in_order (sinks : list ending) (pre : list finish_call) (c : finish_call) : Prop :=
  match c with
  | PutBookmark id _ _ => exists pre', pre = pre' ++ [Commit id] /\ answer pre' (Commit id) = Ok tt
  | CompleteRun _ => undisturbed pre /\ forall f, f ∈ sinks -> en_overwrites f = true -> accepted pre (Commit (en_id f))
  | Commit id => undisturbed pre /\ Commit id ∉ pre /\ AbortOverwrite id ∉ pre
  | AbortOverwrite id => Commit id ∉ pre /\ AbortOverwrite id ∉ pre
  end.

Lemma every_snoc Q log c : every Q log -> Q log c -> every Q (log ++ [c]).
Proof.
  intros Hl Hc pre x post E. destruct post as [|y post _] using rev_ind; [apply app_inj_tail in E as [-> ->]; done|].
  change (x :: post ++ [y]) with ((x :: post) ++ [y]) in E. rewrite app_assoc in E. apply app_inj_tail in E as [E _]. by eapply Hl.
Qed.
Lemma accepted_app log l c : accepted log c -> accepted (log ++ l) c.
Proof. intros (pre & post & -> & H). exists pre, (post ++ l). by rewrite <- app_assoc. Qed.
Lemma accepted_last log c : answer log c = Ok tt -> accepted (log ++ [c]) c.
Proof. intros H. exists log, []. done. Qed.

Definition fresh (log : list finish_call) (sinks : list ending) : Prop := forall f, f ∈ sinks -> Commit (en_id f) ∉ log /\ AbortOverwrite (en_id f) ∉ log.

Lemma abort_all_in_order all log sinks : NoDup (en_id <$> sinks) -> fresh log sinks -> every (in_order all) log -> every (in_order all) (log ++ abort_all sinks).
Proof.
  unfold abort_all. revert log. induction sinks as [|f sinks IH]; intros log Hnd Hf Hl; cbn; [by rewrite app_nil_r|]. apply NoDup_cons in Hnd as [Hnot Hnd].
  assert (fresh log sinks) as Hf' by (intros g Hg; apply Hf; by right). destruct (en_overwrites f); [|by apply IH]. cbn. rewrite (cons_middle (AbortOverwrite (en_id f))), app_assoc. apply IH; [done| |].
  - intros g Hg. destruct (Hf' g Hg) as [H1 H2]. rewrite !elem_of_app, !list_elem_of_singleton. split; [intros [|[=]]; auto|]. intros [|[= E]]; [auto|].
    apply Hnot. rewrite <- E. apply list_elem_of_fmap. eauto.
  - apply every_snoc; [done|]. apply Hf. left.
Qed.

Lemma commit_one_spec all log f r log' : Commit (en_id f) ∉ log /\ AbortOverwrite (en_id f) ∉ log -> every (in_order all) log -> undisturbed log -> commit_one answer log f = (r, log') ->
  every (in_order all) log' /\ (is_ok r = true -> undisturbed log') /\ (is_ok r = true -> accepted log' (Commit (en_id f))) /\ Commit (en_id f) ∈ log' /\
  exists ext, log' = log ++ ext /\ forall c, c ∈ ext -> c = Commit (en_id f) \/ exists key bm, c = PutBookmark (en_id f) key bm.
Proof.
  intros Hf Hl Hu. unfold commit_one. pose proof (every_snoc _ _ (Commit (en_id f)) Hl (conj Hu Hf)) as Hc.
  destruct (answer log (Commit (en_id f))) as [[]|e] eqn:Ea.
  - assert (undisturbed (log ++ [Commit (en_id f)])) as Hu1 by (by apply every_snoc).
    destruct (en_deferred f) as [key|]; [destruct (en_bookmark f) as [bm|]|]; intros [= <- <-].
    + split; [apply every_snoc; [done|]; by exists log|].
      split; [intros Hok; apply every_snoc; [done|]; split; [revert Hok; by destruct (answer _ (PutBookmark _ _ _)) as [[]|]|done]|].
      split; [intros _; apply accepted_app; by apply accepted_last|]. split; [set_solver|].
      exists [Commit (en_id f); PutBookmark (en_id f) key bm]. split; [by rewrite <- app_assoc|]. intros c. rewrite !elem_of_cons. naive_solver (by apply not_elem_of_nil in H).
    + split; [done|]. split; [done|]. split; [intros _; by apply accepted_last|]. split; [set_solver|]. exists [Commit (en_id f)]. split; [done|]. intros c ->%list_elem_of_singleton. by left.
    + split; [done|]. split; [done|]. split; [intros _; by apply accepted_last|]. split; [set_solver|]. exists [Commit (en_id f)]. split; [done|]. intros c ->%list_elem_of_singleton. by left.
  - intros [= <- <-]. split; [done|]. split; [done|]. split; [done|]. split; [set_solver|]. exists [Commit (en_id f)]. split; [done|]. intros c ->%list_elem_of_singleton. by left.
Qed.
Lemma abort_all_in sinks f : f ∈ sinks -> en_overwrites f = true -> AbortOverwrite (en_id f) ∈ abort_all sinks.
Proof. intros Hf Ho. apply list_elem_of_fmap. exists f. split; [done|]. apply list_elem_of_In, List.filter_In. split; [by apply list_elem_of_In|done]. Qed.

(** Every overwriting sink is told to commit or to discard. *)
Definition settled (log : list finish_call) (f : ending) : Prop := Commit (en_id f) ∈ log \/ AbortOverwrite (en_id f) ∈ log.
Lemma commit_all_spec all log sinks r log' : NoDup (en_id <$> sinks) -> fresh log sinks -> every (in_order all) log -> undisturbed log -> commit_all answer log sinks = (r, log') ->
  every (in_order all) log' /\ (is_ok r = true -> undisturbed log') /\ (exists ext, log' = log ++ ext) /\
  forall f, f ∈ sinks -> en_overwrites f = true -> settled log' f /\ (is_ok r = true -> accepted log' (Commit (en_id f))).
Proof.
  revert log. induction sinks as [|f sinks IH]; intros log Hnd Hf Hl Hu; cbn [commit_all].
  { intros [= <- <-]. split; [done|]. split; [done|]. split; [exists []; by rewrite app_nil_r|]. intros f Hin. by apply not_elem_of_nil in Hin. }
  apply NoDup_cons in Hnd as [Hnot Hnd]. destruct (en_overwrites f) eqn:Eo.
  - destruct (commit_one answer log f) as [r1 log1] eqn:E1. destruct (commit_one_spec all log f r1 log1 (Hf f ltac:(left)) Hl Hu E1) as (Hl1 & Hu1 & Hacc & Hin1 & ext1 & -> & Hext).
    assert (fresh (log ++ ext1) sinks) as Hf1.
    { intros g Hg. destruct (Hf g ltac:(by right)) as [H1 H2]. assert (en_id g <> en_id f) as Hne by (intros E; apply Hnot; rewrite <- E; apply list_elem_of_fmap; eauto).
      rewrite !elem_of_app. split; intros [|Hx]; try done; apply Hext in Hx as [|(? & ? & ?)]; congruence. }
    destruct r1 as [[]|e].
    + intros H. destruct (IH _ Hnd Hf1 Hl1 (Hu1 eq_refl) H) as (H1 & H2 & (ext & ->) & H3). split; [done|]. split; [done|]. split; [exists (ext1 ++ ext); by rewrite app_assoc|].
      intros g [->|Hg]%elem_of_cons Hog; [|by apply H3]. split; [left; apply elem_of_app; by left|]. intros _. apply accepted_app, Hacc. done.
    + intros [= <- <-]. split; [by apply abort_all_in_order|]. split; [done|]. split; [exists (ext1 ++ abort_all sinks); by rewrite app_assoc|].
      intros g [->|Hg]%elem_of_cons Hog; (split; [|done]); [left; apply elem_of_app; by left|]. right. apply elem_of_app. right. by apply abort_all_in.
  - intros H. destruct (IH log Hnd ltac:(intros g Hg; apply Hf; by right) Hl Hu H) as (H1 & H2 & H3 & H4). split; [done|]. split; [done|]. split; [done|].
    intros g [->|Hg]%elem_of_cons Hog; [congruence|by apply H4].
Qed.
Lemma complete_all_spec all log sinks r log' : (forall f, f ∈ all -> en_overwrites f = true -> accepted log (Commit (en_id f))) -> every (in_order all) log -> undisturbed log ->
  complete_all answer log sinks = (r, log') -> every (in_order all) log' /\ exists ext, log' = log ++ ext.
Proof.
  revert log. induction sinks as [|f sinks IH]; intros log Hacc Hl Hu; cbn [complete_all]; [intros [= <- <-]; split; [done|]; exists []; by rewrite app_nil_r|].
  assert (every (in_order all) (log ++ [CompleteRun (en_id f)])) as Hl' by (by apply every_snoc). destruct (answer log _) as [[]|e] eqn:Ea.
  - intros H. destruct (IH _ ltac:(intros; by apply accepted_app, Hacc) Hl' ltac:(by apply every_snoc) H) as (H1 & ext & ->). split; [done|]. exists (CompleteRun (en_id f) :: ext). by rewrite <- app_assoc.
  - intros [= <- <-]. eauto.
Qed.
End Settle.

(** C10: The sinks of a graph are finished together. However the calls answer, every
    overwriting sink that ended is told either to commit or to discard its staging, and
    only one of the two, once; after a run that failed or was cancelled all of them
    discard. No sink is committed once a commit or the storing of a bookmark has failed or
    a sink has been discarded: the sinks after it discard. A bookmark held back is stored only right after its sink's commit succeeded,
    and no sink completes before every overwriting sink has committed, nor after a failed
    call. *)
Theorem sinks_finish_together answer outcomes complete r log :
  NoDup (en_id <$> endings outcomes) -> finish_sinks answer outcomes complete = (r, log) ->
  every (in_order answer (endings outcomes)) log /\
  forall f, f ∈ endings outcomes -> en_overwrites f = true ->
    if complete then settled log f /\ (is_ok r = true -> accepted answer log (Commit (en_id f))) else AbortOverwrite (en_id f) ∈ log.
Proof.
  intros Hnd. unfold finish_sinks. assert (forall Q, every Q []) as Hnil by (by intros Q [] ? ? ?).
  assert (fresh [] (endings outcomes)) as Hf by (intros f _; split; apply not_elem_of_nil). destruct complete; cbn [negb].
  - destruct (commit_all answer [] (endings outcomes)) as [r1 log1] eqn:Ec.
    destruct (commit_all_spec answer (endings outcomes) _ _ _ _ Hnd Hf (Hnil _) (Hnil _) Ec) as (H1 & H2 & _ & H3). destruct r1 as [u|e]; [|by intros [= <- <-]].
    intros Hc. apply complete_all_spec with (all := endings outcomes) in Hc as (H4 & ext & ->); [|intros f Hin Ho; by apply H3|done|by apply H2].
    split; [done|]. intros f Hin Ho. destruct (H3 f Hin Ho) as [Hs Ha]. split; [|intros _; by apply accepted_app, Ha]. destruct Hs; [left|right]; apply elem_of_app; by left.
  - intros [= <- <-]. split; [by apply (abort_all_in_order answer _ [])|]. intros f Hin Ho. by apply abort_all_in.
Qed.
Definition two_overwrites : list NodeOutcome :=
  [SourceOutcome "s" 2; SinkOutcome "a" 1 (Some (VString "p")) true (Some "k::a"); SinkOutcome "b" 1 (Some (VString "p")) true (Some "k::b")].
Definition second_refuses (log : list finish_call) (c : finish_call) : result unit FaucetError :=
  match c with Commit id => if string_eqb id "b" then Err (Sink "full") else Ok tt | _ => Ok tt end.
Lemma sinks_finish_together_witness :
  every (in_order second_refuses (endings two_overwrites)) (finish_sinks second_refuses two_overwrites true).2 /\
  forall f, f ∈ endings two_overwrites -> en_overwrites f = true ->
    settled (finish_sinks second_refuses two_overwrites true).2 f /\
    (is_ok (finish_sinks second_refuses two_overwrites true).1 = true -> accepted second_refuses (finish_sinks second_refuses two_overwrites true).2 (Commit (en_id f))).
Proof. apply (sinks_finish_together second_refuses two_overwrites true); [apply (bool_decide_unpack _); vm_compute; exact I|by destruct (finish_sinks _ _ _)]. Defined.
