(* ===== verification/Delivery.v ===== *)
(** The delivery contract: what an effectively-once run asks of its sink, state
    store and source, and what it promises about the destination.

    The contract is the class [AtomicWorld]: an idempotent write appends the
    page's rows and sets the scope's watermark together or does neither (and may
    answer an error either way), the state store keeps one value per key, and the
    source replays one fixed log of pages, from the start or from after a
    bookmark. The in-memory backends of Memory.v meet it. *)
From S2P Require Import Prelude Errors Json Text Accounting StateKey StateEnvelope Idempotency Dlq.
From S2P Require Import Drift Adaptive Quality Contract Engine Memory Governance StateVersion.
From S2P Require Import Resilience Hoare RunStream Pipeline.

Local Open Scope Z_scope.

(** What survives of a run, seen at the run's state key: the rows committed to
    the destination, the watermark, the stored state; and where the source would
    start reading. *)
Record durable := MkDurable {
  du_rows : list Value;
  du_mark : option string;
  du_state : option Value;
  du_pos : option Value;
}.

Definition commit_page (v : durable) (rows : list Value) (token : string) : durable :=
  MkDurable (du_rows v ++ rows) (Some token) (du_state v) (du_pos v).
Definition store_state (v : durable) (x : Value) : durable :=
  MkDurable (du_rows v) (du_mark v) (Some x) (du_pos v).
Definition move_to (v : durable) (b : Value) : durable :=
  MkDurable (du_rows v) (du_mark v) (du_state v) (Some b).

(** A stream over the pages [rest]: it ends after the last one, or breaks. *)
Inductive delivers : list (Z * result StreamPage FaucetError) -> list StreamPage -> Prop :=
| delivers_end : delivers [] []
| delivers_page d p items rest : delivers items rest -> delivers ((d, Ok p) :: items) (p :: rest)
| delivers_break d e items rest : delivers ((d, Err e) :: items) rest.

(** The log after the page that carries bookmark [b]. *)
Fixpoint after_bookmark (b : Value) (log : list StreamPage) : list StreamPage :=
  match log with
  | [] => []
  | p :: log => if decide (sp_bookmark p = Some b) then log else after_bookmark b log
  end.
Definition replay_from (pos : option Value) (log : list StreamPage) : list StreamPage :=
  match pos with None => log | Some b => after_bookmark b log end.

(** The contract of the collaborators at state key [key]. *)
Class AtomicWorld {E : Type} (source : SourceOps E) (sink : SinkOps E) (store : StoreOps E)
    (key : string) (log : list StreamPage) (view : E -> durable) : Prop := {
  law_write : forall rows token e r d e',
    write_batch_idempotent_reported sink rows key token e = ((r, d), e') ->
    view e' = commit_page (view e) rows token \/ (view e' = view e /\ is_ok r = false);
  law_token : forall e r d e',
    last_committed_token sink key e = ((r, d), e') ->
    view e' = view e /\ (forall t, r = Ok t -> t = du_mark (view e));
  law_flush : forall e r d e', flush sink e = ((r, d), e') -> view e' = view e;
  law_complete : forall e r d e', complete_run sink e = ((r, d), e') -> view e' = view e;
  law_get : forall e r d e',
    store_get store key e = ((r, d), e') ->
    view e' = view e /\ (forall v, r = Ok v -> v = du_state (view e));
  law_put : forall x e r d e',
    store_put store key x e = ((r, d), e') ->
    view e' = store_state (view e) x \/ (view e' = view e /\ is_ok r = false);
  law_start : forall b e r d e',
    apply_start_bookmark source b e = ((r, d), e') ->
    view e' = move_to (view e) b \/ (view e' = view e /\ is_ok r = false);
  law_pages : forall e, delivers (stream_pages source e).1 (replay_from (du_pos (view e)) log);
}.

(** Governance without schema drift, as a function of the page. *)
Section Governed.
Context (display : FaucetError -> string) (redact : string -> string) (specs : GovernanceSpecs).

Definition governed_rows (records : list Value) : result (list Value) FaucetError :=
  result_bind (quality_stage display redact specs 0 (masking_pass specs records)) (fun '(r, _, idx) =>
  result_bind (contract_stage display redact specs 0 r idx) (fun '(r, _, _) => Ok r)).

(** The rows the destination gets of a page. *)
Definition rows_of (p : StreamPage) : list Value :=
  default [] (result_ok (governed_rows (sp_records p))).

(** The rows the destination gets of the first [k] pages. *)
Definition log_rows (log : list StreamPage) (k : nat) : list Value := concat (rows_of <$> take k log).

End Governed.

(** The watermark after [k] pages, and the stored state after [j]. *)
Definition mark_at (to_json : Value -> string) (log : list StreamPage) (k : nat) : option string :=
  match k with
  | O => None
  | S i => Some (format_token_with_bookmark to_json (Z.of_nat k) (log !! i ≫= sp_bookmark))
  end.
Definition state_at (c : StateCodec) (log : list StreamPage) (j : nat) : option Value :=
  match j with
  | O => None
  | S i => Some (encode c (wrap_state (log !! i ≫= sp_bookmark) (Z.of_nat j)))
  end.

(** The run the contract is about: exactly-once delivery over an atomic sink and a
    deterministic source, with a state store and no dead-letter sink, where every
    page of the log carries a bookmark of its own. *)
Record eo_setup {E} (to_json : Value -> string) (from_json : string -> option Value)
    (source : SourceOps E) (sink : SinkOps E) (store : StoreOps E) (p : Pipeline E) (key : string)
    (log : list StreamPage) : Prop := {
  eo_delivery : p_delivery p = ExactlyOnce;
  eo_store : p_state_store p = Some store;
  eo_key : src_state_key source = Some key;
  eo_no_legacy : src_legacy_state_keys source = [];
  eo_replays : src_replay_guarantee source = Deterministic;
  eo_sink : supports_idempotent_writes sink = true;
  eo_append : is_overwrite sink = false;
  eo_no_dlq : p_dlq p = None;
  eo_no_drift : p_schema_drift p = None;
  eo_schema : is_u32 (src_state_schema source);
  eo_bookmarks : Forall (fun q => exists b, sp_bookmark q = Some b /\ b <> Null) log;
  eo_distinct : NoDup (sp_bookmark <$> log);
  eo_length : is_u64 (zlen log);
  eo_json : forall q b b', q ∈ log -> sp_bookmark q = Some b -> from_json (to_json b) = Some b' -> b' = b;
}.

(** ** The in-memory world *)

Definition mem_view (m : mem) : durable := MkDurable (m_rows m) (m_mark m) (m_state m) (m_pos m).

(** A source over a fixed log, whose stream breaks after [breaks] pages. *)
Definition mem_source (log : list StreamPage) (breaks : option nat) : SourceOps mem :=
  MkSourceOps "memory-source" (Some "orders") [] 0 (fun _ v => Ok v) Deterministic false false
    (fun b => mem_op (fun m => (tt, set_pos b m)))
    (fun m =>
       let pages := replay_from (m_pos m) log in
       (match breaks with
        | Some n => ((fun q => (1, Ok q)) <$> take n pages) ++ [(1, Err (Source "connection reset"))]
        | None => (fun q => (1, Ok q)) <$> pages
        end, 1)).

(** ** Facts *)

Lemma after_bookmark_drop log i b :
  NoDup (sp_bookmark <$> log) -> log !! i ≫= sp_bookmark = Some b ->
  after_bookmark b log = drop (S i) log.
Proof.
  revert i. induction log as [|p log IH]; intros i Hnd Hi; [done|].
  rewrite fmap_cons, NoDup_cons in Hnd. destruct Hnd as [Hni Hnd]. simpl.
  destruct i as [|i]; simpl in Hi.
  - by rewrite decide_True.
  - rewrite decide_False; [by rewrite (IH i)|].
    intros Hp. apply Hni. rewrite Hp, <- Hi.
    destruct (log !! i) as [q|] eqn:Hq; [|done]. simpl. by eapply list_elem_of_lookup_2, list_lookup_fmap_Some_2.
Qed.

Lemma log_rows_S display redact specs log k p :
  log !! k = Some p ->
  log_rows display redact specs log (S k) = log_rows display redact specs log k ++ rows_of display redact specs p.
Proof.
  intros H. unfold log_rows. rewrite (take_S_r _ _ _ H), fmap_app, concat_app. simpl.
  by rewrite app_nil_r.
Qed.

(** The timestamp of a page only reaches its envelopes. *)
Lemma quality_stage_ts display redact specs ts ts' records :
  (fun '(r, _, i) => (r, i)) <$> result_ok (quality_stage display redact specs ts records)
  = (fun '(r, _, i) => (r, i)) <$> result_ok (quality_stage display redact specs ts' records).
Proof. unfold quality_stage. case_match; [|done]. by destruct (_ records). Qed.

Lemma contract_stage_ts display redact specs ts ts' records idx :
  (fun '(r, _, i) => (r, i)) <$> result_ok (contract_stage display redact specs ts records idx)
  = (fun '(r, _, i) => (r, i)) <$> result_ok (contract_stage display redact specs ts' records idx).
Proof. unfold contract_stage. case_match; [|done]. case_match. by destruct (_ records). Qed.

(** What governance does without a drift policy: no call, and the rows are those
    of [rows_of]. *)
Lemma governance_quiet {E} display redact (sink : SinkOps E) specs cache records :
  gs_schema_drift specs = None ->
  quiet (apply_governance display redact sink records specs cache) /\
  forall s g c, (apply_governance display redact sink records specs cache s).1 = Val (g, c) ->
    go_records g = default [] (result_ok (governed_rows display redact specs records)) /\
    go_deferred_abort g = None.
Proof.
  intros Hd.
  assert (forall s, exists o, apply_governance display redact sink records specs cache s = (o, s) /\
    match o with
    | Val (g, c) => go_records g = default [] (result_ok (governed_rows display redact specs records)) /\
                    go_deferred_abort g = None
    | Fault _ => True
    | Crashed => False
    end) as H.
  { intros s. unfold apply_governance, governed_rows, bind, state_of, lift.
    pose proof (quality_stage_ts display redact specs (now_ms (clock s)) 0 (masking_pass specs records)) as Hq.
    destruct (quality_stage _ _ _ (now_ms _) _) as [[[r e] i]|x] eqn:Hqs; [|by eexists].
    destruct (quality_stage _ _ _ 0 _) as [[[r0 e0] i0]|]; [|done]. simplify_eq/=.
    pose proof (contract_stage_ts display redact specs (now_ms (clock s)) 0 r0 i0) as Hc.
    destruct (contract_stage _ _ _ (now_ms _) _ _) as [[[r' e'] i']|x] eqn:Hcs; [|by eexists].
    destruct (contract_stage _ _ _ 0 _ _) as [[[r1 e1] i1]|]; [|done]. simplify_eq/=.
    unfold drift_stage. rewrite Hd. simpl. destruct (gs_has_dlq specs); by eexists. }
  split.
  - intros s. destruct (H s) as ([[]| |] & -> & ?); done.
  - intros s g c. destruct (H s) as (o & -> & Ho). simpl. intros ->. exact Ho.
Qed.

Lemma delivers_all (pages : list StreamPage) : delivers ((fun q => (1, Ok q)) <$> pages) pages.
Proof. induction pages; simpl; by constructor. Qed.

Lemma delivers_cut n (pages : list StreamPage) e tl :
  delivers (((fun q => (1, Ok q)) <$> take n pages) ++ (1, Err e) :: tl) pages.
Proof. revert pages. induction n as [|n IH]; intros [|q pages]; simpl; by constructor. Qed.

(** The in-memory backends meet the contract. *)
#[export] Instance mem_world log breaks replay_safe overwrite accepts :
  AtomicWorld (mem_source log breaks) (mem_sink true replay_safe overwrite accepts) mem_store "orders" log
    mem_view.
Proof.
  split; intros *.
  1-7: intros H; apply mem_op_inv in H as (s & [[-> Hr]|[-> Hr]]); simpl in *; auto;
    try (split; [done|by intros ? ->]).
  simpl. destruct breaks; simpl; [apply delivers_cut|apply delivers_all].
Qed.
