(* ===== verification/ExactlyOnce.v ===== *)
(** Effectively-once delivery across failures: [Pipeline::run] with the atomic
    watermark, restarted any number of times, under the contract of Delivery.v.
    The destination always holds a prefix of the governed log, each row once and
    in order, whatever fails, and the whole log when a run ends normally. *)
From S2P Require Import Prelude Errors Json Text Accounting StateKey StateEnvelope Idempotency Dlq.
From S2P Require Import Drift Adaptive Quality Contract Engine Memory Governance StateVersion.
From S2P Require Import Resilience Hoare RunStream Pipeline Delivery.

Local Open Scope Z_scope.

(** A new process over what the last one left: the durable state is the same,
    and the source has not been told where to start. *)
Definition restarted (v v' : durable) : Prop := v' = MkDurable (du_rows v) (du_mark v) (du_state v) None.

(** Worlds reached from an empty one by any number of runs, each ending as it may:
    with a result, an error, or a dead process. *)
Inductive reachable {E : Type} (view : E -> durable) (one_run : M E PipelineResult) : E -> Prop :=
| reach_fresh e : du_rows (view e) = [] -> du_mark (view e) = None -> du_state (view e) = None ->
    reachable view one_run e
| reach_run e e1 t c j a o : reachable view one_run e -> restarted (view e) (view e1) ->
    reachable view one_run (env (one_run (MkSt e1 t c j a o [])).2).

Section EO.
Context {E : Type}.
Context (display : FaucetError -> string) (redact : string -> string) (to_json : Value -> string).
Context (from_json : string -> option Value) (debug_char : string -> Z -> string).
Context (source : SourceOps E) (sink : SinkOps E) (store : StoreOps E) (p : Pipeline E).
Context (key : string) (log : list StreamPage) (view : E -> durable).
Context `{HW : !AtomicWorld source sink store key log view}.

Context (Hs : eo_setup to_json from_json source sink store p key log).

Notation opts := (options_of source p).
Notation the_specs := (specs sink (opts 0)).
Notation log_rows := (log_rows display redact the_specs log).
Notation mark_at := (mark_at to_json log).
Notation state_at := (state_at (codec source p) log).

(** [k] pages committed, [j] of them checkpointed. *)
Definition progress (k j : nat) (e : E) : Prop :=
  (j <= k <= length log)%nat /\ du_rows (view e) = log_rows k /\
  du_mark (view e) = mark_at k /\ du_state (view e) = state_at j.
Definition committed (k : nat) (e : E) : Prop := exists j, progress k j e.
Definition inv (e : E) : Prop := exists k, committed k e.

Notation hoare := (hoare (E := E) env inv).
Notation fail := (fun (_ : FaucetError) => inv).

Lemma committed_inv k e : committed k e -> inv e.
Proof. by exists k. Qed.
#[local] Hint Resolve committed_inv : faucet.

(** Calls that leave the durable view alone. *)
Lemma progress_view k j e e' : view e' = view e -> progress k j e -> progress k j e'.
Proof. unfold progress. by intros ->. Qed.

Lemma committed_view k e e' : view e' = view e -> committed k e -> committed k e'.
Proof. intros H [j Hj]. exists j. by eapply progress_view. Qed.

Lemma hoare_eo_retry {A} (P : E -> Prop) options (op : nat -> M E A) R :
  (forall x, P x -> inv x) ->
  (forall n, hoare P (op n) R (fun _ => P)) -> hoare P (with_retry options op) R fail.
Proof.
  intros HP H. unfold with_retry. destruct (retry_policy options).
  - apply hoare_retry; [apply _|]. intros n.
    eapply hoare_conseq; [apply H|done|done|]. intros e x Hx. split; auto.
  - eapply hoare_conseq; [apply H|done|done|]. intros e x Hx. auto.
Qed.

Lemma hoare_unchanged {A} k (op : @backend E A) ev :
  (forall e r d e', op e = ((r, d), e') -> view e' = view e) ->
  hoare (committed k) (call op ev) (fun _ => committed k) (fun _ => committed k).
Proof.
  intros Hop. apply hoare_env_call; [eauto with faucet|].
  intros x r d x' Hx Hx'. apply Hop in Hx'. pose proof (committed_view k x x' Hx' Hx).
  split; [eauto with faucet|]. by destruct r.
Qed.

Lemma hoare_keep {A} k (P : E -> Prop) (m : M E A) R :
  hoare P m R (fun _ => committed k) -> hoare P m R fail.
Proof. intros H. eapply hoare_conseq; [exact H|done|done|]. intros ? x Hx. by exists k. Qed.

Lemma hoare_eo_flush k options :
  hoare (committed k) (with_retry options (fun _ => flush_main sink)) (fun _ => committed k) fail.
Proof.
  apply hoare_eo_retry; [eauto with faucet|]. intros _. apply hoare_unchanged. apply law_flush.
Qed.

(** The checkpoint of page [i] once [k > i] pages are committed. *)
Lemma hoare_eo_put i k q b n :
  log !! i = Some q -> sp_bookmark q = Some b -> (i < k)%nat ->
  hoare (committed k) (put_state (opts n) (wrap_state (Some b) (Z.of_nat (S i)))) (fun _ => committed k) fail.
Proof.
  intros Hq Hb Hik. unfold put_state, options_of, run_store.
  rewrite (eo_store _ _ _ _ _ _ _ _ Hs), (eo_key _ _ _ _ _ _ _ _ Hs). simpl.
  apply hoare_eo_retry; [eauto with faucet|]. intros _. apply hoare_env_call; [eauto with faucet|].
  intros x r d x' [j (Hj & Hr & Hm & Hst)] Hput. simpl in Hput.
  apply law_put in Hput.
  assert (committed k x') as Hx'.
  { destruct Hput as [Hv|[Hv _]]; [|by exists j; eapply progress_view; [|split]].
    exists (S i). unfold progress. rewrite Hv. simpl. rewrite Hq. simpl. rewrite Hb.
    unfold vs_stored. simpl. unfold string_eqb. rewrite bool_decide_true by done.
    split_and!; [lia|lia|done..]. }
  split; [eauto with faucet|]. by destruct r.
Qed.

Lemma specs_opts n : specs sink (opts n) = the_specs.
Proof. unfold specs, options_of, row, pipeline_name. by destruct (run_store source p), (src_state_key source). Qed.

Lemma scope_opts n : scope (opts n) = key.
Proof. unfold scope, options_of, run_store. by rewrite (eo_store _ _ _ _ _ _ _ _ Hs), (eo_key _ _ _ _ _ _ _ _ Hs). Qed.

Lemma log_u64 k : (k <= length log)%nat -> is_u64 (Z.of_nat k).
Proof. pose proof (eo_length _ _ _ _ _ _ _ _ Hs) as H. unfold is_u64, zlen in *. lia. Qed.

Lemma log_bookmark i : (i < length log)%nat ->
  exists q b, log !! i = Some q /\ sp_bookmark q = Some b /\ b <> Null.
Proof.
  intros Hi. destruct (lookup_lt_is_Some_2 log i Hi) as [q Hq].
  pose proof (eo_bookmarks _ _ _ _ _ _ _ _ Hs) as Hb. rewrite Forall_lookup in Hb.
  destruct (Hb i q Hq) as (b & ? & ?). eauto.
Qed.

(** What the watermark parses to. *)
Lemma parse_mark k : (k <= length log)%nat -> default 0 (mark_at k ≫= parse_token) = Z.of_nat k.
Proof.
  intros Hk. destruct k as [|i]; [done|]. cbn [Delivery.mark_at mbind option_bind].
  by rewrite parse_token_bookmarked by by apply log_u64.
Qed.

Lemma parse_mark_le k seq : (k <= length log)%nat -> 1 <= seq ->
  match mark_at k ≫= parse_token with Some c => seq <=? c | None => false end = (seq <=? Z.of_nat k).
Proof.
  intros Hk Hseq. destruct k as [|i].
  - simpl. symmetry. apply Z.leb_gt. lia.
  - cbn [Delivery.mark_at mbind option_bind]. by rewrite parse_token_bookmarked by by apply log_u64.
Qed.

(** The idempotent write of page [i]: committed, or refused with nothing done. *)
Lemma hoare_eo_idempotent i q :
  log !! i = Some q ->
  hoare (committed i)
    (gateway_idempotent sink (rows_of display redact the_specs q) key
       (format_token_with_bookmark to_json (Z.of_nat (S i)) (sp_bookmark q)))
    (fun _ => committed (S i)) (fun _ x => committed i x \/ committed (S i) x).
Proof.
  intros Hq. apply hoare_env_call; [eauto with faucet|].
  intros x r d x' [j (Hj & Hr & Hm & Hst)] Hw. apply law_write in Hw.
  assert (committed i x' /\ is_ok r = false \/ committed (S i) x') as Hx.
  { destruct Hw as [Hv|[Hv Hok]]; [right|left; split; [|done]; exists j; by eapply progress_view; [|split]].
    exists j. unfold progress. rewrite Hv. simpl. rewrite Hr, (log_rows_S _ _ _ _ _ _ Hq), Hq. simpl.
    apply lookup_lt_Some in Hq. split_and!; [lia|lia|done..]. }
  split; [destruct Hx as [[? _]|?]; eauto with faucet|]. destruct r; simpl in Hx; naive_solver.
Qed.

(** [eo_write_once]: its first attempt runs before the page is committed, a later
    one finds it committed or not, and acts accordingly. *)
Lemma hoare_eo_attempt i q n options :
  log !! i = Some q -> scope options = key ->
  hoare (fun x => committed i x \/ (n <> 0%nat /\ committed (S i) x))
    (eo_write_once sink options (rows_of display redact the_specs q)
       (format_token_with_bookmark to_json (Z.of_nat (S i)) (sp_bookmark q)) (Z.of_nat (S i)) n)
    (fun _ => committed (S i)) (fun _ x => inv x /\ (committed i x \/ committed (S i) x)).
Proof.
  intros Hq Hsc. unfold eo_write_once. rewrite Hsc. pose proof (lookup_lt_Some _ _ _ Hq) as Hi.
  assert (hoare (committed i) (gateway_idempotent sink (rows_of display redact the_specs q) key
       (format_token_with_bookmark to_json (Z.of_nat (S i)) (sp_bookmark q)))
    (fun _ => committed (S i)) (fun _ x => inv x /\ (committed i x \/ committed (S i) x))) as Hwrite.
  { eapply hoare_conseq; [by apply hoare_eo_idempotent|done|done|].
    intros _ x [?|?]; split; eauto with faucet. }
  destruct n as [|n].
  { apply hoare_bind_ret. simpl. eapply hoare_pre; [apply Hwrite|]. by intros x [?|[? _]]. }
  eapply hoare_bind with (Q := fun t x => exists k, (k = i \/ k = S i) /\ t = mark_at k /\ committed k x).
  - apply hoare_env_call; [intros x [?|[_ ?]]; eauto with faucet|].
    intros x r d x' Hx Ht. apply law_token in Ht as [Hv Ht].
    assert (exists k, (k = i \/ k = S i) /\ committed k x) as (k & Hk & Hc) by naive_solver.
    pose proof (committed_view k x x' Hv Hc). split; [eauto with faucet|].
    destruct r as [t|e]; [|split; [eauto with faucet|naive_solver]].
    exists k. split_and!; [done| |done]. rewrite (Ht t eq_refl). by destruct Hc as [j (_ & _ & ? & _)].
  - intros t s (k & Hk & -> & Hc).
    pose proof (parse_mark_le k (Z.of_nat (S i)) ltac:(lia) ltac:(lia)) as Hp.
    destruct (mark_at k ≫= parse_token) as [c|].
    + rewrite Hp. destruct Hk as [->| ->].
      * rewrite (proj2 (Z.leb_gt _ _)) by lia. by apply Hwrite.
      * rewrite (proj2 (Z.leb_le _ _)) by lia. by apply wp_ret.
    + symmetry in Hp. rewrite Z.leb_gt in Hp. assert (k = i) as -> by lia. by apply Hwrite.
Qed.

Lemma hoare_eo_write i q n :
  log !! i = Some q ->
  hoare (committed i)
    (observe_write (with_retry (opts n) (eo_write_once sink (opts n) (rows_of display redact the_specs q)
       (format_token_with_bookmark to_json (Z.of_nat (S i)) (sp_bookmark q)) (Z.of_nat (S i)))))
    (fun _ => committed (S i)) fail.
Proof.
  intros Hq.
  assert (hoare (committed i) (with_retry (opts n) (eo_write_once sink (opts n) (rows_of display redact the_specs q)
       (format_token_with_bookmark to_json (Z.of_nat (S i)) (sp_bookmark q)) (Z.of_nat (S i))))
    (fun _ => committed (S i)) fail) as H.
  { unfold with_retry. destruct (retry_policy (opts n)).
    - eapply hoare_pre.
      + apply (hoare_retry_n env inv (fun m x => committed i x \/ (m <> 0%nat /\ committed (S i) x))).
        intros m. eapply hoare_conseq; [by apply hoare_eo_attempt, scope_opts|done|done|].
        intros e x [? [?|?]]; (split; [done|]); [by left|by right].
      + intros x ?. by left.
    - eapply hoare_conseq; [by apply hoare_eo_attempt, scope_opts| |done|]; naive_solver. }
  unfold observe_write.
  eapply hoare_bind with (Q := fun r => match r with Ok _ => committed (S i) | Err _ => inv end).
  { apply hoare_attempt. exact H. }
  intros [v|e]; intros s Hx; exact Hx.
Qed.

Lemma quiet_settle_page a : quiet (@settle_page E a).
Proof. intros s. unfold settle_page. by destruct (settle a (accounts s)) as [c [[]|e]]. Qed.

Lemma hoare_still_inv {A} k (m : M E A) :
  quiet m -> hoare (committed k) m (fun _ => committed k) fail.
Proof.
  intros Hq. apply (hoare_keep k). exact (hoare_quiet _ _ (committed k) m Hq).
Qed.

Lemma wadd_next i : (i < length log)%nat -> wadd64 (Z.of_nat i) 1 = Z.of_nat (S i).
Proof.
  intros Hi. pose proof (log_u64 (S i) ltac:(lia)) as [_ H]. unfold wadd64. rewrite Z.mod_small; lia.
Qed.

(** A bookmarked page: committed if it was not, checkpointed, never written
    again. [K] is the watermark the run started from. *)
Lemma hoare_eo_bookmarked K i q b n acc l :
  log !! i = Some q -> sp_bookmark q = Some b -> next_seq l = Z.of_nat i ->
  hoare (committed (i `max` K))
    (eo_bookmarked to_json sink (opts n) (Z.of_nat K) (rows_of display redact the_specs q) acc b l)
    (fun l' x => next_seq l' = Z.of_nat (S i) /\ committed (S i `max` K) x) fail.
Proof.
  intros Hq Hb Hl. pose proof (lookup_lt_Some _ _ _ Hq) as Hi.
  unfold eo_bookmarked. rewrite Hl, wadd_next by done.
  eapply hoare_bind with (Q := fun _ => committed (S i `max` K)).
  - destruct (Z.leb_spec (Z.of_nat (S i)) (Z.of_nat K)) as [Hle|Hgt].
    + apply hoare_ret. replace (S i `max` K)%nat with (i `max` K)%nat by lia. done.
    + replace (i `max` K)%nat with i by lia. replace (S i `max` K)%nat with (S i) by lia.
      rewrite <- Hb. eapply hoare_bind; [by apply hoare_eo_write|]. intros r. by apply hoare_ret.
  - intros [w a]. eapply hoare_bind; [apply hoare_still_inv, quiet_settle_page|]. intros ?.
    eapply hoare_bind; [apply hoare_eo_flush|]. intros ?.
    eapply hoare_bind; [apply (hoare_eo_put i _ q); [done|done|lia]|]. intros ?. by apply hoare_ret.
Qed.

Lemma hoare_eo_page K i q n l :
  log !! i = Some q -> next_seq l = Z.of_nat i ->
  hoare (committed (i `max` K))
    (process_page display redact to_json sink (opts n) true (Z.of_nat K) q l)
    (fun l' x => next_seq l' = Z.of_nat (S i) /\ committed (S i `max` K) x) fail.
Proof.
  intros Hq Hl. destruct (log_bookmark i (lookup_lt_Some _ _ _ Hq)) as (q' & b & Hq' & Hb & _).
  simplify_eq. unfold process_page. eapply hoare_bind; [apply hoare_env_log|]. intros ?.
  destruct (governance_quiet display redact sink (specs sink (opts n)) (gov_state l) (sp_records q))
    as [Hquiet Hgov].
  { rewrite specs_opts. unfold specs, options_of, run_store. simpl.
    rewrite (eo_store _ _ _ _ _ _ _ _ Hs), (eo_key _ _ _ _ _ _ _ _ Hs). simpl. apply (eo_no_drift _ _ _ _ _ _ _ _ Hs). }
  eapply hoare_bind with (Q := fun gc x => (go_records gc.1 = rows_of display redact the_specs q /\
    go_deferred_abort gc.1 = None) /\ committed (i `max` K) x).
  { intros s Hx. specialize (Hgov s). destruct (Hquiet s) as (He & _ & Hc). unfold wp.
    destruct (apply_governance _ _ _ _ _ _ s) as [[[g c]|e|] s']; simpl in *; try done; rewrite He;
      [|eauto with faucet].
    destruct (Hgov g c eq_refl) as [-> ->]. by rewrite specs_opts. }
  intros [gov cache]. apply hoare_pure. simpl. intros [Hrec Hab].
  eapply hoare_bind; [apply hoare_env_log|]. intros ?. rewrite Hab.
  assert (ro_dlq (opts n) = None) as ->.
  { unfold options_of, run_store. rewrite (eo_store _ _ _ _ _ _ _ _ Hs), (eo_key _ _ _ _ _ _ _ _ Hs). apply (eo_no_dlq _ _ _ _ _ _ _ _ Hs). }
  unfold eo_path. rewrite Hb, Hrec. by apply (hoare_eo_bookmarked K i q).
Qed.

(** Waiting changes nothing durable; without a token it never gives up. *)
Lemma hoare_eo_await k n d :
  hoare (committed k) (await_item (opts n) d)
    (fun b x => (cancel (opts n) = None -> b = true) /\ committed k x) fail.
Proof.
  intros s Hx. unfold await_item. destruct (ro_source_drains (opts n)); [done|].
  unfold cancellable_sleep. destruct (cancel (opts n)) as [[at_|]|]; try done. unfold wp.
  by destruct (at_ <=? _).
Qed.

(** The loop over what the source delivers from page [i] on. *)
Lemma hoare_eo_loop K n items rest :
  delivers items rest -> forall i eos l,
  rest = drop i log -> (i <= length log)%nat -> next_seq l = Z.of_nat i ->
  hoare (committed (i `max` K))
    (page_loop display redact to_json sink (opts n) true (Z.of_nat K) items eos l)
    (fun _ x => exists k, committed k x /\ (cancel (opts n) = None -> (length log <= k)%nat)) fail.
Proof.
  induction 1 as [|d q items rest Hd IH|d e items rest]; intros i eos l Hrest Hi Hl; simpl;
    (eapply hoare_bind; [apply hoare_eo_await|]); intros arrived;
    apply hoare_pure; intros Harr; destruct arrived; try (by
      apply hoare_ret; intros x Hx; exists (i `max` K)%nat; split; [done|]; intros Hc; by specialize (Harr Hc)).
  - intros s Hx. assert (length log <= i)%nat.
    { pose proof (length_drop log i) as H. rewrite <- Hrest in H. simpl in H. lia. }
    exists (i `max` K)%nat. split; [done|]. lia.
  - assert (log !! i = Some q /\ rest = drop (S i) log) as [Hq Hr].
    { pose proof (lookup_drop log i 0) as H. rewrite <- Hrest, Nat.add_0_r in H. simpl in H. split; [done|].
      symmetry in Hrest. pose proof (drop_S log q i (eq_sym H)) as H2. congruence. }
    pose proof (lookup_lt_Some _ _ _ Hq) as Hlt.
    destruct (log_bookmark i Hlt) as (q' & b & Hq' & Hb & _). simplify_eq. rewrite Hb.
    assert (hoare (committed (i `max` K)) (bind (process_page display redact to_json
      sink (opts n) true (Z.of_nat K) q l) (fun l => page_loop display redact to_json
      sink (opts n) true (Z.of_nat K) items eos l))
      (fun _ x => exists k, committed k x /\ (cancel (opts n) = None -> (length log <= k)%nat)) fail).
    { eapply hoare_bind; [by apply hoare_eo_page|]. intros l'. apply hoare_pure. intros Hl'.
      apply IH; [done|lia|done]. }
    by destruct (sp_records q).
  - apply hoare_throw. eauto with faucet.
Qed.

Lemma select_opts n : select_mechanism sink (opts n) = Ok (Some AtomicWatermark).
Proof.
  unfold select_mechanism, options_of, run_store. rewrite (eo_store _ _ _ _ _ _ _ _ Hs), (eo_key _ _ _ _ _ _ _ _ Hs). simpl.
  by rewrite (eo_delivery _ _ _ _ _ _ _ _ Hs), (eo_sink _ _ _ _ _ _ _ _ Hs), (eo_replays _ _ _ _ _ _ _ _ Hs), (eo_no_dlq _ _ _ _ _ _ _ _ Hs), (eo_append _ _ _ _ _ _ _ _ Hs).
Qed.

Lemma dlq_opts n : ro_dlq (opts n) = None.
Proof. unfold options_of, run_store. rewrite (eo_store _ _ _ _ _ _ _ _ Hs), (eo_key _ _ _ _ _ _ _ _ Hs). apply (eo_no_dlq _ _ _ _ _ _ _ _ Hs). Qed.

Lemma cancel_opts n : cancel (opts n) = p_cancel p.
Proof. unfold cancel, options_of. by destruct (run_store source p), (src_state_key source). Qed.

Lemma start_seq_opts n : ro_start_seq (opts n) = n.
Proof. unfold options_of. by destruct (run_store source p), (src_state_key source). Qed.

(** Ending the run flushes the sink, which commits nothing new. *)
Lemma hoare_eo_finish k n l c :
  hoare (committed k) (finish display sink (opts n) l c) (fun _ => committed k) fail.
Proof.
  unfold finish. rewrite dlq_opts. apply hoare_bind_ret. rewrite (eo_append _ _ _ _ _ _ _ _ Hs), andb_false_r.
  eapply hoare_bind with (Q := fun _ => committed k); [|intros ?; by apply hoare_ret].
  apply (hoare_keep k), hoare_unchanged. apply law_flush.
Qed.

Lemma hoare_eo_unwind n e :
  hoare inv (unwind sink (opts n) e) (fun _ _ => False) fail.
Proof.
  intros s [k Hk]. revert s Hk.
  change (hoare (committed k) (unwind sink (opts n) e) (fun _ _ => False) fail).
  unfold unwind. rewrite dlq_opts. apply hoare_bind_ret. unfold defer_bookmarks. rewrite (eo_append _ _ _ _ _ _ _ _ Hs).
  eapply hoare_bind with (Q := fun _ => inv); [|intros ?; by apply hoare_throw].
  eapply hoare_bind with (Q := fun _ => inv); [|intros ?; by apply hoare_ret].
  apply hoare_attempt. eapply hoare_conseq; [apply (hoare_unchanged k); apply law_flush|done|..];
    intros ? x Hx; exact (committed_inv _ _ Hx).
Qed.

(** The streaming run from page [i], behind the watermark or at it. *)
Lemma hoare_eo_stream k i items eos :
  (i <= k)%nat -> delivers items (drop i log) ->
  hoare (committed k)
    (run_stream_with display redact to_json debug_char sink (opts (Z.of_nat i)) items eos)
    (fun _ x => exists k', committed k' x /\ (p_cancel p = None -> (length log <= k')%nat)) fail.
Proof.
  intros Hik Hd. unfold run_stream_with.
  eapply hoare_bind with (Q := fun _ => committed k).
  { apply hoare_lift. intros x Hx. destruct (preflight _ _); eauto with faucet. }
  intros ?. rewrite select_opts. apply hoare_bind_ret. unfold run_loop.
  eapply hoare_bind with (Q := fun seq x => seq = Z.of_nat k /\ committed k x).
  { rewrite scope_opts. eapply hoare_bind with (Q := fun t x => t = mark_at k /\ committed k x).
    - apply hoare_env_call; [eauto with faucet|]. intros x r d x' Hx Ht. apply law_token in Ht as [Hv Ht].
      pose proof (committed_view k x x' Hv Hx). split; [eauto with faucet|].
      destruct r as [t|e]; [|eauto with faucet]. split; [|done]. rewrite (Ht t eq_refl).
      by destruct Hx as [j (_ & _ & ? & _)].
    - intros t. apply hoare_ret. intros x [-> Hx]. split; [|done].
      destruct Hx as [j (? & _)]. apply parse_mark; lia. }
  intros seq. apply hoare_pure. intros ->.
  eapply hoare_bind with (Q := fun _ => committed k).
  { destruct (adaptive_cfg _); [|by apply hoare_ret]. apply hoare_lift.
    intros x Hx. destruct (validate _); eauto with faucet. }
  intros ?.
  eapply hoare_bind with (Q := fun r x => match r with
    | Ok _ => exists k', committed k' x /\ (p_cancel p = None -> (length log <= k')%nat)
    | Err _ => inv x end).
  { apply hoare_attempt. intros s Hx.
    assert ((i <= length log)%nat) by (destruct Hx as [j [? _]]; lia).
    rewrite <- (cancel_opts (Z.of_nat i)). replace k with (i `max` k)%nat in Hx by lia.
    exact (hoare_eo_loop k (Z.of_nat i) items (drop i log) Hd i eos (initial_loop (opts (Z.of_nat i)))
      eq_refl H (start_seq_opts _) s Hx). }
  intros [[l c]|e].
  - intros s (k' & Hk' & Hc). eapply wp_mono; [exact (hoare_eo_finish k' (Z.of_nat i) l c s Hk')|].
    intros [] s'; [|done..]. eauto.
  - eapply hoare_conseq; [apply hoare_eo_unwind|done|by intros ? ? []|done].
Qed.

(** [k] pages committed, and the source about to read from page [i]. *)
Definition resumed (k i : nat) (e : E) : Prop :=
  committed k e /\ (i <= k)%nat /\ replay_from (du_pos (view e)) log = drop i log.

Lemma resumed_view k i e e' : view e' = view e -> resumed k i e -> resumed k i e'.
Proof. intros H (? & ? & ?). split_and!; [by eapply committed_view|done|by rewrite H]. Qed.

Lemma resumed_inv k i e : resumed k i e -> inv e.
Proof. intros [? _]. eauto with faucet. Qed.
#[local] Hint Resolve resumed_inv : faucet.

(** Moving the source to the bookmark of page [i - 1]. *)
Lemma hoare_start_from k i0 i b :
  (i < k)%nat -> log !! i ≫= sp_bookmark = Some b ->
  hoare (resumed k i0) (start_from source b) (fun _ => resumed k (S i)) fail.
Proof.
  intros Hi Hb. apply hoare_env_call; [eauto with faucet|].
  intros x r d x' Hx Hst. apply law_start in Hst.
  assert (inv x' /\ (is_ok r = true -> resumed k (S i) x')) as [? Hok].
  { destruct Hst as [Hv|[Hv ?]].
    - assert (resumed k (S i) x'); [|eauto with faucet].
      destruct Hx as ([j (?&?&?&?)] & _). split_and!; [|lia|].
      + exists j. unfold progress. rewrite Hv. done.
      + rewrite Hv. simpl. apply after_bookmark_drop; [apply (eo_distinct _ _ _ _ _ _ _ _ Hs)|done].
    - split; [|congruence]. eapply resumed_inv, resumed_view; eauto. }
  split; [done|]. destruct r; auto.
Qed.

Lemma codec_ok v n : codec_check source p = Ok tt ->
  codec_faithful (codec source p) (wrap_state v n).
Proof.
  intros Hc. split; [apply (eo_schema _ _ _ _ _ _ _ _ Hs)|]. intros Hl. split; [done|].
  pose proof (eo_schema _ _ _ _ _ _ _ _ Hs) as [? _]. revert Hc. unfold codec_check. rewrite Hl. simpl.
  case_match; [done|]. reflect_bools. lia.
Qed.

(** The store's answer is the checkpoint of one of the committed pages. *)
Lemma hoare_resume_store k :
  codec_check source p = Ok tt ->
  hoare (resumed k 0) (resume_from_store display debug_char source p)
    (fun n x => exists i, n = Z.of_nat i /\ resumed k i x) fail.
Proof.
  intros Hcodec. unfold resume_from_store, run_store. rewrite (eo_store _ _ _ _ _ _ _ _ Hs), (eo_key _ _ _ _ _ _ _ _ Hs).
  eapply hoare_bind with (Q := fun _ => resumed k 0).
  { apply hoare_lift. intros x Hx. destruct (validate_state_key _ _); eauto with faucet. }
  intros ?. eapply hoare_bind with (Q := fun v x => exists j, (j <= k <= length log)%nat /\ v = state_at j /\ resumed k 0 x).
  { apply hoare_env_call; [eauto with faucet|]. simpl. intros x r d x' Hx Hg. apply law_get in Hg as [Hv Hg].
    pose proof (resumed_view _ _ _ _ Hv Hx). split; [eauto with faucet|].
    destruct r as [v|e]; [|eauto with faucet]. pose proof Hx as [[j (? & _ & _ & Hj)] _].
    exists j. split_and!; [lia|lia| |done]. by rewrite (Hg v eq_refl). }
  intros stored s (j & Hj & -> & Hx). destruct j as [|j].
  { apply wp_ret. by exists 0%nat. }
  destruct (log_bookmark j ltac:(lia)) as (q & b & Hq & Hb & Hnull).
  cbn [Delivery.state_at]. rewrite Hq. cbn [mbind option_bind]. rewrite Hb.
  pose proof (resolve_encode display key (codec source p) (wrap_state (Some b) (Z.of_nat (S j)))
    (src_migrate_state source) (codec_ok _ _ Hcodec)) as Hres.
  unfold codec in Hres at 2 3. cbn [sc_owner sc_schema] in Hres. rewrite Hres.
  cbn [lift rs_data]. rewrite (eo_delivery _ _ _ _ _ _ _ _ Hs). apply wp_bind, wp_ret.
  cbn [rs_data]. rewrite unwrap_wrap_state by congruence.
  apply wp_bind. eapply wp_mono.
  { apply (hoare_start_from k 0 j b); [lia|by rewrite Hq|exact Hx]. }
  intros [] s'; [|done..]. intros Hr. apply wp_ret. by exists (S j).
Qed.

(** The watermark may move the source further on. *)
Lemma hoare_resume_sink k i :
  hoare (resumed k i) (resume_from_sink from_json source sink p (Z.of_nat i))
    (fun n x => exists i', n = Z.of_nat i' /\ resumed k i' x) fail.
Proof.
  unfold resume_from_sink. rewrite (eo_delivery _ _ _ _ _ _ _ _ Hs), (eo_sink _ _ _ _ _ _ _ _ Hs), (eo_replays _ _ _ _ _ _ _ _ Hs), (eo_key _ _ _ _ _ _ _ _ Hs).
  eapply hoare_bind with (Q := fun t x => t = mark_at k /\ resumed k i x).
  { apply hoare_env_call; [eauto with faucet|]. intros x r d x' Hx Ht. apply law_token in Ht as [Hv Ht].
    pose proof (resumed_view _ _ _ _ Hv Hx). split; [eauto with faucet|].
    destruct r as [t|e]; [|eauto with faucet]. split; [|done]. rewrite (Ht t eq_refl).
    by destruct Hx as [[j (_ & _ & ? & _)] _]. }
  intros t s [-> Hx]. assert (k <= length log)%nat as Hk by (destruct Hx as [[j [? _]] _]; lia).
  destruct k as [|k']; [by apply wp_ret; exists i|].
  destruct (log_bookmark k' ltac:(lia)) as (q & b & Hq & Hb & _).
  cbn [Delivery.mark_at mbind option_bind]. rewrite Hq. cbn [mbind option_bind]. rewrite Hb.
  rewrite parse_parts_bookmarked by (by apply log_u64). cbn [mbind option_bind].
  destruct (from_json (to_json b)) as [b'|] eqn:Hj; [|by apply wp_ret; exists i].
  assert (b' = b) as -> by (eapply (eo_json _ _ _ _ _ _ _ _ Hs); [eapply list_elem_of_lookup_2|..]; done).
  destruct (Z.ltb_spec (Z.of_nat i) (Z.of_nat (S k'))); [|by apply wp_ret; exists i].
  apply wp_bind. eapply wp_mono.
  { apply (hoare_start_from (S k') i k' b); [lia|by rewrite Hq|exact Hx]. }
  intros [] s'; [|done..]. intros Hr. apply wp_ret. by exists (S k').
Qed.

(** A whole run. *)
Lemma hoare_eo_run k :
  hoare (resumed k 0)
    (run display redact to_json from_json debug_char source sink p)
    (fun _ x => exists k', committed k' x /\ (p_cancel p = None -> (length log <= k')%nat)) fail.
Proof.
  unfold run, run_body, resume, overwriting. rewrite (eo_append _ _ _ _ _ _ _ _ Hs), (eo_no_dlq _ _ _ _ _ _ _ _ Hs), (eo_store _ _ _ _ _ _ _ _ Hs), (eo_key _ _ _ _ _ _ _ _ Hs).
  rewrite (eo_no_legacy _ _ _ _ _ _ _ _ Hs). cbn [andb].
  eapply hoare_bind with (Q := fun _ x => exists k', committed k' x /\ (p_cancel p = None -> (length log <= k')%nat)).
  - eapply hoare_bind with (Q := fun n x => exists i, n = Z.of_nat i /\ resumed k i x).
    + apply hoare_bind_ret, hoare_bind_ret.
      eapply hoare_bind with (Q := fun _ x => codec_check source p = Ok tt /\ resumed k 0 x).
      { apply hoare_lift. intros x Hx. destruct (codec_check source p) as [[]|]; eauto with faucet. }
      intros ?. apply hoare_pure. intros Hc.
      eapply hoare_bind; [by apply hoare_resume_store|]. intros n s (i & -> & Hx). by apply hoare_resume_sink.
    + intros n s (i & -> & Hx). apply wp_bind, wp_state_of.
      pose proof (law_pages (AtomicWorld := HW) (env s)) as Hp.
      destruct (stream_pages source (env s)) as [items eos]. destruct Hx as (Hc & Hik & Hpos).
      rewrite Hpos in Hp. apply wp_bind, wp_ret.
      assert (hoare (committed k) (bind (attempt (run_stream_with display redact to_json debug_char sink (opts (Z.of_nat i)) items eos)) (fun r => bind (ret tt) (fun _ => lift r)))
        (fun _ x => exists k', committed k' x /\ (p_cancel p = None -> (length log <= k')%nat)) fail) as H;
        [|exact (H s Hc)].
      eapply hoare_bind with (Q := fun r x => match r with
        | Ok _ => exists k', committed k' x /\ (p_cancel p = None -> (length log <= k')%nat)
        | Err _ => inv x end); [|intros [v|e]].
      * apply hoare_attempt. by apply (hoare_eo_stream k i items eos).
      * apply hoare_bind_ret. by apply hoare_ret.
      * apply hoare_bind_ret. by apply hoare_throw.
  - intros res s (k' & Hk' & Hlen). apply wp_bind, wp_is_cancelled.
    destruct (fires_by _ _); [apply wp_ret; eauto|]. apply wp_bind.
    eapply wp_mono; [apply (hoare_unchanged k'); [apply law_complete|exact Hk']|].
    intros [] s'; [intros ?; apply wp_ret; eauto|eauto with faucet..].
Qed.

Notation one_run := (run display redact to_json from_json debug_char source sink p).

Lemma inv_restarted e e1 : inv e -> restarted (view e) (view e1) -> exists k, resumed k 0 e1.
Proof.
  intros [k [j (? & ? & ? & ?)]] Hv. exists k. unfold restarted in Hv.
  split_and!; [|lia|by rewrite Hv].
  exists j. unfold progress. rewrite Hv. done.
Qed.

Lemma reachable_inv e : reachable view one_run e -> inv e.
Proof.
  induction 1 as [e Hr Hm Hst|e e1 t c j a o _ IH Hv].
  - exists 0%nat, 0%nat. split_and!; [lia|lia|done..].
  - destruct (inv_restarted e e1 IH Hv) as [k Hk].
    pose proof (hoare_eo_run k (MkSt e1 t c j a o []) Hk) as H. unfold wp in H.
    destruct (one_run _) as [[] s]; [|exact H..]. destruct H as (k' & ? & _). by exists k'.
Qed.

End EO.

(** The three-page log, pipeline and collaborators of the witnesses. *)
Definition demo_log : list StreamPage :=
  [MkStreamPage [VString "a"; VString "b"] (Some (VString "1"));
   MkStreamPage [VString "c"] (Some (VString "2"));
   MkStreamPage [VString "d"] (Some (VString "3"))].
Definition demo_sink : SinkOps mem := mem_sink true false false (fun _ => Ok tt).
Definition demo_pipeline : Pipeline mem :=
  MkPipeline (Some mem_store) None None None false None None None None None None ExactlyOnce None false false.
Definition demo_to_json (v : Value) : string := match v with VString s => s | _ => EmptyString end.
Definition demo_from_json (s : string) : option Value := Some (VString s).
Definition demo_run (breaks : option nat) : M mem PipelineResult :=
  run (fun _ => EmptyString) id demo_to_json demo_from_json (fun _ _ => EmptyString) (mem_source demo_log breaks) demo_sink demo_pipeline.

Lemma demo_setup breaks :
  eo_setup demo_to_json demo_from_json (mem_source demo_log breaks) demo_sink mem_store demo_pipeline
    "orders" demo_log.
Proof.
  split; try reflexivity.
  - split; vm_compute; congruence.
  - repeat constructor; eexists; split; done.
  - apply (bool_decide_unpack _). vm_compute. exact I.
  - split; vm_compute; congruence.
  - intros q b b' Hq. unfold demo_log in Hq. rewrite !elem_of_cons in Hq.
    destruct Hq as [->|[->|[->|Hq]]]; [..|by apply not_elem_of_nil in Hq]; simpl; intros [= <-] [= <-]; done.
Qed.

(** C1: effectively-once delivery survives every failure. Start from an empty
    destination and run the pipeline any number of times; each run may succeed,
    return an error, or die before or after any call, and any backend call may
    fail with or without having taken effect. The destination always holds the
    governed rows of a prefix of the source's log: no row lost from it, none
    twice, in order. *)
Theorem exactly_once_prefix {E} display redact to_json from_json debug_char
  (source : SourceOps E) sink store p key log view `{!AtomicWorld source sink store key log view} e :
  eo_setup to_json from_json source sink store p key log ->
  reachable view (run display redact to_json from_json debug_char source sink p) e ->
  exists k, (k <= length log)%nat /\
    du_rows (view e) = log_rows display redact (specs sink (options_of source p 0)) log k.
Proof.
  intros Hs Hr.
  destruct (reachable_inv display redact to_json from_json debug_char source sink store p
    key log view Hs e Hr) as (k & j & ? & ? & _). exists k. split; [lia|done].
Qed.

(** Die after the first page's commit reached the sink but before its reply, and
    restart. *)
Lemma exactly_once_prefix_witness :
  exists k, (k <= 3)%nat /\
    du_rows (mem_view (env (demo_run None (MkSt (mem0 []) 0 (Some 7%nat) 0 None BatchOutcomeCounters_new [])).2))
    = log_rows (fun _ => EmptyString) id (specs demo_sink (options_of (mem_source demo_log None) demo_pipeline 0))
        demo_log k.
Proof.
  apply (exactly_once_prefix (fun _ => EmptyString) id demo_to_json demo_from_json (fun _ _ => EmptyString)
    (mem_source demo_log None) demo_sink mem_store demo_pipeline "orders"
    demo_log mem_view).
  - apply demo_setup.
  - apply reach_run with (e := mem0 []); [by apply reach_fresh|reflexivity].
Defined.

(** C2: an uncancelled run that returns a result has delivered everything, also
    when earlier runs failed or died: the destination then holds the governed
    rows of the whole log, each exactly once and in order. *)
Theorem exactly_once_complete {E} display redact to_json from_json debug_char
  (source : SourceOps E) sink store p key log view `{!AtomicWorld source sink store key log view}
  e e1 t c j a o res s :
  eo_setup to_json from_json source sink store p key log ->
  p_cancel p = None ->
  reachable view (run display redact to_json from_json debug_char source sink p) e ->
  restarted (view e) (view e1) ->
  run display redact to_json from_json debug_char source sink p (MkSt e1 t c j a o [])
  = (Val res, s) ->
  du_rows (view (env s)) = concat (rows_of display redact (specs sink (options_of source p 0)) <$> log).
Proof.
  intros Hs Hc Hr He Hrun.
  apply (reachable_inv _ _ _ _ _ _ _ store p key log view Hs) in Hr.
  destruct (inv_restarted display redact to_json source sink p log view e e1 Hr He) as [k Hk].
  pose proof (hoare_eo_run display redact to_json from_json debug_char source sink store p
    key log view Hs k (MkSt e1 t c j a o []) Hk) as H. unfold wp in H. rewrite Hrun in H. simpl in H.
  destruct H as (k' & [j' (? & Hrows & _)] & Hlen). rewrite Hrows. unfold log_rows.
  rewrite take_ge; [done|by apply Hlen].
Qed.

(** The first run loses the reply to its fourth call (the write of the first page,
    which the sink did commit) and fails; the second completes. *)
Lemma exactly_once_complete_witness :
  exists m1, mem_view m1 = MkDurable [VString "a"; VString "b"] (Some "00000000000000000001#1") None None /\
  du_rows (mem_view (env (demo_run None (start m1)).2)) = [VString "a"; VString "b"; VString "c"; VString "d"].
Proof.
  exists (MkMem [VString "a"; VString "b"] [] (Some "00000000000000000001#1") None None []). split; [reflexivity|].
  unfold demo_run, start.
  match goal with |- du_rows (mem_view (env ?r.2)) = _ => destruct r as [[res|x|] s] eqn:H end.
  - apply (exactly_once_complete (fun _ => EmptyString) id demo_to_json demo_from_json (fun _ _ => EmptyString)
      (mem_source demo_log None) demo_sink mem_store demo_pipeline "orders"
      demo_log mem_view
      (env (demo_run None (MkSt (mem0 [NoFault; NoFault; NoFault; ReplyLost]) 0 None 0 None BatchOutcomeCounters_new [])).2)
      (MkMem [VString "a"; VString "b"] [] (Some "00000000000000000001#1") None None []) 0 None 0
      (Some RowAccounts_new) BatchOutcomeCounters_new res s (demo_setup None) eq_refl); [| |exact H].
    + eapply reach_run; [by eapply (reach_fresh _ _ (mem0 []))|reflexivity].
    + vm_compute. reflexivity.
  - exfalso. revert H. vm_compute. congruence.
  - exfalso. revert H. vm_compute. congruence.
Defined.
