(* ===== verification/Overwrite.v ===== *)
(** The overwrite lifecycle of [Pipeline::run]: staging is begun before the first
    write, swapped in only after an uncancelled successful run, and the bookmark
    is stored only after the swap. *)
From S2P Require Import Prelude Errors Json Text Accounting StateKey StateEnvelope Idempotency Dlq.
From S2P Require Import Drift Adaptive Quality Contract Engine Memory Governance StateVersion.
From S2P Require Import Resilience Hoare RunStream Pipeline Delivery.

Local Open Scope Z_scope.

(** Where an overwrite stands. *)
Record swap := MkSwap { sw_began : bool; sw_committed : bool; sw_ok : bool }.
Definition swap0 : swap := MkSwap false false true.

(** Reads the calls of an overwrite run: rows go to staging only between a begun
    overwrite and its commit, and a bookmark is stored only after the commit. *)
Definition swap_step (x : swap) (e : event) : swap :=
  match e with
  | EBeginOverwrite (Ok _) => MkSwap true (sw_committed x) (sw_ok x)
  | ECommitOverwrite r => MkSwap (sw_began x) (is_ok r) (sw_ok x && sw_began x)
  | EWrite Main _ _ | EPartial _ _ | EIdempotent _ _ _ _ =>
      MkSwap (sw_began x) (sw_committed x) (sw_ok x && sw_began x && negb (sw_committed x))
  | EPut _ _ _ => MkSwap (sw_began x) (sw_committed x) (sw_ok x && sw_committed x)
  | _ => x
  end.
Definition swap_ok (tr : list event) : bool := sw_ok (mon_of swap_step swap0 tr).

(** The outcome of an overwrite that must not be swapped in: one call, the abort,
    whose answer is ignored. *)
Definition discarded {E} (s : st E) (r : outcome unit * st E) : Prop :=
  exists x s', r = (Val tt, s') /\ trace s' = trace s ++ [EAbortOverwrite x].

(** The calls of a streaming run under overwrite. *)
Definition streaming (e : event) : Prop :=
  match e with
  | EPut _ _ _ | EBeginOverwrite _ | ECommitOverwrite _ => False
  | _ => True
  end.
(** The calls before the stream starts. *)
Definition resuming (e : event) : Prop :=
  match e with
  | EGet _ _ | EClaim _ _ _ | EDelete _ _ | EStart _ _ | EToken _ _ => True
  | _ => False
  end.

(** ** Facts *)

Section OverwriteFacts.
Context {E : Type}.
Context (display : FaucetError -> string) (redact : string -> string) (to_json : Value -> string).
Context (from_json : string -> option Value) (debug_char : string -> Z -> string).
Context (sink : SinkOps E) (Hov : is_overwrite sink = true).

Notation emits := (emits (E := E) streaming).

Lemma emits_governance records sp cache :
  emits (apply_governance display redact sink records sp cache).
Proof. unfold apply_governance, drift_stage, apply_drift_policy, ask_schema. emits_auto. Qed.

#[local] Hint Resolve emits_governance : emits.

Lemma emits_settle a : emits (@settle_page E a).
Proof. apply emits_none. intros s. unfold settle_page. by destruct (settle a (accounts s)) as [c [[]|]]. Qed.

Lemma emits_elapsed t0 : emits (@elapsed_since E t0).
Proof. by apply emits_none. Qed.

Lemma emits_record o : emits (@record_batch E o).
Proof. by apply emits_none. Qed.

#[local] Hint Resolve emits_settle emits_elapsed emits_record : emits.

Lemma emits_observe_write {A} (m : M E A) : emits m -> emits (observe_write m).
Proof. intros H. unfold observe_write. emits_auto; done. Qed.

Context (options : RunStreamOptions E).

Lemma emits_with_retry {A} (op : nat -> M E A) :
  (forall n, emits (op n)) -> emits (with_retry options op).
Proof. intros H. unfold with_retry. emits_auto; apply H. Qed.

Lemma emits_with_retry_write {A} (op : M E A) : emits op -> emits (with_retry_write sink options op).
Proof. intros H. unfold with_retry_write. emits_auto; try done. by apply emits_with_retry. Qed.

Lemma emits_await d : emits (await_item options d).
Proof.
  apply emits_none. intros s. unfold await_item, cancellable_sleep.
  destruct (ro_source_drains options); [done|]. by repeat case_match.
Qed.

#[local] Hint Resolve emits_await : emits.

(** Under overwrite no path of the loop stores a bookmark. *)
Lemma emits_dlq_chunks dlq fuel governed offset p :
  emits (dlq_chunks display redact sink options dlq fuel governed offset p).
Proof.
  revert offset p. induction fuel as [|fuel IH]; intros offset p; simpl; [emits_auto|].
  assert (forall n chunk o, emits (poison_retry sink options n chunk o)) as Hpoison.
  { induction n as [|n IHn]; intros chunk o; simpl; emits_auto; auto. }
  assert (forall chunk, emits (with_retry_write sink options (gateway_partial sink chunk))) as Hw.
  { intros chunk. apply emits_with_retry_write. unfold gateway_partial. emits_auto. }
  unfold dlq_chunk, write_chunk, poisoned. emits_auto; auto.
Qed.

Lemma emits_dlq_path dlq governed envs acc bm l :
  emits (dlq_path display redact sink options dlq governed envs acc bm l).
Proof.
  pose proof (emits_dlq_chunks dlq) as Hc. unfold dlq_path, dlq_checkpoint, write_envelopes, defer_bookmarks.
  rewrite Hov. emits_auto; auto; apply emits_with_retry; emits_auto.
Qed.

Lemma emits_plain_path governed acc bm l : emits (plain_path sink options governed acc bm l).
Proof.
  assert (forall chunk, emits (observe_write (with_retry_write sink options (gateway_reported sink chunk)))) as Hw.
  { intros chunk. apply emits_observe_write, emits_with_retry_write. unfold gateway_reported. emits_auto. }
  assert (forall fuel i a acc w, emits (plain_chunks sink options fuel governed i a acc w)) as Hc.
  { induction fuel as [|fuel IH]; intros i a acc' w; simpl; emits_auto; auto. }
  unfold plain_path, plain_write, defer_bookmarks, gateway_admit. rewrite Hov. emits_auto; auto.
Qed.

(** The exactly-once gate refuses overwrite, so its path is never taken. *)
Lemma emits_page_loop committed pages eos l :
  emits (page_loop display redact to_json sink options false committed pages eos l).
Proof.
  pose proof emits_dlq_path as Hd. pose proof emits_plain_path as Hp.
  assert (forall page l, emits (process_page display redact to_json sink options false
    committed page l)) as Hproc.
  { intros page l'. unfold process_page, abort_with_envelopes, gateway_dlq, flush_dlq. emits_auto; auto. }
  revert l. induction pages as [|[d item] pages IH]; intros l; simpl; emits_auto; auto.
Qed.

Lemma no_watermark m : select_mechanism sink options = Ok m -> m <> Some AtomicWatermark.
Proof. unfold select_mechanism. rewrite Hov. by repeat case_match; intros; simplify_eq. Qed.

Lemma emits_stream pages eos :
  emits (run_stream_with display redact to_json debug_char sink options pages eos).
Proof.
  pose proof emits_page_loop as Hl. unfold run_stream_with.
  apply emits_bind; [apply emits_lift|]. intros _.
  destruct (select_mechanism sink options) as [m|e] eqn:Hm; [|emits_auto].
  apply no_watermark in Hm.
  assert (forall b : bool, b = false -> emits (run_loop display redact to_json sink options b pages eos)) as H.
  { intros b ->. unfold run_loop, unwind, finish, flush_dlq, flush_main. emits_auto; auto. }
  apply (H (match m with Some AtomicWatermark => true | _ => false end)). by destruct m as [[]|].
Qed.

End OverwriteFacts.

Section Lifecycle.
Context {E : Type}.
Context (display : FaucetError -> string) (redact : string -> string) (to_json : Value -> string).
Context (from_json : string -> option Value) (debug_char : string -> Z -> string).
Context (source : SourceOps E) (sink : SinkOps E) (p : Pipeline E).
Context (Hov : is_overwrite sink = true) (Hown : p_suppress_overwrite_lifecycle p = false).

Notation good := (fun x => sw_ok x = true).
Notation hoare := (hoare (E := E) (mon swap_step swap0) good).

Lemma emits_resume : emits resuming (resume display from_json debug_char source sink p).
Proof.
  assert (forall store key cs, emits (E := E) resuming (migrate_candidates store key cs)) as Hm.
  { intros store key. induction cs as [|c cs IH]; simpl; emits_auto; auto. }
  unfold resume, resume_from_store, resume_from_sink, migrate_state_key, start_from. emits_auto; auto.
Qed.

Lemma hoare_finalize r :
  hoare (fun x => x = MkSwap true false true) (finalize_overwrite source sink p r)
    (fun _ => good) (fun _ => good).
Proof.
  unfold finalize_overwrite.
  eapply hoare_bind with (Q := fun _ x => x = MkSwap true false true); [by intros s Hs|].
  intros c.
  assert (hoare (fun x => x = MkSwap true false true)
    (bind (attempt (call (abort_overwrite sink) EAbortOverwrite)) (fun _ => ret tt))
    (fun _ => good) (fun _ => good)) as Habort.
  { eapply hoare_bind with (Q := fun _ => good); [|intros ?; by apply hoare_ret].
    apply hoare_attempt, hoare_call; [by intros x ->|]. by intros x [] ->. }
  destruct r as [res|e]; [|done]. destruct c; [done|].
  eapply hoare_bind with (Q := fun _ x => x = MkSwap true true true).
  { apply hoare_call; [by intros x ->|]. by intros x [] ->. }
  intros ?. repeat case_match; try (by apply hoare_ret; intros x ->).
  apply hoare_call; [by intros x ->|]. by intros x [] ->.
Qed.

Lemma hoare_overwrite_run :
  hoare (fun x => x = swap0)
    (run display redact to_json from_json debug_char source sink p)
    (fun _ => good) (fun _ => good).
Proof.
  unfold run, run_body, overwriting. rewrite Hov, Hown.
  destruct (src_consumes_destructively source); cbn [andb negb]; [by apply hoare_throw; intros x ->|].
  eapply hoare_bind with (Q := fun _ => good).
  - eapply hoare_bind with (Q := fun _ x => x = swap0).
    { eapply hoare_conseq; [apply (emits_hoare resuming _ _ _ (fun x => x = swap0)); [apply emits_resume|..]|
        done|done|]; [|by intros x ->|by intros ? x ->].
      by intros x [] -> ?. }
    intros n. eapply hoare_bind with (Q := fun _ x => x = swap0); [by intros s Hs|].
    intros s. destruct (stream_pages source (env s)) as [pages eos].
    eapply hoare_bind with (Q := fun _ x => x = MkSwap true false true).
    { apply hoare_call; [by intros x ->|]. by intros x [] ->. }
    intros ?. eapply hoare_bind with (Q := fun _ x => x = MkSwap true false true).
    { apply hoare_attempt. apply (emits_hoare streaming _ _ _ (fun x => x = MkSwap true false true));
        [by apply emits_stream| |by intros x ->].
      intros x [] -> ?; try done; by destruct t. }
    intros r. eapply hoare_bind; [apply hoare_finalize|]. intros ?.
    apply hoare_lift. by destruct r.
  - intros res. eapply hoare_bind with (Q := fun _ => good); [by intros s Hs|].
    intros [|]; [by apply hoare_ret|].
    eapply hoare_bind with (Q := fun _ => good); [|intros ?; by apply hoare_ret].
    apply hoare_call; [done|]. by intros x [].
Qed.

End Lifecycle.

(** C6: a run in overwrite mode swaps before it checkpoints. For every source,
    sink, state store, failure and cancellation, and wherever the process dies:
    no row reaches the sink before [begin_overwrite] succeeded or after the
    commit, the commit comes only after a begun overwrite, and the state store
    is offered a bookmark only after [commit_overwrite] succeeded. *)
Theorem overwrite_swaps_then_checkpoints {E} display redact to_json from_json debug_char
  (source : SourceOps E) sink p e t c j a o :
  is_overwrite sink = true -> p_suppress_overwrite_lifecycle p = false ->
  swap_ok (trace (run display redact to_json from_json debug_char source sink p
                    (MkSt e t c j a o [])).2) = true.
Proof.
  intros Hov Hown.
  pose proof (hoare_overwrite_run display redact to_json from_json debug_char source sink p
    Hov Hown (MkSt e t c j a o []) eq_refl) as H.
  unfold wp in H. by destruct (run _ _ _ _ _ _ _ _ _) as [[] s].
Qed.

(** One page into an overwriting sink, with a state store. *)
Definition swap_log : list StreamPage := [MkStreamPage [VString "a"] (Some (VString "1"))].
Definition swap_sink : SinkOps mem := mem_sink false false true (fun _ => Ok tt).
Definition swap_pipeline : Pipeline mem :=
  MkPipeline (Some mem_store) None None None false None None None None None None AtLeastOnce None false false.

Lemma overwrite_swaps_then_checkpoints_witness :
  swap_ok (trace (run (fun _ => EmptyString) id (fun _ => EmptyString) (fun _ => None) (fun _ _ => EmptyString)
    (mem_source swap_log None) swap_sink swap_pipeline
    (MkSt (mem0 []) 0 None 0 None BatchOutcomeCounters_new [])).2) = true.
Proof.
  apply (overwrite_swaps_then_checkpoints (fun _ => EmptyString) id (fun _ => EmptyString) (fun _ => None)
    (fun _ _ => EmptyString) (mem_source swap_log None) swap_sink swap_pipeline);
    reflexivity.
Defined.

(** A failed or cancelled overwrite is discarded. When the streaming run
    returned an error, or the cancellation token has fired by the end of it,
    [Pipeline::run] calls [abort_overwrite] and neither commits nor stores a
    bookmark, and an error of the abort itself does not replace the outcome. *)
Theorem failed_overwrite_discarded {E} (source : SourceOps E) sink p r s :
  crash_in s = None -> is_ok r = false \/ fires_by (p_cancel p) (clock s) = true ->
  discarded s (finalize_overwrite source sink p r s).
Proof.
  intros Hc Hr. unfold discarded, finalize_overwrite, bind, is_cancelled, attempt, call.
  assert (match r, fires_by (p_cancel p) (clock s) with Ok _, false => False | _, _ => True end)
    by (destruct r, (fires_by _ _); naive_solver).
  destruct r, (fires_by _ _); try done; rewrite Hc;
    destruct (abort_overwrite sink (env s)) as [[[] ?] ?]; eexists _, _; split; (reflexivity || done).
Qed.

Lemma failed_overwrite_discarded_witness :
  discarded (start (mem0 [])) (finalize_overwrite (mem_source swap_log None) swap_sink swap_pipeline
    (Err (Sink "full")) (start (mem0 []))).
Proof.
  apply (failed_overwrite_discarded (mem_source swap_log None) swap_sink swap_pipeline (Err (Sink "full"))
    (start (mem0 []))); [reflexivity|left; reflexivity].
Defined.

(** A pipeline changed from exactly-once back to at-least-once hands its source
    the stored exactly-once wrapper as the start bookmark, not the bookmark in
    it. *)
Example downgrade_hands_wrapper :
  existsb (fun e => match e with EStart b _ => is_eo_envelope b | _ => false end)
    (trace (run (fun _ => EmptyString) id (fun _ => EmptyString) (fun _ => None) (fun _ _ => EmptyString)
       (mem_source swap_log None)
       (mem_sink false false false (fun _ => Ok tt)) swap_pipeline
       (start (MkMem [] [] None
          (Some (encode (MkCodec "memory-source" 0 false) (wrap_state (Some (VString "1")) 1))) None []))).2)
  = true.
Proof. vm_compute. reflexivity. Qed.
